(* ===== verification/_CoqProject ===== *)
-Q . S2P
Prelude.v
M4Eval.v
M4Correct.v
M4Engine.v
M4Scan.v
M4Macro.v
M4Safe.v
M4Builtins.v
M4Witness.v
BcNumber.v
BcLex.v
BcParse.v
BcInterp.v
BcSyntax.v
BcTotal.v
BcRun.v
BcPrograms.v
BcMath.v
BcSeries.v
BcWitness.v
Heap.v
Tsort.v
TsortCorrect.v
PatchParse.v
PatchApply.v
PatchApplyCorrect.v
PatchParseCorrect.v
PatchEd.v
EdBuffer.v
EdCorrect.v
EdGlobal.v
BreMatch.v
BreCorrect.v
BreParse.v
BreParseCorrect.v
DiffMyers.v
DiffMyersCorrect.v
Diff.v
DiffCorrect.v
DiffOutput.v
PatchFile.v
DiffPatch.v
DiffEd.v
SortOrder.v
SortKey.v
SortCompare.v
SortFast.v
SortMain.v
SortNumber.v
SortRadix.v
SortParallel.v
SortCorrect.v
SortOutput.v
SortCommand.v
SortKeyCorrect.v
SortWitness.v
Comm.v
CommCorrect.v
Uniq.v
UniqCorrect.v
Pipes.v
Join.v
JoinCorrect.v
JoinTotal.v
TextWitness.v
