(* ===== verification/Prelude.v ===== *)
(** * Verification of the coreutils userland

    The repository is a userland in Go: some 150 commands, each a package
    under src/cmds/ that registers itself with the framework in src/tool/ and
    runs against a context (arguments, streams, environment), and libraries
    under src/pkg/. The commands share no state; they meet in the data they
    exchange. This development models the parts that compute: evaluators,
    number and text algorithms, an editor, and the chain from [diff] to
    [patch]. Flags, files, processes and terminals are left out.

    ** Conventions

    A Go byte is a [Z] in [0, 256), a string or byte slice a [list Z], an
    [int] a [Z]; where the width matters (the 32-bit arithmetic of m4) the
    wrap-around is written out. A function that can index out of range or
    divide by zero, or whose loop needs fuel, returns an [outcome]: [Ret],
    [Panic] or [OutOfFuel]. Go errors are values of inductive types. A slice
    walked by an index is the list from that index on where nothing else of
    the slice is used. Code outside the repository is a parameter of the
    definitions that use it: [strings.EqualFold] and the class parser of
    brackets (BreMatch, BreParse), the regular expressions and the address
    reader of the editor (EdBuffer), the files, shell, process number, random
    bytes and map order m4 calls on (the record [host] of M4Engine), the
    floating-point numbers of math/big (the record [BigFloat] of BcMath),
    [time.Format] (Diff), the answer typed at the prompt of patch (PatchFile),
    [strings.ToUpper], [slices.SortFunc], [sort.SliceStable], the number of
    processors and the collation of the locale (SortFast, SortMain, Comm,
    Join), [strings.TrimSpace], [strconv.Quote] and the character classes of
    the locale (Uniq, Join).

    ** Files, in order

    - Prelude: bytes, literals, the [outcome] monad with [let!], slices and
      indices, decimal numbers, and the lemmas, hints and tactics shared.
    - M4Eval, M4Correct (src/cmds/m4/eval.go): the recursive-descent evaluator
      of the built-in [eval], one definition per method over the state
      [evaluator]; it returns on every input, and on every printed syntax tree
      it computes the tree's value or error ([evalExpr_denotes]): precedence,
      associativity, short circuits, 32-bit arithmetic.
    - M4Engine (src/cmds/m4/engine.go, builtins.go, m4.go): the macro processor
      of m4, its input stack, quoting, diversions and every built-in, and the
      command. M4Scan, M4Macro: what the scanner reads, text without calls is
      copied ([m4_copies]), a macro defined in the text is expanded when called
      ([define_then_call]). M4Safe: the invariant of the processor
      ([process_invariant]). M4Builtins: diversions, argument forwarding, pushed
      definitions, index and substr, translit, the digits of eval. M4Witness:
      concrete runs.
    - BcNumber (src/cmds/internal/bc/number.go): the decimals of bc; exact
      specifications of every operation over the rationals, and printing and
      parsing in all bases.
    - BcLex, BcParse, BcInterp, BcMath (src/cmds/internal/bc/ lexer.go,
      interpreter.go, math.go): the language of bc: lexer, parser, syntax
      trees, interpreter, and the math library over Go's big.Float. BcSeries:
      what the library computes when the operations of big.Float round to the
      precision, which the class [Rounding] states ([mathCall_series]). BcSyntax,
      BcTotal: printed programs are read back, and lexing and parsing return
      on every text ([parser_returns]). BcRun, BcPrograms: running the text of
      a program is running its statements ([Execute_runs]), the limits of the
      registers ([Execute_limits]), the scope of calls ([call_scope]), exact
      expressions, a recursive program. BcWitness: concrete programs, and the
      fractions as numbers of the class [Rounding].
    - Heap, Tsort, TsortCorrect (src/cmds/tsort/tsort.go): the heap of
      container/heap behind the class [PriorityQueue], Kahn's algorithm with
      loop search; the output is a topological order of all items but for the
      loops reported, and the least one in text order without loops.
    - PatchParse, PatchApply, PatchApplyCorrect, PatchParseCorrect, PatchEd
      (src/pkg/patch/): data, the parser of four formats, reject files, hunk
      search with fuzz, application, -D, and ed scripts. Apply splices in
      exactly the hunks it reports; the best place is chosen; patches reverse;
      printed rejects are parsed back; the parser and the ed interpreter
      return on every input.
    - EdBuffer, EdCorrect, EdGlobal (src/cmds/internal/editor/ buffer.go,
      operations.go, engine.go, address.go): the engine of ed. The commands
      refine an abstract editor whose lines have identities, so that marks and
      global targets follow their lines; undo, g and v, sessions, searches,
      files to buffers and back.
    - BreMatch, BreCorrect, BreParse, BreParseCorrect (src/pkg/bre/regexp.go,
      intervals of bre.go): the matcher for back-references and its compiler;
      equivalence with the POSIX meaning of patterns, the leftmost and longest
      matches of a search in bytes and in C.UTF-8, termination and well-formedness of compilation.
    - DiffMyers, DiffMyersCorrect (src/cmds/diff/myers.go): the linear-space
      Myers algorithm; the script is valid and of minimal length.
    - Diff, DiffCorrect, DiffOutput (src/cmds/diff/diff.go): keys under -i, -w
      and -b, change groups, five formats, exit status; the groups are a
      minimal edit and the status says whether the files differ.
    - PatchFile, DiffPatch, DiffEd (src/cmds/patch/patch.go): the command's
      policy, and the composition of the two commands: what diff -u or diff -e
      writes, patch applies to give the new file byte for byte, unless lines
      end in carriage returns.
    - SortOrder: comparison functions, the strict weak orders Go's package
      slices asks for ([CmpOrder]), the stable sort as the reference and its
      uniqueness, the library's unstable sort by its law ([SortFunc]).
    - SortKey, SortCompare, SortFast, SortMain (src/cmds/sort/): key
      specifications and extraction, the comparator of each ordering option,
      the parallel merge sort and the radix sort, and the command. SortNumber:
      -n compares exact values ([numCompare_value]), -V version keys. SortRadix,
      SortParallel: both routines are the stable sort. SortCorrect, SortOutput:
      the comparison of lines is an order and every path gives its stable sort.
      SortCommand: what is written ([sort_inputs_stable]), what -c accepts and
      reports, what -m writes. SortKeyCorrect: keys are fields
      ([extractKey_fields]) and are parsed from their text. SortWitness:
      concrete runs.
    - Comm, CommCorrect (src/cmds/comm/comm.go): the three columns, the checks
      of the order and the buffered output; what is written and reported for
      any two files ([comm_checks_order]), and that sorted files are
      partitioned ([comm_partitions]).
    - Uniq, UniqCorrect (src/cmds/uniq/uniq.go): keys in the characters of the
      locale ([skipKey_chars]) and what the flags make the command write of
      the runs of equal keys ([uniq_writes]).
    - Pipes: the three commands composed: comm after sort gives differences
      and the intersection of multisets ([sort_comm]), uniq after sort counts
      and agrees with sort -u ([sort_uniq]).
    - Join, JoinCorrect, JoinTotal (src/cmds/join/): the walk over groups of
      two files is the relational join ([join_relational]), and it returns on
      all input ([join_returns]). TextWitness: concrete runs of comm, uniq and
      join.
    ** Fuel

    Fuel is never a bound of the program. Each loop that is not structural
    gets a bound from its input (the length of the text, the lines left, the
    nodes and edges of the graph, n + m edits in a half of the Myers search),
    and a theorem shows that [OutOfFuel] is not the result: [evalExpr_returns],
    [Parse_returns], [parser_returns], [applyEd_returns], [compile_returns_ok], [find_reports],
    [run_sorts], [myersOps_minimal], [sort_inputs_stable], [comm_checks_order]
    and [join_returns] state it, and every other theorem that gives a
    result with [Ret] implies it. A run of m4 or bc need not end: its
    definitions take any fuel (for m4 more fuel never changes a result,
    [process_extends]), and a theorem about a run states that it ends with
    all fuel from some bound on. The step limit of the matcher of
    src/pkg/bre is the program's own and is kept as it is.

    ** Where the code departs from what it says

    - [diff_c_patch_panics], [context_insertion_misread]: a context hunk with
      an insertion away from its deletions is interleaved wrongly, and the
      output of this repository's diff -c makes its patch panic.
    - [crlf_not_patched]: patch strips the carriage returns of the lines of a
      patch, so that the output of diff for files with CRLF line ends does not
      apply to them.
    - [Apply_malformed_panics]: so does a context hunk whose header counts
      fewer lines than its body has.
    - [Pow_zero_negative_panics]: [0 ^ -1] in bc panics.
    - [call_duplicate_leaks]: a bc function with a name that is both parameter
      and automatic variable overwrites the global variable of that name.
    - [string_read_as_syntax]: bc reads the string of a brace or an operator
      as that token.
    - [compound_index_twice]: bc evaluates the index of a compound assignment
      twice.
    - [search_backward_from_zero]: a backward search of ed from line 0 tries
      the last line last.
    - [interval_of_empty_missed], [escaped_character_cut]: an interval over a
      group that can be empty, and an escaped character beyond ASCII.
    - [m4_recodes_bytes]: m4 writes an unquoted byte beyond ASCII as two bytes.
    - [key_offset_panics]: sort accepts key offsets that wrap around at 64 bits
      and panics when it extracts the key.
    - [random_unique_one_line]: sort -R -u writes one line.
    - [general_overflow_first]: sort -g puts 1e400 before every number.
    - [parseKeySpec_no_badType]: the parser of keys never reports the letters
      its comment says it does not cover.
    - [check_order_loses_output]: an early return of comm drops the output
      that is still in its buffer.
    - [check_chars_counts_bytes]: uniq -w counts bytes where -s counts
      characters.
    - [blank_header_dropped], [header_line_numbers]: join --header takes a
      blank first line for a missing one, and counts lines from the header.

    ** Not modelled

    Flag parsing and the framework; what a command does to files, processes
    and terminals (src/cmds/{cp,mv,rm,ls,find,pax,...}); the third-party awk;
    translation of expressions without back-references to Go's own regexp
    package, and the commands built on it (grep, sed); locale data; hash
    functions and codecs of the Go library. Within the parts modelled: the
    reading of addresses and the input and output commands of ed; directories
    in diff; file names, backups and reject files on disk in patch; in sort,
    a collation that fails half-way; in comm, uniq and join, a write that
    fails. Sums of line numbers are not wrapped at 64 bits.

    ** Plan

    Next in order: the filters by position (cut, paste, fold, expand); the
    mode language of chmod; the command line of bc; directory comparison of
    diff. *)

From Stdlib Require Import ZArith Lia String Ascii.
From stdpp Require Import base tactics list numbers strings.

(** ** Bytes and strings

    A Go [byte] is a [Z] in [0, 256), a Go [string] or [[]byte] a [list Z].
    Literals of the source are written with the two notations below, which
    are evaluated when the definition is elaborated: [ch! "+"] is the number
    43 and [str! "**"] the list [42; 42]. *)

Definition byte_of_ascii (a : ascii) : Z := Z.of_N (N_of_ascii a).

Fixpoint bytes_of_string (s : string) : list Z :=
  match s with
  | EmptyString => []
  | String a s' => byte_of_ascii a :: bytes_of_string s'
  end.

Definition byte_of_string (s : string) : Z :=
  match s with
  | EmptyString => 0
  | String a _ => byte_of_ascii a
  end.

Declare Scope go_scope.
Delimit Scope go_scope with go.

Notation "'ch!' s" :=
  ltac:(let v := eval vm_compute in (byte_of_string s%string) in exact v)
  (at level 1, s at level 0, only parsing) : go_scope.
Notation "'str!' s" :=
  ltac:(let v := eval vm_compute in (bytes_of_string s%string) in exact v)
  (at level 1, s at level 0, only parsing) : go_scope.
Open Scope go_scope.
Open Scope Z_scope.

Definition is_byte (b : Z) : bool := (0 <=? b) && (b <? 256).

(** Equality of strings, as [==] on Go strings. *)
Fixpoint str_eqb (a b : list Z) : bool :=
  match a, b with
  | [], [] => true
  | x :: a', y :: b' => (x =? y) && str_eqb a' b'
  | _, _ => false
  end.

(** Lexicographic order on bytes, as [<] on Go strings. *)
Fixpoint str_ltb (a b : list Z) : bool :=
  match a, b with
  | _, [] => false
  | [], _ :: _ => true
  | x :: a', y :: b' => (x <? y) || ((x =? y) && str_ltb a' b')
  end.

(** [strings.HasPrefix]. *)
Fixpoint has_prefix (s p : list Z) : bool :=
  match p, s with
  | [], _ => true
  | y :: p', x :: s' => (x =? y) && has_prefix s' p'
  | _ :: _, [] => false
  end.

(** [strings.IndexByte]. *)
Fixpoint index_byte (s : list Z) (b : Z) : option nat :=
  match s with
  | [] => None
  | x :: s' => if x =? b then Some 0%nat else S <$> index_byte s' b
  end.

(** [strings.Split] on a one-byte separator: one part more than there are
    separators. *)
Fixpoint split_byte (sep : Z) (s : list Z) : list (list Z) :=
  match s with
  | [] => [[]]
  | c :: s' =>
      if c =? sep then [] :: split_byte sep s'
      else match split_byte sep s' with
           | p :: ps => (c :: p) :: ps
           | [] => [[c]]
           end
  end.

(** [strings.Join]. *)
Fixpoint join (sep : list Z) (parts : list (list Z)) : list Z :=
  match parts with
  | [] => []
  | [p] => p
  | p :: ps => p ++ sep ++ join sep ps
  end.

(** [strings.TrimLeft] and [strings.TrimRight] with a set of bytes. *)
Fixpoint trim_left (p : Z -> bool) (s : list Z) : list Z :=
  match s with
  | c :: s' => if p c then trim_left p s' else s
  | [] => []
  end.

Definition trim_right (p : Z -> bool) (s : list Z) : list Z := rev (trim_left p (rev s)).

(** [strings.TrimSuffix] with a one-byte suffix. *)
Definition trim_suffix_byte (c : Z) (s : list Z) : list Z :=
  match rev s with
  | x :: r => if x =? c then rev r else s
  | [] => []
  end.

(** [strings.HasSuffix] with a one-byte suffix. *)
Definition has_suffix_byte (c : Z) (s : list Z) : bool :=
  match rev s with
  | x :: _ => x =? c
  | [] => false
  end.

Definition is_digit (c : Z) : bool := (ch! "0" <=? c) && (c <=? ch! "9").
Definition is_blank (c : Z) : bool := (c =? ch! " ") || (c =? 9).

(** [strings.ToUpper] on ASCII. *)
Definition upper (c : Z) : Z :=
  if (ch! "a" <=? c) && (c <=? ch! "z") then c - 32 else c.

(** ** Running Go code

    [Ret] is a normal return, [Panic] a run-time panic (an index out of
    range, a division by zero) and [OutOfFuel] the end of the fuel of a
    recursion that is not structural; theorems of totality exclude the last
    two. *)

Inductive outcome (A : Type) : Type :=
| Ret (a : A)
| Panic
| OutOfFuel.

Arguments Ret {A} a.
Arguments Panic {A}.
Arguments OutOfFuel {A}.

Definition bind {A B} (c : outcome A) (k : A -> outcome B) : outcome B :=
  match c with
  | Ret a => k a
  | Panic => Panic
  | OutOfFuel => OutOfFuel
  end.

Notation "'let!' x := c 'in' k" := (bind c (fun x => k))
  (at level 10, x pattern, c at level 100, k at level 200) : go_scope.

(** [s[i]] on a slice or a string. *)
Definition index {A} (l : list A) (i : Z) : outcome A :=
  if i <? 0 then Panic
  else match l !! Z.to_nat i with Some x => Ret x | None => Panic end.

(** [s[i:j]] with [0 <= i <= j <= len(s)]. *)
Definition slice {A} (l : list A) (i j : Z) : outcome (list A) :=
  if (0 <=? i) && (i <=? j) && (j <=? Z.of_nat (length l))
  then Ret (take (Z.to_nat (j - i)) (drop (Z.to_nat i) l))
  else Panic.

Definition len {A} (l : list A) : Z := Z.of_nat (length l).

(** ** Machine integers

    A [w]-bit unsigned integer is kept in [0, 2^w), a signed one in
    [-2^(w-1), 2^(w-1)); every operation that can leave the range is wrapped
    where the source computes it. *)

Definition wrapu (w z : Z) : Z := z mod 2 ^ w.
Definition wraps (w z : Z) : Z := (z + 2 ^ (w - 1)) mod 2 ^ w - 2 ^ (w - 1).

Definition in_uint (w z : Z) : Prop := 0 <= z < 2 ^ w.
Definition in_sint (w z : Z) : Prop := - 2 ^ (w - 1) <= z < 2 ^ (w - 1).

Abbreviation uint32 := (wrapu 32).
Abbreviation uint64 := (wrapu 64).
Abbreviation int32 := (wraps 32).
Abbreviation int64 := (wraps 64).

(** [truth] and the other bool-to-int conversions of the source. *)
Definition b2z (b : bool) : Z := if b then 1 else 0.

(** [string(b)] of a byte: the encoding of the character with that number. *)
Definition string_of_byte (b : Z) : list Z :=
  if b <? 128 then [b] else [192 + b / 64; 128 + b mod 64].

(** ** Numerals

    [digits b n] is the base-[b] expansion of [n >= 0], most significant
    digit first and empty for 0 (a number has at most [log2 n + 1] digits);
    [undigits] is the usual accumulation [v*b + d]. *)

Fixpoint digits_aux (fuel : nat) (base n : Z) (acc : list Z) : list Z :=
  match fuel with
  | O => acc
  | S f => if n =? 0 then acc else digits_aux f base (n / base) (n mod base :: acc)
  end.

Definition digits (base n : Z) : list Z :=
  digits_aux (Z.to_nat (Z.log2 n + 1)) base n [].

Definition undigits_from (base v : Z) (l : list Z) : Z :=
  fold_left (fun v d => v * base + d) l v.

Definition undigits (base : Z) (l : list Z) : Z := undigits_from base 0 l.

Definition utoa (n : Z) : list Z :=
  if n =? 0 then [ch! "0"] else (fun d => d + ch! "0") <$> digits 10 n.

(** [strconv.Itoa] and [String] of a [big.Int]. *)
Definition itoa (n : Z) : list Z :=
  if n <? 0 then ch! "-" :: utoa (- n) else utoa n.

(** [strconv.ParseInt(s, 10, bits)]; [None] is an error. *)
Definition ParseInt (bits : Z) (s : list Z) : option Z :=
  let '(neg, ds) :=
    match s with
    | c :: rest => if c =? ch! "-" then (true, rest) else if c =? ch! "+" then (false, rest) else (false, s)
    | [] => (false, [])
    end in
  match ds with
  | [] => None
  | _ =>
      if forallb is_digit ds then
        let v := undigits 10 ((fun c => c - ch! "0") <$> ds) in
        let v := if (neg : bool) then - v else v in
        if (- 2 ^ (bits - 1) <=? v) && (v <? 2 ^ (bits - 1)) then Some v else None
      else None
  end.

(** ** Tactics *)

(** Case analysis on the boolean tests and matches of the goal. *)
Ltac cases :=
  repeat match goal with
  | |- context [match ?x with _ => _ end] => destruct x eqn:?
  | |- context [if ?x then _ else _] => destruct x eqn:?
  end.

(** Turn boolean comparisons of the context into propositions. *)
Ltac to_prop :=
  repeat match goal with
  | H : (_ && _) = true |- _ => apply andb_true_iff in H as [? ?]
  | H : (_ || _) = false |- _ => apply orb_false_iff in H as [? ?]
  | H : negb _ = true |- _ => apply negb_true_iff in H
  | H : negb _ = false |- _ => apply negb_false_iff in H
  | H : (_ =? _) = true |- _ => apply Z.eqb_eq in H
  | H : (_ =? _) = false |- _ => apply Z.eqb_neq in H
  | H : (_ <? _) = true |- _ => apply Z.ltb_lt in H
  | H : (_ <? _) = false |- _ => apply Z.ltb_ge in H
  | H : (_ <=? _) = true |- _ => apply Z.leb_le in H
  | H : (_ <=? _) = false |- _ => apply Z.leb_gt in H
  end.

(** Decompose an [outcome] computation that is known to return. *)
Ltac unret :=
  repeat match goal with
  | H : Ret _ = Ret _ |- _ => injection H as H; subst
  | H : Panic = Ret _ |- _ => discriminate H
  | H : OutOfFuel = Ret _ |- _ => discriminate H
  | H : bind ?c _ = Ret _ |- _ => destruct c eqn:?; cbn [bind] in H
  | H : (let '(_, _) := ?p in _) = Ret _ |- _ => destruct p eqn:?
  end.

(** ** Strings *)

Lemma str_eqb_eq a b : str_eqb a b = true <-> a = b.
Proof.
  revert b; induction a as [|x a IH]; destruct b as [|y b]; cbn; try easy.
  rewrite andb_true_iff, Z.eqb_eq, IH. naive_solver.
Qed.

Lemma str_eqb_refl a : str_eqb a a = true.
Proof. by apply str_eqb_eq. Qed.

Lemma str_eqb_neq a b : str_eqb a b = false <-> a <> b.
Proof. rewrite <- str_eqb_eq. by destruct (str_eqb a b). Qed.

Lemma str_eqb_spec a b : reflect (a = b) (str_eqb a b).
Proof. apply iff_reflect. symmetry. apply str_eqb_eq. Qed.

Lemma str_ltb_asym a b : str_ltb a b = true -> str_ltb b a = false.
Proof.
  revert b; induction a as [|x a IH]; destruct b as [|y b]; cbn; try easy.
  destruct (Z.ltb_spec x y), (Z.ltb_spec y x), (Z.eqb_spec x y), (Z.eqb_spec y x);
    cbn; try done; try lia. apply IH.
Qed.

Lemma str_ltb_irrefl a : str_ltb a a = false.
Proof. destruct (str_ltb a a) eqn:E; [|done]. by rewrite (str_ltb_asym a a E) in E. Qed.

Lemma str_ltb_trans_neg a b c :
  str_ltb b a = false -> str_ltb c b = false -> str_ltb c a = false.
Proof.
  revert b c; induction a as [|x a IH]; destruct b as [|y b]; destruct c as [|z c]; cbn; try easy.
  destruct (Z.ltb_spec y x), (Z.ltb_spec z y), (Z.ltb_spec z x),
    (Z.eqb_spec y x), (Z.eqb_spec z y), (Z.eqb_spec z x);
    cbn; try done; try lia. apply IH.
Qed.

Lemma str_ltb_total a b : str_ltb a b = false -> str_ltb b a = false -> a = b.
Proof.
  revert b; induction a as [|x a IH]; destruct b as [|y b]; cbn; try easy.
  destruct (Z.ltb_spec x y), (Z.ltb_spec y x), (Z.eqb_spec x y), (Z.eqb_spec y x);
    cbn; try done; try lia. intros H1 H2. f_equal; [done|]. by apply IH.
Qed.

Lemma has_prefix_app p s : has_prefix (p ++ s) p = true.
Proof. induction p; cbn; [by destruct s|]. by rewrite Z.eqb_refl, IHp. Qed.

Lemma has_prefix_nil s : has_prefix s [] = true.
Proof. by destruct s. Qed.

Lemma has_prefix_one s x c : has_prefix (x :: s) [c] = (x =? c).
Proof. cbn. by rewrite has_prefix_nil, andb_true_r. Qed.

Lemma has_prefix_spec s p :
  has_prefix s p = true <-> exists t, s = p ++ t.
Proof.
  split; [|intros [t ->]; apply has_prefix_app].
  revert s; induction p as [|y p IH]; intros s; cbn; [eauto|].
  destruct s as [|x s]; [done|]. intros [->%Z.eqb_eq [t ->]%IH]%andb_true_iff.
  by exists t.
Qed.

Lemma split_byte_none sep s : sep ∉ s -> split_byte sep s = [s].
Proof.
  induction s as [|c s IH]; [done|]. cbn. intros [Hc Hs]%not_elem_of_cons.
  destruct (Z.eqb_spec c sep); [done|]. by rewrite IH.
Qed.

Lemma split_byte_app sep a b :
  sep ∉ a -> split_byte sep (a ++ sep :: b) = a :: split_byte sep b.
Proof.
  induction a as [|c a IH]; cbn; [by rewrite Z.eqb_refl|].
  intros [Hc Ha]%not_elem_of_cons. destruct (Z.eqb_spec c sep); [done|]. by rewrite IH.
Qed.

Lemma split_sep_nonempty sep s : split_byte sep s <> [].
Proof. destruct s as [|c s]; [done|]. cbn. destruct (c =? sep); [done|]. by destruct (split_byte sep s). Qed.

Lemma join_split_sep sep s : join [sep] (split_byte sep s) = s.
Proof.
  induction s as [|c s IH]; [done|]. pose proof (split_sep_nonempty sep s) as Hne. cbn [split_byte].
  destruct (split_byte sep s) as [|p ps]; [done|]. rewrite <- IH.
  destruct (Z.eqb_spec c sep) as [->|]; [done|by destruct ps].
Qed.

Lemma split_nonempty s : split_byte 10 s <> [].
Proof. apply split_sep_nonempty. Qed.

Lemma join_split s : join [10] (split_byte 10 s) = s.
Proof. apply join_split_sep. Qed.

Lemma index_byte_none s c : c ∉ s -> index_byte s c = None.
Proof.
  induction s as [|x s IH]; [done|]. intros [? ?]%not_elem_of_cons. cbn.
  destruct (Z.eqb_spec x c); [congruence|]. by rewrite IH.
Qed.

Lemma split_snoc s : split_byte 10 (s ++ [10]) = split_byte 10 s ++ [[]].
Proof.
  induction s as [|c s IH]; [done|]. pose proof (split_nonempty s) as Hne.
  cbn [app split_byte]. rewrite IH. destruct (c =? 10); [done|]. by destruct (split_byte 10 s).
Qed.

(** ** Outcomes *)

Lemma index_Ret {A} (l : list A) i x :
  index l i = Ret x <-> 0 <= i /\ l !! Z.to_nat i = Some x.
Proof.
  unfold index. destruct (Z.ltb_spec i 0); [naive_solver lia|].
  destruct (l !! Z.to_nat i); naive_solver.
Qed.

Lemma index_app_r {A} (l k : list A) x :
  index (l ++ x :: k) (len l) = Ret x.
Proof.
  apply index_Ret. unfold len. split; [lia|].
  by rewrite Nat2Z.id, list_lookup_middle.
Qed.

(** ** Machine integers *)

Lemma wrapu_range w z : 0 <= w -> in_uint w (wrapu w z).
Proof. intros. apply Z.mod_pos_bound. lia. Qed.

Lemma wraps_range w z : 0 < w -> in_sint w (wraps w z).
Proof.
  intros Hw. unfold in_sint, wraps.
  pose proof (Z.mod_pos_bound (z + 2 ^ (w - 1)) (2 ^ w) ltac:(lia)).
  replace (2 ^ w) with (2 * 2 ^ (w - 1)) in * by
    (rewrite <- Z.pow_succ_r by lia; f_equal; lia).
  lia.
Qed.

Lemma wrapu_id w z : in_uint w z -> wrapu w z = z.
Proof. apply Z.mod_small. Qed.

Lemma wraps_id w z : 0 < w -> in_sint w z -> wraps w z = z.
Proof.
  unfold in_sint, wraps. intros Hw Hz. rewrite Z.mod_small; [lia|].
  replace (2 ^ w) with (2 * 2 ^ (w - 1)) by
    (rewrite <- Z.pow_succ_r by lia; f_equal; lia).
  lia.
Qed.

(** [wraps] depends only on the residue modulo [2^w]. *)
Lemma wraps_mod w a b : a mod 2 ^ w = b mod 2 ^ w -> wraps w a = wraps w b.
Proof.
  unfold wraps. intros H.
  by rewrite <- (Zplus_mod_idemp_l a), <- (Zplus_mod_idemp_l b), H.
Qed.

Lemma wraps_residue w z : wraps w z mod 2 ^ w = z mod 2 ^ w.
Proof.
  unfold wraps. rewrite Zminus_mod_idemp_l. f_equal. lia.
Qed.

Lemma wraps_idemp w z : wraps w (wraps w z) = wraps w z.
Proof. apply wraps_mod, wraps_residue. Qed.

Lemma wraps_mul_l w a b : wraps w (wraps w a * b) = wraps w (a * b).
Proof.
  apply wraps_mod.
  by rewrite <- Zmult_mod_idemp_l, wraps_residue, Zmult_mod_idemp_l.
Qed.

Lemma wraps_mul_r w a b : wraps w (a * wraps w b) = wraps w (a * b).
Proof. by rewrite Z.mul_comm, wraps_mul_l, Z.mul_comm. Qed.

Lemma wraps_wrapu w z : wraps w (wrapu w z) = wraps w z.
Proof. apply wraps_mod, Zmod_mod. Qed.

(** A number is in the signed range iff all bits from [w-1] on are equal,
    so the range is closed under the bitwise operations. *)
Lemma in_sint_shiftr w z :
  0 < w -> in_sint w z <-> -1 <= Z.shiftr z (w - 1) <= 0.
Proof.
  intros Hw. unfold in_sint. rewrite Z.shiftr_div_pow2 by lia.
  pose proof (Z.pow_pos_nonneg 2 (w - 1) ltac:(lia) ltac:(lia)) as Hp.
  generalize dependent (2 ^ (w - 1)). intros p Hp.
  pose proof (Z.div_mod z p ltac:(lia)). pose proof (Z.mod_pos_bound z p Hp).
  split; intros; nia.
Qed.

Ltac sign_bits lem :=
  repeat match goal with H : in_sint _ _ |- _ => apply in_sint_shiftr in H; [|done] end;
  apply in_sint_shiftr; [done|]; rewrite lem;
  repeat match goal with
  | H : -1 <= ?x <= 0 |- _ =>
      let E := fresh in
      assert (x = -1 \/ x = 0) as [E|E] by lia; rewrite E; clear E H
  end; split; vm_compute; discriminate.

Lemma in_sint_lor w a b : 0 < w -> in_sint w a -> in_sint w b -> in_sint w (Z.lor a b).
Proof. by intros; sign_bits Z.shiftr_lor. Qed.

Lemma in_sint_land w a b : 0 < w -> in_sint w a -> in_sint w b -> in_sint w (Z.land a b).
Proof. by intros; sign_bits Z.shiftr_land. Qed.

Lemma in_sint_lxor w a b : 0 < w -> in_sint w a -> in_sint w b -> in_sint w (Z.lxor a b).
Proof. by intros; sign_bits Z.shiftr_lxor. Qed.

Lemma in_sint_lnot w a : in_sint w a -> in_sint w (Z.lnot a).
Proof. unfold in_sint, Z.lnot. lia. Qed.

Lemma in_sint_shiftr_r w a n : 0 <= n -> in_sint w a -> in_sint w (Z.shiftr a n).
Proof.
  unfold in_sint. intros Hn. rewrite Z.shiftr_div_pow2 by done.
  pose proof (Z.pow_pos_nonneg 2 n ltac:(lia) ltac:(lia)) as Hp.
  pose proof (Z.pow_nonneg 2 (w - 1) ltac:(lia)).
  intros [??]. split.
  - apply Z.div_le_lower_bound; nia.
  - apply Z.div_lt_upper_bound; nia.
Qed.

Lemma rem_abs_le a b : Z.abs (Z.rem a b) <= Z.abs a.
Proof.
  destruct (decide (b = 0)) as [->|Hb]; [by destruct a|].
  rewrite <- Z.rem_abs by done. apply Z.rem_le; lia.
Qed.

Lemma rem_sign a b : b <> 0 -> 0 <= a * Z.rem a b.
Proof. intros. rewrite Z.mul_comm. by apply Z.rem_sign_mul. Qed.

Lemma in_sint_rem w a b : b <> 0 -> in_sint w a -> in_sint w (Z.rem a b).
Proof.
  unfold in_sint. intros Hb Ha.
  pose proof (rem_abs_le a b). pose proof (rem_sign a b Hb).
  pose proof (Z.pow_nonneg 2 (w - 1)). nia.
Qed.

Lemma in_sint_b2z w b : 2 <= w -> in_sint w (b2z b).
Proof.
  unfold in_sint. intros.
  pose proof (Z.pow_le_mono_r 2 1 (w - 1) ltac:(lia) ltac:(lia)).
  destruct b; cbn; lia.
Qed.

(** ** Numerals *)

Lemma digits_aux_S f base n acc :
  digits_aux (S f) base n acc =
  if n =? 0 then acc else digits_aux f base (n / base) (n mod base :: acc).
Proof. done. Qed.

Lemma undigits_from_app base v l k :
  undigits_from base v (l ++ k) = undigits_from base (undigits_from base v l) k.
Proof. apply fold_left_app. Qed.

Lemma undigits_from_cons base v d l :
  undigits_from base v (d :: l) = undigits_from base (v * base + d) l.
Proof. done. Qed.

Lemma undigits_from_shift base v l :
  undigits_from base v l = v * base ^ Z.of_nat (length l) + undigits base l.
Proof.
  unfold undigits. revert v; induction l as [|d l IH]; intros v.
  - cbn. lia.
  - cbn [length]. rewrite Nat2Z.inj_succ, Z.pow_succ_r by lia.
    rewrite !undigits_from_cons, (IH (v * base + d)), (IH (0 * base + d)). ring.
Qed.

Lemma undigits_cons base d l :
  undigits base (d :: l) = d * base ^ Z.of_nat (length l) + undigits base l.
Proof.
  unfold undigits at 1. rewrite undigits_from_cons, undigits_from_shift. f_equal.
Qed.

Lemma undigits_app base l k :
  undigits base (l ++ k) = undigits base l * base ^ Z.of_nat (length k) + undigits base k.
Proof.
  unfold undigits at 1. rewrite undigits_from_app. apply undigits_from_shift.
Qed.

Lemma undigits_range base l :
  2 <= base -> Forall (fun d => 0 <= d < base) l ->
  0 <= undigits base l < base ^ Z.of_nat (length l).
Proof.
  intros Hb. induction 1 as [|d l Hd _ IH]; [cbn; lia|].
  rewrite undigits_cons. cbn [length]. rewrite Nat2Z.inj_succ, Z.pow_succ_r by lia.
  nia.
Qed.

(** What the digit loop computes, for any fuel that covers [n]. *)
Lemma digits_aux_spec base f n acc :
  2 <= base -> 0 <= n < 2 ^ Z.of_nat f ->
  exists l, digits_aux f base n acc = l ++ acc /\ undigits base l = n /\
    Forall (fun d => 0 <= d < base) l /\ (n = 0 -> l = []) /\ (0 < n -> head l <> Some 0 /\ l <> []).
Proof.
  intros Hb. revert n acc; induction f as [|f IH]; intros n acc Hn.
  - exists []. cbn in *. split_and!; [done|cbn; lia|constructor|done|lia].
  - rewrite digits_aux_S. destruct (Z.eqb_spec n 0) as [->|Hn0].
    { exists []. split_and!; [done..|lia]. }
    rewrite Nat2Z.inj_succ, Z.pow_succ_r in Hn by lia.
    pose proof (Z.div_mod n base ltac:(lia)) as Hdm.
    pose proof (Z.mod_pos_bound n base ltac:(lia)) as Hm.
    assert (0 <= n / base) by (apply Z.div_pos; lia).
    destruct (IH (n / base) (n mod base :: acc)) as (l & -> & Hu & Hl & Hz & Hh).
    { split; [done|]. apply Z.div_lt_upper_bound; nia. }
    exists (l ++ [n mod base]). split_and!.
    + by rewrite <- app_assoc.
    + rewrite undigits_app, Hu. cbn. lia.
    + apply Forall_app. split; [done|]. by constructor.
    + done.
    + intros _. split; [|by destruct l].
      destruct (decide (n / base = 0)) as [E|].
      * rewrite (Hz E). cbn. intros [= ?]. lia.
      * destruct Hh as [??]; [lia|]. by destruct l.
Qed.

Lemma digits_spec base n :
  2 <= base -> 0 <= n ->
  undigits base (digits base n) = n /\ Forall (fun d => 0 <= d < base) (digits base n) /\
  (n = 0 -> digits base n = []) /\
  (0 < n -> head (digits base n) <> Some 0 /\ digits base n <> []).
Proof.
  intros Hb Hn. unfold digits.
  destruct (digits_aux_spec base (Z.to_nat (Z.log2 n + 1)) n []) as (l & -> & H); [done| |].
  - split; [done|]. pose proof (Z.log2_nonneg n). rewrite Z2Nat.id by lia.
    destruct (decide (n = 0)) as [->|]; [done|]. apply Z.log2_spec. lia.
  - by rewrite app_nil_r.
Qed.

Lemma undigits_digits base n : 2 <= base -> 0 <= n -> undigits base (digits base n) = n.
Proof. intros. by apply digits_spec. Qed.

(** Expansions without a leading zero are unique. *)
Lemma utoa_numeral n :
  0 <= n -> Forall (fun c => is_digit c = true) (utoa n) /\ utoa n <> [] /\ undigits 10 ((fun c => c - 48) <$> utoa n) = n.
Proof.
  intros Hn. unfold utoa. destruct (Z.eqb_spec n 0) as [->|Hz]; [repeat constructor; done|].
  destruct (digits_spec 10 n) as (Hu & Hr & _ & Hp); [lia|done|]. split_and!.
  - apply Forall_fmap. eapply Forall_impl; [done|]. intros d Hd. cbv beta in Hd. unfold compose, is_digit.
    rewrite andb_true_iff, !Z.leb_le. lia.
  - destruct (digits 10 n); [|done]. by destruct Hp; [lia|].
  - rewrite <- list_fmap_compose. rewrite (list_fmap_ext _ id); [by rewrite list_fmap_id|]. intros ? x _. cbn. lia.
Qed.

Lemma ParseInt_itoa bits n : in_sint bits n -> ParseInt bits (itoa n) = Some n.
Proof.
  intros Hr. unfold in_sint in Hr. unfold itoa. destruct (Z.ltb_spec n 0).
  - destruct (utoa_numeral (- n)) as (Hd & Hne & Hv); [lia|]. unfold ParseInt. cbn [Z.eqb Pos.eqb].
    destruct (utoa (- n)) as [|c l] eqn:E; [done|]. rewrite <- E in *. rewrite (proj2 (List.forallb_forall _ _)), Hv.
    + rewrite Z.opp_involutive, (proj2 (Z.leb_le _ _)), (proj2 (Z.ltb_lt _ _)) by lia. done.
    + rewrite Forall_forall in Hd. intros x Hx. apply Hd. by apply list_elem_of_In.
  - destruct (utoa_numeral n) as (Hd & Hne & Hv); [lia|]. unfold ParseInt.
    destruct (utoa n) as [|c l] eqn:E; [done|]. pose proof Hd as [Hc _]%Forall_cons_1.
    unfold is_digit in Hc. rewrite andb_true_iff, !Z.leb_le in Hc.
    destruct (Z.eqb_spec c 45); [lia|]. destruct (Z.eqb_spec c 43); [lia|]. rewrite <- E in *.
    rewrite (proj2 (List.forallb_forall _ _)), Hv.
    + rewrite (proj2 (Z.leb_le _ _)), (proj2 (Z.ltb_lt _ _)) by lia. done.
    + rewrite Forall_forall in Hd. intros x Hx. apply Hd. by apply list_elem_of_In.
Qed.

Lemma undigits_inj base l k :
  2 <= base -> Forall (fun d => 0 <= d < base) l -> Forall (fun d => 0 <= d < base) k ->
  length l = length k -> undigits base l = undigits base k -> l = k.
Proof.
  intros Hb Hl. revert k; induction Hl as [|d l Hd Hl IH]; intros [|d' k] Hk Hlen; try done.
  inversion Hk as [|?? Hd' Hk']; subst. rewrite !undigits_cons.
  injection Hlen as Hlen. rewrite Hlen.
  pose proof (undigits_range base l Hb Hl) as R1. rewrite Hlen in R1.
  pose proof (undigits_range base k Hb Hk') as R2.
  intros E. assert (d = d') as <- by nia.
  f_equal. apply IH; [done..|lia].
Qed.

Lemma undigits_lower base d l :
  2 <= base -> 0 < d -> Forall (fun d => 0 <= d < base) l ->
  base ^ Z.of_nat (length l) <= undigits base (d :: l).
Proof.
  intros Hb Hd Hl. rewrite undigits_cons. pose proof (undigits_range base l Hb Hl). nia.
Qed.

Lemma digits_unique base l :
  2 <= base -> Forall (fun d => 0 <= d < base) l -> head l <> Some 0 ->
  digits base (undigits base l) = l.
Proof.
  intros Hb Hl Hh.
  pose proof (undigits_range base l Hb Hl) as [R _].
  destruct (digits_spec base (undigits base l) Hb R) as (Hu & Hf & Hz & Hp).
  apply (undigits_inj base); try done.
  destruct l as [|d l]; [by rewrite Hz|].
  inversion Hl as [|?? Hd Hl']; subst.
  assert (0 < d) by (destruct (decide (d = 0)); [subst; done|lia]).
  pose proof (undigits_lower base d l Hb ltac:(done) Hl') as Lo.
  pose proof (undigits_range base _ Hb Hl) as [_ Up].
  destruct Hp as [Hh' Hne].
  { pose proof (Z.pow_pos_nonneg base (Z.of_nat (length l)) ltac:(lia) ltac:(lia)). lia. }
  destruct (digits base _) as [|d' k] eqn:E; [done|].
  inversion Hf as [|?? Hd' Hk]; subst.
  assert (0 < d') by (destruct (decide (d' = 0)); [subst; done|lia]).
  pose proof (undigits_lower base d' k Hb ltac:(done) Hk) as Lo'.
  pose proof (undigits_range base _ Hb Hf) as [_ Up'].
  rewrite Hu in *. cbn [length] in *.
  assert (Z.of_nat (length k) < Z.of_nat (S (length l)))
    by (apply (Z.pow_lt_mono_r_iff base); lia).
  assert (Z.of_nat (length l) < Z.of_nat (S (length k)))
    by (apply (Z.pow_lt_mono_r_iff base); lia).
  lia.
Qed.

(** ** Slices *)

(** [l[i:j]] for indices in range. *)
Definition sub {A} (i j : Z) (l : list A) : list A := take (Z.to_nat (j - i)) (drop (Z.to_nat i) l).

Lemma slice_Ret {A} (l : list A) i j :
  0 <= i -> i <= j -> j <= len l -> slice l i j = Ret (sub i j l).
Proof.
  intros. unfold slice, len in *. rewrite (proj2 (Z.leb_le _ _)) by lia.
  rewrite (proj2 (Z.leb_le _ _)) by lia. by rewrite (proj2 (Z.leb_le _ _)) by lia.
Qed.

Lemma sub_app {A} (l : list A) i j k :
  0 <= i -> i <= j -> j <= k -> sub i j l ++ sub j k l = sub i k l.
Proof.
  intros. unfold sub. replace (drop (Z.to_nat j) l) with (drop (Z.to_nat (j - i)) (drop (Z.to_nat i) l)).
  - rewrite take_take_drop. f_equal. lia.
  - rewrite drop_drop. f_equal. lia.
Qed.

Lemma sub_all {A} (l : list A) i : 0 <= i -> sub i (len l) l = drop (Z.to_nat i) l.
Proof. intros. unfold sub, len. apply take_ge. rewrite length_drop. lia. Qed.

Lemma sub_nil {A} (l : list A) i : sub i i l = [].
Proof. unfold sub. by rewrite Z.sub_diag. Qed.

Lemma len_sub {A} (l : list A) i j : 0 <= i -> i <= j -> j <= len l -> len (sub i j l) = j - i.
Proof. intros. unfold sub, len in *. rewrite length_take, length_drop. lia. Qed.

Lemma len_nonneg {A} (l : list A) : 0 <= len l.
Proof. unfold len. lia. Qed.

Lemma len_replicate {A} n (x : A) : len (replicate n x) = Z.of_nat n.
Proof. unfold len. by rewrite length_replicate. Qed.

Lemma len_app {A} (l k : list A) : len (l ++ k) = len l + len k.
Proof. unfold len. rewrite length_app. lia. Qed.

Lemma len_cons {A} (x : A) l : len (x :: l) = 1 + len l.
Proof. unfold len. cbn [length]. lia. Qed.

Lemma index_drop {A} (l : list A) i x r :
  0 <= i -> drop (Z.to_nat i) l = x :: r -> index l i = Ret x /\ drop (Z.to_nat (i + 1)) l = r.
Proof.
  intros Hi E. split.
  - apply index_Ret. split; [done|]. rewrite <- (Nat.add_0_r (Z.to_nat i)), <- lookup_drop. by rewrite E.
  - rewrite Z2Nat.inj_add by lia. rewrite <- drop_drop, E. done.
Qed.

Lemma drop_lt {A} (l : list A) i :
  0 <= i < len l -> exists x r, drop (Z.to_nat i) l = x :: r.
Proof.
  unfold len. intros Hi. destruct (drop (Z.to_nat i) l) as [|x r] eqn:E; [|by eauto].
  apply (f_equal length) in E. rewrite length_drop in E. cbn in E. lia.
Qed.

Lemma sub_mid {A} (a b c : list A) : sub (len a) (len a + len b) (a ++ b ++ c) = b.
Proof.
  unfold sub, len. rewrite Nat2Z.id. rewrite drop_app_length.
  replace (Z.to_nat _) with (length b) by lia. apply take_app_length.
Qed.

Lemma elem_of_concat {A} (x : A) ls : x ∈ concat ls <-> exists l, l ∈ ls /\ x ∈ l.
Proof.
  induction ls as [|l ls IH]; cbn.
  { split; [by intros ?%elem_of_nil|]. by intros (? & ?%elem_of_nil & _). }
  rewrite elem_of_app, IH. setoid_rewrite elem_of_cons. naive_solver.
Qed.

(** ** Hints *)

Create HintDb go.
#[export] Hint Resolve wraps_range wrapu_range in_sint_lor in_sint_land
  in_sint_lxor in_sint_lnot in_sint_shiftr_r in_sint_rem in_sint_b2z : go.
#[export] Hint Extern 1 (_ < _)%Z => lia : go.
#[export] Hint Extern 1 (_ <= _)%Z => lia : go.
#[export] Hint Rewrite wraps_idemp wraps_mul_l wraps_mul_r wraps_wrapu : go.
#[export] Hint Rewrite @length_app @length_map @length_take @length_drop : go.
