(* ===== verification/M4Correct.v ===== *)
(** * Functional correctness of m4's [eval] (src/cmds/m4/eval.go)

    An abstract syntax of expressions with its value or error ([denote]), a
    printer that writes the fewest parentheses the documented precedences and
    associativities allow, with any blanks around the binary operators, and
    the refinement theorem: the evaluator computes [denote] on every printed
    expression. *)

From Stdlib Require Import ZArith Lia String.
From stdpp Require Import base tactics list numbers strings.
From S2P Require Import Prelude M4Eval.

Module M4Correct.
Import M4.

(** ** Abstract syntax and value *)

Inductive uop := UPlus | UMinus | UCompl | UNot.

Inductive bop :=
| LogOr | LogAnd | BitOr | BitXor | BitAnd | Eq | Ne | Le | Ge | Lt | Gt
| Shl | Shr | Add | Sub | Mul | Div | Mod | Pow.

#[export] Instance bop_eq_dec : EqDecision bop.
Proof. solve_decision. Defined.

Inductive expr :=
| ENum (n : Z)
| EUn (u : uop) (e : expr)
| EBin (o : bop) (l r : expr).

(** Precedence, 0 loosest, as POSIX lists the operators. *)
Definition level (o : bop) : nat :=
  match o with
  | LogOr => 0 | LogAnd => 1 | BitOr => 2 | BitXor => 3 | BitAnd => 4
  | Eq | Ne => 5 | Le | Ge | Lt | Gt => 6 | Shl | Shr => 7
  | Add | Sub => 8 | Mul | Div | Mod => 9 | Pow => 10
  end.

Definition sym (o : bop) : list Z :=
  match o with
  | LogOr => str! "||" | LogAnd => str! "&&" | BitOr => str! "|" | BitXor => str! "^"
  | BitAnd => str! "&" | Eq => str! "==" | Ne => str! "!=" | Le => str! "<="
  | Ge => str! ">=" | Lt => str! "<" | Gt => str! ">" | Shl => str! "<<"
  | Shr => str! ">>" | Add => str! "+" | Sub => str! "-" | Mul => str! "*"
  | Div => str! "/" | Mod => str! "%" | Pow => str! "**"
  end.

Definition usym (u : uop) : Z :=
  match u with
  | UPlus => ch! "+" | UMinus => ch! "-" | UCompl => ch! "~" | UNot => ch! "!"
  end.

(** [x ** y] with a negative exponent is the integer part of the power. *)
Definition power (x y : Z) : Z :=
  if y <? 0 then
    if x =? 1 then 1 else if x =? -1 then if Z.even y then 1 else -1 else 0
  else int32 (x ^ y).

(** The strict operators, on [int32] values; [inl] is an error message. *)
Definition binop (o : bop) (x y : Z) : list Z + Z :=
  match o with
  | LogOr => inr (b2z (negb (x =? 0) || negb (y =? 0)))
  | LogAnd => inr (b2z (negb (x =? 0) && negb (y =? 0)))
  | BitOr => inr (Z.lor x y) | BitXor => inr (Z.lxor x y) | BitAnd => inr (Z.land x y)
  | Eq => inr (b2z (x =? y)) | Ne => inr (b2z (negb (x =? y)))
  | Le => inr (b2z (x <=? y)) | Ge => inr (b2z (y <=? x))
  | Lt => inr (b2z (x <? y)) | Gt => inr (b2z (y <? x))
  | Shl => inr (int32 (x * 2 ^ (y mod 32)))
  | Shr => inr (x / 2 ^ (y mod 32))
  | Add => inr (int32 (x + y)) | Sub => inr (int32 (x - y)) | Mul => inr (int32 (x * y))
  | Div => if y =? 0 then inl divide_by_zero else inr (int32 (Z.quot x y))
  | Mod => if y =? 0 then inl modulo_by_zero else inr (Z.rem x y)
  | Pow => inr (power x y)
  end.

Definition unop (u : uop) (x : Z) : Z :=
  match u with
  | UPlus => x | UMinus => int32 (- x) | UCompl => Z.lnot x | UNot => b2z (x =? 0)
  end.

(** The right operand of [||] and [&&] counts only when the left one does
    not decide. *)
Fixpoint denote (e : expr) : list Z + Z :=
  match e with
  | ENum n => inr (int32 n)
  | EUn u e => match denote e with inl m => inl m | inr x => inr (unop u x) end
  | EBin o l r =>
      match denote l with
      | inl m => inl m
      | inr x =>
          match o with
          | LogOr => if x =? 0 then match denote r with inl m => inl m | inr y => binop o x y end
                     else inr 1
          | LogAnd => if x =? 0 then inr 0
                      else match denote r with inl m => inl m | inr y => binop o x y end
          | _ => match denote r with inl m => inl m | inr y => binop o x y end
          end
      end
  end.

(** Constants are written in decimal, so they are not negative. *)
Fixpoint printable (e : expr) : Prop :=
  match e with
  | ENum n => 0 <= n
  | EUn _ e => printable e
  | EBin _ l r => printable l /\ printable r
  end.

(** ** Printing *)

Definition left_level (o : bop) : nat := match o with Pow => 11 | _ => level o end.
Definition right_level (o : bop) : nat := match o with Pow => 10 | _ => S (level o) end.

(** [pp ws k e] is [e] as an operand of level [k], with the blanks [ws]
    around every binary operator. *)
Fixpoint pp (ws : list Z) (k : nat) (e : expr) : list Z :=
  match e with
  | ENum n => utoa n
  | EUn u e => usym u :: pp ws 11 e
  | EBin o l r =>
      let body := pp ws (left_level o) l ++ ws ++ sym o ++ ws ++ pp ws (right_level o) r in
      if (k <=? level o)%nat then body else ch! "(" :: body ++ [ch! ")"]
  end.

Definition blanks (ws : list Z) : Prop := Forall (fun c => isSpace c = true) ws.

(** ** Big-step rules, without fuel *)

Definition Binary (k : nat) (live : bool) (e : evaluator) (r : Z * evaluator) : Prop :=
  exists f, binary f k live e = Ret r.
Definition Loop (k : nat) (live : bool) (l : Z) (e : evaluator) (r : Z * evaluator) : Prop :=
  exists f, binary_loop f k live l e = Ret r.
Definition Unary (live : bool) (e : evaluator) (r : Z * evaluator) : Prop :=
  exists f, unary f live e = Ret r.

#[local] Arguments no_err : simpl never.
#[local] Arguments operator : simpl never.
#[local] Arguments apply_op : simpl never.

Ltac raise f f' :=
  repeat match goal with
  | H : binary f _ _ _ = Ret _ |- _ => apply (proj1 (eval_fuel_mono f) f') in H; [|lia]
  | H : binary_loop f _ _ _ _ = Ret _ |- _ =>
      apply (proj1 (proj2 (eval_fuel_mono f)) f') in H; [|lia]
  | H : unary f _ _ = Ret _ |- _ => apply (proj2 (proj2 (eval_fuel_mono f)) f') in H; [|lia]
  end.

Lemma Binary_11 live e r : Unary live e r -> Binary 11 live e r.
Proof. intros [f H]. by exists (S f). Qed.

Lemma Binary_step k live e l e1 r :
  (k < 11)%nat -> Binary (S k) live e (l, e1) -> Loop k live l e1 r -> Binary k live e r.
Proof.
  intros Hk [f H] [g Hl]. raise f (Nat.max f g). raise g (Nat.max f g).
  exists (S (Nat.max f g)). cbn [binary].
  destruct (Nat.eqb_spec k (length binaryOps)); [cbn in *; lia|]. by rewrite H.
Qed.

Lemma Loop_err k live l e : no_err e = false -> Loop k live l e (l, e).
Proof. intros H. exists 1%nat. cbn. by rewrite H. Qed.

Lemma Loop_done k live l e e1 :
  no_err e = true -> operator k e = ([], e1) -> Loop k live l e (l, e1).
Proof. intros H Ho. exists 1%nat. cbn [binary_loop]. by rewrite H, Ho. Qed.

(** The level at which the loop parses the right operand of [o]. *)
Lemma Loop_op o live l e e1 v e2 r :
  no_err e = true -> operator (level o) e = (sym o, e1) ->
  let live' :=
    match o with
    | LogOr => live && (l =? 0)
    | LogAnd => live && negb (l =? 0)
    | _ => live
    end in
  Binary (right_level o) live' e1 (v, e2) ->
  let res :=
    match o with
    | LogOr => (b2z (negb (l =? 0) || negb (v =? 0)), e2)
    | LogAnd => (b2z (negb (l =? 0) && negb (v =? 0)), e2)
    | Pow => (if no_err e2 then power32 l v else l, e2)
    | _ => if no_err e2 then apply_op (sym o) live l v e2 else (l, e2)
    end in
  Loop (level o) live res.1 res.2 r -> Loop (level o) live l e r.
Proof.
  intros H Ho live' [f Hb] res [g Hl].
  raise f (Nat.max f g). raise g (Nat.max f g).
  exists (S (Nat.max f g)). cbn [binary_loop]. rewrite H, Ho.
  destruct o; cbn in Hb, res |- *; unfold live' in Hb; cbn in Hb; rewrite Hb; cbn; try exact Hl.
  all: subst res; destruct (no_err e2) eqn:Ee; cbn in Hl |- *; try exact Hl.
  all: try (by destruct (apply_op _ _ _ _ _)).
  all: destruct (Nat.max f g); cbn [binary_loop] in Hl; [done|]; by rewrite Ee in Hl.
Qed.

(** ** Positions as remaining input *)

Definition skip (r : list Z) : list Z := drop (leading_spaces r) r.

(** [At s e r]: no error, and the input that remains is [r] up to leading
    blanks. *)
Definition At (s : list Z) (e : evaluator) (r : list Z) : Prop :=
  ev_s e = s /\ no_err e = true /\ wf e /\ skip (rest e) = skip r.

Lemma skip_blanks ws r : blanks ws -> skip (ws ++ r) = skip r.
Proof. induction 1 as [|c ws Hc _ IH]; [done|]. unfold skip in *. cbn. by rewrite Hc. Qed.

Lemma skip_nonblank c r : isSpace c = false -> skip (c :: r) = c :: r.
Proof. unfold skip. cbn. by intros ->. Qed.

Lemma skip_idemp r : skip (skip r) = skip r.
Proof.
  induction r as [|c r IH]; [done|].
  destruct (isSpace c) eqn:E; [|by rewrite (skip_nonblank c r E), skip_nonblank].
  assert (skip (c :: r) = skip r) as -> by (unfold skip; cbn; by rewrite E). done.
Qed.

Lemma rest_set_pos e n : rest (set_pos e (ev_pos e + n)) = drop n (rest e).
Proof. unfold rest; cbn. by rewrite drop_drop. Qed.

Lemma rest_length e : wf e -> (ev_pos e + length (rest e))%nat = length (ev_s e).
Proof. unfold wf, rest. rewrite length_drop. lia. Qed.

Lemma rest_space e : rest (space e) = skip (rest e).
Proof. unfold space. apply rest_set_pos. Qed.

Lemma At_space s e r : At s e r -> At s (space e) r /\ rest (space e) = skip r.
Proof.
  intros (Hs & He & Hw & Hr). split; [|by rewrite rest_space].
  split_and!; [done..| |by rewrite rest_space, skip_idemp].
  by apply ext_wf with e, space_ext.
Qed.

(** Moving over a prefix of the remaining input. *)
Lemma At_advance s e r p t :
  At s e r -> rest e = p ++ t -> At s (set_pos e (ev_pos e + length p)) t.
Proof.
  intros (Hs & He & Hw & _) Hr. split_and!; [done..| |].
  - pose proof (rest_length e Hw) as H. rewrite Hr, length_app in H.
    unfold wf; cbn. lia.
  - by rewrite rest_set_pos, Hr, drop_app_length.
Qed.

Lemma At_lookup e c t : rest e = c :: t -> ev_s e !! ev_pos e = Some c.
Proof.
  unfold rest. intros H. rewrite <- (Nat.add_0_r (ev_pos e)), <- lookup_drop.
  by rewrite H.
Qed.

Lemma At_lookup_nil e : rest e = [] -> ev_s e !! ev_pos e = None.
Proof.
  unfold rest. intros H. rewrite <- (Nat.add_0_r (ev_pos e)), <- lookup_drop. by rewrite H.
Qed.

(** ** Which operators can follow an operand *)

(** No operator of the levels from [k] on is next. *)
Definition stop (k : nat) (r : list Z) : Prop :=
  forall k', (k <= k' < 11)%nat -> find_op (nth k' binaryOps []) (skip r) = [].

Lemma stop_mono k k' r : (k <= k')%nat -> stop k r -> stop k' r.
Proof. intros Hk H j Hj. apply H. lia. Qed.

Lemma stop_nil k : stop k [].
Proof.
  intros j Hj. do 11 (destruct j as [|j]; [done|]). lia.
Qed.

Lemma stop_paren k t : stop k (ch! ")" :: t).
Proof.
  intros j Hj. rewrite skip_nonblank by done. do 11 (destruct j as [|j]; [done|]). lia.
Qed.

(** A byte that can start an operand or be a blank: not the second byte of an
    operator. *)
Definition starts (c : Z) : bool :=
  negb (existsb (Z.eqb c) (str! "|&<>=*")).

Ltac no_second c H :=
  unfold starts in H; cbn in H; to_prop;
  repeat match goal with
  | E : c <> ?n |- _ => apply Z.eqb_neq in E; rewrite ?E in *
  end.

Lemma find_op_found o c t :
  starts c = true -> find_op (nth (level o) binaryOps []) (sym o ++ c :: t) = sym o.
Proof. intros H. destruct o; cbn; try done; no_second c H; by rewrite ?andb_false_r. Qed.

Lemma find_op_stop o c t k :
  starts c = true -> (level o < k < 11)%nat ->
  find_op (nth k binaryOps []) (sym o ++ c :: t) = [].
Proof.
  intros H Hk. do 11 (destruct k as [|k]; [destruct o; cbn in Hk; try lia; cbn; try done;
    no_second c H; by rewrite ?andb_false_r|]). lia.
Qed.

Lemma sym_nonblank o t : skip (sym o ++ t) = sym o ++ t.
Proof. by destruct o. Qed.

Lemma utoa_start n : 0 <= n ->
  exists d t, utoa n = (d + ch! "0") :: t /\ 0 <= d < 10.
Proof.
  intros Hn. unfold utoa. destruct (Z.eqb_spec n 0); [by exists 0, []|].
  destruct (digits_spec 10 n) as (_ & Hf & _ & Hp); [lia..|].
  destruct Hp as [_ Hp]; [lia|]. destruct (digits 10 n) as [|d l]; [done|].
  inversion Hf; subst. by exists d, ((fun d => d + 48) <$> l).
Qed.

Lemma pp_start ws k e : printable e ->
  exists c t, pp ws k e = c :: t /\ starts c = true /\ isSpace c = false.
Proof.
  revert k. induction e as [n|u e IH|o l IHl r IHr]; cbn; intros k Hp.
  - destruct (utoa_start n Hp) as (d & t & -> & Hd). eexists _, t. split; [done|].
    assert (d = 0 \/ d = 1 \/ d = 2 \/ d = 3 \/ d = 4 \/ d = 5 \/ d = 6 \/ d = 7 \/ d = 8 \/ d = 9)
      as Hd' by lia. by repeat (destruct Hd' as [->|Hd']; [done|]); subst.
  - eexists _, _. split; [done|]. by destruct u.
  - destruct (_ <=? _)%nat; [|by eexists _, _].
    destruct (IHl (left_level o)) as (c & t & -> & H); [tauto|]. by eexists _, _.
Qed.

(** ** Rules for operands *)

(** Not a digit or letter: what can follow a constant. *)
Definition follow (r : list Z) : Prop :=
  match r with [] => True | c :: _ => digit c = 99 end.

Lemma const_digits_spec base ds r p v :
  (base = 8 \/ base = 10) -> Forall (fun d => 0 <= d < base) ds -> follow r -> in_uint 32 v ->
  const_digits base (((fun d => d + ch! "0") <$> ds) ++ r) p v =
  (uint32 (undigits_from base v ds), (p + length ds)%nat, false).
Proof.
  intros Hb Hds Hr. revert p v. induction Hds as [|d ds Hd _ IH]; intros p v Hv; cbn.
  - rewrite wrapu_id, Nat.add_0_r by done.
    destruct r as [|c r]; [done|]. cbn in *. by rewrite Hr.
  - assert (digit (d + 48) = d) as ->.
    { unfold digit. destruct (Z.leb_spec 48 (d + 48)), (Z.leb_spec (d + 48) 57); cbn; lia. }
    destruct (Z.eqb_spec d 99); [lia|]. destruct (Z.leb_spec base d); [lia|].
    rewrite IH by auto with go. f_equal. f_equal; [|lia].
    rewrite !undigits_from_shift. unfold wrapu.
    rewrite <- Zplus_mod_idemp_l, Zmult_mod_idemp_l, Zplus_mod_idemp_l.
    by rewrite <- undigits_from_shift.
Qed.

Lemma constant_num s e n r :
  0 <= n -> At s e (utoa n ++ r) -> rest e = utoa n ++ r -> follow r ->
  exists e', constant e = Ret (int32 n, e') /\ At s e' r.
Proof.
  intros Hn HAt Hrest Hf. exists (set_pos e (ev_pos e + length (utoa n))).
  split; [|by eapply At_advance].
  assert (forall base ds, (base = 8 \/ base = 10) -> Forall (fun d => 0 <= d < base) ds ->
    utoa n = (fun d => d + ch! "0") <$> ds -> undigits base ds = n ->
    const_digits base (drop (ev_pos e) (ev_s e)) (ev_pos e) 0 =
    (uint32 n, (ev_pos e + length (utoa n))%nat, false)) as Hc.
  { intros base ds Hb Hds E Hu. fold (rest e). rewrite Hrest, E.
    rewrite const_digits_spec, length_fmap by (done || unfold in_uint; lia).
    unfold undigits in Hu. by rewrite Hu. }
  destruct (utoa_start n Hn) as (d & t & E & Hd).
  unfold constant. rewrite (At_lookup e (d + 48) (t ++ r)) by (by rewrite Hrest, E).
  assert (0 < length (utoa n))%nat as Hlen by (rewrite E; cbn; lia).
  destruct (Z.eqb_spec n 0) as [->|Hn0].
  - assert (match ev_s e !! S (ev_pos e) with
            | Some c1 => (c1 =? ch! "x") || (c1 =? ch! "X") | None => false end = false) as ->.
    { rewrite <- Nat.add_1_r, <- lookup_drop. fold (rest e). rewrite Hrest.
      destruct r as [|c r]; [done|]. cbn in Hf |- *.
      destruct (Z.eqb_spec c 120) as [->|]; [done|].
      destruct (Z.eqb_spec c 88) as [->|]; done. }
    injection E as Ed <-. rewrite <- Ed. cbn [Z.eqb Pos.eqb].
    rewrite (Hc 8 [0]) by (auto; repeat constructor; lia).
    rewrite (proj2 (Nat.eqb_neq _ _)) by lia. done.
  - pose proof (digits_spec 10 n ltac:(lia) Hn) as (Hu & Hfa & _ & Hh).
    destruct Hh as [Hh _]; [lia|].
    assert (utoa n = (fun d => d + ch! "0") <$> digits 10 n) as Ed.
    { unfold utoa. by destruct (Z.eqb_spec n 0). }
    destruct (Z.eqb_spec (d + 48) 48).
    { rewrite Ed in E. destruct (digits 10 n); [done|]. injection E as ? _.
      exfalso. apply Hh. cbn. f_equal. lia. }
    rewrite (Hc 10 (digits 10 n)) by auto.
    rewrite (proj2 (Nat.eqb_neq _ _)) by lia. by rewrite wraps_wrapu.
Qed.

#[local] Arguments space : simpl never.
#[local] Arguments set_pos : simpl never.

Lemma Unary_num s e n r live :
  0 <= n -> At s e (utoa n ++ r) -> follow r ->
  exists e', Unary live e (int32 n, e') /\ At s e' r.
Proof.
  intros Hn HAt Hf. destruct (utoa_start n Hn) as (d & t & E & Hd).
  assert (isSpace (d + 48) = false /\ forall c, c = 43 \/ c = 45 \/ c = 126 \/ c = 33 \/ c = 40 ->
            (d + 48 =? c) = false) as [Hsp Hne].
  { unfold isSpace. split; [|intros; lia]. lia. }
  destruct (At_space _ _ _ HAt) as [HAt' Hrest].
  rewrite E, <- app_comm_cons, skip_nonblank, app_comm_cons, <- E in Hrest by done.
  destruct (constant_num s (space e) n r Hn HAt' Hrest Hf) as (e' & Hc & He').
  exists e'. split; [|done]. exists 1%nat. cbn [unary].
  erewrite At_lookup by (rewrite Hrest, E; reflexivity).
  by rewrite !Hne by tauto.
Qed.

Lemma Unary_un s u e t live :
  At s e (usym u :: t) ->
  exists e1, At s e1 t /\
    forall v e2, Unary live e1 (v, e2) -> Unary live e (unop u v, e2).
Proof.
  intros HAt. assert (isSpace (usym u) = false) as Hsp by (by destruct u).
  destruct (At_space _ _ _ HAt) as [HAt' Hrest]. rewrite skip_nonblank in Hrest by done.
  exists (set_pos (space e) (S (ev_pos (space e)))). split.
  - rewrite <- Nat.add_1_r. by apply (At_advance s _ (usym u :: t) [usym u] t).
  - intros v e2 [f H]. exists (S f). cbn [unary]. erewrite At_lookup by exact Hrest.
    destruct u; cbn [usym] in *; cbn; by rewrite H.
Qed.

Lemma no_err_fail e m : no_err e = false -> fail e m = e.
Proof. unfold fail. by intros ->. Qed.

Lemma Unary_paren s e t live :
  At s e (ch! "(" :: t) ->
  exists e1, At s e1 t /\
    forall v e2, Binary 0 live e1 (v, e2) ->
    (forall r, At s e2 (ch! ")" :: r) -> exists e3, At s e3 r /\ Unary live e (v, e3)) /\
    (no_err e2 = false -> exists v' e3, ev_err e3 = ev_err e2 /\ Unary live e (v', e3)).
Proof.
  intros HAt. destruct (At_space _ _ _ HAt) as [HAt' Hrest].
  rewrite skip_nonblank in Hrest by done.
  exists (set_pos (space e) (S (ev_pos (space e)))). split.
  { rewrite <- Nat.add_1_r. by apply (At_advance s _ (ch! "(" :: t) [ch! "("] t). }
  intros v e2 [f H]. split.
  - intros r HAt2. destruct (At_space _ _ _ HAt2) as [HAt2' Hrest2].
    rewrite skip_nonblank in Hrest2 by done.
    exists (set_pos (space e2) (S (ev_pos (space e2)))). split.
    { rewrite <- Nat.add_1_r. by apply (At_advance s _ (ch! ")" :: r) [ch! ")"] r). }
    exists (S f). cbn [unary]. erewrite At_lookup by exact Hrest. cbn. rewrite H; cbn.
    by erewrite At_lookup by exact Hrest2.
  - intros Herr.
    assert (exists v' e3, ev_err e3 = ev_err e2 /\ unary (S f) live e = Ret (v', e3))
      as (v' & e3 & ? & ?); [|exists v', e3; split; [done|by exists (S f)]].
    cbn [unary]. erewrite At_lookup by exact Hrest. cbn. rewrite H; cbn.
    rewrite !(no_err_fail (space e2)) by done.
    repeat case_match; by eexists _, _; split; [|reflexivity].
Qed.

(** ** Operators on values *)

Lemma land_31 z : Z.land (uint32 z) 31 = z mod 32.
Proof.
  change 31 with (Z.ones 5). rewrite Z.land_ones by lia. unfold wrapu.
  apply Z.mod_mod_divide. by exists (2 ^ 27).
Qed.

Lemma land_1_even z : (Z.land z 1 =? 0) = Z.even z.
Proof.
  change 1 with (Z.ones 1). rewrite Z.land_ones, Zmod_even by lia. by destruct (Z.even z).
Qed.

Lemma power_loop_spec f r b x :
  in_sint 32 r -> 0 <= x < 2 ^ Z.of_nat f -> power_loop f r b x = int32 (r * b ^ x).
Proof.
  revert r b x; induction f as [|f IH]; intros r b x Hr Hx; cbn [power_loop].
  - assert (x = 0) as -> by (cbn in Hx; lia). by rewrite Z.mul_1_r, wraps_id by done.
  - rewrite Nat2Z.inj_succ, Z.pow_succ_r in Hx by lia.
    destruct (Z.ltb_spec 0 x).
    2: { assert (x = 0) as -> by lia. by rewrite Z.mul_1_r, wraps_id by done. }
    rewrite Z.shiftr_div_pow2, land_1_even by lia. change (2 ^ 1) with 2.
    pose proof (Zdiv2_odd_eqn x) as Hodd. rewrite Z.div2_div, <- Z.negb_even in Hodd.
    rewrite IH.
    2: { destruct (Z.even x); auto with go. }
    2: { split; [apply Z.div_pos; lia|]. apply Z.div_lt_upper_bound; lia. }
    rewrite <- wraps_mul_r.
    assert (wraps 32 ((int32 (b * b)) ^ (x / 2)) = wraps 32 ((b * b) ^ (x / 2))) as ->.
    { apply wraps_mod. rewrite <- (Z.mod_pow_l (int32 _)), wraps_residue, Z.mod_pow_l. done. }
    rewrite wraps_mul_r.
    assert (0 <= x / 2) by (apply Z.div_pos; lia).
    replace ((b * b) ^ (x / 2)) with (b ^ (2 * (x / 2)))
      by (rewrite Z.pow_mul_r by lia; f_equal; ring).
    destruct (Z.even x); cbn in Hodd.
    + rewrite Z.add_0_r in Hodd. by rewrite <- Hodd.
    + rewrite wraps_mul_l. replace (b ^ x) with (b ^ (2 * (x / 2) + 1)) by (f_equal; lia).
      rewrite Z.pow_add_r, Z.pow_1_r by lia. f_equal. ring.
Qed.

Lemma power32_power x y : in_sint 32 y -> power32 x y = power x y.
Proof.
  intros Hy. unfold power32, power. destruct (Z.ltb_spec y 0).
  - rewrite land_1_even. destruct (x =? 1); [done|]. destruct (x =? -1); cbn; [|done].
    by destruct (Z.even y).
  - rewrite power_loop_spec, Z.mul_1_l; [done| |]; unfold in_sint in *; cbn in *; lia.
Qed.

Definition strict (o : bop) : bool :=
  match o with LogOr | LogAnd | Pow => false | _ => true end.

Lemma apply_op_spec o live x y e :
  strict o = true -> in_sint 32 x -> in_sint 32 y ->
  apply_op (sym o) live x y e =
  match binop o x y with
  | inr v => (v, e)
  | inl m => (x, if live then fail e m else e)
  end.
Proof.
  intros Ho Hx Hy. destruct o; try done; unfold apply_op; cbn [str_eqb sym Z.eqb Pos.eqb andb];
    cbn [binop]; try reflexivity.
  - rewrite land_31, wraps_wrapu, Z.shiftl_mul_pow2 by (apply Z.mod_pos_bound; lia).
    f_equal. apply wraps_mod. unfold wrapu. by rewrite Zmult_mod_idemp_l.
  - by rewrite land_31, Z.shiftr_div_pow2 by (apply Z.mod_pos_bound; lia).
  - destruct (y =? 0); cbn; [by destruct live|done].
  - destruct (y =? 0); cbn; [by destruct live|done].
Qed.

Lemma unop_range u x : in_sint 32 x -> in_sint 32 (unop u x).
Proof. destruct u; cbn; auto with go. Qed.

Lemma binop_range o x y v :
  in_sint 32 x -> in_sint 32 y -> binop o x y = inr v -> in_sint 32 v.
Proof.
  intros Hx Hy. destruct o; cbn [binop];
    try (intros [= <-]; auto with go; fail).
  - intros [= <-]. rewrite <- Z.shiftr_div_pow2 by (apply Z.mod_pos_bound; lia).
    apply in_sint_shiftr_r; [apply Z.mod_pos_bound; lia|done].
  - destruct (y =? 0); [done|]. intros [= <-]. auto with go.
  - destruct (Z.eqb_spec y 0); [done|]. intros [= <-]. auto with go.
  - intros [= <-]. rewrite <- power32_power by done. apply power32_range.
Qed.

Lemma denote_range e v : denote e = inr v -> in_sint 32 v.
Proof.
  assert (in_sint 32 0 /\ in_sint 32 1) as [??] by (unfold in_sint; lia).
  revert v; induction e as [n|u e IH|o l IHl r IHr]; cbn; intros v.
  - intros [= <-]. auto with go.
  - destruct (denote e); [done|]. intros [= <-]. by apply unop_range, IH.
  - destruct (denote l) as [|x]; [done|].
    destruct (denote r) as [|y];
      destruct o; try done; try destruct (x =? 0); try done; try (intros [= <-]; done);
      intros H'; eapply binop_range in H'; eauto.
Qed.

Lemma denote_err e m : denote e = inl m -> m <> [].
Proof.
  revert m; induction e as [n|u e IH|o l IHl r IHr]; cbn; intros m; [done| |].
  - destruct (denote e); [intros [= <-]; eauto|done].
  - destruct (denote l) as [|x]; [intros [= <-]; eauto|].
    destruct (denote r) as [|y];
      destruct o; cbn; repeat case_match; try done; intros [= <-]; eauto; done.
Qed.

(** ** The evaluator computes [denote] *)

Section Correct.
Context (s ws : list Z).
Context (Hws : blanks ws).

(** The outcome of parsing [e] when [r] follows; the value and the division
    errors of an operand that is not live do not matter. *)
Definition Good (live : bool) (e : expr) (r : list Z) (v : Z) (st : evaluator) : Prop :=
  if live then
    match denote e with
    | inr x => v = x /\ At s st r
    | inl m => ev_err st = m
    end
  else At s st r.

(** [v] and [st] are what the operand loop of level [k] has parsed so far. *)
Definition Reach (k : nat) (live : bool) (st : evaluator) (v : Z) (st' : evaluator) : Prop :=
  if (k =? 11)%nat then Unary live st (v, st')
  else forall R, Loop k live v st' R -> Binary k live st R.

Lemma err_no_err st m : ev_err st = m -> m <> [] -> no_err st = false.
Proof. intros <- H. by apply str_eqb_neq. Qed.

Lemma Good_cases live e r v st :
  Good live e r v st -> At s st r \/ no_err st = false.
Proof.
  unfold Good. destruct live; [|by left]. destruct (denote e) as [m|x] eqn:E.
  - intros H. right. by eapply err_no_err, denote_err.
  - intros [_ ?]. by left.
Qed.

(** Only the position matters for [At]. *)
Lemma Good_At live e r v st st' :
  Good live e r v st -> At s st r -> At s st' r -> Good live e r v st'.
Proof.
  unfold Good. destruct live; [|done]. destruct (denote e) as [m|x] eqn:E; [|tauto].
  intros H (_ & Hn & _). apply err_no_err in H; [congruence|by eapply denote_err].
Qed.

Lemma Loop_stop k live e r v st :
  (k < 11)%nat -> stop k r -> Good live e r v st ->
  exists st', Good live e r v st' /\ Loop k live v st (v, st').
Proof.
  intros Hk Hs HG. destruct (Good_cases _ _ _ _ _ HG) as [HAt|Herr].
  - destruct (At_space _ _ _ HAt) as [HAt' Hrest].
    exists (set_pos (space st) (ev_pos (space st) + 0)).
    assert (At s (set_pos (space st) (ev_pos (space st) + 0)) r) as HAt''.
    { rewrite Nat.add_0_r. by destruct (space st). }
    split; [by eapply Good_At|]. apply Loop_done; [apply HAt|].
    unfold operator. by rewrite Hrest, (Hs k) by lia.
  - exists st. split; [done|]. by apply Loop_err.
Qed.

Lemma Reach_full k live e r st v st' :
  (k <= 11)%nat -> stop k r -> Good live e r v st' -> Reach k live st v st' ->
  exists st'', Good live e r v st'' /\ Binary k live st (v, st'').
Proof.
  unfold Reach. intros Hk Hs HG. destruct (Nat.eqb_spec k 11) as [->|].
  - intros H. exists st'. split; [done|]. by apply Binary_11.
  - intros H. destruct (Loop_stop k live e r v st') as (st'' & ? & ?); [lia|done..|].
    exists st''. eauto.
Qed.

Lemma Reach_down j k live e r st v st' :
  (k < j <= 11)%nat -> stop (S k) r -> Good live e r v st' -> Reach j live st v st' ->
  exists st'', Good live e r v st'' /\ Reach k live st v st''.
Proof.
  intros [Hk Hj] Hs. revert st'. induction Hk as [|j Hk IH]; intros st' HG HR.
  - destruct (Reach_full (S k) live e r st v st') as (st'' & HG' & HB); [done..|].
    exists st''. split; [done|]. unfold Reach. destruct (Nat.eqb_spec k 11); [lia|].
    intros R HL. eapply Binary_step; [lia|done..].
  - destruct (Reach_full (S j) live e r st v st') as (st'' & HG' & HB); try done.
    { by apply stop_mono with (S k); [lia|]. }
    apply (IH ltac:(lia) st''); [done|]. unfold Reach.
    destruct (Nat.eqb_spec j 11); [lia|]. intros R HL. eapply Binary_step; [lia|done..].
Qed.

Definition cont (k : nat) : nat := if (k =? 10)%nat then 10 else S k.

(** Parsing [e] printed as an operand of level [k]. *)
Definition parses (e : expr) : Prop :=
  forall k live st r, (k <= 11)%nat -> At s st (pp ws k e ++ r) -> follow r ->
  stop (cont k) r ->
  exists v st', Good live e r v st' /\ Reach k live st v st'.

Lemma parses_atom e live st r v st' k :
  (k <= 11)%nat -> stop (cont k) r -> Good live e r v st' -> Unary live st (v, st') ->
  exists v st', Good live e r v st' /\ Reach k live st v st'.
Proof.
  intros Hk Hs HG HU. destruct (decide (k = 11%nat)) as [->|].
  - exists v, st'. by split.
  - exists v. eapply (Reach_down 11%nat); [lia| |done..].
    eapply stop_mono; [|exact Hs]. unfold cont. case_match; [|lia].
    apply Nat.eqb_eq in H. lia.
Qed.

Lemma parses_num n : 0 <= n -> parses (ENum n).
Proof.
  intros Hn k live st r Hk HAt Hf Hs. cbn in HAt.
  destruct (Unary_num s st n r live Hn HAt Hf) as (st' & HU & HAt').
  apply (parses_atom _ live st r (int32 n) st' k); [done..| |done]. by destruct live.
Qed.

Lemma parses_un u e : parses e -> parses (EUn u e).
Proof.
  intros IH k live st r Hk HAt Hf Hs. cbn in HAt.
  destruct (Unary_un s u st _ live HAt) as (st1 & HAt1 & HU).
  destruct (IH 11%nat live st1 r) as (v & st2 & HG & HR); [lia|done..| |].
  { intros j Hj. cbn in Hj. lia. }
  apply (parses_atom _ live st r (unop u v) st2 k); [done..| |by apply HU].
  unfold Good in *; cbn. destruct live; [|done]. destruct (denote e); [done|].
  by destruct HG as [-> ?].
Qed.

(** A binary operator and its operand after the left operand. *)
Definition op_tail (o : bop) (b : expr) (r : list Z) : list Z :=
  ws ++ sym o ++ ws ++ pp ws (right_level o) b ++ r.

Lemma operand_start k b r : printable b ->
  exists c t, ws ++ pp ws k b ++ r = c :: t /\ starts c = true.
Proof.
  intros Hb. destruct ws as [|c ws'] eqn:E.
  - destruct (pp_start [] k b Hb) as (c & t & Hpp & Hc & _). rewrite Hpp. by exists c, (t ++ r).
  - exists c, (ws' ++ pp (c :: ws') k b ++ r). split; [done|].
    inversion Hws as [|?? Hc]; subst. revert Hc. unfold isSpace, starts; cbn. lia.
Qed.

Lemma op_tail_stop o b r : printable b -> stop (S (level o)) (op_tail o b r).
Proof.
  intros Hb k Hk. unfold op_tail. rewrite skip_blanks, sym_nonblank by done.
  destruct (operand_start (right_level o) b r Hb) as (c & t & -> & Hc).
  apply find_op_stop; [done|lia].
Qed.

Lemma op_tail_operator o b r st :
  printable b -> At s st (op_tail o b r) ->
  exists st1, operator (level o) st = (sym o, st1) /\
    At s st1 (pp ws (right_level o) b ++ r).
Proof.
  intros Hb HAt. destruct (At_space _ _ _ HAt) as [HAt' Hrest].
  unfold op_tail in Hrest. rewrite skip_blanks, sym_nonblank in Hrest by done.
  exists (set_pos (space st) (ev_pos (space st) + length (sym o))). split.
  - unfold operator. rewrite Hrest.
    destruct (operand_start (right_level o) b r Hb) as (c & t & -> & Hc).
    by rewrite find_op_found.
  - eapply At_advance in HAt' as (?&?&?&E); [|exact Hrest].
    split_and!; [done..|]. by rewrite E, skip_blanks.
Qed.

Lemma op_tail_follow o b r : follow (op_tail o b r).
Proof.
  unfold op_tail. destruct ws as [|c ws']; [by destruct o|].
  inversion Hws as [|?? Hc]; subst. cbn. revert Hc. unfold isSpace, digit.
  destruct (Z.leb_spec 48 c), (Z.leb_spec c 57), (Z.leb_spec 97 c), (Z.leb_spec c 122),
    (Z.leb_spec 65 c), (Z.leb_spec c 90); cbn; lia.
Qed.

Lemma apply_op_dead op l r e : (apply_op op false l r e).2 = e.
Proof. unfold apply_op. by repeat case_match. Qed.

(** What the loop does with the two operands of [o]. *)
Definition combine (o : bop) (live : bool) (l v : Z) (e2 : evaluator) : Z * evaluator :=
  match o with
  | LogOr => (b2z (negb (l =? 0) || negb (v =? 0)), e2)
  | LogAnd => (b2z (negb (l =? 0) && negb (v =? 0)), e2)
  | Pow => (if no_err e2 then power32 l v else l, e2)
  | _ => if no_err e2 then apply_op (sym o) live l v e2 else (l, e2)
  end.

Definition operand_live (o : bop) (live : bool) (l : Z) : bool :=
  match o with
  | LogOr => live && (l =? 0)
  | LogAnd => live && negb (l =? 0)
  | _ => live
  end.

Lemma combine_dead o a b r l v e2 :
  At s e2 r -> Good false (EBin o a b) r (combine o false l v e2).1 (combine o false l v e2).2.
Proof.
  intros HAt. assert ((combine o false l v e2).2 = e2) as H; [|by rewrite H].
  unfold combine. destruct o; try done; destruct (no_err e2); try done; apply apply_op_dead.
Qed.

Lemma combine_live o a b r l v e2 :
  denote a = inr l -> Good (operand_live o true l) b r v e2 ->
  Good true (EBin o a b) r (combine o true l v e2).1 (combine o true l v e2).2.
Proof.
  intros Ha HG. pose proof (denote_range _ _ Ha) as Rl.
  assert (operand_live o true l = true ->
    (exists m, denote b = inl m /\ ev_err e2 = m /\ no_err e2 = false) \/
    (denote b = inr v /\ in_sint 32 v /\ At s e2 r /\ no_err e2 = true)) as Hlive.
  { intros E. rewrite E in HG. unfold Good in HG. destruct (denote b) as [m|y] eqn:Eb.
    - left. exists m. split_and!; try done. by eapply err_no_err, denote_err.
    - right. destruct HG as [-> HAt]. split_and!; try done.
      + by eapply denote_range.
      + apply HAt. }
  unfold Good at 1. cbn [denote]. rewrite Ha.
  destruct (strict o) eqn:So.
  - destruct Hlive as [(m & -> & Em & Hn)|(-> & Rv & HAt & Hn)]; [by destruct o|..].
    + destruct o; try done; cbn [combine]; by rewrite Hn.
    + assert (combine o true l v e2 = apply_op (sym o) true l v e2) as ->
        by (destruct o; try done; cbn [combine]; by rewrite Hn).
      rewrite apply_op_spec by done.
      destruct o; try done; destruct (binop _ l v) eqn:Eb; cbn; try done;
        unfold fail; by rewrite Hn.
  - destruct o; try done; cbn [operand_live combine binop] in *.
    + destruct (l =? 0); cbn in *.
      * destruct Hlive as [(m & -> & Em & Hn)|(-> & Rv & HAt & Hn)]; done.
      * done.
    + destruct (l =? 0); cbn in *.
      * done.
      * destruct Hlive as [(m & -> & Em & Hn)|(-> & Rv & HAt & Hn)]; done.
    + destruct Hlive as [(m & -> & Em & Hn)|(-> & Rv & HAt & Hn)]; try done.
      cbn. by rewrite Hn, power32_power.
Qed.

(** From the left operand to the whole: the loop of level [level o] parses
    the operator and the right operand and goes on with the combined value. *)
Lemma bin_reach o a b live r va sta :
  parses b -> printable b -> follow r -> stop (right_level o) r ->
  Good live a (op_tail o b r) va sta ->
  exists v st', Good live (EBin o a b) r v st' /\
    forall R, Loop (level o) live v st' R -> Loop (level o) live va sta R.
Proof.
  intros IHb Hb Hf Hs HG.
  destruct (Good_cases _ _ _ _ _ HG) as [HAt|Herr].
  2: { exists va, sta. split; [|done]. unfold Good in *; cbn. destruct live; [|].
       - destruct (denote a); [done|]. destruct HG as [_ (_ & ? & _)]. congruence.
       - destruct HG as (_ & ? & _). congruence. }
  destruct (op_tail_operator o b r sta Hb HAt) as (st1 & Hop & HAt1).
  set (live' := operand_live o live va).
  destruct (IHb (right_level o) live' st1 r) as (vb & stb0 & HGb0 & HRb); try done.
  { destruct o; cbn; lia. }
  { eapply stop_mono; [|exact Hs]. destruct o; cbn; lia. }
  destruct (Reach_full (right_level o) live' b r st1 vb stb0) as (stb & HGb & HBb); try done.
  { destruct o; cbn; lia. }
  assert (no_err sta = true) as Hn by apply HAt.
  pose proof (fun R => Loop_op o live va sta st1 vb stb R Hn Hop HBb) as HL. cbn zeta in HL.
  exists (combine o live va vb stb).1, (combine o live va vb stb).2. split; [|exact HL].
  subst live'. destruct live.
  - apply combine_live; [|done]. unfold Good in HG. destruct (denote a) as [m|x] eqn:Ea.
    + apply err_no_err in HG; [congruence|by eapply denote_err].
    + by destruct HG as [-> _].
  - apply combine_dead. destruct o; exact HGb.
Qed.

Lemma parses_bin_bare o a b k live st r :
  parses a -> parses b -> printable b -> (k <= level o)%nat ->
  At s st (pp ws (left_level o) a ++ op_tail o b r) -> follow r -> stop (cont k) r ->
  exists v st', Good live (EBin o a b) r v st' /\ Reach k live st v st'.
Proof.
  intros IHa IHb Hb Hk HAt Hf Hs.
  assert (level o <= 10)%nat as Ho by (destruct o; cbn; lia).
  assert (stop (right_level o) r) as Hsr.
  { eapply stop_mono; [|exact Hs]. unfold cont. destruct (Nat.eqb_spec k 10); destruct o; cbn in *; lia. }
  destruct (IHa (left_level o) live st (op_tail o b r)) as (va & sta & HGa & HRa); try done.
  { destruct o; cbn; lia. }
  { apply op_tail_follow. }
  { destruct (decide (o = Pow)) as [->|]; [intros j Hj; cbn in Hj; lia|].
    assert (cont (left_level o) = S (level o)) as -> by (by destruct o). by apply op_tail_stop. }
  destruct (bin_reach o a b live r va sta) as (v & st' & HG & HL); try done.
  assert (Reach (level o) live st v st') as HR.
  { unfold Reach. destruct (Nat.eqb_spec (level o) 11); [lia|]. intros R H%HL.
    unfold Reach in HRa. destruct (decide (o = Pow)) as [->|].
    - cbn in HRa. eapply (Binary_step 10); [lia|by apply Binary_11|done].
    - assert (left_level o = level o) as E by (by destruct o). rewrite E in HRa.
      destruct (Nat.eqb_spec (level o) 11); [lia|]. by apply HRa. }
  destruct (decide (k = level o)) as [->|]; [by exists v, st'|].
  exists v. eapply (Reach_down (level o)); [lia| |done..].
  eapply stop_mono; [|exact Hs]. unfold cont. destruct (Nat.eqb_spec k 10); lia.
Qed.

Lemma parses_bin o a b : parses a -> parses b -> printable b -> parses (EBin o a b).
Proof.
  intros IHa IHb Hb k live st r Hk HAt Hf Hs. cbn [pp] in HAt.
  destruct (Nat.leb_spec k (level o)).
  { apply parses_bin_bare; try done. unfold op_tail. by rewrite <- !app_assoc in HAt. }
  rewrite <- app_comm_cons, <- !app_assoc in HAt. cbn [app] in HAt.
  destruct (Unary_paren s st _ live HAt) as (st1 & HAt1 & HU).
  destruct (parses_bin_bare o a b 0 live st1 (ch! ")" :: r)) as (v & st2 & HG & HR); try done.
  { lia. }
  { apply stop_paren. }
  destruct (Reach_full 0 live (EBin o a b) (ch! ")" :: r) st1 v st2)
    as (st3 & HG3 & HB); [lia|apply stop_paren|done..|].
  destruct (HU v st3 HB) as [Hok Herr].
  unfold Good in HG3. destruct live.
  - destruct (denote (EBin o a b)) as [m|x] eqn:E.
    + destruct Herr as (v' & st4 & E4 & HU4); [by eapply err_no_err, denote_err|].
      apply (parses_atom _ true st r v' st4 k); [done..| |done].
      unfold Good. rewrite E. congruence.
    + destruct HG3 as [-> HAt3]. destruct (Hok r HAt3) as (st4 & HAt4 & HU4).
      apply (parses_atom _ true st r x st4 k); [done..| |done]. unfold Good. by rewrite E.
  - destruct (Hok r HG3) as (st4 & HAt4 & HU4).
    by apply (parses_atom _ false st r v st4 k).
Qed.

Lemma pp_parses e : printable e -> parses e.
Proof.
  induction e as [n|u e IH|o l IHl r IHr]; cbn; intros Hp.
  - by apply parses_num.
  - by apply parses_un, IH.
  - apply parses_bin; tauto.
Qed.

End Correct.

(** ** The properties *)

(** The evaluator always returns: whatever the bytes of the expression,
    the recursion ends within the fuel [eval_fuel] and no index is out of
    range. *)
Theorem evalExpr_returns (s : list Z) : exists v msg, evalExpr s = Ret (v, msg).
Proof.
  unfold evalExpr. destruct (length s =? 0)%nat; [eauto|].
  destruct (proj1 (eval_returns (eval_fuel (length s))) 0%nat true (Evaluator s 0 []))
    as (v & e & -> & _); [lia|unfold wf; cbn; lia| |cbn; eauto].
  unfold eval_fuel, remaining; cbn. lia.
Qed.

Lemma evalExpr_pp (ws : list Z) (e : expr) :
  blanks ws -> printable e ->
  match denote e with
  | inr v => evalExpr (pp ws 0 e) = Ret (v, [])
  | inl m => exists v, evalExpr (pp ws 0 e) = Ret (v, m)
  end.
Proof.
  intros Hws Hp. set (s := pp ws 0 e).
  assert (length s <> 0)%nat as Hlen
    by (subst s; destruct (pp_start ws 0 e Hp) as (c & t & -> & _); done).
  assert (At s (Evaluator s 0 []) (pp ws 0 e ++ [])) as HAt.
  { split_and!; [done..|unfold wf; cbn; lia|]. by rewrite app_nil_r. }
  destruct (pp_parses s ws Hws e Hp 0%nat true _ [] ltac:(lia) HAt) as (v & st & HG & HR);
    [done|apply stop_nil|].
  apply Reach_full with (r := []) (e := e) (s := s) in HR as (st' & HG' & [f HB]);
    [|lia|apply stop_nil|done].
  destruct (proj1 (eval_returns (eval_fuel (length s))) 0%nat true (Evaluator s 0 []))
    as (v' & e' & HB' & _); [lia|unfold wf; cbn; lia|unfold eval_fuel, remaining; cbn; lia|].
  apply (proj1 (eval_fuel_mono _) (Nat.max f (eval_fuel (length s)))) in HB; [|lia].
  pose proof HB' as HB''.
  apply (proj1 (eval_fuel_mono _) (Nat.max f (eval_fuel (length s)))) in HB''; [|lia].
  rewrite HB in HB''. injection HB'' as <- <-.
  unfold evalExpr. rewrite (proj2 (Nat.eqb_neq _ _)), HB' by done. cbn [bind].
  unfold Good in HG'. destruct (denote e) as [m|x] eqn:Ed.
  - exists v. rewrite (err_no_err st' m) by (done || by eapply denote_err). by rewrite HG'.
  - destruct HG' as [-> HAt']. destruct (At_space _ _ _ HAt') as [(Hs & Hn & Hw & _) Hr].
    assert (no_err st' = true) as -> by apply HAt'.
    pose proof (rest_length _ Hw) as Hpos. rewrite Hr, Hs in Hpos. cbn in Hpos.
    destruct (Nat.ltb_spec (ev_pos (space st')) (length s)); [lia|].
    by apply str_eqb_eq in Hn as ->.
Qed.

(** [C9] Parser and evaluator refine the abstract semantics: on the text of
    any expression tree, printed with the fewest parentheses the documented
    precedences and associativities allow and with any blanks around the
    binary operators, [evalExpr] returns the value [denote] gives, with no
    error, or the error [denote] gives (division or modulo by zero, in an
    operand that is not short-circuited). *)
Theorem evalExpr_denotes (ws : list Z) (e : expr) :
  blanks ws -> printable e ->
  match denote e with
  | inr v => evalExpr (pp ws 0 e) = Ret (v, [])
  | inl m => exists v, evalExpr (pp ws 0 e) = Ret (v, m)
  end.
Proof. apply evalExpr_pp. Qed.

(** The value is a 32-bit signed integer, on every input, well-formed or
    not. *)
Theorem evalExpr_int32 (s : list Z) (v : Z) (msg : list Z) :
  evalExpr s = Ret (v, msg) -> -2147483648 <= v <= 2147483647.
Proof.
  intros H. assert (in_sint 32 v) as Hv; [|unfold in_sint in Hv; cbn in Hv; lia].
  unfold evalExpr in H. destruct (length s =? 0)%nat; unret; [unfold in_sint; lia|].
  by eapply (proj1 (eval_range _)).
Qed.

Lemma evalExpr_int32_witness :
  evalExpr (str! "2147483647 + 1") = Ret (-2147483648, []) /\
  -2147483648 <= -2147483648 <= 2147483647.
Proof.
  split; [vm_compute; reflexivity|].
  apply (evalExpr_int32 (str! "2147483647 + 1") _ []). vm_compute. reflexivity.
Defined.

(** [power32], which squares and multiplies modulo [2^32], is the power
    wrapped to [int32] for every [int32] exponent that is not negative. *)
Theorem power32_correct (b x : Z) :
  0 <= x < 2147483648 -> power32 b x = int32 (b ^ x).
Proof.
  intros Hx. rewrite power32_power by (unfold in_sint; cbn; lia).
  unfold power. by destruct (Z.ltb_spec x 0); [lia|].
Qed.

Lemma power32_correct_witness : 0 <= 40 < 2147483648 /\ power32 3 40 = int32 (3 ^ 40).
Proof. split; [lia|]. apply power32_correct. lia. Defined.

(** [(1 + 2) * 3 ** 2 % 5 || 1 / 0]: printing puts parentheses only where
    they are needed. *)
Definition sample : expr :=
  EBin LogOr
    (EBin Mod (EBin Mul (EBin Add (ENum 1) (ENum 2)) (EBin Pow (ENum 3) (ENum 2))) (ENum 5))
    (EBin Div (ENum 1) (ENum 0)).

Lemma evalExpr_denotes_witness :
  blanks (str! " ") /\ printable sample /\
  pp (str! " ") 0 sample = str! "(1 + 2) * 3 ** 2 % 5 || 1 / 0" /\
  evalExpr (pp (str! " ") 0 sample) = Ret (1, []).
Proof.
  assert (blanks (str! " ")) as Hb by (repeat constructor).
  assert (printable sample) as Hp by (cbn; lia).
  split_and!; [done|done|vm_compute; reflexivity|].
  exact (evalExpr_denotes (str! " ") sample Hb Hp).
Defined.

End M4Correct.
