(* ===== verification/M4Engine.v ===== *)
(** * m4: the macro processor (src/cmds/m4/engine.go, builtins.go, m4.go)

    The scanner, the collection of arguments, the expansion of macros, the
    built-in macros and the output with its diversions, over the state of the
    Go type [processor]. What the source asks of the operating system is the
    record [host] of operations on an abstract world; cancellation of the
    context and write errors are left out. A run can go on for ever, so the
    functions that scan take fuel; [M4Scan] shows that results do not depend
    on it. *)

From Stdlib Require Import ZArith Lia String.
From stdpp Require Import base tactics list numbers gmap strings.
From S2P Require Import Prelude M4Eval.

Module M4Engine.

(** ** Data *)

(** The built-in functions, each with its own name and whether it is
    recognized only before a parenthesis. *)
Inductive builtin :=
| b_define | b_pushdef | b_undefine | b_popdef | b_defn | b_ifdef | b_ifelse | b_shift | b_dnl
| b_changequote | b_changecom | b_len | b_index | b_substr | b_translit | b_incr | b_decr | b_eval
| b_divert | b_divnum | b_undivert | b_include | b_sinclude | b_syscmd | b_sysval | b_maketemp
| b_mkstemp | b_m4exit | b_m4wrap | b_errprint | b_dumpdef | b_traceon | b_traceoff.

#[global] Instance builtin_eq_dec : EqDecision builtin.
Proof. solve_decision. Defined.

Definition builtins : list (list Z * bool * builtin) :=
  [(str! "define", true, b_define); (str! "pushdef", true, b_pushdef); (str! "undefine", true, b_undefine);
   (str! "popdef", true, b_popdef); (str! "defn", true, b_defn); (str! "ifdef", true, b_ifdef);
   (str! "ifelse", true, b_ifelse); (str! "shift", true, b_shift); (str! "dnl", false, b_dnl);
   (str! "changequote", false, b_changequote); (str! "changecom", false, b_changecom); (str! "len", true, b_len);
   (str! "index", true, b_index); (str! "substr", true, b_substr); (str! "translit", true, b_translit);
   (str! "incr", true, b_incr); (str! "decr", true, b_decr); (str! "eval", true, b_eval);
   (str! "divert", false, b_divert); (str! "divnum", false, b_divnum); (str! "undivert", false, b_undivert);
   (str! "include", true, b_include); (str! "sinclude", true, b_sinclude); (str! "syscmd", true, b_syscmd);
   (str! "sysval", false, b_sysval); (str! "maketemp", true, b_maketemp); (str! "mkstemp", true, b_mkstemp);
   (str! "m4exit", false, b_m4exit); (str! "m4wrap", true, b_m4wrap); (str! "errprint", true, b_errprint);
   (str! "dumpdef", false, b_dumpdef); (str! "traceon", false, b_traceon); (str! "traceoff", false, b_traceoff)].

Definition builtin_entry (f : builtin) : list Z * bool :=
  match List.find (fun e => bool_decide (e.2 = f)) builtins with
  | Some (name, blind, _) => (name, blind)
  | None => ([], false)
  end.
Definition builtin_name (f : builtin) : list Z := (builtin_entry f).1.

(** A definition: a built-in or its text. *)
Record macro := mkMacro { mtext : list Z; mfn : option builtin }.

Definition blind (m : macro) : bool :=
  match mfn m with Some f => (builtin_entry f).2 | None => false end.

Record argument := mkArg { atext : list Z; afn : option macro; present : bool }.

Inductive tokenKind := tokEOF | tokText | tokName | tokChar.

Record sourceLoc := Loc { file : list Z; line : Z; seq : Z }.

Record cmdlineOp := mkOp { beforeFile : Z; undefine : bool; arg : list Z; syncSet : bool; syncOn : bool }.

(** The delimiters. *)
Record quoting := Quoting { lquote : list Z; rquote : list Z; bcomm : list Z; ecomm : list Z }.

(** The input: the bytes pushed back, the next one first, with where each of
    them comes from; the unread bytes [src[pos:]] of the current file; the
    files and options to come. *)
Record input := Input {
  pushed : list (Z * sourceLoc);
  src : list Z;
  srcLoc : sourceLoc;
  srcPendNL : bool;
  nextSeq : Z;
  files : list (list Z);
  options : list cmdlineOp;
  fileIndex : Z;
  stdin : bool
}.

(** The output: what was written to the two streams, the state of -s, and the
    diversions. *)
Record output := Output {
  out : list Z;
  err : list Z;
  sync : bool;
  bol : bool;
  outLine : Z;
  outSeq : Z;
  divnum : Z;
  diversions : list (list Z)
}.

(** What a run asks of the operating system; an error is its text. *)
Inductive creation := Created | Exists | Failed (msg : list Z).

Record host (W : Type) := Host {
  readFile : list Z -> W -> (list Z + list Z) * W;
  readStdin : W -> (list Z + list Z) * W;
  runSystem : list Z -> W -> Z * list Z * list Z * W;
  randomRead : Z -> W -> (list Z + list Z) * W;
  createFile : list Z -> W -> creation * W;
  getpid : Z;
  mapOrder : list (list Z) -> list (list Z)
}.
Arguments readFile {W}.
Arguments readStdin {W}.
Arguments runSystem {W}.
Arguments randomRead {W}.
Arguments createFile {W}.
Arguments getpid {W}.
Arguments mapOrder {W}.

Section Engine.
Context {W : Type} (h : host W).

(** The current definition of a name is the first of its list. *)
Record processor := Processor {
  macros : gmap (list Z) (list macro);
  quotes : quoting;
  inp : input;
  here : sourceLoc;
  outp : output;
  nesting : Z;
  failed : bool;
  wraps : list (list Z);
  traceAll : bool;
  trace : gmap (list Z) bool;
  sysval : Z;
  exitSet : bool;
  exitCode : Z;
  world : W
}.

Definition set_macros (m : gmap (list Z) (list macro)) (p : processor) : processor :=
  Processor m (quotes p) (inp p) (here p) (outp p) (nesting p) (failed p) (wraps p) (traceAll p) (trace p)
    (sysval p) (exitSet p) (exitCode p) (world p).
Definition set_quotes (q : quoting) (p : processor) : processor :=
  Processor (macros p) q (inp p) (here p) (outp p) (nesting p) (failed p) (wraps p) (traceAll p) (trace p)
    (sysval p) (exitSet p) (exitCode p) (world p).
Definition set_inp (i : input) (p : processor) : processor :=
  Processor (macros p) (quotes p) i (here p) (outp p) (nesting p) (failed p) (wraps p) (traceAll p) (trace p)
    (sysval p) (exitSet p) (exitCode p) (world p).
Definition set_here (l : sourceLoc) (p : processor) : processor :=
  Processor (macros p) (quotes p) (inp p) l (outp p) (nesting p) (failed p) (wraps p) (traceAll p) (trace p)
    (sysval p) (exitSet p) (exitCode p) (world p).
Definition set_outp (o : output) (p : processor) : processor :=
  Processor (macros p) (quotes p) (inp p) (here p) o (nesting p) (failed p) (wraps p) (traceAll p) (trace p)
    (sysval p) (exitSet p) (exitCode p) (world p).
Definition set_nesting (n : Z) (p : processor) : processor :=
  Processor (macros p) (quotes p) (inp p) (here p) (outp p) n (failed p) (wraps p) (traceAll p) (trace p)
    (sysval p) (exitSet p) (exitCode p) (world p).
Definition set_failed (p : processor) : processor :=
  Processor (macros p) (quotes p) (inp p) (here p) (outp p) (nesting p) true (wraps p) (traceAll p) (trace p)
    (sysval p) (exitSet p) (exitCode p) (world p).
Definition set_wraps (w : list (list Z)) (p : processor) : processor :=
  Processor (macros p) (quotes p) (inp p) (here p) (outp p) (nesting p) (failed p) w (traceAll p) (trace p)
    (sysval p) (exitSet p) (exitCode p) (world p).
Definition set_trace (all : bool) (t : gmap (list Z) bool) (p : processor) : processor :=
  Processor (macros p) (quotes p) (inp p) (here p) (outp p) (nesting p) (failed p) (wraps p) all t
    (sysval p) (exitSet p) (exitCode p) (world p).
Definition set_sysval (v : Z) (p : processor) : processor :=
  Processor (macros p) (quotes p) (inp p) (here p) (outp p) (nesting p) (failed p) (wraps p) (traceAll p) (trace p)
    v (exitSet p) (exitCode p) (world p).
Definition set_exit (code : Z) (p : processor) : processor :=
  Processor (macros p) (quotes p) (inp p) (here p) (outp p) (nesting p) (failed p) (wraps p) (traceAll p) (trace p)
    (sysval p) true code (world p).
Definition set_world (w : W) (p : processor) : processor :=
  Processor (macros p) (quotes p) (inp p) (here p) (outp p) (nesting p) (failed p) (wraps p) (traceAll p) (trace p)
    (sysval p) (exitSet p) (exitCode p) w.

Definition set_out (t : list Z) (o : output) : output :=
  Output t (err o) (sync o) (bol o) (outLine o) (outSeq o) (divnum o) (diversions o).
Definition set_err (t : list Z) (o : output) : output :=
  Output (out o) t (sync o) (bol o) (outLine o) (outSeq o) (divnum o) (diversions o).
Definition set_diversions (d : list (list Z)) (o : output) : output :=
  Output (out o) (err o) (sync o) (bol o) (outLine o) (outSeq o) (divnum o) d.
Definition set_divnum (n : Z) (o : output) : output :=
  Output (out o) (err o) (sync o) (bol o) (outLine o) (outSeq o) n (diversions o).
Definition set_pushed (l : list (Z * sourceLoc)) (i : input) : input :=
  Input l (src i) (srcLoc i) (srcPendNL i) (nextSeq i) (files i) (options i) (fileIndex i) (stdin i).

(** The result of a step: it returns, it gives up with the Go panic [fatal],
    it fails with a run-time panic, or the fuel is used up. *)
Inductive result (A : Type) :=
| Done (a : A) (p : processor)
| Fatal (p : processor)
| Crash
| NoFuel.
Arguments Done {A}.
Arguments Fatal {A}.
Arguments Crash {A}.
Arguments NoFuel {A}.

Definition andthen {A B} (c : result A) (k : A -> processor -> result B) : result B :=
  match c with
  | Done a p => k a p
  | Fatal p => Fatal p
  | Crash => Crash
  | NoFuel => NoFuel
  end.
Local Notation "'do!' x , p := c 'in' k" := (andthen c (fun x p => k))
  (at level 10, x pattern, p name, c at level 100, k at level 200).

(** A Go computation that can panic, in a step. *)
Definition lift {A} (c : outcome A) (p : processor) : result A :=
  match c with
  | Ret a => Done a p
  | Panic => Crash
  | OutOfFuel => NoFuel
  end.

(** ** Diagnostics *)

Definition write_err (s : list Z) (p : processor) : processor := set_outp (set_err (err (outp p) ++ s) (outp p)) p.

Definition warnf (msg : list Z) (p : processor) : processor :=
  write_err (str! "m4:" ++ file (here p) ++ str! ":" ++ itoa (line (here p)) ++ str! ": " ++ msg ++ [10]) p.

Definition fatalf {A} (msg : list Z) (p : processor) : result A := Fatal (warnf msg p).

(** ** Definitions of macros *)

Definition lookup (p : processor) (name : list Z) : option macro :=
  match macros p !! name with
  | Some (m :: _) => Some m
  | _ => None
  end.

Definition define (name : list Z) (m : macro) (push : bool) (p : processor) : processor :=
  let st := match macros p !! name with Some st => st | None => [] end in
  set_macros (<[name := if push then m :: st else m :: tail st]> (macros p)) p.

(** ** Input *)

Definition apply_option (op : cmdlineOp) (p : processor) : processor :=
  if syncSet op then
    let o := outp p in
    set_outp (Output (out o) (err o) (syncOn op) true (outLine o) 0 (divnum o) (diversions o)) p
  else if undefine op then set_macros (delete (arg op) (macros p)) p
  else
    match index_byte (arg op) (ch! "=") with
    | Some i => define (take i (arg op)) (mkMacro (drop (S i) (arg op)) None) false p
    | None => define (arg op) (mkMacro [] None) false p
    end.

(** The options that stand before the next file. *)
Fixpoint apply_options (ops : list cmdlineOp) (p : processor) : processor :=
  match ops with
  | [] => p
  | op :: ops' =>
      if beforeFile op =? fileIndex (inp p) then
        let i := inp p in
        let p := set_inp (Input (pushed i) (src i) (srcLoc i) (srcPendNL i) (nextSeq i) (files i) ops' (fileIndex i) (stdin i)) p in
        apply_options ops' (apply_option op p)
      else p
  end.

(** The bytes of an operand, the name to show for it, and the state after the
    read. *)
Definition read_operand (name : list Z) (p : processor) : (list Z + list Z) * list Z * processor :=
  let i := inp p in
  if str_eqb name (str! "-") then
    let '(data, w) := if stdin i then (inr [], world p) else readStdin h (world p) in
    let p := set_world w p in
    (data, str! "stdin",
     set_inp (Input (pushed i) (src i) (srcLoc i) (srcPendNL i) (nextSeq i) (files i) (options i) (fileIndex i) true) p)
  else
    let '(data, w) := readFile h name (world p) in
    (data, name, set_world w p).

(** One round of [nextFile]: the operand [name] with [rest] left after it. *)
Definition open_file (name : list Z) (rest : list (list Z)) (p : processor) : bool * processor :=
  let p := apply_options (options (inp p)) p in
  let i := inp p in
  let p := set_inp (Input (pushed i) (src i) (srcLoc i) (srcPendNL i) (nextSeq i) rest (options i) (fileIndex i + 1) (stdin i)) p in
  let '(data, display, p) := read_operand name p in
  match data with
  | inl e => (false, set_failed (write_err (str! "m4: " ++ name ++ str! ": " ++ e ++ [10]) p))
  | inr data =>
      let i := inp p in
      let loc := Loc display 1 (nextSeq i + 1) in
      let p := set_inp (Input (pushed i) data loc false (nextSeq i + 1) (files i) (options i) (fileIndex i) (stdin i)) p in
      (true, set_here loc p)
  end.

(** The loops of [nextFile] and [fill]: operands that cannot be read and
    empty ones are passed over. *)
Fixpoint fill_from (names : list (list Z)) (p : processor) : bool * processor :=
  match names with
  | [] => (false, p)
  | name :: rest =>
      let '(ok, p) := open_file name rest p in
      match src (inp p) with
      | _ :: _ => if ok then (true, p) else fill_from rest p
      | [] => fill_from rest p
      end
  end.

Definition fill (p : processor) : bool * processor :=
  match pushed (inp p), src (inp p) with
  | [], [] => fill_from (files (inp p)) p
  | _, _ => (true, p)
  end.

Definition next (p : processor) : option Z * processor :=
  let '(ok, p) := fill p in
  if negb ok then (None, p)
  else
    let i := inp p in
    match pushed i with
    | (c, loc) :: rest => (Some c, set_here loc (set_inp (set_pushed rest i) p))
    | [] =>
        match src i with
        | [] => (None, p)
        | c :: rest =>
            let sl := srcLoc i in
            let loc := if srcPendNL i then Loc (file sl) (line sl + 1) (seq sl) else sl in
            let i := Input [] rest loc (c =? 10) (nextSeq i) (files i) (options i) (fileIndex i) (stdin i) in
            (Some c, set_here loc (set_inp i p))
        end
    end.

(** The bytes before the end of the current file. *)
Definition lookahead (p : processor) : list Z := (pushed (inp p)).*1 ++ src (inp p).

(** [peekAt(0)] *)
Definition peek (p : processor) : option Z :=
  match pushed (inp p) with
  | (c, _) :: _ => Some c
  | [] => head (src (inp p))
  end.

Fixpoint prefix_of (l : list (Z * sourceLoc)) (rest s : list Z) : bool :=
  match s with
  | [] => true
  | x :: s' =>
      match l with
      | (c, _) :: l' => (c =? x) && prefix_of l' rest s'
      | [] => has_prefix rest s
      end
  end.

Definition hasPrefix (p : processor) (s : list Z) : bool := prefix_of (pushed (inp p)) (src (inp p)) s.

Fixpoint skip (n : nat) (p : processor) : processor :=
  match n with
  | O => p
  | S n' => skip n' (next p).2
  end.

Definition push (l : list (Z * sourceLoc)) (p : processor) : processor :=
  set_inp (set_pushed (l ++ pushed (inp p)) (inp p)) p.

Definition pushback (s : list Z) (p : processor) : processor := push ((fun c => (c, here p)) <$> s) p.

(** The locations of the bytes of an included file. *)
Fixpoint included (name : list Z) (data : list Z) (line seq : Z) : list (Z * sourceLoc) :=
  match data with
  | [] => []
  | c :: data' => (c, Loc name line seq) :: included name data' (if c =? 10 then line + 1 else line) seq
  end.

Definition pushIncluded (name data : list Z) (p : processor) : processor :=
  let i := inp p in
  let sq := nextSeq i + 1 in
  push (included name data 1 sq)
    (set_inp (Input (pushed i) (src i) (srcLoc i) (srcPendNL i) sq (files i) (options i) (fileIndex i) (stdin i)) p).

(** ** Scanner *)

Definition isNameStart (c : Z) : bool :=
  (c =? ch! "_") || ((ch! "A" <=? c) && (c <=? ch! "Z")) || ((ch! "a" <=? c) && (c <=? ch! "z")).

Definition isNameChar (c : Z) : bool := isNameStart c || ((ch! "0" <=? c) && (c <=? ch! "9")).

Definition isSpace (c : Z) : bool := (c =? ch! " ") || (c =? 9) || (c =? 10) || (c =? 13) || (c =? 11) || (c =? 12).

(** The longest prefix of bytes that satisfy [f]. *)
Fixpoint span (f : Z -> bool) (l : list Z) : list Z :=
  match l with
  | c :: l' => if f c then c :: span f l' else []
  | [] => []
  end.

(** The bytes before the first [e], and whether there is one. *)
Fixpoint before (e : list Z) (l : list Z) : list Z * bool :=
  if has_prefix l e then ([], true)
  else
    match l with
    | [] => ([], false)
    | c :: l' => let '(b, found) := before e l' in (c :: b, found)
    end.

Fixpoint quoted (fuel : nat) (depth : Z) (b : list Z) (p : processor) : result (list Z) :=
  match fuel with
  | O => NoFuel
  | S n =>
      let q := quotes p in
      if hasPrefix p (rquote q) then
        let p := skip (length (rquote q)) p in
        if depth - 1 =? 0 then Done b p else quoted n (depth - 1) (b ++ rquote q) p
      else if hasPrefix p (lquote q) then
        quoted n (depth + 1) (b ++ lquote q) (skip (length (lquote q)) p)
      else
        match next p with
        | (None, p) => fatalf (str! "ERROR: end of file in string") p
        | (Some c, p) => quoted n depth (b ++ [c]) p
        end
  end.

(** A comment whose start delimiter is read: up to its end, or to the end of
    the file. *)
Definition comment (p : processor) : list Z * processor :=
  let q := quotes p in
  let p := skip (length (bcomm q)) p in
  let '(b, found) := before (ecomm q) (lookahead p) in
  let b := b ++ (if found then ecomm q else []) in
  (bcomm q ++ b, skip (length b) p).

Definition token (fuel : nat) (p : processor) : result (tokenKind * list Z) :=
  let '(ok, p) := fill p in
  if negb ok then Done (tokEOF, []) p
  else
    let q := quotes p in
    if bool_decide (bcomm q <> []) && hasPrefix p (bcomm q) then
      let '(b, p) := comment p in Done (tokText, b) p
    else
      let c := default 0 (peek p) in
      if isNameStart c then
        let b := span isNameChar (lookahead p) in
        Done (tokName, b) (skip (length b) p)
      else if bool_decide (lquote q <> []) && hasPrefix p (lquote q) then
        do! s, p := quoted fuel 1 [] (skip (length (lquote q)) p) in
        Done (tokText, s) p
      else Done (tokChar, string_of_byte c) (next p).2.

(** ** Output *)

Definition writeOutput (s : list Z) (o : output) : output :=
  if divnum o =? 0 then set_out (out o ++ s) o
  else if (0 <? divnum o) && (divnum o <? len (diversions o)) then
    set_diversions (alter (fun d => d ++ s) (Z.to_nat (divnum o)) (diversions o)) o
  else o.

(** The bytes of [s] with the line directives of -s, at location [l]. *)
Fixpoint synced (l : sourceLoc) (s : list Z) (o : output) : list Z * output :=
  match s with
  | [] => ([], o)
  | c :: s' =>
      let '(directive, o) :=
        if bol o then
          let o := Output (out o) (err o) (sync o) false (outLine o) (outSeq o) (divnum o) (diversions o) in
          if negb (outSeq o =? seq l) || negb (outLine o =? line l) then
            (str! "#line " ++ itoa (line l) ++
             (if negb (outSeq o =? seq l) then 32 :: 34 :: file l ++ [34] else []) ++ [10],
             Output (out o) (err o) (sync o) false (line l) (seq l) (divnum o) (diversions o))
          else ([], o)
        else ([], o) in
      let o :=
        if c =? 10 then Output (out o) (err o) (sync o) true (outLine o + 1) (outSeq o) (divnum o) (diversions o)
        else o in
      let '(rest, o) := synced l s' o in
      (directive ++ c :: rest, o)
  end.

Definition emit (s : list Z) (p : processor) : processor :=
  let o := outp p in
  if (divnum o <? 0) || (len (diversions o) <=? divnum o) then p
  else if negb (sync o) then set_outp (writeOutput s o) p
  else let '(t, o) := synced (here p) s o in set_outp (writeOutput t o) p.

(** Move diversion [n] to the current output. *)
Definition undiv (n : Z) (o : output) : output :=
  if (0 <? n) && (n <? len (diversions o)) then
    let s := default [] (diversions o !! Z.to_nat n) in
    writeOutput s (set_diversions (<[Z.to_nat n := []]> (diversions o)) o)
  else o.

Definition numbered : list Z := [1; 2; 3; 4; 5; 6; 7; 8; 9].

Definition flushDiversions (p : processor) : processor :=
  let o := outp p in
  set_outp (set_divnum (divnum o) (foldl (fun o n => undiv n o) (set_divnum 0 o) numbered)) p.

(** ** Built-in macros *)

Fixpoint joinArgs (args : list argument) (lq rq : list Z) : list Z :=
  match args with
  | [] => []
  | [a] => lq ++ atext a ++ rq
  | a :: args' => lq ++ atext a ++ rq ++ ch! "," :: joinArgs args' lq rq
  end.

Definition atLeast (f : builtin) (args : list argument) (n : Z) (p : processor) : bool * processor :=
  if n <=? len args then (true, p)
  else (false, warnf (str! "Warning: too few arguments to builtin `" ++ builtin_name f ++ str! "'") p).

Definition in_builtin (msg : list Z) (f : builtin) : list Z := msg ++ str! " builtin `" ++ builtin_name f ++ str! "'".

Definition number (f : builtin) (s : list Z) (p : processor) : option Z * processor :=
  match s with
  | [] => (Some 0, warnf (in_builtin (str! "empty string treated as 0 in") f) p)
  | _ =>
      match ParseInt 64 (trim_left (fun c => (c =? 32) || (c =? 9) || (c =? 10)) s) with
      | None => (None, warnf (in_builtin (str! "non-numeric argument to") f) p)
      | Some v => (Some (int32 v), p)
      end
  end.

(** What a built-in gives back: text to rescan, and a definition for [defn]. *)
Abbreviation reply := (result (list Z * option macro)).
Definition reply_text (s : list Z) (p : processor) : reply := Done (s, None) p.

Definition defineFromArgs (args : list argument) (push : bool) (p : processor) : reply :=
  do! a, p := lift (index args 0) p in
  match atext a with
  | [] => reply_text [] p
  | name =>
      let m :=
        match args !! 1%nat with
        | None => mkMacro [] None
        | Some d => match afn d with Some m => m | None => mkMacro (atext d) None end
        end in
      reply_text [] (define name m push p)
  end.

Definition popdef (name : list Z) (p : processor) : processor :=
  match macros p !! name with
  | Some (_ :: m :: st) => set_macros (<[name := m :: st]> (macros p)) p
  | _ => set_macros (delete name (macros p)) p
  end.

Fixpoint defn_texts (args : list argument) (p : processor) : list Z :=
  match args with
  | [] => []
  | a :: args' =>
      match lookup p (atext a) with
      | Some (mkMacro t None) => lquote (quotes p) ++ t ++ rquote (quotes p) ++ defn_texts args' p
      | _ => defn_texts args' p
      end
  end.

Definition biDefn (args : list argument) (p : processor) : reply :=
  match args with
  | [a] =>
      match lookup p (atext a) with
      | Some (mkMacro _ (Some _) as m) => Done ([], Some m) p
      | _ => reply_text (defn_texts args p) p
      end
  | _ => reply_text (defn_texts args p) p
  end.

Definition biIfdef (args : list argument) (p : processor) : reply :=
  let '(ok, p) := atLeast b_ifdef args 2 p in
  match args with
  | a :: b :: rest =>
      match lookup p (atext a), rest with
      | Some _, _ => reply_text (atext b) p
      | None, c :: _ => reply_text (atext c) p
      | None, [] => reply_text [] p
      end
  | _ => reply_text [] p
  end.

(** The loop of ifelse, on at least three arguments. *)
Fixpoint ifelse_loop (args : list argument) : list Z :=
  match args with
  | a :: b :: c :: rest =>
      if str_eqb (atext a) (atext b) then atext c
      else
        match rest with
        | [] => []
        | [d] | [d; _] => atext d
        | _ => ifelse_loop rest
        end
  | _ => []
  end.

Definition biIfelse (args : list argument) (p : processor) : reply :=
  if len args =? 1 then reply_text [] p
  else
    let '(ok, p) := atLeast b_ifelse args 3 p in
    reply_text (if (ok : bool) then ifelse_loop args else []) p.

Definition biChangequote (args : list argument) (p : processor) : processor :=
  let q := quotes p in
  match args with
  | a :: rest =>
      if bool_decide (rest <> []) || present a then
        let r := match rest with b :: _ => if bool_decide (atext b <> []) then atext b else str! "'" | [] => str! "'" end in
        set_quotes (Quoting (atext a) r (bcomm q) (ecomm q)) p
      else set_quotes (Quoting (str! "`") (str! "'") (bcomm q) (ecomm q)) p
  | [] => set_quotes (Quoting (str! "`") (str! "'") (bcomm q) (ecomm q)) p
  end.

Definition biChangecom (args : list argument) (p : processor) : processor :=
  let q := quotes p in
  match args with
  | [] => set_quotes (Quoting (lquote q) (rquote q) [] [10]) p
  | a :: rest =>
      let e := match rest with b :: _ => if bool_decide (atext b <> []) then atext b else [10] | [] => [10] end in
      set_quotes (Quoting (lquote q) (rquote q) (atext a) e) p
  end.

(** [strings.Index] from offset [i]. *)
Fixpoint str_index (s sub : list Z) (i : Z) : Z :=
  if has_prefix s sub then i
  else match s with [] => -1 | _ :: s' => str_index s' sub (i + 1) end.

Definition biSubstr (args : list argument) (p : processor) : reply :=
  let '(ok, p) := atLeast b_substr args 2 p in
  if negb ok then reply_text [] p
  else
    do! a, p := lift (index args 0) p in
    do! b, p := lift (index args 1) p in
    let s := atext a in
    let '(start, p) := number b_substr (atext b) p in
    match start with
    | None => reply_text [] p
    | Some start =>
        let '(length, p) :=
          match args !! 2%nat with
          | Some c => number b_substr (atext c) p
          | None => (Some (int32 (len s)), p)
          end in
        match length with
        | None => reply_text [] p
        | Some length =>
            if (start <? 0) || (len s <=? start) || (length <=? 0) then reply_text [] p
            else
              let e := if len s <? start + length then len s else start + length in
              do! r, p := lift (slice s start e) p in
              reply_text r p
        end
    end.

(** The bytes after [lo] up to [hi], going up or down. *)
Definition range_to (lo hi : Z) : list Z :=
  (fun i => if lo <? hi then lo + Z.of_nat i else lo - Z.of_nat i) <$> List.seq 1 (Z.to_nat (Z.abs (hi - lo))).

(** The loop of [expandRanges], with the byte before. *)
Fixpoint expand_ranges (prev : option Z) (s : list Z) : list Z :=
  match s with
  | [] => []
  | c :: rest =>
      match prev, rest with
      | Some lo, hi :: rest' =>
          if c =? ch! "-" then range_to lo hi ++ expand_ranges (Some hi) rest'
          else c :: expand_ranges (Some c) rest
      | _, _ => c :: expand_ranges (Some c) rest
      end
  end.

Definition expandRanges (s : list Z) : list Z := expand_ranges None s.

(** The table of [biTranslit]: -1 for unmapped, -2 for deleted. *)
Fixpoint fill_table (from to : list Z) (table : Z -> Z) : Z -> Z :=
  match from with
  | [] => table
  | c :: from' =>
      let table' :=
        if negb (table c =? -1) then table
        else fun x => if x =? c then match to with t :: _ => t | [] => -2 end else table x in
      fill_table from' (tail to) table'
  end.

Fixpoint translit (table : Z -> Z) (s : list Z) : list Z :=
  match s with
  | [] => []
  | c :: s' =>
      if table c =? -1 then c :: translit table s'
      else if table c =? -2 then translit table s'
      else table c :: translit table s'
  end.

Definition biTranslit (args : list argument) (p : processor) : reply :=
  let '(ok, p) := atLeast b_translit args 2 p in
  match args with
  | a :: b :: rest =>
      let to := match rest with c :: _ => expandRanges (atext c) | [] => [] end in
      reply_text (translit (fill_table (expandRanges (atext b)) to (fun _ => -1)) (atext a)) p
  | _ => reply_text [] p
  end.

Definition addTo (f : builtin) (args : list argument) (delta : Z) (p : processor) : reply :=
  do! a, p := lift (index args 0) p in
  match number f (atext a) p with
  | (None, p) => reply_text [] p
  | (Some v, p) => reply_text (itoa (int32 (v + delta))) p
  end.

(** [strings.ToUpper(strconv.FormatUint(n, radix))]. *)
Definition format_uint (radix n : Z) : list Z :=
  if n =? 0 then [ch! "0"]
  else (fun d => if d <? 10 then ch! "0" + d else ch! "A" + (d - 10)) <$> digits radix n.

Definition format_eval (v radix width : Z) : list Z :=
  let mag := Z.abs v in
  let ds := if radix =? 1 then replicate (Z.to_nat mag) (ch! "1") else format_uint radix mag in
  (if v <? 0 then [ch! "-"] else []) ++ replicate (Z.to_nat (width - len ds)) (ch! "0") ++ ds.

(** The radix and the width of eval; [None] when it gives up. *)
Definition eval_radix (args : list argument) (p : processor) : option Z * processor :=
  match args !! 1%nat with
  | Some a =>
      if bool_decide (atext a <> []) then
        match number b_eval (atext a) p with
        | (None, p) => (None, p)
        | (Some radix, p) =>
            if (radix <? 1) || (36 <? radix) then
              (None, warnf (in_builtin (str! "radix in") b_eval ++ str! " out of range (radix = " ++ itoa radix ++ str! ")") p)
            else (Some radix, p)
        end
      else (Some 10, p)
  | None => (Some 10, p)
  end.

Definition eval_width (args : list argument) (p : processor) : option Z * processor :=
  match args !! 2%nat with
  | Some a =>
      if bool_decide (atext a <> []) then
        match number b_eval (atext a) p with
        | (None, p) => (None, p)
        | (Some width, p) =>
            if width <? 0 then (None, warnf (in_builtin (str! "negative width to") b_eval) p) else (Some width, p)
        end
      else (Some 1, p)
  | None => (Some 1, p)
  end.

Definition biEval (args : list argument) (p : processor) : reply :=
  match eval_radix args p with
  | (None, p) => reply_text [] p
  | (Some radix, p) =>
      match eval_width args p with
      | (None, p) => reply_text [] p
      | (Some width, p) =>
          do! a, p := lift (index args 0) p in
          let p := match atext a with [] => warnf (in_builtin (str! "empty string treated as 0 in") b_eval) p | _ => p end in
          do! (v, e), p := lift (M4.evalExpr (atext a)) p in
          match e with
          | [] => reply_text (format_eval v radix width) p
          | _ => reply_text [] (set_failed (warnf (e ++ str! " in eval: " ++ atext a) p))
          end
      end
  end.

Definition biDivert (args : list argument) (p : processor) : processor :=
  let '(n, p) :=
    match args with
    | a :: _ => if bool_decide (atext a <> []) then number b_divert (atext a) p else (Some 0, p)
    | [] => (Some 0, p)
    end in
  match n with
  | None => p
  | Some n =>
      let o := outp p in
      if divnum o =? n then p
      else set_outp (Output (out o) (err o) (sync o) (bol o) (-1) 0 n (diversions o)) p
  end.

Fixpoint undivert_args (args : list argument) (p : processor) : processor :=
  match args with
  | [] => p
  | a :: args' =>
      match number b_undivert (atext a) p with
      | (Some n, p) => undivert_args args' (set_outp (undiv n (outp p)) p)
      | (None, p) => undivert_args args' p
      end
  end.

Definition biUndivert (args : list argument) (p : processor) : processor :=
  match args with
  | [] => set_outp (foldl (fun o n => undiv n o) (outp p) numbered) p
  | _ => undivert_args args p
  end.

Definition read_named (name : list Z) (p : processor) : (list Z + list Z) * processor :=
  let '(data, w) := readFile h name (world p) in (data, set_world w p).

Definition biInclude (args : list argument) (p : processor) : reply :=
  let '(ok, p) := atLeast b_include args 1 p in
  match args with
  | a :: _ =>
      match read_named (atext a) p with
      | (inl e, p) => fatalf (atext a ++ str! ": " ++ e) p
      | (inr data, p) => reply_text [] (pushIncluded (atext a) data p)
      end
  | [] => reply_text [] p
  end.

Definition biSinclude (args : list argument) (p : processor) : processor :=
  match args with
  | a :: _ =>
      match read_named (atext a) p with
      | (inl _, p) => p
      | (inr data, p) => pushIncluded (atext a) data p
      end
  | [] => p
  end.

(** The command writes to the streams of the run itself. *)
Definition biSyscmd (args : list argument) (p : processor) : processor :=
  let '(ok, p) := atLeast b_syscmd args 1 p in
  match args with
  | a :: _ =>
      let '(status, o, e, w) := runSystem h (atext a) (world p) in
      let p := set_world w p in
      set_sysval status (write_err e (set_outp (set_out (out (outp p) ++ o) (outp p)) p))
  | [] => p
  end.

Definition isX (c : Z) : bool := c =? ch! "X".

Definition biMaketemp (args : list argument) (p : processor) : reply :=
  let '(ok, p) := atLeast b_maketemp args 1 p in
  match args with
  | a :: _ =>
      let stem := trim_right isX (atext a) in
      if (len stem =? len (atext a)) then reply_text (atext a) p
      else reply_text (stem ++ itoa (getpid h)) p
  | [] => reply_text [] p
  end.

Definition letters : list Z := str! "ABCDEFGHIJKLMNOPQRSTUVWXYZabcdefghijklmnopqrstuvwxyz0123456789".

Fixpoint mkstemp_attempts (attempts : nat) (stem : list Z) (width : Z) (p : processor) : reply :=
  let stop_run msg p := reply_text [] (set_failed (warnf (builtin_name b_mkstemp ++ str! ": " ++ msg) p)) in
  match attempts with
  | O => stop_run (str! "cannot create unique file") p
  | S n =>
      let '(r, w) := randomRead h width (world p) in
      let p := set_world w p in
      match r with
      | inl e => stop_run (str! "random suffix: " ++ e) p
      | inr bytes =>
          let candidate := stem ++ ((fun b => default 0 (letters !! Z.to_nat (b mod len letters))) <$> bytes) in
          let '(c, w) := createFile h candidate (world p) in
          let p := set_world w p in
          match c with
          | Exists => mkstemp_attempts n stem width p
          | Created => reply_text candidate p
          | Failed e => stop_run e p
          end
      end
  end.

Definition biMkstemp (args : list argument) (p : processor) : reply :=
  let '(ok, p) := atLeast b_mkstemp args 1 p in
  match args with
  | a :: _ =>
      let stem := trim_right isX (atext a) in
      let width := len (atext a) - len stem in
      if width <? 6 then
        reply_text [] (set_failed (warnf (builtin_name b_mkstemp ++ str! ": template must end in XXXXXX") p))
      else mkstemp_attempts 100 stem width p
  | [] => reply_text [] p
  end.

Definition biM4exit (args : list argument) (p : processor) : reply :=
  let '(code, p) := match args with a :: _ => number b_m4exit (atext a) p | [] => (Some 0, p) end in
  match code with
  | Some code => Fatal (let p := set_exit code p in if code =? 0 then p else set_failed p)
  | None => Fatal p
  end.

Fixpoint dump (names : list (list Z)) (p : processor) : processor :=
  match names with
  | [] => p
  | n :: names' =>
      dump names'
        (match lookup p n with
         | Some (mkMacro _ (Some f)) => write_err (n ++ str! ":" ++ 9 :: str! "<" ++ builtin_name f ++ str! ">" ++ [10]) p
         | Some (mkMacro t None) => write_err (n ++ str! ":" ++ 9 :: t ++ [10]) p
         | None => p
         end)
  end.

Definition biDumpdef (args : list argument) (p : processor) : processor :=
  match args with
  | [] => dump (mapOrder h ((map_to_list (macros p)).*1)) p
  | _ => dump (atext <$> args) p
  end.

Definition biTrace (on : bool) (args : list argument) (p : processor) : processor :=
  match args with
  | [] => set_trace on ∅ p
  | _ => set_trace (traceAll p) (foldl (fun t a => <[atext a := on]> t) (trace p) args) p
  end.

(** Skip to the end of the line. *)
Definition biDnl (p : processor) : processor :=
  let '(b, found) := before [10] (lookahead p) in
  skip (length b + (if (found : bool) then 1 else 0)) p.

Definition run_builtin (f : builtin) (args : list argument) (p : processor) : reply :=
  match f with
  | b_define => defineFromArgs args false p
  | b_pushdef => defineFromArgs args true p
  | b_undefine => reply_text [] (set_macros (foldl (fun m a => delete (atext a) m) (macros p) args) p)
  | b_popdef => reply_text [] (foldl (fun p a => popdef (atext a) p) p args)
  | b_defn => biDefn args p
  | b_ifdef => biIfdef args p
  | b_ifelse => biIfelse args p
  | b_shift =>
      reply_text (match tail args with [] => [] | rest => joinArgs rest (lquote (quotes p)) (rquote (quotes p)) end) p
  | b_dnl => reply_text [] (biDnl p)
  | b_changequote => reply_text [] (biChangequote args p)
  | b_changecom => reply_text [] (biChangecom args p)
  | b_len => do! a, p := lift (index args 0) p in reply_text (itoa (len (atext a))) p
  | b_index =>
      let '(ok, p) := atLeast b_index args 2 p in
      reply_text (match args with a :: b :: _ => itoa (str_index (atext a) (atext b) 0) | _ => [] end) p
  | b_substr => biSubstr args p
  | b_translit => biTranslit args p
  | b_incr => addTo b_incr args 1 p
  | b_decr => addTo b_decr args (-1) p
  | b_eval => biEval args p
  | b_divert => reply_text [] (biDivert args p)
  | b_divnum => reply_text (itoa (divnum (outp p))) p
  | b_undivert => reply_text [] (biUndivert args p)
  | b_include => biInclude args p
  | b_sinclude => reply_text [] (biSinclude args p)
  | b_syscmd => reply_text [] (biSyscmd args p)
  | b_sysval => reply_text (itoa (sysval p)) p
  | b_maketemp => biMaketemp args p
  | b_mkstemp => biMkstemp args p
  | b_m4exit => biM4exit args p
  | b_m4wrap => reply_text [] (match args with a :: _ => set_wraps (wraps p ++ [atext a]) p | [] => p end)
  | b_errprint => reply_text [] (foldl (fun p a => write_err (atext a) p) p args)
  | b_dumpdef => reply_text [] (biDumpdef args p)
  | b_traceon => reply_text [] (biTrace true args p)
  | b_traceoff => reply_text [] (biTrace false args p)
  end.

(** ** Expansion *)

Fixpoint substitute (q : quoting) (name text : list Z) (args : list argument) : list Z :=
  match text with
  | [] => []
  | c :: rest =>
      match rest with
      | d :: rest' =>
          if c =? ch! "$" then
            if d =? ch! "0" then name ++ substitute q name rest' args
            else if (ch! "1" <=? d) && (d <=? ch! "9") then
              match args !! Z.to_nat (d - ch! "0" - 1) with
              | Some a => atext a
              | None => []
              end ++ substitute q name rest' args
            else if d =? ch! "#" then itoa (len args) ++ substitute q name rest' args
            else if d =? ch! "*" then joinArgs args [] [] ++ substitute q name rest' args
            else if d =? ch! "@" then joinArgs args (lquote q) (rquote q) ++ substitute q name rest' args
            else c :: substitute q name rest args
          else c :: substitute q name rest args
      | [] => [c]
      end
  end.

Definition maxNesting : Z := 4096.

Fixpoint skip_space (fuel : nat) (p : processor) : result unit :=
  match fuel with
  | O => NoFuel
  | S n =>
      let '(ok, p) := fill p in
      if negb ok then fatalf (str! "ERROR: end of file in argument list") p
      else if isSpace (default 0 (peek p)) then skip_space n (next p).2
      else Done tt p
  end.

(** The deferred [nesting--]. *)
Definition unnest {A} (r : result A) : result A :=
  match r with
  | Done a p => Done a (set_nesting (nesting p - 1) p)
  | Fatal p => Fatal (set_nesting (nesting p - 1) p)
  | Crash => Crash
  | NoFuel => NoFuel
  end.

Definition traced (p : processor) (name : list Z) : bool :=
  match trace p !! name with Some b => b | None => traceAll p end.

Definition trace_call (name : list Z) (args : list argument) (p : processor) : processor :=
  if traced p name then
    write_err (str! "m4trace:" ++ file (here p) ++ str! ":" ++ itoa (line (here p)) ++ str! ": -" ++ name ++ str! "(" ++
               joinArgs args (str! "`") (str! "'") ++ str! ")" ++ [10]) p
  else p.

Definition is_open (c : option Z) : bool := match c with Some c => c =? ch! "(" | None => false end.

Fixpoint expand (fuel : nat) (name : list Z) (p : processor) {struct fuel} : result (bool * option macro) :=
  match fuel with
  | O => NoFuel
  | S n =>
      match lookup p name with
      | None => Done (false, None) p
      | Some m =>
          let callLoc := here p in
          let called := is_open (peek p) in
          if negb called && blind m then Done (false, None) p
          else
            do! args, p := if called then collect n (next p).2 else Done [] p in
            let p := trace_call name args p in
            match mfn m with
            | Some f =>
                do! (text, fn), p := run_builtin f args p in
                Done (true, fn) (pushback text p)
            | None =>
                let text := substitute (quotes p) name (mtext m) args in
                Done (true, None) (pushback text (set_here callLoc p))
            end
      end
  end
with collect (fuel : nat) (p : processor) {struct fuel} : result (list argument) :=
  match fuel with
  | O => NoFuel
  | S n =>
      let p := set_nesting (nesting p + 1) p in
      if maxNesting <? nesting p then
        fatalf (str! "ERROR: macro calls nested too deeply (limit 4096)") p
      else unnest (collect_args n [] p)
  end
with collect_args (fuel : nat) (args : list argument) (p : processor) {struct fuel} : result (list argument) :=
  match fuel with
  | O => NoFuel
  | S n =>
      do! _, p := skip_space n p in
      collect_arg n args [] None false 0 p
  end
with collect_arg (fuel : nat) (args : list argument) (b : list Z) (argFn : option macro) (present : bool)
    (parens : Z) (p : processor) {struct fuel} : result (list argument) :=
  match fuel with
  | O => NoFuel
  | S n =>
      do! (kind, s), p := token n p in
      match kind with
      | tokEOF => fatalf (str! "ERROR: end of file in argument list") p
      | tokText => collect_arg n args (b ++ s) argFn true parens p
      | tokName =>
          do! (handled, fn), p := expand n s p in
          if negb handled then collect_arg n args (b ++ s) argFn true parens p
          else
            match fn, b with
            | Some _, [] => collect_arg n args b fn true parens p
            | _, _ => collect_arg n args b argFn true parens p
            end
      | tokChar =>
          if str_eqb s (str! "(") then collect_arg n args (b ++ s) argFn true (parens + 1) p
          else if str_eqb s (str! ")") && (0 <? parens) then collect_arg n args (b ++ s) argFn true (parens - 1) p
          else if str_eqb s (str! ")") then Done (args ++ [mkArg b argFn present]) p
          else if str_eqb s (str! ",") && (parens =? 0) then collect_args n (args ++ [mkArg b argFn present]) p
          else collect_arg n args (b ++ s) argFn true parens p
      end
  end.

(** ** The main loop *)

(** The loop of [process] up to the end of the input. *)
Fixpoint process_loop (fuel : nat) (p : processor) : result unit :=
  match fuel with
  | O => NoFuel
  | S n =>
      do! (kind, s), p := token n p in
      match kind with
      | tokEOF =>
          match wraps p with
          | w :: ws =>
              let p := set_here (Loc (file (here p)) 0 (seq (here p))) (set_wraps ws p) in
              process_loop n (pushback w p)
          | [] => Done tt (flushDiversions p)
          end
      | tokName =>
          do! (handled, _), p := expand n s p in
          process_loop n (if (handled : bool) then p else emit s p)
      | _ => process_loop n (emit s p)
      end
  end.

(** The exit status and the final state. *)
Definition process (fuel : nat) (p : processor) : outcome (Z * processor) :=
  match process_loop fuel p with
  | Done _ p => Ret (if failed p then 1 else 0, p)
  | Fatal p => Ret (if exitSet p then exitCode p else 1, p)
  | Crash => Panic
  | NoFuel => OutOfFuel
  end.

Definition newProcessor (names : list (list Z)) (ops : list cmdlineOp) (w : W) : processor :=
  Processor (list_to_map ((fun e => (e.1.1, [mkMacro [] (Some e.2)])) <$> builtins))
    (Quoting (str! "`") (str! "'") (str! "#") [10])
    (Input [] [] (Loc [] 0 0) false 0 names ops 0 false) (Loc [] 0 0)
    (Output [] [] false true 0 0 0 (replicate 10 [])) 0 false [] false ∅ 0 false 0 w.

Definition validMacroName (name : list Z) : bool :=
  match name with
  | [] => false
  | c :: rest => isNameStart c && forallb isNameChar rest
  end.

Definition op_name (op : cmdlineOp) : list Z :=
  if undefine op then arg op
  else match index_byte (arg op) (ch! "=") with Some i => take i (arg op) | None => arg op end.

(** The command after its flags are read: its status and its two outputs. *)
Definition run (fuel : nat) (names : list (list Z)) (ops : list cmdlineOp) (w : W) : outcome (Z * list Z * list Z) :=
  let names := match names with [] => [str! "-"] | _ => names end in
  match List.find (fun op => negb (syncSet op) && negb (validMacroName (op_name op))) ops with
  | Some op => Ret (2, [], str! "m4: invalid macro name: " ++ op_name op ++ [10])
  | None =>
      let! (code, p) := process fuel (newProcessor names ops w) in
      Ret (code, out (outp p), err (outp p))
  end.

End Engine.
Arguments Done {W A}.
Arguments Fatal {W A}.
Arguments Crash {W A}.
Arguments NoFuel {W A}.

End M4Engine.
