(* ===== verification/M4Scan.v ===== *)
(** * m4: the scanner and the fuel

    The proofs about the reading half of [M4Engine]: what it means to read
    bytes without leaving the current file, the tokens of plain text, names,
    comments and quoted strings, the arguments of a call, and the fact that
    more fuel never changes a result. *)

From Stdlib Require Import ZArith Lia String.
From stdpp Require Import base tactics list numbers gmap strings.
From S2P Require Import Prelude M4Eval M4Engine.

Module M4Scan.
Import M4Engine.

Section Scan.
Context {W : Type} (h : host W).
Implicit Types p : processor (W := W).

(** ** Reading inside a file *)

(** What reading does not change: everything but the position. *)
Definition frame p := set_here (Loc [] 0 0) (set_inp (Input [] [] (Loc [] 0 0) false 0 [] [] 0 false) p).
Definition pending p := (nextSeq (inp p), files (inp p), options (inp p), fileIndex (inp p), stdin (inp p)).

(** From [p] to [p'] the bytes [s] were read, all of them in one file. *)
Record reads (s : list Z) p p' : Prop := Reads {
  reads_bytes : lookahead p = s ++ lookahead p';
  reads_frame : frame p' = frame p;
  reads_pending : pending p' = pending p
}.

Lemma reads_nil p : reads [] p p.
Proof. done. Qed.

Lemma reads_app s t p p' p'' : reads s p p' -> reads t p' p'' -> reads (s ++ t) p p''.
Proof. intros [E1 F1 P1] [E2 F2 P2]. split; [|congruence..]. by rewrite E1, E2, app_assoc. Qed.

Lemma frame_fields p p' :
  frame p' = frame p ->
  macros p' = macros p /\ quotes p' = quotes p /\ outp p' = outp p /\ nesting p' = nesting p /\ failed p' = failed p /\
  wraps p' = wraps p /\ traceAll p' = traceAll p /\ trace p' = trace p /\ sysval p' = sysval p /\
  exitSet p' = exitSet p /\ exitCode p' = exitCode p /\ world p' = world p.
Proof. destruct p, p'. intros [=]. by split_and!. Qed.

Lemma reads_quotes s p p' : reads s p p' -> quotes p' = quotes p.
Proof. intros R. by apply reads_frame, frame_fields in R as (_ & ? & _). Qed.

Lemma fill_inside p : lookahead p <> [] -> fill h p = (true, p).
Proof. unfold fill, lookahead. destruct (pushed (inp p)) as [|[]], (src (inp p)); done. Qed.

Lemma peek_lookahead p : peek p = head (lookahead p).
Proof. unfold peek, lookahead. by destruct (pushed (inp p)) as [|[]]. Qed.

Lemma next_reads p c l : lookahead p = c :: l -> exists p', next h p = (Some c, p') /\ reads [c] p p'.
Proof.
  intros E. unfold next. rewrite fill_inside by (by rewrite E). cbn [negb]. revert E. unfold lookahead.
  destruct p as [m q i ? ? ? ? ? ? ? ? ? ? ?]. destruct i as [pu sr ? ? ? ? ? ? ?]. cbn.
  destruct pu as [|[c' loc] pu]; cbn.
  - destruct sr as [|c' sr]; [done|]. intros [= -> ->]. eexists. split; [done|]. done.
  - intros [= -> E]. eexists. split; [done|]. split; [|done|done]. unfold lookahead. cbn. by rewrite E.
Qed.

Lemma skip_reads s p l : lookahead p = s ++ l -> reads s p (skip h (length s) p) /\ lookahead (skip h (length s) p) = l.
Proof.
  revert p. induction s as [|c s IH]; intros p E; [by split; [apply reads_nil|]|].
  destruct (next_reads p c (s ++ l)) as (p' & En & R); [done|]. cbn [skip length]. rewrite En. cbn [snd].
  destruct R as [E1 ? ?]. rewrite E in E1. injection E1 as E1. destruct (IH p') as [R' L']; [done|].
  split; [|done]. apply (reads_app [c] s p p'); [|done]. split; [rewrite E; cbn; by rewrite <- E1|done|done].
Qed.

Lemma prefix_of_spec l rest s : prefix_of l rest s = has_prefix (l.*1 ++ rest) s.
Proof.
  revert s. induction l as [|[c loc] l IH]; intros [|x s]; [by destruct rest|done|done|].
  cbn. by rewrite IH.
Qed.

Lemma hasPrefix_lookahead p s : hasPrefix p s = has_prefix (lookahead p) s.
Proof. apply prefix_of_spec. Qed.

(** ** Tokens with the standard delimiters *)

Definition standard : quoting := Quoting (str! "`") (str! "'") (str! "#") [10].

(** The quotes in [t] are balanced, [d] of them being open. *)
Fixpoint nested (d : nat) (t : list Z) : bool :=
  match t with
  | [] => (d =? 0)%nat
  | c :: t' =>
      if c =? 96 then nested (S d) t'
      else if c =? 39 then match d with O => false | S d' => nested d' t' end
      else nested d t'
  end.

Lemma skip_app (n m : nat) p : skip h (n + m) p = skip h m (skip h n p).
Proof. revert p. induction n as [|n IH]; intros p; [done|apply IH]. Qed.

Lemma next_skip p c l : lookahead p = c :: l -> next h p = (Some c, skip h 1 p) /\ lookahead (skip h 1 p) = l.
Proof.
  intros E. destruct (next_reads p c l E) as (p' & En & [R _ _]). unfold skip. rewrite En. split; [done|].
  rewrite E in R. by injection R.
Qed.

Lemma skip_quotes s p l : lookahead p = s ++ l -> quotes (skip h (length s) p) = quotes p.
Proof. intros E. eapply reads_quotes, (skip_reads s p l E). Qed.

Lemma quoted_reads n d b p t l :
  quotes p = standard -> nested d t = true -> (length t < n)%nat -> lookahead p = t ++ 39 :: l ->
  quoted h n (1 + Z.of_nat d) b p = Done (b ++ t) (skip h (length t + 1) p).
Proof.
  intros Hq. revert n d b p Hq. induction t as [|c t IH]; intros n d b p Hq Hn Hlen E; (destruct n as [|n]; [cbn in Hlen; lia|]);
    cbn [quoted]; rewrite Hq; cbn [standard rquote lquote]; rewrite !hasPrefix_lookahead, E; cbn [app length]; rewrite !has_prefix_one.
  - cbn in Hn. apply Nat.eqb_eq in Hn as ->. by rewrite app_nil_r.
  - destruct (skip_reads [c] p (t ++ 39 :: l)) as [R L]; [done|]. pose proof (reads_quotes _ _ _ R) as Hq'. rewrite Hq in Hq'.
    cbn [length] in *. cbn [nested] in Hn. change (S (length t) + 1)%nat with (1 + (length t + 1))%nat. rewrite (skip_app 1).
    destruct (Z.eqb_spec c 39) as [->|H39]; [|destruct (Z.eqb_spec c 96) as [->|H96]].
    + cbn in Hn. destruct d as [|d]; [done|]. replace (1 + Z.of_nat (S d) - 1) with (1 + Z.of_nat d) by lia.
      destruct (Z.eqb_spec (1 + Z.of_nat d) 0); [lia|]. rewrite (IH n d); [by rewrite <- app_assoc|done..|lia|done].
    + replace (1 + Z.of_nat d + 1) with (1 + Z.of_nat (S d)) by lia. rewrite (IH n (S d)); [by rewrite <- app_assoc|done..|lia|done].
    + destruct (next_skip p c (t ++ 39 :: l)) as [-> _]; [done|]. rewrite (IH n d); [by rewrite <- app_assoc|done..|lia|done].
Qed.

Lemma token_quoted n p t l :
  quotes p = standard -> nested 0 t = true -> (length t < n)%nat -> lookahead p = 96 :: t ++ 39 :: l ->
  token h n p = Done (tokText, t) (skip h (length t + 2) p).
Proof.
  intros Hq Hn Hlen E. unfold token. rewrite fill_inside by (by rewrite E). cbn [negb].
  rewrite !hasPrefix_lookahead, peek_lookahead, E, Hq. cbn [standard bcomm lquote head default from_option id]. rewrite !has_prefix_one.
  destruct (skip_reads [96] p (t ++ 39 :: l)) as [R L]; [done|]. pose proof (reads_quotes _ _ _ R) as Hq'. rewrite Hq in Hq'.
  pose proof (quoted_reads n 0 [] (skip h 1 p) t l Hq' Hn Hlen L) as Eq.
  change (1 + Z.of_nat 0) with 1 in Eq. cbn [andb Z.eqb Pos.eqb]. replace (isNameStart 96) with false by done.
  rewrite !bool_decide_true by done. cbn [andb length]. rewrite Eq, <- skip_app. cbn [andthen app]. do 2 f_equal. lia.
Qed.

Lemma span_all f w l :
  forallb f w = true -> match l with [] => True | d :: _ => f d = false end -> span f (w ++ l) = w.
Proof.
  intros Hw Hl. induction w as [|c w IH]; cbn.
  - destruct l as [|d l]; [done|]. cbn. by rewrite Hl.
  - cbn in Hw. apply andb_true_iff in Hw as [-> Hw]. by rewrite IH.
Qed.

(** [w] is a name and the text [l] after it does not continue it. *)
Definition name_before (w l : list Z) : Prop :=
  validMacroName w = true /\ match l with [] => True | d :: _ => isNameChar d = false end.

Lemma name_start_code c : isNameStart c = true -> 65 <= c.
Proof. unfold isNameStart. intros H. rewrite !orb_true_iff, !andb_true_iff, !Z.leb_le, Z.eqb_eq in H. lia. Qed.

Lemma token_name n p w l :
  quotes p = standard -> name_before w l -> lookahead p = w ++ l ->
  token h n p = Done (tokName, w) (skip h (length w) p).
Proof.
  intros Hq [Hw Hl] E. destruct w as [|c w]; [done|]. cbn in Hw. apply andb_true_iff in Hw as [Hc Hw].
  unfold token. rewrite fill_inside by (by rewrite E). cbn [negb].
  rewrite !hasPrefix_lookahead, peek_lookahead, E, Hq. cbn [standard bcomm lquote head default app from_option id].
  rewrite !has_prefix_one. pose proof (name_start_code c Hc). destruct (Z.eqb_spec c 35); [lia|].
  rewrite andb_false_r, Hc. change (c :: w ++ l) with ((c :: w) ++ l). rewrite span_all; [|cbn; by rewrite Hw; unfold isNameChar; rewrite Hc|done].
  done.
Qed.

Lemma token_char n p c l :
  quotes p = standard -> isNameStart c = false -> c <> 96 -> c <> 35 -> lookahead p = c :: l ->
  token h n p = Done (tokChar, string_of_byte c) (skip h 1 p).
Proof.
  intros Hq Hc H96 H35 E. unfold token. rewrite fill_inside by (by rewrite E). cbn [negb].
  rewrite !hasPrefix_lookahead, peek_lookahead, E, Hq. cbn [standard bcomm lquote head default from_option id]. rewrite !has_prefix_one, Hc.
  destruct (Z.eqb_spec c 35); [done|]. destruct (Z.eqb_spec c 96); [done|]. rewrite !andb_false_r.
  done.
Qed.

Lemma before_newline t l : 10 ∉ t -> before [10] (t ++ 10 :: l) = (t, true).
Proof.
  induction t as [|c t IH]; intros Hn; cbn [app before]; rewrite has_prefix_one; [done|].
  apply not_elem_of_cons in Hn as [Hc Hn]. destruct (Z.eqb_spec c 10); [done|]. by rewrite IH.
Qed.

Lemma token_comment n p t l :
  quotes p = standard -> 10 ∉ t -> lookahead p = 35 :: t ++ 10 :: l ->
  token h n p = Done (tokText, 35 :: t ++ [10]) (skip h (length t + 2) p).
Proof.
  intros Hq Ht E. unfold token. rewrite fill_inside by (by rewrite E). cbn [negb].
  rewrite !hasPrefix_lookahead, E, Hq. cbn [standard bcomm lquote]. rewrite has_prefix_one.
  cbn [bool_decide Z.eqb Pos.eqb]. unfold comment. rewrite Hq. cbn [standard bcomm ecomm length].
  destruct (skip_reads [35] p (t ++ 10 :: l)) as [R L]; [done|]. cbn [length] in L. rewrite L, before_newline by done.
  rewrite <- skip_app. cbn [app]. do 2 f_equal. rewrite length_app. cbn. lia.
Qed.

(** ** Fuel *)

(** [r'] is what [r] becomes with more fuel. *)
Definition extends {A} (r r' : result (W := W) A) : Prop := r = NoFuel \/ r' = r.

Lemma extends_refl {A} (r : result A) : extends r r.
Proof. by right. Qed.

Lemma extends_Done {A} (r : result A) a p r' : r = Done a p -> extends r r' -> r' = Done a p.
Proof. intros -> [?| ->]; done. Qed.

Lemma andthen_extends {A B} (c c' : result A) (k k' : A -> processor -> result B) :
  extends c c' -> (forall a p, extends (k a p) (k' a p)) -> extends (andthen c k) (andthen c' k').
Proof. intros [-> | ->] Hk; [by left|]. destruct c; cbn; [apply Hk|by right..]. Qed.

Lemma unnest_extends {A} (r r' : result A) : extends r r' -> extends (unnest r) (unnest r').
Proof. intros [-> | ->]; [by left|by right]. Qed.

Lemma quoted_extends n m d b p : (n <= m)%nat -> extends (quoted h n d b p) (quoted h m d b p).
Proof.
  revert m d b p. induction n as [|n IH]; intros m d b p Hm; [by left|]. destruct m as [|m]; [lia|]. cbn [quoted].
  destruct (hasPrefix p (rquote (quotes p))); [destruct (d - 1 =? 0); [apply extends_refl|apply IH; lia]|].
  destruct (hasPrefix p (lquote (quotes p))); [apply IH; lia|]. destruct (next h p) as [[c|] p']; [apply IH; lia|apply extends_refl].
Qed.

Lemma token_extends n m p : (n <= m)%nat -> extends (token h n p) (token h m p).
Proof.
  intros Hm. unfold token. destruct (fill h p) as [[] p1]; [cbn [negb]|apply extends_refl].
  destruct (_ && hasPrefix p1 _); [destruct (comment h p1); apply extends_refl|]. destruct (isNameStart _); [apply extends_refl|].
  destruct (_ && hasPrefix p1 _); [|apply extends_refl]. apply andthen_extends; [by apply quoted_extends|intros; apply extends_refl].
Qed.

Lemma skip_space_extends n m p : (n <= m)%nat -> extends (skip_space h n p) (skip_space h m p).
Proof.
  revert m p. induction n as [|n IH]; intros m p Hm; [by left|]. destruct m as [|m]; [lia|]. cbn [skip_space].
  destruct (fill h p) as [[] p1]; [cbn [negb]|apply extends_refl]. destruct (isSpace _); [apply IH; lia|apply extends_refl].
Qed.

Lemma expand_extends n m :
  (n <= m)%nat ->
  (forall name p, extends (expand h n name p) (expand h m name p)) /\
  (forall p, extends (collect h n p) (collect h m p)) /\
  (forall args p, extends (collect_args h n args p) (collect_args h m args p)) /\
  (forall args b f pr par p, extends (collect_arg h n args b f pr par p) (collect_arg h m args b f pr par p)).
Proof.
  revert m. induction n as [|n IH]; intros m Hm; [split_and!; intros; by left|]. destruct m as [|m]; [lia|].
  destruct (IH m) as (IHe & IHc & IHs & IHa); [lia|]. split_and!; intros; cbn [expand collect collect_args collect_arg].
  - destruct (lookup p name) as [mc|]; [|apply extends_refl]. destruct (_ && blind mc); [apply extends_refl|].
    apply andthen_extends; [destruct (is_open _); [apply IHc|apply extends_refl]|intros; apply extends_refl].
  - destruct (maxNesting <? _); [apply extends_refl|]. apply unnest_extends, IHs.
  - apply andthen_extends; [apply skip_space_extends; lia|auto].
  - apply andthen_extends; [apply token_extends; lia|]. intros [k s] p'. destruct k; [apply extends_refl|auto| |].
    + apply andthen_extends; [auto|]. intros [[] fn] p''; cbn [negb]; [|auto]. destruct fn, b; auto.
    + repeat case_match; auto using extends_refl.
Qed.

Lemma process_extends n m p : (n <= m)%nat -> extends (process_loop h n p) (process_loop h m p).
Proof.
  revert m p. induction n as [|n IH]; intros m p Hm; [by left|]. destruct m as [|m]; [lia|]. cbn [process_loop].
  apply andthen_extends; [apply token_extends; lia|]. intros [k s] p'. destruct k; [|apply IH; lia| |apply IH; lia].
  - destruct (M4Engine.wraps p'); [apply extends_refl|apply IH; lia].
  - apply andthen_extends; [apply expand_extends; lia|]. intros [[] ?] p''; apply IH; lia.
Qed.

(** ** The arguments of a call *)

(** A quoted argument with the blanks before it. *)
Definition arg_ok (a : list Z * list Z) : Prop := forallb isSpace a.1 = true /\ nested 0 a.2 = true.

Fixpoint args_text (args : list (list Z * list Z)) : list Z :=
  match args with
  | [] => []
  | [a] => a.1 ++ 96 :: a.2 ++ [39; 41]
  | a :: args' => a.1 ++ 96 :: a.2 ++ 39 :: 44 :: args_text args'
  end.

Definition arg_of (a : list Z * list Z) : argument := mkArg a.2 None true.

Lemma skip_space_reads n p sp c l :
  forallb isSpace sp = true -> isSpace c = false -> (length sp < n)%nat -> lookahead p = sp ++ c :: l ->
  skip_space h n p = Done tt (skip h (length sp) p).
Proof.
  revert n p. induction sp as [|s sp IH]; intros n p Hs Hc Hn E; (destruct n as [|n]; [cbn in Hn; lia|]); cbn [skip_space];
    (rewrite fill_inside by (by rewrite E)); rewrite peek_lookahead, E; cbn [negb head app from_option id].
  - by rewrite Hc.
  - cbn in Hs. apply andb_true_iff in Hs as [-> Hs]. destruct (next_skip p s (sp ++ c :: l)) as [En L]; [done|].
    rewrite En. cbn [snd]. rewrite IH; [by cbn; rewrite En|done..|cbn in Hn; lia|done].
Qed.

Lemma collect_quoted args acc p l :
  args <> [] -> Forall arg_ok args -> quotes p = standard -> lookahead p = args_text args ++ l ->
  exists n, collect_args h n acc p = Done (acc ++ (arg_of <$> args)) (skip h (length (args_text args)) p).
Proof.
  intros Hne Hok. revert acc p. induction Hok as [|[sp a] args [Hsp Ha] Hok IH]; intros acc p Hq E; [done|]. cbn [fst snd] in *.
  set (close := match args with [] => 41 | _ => 44 end).
  assert (E' : lookahead p = (sp ++ 96 :: a ++ [39]) ++ close :: (args_text args ++ l)).
  { rewrite E. subst close. destruct args; cbn [args_text fst snd]; rewrite <- !app_assoc; cbn; by rewrite <- !app_assoc. }
  assert (El : length (args_text ((sp, a) :: args)) = (length sp + (length a + 2) + 1 + length (args_text args))%nat).
  { destruct args; cbn [args_text fst snd]; rewrite !length_app; cbn; rewrite !length_app; cbn; lia. }
  set (p1 := skip h (length sp) p).
  destruct (skip_reads sp p (96 :: a ++ 39 :: close :: args_text args ++ l)) as [R1 L1].
  { rewrite E'. rewrite <- !app_assoc. cbn. by rewrite <- app_assoc. }
  pose proof (reads_quotes _ _ _ R1) as Hq1. fold p1 in R1, L1, Hq1. rewrite Hq in Hq1.
  set (p2 := skip h (length a + 2) p1).
  destruct (skip_reads (96 :: a ++ [39]) p1 (close :: args_text args ++ l)) as [R2 L2]; [rewrite L1; cbn; by rewrite <- app_assoc|].
  replace (length (96 :: a ++ [39])) with (length a + 2)%nat in * by (cbn; rewrite length_app; cbn; lia).
  pose proof (reads_quotes _ _ _ R2) as Hq2. fold p2 in R2, L2, Hq2. rewrite Hq1 in Hq2.
  destruct (skip_reads [close] p2 (args_text args ++ l)) as [R3 L3]; [done|].
  pose proof (reads_quotes _ _ _ R3) as Hq3. rewrite Hq2 in Hq3. cbn [length] in L3, Hq3.
  assert (Hs : forall n, (length sp + length a < n)%nat -> collect_args h (S (S n)) acc p = collect_arg h n acc a None true 0 p2).
  { intros n Hn. cbn [collect_args]. rewrite (skip_space_reads _ _ sp 96 (a ++ 39 :: close :: args_text args ++ l)); [|done|done|lia|].
    2: { rewrite E'. rewrite <- !app_assoc. cbn. by rewrite <- app_assoc. }
    cbn [andthen collect_arg]. rewrite (token_quoted _ p1 a (close :: args_text args ++ l)) by (done || lia). done. }
  assert (Hc : forall n, token h n p2 = Done (tokChar, [close]) (skip h 1 p2)).
  { intros n. rewrite (token_char n p2 close (args_text args ++ l)); [|done|by subst close; destruct args..|done]. by subst close; destruct args. }
  rewrite El, (skip_app (length sp + (length a + 2) + 1)), (skip_app (length sp + (length a + 2))), (skip_app (length sp)). fold p1 p2. destruct args as [|a' args].
  - exists (S (S (S (length sp + length a)))). rewrite Hs by lia. cbn [collect_arg]. rewrite Hc. cbn. done.
  - destruct (IH ltac:(done) (acc ++ [arg_of (sp, a)]) (skip h 1 p2) Hq3 L3) as [m Hm].
    exists (S (S (S (length sp + length a + m)))). rewrite Hs by lia. cbn [collect_arg]. rewrite Hc. cbn [andthen close].
    eapply extends_Done in Hm; [|apply (expand_extends m (length sp + length a + m)); lia].
    cbn [str_eqb close Z.eqb Pos.eqb andb]. rewrite <- app_assoc in Hm. exact Hm.
Qed.

End Scan.

End M4Scan.
