(* ===== verification/M4Macro.v ===== *)
(** * m4: what a text expands to

    The proofs about the expanding half of [M4Engine]: text without macro
    calls is copied, with one pair of quotes removed; a call with quoted
    arguments is replaced by the text of its macro with the arguments put in,
    and scanned again; definitions made by the text itself are used. *)

From Stdlib Require Import ZArith Lia String.
From stdpp Require Import base tactics list numbers gmap strings.
From S2P Require Import Prelude M4Eval M4Engine M4Scan.

Module M4Macro.
Import M4Engine M4Scan.

Section Macro.
Context {W : Type} (h : host W).
Implicit Types p : processor (W := W).

(** ** Calls *)

Lemma skip_set_nesting k s p l :
  lookahead p = s ++ l -> skip h (length s) (set_nesting k p) = set_nesting k (skip h (length s) p).
Proof.
  revert p. induction s as [|c s IH]; intros p E; [done|]. cbn [skip length].
  destruct (next_skip h p c (s ++ l)) as [En L]; [done|].
  assert (E1 : next h (set_nesting k p) = (Some c, set_nesting k (skip h 1 p))).
  { revert En E. cbn [skip]. unfold next, fill, lookahead. destruct p as [? ? [pu sr ? ? ? ? ? ? ?] ? ? ? ? ? ? ? ? ? ? ?]. cbn.
    destruct pu as [|[c' loc] pu]; [destruct sr as [|c' sr]; [done|]|]; cbn; by intros [= ->]. }
  rewrite E1, En. cbn [snd]. by apply IH.
Qed.

Lemma set_nesting_same p k : set_nesting (nesting p) (set_nesting k p) = p.
Proof. by destruct p. Qed.

(** What [expand] does once the arguments are read. *)
Definition finish (name : list Z) (m : macro) (callLoc : sourceLoc) (args : list argument) p : result (bool * option macro) :=
  match mfn m with
  | Some f => andthen (run_builtin h f args p) (fun r p => Done (true, r.2) (pushback r.1 p))
  | None => Done (true, None) (pushback (substitute (quotes p) name (mtext m) args) (set_here callLoc p))
  end.

(** A call that is not traced, with room for one more level of nesting. *)
Record callable p (name : list Z) (m : macro) : Prop := Callable {
  call_lookup : lookup p name = Some m;
  call_trace : traced p name = false;
  call_nesting : nesting p < maxNesting;
  call_quotes : quotes p = standard
}.

Lemma expand_S n name p :
  expand h (S n) name p =
    match lookup p name with
    | None => Done (false, None) p
    | Some m =>
        if negb (is_open (peek p)) && blind m then Done (false, None) p
        else andthen (if is_open (peek p) then collect h n (next h p).2 else Done [] p)
               (fun args p' => finish name m (here p) args (trace_call name args p'))
    end.
Proof.
  cbn [expand]. destruct (lookup p name) as [m|]; [|done]. destruct (negb _ && _); [done|].
  destruct (if is_open (peek p) then _ else _) as [args p'| | |]; cbn; [|done..].
  unfold finish. destruct (mfn m); [|done]. by destruct (run_builtin _ _ _ _) as [[]| | |].
Qed.

Lemma collect_S n p :
  collect h (S n) p =
    let p := set_nesting (nesting p + 1) p in
    if maxNesting <? nesting p then fatalf (str! "ERROR: macro calls nested too deeply (limit 4096)") p
    else unnest (collect_args h n [] p).
Proof. done. Qed.

Lemma expand_call name m args p l :
  callable p name m -> args <> [] -> Forall arg_ok args -> lookahead p = 40 :: args_text args ++ l ->
  exists N, forall n, (N <= n)%nat ->
    expand h n name p = finish name m (here p) (arg_of <$> args) (skip h (S (length (args_text args))) p).
Proof.
  intros [Hl Ht Hn Hq] Hne Hok E. set (s := 40 :: args_text args) in *. change (S (length (args_text args))) with (length s).
  destruct (skip_reads h s p l) as [R L]; [done|]. pose proof (frame_fields _ _ (reads_frame _ _ _ R)) as (_ & _ & _ & Fn & _ & _ & FA & Ft & _).
  destruct (skip_reads h [40] p (args_text args ++ l)) as [R1 L1]; [done|].
  pose proof (frame_fields _ _ (reads_frame _ _ _ R1)) as (_ & Fq1 & _ & Fn1 & _). cbn [length] in *.
  set (p1 := skip h 1 p) in *. set (p2 := set_nesting (nesting p1 + 1) p1).
  destruct (collect_quoted h args [] p2 l) as [N HN]; [done|done|unfold p2; cbn [quotes set_nesting]; congruence|exact L1|].
  exists (S (S N)). intros [|[|n]] Hle; [lia..|].
  eapply extends_Done in HN; [|apply (expand_extends h N n); lia].
  rewrite expand_S, collect_S, Hl, peek_lookahead, E. cbn [head is_open Z.eqb Pos.eqb negb andb].
  destruct (next_skip h p 40 (args_text args ++ l) E) as [-> _]. cbn [snd]. fold p1. cbv zeta. fold p2.
  destruct (Z.ltb_spec maxNesting (nesting p2)); [cbn in *; lia|].
  rewrite HN. unfold p2. rewrite (skip_set_nesting _ _ _ l L1). change (skip h (length (args_text args)) p1) with (skip h (length s) p). cbn [unnest andthen app nesting set_nesting].
  unfold trace_call.
  replace (set_nesting (nesting p1 + 1 - 1) (set_nesting (nesting p1 + 1) (skip h (length s) p))) with (skip h (length s) p).
  2: { replace (nesting p1 + 1 - 1) with (nesting (skip h (length s) p)) by (cbn [length] in *; lia). by rewrite set_nesting_same. }
  replace (traced (skip h (length s) p) name) with (traced p name) by (unfold traced; by rewrite Ft, FA).
  by rewrite Ht.
Qed.

(** ** Steps of the main loop *)

(** With enough fuel, a run from [p] is a run from [p']. *)
Definition steps p p' : Prop :=
  exists k N, forall n, (N <= n)%nat -> process_loop h (k + n) p = process_loop h n p'.

Lemma steps_refl p : steps p p.
Proof. by exists 0%nat, 0%nat. Qed.

Lemma steps_trans p p' p'' : steps p p' -> steps p' p'' -> steps p p''.
Proof.
  intros (k & N & H) (k' & N' & H'). exists (k + k')%nat, (N + N')%nat. intros n Hn.
  replace (k + k' + n)%nat with (k + (k' + n))%nat by lia. rewrite H by lia. apply H'. lia.
Qed.

Lemma steps_Done p p' n r q :
  steps p p' -> process_loop h n p' = Done r q -> exists N, forall m, (N <= m)%nat -> process_loop h m p = Done r q.
Proof.
  intros (k & N & H) E. exists (k + (N + n))%nat. intros m Hm.
  replace m with (k + (m - k))%nat by lia. rewrite H by lia.
  eapply extends_Done in E; [exact E|apply process_extends; lia].
Qed.

Lemma steps_text N kind s p p' :
  (forall n, (N <= n)%nat -> token h n p = Done (kind, s) p') -> kind = tokText \/ kind = tokChar -> steps p (emit s p').
Proof.
  intros H Hk. exists 1%nat, N. intros n Hn. cbn [Nat.add process_loop]. rewrite H by done. by destruct Hk as [-> | ->].
Qed.

Lemma steps_name N w p p' fn q :
  (forall n, token h n p = Done (tokName, w) p') ->
  (forall n, (N <= n)%nat -> expand h n w p' = Done (true, fn) q) -> steps p q.
Proof.
  intros H He. exists 1%nat, N. intros n Hn. cbn [Nat.add process_loop]. rewrite H. cbn [andthen]. by rewrite He.
Qed.

(** A name that is not a macro here is text. *)
Definition not_called p (w l : list Z) : Prop :=
  match lookup p w with
  | None => True
  | Some m => blind m = true /\ is_open (head l) = false
  end.

Lemma steps_word w p l :
  quotes p = standard -> name_before w l -> not_called p w l -> lookahead p = w ++ l ->
  steps p (emit w (skip h (length w) p)).
Proof.
  intros Hq Hw Hc E. exists 1%nat, 1%nat. intros [|n] Hn; [lia|]. cbn [Nat.add process_loop].
  rewrite (token_name h _ p w l) by done. cbn [andthen]. rewrite expand_S.
  destruct (skip_reads h w p l E) as [R L]. pose proof (frame_fields _ _ (reads_frame _ _ _ R)) as (Fm & _).
  unfold not_called in Hc. unfold lookup in *. rewrite Fm, peek_lookahead, L.
  destruct (macros p !! w) as [[|m ms]|]; [done| |done]. destruct Hc as [-> ->]. done.
Qed.

(** ** Text without calls *)

(** [prints s o p p']: the bytes [s] were read and [o] was written. *)
Record prints (s o : list Z) p p' : Prop := Prints {
  prints_bytes : lookahead p = s ++ lookahead p';
  prints_frame : frame p' = frame (set_outp (writeOutput o (outp p)) p);
  prints_pending : pending p' = pending p
}.

Lemma writeOutput_app a b o : writeOutput (a ++ b) o = writeOutput b (writeOutput a o).
Proof.
  unfold writeOutput. destruct o as [o e s bl ol os d ds]. cbn. destruct (Z.eqb_spec d 0); cbn.
  - rewrite (proj2 (Z.eqb_eq d 0)) by done. unfold set_out. cbn. by rewrite app_assoc.
  - destruct ((0 <? d) && (d <? len ds)) eqn:Ed; cbn.
    + rewrite (proj2 (Z.eqb_neq d 0)) by done. unfold len in *. rewrite length_alter, Ed. unfold set_diversions. cbn.
      f_equal. apply list_eq. intros i. destruct (decide (Z.to_nat d = i)) as [<-|]; [|by rewrite !list_lookup_alter_ne].
      rewrite !list_lookup_alter_eq. destruct (ds !! Z.to_nat d); [|done]. cbn. by rewrite app_assoc.
    + by rewrite (proj2 (Z.eqb_neq d 0)), Ed by done.
Qed.

Lemma writeOutput_nil o : writeOutput [] o = o.
Proof.
  unfold writeOutput. destruct o as [o e s bl ol os d ds]. cbn. destruct (d =? 0); [by unfold set_out; cbn; rewrite app_nil_r|].
  destruct ((0 <? d) && (d <? len ds)); [|done]. unfold set_diversions. cbn. f_equal. apply list_eq. intros i.
  destruct (decide (Z.to_nat d = i)) as [<-|]; [|by rewrite list_lookup_alter_ne].
  rewrite list_lookup_alter_eq. destruct (ds !! Z.to_nat d); [|done]. cbn. by rewrite app_nil_r.
Qed.

Lemma prints_app s s' o o' p p' p'' : prints s o p p' -> prints s' o' p' p'' -> prints (s ++ s') (o ++ o') p p''.
Proof.
  intros [E F P] [E' F' P']. split; [by rewrite E, E', app_assoc| |congruence].
  rewrite F', writeOutput_app. assert (Fo : outp p' = writeOutput o (outp p)) by (by injection F).
  rewrite Fo. change (set_outp (writeOutput o' (writeOutput o (outp p))) (frame p') =
    set_outp (writeOutput o' (writeOutput o (outp p))) (frame p)).
  rewrite F. done.
Qed.

(** No line directives are written, and the table of diversions is there. *)
Definition direct p : Prop := sync (outp p) = false /\ length (diversions (outp p)) = 10%nat.

Lemma emit_nosync s p : direct p -> emit s p = set_outp (writeOutput s (outp p)) p.
Proof.
  intros [Hs Hd]. unfold emit, writeOutput. rewrite Hs. cbn [negb].
  destruct (Z.ltb_spec (divnum (outp p)) 0); cbn [orb].
  - destruct (Z.eqb_spec (divnum (outp p)) 0); [lia|]. destruct (Z.ltb_spec 0 (divnum (outp p))); [lia|]. by destruct p.
  - destruct (Z.leb_spec (len (diversions (outp p))) (divnum (outp p))); [|done].
    destruct (Z.ltb_spec (divnum (outp p)) (len (diversions (outp p)))); [lia|]. rewrite andb_false_r.
    destruct (Z.eqb_spec (divnum (outp p)) 0); [|by destruct p].
    unfold len in *. lia.
Qed.

Lemma prints_emit s t p p' : direct p -> reads t p p' -> prints t s p (emit s p').
Proof.
  intros Hs [E F P]. pose proof (frame_fields _ _ F) as (_ & _ & Fo & _). rewrite emit_nosync by (unfold direct; by rewrite Fo).
  split; [done| |done]. rewrite Fo. change (set_outp (writeOutput s (outp p)) (frame p') = set_outp (writeOutput s (outp p)) (frame p)).
  by rewrite F.
Qed.

(** A byte that starts no token of its own, a name that is not called, a
    quoted string and a comment. *)
Inductive segment :=
| Char (c : Z)
| Word (w : list Z)
| Quoted (t : list Z)
| Comment (t : list Z).

Definition seg_text (s : segment) : list Z :=
  match s with
  | Char c => [c]
  | Word w => w
  | Quoted t => 96 :: t ++ [39]
  | Comment t => 35 :: t ++ [10]
  end.

Definition seg_out (s : segment) : list Z :=
  match s with
  | Char c => string_of_byte c
  | Word w => w
  | Quoted t => t
  | Comment t => 35 :: t ++ [10]
  end.

Definition seg_ok p (s : segment) (l : list Z) : Prop :=
  match s with
  | Char c => isNameStart c = false /\ c <> 96 /\ c <> 35
  | Word w => name_before w l /\ not_called p w l
  | Quoted t => nested 0 t = true
  | Comment t => 10 ∉ t
  end.

Definition segs_text (segs : list segment) : list Z := concat (seg_text <$> segs).
Definition segs_out (segs : list segment) : list Z := concat (seg_out <$> segs).

Fixpoint segs_ok p (segs : list segment) (l : list Z) : Prop :=
  match segs with
  | [] => True
  | s :: segs' => seg_ok p s (segs_text segs' ++ l) /\ segs_ok p segs' l
  end.

Lemma seg_ok_macros p p' s l : macros p' = macros p -> seg_ok p s l -> seg_ok p' s l.
Proof. intros E. destruct s; try done. cbn. unfold not_called, lookup. by rewrite E. Qed.

Lemma segs_ok_macros p p' segs l : macros p' = macros p -> segs_ok p segs l -> segs_ok p' segs l.
Proof. intros E. induction segs; [done|]. intros [H1 H2]. split; [by eapply seg_ok_macros|auto]. Qed.

Lemma writeOutput_direct s o :
  sync (writeOutput s o) = sync o /\ length (diversions (writeOutput s o)) = length (diversions o).
Proof. unfold writeOutput. repeat case_match; [done| |done]. cbn. by rewrite length_alter. Qed.

Lemma prints_fields s o p p' :
  prints s o p p' ->
  macros p' = macros p /\ quotes p' = quotes p /\ outp p' = writeOutput o (outp p) /\ wraps p' = wraps p /\
  failed p' = failed p /\ (direct p -> direct p').
Proof.
  intros [_ F _]. apply frame_fields in F as (-> & -> & Fo & _ & -> & -> & _). split_and!; [done..|].
  unfold direct. rewrite Fo. cbn. destruct (writeOutput_direct o (outp p)) as [-> ->]. done.
Qed.

Lemma segment_steps p s l :
  quotes p = standard -> direct p -> seg_ok p s l -> lookahead p = seg_text s ++ l ->
  exists p', steps p p' /\ prints (seg_text s) (seg_out s) p p'.
Proof.
  intros Hq Hd Hs E. destruct (skip_reads h (seg_text s) p l E) as [R _].
  exists (emit (seg_out s) (skip h (length (seg_text s)) p)). split; [|by apply prints_emit]. destruct s as [c|w|t|t]; cbn [seg_text seg_out] in *.
  - destruct Hs as (? & ? & ?). apply (steps_text 0 tokChar); [|by right]. intros n _. by apply (token_char h n p c l).
  - destruct Hs. by apply (steps_word w p l).
  - apply (steps_text (S (length t)) tokText); [|by left]. intros n Hn.
    replace (length (96 :: t ++ [39])) with (length t + 2)%nat by (cbn; rewrite length_app; cbn; lia).
    apply (token_quoted h n p t l); [done|done|lia|]. rewrite E. cbn. by rewrite <- app_assoc.
  - apply (steps_text 0 tokText); [|by left]. intros n Hn.
    replace (length (35 :: t ++ [10])) with (length t + 2)%nat by (cbn; rewrite length_app; cbn; lia).
    apply (token_comment h n p t l); [done|done|]. rewrite E. cbn. by rewrite <- app_assoc.
Qed.

Lemma segments_steps segs p l :
  quotes p = standard -> direct p -> segs_ok p segs l -> lookahead p = segs_text segs ++ l ->
  exists p', steps p p' /\ prints (segs_text segs) (segs_out segs) p p'.
Proof.
  revert p. induction segs as [|s segs IH]; intros p Hq Hd Hs E.
  - exists p. split; [apply steps_refl|]. split; [done| |done]. unfold segs_out. cbn [fmap list_fmap concat]. rewrite writeOutput_nil. by destruct p.
  - destruct Hs as [Hs Hss]. unfold segs_text in *. cbn in E. rewrite <- app_assoc in E.
    destruct (segment_steps p s _ Hq Hd Hs E) as (p1 & S1 & P1). pose proof (prints_fields _ _ _ _ P1) as (Fm & Fq & _ & _ & _ & Fd).
    destruct (IH p1) as (p2 & S2 & P2); [congruence|auto|by eapply segs_ok_macros| |].
    { destruct P1 as [E1 _ _]. rewrite E in E1. by apply app_inv_head in E1. }
    exists p2. split; [by eapply steps_trans|]. by eapply prints_app.
Qed.

(** ** A run on standard input *)

(** The processor with standard input open. *)
Definition started (data : list Z) (w : W) : processor :=
  let loc := Loc (str! "stdin") 1 1 in
  set_here loc (set_inp (Input [] data loc false 1 [] [] 1 true) (newProcessor [] [] w)).

Lemma run_start w data w' n :
  readStdin h w = (inr data, w') -> process_loop h n (newProcessor [str! "-"] [] w) = process_loop h n (started data w').
Proof.
  intros E. destruct n as [|n]; [done|]. cbn [process_loop].
  assert (F : fill h (newProcessor [str! "-"] [] w) = (bool_decide (data <> []), started data w')).
  { unfold fill. cbn. unfold open_file, read_operand. cbn. rewrite E. cbn. by destruct data. }
  assert (F' : fill h (started data w') = (bool_decide (data <> []), started data w')) by (unfold fill; by destruct data).
  unfold token. by rewrite F, F'.
Qed.

Lemma end_of_input n p :
  lookahead p = [] -> files (inp p) = [] -> wraps p = [] -> process_loop h (S n) p = Done tt (flushDiversions p).
Proof.
  intros El Ef Ew. cbn [process_loop]. unfold token, fill. unfold lookahead in El.
  apply app_eq_nil in El as [Ep%fmap_nil_inv Es]. rewrite Ep, Es, Ef. cbn. by rewrite Ew.
Qed.

Lemma undiv_empty o n :
  divnum o = 0 -> (forall d, d ∈ diversions o -> d = []) -> undiv n o = o.
Proof.
  intros Hn Hd. unfold undiv. destruct ((0 <? n) && (n <? len (diversions o))); [|done].
  destruct (diversions o !! Z.to_nat n) as [d|] eqn:E; cbn [default].
  - pose proof (Hd d (list_elem_of_lookup_2 _ _ _ E)) as ->. rewrite list_insert_id by done. cbn [from_option id].
    rewrite writeOutput_nil. by destruct o.
  - cbn [from_option]. rewrite list_insert_ge by (by apply lookup_ge_None). rewrite writeOutput_nil. by destruct o.
Qed.

Lemma flush_empty p :
  divnum (outp p) = 0 -> (forall d, d ∈ diversions (outp p) -> d = []) -> flushDiversions p = p.
Proof.
  intros Hn Hd. unfold flushDiversions. rewrite Hn.
  assert (E : set_divnum 0 (outp p) = outp p) by (destruct p as [? ? ? ? [] ? ? ? ? ? ? ? ? ?]; cbn in *; by subst).
  rewrite E. replace (foldl _ (outp p) numbered) with (outp p); [rewrite E; by destruct p|].
  induction numbered as [|n l IH]; [done|]. cbn. by rewrite undiv_empty.
Qed.

(** Nothing is diverted and nothing went wrong. *)
Record quiet p : Prop := Quiet {
  quiet_divnum : divnum (outp p) = 0;
  quiet_diversions : forall d, d ∈ diversions (outp p) -> d = [];
  quiet_direct : direct p;
  quiet_files : files (inp p) = [];
  quiet_wraps : wraps p = [];
  quiet_failed : failed p = false
}.

Lemma quiet_started data w : quiet (started data w).
Proof. split; try done. intros d. by intros ?%elem_of_replicate_inv. Qed.

(** The last text of a run on quiet input. *)
Lemma run_segments segs p :
  quiet p -> quotes p = standard -> segs_ok p segs [] -> lookahead p = segs_text segs ->
  exists N p', (forall n, (N <= n)%nat -> process_loop h n p = Done tt p') /\
    out (outp p') = out (outp p) ++ segs_out segs /\ err (outp p') = err (outp p) /\ failed p' = false.
Proof.
  intros [] Hq Hs E. destruct (segments_steps segs p []) as (p' & S & P); [done..|by rewrite app_nil_r|].
  pose proof (prints_fields _ _ _ _ P) as (_ & _ & Fo & Fw & Ff & Fd). destruct P as [El _ Ep].
  assert (Eo : outp p' = set_out (out (outp p) ++ segs_out segs) (outp p)) by (rewrite Fo; unfold writeOutput; by rewrite quiet_divnum0).
  assert (Hf : flushDiversions p' = p') by (apply flush_empty; rewrite Eo; done).
  destruct (steps_Done p p' 1 tt p') as [N HN]; [done| |].
  { rewrite end_of_input; [by rewrite Hf| |by injection Ep; congruence|congruence].
    rewrite E in El. apply (app_inv_head (segs_text segs)). by rewrite app_nil_r. }
  exists N, p'. rewrite Eo. split_and!; [done|done|done|congruence].
Qed.

Lemma run_ends w data w' p' N :
  readStdin h w = (inr data, w') -> (forall n, (N <= n)%nat -> process_loop h n (started data w') = Done tt p') -> failed p' = false ->
  forall n, (N <= n)%nat -> run h n [] [] w = Ret (0, out (outp p'), err (outp p')).
Proof. intros E H Hf n Hn. unfold run. cbn. unfold process. rewrite (run_start _ _ _ _ E), H, Hf by done. done. Qed.

(** ** Definitions and calls in the text *)

Lemma lookahead_pushback s p : lookahead (pushback s p) = s ++ lookahead p.
Proof.
  unfold pushback, push, lookahead. cbn. rewrite fmap_app, <- app_assoc, <- list_fmap_compose. f_equal.
  induction s; [done|]. cbn. by f_equal.
Qed.

Lemma pushback_nil p : pushback [] p = p.
Proof. by destruct p as [? ? [] ?]. Qed.

(** A call at the head of the text. *)
Definition call_text (name : list Z) (args : list (list Z * list Z)) : list Z := name ++ 40 :: args_text args.

Lemma name_open name l : validMacroName name = true -> name_before name (40 :: l).
Proof. by split. Qed.

Lemma call_steps name m args p l fn q :
  validMacroName name = true -> callable p name m -> args <> [] -> Forall arg_ok args ->
  lookahead p = call_text name args ++ l ->
  finish name m (here (skip h (length name) p)) (arg_of <$> args) (skip h (length (call_text name args)) p) = Done (true, fn) q ->
  steps p q.
Proof.
  intros Hv [Hl Ht Hn Hq] Hne Hok E Hf. unfold call_text in *. rewrite <- app_assoc in E.
  destruct (skip_reads h name p (40 :: args_text args ++ l) E) as [R L].
  pose proof (frame_fields _ _ (reads_frame _ _ _ R)) as (Fm & Fq & _ & Fn & _ & _ & Fa & Ft & _).
  destruct (expand_call name m args (skip h (length name) p) l) as [N HN]; [|done..|].
  { split; [unfold lookup in *; by rewrite Fm|unfold traced in *; by rewrite Fa, Ft|by rewrite Fn|congruence]. }
  apply (steps_name N name p (skip h (length name) p) fn).
  - intros n. apply (token_name h n p name (40 :: args_text args ++ l)); [done|by apply name_open|done].
  - intros n Hle. rewrite HN by done. rewrite <- skip_app. rewrite length_app in Hf. exact Hf.
Qed.

Lemma name_nested name : forallb isNameChar name = true -> nested 0 name = true.
Proof.
  induction name as [|c name IH]; [done|]. cbn. intros [Hc Hn]%andb_true_iff.
  destruct (Z.eqb_spec c 96) as [->|]; [done|]. destruct (Z.eqb_spec c 39) as [->|]; [done|]. auto.
Qed.

Lemma valid_chars name : validMacroName name = true -> name <> [] /\ forallb isNameChar name = true.
Proof.
  destruct name as [|c name]; [done|]. cbn. intros [Hc Hn]%andb_true_iff. split; [done|]. by rewrite Hn; unfold isNameChar; rewrite Hc.
Qed.

Lemma lookup_define f m push p : lookup (define f m push p) f = Some m.
Proof. unfold lookup, define. cbn. rewrite lookup_insert_eq. by destruct push. Qed.

Lemma defineFromArgs_text a b push p :
  a.2 <> [] -> defineFromArgs [arg_of a; arg_of b] push p = Done ([], None) (define a.2 (mkMacro b.2 None) push p).
Proof. by destruct a as [? []]. Qed.

(** The call [define(`f',`body')] at the head of the text. *)
Lemma define_steps f body p l :
  validMacroName f = true -> nested 0 body = true -> callable p (str! "define") (mkMacro [] (Some b_define)) ->
  lookahead p = call_text (str! "define") [([], f); ([], body)] ++ l ->
  exists p', steps p p' /\ lookahead p' = l /\ pending p' = pending p /\ frame p' = frame (define f (mkMacro body None) false p).
Proof.
  intros Hf Hb Hc E. apply valid_chars in Hf as [Hne Hf]. set (s := call_text (str! "define") [([], f); ([], body)]) in *.
  destruct (skip_reads h s p l E) as [[R F P] L]. exists (define f (mkMacro body None) false (skip h (length s) p)).
  split; [|split_and!; [done|done|]].
  - eapply (call_steps (str! "define") _ [([], f); ([], body)] p l None); [done|done|done| |done|].
    + repeat constructor; cbn; [by apply name_nested|done].
    + unfold finish. cbn [mfn run_builtin fmap list_fmap]. rewrite defineFromArgs_text by done. cbn [andthen fst snd]. by rewrite pushback_nil.
  - pose proof (frame_fields _ _ F) as (Fm & _). unfold define. rewrite Fm.
    change (frame (set_macros ?m ?q)) with (set_macros m (frame q)). by rewrite F.
Qed.

(** ** Properties *)

(** Text without macro calls is copied by [m4]: bytes that start no token,
    names that are not called, and comments come out as they are, quoted
    strings without their outer quotes; the status is 0 and nothing is
    reported. *)
Theorem m4_copies (segs : list segment) (w w' : W) :
  readStdin h w = (inr (segs_text segs), w') -> segs_ok (started [] w) segs [] ->
  exists N, forall n, (N <= n)%nat -> run h n [] [] w = Ret (0, segs_out segs, []).
Proof.
  intros Er Hs. destruct (run_segments segs (started (segs_text segs) w')) as (N & p' & HN & Ho & He & Hf);
    [apply quiet_started|done|by apply (segs_ok_macros (started [] w))|done|].
  exists N. intros n Hn. rewrite (run_ends w _ w' p' N) by done. by rewrite Ho, He.
Qed.

(** ** Templates

    The text of a macro as characters and references to the call; its value
    is written here without [substitute]. *)
Inductive piece := Lit (c : Z) | Param (k : nat) | Zero | Count | Star | At.

Definition piece_text (t : piece) : list Z :=
  match t with
  | Lit c => [c]
  | Param k => [36; 48 + Z.of_nat k]
  | Zero => str! "$0"
  | Count => str! "$#"
  | Star => str! "$*"
  | At => str! "$@"
  end.

Definition piece_ok (t : piece) : Prop :=
  match t with
  | Lit c => c <> 36
  | Param k => (1 <= k <= 9)%nat
  | _ => True
  end.

Definition commas (l : list (list Z)) : list Z :=
  match l with [] => [] | s :: l' => s ++ concat ((fun s => 44 :: s) <$> l') end.

Definition piece_value (f : list Z) (args : list (list Z)) (t : piece) : list Z :=
  match t with
  | Lit c => [c]
  | Param k => default [] (args !! pred k)
  | Zero => f
  | Count => itoa (len args)
  | Star => commas args
  | At => commas ((fun s => 96 :: s ++ [39]) <$> args)
  end.

Definition template_text (ts : list piece) : list Z := concat (piece_text <$> ts).
Definition template_value (f : list Z) (args : list (list Z)) (ts : list piece) : list Z :=
  concat (piece_value f args <$> ts).

Lemma joinArgs_commas lq rq args :
  joinArgs args lq rq = commas ((fun a => lq ++ atext a ++ rq) <$> args).
Proof.
  induction args as [|a [|b args] IH]; [done|cbn; by rewrite app_nil_r|].
  change (joinArgs (a :: b :: args) lq rq) with (lq ++ atext a ++ rq ++ 44 :: joinArgs (b :: args) lq rq).
  rewrite IH. cbn. by rewrite <- !app_assoc.
Qed.

Lemma substitute_literal q f c rest args : c <> 36 -> substitute q f (c :: rest) args = c :: substitute q f rest args.
Proof. intros Hc. cbn [substitute]. rewrite (proj2 (Z.eqb_neq c _)) by done. by destruct rest. Qed.

Lemma substitute_parameter q f k rest args :
  (1 <= k <= 9)%nat ->
  substitute q f (36 :: 48 + Z.of_nat k :: rest) args = default [] ((atext <$> args) !! pred k) ++ substitute q f rest args.
Proof.
  intros Hk. cbn [substitute]. rewrite (proj2 (Z.eqb_neq (48 + _) _)), (proj2 (Z.leb_le _ (48 + _))), (proj2 (Z.leb_le (48 + _) _)) by lia.
  cbn [Z.eqb Pos.eqb andb]. replace (Z.to_nat _) with (pred k) by lia. rewrite list_lookup_fmap. by destruct (args !! pred k).
Qed.

Lemma substitute_template f ts args :
  Forall piece_ok ts ->
  substitute standard f (template_text ts) args = template_value f (atext <$> args) ts.
Proof.
  intros H. induction H as [|t ts Ht _ IH]; [done|]. change (template_text (t :: ts)) with (piece_text t ++ template_text ts).
  change (template_value f (atext <$> args) (t :: ts)) with (piece_value f (atext <$> args) t ++ template_value f (atext <$> args) ts).
  rewrite <- IH. destruct t; cbn [piece_text piece_value app].
  - by rewrite substitute_literal.
  - by rewrite substitute_parameter.
  - done.
  - change (36 :: _) with (36 :: 35 :: template_text ts). cbn [substitute]. cbn. unfold len. by rewrite length_fmap.
  - cbn. by rewrite joinArgs_commas, (list_fmap_ext _ atext) by (intros; cbn; by rewrite app_nil_r).
  - cbn. by rewrite joinArgs_commas, <- list_fmap_compose.
Qed.

(** [C4] A macro defined in the text is expanded: after [define(`f',`body')], the
    call of [f] with quoted arguments, with any blanks before them, is
    replaced by the value of the body, in which $1 to $9 are the arguments,
    $0 the name, $# their number, $* and $@ all of them, and the result is scanned again; when it holds no further calls, that
    is what [m4] writes. *)
Theorem define_then_call (f : list Z) (body : list piece) (args : list (list Z * list Z)) (segs : list segment) (w w' : W) :
  validMacroName f = true -> nested 0 (template_text body) = true -> Forall piece_ok body -> args <> [] -> Forall arg_ok args ->
  template_value f (snd <$> args) body = segs_text segs ->
  segs_ok (define f (mkMacro (template_text body) None) false (started [] w)) segs [] ->
  readStdin h w = (inr (call_text (str! "define") [([], f); ([], template_text body)] ++ call_text f args), w') ->
  exists N, forall n, (N <= n)%nat -> run h n [] [] w = Ret (0, segs_out segs, []).
Proof.
  intros Hf Hb Hp Hne Hok Hsub Hs Er. set (data := _ ++ _) in Er. set (p0 := started data w').
  destruct (define_steps f (template_text body) p0 (call_text f args)) as (p1 & S1 & L1 & P1 & F1); [done|done|by split|done|].
  pose proof (frame_fields _ _ F1) as (Fm & Fq & Fo & Fn & Ff & Fw & Fa & Ft & _).
  set (p2 := skip h (length (call_text f args)) p1). set (p3 := pushback (segs_text segs) (set_here (here (skip h (length f) p1)) p2)).
  destruct (skip_reads h (call_text f args) p1 []) as [R2 L2]; [by rewrite app_nil_r|]. fold p2 in R2, L2.
  pose proof (frame_fields _ _ (reads_frame _ _ _ R2)) as (Gm & Gq & Go & _ & Gf & Gw & _). pose proof (reads_pending _ _ _ R2) as P2.
  assert (S2 : steps p1 p3).
  { eapply (call_steps f (mkMacro (template_text body) None) args p1 [] None); [done| |done|done|by rewrite app_nil_r|].
    - split; [unfold lookup; rewrite Fm; apply lookup_define|unfold traced; by rewrite Fa, Ft|by rewrite Fn|by rewrite Fq].
    - unfold finish. cbn [mfn mtext]. fold p2. rewrite Gq, Fq. change (quotes _) with standard.
      rewrite substitute_template, <- list_fmap_compose by done. change (atext ∘ arg_of) with (@snd (list Z) (list Z)).
      by rewrite Hsub. }
  assert (Hq3 : quiet p3).
  { split; cbn; rewrite ?Go, ?Fo, ?Gf, ?Ff, ?Gw, ?Fw; [done| |unfold direct; cbn; by rewrite Go, Fo| |done|done].
    - intros d. by intros ?%elem_of_replicate_inv.
    - unfold pending in P1, P2. injection P2 as _ -> _. by injection P1. }
  destruct (run_segments segs p3 Hq3) as (N & p' & HN & Ho & He & Hfl).
  { change (quotes p3) with (quotes p2). by rewrite Gq, Fq. }
  { eapply segs_ok_macros; [|exact Hs]. change (macros p3) with (macros p2). by rewrite Gm, Fm. }
  { unfold p3. rewrite lookahead_pushback. change (lookahead (set_here _ p2)) with (lookahead p2). by rewrite L2, app_nil_r. }
  destruct (steps_Done p0 p3 N tt p') as [N' HN']; [by eapply steps_trans|by apply HN|].
  exists N'. intros n Hn. rewrite (run_ends w _ w' p' N') by done. rewrite Ho, He.
  change (outp p3) with (outp p2). by rewrite Go, Fo.
Qed.

(** A byte beyond ASCII in unquoted text is not copied: [m4] writes the UTF-8
    encoding of the character with the number of the byte, two bytes for
    one. *)
Theorem m4_recodes_bytes (c : Z) (w w' : W) :
  128 <= c < 256 -> readStdin h w = (inr [c], w') ->
  exists N, forall n, (N <= n)%nat -> run h n [] [] w = Ret (0, [192 + c / 64; 128 + c mod 64], []).
Proof.
  intros Hc Er. destruct (run_segments [Char c] (started [c] w')) as (N & p' & HN & Ho & He & Hf); [apply quiet_started|done| |done|].
  { split; [|done]. cbn. unfold isNameStart. split_and!; [|lia..]. rewrite !orb_false_iff, !andb_false_iff, !Z.leb_gt, Z.eqb_neq. lia. }
  exists N. intros n Hn. rewrite (run_ends w _ w' p' N) by done. rewrite Ho, He. unfold segs_out. cbn. unfold string_of_byte.
  by rewrite (proj2 (Z.ltb_ge c 128)) by lia.
Qed.

End Macro.

End M4Macro.
