(* ===== verification/M4Safe.v ===== *)
(** * m4: the invariant of the processor

    Every operation of [M4Engine] keeps the state well-formed: the end
    delimiters are never empty, every defined name has a definition, the
    table of diversions has its ten entries, and the nesting of calls is
    counted exactly. It follows that no built-in is ever run on a missing
    argument, so that no run ends in a run-time panic. *)

From Stdlib Require Import ZArith Lia String.
From stdpp Require Import base tactics list numbers gmap strings.
From S2P Require Import Prelude M4Eval M4Correct M4Engine M4Scan M4Macro.

Module M4Safe.
Import M4Engine M4Scan M4Macro.

Section Safe.
Context {W : Type} (h : host W).
Implicit Types p : processor (W := W).

Record wf p : Prop := Wf {
  wf_rquote : rquote (quotes p) <> [];
  wf_ecomm : ecomm (quotes p) <> [];
  wf_macros : map_Forall (fun _ st => st <> []) (macros p);
  wf_diversions : length (diversions (outp p)) = 10%nat
}.

(** A step from [p] to [p'] that keeps the invariant and the nesting. *)
Definition keeps p p' : Prop := (wf p -> wf p') /\ nesting p' = nesting p.

#[local] Instance keeps_preorder : PreOrder keeps.
Proof. split; [by intros p|]. intros p p' p'' [H E] [H' E']. split; [auto|congruence]. Qed.

(** A step that changes nothing the invariant speaks of. *)
Lemma keeps_same p p' :
  quotes p' = quotes p -> macros p' = macros p -> length (diversions (outp p')) = length (diversions (outp p)) ->
  nesting p' = nesting p -> keeps p p'.
Proof. intros Eq Em Ed En. split; [|done]. intros []. split; by rewrite ?Eq, ?Em, ?Ed. Qed.

Ltac same := apply keeps_same; done.

Lemma write_err_keeps s p : keeps p (write_err s p).
Proof. same. Qed.

Lemma warnf_keeps s p : keeps p (warnf s p).
Proof. same. Qed.

Lemma define_keeps name m b p : keeps p (define name m b p).
Proof.
  split; [|done]. intros []. split; try done. cbn. apply map_Forall_insert_2; [by destruct b|done].
Qed.

Lemma delete_keeps name p : keeps p (set_macros (delete name (macros p)) p).
Proof. split; [|done]. intros []. split; try done. cbn. by apply map_Forall_delete. Qed.

Lemma apply_option_keeps op p : keeps p (apply_option op p).
Proof.
  unfold apply_option. destruct (syncSet op); [same|]. destruct (undefine op); [apply delete_keeps|].
  destruct (index_byte _ _); apply define_keeps.
Qed.

Lemma apply_options_keeps ops p : keeps p (apply_options ops p).
Proof.
  revert p. induction ops as [|op ops IH]; intros p; [done|]. cbn [apply_options]. destruct (_ =? _); [|done].
  etrans; [|apply IH]. etrans; [|apply apply_option_keeps]. same.
Qed.

Lemma read_operand_keeps name p : keeps p (read_operand h name p).2.
Proof.
  unfold read_operand. destruct (str_eqb name _).
  - destruct (stdin (inp p)); [same|]. destruct (readStdin h (world p)). same.
  - destruct (readFile h name (world p)). same.
Qed.

Lemma open_file_keeps name rest p : keeps p (open_file h name rest p).2.
Proof.
  unfold open_file. set (p1 := apply_options (options (inp p)) p).
  set (p2 := set_inp _ p1). assert (keeps p p2) as H2 by (etrans; [apply apply_options_keeps|same]).
  pose proof (read_operand_keeps name p2) as H3. destruct (read_operand h name p2) as [[data display] p3]. cbn [snd] in *.
  etrans; [exact H2|]. etrans; [exact H3|]. destruct data; cbn [snd]; same.
Qed.

Lemma fill_from_keeps names p : keeps p (fill_from h names p).2.
Proof.
  revert p. induction names as [|name rest IH]; intros p; [done|]. cbn [fill_from].
  pose proof (open_file_keeps name rest p) as H. destruct (open_file h name rest p) as [ok p1]. cbn [snd] in *.
  destruct (src (inp p1)); [by etrans; [|apply IH]|]. destruct ok; [done|]. by etrans; [|apply IH].
Qed.

Lemma fill_keeps p : keeps p (fill h p).2.
Proof. unfold fill. destruct (pushed (inp p)), (src (inp p)); try done. apply fill_from_keeps. Qed.

Lemma next_keeps p : keeps p (next h p).2.
Proof.
  unfold next. pose proof (fill_keeps p) as H. destruct (fill h p) as [[] p1]; [cbn [negb]|done]. cbn [snd] in *.
  etrans; [exact H|]. destruct (pushed (inp p1)) as [|[]]; [destruct (src (inp p1)); [done|]|]; same.
Qed.

Lemma skip_keeps n p : keeps p (skip h n p).
Proof. revert p. induction n as [|n IH]; intros p; [done|]. cbn [skip]. etrans; [apply next_keeps|apply IH]. Qed.

Lemma pushback_keeps s p : keeps p (pushback s p).
Proof. same. Qed.

Lemma pushIncluded_keeps name data p : keeps p (pushIncluded name data p).
Proof. same. Qed.

Lemma outp_keeps o p : length (diversions o) = length (diversions (outp p)) -> keeps p (set_outp o p).
Proof. intros. by apply keeps_same. Qed.

Lemma synced_diversions l s (o : output) : diversions (synced l s o).2 = diversions o.
Proof.
  revert o. induction s as [|c s IH]; intros o; [done|]. cbn [synced].
  destruct (if bol o then _ else _) as [dir o1] eqn:E1.
  assert (E : diversions o1 = diversions o).
  { destruct (bol o); [|by injection E1 as <- <-]. destruct (_ || _); by injection E1 as <- <-. }
  match goal with |- context [synced l s ?x] => specialize (IH x); destruct (synced l s x) as [r o2] end.
  cbn [snd] in *. rewrite IH. by destruct (c =? 10).
Qed.

Lemma emit_keeps s p : keeps p (emit s p).
Proof.
  unfold emit. destruct (_ || _); [done|]. destruct (sync (outp p)); cbn [negb].
  - pose proof (synced_diversions (here p) s (outp p)) as H. destruct (synced _ _ _) as [t o]. cbn [snd] in H.
    apply outp_keeps. destruct (writeOutput_direct t o) as [_ ->]. by rewrite H.
  - apply outp_keeps. apply writeOutput_direct.
Qed.

Lemma undiv_length n (o : output) : length (diversions (undiv n o)) = length (diversions o).
Proof.
  unfold undiv. destruct (_ && _); [|done]. destruct (writeOutput_direct (default [] (diversions o !! Z.to_nat n))
    (set_diversions (<[Z.to_nat n:=[]]> (diversions o)) o)) as [_ ->]. cbn. apply length_insert.
Qed.

Lemma undivs_length ns (o : output) : length (diversions (foldl (fun o n => undiv n o) o ns)) = length (diversions o).
Proof. revert o. induction ns as [|n ns IH]; intros o; [done|]. cbn. by rewrite IH, undiv_length. Qed.

Lemma flush_keeps p : keeps p (flushDiversions p).
Proof. apply outp_keeps. by etrans; [apply (undivs_length numbered (set_divnum 0 (outp p)))|]. Qed.

(** ** Built-ins *)

(** The result of a step from [p]: never a panic, and a good state. *)
Definition sound {A} p (r : result A) : Prop :=
  match r with
  | Done _ p' => keeps p p'
  | Fatal p' => wf p -> wf p'
  | Crash => False
  | NoFuel => True
  end.

Lemma sound_keeps {A} p p' (r : result A) : keeps p p' -> sound p' r -> sound p r.
Proof. intros K. destruct r; cbn; [by intros; etrans|by destruct K; auto|done|done]. Qed.

Lemma andthen_sound {A B} p (c : result A) (k : A -> processor -> result B) :
  sound p c -> (forall a p', c = Done a p' -> sound p' (k a p')) -> sound p (andthen c k).
Proof. intros Hc Hk. destruct c; cbn in *; [|done..]. eapply sound_keeps; eauto. Qed.

Lemma fatalf_sound {A} s p : sound p (fatalf (A := A) s p).
Proof. cbn. apply (warnf_keeps s p). Qed.

Lemma reply_sound s p p' : keeps p p' -> sound p (reply_text s p').
Proof. done. Qed.

Lemma number_keeps f s p : keeps p (number f s p).2.
Proof. unfold number. destruct s; [apply warnf_keeps|]. destruct (ParseInt _ _); [done|apply warnf_keeps]. Qed.

Lemma atLeast_keeps f args n p : keeps p (atLeast f args n p).2.
Proof. unfold atLeast. destruct (_ <=? _); [done|apply warnf_keeps]. Qed.

Lemma popdef_keeps name p : keeps p (popdef name p).
Proof.
  unfold popdef. destruct (macros p !! name) as [[|m [|m' st]]|]; try apply delete_keeps.
  split; [|done]. intros []. split; try done. cbn. by apply map_Forall_insert_2.
Qed.

Lemma foldl_keeps {A} (f : processor -> A -> processor) l p : (forall p a, keeps p (f p a)) -> keeps p (foldl f p l).
Proof. intros Hf. revert p. induction l as [|a l IH]; intros p; [done|]. cbn. etrans; [apply Hf|apply IH]. Qed.

Lemma undefine_keeps (args : list argument) p : keeps p (set_macros (foldl (fun m a => delete (atext a) m) (macros p) args) p).
Proof.
  split; [|done]. intros []. split; try done. cbn. generalize dependent (macros p).
  induction args as [|a args IH]; intros m Hm; [done|]. cbn. by apply IH, map_Forall_delete.
Qed.

Lemma changequote_keeps args p : keeps p (biChangequote args p).
Proof.
  unfold biChangequote. destruct args as [|a rest]; [split; [|done]; by intros []|]. destruct (_ || _); [|split; [|done]; by intros []].
  split; [|done]. intros []. split; try done. cbn. destruct rest as [|b ?]; [done|]. by case_bool_decide.
Qed.

Lemma changecom_keeps args p : keeps p (biChangecom args p).
Proof.
  unfold biChangecom. destruct args as [|a rest]; [split; [|done]; by intros []|].
  split; [|done]. intros []. split; try done. cbn. destruct rest as [|b ?]; [done|]. by case_bool_decide.
Qed.

Lemma divert_keeps args p : keeps p (biDivert args p).
Proof.
  unfold biDivert. set (r := match args with [] => _ | _ => _ end).
  assert (K : keeps p r.2). { subst r. destruct args; [done|]. case_bool_decide; [apply number_keeps|done]. }
  destruct r as [[n|] p']; [|done]. cbn [snd] in K. destruct (_ =? _); [done|]. etrans; [done|]. by apply outp_keeps.
Qed.

Lemma undivert_keeps args p : keeps p (biUndivert args p).
Proof.
  unfold biUndivert. destruct args as [|a args]; [apply outp_keeps, undivs_length|]. generalize (a :: args). clear.
  intros args. revert p. induction args as [|a args IH]; intros p; [done|]. cbn [undivert_args].
  pose proof (number_keeps b_undivert (atext a) p) as K. destruct (number _ _ p) as [[n|] p']; cbn [snd] in K.
  - etrans; [exact K|]. etrans; [|apply IH]. apply outp_keeps, undiv_length.
  - by etrans; [|apply IH].
Qed.

Lemma read_named_keeps name p : keeps p (read_named h name p).2.
Proof. unfold read_named. destruct (readFile h name (world p)). by apply keeps_same. Qed.

Lemma sinclude_keeps args p : keeps p (biSinclude h args p).
Proof.
  unfold biSinclude. destruct args as [|a args]; [done|]. pose proof (read_named_keeps (atext a) p) as K.
  destruct (read_named _ _ _) as [[e|d] p']; [done|]. etrans; [exact K|apply pushIncluded_keeps].
Qed.

Lemma syscmd_keeps args p : keeps p (biSyscmd h args p).
Proof.
  unfold biSyscmd. pose proof (atLeast_keeps b_syscmd args 1 p) as K. destruct (atLeast _ _ _ p) as [ok p'].
  destruct args as [|a args]; [done|]. destruct (runSystem _ _ _) as [[[st o] e] w]. etrans; [exact K|]. by apply keeps_same.
Qed.

Lemma dump_keeps names p : keeps p (dump names p).
Proof.
  revert p. induction names as [|n names IH]; intros p; [done|]. cbn [dump]. etrans; [|apply IH].
  destruct (lookup p n) as [[t [f|]]|]; [apply write_err_keeps..|done].
Qed.

Lemma dnl_keeps p : keeps p (biDnl h p).
Proof. unfold biDnl. destruct (before _ _). apply skip_keeps. Qed.

Lemma mkstemp_sound k stem width p : sound p (mkstemp_attempts h k stem width p).
Proof.
  revert p. induction k as [|k IH]; intros p; cbn [mkstemp_attempts]; [by apply keeps_same|].
  destruct (randomRead h width (world p)) as [[e|bytes] w]; [by apply keeps_same|].
  destruct (createFile _ _ _) as [[] w']; [by apply keeps_same| |by apply keeps_same].
  eapply sound_keeps; [|apply IH]. by apply keeps_same.
Qed.

(** Case analysis on a value that a step gives with its next state. *)
Ltac after K := first [eapply sound_keeps; [exact K|] | etrans; [exact K|]].

(** A built-in that needs an argument is only run with one. *)
Definition supplied (f : builtin) (args : list argument) : Prop := args <> [] \/ (builtin_entry f).2 = false.

Lemma supplied_first f args p :
  supplied f args -> (builtin_entry f).2 = true -> exists a, lift (index args 0) p = Done a p.
Proof. intros [H|H] Hb; [|congruence]. destruct args as [|a args]; [done|]. by exists a. Qed.

Lemma addTo_sound f d args p : supplied f args -> (builtin_entry f).2 = true -> sound p (addTo f args d p).
Proof.
  intros Hs Hb. unfold addTo. destruct (supplied_first f args p Hs Hb) as [a ->]. cbn [andthen].
  pose proof (number_keeps f (atext a) p) as K. by destruct (number _ _ p) as [[v|] p'].
Qed.

Lemma define_sound args b p : args <> [] -> sound p (defineFromArgs args b p).
Proof.
  intros Hne. unfold defineFromArgs. destruct args as [|a args]; [done|]. change (lift (index (a :: args) 0) p) with (Done (W := W) a p). cbn [andthen].
  destruct (atext a); [by apply reply_sound|]. apply reply_sound, define_keeps.
Qed.

Lemma substr_sound args p : sound p (biSubstr args p).
Proof.
  unfold biSubstr. destruct (atLeast b_substr args 2 p) as [ok p1] eqn:E.
  assert (K : keeps p p1) by (pose proof (atLeast_keeps b_substr args 2 p) as K; by rewrite E in K).
  destruct ok; [cbn [negb]|by apply reply_sound]. revert E. unfold atLeast. destruct (Z.leb_spec 2 (len args)) as [Hle|]; [|done]. intros _.
  destruct args as [|a [|b args]]; [unfold len in Hle; cbn [length] in Hle; lia..|].
  change (lift (index (a :: b :: args) 0) p1) with (Done (W := W) a p1). cbn [andthen].
  change (lift (index (a :: b :: args) 1) p1) with (Done (W := W) b p1). cbn [andthen].
  change ((a :: b :: args) !! 2%nat) with (args !! 0%nat).
  pose proof (number_keeps b_substr (atext b) p1) as K1. destruct (number _ (atext b) p1) as [[start|] p2]; cbn [snd] in K1; [|after K; by apply reply_sound].
  set (r := match args !! 0%nat with Some c => _ | None => _ end).
  assert (K2 : keeps p2 r.2) by (subst r; destruct (args !! 0%nat); [apply number_keeps|done]).
  destruct r as [[n|] p3]; cbn [snd] in K2; [|after K; after K1; by apply reply_sound].
  destruct (Z.ltb_spec start 0); cbn [orb]; [after K; after K1; by apply reply_sound|].
  destruct (Z.leb_spec (len (atext a)) start); cbn [orb]; [after K; after K1; by apply reply_sound|]. destruct (Z.leb_spec n 0); [after K; after K1; by apply reply_sound|].
  destruct (Z.ltb_spec (len (atext a)) (start + n)); rewrite slice_Ret by lia; cbn [lift andthen]; after K; after K1; by apply reply_sound.
Qed.

Lemma eval_sound args p : args <> [] -> sound p (biEval args p).
Proof.
  intros Hne. unfold biEval.
  assert (K : keeps p (eval_radix args p).2).
  { unfold eval_radix. destruct (args !! 1%nat) as [a|]; [|done]. case_bool_decide; [|done].
    pose proof (number_keeps b_eval (atext a) p) as K. destruct (number _ _ p) as [[r|] p']; cbn [snd] in *; [|done].
    destruct (_ || _); [|done]. after K. apply warnf_keeps. }
  destruct (eval_radix args p) as [[radix|] p1]; cbn [snd] in K; [|by apply reply_sound].
  assert (K1 : keeps p1 (eval_width args p1).2).
  { unfold eval_width. destruct (args !! 2%nat) as [a|]; [|done]. case_bool_decide; [|done].
    pose proof (number_keeps b_eval (atext a) p1) as K1. destruct (number _ _ p1) as [[r|] p']; cbn [snd] in *; [|done].
    destruct (_ <? _); [|done]. after K1. apply warnf_keeps. }
  destruct (eval_width args p1) as [[width|] p2]; cbn [snd] in K1; [|after K; by apply reply_sound].
  destruct args as [|a args]; [done|]. change (lift (index (a :: args) 0) p2) with (Done (W := W) a p2). cbn [andthen].
  destruct (M4Correct.evalExpr_returns (atext a)) as (v & msg & ->). cbn [lift andthen].
  set (p3 := match atext a with [] => _ | _ => _ end).
  assert (K2 : keeps p2 p3) by (subst p3; destruct (atext a); [apply warnf_keeps|done]).
  destruct msg; (after K; after K1; after K2); apply reply_sound; [done|]. by apply keeps_same.
Qed.

Lemma run_builtin_sound f args p : supplied f args -> sound p (run_builtin h f args p).
Proof.
  intros Hs. destruct f; cbn [run_builtin]; try (apply reply_sound; by eauto using undefine_keeps, dnl_keeps, changequote_keeps,
    changecom_keeps, divert_keeps, undivert_keeps, sinclude_keeps, syscmd_keeps);
    try (apply addTo_sound; done); try (destruct Hs as [Hs|Hs]; [|done]).
  - by apply define_sound.
  - by apply define_sound.
  - apply reply_sound, foldl_keeps. intros. apply popdef_keeps.
  - unfold biDefn. destruct args as [|a [|b args]]; [done| |done]. by destruct (lookup p (atext a)) as [[t [f|]]|].
  - unfold biIfdef. pose proof (atLeast_keeps b_ifdef args 2 p) as K. destruct (atLeast _ _ _ p) as [ok p']. cbn [snd] in K.
    destruct args as [|a [|b [|c args]]]; try done; by destruct (lookup p' (atext a)).
  - unfold biIfelse. destruct (_ =? _); [done|]. pose proof (atLeast_keeps b_ifelse args 3 p) as K. by destruct (atLeast _ _ _ p).
  - by destruct args.
  - pose proof (atLeast_keeps b_index args 2 p) as K. by destruct (atLeast _ _ _ p).
  - apply substr_sound.
  - unfold biTranslit. pose proof (atLeast_keeps b_translit args 2 p) as K. destruct (atLeast _ _ _ p). by destruct args as [|? []].
  - by apply eval_sound.
  - unfold biInclude. pose proof (atLeast_keeps b_include args 1 p) as K. destruct (atLeast _ _ _ p) as [ok p']. cbn [snd] in K.
    destruct args as [|a args]; [done|]. pose proof (read_named_keeps (atext a) p') as K1. destruct (read_named _ _ _) as [[e|d] p2].
    + eapply sound_keeps; [exact K|]. eapply sound_keeps; [exact K1|]. apply fatalf_sound.
    + after K. after K1. apply pushIncluded_keeps.
  - unfold biMaketemp. pose proof (atLeast_keeps b_maketemp args 1 p) as K. destruct (atLeast _ _ _ p) as [ok p']. cbn [snd] in K.
    destruct args; [done|]. by destruct (_ =? _).
  - unfold biMkstemp. pose proof (atLeast_keeps b_mkstemp args 1 p) as K. destruct (atLeast _ _ _ p) as [ok p']. cbn [snd] in K.
    destruct args; [done|]. eapply sound_keeps; [exact K|]. destruct (_ <? _); [by apply keeps_same|]. apply mkstemp_sound.
  - unfold biM4exit. set (r := match args with [] => _ | _ => _ end).
    assert (K : keeps p r.2) by (subst r; destruct args; [done|apply number_keeps]).
    destruct r as [[c|] p']; cbn [snd] in K; cbn; intros Hwf; apply K in Hwf; [|done]. by destruct (c =? 0); destruct Hwf.
  - apply reply_sound. destruct args; [done|]. by apply keeps_same.
  - apply reply_sound, foldl_keeps. intros. apply write_err_keeps.
  - apply reply_sound. unfold biDumpdef. destruct args; apply dump_keeps.
  - apply reply_sound. unfold biTrace. destruct args; by apply keeps_same.
  - apply reply_sound. unfold biTrace. destruct args; by apply keeps_same.
Qed.

(** ** Scanning and expansion *)

Lemma quoted_sound n d b p : sound p (quoted h n d b p).
Proof.
  revert d b p. induction n as [|n IH]; intros d b p; [done|]. cbn [quoted].
  destruct (hasPrefix p (rquote (quotes p))); [destruct (d - 1 =? 0); [apply skip_keeps|eapply sound_keeps; [apply skip_keeps|apply IH]]|].
  destruct (hasPrefix p (lquote (quotes p))); [eapply sound_keeps; [apply skip_keeps|apply IH]|].
  pose proof (next_keeps p) as K. destruct (next h p) as [[c|] p']; (eapply sound_keeps; [exact K|]); [apply IH|apply fatalf_sound].
Qed.

Lemma token_sound n p : sound p (token h n p).
Proof.
  unfold token. pose proof (fill_keeps p) as K. destruct (fill h p) as [ok p1]. cbn [snd] in K.
  eapply sound_keeps; [exact K|]. destruct ok; [cbn [negb]|done].
  destruct (_ && hasPrefix p1 _).
  - unfold comment. set (p2 := skip h (length (bcomm (quotes p1))) p1). destruct (before _ (lookahead p2)) as [b f].
    eapply sound_keeps; [exact (skip_keeps (length (bcomm (quotes p1))) p1)|]. apply skip_keeps.
  - destruct (isNameStart _); [apply skip_keeps|]. destruct (_ && hasPrefix p1 _); [|apply next_keeps].
    apply andthen_sound; [|done]. eapply sound_keeps; [apply skip_keeps|apply quoted_sound].
Qed.

Lemma skip_space_sound n p : sound p (skip_space h n p).
Proof.
  revert p. induction n as [|n IH]; intros p; [done|]. cbn [skip_space]. pose proof (fill_keeps p) as K.
  destruct (fill h p) as [ok p1]. cbn [snd] in K. eapply sound_keeps; [exact K|]. destruct ok; [cbn [negb]|apply fatalf_sound].
  destruct (isSpace _); [|done]. eapply sound_keeps; [apply next_keeps|apply IH].
Qed.

(** The arguments that are collected are at least one. *)
Definition some_args (r : result (W := W) (list argument)) : Prop := forall args p, r = Done args p -> args <> [].

Lemma andthen_some {A} (c : result A) k : (forall a p, some_args (k a p)) -> some_args (andthen c k).
Proof. intros Hk args p. destruct c; cbn; [apply Hk|done..]. Qed.

Lemma unnest_sound p (r : result (list argument)) :
  sound (set_nesting (nesting p + 1) p) r -> sound p (unnest r).
Proof.
  destruct r as [args p'|p'| |]; cbn; [|by intros H Hwf; destruct (H ltac:(by destruct Hwf))|done|done].
  intros [H E]. split; [|cbn in *; lia]. intros Hwf. by destruct (H ltac:(by destruct Hwf)).
Qed.

Lemma finish_sound name m loc args p :
  args <> [] \/ blind m = false -> sound p (finish h name m loc args p).
Proof.
  intros Hs. unfold finish. unfold blind in Hs. destruct (mfn m) as [f|]; [|by apply keeps_same].
  apply andthen_sound; [by apply run_builtin_sound|]. intros r p' _. apply pushback_keeps.
Qed.

Lemma trace_call_keeps name args p : keeps p (trace_call name args p).
Proof. unfold trace_call. destruct (traced p name); [apply write_err_keeps|done]. Qed.

Lemma expand_sound n :
  (forall name p, sound p (expand h n name p)) /\
  (forall p, sound p (collect h n p) /\ some_args (collect h n p)) /\
  (forall args p, sound p (collect_args h n args p) /\ some_args (collect_args h n args p)) /\
  (forall args b f pr par p, sound p (collect_arg h n args b f pr par p) /\ some_args (collect_arg h n args b f pr par p)).
Proof.
  induction n as [|n (IHe & IHc & IHs & IHa)]; [by split_and!|]. split_and!.
  - intros name p. rewrite expand_S. destruct (lookup p name) as [m|]; [|done]. destruct (negb _ && _) eqn:Eb; [done|].
    apply andthen_sound.
    + destruct (is_open (peek p)); [|done]. eapply sound_keeps; [apply next_keeps|apply IHc].
    + intros args p' E. eapply sound_keeps; [apply trace_call_keeps|]. apply finish_sound.
      destruct (is_open (peek p)); [left; by apply IHc in E|right; by destruct (blind m)].
  - intros p. rewrite collect_S. cbv zeta. destruct (maxNesting <? _); [split; [by intros []|by intros ? ? ?]|].
    destruct (IHs [] (set_nesting (nesting p + 1) p)) as [H1 H2]. split; [by apply unnest_sound|].
    intros args q E. destruct (collect_args _ _ _ _) as [args' p'| | |]; try done. injection E as -> _. by apply (H2 args p').
  - intros args p. cbn [collect_args]. split; [|apply andthen_some; intros; apply IHa].
    apply andthen_sound; [apply skip_space_sound|intros; apply IHa].
  - intros args b f pr par p. cbn [collect_arg].
    assert (Hd : forall p, some_args (Done (args ++ [mkArg b f pr]) p)) by (intros ? ? ? [= <- _]; by destruct args).
    split.
    + apply andthen_sound; [apply token_sound|]. intros [k s] p' _. destruct k; [apply fatalf_sound|apply IHa| |].
      * apply andthen_sound; [apply IHe|]. intros [[] fn] p'' _; cbn [negb]; [|apply IHa]. destruct fn, b; apply IHa.
      * repeat case_match; first [apply IHa | apply IHs | done].
    + apply andthen_some. intros [k s] p'. destruct k; [done|apply IHa| |].
      * apply andthen_some. intros [[] fn] p''; cbn [negb]; [|apply IHa]. destruct fn, b; apply IHa.
      * repeat case_match; first [apply IHa | apply IHs | apply Hd].
Qed.

Lemma process_sound n p : sound p (process_loop h n p).
Proof.
  revert p. induction n as [|n IH]; intros p; [done|]. cbn [process_loop]. apply andthen_sound; [apply token_sound|].
  intros [k s] p' _. destruct k.
  - destruct (M4Engine.wraps p') as [|w ws]; [apply flush_keeps|]. eapply sound_keeps; [|apply IH]. by apply keeps_same.
  - eapply sound_keeps; [apply emit_keeps|apply IH].
  - apply andthen_sound; [apply expand_sound|]. intros [[] fn] p'' _; [apply IH|]. eapply sound_keeps; [apply emit_keeps|apply IH].
  - eapply sound_keeps; [apply emit_keeps|apply IH].
Qed.

Lemma newProcessor_wf names ops w : wf (newProcessor (W := W) names ops w).
Proof.
  split; [done|done| |done]. intros name st Hst. cbn [newProcessor macros] in Hst.
  apply elem_of_list_to_map_2, list_elem_of_fmap in Hst as (e & [= -> ->] & _). done.
Qed.

(** ** Properties *)

(** [C16] The invariant of the processor: a run from a well-formed state never
    panics, whatever the input defines, and leaves a well-formed state,
    whether it ends at the end of the input or gives up; at the end of the
    input every call has returned, so that the nesting is as before. *)
Theorem process_invariant (n : nat) (p : processor) :
  wf p ->
  match process_loop h n p with
  | Done _ p' => wf p' /\ nesting p' = nesting p
  | Fatal p' => wf p'
  | Crash => False
  | NoFuel => True
  end.
Proof.
  intros Hwf. pose proof (process_sound n p) as H. destruct (process_loop h n p); cbn in H; [|auto..].
  destruct H as [H1 H2]. auto.
Qed.

(** The command never panics: it ends with a status and its outputs, or it
    runs on. *)
Theorem run_never_panics (n : nat) (names : list (list Z)) (ops : list cmdlineOp) (w : W) : run h n names ops w <> Panic.
Proof.
  unfold run. destruct (List.find _ _); [done|]. unfold process.
  set (p := newProcessor _ ops w). pose proof (process_sound n p) as H. by destruct (process_loop h n p).
Qed.

End Safe.

End M4Safe.
