(* ===== verification/M4Builtins.v ===== *)
(** * m4: the built-in macros

    What the built-ins promise: text sent to a diversion comes out at the
    end, in the order of the numbers; [$@] and [shift] pass arguments on as
    they are; [pushdef] and [popdef] undo each other; [index] and [substr]
    agree; [translit] maps byte by byte; and [eval] prints the value of its
    expression so that it can be read back in the radix asked for. *)

From Stdlib Require Import ZArith Lia String.
From stdpp Require Import base tactics list numbers gmap strings.
From S2P Require Import Prelude M4Eval M4Correct M4Engine M4Scan M4Macro.

Module M4Builtins.
Import M4Engine M4Scan M4Macro.

Section Diversions.
Context {W : Type} (h : host W).
Implicit Types p : processor (W := W).

(** ** Diversions *)

(** The output [f 0] is written, and diversion [n] holds [f n]. *)
Record holds (f : Z -> list Z) (o : output) : Prop := Holds {
  holds_out : out o = f 0;
  holds_diverted : forall n, 1 <= n <= 9 -> diversions o !! Z.to_nat n = Some (f n);
  holds_length : length (diversions o) = 10%nat
}.

Definition add_text (f : Z -> list Z) (n : Z) (t : list Z) : Z -> list Z := fun k => if k =? n then f k ++ t else f k.

Lemma writeOutput_holds f o t : holds f o -> holds (add_text f (divnum o) t) (writeOutput t o).
Proof.
  intros [Ho Hd Hl]. unfold writeOutput, add_text. destruct (Z.eqb_spec (divnum o) 0) as [E|E].
  - split; cbn [out diversions set_out]; [by rewrite E, Ho| |done]. intros n Hn. rewrite E. destruct (Z.eqb_spec n 0); [lia|auto].
  - destruct ((0 <? divnum o) && (divnum o <? len (diversions o))) eqn:Er.
    + rewrite andb_true_iff, !Z.ltb_lt in Er. unfold len in Er. rewrite Hl in Er. split; cbn [out diversions set_diversions]; [|intros n Hn|by rewrite length_alter].
      * by destruct (Z.eqb_spec 0 (divnum o)); [lia|].
      * destruct (Z.eqb_spec n (divnum o)) as [->|]; [by rewrite list_lookup_alter_eq, Hd|].
        rewrite list_lookup_alter_ne by lia. auto.
    + rewrite andb_false_iff, !Z.ltb_ge in Er. unfold len in Er. rewrite Hl in Er.
      split; [|intros n Hn|done]; [by destruct (Z.eqb_spec 0 (divnum o)); [lia|]|].
      destruct (Z.eqb_spec n (divnum o)); [lia|auto].
Qed.

Lemma undivs_out f ns o :
  NoDup ns -> (forall n, n ∈ ns -> 1 <= n <= 9 /\ diversions o !! Z.to_nat n = Some (f n)) ->
  length (diversions o) = 10%nat -> divnum o = 0 ->
  out (foldl (fun o n => undiv n o) o ns) = out o ++ concat (f <$> ns) /\
  err (foldl (fun o n => undiv n o) o ns) = err o.
Proof.
  intros Hnd. revert o. induction Hnd as [|n ns Hn Hnd IH]; intros o Hf Hl Hz; [by rewrite app_nil_r|].
  cbn [foldl]. destruct (Hf n) as [Hr Hv]; [by left|].
  assert (E : undiv n o = set_out (out o ++ f n) (set_diversions (<[Z.to_nat n := []]> (diversions o)) o)).
  { unfold undiv, len. rewrite Hl, Hv. rewrite (proj2 (Z.ltb_lt 0 n)), (proj2 (Z.ltb_lt n (Z.of_nat 10))) by lia. cbn.
    unfold writeOutput. cbn. by rewrite Hz. }
  rewrite E. destruct (IH (set_out (out o ++ f n) (set_diversions (<[Z.to_nat n:=[]]> (diversions o)) o))) as [-> ->].
  - intros m Hm. destruct (Hf m) as [? Hv']; [by right|]. split; [done|]. cbn. rewrite list_lookup_insert_ne; [done|].
    intros ?. assert (n = m) as <- by lia. done.
  - cbn. by rewrite length_insert.
  - done.
  - cbn. by rewrite <- app_assoc.
Qed.

Lemma flush_holds f p :
  holds f (outp p) ->
  out (outp (flushDiversions p)) = concat (f <$> 0 :: numbered) /\ err (outp (flushDiversions p)) = err (outp p).
Proof.
  intros [Ho Hd Hl]. destruct (undivs_out f numbered (set_divnum 0 (outp p))) as [E1 E2]; [|intros n Hn|done|done|].
  - by apply (bool_decide_unpack (NoDup numbered)).
  - assert (1 <= n <= 9) by (unfold numbered in Hn; set_solver by lia). auto.
  - unfold flushDiversions. cbn [outp set_outp set_divnum out err]. rewrite E1, E2. cbn. by rewrite Ho.
Qed.

Lemma itoa_head n : exists c l, itoa n = c :: l /\ (is_digit c = true \/ c = 45) /\ Forall (fun c => is_digit c = true) l.
Proof.
  unfold itoa. destruct (Z.ltb_spec n 0).
  - destruct (utoa_numeral (- n)) as (Hd & _); [lia|]. eauto 10.
  - destruct (utoa_numeral n) as (Hd & Hne & _); [lia|]. destruct (utoa n) as [|c l]; [done|]. inversion Hd; subst. eauto 10.
Qed.

Lemma digit_range c : is_digit c = true -> 48 <= c <= 57.
Proof. unfold is_digit. rewrite andb_true_iff, !Z.leb_le. lia. Qed.

Lemma itoa_nested n : nested 0 (itoa n) = true.
Proof.
  destruct (itoa_head n) as (c & l & -> & Hc & Hl).
  assert (Hn : forall l, Forall (fun c => is_digit c = true \/ c = 45) l -> nested 0 l = true).
  { clear. induction 1 as [|c l Hc _ IH]; [done|]. cbn [nested].
    destruct (Z.eqb_spec c 96); [destruct Hc as [Hc%digit_range|]; lia|].
    destruct (Z.eqb_spec c 39); [destruct Hc as [Hc%digit_range|]; lia|]. done. }
  apply Hn. constructor; [done|]. eapply Forall_impl; [exact Hl|]. by left.
Qed.

Lemma number_itoa f n p : in_sint 32 n -> number f (itoa n) p = (Some n, p).
Proof.
  intros Hn. unfold number. destruct (itoa_head n) as (c & l & E & Hc & _).
  assert (Et : trim_left (fun c => (c =? 32) || (c =? 9) || (c =? 10)) (itoa n) = itoa n).
  { rewrite E. cbn [trim_left]. destruct (Z.eqb_spec c 32), (Z.eqb_spec c 9), (Z.eqb_spec c 10); cbn [orb]; try done;
      destruct Hc as [Hc%digit_range|]; lia. }
  rewrite Et, ParseInt_itoa by (unfold in_sint in *; lia). rewrite wraps_id by done. by rewrite E.
Qed.

(** A state that goes on with text and calls of [divert]. *)
Record ready p : Prop := Ready {
  ready_call : callable p (str! "divert") (mkMacro [] (Some b_divert));
  ready_sync : sync (outp p) = false;
  ready_failed : failed p = false;
  ready_wraps : wraps p = [];
  ready_files : files (inp p) = []
}.

Lemma ready_moves p p' o :
  ready p -> frame p' = frame (set_outp o p) -> sync o = false -> pending p' = pending p -> ready p'.
Proof.
  intros [[] ? ? ? ?] F Ho P. apply frame_fields in F as (Fm & Fq & Fo & Fn & Ff & Fw & Fa & Ft & _). cbn in *.
  injection P as _ Pf _ _ _. split; [split|congruence..].
  - unfold lookup in *. by rewrite Fm.
  - unfold traced in *. by rewrite Ft, Fa.
  - by rewrite Fn.
  - congruence.
Qed.

(** [divert] to [n]. *)
Definition diverted (n : Z) (o : output) : output :=
  if divnum o =? n then o else Output (out o) (err o) (sync o) (bol o) (-1) 0 n (diversions o).

Lemma divert_steps n p l :
  ready p -> in_sint 32 n -> lookahead p = call_text (str! "divert") [([], itoa n)] ++ l ->
  exists p', steps h p p' /\ lookahead p' = l /\ ready p' /\ outp p' = diverted n (outp p).
Proof.
  intros R Hn E. destruct (skip_reads h _ p l E) as [[Eb F P] L].
  set (p1 := skip h (length (call_text (str! "divert") [([], itoa n)])) p) in *.
  assert (Ed : biDivert [arg_of ([], itoa n)] p1 = set_outp (diverted n (outp p)) p1).
  { pose proof (frame_fields _ _ F) as (_ & _ & Fo & _). unfold biDivert. cbn [arg_of atext snd].
    destruct (itoa_head n) as (c & t & Ei & _). rewrite bool_decide_true by (by rewrite Ei). rewrite number_itoa, Fo by done.
    unfold diverted. destruct (divnum (outp p) =? n); [|done]. rewrite <- Fo. by destruct p1. }
  exists (set_outp (diverted n (outp p)) p1). split_and!; [|done| |done].
  - eapply (call_steps h (str! "divert") _ [([], itoa n)] p l None); [done|apply R|done| |done|].
    + repeat constructor. cbn. apply itoa_nested.
    + unfold finish. cbn [mfn run_builtin fmap list_fmap]. fold p1. rewrite Ed. cbn [reply_text andthen fst snd]. by rewrite pushback_nil.
  - apply (ready_moves p _ (diverted n (outp p))); [done| | |done].
    + change (set_outp (diverted n (outp p)) (frame p1) = set_outp (diverted n (outp p)) (frame p)). by rewrite F.
    + unfold diverted. destruct (_ =? n); apply R.
Qed.

(** A text of calls of [divert], each before a quoted string. *)
Fixpoint divert_text (chunks : list (Z * list Z)) : list Z :=
  match chunks with
  | [] => []
  | (n, t) :: chunks' => call_text (str! "divert") [([], itoa n)] ++ (96 :: t ++ [39]) ++ divert_text chunks'
  end.

Definition chunk_ok (c : Z * list Z) : Prop := in_sint 32 c.1 /\ nested 0 c.2 = true.

(** What the chunks send to [k]. *)
Definition sent_to (chunks : list (Z * list Z)) (k : Z) : list Z := concat (snd <$> filter (fun c => c.1 = k) chunks).

Lemma chunks_steps chunks f p :
  Forall chunk_ok chunks -> ready p -> holds f (outp p) -> lookahead p = divert_text chunks ->
  exists p', steps h p p' /\ lookahead p' = [] /\ ready p' /\ holds (fun k => f k ++ sent_to chunks k) (outp p') /\ err (outp p') = err (outp p).
Proof.
  intros Hok. revert f p. induction Hok as [|[n t] chunks [Hn Ht] _ IH]; intros f p R Hf E.
  - exists p. split; [apply steps_refl|]. destruct Hf. split_and!; try done. split; [|intros|done]; unfold sent_to; cbn; rewrite app_nil_r; auto.
  - cbn [divert_text fst snd] in *. destruct (divert_steps n p _ R Hn E) as (p1 & S1 & L1 & R1 & O1).
    assert (D : divnum (outp p1) = n) by (rewrite O1; unfold diverted; by destruct (Z.eqb_spec (divnum (outp p)) n)).
    assert (H1 : holds f (outp p1)) by (rewrite O1; unfold diverted; destruct (_ =? n); [done|]; by destruct Hf).
    destruct (segment_steps h p1 (Quoted t) (divert_text chunks)) as (p2 & S2 & P2);
      [apply R1|split; [apply R1|apply H1]|done|done|]. pose proof (prints_fields _ _ _ _ P2) as (_ & _ & Fo & _).
    destruct (IH (add_text f n t) p2) as (p' & S & L & R' & H' & Er).
    { eapply (ready_moves p1 p2 (writeOutput t (outp p1))); [done|apply P2| |apply P2].
      destruct (writeOutput_direct t (outp p1)) as [-> _]. apply R1. }
    { rewrite Fo. rewrite <- D. by apply writeOutput_holds. }
    { destruct P2 as [Eb _ _]. rewrite L1 in Eb. by apply app_inv_head in Eb. }
    exists p'. split; [by eapply steps_trans; [|eapply steps_trans]|]. split; [done|]. split; [done|]. split.
    + assert (Es : forall k, add_text f n t k ++ sent_to chunks k = f k ++ sent_to ((n, t) :: chunks) k).
      { intros k. unfold add_text, sent_to. rewrite filter_cons. cbn [fst]. destruct (Z.eqb_spec k n) as [->|].
        - rewrite decide_True by done. cbn. by rewrite <- app_assoc.
        - by rewrite decide_False by congruence. }
      destruct H' as [E0 En El]. split; [by rewrite E0, Es|intros k Hk; by rewrite En, Es|done].
    + rewrite Er, Fo, O1. unfold writeOutput, diverted. by repeat case_match.
Qed.

(** Text sent to the diversions comes out at the end: first what was written
    with diversion 0, then the diversions 1 to 9 in the order of their
    numbers, each in the order in which it was written; what was sent to any
    other number is dropped. *)
Theorem divert_orders (chunks : list (Z * list Z)) (w w' : W) :
  Forall chunk_ok chunks -> readStdin h w = (inr (divert_text chunks), w') ->
  exists N, forall n, (N <= n)%nat ->
    run h n [] [] w = Ret (0, concat (sent_to chunks <$> [0; 1; 2; 3; 4; 5; 6; 7; 8; 9]), []).
Proof.
  intros Hok Er. set (p := started (divert_text chunks) w').
  destruct (chunks_steps chunks (fun _ => []) p Hok) as (p' & S & L & R & H & Ee); [by split; [split|..]| |done|].
  { split; [done| |done]. intros n Hn. apply (lookup_replicate 10 ([] : list Z)). split; [done|lia]. }
  destruct (flush_holds _ p' H) as [Eo Ef].
  destruct (steps_Done h p p' 1 tt (flushDiversions p')) as [N HN]; [done|by apply end_of_input; try apply R|].
  exists N. intros n Hn. rewrite (run_ends h w (divert_text chunks) w' (flushDiversions p') N); [|done|done| |done].
  - by rewrite Eo, Ef, Ee.
  - unfold flushDiversions. apply R.
Qed.

End Diversions.

Section Builtins.
Context {W : Type} (h : host W).
Implicit Types p : processor (W := W).

(** ** Passing arguments on *)

Lemma substitute_name q name w rest args :
  forallb isNameChar w = true -> substitute q name (w ++ 40 :: rest) args = w ++ substitute q name (40 :: rest) args.
Proof.
  induction w as [|c w IH]; [done|]. cbn [forallb app]. intros [Hc Hw]%andb_true_iff.
  assert (c <> 36) by (intros ->; done). by rewrite substitute_literal, IH.
Qed.

Lemma joinArgs_text args :
  args <> [] -> joinArgs (arg_of <$> args) [96] [39] ++ [41] = args_text ((fun a => ([], a.2)) <$> args).
Proof.
  intros Hne. induction args as [|a [|b args] IH]; [done| |].
  - cbn. by rewrite <- app_assoc.
  - specialize (IH ltac:(done)). cbn [fmap list_fmap joinArgs args_text] in *. cbn [arg_of atext fst snd app] in *.
    rewrite <- IH, <- app_assoc. done.
Qed.

(** A macro whose text is [g($@)] calls [g] with the arguments it was called
    with, whatever commas, parentheses, quotes and names they hold. *)
Theorem dollar_at_forwards (f g : list Z) (args : list (list Z * list Z)) (l : list Z) (p : processor) :
  validMacroName f = true -> validMacroName g = true -> args <> [] -> Forall arg_ok args ->
  callable p f (mkMacro (g ++ str! "($@)") None) -> lookahead p = call_text f args ++ l ->
  exists p', steps h p p' /\ lookahead p' = call_text g ((fun a => ([], a.2)) <$> args) ++ l /\
    frame p' = frame p /\ pending p' = pending p.
Proof.
  intros Hf Hg Hne Hok Hc E. destruct (skip_reads h _ p l E) as [[Eb F P] L]. set (p1 := skip h (length (call_text f args)) p) in *.
  exists (pushback (call_text g ((fun a => ([], a.2)) <$> args)) (set_here (here (skip h (length f) p)) p1)).
  split; [|split_and!; [|done|done]].
  - eapply (call_steps h f _ args p l None); [done|done|done|done|done|]. unfold finish. cbn [mfn mtext]. fold p1.
    pose proof (frame_fields _ _ F) as (_ & Fq & _). rewrite Fq, (call_quotes _ _ _ Hc).
    rewrite substitute_name by (by apply valid_chars). unfold call_text. do 3 f_equal. cbn [substitute]. cbn. f_equal.
    change (lquote standard) with [96]. change (rquote standard) with [39]. by rewrite joinArgs_text.
  - rewrite lookahead_pushback. by rewrite <- L.
Qed.

(** ** Stacks of definitions *)

(** [popdef] takes back [pushdef]: the processor is the same as before. *)
Theorem pushdef_popdef (name text : list Z) (p : processor) :
  name <> [] -> map_Forall (fun _ st => st <> []) (macros p) ->
  exists q, run_builtin h b_pushdef [mkArg name None true; mkArg text None true] p = Done ([], None) q /\
    lookup q name = Some (mkMacro text None) /\
    run_builtin h b_popdef [mkArg name None true] q = Done ([], None) p.
Proof.
  intros Hn Hm. exists (define name (mkMacro text None) true p).
  split; [apply (defineFromArgs_text ([], name) ([], text) true p Hn)|]. split; [apply lookup_define|].
  cbn [run_builtin foldl atext]. unfold reply_text. f_equal. unfold popdef, define. cbn [macros set_macros]. rewrite lookup_insert_eq.
  destruct (macros p !! name) as [[|m st]|] eqn:E.
  - by apply Hm in E.
  - rewrite insert_insert_eq, insert_id by done. by destruct p.
  - rewrite delete_insert_id by done. by destruct p.
Qed.

(** ** index and substr *)

Lemma str_index_spec s t i :
  0 <= i ->
  match str_index s t i with
  | k => (k = -1 /\ forall a b, s <> a ++ t ++ b) \/
         (exists a b, s = a ++ t ++ b /\ k = i + len a /\ forall a' b', s = a' ++ t ++ b' -> len a <= len a')
  end.
Proof.
  revert i. induction s as [|c s IH]; intros i Hi; cbn [str_index].
  - destruct (has_prefix [] t) eqn:E.
    + apply has_prefix_spec in E as [b E]. right. exists [], b. split; [done|]. split; [unfold len; cbn; lia|]. intros. apply len_nonneg.
    + left. split; [done|]. intros a b Eq. destruct a; [|done]. symmetry in Eq. cbn in Eq. apply app_eq_nil in Eq as [-> _]. done.
  - destruct (has_prefix (c :: s) t) eqn:E.
    + apply has_prefix_spec in E as [b E]. right. exists [], b. split; [done|]. split; [unfold len; cbn; lia|]. intros. apply len_nonneg.
    + assert (Hc : forall a b, c :: s = a ++ t ++ b -> exists a', a = c :: a' /\ s = a' ++ t ++ b).
      { intros [|x a] b Eq; [cbn in Eq; rewrite Eq, has_prefix_app in E; done|]. injection Eq as -> ->. eauto. }
      destruct (IH (i + 1)) as [[-> Hno]|(a & b & -> & -> & Hmin)]; [lia| |].
      * left. split; [done|]. intros a b Eq. apply Hc in Eq as (a' & _ & Eq). by apply Hno in Eq.
      * right. exists (c :: a), b. split; [done|]. split; [rewrite len_cons; lia|].
        intros a' b' Eq. apply Hc in Eq as (a2 & -> & Eq). rewrite !len_cons. apply Hmin in Eq. lia.
Qed.

Lemma substr_mid s start n p :
  in_sint 32 start -> in_sint 32 n -> 0 <= start -> 0 <= n -> start + n <= len s ->
  biSubstr [mkArg s None true; mkArg (itoa start) None true; mkArg (itoa n) None true] p =
    Done (sub start (start + n) s, None) p.
Proof.
  intros H1 H2 Hs Hn Hl. unfold biSubstr. change (atLeast _ _ 2 p) with (true, p). cbn [negb].
  change (index _ 0) with (Ret (mkArg s None true)). change (index _ 1) with (Ret (mkArg (itoa start) None true)).
  cbn [lift andthen atext]. rewrite number_itoa by done. change (_ !! 2%nat) with (Some (mkArg (itoa n) None true)). cbn [atext].
  rewrite number_itoa by done. destruct (Z.ltb_spec start 0); [lia|]. destruct (Z.leb_spec (len s) start); cbn [orb].
  - unfold reply_text. replace (start + n) with start by lia. by rewrite sub_nil.
  - destruct (Z.leb_spec n 0); [unfold reply_text; replace (start + n) with start by lia; by rewrite sub_nil|].
    destruct (Z.ltb_spec (len s) (start + n)); [lia|]. by rewrite slice_Ret by lia.
Qed.

(** [index] finds the first place where a string occurs, and [substr] of that
    place and length is the string; -1 means that it does not occur. *)
Theorem index_substr (s t : list Z) (p : processor) :
  len s < 2 ^ 31 ->
  exists i, run_builtin h b_index [mkArg s None true; mkArg t None true] p = Done (itoa i, None) p /\
    ((i = -1 /\ forall a b, s <> a ++ t ++ b) \/
     (0 <= i /\ (forall a b, s = a ++ t ++ b -> i <= len a) /\
      run_builtin h b_substr [mkArg s None true; mkArg (itoa i) None true; mkArg (itoa (len t)) None true] p =
        Done (t, None) p)).
Proof.
  intros Hl. exists (str_index s t 0). split; [done|].
  destruct (str_index_spec s t 0) as [H|(a & b & E & -> & Hmin)]; [done|by left|]. right.
  pose proof (len_nonneg a). pose proof (len_nonneg t). pose proof (len_nonneg b).
  assert (len s = len a + len t + len b) by (rewrite E, !len_app; lia). split; [lia|]. split; [auto with lia|].
  cbn [run_builtin]. unfold in_sint in *. rewrite substr_mid by (unfold in_sint; lia). rewrite E. do 2 f_equal.
  rewrite Z.add_0_l. apply sub_mid.
Qed.

(** ** translit *)

(** What becomes of a byte: the byte of [to] at the place of its first
    occurrence in [from], nothing when [to] ends before, itself when it does
    not occur. *)
Fixpoint translit_byte (from to : list Z) (c : Z) : list Z :=
  match from with
  | [] => [c]
  | x :: from' => if c =? x then take 1 to else translit_byte from' (tail to) c
  end.

Lemma fill_table_mapped from to table c : table c <> -1 -> fill_table from to table c = table c.
Proof.
  revert to table. induction from as [|x from IH]; intros to table Hc; [done|]. cbn [fill_table].
  destruct (Z.eqb_spec (table x) (-1)) as [E|E]; cbn [negb]; [|by apply IH].
  destruct (Z.eqb_spec c x) as [->|]; [done|]. rewrite IH by (by rewrite (proj2 (Z.eqb_neq c x))). by rewrite (proj2 (Z.eqb_neq c x)).
Qed.

Lemma fill_table_spec from to table c :
  Forall (fun c => 0 <= c) to -> table c = -1 ->
  translit (fill_table from to table) [c] = translit_byte from to c.
Proof.
  revert to table. induction from as [|x from IH]; intros to table Hto Hc; cbn [fill_table translit_byte]; [cbn; by rewrite Hc|].
  assert (Htl : Forall (fun c => 0 <= c) (tail to)) by (by destruct Hto).
  destruct (Z.eqb_spec c x) as [<-|Hne].
  - rewrite Hc. cbn [negb Z.eqb Pos.eqb]. cbn [translit]. rewrite fill_table_mapped; rewrite Z.eqb_refl.
    + destruct Hto as [|y to Hy _]; [done|]. cbn. destruct (Z.eqb_spec y (-1)); [lia|]. by destruct (Z.eqb_spec y (-2)); [lia|].
    + destruct Hto; [done|lia].
  - destruct (negb (table x =? -1)); [by apply IH|]. apply IH; [done|]. by rewrite (proj2 (Z.eqb_neq c x)).
Qed.

Lemma translit_cons table c s : translit table (c :: s) = translit table [c] ++ translit table s.
Proof. cbn. by repeat case_match. Qed.

Lemma expand_ranges_nonneg prev s :
  (forall c, prev = Some c -> 0 <= c) -> Forall (fun c => 0 <= c) s -> Forall (fun c => 0 <= c) (expand_ranges prev s).
Proof.
  remember (length s) as n eqn:En. assert (Hn : (length s <= n)%nat) by lia. clear En. revert prev s Hn.
  induction n as [|n IH]; intros prev s Hn Hp Hs; [by destruct s; [|cbn in Hn; lia]|]. destruct Hs as [|c s Hc Hs]; [done|].
  cbn in Hn. assert (Hdef : Forall (fun c => 0 <= c) (c :: expand_ranges (Some c) s)).
  { constructor; [done|]. apply IH; [lia|by intros ? [= <-]|done]. }
  cbn [expand_ranges]. destruct prev as [lo|]; [|done]. destruct Hs as [|hi s Hhi Hs]; [done|].
  destruct (c =? 45); [|done]. apply Forall_app. cbn in Hn. split; [|apply IH; [lia|by intros ? [= <-]|done]].
  specialize (Hp lo eq_refl). apply Forall_fmap, Forall_forall. intros i Hi%list_elem_of_In%in_seq. cbn. destruct (Z.ltb_spec lo hi); lia.
Qed.

(** [translit] maps its first argument byte by byte, after the ranges of the
    other two are written out. *)
Theorem translit_maps (s from to : list Z) (p : processor) :
  Forall (fun c => 0 <= c) to ->
  run_builtin h b_translit [mkArg s None true; mkArg from None true; mkArg to None true] p =
    Done (concat (translit_byte (expandRanges from) (expandRanges to) <$> s), None) p.
Proof.
  intros Hto. cbn [run_builtin]. unfold biTranslit. change (atLeast _ _ 2 p) with (true, p). cbn [atext]. unfold reply_text. do 2 f_equal.
  assert (Ht : Forall (fun c => 0 <= c) (expandRanges to)) by (by apply expand_ranges_nonneg).
  induction s as [|c s IH]; [done|]. rewrite translit_cons, fill_table_spec by done. cbn. by rewrite IH.
Qed.

(** ** eval *)

Definition digit_value (c : Z) : Z := if c <=? 57 then c - 48 else c - 55.

(** The value of a numeral with an optional sign. *)
Definition numeral (radix : Z) (s : list Z) : Z :=
  match s with
  | c :: ds => if c =? 45 then - undigits radix (digit_value <$> ds) else undigits radix (digit_value <$> s)
  | [] => 0
  end.

Lemma undigits_zeros radix k ds : undigits radix (replicate k 0 ++ ds) = undigits radix ds.
Proof.
  rewrite undigits_app. replace (undigits radix (replicate k 0)) with 0; [lia|].
  induction k as [|k IH]; [done|]. cbn [replicate]. rewrite undigits_cons. lia.
Qed.

Lemma format_uint_spec radix n :
  2 <= radix <= 36 -> 0 <= n ->
  undigits radix (digit_value <$> format_uint radix n) = n /\ Forall (fun c => 48 <= c) (format_uint radix n) /\ format_uint radix n <> [].
Proof.
  intros Hr Hn. unfold format_uint. destruct (Z.eqb_spec n 0) as [->|Hz]; [split_and!; [done|by repeat constructor|done]|].
  destruct (digits_spec radix n) as (Hu & Hd & _ & Hp); [lia|done|]. split_and!.
  - rewrite <- list_fmap_compose. rewrite (Forall_fmap_ext_1 _ id); [by rewrite list_fmap_id|].
    eapply Forall_impl; [exact Hd|]. intros d Hdr. cbn in Hdr |- *. unfold digit_value.
    destruct (Z.ltb_spec d 10); [destruct (Z.leb_spec (48 + d) 57); lia|destruct (Z.leb_spec (65 + (d - 10)) 57); lia].
  - apply Forall_fmap. eapply Forall_impl; [exact Hd|]. intros d Hdr. cbn in Hdr |- *. destruct (d <? 10); lia.
  - destruct (digits radix n); [|done]. by destruct Hp; [lia|].
Qed.

Lemma format_eval_spec v radix width :
  2 <= radix <= 36 ->
  numeral radix (format_eval v radix width) = v /\ width <= len (format_eval v radix width).
Proof.
  intros Hr. unfold format_eval. destruct (Z.eqb_spec radix 1); [lia|].
  destruct (format_uint_spec radix (Z.abs v)) as (Hu & Hd & Hne); [done|lia|].
  set (ds := format_uint radix (Z.abs v)) in *. set (k := Z.to_nat (width - len ds)).
  assert (Ev : undigits radix (digit_value <$> (replicate k 48 ++ ds)) = Z.abs v).
  { rewrite fmap_app, fmap_replicate. change (digit_value 48) with 0. by rewrite undigits_zeros. }
  split.
  - destruct (Z.ltb_spec v 0); cbn [app].
    + cbn [numeral Z.eqb Pos.eqb]. rewrite Ev. lia.
    + unfold numeral. destruct (replicate k 48 ++ ds) as [|c l] eqn:E.
      { apply app_eq_nil in E as [_ E]. done. }
      assert (48 <= c).
      { destruct k; cbn in E; [|by injection E as <-]. rewrite E in Hd. by inversion Hd. }
      destruct (Z.eqb_spec c 45); [lia|]. rewrite Ev. lia.
  - rewrite !len_app. pose proof (len_nonneg (if v <? 0 then [45] else [])). unfold len in *. rewrite length_replicate. lia.
Qed.

(** [C23] [eval] of the text of an expression, with a radix and a width: where the
    expression has a value, it writes a numeral of that radix, of at least
    that width, that reads back as the value; where it divides by zero, it
    reports the error, writes nothing and makes the run fail. *)
Theorem eval_prints (ws : list Z) (e : M4Correct.expr) (radix width : Z) (p : processor) :
  M4Correct.blanks ws -> M4Correct.printable e -> 2 <= radix <= 36 -> 0 <= width < 2 ^ 31 ->
  let txt := M4Correct.pp ws 0 e in
  let args := [mkArg txt None true; mkArg (itoa radix) None true; mkArg (itoa width) None true] in
  match M4Correct.denote e with
  | inr v => exists s, run_builtin h b_eval args p = Done (s, None) p /\ numeral radix s = v /\ width <= len s
  | inl m => run_builtin h b_eval args p = Done ([], None) (set_failed (warnf (m ++ str! " in eval: " ++ txt) p))
  end.
Proof.
  intros Hws Hp Hr Hwd txt args. cbn [run_builtin]. unfold biEval, eval_radix, eval_width, args.
  change (_ !! 1%nat) with (Some (mkArg (itoa radix) None true)). change (_ !! 2%nat) with (Some (mkArg (itoa width) None true)). cbn [atext].
  destruct (itoa_head radix) as (c1 & l1 & E1 & _). destruct (itoa_head width) as (c2 & l2 & E2 & _).
  rewrite !bool_decide_true by (by rewrite ?E1, ?E2). rewrite number_itoa by (unfold in_sint; lia).
  destruct (Z.ltb_spec radix 1); [lia|]. destruct (Z.ltb_spec 36 radix); [lia|]. cbn [orb].
  rewrite number_itoa by (unfold in_sint; lia). destruct (Z.ltb_spec width 0); [lia|].
  change (index _ 0) with (Ret (mkArg txt None true)). cbn [lift andthen atext].
  pose proof (M4Correct.evalExpr_pp ws e Hws Hp) as HE. fold txt in HE.
  assert (Hne : txt <> []) by (destruct (M4Correct.pp_start ws 0 e Hp) as (c & t & E & _); unfold txt; by rewrite E).
  destruct txt as [|c t] eqn:Et; [done|]. rewrite <- Et in *. destruct (M4Correct.denote e) as [m|v] eqn:Ed.
  - destruct HE as [v ->]. cbn [lift andthen]. destruct m as [|x m]; [by apply M4Correct.denote_err in Ed|done].
  - rewrite HE. cbn [lift andthen]. destruct (format_eval_spec v radix width Hr). eexists. done.
Qed.

End Builtins.

End M4Builtins.
