(* ===== verification/M4Witness.v ===== *)
(** * m4: concrete runs

    A host with nothing but a standard input, and the theorems of [M4Macro],
    [M4Safe] and [M4Builtins] on concrete texts. *)

From Stdlib Require Import ZArith Lia String.
From stdpp Require Import base tactics list numbers gmap strings.
From S2P Require Import Prelude M4Eval M4Correct M4Engine M4Scan M4Macro M4Safe M4Builtins.

Module M4Witness.
Import M4Engine M4Scan M4Macro M4Safe M4Builtins.

(** No file, no command, no temporary file; [s] on standard input. *)
Definition only_stdin (s : list Z) : host unit :=
  Host unit (fun _ _ => (inl (str! "no such file"), tt)) (fun _ => (inr s, tt)) (fun _ _ => (127, [], [], tt))
    (fun _ _ => (inl (str! "no randomness"), tt)) (fun _ _ => (Exists, tt)) 1 id.

(** Concrete segments. *)
Ltac segments :=
  cbn [segs_ok seg_ok];
  repeat match goal with
  | |- _ /\ _ => split
  | |- True => exact I
  | |- _ ∉ _ => apply (bool_decide_unpack (_ ∉ _)); vm_compute; exact I
  | |- name_before _ _ => split; vm_compute; first [reflexivity | exact I]
  | |- not_called _ _ _ => vm_compute; repeat split
  | |- _ => vm_compute; first [reflexivity | discriminate]
  end.

(** A macro that calls itself until its argument is 0. *)
Example countdown :
  run (only_stdin (str! "define(`loop',`ifelse($1,0,`done',`$1 loop(decr($1))')')loop(5)")) 300 [] [] tt =
    Ret (0, str! "5 4 3 2 1 done", []).
Proof. vm_compute. reflexivity. Qed.

Example renamed_builtin :
  run (only_stdin (str! "define(`size',defn(`len'))size(`abcd') size undefine(`size')size(`a')")) 300 [] [] tt =
    Ret (0, str! "4 size size(a)", []).
Proof. vm_compute. reflexivity. Qed.

(** [define] and [eval] without parentheses are text; so is what is quoted. *)
Definition plain_segments : list segment :=
  [Word (str! "define"); Char 32; Quoted (str! "len(`x')"); Char 43; Word (str! "x1"); Comment (str! " len(x)"); Char 40].

Lemma m4_copies_witness :
  segs_text plain_segments = str! "define `len(`x')'+x1# len(x)" ++ 10 :: str! "(" /\
  segs_out plain_segments = str! "define len(`x')+x1# len(x)" ++ 10 :: str! "(" /\
  exists N, forall n, (N <= n)%nat ->
    run (only_stdin (segs_text plain_segments)) n [] [] tt = Ret (0, segs_out plain_segments, []).
Proof.
  split; [reflexivity|]. split; [reflexivity|].
  apply (m4_copies (only_stdin (segs_text plain_segments)) plain_segments tt tt); [reflexivity|].
  unfold plain_segments. segments.
Defined.

Definition swap_input : list Z := str! "define(`swap',`$2, $1; $#: $@')swap(`a,(b', `c')".

Definition swap_segments : list segment :=
  [Word (str! "c"); Char 44; Char 32; Word (str! "a"); Char 44; Char 40; Word (str! "b"); Char 59; Char 32; Char 50;
   Char 58; Char 32; Quoted (str! "a,(b"); Char 44; Quoted (str! "c")].

Definition swap_body : list piece :=
  [Param 2; Lit 44; Lit 32; Param 1; Lit 59; Lit 32; Count; Lit 58; Lit 32; At].

Lemma define_then_call_witness :
  template_text swap_body = str! "$2, $1; $#: $@" /\
  segs_out swap_segments = str! "c, a,(b; 2: a,(b,c" /\
  exists N, forall n, (N <= n)%nat -> run (only_stdin swap_input) n [] [] tt = Ret (0, segs_out swap_segments, []).
Proof.
  split; [reflexivity|]. split; [reflexivity|].
  apply (define_then_call (only_stdin swap_input) (str! "swap") swap_body [([], str! "a,(b"); ([32], str! "c")]
    swap_segments tt tt); [reflexivity|reflexivity|unfold swap_body; repeat constructor; cbn; lia|done|by repeat constructor|reflexivity| |reflexivity].
  unfold swap_segments. segments.
Defined.

Lemma m4_recodes_bytes_witness :
  (exists N, forall n, (N <= n)%nat -> run (only_stdin [233]) n [] [] tt = Ret (0, [192 + 233 / 64; 128 + 233 mod 64], [])) /\
  run (only_stdin (96 :: 233 :: [39])) 9 [] [] tt = Ret (0, [233], []).
Proof.
  split; [|vm_compute; reflexivity]. apply (m4_recodes_bytes (only_stdin [233]) 233 tt tt); [lia|reflexivity].
Defined.

Definition divert_chunks : list (Z * list Z) := [(2, str! "c"); (-1, str! "x"); (0, str! "a"); (1, str! "b"); (2, str! "d")].

Lemma divert_orders_witness :
  divert_text divert_chunks = str! "divert(`2')`c'divert(`-1')`x'divert(`0')`a'divert(`1')`b'divert(`2')`d'" /\
  concat (sent_to divert_chunks <$> [0; 1; 2; 3; 4; 5; 6; 7; 8; 9]) = str! "abcd" /\
  exists N, forall n, (N <= n)%nat ->
    run (only_stdin (divert_text divert_chunks)) n [] [] tt =
      Ret (0, concat (sent_to divert_chunks <$> [0; 1; 2; 3; 4; 5; 6; 7; 8; 9]), []).
Proof.
  split; [reflexivity|]. split; [reflexivity|].
  apply (divert_orders (only_stdin (divert_text divert_chunks)) divert_chunks tt tt); [|reflexivity].
  repeat constructor; done.
Defined.

(** A processor with [text] as input and [f] defined as [g($@)]. *)
Definition forwarding (text : list Z) : processor :=
  define (str! "f") (mkMacro (str! "g($@)") None) false (started text tt).

Lemma dollar_at_forwards_witness :
  exists p', steps (only_stdin []) (forwarding (str! "f(`a,b',  `(c')d")) p' /\ lookahead p' = str! "g(`a,b',`(c')d".
Proof.
  assert (Hc : callable (forwarding (str! "f(`a,b',  `(c')d")) (str! "f") (mkMacro (str! "g($@)") None)) by (split; vm_compute; reflexivity).
  destruct (dollar_at_forwards (only_stdin []) (str! "f") (str! "g") [([], str! "a,b"); ([32; 32], str! "(c")] (str! "d")
    (forwarding (str! "f(`a,b',  `(c')d"))) as (p' & S & L & _); [reflexivity|reflexivity|done|by repeat constructor|exact Hc|reflexivity|].
  exists p'. split; [exact S|]. rewrite L. reflexivity.
Defined.

Lemma process_invariant_witness :
  match process_loop (only_stdin []) 40 (started (str! "changequote([,])m4exit(3)") tt) with
  | Fatal p' => wf p' /\ exitCode p' = 3
  | _ => False
  end.
Proof.
  pose proof (process_invariant (only_stdin []) 40 (started (str! "changequote([,])m4exit(3)") tt)) as H.
  assert (wf (started (W := unit) (str! "changequote([,])m4exit(3)") tt)) as Hw.
  { destruct (newProcessor_wf (W := unit) [] [] tt). by split. }
  specialize (H Hw). revert H. clear Hw.
  assert (E : match process_loop (only_stdin []) 40 (started (str! "changequote([,])m4exit(3)") tt) with Fatal p' => exitCode p' | _ => 0 end = 3)
    by (vm_compute; reflexivity).
  destruct (process_loop _ _ _); done.
Defined.

Lemma pushdef_popdef_witness :
  let p := started (W := unit) [] tt in
  exists q, run_builtin (only_stdin []) b_pushdef [mkArg (str! "len") None true; mkArg (str! "x") None true] p = Done ([], None) q /\
    lookup q (str! "len") = Some (mkMacro (str! "x") None) /\
    run_builtin (only_stdin []) b_popdef [mkArg (str! "len") None true] q = Done ([], None) p.
Proof. intros p. apply (pushdef_popdef (only_stdin []) (str! "len") (str! "x") p); [done|]. apply (newProcessor_wf (W := unit) [] [] tt). Defined.

Lemma index_substr_witness :
  let p := started (W := unit) [] tt in
  exists i, run_builtin (only_stdin []) b_index [mkArg (str! "banana") None true; mkArg (str! "an") None true] p = Done (itoa i, None) p /\
    i = 1.
Proof.
  intros p. destruct (index_substr (only_stdin []) (str! "banana") (str! "an") p) as (i & E & H); [vm_compute; done|].
  exists i. split; [exact E|]. destruct H as [[_ H]|(H0 & H1 & H2)].
  - exfalso. apply (H (str! "b") (str! "ana")). reflexivity.
  - pose proof (H1 (str! "b") (str! "ana") eq_refl) as Hle. unfold len in Hle. cbn in Hle.
    destruct (decide (i = 0)) as [->|]; [|lia]. vm_compute in H2. done.
Defined.

Lemma translit_maps_witness :
  run_builtin (only_stdin []) b_translit [mkArg (str! "hello-x") None true; mkArg (str! "a-y-") None true; mkArg (str! "b-w") None true] (started (W := unit) [] tt) =
    Done (str! "ifmmp", None) (started [] tt).
Proof. rewrite (translit_maps (only_stdin []) (str! "hello-x") (str! "a-y-") (str! "b-w")); [reflexivity|]. repeat constructor; lia. Defined.

Lemma eval_prints_witness :
  exists s, run_builtin (only_stdin []) b_eval
      [mkArg (str! "2 + 300") None true; mkArg (str! "16") None true; mkArg (str! "5") None true] (started (W := unit) [] tt) =
      Done (s, None) (started [] tt) /\ numeral 16 s = 302 /\ 5 <= len s.
Proof.
  apply (eval_prints (only_stdin []) [32] (M4Correct.EBin M4Correct.Add (M4Correct.ENum 2) (M4Correct.ENum 300)) 16 5 (started [] tt)); [by repeat constructor|cbn; repeat split; lia|lia|lia].
Defined.

End M4Witness.
