(* ===== verification/BcNumber.v ===== *)
(** * The fixed-point decimals of bc (src/cmds/internal/bc/number.go)

    A [Number] is [n * 10^-scale]; the arithmetic keeps the scale explicit.
    The theorems relate every operation to the rational value of its
    operands (exactness, truncation toward zero, division with remainder,
    integer square root), and printing to parsing. *)

From Stdlib Require Import ZArith Lia String QArith Qabs Qfield Qpower.
From stdpp Require Import base tactics list numbers strings.
From S2P Require Import Prelude.

Open Scope Z_scope.

Module Bc.

Definition MaxBase : Z := 999.

Record Number := mkNumber { num : Z; scale : Z }.

Inductive bc_error :=
| InvalidBase | InvalidNumber | InvalidDigit | DivideByZero
| NonIntegerExponent | ExponentTooLarge | ScaleTooLarge | NegativeSqrt.

Definition Zero : Number := mkNumber 0 0.
Definition fromInt64 (v : Z) : Number := mkNumber v 0.

Definition pow10 (n : Z) : Z := if n <=? 0 then 1 else 10 ^ n.

(** The value of one (upper case) digit of the input. *)
Definition digit_value (r : Z) : option Z :=
  if (ch! "0" <=? r) && (r <=? ch! "9") then Some (r - ch! "0")
  else if (ch! "A" <=? r) && (r <=? ch! "F") then Some (r - ch! "A" + 10)
  else None.

Fixpoint parse_digits (base : Z) (l : list Z) (n : Z) : option Z :=
  match l with
  | [] => Some n
  | r :: l' =>
      match digit_value r with
      | None => None
      | Some d => parse_digits base l' (n * base + if base <=? d then base - 1 else d)
      end
  end.

Definition ParseNumber (s : list Z) (base : Z) : bc_error + Number :=
  if (base <? 2) || (16 <? base) then inl InvalidBase
  else
    let parts := split_byte (ch! ".") s in
    if (2 <? length parts)%nat then inl InvalidNumber
    else
      let digits0 := upper <$> nth 0 parts [] in
      let frac := upper <$> nth 1 parts [] in
      let digits := if (length digits0 =? 0)%nat then [ch! "0"] else digits0 in
      match parse_digits base (digits ++ frac) 0 with
      | None => inl InvalidDigit
      | Some n =>
          if base =? 10 then inr (mkNumber n (len frac))
          else if (length frac =? 0)%nat then inr (mkNumber n 0)
          else
            let den := base ^ len frac in
            let intPart := Z.quot n den in
            let fracPart := Z.rem n den in
            let scale := len frac in
            inr (mkNumber (intPart * pow10 scale + Z.quot (fracPart * pow10 scale) den) scale)
      end.

Definition Sign (x : Number) : Z := Z.sgn (num x).

(** [align]: the two integers at the larger of the two scales. *)
Definition align (a b : Number) : Z * Z * Z :=
  let s := if scale a <? scale b then scale b else scale a in
  let ax := if scale a <? s then num a * pow10 (s - scale a) else num a in
  let bx := if scale b <? s then num b * pow10 (s - scale b) else num b in
  (ax, bx, s).

Definition Add (x y : Number) : Number := let '(a, b, s) := align x y in mkNumber (a + b) s.
Definition Sub (x y : Number) : Number := let '(a, b, s) := align x y in mkNumber (a - b) s.
Definition Neg (x : Number) : Number := mkNumber (- num x) (scale x).
Definition Cmp (x y : Number) : comparison := let '(a, b, _) := align x y in Z.compare a b.

Definition Mul (x y : Number) (globalScale : Z) : Number :=
  let s := scale x + scale y in
  let min := if scale x <? scale y then scale y else scale x in
  let min := if min <? globalScale then globalScale else min in
  let n := num x * num y in
  if min <? s then mkNumber (Z.quot n (pow10 (s - min))) min else mkNumber n s.

Definition Div (x y : Number) (sc : Z) : bc_error + Number :=
  if Sign y =? 0 then inl DivideByZero
  else inr (mkNumber (Z.quot (num x * pow10 (sc + scale y)) (num y * pow10 (scale x))) sc).

Definition withScale (x : Number) (sc : Z) : Number :=
  if scale x <? sc then mkNumber (num x * pow10 (sc - scale x)) sc
  else if sc <? scale x then mkNumber (Z.quot (num x) (pow10 (scale x - sc))) sc
  else mkNumber (num x) sc.

Definition Mod (x y : Number) (sc : Z) : bc_error + Number :=
  match Div x y sc with
  | inl e => inl e
  | inr q =>
      let target := if scale x <? sc + scale y then sc + scale y else scale x in
      let product := mkNumber (num q * num y) (scale q + scale y) in
      let product := withScale product target in
      inr (withScale (Sub x product) target)
  end.

(** [Exp] of [math/big] with a nil modulus. *)
Definition big_exp (x y : Z) : Z := if y <=? 0 then 1 else x ^ y.

(** [Quo] of [math/big]. *)
Definition big_quo (x y : Z) : outcome Z := if y =? 0 then Panic else Ret (Z.quot x y).

Definition Pow (x y : Number) (globalScale : Z) : outcome (bc_error + Number) :=
  let den := pow10 (scale y) in
  let exponent := if scale y =? 0 then num y else Z.quot (num y) den in
  let rem := if scale y =? 0 then 0 else Z.rem (num y) den in
  if negb (rem =? 0) then Ret (inl NonIntegerExponent)
  else if negb ((- 2 ^ 63 <=? exponent) && (exponent <? 2 ^ 63)) then Ret (inl ExponentTooLarge)
  else
    let e := exponent in
    if e =? 0 then Ret (inr (fromInt64 1))
    else
      let neg := e <? 0 in
      let e := if neg then int64 (- e) else e in
      let n := big_exp (num x) e in
      if neg then
        let decimalPower := int64 (int64 (scale x * e) + globalScale) in
        if decimalPower <? 0 then Ret (inl ScaleTooLarge)
        else
          let! q := big_quo (pow10 decimalPower) n in
          Ret (inr (mkNumber q globalScale))
      else
        let s := int64 (scale x * e) in
        let maxs := if globalScale <? scale x then scale x else globalScale in
        if maxs <? s then Ret (inr (mkNumber (Z.quot n (pow10 (s - maxs))) maxs))
        else Ret (inr (mkNumber n s)).

Definition Sqrt (x : Number) (sc : Z) : bc_error + Number :=
  if Sign x <? 0 then inl NegativeSqrt
  else
    let target := if sc <? scale x then scale x else sc in
    let p := 2 * target - scale x in
    let n := if 0 <=? p then num x * pow10 p else Z.quot (num x) (pow10 (- p)) in
    inr (mkNumber (Z.sqrt n) target).

Definition Length (x : Number) : Z :=
  if (num x =? 0) && (0 <? scale x) then scale x else len (utoa (Z.abs (num x))).

(** ** Printing *)

Definition hexdigits : list Z := str! "0123456789ABCDEF".

(** [%0*d] with the width of [base - 1]. *)
Definition pad_digit (base d : Z) : list Z :=
  let w := length (itoa (base - 1)) in
  let t := utoa d in
  repeat (ch! "0") (w - length t) ++ t.

Definition formatDigit (base d : Z) : list Z :=
  if base <=? 16 then [nth (Z.to_nat d) hexdigits 0] else pad_digit base d.

(** The loop of the integer digits, least significant digit first. *)
Fixpoint lsd (fuel : nat) (base v : Z) : list Z :=
  match fuel with
  | O => []
  | S f => if v =? 0 then [] else Z.rem v base :: lsd f base (Z.quot v base)
  end.

Definition integer_digits (base whole : Z) : list Z :=
  rev (lsd (Z.to_nat (Z.log2 whole + 1)) base whole).

(** Smallest [d] such that [base^d >= bound], by repeated multiplication. *)
Fixpoint count_digits (fuel : nat) (base bound capacity : Z) (digits : nat) : nat :=
  match fuel with
  | O => digits
  | S f =>
      if capacity <? bound then count_digits f base bound (capacity * base) (S digits)
      else digits
  end.

Definition fraction_width (base sc : Z) : nat :=
  count_digits (Z.to_nat (Z.log2 (pow10 sc) + 1)) base (pow10 sc) 1 0.

Fixpoint fraction_digits (k : nat) (base den rem : Z) : list Z :=
  match k with
  | O => []
  | S k' =>
      Z.quot (rem * base) den :: fraction_digits k' base den (Z.rem (rem * base) den)
  end.

Definition string_decimal (x : Number) : list Z :=
  let neg := num x <? 0 in
  let a := utoa (Z.abs (num x)) in
  if scale x =? 0 then if neg then ch! "-" :: a else a
  else
    let a := if len a <=? scale x
             then repeat (ch! "0") (Z.to_nat (scale x - len a + 1)) ++ a else a in
    let i := len a - scale x in
    let '(a, i) :=
      if (i =? 1) && (nth 0 a 0 =? ch! "0") then (drop 1 a, 0) else (a, i) in
    let r := take (Z.to_nat i) a ++ [ch! "."] ++ drop (Z.to_nat i) a in
    if neg then ch! "-" :: r else r.

Definition string_other (x : Number) (base : Z) : list Z :=
  let neg := num x <? 0 in
  let n := Z.abs (num x) in
  let den := pow10 (scale x) in
  let whole := Z.quot n den in
  let rem := Z.rem n den in
  let sep := if 16 <? base then [ch! " "] else [] in
  let result := join sep (formatDigit base <$> integer_digits base whole) in
  let result :=
    if (16 <? base) && negb (length result =? 0)%nat then ch! " " :: result else result in
  let result :=
    if 0 <? scale x then
      result ++ [ch! "."] ++
      join sep (formatDigit base <$> fraction_digits (fraction_width base (scale x)) base den rem)
    else result in
  if neg then ch! "-" :: result else result.

Definition StringBase (x : Number) (base : Z) : list Z :=
  let base := if (base <? 2) || (MaxBase <? base) then 10 else base in
  if num x =? 0 then [ch! "0"]
  else if base =? 10 then string_decimal x
  else string_other x base.

Definition dataPerContinuedLine : nat := 68.

Fixpoint wrap_lines (fuel : nat) (s : list Z) : list Z :=
  match fuel with
  | O => s
  | S f =>
      if (dataPerContinuedLine <? length s)%nat
      then take dataPerContinuedLine s ++ [ch! "\"; 10] ++
           wrap_lines f (drop dataPerContinuedLine s)
      else s
  end.

Definition wrappedStringBase (x : Number) (base : Z) : list Z :=
  let s := StringBase x base in
  if (length s <=? dataPerContinuedLine)%nat then s else wrap_lines (length s) s.

(** ** The value of a number *)

Definition wf (x : Number) : Prop := 0 <= scale x.

(** [frac n s] is [n * 10^-s]. *)
Definition frac (n s : Z) : Q := Qmake n (Z.to_pos (10 ^ s)).

Definition value (x : Number) : Q := frac (num x) (scale x).

(** One unit in the last of [s] decimal places. *)
Definition ulp (s : Z) : Q := frac 1 s.

Lemma pow10_pow n : 0 <= n -> pow10 n = 10 ^ n.
Proof.
  intros H. unfold pow10. destruct (Z.leb_spec n 0); [|done].
  by replace n with 0 by lia.
Qed.

Lemma ten_pos s : 0 <= s -> 0 < 10 ^ s.
Proof. intros. apply Z.pow_pos_nonneg; lia. Qed.

Lemma den_frac n s : 0 <= s -> Z.pos (Qden (frac n s)) = 10 ^ s.
Proof. intros. apply Z2Pos.id, ten_pos. done. Qed.

(** Rational goals about [frac] as integer goals. *)
Ltac unfrac :=
  unfold Qminus, Qplus, Qmult, Qopp, Qeq, Qle, Qlt, frac;
  cbn [Qnum Qden]; rewrite ?Pos2Z.inj_mul, ?Z2Pos.id by (apply ten_pos; lia).

Lemma frac_scale n s k : 0 <= s -> 0 <= k -> frac (n * 10 ^ k) (s + k) == frac n s.
Proof. intros. unfrac. rewrite Z.pow_add_r by lia. ring. Qed.

Lemma frac_plus a b s : 0 <= s -> frac (a + b) s == frac a s + frac b s.
Proof. intros. unfrac. ring. Qed.

Lemma frac_minus a b s : 0 <= s -> frac (a - b) s == frac a s - frac b s.
Proof. intros. unfrac. ring. Qed.

Lemma frac_mult a b s r : 0 <= s -> 0 <= r -> frac (a * b) (s + r) == frac a s * frac b r.
Proof. intros. unfrac. rewrite Z.pow_add_r by lia. ring. Qed.

Lemma frac_abs a s : Qabs (frac a s) = frac (Z.abs a) s.
Proof. done. Qed.

Lemma frac_compare a b s : 0 <= s -> (frac a s ?= frac b s)%Q = (a ?= b).
Proof.
  intros. unfold Qcompare. rewrite !den_frac by done. cbn [Qnum frac].
  pose proof (ten_pos s). symmetry. apply Zmult_compare_compat_r. lia.
Qed.

Lemma frac_le a b s : 0 <= s -> a <= b -> (frac a s <= frac b s)%Q.
Proof. intros Hs H. unfrac. pose proof (ten_pos s Hs). nia. Qed.

Lemma frac_lt a b s : 0 <= s -> a < b -> (frac a s < frac b s)%Q.
Proof. intros Hs H. unfrac. pose proof (ten_pos s Hs). nia. Qed.

(** [align] changes neither value. *)
Lemma align_spec x y a b s :
  wf x -> wf y -> align x y = (a, b, s) ->
  s = Z.max (scale x) (scale y) /\ frac a s == value x /\ frac b s == value y.
Proof.
  unfold wf, align, value. intros Hx Hy [= <- <- <-].
  destruct (Z.ltb_spec (scale x) (scale y)).
  - rewrite (proj2 (Z.ltb_lt _ _)), Z.ltb_irrefl by done.
    split_and!; [lia| |reflexivity]. rewrite pow10_pow by lia.
    rewrite <- (frac_scale (num x) (scale x) (scale y - scale x)) by lia.
    by replace (scale x + (scale y - scale x)) with (scale y) by lia.
  - rewrite Z.ltb_irrefl. split_and!; [lia|reflexivity|].
    destruct (Z.ltb_spec (scale y) (scale x)).
    + rewrite pow10_pow by lia.
      rewrite <- (frac_scale (num y) (scale y) (scale x - scale y)) by lia.
      by replace (scale y + (scale x - scale y)) with (scale x) by lia.
    + by replace (scale x) with (scale y) by lia.
Qed.

(** Truncation to [s] places drops less than one unit and never grows. *)
Lemma frac_quot n s k :
  0 <= s -> 0 <= k ->
  (Qabs (frac n (s + k) - frac (Z.quot n (10 ^ k)) s) < ulp s)%Q /\
  (Qabs (frac (Z.quot n (10 ^ k)) s) <= Qabs (frac n (s + k)))%Q.
Proof.
  intros Hs Hk. pose proof (ten_pos k Hk) as Hp.
  rewrite <- (frac_scale (Z.quot n (10 ^ k)) s k) by done.
  unfold ulp. rewrite <- (frac_scale 1 s k) by done.
  rewrite <- frac_minus, !frac_abs by lia.
  pose proof (Z.quot_rem' n (10 ^ k)) as E.
  pose proof (Z.rem_bound_abs n (10 ^ k) ltac:(lia)) as B.
  pose proof (rem_sign n (10 ^ k) ltac:(lia)) as Sg.
  pose proof (rem_abs_le n (10 ^ k)) as Le.
  set (q := Z.quot n _) in *. set (r := Z.rem n _) in *.
  clearbody q r. split; [apply frac_lt; lia|]. apply frac_le; [lia|].
  replace (q * 10 ^ k) with (n - r) by lia.
  destruct (Z.le_gt_cases 0 (n * r)); [|lia].
  assert (n = 0 \/ 0 < n /\ 0 <= r \/ n < 0 /\ r <= 0) by nia. lia.
Qed.

(** ** Arithmetic *)

(** Addition, subtraction and comparison are exact: the results have the
    values of the rational operations and the larger of the two scales. *)
Theorem Add_Sub_Cmp_exact (x y : Number) :
  wf x -> wf y ->
  value (Add x y) == value x + value y /\
  value (Sub x y) == value x - value y /\
  Cmp x y = (value x ?= value y)%Q /\
  scale (Add x y) = Z.max (scale x) (scale y) /\
  scale (Sub x y) = Z.max (scale x) (scale y).
Proof.
  intros Hx Hy. unfold Add, Sub, Cmp. destruct (align x y) as [[a b] s] eqn:E.
  apply align_spec in E as (-> & Ha & Hb); [|done..].
  assert (0 <= Z.max (scale x) (scale y)) by (unfold wf in *; lia).
  split_and!; try done.
  - unfold value at 1; cbn. by rewrite frac_plus, Ha, Hb.
  - unfold value at 1; cbn. by rewrite frac_minus, Ha, Hb.
  - by rewrite <- Ha, <- Hb, frac_compare.
Qed.

Lemma Add_Sub_Cmp_exact_witness :
  wf (mkNumber 125 2) /\ wf (mkNumber (-7) 0) /\
  Add (mkNumber 125 2) (mkNumber (-7) 0) = mkNumber (-575) 2 /\
  value (mkNumber (-575) 2) == value (mkNumber 125 2) + value (mkNumber (-7) 0).
Proof.
  assert (wf (mkNumber 125 2)) as Hx by (unfold wf; cbn; lia).
  assert (wf (mkNumber (-7) 0)) as Hy by (unfold wf; cbn; lia).
  split_and!; [done|done|reflexivity|].
  exact (proj1 (Add_Sub_Cmp_exact (mkNumber 125 2) (mkNumber (-7) 0) Hx Hy)).
Defined.

(** A product is the exact product truncated toward zero to its scale,
    which is the smaller of the sum of the operand scales and the largest of
    [scale] and the operand scales. *)
Theorem Mul_truncates (x y : Number) (sc : Z) :
  wf x -> wf y -> 0 <= sc ->
  let z := Mul x y sc in
  scale z = Z.min (scale x + scale y) (Z.max sc (Z.max (scale x) (scale y))) /\
  (Qabs (value x * value y - value z) < ulp (scale z))%Q /\
  (Qabs (value z) <= Qabs (value x * value y))%Q.
Proof.
  unfold wf. intros Hx Hy Hs. unfold Mul, value.
  set (m := if _ <? sc then _ else _).
  assert (m = Z.max sc (Z.max (scale x) (scale y))) as Hm.
  { subst m. repeat case_match; to_prop; lia. }
  clearbody m. rewrite <- frac_mult by done.
  destruct (Z.ltb_spec m (scale x + scale y)); cbn [num scale].
  - split; [lia|]. rewrite pow10_pow by lia.
    pose proof (frac_quot (num x * num y) m (scale x + scale y - m)) as Hq.
    replace (m + (scale x + scale y - m)) with (scale x + scale y) in Hq by lia.
    apply Hq; lia.
  - split; [lia|]. split; [|apply Qle_refl]. rewrite <- frac_minus by lia.
    rewrite Z.sub_diag. apply frac_lt; lia.
Qed.

Lemma Mul_truncates_witness :
  Mul (mkNumber (-15) 1) (mkNumber 333 2) 0 = mkNumber (-499) 2 /\
  (Qabs (value (mkNumber (-15) 1) * value (mkNumber 333 2) - value (mkNumber (-499) 2)) < ulp 2)%Q.
Proof.
  split; [reflexivity|].
  refine (proj1 (proj2 (Mul_truncates (mkNumber (-15) 1) (mkNumber 333 2) 0 _ _ _)));
    unfold wf; cbn; lia.
Defined.

Lemma Div_inv x y sc q :
  Div x y sc = inr q ->
  num y <> 0 /\ q = mkNumber (Z.quot (num x * pow10 (sc + scale y)) (num y * pow10 (scale x))) sc.
Proof.
  unfold Div, Sign. destruct (Z.eqb_spec (Z.sgn (num y)) 0); [done|].
  intros [= <-]. split; [|done]. by intros E%Z.sgn_null_iff.
Qed.

(** The remainder [Mod] computes, over a common denominator. *)
Lemma Mod_inv x y sc q r :
  wf x -> wf y -> 0 <= sc -> Div x y sc = inr q -> Mod x y sc = inr r ->
  let a := num x * 10 ^ (sc + scale y) in
  let b := num y * 10 ^ scale x in
  num y <> 0 /\ q = mkNumber (Z.quot a b) sc /\
  value r == frac (Z.rem a b) (scale x + sc + scale y) /\
  scale r = Z.max (scale x) (sc + scale y).
Proof.
  intros Hx Hy Hs HD HM a b. unfold Mod in HM. rewrite HD in HM. injection HM as <-.
  apply Div_inv in HD as [Hy0 ->]. unfold wf in *. rewrite !pow10_pow by lia. cbn [num scale].
  fold a b. split_and!; [done..| |].
  - set (T := if scale x <? sc + scale y then sc + scale y else scale x).
    assert (T = Z.max (scale x) (sc + scale y)) as HT.
    { subst T. destruct (Z.ltb_spec (scale x) (sc + scale y)); lia. }
    assert (withScale (mkNumber (Z.quot a b * num y) (sc + scale y)) T =
            mkNumber (Z.quot a b * num y * 10 ^ (T - (sc + scale y))) T) as ->.
    { unfold withScale; cbn [num scale]. destruct (Z.ltb_spec (sc + scale y) T).
      - by rewrite pow10_pow by lia.
      - destruct (Z.ltb_spec T (sc + scale y)); [lia|].
        replace (T - (sc + scale y)) with 0 by lia. by rewrite Z.mul_1_r. }
    assert (Sub x (mkNumber (Z.quot a b * num y * 10 ^ (T - (sc + scale y))) T) =
            mkNumber (num x * 10 ^ (T - scale x) - Z.quot a b * num y * 10 ^ (T - (sc + scale y))) T)
      as ->.
    { unfold Sub, align; cbn [num scale]. destruct (Z.ltb_spec (scale x) T).
      - rewrite (proj2 (Z.ltb_lt _ _)), Z.ltb_irrefl by done. by rewrite pow10_pow by lia.
      - replace T with (scale x) by lia. rewrite !Z.ltb_irrefl, Z.sub_diag. by rewrite Z.mul_1_r. }
    unfold withScale; cbn [num scale]. rewrite Z.ltb_irrefl. unfold value; cbn [num scale].
    assert (Z.rem a b = a - b * Z.quot a b) as -> by (pose proof (Z.quot_rem' a b); lia).
    unfrac. subst a b.
    replace (10 ^ (scale x + sc + scale y)) with (10 ^ scale x * 10 ^ (sc + scale y))
      by (rewrite <- Z.pow_add_r by lia; f_equal; lia).
    assert (10 ^ T = 10 ^ (T - scale x) * 10 ^ scale x) as E1
      by (rewrite <- Z.pow_add_r by lia; f_equal; lia).
    assert (10 ^ T = 10 ^ (T - (sc + scale y)) * 10 ^ (sc + scale y)) as E2
      by (rewrite <- Z.pow_add_r by lia; f_equal; lia).
    set (q := Z.quot _ _). clearbody q.
    transitivity (num x * 10 ^ (sc + scale y) * (10 ^ (T - scale x) * 10 ^ scale x)
      - q * num y * 10 ^ scale x * (10 ^ (T - (sc + scale y)) * 10 ^ (sc + scale y))); [ring|].
    rewrite <- E1, <- E2. ring.
  - unfold withScale. repeat case_match; cbn; to_prop; lia.
Qed.

(** [C22] Division and remainder: [Div] and [Mod] fail on the same divisor,
    zero, and otherwise [x = q*y + r] holds exactly, the remainder is smaller
    than one unit of the quotient times the divisor, and it has the sign of
    the dividend. *)
Theorem Div_Mod_spec (x y : Number) (sc : Z) :
  wf x -> wf y -> 0 <= sc ->
  (num y = 0 /\ Div x y sc = inl DivideByZero /\ Mod x y sc = inl DivideByZero) \/
  (exists q r, Div x y sc = inr q /\ Mod x y sc = inr r /\
     scale q = sc /\ scale r = Z.max (scale x) (sc + scale y) /\
     value x == value q * value y + value r /\
     (Qabs (value r) < Qabs (value y) * ulp sc)%Q /\
     (0 <= value x * value r)%Q).
Proof.
  intros Hx Hy Hs. destruct (Div x y sc) as [e|q] eqn:HD.
  { assert (num y = 0 /\ e = DivideByZero) as [E ->].
    { revert HD. unfold Div, Sign.
      destruct (Z.eqb_spec (Z.sgn (num y)) 0) as [E|]; [|done].
      intros [= <-]. split; [lia|done]. }
    left. split_and!; [done..|]. unfold Mod. by rewrite HD. }
  right. assert (exists r, Mod x y sc = inr r) as [r HM] by (unfold Mod; rewrite HD; eauto).
  exists q, r. destruct (Mod_inv x y sc q r Hx Hy Hs HD HM) as (Hy0 & -> & Hr & Hsr).
  unfold wf in *. set (a := num x * _) in *. set (b := num y * _) in *.
  assert (b <> 0) as Hb.
  { subst b. pose proof (ten_pos (scale x) Hx). nia. }
  assert (value x == frac a (scale x + sc + scale y)) as Hvx.
  { unfold value, a. rewrite <- (frac_scale (num x) (scale x) (sc + scale y)) by lia.
    by rewrite Z.add_assoc. }
  assert (frac (Z.quot a b) sc * value y == frac (Z.quot a b * b) (scale x + sc + scale y)) as Hvq.
  { generalize (Z.quot a b). intros q. unfold value, b. rewrite <- frac_mult by lia.
    rewrite <- (frac_scale (q * num y) (sc + scale y) (scale x)) by lia.
    replace (scale x + sc + scale y) with (sc + scale y + scale x) by lia.
    by rewrite Z.mul_assoc. }
  split_and!; try done.
  - unfold value at 2; cbn [num scale]. rewrite Hvq, Hvx, Hr, <- frac_plus by lia.
    by rewrite (Z.quot_rem' a b) at 1; rewrite (Z.mul_comm b).
  - rewrite Hr, frac_abs. unfold value, ulp. rewrite frac_abs, <- frac_mult, Z.mul_1_r by lia.
    rewrite <- (frac_scale (Z.abs (num y)) (scale y + sc) (scale x)) by lia.
    replace (scale y + sc + scale x) with (scale x + sc + scale y) by lia.
    apply frac_lt; [lia|]. pose proof (Z.rem_bound_abs a b Hb) as B.
    rewrite <- (Z.abs_eq (10 ^ scale x)), <- Z.abs_mul by lia. exact B.
  - rewrite Hvx, Hr, <- frac_mult by lia.
    pose proof (rem_sign a b Hb) as Sg.
    pose proof (frac_le 0 (a * Z.rem a b) (scale x + sc + scale y + (scale x + sc + scale y))) as Hle.
    assert (frac 0 (scale x + sc + scale y + (scale x + sc + scale y)) == 0) as E0 by (unfrac; ring).
    rewrite <- E0. apply Hle; lia.
Qed.

Lemma Div_Mod_spec_witness :
  let x := mkNumber (-7) 0 in let y := mkNumber 15 1 in
  Div x y 2 = inr (mkNumber (-466) 2) /\ Mod x y 2 = inr (mkNumber (-10) 3) /\
  ((num y = 0 /\ Div x y 2 = inl DivideByZero /\ Mod x y 2 = inl DivideByZero) \/
   (exists q r, Div x y 2 = inr q /\ Mod x y 2 = inr r /\
     scale q = 2 /\ scale r = Z.max (scale x) (2 + scale y) /\
     value x == value q * value y + value r /\
     (Qabs (value r) < Qabs (value y) * ulp 2)%Q /\
     (0 <= value x * value r)%Q)).
Proof.
  split_and!; [reflexivity|reflexivity|].
  apply (Div_Mod_spec (mkNumber (-7) 0) (mkNumber 15 1) 2); unfold wf; cbn; lia.
Defined.

(** The square root is the largest number of its scale (the larger of
    [scale] and the operand's) whose square does not exceed the operand. *)
Theorem Sqrt_spec (x : Number) (sc : Z) :
  wf x -> 0 <= sc ->
  (num x < 0 /\ Sqrt x sc = inl NegativeSqrt) \/
  (exists r, Sqrt x sc = inr r /\ scale r = Z.max sc (scale x) /\ (0 <= value r)%Q /\
     (value r * value r <= value x)%Q /\
     (value x < (value r + ulp (scale r)) * (value r + ulp (scale r)))%Q).
Proof.
  unfold wf. intros Hx Hs. unfold Sqrt, Sign.
  destruct (Z.ltb_spec (Z.sgn (num x)) 0); [left; split; [lia|done]|right].
  eexists; split; [done|]. cbn [num scale].
  set (T := if sc <? scale x then _ else _).
  assert (T = Z.max sc (scale x)) as HT by (subst T; case_match; to_prop; lia).
  clearbody T. rewrite (proj2 (Z.leb_le _ _)), pow10_pow by lia.
  set (n := num x * 10 ^ (2 * T - scale x)).
  assert (0 <= n) as Hn by (subst n; pose proof (ten_pos (2 * T - scale x)); nia).
  pose proof (Z.sqrt_spec n Hn) as [Lo Hi]. pose proof (Z.sqrt_nonneg n).
  assert (value x == frac n (T + T)) as Hv.
  { unfold value, n. rewrite <- (frac_scale (num x) (scale x) (2 * T - scale x)) by lia.
    by replace (scale x + (2 * T - scale x)) with (T + T) by lia. }
  unfold value at 1 2 3 6 7, ulp. cbn [num scale]. split_and!; [done|..].
  - assert (frac 0 T == 0) as <- by (unfrac; ring). apply frac_le; lia.
  - rewrite <- frac_mult, Hv by lia. apply frac_le; lia.
  - rewrite <- frac_plus, <- frac_mult, Hv by lia. apply frac_lt; lia.
Qed.

Lemma Sqrt_spec_witness :
  let x := mkNumber 2 0 in
  Sqrt x 3 = inr (mkNumber 1414 3) /\
  ((num x < 0 /\ Sqrt x 3 = inl NegativeSqrt) \/
   (exists r, Sqrt x 3 = inr r /\ scale r = Z.max 3 (scale x) /\ (0 <= value r)%Q /\
     (value r * value r <= value x)%Q /\
     (value x < (value r + ulp (scale r)) * (value r + ulp (scale r)))%Q)).
Proof.
  split; [vm_compute; reflexivity|]. apply (Sqrt_spec (mkNumber 2 0) 3); unfold wf; cbn; lia.
Defined.

(** ** Powers *)

Lemma frac_pow n s e : 0 <= s -> 0 <= e -> frac (n ^ e) (s * e) == frac n s ^ e.
Proof.
  intros Hs. revert e. apply natlike_ind.
  - rewrite Z.mul_0_r. reflexivity.
  - intros e He IH. rewrite Z.pow_succ_r, Z.mul_succ_r, (Z.mul_comm n) by done.
    rewrite frac_mult, IH, <- Z.add_1_r, Qpower_plus' by lia.
    by rewrite Qpower_1_r.
Qed.

(** A positive integer power is the exact power truncated toward zero, as
    long as the scale of the exact power fits an [int]. *)
Theorem Pow_truncates (x y : Number) (g e : Z) :
  wf x -> wf y -> 0 <= g -> 0 < e < 2 ^ 63 -> num y = e * 10 ^ scale y ->
  scale x * e < 2 ^ 63 ->
  exists z, Pow x y g = Ret (inr z) /\
    scale z = Z.min (scale x * e) (Z.max g (scale x)) /\
    (Qabs (value x ^ e - value z) < ulp (scale z))%Q /\
    (Qabs (value z) <= Qabs (value x ^ e))%Q.
Proof.
  unfold wf. intros Hx Hy Hg He Ey Hov. unfold Pow.
  assert ((if scale y =? 0 then num y else Z.quot (num y) (pow10 (scale y))) = e) as ->.
  { rewrite Ey, pow10_pow by done. destruct (Z.eqb_spec (scale y) 0) as [->|].
    - apply Z.mul_1_r.
    - apply Z.quot_mul. pose proof (ten_pos (scale y)); lia. }
  assert ((if scale y =? 0 then 0 else Z.rem (num y) (pow10 (scale y))) = 0) as ->.
  { rewrite Ey, pow10_pow by done. case_match; [done|]. apply Z.rem_mul.
    pose proof (ten_pos (scale y)); lia. }
  cbn zeta. rewrite Z.eqb_refl. cbn [negb].
  rewrite (proj2 (Z.leb_le _ _)), (proj2 (Z.ltb_lt e _)) by lia. cbn [negb andb].
  rewrite (proj2 (Z.eqb_neq e 0)), (proj2 (Z.ltb_ge e 0)) by lia.
  rewrite (wraps_id 64) by (unfold in_sint; change (64 - 1) with 63; nia || lia).
  unfold big_exp. rewrite (proj2 (Z.leb_gt e 0)) by lia.
  set (m := if g <? scale x then _ else _).
  assert (m = Z.max g (scale x)) as Hm by (subst m; case_match; to_prop; lia). clearbody m.
  assert (0 <= scale x * e) by nia.
  assert (value x ^ e == frac (num x ^ e) (scale x * e)) as Hv by (by rewrite frac_pow by lia).
  destruct (Z.ltb_spec m (scale x * e)); eexists; split; [done| |done|]; unfold value at 2 3;
    cbn [num scale]; (split; [lia|]); rewrite !Hv.
  - pose proof (frac_quot (num x ^ e) m (scale x * e - m)) as Hq.
    replace (m + (scale x * e - m)) with (scale x * e) in Hq by lia.
    rewrite pow10_pow by lia. apply Hq; lia.
  - split; [|apply Qle_refl]. rewrite <- frac_minus, Z.sub_diag by lia. apply frac_lt; lia.
Qed.

Lemma Pow_truncates_witness :
  exists z, Pow (mkNumber 15 1) (mkNumber 30 1) 2 = Ret (inr z) /\
    scale z = Z.min (1 * 3) (Z.max 2 1) /\
    (Qabs (value (mkNumber 15 1) ^ 3 - value z) < ulp (scale z))%Q /\
    (Qabs (value z) <= Qabs (value (mkNumber 15 1) ^ 3))%Q.
Proof. apply (Pow_truncates (mkNumber 15 1) (mkNumber 30 1) 2 3); unfold wf; cbn; lia. Defined.

(** A negative power of zero is not an error value: the division by
    [0^k] panics. *)
Theorem Pow_zero_negative_panics (s k g : Z) :
  0 <= s -> 0 < k < 2 ^ 63 -> 0 <= g -> s * k + g < 2 ^ 63 ->
  Pow (mkNumber 0 s) (fromInt64 (- k)) g = Panic.
Proof.
  intros Hs Hk Hg Hov. unfold Pow. cbn [num scale fromInt64]. rewrite !Z.eqb_refl. cbn [negb].
  rewrite (proj2 (Z.leb_le (- 2 ^ 63) (- k))), (proj2 (Z.ltb_lt (- k) (2 ^ 63))) by lia.
  cbn [negb andb].
  rewrite (proj2 (Z.eqb_neq (- k) 0)), (proj2 (Z.ltb_lt (- k) 0)) by lia.
  assert (0 <= s * k) by nia.
  assert (forall z, 0 <= z < 2 ^ 63 -> wraps 64 z = z) as Hw.
  { intros z Hz. apply wraps_id; [lia|]. unfold in_sint. change (64 - 1) with 63. lia. }
  rewrite Z.opp_involutive, (Hw k), (Hw (s * k)), (Hw (s * k + g)) by lia.
  rewrite (proj2 (Z.ltb_ge (s * k + g) 0)) by lia.
  unfold big_exp. rewrite (proj2 (Z.leb_gt k 0)), Z.pow_0_l by lia. done.
Qed.

Lemma Pow_zero_negative_panics_witness : Pow Zero (fromInt64 (-1)) 0 = Panic.
Proof. apply (Pow_zero_negative_panics 0 1 0); lia. Defined.

(** ** Printing and parsing *)

Definition hexchar (d : Z) : Z := nth (Z.to_nat d) hexdigits 0.

#[local] Arguments hexchar : simpl never.
#[local] Arguments digit_value : simpl never.

Definition is_digits (base : Z) (ds : list Z) : Prop := Forall (fun d => 0 <= d < base) ds.

Ltac digit_cases d :=
  let H := fresh in
  assert (d = 0 \/ d = 1 \/ d = 2 \/ d = 3 \/ d = 4 \/ d = 5 \/ d = 6 \/ d = 7 \/
          d = 8 \/ d = 9 \/ d = 10 \/ d = 11 \/ d = 12 \/ d = 13 \/ d = 14 \/ d = 15)
    as H by lia;
  repeat (destruct H as [->|H]; [try done|]); [..|subst; try done].

Lemma hexchar_digit d : 0 <= d < 16 ->
  digit_value (hexchar d) = Some d /\ upper (hexchar d) = hexchar d /\
  hexchar d <> ch! "." /\ hexchar d <> 92 /\ hexchar d <> 10.
Proof. intros Hd. digit_cases d. Qed.

Lemma hexchar_decimal ds : is_digits 10 ds -> (fun d => d + ch! "0") <$> ds = hexchar <$> ds.
Proof.
  induction 1 as [|d ds Hd _ IH]; [done|]. cbn. rewrite IH. f_equal. digit_cases d; lia.
Qed.

Lemma parse_digits_hex base ds v :
  base <= 16 -> is_digits base ds ->
  parse_digits base (hexchar <$> ds) v = Some (undigits_from base v ds).
Proof.
  intros Hb H. revert v. induction H as [|d ds Hd _ IH]; intros v; [done|].
  cbn. destruct (hexchar_digit d) as [-> _]; [lia|].
  destruct (Z.leb_spec base d); [lia|]. apply IH.
Qed.

Lemma hexchar_no_dot ds : is_digits 16 ds -> ch! "." ∉ (hexchar <$> ds).
Proof.
  intros H [d [E Hd]]%list_elem_of_fmap.
  eapply (proj1 (Forall_forall _ _)) in H; [|done].
  by apply hexchar_digit in H as (_ & _ & ? & _).
Qed.

Lemma hexchar_upper ds : is_digits 16 ds -> upper <$> (hexchar <$> ds) = hexchar <$> ds.
Proof.
  induction 1 as [|d ds Hd _ IH]; [done|]. cbn. rewrite IH.
  by destruct (hexchar_digit d Hd) as (_ & -> & _).
Qed.

Lemma is_digits_16 base ds : base <= 16 -> is_digits base ds -> is_digits 16 ds.
Proof. intros Hb H. eapply Forall_impl; [exact H|]. cbn. lia. Qed.

(** An integer without a point. *)
Lemma ParseNumber_integer base ds :
  2 <= base <= 16 -> is_digits base ds -> ds <> [] ->
  ParseNumber (hexchar <$> ds) base = inr (mkNumber (undigits base ds) 0).
Proof.
  intros Hb Hds Hne. unfold ParseNumber.
  pose proof (is_digits_16 base ds ltac:(lia) Hds) as H16.
  rewrite (proj2 (orb_false_iff _ _)) by lia. cbn zeta.
  rewrite split_byte_none by (by apply hexchar_no_dot). cbn [length nth Nat.ltb Nat.leb].
  rewrite hexchar_upper, length_fmap by done.
  rewrite (proj2 (Nat.eqb_neq _ _)) by (by destruct ds).
  cbn [fmap list_fmap]. rewrite app_nil_r, parse_digits_hex by (done || lia).
  by destruct (base =? 10).
Qed.

(** A decimal with a point, the integer part possibly empty. *)
Lemma ParseNumber_decimal ds fs :
  is_digits 10 ds -> is_digits 10 fs ->
  ParseNumber ((hexchar <$> ds) ++ ch! "." :: (hexchar <$> fs)) 10 =
  inr (mkNumber (undigits 10 (ds ++ fs)) (len fs)).
Proof.
  intros Hd Hf.
  pose proof (is_digits_16 10 ds ltac:(lia) Hd) as Hd16.
  pose proof (is_digits_16 10 fs ltac:(lia) Hf) as Hf16.
  unfold ParseNumber. cbn [Z.ltb Z.compare orb Pos.compare Pos.compare_cont].
  rewrite split_byte_app, split_byte_none by (by apply hexchar_no_dot).
  cbn [length nth Nat.ltb Nat.leb]. rewrite !hexchar_upper by done.
  set (ds' := if (length (hexchar <$> ds) =? 0)%nat then [0] else ds).
  assert ((if (length (hexchar <$> ds) =? 0)%nat then [ch! "0"] else hexchar <$> ds) =
          hexchar <$> ds') as -> by (subst ds'; by destruct (_ =? 0)%nat).
  assert (is_digits 10 ds' /\ undigits 10 (ds' ++ fs) = undigits 10 (ds ++ fs)) as [Hd' E].
  { subst ds'. rewrite length_fmap. destruct ds as [|d ds]; [|done].
    cbn [length Nat.eqb]. split; [repeat constructor; lia|done]. }
  rewrite <- fmap_app, parse_digits_hex by (try lia; by apply Forall_app).
  cbn [Z.eqb Pos.eqb]. rewrite <- E. unfold len. by rewrite length_fmap.
Qed.

Lemma undigits_repeat_zero k ds : undigits 10 (repeat 0 k ++ ds) = undigits 10 ds.
Proof.
  induction k as [|k IH]; [done|]. cbn [repeat app]. rewrite undigits_cons, IH. lia.
Qed.

Lemma is_digits_zeros k : is_digits 10 (repeat 0 k).
Proof. induction k; constructor; [lia|done]. Qed.

Lemma repeat_fmap_zero k : repeat (ch! "0") k = hexchar <$> repeat 0 k.
Proof. induction k as [|k IH]; [done|]. cbn. by rewrite IH. Qed.

(** Decimal round trip: a positive number prints to text that parses
    back, in base 10, to the same integer and the same scale. *)
Theorem StringBase_ParseNumber_decimal (x : Number) :
  wf x -> 0 < num x -> ParseNumber (StringBase x 10) 10 = inr x.
Proof.
  intros Hx Hn. unfold StringBase. cbn [Z.ltb Z.compare orb Pos.compare Pos.compare_cont MaxBase].
  rewrite (proj2 (Z.eqb_neq _ _)) by lia. cbn [Z.eqb Pos.eqb]. unfold string_decimal.
  rewrite (proj2 (Z.ltb_ge _ _)), Z.abs_eq by lia.
  destruct (digits_spec 10 (num x)) as (Hu & Hf & _ & Hne); [lia..|].
  destruct Hne as [_ Hne]; [lia|].
  assert (utoa (num x) = hexchar <$> digits 10 (num x)) as ->.
  { unfold utoa. rewrite (proj2 (Z.eqb_neq _ _)) by lia. by apply hexchar_decimal. }
  set (ds := digits 10 (num x)) in *. clearbody ds. destruct x as [n s]. cbn [num scale] in *.
  unfold wf in Hx; cbn in Hx.
  destruct (Z.eqb_spec s 0) as [->|Hs].
  { by rewrite ParseNumber_integer, Hu by (done || lia). }
  set (k := if len (hexchar <$> ds) <=? s
            then Z.to_nat (s - len (hexchar <$> ds) + 1) else 0%nat).
  assert ((if len (hexchar <$> ds) <=? s
           then repeat (ch! "0") (Z.to_nat (s - len (hexchar <$> ds) + 1)) ++ (hexchar <$> ds)
           else hexchar <$> ds) = hexchar <$> (repeat 0 k ++ ds)) as ->.
  { subst k. rewrite fmap_app, <- repeat_fmap_zero. by destruct (_ <=? s). }
  assert (s < len (repeat 0 k ++ ds)) as Hlen.
  { subst k. unfold len in *. rewrite length_app, repeat_length, length_fmap.
    destruct (Z.leb_spec (Z.of_nat (length ds)) s); lia. }
  assert (undigits 10 (repeat 0 k ++ ds) = n) as HuD by (by rewrite undigits_repeat_zero).
  assert (is_digits 10 (repeat 0 k ++ ds)) as HfD
    by (apply Forall_app; split; [apply is_digits_zeros|done]).
  set (D := repeat 0 k ++ ds) in *. clearbody D. clear k Hu Hf Hne ds.
  replace (len (hexchar <$> D)) with (len D) by (unfold len; by rewrite length_fmap).
  assert (forall D' i, undigits 10 D' = n -> is_digits 10 D' -> len D' = s + i -> 0 <= i ->
    ParseNumber (take (Z.to_nat i) (hexchar <$> D') ++ [ch! "."] ++
                 drop (Z.to_nat i) (hexchar <$> D')) 10 = inr (mkNumber n s)) as Hcut.
  { intros D' i Hu Hd Hl Hi. rewrite <- fmap_take, <- fmap_drop. cbn [app].
    rewrite ParseNumber_decimal by (apply Forall_take || apply Forall_drop; done).
    rewrite take_drop, Hu. unfold len in *. rewrite length_drop. do 2 f_equal. lia. }
  destruct ((len D - s =? 1) && _) eqn:Ez.
  - apply andb_true_iff in Ez as [E1 E2]. to_prop.
    destruct D as [|d D]; [unfold len in Hlen; cbn in Hlen; lia|]. cbn [fmap list_fmap drop].
    inversion HfD as [|?? Hd HfD']; subst. cbn in E2.
    assert (d = 0) as -> by (revert E2; digit_cases d).
    apply (Hcut D 0); [|done|unfold len in *; cbn [length] in *; lia|lia].
    rewrite undigits_cons. lia.
  - apply (Hcut D (len D - s)); [done|done|lia|lia].
Qed.

Lemma StringBase_ParseNumber_decimal_witness :
  StringBase (mkNumber 50 3) 10 = str! ".050" /\
  ParseNumber (StringBase (mkNumber 50 3) 10) 10 = inr (mkNumber 50 3).
Proof.
  split; [vm_compute; reflexivity|].
  apply (StringBase_ParseNumber_decimal (mkNumber 50 3)); unfold wf; cbn; lia.
Defined.

(** The digit loop of the other bases computes the expansion. *)
Lemma lsd_digits base f v acc :
  2 <= base -> 0 <= v -> rev (lsd f base v) ++ acc = digits_aux f base v acc.
Proof.
  intros Hb. revert v acc. induction f as [|f IH]; intros v acc Hv; [done|].
  rewrite digits_aux_S. cbn [lsd]. destruct (v =? 0); [done|]. cbn [rev].
  rewrite <- app_assoc, IH by (apply Z.quot_pos; lia).
  by rewrite Z.rem_mod_nonneg, Z.quot_div_nonneg by lia.
Qed.

Lemma integer_digits_digits base v :
  2 <= base -> 0 <= v -> integer_digits base v = digits base v.
Proof.
  intros Hb Hv. unfold integer_digits, digits. by rewrite <- lsd_digits, app_nil_r.
Qed.

Lemma join_singletons (f : Z -> Z) l : join [] ((fun d => [f d]) <$> l) = f <$> l.
Proof.
  induction l as [|d l IH]; [done|]. cbn. destruct l as [|d' l]; [done|].
  cbn in *. by rewrite IH.
Qed.

(** Round trip in the other input bases: a positive integer printed in a
    base from 2 to 16 parses back in that base. *)
Theorem StringBase_ParseNumber_base (n base : Z) :
  2 <= base <= 16 -> 0 < n ->
  ParseNumber (StringBase (fromInt64 n) base) base = inr (fromInt64 n).
Proof.
  intros Hb Hn. destruct (digits_spec base n) as (Hu & Hf & _ & Hne); [lia..|].
  destruct Hne as [_ Hne]; [lia|].
  assert (StringBase (fromInt64 n) base = hexchar <$> digits base n) as ->;
    [|by rewrite ParseNumber_integer, Hu by done].
  unfold StringBase, fromInt64, MaxBase. cbn [num scale].
  rewrite (proj2 (orb_false_iff _ _)), (proj2 (Z.eqb_neq n 0)) by lia.
  destruct (Z.eqb_spec base 10) as [->|].
  - unfold string_decimal. cbn [num scale]. rewrite (proj2 (Z.ltb_ge n 0)), Z.abs_eq by lia.
    cbn [Z.eqb]. unfold utoa. rewrite (proj2 (Z.eqb_neq n 0)) by lia. by apply hexchar_decimal.
  - unfold string_other. cbn [num scale pow10 Z.leb Z.compare].
    rewrite (proj2 (Z.ltb_ge n 0)), Z.abs_eq, Z.quot_1_r by lia.
    rewrite (proj2 (Z.ltb_ge 16 base)), integer_digits_digits by lia. cbn [andb Z.ltb Z.compare].
    rewrite <- join_singletons. f_equal. apply list_fmap_ext. intros i d _.
    unfold formatDigit. by rewrite (proj2 (Z.leb_le base 16)) by lia.
Qed.

Lemma StringBase_ParseNumber_base_witness :
  StringBase (fromInt64 48879) 16 = str! "BEEF" /\
  ParseNumber (StringBase (fromInt64 48879) 16) 16 = inr (fromInt64 48879).
Proof.
  split; [vm_compute; reflexivity|]. apply (StringBase_ParseNumber_base 48879 16); lia.
Defined.

(** ** Continued lines *)

(** Deleting every backslash-newline pair. *)
Fixpoint unwrap (s : list Z) : list Z :=
  match s with
  | 92 :: 10 :: s' => unwrap s'
  | c :: s' => c :: unwrap s'
  | [] => []
  end.

Definition plain (s : list Z) : Prop := Forall (fun c => c <> 92 /\ c <> 10) s.

Lemma unwrap_plain s t : plain s -> unwrap (s ++ t) = s ++ unwrap t.
Proof.
  induction 1 as [|c s [Hc _] _ IH]; [done|]. cbn [app]. rewrite <- IH.
  destruct (decide (c = 92)); [done|].
  cbn [unwrap]. repeat case_match; done.
Qed.

Lemma wrap_lines_spec f s :
  plain s -> (length s <= f)%nat ->
  unwrap (wrap_lines f s) = s /\
  Forall (fun l => (length l <= 69)%nat) (split_byte 10 (wrap_lines f s)).
Proof.
  revert s. induction f as [|f IH]; intros s Hs Hf.
  { destruct s; [|cbn in Hf; lia]. cbn. split; [done|]. constructor; [cbn; lia|constructor]. }
  cbn [wrap_lines]. destruct (Nat.ltb_spec dataPerContinuedLine (length s)) as [Hl|Hl].
  - assert (plain (take dataPerContinuedLine s)) as Ht by (by apply Forall_take).
    destruct (IH (drop dataPerContinuedLine s)) as [IH1 IH2].
    { by apply Forall_drop. }
    { rewrite length_drop. unfold dataPerContinuedLine in *. lia. }
    split.
    + rewrite unwrap_plain by done. cbn [app unwrap]. by rewrite IH1, take_drop.
    + change ([92; 10] ++ wrap_lines f (drop dataPerContinuedLine s))
        with ([92] ++ 10 :: wrap_lines f (drop dataPerContinuedLine s)).
      rewrite app_assoc, split_byte_app.
      * constructor; [|done]. rewrite length_app, length_take. unfold dataPerContinuedLine.
        cbn [length]. lia.
      * intros [Hin|Hin]%elem_of_app.
        -- eapply (proj1 (Forall_forall _ _)) in Ht; [|exact Hin]. cbn in Ht. lia.
        -- apply list_elem_of_singleton in Hin. lia.
  - split; [by rewrite <- (app_nil_r s), unwrap_plain, !app_nil_r|].
    rewrite split_byte_none.
    + constructor; [|constructor]. unfold dataPerContinuedLine in *. lia.
    + intros Hin. eapply (proj1 (Forall_forall _ _)) in Hs; [|exact Hin]. cbn in Hs. lia.
Qed.

(** What [StringBase] prints is one line of plain characters. *)
Lemma utoa_plain n : 0 <= n -> plain (utoa n).
Proof.
  intros Hn. unfold utoa. destruct (Z.eqb_spec n 0); [by repeat constructor|].
  destruct (digits_spec 10 n) as (_ & Hf & _); [lia..|].
  apply Forall_fmap. eapply Forall_impl; [exact Hf|]. cbn. lia.
Qed.

Lemma plain_app s t : plain (s ++ t) <-> plain s /\ plain t.
Proof. apply Forall_app. Qed.

Lemma plain_join sep parts :
  plain sep -> Forall plain parts -> plain (join sep parts).
Proof.
  intros Hs. induction 1 as [|p [|q ps] Hp Hps IH]; [constructor|done|].
  cbn [join]. by rewrite !plain_app.
Qed.

Lemma plain_repeat k : plain (repeat (ch! "0") k).
Proof. induction k; by constructor. Qed.

Lemma formatDigit_plain base d : 0 <= d -> plain (formatDigit base d).
Proof.
  intros Hd. unfold formatDigit, pad_digit. destruct (base <=? 16).
  - constructor; [|constructor]. destruct (Z.to_nat d) as [|k]; [done|].
    do 15 (destruct k as [|k]; [done|]). cbn. by destruct k.
  - apply plain_app. split; [apply plain_repeat|by apply utoa_plain].
Qed.

Lemma fraction_digits_nonneg k base den rem :
  0 <= base -> 0 < den -> 0 <= rem ->
  Forall (fun d => 0 <= d) (fraction_digits k base den rem).
Proof.
  intros Hb Hd. revert rem. induction k as [|k IH]; intros rem Hr; [constructor|].
  cbn. assert (0 <= rem * base) by nia. constructor.
  - by apply Z.quot_pos.
  - apply IH. by apply Z.rem_nonneg; [lia|].
Qed.

Lemma pow10_pos n : 0 < pow10 n.
Proof. unfold pow10. destruct (Z.leb_spec n 0); [lia|]. apply ten_pos. lia. Qed.

Lemma string_decimal_plain x : plain (string_decimal x).
Proof.
  unfold string_decimal.
  assert (plain (utoa (Z.abs (num x)))) as Ha by (apply utoa_plain; lia).
  destruct (scale x =? 0).
  { destruct (_ <? 0); [by constructor|done]. }
  set (a := if _ <=? scale x then _ else _).
  assert (plain a) as Ha'.
  { subst a. destruct (_ <=? _); [|done]. apply plain_app. split; [apply plain_repeat|done]. }
  clearbody a. destruct (if _ && _ then _ else _) as [b i] eqn:E.
  assert (plain b) as Hb.
  { destruct (_ && _); injection E as <- <-; [by apply Forall_drop|done]. }
  assert (plain (take (Z.to_nat i) b ++ [ch! "."] ++ drop (Z.to_nat i) b)) as Hr.
  { rewrite !plain_app. split_and!; [by apply Forall_take|by repeat constructor|by apply Forall_drop]. }
  destruct (_ <? 0); [by constructor|done].
Qed.

Lemma string_other_plain x base : 2 <= base -> plain (string_other x base).
Proof.
  intros Hb. unfold string_other. pose proof (pow10_pos (scale x)) as Hden.
  set (sep := if 16 <? base then _ else _).
  assert (plain sep) as Hsep by (subst sep; destruct (_ <? _); by repeat constructor).
  assert (forall l, Forall (fun d => 0 <= d) l -> plain (join sep (formatDigit base <$> l))) as Hj.
  { intros l Hl. apply plain_join; [done|]. apply Forall_fmap.
    eapply Forall_impl; [exact Hl|]. intros d Hd. by apply formatDigit_plain. }
  assert (0 <= Z.quot (Z.abs (num x)) (pow10 (scale x))) as Hw by (apply Z.quot_pos; lia).
  assert (plain (join sep (formatDigit base <$>
    integer_digits base (Z.quot (Z.abs (num x)) (pow10 (scale x)))))) as Hi.
  { apply Hj. rewrite integer_digits_digits by done.
    destruct (digits_spec base _ Hb Hw) as (_ & Hf & _).
    eapply Forall_impl; [exact Hf|]. cbn. lia. }
  set (i := join sep (formatDigit base <$> integer_digits base _)) in *. clearbody i.
  assert (plain (join sep (formatDigit base <$>
    fraction_digits (fraction_width base (scale x)) base (pow10 (scale x))
      (Z.rem (Z.abs (num x)) (pow10 (scale x)))))) as Hfr.
  { apply Hj, fraction_digits_nonneg; [lia|done|]. apply Z.rem_nonneg; lia. }
  set (fr := join sep (formatDigit base <$> fraction_digits _ _ _ _)) in *. clearbody fr.
  assert (forall c s, plain [c] -> plain s -> plain (c :: s)) as Hcons
    by (intros c s; inversion 1; by constructor).
  repeat case_match; repeat first
    [ apply Hcons; [by repeat constructor|] | apply plain_app; split
    | by repeat constructor | done ].
Qed.

Lemma StringBase_plain x base : plain (StringBase x base).
Proof.
  unfold StringBase. set (b := if _ || _ then _ else _).
  assert (2 <= b) as Hb by (subst b; destruct (_ || _) eqn:E; [lia|]; to_prop; lia).
  clearbody b. destruct (num x =? 0); [by repeat constructor|].
  destruct (b =? 10); [apply string_decimal_plain|by apply string_other_plain].
Qed.

(** Output wrapping loses nothing: deleting the backslash-newline pairs of
    the wrapped text gives the unwrapped text, and no line is longer than 69
    characters (68 of data and the backslash). *)
Theorem wrappedStringBase_spec (x : Number) (base : Z) :
  unwrap (wrappedStringBase x base) = StringBase x base /\
  Forall (fun l => (length l <= 69)%nat) (split_byte 10 (wrappedStringBase x base)).
Proof.
  pose proof (StringBase_plain x base) as Hp. unfold wrappedStringBase.
  set (s := StringBase x base) in *. clearbody s.
  destruct (Nat.leb_spec (length s) dataPerContinuedLine) as [Hl|_];
    [|by apply wrap_lines_spec].
  assert (wrap_lines (length s) s = s) as E.
  { destruct (length s) as [|k] eqn:El; [done|]. cbn [wrap_lines].
    rewrite El. by rewrite (proj2 (Nat.ltb_ge _ _)). }
  rewrite <- E at 1 3. by apply wrap_lines_spec.
Qed.

End Bc.
