(* ===== verification/BcLex.v ===== *)
(** * The lexer of bc (src/cmds/internal/bc/lexer.go)

    [lex] turns the source text into tokens. Text that is no token becomes a
    token of kind [tError] whose text is the message; the parser stops there.
    The index into the source is the text from it on. *)

From Stdlib Require Import ZArith Lia String.
From stdpp Require Import base tactics list numbers strings.
From S2P Require Import Prelude.

Open Scope Z_scope.
Open Scope go_scope.

Module BcLex.

Inductive tokenKind := tEOF | tError | tNL | tNumber | tIdent | tString | tOp.

#[export] Instance tokenKind_eq_dec : EqDecision tokenKind.
Proof. solve_decision. Defined.

Record token := mkToken { kind : tokenKind; text : list Z; tline : Z }.

Definition is_kind (kd : tokenKind) (t : token) : bool := bool_decide (kind t = kd).

Definition is_lower (c : Z) : bool := (ch! "a" <=? c) && (c <=? ch! "z").
Definition is_hex (c : Z) : bool := (ch! "A" <=? c) && (c <=? ch! "F").
Definition is_space (c : Z) : bool := (c =? ch! " ") || (c =? 9) || (c =? 13).

(** The body of a comment, after its opening: the text after the closing, if
    there is one, and the line reached. *)
Fixpoint comment (l : list Z) (ln : Z) : option (list Z) * Z :=
  match l with
  | c :: r =>
      match r with
      | d :: r' =>
          if (c =? ch! "*") && (d =? ch! "/") then (Some r', ln)
          else comment r (if c =? 10 then ln + 1 else ln)
      | [] => (None, ln)
      end
  | [] => (None, ln)
  end.

(** The body of a string, after its opening quote. *)
Fixpoint string_body (l : list Z) (ln : Z) : option (list Z * list Z) * Z :=
  match l with
  | [] => (None, ln)
  | c :: r =>
      if c =? 34 then (Some ([], r), ln)
      else
        let '(found, ln') := string_body r (if c =? 10 then ln + 1 else ln) in
        (match found with Some (v, r') => Some (c :: v, r') | None => None end, ln')
  end.

(** The characters of a number; a backslash at the end of a line is dropped. *)
Fixpoint number_body (l : list Z) (ln : Z) : list Z * list Z * Z :=
  match l with
  | [] => ([], [], ln)
  | d :: r =>
      if is_digit d || is_hex d || (d =? ch! ".") then
        let '(v, r', ln') := number_body r ln in (d :: v, r', ln')
      else
        match r with
        | e :: r' => if (d =? ch! "\") && (e =? 10) then number_body r' (ln + 1) else ([], l, ln)
        | [] => ([], l, ln)
        end
  end.

Definition keywords : list (list Z) :=
  [str! "define"; str! "return"; str! "length"; str! "break"; str! "while"; str! "scale"; str! "sqrt";
   str! "auto"; str! "ibase"; str! "obase"; str! "quit"; str! "for"; str! "if"].

Definition operators : list (list Z) :=
  [str! "++"; str! "--"; str! "+="; str! "-="; str! "*="; str! "/="; str! "%="; str! "^="; str! "==";
   str! "!="; str! "<="; str! ">="].

Definition single_operators : list Z := str! "+-*/%^=<>(),{}[]".

(** The first of the words that the text starts with. *)
Definition first_prefix (words : list (list Z)) (l : list Z) : option (list Z) :=
  List.find (fun w => has_prefix l w) words.

(** The verb [%q] of a byte. *)
Definition hex_digit (d : Z) : Z := if d <? 10 then ch! "0" + d else ch! "a" + (d - 10).
Definition quote_byte (c : Z) : list Z :=
  let bs := ch! "\" in
  let body :=
    if c =? 39 then [bs; 39]
    else if c =? bs then [bs; bs]
    else if (32 <=? c) && (c <=? 126) then [c]
    else if c =? 7 then [bs; ch! "a"]
    else if c =? 8 then [bs; ch! "b"]
    else if c =? 12 then [bs; ch! "f"]
    else if c =? 10 then [bs; ch! "n"]
    else if c =? 13 then [bs; ch! "r"]
    else if c =? 9 then [bs; ch! "t"]
    else if c =? 11 then [bs; ch! "v"]
    else if (c <? 32) || (c =? 127) then [bs; ch! "x"; hex_digit (c / 16); hex_digit (c mod 16)]
    else if (c <=? 160) || (c =? 173) then [bs; ch! "u"; ch! "0"; ch! "0"; hex_digit (c / 16); hex_digit (c mod 16)]
    else string_of_byte c in
  39 :: body ++ [39].

Definition at_line (ln : Z) (msg : list Z) : list Z := str! "line " ++ itoa ln ++ str! ": " ++ msg.

(** One round of the loop on [c :: r]: the token found, if any, and the text
    left, or nothing when the rest is not read. *)
Definition lex_step (c : Z) (r : list Z) (ln : Z) : list token * option (list Z) * Z :=
  if is_space c then ([], Some r, ln)
  else if (c =? 10) || (c =? ch! ";") then ([mkToken tNL [c] ln], Some r, if c =? 10 then ln + 1 else ln)
  else if has_prefix (c :: r) (str! "/*") then
    match comment (drop 1 r) ln with
    | (Some r', ln') => ([], Some r', ln')
    | (None, ln') => ([mkToken tError (at_line ln (str! "unterminated comment")) ln], None, ln')
    end
  else if c =? 34 then
    match string_body r ln with
    | (Some (v, r'), ln') =>
        if 1000 <? len v then
          ([mkToken tError (at_line ln (str! "string exceeds BC_STRING_MAX (1000 bytes)")) ln], Some r', ln')
        else ([mkToken tString v ln'], Some r', ln')
    | (None, ln') => ([mkToken tError (at_line ln (str! "unterminated string")) ln], None, ln')
    end
  else if is_hex c then
    let '(v, r', ln') := number_body (c :: r) ln in ([mkToken tNumber v ln], Some r', ln')
  else if is_lower c then
    match first_prefix keywords (c :: r) with
    | Some w => ([mkToken tIdent w ln], Some (drop (length w) (c :: r)), ln)
    | None => ([mkToken tIdent [c] ln], Some r, ln)
    end
  else if is_digit c || (c =? ch! ".") then
    let '(v, r', ln') := number_body (c :: r) ln in
    ([if str_eqb v (str! ".") then mkToken tError (at_line ln (str! "invalid number " ++ [34; ch! "."; 34])) ln
      else mkToken tNumber v ln], Some r', ln')
  else
    match first_prefix operators (c :: r) with
    | Some w => ([mkToken tOp w ln], Some (drop (length w) (c :: r)), ln)
    | None =>
        if existsb (Z.eqb c) single_operators then ([mkToken tOp [c] ln], Some r, ln)
        else
          match r with
          | d :: r' =>
              if (c =? ch! "\") && (d =? 10) then ([], Some r', ln + 1)
              else ([mkToken tError (at_line ln (str! "invalid character " ++ quote_byte c)) ln], Some r, ln)
          | [] => ([mkToken tError (at_line ln (str! "invalid character " ++ quote_byte c)) ln], Some r, ln)
          end
    end.

Fixpoint lex_loop (fuel : nat) (l : list Z) (ln : Z) : outcome (list token) :=
  match l with
  | [] => Ret [mkToken tEOF [] ln]
  | c :: r =>
      match fuel with
      | O => OutOfFuel
      | S n =>
          match lex_step c r ln with
          | (ts, Some l', ln') => let! ts' := lex_loop n l' ln' in Ret (ts ++ ts')
          | (ts, None, ln') => Ret (ts ++ [mkToken tEOF [] ln'])
          end
      end
  end.

Definition lex (src : list Z) : outcome (list token) := lex_loop (length src) src 1.

Example lex_example :
  lex (str! "while(i<=1F) x+=.5") =
  Ret [mkToken tIdent (str! "while") 1; mkToken tOp (str! "(") 1; mkToken tIdent (str! "i") 1;
       mkToken tOp (str! "<=") 1; mkToken tNumber (str! "1F") 1; mkToken tOp (str! ")") 1;
       mkToken tIdent (str! "x") 1; mkToken tOp (str! "+=") 1; mkToken tNumber (str! ".5") 1; mkToken tEOF [] 1].
Proof. vm_compute. reflexivity. Qed.

End BcLex.
