(* ===== verification/BcParse.v ===== *)
(** * The syntax of bc and its parser (src/cmds/internal/bc/interpreter.go)

    The syntax trees of expressions and statements and the recursive-descent
    parser over the tokens of [BcLex]. The position in the token slice is the
    slice from it on; [cur] panics when there is none left. Messages that
    quote a token are kept as the token's line and text. *)

From Stdlib Require Import ZArith Lia String.
From stdpp Require Import base tactics list numbers strings.
From S2P Require Import Prelude BcNumber BcLex.
Import BcLex.

Open Scope Z_scope.
Open Scope go_scope.

Module BcParse.

(** ** Errors *)

Inductive error :=
| EOF
| LexError (msg : list Z)
| Expected (ln : Z) (want got : list Z)
| ExpectedSeparator (ln : Z) (near : list Z)
| ExpectedExpression (ln : Z) (near : list Z)
| ExpectedSemicolon (ln : Z)
| ExpectedName (ln : Z)
| OutsideContext
| ArrayAlone (name : list Z)
| IndexOutside
| ValueOutside (v : option Z) (min max : Z)
| AssignmentVariable
| IncrementVariable
| UnknownOperator (op : list Z)
| ArgumentCount (name : list Z) (n : Z)
| UndefinedFunction (name : list Z)
| ArrayParameter (name : list Z)
| NumberError (e : Bc.bc_error)
| MathError (msg : list Z).

(** ** Syntax *)

Inductive expr :=
| literalExpr (lit : list Z)
| numberExpr (n : Bc.Number)
| parenExpr (e : expr)
| variableExpr (name : list Z) (index : option expr)
| wholeArrayExpr (name : list Z)
| unaryExpr (op : list Z) (e : expr)
| binaryExpr (op : list Z) (l r : expr)
| incExpr (e : expr) (delta : Z) (post : bool)
| callExpr (name : list Z) (args : list expr).

Record param := mkParam { pname : list Z; array : bool }.

Inductive flow := flowNone | flowBreak | flowReturn | flowQuit.

Inductive stmt : Set :=
| exprStmt (e : expr) (print : bool)
| stringStmt (v : list Z)
| blockStmt (ss : list stmt)
| flowStmt (f : flow)
| returnStmt (e : expr)
| defineStmt (name : list Z) (f : function)
| ifStmt (c : expr) (yes no : list stmt)
| whileStmt (c : expr) (body : list stmt)
| forStmt (init cond post : option expr) (body : list stmt)
with function : Set :=
| mkFunction (params autos : list param) (body : list stmt).

Definition params (f : function) : list param := let 'mkFunction ps _ _ := f in ps.
Definition autos (f : function) : list param := let 'mkFunction _ ps _ := f in ps.
Definition body (f : function) : list stmt := let 'mkFunction _ _ ss := f in ss.

Definition assignmentOp (op : list Z) : bool :=
  existsb (str_eqb op) [str! "="; str! "+="; str! "-="; str! "*="; str! "/="; str! "%="; str! "^="].

Definition isAssignment (e : expr) : bool :=
  match e with binaryExpr op _ _ => assignmentOp op | _ => false end.

(** ** The parser

    A parse either panics or runs out of fuel, or gives an error, or a tree
    and the tokens left. *)
Abbreviation parse A := (outcome (error + A * list token)).

Definition andthen {A B} (c : parse A) (f : A -> list token -> parse B) : parse B :=
  match c with
  | Ret (inr (a, t)) => f a t
  | Ret (inl e) => Ret (inl e)
  | Panic => Panic
  | OutOfFuel => OutOfFuel
  end.
Local Notation "'do!' x , t := c 'in' f" := (andthen c (fun x t => f))
  (at level 10, x pattern, t name, c at level 100, f at level 200).

Definition ok {A} (a : A) (t : list token) : parse A := Ret (inr (a, t)).
Definition fail {A} (e : error) : parse A := Ret (inl e).

Definition cur (t : list token) : parse token := let! x := index t 0 in ok x t.

Definition take (t : list token) : parse token :=
  match t with
  | [] => Panic
  | [x] => ok x t
  | x :: t' => ok x t'
  end.

Definition accept (w : list Z) (t : list token) : parse bool :=
  match t with
  | [] => Panic
  | x :: t' => if str_eqb (text x) w then ok true t' else ok false t
  end.

Fixpoint skipNL (t : list token) : parse unit :=
  match t with
  | [] => Panic
  | x :: t' => if is_kind tNL x then skipNL t' else ok tt t
  end.

Definition want (w : list Z) (t : list token) : parse unit :=
  do! b, t := accept w t in
  if (b : bool) then ok tt t else do! x, t := cur t in fail (Expected (tline x) w (text x)).

Definition prec (op : list Z) : Z :=
  if assignmentOp op then 1
  else if existsb (str_eqb op) [str! "+"; str! "-"] then 5
  else if existsb (str_eqb op) [str! "*"; str! "/"; str! "%"] then 6
  else if str_eqb op (str! "^") then 7
  else 0.

(** The level at which the right operand is read. *)
Definition next_level (op : list Z) : Z :=
  if str_eqb op (str! "^") || str_eqb (drop (length op - 1) op) (str! "=") then prec op else prec op + 1.

Fixpoint binary (fuel : nat) (min : Z) (t : list token) : parse expr :=
  match fuel with
  | O => OutOfFuel
  | S n => do! lhs, t := unary n t in binary_loop n min lhs t
  end
with binary_loop (fuel : nat) (min : Z) (lhs : expr) (t : list token) : parse expr :=
  match fuel with
  | O => OutOfFuel
  | S n =>
      do! x, t := cur t in
      let op := text x in
      if prec op <? min then ok lhs t
      else
        do! _, t := take t in
        do! rhs, t := binary n (next_level op) t in
        binary_loop n min (binaryExpr op lhs rhs) t
  end
with unary (fuel : nat) (t : list token) : parse expr :=
  match fuel with
  | O => OutOfFuel
  | S n =>
      do! minus, t := accept (str! "-") t in
      if (minus : bool) then do! e, t := unary n t in ok (unaryExpr (str! "-") e) t
      else
        do! inc, t := accept (str! "++") t in
        if (inc : bool) then do! e, t := unary n t in ok (incExpr e 1 false) t
        else
          do! dec, t := accept (str! "--") t in
          if (dec : bool) then do! e, t := unary n t in ok (incExpr e (-1) false) t
          else
            do! e, t := primary n t in
            do! inc, t := accept (str! "++") t in
            if (inc : bool) then ok (incExpr e 1 true) t
            else
              do! dec, t := accept (str! "--") t in
              if (dec : bool) then ok (incExpr e (-1) true) t else ok e t
  end
with primary (fuel : nat) (t : list token) : parse expr :=
  match fuel with
  | O => OutOfFuel
  | S n =>
      do! x, t := take t in
      let expected := fail (ExpectedExpression (tline x) (text x)) in
      match kind x with
      | tNumber => ok (literalExpr (text x)) t
      | tIdent =>
          do! call, t := accept (str! "(") t in
          if (call : bool) then
            do! y, t := cur t in
            do! args, t := (if str_eqb (text y) (str! ")") then ok [] t else arguments n t) in
            do! _, t := want (str! ")") t in
            ok (callExpr (text x) args) t
          else
            do! indexed, t := accept (str! "[") t in
            if (indexed : bool) then
              do! whole, t := accept (str! "]") t in
              if (whole : bool) then ok (wholeArrayExpr (text x)) t
              else
                do! idx, t := binary n 1 t in
                do! _, t := want (str! "]") t in
                ok (variableExpr (text x) (Some idx)) t
            else ok (variableExpr (text x) None) t
      | tOp =>
          if str_eqb (text x) (str! "(") then
            do! e, t := binary n 1 t in
            do! _, t := want (str! ")") t in
            ok (parenExpr e) t
          else expected
      | _ => expected
      end
  end
with arguments (fuel : nat) (t : list token) : parse (list expr) :=
  match fuel with
  | O => OutOfFuel
  | S n =>
      do! e, t := binary n 1 t in
      do! more, t := accept (str! ",") t in
      if (more : bool) then do! es, t := arguments n t in ok (e :: es) t else ok [e] t
  end.

Definition expression (fuel : nat) (t : list token) : parse expr := binary fuel 1 t.

Definition relationalExpression (fuel : nat) (t : list token) : parse expr :=
  do! lhs, t := expression fuel t in
  do! x, t := cur t in
  if existsb (str_eqb (text x)) [str! "=="; str! "!="; str! "<"; str! "<="; str! ">"; str! ">="] then
    do! op, t := take t in
    do! rhs, t := expression fuel t in
    ok (binaryExpr (text op) lhs rhs) t
  else ok lhs t.

Definition condition (fuel : nat) (t : list token) : parse expr :=
  do! _, t := want (str! "(") t in
  do! e, t := relationalExpression fuel t in
  do! _, t := want (str! ")") t in
  ok e t.

Fixpoint parse_params (fuel : nat) (t : list token) : parse (list param) :=
  match fuel with
  | O => OutOfFuel
  | S n =>
      do! x, t := cur t in
      if is_kind tIdent x then
        do! name, t := take t in
        do! arr, t := accept (str! "[") t in
        do! _, t := (if (arr : bool) then want (str! "]") t else ok tt t) in
        do! more, t := accept (str! ",") t in
        if (more : bool) then do! ps, t := parse_params n t in ok (mkParam (text name) arr :: ps) t
        else ok [mkParam (text name) arr] t
      else ok [] t
  end.

(** A semicolon of a [for] statement. *)
Definition semicolon (t : list token) : parse unit :=
  do! x, t := cur t in
  if is_kind tNL x then do! _, t := take t in ok tt t else fail (ExpectedSemicolon (tline x)).

Definition lex_error {A} (x : token) : parse A := fail (LexError (text x)).

Fixpoint statement (fuel : nat) (t : list token) : parse stmt :=
  match fuel with
  | O => OutOfFuel
  | S n =>
      do! x, t := cur t in
      let expression_statement :=
        do! e, t := expression n t in ok (exprStmt e (negb (isAssignment e))) t in
      if is_kind tError x then lex_error x
      else if str_eqb (text x) (str! "{") then do! ss, t := block n t in ok (blockStmt ss) t
      else if is_kind tString x then do! _, t := take t in ok (stringStmt (text x)) t
      else if is_kind tIdent x then
        if str_eqb (text x) (str! "define") then parseDefine n t
        else if str_eqb (text x) (str! "if") then parseIf n t
        else if str_eqb (text x) (str! "while") then parseWhile n t
        else if str_eqb (text x) (str! "for") then parseFor n t
        else if str_eqb (text x) (str! "break") then do! _, t := take t in ok (flowStmt flowBreak) t
        else if str_eqb (text x) (str! "quit") then fail EOF
        else if str_eqb (text x) (str! "return") then
          do! _, t := take t in
          do! open, t := accept (str! "(") t in
          if (open : bool) then
            do! y, t := cur t in
            do! e, t := (if str_eqb (text y) (str! ")") then ok (numberExpr (Bc.fromInt64 0)) t
                         else expression n t) in
            do! _, t := want (str! ")") t in
            ok (returnStmt e) t
          else ok (returnStmt (numberExpr (Bc.fromInt64 0))) t
        else expression_statement
      else expression_statement
  end
with block (fuel : nat) (t : list token) : parse (list stmt) :=
  match fuel with
  | O => OutOfFuel
  | S n =>
      do! _, t := want (str! "{") t in
      do! _, t := skipNL t in
      do! ss, t := program n true t in
      do! _, t := want (str! "}") t in
      ok ss t
  end
with program (fuel : nat) (stopBrace : bool) (t : list token) : parse (list stmt) :=
  match fuel with
  | O => OutOfFuel
  | S n => do! _, t := skipNL t in program_loop n stopBrace t
  end
with program_loop (fuel : nat) (stopBrace : bool) (t : list token) : parse (list stmt) :=
  match fuel with
  | O => OutOfFuel
  | S n =>
      do! x, t := cur t in
      if is_kind tEOF x || (stopBrace && str_eqb (text x) (str! "}")) then ok [] t
      else if is_kind tError x then lex_error x
      else
        do! b, t := statement n t in
        do! y, t := cur t in
        if negb (is_kind tNL y) && negb (is_kind tEOF y) && negb (str_eqb (text y) (str! "}")) then
          fail (ExpectedSeparator (tline y) (text y))
        else
          do! _, t := skipNL t in
          do! ss, t := program_loop n stopBrace t in
          ok (b :: ss) t
  end
with parseDefine (fuel : nat) (t : list token) : parse stmt :=
  match fuel with
  | O => OutOfFuel
  | S n =>
      do! _, t := take t in
      do! name, t := take t in
      if negb (is_kind tIdent name) then fail (ExpectedName (tline name))
      else
        do! _, t := want (str! "(") t in
        do! ps, t := parse_params n t in
        do! _, t := want (str! ")") t in
        do! _, t := skipNL t in
        do! _, t := want (str! "{") t in
        do! _, t := skipNL t in
        do! x, t := cur t in
        do! vs, t :=
          (if str_eqb (text x) (str! "auto") then
             do! _, t := take t in
             do! vs, t := parse_params n t in
             do! _, t := skipNL t in
             ok vs t
           else ok [] t) in
        do! ss, t := program n true t in
        do! _, t := want (str! "}") t in
        ok (defineStmt (text name) (mkFunction ps vs ss)) t
  end
with parseIf (fuel : nat) (t : list token) : parse stmt :=
  match fuel with
  | O => OutOfFuel
  | S n =>
      do! _, t := take t in
      do! c, t := condition n t in
      do! _, t := skipNL t in
      do! b, t := statement n t in
      ok (ifStmt c [b] []) t
  end
with parseWhile (fuel : nat) (t : list token) : parse stmt :=
  match fuel with
  | O => OutOfFuel
  | S n =>
      do! _, t := take t in
      do! c, t := condition n t in
      do! _, t := skipNL t in
      do! b, t := statement n t in
      ok (whileStmt c [b]) t
  end
with parseFor (fuel : nat) (t : list token) : parse stmt :=
  match fuel with
  | O => OutOfFuel
  | S n =>
      do! _, t := take t in
      do! _, t := want (str! "(") t in
      do! x, t := cur t in
      do! init, t := (if is_kind tNL x then ok None t else do! e, t := expression n t in ok (Some e) t) in
      do! _, t := semicolon t in
      do! x, t := cur t in
      do! cond, t := (if is_kind tNL x then ok None t else do! e, t := relationalExpression n t in ok (Some e) t) in
      do! _, t := semicolon t in
      do! x, t := cur t in
      do! post, t := (if str_eqb (text x) (str! ")") then ok None t
                      else do! e, t := expression n t in ok (Some e) t) in
      do! _, t := want (str! ")") t in
      do! _, t := skipNL t in
      do! b, t := statement n t in
      ok (forStmt init cond post [b]) t
  end.

End BcParse.
