(* ===== verification/BcInterp.v ===== *)
(** * The interpreter of bc (src/cmds/internal/bc/interpreter.go)

    Statements are parsed and run one by one over the state [Interpreter]:
    the registers, the variables, the arrays, the functions and what has been
    written. The maps of the state are only reached through it (an array
    argument is copied), so they are values here. A program need not end, and
    its run takes fuel. The functions of the math library, which compute with
    [big.Float], are the parameter [math]. *)

From Stdlib Require Import ZArith Lia String.
From stdpp Require Import base tactics list numbers strings gmap.
From S2P Require Import Prelude BcNumber BcLex BcParse.
Import BcLex BcParse.

Open Scope Z_scope.
Open Scope go_scope.

Module BcInterp.

Definition MaxScale : Z := 99.
Definition MaxDim : Z := 2048.

Abbreviation arrayMap := (gmap Z Bc.Number).

Record Interpreter := mkInterpreter {
  Out : list Z;
  Scale : Z;
  IBase : Z;
  OBase : Z;
  Mathlib : bool;
  vars : gmap (list Z) Bc.Number;
  arrays : gmap (list Z) arrayMap;
  funcs : gmap (list Z) function;
  callDepth : Z
}.

Definition New : Interpreter := mkInterpreter [] 0 10 10 false ∅ ∅ ∅ 0.

Definition write (v : list Z) (b : Interpreter) : Interpreter :=
  mkInterpreter (Out b ++ v) (Scale b) (IBase b) (OBase b) (Mathlib b) (vars b) (arrays b) (funcs b) (callDepth b).
Definition set_Scale (n : Z) (b : Interpreter) : Interpreter :=
  mkInterpreter (Out b) n (IBase b) (OBase b) (Mathlib b) (vars b) (arrays b) (funcs b) (callDepth b).
Definition set_IBase (n : Z) (b : Interpreter) : Interpreter :=
  mkInterpreter (Out b) (Scale b) n (OBase b) (Mathlib b) (vars b) (arrays b) (funcs b) (callDepth b).
Definition set_OBase (n : Z) (b : Interpreter) : Interpreter :=
  mkInterpreter (Out b) (Scale b) (IBase b) n (Mathlib b) (vars b) (arrays b) (funcs b) (callDepth b).
Definition set_Mathlib (v : bool) (b : Interpreter) : Interpreter :=
  mkInterpreter (Out b) (Scale b) (IBase b) (OBase b) v (vars b) (arrays b) (funcs b) (callDepth b).
Definition set_vars (v : gmap (list Z) Bc.Number) (b : Interpreter) : Interpreter :=
  mkInterpreter (Out b) (Scale b) (IBase b) (OBase b) (Mathlib b) v (arrays b) (funcs b) (callDepth b).
Definition set_arrays (a : gmap (list Z) arrayMap) (b : Interpreter) : Interpreter :=
  mkInterpreter (Out b) (Scale b) (IBase b) (OBase b) (Mathlib b) (vars b) a (funcs b) (callDepth b).
Definition set_funcs (f : gmap (list Z) function) (b : Interpreter) : Interpreter :=
  mkInterpreter (Out b) (Scale b) (IBase b) (OBase b) (Mathlib b) (vars b) (arrays b) f (callDepth b).
Definition set_callDepth (n : Z) (b : Interpreter) : Interpreter :=
  mkInterpreter (Out b) (Scale b) (IBase b) (OBase b) (Mathlib b) (vars b) (arrays b) (funcs b) n.

(** ** Computations

    A computation ends with a value, with an error, with a run-time panic, or
    not within the fuel. An error leaves the state as it is. *)
Inductive res (A : Type) :=
| Done (a : A) (b : Interpreter)
| Err (e : error) (b : Interpreter)
| Crash
| NoFuel.
Arguments Done {A}.
Arguments Err {A}.
Arguments Crash {A}.
Arguments NoFuel {A}.

Definition andthen {A B} (c : res A) (f : A -> Interpreter -> res B) : res B :=
  match c with
  | Done a b => f a b
  | Err e b => Err e b
  | Crash => Crash
  | NoFuel => NoFuel
  end.
Local Notation "'do!' x , b := c 'in' f" := (andthen c (fun x b => f))
  (at level 10, x pattern, b name, c at level 100, f at level 200).

(** An arithmetic operation with its error, a parse, a call of the library. *)
Definition lift_number (c : Bc.bc_error + Bc.Number) (b : Interpreter) : res Bc.Number :=
  match c with inl e => Err (NumberError e) b | inr v => Done v b end.

Definition lift {A} (c : outcome (error + A)) (b : Interpreter) : res A :=
  match c with
  | Ret (inr a) => Done a b
  | Ret (inl e) => Err e b
  | Panic => Crash
  | OutOfFuel => NoFuel
  end.

(** ** Values *)

Definition boolNum (v : bool) : Bc.Number := if v then Bc.fromInt64 1 else Bc.Zero.

(** The integer part of a value. *)
Definition truncated (v : Bc.Number) : Z :=
  if Bc.scale v =? 0 then Bc.num v else Z.quot (Bc.num v) (Bc.pow10 (Bc.scale v)).

Definition IsInt64 (n : Z) : bool := (- 2 ^ 63 <=? n) && (n <? 2 ^ 63).

Definition truncatedInt (v : Bc.Number) (min max : Z) : error + Z :=
  let n := truncated v in
  if negb (IsInt64 n) then inl (ValueOutside None min max)
  else if (n <? min) || (max <? n) then inl (ValueOutside (Some n) min max)
  else inr n.

Definition checkIndex (v : Bc.Number) : error + Z :=
  let n := truncated v in
  if negb (IsInt64 n) || (n <? 0) || (MaxDim - 1 <? n) then inl IndexOutside else inr n.

Definition arith (op : list Z) (a c : Bc.Number) (b : Interpreter) : res Bc.Number :=
  if str_eqb op (str! "+") then Done (Bc.Add a c) b
  else if str_eqb op (str! "-") then Done (Bc.Sub a c) b
  else if str_eqb op (str! "*") then Done (Bc.Mul a c (Scale b)) b
  else if str_eqb op (str! "/") then lift_number (Bc.Div a c (Scale b)) b
  else if str_eqb op (str! "%") then lift_number (Bc.Mod a c (Scale b)) b
  else if str_eqb op (str! "^") then
    match Bc.Pow a c (Scale b) with
    | Ret v => lift_number v b
    | Panic => Crash
    | OutOfFuel => NoFuel
    end
  else Err (UnknownOperator op) b.

Definition compares (op : list Z) (c : comparison) : option bool :=
  if str_eqb op (str! "==") then Some (match c with Eq => true | _ => false end)
  else if str_eqb op (str! "!=") then Some (match c with Eq => false | _ => true end)
  else if str_eqb op (str! "<") then Some (match c with Lt => true | _ => false end)
  else if str_eqb op (str! "<=") then Some (match c with Gt => false | _ => true end)
  else if str_eqb op (str! ">") then Some (match c with Gt => true | _ => false end)
  else if str_eqb op (str! ">=") then Some (match c with Lt => false | _ => true end)
  else None.

Fixpoint singleDigitLiteral (e : expr) : option (list Z) :=
  match e with
  | literalExpr [c] => if existsb (Z.eqb c) (str! "0123456789ABCDEF") then Some [c] else None
  | parenExpr e' => singleDigitLiteral e'
  | _ => None
  end.

(** A variable without index: the registers come first. *)
Definition get_simple (name : list Z) (b : Interpreter) : Bc.Number :=
  if str_eqb name (str! "scale") then Bc.fromInt64 (Scale b)
  else if str_eqb name (str! "ibase") then Bc.fromInt64 (IBase b)
  else if str_eqb name (str! "obase") then Bc.fromInt64 (OBase b)
  else default Bc.Zero (vars b !! name).

Definition set_simple (name : list Z) (v : Bc.Number) (b : Interpreter) : res unit :=
  if str_eqb name (str! "scale") then
    match truncatedInt v 0 MaxScale with inr n => Done tt (set_Scale n b) | inl e => Err e b end
  else if str_eqb name (str! "ibase") then
    match truncatedInt v 2 16 with inr n => Done tt (set_IBase n b) | inl e => Err e b end
  else if str_eqb name (str! "obase") then
    match truncatedInt v 0 Bc.MaxBase with
    | inr n => Done tt (set_OBase (if n <? 2 then 2 else n) b)
    | inl e => Err e b
    end
  else Done tt (set_vars (<[name := v]> (vars b)) b).

Definition get_element (name : list Z) (i : Z) (b : Interpreter) : Bc.Number :=
  default Bc.Zero (default ∅ (arrays b !! name) !! i).

Definition set_element (name : list Z) (i : Z) (v : Bc.Number) (b : Interpreter) : Interpreter :=
  set_arrays (<[name := <[i := v]> (default ∅ (arrays b !! name))]> (arrays b)) b.

(** ** Calls *)

Inductive actual := scalarValue (v : Bc.Number) | arrayValue (a : arrayMap).

(** The bindings a call hides; [None] for a name that had none. *)
Record saved := mkSaved { savedV : gmap (list Z) (option Bc.Number); savedA : gmap (list Z) (option arrayMap) }.

Definition bind_var (name : list Z) (v : Bc.Number) (sb : saved * Interpreter) : saved * Interpreter :=
  let '(sv, b) := sb in
  (mkSaved (<[name := vars b !! name]> (savedV sv)) (savedA sv), set_vars (<[name := v]> (vars b)) b).

Definition bind_array (name : list Z) (a : arrayMap) (sb : saved * Interpreter) : saved * Interpreter :=
  let '(sv, b) := sb in
  (mkSaved (savedV sv) (<[name := arrays b !! name]> (savedA sv)), set_arrays (<[name := a]> (arrays b)) b).

Fixpoint bind_params (ps : list param) (vs : list actual) (sb : saved * Interpreter) : saved * Interpreter :=
  match ps, vs with
  | p :: ps', scalarValue v :: vs' => bind_params ps' vs' (bind_var (pname p) v sb)
  | p :: ps', arrayValue a :: vs' => bind_params ps' vs' (bind_array (pname p) a sb)
  | _, _ => sb
  end.

Definition bind_auto (p : param) (sb : saved * Interpreter) : saved * Interpreter :=
  if array p then bind_array (pname p) ∅ sb else bind_var (pname p) Bc.Zero sb.

Definition bind_autos (ps : list param) (sb : saved * Interpreter) : saved * Interpreter :=
  foldl (fun sb p => bind_auto p sb) sb ps.

(** The loops over the saved maps at the end of a call. *)
Definition restore {V} (sv : gmap (list Z) (option V)) (m : gmap (list Z) V) : gmap (list Z) V :=
  merge (fun o v => match o with Some old => old | None => v end) sv m.

Definition unbind (sv : saved) (b : Interpreter) : Interpreter :=
  set_arrays (restore (savedA sv) (arrays b)) (set_vars (restore (savedV sv) (vars b)) b).

Record result := mkResult { rflow : flow; value : Bc.Number }.
Definition no_result : result := mkResult flowNone Bc.Zero.

(** The end of a call: the bindings are restored on every way out. *)
Definition finish_call (sv : saved) (r : res result) : res Bc.Number :=
  let leave b := unbind sv (set_callDepth (callDepth b - 1) b) in
  match r with
  | Done r b =>
      match rflow r with
      | flowReturn => Done (value r) (leave b)
      | flowQuit => Err EOF (leave b)
      | _ => Done Bc.Zero (leave b)
      end
  | Err e b => Err e (leave b)
  | Crash => Crash
  | NoFuel => NoFuel
  end.

(** ** The math library *)

Record library := mkLibrary {
  mathCall : Z -> list Z -> Bc.Number -> outcome (error + Bc.Number);
  besselCall : Z -> Bc.Number -> Bc.Number -> outcome (error + Bc.Number)
}.

Definition math_name (name : list Z) : bool :=
  match name with [c] => existsb (Z.eqb c) (str! "scael") | _ => false end.

Section Interpreter.
Context (math : library).

(** ** Evaluation

    Each function is written first with the functions it calls as arguments;
    the recursion over the fuel ties them together below. *)

Section Steps.
Context (eval : expr -> Interpreter -> res Bc.Number).
Context (arrayIndex : expr -> Interpreter -> res Z).
Context (set : list Z -> option expr -> Bc.Number -> Interpreter -> res unit).
Context (call : list Z -> list expr -> Interpreter -> res Bc.Number).
Context (actuals : list param -> list expr -> Interpreter -> res (list actual)).
Context (run : stmt -> Interpreter -> res result).
Context (while_loop : expr -> list stmt -> Interpreter -> res result).
Context (for_loop : option expr -> option expr -> list stmt -> Interpreter -> res result).
Context (exec : list stmt -> Interpreter -> res result).

Definition assign (op name : list Z) (idx : option expr) (r : expr) (b : Interpreter) : res Bc.Number :=
  do! rv, b :=
    (if str_eqb op (str! "=") && bool_decide (idx = None) &&
        (str_eqb name (str! "ibase") || str_eqb name (str! "obase"))
     then match singleDigitLiteral r with
          | Some lit => lift_number (Bc.ParseNumber lit 16) b
          | None => eval r b
          end
     else eval r b) in
  do! rv, b :=
    (if str_eqb op (str! "=") then Done rv b
     else do! old, b := eval (variableExpr name idx) b in arith (firstn (length op - 1) op) old rv b) in
  do! _, b := set name idx rv b in
  Done rv b.

Definition operate (op : list Z) (l r : expr) (b : Interpreter) : res Bc.Number :=
  do! a, b := eval l b in
  if str_eqb op (str! "&&") && (Bc.Sign a =? 0) then Done Bc.Zero b
  else if str_eqb op (str! "||") && negb (Bc.Sign a =? 0) then Done (Bc.fromInt64 1) b
  else
    do! c, b := eval r b in
    match compares op (Bc.Cmp a c) with
    | Some v => Done (boolNum v) b
    | None =>
        if str_eqb op (str! "&&") || str_eqb op (str! "||") then Done (boolNum (negb (Bc.Sign c =? 0))) b
        else arith op a c b
    end.

Definition increment (name : list Z) (idx : option expr) (delta : Z) (post : bool) (b : Interpreter) : res Bc.Number :=
  do! old, b := eval (variableExpr name idx) b in
  let v := Bc.Add old (Bc.fromInt64 delta) in
  do! _, b := set name idx v b in
  Done (if post then old else v) b.

Definition eval_step (e : expr) (b : Interpreter) : res Bc.Number :=
  match e with
  | literalExpr lit => lift_number (Bc.ParseNumber lit (IBase b)) b
  | numberExpr v => Done v b
  | parenExpr e' => eval e' b
  | variableExpr name None => Done (get_simple name b) b
  | variableExpr name (Some idx) => do! i, b := arrayIndex idx b in Done (get_element name i b) b
  | wholeArrayExpr name => Err (ArrayAlone name) b
  | unaryExpr op e' =>
      do! v, b := eval e' b in
      if str_eqb op (str! "-") then Done (Bc.Neg v) b else Done (boolNum (Bc.Sign v =? 0)) b
  | binaryExpr op l r =>
      if assignmentOp op then
        match l with
        | variableExpr name idx => assign op name idx r b
        | _ => Err AssignmentVariable b
        end
      else operate op l r b
  | incExpr (variableExpr name idx) delta post => increment name idx delta post b
  | incExpr _ _ _ => Err IncrementVariable b
  | callExpr name args => call name args b
  end.

Definition arrayIndex_step (e : expr) (b : Interpreter) : res Z :=
  do! v, b := eval e b in
  match checkIndex v with inl e => Err e b | inr i => Done i b end.

Definition set_step (name : list Z) (idx : option expr) (v : Bc.Number) (b : Interpreter) : res unit :=
  match idx with
  | Some e => do! i, b := arrayIndex e b in Done tt (set_element name i v b)
  | None => set_simple name v b
  end.

(** A function of one argument that the language or the library has. *)
Definition one_argument (name : list Z) (args : list expr) (f : Bc.Number -> Interpreter -> res Bc.Number)
    (b : Interpreter) : res Bc.Number :=
  match args with
  | [a] => do! v, b := eval a b in f v b
  | _ => Err (ArgumentCount name 1) b
  end.

Definition call_function (name : list Z) (f : function) (args : list expr) (b : Interpreter) : res Bc.Number :=
  if negb (len args =? len (params f)) then Err (ArgumentCount name (len (params f))) b
  else
    do! vs, b := actuals (params f) args b in
    let '(sv, b) := bind_autos (autos f) (bind_params (params f) vs (mkSaved ∅ ∅, b)) in
    finish_call sv (exec (body f) (set_callDepth (callDepth b + 1) b)).

Definition call_step (name : list Z) (args : list expr) (b : Interpreter) : res Bc.Number :=
  if Mathlib b && bool_decide (funcs b !! name = None) && math_name name then
    one_argument name args (fun v b => lift (mathCall math (Scale b) name v) b) b
  else if Mathlib b && bool_decide (funcs b !! name = None) && str_eqb name (str! "j") then
    match args with
    | [a1; a2] =>
        do! order, b := eval a1 b in
        do! arg, b := eval a2 b in
        lift (besselCall math (Scale b) order arg) b
    | _ => Err (ArgumentCount name 2) b
    end
  else if str_eqb name (str! "length") then one_argument name args (fun v b => Done (Bc.fromInt64 (Bc.Length v)) b) b
  else if str_eqb name (str! "scale") then one_argument name args (fun v b => Done (Bc.fromInt64 (Bc.scale v)) b) b
  else if str_eqb name (str! "sqrt") then one_argument name args (fun v b => lift_number (Bc.Sqrt v (Scale b)) b) b
  else
    match funcs b !! name with
    | None => Err (UndefinedFunction name) b
    | Some f => call_function name f args b
    end.

Definition actuals_step (ps : list param) (args : list expr) (b : Interpreter) : res (list actual) :=
  match ps, args with
  | p :: ps', a :: args' =>
      do! v, b :=
        (if array p then
           match a with
           | wholeArrayExpr name => Done (arrayValue (default ∅ (arrays b !! name))) b
           | _ => Err (ArrayParameter (pname p)) b
           end
         else do! v, b := eval a b in Done (scalarValue v) b) in
      do! vs, b := actuals ps' args' b in
      Done (v :: vs) b
  | _, _ => Done [] b
  end.

Definition eval_option (o : option expr) (b : Interpreter) : res Bc.Number :=
  match o with Some e => eval e b | None => Done Bc.Zero b end.

Definition run_step (st : stmt) (b : Interpreter) : res result :=
  match st with
  | exprStmt e print =>
      do! v, b := eval e b in
      Done no_result (if print then write (Bc.wrappedStringBase v (OBase b) ++ [10]) b else b)
  | stringStmt v => Done no_result (write v b)
  | blockStmt ss => exec ss b
  | flowStmt f => Done (mkResult f Bc.Zero) b
  | returnStmt e => do! v, b := eval e b in Done (mkResult flowReturn v) b
  | defineStmt name f => Done no_result (set_funcs (<[name := f]> (funcs b)) b)
  | ifStmt c yes no => do! v, b := eval c b in exec (if Bc.Sign v =? 0 then no else yes) b
  | whileStmt c ss => while_loop c ss b
  | forStmt init cond post ss => do! _, b := eval_option init b in for_loop cond post ss b
  end.

Definition while_step (c : expr) (ss : list stmt) (b : Interpreter) : res result :=
  do! v, b := eval c b in
  if Bc.Sign v =? 0 then Done no_result b
  else
    do! r, b := exec ss b in
    match rflow r with
    | flowBreak => Done no_result b
    | flowReturn | flowQuit => Done r b
    | flowNone => while_loop c ss b
    end.

Definition for_step (cond post : option expr) (ss : list stmt) (b : Interpreter) : res result :=
  do! stop, b :=
    match cond with
    | Some c => do! v, b := eval c b in Done (Bc.Sign v =? 0) b
    | None => Done false b
    end in
  if (stop : bool) then Done no_result b
  else
    do! r, b := exec ss b in
    match rflow r with
    | flowBreak => Done no_result b
    | flowReturn | flowQuit => Done r b
    | flowNone => do! _, b := eval_option post b in for_loop cond post ss b
    end.

Definition exec_step (ss : list stmt) (b : Interpreter) : res result :=
  match ss with
  | [] => Done no_result b
  | st :: ss' =>
      do! r, b := run st b in
      match rflow r with flowNone => exec ss' b | _ => Done r b end
  end.

End Steps.

Fixpoint eval (fuel : nat) (e : expr) (b : Interpreter) : res Bc.Number :=
  match fuel with O => NoFuel | S n => eval_step (eval n) (arrayIndex n) (set n) (call n) e b end
with arrayIndex (fuel : nat) (e : expr) (b : Interpreter) : res Z :=
  match fuel with O => NoFuel | S n => arrayIndex_step (eval n) e b end
with set (fuel : nat) (name : list Z) (idx : option expr) (v : Bc.Number) (b : Interpreter) : res unit :=
  match fuel with O => NoFuel | S n => set_step (arrayIndex n) name idx v b end
with call (fuel : nat) (name : list Z) (args : list expr) (b : Interpreter) : res Bc.Number :=
  match fuel with O => NoFuel | S n => call_step (eval n) (actuals n) (exec n) name args b end
with actuals (fuel : nat) (ps : list param) (args : list expr) (b : Interpreter) : res (list actual) :=
  match fuel with O => NoFuel | S n => actuals_step (eval n) (actuals n) ps args b end
with run (fuel : nat) (st : stmt) (b : Interpreter) : res result :=
  match fuel with O => NoFuel | S n => run_step (eval n) (while_loop n) (for_loop n) (exec n) st b end
with while_loop (fuel : nat) (c : expr) (ss : list stmt) (b : Interpreter) : res result :=
  match fuel with O => NoFuel | S n => while_step (eval n) (while_loop n) (exec n) c ss b end
with for_loop (fuel : nat) (cond post : option expr) (ss : list stmt) (b : Interpreter) : res result :=
  match fuel with O => NoFuel | S n => for_step (eval n) (for_loop n) (exec n) cond post ss b end
with exec (fuel : nat) (ss : list stmt) (b : Interpreter) : res result :=
  match fuel with O => NoFuel | S n => exec_step (run n) (exec n) ss b end.

(** ** Programs *)

Fixpoint execute_loop (fuel : nat) (t : list token) (b : Interpreter) : res unit :=
  match fuel with
  | O => NoFuel
  | S n =>
      do! x, b := lift (let! x := index t 0 in Ret (inr x)) b in
      if is_kind tEOF x then Done tt b
      else if is_kind tError x then Err (LexError (text x)) b
      else
        do! (st, t), b := lift (statement n t) b in
        do! r, b := run n st b in
        match rflow r with
        | flowQuit => Err EOF b
        | flowBreak | flowReturn => Err OutsideContext b
        | flowNone =>
            do! y, b := lift (let! y := index t 0 in Ret (inr y)) b in
            if negb (is_kind tNL y) && negb (is_kind tEOF y) then
              Err (if is_kind tError y then LexError (text y) else ExpectedSeparator (tline y) (text y)) b
            else
              do! (_, t), b := lift (skipNL t) b in
              execute_loop n t b
        end
  end.

Definition Execute (fuel : nat) (src : list Z) (b : Interpreter) : res unit :=
  do! t, b := lift (let! t := lex src in Ret (inr t)) b in
  do! (_, t), b := lift (skipNL t) b in
  execute_loop fuel t b.

End Interpreter.

End BcInterp.
