(* ===== verification/BcSyntax.v ===== *)
(** * Programs of bc and their text

    Syntax trees are printed as tokens and tokens as text; lexing the text
    gives the tokens back, and parsing the tokens gives the trees back. The
    predicates [expr_ok] and [stmt_ok] say which trees the grammar has:
    they fix precedence and associativity. *)

From Stdlib Require Import ZArith Lia String.
From stdpp Require Import base tactics list numbers strings sets.
From S2P Require Import Prelude BcNumber BcLex BcParse.
Import BcLex BcParse.

Open Scope Z_scope.
Open Scope go_scope.

Module BcSyntax.

(** [P] holds with all fuel from some bound on. *)
Definition eventually (P : nat -> Prop) : Prop := exists N, forall n, (N <= n)%nat -> P n.

Lemma eventually_always (P : nat -> Prop) : (forall n, P n) -> eventually P.
Proof. intros H. exists 0%nat. auto. Qed.

Lemma eventually_S (P : nat -> Prop) : eventually (fun n => P (S n)) -> eventually P.
Proof. intros [N H]. exists (S N). intros [|n] Hn; [lia|]. apply H. lia. Qed.

Lemma eventually_next (P : nat -> Prop) : eventually P -> eventually (fun n => P (S n)).
Proof. intros [N H]. exists N. intros n Hn. apply H. lia. Qed.

Lemma eventually_mono (P Q : nat -> Prop) : eventually P -> (forall n, P n -> Q n) -> eventually Q.
Proof. intros [N H] HQ. exists N. auto. Qed.

Lemma eventually_and (P Q : nat -> Prop) : eventually P -> eventually Q -> eventually (fun n => P n /\ Q n).
Proof. intros [N H] [M G]. exists (N + M)%nat. intros n Hn. split; [apply H|apply G]; lia. Qed.

(** Use what holds eventually of the parts for the whole. *)
Ltac eventually_use H :=
  let n := fresh "n" in eapply (eventually_mono _ _ H); intros n; clear H; intros H; cbv beta in H.

(** ** The text of a token *)

Definition letter (v : list Z) : Prop := exists c, v = [c] /\ is_lower c = true.

(** The names of variables, arrays and functions, with the registers and the
    functions of the language. *)
Definition name_ok (v : list Z) : Prop :=
  letter v \/ v ∈ [str! "scale"; str! "ibase"; str! "obase"; str! "length"; str! "sqrt"].

Definition digit_char (c : Z) : bool := is_digit c || is_hex c || (c =? ch! ".").

Definition number_ok (v : list Z) : Prop := v <> [] /\ v <> str! "." /\ forallb digit_char v = true.

Definition string_ok (v : list Z) : Prop := Forall (fun c => c <> 34 /\ c <> 10) v /\ len v <= 1000.

Definition reserved : list (list Z) :=
  [str! "define"; str! "return"; str! "break"; str! "while"; str! "auto"; str! "quit"; str! "for"; str! "if"].

Definition operator_ok (v : list Z) : Prop := v ∈ operators ++ ((fun c => [c]) <$> single_operators).

Definition token_ok (t : token) : Prop :=
  tline t = 1 /\
  match kind t with
  | tNumber => number_ok (text t)
  | tIdent => name_ok (text t) \/ text t ∈ reserved
  | tOp => operator_ok (text t)
  | tNL => text t = [ch! ";"]
  | tString => string_ok (text t)
  | tEOF | tError => False
  end.

Definition token_text (t : token) : list Z :=
  if is_kind tString t then 34 :: text t ++ [34; 32] else text t ++ [32].

Definition tokens_text (ts : list token) : list Z := concat (token_text <$> ts).

Definition end_token : token := mkToken tEOF [] 1.

(** ** Lexing what was printed *)

Lemma number_body_read v r ln : forallb digit_char v = true -> number_body (v ++ 32 :: r) ln = (v, 32 :: r, ln).
Proof.
  induction v as [|c v IH]; [by destruct r|]. cbn [forallb app]. intros [Hc Hv]%andb_true_iff.
  cbn [number_body]. unfold digit_char in Hc. by rewrite Hc, IH.
Qed.

Lemma string_body_read v r ln :
  Forall (fun c => c <> 34 /\ c <> 10) v -> string_body (v ++ 34 :: r) ln = (Some (v, r), ln).
Proof.
  induction 1 as [|c v [H1 H2] _ IH]; [done|]. cbn [string_body app].
  by rewrite (proj2 (Z.eqb_neq _ _) H1), (proj2 (Z.eqb_neq _ _) H2), IH.
Qed.

Lemma digit_char_cases c : digit_char c = true -> 48 <= c <= 57 \/ 65 <= c <= 70 \/ c = 46.
Proof. unfold digit_char, is_digit, is_hex. rewrite !orb_true_iff, !andb_true_iff. lia. Qed.

(** The first step on the text of a token reads the token and leaves the
    blank after it. *)
Definition reads_as (v r : list Z) (t : token) : Prop :=
  match v ++ 32 :: r with c :: l => lex_step c l 1 = ([t], Some (32 :: r), 1) | [] => False end.

Lemma lex_number v r : number_ok v -> reads_as v r (mkToken tNumber v 1).
Proof.
  intros (Hne & Hdot & Hv). destruct v as [|c v]; [done|]. unfold reads_as. cbn [app].
  pose proof (number_body_read _ r 1 Hv) as E. cbn [app] in E. cbn [forallb] in Hv. apply andb_true_iff in Hv as [Hc Hv].
  pose proof (digit_char_cases c Hc) as Hr. unfold lex_step. rewrite E.
  assert (is_space c = false) as -> by (unfold is_space; rewrite !orb_false_iff, !Z.eqb_neq; lia).
  assert ((c =? 10) || (c =? ch! ";") = false) as -> by (rewrite !orb_false_iff, !Z.eqb_neq; lia).
  assert (has_prefix (c :: v ++ 32 :: r) (str! "/*") = false) as ->
    by (cbn [has_prefix]; by rewrite (proj2 (Z.eqb_neq c _)) by lia).
  rewrite (proj2 (Z.eqb_neq c 34)) by lia. destruct (is_hex c) eqn:Hx; [done|].
  assert (is_lower c = false) as -> by (unfold is_lower; rewrite andb_false_iff, !Z.leb_gt; lia).
  assert (is_digit c || (c =? ch! ".") = true) as ->.
  { unfold digit_char in Hc. by rewrite Hx, orb_false_r in Hc. }
  destruct (str_eqb_spec (c :: v) (str! ".")); [done|done].
Qed.

Lemma lex_string v r : string_ok v -> lex_step 34 (v ++ 34 :: r) 1 = ([mkToken tString v 1], Some r, 1).
Proof.
  intros [Hv Hl]. unfold lex_step. change (is_space 34) with false. cbv iota. cbn [Z.eqb Pos.eqb orb has_prefix andb].
  rewrite string_body_read by done. by rewrite (proj2 (Z.ltb_ge _ _)).
Qed.

Lemma lex_letter c r : is_lower c = true -> reads_as [c] r (mkToken tIdent [c] 1).
Proof.
  unfold is_lower. intros [H1 H2]%andb_true_iff. apply Z.leb_le in H1, H2.
  assert (Hin : c ∈ seqZ 97 26) by (apply elem_of_seqZ; lia). clear H1 H2.
  repeat (apply elem_of_cons in Hin as [->|Hin]; [reflexivity|]). by apply not_elem_of_nil in Hin.
Qed.

Ltac each_word H := repeat (apply elem_of_cons in H as [->|H]; [reflexivity|]); by apply not_elem_of_nil in H.

Lemma lex_word v r : name_ok v \/ v ∈ reserved -> reads_as v r (mkToken tIdent v 1).
Proof. intros [[(c & -> & Hc)|H]|H]; [by apply lex_letter|each_word H..]. Qed.

Lemma lex_operator v r : operator_ok v -> reads_as v r (mkToken tOp v 1).
Proof. intros H. each_word H. Qed.

Lemma lex_blank r n : lex_loop (S n) (32 :: r) 1 = lex_loop n r 1.
Proof. cbn [lex_loop]. change (lex_step 32 r 1) with (@nil token, Some r, 1). cbv iota. by destruct (lex_loop n r 1). Qed.

Lemma lex_loop_S n c l : 
  lex_loop (S n) (c :: l) 1 =
  match lex_step c l 1 with
  | (ts, Some l', ln') => let! ts' := lex_loop n l' ln' in Ret (ts ++ ts')
  | (ts, None, ln') => Ret (ts ++ [mkToken tEOF [] ln'])
  end.
Proof. done. Qed.

Lemma lex_token t r n :
  token_ok t -> lex_loop (S (S n)) (token_text t ++ r) 1 = let! ts := lex_loop n r 1 in Ret (t :: ts).
Proof.
  assert (Hread : forall v t, reads_as v r t -> lex_loop (S (S n)) ((v ++ [32]) ++ r) 1 = let! ts := lex_loop n r 1 in Ret (t :: ts)).
  { intros v t' H. unfold reads_as in H. rewrite <- app_assoc. cbn [app]. destruct (v ++ 32 :: r) as [|c l]; [done|].
    rewrite lex_loop_S, H. cbv iota. by rewrite lex_blank. }
  destruct t as [kd v ln]. unfold token_ok, token_text, is_kind. cbn [kind text tline]. intros [-> H].
  destruct kd; try done; first [rewrite bool_decide_eq_false_2 by done | rewrite bool_decide_eq_true_2 by done].
  - apply Hread. by rewrite H.
  - apply Hread. by apply lex_number.
  - apply Hread. by apply lex_word.
  - rewrite <- app_comm_cons, <- app_assoc. cbn [app]. rewrite lex_loop_S, (lex_string v (32 :: r)) by done. cbv iota.
    by rewrite lex_blank.
  - apply Hread. by apply lex_operator.
Qed.

Lemma lex_loop_fuel n m l ln ts : lex_loop n l ln = Ret ts -> (n <= m)%nat -> lex_loop m l ln = Ret ts.
Proof.
  revert m l ln ts. induction n as [|n IH]; intros m [|c l] ln ts H Hm; destruct m; try done; try lia.
  cbn [lex_loop] in *. destruct (lex_step c l ln) as [[us [l'|]] ln']; [|done].
  destruct (lex_loop n l' ln') as [ts'| |] eqn:E; try done. by rewrite (IH m l' ln' ts') by (done || lia).
Qed.

Lemma token_text_length t : token_ok t -> (2 <= length (token_text t))%nat.
Proof.
  destruct t as [kd v ln]. unfold token_ok, token_text, is_kind. cbn [kind text]. intros [_ H].
  assert (v = [] -> kd = tString).
  { intros ->. destruct kd; try done; exfalso; [by destruct H|by pose proof (lex_word [] [] H)|by pose proof (lex_operator [] [] H)]. }
  case_bool_decide; cbn [length]; rewrite length_app; [cbn; lia|]. destruct v; [tauto|cbn; lia].
Qed.

(** Lexing the text of tokens, before any text, gives the tokens. *)
Lemma lex_before ts r ts' :
  Forall token_ok ts -> lex_loop (length r) r 1 = Ret ts' -> lex (tokens_text ts ++ r) = Ret (ts ++ ts').
Proof.
  intros H Hr. assert (E : lex_loop (2 * length ts + length r) (tokens_text ts ++ r) 1 = Ret (ts ++ ts')).
  { induction H as [|t ts Ht _ IH]; [done|]. replace (2 * length (t :: ts) + length r)%nat with (S (S (2 * length ts + length r))) by (cbn; lia).
    change (tokens_text (t :: ts)) with (token_text t ++ tokens_text ts). by rewrite <- app_assoc, lex_token, IH. }
  eapply lex_loop_fuel; [exact E|]. rewrite length_app. apply Nat.add_le_mono_r. clear E. induction H as [|t ts Ht _ IH]; [done|].
  change (tokens_text (t :: ts)) with (token_text t ++ tokens_text ts). rewrite length_app. cbn [length].
  pose proof (token_text_length t Ht). lia.
Qed.

Lemma lex_tokens ts : Forall token_ok ts -> lex (tokens_text ts) = Ret (ts ++ [end_token]).
Proof. intros H. rewrite <- (app_nil_r (tokens_text ts)). by apply lex_before. Qed.

(** ** Expressions *)

Definition num (v : list Z) : token := mkToken tNumber v 1.
Definition id (v : list Z) : token := mkToken tIdent v 1.
Definition op (v : list Z) : token := mkToken tOp v 1.
Definition sep : token := mkToken tNL [ch! ";"] 1.

Fixpoint comma_tokens (l : list (list token)) : list token :=
  match l with
  | [] => []
  | [a] => a
  | a :: l' => a ++ op (str! ",") :: comma_tokens l'
  end.

Definition inc_text (delta : Z) : list Z := if delta =? 1 then str! "++" else str! "--".

Fixpoint expr_tokens (e : expr) : list token :=
  match e with
  | literalExpr v => [num v]
  | numberExpr _ => []
  | parenExpr e => op (str! "(") :: expr_tokens e ++ [op (str! ")")]
  | variableExpr name None => [id name]
  | variableExpr name (Some i) => id name :: op (str! "[") :: expr_tokens i ++ [op (str! "]")]
  | wholeArrayExpr name => [id name; op (str! "["); op (str! "]")]
  | unaryExpr o e => op o :: expr_tokens e
  | binaryExpr o l r => expr_tokens l ++ op o :: expr_tokens r
  | incExpr e delta false => op (inc_text delta) :: expr_tokens e
  | incExpr e delta true => expr_tokens e ++ [op (inc_text delta)]
  | callExpr name args => id name :: op (str! "(") :: comma_tokens (List.map expr_tokens args) ++ [op (str! ")")]
  end.

Definition is_primary (e : expr) : bool :=
  match e with unaryExpr _ _ | binaryExpr _ _ _ | incExpr _ _ _ => false | _ => true end.

Definition is_unary (e : expr) : bool := match e with binaryExpr _ _ _ => false | _ => true end.

(** The binary operators of the language: the tighter one binds, the higher
    its level; assignments and powers associate to the right. *)
Inductive associativity := LeftAssoc | RightAssoc.

Definition grammar : list (list Z * (Z * associativity)) :=
  [(str! "=", (1, RightAssoc)); (str! "+=", (1, RightAssoc)); (str! "-=", (1, RightAssoc)); (str! "*=", (1, RightAssoc));
   (str! "/=", (1, RightAssoc)); (str! "%=", (1, RightAssoc)); (str! "^=", (1, RightAssoc));
   (str! "+", (5, LeftAssoc)); (str! "-", (5, LeftAssoc));
   (str! "*", (6, LeftAssoc)); (str! "/", (6, LeftAssoc)); (str! "%", (6, LeftAssoc));
   (str! "^", (7, RightAssoc))].

Definition grammar_of (o : list Z) : option (Z * associativity) := snd <$> List.find (fun r => str_eqb o r.1) grammar.

Definition height (e : expr) : Z :=
  match e with binaryExpr o _ _ => match grammar_of o with Some (lv, _) => lv | None => 0 end | _ => 8 end.

(** The level of the operator of an expression for the parser, and the level
    at which it read the last operand. *)
Definition level (e : expr) : Z := match e with binaryExpr o _ _ => prec o | _ => 8 end.
Definition last_level (e : expr) : Z := match e with binaryExpr o _ _ => next_level o | _ => 8 end.

Fixpoint expr_ok (e : expr) : Prop :=
  match e with
  | literalExpr v => number_ok v
  | numberExpr _ => False
  | parenExpr e => expr_ok e
  | variableExpr name idx => name_ok name /\ match idx with Some i => expr_ok i | None => True end
  | wholeArrayExpr name => name_ok name
  | unaryExpr o e => o = str! "-" /\ is_unary e = true /\ expr_ok e
  | binaryExpr o l r =>
      match grammar_of o with
      | Some (lv, LeftAssoc) => expr_ok l /\ expr_ok r /\ lv <= height l /\ lv < height r
      | Some (lv, RightAssoc) => expr_ok l /\ expr_ok r /\ lv < height l /\ lv <= height r
      | None => False
      end
  | incExpr e delta post =>
      (delta = 1 \/ delta = -1) /\ (if post then is_primary e else is_unary e) = true /\ expr_ok e
  | callExpr name args => name_ok name /\ List.fold_right (fun a P => expr_ok a /\ P) True args
  end.

Lemma args_ok args : List.fold_right (fun a P => expr_ok a /\ P) True args <-> Forall expr_ok args.
Proof. induction args as [|a args IH]; cbn; [by split|]. by rewrite Forall_cons, IH. Qed.

Lemma expr_rect' (P : expr -> Prop) :
  (forall v, P (literalExpr v)) -> (forall n, P (numberExpr n)) -> (forall e, P e -> P (parenExpr e)) ->
  (forall name, P (variableExpr name None)) -> (forall name i, P i -> P (variableExpr name (Some i))) ->
  (forall name, P (wholeArrayExpr name)) -> (forall o e, P e -> P (unaryExpr o e)) ->
  (forall o l r, P l -> P r -> P (binaryExpr o l r)) -> (forall e delta post, P e -> P (incExpr e delta post)) ->
  (forall name args, Forall P args -> P (callExpr name args)) -> forall e, P e.
Proof.
  intros H1 H2 H3 H4 H5 H6 H7 H8 H9 H10. fix IH 1. intros [v|n|e|name [i|]|name|o e|o l r|e delta post|name args].
  - apply H1.
  - apply H2.
  - apply H3, IH.
  - apply H5, IH.
  - apply H4.
  - apply H6.
  - apply H7, IH.
  - apply H8; apply IH.
  - apply H9, IH.
  - apply H10. induction args; constructor; [apply IH|done].
Qed.

(** *** Operators *)

Lemma prec_pos o :
  1 <= prec o -> o ∈ [str! "="; str! "+="; str! "-="; str! "*="; str! "/="; str! "%="; str! "^="; str! "+"; str! "-";
                      str! "*"; str! "/"; str! "%"; str! "^"].
Proof.
  unfold prec, assignmentOp. cbn [existsb].
  repeat match goal with |- context [str_eqb o ?w] =>
    destruct (str_eqb_spec o w) as [->|_]; [intros _; by repeat constructor|] end. cbn. lia.
Qed.

Lemma next_level_prec o : prec o <= next_level o <= prec o + 1.
Proof. unfold next_level. destruct (_ || _); lia. Qed.

Lemma prec_range o : 0 <= prec o <= 7.
Proof. unfold prec. repeat case_match; lia. Qed.

Lemma prec_operator o : 1 <= prec o -> operator_ok o.
Proof.
  intros H%prec_pos. repeat (apply elem_of_cons in H as [->|H]; [by apply (bool_decide_unpack _)|]).
  by apply not_elem_of_nil in H.
Qed.

(** The tables of the parser are those of the grammar. *)
Lemma grammar_prec o lv a :
  grammar_of o = Some (lv, a) ->
  prec o = lv /\ next_level o = (match a with LeftAssoc => lv + 1 | RightAssoc => lv end) /\
  1 <= lv <= 7 /\ (a = LeftAssoc <-> 5 <= lv <= 6).
Proof.
  unfold grammar_of. destruct (List.find _ _) as [[o' p]|] eqn:E; [|done]. cbn. intros [= ->].
  apply List.find_some in E as [Hin E%str_eqb_eq]. cbn in E. subst o'.
  repeat (destruct Hin as [[= <- <- <-]|Hin]; [split_and!; try done; split; done || lia|]). done.
Qed.

Lemma expr_height e : expr_ok e ->
  level e = height e /\ last_level e = (if (5 <=? height e) && (height e <=? 6) then height e + 1 else height e).
Proof.
  destruct e; try done. cbn [expr_ok height level last_level]. destruct (grammar_of op0) as [[lv a]|] eqn:E; [|done]. intros _.
  apply grammar_prec in E as (-> & -> & Hl & Ha). split; [done|]. destruct (_ && _) eqn:B.
  - apply andb_true_iff in B as [B1%Z.leb_le B2%Z.leb_le]. by rewrite (proj2 Ha).
  - destruct a; [|done]. apply andb_false_iff in B. rewrite !Z.leb_gt in B. pose proof (proj1 Ha eq_refl). lia.
Qed.

Lemma binary_levels o l r :
  expr_ok (binaryExpr o l r) -> 1 <= prec o /\ expr_ok l /\ prec o < last_level l /\ expr_ok r /\ next_level o <= level r.
Proof.
  cbn [expr_ok]. destruct (grammar_of o) as [[lv a]|] eqn:E; [|done]. apply grammar_prec in E as (-> & -> & Hl & Ha).
  intros H. assert (expr_ok l /\ expr_ok r) as [Hol Hor] by (destruct a; tauto).
  destruct (expr_height l Hol) as [_ ->], (expr_height r Hor) as [-> _].
  destruct a; [pose proof (proj1 Ha eq_refl)|assert (~ (5 <= lv <= 6)) by (intros C; by apply Ha in C)];
    split_and!; try tauto; try lia; destruct (_ && _) eqn:B; try lia; apply andb_false_iff in B; rewrite !Z.leb_gt in B; lia.
Qed.

(** A token that ends an expression read at level [min]. *)
Definition follows (min : Z) (x : token) : Prop :=
  prec (text x) < min /\ text x ∉ [str! "("; str! "["; str! "++"; str! "--"].

Lemma follows_le min min' x : follows min x -> min <= min' -> follows min' x.
Proof. unfold follows. intros [H1 H2] H. split; [lia|done]. Qed.

Lemma accept_not w x t : text x <> w -> accept w (x :: t) = ok false (x :: t).
Proof. intros H. unfold accept. by rewrite (proj2 (str_eqb_neq _ _)). Qed.

Lemma accept_yes kd w ln t : accept w (mkToken kd w ln :: t) = ok true t.
Proof. unfold accept. cbn [text]. by rewrite str_eqb_refl. Qed.

Lemma want_yes kd w ln t : want w (mkToken kd w ln :: t) = ok tt t.
Proof. unfold want. by rewrite accept_yes. Qed.

Lemma take_next x y t : take (x :: y :: t) = ok x (y :: t).
Proof. done. Qed.

Lemma cur_head x t : cur (x :: t) = ok x (x :: t).
Proof. done. Qed.

(** *** Reading them back *)

Lemma andthen_ok {A B} (a : A) t (f : A -> list token -> parse B) : andthen (ok a t) f = f a t.
Proof. done. Qed.

Lemma binary_S n min t : binary (S n) min t = andthen (unary n t) (fun e t => binary_loop n min e t).
Proof. done. Qed.

Lemma binary_loop_S n min e x t :
  binary_loop (S n) min e (x :: t) =
  if prec (text x) <? min then ok e (x :: t)
  else andthen (take (x :: t)) (fun _ t => andthen (binary n (next_level (text x)) t)
         (fun r t => binary_loop n min (binaryExpr (text x) e r) t)).
Proof. done. Qed.

Lemma unary_S n t :
  unary (S n) t =
  andthen (accept (str! "-") t) (fun m t =>
    if m then andthen (unary n t) (fun e t => ok (unaryExpr (str! "-") e) t)
    else andthen (accept (str! "++") t) (fun m t =>
      if m then andthen (unary n t) (fun e t => ok (incExpr e 1 false) t)
      else andthen (accept (str! "--") t) (fun m t =>
        if m then andthen (unary n t) (fun e t => ok (incExpr e (-1) false) t)
        else andthen (primary n t) (fun e t =>
          andthen (accept (str! "++") t) (fun m t =>
            if m then ok (incExpr e 1 true) t
            else andthen (accept (str! "--") t) (fun m t =>
              if m then ok (incExpr e (-1) true) t else ok e t)))))).
Proof. done. Qed.

(** The three levels at which an expression can be read back. *)
Definition reads_primary (e : expr) : Prop :=
  forall x t, text x ∉ [str! "("; str! "["] -> eventually (fun n => primary n (expr_tokens e ++ x :: t) = ok e (x :: t)).

Definition reads_unary (e : expr) : Prop :=
  forall x t, follows 8 x -> eventually (fun n => unary n (expr_tokens e ++ x :: t) = ok e (x :: t)).

Definition reads_chain (e : expr) : Prop :=
  forall min x t, min <= level e -> follows (last_level e) x ->
  exists d, eventually (fun n => binary (d + n) min (expr_tokens e ++ x :: t) = binary_loop n min e (x :: t)).

Definition reads_binary (e : expr) : Prop :=
  forall min x t, min <= level e -> follows min x ->
  eventually (fun n => binary n min (expr_tokens e ++ x :: t) = ok e (x :: t)).

(** The first token of a primary expression is no prefix operator. *)
Lemma primary_head e :
  is_primary e = true -> expr_ok e -> exists x t, expr_tokens e = x :: t /\ text x ∉ [str! "-"; str! "++"; str! "--"].
Proof.
  assert (Hname : forall name, name_ok name -> name ∉ [str! "-"; str! "++"; str! "--"]).
  { intros name Hn Hin. pose proof (lex_word name [] (or_introl Hn)) as E.
    repeat (apply elem_of_cons in Hin as [->|Hin]; [done|]). by apply not_elem_of_nil in Hin. }
  destruct e as [v|n|e|name [i|]|name|o e|o l r|e delta post|name args]; cbn; intros Hp Hok; try done; eexists _, _;
    (split; [done|cbn [text id op num]]).
  - intros Hin. destruct Hok as (_ & _ & Hd). repeat (apply elem_of_cons in Hin as [->|Hin]; [done|]). by apply not_elem_of_nil in Hin.
  - by apply (bool_decide_unpack _).
  - apply Hname. tauto.
  - apply Hname. tauto.
  - by apply Hname.
  - apply Hname. tauto.
Qed.

(** A token that is not the one asked for; membership in a list of texts. *)
Ltac none_of H := repeat rewrite not_elem_of_cons in H.
Ltac skip_accept := rewrite accept_not by tauto; rewrite andthen_ok; cbv iota.

Lemma reads_primary_unary e : is_primary e = true -> expr_ok e -> reads_primary e -> reads_unary e.
Proof.
  intros Hp Hok HP x t [_ Hx]. destruct (primary_head e Hp Hok) as (y & t' & E & Hy). apply eventually_S.
  assert (Hx' : text x ∉ [str! "("; str! "["]) by (rewrite !not_elem_of_cons; none_of Hx; split_and!; [tauto|tauto|apply not_elem_of_nil]).
  specialize (HP x t Hx'). eventually_use HP. rewrite E in *. rewrite unary_S. cbn [app].
  none_of Hx. none_of Hy. cbn [app] in HP. do 3 skip_accept. rewrite HP, andthen_ok. do 2 skip_accept. done.
Qed.

Lemma reads_unary_chain e : is_unary e = true -> reads_unary e -> reads_chain e.
Proof.
  intros Hu HU min x t _ Hx. exists 1%nat. assert (last_level e = 8) as E by (by destruct e). rewrite E in Hx.
  specialize (HU x t Hx). eventually_use HU. cbn [Nat.add]. by rewrite binary_S, HU.
Qed.

(** An operator, its right operand, and on with the loop. *)
Lemma reads_chain_binary o l r :
  1 <= prec o -> prec o < last_level l -> next_level o <= level r ->
  reads_chain l -> reads_binary r -> reads_chain (binaryExpr o l r).
Proof.
  intros Ho Hl Hr HL HR min x t Hmin Hx. cbn [level last_level] in *.
  assert (Fo : follows (last_level l) (op o)).
  { split; [done|]. cbn [text op]. apply prec_pos in Ho.
    repeat (apply elem_of_cons in Ho as [->|Ho]; [by apply (bool_decide_unpack _)|]). by apply not_elem_of_nil in Ho. }
  assert (Hlm : min <= level l).
  { pose proof (prec_range o). destruct l; cbn [level last_level] in *; try lia. pose proof (next_level_prec op0). lia. }
  destruct (HL min (op o) (expr_tokens r ++ x :: t) Hlm Fo) as [d Hd]. exists (S d).
  specialize (HR (next_level o) x t Hr Hx). pose proof (eventually_and _ _ (eventually_next _ Hd) HR) as H.
  eventually_use H. destruct H as [H1 H2]. cbn [expr_tokens]. rewrite <- app_assoc. cbn [app].
  replace (S d + n)%nat with (d + S n)%nat by lia. rewrite H1, binary_loop_S. cbn [text op].
  rewrite (proj2 (Z.ltb_ge _ _)) by lia. destruct (expr_tokens r ++ x :: t) as [|y t'] eqn:E; [by destruct (expr_tokens r)|].
  rewrite take_next, andthen_ok, H2. by rewrite andthen_ok.
Qed.

Lemma reads_chain_full e : reads_chain e -> expr_ok e -> reads_binary e.
Proof.
  intros HC Hok min x t Hmin Hx. assert (min <= last_level e).
  { destruct e; cbn [level last_level] in *; try done. pose proof (next_level_prec op0). lia. }
  destruct (HC min x t Hmin) as [d Hd]; [by apply (follows_le min)|]. destruct Hd as [N HN]. exists (d + S N)%nat.
  intros n Hn. replace n with (d + S (n - d - 1))%nat by lia. rewrite HN by lia.
  rewrite binary_loop_S, (proj2 (Z.ltb_lt _ _)); [done|]. by destruct Hx.
Qed.

(** A prefix operator and its operand. *)
Lemma reads_prefix w e f :
  reads_unary e ->
  (forall n t, unary (S n) (op w :: t) = andthen (unary n t) (fun e t => ok (f e) t)) ->
  forall x t, follows 8 x -> eventually (fun n => unary n (op w :: expr_tokens e ++ x :: t) = ok (f e) (x :: t)).
Proof. intros HU Hf x t Hx. apply eventually_S. specialize (HU x t Hx). eventually_use HU. by rewrite Hf, HU. Qed.

Lemma unary_minus n t : unary (S n) (op (str! "-") :: t) = andthen (unary n t) (fun e t => ok (unaryExpr (str! "-") e) t).
Proof. done. Qed.

Lemma unary_inc delta n t :
  delta = 1 \/ delta = -1 ->
  unary (S n) (op (inc_text delta) :: t) = andthen (unary n t) (fun e t => ok (incExpr e delta false) t).
Proof. by intros [-> | ->]. Qed.

(** A postfix operator. *)
Lemma reads_postfix e delta :
  is_primary e = true -> expr_ok e -> delta = 1 \/ delta = -1 -> reads_primary e -> reads_unary (incExpr e delta true).
Proof.
  intros Hp Hok Hd HP x t _. destruct (primary_head e Hp Hok) as (y & t' & E & Hy). apply eventually_S.
  specialize (HP (op (inc_text delta)) (x :: t) ltac:(destruct Hd as [-> | ->]; by apply (bool_decide_unpack _))).
  eventually_use HP. cbn [expr_tokens]. rewrite <- app_assoc, E in *. rewrite unary_S. cbn [app] in *. none_of Hy.
  do 3 skip_accept. rewrite HP, andthen_ok. by destruct Hd as [-> | ->].
Qed.

(** The tokens an expression can start with. *)
Definition starts (y : token) : Prop :=
  (kind y = tNumber /\ number_ok (text y)) \/ (kind y = tIdent /\ name_ok (text y)) \/
  (kind y = tOp /\ text y ∈ [str! "("; str! "-"; str! "++"; str! "--"]).

Lemma expr_head e : expr_ok e -> exists y t, expr_tokens e = y :: t /\ starts y.
Proof.
  unfold starts. induction e using expr_rect'; cbn [expr_ok expr_tokens]; intros Hok; [|done|..].
  all: try (eexists _, _; split; [reflexivity|cbn [kind text num id]; tauto]).
  - eexists _, _. split; [reflexivity|]. right. right. split; [done|]. by apply (bool_decide_unpack _).
  - destruct Hok as (-> & _). eexists _, _. split; [reflexivity|]. right. right. split; [done|]. by apply (bool_decide_unpack _).
  - destruct IHe1 as (y & t & -> & Hy); [by destruct (binary_levels _ _ _ Hok) as (_ & ? & _)|]. eexists y, _. split; [reflexivity|done].
  - destruct Hok as ([-> | ->] & _ & Hok); destruct post.
    2,4: eexists _, _; (split; [reflexivity|]); right; right; (split; [done|]); by apply (bool_decide_unpack _).
    all: destruct (IHe Hok) as (y & t & -> & Hy); eexists y, _; (split; [reflexivity|done]).
Qed.

Lemma starts_not y w : starts y -> w ∈ [str! ")"; str! "]"; str! "{"; str! "}"; str! ","] ++ reserved -> text y <> w.
Proof.
  intros [[_ (_ & _ & Hn)]|[[_ Hn]|[_ Hn]]] Hw E; rewrite E in Hn.
  - repeat (apply elem_of_cons in Hw as [->|Hw]; [done|]). by apply not_elem_of_nil in Hw.
  - pose proof (lex_word w [] (or_introl Hn)) as Hl. destruct Hn as [(c & -> & Hc)|Hn].
    + repeat (apply elem_of_cons in Hw as [Hw|Hw]; [by simplify_eq|]). by apply not_elem_of_nil in Hw.
    + revert Hw. repeat (apply elem_of_cons in Hn as [->|Hn]; [by apply (bool_decide_unpack _)|]). by apply not_elem_of_nil in Hn.
  - revert Hw. repeat (apply elem_of_cons in Hn as [->|Hn]; [by apply (bool_decide_unpack _)|]). by apply not_elem_of_nil in Hn.
Qed.

Lemma follows_op min w :
  1 <= min -> prec w = 0 -> w ∉ [str! "("; str! "["; str! "++"; str! "--"] -> follows min (op w).
Proof. intros Hm Hw Hn. split; cbn [text op]; [lia|done]. Qed.

Lemma level_pos e : expr_ok e -> 1 <= level e.
Proof. destruct e; try done. intros H. by destruct (binary_levels _ _ _ H). Qed.

(** An expression between a token already read and a closing one. *)
Lemma reads_closed e w {A} (f : expr -> A) t :
  reads_binary e -> expr_ok e -> prec w = 0 -> w ∉ [str! "("; str! "["; str! "++"; str! "--"] ->
  eventually (fun n => andthen (binary n 1 (expr_tokens e ++ op w :: t)) (fun e t => andthen (want w t) (fun _ t => ok (f e) t)) = ok (f e) t).
Proof.
  intros HB Hok Hw Hn. specialize (HB 1 (op w) t (level_pos e Hok) (follows_op 1 w ltac:(lia) Hw Hn)).
  eventually_use HB. rewrite HB, andthen_ok. unfold op. by rewrite want_yes.
Qed.

Lemma primary_paren n y t :
  primary (S n) (op (str! "(") :: y :: t) =
  andthen (binary n 1 (y :: t)) (fun e t => andthen (want (str! ")") t) (fun _ t => ok (parenExpr e) t)).
Proof. done. Qed.

Lemma primary_index n v y t :
  text y <> str! "]" ->
  primary (S n) (id v :: op (str! "[") :: y :: t) =
  andthen (binary n 1 (y :: t)) (fun e t => andthen (want (str! "]") t) (fun _ t => ok (variableExpr v (Some e)) t)).
Proof. intros H. change (primary (S n) _) with (andthen (accept (str! "]") (y :: t)) (fun m t => if m then ok (wholeArrayExpr v) t else
    andthen (binary n 1 t) (fun e t => andthen (want (str! "]") t) (fun _ t => ok (variableExpr v (Some e)) t)))). by skip_accept. Qed.

Lemma primary_variable n v y t :
  text y ∉ [str! "("; str! "["] -> primary (S n) (id v :: y :: t) = ok (variableExpr v None) (y :: t).
Proof.
  intros H. none_of H.
  change (primary (S n) _) with (andthen (accept (str! "(") (y :: t)) (fun m t => if m then
      andthen (cur t) (fun y t => andthen (if str_eqb (text y) (str! ")") then ok [] t else arguments n t)
        (fun args t => andthen (want (str! ")") t) (fun _ t => ok (callExpr v args) t)))
    else andthen (accept (str! "[") t) (fun m t => if m then
      andthen (accept (str! "]") t) (fun m t => if m then ok (wholeArrayExpr v) t else
        andthen (binary n 1 t) (fun e t => andthen (want (str! "]") t) (fun _ t => ok (variableExpr v (Some e)) t)))
      else ok (variableExpr v None) t))).
  by do 2 skip_accept.
Qed.

Lemma primary_call n v y t :
  text y <> str! ")" ->
  primary (S n) (id v :: op (str! "(") :: y :: t) =
  andthen (arguments n (y :: t)) (fun args t => andthen (want (str! ")") t) (fun _ t => ok (callExpr v args) t)).
Proof.
  intros H. change (primary (S n) _) with (andthen (if str_eqb (text y) (str! ")") then ok [] (y :: t) else arguments n (y :: t))
    (fun args t => andthen (want (str! ")") t) (fun _ t => ok (callExpr v args) t))). by rewrite (proj2 (str_eqb_neq _ _)).
Qed.

Lemma arguments_S n t :
  arguments (S n) t =
  andthen (binary n 1 t) (fun e t => andthen (accept (str! ",") t) (fun more t =>
    if more then andthen (arguments n t) (fun es t => ok (e :: es) t) else ok [e] t)).
Proof. done. Qed.

Lemma arguments_read args t :
  args <> [] -> Forall reads_binary args -> Forall expr_ok args ->
  eventually (fun n => arguments n (comma_tokens (List.map expr_tokens args) ++ op (str! ")") :: t) = ok args (op (str! ")") :: t)).
Proof.
  intros Hne HB. induction HB as [|a args Ha HB IH]; [done|]. intros Hok. apply Forall_cons in Hok as [Hok Hoks]. apply eventually_S.
  destruct args as [|a' args].
  - specialize (Ha 1 (op (str! ")")) t (level_pos a Hok) ltac:(by apply follows_op; [|done|apply (bool_decide_unpack _)])).
    eventually_use Ha. cbn [List.map comma_tokens]. by rewrite arguments_S, Ha.
  - specialize (IH ltac:(done) Hoks).
    specialize (Ha 1 (op (str! ",")) (comma_tokens (List.map expr_tokens (a' :: args)) ++ op (str! ")") :: t) (level_pos a Hok)
      ltac:(by apply follows_op; [|done|apply (bool_decide_unpack _)])).
    pose proof (eventually_and _ _ Ha IH) as H. eventually_use H. destruct H as [H1 H2].
    change (comma_tokens (List.map expr_tokens (a :: a' :: args))) with (expr_tokens a ++ op (str! ",") :: comma_tokens (List.map expr_tokens (a' :: args))).
    rewrite <- app_assoc, <- app_comm_cons, arguments_S, H1, andthen_ok. unfold op at 1. rewrite accept_yes, andthen_ok. cbv iota.
    by rewrite H2.
Qed.

Definition reads (e : expr) : Prop :=
  (is_primary e = true -> reads_primary e) /\ (is_unary e = true -> reads_unary e) /\ reads_chain e /\ reads_binary e.

Lemma reads_of_primary e : is_primary e = true -> expr_ok e -> reads_primary e -> reads e.
Proof.
  intros Hp Hok HP. pose proof (reads_primary_unary e Hp Hok HP) as HU.
  assert (reads_chain e) as HC by (apply reads_unary_chain; [by destruct e|done]).
  split_and!; [done|done|done|by apply reads_chain_full].
Qed.

Lemma reads_of_unary e : is_unary e = true -> is_primary e = false -> expr_ok e -> reads_unary e -> reads e.
Proof.
  intros Hu Hp Hok HU. assert (reads_chain e) as HC by (by apply reads_unary_chain).
  split_and!; [by rewrite Hp|done|done|by apply reads_chain_full].
Qed.

Ltac closing := by apply (bool_decide_unpack _).

Lemma reads_call name args : Forall reads_binary args -> Forall expr_ok args -> reads_primary (callExpr name args).
Proof.
  intros HB Ha x t Hx. apply eventually_S. destruct args as [|a args]; [by apply eventually_always|].
  destruct (expr_head a) as (y & ty & E & Hy); [by apply Forall_cons in Ha as [? _]|].
  pose proof (arguments_read (a :: args) (x :: t) ltac:(done) HB Ha) as H. eventually_use H.
  assert (exists t', comma_tokens (List.map expr_tokens (a :: args)) = y :: t') as [t' E'].
  { destruct args; cbn [List.map comma_tokens]; rewrite E; by eexists. }
  cbn [expr_tokens]. rewrite <- !app_comm_cons, <- app_assoc. rewrite E' in *. cbn [app] in *.
  rewrite primary_call, H by (apply (starts_not _ _ Hy); closing). by rewrite andthen_ok.
Qed.

(** Every tree of the grammar is read back from its tokens. *)
Lemma expr_reads e : expr_ok e -> reads e.
Proof.
  induction e as [v|n|e IH|name|name i IH|name|o e IH|o l r IHl IHr|e delta post IH|name args IH] using expr_rect'; intros Hok;
    pose proof Hok as Hok'; cbn [expr_ok] in Hok'.
  - apply reads_of_primary; [done|done|]. intros x t Hx. by apply eventually_S, eventually_always.
  - done.
  - apply reads_of_primary; [done|done|]. intros x t Hx. apply eventually_S. destruct (IH Hok') as (_ & _ & _ & HB).
    destruct (expr_head e Hok') as (y & ty & E & Hy).
    pose proof (reads_closed e (str! ")") parenExpr (x :: t) HB Hok' eq_refl ltac:(closing)) as H. eventually_use H.
    cbn [expr_tokens]. rewrite <- app_comm_cons, <- app_assoc. rewrite E in *. cbn [app] in *. by rewrite primary_paren.
  - apply reads_of_primary; [done|done|]. intros x t Hx. apply eventually_S, eventually_always. intros n. by apply primary_variable.
  - apply reads_of_primary; [done|done|]. intros x t Hx. apply eventually_S. destruct Hok' as [_ Hi]. destruct (IH Hi) as (_ & _ & _ & HB).
    destruct (expr_head i Hi) as (y & ty & E & Hy).
    pose proof (reads_closed i (str! "]") (fun i => variableExpr name (Some i)) (x :: t) HB Hi eq_refl ltac:(closing)) as H. eventually_use H.
    cbn [expr_tokens]. rewrite <- !app_comm_cons, <- app_assoc. rewrite E in *. cbn [app] in *.
    rewrite primary_index; [done|]. apply (starts_not _ _ Hy). closing.
  - apply reads_of_primary; [done|done|]. intros x t Hx. by apply eventually_S, eventually_always.
  - destruct Hok' as (-> & Hu & He). destruct (IH He) as (_ & HU & _). apply reads_of_unary; [done|done|done|].
    intros x t Hx. by apply (reads_prefix _ e (unaryExpr (str! "-")) (HU Hu)).
  - destruct (binary_levels o l r Hok) as (Ho & Hl & Hlo & Hr & Hro). destruct (IHl Hl) as (_ & _ & HC & _), (IHr Hr) as (_ & _ & _ & HB).
    assert (reads_chain (binaryExpr o l r)) as H by (by apply reads_chain_binary).
    split_and!; [done|done|done|by apply reads_chain_full].
  - destruct Hok' as (Hd & Hp & He). destruct (IH He) as (HP & HU & _). apply reads_of_unary; [done|done|done|]. destruct post.
    + apply reads_postfix; auto.
    + intros x t Hx. apply (reads_prefix _ e (fun e => incExpr e delta false) (HU Hp)); [|done]. intros n t'. by apply unary_inc.
  - destruct Hok' as [_ Ha%args_ok]. apply reads_of_primary; [done|done|]. apply reads_call; [|done].
    apply Forall_forall. intros a Hin. rewrite Forall_forall in IH, Ha. by destruct (IH a Hin (Ha a Hin)) as (_ & _ & _ & H).
Qed.

(** ** Statements *)

Definition str_token (v : list Z) : token := mkToken tString v 1.

Definition relational : list (list Z) := [str! "=="; str! "!="; str! "<"; str! "<="; str! ">"; str! ">="].

(** A condition may compare two expressions. *)
Definition cond_ok (c : expr) : Prop :=
  expr_ok c \/ match c with binaryExpr o l r => o ∈ relational /\ expr_ok l /\ expr_ok r | _ => False end.

Definition param_tokens (p : param) : list token :=
  id (pname p) :: if array p then [op (str! "["); op (str! "]")] else [].

Definition option_tokens (o : option expr) : list token := match o with Some e => expr_tokens e | None => [] end.
Definition option_ok (P : expr -> Prop) (o : option expr) : Prop := match o with Some e => P e | None => True end.

Definition return_tokens (e : expr) : list token :=
  id (str! "return") :: match e with numberExpr _ => [] | _ => op (str! "(") :: expr_tokens e ++ [op (str! ")")] end.

Definition auto_tokens (vs : list param) : list token :=
  match vs with [] => [] | _ => id (str! "auto") :: comma_tokens (param_tokens <$> vs) ++ [sep] end.

Fixpoint stmt_tokens (s : stmt) : list token :=
  match s with
  | exprStmt e _ => expr_tokens e
  | stringStmt v => [str_token v]
  | blockStmt ss => op (str! "{") :: List.concat (List.map (fun s => stmt_tokens s ++ [sep]) ss) ++ [op (str! "}")]
  | flowStmt _ => [id (str! "break")]
  | returnStmt e => return_tokens e
  | defineStmt name f => id (str! "define") :: id name :: op (str! "(") :: function_tokens f
  | ifStmt c [b] [] => id (str! "if") :: op (str! "(") :: expr_tokens c ++ op (str! ")") :: stmt_tokens b
  | whileStmt c [b] => id (str! "while") :: op (str! "(") :: expr_tokens c ++ op (str! ")") :: stmt_tokens b
  | forStmt i c p [b] =>
      id (str! "for") :: op (str! "(") :: option_tokens i ++ sep :: option_tokens c ++ sep :: option_tokens p ++
      op (str! ")") :: stmt_tokens b
  | _ => []
  end
with function_tokens (f : function) : list token :=
  match f with
  | mkFunction ps vs ss =>
      comma_tokens (param_tokens <$> ps) ++ op (str! ")") :: op (str! "{") :: auto_tokens vs ++
      List.concat (List.map (fun s => stmt_tokens s ++ [sep]) ss) ++ [op (str! "}")]
  end.

Definition stmts_tokens (ss : list stmt) : list token := List.concat (List.map (fun s => stmt_tokens s ++ [sep]) ss).

Fixpoint stmt_ok (s : stmt) : Prop :=
  match s with
  | exprStmt e print => expr_ok e /\ print = negb (isAssignment e)
  | stringStmt v => string_ok v /\ v ∉ [str! "{"; str! "}"; str! "auto"]
  | blockStmt ss => List.fold_right (fun s P => stmt_ok s /\ P) True ss
  | flowStmt f => f = flowBreak
  | returnStmt e => e = numberExpr (Bc.fromInt64 0) \/ expr_ok e
  | defineStmt name f => name_ok name /\ function_ok f
  | ifStmt c [b] [] => cond_ok c /\ stmt_ok b
  | whileStmt c [b] => cond_ok c /\ stmt_ok b
  | forStmt i c p [b] => option_ok expr_ok i /\ option_ok cond_ok c /\ option_ok expr_ok p /\ stmt_ok b
  | _ => False
  end
with function_ok (f : function) : Prop :=
  match f with
  | mkFunction ps vs ss =>
      Forall (fun p => name_ok (pname p)) (ps ++ vs) /\ List.fold_right (fun s P => stmt_ok s /\ P) True ss
  end.

Lemma stmts_ok ss : List.fold_right (fun s P => stmt_ok s /\ P) True ss <-> Forall stmt_ok ss.
Proof. induction ss as [|s ss IH]; cbn; [by split|]. by rewrite Forall_cons, IH. Qed.

Lemma stmt_rect' (P : stmt -> Prop) :
  (forall e print, P (exprStmt e print)) -> (forall v, P (stringStmt v)) ->
  (forall ss, Forall P ss -> P (blockStmt ss)) -> (forall f, P (flowStmt f)) -> (forall e, P (returnStmt e)) ->
  (forall name ps vs ss, Forall P ss -> P (defineStmt name (mkFunction ps vs ss))) ->
  (forall c yes no, Forall P yes -> P (ifStmt c yes no)) -> (forall c ss, Forall P ss -> P (whileStmt c ss)) ->
  (forall i c p ss, Forall P ss -> P (forStmt i c p ss)) -> forall s, P s.
Proof.
  intros H1 H2 H3 H4 H5 H6 H7 H8 H9. fix IH 1.
  assert (Hs : forall ss, (fix all (l : list stmt) := match l with [] => True | s :: l' => P s /\ all l' end) ss -> Forall P ss).
  { intros ss. induction ss; [done|]. intros [? ?]. constructor; auto. }
  intros [e print|v|ss|f|e|name [ps vs ss]|c yes no|c ss|i c p ss].
  - apply H1.
  - apply H2.
  - apply H3, Hs. induction ss; [done|]. split; [apply IH|done].
  - apply H4.
  - apply H5.
  - apply H6, Hs. induction ss; [done|]. split; [apply IH|done].
  - apply H7, Hs. induction yes; [done|]. split; [apply IH|done].
  - apply H8, Hs. induction ss; [done|]. split; [apply IH|done].
  - apply H9, Hs. induction ss; [done|]. split; [apply IH|done].
Qed.

(** *** Parts of statements *)

Lemma follows_sep min : 1 <= min -> follows min sep.
Proof. intros H. split; [cbn; lia|closing]. Qed.

Lemma expression_reads e x t :
  expr_ok e -> follows 1 x -> eventually (fun n => expression n (expr_tokens e ++ x :: t) = ok e (x :: t)).
Proof. intros He Hx. by apply (expr_reads e He); [apply level_pos|]. Qed.


Lemma relationalExpression_eq n t :
  relationalExpression n t =
  andthen (expression n t) (fun l t => andthen (cur t) (fun x t =>
    if existsb (str_eqb (text x)) relational then
      andthen (take t) (fun o t => andthen (expression n t) (fun r t => ok (binaryExpr (text o) l r) t))
    else ok l t)).
Proof. done. Qed.

Lemma existsb_str_eqb v l : existsb (str_eqb v) l = bool_decide (v ∈ l).
Proof.
  induction l as [|w l IH]; cbn [existsb]; [done|]. rewrite IH. destruct (str_eqb_spec v w) as [->|H].
  - symmetry. apply bool_decide_eq_true_2. constructor.
  - cbn. apply bool_decide_ext. rewrite elem_of_cons. tauto.
Qed.

(** A condition up to the token after it. *)
Lemma relational_reads c x t :
  cond_ok c -> follows 1 x -> text x ∉ relational ->
  eventually (fun n => relationalExpression n (expr_tokens c ++ x :: t) = ok c (x :: t)).
Proof.
  intros Hc Hx Hr. destruct Hc as [Hc|Hc].
  - pose proof (expression_reads c x t Hc Hx) as H. eventually_use H.
    by rewrite relationalExpression_eq, H, andthen_ok, cur_head, andthen_ok, existsb_str_eqb, bool_decide_eq_false_2.
  - destruct c as [| | | | | |o l r| |]; try done. destruct Hc as (Ho & Hl & Hr').
    assert (follows 1 (op o)) as Fo.
    { clear -Ho. repeat (apply elem_of_cons in Ho as [->|Ho]; [apply follows_op; [done|done|closing]|]). by apply not_elem_of_nil in Ho. }
    pose proof (eventually_and _ _ (expression_reads l (op o) (expr_tokens r ++ x :: t) Hl Fo) (expression_reads r x t Hr' Hx)) as H.
    eventually_use H. destruct H as [H1 H2]. cbn [expr_tokens]. rewrite <- app_assoc. cbn [app].
    rewrite relationalExpression_eq, H1, andthen_ok, cur_head, andthen_ok, existsb_str_eqb, bool_decide_eq_true_2 by done.
    destruct (expr_tokens r ++ x :: t) as [|y t'] eqn:E; [by destruct (expr_tokens r)|]. by rewrite take_next, andthen_ok, H2.
Qed.

Lemma condition_reads c t :
  cond_ok c -> eventually (fun n => condition n (op (str! "(") :: expr_tokens c ++ op (str! ")") :: t) = ok c t).
Proof.
  intros Hc. pose proof (relational_reads c (op (str! ")")) t Hc ltac:(apply follows_op; [done|done|closing]) ltac:(closing)) as H.
  eventually_use H. unfold condition. unfold op at 1. by rewrite want_yes, andthen_ok, H, andthen_ok.
Qed.

Lemma parse_params_S n x t :
  parse_params (S n) (x :: t) =
  if is_kind tIdent x then
    andthen (take (x :: t)) (fun name t => andthen (accept (str! "[") t) (fun arr t =>
      andthen (if arr then want (str! "]") t else ok tt t) (fun _ t => andthen (accept (str! ",") t) (fun more t =>
        if more then andthen (parse_params n t) (fun ps t => ok (mkParam (text name) arr :: ps) t)
        else ok [mkParam (text name) arr] t))))
  else ok [] (x :: t).
Proof. done. Qed.

(** One parameter and the token after it. *)
Lemma param_reads n p x t :
  text x <> str! "[" ->
  parse_params (S n) (param_tokens p ++ x :: t) =
  andthen (accept (str! ",") (x :: t)) (fun more t =>
    if more then andthen (parse_params n t) (fun ps t => ok (p :: ps) t) else ok [p] t).
Proof.
  intros Hx. destruct p as [name [|]]; unfold param_tokens; cbn [pname array app].
  - done.
  - rewrite parse_params_S. change (is_kind tIdent (id name)) with true. cbv iota. rewrite take_next, andthen_ok. by skip_accept.
Qed.

Lemma params_read ps x t :
  kind x <> tIdent -> text x ∉ [str! "["; str! ","] ->
  eventually (fun n => parse_params n (comma_tokens (param_tokens <$> ps) ++ x :: t) = ok ps (x :: t)).
Proof.
  intros Hk Hx. none_of Hx. induction ps as [|p ps IH]; apply eventually_S.
  - apply eventually_always. intros n. cbn [fmap list_fmap comma_tokens app]. rewrite parse_params_S. unfold is_kind.
    by rewrite bool_decide_eq_false_2.
  - destruct ps as [|q ps].
    + apply eventually_always. intros n. cbn [fmap list_fmap comma_tokens]. rewrite param_reads by tauto. by skip_accept.
    + eventually_use IH. change (comma_tokens (param_tokens <$> p :: q :: ps)) with
        (param_tokens p ++ op (str! ",") :: comma_tokens (param_tokens <$> q :: ps)).
      rewrite <- app_assoc, <- app_comm_cons, param_reads by done. unfold op at 1. rewrite accept_yes, andthen_ok. cbv iota. by rewrite IH.
Qed.

(** *** Whole statements *)

Lemma statement_S n x t :
  statement (S n) (x :: t) =
  let expression_statement :=
    andthen (expression n (x :: t)) (fun e t => ok (exprStmt e (negb (isAssignment e))) t) in
  if is_kind tError x then lex_error x
  else if str_eqb (text x) (str! "{") then andthen (block n (x :: t)) (fun ss t => ok (blockStmt ss) t)
  else if is_kind tString x then andthen (take (x :: t)) (fun _ t => ok (stringStmt (text x)) t)
  else if is_kind tIdent x then
    if str_eqb (text x) (str! "define") then parseDefine n (x :: t)
    else if str_eqb (text x) (str! "if") then parseIf n (x :: t)
    else if str_eqb (text x) (str! "while") then parseWhile n (x :: t)
    else if str_eqb (text x) (str! "for") then parseFor n (x :: t)
    else if str_eqb (text x) (str! "break") then andthen (take (x :: t)) (fun _ t => ok (flowStmt flowBreak) t)
    else if str_eqb (text x) (str! "quit") then fail EOF
    else if str_eqb (text x) (str! "return") then
      andthen (take (x :: t)) (fun _ t => andthen (accept (str! "(") t) (fun open t =>
        if open then
          andthen (cur t) (fun y t =>
            andthen (if str_eqb (text y) (str! ")") then ok (numberExpr (Bc.fromInt64 0)) t else expression n t) (fun e t =>
              andthen (want (str! ")") t) (fun _ t => ok (returnStmt e) t)))
        else ok (returnStmt (numberExpr (Bc.fromInt64 0))) t))
    else expression_statement
  else expression_statement.
Proof. done. Qed.

Lemma statement_expr n x t :
  starts x ->
  statement (S n) (x :: t) = andthen (expression n (x :: t)) (fun e t => ok (exprStmt e (negb (isAssignment e))) t).
Proof.
  intros Hx. rewrite statement_S. cbv zeta.
  assert (Hn : forall w, w ∈ [str! ")"; str! "]"; str! "{"; str! "}"; str! ","] ++ reserved -> str_eqb (text x) w = false)
    by (intros w Hw; apply str_eqb_neq; by apply starts_not).
  rewrite !Hn by closing. unfold is_kind. destruct Hx as [[-> _]|[[-> _]|[-> _]]]; done.
Qed.

(** The first token of a statement. *)
Lemma stmt_head s : stmt_ok s ->
  exists y t, stmt_tokens s = y :: t /\ kind y ∉ [tNL; tEOF; tError] /\ text y ∉ [str! "}"; str! "auto"].
Proof.
  destruct s as [e print|v|ss|f|e|name [ps vs ss]|c [|b [|]] [|]|c [|b [|]]|i c p [|b [|]]]; cbn [stmt_ok stmt_tokens]; intros Hs; try done.
  all: try (eexists _, _; split; [reflexivity|]; split; closing).
  - destruct Hs as [He _]. destruct (expr_head e He) as (y & t & -> & Hy). exists y, t. split; [done|]. split.
    + destruct Hy as [[-> _]|[[-> _]|[-> _]]]; closing.
    + rewrite !not_elem_of_cons. split_and!; [apply (starts_not _ _ Hy); closing..|apply not_elem_of_nil].
  - eexists _, _. split; [reflexivity|]. split; [closing|]. destruct Hs as [_ Hs]. cbn [text str_token]. none_of Hs.
    rewrite !not_elem_of_cons. split_and!; [tauto|tauto|apply not_elem_of_nil].
Qed.

Definition reads_stmt (s : stmt) : Prop :=
  forall t, eventually (fun n => statement n (stmt_tokens s ++ sep :: t) = ok s (sep :: t)).

Lemma skipNL_head x t : kind x <> tNL -> skipNL (x :: t) = ok tt (x :: t).
Proof. intros H. cbn [skipNL]. unfold is_kind. by rewrite bool_decide_eq_false_2. Qed.

Lemma skipNL_sep t : skipNL (sep :: t) = skipNL t.
Proof. done. Qed.

Lemma program_loop_S n b x t :
  program_loop (S n) b (x :: t) =
  if is_kind tEOF x || (b && str_eqb (text x) (str! "}")) then ok [] (x :: t)
  else if is_kind tError x then lex_error x
  else
    andthen (statement n (x :: t)) (fun s t => andthen (cur t) (fun y t =>
      if negb (is_kind tNL y) && negb (is_kind tEOF y) && negb (str_eqb (text y) (str! "}"))
      then fail (ExpectedSeparator (tline y) (text y))
      else andthen (skipNL t) (fun _ t => andthen (program_loop n b t) (fun ss t => ok (s :: ss) t)))).
Proof. done. Qed.

Lemma stmts_tokens_cons s ss t : stmts_tokens (s :: ss) ++ t = stmt_tokens s ++ sep :: (stmts_tokens ss ++ t).
Proof. unfold stmts_tokens. cbn [List.map List.concat]. by rewrite <- !app_assoc. Qed.

(** No separator in front of the statements of a block. *)
Lemma stmts_skipNL ss t :
  Forall stmt_ok ss -> skipNL (stmts_tokens ss ++ op (str! "}") :: t) = ok tt (stmts_tokens ss ++ op (str! "}") :: t).
Proof.
  intros H. destruct H as [|s ss Hs _]; [done|]. rewrite stmts_tokens_cons. destruct (stmt_head s Hs) as (y & ty & -> & Hk & _).
  cbn [app]. apply skipNL_head. intros E. rewrite E in Hk. by apply Hk; constructor.
Qed.

Lemma program_reads ss t :
  Forall stmt_ok ss -> Forall reads_stmt ss ->
  eventually (fun n => program_loop n true (stmts_tokens ss ++ op (str! "}") :: t) = ok ss (op (str! "}") :: t)).
Proof.
  intros Hok HR. induction HR as [|s ss Hs HR IH]; [by apply eventually_S, eventually_always|].
  apply Forall_cons in Hok as [Hk Hok]. specialize (IH Hok). specialize (Hs (stmts_tokens ss ++ op (str! "}") :: t)).
  apply eventually_S. pose proof (eventually_and _ _ Hs IH) as H. eventually_use H. destruct H as [H1 H2].
  rewrite stmts_tokens_cons. destruct (stmt_head s Hk) as (y & ty & E & Hy & Hn). rewrite E in *. cbn [app] in *.
  rewrite program_loop_S. none_of Hn. none_of Hy. rewrite (proj2 (str_eqb_neq (text y) _)) by tauto.
  unfold is_kind. rewrite !bool_decide_eq_false_2 by tauto. cbn [orb andb]. rewrite H1, andthen_ok, cur_head, andthen_ok.
  cbn [sep kind negb andb]. rewrite bool_decide_eq_true_2 by done. cbn [negb andb].
  rewrite skipNL_sep, stmts_skipNL, andthen_ok, H2 by done. done.
Qed.

(** The statements between braces, from the opening one on. *)
Lemma braces_read {A} (f : list stmt -> A) ss t :
  Forall stmt_ok ss -> Forall reads_stmt ss ->
  eventually (fun n => andthen (program n true (stmts_tokens ss ++ op (str! "}") :: t)) (fun ss t =>
    andthen (want (str! "}") t) (fun _ t => ok (f ss) t)) = ok (f ss) t).
Proof.
  intros Hok HR. apply eventually_S. pose proof (program_reads ss t Hok HR) as H. eventually_use H.
  change (program (S n) true ?l) with (andthen (skipNL l) (fun _ t => program_loop n true t)).
  rewrite stmts_skipNL, andthen_ok, H, andthen_ok by done. unfold op at 1. by rewrite want_yes.
Qed.

Lemma block_reads ss t :
  Forall stmt_ok ss -> Forall reads_stmt ss ->
  eventually (fun n => block n (op (str! "{") :: stmts_tokens ss ++ op (str! "}") :: t) = ok ss t).
Proof.
  intros Hok HR. apply eventually_S. pose proof (braces_read (fun ss => ss) ss t Hok HR) as H. eventually_use H.
  change (block (S n) ?l) with (andthen (want (str! "{") l) (fun _ t => andthen (skipNL t) (fun _ t =>
    andthen (program n true t) (fun ss t => andthen (want (str! "}") t) (fun _ t => ok ss t))))).
  unfold op at 1. rewrite want_yes, andthen_ok, stmts_skipNL, andthen_ok by done. exact H.
Qed.

(** The statement after the head of a conditional or a loop. *)
Lemma body_reads s t :
  stmt_ok s -> reads_stmt s ->
  eventually (fun n => andthen (skipNL (stmt_tokens s ++ sep :: t)) (fun _ t => statement n t) = ok s (sep :: t)).
Proof.
  intros Hok HR. specialize (HR t). eventually_use HR. destruct (stmt_head s Hok) as (y & ty & E & Hy & _). rewrite E in *.
  cbn [app] in *. rewrite skipNL_head, andthen_ok; [done|]. intros Ek. rewrite Ek in Hy. by apply Hy; constructor.
Qed.

Lemma andthen_assoc {A B C} (c : parse A) (f : A -> list token -> parse B) (g : B -> list token -> parse C) :
  andthen (andthen c f) g = andthen c (fun a t => andthen (f a t) g).
Proof. by destruct c as [[e|[a t]]| |]. Qed.

Lemma parseIf_reads c s t :
  cond_ok c -> stmt_ok s -> reads_stmt s ->
  eventually (fun n => parseIf n (stmt_tokens (ifStmt c [s] []) ++ sep :: t) = ok (ifStmt c [s] []) (sep :: t)).
Proof.
  intros Hc Hs HR. apply eventually_S.
  pose proof (eventually_and _ _ (condition_reads c (stmt_tokens s ++ sep :: t) Hc) (body_reads s t Hs HR)) as H.
  eventually_use H. destruct H as [H1 H2].
  change (parseIf (S n) ?l) with (andthen (take l) (fun _ t => andthen (condition n t) (fun c t => andthen (skipNL t) (fun _ t =>
    andthen (statement n t) (fun b t => ok (ifStmt c [b] []) t))))).
  cbn [stmt_tokens app]. rewrite <- app_assoc. cbn [app]. rewrite take_next, andthen_ok, H1, andthen_ok, <- andthen_assoc.
  by rewrite H2.
Qed.

Lemma parseWhile_reads c s t :
  cond_ok c -> stmt_ok s -> reads_stmt s ->
  eventually (fun n => parseWhile n (stmt_tokens (whileStmt c [s]) ++ sep :: t) = ok (whileStmt c [s]) (sep :: t)).
Proof.
  intros Hc Hs HR. apply eventually_S.
  pose proof (eventually_and _ _ (condition_reads c (stmt_tokens s ++ sep :: t) Hc) (body_reads s t Hs HR)) as H.
  eventually_use H. destruct H as [H1 H2].
  change (parseWhile (S n) ?l) with (andthen (take l) (fun _ t => andthen (condition n t) (fun c t => andthen (skipNL t) (fun _ t =>
    andthen (statement n t) (fun b t => ok (whileStmt c [b]) t))))).
  cbn [stmt_tokens app]. rewrite <- app_assoc. cbn [app]. rewrite take_next, andthen_ok, H1, andthen_ok, <- andthen_assoc.
  by rewrite H2.
Qed.

(** An optional part of a [for] statement before a token that cannot start it. *)
Lemma option_reads (P : expr -> Prop) (f : nat -> list token -> parse expr) (stop : token -> bool) o x t :
  option_ok P o -> stop x = true ->
  (forall e, P e -> eventually (fun n => f n (expr_tokens e ++ x :: t) = ok e (x :: t))) ->
  (forall e, P e -> exists y t', expr_tokens e = y :: t' /\ stop y = false) ->
  eventually (fun n => andthen (cur (option_tokens o ++ x :: t)) (fun y t =>
    if stop y then ok None t else andthen (f n t) (fun e t => ok (Some e) t)) = ok o (x :: t)).
Proof.
  intros Ho Hx Hf Hs. destruct o as [e|]; cbn [option_ok option_tokens app] in *.
  - destruct (Hs e Ho) as (y & t' & E & Hy). specialize (Hf e Ho). eventually_use Hf. rewrite E in *. cbn [app] in *.
    by rewrite cur_head, andthen_ok, Hy, Hf.
  - apply eventually_always. intros n. by rewrite cur_head, andthen_ok, Hx.
Qed.

Lemma starts_kind y : starts y -> is_kind tNL y = false.
Proof. unfold is_kind. by intros [[-> _]|[[-> _]|[-> _]]]. Qed.

Lemma cond_head c : cond_ok c -> exists y t', expr_tokens c = y :: t' /\ starts y.
Proof.
  intros [Hc|Hc]; [by apply expr_head|]. destruct c as [| | | | | |o l r| |]; try done.
  destruct (expr_head l) as (y & t & E & Hy); [tauto|]. cbn [expr_tokens]. rewrite E. eexists y, _. by split.
Qed.

Lemma semicolon_sep l x t : semicolon (sep :: l ++ x :: t) = ok tt (l ++ x :: t).
Proof. by destruct l. Qed.

Lemma parseFor_reads i c p s t :
  option_ok expr_ok i -> option_ok cond_ok c -> option_ok expr_ok p -> stmt_ok s -> reads_stmt s ->
  eventually (fun n => parseFor n (stmt_tokens (forStmt i c p [s]) ++ sep :: t) = ok (forStmt i c p [s]) (sep :: t)).
Proof.
  intros Hi Hc Hp Hs HR. apply eventually_S.
  set (t4 := stmt_tokens s ++ sep :: t). set (t3 := option_tokens p ++ op (str! ")") :: t4). set (t2 := option_tokens c ++ sep :: t3).
  assert (Hstart : forall e, expr_ok e -> exists y t', expr_tokens e = y :: t' /\ is_kind tNL y = false).
  { intros e He. destruct (expr_head e He) as (y & t' & E & Hy). exists y, t'. split; [done|]. by apply starts_kind. }
  pose proof (option_reads expr_ok expression (is_kind tNL) i sep t2 Hi eq_refl
    (fun e He => expression_reads e sep t2 He (follows_sep 1 ltac:(lia))) Hstart) as H1.
  pose proof (option_reads cond_ok relationalExpression (is_kind tNL) c sep t3 Hc eq_refl) as H2.
  specialize (H2 ltac:(intros e He; apply relational_reads; [done|by apply follows_sep|closing])).
  specialize (H2 ltac:(intros e He; destruct (cond_head e He) as (y & t' & E & Hy); exists y, t'; split; [done|by apply starts_kind])).
  pose proof (option_reads expr_ok expression (fun x => str_eqb (text x) (str! ")")) p (op (str! ")")) t4 Hp eq_refl) as H3.
  specialize (H3 ltac:(intros e He; apply expression_reads; [done|apply follows_op; [done|done|closing]])).
  specialize (H3 ltac:(intros e He; destruct (expr_head e He) as (y & t' & E & Hy); exists y, t'; split; [done|];
    apply str_eqb_neq, (starts_not _ _ Hy); closing)).
  pose proof (body_reads s t Hs HR) as H4. fold t4 in H4.
  pose proof (eventually_and _ _ (eventually_and _ _ H1 H2) (eventually_and _ _ H3 H4)) as H. eventually_use H. clear H1 H2 H3 H4.
  destruct H as [[H1 H2] [H3 H4]].
  change (parseFor (S n) ?l) with (andthen (take l) (fun _ t => andthen (want (str! "(") t) (fun _ t => andthen (cur t) (fun x t =>
    andthen (if is_kind tNL x then ok None t else andthen (expression n t) (fun e t => ok (Some e) t)) (fun i t =>
    andthen (semicolon t) (fun _ t => andthen (cur t) (fun x t =>
    andthen (if is_kind tNL x then ok None t else andthen (relationalExpression n t) (fun e t => ok (Some e) t)) (fun c t =>
    andthen (semicolon t) (fun _ t => andthen (cur t) (fun x t =>
    andthen (if str_eqb (text x) (str! ")") then ok None t else andthen (expression n t) (fun e t => ok (Some e) t)) (fun p t =>
    andthen (want (str! ")") t) (fun _ t => andthen (skipNL t) (fun _ t =>
    andthen (statement n t) (fun b t => ok (forStmt i c p [b]) t)))))))))))))).
  assert (E : stmt_tokens (forStmt i c p [s]) ++ sep :: t = id (str! "for") :: op (str! "(") :: option_tokens i ++ sep :: t2).
  { unfold t2, t3, t4. cbn [stmt_tokens app]. by rewrite <- !app_assoc; cbn [app]; rewrite <- !app_assoc; cbn [app]; rewrite <- !app_assoc. }
  rewrite E, take_next, andthen_ok. unfold op at 1. rewrite want_yes, andthen_ok, <- andthen_assoc, H1, andthen_ok.
  unfold t2 at 1. rewrite semicolon_sep, andthen_ok, <- andthen_assoc, H2, andthen_ok.
  unfold t3 at 1. rewrite semicolon_sep, andthen_ok, <- andthen_assoc, H3, andthen_ok.
  unfold op at 1. rewrite want_yes, andthen_ok, <- andthen_assoc. by rewrite H4.
Qed.

(** The automatic variables of a function and its statements. *)
Lemma autos_read vs ss t :
  Forall stmt_ok ss ->
  let l := auto_tokens vs ++ stmts_tokens ss ++ op (str! "}") :: t in
  skipNL l = ok tt l /\
  eventually (fun n => andthen (cur l) (fun x t =>
      if str_eqb (text x) (str! "auto") then
        andthen (take t) (fun _ t => andthen (parse_params n t) (fun vs t => andthen (skipNL t) (fun _ t => ok vs t)))
      else ok [] t) = ok vs (stmts_tokens ss ++ op (str! "}") :: t)).
Proof.
  intros Hok l. destruct vs as [|v vs]; unfold l; cbn [auto_tokens app].
  - split; [by apply stmts_skipNL|]. apply eventually_always. intros n.
    assert (exists y t', stmts_tokens ss ++ op (str! "}") :: t = y :: t' /\ text y <> str! "auto") as (y & t' & -> & Hy).
    { destruct Hok as [|s ss Hs _]; [by eexists _, _|]. rewrite stmts_tokens_cons. destruct (stmt_head s Hs) as (y & t' & -> & _ & Hn).
      none_of Hn. eexists y, _. split; [done|]. tauto. }
    by rewrite cur_head, andthen_ok, (proj2 (str_eqb_neq _ _)).
  - split; [done|]. rewrite <- app_assoc. cbn [app].
    pose proof (params_read (v :: vs) sep (stmts_tokens ss ++ op (str! "}") :: t) ltac:(done) ltac:(closing)) as H. eventually_use H.
    rewrite cur_head, andthen_ok. cbn [text id]. rewrite str_eqb_refl.
    destruct (comma_tokens (param_tokens <$> v :: vs) ++ sep :: _) as [|y t'] eqn:E; [by destruct (comma_tokens (param_tokens <$> v :: vs))|].
    rewrite take_next, andthen_ok, H, andthen_ok, skipNL_sep. by rewrite stmts_skipNL.
Qed.

Lemma parseDefine_reads name ps vs ss t :
  Forall stmt_ok ss -> Forall reads_stmt ss ->
  eventually (fun n => parseDefine n (stmt_tokens (defineStmt name (mkFunction ps vs ss)) ++ sep :: t) =
    ok (defineStmt name (mkFunction ps vs ss)) (sep :: t)).
Proof.
  intros Hok HR. apply eventually_S. destruct (autos_read vs ss (sep :: t) Hok) as [Hskip H2].
  set (t2 := auto_tokens vs ++ stmts_tokens ss ++ op (str! "}") :: sep :: t) in *.
  pose proof (params_read ps (op (str! ")")) (op (str! "{") :: t2) ltac:(done) ltac:(closing)) as H1.
  pose proof (braces_read (fun ss => defineStmt name (mkFunction ps vs ss)) ss (sep :: t) Hok HR) as H3.
  pose proof (eventually_and _ _ H1 (eventually_and _ _ H2 H3)) as H. eventually_use H. clear H1 H2 H3. destruct H as [H1 [H2 H3]].
  assert (E : stmt_tokens (defineStmt name (mkFunction ps vs ss)) ++ sep :: t =
    id (str! "define") :: id name :: op (str! "(") :: comma_tokens (param_tokens <$> ps) ++ op (str! ")") :: op (str! "{") :: t2).
  { unfold t2. cbn [stmt_tokens function_tokens app]. rewrite <- !app_assoc. cbn [app]. by rewrite <- !app_assoc. }
  change (parseDefine (S n) ?l) with (andthen (take l) (fun _ t => andthen (take t) (fun name t =>
    if negb (is_kind tIdent name) then fail (ExpectedName (tline name))
    else andthen (want (str! "(") t) (fun _ t => andthen (parse_params n t) (fun ps t => andthen (want (str! ")") t) (fun _ t =>
      andthen (skipNL t) (fun _ t => andthen (want (str! "{") t) (fun _ t => andthen (skipNL t) (fun _ t => andthen (cur t) (fun x t =>
      andthen (if str_eqb (text x) (str! "auto") then
        andthen (take t) (fun _ t => andthen (parse_params n t) (fun vs t => andthen (skipNL t) (fun _ t => ok vs t))) else ok [] t) (fun vs t =>
      andthen (program n true t) (fun ss t => andthen (want (str! "}") t) (fun _ t =>
        ok (defineStmt (text name) (mkFunction ps vs ss)) t))))))))))))).
  rewrite E, take_next, andthen_ok, take_next, andthen_ok. change (is_kind tIdent (id name)) with true. cbn [negb].
  unfold op at 1. rewrite want_yes, andthen_ok, H1, andthen_ok. unfold op at 1. rewrite want_yes, andthen_ok.
  rewrite skipNL_head, andthen_ok by done. unfold op at 1. rewrite want_yes, andthen_ok, Hskip, andthen_ok, <- andthen_assoc, H2, andthen_ok.
  exact H3.
Qed.


Lemma return_reads e : e = numberExpr (Bc.fromInt64 0) \/ expr_ok e -> reads_stmt (returnStmt e).
Proof.
  intros He t'. apply eventually_S. destruct He as [->|He]; [by apply eventually_always|].
  destruct (expr_head e He) as (y & ty & E & Hy).
  pose proof (reads_closed e (str! ")") returnStmt (sep :: t') (proj2 (proj2 (proj2 (expr_reads e He)))) He eq_refl ltac:(closing)) as H.
  eventually_use H.
  assert (stmt_tokens (returnStmt e) ++ sep :: t' = id (str! "return") :: op (str! "(") :: expr_tokens e ++ op (str! ")") :: sep :: t') as ->.
  { unfold stmt_tokens, return_tokens. destruct e; try (by destruct He); cbn [app]; by rewrite <- app_assoc. }
  rewrite statement_S. cbn [text id]. change (is_kind tError _) with false. change (is_kind tString _) with false. change (is_kind tIdent _) with true.
  cbn [str_eqb Z.eqb Pos.eqb andb]. cbv iota zeta. rewrite take_next, andthen_ok. unfold op at 1. rewrite accept_yes, andthen_ok. cbv iota.
  rewrite E in *. cbn [app] in *. rewrite cur_head, andthen_ok, (proj2 (str_eqb_neq (text y) _)) by (apply (starts_not _ _ Hy); closing).
  exact H.
Qed.

(** Every statement of the grammar is read back from its tokens. *)
Lemma stmt_reads s : stmt_ok s -> reads_stmt s.
Proof.
  induction s as [e print|v|ss IH|f|e|name ps vs ss IH|c yes no IH|c ss IH|i c p ss IH] using stmt_rect'; cbn [stmt_ok]; intros Hok t.
  - destruct Hok as [He ->]. apply eventually_S. pose proof (expression_reads e sep t He (follows_sep 1 ltac:(lia))) as H. eventually_use H.
    destruct (expr_head e He) as (y & ty & E & Hy). cbn [stmt_tokens]. rewrite E in *. cbn [app] in *. by rewrite statement_expr, H.
  - apply eventually_S, eventually_always. intros n. cbn [stmt_tokens app]. rewrite statement_S. cbn [text str_token].
    destruct Hok as [_ Hv]. none_of Hv. rewrite (proj2 (str_eqb_neq v (str! "{"))) by tauto. done.
  - apply stmts_ok in Hok. assert (Forall reads_stmt ss) as HR by (rewrite Forall_forall in *; auto). apply eventually_S.
    pose proof (block_reads ss (sep :: t) Hok HR) as H. eventually_use H.
    change (stmt_tokens (blockStmt ss)) with (op (str! "{") :: stmts_tokens ss ++ [op (str! "}")]). rewrite <- app_comm_cons, <- app_assoc. cbn [app].
    rewrite statement_S. cbn [text op]. change (is_kind tError _) with false. rewrite str_eqb_refl. cbv iota zeta.
    by rewrite H.
  - subst f. by apply eventually_S, eventually_always.
  - by apply return_reads.
  - destruct Hok as [_ [_ Hok%stmts_ok]]. assert (Forall reads_stmt ss) as HR by (rewrite Forall_forall in *; auto).
    apply eventually_S. pose proof (parseDefine_reads name ps vs ss t Hok HR) as H. eventually_use H. exact H.
  - destruct yes as [|s [|]], no; try done. destruct Hok as [Hc Hs]. apply Forall_cons in IH as [IH _].
    apply eventually_S. pose proof (parseIf_reads c s t Hc Hs (IH Hs)) as H. eventually_use H. exact H.
  - destruct ss as [|s [|]]; try done. destruct Hok as [Hc Hs]. apply Forall_cons in IH as [IH _].
    apply eventually_S. pose proof (parseWhile_reads c s t Hc Hs (IH Hs)) as H. eventually_use H. exact H.
  - destruct ss as [|s [|]]; try done. destruct Hok as (Hi & Hc & Hp & Hs). apply Forall_cons in IH as [IH _].
    apply eventually_S. pose proof (parseFor_reads i c p s t Hi Hc Hp Hs (IH Hs)) as H. eventually_use H. exact H.
Qed.

(** ** The text of a program *)

Lemma op_ok w : operator_ok w -> token_ok (op w).
Proof. done. Qed.

Lemma id_ok w : name_ok w -> token_ok (id w).
Proof. by split; [|left]. Qed.

Lemma word_ok w : w ∈ reserved -> token_ok (id w).
Proof. by split; [|right]. Qed.

Ltac token_ok_tac :=
  repeat first
    [ done | apply Forall_nil; exact I | apply Forall_cons; split | apply Forall_app; split
    | by apply id_ok | apply op_ok; by apply (bool_decide_unpack _) | apply word_ok; by apply (bool_decide_unpack _) ].

Lemma comma_tokens_ok l : Forall (Forall token_ok) l -> Forall token_ok (comma_tokens l).
Proof. induction 1 as [|a [|b l] Ha Hl IH]; [constructor|done|]. cbn [comma_tokens]. token_ok_tac. Qed.

Lemma inc_text_ok delta : token_ok (op (inc_text delta)).
Proof. unfold inc_text. destruct (delta =? 1); token_ok_tac. Qed.

Lemma expr_tokens_ok e : expr_ok e -> Forall token_ok (expr_tokens e).
Proof.
  induction e as [v|n|e IH|name|name i IH|name|o e IH|o l r IHl IHr|e delta post IH|name args IH] using expr_rect'; cbn [expr_ok]; intros Hok.
  - by constructor.
  - done.
  - cbn [expr_tokens]. token_ok_tac. auto.
  - destruct Hok. cbn [expr_tokens]. token_ok_tac.
  - destruct Hok. cbn [expr_tokens]. token_ok_tac. auto.
  - cbn [expr_tokens]. token_ok_tac.
  - destruct Hok as (-> & _ & He). cbn [expr_tokens]. token_ok_tac. auto.
  - destruct (binary_levels o l r Hok) as (Ho & Hl & _ & Hr & _). apply prec_operator in Ho. cbn [expr_tokens]. token_ok_tac; auto.
  - destruct Hok as (_ & _ & He). destruct post; cbn [expr_tokens]; apply IH in He; pose proof (inc_text_ok delta); token_ok_tac.
  - destruct Hok as [Hn Ha%args_ok]. cbn [expr_tokens]. token_ok_tac. apply comma_tokens_ok. apply Forall_forall. intros l Hl.
    apply list_elem_of_In, in_map_iff in Hl as (a & <- & Ha'%list_elem_of_In). rewrite Forall_forall in IH, Ha. auto.
Qed.

Lemma cond_tokens_ok c : cond_ok c -> Forall token_ok (expr_tokens c).
Proof.
  intros [H|H]; [by apply expr_tokens_ok|]. destruct c as [| | | | | |o l r| |]; try done. destruct H as (Ho & Hl%expr_tokens_ok & Hr%expr_tokens_ok).
  assert (operator_ok o) by (repeat (apply elem_of_cons in Ho as [->|Ho]; [closing|]); by apply not_elem_of_nil in Ho).
  cbn [expr_tokens]. token_ok_tac.
Qed.

Lemma option_tokens_ok (P : expr -> Prop) o :
  (forall e, P e -> Forall token_ok (expr_tokens e)) -> option_ok P o -> Forall token_ok (option_tokens o).
Proof. destruct o; cbn; auto. Qed.

Lemma params_tokens_ok ps : Forall (fun p => name_ok (pname p)) ps -> Forall token_ok (comma_tokens (param_tokens <$> ps)).
Proof.
  intros H. apply comma_tokens_ok, Forall_fmap. eapply Forall_impl; [exact H|]. intros [name [|]] Hn; cbn [compose param_tokens pname array] in *; token_ok_tac.
Qed.

Lemma sep_ok : token_ok sep.
Proof. done. Qed.

Lemma stmts_tokens_ok ss : Forall (fun s => Forall token_ok (stmt_tokens s)) ss -> Forall token_ok (stmts_tokens ss).
Proof.
  induction 1 as [|s ss Hs _ IH]; [constructor|]. pose proof (stmts_tokens_cons s ss []) as E. rewrite !app_nil_r in E. rewrite E. token_ok_tac.
Qed.

Lemma stmt_tokens_ok s : stmt_ok s -> Forall token_ok (stmt_tokens s).
Proof.
  induction s as [e print|v|ss IH|f|e|name ps vs ss IH|c yes no IH|c ss IH|i c p ss IH] using stmt_rect'; cbn [stmt_ok]; intros Hok.
  - by apply expr_tokens_ok, Hok.
  - constructor; [|done]. by destruct Hok.
  - apply stmts_ok in Hok. assert (Forall token_ok (stmts_tokens ss)) by (apply stmts_tokens_ok; rewrite Forall_forall in *; auto).
    change (stmt_tokens (blockStmt ss)) with (op (str! "{") :: stmts_tokens ss ++ [op (str! "}")]). token_ok_tac.
  - cbn [stmt_tokens]. token_ok_tac.
  - cbn [stmt_tokens]. unfold return_tokens. destruct Hok as [->|He]; [token_ok_tac|]. apply expr_tokens_ok in He.
    revert He. generalize (expr_tokens e). intros l He. destruct e; token_ok_tac.
  - destruct Hok as [Hn [[Hp Hv]%Forall_app Hok%stmts_ok]].
    assert (Forall token_ok (stmts_tokens ss)) by (apply stmts_tokens_ok; rewrite Forall_forall in *; auto).
    apply params_tokens_ok in Hp, Hv.
    change (stmt_tokens _) with (id (str! "define") :: id name :: op (str! "(") :: comma_tokens (param_tokens <$> ps) ++ op (str! ")") ::
      op (str! "{") :: auto_tokens vs ++ stmts_tokens ss ++ [op (str! "}")]).
    token_ok_tac. unfold auto_tokens. destruct vs; token_ok_tac.
  - destruct yes as [|s [|]], no; try done. destruct Hok as [Hc%cond_tokens_ok Hs]. apply Forall_cons in IH as [IH _]. specialize (IH Hs).
    cbn [stmt_tokens]. token_ok_tac.
  - destruct ss as [|s [|]]; try done. destruct Hok as [Hc%cond_tokens_ok Hs]. apply Forall_cons in IH as [IH _]. specialize (IH Hs).
    cbn [stmt_tokens]. token_ok_tac.
  - destruct ss as [|s [|]]; try done. destruct Hok as (Hi & Hc & Hp & Hs). apply Forall_cons in IH as [IH _]. specialize (IH Hs).
    apply (option_tokens_ok _ _ expr_tokens_ok) in Hi, Hp. apply (option_tokens_ok _ _ cond_tokens_ok) in Hc.
    cbn [stmt_tokens]. token_ok_tac.
Qed.

Definition program_text (ss : list stmt) : list Z := tokens_text (stmts_tokens ss).

Lemma program_tokens_ok ss : Forall stmt_ok ss -> Forall token_ok (stmts_tokens ss).
Proof. intros H. apply stmts_tokens_ok. eapply Forall_impl; [exact H|]. intros s. apply stmt_tokens_ok. Qed.

Lemma lex_program ss : Forall stmt_ok ss -> lex (program_text ss) = Ret (stmts_tokens ss ++ [end_token]).
Proof. intros H. by apply lex_tokens, program_tokens_ok. Qed.

End BcSyntax.
