(* ===== verification/BcTotal.v ===== *)
(** * Lexing and parsing of bc always return

    The lexer reads every text, and the parser returns a tree or an error on
    every list of tokens that ends as the lexer's lists end: it neither
    panics nor loops, and a tree takes at least one token. *)

From Stdlib Require Import ZArith Lia String.
From stdpp Require Import base tactics list numbers strings.
From S2P Require Import Prelude BcNumber BcLex BcParse BcSyntax.
Import BcLex BcParse BcSyntax.

Open Scope Z_scope.
Open Scope go_scope.

Module BcTotal.

(** Tokens up to an end token, the only one of its kind; its text is empty. *)
Definition ended (t : list token) : Prop :=
  exists ts ln, t = ts ++ [mkToken tEOF [] ln] /\ Forall (fun x => kind x <> tEOF) ts.

(** The tokens left are a proper list again, at least [d] shorter. *)
Definition returns {A} (d : nat) (t : list token) (c : parse A) : Prop :=
  match c with
  | Ret (inr (_, t')) => ended t' /\ (length t' + d <= length t)%nat
  | Ret (inl _) => True
  | _ => False
  end.

Lemma returns_ok {A} d t (a : A) t' : ended t' -> (length t' + d <= length t)%nat -> returns d t (ok a t').
Proof. by split. Qed.

Lemma returns_fail {A} d t e : returns d t (@fail A e).
Proof. done. Qed.

Lemma returns_andthen {A B} d d' t t1 (c : parse A) (f : A -> list token -> parse B) :
  returns d t1 c ->
  (forall a t', ended t' -> (length t' + d <= length t1)%nat -> returns d' t (f a t')) -> returns d' t (BcParse.andthen c f).
Proof. destruct c as [[e|[a t']]| |]; cbn; try done. intros [H1 H2] Hf. auto. Qed.

Lemma returns_from {A} d d' t t' (c : parse A) :
  returns d' t' c -> (length t' + d <= length t + d')%nat -> returns d t c.
Proof. destruct c as [[e|[a t'']]| |]; cbn; try done. intros [H1 H2] ?. split; [done|lia]. Qed.

Lemma ended_pos t : ended t -> (1 <= length t)%nat.
Proof. intros (ts & ln & -> & _). rewrite length_app. cbn. lia. Qed.

(** The first token, and the others when it is not the end. *)
Lemma ended_cases t :
  ended t -> (exists ln, t = [mkToken tEOF [] ln]) \/ exists x t', t = x :: t' /\ kind x <> tEOF /\ ended t'.
Proof.
  intros (ts & ln & -> & H). destruct H as [|x ts Hx H]; [left; by exists ln|]. right. exists x, (ts ++ [mkToken tEOF [] ln]).
  split_and!; [done|done|]. by exists ts, ln.
Qed.

(** ** The steps of the parser *)

Lemma cur_returns t : ended t -> exists x t', t = x :: t' /\ BcParse.cur t = ok x t.
Proof. intros [[ln ->]|(x & t' & -> & _)]%ended_cases; eexists _, _; split; reflexivity. Qed.

Lemma take_returns t :
  ended t -> exists x t', BcParse.take t = ok x t' /\ ended t' /\ (length t' <= length t)%nat /\
    (kind x <> tEOF \/ text x <> [] -> (length t' + 1 <= length t)%nat).
Proof.
  intros H. destruct (ended_cases t H) as [[ln ->]|(x & t' & -> & Hx & Ht')].
  - eexists _, _. split_and!; [done|done|done|]. intros [H'|H']; by destruct H'.
  - exists x, t'. split_and!; [|done|cbn; lia..]. pose proof (ended_pos t' Ht'). destruct t'; [cbn in *; lia|done].
Qed.

(** [accept] is only used with a text that is not empty. *)
Lemma accept_returns w t :
  w <> [] -> ended t -> exists b t', accept w t = ok b t' /\ ended t' /\ (length t' + (if b then 1 else 0) <= length t)%nat.
Proof.
  intros Hw H. destruct (ended_cases t H) as [[ln ->]|(x & t' & -> & Hx & Ht')]; unfold accept; cbn [text].
  - exists false. eexists. destruct w; [done|]. split_and!; [done|done|cbn; lia].
  - destruct (str_eqb _ _); [exists true, t'|exists false, (x :: t')]; (split_and!; [done|done|cbn; lia]).
Qed.

Lemma want_returns w t : w <> [] -> ended t -> returns 1 t (want w t).
Proof.
  intros Hw H. unfold want. destruct (accept_returns w t Hw H) as (b & t' & -> & Ht' & Hl). rewrite andthen_ok.
  destruct b; [by split|]. destruct (cur_returns t' Ht') as (x & t'' & -> & ->). done.
Qed.

Lemma skipNL_returns t : ended t -> returns 0 t (skipNL t).
Proof.
  intros (ts & ln & -> & H). induction H as [|x ts Hx H IH]; cbn [app skipNL].
  - split; [|cbn; lia]. exists [], ln. by split.
  - destruct (is_kind tNL x); [eapply returns_from; [exact IH|cbn; lia]|]. split; [|lia]. exists (x :: ts), ln. split; [done|by constructor].
Qed.

Lemma prec_nonempty o : 1 <= prec o -> o <> [].
Proof. by intros H ->. Qed.

(** ** Expressions

    The fuel each function needs on [l] tokens. *)

(** Go through a step of the parser with what it leaves. *)
Ltac step_accept :=
  match goal with
  | H : ended ?t |- context [accept ?w ?t] =>
      let b := fresh "b" in let t' := fresh "t" in let E := fresh "E" in let H' := fresh "H" in let L := fresh "L" in
      destruct (accept_returns w t ltac:(done) H) as (b & t' & E & H' & L); rewrite E, andthen_ok; clear E; destruct b; cbv iota in *
  end.
Ltac step_call lem := eapply returns_andthen; [apply lem; solve [eassumption|done|cbn [length] in *; lia]|intros ?e ?t ?H ?L].
Ltac step_ok := apply returns_ok; [assumption|lia].

Definition exprs_return (n : nat) : Prop :=
  (forall min t, ended t -> 1 <= min -> (4 * length t + 2 <= n)%nat -> returns 1 t (binary n min t)) /\
  (forall min e t, ended t -> 1 <= min -> (4 * length t <= n)%nat -> returns 0 t (binary_loop n min e t)) /\
  (forall t, ended t -> (4 * length t + 1 <= n)%nat -> returns 1 t (unary n t)) /\
  (forall t, ended t -> (4 * length t <= n)%nat -> returns 1 t (primary n t)) /\
  (forall t, ended t -> (4 * length t + 3 <= n)%nat -> returns 1 t (arguments n t)).

Lemma primary_S n t :
  primary (S n) t =
  BcParse.andthen (BcParse.take t) (fun x t =>
    match kind x with
    | tNumber => ok (literalExpr (text x)) t
    | tIdent =>
        BcParse.andthen (accept (str! "(") t) (fun call t =>
          if call then
            BcParse.andthen (cur t) (fun y t =>
              BcParse.andthen (if str_eqb (text y) (str! ")") then ok [] t else arguments n t) (fun args t =>
                BcParse.andthen (want (str! ")") t) (fun _ t => ok (callExpr (text x) args) t)))
          else
            BcParse.andthen (accept (str! "[") t) (fun indexed t =>
              if indexed then
                BcParse.andthen (accept (str! "]") t) (fun whole t =>
                  if whole then ok (wholeArrayExpr (text x)) t
                  else
                    BcParse.andthen (binary n 1 t) (fun idx t =>
                      BcParse.andthen (want (str! "]") t) (fun _ t => ok (variableExpr (text x) (Some idx)) t)))
              else ok (variableExpr (text x) None) t))
    | tOp =>
        if str_eqb (text x) (str! "(") then
          BcParse.andthen (binary n 1 t) (fun e t => BcParse.andthen (want (str! ")") t) (fun _ t => ok (parenExpr e) t))
        else fail (ExpectedExpression (tline x) (text x))
    | _ => fail (ExpectedExpression (tline x) (text x))
    end).
Proof. done. Qed.

Lemma exprs_return_all n : exprs_return n.
Proof.
  induction n as [|n (IHb & IHl & IHu & IHp & IHa)].
  { split_and!; intros; match goal with H : ended ?t |- _ => pose proof (ended_pos t H) end; lia. }
  split_and!.
  - intros min t Ht Hm Hn. rewrite binary_S. step_call IHu. eapply returns_from; [apply IHl; [done|done|lia]|lia].
  - intros min e t Ht Hm Hn. destruct (ended_cases t Ht) as [[ln ->]|(x & t' & -> & Hx & Ht')]; rewrite binary_loop_S.
    + rewrite (proj2 (Z.ltb_lt _ _)) by (cbn; lia). step_ok.
    + destruct (Z.ltb_spec (prec (text x)) min); [step_ok|]. pose proof (next_level_prec (text x)).
      destruct t' as [|y t']; [pose proof (ended_pos [] Ht'); cbn in *; lia|]. rewrite take_next, andthen_ok. cbn [length] in *.
      step_call IHb. eapply returns_from; [apply IHl; [done|done|cbn [length] in *; lia]|cbn [length] in *; lia].
  - intros t Ht Hn. rewrite unary_S. do 3 (step_accept; [step_call IHu; step_ok|]).
    step_call IHp. step_accept; [step_ok|]. step_accept; step_ok.
  - intros t Ht Hn. rewrite primary_S. destruct (take_returns t Ht) as (x & t' & -> & Ht' & Hl & Hs). rewrite andthen_ok.
    destruct (kind x) eqn:Ek; try done; specialize (Hs ltac:(by left)).
    + step_ok.
    + step_accept.
      * destruct (cur_returns t0 H) as (y & t'' & _ & ->). rewrite andthen_ok. destruct (str_eqb _ _).
        -- rewrite andthen_ok. step_call want_returns. step_ok.
        -- step_call IHa. step_call want_returns. step_ok.
      * step_accept; [|step_ok]. step_accept; [step_ok|]. step_call IHb. step_call want_returns. step_ok.
    + destruct (str_eqb _ _); [|done]. step_call IHb. step_call want_returns. step_ok.
  - intros t Ht Hn. rewrite arguments_S. step_call IHb. step_accept; [|step_ok]. step_call IHa. step_ok.
Qed.

Lemma expression_returns n t : ended t -> (4 * length t + 2 <= n)%nat -> returns 1 t (expression n t).
Proof. intros Ht Hn. apply (exprs_return_all n); [done|lia|done]. Qed.

Lemma relational_returns n t : ended t -> (4 * length t + 2 <= n)%nat -> returns 1 t (relationalExpression n t).
Proof.
  intros Ht Hn. rewrite relationalExpression_eq. step_call expression_returns.
  destruct (cur_returns _ H) as (x & t' & E & ->). rewrite andthen_ok. destruct (existsb _ _); [|step_ok].
  destruct (take_returns _ H) as (y & t'' & -> & H' & L' & _). rewrite andthen_ok. step_call expression_returns. step_ok.
Qed.

Lemma condition_returns n t : ended t -> (4 * length t + 2 <= n)%nat -> returns 1 t (condition n t).
Proof. intros Ht Hn. unfold condition. step_call want_returns. step_call relational_returns. step_call want_returns. step_ok. Qed.

Lemma params_return n t : ended t -> (length t + 1 <= n)%nat -> returns 0 t (parse_params n t).
Proof.
  revert t. induction n as [|n IH]; intros t Ht Hn; [lia|]. destruct (cur_returns t Ht) as (x & t' & E & _). rewrite E in *.
  rewrite parse_params_S. unfold is_kind. case_bool_decide as Hk; [|step_ok].
  destruct (take_returns _ Ht) as (y & t2 & Ey & H2 & L2 & S2). rewrite Ey, andthen_ok.
  assert (length t2 + 1 <= length (x :: t'))%nat by (apply S2; left; destruct t'; injection Ey as <- _; by rewrite Hk).
  step_accept.
  - step_call want_returns. step_accept; [|step_ok]. step_call IH. step_ok.
  - rewrite andthen_ok. step_accept; [|step_ok]. step_call IH. step_ok.
Qed.

Lemma semicolon_returns t : ended t -> returns 1 t (semicolon t).
Proof.
  intros Ht. unfold semicolon. destruct (cur_returns t Ht) as (x & t' & E & ->). rewrite andthen_ok. unfold is_kind. case_bool_decide as Hk; [|done].
  destruct (take_returns t Ht) as (y & t2 & Ey & H2 & L2 & S2). rewrite Ey, andthen_ok. apply returns_ok; [done|].
  apply S2. left. rewrite E in Ey. destruct t'; injection Ey as <- _; by rewrite Hk.
Qed.

Definition stmts_return (n : nat) : Prop :=
  (forall t, ended t -> (8 * length t + 2 <= n)%nat -> returns 1 t (statement n t)) /\
  (forall t, ended t -> (8 * length t <= n)%nat -> returns 1 t (block n t)) /\
  (forall b t, ended t -> (8 * length t + 4 <= n)%nat -> returns 0 t (program n b t)) /\
  (forall b t, ended t -> (8 * length t + 3 <= n)%nat -> returns 0 t (program_loop n b t)) /\
  (forall t, ended t -> (8 * length t <= n)%nat -> returns 1 t (parseDefine n t)) /\
  (forall t, ended t -> (8 * length t <= n)%nat -> returns 1 t (parseIf n t)) /\
  (forall t, ended t -> (8 * length t <= n)%nat -> returns 1 t (parseWhile n t)) /\
  (forall t, ended t -> (8 * length t <= n)%nat -> returns 1 t (parseFor n t)).

(** The token a statement starts with is taken. *)
Ltac step_take :=
  match goal with
  | H : ended ?t |- context [BcParse.take ?t] =>
      let x := fresh "x" in let t' := fresh "t" in let E := fresh "E" in let H' := fresh "H" in let L := fresh "L" in let S := fresh "S" in
      destruct (take_returns t H) as (x & t' & E & H' & L & S); rewrite E, andthen_ok; clear E
  end.
Ltac step_cur :=
  match goal with
  | H : ended ?t |- context [BcParse.cur ?t] =>
      let x := fresh "y" in let E := fresh "E" in
      destruct (cur_returns t H) as (x & ? & _ & E); rewrite E, andthen_ok; clear E
  end.

Lemma block_step n t : stmts_return n -> ended t -> (8 * length t <= S n)%nat -> returns 1 t (block (S n) t).
Proof.
  intros (_ & _ & IHp & _) Ht Hn. change (block (S n) t) with (andthen (want (str! "{") t) (fun _ t => andthen (skipNL t) (fun _ t =>
    andthen (program n true t) (fun ss t => andthen (want (str! "}") t) (fun _ t => ok ss t))))).
  step_call want_returns. step_call skipNL_returns. step_call IHp. step_call want_returns. step_ok.
Qed.

Lemma program_step n b t : stmts_return n -> ended t -> (8 * length t + 4 <= S n)%nat -> returns 0 t (program (S n) b t).
Proof.
  intros (_ & _ & _ & IHl & _) Ht Hn. change (program (S n) b t) with (andthen (skipNL t) (fun _ t => program_loop n b t)).
  step_call skipNL_returns. eapply returns_from; [apply IHl; [done|lia]|lia].
Qed.

Lemma program_loop_step n b t : stmts_return n -> ended t -> (8 * length t + 3 <= S n)%nat -> returns 0 t (program_loop (S n) b t).
Proof.
  intros (IHs & _ & _ & IHl & _) Ht Hn. destruct (cur_returns t Ht) as (x & t' & E & _). rewrite E in *. rewrite program_loop_S.
  destruct (_ || _); [step_ok|]. destruct (is_kind tError x); [done|]. step_call IHs. step_cur. destruct (_ && _); [done|].
  step_call skipNL_returns. step_call IHl. step_ok.
Qed.

Lemma parseIf_step n t : stmts_return n -> ended t -> (8 * length t <= S n)%nat -> returns 1 t (parseIf (S n) t).
Proof.
  intros (IHs & _) Ht Hn. change (parseIf (S n) t) with (andthen (take t) (fun _ t => andthen (condition n t) (fun c t => andthen (skipNL t) (fun _ t =>
    andthen (statement n t) (fun b t => ok (ifStmt c [b] []) t))))).
  pose proof (ended_pos t Ht). step_take. step_call condition_returns. step_call skipNL_returns. step_call IHs. step_ok.
Qed.

Lemma parseWhile_step n t : stmts_return n -> ended t -> (8 * length t <= S n)%nat -> returns 1 t (parseWhile (S n) t).
Proof.
  intros (IHs & _) Ht Hn. change (parseWhile (S n) t) with (andthen (take t) (fun _ t => andthen (condition n t) (fun c t => andthen (skipNL t) (fun _ t =>
    andthen (statement n t) (fun b t => ok (whileStmt c [b]) t))))).
  pose proof (ended_pos t Ht). step_take. step_call condition_returns. step_call skipNL_returns. step_call IHs. step_ok.
Qed.

Lemma parseFor_step n t : stmts_return n -> ended t -> (8 * length t <= S n)%nat -> returns 1 t (parseFor (S n) t).
Proof.
  intros (IHs & _) Ht Hn. pose proof (ended_pos t Ht).
  change (parseFor (S n) ?l) with (andthen (take l) (fun _ t => andthen (want (str! "(") t) (fun _ t => andthen (cur t) (fun x t =>
    andthen (if is_kind tNL x then ok None t else andthen (expression n t) (fun e t => ok (Some e) t)) (fun i t =>
    andthen (semicolon t) (fun _ t => andthen (cur t) (fun x t =>
    andthen (if is_kind tNL x then ok None t else andthen (relationalExpression n t) (fun e t => ok (Some e) t)) (fun c t =>
    andthen (semicolon t) (fun _ t => andthen (cur t) (fun x t =>
    andthen (if str_eqb (text x) (str! ")") then ok None t else andthen (expression n t) (fun e t => ok (Some e) t)) (fun p t =>
    andthen (want (str! ")") t) (fun _ t => andthen (skipNL t) (fun _ t =>
    andthen (statement n t) (fun b t => ok (forStmt i c p [b]) t)))))))))))))).
  step_take. step_call want_returns. step_cur.
  eapply (returns_andthen 0 1 t t1); [destruct (is_kind tNL y); [step_ok|]; step_call expression_returns; step_ok|intros i t2 H2 L2].
  step_call semicolon_returns. step_cur.
  eapply (returns_andthen 0 1 t t3); [destruct (is_kind tNL y0); [step_ok|]; step_call relational_returns; step_ok|intros c t4 H4 L4].
  step_call semicolon_returns. step_cur.
  eapply (returns_andthen 0 1 t t5); [destruct (str_eqb _ _); [step_ok|]; step_call expression_returns; step_ok|intros p t6 H6 L6].
  step_call want_returns. step_call skipNL_returns. step_call IHs. step_ok.
Qed.

Lemma parseDefine_step n t : stmts_return n -> ended t -> (8 * length t <= S n)%nat -> returns 1 t (parseDefine (S n) t).
Proof.
  intros (_ & _ & IHp & _) Ht Hn. pose proof (ended_pos t Ht).
  change (parseDefine (S n) ?l) with (andthen (take l) (fun _ t => andthen (take t) (fun name t =>
    if negb (is_kind tIdent name) then fail (ExpectedName (tline name))
    else andthen (want (str! "(") t) (fun _ t => andthen (parse_params n t) (fun ps t => andthen (want (str! ")") t) (fun _ t =>
      andthen (skipNL t) (fun _ t => andthen (want (str! "{") t) (fun _ t => andthen (skipNL t) (fun _ t => andthen (cur t) (fun x t =>
      andthen (if str_eqb (text x) (str! "auto") then
        andthen (take t) (fun _ t => andthen (parse_params n t) (fun vs t => andthen (skipNL t) (fun _ t => ok vs t))) else ok [] t) (fun vs t =>
      andthen (program n true t) (fun ss t => andthen (want (str! "}") t) (fun _ t =>
        ok (defineStmt (text name) (mkFunction ps vs ss)) t))))))))))))).
  step_take. step_take. destruct (negb _); [done|]. step_call want_returns. step_call params_return. step_call want_returns.
  step_call skipNL_returns. step_call want_returns. step_call skipNL_returns. step_cur.
  match goal with |- returns _ _ (andthen (if _ then andthen (take ?u) _ else _) _) => eapply (returns_andthen 0 1 t u) end.
  - destruct (str_eqb _ _); [|step_ok]. step_take. step_call params_return. step_call skipNL_returns. step_ok.
  - intros vs t' H' L'. step_call IHp. step_call want_returns. step_ok.
Qed.

Lemma statement_step n t : stmts_return n -> ended t -> (8 * length t + 2 <= S n)%nat -> returns 1 t (statement (S n) t).
Proof.
  intros (_ & IHb & _ & _ & IHd & IHi & IHw & IHf) Ht Hn. destruct (cur_returns t Ht) as (x & t' & E & _).
  pose proof (take_returns t Ht) as (y & t2 & Ey & H2 & L2 & S2). rewrite E in *. pose proof (ended_pos _ Ht).
  assert (y = x) as -> by (destruct t'; injection Ey as <- _; done).
  rewrite statement_S. cbv zeta. destruct (is_kind tError x) eqn:Ek; [done|]. destruct (str_eqb _ _).
  { step_call IHb. step_ok. }
  assert (He : returns 1 (x :: t') (andthen (expression n (x :: t')) (fun e t => ok (exprStmt e (negb (isAssignment e))) t)))
    by (step_call expression_returns; step_ok).
  unfold is_kind. case_bool_decide as Hk; [rewrite Ey, andthen_ok; apply returns_ok; [done|]; apply S2; left; by rewrite Hk|].
  case_bool_decide as Hi; [|done]. assert (length t2 + 1 <= length (x :: t'))%nat by (apply S2; left; by rewrite Hi).
  destruct (str_eqb _ _); [apply IHd; [done|lia]|]. destruct (str_eqb _ _); [apply IHi; [done|lia]|].
  destruct (str_eqb _ _); [apply IHw; [done|lia]|]. destruct (str_eqb _ _); [apply IHf; [done|lia]|]. rewrite Ey, !andthen_ok.
  destruct (str_eqb _ _); [step_ok|]. destruct (str_eqb _ _); [done|]. destruct (str_eqb _ _); [|done].
  step_accept; [|step_ok]. step_cur. destruct (str_eqb _ _).
  - rewrite andthen_ok. step_call want_returns. step_ok.
  - step_call expression_returns. step_call want_returns. step_ok.
Qed.

Lemma stmts_return_all n : stmts_return n.
Proof.
  induction n as [|n IH].
  { split_and!; intros; match goal with H : ended ?t |- _ => pose proof (ended_pos t H) end; lia. }
  split_and!; intros; eauto using statement_step, block_step, program_step, program_loop_step, parseDefine_step, parseIf_step,
    parseWhile_step, parseFor_step.
Qed.

(** ** The lexer *)

Lemma comment_shorter l ln r ln' : comment l ln = (Some r, ln') -> (length r <= length l)%nat.
Proof.
  revert ln. induction l as [|c l IH]; [done|]. intros ln. destruct l as [|d l]; [done|]. cbn [comment].
  destruct (_ && _); [intros [= <- _]; cbn; lia|]. intros H%IH. cbn [length] in *. lia.
Qed.

Lemma string_shorter l ln v r ln' : string_body l ln = (Some (v, r), ln') -> (length r <= length l)%nat.
Proof.
  revert ln v. induction l as [|c l IH]; [done|]. intros ln v. cbn [string_body]. destruct (c =? 34); [intros [= _ <- _]; cbn; lia|].
  destruct (string_body _ _) as [[[v' r']|] ln2] eqn:E; [|done]. intros [= _ <- <-]. apply IH in E. cbn. lia.
Qed.

Lemma number_shorter k l ln : (length l <= k)%nat -> (length (number_body l ln).1.2 <= length l)%nat.
Proof.
  revert l ln. induction k as [|k IH]; intros [|d l] ln Hk; [cbn; lia|cbn in Hk; lia|cbn; lia|]. cbn [number_body length] in *.
  destruct (is_digit d || is_hex d || (d =? ch! ".")).
  - specialize (IH l ln ltac:(lia)). destruct (number_body l ln) as [[v r] ln']. cbn in *. lia.
  - destruct l as [|e l]; [cbn; lia|]. destruct (_ && _); [|cbn; lia]. cbn [length] in *. specialize (IH l (ln + 1) ltac:(lia)). lia.
Qed.

Lemma number_progress c r ln v l ln' :
  digit_char c = true -> number_body (c :: r) ln = (v, l, ln') -> (length l <= length r)%nat.
Proof.
  unfold digit_char. intros Hc. cbn [number_body]. rewrite Hc. pose proof (number_shorter (length r) r ln ltac:(lia)) as H.
  destruct (number_body r ln) as [[v' r'] ln2]. intros [= _ <- _]. exact H.
Qed.

Lemma word_progress words c r w :
  Forall (fun w => w <> []) words -> first_prefix words (c :: r) = Some w -> (length (drop (length w) (c :: r)) <= length r)%nat.
Proof.
  intros Hw H. apply List.find_some in H as [H%list_elem_of_In _]. rewrite Forall_forall in Hw. specialize (Hw w H).
  destruct w as [|x w]; [done|]. cbn. rewrite length_drop. lia.
Qed.

Lemma lex_step_progress c r ln ts l ln' :
  lex_step c r ln = (ts, l, ln') ->
  Forall (fun x => kind x <> tEOF) ts /\ match l with Some l => (length l <= length r)%nat | None => True end.
Proof.
  unfold lex_step. destruct (is_space c); [by intros [= <- <- _]|].
  destruct (_ || _); [intros [= <- <- _]; split; [by constructor|lia]|]. destruct (has_prefix _ _).
  { destruct (comment _ _) as [[r'|] ln2] eqn:E; intros [= <- <- _]; (split; [by constructor|]); [|done].
    apply comment_shorter in E. rewrite length_drop in E. lia. }
  destruct (c =? 34).
  { destruct (string_body _ _) as [[[v r']|] ln2] eqn:E; [|intros [= <- <- _]; by split; [constructor|]].
    apply string_shorter in E. destruct (1000 <? len v); intros [= <- <- _]; by split; [constructor|]. }
  destruct (is_hex c) eqn:Eh.
  { destruct (number_body _ _) as [[v r'] ln2] eqn:E. intros [= <- <- _]. split; [by constructor|]. eapply number_progress; [|exact E].
    unfold digit_char. by rewrite Eh, orb_true_r. }
  destruct (is_lower c).
  { destruct (first_prefix _ _) as [w|] eqn:E; intros [= <- <- _]; (split; [by constructor|]); [|lia]. eapply word_progress; [|exact E]. by repeat constructor. }
  destruct (is_digit c || (c =? ch! ".")) eqn:Ed.
  { destruct (number_body _ _) as [[v r'] ln2] eqn:E. intros [= <- <- _]. split; [by repeat constructor; destruct (str_eqb _ _)|].
    eapply number_progress; [|exact E]. unfold digit_char. apply orb_true_iff in Ed as [->| ->]; by rewrite ?orb_true_r. }
  destruct (first_prefix _ _) as [w|] eqn:E; [intros [= <- <- _]; (split; [by constructor|]); eapply word_progress; [|exact E]; by repeat constructor|].
  destruct (existsb _ _); [intros [= <- <- _]; by split; [constructor|]|].
  destruct r as [|d r]; [intros [= <- <- _]; by split; [constructor|]|].
  destruct (_ && _); intros [= <- <- _]; (split; [by constructor|cbn; lia]).
Qed.

Lemma lex_loop_returns n l ln : (length l <= n)%nat -> exists t, lex_loop n l ln = Ret t /\ ended t.
Proof.
  revert l ln. induction n as [|n IH]; intros [|c r] ln Hn; try (cbn in Hn; lia).
  1,2: eexists; split; [done|]; by exists [], ln.
  cbn [lex_loop]. destruct (lex_step c r ln) as [[ts [l|]] ln'] eqn:E; apply lex_step_progress in E as [Hts Hl].
  - destruct (IH l ln') as (t & -> & us & ln2 & -> & Hus); [cbn in Hn; lia|]. eexists. split; [done|]. exists (ts ++ us), ln2.
    split; [by rewrite app_assoc|by apply Forall_app].
  - eexists. split; [done|]. by exists ts, ln'.
Qed.

(** ** Properties *)

(** Lexing and parsing always return: every text is read as tokens that end
    with an end token, and on any such list, with fuel linear in its length,
    the parser gives an error or a statement; a statement takes at least one
    token and leaves such a list again, so that a program is parsed in at
    most as many rounds as it has tokens. *)
Theorem parser_returns (src : list Z) :
  exists t, lex src = Ret t /\ ended t /\
  forall u n, ended u -> (8 * length u + 2 <= n)%nat ->
    match statement n u with
    | Ret (inr (_, u')) => ended u' /\ (length u' < length u)%nat
    | Ret (inl _) => True
    | Panic | OutOfFuel => False
    end.
Proof.
  destruct (lex_loop_returns (length src) src 1 ltac:(lia)) as (t & E & Ht). exists t. split_and!; [done|done|].
  intros u n Hu Hn. pose proof (proj1 (stmts_return_all n) u Hu Hn) as H. destruct (statement n u) as [[e|[s u']]| |]; try done.
  destruct H as [H1 H2]. split; [done|lia].
Qed.

End BcTotal.
