(* ===== verification/BcRun.v ===== *)
(** * Running programs of bc

    What a run does: the text of a program runs the statements it prints,
    more fuel never changes a result, the registers stay in their ranges, a
    call restores the bindings it hides, and programs compute what they are
    written to compute. *)

From Stdlib Require Import ZArith Lia String QArith.
From stdpp Require Import base tactics list numbers strings gmap.
From S2P Require Import Prelude BcNumber BcLex BcParse BcInterp BcSyntax BcTotal.
Import BcLex BcParse BcInterp BcSyntax.

Open Scope Z_scope.
Open Scope go_scope.

Module BcRun.

Section Run.
Context (math : library).

(** What the top level makes of the outcome of a list of statements. *)
Definition toplevel (r : res result) : res unit :=
  match r with
  | Done r b =>
      match rflow r with
      | flowNone => Done tt b
      | flowQuit => Err EOF b
      | flowBreak | flowReturn => Err OutsideContext b
      end
  | Err e b => Err e b
  | Crash => Crash
  | NoFuel => NoFuel
  end.

(** One statement at the top level. *)
Lemma execute_statement n x t s t' b :
  kind x ∉ [tNL; tEOF; tError] -> statement n (x :: t) = ok s (sep :: t') -> skipNL t' = ok tt t' ->
  execute_loop math (S n) (x :: t) b =
  match run math n s b with
  | Done r b' => match rflow r with flowNone => execute_loop math n t' b' | _ => toplevel (Done r b') end
  | Err e b' => Err e b'
  | Crash => Crash
  | NoFuel => NoFuel
  end.
Proof.
  intros Hx Hs Hn. none_of Hx. cbn [execute_loop]. change (index (x :: t) 0) with (Ret x). cbn [bind lift BcInterp.andthen].
  unfold is_kind. rewrite !bool_decide_eq_false_2 by tauto. rewrite Hs. cbn [ok lift BcInterp.andthen].
  destruct (run math n s b) as [r b'| | |]; [|done..]. cbn [BcInterp.andthen toplevel]. destruct (rflow r); [|done..].
  change (index (sep :: t') 0) with (Ret sep). cbn [bind lift BcInterp.andthen kind sep]. rewrite bool_decide_eq_true_2 by done.
  cbn [negb andb]. rewrite skipNL_sep, Hn. done.
Qed.

Lemma exec_cons n s ss b :
  exec math (S n) (s :: ss) b =
  match run math n s b with
  | Done r b' => match rflow r with flowNone => exec math n ss b' | _ => Done r b' end
  | Err e b' => Err e b'
  | Crash => Crash
  | NoFuel => NoFuel
  end.
Proof. change (exec math (S n) (s :: ss) b) with (BcInterp.andthen (run math n s b) (fun r b => match rflow r with flowNone => exec math n ss b | _ => Done r b end)). by destruct (run math n s b). Qed.

Lemma stmts_start ss y tl :
  Forall stmt_ok ss -> kind y <> tNL ->
  exists x t, stmts_tokens ss ++ y :: tl = x :: t /\ skipNL (x :: t) = ok tt (x :: t).
Proof.
  intros H Hy. destruct H as [|s ss Hs _]; [eexists _, _; split; [done|by apply skipNL_head]|].
  rewrite stmts_tokens_cons. destruct (stmt_head s Hs) as (z & tz & -> & Hk & _).
  eexists z, _. split; [done|]. apply skipNL_head. intros E. rewrite E in Hk. by apply Hk; constructor.
Qed.

(** The outcome [r], and in its last state what comes after it. *)
Definition followed (r : res unit) (k : Interpreter -> res unit) : res unit :=
  match r with Done _ b => k b | _ => r end.

(** Statements before other tokens. *)
Lemma execute_loop_runs ss y tl k :
  Forall stmt_ok ss -> kind y <> tNL -> eventually (fun n => forall b, execute_loop math n (y :: tl) b = k b) ->
  eventually (fun n => forall b, execute_loop math n (stmts_tokens ss ++ y :: tl) b = followed (toplevel (exec math n ss b)) k).
Proof.
  intros H Hy Hk. induction H as [|s ss Hs Hss IH].
  { apply eventually_S. pose proof (eventually_next _ Hk) as H. by eventually_use H. }
  apply eventually_S. pose proof (eventually_and _ _ IH (stmt_reads s Hs (stmts_tokens ss ++ y :: tl))) as H. eventually_use H.
  destruct H as [H1 H2]. intros b. rewrite stmts_tokens_cons. destruct (stmt_head s Hs) as (z & tz & E & Hz & _). rewrite E in *. cbn [app] in *.
  destruct (stmts_start ss y tl Hss Hy) as (x & t & E' & Hn). rewrite E' in *.
  rewrite (execute_statement n z _ s (x :: t)), exec_cons by done.
  destruct (run math n s b) as [r b'| | |]; [|done..]. destruct (rflow r) eqn:Ef; [by rewrite H1|by cbn; rewrite Ef..].
Qed.

(** The text of statements before any text that begins with [y]. *)
Lemma Execute_before ss y tl text k :
  Forall stmt_ok ss -> kind y <> tNL -> lex (program_text ss ++ text) = Ret (stmts_tokens ss ++ y :: tl) ->
  eventually (fun n => forall b, execute_loop math n (y :: tl) b = k b) ->
  eventually (fun n => forall b, Execute math n (program_text ss ++ text) b = followed (toplevel (exec math n ss b)) k).
Proof.
  intros H Hy Hl Hk. pose proof (execute_loop_runs ss y tl k H Hy Hk) as HN. eventually_use HN. intros b. unfold Execute. rewrite Hl.
  destruct (stmts_start ss y tl H Hy) as (x & t & E & Hskip). specialize (HN b). rewrite E in *.
  cbn [bind lift BcInterp.andthen]. rewrite Hskip. exact HN.
Qed.

Lemma Execute_text ss :
  Forall stmt_ok ss -> eventually (fun n => forall b, Execute math n (program_text ss) b = toplevel (exec math n ss b)).
Proof.
  intros H. pose proof (Execute_before ss end_token [] [] (Done tt) H) as HN. rewrite !app_nil_r in HN.
  specialize (HN ltac:(done) (lex_program ss H) ltac:(by apply eventually_S, eventually_always)). eventually_use HN. intros b. rewrite HN.
  by destruct (toplevel (exec math n ss b)) as [[]| | |].
Qed.

Definition quit_text : list Z := str! "quit ".

Lemma Execute_quit ss rest :
  Forall stmt_ok ss ->
  eventually (fun n => forall b, Execute math n (program_text ss ++ quit_text ++ rest) b = followed (toplevel (exec math n ss b)) (Err EOF)).
Proof.
  intros H. destruct (BcTotal.BcTotal.lex_loop_returns (length rest) rest 1 ltac:(lia)) as (t & E & Ht).
  destruct t as [|z t]; [by apply BcTotal.BcTotal.ended_cases in Ht as [[? ?]|(? & ? & ? & _)]|].
  apply (Execute_before ss (id (str! "quit")) (z :: t)); [done|done| |].
  - change (id (str! "quit") :: z :: t) with ([id (str! "quit")] ++ z :: t). rewrite (app_assoc (stmts_tokens ss)).
    rewrite <- (lex_before (stmts_tokens ss ++ [id (str! "quit")]) rest (z :: t)); [|
      apply Forall_app; split; [by apply program_tokens_ok|apply Forall_singleton, word_ok; by apply (bool_decide_unpack _)]|exact E].
    unfold program_text, tokens_text. by rewrite fmap_app, concat_app, <- app_assoc.
  - do 2 apply eventually_S. by apply eventually_always.
Qed.

(** [C7] The text of a program, parsed and run statement by statement, does what
    the statements do: precedence, associativity, and the statements are read
    as they were printed: expressions, strings, blocks, break, return,
    definitions, if, while and for. A string printed by a statement has no
    newline and is not an opening or closing brace or the word auto, which the
    parser takes for syntax. The statement quit has no tree: the parser stops
    at it, so a quit after the statements ends the run behind them, whatever
    text [rest] follows it. *)
Theorem Execute_runs (ss : list stmt) (rest : list Z) :
  Forall stmt_ok ss ->
  exists N, forall n b, (N <= n)%nat ->
    Execute math n (program_text ss) b = toplevel (exec math n ss b) /\
    Execute math n (program_text ss ++ quit_text ++ rest) b = followed (toplevel (exec math n ss b)) (Err EOF).
Proof. intros H. destruct (eventually_and _ _ (Execute_text ss H) (Execute_quit ss rest H)) as [N HN]. exists N. intros n b Hn. by destruct (HN n Hn). Qed.

(** ** The registers *)

Definition array_ok (a : arrayMap) : Prop := map_Forall (fun i _ => 0 <= i < MaxDim) a.

Record regs_ok (b : Interpreter) : Prop := RegsOk {
  scale_ok : 0 <= Scale b <= MaxScale;
  ibase_ok : 2 <= IBase b <= 16;
  obase_ok : 2 <= OBase b <= Bc.MaxBase;
  arrays_ok : map_Forall (fun _ a => array_ok a) (arrays b)
}.

(** What every computation does to the state: the registers stay in range,
    output is only appended, the depth of calls is as before. *)
Record keeps (b b' : Interpreter) : Prop := Keeps {
  keeps_regs : regs_ok b -> regs_ok b';
  keeps_out : exists s, Out b' = Out b ++ s;
  keeps_depth : callDepth b' = callDepth b
}.

Lemma keeps_refl b : keeps b b.
Proof. split; [done|exists []; by rewrite app_nil_r|done]. Qed.

Lemma keeps_trans b1 b2 b3 : keeps b1 b2 -> keeps b2 b3 -> keeps b1 b3.
Proof.
  intros [R1 [s1 O1] D1] [R2 [s2 O2] D2]. split; [auto| |congruence]. exists (s1 ++ s2). by rewrite O2, O1, app_assoc.
Qed.

(** [r], started in [b], keeps the invariant, and its value has [Q]. *)
Definition keeping {A} (Q : A -> Prop) (b : Interpreter) (r : res A) : Prop :=
  match r with
  | Done a b' => keeps b b' /\ (regs_ok b -> Q a)
  | Err _ b' => keeps b b'
  | Crash | NoFuel => True
  end.

Abbreviation keeping_any b r := (keeping (fun _ => True) b r).

Lemma keeping_andthen {A B} (Q : A -> Prop) (P : B -> Prop) b (c : res A) (f : A -> Interpreter -> res B) :
  keeping Q b c -> (forall a b', keeps b b' -> (regs_ok b -> Q a) -> keeping P b' (f a b')) -> keeping P b (BcInterp.andthen c f).
Proof.
  destruct c as [a b'|e b'| |]; cbn [keeping BcInterp.andthen]; try done. intros [K Q'] H. specialize (H a b' K Q').
  destruct (f a b') as [a' b''|e b''| |]; cbn [keeping] in *; try done.
  - destruct H as [K' P']. split; [by eapply keeps_trans|]. intros Hb. apply P'. by apply K.
  - by eapply keeps_trans.
Qed.

Lemma keeping_done {A} (a : A) b b' : keeps b b' -> keeping_any b (Done a b').
Proof. by split. Qed.

Lemma keeping_here {A} (Q : A -> Prop) (a : A) b : Q a -> keeping Q b (Done a b).
Proof. by split; [apply keeps_refl|]. Qed.

Lemma keeping_err {A} (Q : A -> Prop) e b : keeping Q b (Err e b).
Proof. apply keeps_refl. Qed.

Lemma keeping_lift_number c b : keeping_any b (lift_number c b).
Proof. destruct c; [apply keeps_refl|by apply keeping_here]. Qed.

Lemma keeping_lift {A} (c : outcome (error + A)) b : keeping_any b (lift c b).
Proof. destruct c as [[e|a]| |]; cbn; try done; [apply keeps_refl|split; [apply keeps_refl|done]]. Qed.

Lemma keeping_arith op x y b : keeping_any b (arith op x y b).
Proof.
  unfold arith. repeat (case_match; [first [by apply keeping_here|apply keeping_lift_number|idtac]|]); try apply keeping_err.
  destruct (Bc.Pow x y (Scale b)); [apply keeping_lift_number|done|done].
Qed.

(** *** The primitive changes of the state *)

Lemma truncatedInt_range v min max n : truncatedInt v min max = inr n -> min <= n <= max.
Proof.
  unfold truncatedInt. destruct (negb _); [done|]. destruct (_ || _) eqn:E; [done|]. intros [= <-].
  apply orb_false_iff in E as [E1%Z.ltb_ge E2%Z.ltb_ge]. lia.
Qed.

Lemma checkIndex_range v i : checkIndex v = inr i -> 0 <= i < MaxDim.
Proof.
  unfold checkIndex. destruct (_ || _) eqn:E; [done|]. intros [= <-]. rewrite !orb_false_iff in E.
  destruct E as [[_ E1%Z.ltb_ge] E2%Z.ltb_ge]. unfold MaxDim in *. lia.
Qed.

(** A change of the registers alone. *)
Lemma keeps_registers b b' :
  (regs_ok b -> regs_ok b') -> Out b' = Out b -> callDepth b' = callDepth b -> keeps b b'.
Proof. intros H1 H2 H3. split; [done|exists []; by rewrite app_nil_r|done]. Qed.

Lemma keeping_set_simple name v b : keeping_any b (set_simple name v b).
Proof.
  unfold set_simple. repeat case_match; try apply keeping_err; apply keeping_done, keeps_registers; try done; intros [R1 R2 R3 R4];
    (split; [..|done]); cbn; try done;
    match goal with E : truncatedInt _ _ _ = inr _ |- _ => apply truncatedInt_range in E end; to_prop; unfold Bc.MaxBase in *; lia.
Qed.

Lemma array_ok_insert i v a : 0 <= i < MaxDim -> array_ok a -> array_ok (<[i := v]> a).
Proof. intros Hi Ha. by apply map_Forall_insert_2. Qed.

Lemma arrays_default name b : regs_ok b -> array_ok (default ∅ (arrays b !! name)).
Proof.
  intros H. destruct (arrays b !! name) as [a|] eqn:E; cbn; [by apply (arrays_ok b H name)|apply map_Forall_empty].
Qed.

Lemma keeps_set_element name i v b : 0 <= i < MaxDim -> keeps b (set_element name i v b).
Proof.
  intros Hi. apply keeps_registers; try done. intros H. destruct H as [H1 H2 H3 H4] eqn:E. split; try done. cbn [arrays set_element set_arrays].
  apply map_Forall_insert_2; [|done]. apply array_ok_insert; [done|]. by apply arrays_default.
Qed.

Lemma keeps_write s b : keeps b (write s b).
Proof. split; [by intros [H1 H2 H3 H4]; split|by exists s|done]. Qed.

Lemma keeps_set_funcs f b : keeps b (set_funcs f b).
Proof. apply keeps_registers; try done. by intros [H1 H2 H3 H4]; split. Qed.

(** *** Calls *)

Definition actual_ok (v : actual) : Prop := match v with scalarValue _ => True | arrayValue a => array_ok a end.

Definition saved_ok (sv : saved) : Prop :=
  map_Forall (fun _ o => match o with Some a => array_ok a | None => True end) (savedA sv).

(** The bindings of a call made in [b]: the state with them, and what they hide. *)
Definition binding (b : Interpreter) (sb : saved * Interpreter) : Prop :=
  keeps b sb.2 /\ (regs_ok b -> saved_ok sb.1).

Lemma keeps_set_vars v b : keeps b (set_vars v b).
Proof. apply keeps_registers; try done. by intros [H1 H2 H3 H4]; split. Qed.

Lemma binding_var b name v sb : binding b sb -> binding b (bind_var name v sb).
Proof. destruct sb as [sv b']. intros [H1 H2]. split; [|done]. eapply keeps_trans; [exact H1|apply keeps_set_vars]. Qed.

Lemma binding_array b name a sb : (regs_ok b -> array_ok a) -> binding b sb -> binding b (bind_array name a sb).
Proof.
  destruct sb as [sv b']. intros Ha [[K1 K2 K3] S]. split; [split; [|done|done]|].
  - intros Hb. destruct (K1 Hb) as [R1 R2 R3 R4]. split; try done. cbn. apply map_Forall_insert_2; auto.
  - intros Hb. apply map_Forall_insert_2; [|by apply S]. destruct (arrays b' !! name) as [a'|] eqn:E; [|done].
    by apply (arrays_ok b' (K1 Hb) name).
Qed.

Lemma binding_params b ps vs sb : (regs_ok b -> Forall actual_ok vs) -> binding b sb -> binding b (bind_params ps vs sb).
Proof.
  revert vs sb. induction ps as [|p ps IH]; intros [|[v|a] vs] sb Hv H; try done; cbn [bind_params];
    (apply IH; [intros Hb; by apply Forall_cons in Hv as [_ ?]|]).
  - by apply binding_var.
  - apply binding_array; [|done]. intros Hb. specialize (Hv Hb). by apply Forall_cons in Hv as [? _].
Qed.

Lemma binding_autos b ps sb : binding b sb -> binding b (bind_autos ps sb).
Proof.
  unfold bind_autos. revert sb. induction ps as [|p ps IH]; intros sb H; [done|]. cbn [foldl]. apply IH. unfold bind_auto.
  destruct (array p); [apply binding_array; [intros _; apply map_Forall_empty|done]|by apply binding_var].
Qed.

Lemma lookup_restore {V} (sv : gmap (list Z) (option V)) m k :
  restore sv m !! k = match sv !! k with Some o => o | None => m !! k end.
Proof. unfold restore. rewrite lookup_merge. unfold diag_None. by destruct (sv !! k), (m !! k). Qed.

(** Leaving the call after its body. *)
Lemma keeps_unbind b b1 b2 sv :
  binding b (sv, b1) -> keeps (set_callDepth (callDepth b1 + 1) b1) b2 -> keeps b (unbind sv (set_callDepth (callDepth b2 - 1) b2)).
Proof.
  intros [[H1 [s1 H2] H3] H4] [K1 [s K2] K3]. cbn in *. split.
  - intros Hb. destruct (H1 Hb) as [R1 R2 R3 R4]. destruct K1 as [Q1 Q2 Q3 Q4]; [by split|]. split; try done.
    cbn [arrays unbind set_arrays]. intros name a. rewrite lookup_restore. destruct (savedA sv !! name) as [o|] eqn:E; intros Ha.
    + specialize (H4 Hb name o E). cbn in H4. by subst o.
    + by apply (Q4 name).
  - exists (s1 ++ s). cbn. by rewrite K2, H2, app_assoc.
  - cbn. lia.
Qed.

Lemma keeping_finish b b1 sv r :
  binding b (sv, b1) -> keeping_any (set_callDepth (callDepth b1 + 1) b1) r -> keeping_any b (finish_call sv r).
Proof.
  intros Hb H. destruct r as [r b2|e b2| |]; cbn [keeping finish_call] in *; try done.
  - destruct H as [H _]. pose proof (keeps_unbind b b1 b2 sv Hb H). destruct (rflow r); cbn [keeping]; auto.
  - by eapply keeps_unbind.
Qed.

(** *** Every computation *)

Definition all_keep (n : nat) : Prop :=
  (forall e b, keeping_any b (eval math n e b)) /\
  (forall e b, keeping_any b (arrayIndex math n e b)) /\
  (forall name idx v b, keeping_any b (set math n name idx v b)) /\
  (forall name args b, keeping_any b (call math n name args b)) /\
  (forall ps args b, keeping (Forall actual_ok) b (actuals math n ps args b)) /\
  (forall st b, keeping_any b (run math n st b)) /\
  (forall c ss b, keeping_any b (while_loop math n c ss b)) /\
  (forall c p ss b, keeping_any b (for_loop math n c p ss b)) /\
  (forall ss b, keeping_any b (exec math n ss b)).

(** Go through a computation with what is known of its parts. *)
Ltac keep :=
  repeat match goal with
  | |- keeping _ _ (BcInterp.andthen _ _) => apply (keeping_andthen (fun _ => True)); [|intros ? ? _ _]
  | |- keeping _ ?b (Done _ ?b) => by apply keeping_here
  | |- keeping _ ?b (Err _ ?b) => apply keeping_err
  | |- keeping _ _ (lift_number _ _) => apply keeping_lift_number
  | |- keeping _ _ (lift _ _) => apply keeping_lift
  | |- keeping _ _ (arith _ _ _ _) => apply keeping_arith
  | |- keeping _ _ (set_simple _ _ _) => apply keeping_set_simple
  | H : forall _ _, keeping _ _ _ |- keeping _ _ _ => apply H
  | H : forall _ _ _, keeping _ _ _ |- keeping _ _ _ => apply H
  | H : forall _ _ _ _, keeping _ _ _ |- keeping _ _ _ => apply H
  | |- keeping _ _ (match ?x with _ => _ end) => destruct x
  end.

Lemma arrayIndex_range n e b i b' : arrayIndex math n e b = Done i b' -> 0 <= i < MaxDim.
Proof.
  destruct n as [|n]; [done|]. change (arrayIndex math (S n) e b) with (arrayIndex_step (eval math n) e b). unfold arrayIndex_step.
  destruct (eval math n e b) as [v b2| | |]; try done. cbn. destruct (checkIndex v) eqn:E; try done. intros [= <- _]. by eapply checkIndex_range.
Qed.

Lemma keeping_call_function n name f args b :
  all_keep n -> keeping_any b (call_function (actuals math n) (exec math n) name f args b).
Proof.
  intros (_ & _ & _ & _ & IHa & _ & _ & _ & IHx). unfold call_function. destruct (negb _); [apply keeping_err|].
  pose proof (IHa (params f) args b) as Ha. destruct (actuals math n (params f) args b) as [vs b1|e b1| |]; try done. destruct Ha as [K Hv]. cbn.
  assert (Hb : binding b (bind_autos (autos f) (bind_params (params f) vs (mkSaved ∅ ∅, b1)))).
  { apply binding_autos, binding_params; [done|]. split; [done|]. intros _. apply map_Forall_empty. }
  destruct (bind_autos _ _) as [sv b2]. eapply keeping_finish; [exact Hb|apply IHx].
Qed.

Lemma keeping_actuals n ps args b :
  all_keep n -> keeping (Forall actual_ok) b (actuals_step (eval math n) (actuals math n) ps args b).
Proof.
  intros (IHe & _ & _ & _ & IHa & _). destruct ps as [|p ps], args as [|a args]; try (by apply keeping_here). cbn [actuals_step].
  set (c := if array p then _ else _).
  assert (Hc : keeping actual_ok b c).
  { subst c. destruct (array p).
    - destruct a; try apply keeping_err. split; [apply keeps_refl|]. intros Hb. by apply arrays_default.
    - apply (keeping_andthen (fun _ => True)); [apply IHe|]. intros. by apply keeping_here. }
  destruct c as [v b1|e b1| |]; try done. destruct Hc as [K Hv]. cbn [BcInterp.andthen]. specialize (IHa ps args b1).
  destruct (actuals math n ps args b1) as [vs b2|e b2| |]; cbn [keeping BcInterp.andthen] in *; try done.
  - destruct IHa as [K' Hvs]. split; [by eapply keeps_trans|]. intros Hb. constructor; [auto|]. apply Hvs. by apply K.
  - by eapply keeps_trans.
Qed.

Lemma keeping_set n name idx v b :
  all_keep n -> keeping_any b (set_step (arrayIndex math n) name idx v b).
Proof.
  intros (_ & IHi & _). destruct idx as [e|]; [|apply keeping_set_simple]. cbn [set_step]. specialize (IHi e b).
  destruct (arrayIndex math n e b) as [i b'|e' b'| |] eqn:E; cbn [keeping BcInterp.andthen] in *; try done.
  destruct IHi as [K _]. split; [|done]. eapply keeps_trans; [exact K|]. apply keeps_set_element. by eapply arrayIndex_range.
Qed.

Lemma all_keep_all n : all_keep n.
Proof.
  induction n as [|n IH]; [by split_and!|]. pose proof (fun name f args b => keeping_call_function n name f args b IH) as Hf.
  pose proof (fun ps args b => keeping_actuals n ps args b IH) as Ha. pose proof (fun name idx v b => keeping_set n name idx v b IH) as Hset.
  destruct IH as (IHe & IHi & IHs & IHc & _ & IHr & IHw & IHf & IHx). split_and!; [| | |intros name args b| |intros st b|..].
  - intros e b. change (eval math (S n) e b) with (eval_step (eval math n) (arrayIndex math n) (set math n) (call math n) e b).
    unfold eval_step, assign, operate, increment. keep.
  - intros e b. change (arrayIndex math (S n) e b) with (arrayIndex_step (eval math n) e b). unfold arrayIndex_step. keep.
  - exact Hset.
  - change (call math (S n) name args b) with (call_step math (eval math n) (actuals math n) (exec math n) name args b).
    unfold call_step, one_argument. keep.
  - exact Ha.
  - change (run math (S n) st b) with (run_step (eval math n) (while_loop math n) (for_loop math n) (exec math n) st b).
    unfold run_step, eval_option. keep; apply keeping_done; repeat case_match; auto using keeps_write, keeps_set_funcs, keeps_refl.
  - intros c ss b. change (while_loop math (S n) c ss b) with (while_step (eval math n) (while_loop math n) (exec math n) c ss b).
    unfold while_step. keep.
  - intros c p ss b. change (for_loop math (S n) c p ss b) with (for_step (eval math n) (for_loop math n) (exec math n) c p ss b).
    unfold for_step, eval_option. keep.
  - intros ss b. change (exec math (S n) ss b) with (exec_step (run math n) (exec math n) ss b). unfold exec_step. keep.
Qed.

Lemma execute_loop_keeps n t b : keeping_any b (execute_loop math n t b).
Proof.
  revert t b. induction n as [|n IH]; [done|]. intros t b. cbn [execute_loop]. pose proof (all_keep_all n) as (_ & _ & _ & _ & _ & Hr & _).
  keep. destruct a0. keep. destruct a2. keep.
Qed.

(** [C17] The limits of the language hold in every reachable state: whatever the
    text of a program is, and however its run ends, [scale] stays in 0..99,
    [ibase] in 2..16, [obase] in 2..999, array indices in 0..2047; the output
    so far is kept, and every call that was entered has been left. *)
Theorem Execute_limits (n : nat) (src : list Z) (b b' : Interpreter) (r : unit + error) :
  regs_ok b ->
  Execute math n src b = match r with inl u => Done u b' | inr e => Err e b' end ->
  regs_ok b' /\ (exists s, Out b' = Out b ++ s) /\ callDepth b' = callDepth b.
Proof.
  intros Hb E. assert (H : keeping_any b (Execute math n src b)).
  { unfold Execute. keep. destruct a0. apply execute_loop_keeps. }
  destruct r; rewrite E in H; cbn in H; [destruct H as [[H1 H2 H3] _]|destruct H as [H1 H2 H3]]; auto.
Qed.

(** ** Scope

    The bindings of a call as a list of names and values. *)

Definition bind_one (sb : saved * Interpreter) (pv : list Z * actual) : saved * Interpreter :=
  match pv.2 with scalarValue v => bind_var pv.1 v sb | arrayValue a => bind_array pv.1 a sb end.

Definition local_auto (p : param) : list Z * actual :=
  (pname p, if array p then arrayValue ∅ else scalarValue Bc.Zero).

(** The bindings of a call of [f] with the values [vs]. *)
Definition locals (f : function) (vs : list actual) : list (list Z * actual) :=
  zip (pname <$> params f) vs ++ (local_auto <$> autos f).

Definition scalar (pv : list Z * actual) : option (list Z * Bc.Number) :=
  match pv.2 with scalarValue v => Some (pv.1, v) | arrayValue _ => None end.
Definition whole (pv : list Z * actual) : option (list Z * arrayMap) :=
  match pv.2 with scalarValue _ => None | arrayValue a => Some (pv.1, a) end.

Abbreviation scalars l := (omap scalar l).
Abbreviation wholes l := (omap whole l).

Lemma bind_params_locals ps vs sb : bind_params ps vs sb = foldl bind_one sb (zip (pname <$> ps) vs).
Proof. revert vs sb. induction ps as [|p ps IH]; intros [|[v|a] vs] sb; try done; cbn; apply IH. Qed.

Lemma bind_autos_locals ps sb : bind_autos ps sb = foldl bind_one sb (local_auto <$> ps).
Proof.
  unfold bind_autos. revert sb. induction ps as [|p ps IH]; intros sb; [done|]. cbn. rewrite IH. f_equal. unfold bind_auto, bind_one, local_auto. cbn.
  by destruct (array p).
Qed.

Lemma bind_locals f vs sb : bind_autos (autos f) (bind_params (params f) vs sb) = foldl bind_one sb (locals f vs).
Proof. unfold locals. by rewrite bind_autos_locals, bind_params_locals, foldl_app. Qed.

(** The values that [l] binds to [x], the last one first. *)
Definition bound {V} (x : list Z) (l : list (list Z * V)) : list V := rev (snd <$> filter (fun nv => nv.1 = x) l).

Lemma bound_snoc {V} x (l : list (list Z * V)) name v : bound x (l ++ [(name, v)]) = (if decide (name = x) then [v] else []) ++ bound x l.
Proof.
  unfold bound. rewrite filter_app, filter_cons, filter_nil, fmap_app, rev_app_distr. cbn [fst]. by destruct (decide (name = x)).
Qed.

(** The value of [x] in the body of a call and after it, from its value
    [before] the call and its value [after] the body: the last binding counts,
    and the value it hid comes back. *)
Definition inside {V} (vs : list V) (before : option V) : option V := match vs with v :: _ => Some v | [] => before end.
Definition outside {V} (vs : list V) (before after : option V) : option V :=
  match vs with [] => after | _ :: vs' => inside vs' before end.

(** What the bindings change: the variables and arrays named, nothing else. *)
Lemma bind_rest l sb :
  (foldl bind_one sb l).2 = set_arrays (arrays (foldl bind_one sb l).2) (set_vars (vars (foldl bind_one sb l).2) sb.2).
Proof.
  induction l as [|pv l IH] using rev_ind; [by destruct sb as [? []]|]. rewrite foldl_snoc. destruct (foldl bind_one sb l) as [sv b].
  cbn [snd] in *. rewrite IH. by destruct pv as [name [v|a]].
Qed.

(** What they bind and save. *)
Lemma bind_values l sb x :
  let sb' := foldl bind_one sb l in
  vars sb'.2 !! x = inside (bound x (scalars l)) (vars sb.2 !! x) /\
  arrays sb'.2 !! x = inside (bound x (wholes l)) (arrays sb.2 !! x) /\
  savedV sb'.1 !! x = match bound x (scalars l) with [] => savedV sb.1 !! x | _ :: vs => Some (inside vs (vars sb.2 !! x)) end /\
  savedA sb'.1 !! x = match bound x (wholes l) with [] => savedA sb.1 !! x | _ :: vs => Some (inside vs (arrays sb.2 !! x)) end.
Proof.
  induction l as [|[name [v|a]] l IH] using rev_ind; [cbv zeta; split_and!; reflexivity|..]; cbv zeta in *; rewrite foldl_snoc, !omap_app;
    destruct (foldl bind_one sb l) as [sv b]; destruct IH as (I1 & I2 & I3 & I4); cbn [omap list_omap scalar whole fst snd app] in *;
    rewrite ?app_nil_r, bound_snoc; cbn [bind_one fst snd bind_var bind_array vars arrays set_vars set_arrays savedV savedA];
    (case_decide as Hx; [subst name; rewrite !lookup_insert_eq; by rewrite ?I1, ?I2, ?I3, ?I4|by rewrite !lookup_insert_ne by done]).
Qed.

(** The state in the body of a call, from the state [b1] after its arguments. *)
Record entered (l : list (list Z * actual)) (b1 b0 : Interpreter) : Prop := Entered {
  entered_vars x : vars b0 !! x = inside (bound x (scalars l)) (vars b1 !! x);
  entered_arrays x : arrays b0 !! x = inside (bound x (wholes l)) (arrays b1 !! x);
  entered_rest : set_callDepth (callDepth b1) (set_vars (vars b1) (set_arrays (arrays b1) b0)) = b1
}.

(** The state after a call, from [b1] and the state [b2] after its body: a name
    that is bound once is as before, one that is not bound is as the body left
    it; one that is bound more often has the value bound before the last. *)
Record exited (l : list (list Z * actual)) (b1 b2 b' : Interpreter) : Prop := Exited {
  exited_vars x : vars b' !! x = outside (bound x (scalars l)) (vars b1 !! x) (vars b2 !! x);
  exited_arrays x : arrays b' !! x = outside (bound x (wholes l)) (arrays b1 !! x) (arrays b2 !! x);
  exited_rest : set_callDepth (callDepth b2) (set_vars (vars b2) (set_arrays (arrays b2) b')) = b2
}.

Lemma call_function_S n name f args b :
  funcs b !! name = Some f -> name ∉ [str! "length"; str! "scale"; str! "sqrt"] ->
  call math (S n) name args b = call_function (actuals math n) (exec math n) name f args b.
Proof.
  intros Hf Hn. none_of Hn. change (call math (S n) name args b) with (call_step math (eval math n) (actuals math n) (exec math n) name args b).
  unfold call_step. rewrite Hf, bool_decide_eq_false_2, !andb_false_r by done. cbn [andb].
  rewrite !(proj2 (str_eqb_neq name _)) by tauto. done.
Qed.

(** [C18] A call of a function, with arguments that have values, binds each
    parameter to its argument and each automatic variable to zero, runs the
    body with the other variables as they are, and gives back the value
    returned. On every way out, also after an error, a name that was bound
    once has its former value and all changes of the body to names that were
    not bound remain. A name that is bound twice, as a parameter and an
    automatic variable, keeps the value of the binding before the last: the
    call leaves its argument in the global variable. *)
Theorem call_scope (n : nat) (name : list Z) (f : function) (args : list expr) (b b1 : Interpreter) (vs : list actual) :
  funcs b !! name = Some f -> name ∉ [str! "length"; str! "scale"; str! "sqrt"] -> length args = length (params f) ->
  actuals math n (params f) args b = Done vs b1 ->
  exists b0, entered (locals f vs) b1 b0 /\
  match exec math n (body f) b0 with
  | Done r b2 => exists b', exited (locals f vs) b1 b2 b' /\
      call math (S n) name args b =
        match rflow r with flowReturn => Done (value r) b' | flowQuit => Err EOF b' | _ => Done Bc.Zero b' end
  | Err e b2 => exists b', exited (locals f vs) b1 b2 b' /\ call math (S n) name args b = Err e b'
  | Crash => call math (S n) name args b = Crash
  | NoFuel => call math (S n) name args b = NoFuel
  end.
Proof.
  intros Hf Hn Hl Ha. set (sb := foldl bind_one (mkSaved ∅ ∅, b1) (locals f vs)).
  pose proof (bind_rest (locals f vs) (mkSaved ∅ ∅, b1)) as V. pose proof (bind_values (locals f vs) (mkSaved ∅ ∅, b1)) as S.
  cbv zeta in S. fold sb in V, S. cbn [fst snd] in *. exists (set_callDepth (callDepth sb.2 + 1) sb.2). split.
  { split; [intros x; apply S|intros x; apply S|]. rewrite V. by destruct b1. }
  assert (Hexit : forall b2, exited (locals f vs) b1 b2 (unbind sb.1 (set_callDepth (callDepth b2 - 1) b2))).
  { intros b2. split; [..|by destruct b2]; intros x; destruct (S x) as (_ & _ & S1 & S2); cbn; rewrite lookup_restore, ?S1, ?S2;
      clear; destruct (bound x _); cbn [savedV savedA outside]; by rewrite ?lookup_empty. }
  rewrite (call_function_S n name f args b) by done. unfold call_function. rewrite (proj2 (Z.eqb_eq _ _)) by (unfold len; by rewrite Hl).
  cbn [negb]. rewrite Ha. cbn [BcInterp.andthen]. rewrite bind_locals. fold sb. destruct sb as [sv b3]. cbn [fst snd] in *.
  destruct (exec math n (body f) _) as [r b2|e b2| |]; cbn [finish_call]; [eexists; split; [apply Hexit|by destruct (rflow r)]|
    eexists; split; [apply Hexit|done]|done|done].
Qed.

(** A name that is both a parameter and an automatic variable of a function
    is saved twice, the second time with the argument: after the call the
    global variable of that name has the value of the argument. *)
Theorem call_duplicate_leaks (n : nat) (name x : list Z) (ss : list stmt) (arg : expr) (b b1 b' : Interpreter) (v u : Bc.Number) :
  let p := mkParam x false in
  funcs b !! name = Some (mkFunction [p] [p] ss) -> name ∉ [str! "length"; str! "scale"; str! "sqrt"] ->
  actuals math n [p] [arg] b = Done [scalarValue v] b1 ->
  call math (S n) name [arg] b = Done u b' -> vars b' !! x = Some v.
Proof.
  intros p Hf Hn Ha. rewrite (call_function_S n name _ [arg] b Hf Hn). unfold call_function. cbn [params autos body]. rewrite Ha.
  cbn [BcInterp.andthen len length Z.eqb negb bind_params bind_autos foldl]. change (negb _) with false. cbv iota. unfold bind_auto, bind_var. cbn [array p].
  cbn [bind_params bind_var pname p vars set_vars savedV savedA BcInterp.andthen].
  destruct (exec math n ss _) as [r b2|e b2| |]; cbn [finish_call]; try done. destruct (rflow r); intros [= _ <-];
    cbn [vars unbind set_arrays set_vars set_callDepth]; rewrite lookup_restore; cbn [savedV]; by rewrite lookup_insert_eq, lookup_insert_eq.
Qed.

End Run.

End BcRun.
