(* ===== verification/BcPrograms.v ===== *)
(** * Programs of bc and what they print

    End to end, from the text of a program to its output: expressions of
    sums, differences and products are exact, a recursive function computes
    factorials, and the texts on which the interpreter goes wrong. *)

From Stdlib Require Import ZArith Lia String QArith Factorial.
From stdpp Require Import base tactics list numbers strings gmap.
From S2P Require Import Prelude BcNumber BcLex BcParse BcInterp BcSyntax BcRun.
Import BcLex BcParse BcInterp BcSyntax BcRun.

Open Scope Z_scope.
Open Scope go_scope.

Module BcPrograms.

Section Programs.
Context (math : library).

(** ** Exact expressions *)

(** The values of literals and variables. *)
Definition literal (b : Interpreter) (v : list Z) : Bc.Number :=
  match Bc.ParseNumber v (IBase b) with inr x => x | inl _ => Bc.Zero end.

(** Sums, differences, products and negations of literals and variables. *)
Fixpoint ring (b : Interpreter) (e : expr) : Prop :=
  match e with
  | literalExpr v => exists x, Bc.ParseNumber v (IBase b) = inr x
  | variableExpr _ None => True
  | parenExpr e => ring b e
  | unaryExpr o e => o = str! "-" /\ ring b e
  | binaryExpr o l r => o ∈ [str! "+"; str! "-"; str! "*"] /\ ring b l /\ ring b r
  | _ => False
  end.

(** Their value in the rationals, and the decimal places it needs. *)
Fixpoint exact (b : Interpreter) (e : expr) : Q :=
  match e with
  | literalExpr v => Bc.value (literal b v)
  | variableExpr x None => Bc.value (get_simple x b)
  | parenExpr e => exact b e
  | unaryExpr _ e => - exact b e
  | binaryExpr o l r =>
      if str_eqb o (str! "+") then exact b l + exact b r
      else if str_eqb o (str! "-") then exact b l - exact b r
      else exact b l * exact b r
  | _ => 0
  end%Q.

Fixpoint places (b : Interpreter) (e : expr) : Z :=
  match e with
  | literalExpr v => Bc.scale (literal b v)
  | variableExpr x None => Bc.scale (get_simple x b)
  | parenExpr e | unaryExpr _ e => places b e
  | binaryExpr o l r =>
      if str_eqb o (str! "*") then places b l + places b r else Z.max (places b l) (places b r)
  | _ => 0
  end.

Definition vars_wf (b : Interpreter) : Prop := map_Forall (fun _ v => Bc.wf v) (vars b).

Lemma ParseNumber_wf v base x : Bc.ParseNumber v base = inr x -> Bc.wf x.
Proof.
  unfold Bc.ParseNumber, Bc.wf. destruct (_ || _); [done|]. destruct (_ <? _)%nat; [done|].
  destruct (Bc.parse_digits _ _ _); [|done]. repeat case_match; intros [= <-]; cbn; try lia; apply len_nonneg.
Qed.

Lemma get_simple_wf x b : vars_wf b -> Bc.wf (get_simple x b).
Proof.
  intros H. unfold get_simple, Bc.wf. repeat case_match; try (cbn; lia). destruct (vars b !! x) as [v|] eqn:E; cbn; [|lia].
  by apply (H x).
Qed.

Lemma Mul_exact x y sc :
  Bc.wf x -> Bc.wf y -> Bc.scale x + Bc.scale y <= sc ->
  (Bc.value (Bc.Mul x y sc) == Bc.value x * Bc.value y)%Q /\ Bc.scale (Bc.Mul x y sc) = Bc.scale x + Bc.scale y.
Proof.
  unfold Bc.wf, Bc.value. intros Hx Hy Hs. unfold Bc.Mul. set (m := if _ <? sc then _ else _).
  assert (Bc.scale x + Bc.scale y <= m) by (subst m; repeat case_match; to_prop; lia).
  rewrite (proj2 (Z.ltb_ge _ _)) by done. cbn. split; [by apply Bc.frac_mult|done].
Qed.

Lemma eval_S n e b : eval math (S n) e b = eval_step (eval math n) (arrayIndex math n) (set math n) (call math n) e b.
Proof. done. Qed.

(** An operation on two values already computed. *)
Lemma eval_operate n o l r b x y z :
  assignmentOp o = false -> (forall c, compares o c = None) -> o ∉ [str! "&&"; str! "||"] ->
  eval math n l b = Done x b -> eval math n r b = Done y b -> arith o x y b = Done z b ->
  eval math (S n) (binaryExpr o l r) b = Done z b.
Proof.
  intros Ho Hc Hn El Er Ez. none_of Hn. rewrite eval_S. cbn [eval_step]. rewrite Ho. unfold operate. rewrite El. cbn [BcInterp.andthen].
  rewrite !(proj2 (str_eqb_neq o _)) by tauto. cbn [andb orb]. rewrite Er. cbn [BcInterp.andthen]. by rewrite Hc.
Qed.

Lemma places_nonneg e b : vars_wf b -> 0 <= places b e.
Proof.
  intros Hw. induction e as [v|k|e IH|x|x i IH|x|o e IH|o l r IHl IHr|e d p IH|f args IH] using expr_rect'; cbn [places]; try done; try lia.
  - unfold literal. destruct (Bc.ParseNumber v (IBase b)) eqn:E; [cbn; lia|]. by eapply ParseNumber_wf.
  - by apply get_simple_wf.
  - destruct (str_eqb _ _); lia.
Qed.

(** One operator of the ring on values. *)
Lemma ring_arith o x y b :
  o ∈ [str! "+"; str! "-"; str! "*"] -> Bc.wf x -> Bc.wf y ->
  (if str_eqb o (str! "*") then Bc.scale x + Bc.scale y else Z.max (Bc.scale x) (Bc.scale y)) <= Scale b ->
  exists z, Bc.wf z /\ arith o x y b = Done z b /\
    (Bc.value z == if str_eqb o (str! "+") then Bc.value x + Bc.value y
                   else if str_eqb o (str! "-") then Bc.value x - Bc.value y else Bc.value x * Bc.value y)%Q /\
    Bc.scale z = if str_eqb o (str! "*") then Bc.scale x + Bc.scale y else Z.max (Bc.scale x) (Bc.scale y).
Proof.
  intros Ho Hx Hy Hs. destruct (Bc.Add_Sub_Cmp_exact x y Hx Hy) as (HA & HS & _ & SA & SS). unfold Bc.wf in *.
  repeat (apply elem_of_cons in Ho as [->|Ho]); [..|by apply not_elem_of_nil in Ho]; cbn [str_eqb Z.eqb Pos.eqb andb] in *.
  - exists (Bc.Add x y). split_and!; [lia|done..].
  - exists (Bc.Sub x y). split_and!; [lia|done..].
  - destruct (Mul_exact x y (Scale b) Hx Hy Hs) as [H1 H2]. exists (Bc.Mul x y (Scale b)). split_and!; [lia|done..].
Qed.

Lemma ring_operator o :
  o ∈ [str! "+"; str! "-"; str! "*"] ->
  assignmentOp o = false /\ (forall c, compares o c = None) /\ o ∉ [str! "&&"; str! "||"].
Proof. intros Ho. repeat (apply elem_of_cons in Ho as [->|Ho]); [..|by apply not_elem_of_nil in Ho]; (split_and!; [done|done|closing]). Qed.

Lemma ring_eval e b :
  vars_wf b -> ring b e -> places b e <= Scale b ->
  exists v, Bc.wf v /\ (Bc.value v == exact b e)%Q /\ Bc.scale v = places b e /\ eventually (fun n => eval math n e b = Done v b).
Proof.
  intros Hw. induction e as [v|k|e IH|x|x i IH|x|o e IH|o l r IHl IHr|e d p IH|f args IH] using expr_rect'; cbn [ring exact places]; intros Hr Hp; try done.
  - destruct Hr as [x Hx]. unfold literal. rewrite Hx. exists x. split_and!; [by eapply ParseNumber_wf|done|done|].
    apply eventually_S, eventually_always. intros n. rewrite eval_S. cbn. by rewrite Hx.
  - destruct (IH Hr Hp) as (v & H1 & H2 & H3 & H4). exists v. split_and!; [done..|]. apply eventually_S. by eventually_use H4.
  - exists (get_simple x b). split_and!; [by apply get_simple_wf|done|done|]. by apply eventually_S, eventually_always.
  - destruct Hr as [-> Hr]. destruct (IH Hr Hp) as (v & H1 & H2 & H3 & H4). exists (Bc.Neg v). split_and!; [done|by rewrite <- H2|done|].
    apply eventually_S. eventually_use H4. rewrite eval_S. cbn [eval_step]. by rewrite H4.
  - destruct Hr as (Ho & Hl & Hr). pose proof (places_nonneg l b Hw). pose proof (places_nonneg r b Hw).
    assert (places b l <= Scale b /\ places b r <= Scale b) as [Pl Pr] by (destruct (str_eqb o (str! "*")); lia).
    destruct (IHl Hl Pl) as (x & X1 & X2 & X3 & X4), (IHr Hr Pr) as (y & Y1 & Y2 & Y3 & Y4).
    rewrite <- X3, <- Y3 in Hp |- *. destruct (ring_arith o x y b Ho X1 Y1 Hp) as (z & Z1 & Z2 & Z3 & Z4).
    destruct (ring_operator o Ho) as (O1 & O2 & O3).
    exists z. split_and!; [done| |done|].
    + rewrite Z3. destruct (str_eqb o (str! "+")); [|destruct (str_eqb o (str! "-"))]; by rewrite X2, Y2.
    + apply eventually_S. pose proof (eventually_and _ _ X4 Y4) as XY. eventually_use XY. destruct XY. by apply (eval_operate n o l r b x y z).
Qed.

(** Statements in sequence. *)
Lemma exec_ends st b b' :
  eventually (fun n => run math n st b = Done no_result b') -> eventually (fun n => exec math n [st] b = Done no_result b').
Proof. intros H. apply eventually_S, eventually_S. apply eventually_next in H. eventually_use H. by rewrite exec_cons, H. Qed.

Lemma run_print e v b :
  eventually (fun n => eval math n e b = Done v b) ->
  eventually (fun n => run math n (exprStmt e true) b = Done no_result (write (Bc.wrappedStringBase v (OBase b) ++ [10]) b)).
Proof.
  intros H. apply eventually_S. eventually_use H.
  change (run math (S n) ?st b) with (run_step (eval math n) (while_loop math n) (for_loop math n) (exec math n) st b). cbn [run_step].
  by rewrite H.
Qed.

(** [C31] Sums, differences and products are computed exactly when [scale] leaves
    room for their decimal places: the text of the expression, run as a
    program, prints the one decimal with these places whose value is the
    value of the expression in the rationals, and changes nothing else. *)
Theorem ring_exact (e : expr) (b : Interpreter) :
  expr_ok e -> vars_wf b -> ring b e -> places b e <= Scale b ->
  exists v, (Bc.value v == exact b e)%Q /\ Bc.scale v = places b e /\
  exists N, forall n, (N <= n)%nat ->
    Execute math n (program_text [exprStmt e true]) b = Done tt (write (Bc.wrappedStringBase v (OBase b) ++ [10]) b).
Proof.
  intros Hok Hw Hr Hp. destruct (ring_eval e b Hw Hr Hp) as (v & _ & H1 & H2 & He). exists v. split_and!; [done|done|].
  assert (isAssignment e = false) as Ha.
  { destruct e; try done. destruct Hr as [Ho _]. by destruct (ring_operator _ Ho) as [? _]. }
  assert (Forall stmt_ok [exprStmt e true]) as Hs by (constructor; [cbn; by rewrite Ha|done]).
  pose proof (eventually_and _ _ (Execute_text math _ Hs) (exec_ends _ _ _ (run_print e v b He))) as H. destruct H as [N HN]. exists N. intros n Hn.
  destruct (HN n Hn) as [E1 E2]. by rewrite E1, E2.
Qed.


(** ** A recursive function *)

Lemma restore_empty {V} (m : gmap (list Z) V) : restore ∅ m = m.
Proof. apply map_eq. intros x. by rewrite lookup_restore, lookup_empty. Qed.

Lemma restore_insert {V} (x : list Z) (v : V) (m : gmap (list Z) V) : restore {[x := m !! x]} (<[x := v]> m) = m.
Proof.
  apply map_eq. intros y. rewrite lookup_restore. destruct (decide (y = x)) as [->|H]; [by rewrite lookup_singleton_eq|].
  by rewrite lookup_singleton_ne, lookup_insert_ne.
Qed.

(** The state in the body of a function with one parameter. *)
Definition inside (x : list Z) (v : Bc.Number) (b : Interpreter) : Interpreter :=
  set_callDepth (callDepth b + 1) (set_vars (<[x := v]> (vars b)) b).

Lemma call_one name x ss arg b v u :
  funcs b !! name = Some (mkFunction [mkParam x false] [] ss) -> name ∉ [str! "length"; str! "scale"; str! "sqrt"] ->
  eventually (fun n => eval math n arg b = Done v b) ->
  eventually (fun n => exec math n ss (inside x v b) = Done (mkResult flowReturn u) (inside x v b)) ->
  eventually (fun n => call math n name [arg] b = Done u b).
Proof.
  intros Hf Hn He Hx. do 3 apply eventually_S.
  pose proof (eventually_and _ _ (eventually_next _ He) (eventually_next _ (eventually_next _ Hx))) as H.
  eventually_use H. destruct H as [H1 H2].
  rewrite (call_function_S math _ name _ [arg] b Hf Hn). unfold call_function. cbn [params autos body].
  change (actuals math (S (S n)) ?ps ?args b) with (actuals_step (eval math (S n)) (actuals math (S n)) ps args b). cbn [actuals_step array].
  rewrite H1. change (negb _) with false. cbv iota. cbn [BcInterp.andthen bind_params bind_autos foldl bind_var pname].
  change (actuals math (S n) [] [] b) with (Done (@nil actual) b).
  cbn [BcInterp.andthen bind_params bind_autos foldl bind_var pname savedV savedA].
  change (set_callDepth _ _) with (inside x v b). rewrite H2. cbn [finish_call rflow value unbind savedV savedA].
  destruct b as [o sc ib ob ml vs ars fs d]. unfold inside, unbind, set_vars, set_arrays, set_callDepth.
  cbn [Out Scale IBase OBase Mathlib vars arrays funcs callDepth savedV savedA].
  rewrite restore_empty, insert_empty, restore_insert. do 2 f_equal. lia.
Qed.

Definition var_n : expr := variableExpr (str! "n") None.
Definition one : expr := literalExpr (str! "1").

Definition factorial_body : list stmt :=
  [ifStmt (binaryExpr (str! "<=") var_n one) [returnStmt one] [];
   returnStmt (binaryExpr (str! "*") var_n (callExpr (str! "f") [binaryExpr (str! "-") var_n one]))].

Definition factorial : function := mkFunction [mkParam (str! "n") false] [] factorial_body.

(** define f(n) { if (n <= 1) return (1); return (n * f(n - 1)) }; f(k) *)
Definition factorial_program (k : nat) : list stmt :=
  [defineStmt (str! "f") factorial; exprStmt (callExpr (str! "f") [literalExpr (utoa (Z.of_nat k))]) true].

Lemma eval_var_n n v b : vars b !! str! "n" = Some v -> eval math (S n) var_n b = Done v b.
Proof. intros H. rewrite eval_S. cbn [var_n eval_step]. unfold get_simple. cbn [str_eqb Z.eqb Pos.eqb andb]. by rewrite H. Qed.

Lemma eval_one n b : IBase b = 10 -> eval math (S n) one b = Done (Bc.fromInt64 1) b.
Proof. intros H. rewrite eval_S. cbn [one eval_step]. by rewrite H. Qed.

Lemma exec_return n e v b : eval math n e b = Done v b -> forall ss, exec math (S (S n)) (returnStmt e :: ss) b = Done (mkResult flowReturn v) b.
Proof.
  intros H ss. rewrite exec_cons. change (run math (S n) ?st b) with (run_step (eval math n) (while_loop math n) (for_loop math n) (exec math n) st b).
  cbn [run_step]. by rewrite H.
Qed.

(** The condition of the function. *)
Lemma eval_small n k b :
  vars b !! str! "n" = Some (Bc.fromInt64 k) -> IBase b = 10 ->
  eval math (S (S n)) (binaryExpr (str! "<=") var_n one) b = Done (boolNum (k <=? 1)) b.
Proof.
  intros Hv Hb. rewrite eval_S. cbn [eval_step]. change (assignmentOp _) with false. cbv iota. unfold operate.
  rewrite (eval_var_n _ _ _ Hv). cbn [BcInterp.andthen str_eqb Z.eqb Pos.eqb andb orb]. rewrite eval_one by done. cbn [BcInterp.andthen].
  change (compares _ ?c) with (Some (match c with Gt => false | _ => true end)). done.
Qed.

Lemma exec_factorial_small n k b ss :
  vars b !! str! "n" = Some (Bc.fromInt64 k) -> IBase b = 10 -> k <= 1 ->
  exec math (S (S (S (S (S n))))) (ifStmt (binaryExpr (str! "<=") var_n one) [returnStmt one] [] :: ss) b =
  Done (mkResult flowReturn (Bc.fromInt64 1)) b.
Proof.
  intros Hv Hb Hk. rewrite exec_cons. change (run math (S ?m) ?st b) with (run_step (eval math m) (while_loop math m) (for_loop math m) (exec math m) st b).
  cbn [run_step]. rewrite (eval_small _ k b Hv Hb), (proj2 (Z.leb_le _ _)) by done. cbn [BcInterp.andthen].
  change (if Bc.Sign (boolNum true) =? 0 then [] else [returnStmt one]) with [returnStmt one].
  by rewrite (exec_return _ _ (Bc.fromInt64 1)) by (by apply eval_one).
Qed.

Lemma exec_factorial_large n k v b :
  vars b !! str! "n" = Some (Bc.fromInt64 k) -> IBase b = 10 -> 1 < k ->
  eval math (S n) (binaryExpr (str! "*") var_n (callExpr (str! "f") [binaryExpr (str! "-") var_n one])) b = Done v b ->
  exec math (S (S (S (S n)))) factorial_body b = Done (mkResult flowReturn v) b.
Proof.
  intros Hv Hb Hk He. unfold factorial_body. rewrite exec_cons.
  change (run math (S ?m) ?st b) with (run_step (eval math m) (while_loop math m) (for_loop math m) (exec math m) st b).
  cbn [run_step]. rewrite (eval_small _ k b Hv Hb), (proj2 (Z.leb_gt _ _)) by done. cbn [BcInterp.andthen].
  change (exec math (S (S n)) _ b) with (Done no_result b). cbn [rflow no_result].
  by apply exec_return.
Qed.

Lemma Mul_integers x y sc : 0 <= sc -> Bc.Mul (Bc.fromInt64 x) (Bc.fromInt64 y) sc = Bc.fromInt64 (x * y).
Proof. intros H. unfold Bc.Mul, Bc.fromInt64. cbn. destruct (Z.ltb_spec 0 sc); [|done]. by rewrite (proj2 (Z.ltb_ge _ _)). Qed.

Lemma call_factorial (k : nat) arg b :
  funcs b !! str! "f" = Some factorial -> IBase b = 10 -> 0 <= Scale b ->
  eventually (fun n => eval math n arg b = Done (Bc.fromInt64 (Z.of_nat k)) b) ->
  eventually (fun n => call math n (str! "f") [arg] b = Done (Bc.fromInt64 (Z.of_nat (fact k))) b).
Proof.
  revert arg b. induction k as [|k IH]; intros arg b Hf Hb Hs Ha; (eapply call_one; [exact Hf|closing|exact Ha|]).
  all: set (b0 := inside _ _ _).
  all: assert (Hv : vars b0 !! str! "n" = Some _) by (unfold b0, inside; cbn [vars set_vars set_callDepth]; apply lookup_insert_eq).
  - do 5 apply eventually_S. apply eventually_always. intros n. by apply (exec_factorial_small n 0 b0).
  - destruct (decide (k = 0%nat)) as [->|Hk].
    { do 5 apply eventually_S. apply eventually_always. intros n. by apply (exec_factorial_small n 1 b0). }
    assert (Harg : eventually (fun n => eval math n (binaryExpr (str! "-") var_n one) b0 = Done (Bc.fromInt64 (Z.of_nat k)) b0)).
    { do 2 apply eventually_S. apply eventually_always. intros n.
      apply (eval_operate (S n) _ _ _ _ (Bc.fromInt64 (Z.of_nat (S k))) (Bc.fromInt64 1)); [done|done|closing|by apply eval_var_n|by apply eval_one|].
      change (arith (str! "-") ?x ?y ?b) with (Done (Bc.Sub x y) b). unfold Bc.Sub, Bc.fromInt64. cbn -[Z.of_nat]. do 2 f_equal. lia. }
    specialize (IH (binaryExpr (str! "-") var_n one) b0 Hf Hb Hs Harg). do 6 apply eventually_S. apply eventually_next in IH. eventually_use IH.
    apply (exec_factorial_large _ (Z.of_nat (S k))); [done|done|lia|].
    apply (eval_operate _ _ _ _ _ (Bc.fromInt64 (Z.of_nat (S k))) (Bc.fromInt64 (Z.of_nat (fact k)))); [done|done|closing|by apply eval_var_n| |].
    + rewrite eval_S. exact IH.
    + change (arith (str! "*") ?x ?y ?b) with (Done (Bc.Mul x y (Scale b)) b). rewrite Mul_integers by done. do 2 f_equal. cbn [fact]. lia.
Qed.

Lemma ParseNumber_utoa k : 0 <= k -> Bc.ParseNumber (utoa k) 10 = inr (Bc.fromInt64 k).
Proof.
  intros Hk. unfold utoa. destruct (Z.eqb_spec k 0) as [->|Hz]; [done|]. destruct (digits_spec 10 k) as (Hu & Hf & _ & Hne); [lia..|].
  rewrite Bc.hexchar_decimal by done. rewrite Bc.ParseNumber_integer by (done || lia || by apply Hne; lia). by rewrite Hu.
Qed.

Lemma utoa_number_ok k : 0 <= k -> number_ok (utoa k).
Proof.
  intros Hk. destruct (utoa_numeral k Hk) as (H1 & H2 & _). split_and!; [done| |].
  - intros E. rewrite E in H1. apply Forall_cons in H1 as [H1 _]. done.
  - apply forallb_forall. intros c Hc%list_elem_of_In. rewrite Forall_forall in H1. unfold digit_char. by rewrite (H1 c Hc).
Qed.

Lemma factorial_program_ok k : Forall stmt_ok (factorial_program k).
Proof.
  assert (Hf : name_ok (str! "f")) by (left; by eexists). assert (Hn : name_ok (str! "n")) by (left; by eexists).
  assert (H1 : number_ok (str! "1")) by by split_and!. pose proof (utoa_number_ok (Z.of_nat k) ltac:(lia)).
  apply Forall_cons. split; [|apply Forall_cons; split; [|done]].
  - split; [done|]. split; [by constructor|]. split; [|split; [|done]].
    + split; [|by right]. right. split; [closing|]. by split.
    + right. cbn. split_and!; done || lia.
  - split; [|done]. by split.
Qed.

(** [C32] Recursion, scope and output together: for every [k], the program that
    defines the factorial function and calls it with [k] ends, and prints
    the digits of [k!]. *)
Theorem factorial_prints (k : nat) :
  exists N b', Out b' = Bc.wrappedStringBase (Bc.fromInt64 (Z.of_nat (fact k))) 10 ++ [10] /\
  forall n, (N <= n)%nat -> Execute math n (program_text (factorial_program k)) New = Done tt b'.
Proof.
  set (b := set_funcs (<[str! "f" := factorial]> ∅) New). set (call_k := callExpr (str! "f") [literalExpr (utoa (Z.of_nat k))]).
  assert (Hcall : eventually (fun n => call math n (str! "f") [literalExpr (utoa (Z.of_nat k))] b = Done (Bc.fromInt64 (Z.of_nat (fact k))) b)).
  { apply (call_factorial k); [apply lookup_insert_eq|done|done|]. apply eventually_S, eventually_always. intros n. rewrite eval_S.
    cbn [eval_step]. change (IBase b) with 10. by rewrite ParseNumber_utoa by lia. }
  assert (Heval : eventually (fun n => eval math n call_k b = Done (Bc.fromInt64 (Z.of_nat (fact k))) b))
    by (apply eventually_S; by eventually_use Hcall).
  apply run_print in Heval. apply exec_ends in Heval. set (b' := write _ b) in Heval.
  destruct (eventually_and _ _ (Execute_text math _ (factorial_program_ok k)) Heval) as [N HN].
  exists (S (S N)), b'. split; [done|]. intros n Hn. destruct (HN n ltac:(lia)) as [E _]. rewrite E. destruct n as [|n]; [lia|].
  unfold factorial_program. rewrite exec_cons. destruct n as [|n]; [lia|].
  change (run math (S n) (defineStmt (str! "f") factorial) New) with (Done no_result b). cbn [rflow no_result].
  destruct (HN (S n) ltac:(lia)) as [_ E2]. unfold call_k in E2. by rewrite E2.
Qed.

(** ** Where the interpreter goes wrong *)

(** The parser looks at the text of a token and not at its kind: the string
    of a brace is read as the start of a block and not printed, and the
    string of a plus sign adds. *)
Theorem string_read_as_syntax (n : nat) (b : Interpreter) :
  Execute math (8 + n) [34; ch! "{"; 34] b = Err (Expected 1 (str! "}") []) b /\
  Execute math (8 + n) (str! "1 " ++ 34 :: str! "+" ++ 34 :: str! " 2") New = Done tt (write (str! "3" ++ [10]) New).
Proof. split; reflexivity. Qed.

(** A compound assignment evaluates the index of its array twice: the
    element read is not the element written. *)
Theorem compound_index_twice (n : nat) :
  match Execute math (12 + n) (str! "a[0]=5;a[1]=7;a[i++]+=1") New with
  | Done _ b => get_simple (str! "i") b = Bc.fromInt64 2 /\ get_element (str! "a") 0 b = Bc.fromInt64 5 /\
      get_element (str! "a") 1 b = Bc.fromInt64 6
  | _ => False
  end.
Proof. vm_compute. auto. Qed.

End Programs.

End BcPrograms.
