(* ===== verification/BcMath.v ===== *)
(** * The math library of bc (src/cmds/internal/bc/math.go)

    The series behind [s], [c], [a], [e], [l] and [j], over the floating-point
    numbers of Go's math/big, which are the parameter [bf]: its operations
    round as they like and panic where the package says so. A recursion that
    is not bounded by the code takes fuel. *)

From Stdlib Require Import ZArith Lia String QArith Qabs.
From stdpp Require Import base tactics list numbers strings.
From S2P Require Import Prelude BcNumber BcParse BcInterp.
Import BcParse BcInterp.

Open Scope Z_scope.
Open Scope go_scope.

Module BcMath.

(** [big.Float]: the operations at a precision, [None] of [rat] for an
    infinity. *)
Record BigFloat := mkBigFloat {
  F : Type;
  SetInt : Z -> Z -> F;
  one_half : Z -> F;
  SetMantExp : Z -> F -> Z -> F;
  FNeg : Z -> F -> F;
  FAdd : Z -> F -> F -> outcome F;
  FSub : Z -> F -> F -> outcome F;
  FMul : Z -> F -> F -> outcome F;
  FQuo : Z -> F -> F -> outcome F;
  FCmp : F -> F -> comparison;
  FSign : F -> Z;
  FInt : F -> outcome Z;
  MantExp : F -> F * Z;
  Rat : F -> outcome Q
}.

Section Math.
Context (bf : BigFloat).
Abbreviation Float := (F bf).

Definition mathPrec (scale : Z) : Z := ((if scale <? 20 then 20 else scale) + 32) * 4.

Definition numberFloat (n : Bc.Number) (prec : Z) : outcome Float :=
  let f := SetInt bf prec (Bc.num n) in
  if Bc.scale n =? 0 then Ret f else FQuo bf prec f (SetInt bf prec (Bc.pow10 (Bc.scale n))).

(** [Rat] gives a fraction in lowest terms, and so does the product. *)
Definition floatNumber (f : Float) (scale : Z) : outcome Bc.Number :=
  let! r := Rat bf f in
  let r := Qred (r * inject_Z (Bc.pow10 scale)) in
  Ret (Bc.mkNumber (Z.quot (Qnum r) (Z.pos (Qden r))) scale).

Definition epsilon (prec : Z) : Float := SetMantExp bf prec (SetInt bf prec 1) (- prec + 8).

Definition absFloat (prec : Z) (x : Float) : Float := if FSign bf x <? 0 then FNeg bf prec x else x.

Definition small (prec : Z) (x : Float) : bool :=
  match FCmp bf (absFloat prec x) (epsilon prec) with Lt => true | _ => false end.

(** The loops that end after 100000 terms at the latest. *)
Definition terms : nat := Z.to_nat 100000.

Fixpoint atan_loop (rounds : nat) (prec k : Z) (x2 term sum : Float) : outcome Float :=
  match rounds with
  | O => Ret sum
  | S m =>
      if 100000 <=? k then Ret sum
      else
        let! term := FMul bf prec term x2 in
        let! frac := FQuo bf prec term (SetInt bf prec (2 * k + 1)) in
        let! sum := if Z.land k 1 =? 1 then FSub bf prec sum frac else FAdd bf prec sum frac in
        if small prec frac then Ret sum else atan_loop m prec (k + 1) x2 term sum
  end.

Definition above_half (prec : Z) (x : Float) : bool :=
  match FCmp bf x (one_half bf prec) with Gt => true | _ => false end.

Fixpoint atanSeries (fuel : nat) (x : Float) (prec : Z) : outcome Float :=
  match fuel with
  | O => OutOfFuel
  | S n =>
      let one := SetInt bf prec 1 in
      let abs := absFloat prec x in
      if above_half prec abs then
        let! d := FSub bf prec abs one in
        let! s := FAdd bf prec abs one in
        let! z := FQuo bf prec d s in
        let! r := atanSeries n z prec in
        let! pi := piFloat n prec in
        let! quarterPi := FQuo bf prec pi (SetInt bf prec 4) in
        let! r := FAdd bf prec quarterPi r in
        Ret (if FSign bf x <? 0 then FNeg bf prec r else r)
      else
        let! x2 := FMul bf prec x x in
        atan_loop terms prec 1 x2 x x
  end
with piFloat (fuel : nat) (prec : Z) : outcome Float :=
  match fuel with
  | O => OutOfFuel
  | S n =>
      let! fifth := FQuo bf prec (SetInt bf prec 1) (SetInt bf prec 5) in
      let! a := atanSeries n fifth prec in
      let! tiny := FQuo bf prec (SetInt bf prec 1) (SetInt bf prec 239) in
      let! b := atanSeries n tiny prec in
      let! a := FMul bf prec a (SetInt bf prec 16) in
      let! b := FMul bf prec b (SetInt bf prec 4) in
      FSub bf prec a b
  end.

Fixpoint sincos_loop (rounds : nat) (prec n : Z) (x2 term sum : Float) : outcome Float :=
  match rounds with
  | O => Ret sum
  | S m =>
      if 100000 <=? n then Ret sum
      else
        let den := SetInt bf prec (n * (n + 1)) in
        let! term := FMul bf prec term x2 in
        let! term := FQuo bf prec term den in
        let term := FNeg bf prec term in
        let! sum := FAdd bf prec sum term in
        if small prec term then Ret sum else sincos_loop m prec (n + 2) x2 term sum
  end.

Definition sincos (fuel : nat) (x : Float) (prec : Z) (cos : bool) : outcome Float :=
  let! pi := piFloat fuel prec in
  let! twoPi := FMul bf prec pi (SetInt bf prec 2) in
  let! q := FQuo bf prec x twoPi in
  let! qi := FInt bf q in
  let! turns := FMul bf prec (SetInt bf prec qi) twoPi in
  let! x := FSub bf prec x turns in
  let! x2 := FMul bf prec x x in
  if cos then sincos_loop terms prec 1 x2 (SetInt bf prec 1) (SetInt bf prec 1)
  else sincos_loop terms prec 2 x2 x x.

Fixpoint halve (fuel : nat) (prec : Z) (reduced : Float) (halvings : nat) : outcome (Float * nat) :=
  match fuel with
  | O => OutOfFuel
  | S n =>
      if above_half prec reduced then
        let! reduced := FQuo bf prec reduced (SetInt bf prec 2) in
        halve n prec reduced (S halvings)
      else Ret (reduced, halvings)
  end.

Fixpoint exp_loop (rounds : nat) (prec n : Z) (reduced term sum : Float) : outcome Float :=
  match rounds with
  | O => Ret sum
  | S m =>
      if 100000 <=? n then Ret sum
      else
        let! term := FMul bf prec term reduced in
        let! term := FQuo bf prec term (SetInt bf prec n) in
        let! sum := FAdd bf prec sum term in
        if small prec term then Ret sum else exp_loop m prec (n + 1) reduced term sum
  end.

Fixpoint square (halvings : nat) (prec : Z) (sum : Float) : outcome Float :=
  match halvings with
  | O => Ret sum
  | S m => let! sum := FMul bf prec sum sum in square m prec sum
  end.

Fixpoint expFloat (fuel : nat) (x : Float) (prec : Z) : outcome Float :=
  match fuel with
  | O => OutOfFuel
  | S n =>
      if FSign bf x <? 0 then
        let! positive := expFloat n (FNeg bf prec x) prec in
        FQuo bf prec (SetInt bf prec 1) positive
      else
        let! rh := halve n prec x 0 in
        let! sum := exp_loop terms prec 1 rh.1 (SetInt bf prec 1) (SetInt bf prec 1) in
        square rh.2 prec sum
  end.

(** The loop of [powFloatInt], over the bits of a 64-bit exponent. *)
Fixpoint pow_loop (bits : nat) (prec n : Z) (r b : Float) : outcome Float :=
  match bits with
  | O => Ret r
  | S m =>
      if 0 <? n then
        let! r := if Z.land n 1 =? 0 then Ret r else FMul bf prec r b in
        let n := Z.shiftr n 1 in
        let! b := if n =? 0 then Ret b else FMul bf prec b b in
        pow_loop m prec n r b
      else Ret r
  end.

Definition powFloatInt (x : Float) (n prec : Z) : outcome Float := pow_loop 63 prec n (SetInt bf prec 1) x.

(** [term] over 2, 3, ..., [order]. *)
Fixpoint over_factorial (rounds : nat) (prec i : Z) (term : Float) : outcome Float :=
  match rounds with
  | O => Ret term
  | S m => let! term := FQuo bf prec term (SetInt bf prec i) in over_factorial m prec (i + 1) term
  end.

Fixpoint bessel_loop (rounds : nat) (prec order k : Z) (x2quarter term sum : Float) : outcome Float :=
  match rounds with
  | O => Ret sum
  | S m =>
      if 100000 <=? k then Ret sum
      else
        let den := SetInt bf prec ((k + 1) * (order + k + 1)) in
        let! term := FMul bf prec term x2quarter in
        let! term := FQuo bf prec term den in
        let term := FNeg bf prec term in
        let! sum := FAdd bf prec sum term in
        if small prec term then Ret sum else bessel_loop m prec order (k + 1) x2quarter term sum
  end.

Definition besselFloat (order : Z) (x : Float) (prec : Z) : outcome Float :=
  let negOrder := order <? 0 in
  let order := Z.abs order in
  let! half := FQuo bf prec x (SetInt bf prec 2) in
  let! term := powFloatInt half order prec in
  let! term := over_factorial (Z.to_nat (order - 1)) prec 2 term in
  let! x2quarter := FMul bf prec half half in
  let! sum := bessel_loop terms prec order 0 x2quarter term term in
  Ret (if negOrder && negb (Z.land order 1 =? 0) then FNeg bf prec sum else sum).

Fixpoint log_loop (rounds : nat) (prec n : Z) (z2 term sum : Float) : outcome Float :=
  match rounds with
  | O => Ret sum
  | S m =>
      if 100000 <=? n then Ret sum
      else
        let! term := FMul bf prec term z2 in
        let! q := FQuo bf prec term (SetInt bf prec n) in
        let! sum := FAdd bf prec sum q in
        if small prec q then Ret sum else log_loop m prec (n + 2) z2 term sum
  end.

Definition logUnit (x : Float) (prec : Z) : outcome Float :=
  let one := SetInt bf prec 1 in
  let! d := FSub bf prec x one in
  let! s := FAdd bf prec x one in
  let! z := FQuo bf prec d s in
  let! z2 := FMul bf prec z z in
  let! sum := log_loop terms prec 3 z2 z z in
  FMul bf prec sum (SetInt bf prec 2).

Definition logFloat (x : Float) (prec : Z) : outcome (error + Float) :=
  if FSign bf x <=? 0 then Ret (inl (MathError (str! "logarithm of non-positive number")))
  else
    let '(m, e) := MantExp bf x in
    let! m := FMul bf prec m (SetInt bf prec 2) in
    let e := e - 1 in
    let! sum := logUnit m prec in
    if e =? 0 then Ret (inr sum)
    else
      let! ln2 := logUnit (SetInt bf prec 2) prec in
      let! ln2 := FMul bf prec ln2 (SetInt bf prec e) in
      let! sum := FAdd bf prec sum ln2 in
      Ret (inr sum).

Definition mathCall (fuel : nat) (scale : Z) (name : list Z) (v : Bc.Number) : outcome (error + Bc.Number) :=
  let prec := mathPrec scale in
  let! x := numberFloat v prec in
  let finish (y : Float) : outcome (error + Bc.Number) := let! r := floatNumber y scale in Ret (inr r) in
  if str_eqb name (str! "s") then let! y := sincos fuel x prec false in finish y
  else if str_eqb name (str! "c") then let! y := sincos fuel x prec true in finish y
  else if str_eqb name (str! "a") then let! y := atanSeries fuel x prec in finish y
  else if str_eqb name (str! "e") then let! y := expFloat fuel x prec in finish y
  else if str_eqb name (str! "l") then
    let! y := logFloat x prec in
    match y with inl e => Ret (inl e) | inr y => finish y end
  else Ret (inl (MathError (str! "unknown math function " ++ name))).

Definition besselCall (scale : Z) (order arg : Bc.Number) : outcome (error + Bc.Number) :=
  let not_integer := Ret (inl (MathError (str! "Bessel order is not an integer"))) in
  let den := Bc.pow10 (Bc.scale order) in
  let num := if Bc.scale order =? 0 then Bc.num order else Z.quot (Bc.num order) den in
  let rem := if Bc.scale order =? 0 then 0 else Z.rem (Bc.num order) den in
  if negb (rem =? 0) then not_integer
  else if negb (IsInt64 num) || (num <? - 2 ^ 30) || (2 ^ 30 <? num) then not_integer
  else
    let prec := mathPrec scale in
    let! x := numberFloat arg prec in
    let! y := besselFloat num x prec in
    let! r := floatNumber y scale in
    Ret (inr r).

Definition mathlib (fuel : nat) : library := mkLibrary (mathCall fuel) besselCall.

(** ** Truncation of the result *)

(** The quotient of a fraction is its integer part. *)
Lemma quot_fraction (x : Q) :
  let n := Z.quot (Qnum x) (Z.pos (Qden x)) in
  (Qabs (x - inject_Z n) < 1)%Q /\ (Qabs (inject_Z n) <= Qabs x)%Q.
Proof.
  destruct x as [a d]. cbn [Qnum Qden]. cbv zeta. pose proof (Z.quot_rem' a (Z.pos d)) as E.
  pose proof (Z.rem_bound_abs a (Z.pos d) ltac:(lia)) as B. pose proof (rem_sign a (Z.pos d) ltac:(lia)) as S.
  pose proof (rem_abs_le a (Z.pos d)) as L.
  set (q := Z.quot a (Z.pos d)) in *. set (r := Z.rem a (Z.pos d)) in *. clearbody q r. split.
  - unfold Qlt, Qminus, Qplus, Qopp, Qabs, inject_Z. cbn [Qnum Qden]. rewrite Pos.mul_1_r. nia.
  - unfold Qle, Qabs, inject_Z. cbn [Qnum Qden]. assert (a = 0 \/ 0 < a /\ 0 <= r \/ a < 0 /\ r <= 0) by nia.
    assert (Z.abs q * Z.pos d = Z.abs (a - r)) by (replace (a - r) with (q * Z.pos d) by lia; rewrite Z.abs_mul; lia). lia.
Qed.

Lemma inject_pow10 sc : 0 <= sc -> (inject_Z (Bc.pow10 sc) * Bc.ulp sc == 1)%Q.
Proof.
  intros H. rewrite Bc.pow10_pow by done. unfold Bc.ulp, Bc.frac, Qeq, Qmult, inject_Z. cbn [Qnum Qden].
  pose proof (Bc.ten_pos sc H). rewrite Z.mul_1_r, Pos.mul_1_l, Z2Pos.id by done. lia.
Qed.

Lemma floatNumber_truncates y q sc :
  0 <= sc -> Rat bf y = Ret q ->
  exists v, floatNumber y sc = Ret v /\ Bc.scale v = sc /\
    (Qabs (q - Bc.value v) < Bc.ulp sc)%Q /\ (Qabs (Bc.value v) <= Qabs q)%Q.
Proof.
  intros Hs Hq. unfold floatNumber. rewrite Hq. cbn [bind]. eexists. split; [done|]. split; [done|].
  pose proof (Qred_correct (q * inject_Z (Bc.pow10 sc))) as Hx. set (x := Qred _) in *. clearbody x.
  pose proof (quot_fraction x) as [H1 H2]. cbv zeta in H1, H2. set (n := Z.quot _ _) in *. clearbody n.
  assert (Hv : (Bc.value (Bc.mkNumber n sc) == inject_Z n * Bc.ulp sc)%Q).
  { unfold Bc.value, Bc.ulp. cbn [Bc.num Bc.scale]. replace n with (n * 1) at 1 by lia. change sc with (0 + sc) at 1.
    rewrite Bc.frac_mult by lia. done. }
  assert (Hu : (0 < Bc.ulp sc)%Q) by done.
  assert (Hq' : (q == x * Bc.ulp sc)%Q) by (rewrite Hx, <- Qmult_assoc, inject_pow10 by done; ring).
  rewrite Hv, Hq'. assert (Ha : (Qabs (Bc.ulp sc) == Bc.ulp sc)%Q) by (apply Qabs_pos; by apply Qlt_le_weak).
  split.
  - assert ((x * Bc.ulp sc - inject_Z n * Bc.ulp sc) == (x - inject_Z n) * Bc.ulp sc)%Q as -> by ring.
    rewrite Qabs_Qmult, Ha. rewrite <- (Qmult_1_l (Bc.ulp sc)) at 2. by apply Qmult_lt_compat_r.
  - rewrite !Qabs_Qmult, Ha. apply Qmult_le_compat_r; [done|by apply Qlt_le_weak].
Qed.

End Math.

End BcMath.
