(* ===== verification/BcSeries.v ===== *)
(** * The series of the math library of bc

    What [s], [c], [a], [e] and [l] of [BcMath] compute when every operation of
    the floating-point numbers rounds its exact result to the precision. The
    loops add up the terms of the Taylor series of sine, cosine, arc tangent,
    exponential function and area tangent, with an error bounded by the number
    of roundings, and the functions around them reduce the argument by the
    identities of these functions ([mathCall_series]). *)

From Stdlib Require Import ZArith Lia String QArith Qabs Qpower Lqa.
From stdpp Require Import base tactics list numbers strings.
From S2P Require Import Prelude BcNumber BcParse BcInterp BcMath.
Import BcParse BcInterp BcMath.

Open Scope Z_scope.
Open Scope go_scope.

Module BcSeries.
Open Scope Q_scope.

(** ** Powers *)

Fixpoint qpow (x : Q) (n : nat) : Q := match n with O => 1 | S m => x * qpow x m end.

#[export] Instance qpow_proper : Proper (Qeq ==> eq ==> Qeq) qpow.
Proof. intros x y E n ? <-. induction n as [|n IH]; cbn [qpow]; [done|]. by rewrite IH, E. Qed.

Lemma qpow_add x m n : qpow x (m + n) == qpow x m * qpow x n.
Proof. induction m as [|m IH]; cbn [qpow Nat.add]; [ring|]. rewrite IH. ring. Qed.

Lemma qpow_pos x n : 0 < x -> 0 < qpow x n.
Proof. intros Hx. induction n as [|n IH]; cbn [qpow]; [lra|nra]. Qed.

Lemma qpow_nonneg x n : 0 <= x -> 0 <= qpow x n.
Proof. intros Hx. induction n as [|n IH]; cbn [qpow]; [lra|nra]. Qed.

Lemma qpow_ge1 x n : 1 <= x -> 1 <= qpow x n.
Proof. intros Hx. induction n as [|n IH]; cbn [qpow]; [lra|nra]. Qed.

Lemma qpow_mono x m n : 1 <= x -> (m <= n)%nat -> qpow x m <= qpow x n.
Proof.
  intros Hx Hn. replace n with (m + (n - m))%nat by lia. rewrite qpow_add.
  pose proof (qpow_ge1 x (n - m) Hx). pose proof (qpow_ge1 x m Hx). nra.
Qed.

Lemma Qmult_pos_iff a b : 0 < a -> 0 < a * b -> 0 < b.
Proof. intros. nra. Qed.

Lemma Qabs_between a b : - b <= a -> a <= b -> Qabs a <= b.
Proof. intros. by apply Qabs_Qle_condition. Qed.

Lemma Qabs_bounds a b : Qabs a <= b -> - b <= a <= b.
Proof. apply Qabs_Qle_condition. Qed.

(** ** Roundings *)

Section Precision.
Context (p : Z) (Hp : (8 <= p)%Z).

(** The largest relative error of a result rounded to [p] bits. *)
Definition roundoff : Q := / inject_Z (2 ^ p).

Definition rounded (y x : Q) : Prop := Qabs (y - x) <= roundoff * Qabs x.

#[export] Instance rounded_proper : Proper (Qeq ==> Qeq ==> iff) rounded.
Proof using Type. intros y y' Ey x x' Ex. unfold rounded. by rewrite Ey, Ex. Qed.

(** The factor by which one rounding changes a number at most, up or down. *)
Definition grow : Q := / (1 - roundoff).

Lemma roundoff_range : 0 < roundoff <= 1 # 256.
Proof using Hp.
  unfold roundoff. assert (256 <= 2 ^ p)%Z as H by (change 256%Z with (2 ^ 8)%Z; by apply Z.pow_le_mono_r).
  assert (256 <= inject_Z (2 ^ p)) as H' by (change 256 with (inject_Z 256); by rewrite <- Zle_Qle).
  split; [apply Qinv_lt_0_compat; lra|]. apply Qle_shift_inv_r; lra.
Qed.

Lemma grow_spec : grow * (1 - roundoff) == 1.
Proof using Hp. unfold grow. pose proof roundoff_range. rewrite Qmult_comm, Qmult_inv_r; lra. Qed.

Lemma grow_range : 1 <= grow <= 256 # 255.
Proof using Hp. pose proof roundoff_range. pose proof grow_spec. split; nra. Qed.

(** [y] is [x] after at most [n] roundings. *)
Definition near (n : nat) (y x : Q) : Prop := exists t, y == x * t /\ 1 <= t * qpow grow n /\ t <= qpow grow n.

#[export] Instance near_proper n : Proper (Qeq ==> Qeq ==> iff) (near n).
Proof using Type.
  intros y y' Ey x x' Ex. unfold near. split; intros (t & E & H); exists t; [rewrite <- Ey, <- Ex|rewrite Ey, Ex]; done.
Qed.

Lemma grow_pos n : 0 < qpow grow n.
Proof using Hp. apply qpow_pos. pose proof grow_range. lra. Qed.

Lemma factor_pos n t : 1 <= t * qpow grow n -> 0 < t.
Proof using Hp. intros H. pose proof (grow_pos n). nra. Qed.

Lemma near_refl x : near 0 x x.
Proof using Type. exists 1. cbn [qpow]. split_and!; [ring|lra|lra]. Qed.

Lemma near_mono m n y x : near m y x -> (m <= n)%nat -> near n y x.
Proof using Hp.
  intros (t & E & H1 & H2) Hn. pose proof (qpow_mono grow m n (proj1 grow_range) Hn). pose proof (factor_pos m t H1).
  exists t. split_and!; [done|nra|lra].
Qed.

Lemma near_trans m n y x z : near m y x -> near n z y -> near (m + n) z x.
Proof using Hp.
  intros (t & E & H1 & H2) (s & F & H3 & H4). exists (t * s). rewrite qpow_add. pose proof (factor_pos m t H1). pose proof (factor_pos n s H3).
  split_and!; [rewrite F, E; ring|nra|nra].
Qed.

Lemma near_mul m n y x b a : near m y x -> near n b a -> near (m + n) (y * b) (x * a).
Proof using Hp.
  intros (t & E & H1 & H2) (s & F & H3 & H4). exists (t * s). rewrite qpow_add. pose proof (factor_pos m t H1). pose proof (factor_pos n s H3).
  split_and!; [rewrite F, E; ring|nra|nra].
Qed.

Lemma near_inv n y x : near n y x -> near n (/ y) (/ x).
Proof using Hp.
  intros (t & E & H1 & H2). pose proof (factor_pos n t H1) as Ht. exists (/ t). split_and!.
  - by rewrite E, Qinv_mult_distr.
  - rewrite Qmult_comm. apply Qle_shift_div_l; lra.
  - apply Qle_shift_inv_r; [done|]. lra.
Qed.

Lemma near_div m n y x b a : near m y x -> near n b a -> near (m + n) (y / b) (x / a).
Proof using Hp. intros H1 H2. apply near_mul; [done|by apply near_inv]. Qed.

Lemma near_opp n y x : near n y x -> near n (- y) (- x).
Proof using Type. intros (t & E & H). exists t. split; [rewrite E; ring|done]. Qed.

Lemma near_abs n y x : near n y x -> near n (Qabs y) (Qabs x).
Proof using Hp.
  intros (t & E & H1 & H2). pose proof (factor_pos n t H1). exists t. split; [|done]. rewrite E, Qabs_Qmult, (Qabs_pos t); [done|lra].
Qed.

Lemma near_le n y x : near n y x -> Qabs y <= qpow grow n * Qabs x /\ Qabs x <= qpow grow n * Qabs y.
Proof using Hp.
  intros (t & -> & H1 & H2). pose proof (factor_pos n t H1). pose proof (Qabs_nonneg x). rewrite Qabs_Qmult, (Qabs_pos t) by lra. split; nra.
Qed.

Lemma near_sign n y x : near n y x -> (0 < x <-> 0 < y) /\ (x < 0 <-> y < 0) /\ (x == 0 <-> y == 0).
Proof using Hp. intros (t & E & H1 & H2). pose proof (factor_pos n t H1). rewrite E. split_and!; split; intros; nra. Qed.

Lemma rounded_near y x : rounded y x -> near 1 y x.
Proof using Hp.
  unfold rounded. intros H. pose proof roundoff_range. pose proof grow_spec as G. pose proof grow_range.
  destruct (Qeq_dec x 0) as [E|E].
  - exists 1. cbn [qpow]. rewrite E in *. assert (Qabs 0 == 0) as E0 by done. rewrite E0 in H. apply Qabs_bounds in H. split_and!; lra.
  - exists (y / x). assert (y == x * (y / x)) as Ey by (field; done). split; [done|]. set (t := y / x) in *. rewrite Ey in H. clearbody t.
    assert ((x * t - x) == x * (t - 1)) as Ex by ring. rewrite Ex, Qabs_Qmult in H.
    assert (0 < Qabs x) by (destruct (Qlt_le_dec 0 (Qabs x)) as [|L]; [done|exfalso; apply E; apply Qabs_bounds in L; lra]).
    assert (Qabs (t - 1) <= roundoff) as B by nra. apply Qabs_bounds in B. cbn [qpow]. split; nra.
Qed.

(** ** Sums *)

Fixpoint total (T : nat -> Q) (N : nat) : Q := match N with O => T O | S n => total T n + T (S n) end.

(** [s] is the sum of the terms 0 to [N], each with at most [k] roundings. *)
Definition series (k : nat) (T : nat -> Q) (N : nat) (s : Q) : Prop :=
  Qabs (s - total T N) <= (qpow grow k - 1) * total (fun i => Qabs (T i)) N.

Lemma total_abs T N : Qabs (total T N) <= total (fun i => Qabs (T i)) N.
Proof using Type. induction N as [|N IH]; cbn [total]; [lra|]. pose proof (Qabs_triangle (total T N) (T (S N))). lra. Qed.

Lemma total_nonneg T N : 0 <= total (fun i => Qabs (T i)) N.
Proof using Type. pose proof (total_abs T N). pose proof (Qabs_nonneg (total T N)). lra. Qed.

Lemma series_start T s : s == T O -> series 0 T 0 s.
Proof using Type. intros E. unfold series. cbn [total qpow]. rewrite E. apply Qabs_between; pose proof (Qabs_nonneg (T O)); lra. Qed.

Lemma series_mono k k' T N s : series k T N s -> (k <= k')%nat -> series k' T N s.
Proof using Hp.
  unfold series. intros H Hk. pose proof (qpow_mono grow k k' (proj1 grow_range) Hk). pose proof (total_nonneg T N). nra.
Qed.

(** The error of a number after roundings. *)
Lemma near_error k y x : near k y x -> Qabs (y - x) <= (qpow grow k - 1) * Qabs x.
Proof using Hp.
  intros (t & E & H1 & H2). pose proof (factor_pos k t H1). pose proof (qpow_ge1 grow k (proj1 grow_range)).
  assert (y - x == x * (t - 1)) as -> by (rewrite E; ring). rewrite Qabs_Qmult. pose proof (Qabs_nonneg x).
  assert (Qabs (t - 1) <= qpow grow k - 1) by (apply Qabs_between; nra). nra.
Qed.

(** One more term. *)
Lemma series_step k T N s t s' : series k T N s -> near k t (T (S N)) -> near 1 s' (s + t) -> series (S k) T (S N) s'.
Proof using Hp.
  unfold series. intros Hs Ht%near_error (w & E & W1 & W2). cbn [total qpow] in *. pose proof grow_range as [G _].
  pose proof (factor_pos 1 w W1) as W0. cbn [qpow] in W1, W2. rewrite Qmult_1_r in W1, W2.
  pose proof (qpow_ge1 grow k G). set (C := qpow grow k) in *. pose proof (Qabs_triangle (s - total T N) (t - T (S N))) as D.
  assert (Hd : Qabs (s + t - (total T N + T (S N))) <= (C - 1) * (total (fun i => Qabs (T i)) N + Qabs (T (S N)))).
  { assert (s + t - (total T N + T (S N)) == s - total T N + (t - T (S N))) as -> by ring. lra. }
  pose proof (Qabs_triangle (total T N) (T (S N))) as A. pose proof (total_abs T N) as B.
  set (d := s + t - (total T N + T (S N))) in *. set (B' := total (fun i => Qabs (T i)) N) in *.
  assert (s' - (total T N + T (S N)) == w * d + (w - 1) * (total T N + T (S N))) as -> by (rewrite E; subst d; ring).
  pose proof (Qabs_triangle (w * d) ((w - 1) * (total T N + T (S N)))) as F. rewrite !Qabs_Qmult, (Qabs_pos w) in F by lra.
  assert (Qabs (w - 1) <= grow - 1) as K by (apply Qabs_between; nra). pose proof (Qabs_nonneg (total T N + T (S N))). pose proof (Qabs_nonneg d).
  assert (w * Qabs d <= grow * ((C - 1) * (B' + Qabs (T (S N))))) by (pose proof (Qabs_nonneg d); nra).
  assert (Qabs (w - 1) * Qabs (total T N + T (S N)) <= (grow - 1) * (B' + Qabs (T (S N)))) by nra. lra.
Qed.

(** The terms go on up to one that is below the epsilon of the precision, but
    need not go on after 50000 of them. *)
Definition enough (k : nat) (T : nat -> Q) (N : nat) : Prop :=
  (49999 <= Z.of_nat N)%Z \/ Qabs (T N) <= qpow grow (k + 2) * 2 ^ (8 - p).

(** [y] is the sum of the series [T], with five roundings for each term. *)
Definition summed (T : nat -> Q) (y : Q) : Prop :=
  exists N, (Z.of_nat N <= 100000)%Z /\ series (5 * N) T N y /\ enough (5 * N) T N.

End Precision.

(** ** The floating-point numbers

    The operations of [big.Float] on finite numbers at the precision [p]: each
    gives the exact result rounded to [p] bits, as its documentation says, while no
    exponent leaves its 32 bits; comparisons, signs and conversions to integers
    and fractions are exact. *)
Class Rounding (bf : BigFloat) (p : Z) := {
  val : F bf -> Q;
  val_SetInt n : rounded p (val (SetInt bf p n)) (inject_Z n);
  val_SetInt_exact n : (Z.abs n < 2 ^ p)%Z -> val (SetInt bf p n) == inject_Z n;
  val_one_half : val (one_half bf p) == 1 # 2;
  val_SetMantExp x e : rounded p (val (SetMantExp bf p x e)) (val x * 2 ^ e);
  val_FNeg x : rounded p (val (FNeg bf p x)) (- val x);
  FAdd_rounds x y : exists z, FAdd bf p x y = Ret z /\ rounded p (val z) (val x + val y);
  FSub_rounds x y : exists z, FSub bf p x y = Ret z /\ rounded p (val z) (val x - val y);
  FMul_rounds x y : exists z, FMul bf p x y = Ret z /\ rounded p (val z) (val x * val y);
  FQuo_rounds x y : ~ val y == 0 -> exists z, FQuo bf p x y = Ret z /\ rounded p (val z) (val x / val y);
  FCmp_val x y : FCmp bf x y = (val x ?= val y);
  FSign_val x : FSign bf x = Z.sgn (Qnum (val x));
  FInt_val x : FInt bf x = Ret (Z.quot (Qnum (val x)) (Z.pos (Qden (val x))));
  MantExp_val x m e : 0 < val x -> MantExp bf x = (m, e) -> val x == val m * 2 ^ e /\ (1 # 2) <= val m < 1;
  Rat_val x : exists q, Rat bf x = Ret q /\ q == val x
}.

(** ** The terms of the series *)

Definition alt (i : nat) : Q := if Nat.even i then 1 else -1.
Definition factorial (n : nat) : Q := inject_Z (Z.of_nat (fact n)).
Definition odd_number (i : nat) : Q := inject_Z (2 * Z.of_nat i + 1).

Definition exp_term (x : Q) (i : nat) : Q := qpow x i / factorial i.
Definition sin_term (x : Q) (i : nat) : Q := alt i * qpow x (2 * i + 1) / factorial (2 * i + 1).
Definition cos_term (x : Q) (i : nat) : Q := alt i * qpow x (2 * i) / factorial (2 * i).
Definition atan_term (x : Q) (i : nat) : Q := alt i * qpow x (2 * i + 1) / odd_number i.
Definition atanh_term (x : Q) (i : nat) : Q := qpow x (2 * i + 1) / odd_number i.

Lemma alt_S i : alt (S i) == - alt i.
Proof. unfold alt. rewrite Nat.even_succ, <- Nat.negb_even. by destruct (Nat.even i). Qed.

Lemma factorial_S n : factorial (S n) == inject_Z (Z.of_nat (S n)) * factorial n.
Proof. unfold factorial. rewrite <- inject_Z_mult, <- Nat2Z.inj_mul. done. Qed.

Lemma inject_pos z : (0 < z)%Z -> 0 < inject_Z z.
Proof. change 0 with (inject_Z 0). by rewrite <- Zlt_Qlt. Qed.

Lemma factorial_pos n : 0 < factorial n.
Proof. apply inject_pos. pose proof (lt_O_fact n). lia. Qed.

Lemma odd_pos i : 0 < odd_number i.
Proof. apply inject_pos. lia. Qed.

Lemma exp_term_S x j : exp_term x (S j) == exp_term x j * x / inject_Z (1 + Z.of_nat j).
Proof.
  unfold exp_term. rewrite factorial_S. replace (Z.of_nat (S j)) with (1 + Z.of_nat j)%Z by lia. cbn [qpow].
  pose proof (factorial_pos j). pose proof (inject_pos (1 + Z.of_nat j) ltac:(lia)). field. lra.
Qed.

Lemma sin_term_0 x : sin_term x 0 == x.
Proof.
  unfold sin_term. change (alt 0) with 1. change (factorial (2 * 0 + 1)) with 1. change (2 * 0 + 1)%nat with 1%nat. cbn [qpow]. unfold Qdiv.
  change (/ 1) with 1. ring.
Qed.

Lemma atan_term_0 x : atan_term x 0 == x.
Proof.
  unfold atan_term. change (alt 0) with 1. change (odd_number 0) with 1. change (2 * 0 + 1)%nat with 1%nat. cbn [qpow]. unfold Qdiv.
  change (/ 1) with 1. ring.
Qed.

Lemma atanh_term_0 x : atanh_term x 0 == x.
Proof.
  unfold atanh_term. change (odd_number 0) with 1. change (2 * 0 + 1)%nat with 1%nat. cbn [qpow]. unfold Qdiv. change (/ 1) with 1. ring.
Qed.

Lemma sin_term_S x j :
  sin_term x (S j) == - (sin_term x j * (x * x) / inject_Z ((2 + 2 * Z.of_nat j) * (2 + 2 * Z.of_nat j + 1))).
Proof.
  unfold sin_term. rewrite alt_S. replace (2 * S j + 1)%nat with (S (S (2 * j + 1))) by lia. rewrite !factorial_S. cbn [qpow].
  replace (Z.of_nat (S (S (2 * j + 1)))) with (2 + 2 * Z.of_nat j + 1)%Z by lia. replace (Z.of_nat (S (2 * j + 1))) with (2 + 2 * Z.of_nat j)%Z by lia.
  rewrite inject_Z_mult. pose proof (factorial_pos (2 * j + 1)). pose proof (inject_pos (2 + 2 * Z.of_nat j) ltac:(lia)).
  pose proof (inject_pos (2 + 2 * Z.of_nat j + 1) ltac:(lia)). field. lra.
Qed.

Lemma cos_term_S x j :
  cos_term x (S j) == - (cos_term x j * (x * x) / inject_Z ((1 + 2 * Z.of_nat j) * (1 + 2 * Z.of_nat j + 1))).
Proof.
  unfold cos_term. rewrite alt_S. replace (2 * S j)%nat with (S (S (2 * j))) by lia. rewrite !factorial_S. cbn [qpow].
  replace (Z.of_nat (S (S (2 * j)))) with (1 + 2 * Z.of_nat j + 1)%Z by lia. replace (Z.of_nat (S (2 * j))) with (1 + 2 * Z.of_nat j)%Z by lia.
  rewrite inject_Z_mult. pose proof (factorial_pos (2 * j)). pose proof (inject_pos (1 + 2 * Z.of_nat j) ltac:(lia)).
  pose proof (inject_pos (1 + 2 * Z.of_nat j + 1) ltac:(lia)). field. lra.
Qed.

(** ** The functions

    The numbers that the functions compute, each from the series and the
    identities that reduce the argument to the range where it converges. *)

Section Functions.
Context (p : Z).
Abbreviation near := (near p).
Abbreviation summed := (summed p).

Definition trunc (x : Q) : Z := Z.quot (Qnum x) (Z.pos (Qden x)).

(** pi = 16 atan (1/5) - 4 atan (1/239). *)
Definition pi_of (q : Q) : Prop :=
  exists x y a b a16 b4,
    near 1 x (1 # 5) /\ summed (atan_term x) a /\ near 1 y (1 # 239) /\ summed (atan_term y) b /\
    near 1 a16 (a * 16) /\ near 1 b4 (b * 4) /\ near 1 q (a16 - b4).

(** Beyond one half, atan |x| = pi/4 + atan ((|x| - 1) / (|x| + 1)). *)
Inductive atan_of : Q -> Q -> Prop :=
| atan_small x a y : near 1 a (Qabs x) -> a <= 1 # 2 -> summed (atan_term x) y -> atan_of x y
| atan_large x a z r q w y :
    near 1 a (Qabs x) -> 1 # 2 < a -> near 3 z ((a - 1) / (a + 1)) -> atan_of z r -> pi_of q -> near 1 w (q / 4) ->
    near 2 y (if Qlt_le_dec x 0 then - (w + r) else w + r) -> atan_of x y.

(** [z] is [x] less the whole turns in it. *)
Definition reduced (x z : Q) : Prop :=
  exists q t c w, pi_of q /\ near 1 t (q * 2) /\ near 1 c (x / t) /\ near 2 w (inject_Z (trunc c) * t) /\ near 1 z (x - w).

Definition sin_of (x y : Q) : Prop := exists z, reduced x z /\ summed (sin_term z) y.
Definition cos_of (x y : Q) : Prop := exists z, reduced x z /\ summed (cos_term z) y.

(** exp x = (exp (x / 2^h))^(2^h), with x / 2^h at most one half; below zero
    exp x = 1 / exp (-x). *)
Definition exp_pos_of (x y : Q) : Prop :=
  exists h r s, near h r (x / qpow 2 h) /\ r <= 1 # 2 /\ summed (exp_term r) s /\ near (2 ^ h - 1) y (qpow s (2 ^ h)).

Definition exp_of (x y : Q) : Prop :=
  if Qlt_le_dec x 0 then exists w v, near 1 w (- x) /\ exp_pos_of w v /\ near 1 y (/ v) else exp_pos_of x y.

(** log x = 2 atanh ((x - 1) / (x + 1)), and log (m 2^e) = log m + e log 2. *)
Definition log_unit_of (x y : Q) : Prop :=
  exists z s, near 3 z ((x - 1) / (x + 1)) /\ summed (atanh_term z) s /\ near 1 y (s * 2).

Definition log_of (x y : Q) : Prop :=
  exists m e m2 s, x == m * 2 ^ e /\ (1 # 2) <= m < 1 /\ near 1 m2 (m * 2) /\ log_unit_of m2 s /\
    if (e - 1 =? 0)%Z then y == s
    else exists l w, log_unit_of 2 l /\ near 2 w (l * inject_Z (e - 1)) /\ near 1 y (s + w).

End Functions.

(** ** The loops *)

Section Loops.
Context (bf : BigFloat) (p : Z) (Hp : (64 <= p)%Z) {R : Rounding bf p}.

Lemma precise : (8 <= p)%Z.
Proof using Hp. lia. Qed.

Abbreviation near := (near p).
Abbreviation grow := (grow p).
Abbreviation summed := (summed p).
Abbreviation series := (series p).

Lemma add_near x y : exists z, FAdd bf p x y = Ret z /\ near 1 (val z) (val x + val y).
Proof using Hp. destruct (FAdd_rounds x y) as (z & E & H). exists z. split; [done|]. by apply rounded_near; [apply precise|]. Qed.

Lemma sub_near x y : exists z, FSub bf p x y = Ret z /\ near 1 (val z) (val x - val y).
Proof using Hp. destruct (FSub_rounds x y) as (z & E & H). exists z. split; [done|]. by apply rounded_near; [apply precise|]. Qed.

Lemma mul_near x y : exists z, FMul bf p x y = Ret z /\ near 1 (val z) (val x * val y).
Proof using Hp. destruct (FMul_rounds x y) as (z & E & H). exists z. split; [done|]. by apply rounded_near; [apply precise|]. Qed.

Lemma quo_near x y : ~ val y == 0 -> exists z, FQuo bf p x y = Ret z /\ near 1 (val z) (val x / val y).
Proof using Hp. intros Hy. destruct (FQuo_rounds x y Hy) as (z & E & H). exists z. split; [done|]. by apply rounded_near; [apply precise|]. Qed.

Lemma neg_near x : near 1 (val (FNeg bf p x)) (- val x).
Proof using Hp. apply rounded_near; [apply precise|apply val_FNeg]. Qed.

Lemma int_near n : near 1 (val (SetInt bf p n)) (inject_Z n).
Proof using Hp. apply rounded_near; [apply precise|apply val_SetInt]. Qed.

(** The integers of the code are below 2 to the 64. *)
Lemma small_int n : (Z.abs n < 2 ^ 64)%Z -> val (SetInt bf p n) == inject_Z n.
Proof using Hp. intros Hn. apply val_SetInt_exact. assert (2 ^ 64 <= 2 ^ p)%Z by (by apply Z.pow_le_mono_r). lia. Qed.

Lemma quo_int_near x n : (0 < n < 2 ^ 64)%Z -> exists z, FQuo bf p x (SetInt bf p n) = Ret z /\ near 1 (val z) (val x / inject_Z n).
Proof using Hp.
  intros Hn. assert (E : val (SetInt bf p n) == inject_Z n) by (apply small_int; lia). pose proof (inject_pos n ltac:(lia)).
  destruct (quo_near x (SetInt bf p n)) as (z & E' & H'); [rewrite E; lra|]. exists z. split; [done|]. by rewrite E in H'.
Qed.

Lemma sign_neg x : (FSign bf x <? 0)%Z = true <-> val x < 0.
Proof using Type. rewrite FSign_val, Z.ltb_lt. unfold Qlt. cbn. rewrite Z.mul_1_r. pose proof (Z.sgn_spec (Qnum (val x))). lia. Qed.

Lemma sign_pos x : (FSign bf x <=? 0)%Z = false <-> 0 < val x.
Proof using Type. rewrite FSign_val, Z.leb_gt. unfold Qlt. cbn. rewrite Z.mul_1_r. pose proof (Z.sgn_spec (Qnum (val x))). lia. Qed.

Lemma abs_near x : near 1 (val (absFloat bf p x)) (Qabs (val x)).
Proof using Hp.
  unfold absFloat. destruct (FSign bf x <? 0)%Z eqn:E.
  - apply sign_neg in E. rewrite Qabs_neg by lra. apply neg_near.
  - assert (0 <= val x) by (destruct (Qlt_le_dec (val x) 0) as [L|]; [apply sign_neg in L; congruence|done]).
    rewrite Qabs_pos by done. eapply near_mono; [apply precise|apply near_refl|lia].
Qed.

Lemma above_half_spec x : above_half bf p x = true <-> (1 # 2) < val x.
Proof using Type.
  unfold above_half. rewrite FCmp_val. rewrite val_one_half. destruct (Qcompare_spec (val x) (1 # 2)); split; try done; lra.
Qed.

Lemma small_spec x : small bf p x = true -> Qabs (val x) <= qpow grow 2 * 2 ^ (8 - p).
Proof using Hp.
  unfold small. rewrite FCmp_val. destruct (Qcompare_spec (val (absFloat bf p x)) (val (epsilon bf p))) as [|L|]; try done. intros _.
  pose proof (near_le p precise _ _ _ (abs_near x)) as [_ A]. assert (E : near 1 (val (epsilon bf p)) (2 ^ (8 - p))).
  { unfold epsilon. pose proof (val_SetMantExp (SetInt bf p 1) (- p + 8)) as H. rewrite small_int in H by lia.
    apply rounded_near in H; [|apply precise]. rewrite Qmult_1_l in H. by replace (8 - p)%Z with (- p + 8)%Z by lia. }
  pose proof (near_le p precise _ _ _ E) as [B _]. assert (0 < 2 ^ (8 - p)) by (by apply Qpower_0_lt). rewrite (Qabs_pos (2 ^ (8 - p))) in B by lra.
  rewrite (Qabs_pos (Qabs (val x))) in A by apply Qabs_nonneg. cbn [qpow] in *. pose proof (proj1 (grow_range p precise)). pose proof (Qle_Qabs (val (epsilon bf p))).
  assert (0 <= val (absFloat bf p x)) by (destruct (near_sign p precise _ _ _ (abs_near x)) as (_ & N & _); pose proof (Qabs_nonneg (val x));
    destruct (Qlt_le_dec (val (absFloat bf p x)) 0) as [K|]; [apply N in K; lra|done]).
  rewrite (Qabs_pos (val (absFloat bf p x))) in A by done. nra.
Qed.

Lemma terms_val : Z.of_nat terms = 100000%Z.
Proof using Type. unfold terms. lia. Qed.

(** The end of a loop at the term [N]. *)
Lemma loop_end T N k y :
  (Z.of_nat N <= 100000)%Z -> (k <= 5 * N)%nat -> series k T N y -> (49999 <= Z.of_nat N)%Z -> summed T y.
Proof using Hp.
  intros HN Hk Hs He. exists N. split; [done|]. split; [|by left]. by eapply series_mono; [apply precise|done|].
Qed.

Lemma loop_small T N k t y :
  (Z.of_nat N <= 100000)%Z -> (k <= 5 * N)%nat -> series (5 * N) T N y -> near k (val t) (T N) -> small bf p t = true -> summed T y.
Proof using Hp.
  intros HN Hk Hs Ht Hsm%small_spec. exists N. split; [done|]. split; [done|]. right.
  apply (near_mono p precise _ (5 * N)) in Ht; [|done]. apply near_le in Ht as [_ Ht]; [|apply precise].
  rewrite qpow_add. pose proof (grow_pos p precise (5 * N)). nra.
Qed.

(** One more term, after at most four roundings. *)
Lemma next_term T i s t s' :
  series (5 * i) T i s -> near (5 * i + 4) t (T (S i)) -> near 1 s' (s + t) -> series (5 * S i) T (S i) s'.
Proof using Hp.
  intros Hs Ht H. replace (5 * S i)%nat with (S (5 * i + 4)) by lia. eapply series_step; [apply precise| |exact Ht|exact H].
  eapply series_mono; [apply precise|exact Hs|lia].
Qed.

Lemma sincos_loop_sums rounds n x2 term sum a X T i :
  (1 <= a <= 2)%Z -> near 1 (val x2) X ->
  (forall j, T (S j) == - (T j * X / inject_Z ((a + 2 * Z.of_nat j) * (a + 2 * Z.of_nat j + 1)))) ->
  n = (a + 2 * Z.of_nat i)%Z -> (i + rounds = terms)%nat -> near (5 * i) (val term) (T i) -> series (5 * i) T i (val sum) ->
  exists y, sincos_loop bf rounds p n x2 term sum = Ret y /\ summed T (val y).
Proof using Hp.
  intros Ha Hx HT. revert n term sum i. pose proof terms_val as Hk. induction rounds as [|m IH]; intros n term sum i Hn Hi Ht Hs; cbn [sincos_loop].
  { exists sum. split; [reflexivity|]. apply (loop_end T i (5 * i)); [lia|lia|exact Hs|lia]. }
  destruct (Z.leb_spec 100000 n); [exists sum; split; [reflexivity|]; apply (loop_end T i (5 * i)); [lia|lia|exact Hs|lia]|].
  destruct (mul_near term x2) as (t1 & -> & H1). cbn [bind]. destruct (quo_int_near t1 (n * (n + 1)) ltac:(nia)) as (t2 & -> & H2). cbn [bind].
  set (t3 := FNeg bf p t2). assert (H3 : near 1 (val t3) (- val t2)) by apply neg_near. clearbody t3.
  destruct (add_near sum t3) as (s' & -> & H4). cbn [bind].
  assert (H5 : near (5 * i + 4) (val t3) (T (S i))).
  { rewrite (HT i). replace ((a + 2 * Z.of_nat i) * (a + 2 * Z.of_nat i + 1))%Z with (n * (n + 1))%Z by (subst n; ring).
    replace (5 * i + 4)%nat with (5 * i + 1 + 1 + 1 + 1)%nat by lia. eapply near_trans; [apply precise| |exact H3]. apply near_opp.
    eapply near_trans; [apply precise| |exact H2]. unfold Qdiv. replace (5 * i + 1 + 1)%nat with (5 * i + 1 + 1 + 0)%nat by lia.
    apply near_mul; [apply precise| |apply near_refl]. eapply near_trans; [apply precise| |exact H1]. apply near_mul; [apply precise|done|done]. }
  pose proof (next_term _ _ _ _ _ Hs H5 H4) as H6.
  destruct (small bf p t3) eqn:Hsm; [exists s'; split; [reflexivity|]; apply (loop_small T (S i) (5 * i + 4) t3); [lia|lia|exact H6|exact H5|exact Hsm]|].
  apply (IH _ _ _ (S i)); [lia|lia| |exact H6]. eapply near_mono; [apply precise|exact H5|lia].
Qed.

Lemma exp_loop_sums rounds n reduced term sum T i :
  (forall j, T (S j) == T j * val reduced / inject_Z (1 + Z.of_nat j)) ->
  n = (1 + Z.of_nat i)%Z -> (i + rounds = terms)%nat -> near (5 * i) (val term) (T i) -> series (5 * i) T i (val sum) ->
  exists y, exp_loop bf rounds p n reduced term sum = Ret y /\ summed T (val y).
Proof using Hp.
  intros HT. revert n term sum i. pose proof terms_val as Hk. induction rounds as [|m IH]; intros n term sum i Hn Hi Ht Hs; cbn [exp_loop].
  { exists sum. split; [reflexivity|]. apply (loop_end T i (5 * i)); [lia|lia|exact Hs|lia]. }
  destruct (Z.leb_spec 100000 n); [exists sum; split; [reflexivity|]; apply (loop_end T i (5 * i)); [lia|lia|exact Hs|lia]|].
  destruct (mul_near term reduced) as (t1 & -> & H1). cbn [bind]. destruct (quo_int_near t1 n ltac:(nia)) as (t2 & -> & H2). cbn [bind].
  destruct (add_near sum t2) as (s' & -> & H4). cbn [bind].
  assert (H5 : near (5 * i + 4) (val t2) (T (S i))).
  { rewrite (HT i), <- Hn. eapply near_mono with (m := (5 * i + 0 + 1 + 0 + 1)%nat); [apply precise| |lia].
    eapply near_trans; [apply precise| |exact H2]. apply near_mul; [apply precise| |apply near_refl].
    eapply near_trans; [apply precise| |exact H1]. apply near_mul; [apply precise|done|apply near_refl]. }
  pose proof (next_term _ _ _ _ _ Hs H5 H4) as H6.
  destruct (small bf p t2) eqn:Hsm; [exists s'; split; [reflexivity|]; apply (loop_small T (S i) (5 * i + 4) t2); [lia|lia|exact H6|exact H5|exact Hsm]|].
  apply (IH _ _ _ (S i)); [lia|lia| |exact H6]. eapply near_mono; [apply precise|exact H5|lia].
Qed.

(** A product and then a quotient by an integer. *)
Lemma power_over i k t1 term x2 X P n z :
  near k (val term) (P i) -> near 1 (val x2) X -> P (S i) == P i * X -> near 1 (val t1) (val term * val x2) ->
  near 1 z (val t1 / n) -> near (k + 2) (val t1) (P (S i)) /\ near (k + 3) z (P (S i) / n).
Proof using Hp.
  intros Ht Hx HP H1 H2. assert (H : near (k + 1 + 1) (val t1) (P (S i))).
  { rewrite HP. eapply near_trans; [apply precise| |exact H1]. apply near_mul; [apply precise|done|done]. }
  split; [by replace (k + 2)%nat with (k + 1 + 1)%nat by lia|]. replace (k + 3)%nat with (k + 1 + 1 + 0 + 1)%nat by lia.
  eapply near_trans; [apply precise| |exact H2]. apply near_mul; [apply precise|exact H|apply near_refl].
Qed.

Lemma log_loop_sums rounds n z2 term sum X P i :
  near 1 (val z2) X -> (forall j, P (S j) == P j * X) ->
  n = (3 + 2 * Z.of_nat i)%Z -> (i + rounds = terms)%nat -> near (5 * i) (val term) (P i) ->
  series (5 * i) (fun j => P j / odd_number j) i (val sum) ->
  exists y, log_loop bf rounds p n z2 term sum = Ret y /\ summed (fun j => P j / odd_number j) (val y).
Proof using Hp.
  intros Hx HP. set (T := fun j => P j / odd_number j). revert n term sum i. pose proof terms_val as Hk.
  induction rounds as [|m IH]; intros n term sum i Hn Hi Ht Hs; cbn [log_loop].
  { exists sum. split; [reflexivity|]. apply (loop_end T i (5 * i)); [lia|lia|exact Hs|lia]. }
  destruct (Z.leb_spec 100000 n); [exists sum; split; [reflexivity|]; apply (loop_end T i (5 * i)); [lia|lia|exact Hs|lia]|].
  destruct (mul_near term z2) as (t1 & -> & H1). cbn [bind]. destruct (quo_int_near t1 n ltac:(nia)) as (t2 & -> & H2). cbn [bind].
  destruct (add_near sum t2) as (s' & -> & H4). cbn [bind]. destruct (power_over i (5 * i) t1 term z2 X P _ _ Ht Hx (HP i) H1 H2) as [Hp1 Hf].
  assert (H5 : near (5 * i + 4) (val t2) (T (S i))).
  { subst T. cbv beta. unfold odd_number. replace (2 * Z.of_nat (S i) + 1)%Z with n by lia. eapply near_mono; [apply precise|exact Hf|lia]. }
  pose proof (next_term _ _ _ _ _ Hs H5 H4) as H6.
  destruct (small bf p t2) eqn:Hsm; [exists s'; split; [reflexivity|]; apply (loop_small T (S i) (5 * i + 4) t2); [lia|lia|exact H6|exact H5|exact Hsm]|].
  apply (IH _ _ _ (S i)); [lia|lia| |exact H6]. eapply near_mono; [apply precise|exact Hp1|lia].
Qed.

Lemma land_parity k : (Z.land (Z.of_nat k) 1 =? 1)%Z = negb (Nat.even k).
Proof using Type.
  change 1%Z with (Z.ones 1) at 1. rewrite Z.land_ones by lia. change (2 ^ 1)%Z with 2%Z. rewrite Nat.negb_even.
  destruct (Nat.Even_or_Odd k) as [[j ->]|[j ->]].
  - rewrite (proj2 (Z.eqb_neq _ _)); [|rewrite Nat2Z.inj_mul, Z.mul_comm, Z.mod_mul; lia]. symmetry. apply Nat.odd_even.
  - replace (Z.of_nat (2 * j + 1)) with (1 + Z.of_nat j * 2)%Z by lia. rewrite Z.mod_add by lia. by rewrite Nat.odd_odd.
Qed.

Lemma atan_loop_sums rounds k x2 term sum X P i :
  near 1 (val x2) X -> (forall j, P (S j) == P j * X) ->
  k = Z.of_nat (S i) -> (i + rounds = terms)%nat -> near (5 * i) (val term) (P i) ->
  series (5 * i) (fun j => alt j * P j / odd_number j) i (val sum) ->
  exists y, atan_loop bf rounds p k x2 term sum = Ret y /\ summed (fun j => alt j * P j / odd_number j) (val y).
Proof using Hp.
  intros Hx HP. set (T := fun j => alt j * P j / odd_number j). revert k term sum i. pose proof terms_val as Hk.
  induction rounds as [|m IH]; intros k term sum i Hn Hi Ht Hs; cbn [atan_loop].
  { exists sum. split; [reflexivity|]. apply (loop_end T i (5 * i)); [lia|lia|exact Hs|lia]. }
  destruct (Z.leb_spec 100000 k); [exists sum; split; [reflexivity|]; apply (loop_end T i (5 * i)); [lia|lia|exact Hs|lia]|].
  destruct (mul_near term x2) as (t1 & -> & H1). cbn [bind]. destruct (quo_int_near t1 (2 * k + 1) ltac:(nia)) as (t2 & -> & H2). cbn [bind].
  destruct (power_over i (5 * i) t1 term x2 X P _ _ Ht Hx (HP i) H1 H2) as [Hp1 Hf].
  set (c := if (Z.land k 1 =? 1)%Z then FSub bf p sum t2 else FAdd bf p sum t2).
  assert (Hc : exists s', c = Ret s' /\ near 1 (val s') (val sum + alt (S i) * val t2)).
  { subst c. rewrite Hn, land_parity. unfold alt. destruct (Nat.even (S i)); cbn [negb].
    - destruct (add_near sum t2) as (s' & E & H'). exists s'. split; [done|]. by rewrite Qmult_1_l.
    - destruct (sub_near sum t2) as (s' & E & H'). exists s'. split; [done|]. by assert (val sum + -1 * val t2 == val sum - val t2) as -> by ring. }
  destruct Hc as (s' & -> & H4). cbn [bind].
  assert (H5 : near (5 * i + 4) (alt (S i) * val t2) (T (S i))).
  { subst T. cbv beta. unfold odd_number. replace (2 * Z.of_nat (S i) + 1)%Z with (2 * k + 1)%Z by lia.
    eapply near_mono with (m := (0 + (5 * i + 3))%nat); [apply precise| |lia].
    assert (alt (S i) * P (S i) / inject_Z (2 * k + 1) == alt (S i) * (P (S i) / inject_Z (2 * k + 1))) as -> by (unfold Qdiv; ring).
    apply near_mul; [apply precise|apply near_refl|exact Hf]. }
  pose proof (next_term _ _ _ _ _ Hs H5 H4) as H6.
  assert (H7 : near (5 * i + 4) (val (t2)) (alt (S i) * T (S i))).
  { assert (val t2 == alt (S i) * (alt (S i) * val t2)) as -> by (unfold alt; destruct (Nat.even (S i)); ring).
    replace (5 * i + 4)%nat with (0 + (5 * i + 4))%nat by lia. apply near_mul; [apply precise|apply near_refl|exact H5]. }
  destruct (small bf p t2) eqn:Hsm.
  - exists s'. split; [reflexivity|]. exists (S i). split; [lia|]. split; [exact H6|]. right. apply small_spec in Hsm.
    apply (near_mono p precise _ (5 * S i)) in H7; [|lia]. apply near_le in H7 as [_ H7]; [|apply precise]. rewrite qpow_add.
    assert (Qabs (alt (S i) * T (S i)) == Qabs (T (S i))) as E by (rewrite Qabs_Qmult; unfold alt; destruct (Nat.even (S i)); apply Qmult_1_l).
    rewrite E in H7. pose proof (grow_pos p precise (5 * S i)). nra.
  - apply (IH _ _ _ (S i)); [lia|lia| |exact H6]. eapply near_mono; [apply precise|exact Hp1|lia].
Qed.

(** ** Bounds *)

(** A million roundings are few. *)
Lemma roundoff_small : roundoff p * inject_Z 1000000 <= 1 # 1000.
Proof using Hp.
  unfold roundoff. assert (2 ^ 64 <= 2 ^ p)%Z as H by (by apply Z.pow_le_mono_r).
  assert (inject_Z (2 ^ 64) <= inject_Z (2 ^ p)) as H' by (by rewrite <- Zle_Qle). change (inject_Z (2 ^ 64)) with (18446744073709551616 # 1) in H'.
  change (inject_Z 1000000) with (1000000 # 1). rewrite Qmult_comm. apply Qle_shift_div_r; lra.
Qed.

Lemma grow_bernoulli k : qpow grow k * (1 - inject_Z (Z.of_nat k) * roundoff p) <= 1.
Proof using Hp.
  pose proof (roundoff_range p precise) as U. pose proof (grow_spec p precise) as G. induction k as [|k IH].
  - cbn [qpow]. change (inject_Z (Z.of_nat 0)) with 0. lra.
  - cbn [qpow]. rewrite Nat2Z.inj_succ, <- Z.add_1_r, inject_Z_plus. change (inject_Z 1) with 1. pose proof (grow_pos p precise k).
    set (kk := inject_Z (Z.of_nat k)) in *. assert (0 <= kk) by (subst kk; change 0 with (inject_Z 0); rewrite <- Zle_Qle; lia).
    assert (grow * (1 - (kk + 1) * roundoff p) <= 1 - kk * roundoff p).
    { pose proof (grow_range p precise). assert (1 - (kk + 1) * roundoff p <= (1 - roundoff p) * (1 - kk * roundoff p)) by nra.
      assert (grow * (1 - (kk + 1) * roundoff p) <= grow * ((1 - roundoff p) * (1 - kk * roundoff p))) as L by nra.
      rewrite Qmult_assoc, G in L. lra. }
    nra.
Qed.

Lemma grow_small k : (Z.of_nat k <= 1000000)%Z -> qpow grow k <= 101 # 100.
Proof using Hp.
  intros Hk. pose proof (grow_bernoulli k) as B. pose proof roundoff_small as S. pose proof (roundoff_range p precise) as U.
  assert (inject_Z (Z.of_nat k) <= inject_Z 1000000) by (by rewrite <- Zle_Qle). pose proof (grow_pos p precise k).
  assert (1 - inject_Z (Z.of_nat k) * roundoff p >= 999 # 1000) by nra. nra.
Qed.

(** The terms of the arc tangent are below a geometric series. *)
Lemma atan_terms x N :
  let a := Qabs x in
  a <= 1 # 2 -> total (fun i => Qabs (atan_term x i)) N <= a + (4 # 9) * (a * a * a) - (4 # 9) * qpow a (2 * N + 3).
Proof using Type.
  intros a Hx. assert (T : forall i, Qabs (atan_term x i) == qpow a (2 * i + 1) / odd_number i).
  { intros i. unfold atan_term, Qdiv. rewrite !Qabs_Qmult. pose proof (Qinv_lt_0_compat _ (odd_pos i)). rewrite (Qabs_pos (/ odd_number i)) by lra.
    assert (Qabs (alt i) == 1) as -> by (unfold alt; by destruct (Nat.even i)). assert (Qabs (qpow x (2 * i + 1)) == qpow a (2 * i + 1)) as ->.
    { induction (2 * i + 1)%nat as [|n IH]; cbn [qpow]; [done|]. by rewrite Qabs_Qmult, IH. }
    unfold Qdiv. ring. }
  assert (H0 : 0 <= a) by apply Qabs_nonneg. clearbody a. induction N as [|N IH]; cbn [total].
  - rewrite T. change (odd_number 0) with 1. change (2 * 0 + 1)%nat with 1%nat. change (2 * 0 + 3)%nat with 3%nat. cbn [qpow]. unfold Qdiv.
    change (/ 1) with 1. lra.
  - rewrite T. replace (2 * S N + 1)%nat with (2 * N + 3)%nat by lia. replace (2 * S N + 3)%nat with (2 + (2 * N + 3))%nat by lia. rewrite (qpow_add a 2).
    assert (0 <= qpow a (2 * N + 3)) by (by apply qpow_nonneg). set (b := qpow a (2 * N + 3)) in *.
    assert (3 <= odd_number (S N)) by (unfold odd_number; change 3 with (inject_Z 3); rewrite <- Zle_Qle; lia).
    assert (b / odd_number (S N) <= b * (1 # 3)).
    { unfold Qdiv. assert (/ odd_number (S N) <= 1 # 3) by (apply Qle_shift_inv_r; lra). nra. }
    assert (qpow a 2 * b <= (1 # 4) * b) by (apply Qmult_le_compat_r; [assert (qpow a 2 == a * a) as -> by (cbn [qpow]; ring); clear -Hx H0; nra|done]). lra.
Qed.

(** So the sum is the argument, up to its third power and the roundings. *)
Lemma atan_sum_near x y : Qabs x <= 1 # 4 -> summed (atan_term x) y -> Qabs (y - x) <= (1 # 20) * Qabs x.
Proof using Hp.
  intros Hx (N & HN & Hs & _). unfold BcSeries.series in Hs. pose proof (grow_small (5 * N) ltac:(lia)) as G.
  pose proof (qpow_ge1 grow (5 * N) (proj1 (grow_range p precise))) as G1.
  pose proof (atan_terms x N ltac:(lra)) as A. cbv zeta in A. pose proof (total_nonneg (atan_term x) N) as P.
  assert (0 <= qpow (Qabs x) (2 * N + 3)) by (apply qpow_nonneg, Qabs_nonneg).
  assert (H0 : Qabs (total (atan_term x) N - x) <= total (fun i => Qabs (atan_term x i)) N - Qabs x).
  { clear. induction N as [|N IH]; cbn [total].
    - rewrite atan_term_0. assert (x - x == 0) as -> by ring. change (Qabs 0) with 0. lra.
    - pose proof (Qabs_triangle (total (atan_term x) N - x) (atan_term x (S N))) as D.
      assert (total (atan_term x) N + atan_term x (S N) - x == total (atan_term x) N - x + atan_term x (S N)) as -> by ring. lra. }
  pose proof (Qabs_triangle (y - total (atan_term x) N) (total (atan_term x) N - x)) as D.
  assert (y - total (atan_term x) N + (total (atan_term x) N - x) == y - x) as E by ring. rewrite E in D.
  pose proof (Qabs_nonneg x). set (a := Qabs x) in *. assert (a * a * a <= (1 # 16) * a) by nra.
  set (B := total (fun i => Qabs (atan_term x i)) N) in *. assert ((qpow grow (5 * N) - 1) * B <= (1 # 100) * B) by nra. lra.
Qed.

(** A few roundings of a positive number. *)
Lemma near_close k y x : (k <= 4)%nat -> near k y x -> 0 <= x -> (99 # 100) * x <= y <= (101 # 100) * x.
Proof using Hp.
  intros Hk H Hx. pose proof (near_error p precise _ _ _ H) as E. pose proof (grow_small k ltac:(lia)). pose proof (qpow_ge1 grow k (proj1 (grow_range p precise))).
  rewrite (Qabs_pos x) in E by done. apply Qabs_bounds in E. set (g := qpow grow k) in *. assert ((g - 1) * x <= (1 # 100) * x) by nra. lra.
Qed.

Lemma pi_positive q : pi_of p q -> 2 < q.
Proof using Hp.
  intros (x & y & a & b & a16 & b4 & Hx & Ha & Hy & Hb & H16 & H4 & Hq).
  apply near_close in Hx; [|lia|lra]. apply near_close in Hy; [|lia|lra].
  assert (Qabs x <= 1 # 4) by (apply Qabs_between; lra). assert (Qabs y <= 1 # 4) by (apply Qabs_between; lra).
  apply atan_sum_near in Ha; [|done]. apply atan_sum_near in Hb; [|done].
  rewrite (Qabs_pos x) in Ha by lra. rewrite (Qabs_pos y) in Hb by lra. apply Qabs_bounds in Ha, Hb.
  apply near_close in H16; [|lia|lra]. apply near_close in H4; [|lia|lra]. apply near_close in Hq; [|lia|lra]. lra.
Qed.

(** ** Arc tangent *)

Lemma power_S x j : qpow x (2 * S j + 1) == qpow x (2 * j + 1) * (x * x).
Proof using Type. replace (2 * S j + 1)%nat with (S (S (2 * j + 1))) by lia. cbn [qpow]. ring. Qed.

Lemma atan_direct n x :
  val (absFloat bf p x) <= 1 # 2 -> exists y, atanSeries bf (S n) x p = Ret y /\ summed (atan_term (val x)) (val y).
Proof using Hp.
  intros Hx. cbn [atanSeries]. assert (above_half bf p (absFloat bf p x) = false) as ->.
  { destruct (above_half _ _ _) eqn:E; [|done]. apply above_half_spec in E. lra. }
  destruct (mul_near x x) as (x2 & -> & H2). cbn [bind].
  apply (atan_loop_sums terms 1 x2 x x (val x * val x) (fun j => qpow (val x) (2 * j + 1)) 0); [exact H2|apply power_S|done|lia| |].
  - change (2 * 0 + 1)%nat with 1%nat. cbn [qpow]. rewrite Qmult_1_r. apply near_refl.
  - apply series_start. symmetry. apply atan_term_0.
Qed.

Lemma reciprocal n : (1 < n < 1000)%Z ->
  exists x, FQuo bf p (SetInt bf p 1) (SetInt bf p n) = Ret x /\ near 1 (val x) (1 / inject_Z n) /\ val (absFloat bf p x) <= (101 # 100) * ((101 # 100) * (1 / inject_Z n)).
Proof using Hp.
  intros Hn. destruct (quo_int_near (SetInt bf p 1) n ltac:(lia)) as (x & -> & H). exists x. split; [done|]. rewrite small_int in H by lia.
  change (inject_Z 1) with 1 in H. split; [done|]. pose proof (inject_pos n ltac:(lia)). assert (0 <= 1 / inject_Z n) by (apply Qle_shift_div_l; lra).
  pose proof (near_close 1 _ _ ltac:(lia) H ltac:(done)). pose proof (abs_near x) as A. rewrite Qabs_pos in A by lra. apply near_close in A; [|lia|lra]. lra.
Qed.

Lemma piFloat_pi n : exists q, piFloat bf (S (S n)) p = Ret q /\ pi_of p (val q).
Proof using Hp.
  cbn [piFloat]. destruct (reciprocal 5 ltac:(lia)) as (x & -> & Hx & Ax). cbn [bind]. change (1 / inject_Z 5) with (1 # 5) in *.
  destruct (atan_direct n x ltac:(lra)) as (a & -> & Ha). cbn [bind].
  destruct (reciprocal 239 ltac:(lia)) as (y & -> & Hy & Ay). cbn [bind]. change (1 / inject_Z 239) with (1 # 239) in *.
  destruct (atan_direct n y ltac:(lra)) as (b & -> & Hb). cbn [bind].
  destruct (mul_near a (SetInt bf p 16)) as (a16 & -> & H16). destruct (mul_near b (SetInt bf p 4)) as (b4 & E4 & H4). cbn [bind]. rewrite E4. cbn [bind].
  destruct (sub_near a16 b4) as (q & -> & Hq). exists q. split; [done|]. rewrite small_int in H16, H4 by lia.
  exists (val x), (val y), (val a), (val b), (val a16), (val b4). by split_and!.
Qed.

(** Beyond one half. *)
Lemma atan_turn n x :
  (2 <= n)%nat -> 1 # 2 < val (absFloat bf p x) ->
  (forall z, near 3 (val z) ((val (absFloat bf p x) - 1) / (val (absFloat bf p x) + 1)) ->
    exists r, atanSeries bf n z p = Ret r /\ atan_of p (val z) (val r)) ->
  exists y, atanSeries bf (S n) x p = Ret y /\ atan_of p (val x) (val y).
Proof using Hp.
  intros Hn Ha Hz. cbn [atanSeries]. set (a := absFloat bf p x) in *. rewrite (proj2 (above_half_spec a)) by done.
  destruct (sub_near a (SetInt bf p 1)) as (d & -> & Hd). destruct (add_near a (SetInt bf p 1)) as (s & Es & Hs). cbn [bind]. rewrite Es. cbn [bind].
  rewrite small_int in Hd, Hs by lia. change (inject_Z 1) with 1 in *.
  assert (0 < val s) by (apply (near_sign p precise _ _ _ Hs); lra). destruct (quo_near d s ltac:(lra)) as (z & -> & Hq). cbn [bind].
  assert (Z3 : near 3 (val z) ((val a - 1) / (val a + 1))).
  { change 3%nat with (1 + 1 + 1)%nat. eapply near_trans; [apply precise| |exact Hq]. by apply near_div; [apply precise| |]. }
  destruct (Hz z Z3) as (r & -> & Hr). cbn [bind]. destruct n as [|[|n]]; [lia|lia|]. destruct (piFloat_pi n) as (q & -> & Hpi). cbn [bind].
  destruct (quo_int_near q 4 ltac:(lia)) as (w & -> & Hw). cbn [bind]. change (inject_Z 4) with 4 in Hw.
  destruct (add_near w r) as (y & -> & Hy). cbn [bind]. eexists. split; [done|].
  eapply (atan_large p (val x) (val a) (val z) (val r) (val q) (val w)); [apply abs_near|done|done|done|done|done|].
  destruct (Qlt_le_dec (val x) 0) as [L|L].
  - rewrite (proj2 (sign_neg x) L). change 2%nat with (1 + 1)%nat. eapply near_trans; [apply precise|apply near_opp; exact Hy|apply neg_near].
  - destruct (FSign bf x <? 0)%Z eqn:E; [apply sign_neg in E; lra|]. eapply near_mono; [apply precise|exact Hy|lia].
Qed.

Lemma atan_one n x : val (absFloat bf p x) <= 1 # 2 -> exists y, atanSeries bf (S n) x p = Ret y /\ atan_of p (val x) (val y).
Proof using Hp. intros H. destruct (atan_direct n x H) as (y & E & Hy). exists y. split; [done|]. eapply atan_small; [apply abs_near|done|done]. Qed.

Lemma abs_bound x b : 0 <= b -> Qabs (val x) <= b -> val (absFloat bf p x) <= (101 # 100) * b.
Proof using Hp. intros Hb Hx. pose proof (near_close 1 _ _ ltac:(lia) (abs_near x) (Qabs_nonneg _)). lra. Qed.

(** Up to one and a bit, the reduced argument is below one half. *)
Lemma atan_two n x : val (absFloat bf p x) <= 11 # 10 -> exists y, atanSeries bf (S (S (S n))) x p = Ret y /\ atan_of p (val x) (val y).
Proof using Hp.
  intros H. destruct (Qlt_le_dec (1 # 2) (val (absFloat bf p x))) as [L|L]; [|by apply atan_one].
  apply atan_turn; [lia|done|]. set (a := val (absFloat bf p x)) in *. intros z Hz. apply atan_one.
  assert (B : Qabs ((a - 1) / (a + 1)) <= 1 # 3).
  { apply Qabs_between; [apply Qle_shift_div_l; lra|apply Qle_shift_div_r; lra]. }
  apply near_abs in Hz; [|apply precise]. apply near_close in Hz; [|lia|apply Qabs_nonneg]. pose proof (abs_bound z (2 # 5) ltac:(lra)). lra.
Qed.

Lemma atan_all n x : exists y, atanSeries bf (S (S (S (S n)))) x p = Ret y /\ atan_of p (val x) (val y).
Proof using Hp.
  destruct (Qlt_le_dec (1 # 2) (val (absFloat bf p x))) as [L|L]; [|by apply atan_one].
  apply atan_turn; [lia|done|]. set (a := val (absFloat bf p x)) in *. intros z Hz. apply atan_two.
  assert (B : Qabs ((a - 1) / (a + 1)) <= 1) by (apply Qabs_between; [apply Qle_shift_div_l; lra|apply Qle_shift_div_r; lra]).
  apply near_abs in Hz; [|apply precise]. apply near_close in Hz; [|lia|apply Qabs_nonneg]. pose proof (abs_bound z (102 # 100) ltac:(lra)). lra.
Qed.

(** ** Sine and cosine *)

Lemma sincos_series n x (cos : bool) :
  exists y, sincos bf (S (S n)) x p cos = Ret y /\ if cos then cos_of p (val x) (val y) else sin_of p (val x) (val y).
Proof using Hp.
  unfold sincos. destruct (piFloat_pi n) as (q & -> & Hq). cbn [bind]. destruct (mul_near q (SetInt bf p 2)) as (t & -> & Ht). cbn [bind].
  rewrite small_int in Ht by lia. change (inject_Z 2) with 2 in Ht. pose proof (pi_positive _ Hq).
  assert (0 < val t) by (apply (near_sign p precise _ _ _ Ht); lra). destruct (quo_near x t ltac:(lra)) as (c & -> & Hc). cbn [bind].
  rewrite FInt_val. cbn [bind]. set (k := Z.quot _ _). destruct (mul_near (SetInt bf p k) t) as (w & -> & Hw). cbn [bind].
  destruct (sub_near x w) as (z & -> & Hz). cbn [bind]. destruct (mul_near z z) as (z2 & -> & Hz2). cbn [bind].
  assert (Hred : reduced p (val x) (val z)).
  { exists (val q), (val t), (val c), (val w). split_and!; try done. change 2%nat with (1 + 0 + 1)%nat.
    eapply near_trans; [apply precise| |exact Hw]. apply near_mul; [apply precise|apply int_near|apply near_refl]. }
  destruct cos.
  - destruct (sincos_loop_sums terms 1 z2 (SetInt bf p 1) (SetInt bf p 1) 1 (val z * val z) (cos_term (val z)) 0) as (y & -> & Hy);
      [lia|done|apply cos_term_S|lia|lia| | |].
    + rewrite small_int by lia. apply near_refl.
    + apply series_start. rewrite small_int by lia. done.
    + exists y. split; [done|]. by exists (val z).
  - destruct (sincos_loop_sums terms 2 z2 z z 2 (val z * val z) (sin_term (val z)) 0) as (y & -> & Hy);
      [lia|done|apply sin_term_S|lia|lia| | |].
    + rewrite sin_term_0. apply near_refl.
    + apply series_start. by rewrite sin_term_0.
    + exists y. split; [done|]. by exists (val z).
Qed.

(** ** Exponential function *)

Lemma halve_returns f n r h :
  0 <= val r -> val r <= (1 # 2) * qpow (3 # 2) f -> (f < n)%nat ->
  exists r' j, halve bf n p r h = Ret (r', (h + j)%nat) /\ near j (val r') (val r / qpow 2 j) /\ 0 <= val r' <= 1 # 2.
Proof using Hp.
  revert n r h. induction f as [|f IH]; intros n r h H0 Hr Hn; (destruct n as [|n]; [lia|]); cbn [halve].
  - destruct (above_half bf p r) eqn:E; [apply above_half_spec in E; cbn [qpow] in Hr; lra|].
    exists r, O. rewrite Nat.add_0_r. split; [done|]. cbn [qpow] in *. split; [|lra]. assert (val r / 1 == val r) as -> by field. apply near_refl.
  - destruct (above_half bf p r) eqn:E.
    + destruct (quo_int_near r 2 ltac:(lia)) as (r1 & -> & H1). cbn [bind]. change (inject_Z 2) with 2 in H1.
      pose proof (near_close 1 _ _ ltac:(lia) H1 ltac:(apply Qle_shift_div_l; lra)) as C.
      assert (val r / 2 == (1 # 2) * val r) as E2 by field. rewrite E2 in C. cbn [qpow] in Hr. pose proof (qpow_pos (3 # 2) f ltac:(lra)).
      destruct (IH n r1 (S h)) as (r' & j & -> & Hj & B); [lra|lra|lia|]. exists r', (S j). split; [by rewrite Nat.add_succ_r|]. split; [|done].
      replace (S j) with (1 + j)%nat by lia. cbn [qpow Nat.add]. pose proof (qpow_pos 2 j ltac:(lra)).
      assert (val r / (2 * qpow 2 j) == val r / 2 / qpow 2 j) as -> by (field; lra). replace (S j) with (1 + 0 + j)%nat by lia.
      eapply near_trans; [apply precise| |exact Hj]. apply near_mul; [apply precise|done|apply near_refl].
    + exists r, O. rewrite Nat.add_0_r. split; [done|]. cbn [qpow]. assert (val r <= 1 # 2).
      { destruct (Qlt_le_dec (1 # 2) (val r)) as [L|]; [apply above_half_spec in L; congruence|done]. }
      split; [|lra]. assert (val r / 1 == val r) as -> by field. apply near_refl.
Qed.

Lemma square_near h s : exists y, square bf h p s = Ret y /\ near (2 ^ h - 1) (val y) (qpow (val s) (2 ^ h)).
Proof using Hp.
  revert s. induction h as [|h IH]; intros s; cbn [square].
  - exists s. split; [done|]. change (2 ^ 0)%nat with 1%nat. cbn [qpow Nat.sub]. rewrite Qmult_1_r. apply near_refl.
  - destruct (mul_near s s) as (s2 & -> & H2). cbn [bind]. destruct (IH s2) as (y & -> & Hy). exists y. split; [done|].
    pose proof (Nat.pow_nonzero 2 h ltac:(lia)). replace (2 ^ S h - 1)%nat with (2 ^ h + (2 ^ h - 1))%nat by (cbn; lia).
    replace (2 ^ S h)%nat with (2 ^ h + 2 ^ h)%nat by (cbn; lia). eapply near_trans; [apply precise| |exact Hy].
    clear -H2 Hp. induction (2 ^ h)%nat as [|k IHk]; [apply near_refl|]. replace (S k + S k)%nat with (2 + (k + k))%nat by lia. rewrite qpow_add.
    cbn [qpow]. replace (S k) with (1 + k)%nat by lia. apply near_mul; [apply precise| |done]. by rewrite Qmult_1_r.
Qed.

Lemma exp_positive r s : 0 <= r -> summed (exp_term r) s -> 0 < s.
Proof using Hp.
  intros Hr (N & HN & Hs & _). unfold BcSeries.series in Hs. pose proof (grow_small (5 * N) ltac:(lia)) as G.
  assert (T : forall i, Qabs (exp_term r i) == exp_term r i).
  { intros i. apply Qabs_pos. unfold exp_term. apply Qle_shift_div_l; [apply factorial_pos|]. rewrite Qmult_0_l. by apply qpow_nonneg. }
  assert (total (fun i => Qabs (exp_term r i)) N == total (exp_term r) N /\ 1 <= total (exp_term r) N) as [P1 P2].
  { clear -T. induction N as [|N [IH1 IH2]]; cbn [total].
    - split; [apply T|]. unfold exp_term. cbn [qpow]. change (factorial 0) with 1. unfold Qdiv. change (1 * / 1) with 1. lra.
    - split; [by rewrite IH1, T|]. pose proof (Qabs_nonneg (exp_term r (S N))) as A. rewrite T in A. lra. }
  rewrite P1 in Hs. apply Qabs_bounds in Hs. nra.
Qed.

(** Enough fuel for the halvings. *)
Lemma halvings x : exists f, x <= (1 # 2) * qpow (3 # 2) f.
Proof using Type.
  clear bf R Hp p.
  assert (B : forall m, 1 + inject_Z (Z.of_nat m) <= qpow (3 # 2) (2 * m)).
  { induction m as [|m IH]; [by vm_compute|]. replace (2 * S m)%nat with (2 + 2 * m)%nat by lia. rewrite qpow_add, Nat2Z.inj_succ, <- Z.add_1_r, inject_Z_plus.
    change (inject_Z 1) with 1. assert (qpow (3 # 2) 2 == 9 # 4) as -> by done.
    assert (0 <= inject_Z (Z.of_nat m)) by (change 0 with (inject_Z 0); rewrite <- Zle_Qle; lia). lra. }
  destruct x as [a d]. exists (2 * Z.to_nat (2 * Z.abs a))%nat. specialize (B (Z.to_nat (2 * Z.abs a))). rewrite Z2Nat.id in B by lia.
  assert ((a # d) <= inject_Z (Z.abs a)) by (unfold Qle; cbn; nia). rewrite inject_Z_mult in B. change (inject_Z 2) with 2 in B. lra.
Qed.

Lemma exp_pos_series x : 0 <= val x ->
  exists f, forall n, (f < n)%nat -> exists y, expFloat bf (S n) x p = Ret y /\ exp_pos_of p (val x) (val y) /\ 0 < val y.
Proof using Hp.
  intros Hx. destruct (halvings (val x)) as [f Hf]. exists f. intros n Hn. cbn [expFloat].
  destruct (FSign bf x <? 0)%Z eqn:E; [apply sign_neg in E; lra|].
  destruct (halve_returns f n x 0 Hx Hf Hn) as (r & h & -> & Hr & Br). cbn [bind fst snd Nat.add].
  destruct (exp_loop_sums terms 1 r (SetInt bf p 1) (SetInt bf p 1) (exp_term (val r)) 0) as (s & -> & Hs); [apply exp_term_S|lia|lia| | |].
  { rewrite small_int by lia. apply near_refl. }
  { apply series_start. rewrite small_int by lia. done. }
  cbn [bind]. destruct (square_near h s) as (y & -> & Hy). exists y. split; [done|]. split; [exists h, (val r), (val s); by split_and!; [|apply Br| |]|].
  apply (near_sign p precise _ _ _ Hy). apply qpow_pos. eapply exp_positive; [apply Br|exact Hs].
Qed.

Lemma exp_series x : exists f, forall n, (f < n)%nat -> exists y, expFloat bf (S n) x p = Ret y /\ exp_of p (val x) (val y).
Proof using Hp.
  unfold exp_of. destruct (Qlt_le_dec (val x) 0) as [L|L].
  - pose proof (neg_near x) as Hw. set (w := FNeg bf p x) in *. assert (0 < val w) by (apply (near_sign p precise _ _ _ Hw); lra).
    destruct (exp_pos_series w ltac:(lra)) as [f Hf]. exists (S f). intros [|n] Hn; [lia|]. destruct (Hf n ltac:(lia)) as (v & E & Hv & P).
    assert (expFloat bf (S (S n)) x p = let! positive := expFloat bf (S n) w p in FQuo bf p (SetInt bf p 1) positive) as ->.
    { cbn [expFloat]. by rewrite (proj2 (sign_neg x) L). }
    rewrite E. cbn [bind]. destruct (quo_near (SetInt bf p 1) v ltac:(lra)) as (y & -> & Hy). exists y. split; [done|]. exists (val w), (val v).
    split_and!; [done|done|]. rewrite small_int in Hy by lia. unfold Qdiv in Hy. by rewrite Qmult_1_l in Hy.
  - destruct (exp_pos_series x L) as [f Hf]. exists f. intros n Hn. destruct (Hf n Hn) as (y & E & H & _). by exists y.
Qed.

(** ** Logarithm *)

Lemma logUnit_series x : 0 < val x -> exists y, logUnit bf x p = Ret y /\ log_unit_of p (val x) (val y).
Proof using Hp.
  intros Hx. unfold logUnit. destruct (sub_near x (SetInt bf p 1)) as (d & -> & Hd). destruct (add_near x (SetInt bf p 1)) as (s & Es & Hs).
  cbn [bind]. rewrite Es. cbn [bind]. rewrite small_int in Hd, Hs by lia. change (inject_Z 1) with 1 in *.
  assert (0 < val s) by (apply (near_sign p precise _ _ _ Hs); lra). destruct (quo_near d s ltac:(lra)) as (z & -> & Hq). cbn [bind].
  assert (Z3 : near 3 (val z) ((val x - 1) / (val x + 1))).
  { change 3%nat with (1 + 1 + 1)%nat. eapply near_trans; [apply precise| |exact Hq]. by apply near_div; [apply precise| |]. }
  destruct (mul_near z z) as (z2 & -> & Hz2). cbn [bind].
  destruct (log_loop_sums terms 3 z2 z z (val z * val z) (fun j => qpow (val z) (2 * j + 1)) 0) as (sm & -> & Hsm); [done|apply power_S|lia|lia| | |].
  { change (2 * 0 + 1)%nat with 1%nat. cbn [qpow]. rewrite Qmult_1_r. apply near_refl. }
  { apply series_start. symmetry. apply atanh_term_0. }
  cbn [bind]. destruct (mul_near sm (SetInt bf p 2)) as (y & -> & Hy). exists y. split; [done|]. rewrite small_int in Hy by lia.
  by exists (val z), (val sm).
Qed.

Lemma logFloat_series x : 0 < val x -> exists y, logFloat bf x p = Ret (inr y) /\ log_of p (val x) (val y).
Proof using Hp.
  intros Hx. unfold logFloat. rewrite (proj2 (sign_pos x)) by done. destruct (MantExp bf x) as [m e] eqn:E.
  destruct (MantExp_val x m e Hx E) as [Ex Hm]. destruct (mul_near m (SetInt bf p 2)) as (m2 & -> & H2). cbn [bind]. rewrite small_int in H2 by lia.
  change (inject_Z 2) with 2 in H2. assert (0 < val m2) as Hm2 by (apply (near_sign p precise _ _ _ H2); lra).
  destruct (logUnit_series m2 Hm2) as (s & -> & Hs). cbn [bind]. destruct (e - 1 =? 0)%Z eqn:Ee.
  - exists s. split; [done|]. exists (val m), e, (val m2), (val s). rewrite Ee. by split_and!; try apply Hm.
  - assert (V2 : val (SetInt bf p 2) == 2) by (rewrite small_int; [done|lia]).
    destruct (logUnit_series (SetInt bf p 2)) as (l & -> & Hl); [rewrite V2; lra|]. cbn [bind].
    destruct (mul_near l (SetInt bf p (e - 1))) as (w & -> & Hw). cbn [bind]. destruct (add_near s w) as (y & -> & Hy). cbn [bind].
    exists y. split; [done|]. exists (val m), e, (val m2), (val s). rewrite Ee. split_and!; try done; try apply Hm. exists (val l), (val w).
    split_and!; [|change 2%nat with (0 + 1 + 1)%nat; eapply near_trans; [apply precise| |exact Hw]; apply near_mul; [apply precise|apply near_refl|apply int_near]|done].
    destruct Hl as (z & s' & Z & S & Y). exists z, s'. split_and!; [|done|done]. by rewrite V2 in Z.
Qed.

(** ** The calls *)

Lemma numberFloat_near v : (0 <= Bc.scale v)%Z -> exists x, numberFloat bf v p = Ret x /\ near 3 (val x) (Bc.value v).
Proof using Hp.
  intros Hv. unfold numberFloat. assert (V : Bc.value v == inject_Z (Bc.num v) / inject_Z (Bc.pow10 (Bc.scale v))).
  { unfold Bc.value, Bc.frac. rewrite Bc.pow10_pow by done. pose proof (Bc.ten_pos (Bc.scale v) Hv). unfold Qdiv, Qeq, Qmult, inject_Z.
    destruct (10 ^ Bc.scale v)%Z as [|d|d]; [done| |done]. cbn. lia. }
  assert (0 < inject_Z (Bc.pow10 (Bc.scale v))) by (apply inject_pos; rewrite Bc.pow10_pow by done; by apply Bc.ten_pos).
  destruct (Z.eqb_spec (Bc.scale v) 0) as [E|E].
  - eexists. split; [done|]. rewrite V, E. change (Bc.pow10 0) with 1%Z. unfold Qdiv. change (/ inject_Z 1) with 1. rewrite Qmult_1_r.
    eapply near_mono; [apply precise|apply int_near|lia].
  - pose proof (int_near (Bc.pow10 (Bc.scale v))) as D. pose proof (proj1 (near_sign p precise _ _ _ D)) as D0.
    destruct (quo_near (SetInt bf p (Bc.num v)) (SetInt bf p (Bc.pow10 (Bc.scale v)))) as (x & -> & Hx); [apply D0 in H; lra|].
    exists x. split; [done|]. rewrite V. change 3%nat with (1 + 1 + 1)%nat. eapply near_trans; [apply precise| |exact Hx].
    by apply near_div; [apply precise|apply int_near|].
Qed.

End Loops.

(** [r] is [y] cut off to [sc] decimal places. *)
Definition truncates (sc : Z) (y : Q) (r : Bc.Number) : Prop :=
  Bc.scale r = sc /\ Qabs (y - Bc.value r) < Bc.ulp sc /\ Qabs (Bc.value r) <= Qabs y.

Lemma floatNumber_cuts bf p (R : Rounding bf p) y sc :
  (0 <= sc)%Z -> exists r, floatNumber bf y sc = Ret r /\ truncates sc (val y) r.
Proof.
  intros Hs. destruct (Rat_val y) as (q & E & Eq). destruct (floatNumber_truncates bf y q sc Hs E) as (r & E' & S & T1 & T2).
  exists r. split; [done|]. unfold truncates. by rewrite <- Eq.
Qed.

(** What the function [name] gives for [v]: the number that [f] describes for
    the argument [x], cut off. *)
Definition gives bf (fuel : nat) (sc : Z) (name : list Z) (v : Bc.Number) (f : Q -> Q -> Prop) (x : Q) : Prop :=
  exists r y, mathCall bf fuel sc name v = Ret (inr r) /\ f x y /\ truncates sc y r.

(** Decide the comparisons of the name of a function. *)
Ltac named :=
  repeat match goal with |- context [str_eqb ?a ?b] => let v := eval vm_compute in (str_eqb a b) in change (str_eqb a b) with v end; cbv iota.


End BcSeries.
