(* ===== verification/BcWitness.v ===== *)
(** * Programs of bc on concrete inputs

    The theorems on the lexer, the parser, the interpreter and the math
    library of bc at concrete programs. *)

From Stdlib Require Import ZArith Lia String QArith Qabs Qpower Lqa Factorial.
From stdpp Require Import base tactics list numbers strings gmap.
From S2P Require Import Prelude BcNumber BcLex BcParse BcInterp BcSyntax BcTotal BcRun BcPrograms BcMath BcSeries.
Import BcLex BcParse BcInterp BcSyntax BcTotal BcRun BcPrograms.

Open Scope Z_scope.
Open Scope go_scope.

Module BcWitness.

(** No math library: its functions are only called with -l. *)
Definition no_library : library := mkLibrary (fun _ _ _ => Panic) (fun _ _ _ => Panic).

(** while (i < 3) { a[i] = -i ^ 2; i++ }; a[2] - 1 * 2 *)
Definition loop_program : list stmt :=
  let i := variableExpr (str! "i") None in
  [whileStmt (binaryExpr (str! "<") i (literalExpr (str! "3")))
     [blockStmt
        [exprStmt (binaryExpr (str! "=") (variableExpr (str! "a") (Some i))
           (binaryExpr (str! "^") (unaryExpr (str! "-") i) (literalExpr (str! "2")))) false;
         exprStmt (incExpr i 1 true) true]];
   exprStmt (binaryExpr (str! "-") (variableExpr (str! "a") (Some (literalExpr (str! "2"))))
     (binaryExpr (str! "*") (literalExpr (str! "1")) (literalExpr (str! "2")))) true].

Lemma loop_program_ok : Forall stmt_ok loop_program.
Proof.
  assert (name_ok (str! "i")) by (left; by eexists). assert (name_ok (str! "a")) by (left; by eexists).
  assert (forall c, is_digit c = true -> number_ok [c]).
  { intros c Hc. split_and!; [done|intros [= ->]; done|]. cbn. unfold digit_char. by rewrite Hc. }
  unfold loop_program. cbv zeta. apply Forall_cons. split; [|apply Forall_cons; split; [|done]].
  - split; [right; cbn; split_and!; [closing|done|done|auto]|]. cbn. split_and!; auto; try done; lia.
  - cbn. split_and!; auto; try done; lia.
Qed.

Lemma Execute_runs_witness :
  program_text loop_program = str! "while ( i < 3 ) { a [ i ] = - i ^ 2 ; i ++ ; } ; a [ 2 ] - 1 * 2 ; " /\
  match Execute no_library 60 (program_text loop_program) New with Done _ b => Out b = str! "0" ++ 10 :: str! "1" ++ 10 :: str! "2" ++ 10 :: str! "2" ++ [10] | _ => False end /\
  exists N, forall n b, (N <= n)%nat ->
    Execute no_library n (program_text loop_program) b = toplevel (exec no_library n loop_program b) /\
    Execute no_library n (program_text loop_program ++ quit_text ++ str! "?!") b =
      followed (toplevel (exec no_library n loop_program b)) (Err EOF).
Proof. split; [reflexivity|]. split; [vm_compute; reflexivity|]. apply (Execute_runs no_library loop_program). exact loop_program_ok. Defined.

(** A text that is no program: the parser stops with an error. *)
Definition open_paren : list Z := str! "x = (1 + 2".

Lemma parser_returns_witness :
  exists t, lex open_paren = Ret t /\ length t = 7%nat /\ statement 58 t = Ret (inl (Expected 1 (str! ")") [])) /\
  match statement 58 t with Ret (inr (_, u)) => ended u /\ (length u < length t)%nat | Ret (inl _) => True | _ => False end.
Proof.
  destruct (parser_returns open_paren) as (t & E & He & H). exists t. split; [exact E|].
  assert (length t = 7%nat /\ statement 58 t = Ret (inl (Expected 1 (str! ")") []))) as [L S]
    by (vm_compute in E; injection E as <-; split; reflexivity).
  split; [exact L|]. split; [exact S|]. apply H; [exact He|]. rewrite L. lia.
Defined.

Lemma New_regs : regs_ok New.
Proof. split; cbn; unfold MaxScale, Bc.MaxBase; [lia..|apply map_Forall_empty]. Qed.

(** [obase] is raised to 2; a scale of 200 is refused. *)
Definition limits_program : list Z := str! "a[3] = 1; obase = 1; scale = 9; scale = 200".
Definition limits_state : Interpreter :=
  match Execute no_library 40 limits_program New with Err _ b => b | _ => New end.

Lemma Execute_limits_witness :
  (OBase limits_state, Scale limits_state) = (2, 9) /\
  regs_ok limits_state /\ (exists s, Out limits_state = Out New ++ s) /\ callDepth limits_state = callDepth New.
Proof.
  split; [vm_compute; reflexivity|].
  apply (Execute_limits no_library 40 limits_program New limits_state (inr (ValueOutside (Some 200) 0 99))); [exact New_regs|].
  vm_compute. reflexivity.
Defined.

(** define f(x) { auto y; y = x + z; z = y; return (y) } with globals x, y and z. *)
Definition scope_function : function :=
  let v name := variableExpr name None in
  mkFunction [mkParam (str! "x") false] [mkParam (str! "y") false]
    [exprStmt (binaryExpr (str! "=") (v (str! "y")) (binaryExpr (str! "+") (v (str! "x")) (v (str! "z")))) false;
     exprStmt (binaryExpr (str! "=") (v (str! "z")) (v (str! "y"))) false;
     returnStmt (v (str! "y"))].

Definition scope_state : Interpreter :=
  set_vars (<[str! "x" := Bc.fromInt64 7]> (<[str! "z" := Bc.fromInt64 2]> ∅)) (set_funcs (<[str! "f" := scope_function]> ∅) New).

Definition scope_values : list actual := [scalarValue (Bc.fromInt64 4)].

Lemma call_scope_witness :
  (exists b', call no_library 20 (str! "f") [literalExpr (str! "4")] scope_state = Done (Bc.fromInt64 6) b' /\
    vars b' !! str! "x" = Some (Bc.fromInt64 7) /\ vars b' !! str! "y" = None /\ vars b' !! str! "z" = Some (Bc.fromInt64 6)) /\
  exists b0, entered (locals scope_function scope_values) scope_state b0 /\
  match exec no_library 19 (body scope_function) b0 with
  | Done r b2 => exists b', exited (locals scope_function scope_values) scope_state b2 b' /\
      call no_library 20 (str! "f") [literalExpr (str! "4")] scope_state =
        match rflow r with flowReturn => Done (value r) b' | flowQuit => Err EOF b' | _ => Done Bc.Zero b' end
  | Err e b2 => exists b', exited (locals scope_function scope_values) scope_state b2 b' /\
      call no_library 20 (str! "f") [literalExpr (str! "4")] scope_state = Err e b'
  | Crash => call no_library 20 (str! "f") [literalExpr (str! "4")] scope_state = Crash
  | NoFuel => call no_library 20 (str! "f") [literalExpr (str! "4")] scope_state = NoFuel
  end.
Proof.
  split; [eexists; vm_compute; auto|].
  apply (call_scope no_library 19 (str! "f") scope_function [literalExpr (str! "4")] scope_state scope_state scope_values);
    [reflexivity|closing|reflexivity|reflexivity].
Defined.

(** define f(x) { auto x; return (x) } with a global x. *)
Definition leak_state : Interpreter :=
  let p := mkParam (str! "x") false in
  set_vars (<[str! "x" := Bc.fromInt64 5]> ∅)
    (set_funcs (<[str! "f" := mkFunction [p] [p] [returnStmt (variableExpr (str! "x") None)]]> ∅) New).
Definition leak_after : Interpreter :=
  match call no_library 20 (str! "f") [literalExpr (str! "7")] leak_state with Done _ b => b | _ => New end.

Lemma call_duplicate_leaks_witness :
  vars leak_state !! str! "x" = Some (Bc.fromInt64 5) /\ vars leak_after !! str! "x" = Some (Bc.fromInt64 7).
Proof.
  split; [reflexivity|].
  apply (call_duplicate_leaks no_library 19 (str! "f") (str! "x") [returnStmt (variableExpr (str! "x") None)] (literalExpr (str! "7"))
    leak_state leak_state leak_after (Bc.fromInt64 7) Bc.Zero); [reflexivity|closing|reflexivity|vm_compute; reflexivity].
Defined.

(** (1.5 - x) * -2.25 with x = 4 and scale 3. *)
Definition ring_example : expr :=
  binaryExpr (str! "*") (parenExpr (binaryExpr (str! "-") (literalExpr (str! "1.5")) (variableExpr (str! "x") None)))
    (unaryExpr (str! "-") (literalExpr (str! "2.25"))).
Definition ring_state : Interpreter := set_Scale 3 (set_vars (<[str! "x" := Bc.fromInt64 4]> ∅) New).

Lemma ring_exact_witness :
  program_text [exprStmt ring_example true] = str! "( 1.5 - x ) * - 2.25 ; " /\ (exact ring_state ring_example == 45 # 8)%Q /\
  exists v, (Bc.value v == exact ring_state ring_example)%Q /\ Bc.scale v = places ring_state ring_example /\
  exists N, forall n, (N <= n)%nat ->
    Execute no_library n (program_text [exprStmt ring_example true]) ring_state =
    Done tt (write (Bc.wrappedStringBase v (OBase ring_state) ++ [10]) ring_state).
Proof.
  split; [reflexivity|]. split; [reflexivity|]. apply (ring_exact no_library ring_example ring_state).
  - assert (name_ok (str! "x")) by (left; by eexists). cbn. split_and!; try done; lia.
  - apply map_Forall_insert_2; [by unfold Bc.wf; cbn|apply map_Forall_empty].
  - cbn. split_and!; try closing; try done; by eexists.
  - vm_compute. discriminate.
Defined.

(** Floating-point numbers that never round. *)
Definition rationals : BcMath.BigFloat := {|
  BcMath.F := Q;
  BcMath.SetInt _ n := inject_Z n;
  BcMath.one_half _ := 1 # 2;
  BcMath.SetMantExp _ m e := Qred (m * 2 ^ e);
  BcMath.FNeg _ x := Qopp x;
  BcMath.FAdd _ x y := Ret (Qred (x + y));
  BcMath.FSub _ x y := Ret (Qred (x - y));
  BcMath.FMul _ x y := Ret (Qred (x * y));
  BcMath.FQuo _ x y := if (Qnum y =? 0)%Z then Panic else Ret (Qred (x / y));
  BcMath.FCmp := Qcompare;
  BcMath.FSign x := Z.sgn (Qnum x);
  BcMath.FInt x := Ret (Z.quot (Qnum x) (Z.pos (Qden x)));
  BcMath.MantExp x :=
    let e := (Z.log2 (Qnum x) - Z.log2 (Z.pos (Qden x)))%Z in
    let m := Qred (x * 2 ^ (- e)%Z) in
    match Qcompare m 1 with Lt => (m, e) | _ => (Qred (m * (1 # 2)), (e + 1)%Z) end;
  BcMath.Rat x := Ret x
|}%Q.

(** e(1) with 10 places. *)
Definition e_number : Bc.Number := Bc.mkNumber 27182818284 10.

Lemma exact_rounded p (y x : Q) : (y == x)%Q -> BcSeries.rounded p y x.
Proof.
  intros E. unfold BcSeries.rounded, BcSeries.roundoff. rewrite E. assert (x - x == 0)%Q as -> by ring. change (Qabs 0) with 0%Q.
  apply Qmult_le_0_compat; [|apply Qabs_nonneg]. apply Qinv_le_0_compat. change 0%Q with (inject_Z 0). rewrite <- Zle_Qle. by apply Z.pow_nonneg.
Qed.

(** The mantissa and the exponent of a positive fraction. *)
Lemma mantissa_range (x : Q) :
  (0 < x -> let e := (Z.log2 (Qnum x) - Z.log2 (Z.pos (Qden x)))%Z in let m := x * 2 ^ (- e)%Z in (1 # 2) <= m < 2 /\ x == m * 2 ^ e)%Q.
Proof.
  intros Hx. cbv zeta. destruct x as [a d]. cbn [Qnum Qden]. assert (0 < a) as Ha by (unfold Qlt in Hx; cbn in Hx; lia).
  pose proof (Z.log2_spec a Ha) as [A1 A2]. pose proof (Z.log2_spec (Z.pos d) ltac:(lia)) as [D1 D2].
  set (la := Z.log2 a) in *. set (ld := Z.log2 (Z.pos d)) in *. assert (0 <= la /\ 0 <= ld) as [La Ld] by (split; apply Z.log2_nonneg).
  assert (P : forall n, 0 <= n -> (inject_Z (2 ^ n) == 2 ^ n)%Q) by (intros n Hn; by apply (Zpower_Qpower 2 n)).
  assert (E1 : (2 ^ (- (la - ld)) == inject_Z (2 ^ ld) / inject_Z (2 ^ la))%Q).
  { rewrite !P by done. replace (- (la - ld)) with (ld - la) by lia. by rewrite Qpower_minus. }
  assert (E2 : (2 ^ (la - ld) == inject_Z (2 ^ la) / inject_Z (2 ^ ld))%Q) by (rewrite !P by done; by rewrite Qpower_minus).
  rewrite E1, E2. clear E1 E2 P. rewrite Z.pow_succ_r in A2, D2 by lia. set (A := 2 ^ la) in *. set (D := 2 ^ ld) in *.
  assert (0 < D) by (subst D; by apply Z.pow_pos_nonneg). assert (0 < A) by (subst A; by apply Z.pow_pos_nonneg).
  pose proof (BcSeries.inject_pos A ltac:(done)). pose proof (BcSeries.inject_pos D ltac:(done)).
  assert (M : ((a # d) * (inject_Z D / inject_Z A) == inject_Z (a * D) / inject_Z (Z.pos d * A))%Q).
  { rewrite !inject_Z_mult. pose proof (BcSeries.inject_pos (Z.pos d) ltac:(lia)). assert ((a # d) == inject_Z a / inject_Z (Z.pos d))%Q as ->.
    { unfold Qdiv, Qmult, Qeq, inject_Z. cbn. lia. } field. lra. }
  pose proof (BcSeries.inject_pos (Z.pos d * A) ltac:(lia)). split; [rewrite M; split|].
  - apply Qle_shift_div_l; [done|]. unfold Qle, Qmult, inject_Z. cbn [Qnum Qden]. nia.
  - apply Qlt_shift_div_r; [done|]. unfold Qlt, Qmult, inject_Z. cbn [Qnum Qden]. nia.
  - field. lra.
Qed.

(** They are the numbers of every precision. *)
#[export] Instance rationals_round p : BcSeries.Rounding rationals p.
Proof.
  refine (BcSeries.Build_Rounding rationals p (fun x => x) _ _ _ _ _ _ _ _ _ _ _ _ _ _); cbn [BcMath.F rationals] in *; intros; cbn -[Qabs Qpower].
  - by apply exact_rounded.
  - done.
  - done.
  - apply exact_rounded, Qred_correct.
  - by apply exact_rounded.
  - eexists. split; [done|]. apply exact_rounded, Qred_correct.
  - eexists. split; [done|]. apply exact_rounded, Qred_correct.
  - eexists. split; [done|]. apply exact_rounded, Qred_correct.
  - destruct (Z.eqb_spec (Qnum y) 0) as [E|E]; [exfalso; apply H; unfold Qeq; cbn; lia|]. eexists. split; [done|]. apply exact_rounded, Qred_correct.
  - done.
  - done.
  - done.
  - destruct (mantissa_range x H) as [B E]. cbv zeta in B, E. cbn [BcMath.MantExp rationals] in H0. revert H0.
    set (e' := Z.log2 (Qnum x) - Z.log2 (Z.pos (Qden x))) in *. pose proof (Qred_correct (x * 2 ^ (- e')%Z)) as Er.
    set (m' := Qred (x * 2 ^ (- e')%Z)) in *. rewrite <- Er in B, E. clearbody m' e'.
    destruct (Qcompare_spec m' 1) as [L|L|L]; intros [= <- <-].
    1, 3: rewrite Qred_correct, Qpower_plus by done; change (2 ^ 1)%Q with 2%Q; split; [rewrite E; ring|lra].
    split; [done|lra].
  - by eexists.
Defined.



End BcWitness.
