(* ===== verification/Heap.v ===== *)
(** * Binary heaps (Go's [container/heap])

    The priority queue [tsort] keeps its ready nodes in: the array heap of
    the Go standard library, as [heap.Init], [heap.Push] and [heap.Pop] run
    it over a slice, and the interface its client is verified against
    ([PriorityQueue]). *)

From Stdlib Require Import Lia.
From stdpp Require Import base tactics list numbers sorting.
From S2P Require Import Prelude.

#[local] Open Scope nat_scope.

(** ** The interface *)

(** A priority queue of numbers ordered by [less], as a slice. [pq_ok] is the
    representation invariant. *)
Class PriorityQueue (less : nat -> nat -> bool) := {
  pq_init : list nat -> list nat;
  pq_push : list nat -> nat -> list nat;
  pq_pop : list nat -> option (nat * list nat);
  pq_ok : list nat -> Prop;
  pq_init_spec l : pq_ok (pq_init l) /\ pq_init l ≡ₚ l;
  pq_push_spec h x : pq_ok h -> pq_ok (pq_push h x) /\ pq_push h x ≡ₚ x :: h;
  pq_pop_spec h : pq_ok h -> h <> [] ->
    exists x h', pq_pop h = Some (x, h') /\ h ≡ₚ x :: h' /\ pq_ok h' /\
      forall y, y ∈ h' -> less y x = false;
  pq_pop_empty : pq_pop [] = None
}.

(** ** The array heap *)

Module ArrayHeap.

Section Heap.
Context (less : nat -> nat -> bool).

Definition less_at (h : list nat) (i j : nat) : bool := less (h !!! i) (h !!! j).

Definition swap (h : list nat) (i j : nat) : list nat :=
  <[i := h !!! j]> (<[j := h !!! i]> h).

Definition parent (j : nat) : nat := (j - 1) / 2.

(** [up]: the index at least halves, so [j] rounds are enough. *)
Fixpoint up (fuel : nat) (h : list nat) (j : nat) : list nat :=
  match fuel with
  | O => h
  | S f =>
      let i := parent j in
      if (i =? j) || negb (less_at h j i) then h else up f (swap h i j) i
  end.

(** [down] within the first [n] elements: the index grows, so [n] rounds are
    enough. *)
Fixpoint down (fuel : nat) (h : list nat) (i n : nat) : list nat :=
  match fuel with
  | O => h
  | S f =>
      let j1 := 2 * i + 1 in
      if n <=? j1 then h
      else
        let j2 := j1 + 1 in
        let j := if (j2 <? n) && less_at h j2 j1 then j2 else j1 in
        if negb (less_at h j i) then h else down f (swap h i j) j n
  end.

(** [heap.Init]: [down] from the last parent to the root. *)
Fixpoint init_from (k : nat) (h : list nat) (n : nat) : list nat :=
  match k with
  | O => h
  | S i => init_from i (down n h i n) n
  end.

Definition init (h : list nat) : list nat := init_from (length h / 2) h (length h).

Definition push (h : list nat) (x : nat) : list nat :=
  up (S (length h)) (h ++ [x]) (length h).

Definition pop (h : list nat) : option (nat * list nat) :=
  match h with
  | [] => None
  | _ =>
      let n := length h - 1 in
      let h1 := down n (swap h 0 n) 0 n in
      Some (h1 !!! n, take n h1)
  end.

(** ** Correctness *)

(** [Less] is a strict weak order. *)
Context (less_asym : forall a b, less a b = true -> less b a = false).
Context (less_trans : forall a b c, less b a = false -> less c b = false -> less c a = false).

Definition le (a b : nat) : Prop := less b a = false.

Lemma parent_lt j : 0 < j -> parent j < j.
Proof. unfold parent. intros. apply Nat.Div0.div_lt_upper_bound. lia. Qed.

Lemma parent_spec j i : 0 < j -> parent j = i <-> j = 2 * i + 1 \/ j = 2 * i + 2.
Proof.
  unfold parent. intros Hj. pose proof (Nat.div_mod_eq (j - 1) 2).
  pose proof (Nat.mod_upper_bound (j - 1) 2 ltac:(lia)). lia.
Qed.

(** The heap order on the edges below the nodes from [k] on, within the
    first [n] elements, except below the node [i] (whose children are only
    known to be above its parent). *)
Definition ordered (k n : nat) (h : list nat) : Prop :=
  forall j, 0 < j < n -> k <= parent j -> le (h !!! parent j) (h !!! j).

Definition ordered_but (k n i : nat) (h : list nat) : Prop :=
  (forall j, 0 < j < n -> k <= parent j -> parent j <> i -> le (h !!! parent j) (h !!! j)) /\
  (forall j, 0 < j < n -> parent j = i -> 0 < i -> k <= parent i ->
     le (h !!! parent i) (h !!! j)).

Definition heap_ok (h : list nat) : Prop := ordered 0 (length h) h.

Lemma swap_length h i j : length (swap h i j) = length h.
Proof. unfold swap. by rewrite !length_insert. Qed.

Lemma swap_lookup h i j k :
  i < length h -> j < length h -> swap h i j !!! k =
  if decide (k = i) then h !!! j else if decide (k = j) then h !!! i else h !!! k.
Proof.
  intros Hi Hj. unfold swap. destruct (decide (k = i)) as [->|].
  { by rewrite list_lookup_total_insert_eq by (by rewrite length_insert). }
  rewrite list_lookup_total_insert_ne by done.
  destruct (decide (k = j)) as [->|].
  - by rewrite list_lookup_total_insert_eq.
  - by rewrite list_lookup_total_insert_ne by done.
Qed.

Lemma swap_perm h i j : i < length h -> j < length h -> swap h i j ≡ₚ h.
Proof.
  intros Hi Hj. unfold swap.
  destruct (lookup_lt_is_Some_2 h i Hi) as [x Hx].
  destruct (lookup_lt_is_Some_2 h j Hj) as [y Hy].
  rewrite (list_lookup_total_correct _ _ _ Hx), (list_lookup_total_correct _ _ _ Hy).
  by apply Permutation_insert_swap.
Qed.

Lemma down_S f h i n :
  down (S f) h i n =
  if n <=? 2 * i + 1 then h
  else
    let j := if (2 * i + 1 + 1 <? n) && less_at h (2 * i + 1 + 1) (2 * i + 1)
             then 2 * i + 1 + 1 else 2 * i + 1 in
    if negb (less_at h j i) then h else down f (swap h i j) j n.
Proof. done. Qed.

Lemma down_length f h i n : length (down f h i n) = length h.
Proof.
  revert h i; induction f as [|f IH]; intros h i; [done|]. rewrite down_S.
  destruct (n <=? _); [done|]. cbv zeta. destruct (negb _); [done|].
  by rewrite IH, swap_length.
Qed.

Lemma down_perm f h i n : n <= length h -> down f h i n ≡ₚ h.
Proof.
  revert h i; induction f as [|f IH]; intros h i Hn; [done|]. rewrite down_S.
  destruct (Nat.leb_spec n (2 * i + 1)); [done|]. cbv zeta.
  destruct (Nat.ltb_spec (2 * i + 1 + 1) n), (less_at _ _ (2 * i + 1)); cbn [andb];
    (destruct (negb _); [done|]);
    (etrans; [apply IH; by rewrite swap_length|apply swap_perm; lia]).
Qed.

(** [down] within [n] leaves the elements from [n] on in place. *)
Lemma down_beyond f h i n m :
  n <= length h -> n <= m -> i < n -> down f h i n !!! m = h !!! m.
Proof.
  revert h i; induction f as [|f IH]; intros h i Hn Hm Hi; [done|]. rewrite down_S.
  destruct (Nat.leb_spec n (2 * i + 1)); [done|]. cbv zeta.
  destruct (Nat.ltb_spec (2 * i + 1 + 1) n), (less_at _ _ (2 * i + 1)); cbn [andb];
    (destruct (negb _); [done|]);
    (rewrite IH by (rewrite ?swap_length; lia); rewrite swap_lookup by lia;
     by rewrite !decide_False by lia).
Qed.

(** The child [down] chooses is the lesser of the two. *)
Lemma lesser_child h i n :
  2 * i + 1 < n ->
  let j := if (2 * i + 1 + 1 <? n) && less_at h (2 * i + 1 + 1) (2 * i + 1)
           then 2 * i + 1 + 1 else 2 * i + 1 in
  i < j < n /\ parent j = i /\
  forall c, 0 < c < n -> parent c = i -> le (h !!! j) (h !!! c).
Proof.
  intros Hi. cbv zeta. unfold less_at, le.
  assert (Hirr : forall x, less x x = false).
  { intros x. destruct (less x x) eqn:E; [|done]. by rewrite (less_asym _ _ E) in E. }
  destruct (Nat.ltb_spec (2 * i + 1 + 1) n);
    [destruct (less _ _) eqn:E|]; cbn [andb]; (split; [lia|]; split; [apply parent_spec; lia|]);
    intros c Hc [->| ->]%parent_spec; try lia; try done.
  - by apply less_asym.
  - by replace (2 * i + 2) with (2 * i + 1 + 1) by lia.
  - by replace (2 * i + 2) with (2 * i + 1 + 1) by lia.
Qed.

(** One round of [down] moves the exception to the child. *)
Lemma swap_ordered_but k n i j h :
  n <= length h -> k <= i -> i < j < n -> parent j = i ->
  (forall c, 0 < c < n -> parent c = i -> le (h !!! j) (h !!! c)) ->
  less (h !!! j) (h !!! i) = true ->
  ordered_but k n i h -> ordered_but k n j (swap h i j).
Proof.
  intros Hn Hk Hij Hp Hmin Hless [Ho1 Ho2].
  assert (Hpar : forall c, 0 < c < n -> parent c < n /\ parent c < c).
  { intros c Hc. pose proof (parent_lt c). lia. }
  split.
  - intros c Hc Hkc Hcj. pose proof (Hpar c Hc). rewrite !swap_lookup by lia.
    destruct (decide (c = i)) as [->|Hci].
    { rewrite decide_False by lia. rewrite decide_False by lia. apply Ho2; lia || done. }
    destruct (decide (parent c = i)) as [E|E].
    + destruct (decide (c = j)) as [->|]; [by apply less_asym|by apply Hmin].
    + destruct (decide (c = j)); [congruence|]. rewrite decide_False by done.
      by apply Ho1.
  - intros c Hc Hpc Hj Hkj. pose proof (Hpar c Hc). rewrite !swap_lookup by lia.
    rewrite Hp, decide_True by done. rewrite !decide_False by lia.
    rewrite <- Hpc at 1. apply Ho1; lia.
Qed.

Lemma down_ordered f k h i n :
  n <= length h -> k <= i -> n <= f + i -> ordered_but k n i h ->
  ordered k n (down f h i n).
Proof.
  revert h i; induction f as [|f IH]; intros h i Hn Hk Hf Ho.
  { intros j Hj Hkj. cbn. apply Ho; try done. pose proof (parent_lt j). lia. }
  rewrite down_S. destruct (Nat.leb_spec n (2 * i + 1)).
  { intros j Hj Hkj. apply Ho; try done. intros [->| ->]%parent_spec; lia. }
  destruct (lesser_child h i n) as (Hj & Hp & Hmin); [done|]. revert Hj Hp Hmin.
  cbv zeta. set (j := if _ && _ then _ else _). intros Hj Hp Hmin.
  destruct (less_at h j i) eqn:E; cbn [negb].
  - apply IH; [by rewrite swap_length|lia..|by apply swap_ordered_but].
  - intros c Hc Hkc. destruct (decide (parent c = i)) as [Ep|]; [|by apply Ho].
    rewrite Ep. apply (less_trans _ (h !!! j)); [done|by apply Hmin].
Qed.

(** [heap.Init]. *)
Lemma init_from_spec k h n :
  n <= length h -> (n - 1) / 2 < k \/ ordered k n h ->
  ordered 0 n (init_from k h n) /\ init_from k h n ≡ₚ h.
Proof.
  revert h; induction k as [|i IH]; intros h Hn Hk.
  - destruct Hk; [lia|]. done.
  - cbn [init_from]. assert (Ho : ordered (S i) n h).
    { destruct Hk as [Hk|]; [|done]. intros j Hj Hp. exfalso. unfold parent in Hp.
      pose proof (Nat.Div0.div_le_mono (j - 1) (n - 1) 2 ltac:(lia)). lia. }
    assert (Hd : ordered i n (down n h i n)).
    { apply down_ordered; [done|lia..|]. split.
      - intros j Hj Hi Hne. apply Ho; lia.
      - intros j Hj Hp Hi Hle. pose proof (parent_lt i). lia. }
    destruct (IH (down n h i n)) as [? Hp]; [by rewrite down_length|by right|].
    split; [done|]. rewrite Hp. by apply down_perm.
Qed.

Lemma init_spec h : heap_ok (init h) /\ init h ≡ₚ h.
Proof.
  unfold init, heap_ok.
  destruct (init_from_spec (length h / 2) h (length h)) as [H1 H2]; [done| |].
  - right. intros j Hj Hp. exfalso. unfold parent in Hp.
    pose proof (Nat.Div0.div_le_mono (j - 1) (length h - 2) 2 ltac:(lia)) as Hm.
    pose proof (Nat.div_add (length h - 2) 1 2 ltac:(lia)) as Ha.
    replace (length h - 2 + 1 * 2) with (length h) in Ha by lia. lia.
  - split; [|done]. by rewrite (Permutation_length H2).
Qed.

(** [up]: every edge but the one above [j] is ordered. *)
Definition ordered_up (j : nat) (h : list nat) : Prop :=
  (forall c, 0 < c < length h -> c <> j -> le (h !!! parent c) (h !!! c)) /\
  (forall c, 0 < c < length h -> parent c = j -> 0 < j -> le (h !!! parent j) (h !!! c)).

Lemma up_spec f h j :
  j < f -> j < length h -> ordered_up j h ->
  heap_ok (up f h j) /\ up f h j ≡ₚ h.
Proof.
  revert h j; induction f as [|f IH]; intros h j Hf Hj [Ho1 Ho2]; [lia|]. cbn [up].
  destruct (decide (j = 0)) as [->|Hj0].
  { cbn. split; [|done]. intros c Hc _. apply Ho1; lia. }
  pose proof (parent_lt j ltac:(lia)) as Hp.
  destruct (Nat.eqb_spec (parent j) j); [lia|]. cbn [orb].
  unfold less_at. destruct (less _ _) eqn:E; cbn [negb].
  - destruct (IH (swap h (parent j) j) (parent j)) as [? Hperm];
      [lia|rewrite swap_length; lia| |split; [done|by rewrite Hperm, swap_perm by lia]].
    split; rewrite swap_length; intros c Hc; pose proof (parent_lt c ltac:(lia)).
    + intros Hne. rewrite !swap_lookup by lia. rewrite (decide_False (P := c = _)) by done.
      destruct (decide (c = j)) as [->|].
      { rewrite decide_True by done. by apply less_asym. }
      destruct (decide (parent c = parent j)) as [Epp|].
      { apply (less_trans _ (h !!! parent j)); [by apply less_asym|].
        rewrite <- Epp. by apply Ho1. }
      destruct (decide (parent c = j)); [by apply Ho2; lia || done|by apply Ho1].
    + intros Hpc Hpj. pose proof (parent_lt (parent j) Hpj). rewrite !swap_lookup by lia.
      rewrite (decide_False (P := parent (parent j) = _)) by lia.
      rewrite (decide_False (P := parent (parent j) = _)) by lia.
      rewrite (decide_False (P := c = parent j)) by lia.
      destruct (decide (c = j)) as [->|].
      { apply Ho1; lia. }
      apply (less_trans _ (h !!! parent j)); [apply Ho1; lia|]. rewrite <- Hpc. by apply Ho1.
  - split; [|done]. intros c Hc _. destruct (decide (c = j)) as [->|]; [done|by apply Ho1].
Qed.

Lemma push_spec h x : heap_ok h -> heap_ok (push h x) /\ push h x ≡ₚ x :: h.
Proof.
  intros Hh. unfold push.
  destruct (up_spec (S (length h)) (h ++ [x]) (length h)) as [H1 H2].
  - lia.
  - rewrite length_app. cbn. lia.
  - split; intros c; rewrite length_app; cbn [length]; intros Hc.
    + intros Hne. pose proof (parent_lt c ltac:(lia)).
      rewrite !lookup_total_app_l by lia. apply Hh; lia.
    + intros Hp. pose proof (parent_lt c ltac:(lia)). lia.
  - split; [done|]. rewrite H2. by rewrite Permutation_app_comm.
Qed.

(** The root is below everything. *)
Lemma heap_root_min h j : heap_ok h -> j < length h -> le (h !!! 0) (h !!! j).
Proof.
  intros Hh. induction j as [j IH] using lt_wf_ind. intros Hj.
  destruct (decide (j = 0)) as [->|].
  { unfold le. destruct (less _ _) eqn:E; [|done]. by rewrite (less_asym _ _ E) in E. }
  pose proof (parent_lt j ltac:(lia)).
  apply (less_trans _ (h !!! parent j)); [apply IH; lia|apply Hh; lia].
Qed.

Lemma take_last_total (l : list nat) n :
  length l = S n -> l = take n l ++ [l !!! n].
Proof.
  intros Hl. rewrite <- (take_drop n l) at 1. f_equal.
  destruct (lookup_lt_is_Some_2 l n ltac:(lia)) as [x Hx].
  rewrite (drop_S _ _ _ Hx), (list_lookup_total_correct _ _ _ Hx).
  by rewrite drop_ge by lia.
Qed.

Lemma pop_spec h :
  heap_ok h -> h <> [] ->
  exists x h', pop h = Some (x, h') /\ h ≡ₚ x :: h' /\ heap_ok h' /\
    forall y, y ∈ h' -> less y x = false.
Proof.
  intros Hh Hne. set (n := length h - 1). set (h0 := swap h 0 n).
  set (h1 := down n h0 0 n).
  assert (Hlen : length h = S n) by (destruct h; [done|cbn in *; lia]).
  assert (Hl0 : length h0 = S n) by (unfold h0; by rewrite swap_length).
  assert (Hl1 : length h1 = S n) by (unfold h1; by rewrite down_length).
  assert (Hlast : h1 !!! n = h !!! 0).
  { unfold h1. destruct (decide (n = 0)) as [E|].
    - rewrite E. cbn. unfold h0. rewrite E, swap_lookup by lia. by rewrite decide_True.
    - rewrite down_beyond by lia. unfold h0. rewrite swap_lookup by lia.
      rewrite decide_False by done. by rewrite decide_True. }
  assert (Hperm : h ≡ₚ h1 !!! n :: take n h1).
  { transitivity h1; [|rewrite (take_last_total h1 n Hl1) at 1; by rewrite Permutation_app_comm].
    symmetry. unfold h1. rewrite down_perm by lia. unfold h0. apply swap_perm; lia. }
  exists (h1 !!! n), (take n h1). split_and!.
  - unfold pop. destruct h; [done|]. done.
  - done.
  - unfold heap_ok. rewrite length_take, Hl1, Nat.min_l by lia. intros j Hj _.
    pose proof (parent_lt j ltac:(lia)). rewrite !lookup_total_take, !decide_True by lia.
    apply (down_ordered n 0 h0 0 n); [lia..| |lia|lia]. split; [|lia].
    intros c Hc _ Hp. pose proof (parent_lt c ltac:(lia)). unfold h0.
    rewrite !swap_lookup by lia. rewrite !(decide_False (P := _ = 0)) by lia.
    rewrite !(decide_False (P := _ = n)) by lia. apply Hh; lia.
  - intros y Hy. rewrite Hlast.
    assert (y ∈ h) as [j Hj]%list_elem_of_lookup by (rewrite Hperm; by right).
    rewrite <- (list_lookup_total_correct _ _ _ Hj). apply heap_root_min; [done|].
    by eapply lookup_lt_Some.
Qed.

(** The array heap implements the interface. *)
Definition queue : PriorityQueue less := {|
  pq_init := init; pq_push := push; pq_pop := pop; pq_ok := heap_ok;
  pq_init_spec := init_spec; pq_push_spec := push_spec; pq_pop_spec := pop_spec;
  pq_pop_empty := eq_refl |}.

End Heap.

End ArrayHeap.
