(* ===== verification/Tsort.v ===== *)
(** * tsort: topological sort (src/cmds/tsort/tsort.go)

    The whole utility behind its flags and files: the tokens of the input,
    the graph, Kahn's algorithm with a heap of ready nodes, the search of a
    loop when the frontier stalls and the removal of its closing edge, the
    text written and the exit status. The nodes are the identifiers the graph
    hands out, indices of its parallel slices; [wf] below states that they
    stay in range, so that no lookup takes a default. *)

From Stdlib Require Import ZArith Lia.
From stdpp Require Import base tactics list numbers gmap strings sorting.
From S2P Require Import Prelude Heap.

Module Tsort.

(** ** Tokens *)

Definition isSeparator (b : Z) : bool := (b =? ch! " ") || (b =? 9) || (b =? 10).

Fixpoint skip_separators (data : list Z) : list Z :=
  match data with
  | b :: rest => if isSeparator b then skip_separators rest else data
  | [] => []
  end.

(** The index of the first separator. *)
Fixpoint separator_at (data : list Z) : option nat :=
  match data with
  | [] => None
  | b :: rest => if isSeparator b then Some 0%nat else S <$> separator_at rest
  end.

(** How far to advance, and the token ([None] for a nil one). *)
Definition splitToken (data : list Z) (atEOF : bool) : nat * option (list Z) :=
  let body := skip_separators data in
  let start := (length data - length body)%nat in
  match separator_at body with
  | Some i => ((start + i + 1)%nat, Some (take i body))
  | None =>
      if atEOF then
        if (start =? length data)%nat then (length data, None)
        else (length data, Some body)
      else (start, None)
  end.

(** [bufio.Scanner] over a text that is in its buffer: every call but the
    last returns a token. *)
Fixpoint scan (fuel : nat) (data : list Z) : list (list Z) :=
  match fuel with
  | O => []
  | S f =>
      match splitToken data true with
      | (adv, Some tok) => tok :: scan f (drop adv data)
      | (_, None) => []
      end
  end.

Definition tokens (data : list Z) : list (list Z) := scan (S (length data)) data.

(** ** The graph *)

Record graph := Graph {
  ids : gmap (list Z) nat;
  names : list (list Z);
  succ : list (list nat);
  indeg : list Z;
  done : list bool
}.

Definition newGraph : graph := Graph ∅ [] [] [] [].

Definition addNode (g : graph) (name : list Z) : graph * nat :=
  match ids g !! name with
  | Some id => (g, id)
  | None =>
      let id := length (names g) in
      (Graph (<[name := id]> (ids g)) (names g ++ [name]) (succ g ++ [[]])
         (indeg g ++ [0]) (done g ++ [false]), id)
  end.

Definition addEdge (g : graph) (a b : list Z) : graph :=
  let '(g1, u) := addNode g a in
  let '(g2, v) := addNode g1 b in
  Graph (ids g2) (names g2) (<[u := (succ g2 !!! u) ++ [v]]> (succ g2))
    (<[v := indeg g2 !!! v + 1]> (indeg g2)) (done g2).

(** The first occurrence of [v] is cut out. *)
Fixpoint cut_first (v : nat) (l : list nat) : option (list nat) :=
  match l with
  | [] => None
  | s :: l' => if (s =? v)%nat then Some l' else (s ::.) <$> cut_first v l'
  end.

Definition removeEdge (g : graph) (u v : nat) : graph :=
  match cut_first v (succ g !!! u) with
  | Some l =>
      Graph (ids g) (names g) (<[u := l]> (succ g))
        (<[v := indeg g !!! v - 1]> (indeg g)) (done g)
  | None => g
  end.

Definition is_done (g : graph) (id : nat) : bool := done g !!! id.

(** [g.done[id] = true] and [g.indeg[s]--]. *)
Definition set_done (g : graph) (id : nat) : graph :=
  Graph (ids g) (names g) (succ g) (indeg g) (<[id := true]> (done g)).

Definition dec_indeg (g : graph) (s : nat) : graph :=
  Graph (ids g) (names g) (succ g) (<[s := indeg g !!! s - 1]> (indeg g)) (done g).

(** The pairs of the input, and whether a last token has no partner. *)
Fixpoint add_pairs (g : graph) (toks : list (list Z)) : graph * bool :=
  match toks with
  | [] => (g, false)
  | [a] => (fst (addNode g a), true)
  | a :: b :: rest =>
      add_pairs (if str_eqb a b then fst (addNode g a) else addEdge g a b) rest
  end.

(** ** Search of a loop *)

Inductive color := white | grey | black.

#[global] Instance color_inhabited : Inhabited color := populate white.

(** A frame is a node and the index of its next successor; the top of the
    stack comes first. *)
Abbreviation frame := (nat * nat)%type.

Inductive scan_result :=
| Exhausted
| BackEdge (next : nat)
| Advance (next idx : nat).

Fixpoint scan_succ (g : graph) (state : list color) (rest : list nat) (idx : nat) : scan_result :=
  match rest with
  | [] => Exhausted
  | next :: rest' =>
      if is_done g next then scan_succ g state rest' (S idx)
      else match (state !!! next : color) with
           | black => scan_succ g state rest' (S idx)
           | grey => BackEdge next
           | white => Advance next (S idx)
           end
  end.

(** The stack, from the bottom, from the first frame of [next] on. *)
Fixpoint cycle_from (next : nat) (stack : list frame) : list nat :=
  match stack with
  | [] => []
  | (id, _) :: rest =>
      if (id =? next)%nat then fst <$> stack else cycle_from next rest
  end.

Inductive visit_result :=
| Cycle (c : list nat)
| Finished (state : list color).

(** A round colours a node grey or black: [2 n + 1] rounds are enough. *)
Fixpoint visit (fuel : nat) (g : graph) (state : list color) (stack : list frame) : outcome visit_result :=
  match stack with
  | [] => Ret (Finished state)
  | (id, idx) :: below =>
      match fuel with
      | O => OutOfFuel
      | S f =>
          match scan_succ g state (drop idx (succ g !!! id)) idx with
          | BackEdge next => Ret (Cycle (cycle_from next (rev stack)))
          | Advance next idx' =>
              visit f g (<[next := grey]> state) ((next, 0%nat) :: (id, idx') :: below)
          | Exhausted => visit f g (<[id := black]> state) below
          end
      end
  end.

Fixpoint search_from (g : graph) (state : list color) (starts : list nat) : outcome (list nat) :=
  match starts with
  | [] => Ret []
  | start :: rest =>
      if is_done g start then search_from g state rest
      else match (state !!! start : color) with
           | white =>
               let! r := visit (2 * length (names g) + 1) g (<[start := grey]> state) [(start, 0%nat)] in
               match r with
               | Cycle c => Ret c
               | Finished state' => search_from g state' rest
               end
           | _ => search_from g state rest
           end
  end.

Definition findCycle (g : graph) : outcome (list nat) :=
  search_from g (replicate (length (names g)) white) (seq 0 (length (names g))).

(** ** The sort *)

(** [nodeHeap.Less]: identifiers are ordered by name. *)
Definition Less (names : list (list Z)) (i j : nat) : bool :=
  str_ltb (names !!! i) (names !!! j).

(** What the loop carries: the graph, the heap, [remaining] and [cycles],
    the nodes written to [out] and the loops reported on [errw]. *)
Record sorter := Sorter {
  gr : graph;
  heap : list nat;
  remaining : Z;
  cycles : Z;
  out : list nat;
  loops : list (list nat)
}.

Section Sort.
Context (nms : list (list Z)) `{PQ : PriorityQueue (Less nms)}.

(** The successors of a node that was just written. *)
Fixpoint relax (g : graph) (h : list nat) (l : list nat) : graph * list nat :=
  match l with
  | [] => (g, h)
  | s :: l' =>
      if is_done g s then relax g h l'
      else
        let g' := dec_indeg g s in
        relax g' (if (indeg g' !!! s =? 0) then pq_push h s else h) l'
  end.

(** The branch for a stalled frontier without a loop: write what is left. *)
Fixpoint write_rest (g : graph) (ids : list nat) (out : list nat) (rem : Z) : graph * list nat * Z :=
  match ids with
  | [] => (g, out, rem)
  | id :: ids' =>
      if is_done g id then write_rest g ids' out rem
      else write_rest (set_done g id) ids' (out ++ [id]) (rem - 1)
  end.

Fixpoint sort_loop (fuel : nat) (st : sorter) : outcome sorter :=
  if remaining st <=? 0 then Ret st
  else
    match fuel with
    | O => OutOfFuel
    | S f =>
        match pq_pop (heap st) with
        | None =>
            let! cycle := findCycle (gr st) in
            match cycle with
            | [] =>
                let '(g, o, r) :=
                  write_rest (gr st) (seq 0 (length (names (gr st)))) (out st) (remaining st) in
                Ret (Sorter g [] r 1 o (loops st))
            | v :: _ =>
                let u := List.last cycle 0%nat in
                let g := removeEdge (gr st) u v in
                let h := if (indeg g !!! v =? 0) then pq_push (heap st) v else heap st in
                sort_loop f (Sorter g h (remaining st) (cycles st + 1) (out st) (loops st ++ [cycle]))
            end
        | Some (id, h) =>
            let g := set_done (gr st) id in
            let '(g', h') := relax g h (succ g !!! id) in
            sort_loop f (Sorter g' h' (remaining st - 1) (cycles st) (out st ++ [id]) (loops st))
        end
    end.

(** A round writes a node or deletes an edge. *)
Definition edge_count (g : graph) : nat := sum_list (length <$> succ g).

Definition topoSort (g : graph) : outcome sorter :=
  let ready := filter (fun id => indeg g !!! id = 0) (seq 0 (length (names g))) in
  sort_loop (length (names g) + edge_count g)
    (Sorter g (pq_init ready) (len (names g)) 0 [] []).

End Sort.

(** Names are compared by a strict weak order, so the heap of the standard
    library serves. *)
#[global] Instance name_queue (nms : list (list Z)) : PriorityQueue (Less nms) :=
  ArrayHeap.queue (Less nms)
    (fun a b => str_ltb_asym (nms !!! a) (nms !!! b))
    (fun a b c => str_ltb_trans_neg (nms !!! a) (nms !!! b) (nms !!! c)).

(** ** The utility on standard input *)

Definition maxCycleExit : Z := 124.

Definition write_names (nms : list (list Z)) (l : list nat) : list Z :=
  concat ((fun id => (nms !!! id) ++ [10]) <$> l).

Definition write_loop (nms : list (list Z)) (l : list nat) : list Z :=
  str! "tsort: -: input contains a loop:" ++ 10 ::
  concat ((fun id => str! "tsort: " ++ (nms !!! id) ++ [10]) <$> l).

(** Standard output, standard error and the exit status. *)
Definition run (warn : bool) (data : list Z) : outcome (list Z * list Z * Z) :=
  match add_pairs newGraph (tokens data) with
  | (_, true) =>
      Ret ([], str! "tsort: -: input contains an odd number of tokens" ++ [10], 1)
  | (g, false) =>
      let! st := topoSort (names g) g in
      let code :=
        if cycles st =? 0 then 0
        else if warn then (if maxCycleExit <? cycles st then maxCycleExit else cycles st)
        else 1 in
      Ret (write_names (names g) (out st),
           concat (write_loop (names g) <$> loops st), code)
  end.

End Tsort.
