(* ===== verification/TsortCorrect.v ===== *)
(** * tsort is a topological sort

    The proofs about [Tsort]: the tokens are the words of the input, the
    graph is the relation of its pairs, the loop search finds a loop whenever
    the frontier stalls, and the sort writes every item once, in an order
    that respects all pairs but one per loop it reports. *)

From Stdlib Require Import ZArith Lia.
From stdpp Require Import base tactics list numbers gmap strings sorting.
From S2P Require Import Prelude Heap Tsort.

Module TsortCorrect.
Import Tsort.

#[local] Open Scope nat_scope.

Lemma fmap_rev {A B} (f : A -> B) (l : list A) : f <$> rev l = rev (f <$> l).
Proof. rewrite !rev_alt. apply fmap_reverse. Qed.

Lemma elem_of_rev {A} (x : A) (l : list A) : x ∈ rev l <-> x ∈ l.
Proof. rewrite rev_alt. apply elem_of_reverse. Qed.

(** ** Sums over the nodes *)

Definition sum_to (n : nat) (f : nat -> nat) : nat := sum_list (f <$> seq 0 n).

Lemma sum_to_S n f : sum_to (S n) f = sum_to n f + f n.
Proof.
  unfold sum_to. rewrite seq_S, fmap_app. cbn. induction (f <$> seq 0 n); cbn; lia.
Qed.

Lemma sum_to_ext n f g : (forall u, u < n -> f u = g u) -> sum_to n f = sum_to n g.
Proof.
  induction n as [|n IH]; intros E; [done|]. rewrite !sum_to_S, (E n) by lia.
  rewrite IH; [done|]. intros. apply E. lia.
Qed.

(** Changing one term. *)
Lemma sum_to_update n f g u :
  u < n -> (forall w, w < n -> w <> u -> g w = f w) -> sum_to n g + f u = sum_to n f + g u.
Proof.
  induction n as [|n IH]; intros Hu E; [lia|]. rewrite !sum_to_S.
  destruct (decide (u = n)) as [->|].
  - rewrite (sum_to_ext n g f); [lia|]. intros. apply E; lia.
  - rewrite (E n) by lia. assert (sum_to n g + f u = sum_to n f + g u); [|lia].
    apply IH; [lia|]. intros. apply E; lia.
Qed.

Lemma sum_to_zero n f : sum_to n f = 0 -> forall u, u < n -> f u = 0.
Proof.
  induction n as [|n IH]; intros E u Hu; [lia|]. rewrite sum_to_S in E.
  destruct (decide (u = n)) as [->|]; [lia|]. apply IH; lia.
Qed.

Lemma sum_to_pos n f : sum_to n f <> 0 -> exists u, u < n /\ f u <> 0.
Proof.
  induction n as [|n IH]; intros E; [done|]. rewrite sum_to_S in E.
  destruct (decide (f n = 0)).
  - destruct IH as (u & ? & ?); [lia|]. exists u. split; [lia|done].
  - exists n. split; [lia|done].
Qed.

(** Occurrences in a list. *)
Fixpoint cnt (v : nat) (l : list nat) : nat :=
  match l with
  | [] => 0
  | s :: l' => (if s =? v then 1 else 0) + cnt v l'
  end.

Lemma cnt_app v l k : cnt v (l ++ k) = cnt v l + cnt v k.
Proof. induction l; cbn; lia. Qed.

Lemma cnt_elem v l : cnt v l <> 0 <-> v ∈ l.
Proof.
  induction l as [|s l IH]; cbn; [by rewrite elem_of_nil|].
  rewrite elem_of_cons, <- IH. destruct (Nat.eqb_spec s v); naive_solver lia.
Qed.

Lemma cut_first_spec v l :
  v ∈ l -> exists l', cut_first v l = Some l' /\ l ≡ₚ v :: l' /\
    forall w, cnt w l = (if v =? w then 1 else 0) + cnt w l'.
Proof.
  induction l as [|s l IH]; [by intros ?%elem_of_nil|]. cbn [cut_first].
  destruct (Nat.eqb_spec s v) as [->|Hs]; [by exists l|].
  intros [->|Hv]%elem_of_cons; [done|]. destruct (IH Hv) as (l' & -> & Hp & Hc).
  exists (s :: l'). split_and!; [done|rewrite Hp; by constructor|].
  intros w. cbn. rewrite Hc. lia.
Qed.

(** ** Graphs *)

Definition size (g : graph) : nat := length (names g).

Record wf (g : graph) : Prop := Wf {
  wf_succ : length (succ g) = size g;
  wf_indeg : length (indeg g) = size g;
  wf_done : length (done g) = size g;
  wf_range : forall u v, v ∈ succ g !!! u -> v < size g
}.

Definition edges_of (u : nat) (l : list nat) : list (nat * nat) := (u,.) <$> l.

(** The edges of the graph, with their multiplicities. *)
Fixpoint edges_from (u : nat) (s : list (list nat)) : list (nat * nat) :=
  match s with
  | [] => []
  | l :: s' => edges_of u l ++ edges_from (S u) s'
  end.

Definition edges (g : graph) : list (nat * nat) := edges_from 0 (succ g).

Lemma edges_from_elem k s u v :
  (u, v) ∈ edges_from k s <-> k <= u < k + length s /\ v ∈ s !!! (u - k).
Proof.
  revert k; induction s as [|l s IH]; intros k; cbn [edges_from length].
  { split; [by intros ?%elem_of_nil|lia]. }
  rewrite elem_of_app, IH. unfold edges_of. rewrite list_elem_of_fmap.
  split.
  - intros [(? & [= -> ->] & ?)|[? ?]].
    + rewrite Nat.sub_diag. split; [lia|done].
    + destruct (u - k) eqn:E; [lia|]. replace n with (u - S k) by lia. split; [lia|done].
  - intros [? Hv]. destruct (u - k) eqn:E.
    + left. exists v. assert (u = k) as -> by lia. done.
    + right. split; [lia|]. by replace (u - S k) with n by lia.
Qed.

Lemma edges_elem g u v : (u, v) ∈ edges g <-> u < length (succ g) /\ v ∈ succ g !!! u.
Proof.
  unfold edges. rewrite edges_from_elem, Nat.sub_0_r. intuition lia.
Qed.

Lemma edges_from_insert k s i l l' x :
  s !! i = Some l -> l ≡ₚ x :: l' ->
  edges_from k s ≡ₚ (k + i, x) :: edges_from k (<[i := l']> s).
Proof.
  revert k i; induction s as [|l0 s IH]; intros k [|i]; cbn; try done.
  - intros [= ->] Hp. unfold edges_of. rewrite Hp, Nat.add_0_r. done.
  - intros Hi Hp. rewrite (IH (S k) i Hi Hp).
    replace (S k + i) with (k + S i) by lia. by rewrite Permutation_middle.
Qed.

Lemma edges_from_length k s : length (edges_from k s) = sum_list (length <$> s).
Proof.
  revert k; induction s as [|l s IH]; intros k; cbn; [done|].
  unfold edges_of. by rewrite length_app, length_fmap, IH.
Qed.

Lemma edge_count_edges g : edge_count g = length (edges g).
Proof. symmetry. apply edges_from_length. Qed.

(** The edges into [v] from the nodes not yet written. *)
Definition live_in (g : graph) (v : nat) : nat :=
  sum_to (size g) (fun u => if is_done g u then 0 else cnt v (succ g !!! u)).

Lemma live_in_zero g v u :
  live_in g v = 0 -> u < size g -> is_done g u = false -> v ∉ succ g !!! u.
Proof.
  intros H0 Hu Hd Hv%cnt_elem. apply (sum_to_zero _ _ H0) in Hu. by rewrite Hd in Hu.
Qed.

Lemma live_in_pos g v :
  live_in g v <> 0 -> exists u, u < size g /\ is_done g u = false /\ v ∈ succ g !!! u.
Proof.
  intros (u & Hu & Hn)%sum_to_pos. exists u. destruct (is_done g u) eqn:E; [done|].
  split_and!; [done..|]. by apply cnt_elem.
Qed.

Lemma removeEdge_spec g u v :
  wf g -> u < size g -> is_done g u = false -> v ∈ succ g !!! u ->
  let g' := removeEdge g u v in
  wf g' /\ names g' = names g /\ done g' = done g /\ ids g' = ids g /\
  edges g ≡ₚ (u, v) :: edges g' /\
  (forall w, live_in g w = (if v =? w then 1 else 0) + live_in g' w) /\
  (forall w, w < size g -> indeg g' !!! w = (indeg g !!! w - (if (v =? w)%nat then 1 else 0))%Z).
Proof.
  intros Hwf Hu Hd Hv. cbv zeta. unfold removeEdge.
  destruct (cut_first_spec v _ Hv) as (l & E & Hp & Hc). rewrite E.
  assert (Hlu : succ g !! u = Some (succ g !!! u)).
  { apply list_lookup_lookup_total_lt. by rewrite wf_succ. }
  assert (Hlv : v < size g) by (by eapply wf_range).
  split_and!; try done.
  - destruct Hwf as [W1 W2 W3 W4].
    split; unfold size in *; cbn; rewrite ?length_insert; try done.
    intros a b. destruct (decide (a = u)) as [->|].
    + rewrite list_lookup_total_insert_eq by lia. intros Hb. apply (W4 u).
      rewrite Hp. by right.
    + rewrite list_lookup_total_insert_ne by done. apply W4.
  - unfold edges. cbn [succ]. by rewrite (edges_from_insert 0 _ u _ l v Hlu Hp).
  - intros w. unfold live_in. unfold size. cbn [succ names].
    unfold is_done. cbn [done].
    pose proof (sum_to_update (length (names g))
      (fun u0 => if (done g !!! u0 : bool) then 0 else cnt w (succ g !!! u0))
      (fun u0 => if (done g !!! u0 : bool) then 0 else cnt w (<[u := l]> (succ g) !!! u0)) u Hu) as HS.
    cbv beta in HS. unfold is_done in Hd. rewrite Hd in HS.
    rewrite list_lookup_total_insert_eq in HS by (by rewrite wf_succ).
    rewrite Hc in HS. enough (forall z, z < length (names g) -> z <> u ->
      (if (done g !!! z : bool) then 0 else cnt w (<[u := l]> (succ g) !!! z)) =
      (if (done g !!! z : bool) then 0 else cnt w (succ g !!! z))) as Hz by (specialize (HS Hz); lia).
    intros z _ Hz. by rewrite list_lookup_total_insert_ne.
  - intros w Hw. cbn [indeg]. destruct (Nat.eqb_spec v w) as [->|].
    + by rewrite list_lookup_total_insert_eq by (by rewrite wf_indeg).
    + rewrite list_lookup_total_insert_ne by done. lia.
Qed.

(** ** Loops *)

(** A path, in edge direction, and a loop [c0 -> c1 -> ... -> cn -> c0]. *)
Fixpoint path {A} (E : A -> A -> Prop) (l : list A) : Prop :=
  match l with
  | a :: (b :: _) as l' => E a b /\ path E l'
  | _ => True
  end.

Definition is_cycle (E : nat -> nat -> Prop) (c : list nat) : Prop :=
  c <> [] /\ path E c /\ E (List.last c 0) (hd 0 c).

Lemma path_snoc {A} (E : A -> A -> Prop) l a b : path E (l ++ [a]) -> E a b -> path E ((l ++ [a]) ++ [b]).
Proof.
  induction l as [|x l IH]; [done|]. destruct l as [|y l]; cbn.
  - intros [??] ?. done.
  - intros [? H] ?. split; [done|]. by apply IH.
Qed.

Lemma path_suffix {A} (E : A -> A -> Prop) l k : path E (l ++ k) -> path E k.
Proof.
  induction l as [|x l IH]; [done|]. intros H. apply IH.
  destruct (l ++ k) eqn:Elk; [done|]. cbn in H. rewrite Elk in H. by destruct H.
Qed.

Lemma path_impl (E F : nat -> nat -> Prop) l :
  (forall a b, E a b -> F a b) -> path E l -> path F l.
Proof.
  intros HEF. induction l as [|a l IH]; [done|]. destruct l as [|b l]; [done|].
  intros [? H]. split; [by apply HEF|by apply IH].
Qed.

Lemma cycle_from_spec next stack :
  next ∈ (fst <$> stack) ->
  exists l k, (fst <$> stack) = l ++ next :: k /\ cycle_from next stack = next :: k.
Proof.
  induction stack as [|[id idx] stack IH]; [by intros ?%elem_of_nil|]. cbn.
  destruct (Nat.eqb_spec id next) as [->|Hne]; [by exists [], (fst <$> stack)|].
  intros [->|Hin]%elem_of_cons; [done|]. destruct (IH Hin) as (l & k & -> & ->).
  by exists (id :: l), k.
Qed.

Section Search.
Context (g : graph) (Hwf : wf g).

Definition live (u : nat) : Prop := u < size g /\ is_done g u = false.
Definition live_edge (u v : nat) : Prop := live u /\ live v /\ v ∈ succ g !!! u.

(** The finished nodes, the latest first: their live successors finished
    before them. *)
Inductive finished : list nat -> Prop :=
| finished_nil : finished []
| finished_cons u fin :
    live u -> u ∉ fin -> (forall v, live_edge u v -> v ∈ fin) ->
    finished fin -> finished (u :: fin).

(** What a frame has passed is finished, or is the frame above it. *)
Fixpoint frames_ok (fin : list nat) (above : option nat) (stack : list frame) : Prop :=
  match stack with
  | [] => True
  | (id, idx) :: below =>
      (forall v, v ∈ take idx (succ g !!! id) -> live v -> v ∈ fin \/ above = Some v) /\
      frames_ok fin (Some id) below
  end.

Record dfs (state : list color) (stack : list frame) (fin : list nat) : Prop := Dfs {
  dfs_length : length state = size g;
  dfs_path : path live_edge (rev (fst <$> stack));
  dfs_live : Forall live (fst <$> stack);
  dfs_nodup : NoDup (fst <$> stack);
  dfs_grey : forall u, u < size g -> state !!! u = grey <-> u ∈ (fst <$> stack);
  dfs_black : forall u, u < size g -> state !!! u = black <-> u ∈ fin;
  dfs_frames : frames_ok fin None stack;
  dfs_fin : finished fin
}.

Lemma finished_live fin u : finished fin -> u ∈ fin -> live u.
Proof. induction 1; [by intros ?%elem_of_nil|]. intros [->|]%elem_of_cons; auto. Qed.

Lemma finished_nodup fin : finished fin -> NoDup fin.
Proof. induction 1; by constructor. Qed.

(** An edge among finished nodes leads to a node that finished earlier. *)
Lemma finished_head u fin v : finished (u :: fin) -> v ∈ u :: fin -> ~ live_edge v u.
Proof.
  intros Hf. inversion_clear Hf as [|? ? Hu Hn Hs Hf']. intros [->|Hv]%elem_of_cons He.
  { apply Hn. by apply Hs. }
  clear Hs. induction Hf' as [|w fin Hw Hnw Hs _ IH]; [by apply elem_of_nil in Hv|].
  apply not_elem_of_cons in Hn as [? Hn]. apply elem_of_cons in Hv as [->|Hv]; [|by apply IH].
  apply Hn. by apply Hs.
Qed.

Lemma frames_ok_weaken fin fin' above stack :
  (forall v, v ∈ fin -> v ∈ fin') -> frames_ok fin above stack -> frames_ok fin' above stack.
Proof.
  intros Hsub. revert above; induction stack as [|[id idx] stack IH]; intros above; [done|].
  intros [H1 H2]. split; [|by apply IH]. intros v Hv Hl. destruct (H1 v Hv Hl); auto.
Qed.

(** The frame above the top is finished too. *)
Lemma frames_ok_pop fin id stack :
  frames_ok fin (Some id) stack -> frames_ok (id :: fin) None stack.
Proof.
  destruct stack as [|[i x] stack]; [done|]. intros [H1 H2]. split.
  - intros v Hv Hl. left. destruct (H1 v Hv Hl) as [|[= ->]]; [by right|by left].
  - eapply frames_ok_weaken; [|done]. by right.
Qed.

Lemma scan_succ_spec state rest idx :
  match scan_succ g state rest idx with
  | Exhausted => forall v, v ∈ rest -> is_done g v = true \/ state !!! v = black
  | BackEdge next => next ∈ rest /\ is_done g next = false /\ state !!! next = grey
  | Advance next idx' =>
      exists k, idx' = S (idx + k) /\ rest !! k = Some next /\ is_done g next = false /\
        state !!! next = white /\
        forall v, v ∈ take k rest -> is_done g v = true \/ state !!! v = black
  end.
Proof.
  revert idx; induction rest as [|s rest IH]; intros idx; cbn [scan_succ].
  { by intros v ?%elem_of_nil. }
  assert (Hskip : is_done g s = true \/ state !!! s = black ->
    match scan_succ g state rest (S idx) with
    | Exhausted => forall v, v ∈ s :: rest -> is_done g v = true \/ state !!! v = black
    | BackEdge next => next ∈ s :: rest /\ is_done g next = false /\ state !!! next = grey
    | Advance next idx' =>
        exists k, idx' = S (idx + k) /\ (s :: rest) !! k = Some next /\ is_done g next = false /\
          state !!! next = white /\
          forall v, v ∈ take k (s :: rest) -> is_done g v = true \/ state !!! v = black
    end).
  { intros Hs. specialize (IH (S idx)). destruct (scan_succ _ _ _ _).
    - intros v [->|]%elem_of_cons; auto.
    - destruct IH as (? & ? & ?). split_and!; [by right|done..].
    - destruct IH as (k & -> & ? & ? & ? & Hk). exists (S k). split_and!; [lia|done..|].
      cbn. intros v [->|]%elem_of_cons; auto. }
  destruct (is_done g s) eqn:Ed; [by apply Hskip; left|].
  destruct (state !!! s) eqn:Es; cbn beta iota;
    [|split_and!; [by left|done..]|by apply Hskip; right].
  exists 0. split_and!; [lia|done..|]. by intros v ?%elem_of_nil.
Qed.

Lemma dfs_top state id idx below fin :
  dfs state ((id, idx) :: below) fin -> live id /\ id ∉ (fst <$> below) /\ id ∉ fin.
Proof.
  intros D. pose proof (dfs_live _ _ _ D) as Hl. pose proof (dfs_nodup _ _ _ D) as Hn.
  cbn in Hl, Hn. apply Forall_cons in Hl as [Hl _]. apply NoDup_cons in Hn as [Hn _].
  split_and!; [done..|]. intros Hf. destruct Hl as [Hid _].
  apply (dfs_black _ _ _ D id Hid) in Hf.
  assert (state !!! id = grey) by (apply (dfs_grey _ _ _ D id Hid); by left). congruence.
Qed.

(** Pushing a white successor. *)
Lemma dfs_advance state id idx below fin next idx' :
  dfs state ((id, idx) :: below) fin ->
  scan_succ g state (drop idx (succ g !!! id)) idx = Advance next idx' ->
  dfs (<[next := grey]> state) ((next, 0) :: (id, idx') :: below) fin.
Proof.
  intros D E. pose proof (scan_succ_spec state (drop idx (succ g !!! id)) idx) as Hs.
  rewrite E in Hs. destruct Hs as (k & -> & Hk & Hd & Hw & Hpre).
  rewrite lookup_drop in Hk.
  assert (Hin : next ∈ succ g !!! id) by (by eapply list_elem_of_lookup_2).
  assert (Hlt : next < size g) by (by eapply wf_range).
  destruct (dfs_top _ _ _ _ _ D) as (Hid & _ & _).
  destruct D as [D1 D2 D3 D4 D5 D6 D7 D8]. cbn [fmap list_fmap fst rev] in *.
  assert (Hnew : next ∉ id :: (fst <$> below)) by (rewrite <- D5 by done; congruence).
  split; cbn [fmap list_fmap fst rev].
  - by rewrite length_insert.
  - apply path_snoc; [done|]. done.
  - constructor; done.
  - constructor; done.
  - intros u Hu. rewrite (elem_of_cons _ u next). destruct (decide (u = next)) as [->|].
    + rewrite list_lookup_total_insert_eq by lia. naive_solver.
    + rewrite list_lookup_total_insert_ne by done. rewrite D5 by done. naive_solver.
  - intros u Hu. destruct (decide (u = next)) as [->|].
    + rewrite list_lookup_total_insert_eq by lia. rewrite <- D6 by done. by rewrite Hw.
    + rewrite list_lookup_total_insert_ne by done. by apply D6.
  - destruct D7 as [D7 D7']. cbn [frames_ok].
    split_and!; [by intros v ?%elem_of_nil| |done].
    intros v Hv Hl. replace (S (idx + k)) with (idx + (k + 1)) in Hv by lia.
    rewrite <- take_take_drop in Hv.
    apply elem_of_app in Hv as [Hv|Hv].
    { destruct (D7 v Hv Hl); [by left|done]. }
    rewrite Nat.add_1_r, (take_S_r _ _ next) in Hv by (by rewrite lookup_drop).
    apply elem_of_app in Hv as [Hv|Hv%list_elem_of_singleton]; [|subst; by right].
    left. destruct Hl as [Hlv Hdv]. apply D6; [done|].
    destruct (Hpre v Hv); [congruence|done].
  - done.
Qed.

(** Popping a node all of whose successors are passed. *)
Lemma dfs_exhaust state id idx below fin :
  dfs state ((id, idx) :: below) fin ->
  scan_succ g state (drop idx (succ g !!! id)) idx = Exhausted ->
  dfs (<[id := black]> state) below (id :: fin).
Proof.
  intros D E. pose proof (scan_succ_spec state (drop idx (succ g !!! id)) idx) as Hs.
  rewrite E in Hs. destruct (dfs_top _ _ _ _ _ D) as (Hid & Hnb & Hnf).
  destruct D as [D1 D2 D3 D4 D5 D6 D7 D8]. cbn [fmap list_fmap fst rev] in *.
  pose proof Hid as [Hlt _].
  split.
  - by rewrite length_insert.
  - clear -D2. destruct (rev (fst <$> below)) as [|x l] using rev_ind; [done|].
    clear IHl. revert D2. induction l as [|y l IH]; [done|]. destruct l; cbn; naive_solver.
  - by apply Forall_cons in D3 as [_ ?].
  - by apply NoDup_cons in D4 as [_ ?].
  - intros u Hu. destruct (decide (u = id)) as [->|].
    + rewrite list_lookup_total_insert_eq by lia. naive_solver.
    + rewrite list_lookup_total_insert_ne by done. rewrite D5 by done.
      rewrite elem_of_cons. naive_solver.
  - intros u Hu. rewrite elem_of_cons. destruct (decide (u = id)) as [->|].
    + rewrite list_lookup_total_insert_eq by lia. naive_solver.
    + rewrite list_lookup_total_insert_ne by done. rewrite D6 by done. naive_solver.
  - destruct D7 as [_ D7]. by apply frames_ok_pop.
  - constructor; [done..| |done]. intros v (_ & Hl & Hv).
    rewrite <- (take_drop idx (succ g !!! id)) in Hv. apply elem_of_app in Hv as [Hv|Hv].
    + destruct D7 as [D7 _]. by destruct (D7 v Hv Hl).
    + destruct Hl as [Hlv Hdv]. apply D6; [done|]. destruct (Hs v Hv); [congruence|done].
Qed.

Lemma dfs_bound state stack fin :
  dfs state stack fin -> length fin + length stack <= size g.
Proof.
  intros D. assert (length stack = length (fst <$> stack)) as -> by (by rewrite length_fmap).
  rewrite <- length_app.
  rewrite <- (length_seq (size g) 0). apply submseteq_length, NoDup_submseteq.
  - apply NoDup_app. split_and!; [by eapply finished_nodup, dfs_fin| |by eapply dfs_nodup].
    intros u Hf Hs. assert (Hu : u < size g) by (by eapply finished_live; [eapply dfs_fin|]).
    apply (dfs_black _ _ _ D u Hu) in Hf. apply (dfs_grey _ _ _ D u Hu) in Hs. congruence.
  - intros u Hu. apply elem_of_seq. apply elem_of_app in Hu as [Hu|Hu].
    + pose proof (finished_live _ _ (dfs_fin _ _ _ D) Hu) as [? _]. lia.
    + pose proof (dfs_live _ _ _ D) as Hl. rewrite Forall_forall in Hl.
      destruct (Hl u Hu). lia.
Qed.

Lemma visit_spec fuel state stack fin :
  dfs state stack fin -> 2 * size g <= fuel + 2 * length fin + length stack ->
  (exists c, visit fuel g state stack = Ret (Cycle c) /\ is_cycle live_edge c) \/
  (exists state' fin', visit fuel g state stack = Ret (Finished state') /\ dfs state' [] fin' /\
     forall u, u ∈ fin \/ u ∈ (fst <$> stack) -> u ∈ fin').
Proof.
  revert state stack fin; induction fuel as [|f IH]; intros state stack fin D Hf.
  all: destruct stack as [|[id idx] below];
    [right; exists state, fin; split_and!; [done..|by intros u [?| ?%elem_of_nil]]|].
  { pose proof (dfs_bound _ _ _ D) as Hb. cbn in Hb, Hf. lia. }
  cbn [visit]. destruct (scan_succ _ _ _ _) as [|next|next idx'] eqn:E.
  - destruct (IH _ _ _ (dfs_exhaust _ _ _ _ _ D E)) as [?|(s' & fin' & -> & D' & Hsub)];
      [cbn in *; lia|by left|].
    right. exists s', fin'. split_and!; [done..|]. intros u.
    rewrite fmap_cons, elem_of_cons. intros Hu. apply Hsub. rewrite elem_of_cons. naive_solver.
  - left. eexists. split; [done|].
    pose proof (scan_succ_spec state (drop idx (succ g !!! id)) idx) as Hs. rewrite E in Hs.
    destruct Hs as (Hn & Hd & Hg).
    assert (Hin : next ∈ succ g !!! id).
    { rewrite <- (take_drop idx (succ g !!! id)). apply elem_of_app. by right. }
    assert (Hlt : next < size g) by (by eapply wf_range).
    destruct (dfs_top _ _ _ _ _ D) as (Hid & _ & _).
    apply (dfs_grey _ _ _ D next Hlt) in Hg.
    destruct (cycle_from_spec next (rev ((id, idx) :: below))) as (l & k & El & Ec).
    { by rewrite fmap_rev, elem_of_rev. }
    pose proof (dfs_path _ _ _ D) as Hp. rewrite <- fmap_rev, El in Hp.
    rewrite Ec.
    split_and!; [done|by eapply path_suffix|]. cbn [hd].
    enough (List.last (next :: k) 0 = id) as -> by done.
    enough (Hl : List.last (l ++ next :: k) 0 = id).
    { rewrite <- Hl. clear. induction l as [|x l IH]; [done|]. rewrite IH. cbn. by destruct l. }
    rewrite <- El, fmap_rev. apply last_last.
  - destruct (IH _ _ _ (dfs_advance _ _ _ _ _ _ _ D E)) as [?|(s' & fin' & -> & D' & Hsub)];
      [cbn in *; lia|by left|].
    right. exists s', fin'. split_and!; [done..|]. intros u Hu. apply Hsub.
    rewrite !fmap_cons, !elem_of_cons in *. naive_solver.
Qed.

Lemma dfs_start state fin start :
  dfs state [] fin -> live start -> state !!! start = white ->
  dfs (<[start := grey]> state) [(start, 0)] fin.
Proof.
  intros [D1 D2 D3 D4 D5 D6 D7 D8] Hl Hw. pose proof Hl as [Hlt _].
  split; cbn [fmap list_fmap fst rev frames_ok] in *.
  - by rewrite length_insert.
  - done.
  - by constructor.
  - apply NoDup_singleton.
  - intros u Hu. rewrite list_elem_of_singleton. destruct (decide (u = start)) as [->|].
    + rewrite list_lookup_total_insert_eq by lia. done.
    + rewrite list_lookup_total_insert_ne by done. rewrite D5 by done.
      rewrite elem_of_nil. naive_solver.
  - intros u Hu. destruct (decide (u = start)) as [->|].
    + rewrite list_lookup_total_insert_eq by lia. rewrite <- D6 by done. by rewrite Hw.
    + rewrite list_lookup_total_insert_ne by done. by apply D6.
  - split; [by intros v ?%elem_of_nil|done].
  - done.
Qed.

(** What the search from the remaining starts gives, the nodes of [fin] being
    finished. *)
Definition search_post (fin starts : list nat) (r : outcome (list nat)) : Prop :=
  exists c, r = Ret c /\
    (is_cycle live_edge c \/
     c = [] /\ exists fin', finished fin' /\ (forall u, u ∈ fin -> u ∈ fin') /\
       forall s, s ∈ starts -> live s -> s ∈ fin').

Lemma search_post_skip fin fin' start starts r :
  (live start -> start ∈ fin') -> (forall u, u ∈ fin -> u ∈ fin') ->
  search_post fin' starts r -> search_post fin (start :: starts) r.
Proof.
  intros Hs Hf (c & -> & H). exists c. split; [done|].
  destruct H as [|(-> & fin2 & ? & Hsub & Hst)]; [by left|]. right. split; [done|].
  exists fin2. split_and!; [done|auto|]. intros s [->|]%elem_of_cons; auto.
Qed.

Lemma search_from_spec state fin starts :
  dfs state [] fin -> Forall (fun s => s < size g) starts ->
  search_post fin starts (search_from g state starts).
Proof.
  revert state fin; induction starts as [|start rest IH]; intros state fin D Hst; cbn [search_from].
  { exists []. split; [done|]. right. split; [done|]. exists fin.
    split_and!; [by eapply dfs_fin|done|by intros s ?%elem_of_nil]. }
  apply Forall_cons in Hst as [Hs Hst].
  destruct (is_done g start) eqn:Ed.
  { apply (search_post_skip _ fin); [by intros [_ ?]; congruence|done|by eapply IH]. }
  destruct (state !!! start) eqn:Ec.
  - destruct (visit_spec (2 * size g + 1) _ _ _ (dfs_start _ _ _ D (conj Hs Ed) Ec))
      as [(c & Ev & Hc)|(state' & fin' & Ev & D' & Hsub)]; [lia| |];
      unfold size in Ev; rewrite Ev; cbn [bind].
    + exists c. split; [done|by left].
    + apply (search_post_skip _ fin'); [|by intros; apply Hsub; left|by eapply IH].
      intros _. apply Hsub. right. by left.
  - apply (dfs_grey _ _ _ D start Hs), elem_of_nil in Ec. done.
  - apply (search_post_skip _ fin); [|done|by eapply IH].
    intros _. by apply (dfs_black _ _ _ D start Hs).
Qed.

Lemma findCycle_spec :
  exists c, findCycle g = Ret c /\
    (is_cycle live_edge c \/
     c = [] /\ exists fin, finished fin /\ forall s, live s -> s ∈ fin).
Proof.
  destruct (search_from_spec (replicate (size g) white) [] (seq 0 (size g)))
    as (c & E & H).
  - split; cbn; try done.
    + apply length_replicate.
    + constructor.
    + intros u Hu. rewrite lookup_total_replicate_2 by done. by rewrite elem_of_nil.
    + intros u Hu. rewrite lookup_total_replicate_2 by done. by rewrite elem_of_nil.
    + constructor.
  - apply Forall_forall. intros s ?%elem_of_seq. lia.
  - exists c. split; [done|]. destruct H as [|(-> & fin & ? & _ & Hs)]; [by left|].
    right. split; [done|]. exists fin. split; [done|]. intros s Hl. apply Hs; [|done].
    apply elem_of_seq. destruct Hl. lia.
Qed.

(** When every node left has a predecessor left, the search finds a loop:
    the branch that gives up is never taken. *)
Lemma findCycle_stalled :
  (exists v, live v) -> (forall v, live v -> exists u, live_edge u v) ->
  exists c, findCycle g = Ret c /\ is_cycle live_edge c.
Proof.
  intros [v0 Hv0] Hpred. destruct findCycle_spec as (c & E & [|(-> & fin & Hf & Hall)]).
  { by exists c. }
  exfalso. destruct fin as [|u fin]; [by apply Hall, elem_of_nil in Hv0|].
  destruct (Hpred u) as [w Hw]; [by eapply finished_live; [|left]|].
  apply (finished_head u fin w Hf); [|done]. apply Hall. by destruct Hw.
Qed.

End Search.

(** ** The sort *)

Section Main.
Context (g0 : graph) (Hwf0 : wf g0).
Context {PQ : PriorityQueue (Less (names g0))}.

(** Between the rounds, and ([pending] non-empty) while the successors of the
    node just written are relaxed. *)
Record frontier (g : graph) (h : list nat) (pending : list nat) : Prop := Frontier {
  fr_wf : wf g;
  fr_indeg : forall v, live g v -> indeg g !!! v = Z.of_nat (live_in g v + cnt v pending);
  fr_ok : pq_ok h;
  fr_nodup : NoDup h;
  fr_heap : forall v, v ∈ h <-> live g v /\ indeg g !!! v = 0%Z;
  fr_pending : Forall (fun v => v < size g) pending
}.

Definition same_shape (g g' : graph) : Prop :=
  succ g' = succ g /\ names g' = names g /\ done g' = done g.

Lemma same_shape_live g g' v : same_shape g g' -> live g' v <-> live g v.
Proof. intros (E1 & E2 & E3). unfold live, size, is_done. by rewrite E2, E3. Qed.

Lemma same_shape_live_in g g' v : same_shape g g' -> live_in g' v = live_in g v.
Proof.
  intros (E1 & E2 & E3). unfold live_in, size, is_done. by rewrite E1, E2, E3.
Qed.

Lemma frontier_dec g h s l :
  frontier g h (s :: l) -> is_done g s = false ->
  let g' := dec_indeg g s in
  frontier g' (if (indeg g' !!! s =? 0)%Z then pq_push h s else h) l.
Proof.
  intros [F1 F2 F3 F4 F5 F6] Hd. cbv zeta.
  apply Forall_cons in F6 as [Hs Hl].
  set (g' := dec_indeg g s).
  assert (Hsh : same_shape g g') by done.
  assert (His : indeg g' !!! s = Z.of_nat (live_in g s + cnt s l)).
  { unfold g', dec_indeg. cbn [indeg].
    rewrite list_lookup_total_insert_eq by (by rewrite wf_indeg).
    rewrite (F2 s) by done. cbn. rewrite Nat.eqb_refl. lia. }
  assert (Hio : forall v, v <> s -> indeg g' !!! v = indeg g !!! v).
  { intros v Hv. unfold g', dec_indeg. cbn [indeg]. by rewrite list_lookup_total_insert_ne. }
  assert (Hnh : s ∉ h).
  { rewrite F5, (F2 s) by done. cbn. rewrite Nat.eqb_refl. intros [_ ?]. lia. }
  assert (Hwf' : wf g').
  { destruct F1 as [W1 W2 W3 W4]. split; unfold size in *; cbn; by rewrite ?length_insert. }
  assert (Hin : forall v, live g' v -> indeg g' !!! v = Z.of_nat (live_in g' v + cnt v l)).
  { intros v Hv. rewrite (same_shape_live_in g) by done. destruct (decide (v = s)) as [->|]; [done|].
    rewrite Hio, F2 by done. cbn. destruct (Nat.eqb_spec s v); [congruence|done]. }
  destruct (Z.eqb_spec (indeg g' !!! s) 0) as [E|E].
  - destruct (pq_push_spec h s F3) as [Hok Hp].
    split; [done..|by rewrite Hp; constructor| |done].
    intros v. rewrite Hp, elem_of_cons, F5, (same_shape_live g g') by done.
    destruct (decide (v = s)) as [->|]; [by split; [|left]|]. rewrite Hio by done.
    by split; [intros [?|?]|right].
  - split; [done..| |done]. intros v. rewrite F5, (same_shape_live g g') by done.
    destruct (decide (v = s)) as [->|]; [|by rewrite Hio].
    split; [|by intros [_ ?]]. intros Hx. exfalso. apply Hnh, F5, Hx.
Qed.

Lemma relax_spec g h l g' h' :
  frontier g h l -> relax (names g0) g h l = (g', h') -> frontier g' h' [] /\ same_shape g g'.
Proof.
  revert g h; induction l as [|s l IH]; intros g h F; cbn [relax]; [by intros [= <- <-]|].
  destruct (is_done g s) eqn:Ed.
  - apply IH. destruct F as [F1 F2 F3 F4 F5 F6]. apply Forall_cons in F6 as [_ F6].
    split; try done. intros v Hv. rewrite F2 by done. cbn.
    destruct (Nat.eqb_spec s v) as [->|]; [|done]. destruct Hv. congruence.
  - intros E. apply frontier_dec in F; [|done]. by destruct (IH _ _ F E) as [? Hsh].
Qed.

Lemma relax_succ g h l : succ (fst (relax (names g0) g h l)) = succ g.
Proof.
  revert g h; induction l as [|s l IH]; intros g h; cbn [relax]; [done|].
  destruct (is_done g s); by rewrite IH.
Qed.

(** Writing a ready node. *)
Lemma set_done_spec g id :
  wf g -> live g id ->
  let g' := set_done g id in
  wf g' /\ (forall v, live g' v <-> live g v /\ v <> id) /\
  (forall v, live_in g v = live_in g' v + cnt v (succ g !!! id)).
Proof.
  intros Hwf [Hid Hd]. cbv zeta. split_and!.
  - destruct Hwf as [W1 W2 W3 W4]. split; unfold size in *; cbn; by rewrite ?length_insert.
  - intros v. unfold live, size, is_done. cbn [names set_done done].
    destruct (decide (v = id)) as [->|].
    + rewrite list_lookup_total_insert_eq by (by rewrite wf_done). naive_solver.
    + rewrite list_lookup_total_insert_ne by done. naive_solver.
  - intros v. unfold live_in, size. cbn [names set_done succ].
    pose proof (sum_to_update (length (names g))
      (fun u => if is_done g u then 0 else cnt v (succ g !!! u))
      (fun u => if is_done (set_done g id) u then 0 else cnt v (succ g !!! u)) id Hid) as HS.
    assert (Hd' : is_done (set_done g id) id = true).
    { unfold is_done. cbn [done set_done].
      by rewrite list_lookup_total_insert_eq by (by rewrite wf_done). }
    cbv beta in HS. rewrite Hd, Hd' in HS.
    enough (forall w, w < length (names g) -> w <> id ->
      (if is_done (set_done g id) w then 0 else cnt v (succ g !!! w)) =
      (if is_done g w then 0 else cnt v (succ g !!! w))) as Hw by (specialize (HS Hw); lia).
    intros w _ Hw. unfold is_done, set_done. cbn [done].
    by rewrite list_lookup_total_insert_ne.
Qed.

(** Every edge leads from an earlier node of [l] to a later one. *)
Definition respects (s : list (list nat)) (l : list nat) : Prop :=
  forall l1 v l2, l = l1 ++ v :: l2 -> forall u, v ∈ s !!! u -> u ∈ l1.

(** Each node of [l] is the first by name among those whose predecessors all
    come before it. *)
Definition greedy (l : list nat) : Prop :=
  forall l1 x l2 y, l = l1 ++ x :: l2 -> y < size g0 -> y ∉ l1 ->
    (forall u, (u, y) ∈ edges g0 -> u ∈ l1) -> Less (names g0) y x = false.

Record sorting (st : sorter) (removed : list (nat * nat)) : Prop := Sorting {
  so_frontier : frontier (gr st) (heap st) [];
  so_names : names (gr st) = names g0;
  so_remaining : remaining st = (Z.of_nat (size g0) - Z.of_nat (length (out st)))%Z;
  so_out_nodup : NoDup (out st);
  so_out : forall u, u ∈ out st <-> u < size g0 /\ is_done (gr st) u = true;
  so_order : respects (succ (gr st)) (out st);
  so_greedy : greedy (out st);
  so_edges : edges g0 ≡ₚ removed ++ edges (gr st);
  so_cycles : cycles st = Z.of_nat (length (loops st));
  so_loops : Forall (is_cycle (fun u v => (u, v) ∈ edges g0)) (loops st);
  so_closing : Forall2 (fun e c => e = (List.last c 0, hd 0 c)) removed (loops st)
}.

Lemma snoc_split (l l1 l2 : list nat) (x v : nat) :
  l ++ [x] = l1 ++ v :: l2 -> (l1 = l /\ v = x) \/ exists l2', l = l1 ++ v :: l2'.
Proof.
  destruct l2 as [|y l2 _] using rev_ind.
  - intros [-> [= ->]]%app_inj_tail. by left.
  - rewrite app_comm_cons, app_assoc. intros [-> _]%app_inj_tail. right. by exists l2.
Qed.

(** In a ready node's past are all its predecessors. *)
Lemma ready_preds st removed id u :
  sorting st removed -> live (gr st) id -> indeg (gr st) !!! id = 0%Z ->
  id ∈ succ (gr st) !!! u -> u ∈ out st.
Proof.
  intros S Hl Hi Hu. pose proof (so_frontier _ _ S) as F.
  rewrite (fr_indeg _ _ _ F id Hl) in Hi.
  destruct (decide (u < size (gr st))) as [Hlt|Hge].
  - apply (so_out _ _ S). unfold size in *. rewrite <- (so_names _ _ S). split; [done|].
    destruct (is_done (gr st) u) eqn:E; [done|].
    exfalso. apply (live_in_zero (gr st) id u); [lia|done..].
  - rewrite list_lookup_total_alt, (lookup_ge_None_2 (succ (gr st))) in Hu
      by (rewrite wf_succ by apply F; lia). by apply elem_of_nil in Hu.
Qed.

Lemma sorting_pop st removed id h g' h' :
  sorting st removed -> pq_pop (heap st) = Some (id, h) ->
  relax (names g0) (set_done (gr st) id) h (succ (set_done (gr st) id) !!! id) = (g', h') ->
  sorting (Sorter g' h' (remaining st - 1) (cycles st) (out st ++ [id]) (loops st)) removed.
Proof.
  intros S Epop Erel. pose proof (so_frontier _ _ S) as F.
  assert (Hne : heap st <> []) by (intros E; rewrite E, pq_pop_empty in Epop; done).
  destruct (pq_pop_spec (heap st) (fr_ok _ _ _ F) Hne) as (x & hx & E & Hperm & Hokh & Hmin).
  rewrite Epop in E. injection E as <- <-.
  assert (Hid : id ∈ heap st) by (rewrite Hperm; by left).
  apply (fr_heap _ _ _ F) in Hid as [Hl Hi0].
  pose proof (fr_nodup _ _ _ F) as Hnd. rewrite Hperm in Hnd. apply NoDup_cons in Hnd as [Hnid Hnd].
  destruct (set_done_spec (gr st) id (fr_wf _ _ _ F) Hl) as (Hwf' & Hlive' & Hin').
  pose proof (ready_preds st removed id) as Hpreds.
  assert (F' : frontier (set_done (gr st) id) h (succ (set_done (gr st) id) !!! id)).
  { split; [done| |done|done| |].
    - intros v Hv. cbn [indeg set_done succ]. rewrite (fr_indeg _ _ _ F), Hin' by (by apply Hlive').
      cbn. lia.
    - intros v. rewrite Hlive'. cbn [indeg set_done]. 
      transitivity (v ∈ heap st /\ v <> id).
      + rewrite Hperm, elem_of_cons. split; [|by intros [[->|?] ?]].
        intros Hv. split; [by right|]. by intros ->.
      + rewrite (fr_heap _ _ _ F). tauto.
    - apply Forall_forall. intros v Hv. by eapply wf_range. }
  destruct (relax_spec _ _ _ _ _ F' Erel) as [F2 (E1 & E2 & E3)].
  cbn [set_done succ names done] in E1, E2, E3.
  destruct Hl as [Hlt Hd]. assert (Hlt0 : id < size g0).
  { unfold size in *. by rewrite <- (so_names _ _ S). }
  assert (Hnout : id ∉ out st) by (rewrite (so_out _ _ S); intros [_ ?]; congruence).
  destruct S as [S1 S2 S3 S4 S5 S6 S7 S8 S9 S10 S11]. split; cbn; try done.
  - by rewrite E2.
  - rewrite length_app. cbn. lia.
  - apply NoDup_app. split_and!; [done| |apply NoDup_singleton].
    intros u Hu ->%list_elem_of_singleton. done.
  - intros u. rewrite elem_of_app, list_elem_of_singleton, S5. unfold is_done. rewrite E3.
    destruct (decide (u = id)) as [->|].
    + rewrite list_lookup_total_insert_eq by (rewrite wf_done by apply F; done). tauto.
    + rewrite list_lookup_total_insert_ne by done. tauto.
  - rewrite E1. intros l1 v l2 [[-> ->]|[l2' E]]%snoc_split u Hu; [|by eapply S6].
    by eapply Hpreds.
  - intros l1 y l2 w [[-> ->]|[l2' E]]%snoc_split Hw Hnw Hpre; [|by eapply S7].
    destruct (decide (w = id)) as [->|Hne']; [by apply str_ltb_irrefl|].
    apply Hmin. assert (Hw' : w ∈ heap st); [|rewrite Hperm in Hw'; by apply elem_of_cons in Hw' as [|]].
    assert (Hlw : live (gr st) w).
    { split; [unfold size in *; by rewrite S2|]. destruct (is_done (gr st) w) eqn:Ew; [|done].
      exfalso. apply Hnw, S5. done. }
    apply (fr_heap _ _ _ F). split; [done|]. rewrite (fr_indeg _ _ _ F w Hlw). cbn.
    destruct (decide (live_in (gr st) w = 0)) as [->|(u & Hu & Hdu & Hwu)%live_in_pos]; [done|].
    exfalso. assert (Huo : u ∈ out st).
    { apply Hpre. rewrite S8. apply elem_of_app. right. apply edges_elem.
      split; [by rewrite wf_succ by apply F|done]. }
    apply S5 in Huo as [_ ?]. congruence.
  - by unfold edges; rewrite E1.
Qed.

(** A stalled frontier has a loop. *)
Lemma sorting_stalled st removed :
  sorting st removed -> (0 < remaining st)%Z -> pq_pop (heap st) = None ->
  heap st = [] /\ exists c, findCycle (gr st) = Ret c /\ is_cycle (live_edge (gr st)) c.
Proof.
  intros S Hrem Epop. pose proof (so_frontier _ _ S) as F.
  assert (Hempty : heap st = []).
  { destruct (decide (heap st = [])) as [|Hne]; [done|].
    destruct (pq_pop_spec _ (fr_ok _ _ _ F) Hne) as (? & ? & E & _). congruence. }
  split; [done|]. apply findCycle_stalled; [apply F| |].
  - destruct (decide (Forall (fun u => is_done (gr st) u = true) (seq 0 (size g0)))) as [Hall|Hex].
    + exfalso. rewrite (so_remaining _ _ S) in Hrem.
      assert (size g0 <= length (out st)); [|lia].
      rewrite <- (length_seq (size g0) 0) at 1.
      apply submseteq_length, NoDup_submseteq; [apply NoDup_seq|].
      intros u Hu. rewrite Forall_forall in Hall. apply (so_out _ _ S).
      apply elem_of_seq in Hu as Hu'. split; [lia|by apply Hall].
    + apply not_Forall_Exists, Exists_exists in Hex as (u & Hu%elem_of_seq & Hnd); [|intros ?; apply _].
      exists u. split; [unfold size in *; rewrite (so_names _ _ S); lia|].
      by apply not_true_is_false.
  - intros v Hv. destruct (live_in_pos (gr st) v) as (u & Hu & Hd & Hin).
    + intros E0. assert (v ∈ heap st); [|by rewrite Hempty, elem_of_nil in *].
      apply (fr_heap _ _ _ F). split; [done|]. rewrite (fr_indeg _ _ _ F v Hv), E0. done.
    + by exists u.
Qed.

Lemma sorting_break st removed v c :
  sorting st removed -> heap st = [] -> is_cycle (live_edge (gr st)) (v :: c) ->
  let u := List.last (v :: c) 0 in
  let g := removeEdge (gr st) u v in
  let h := if (indeg g !!! v =? 0)%Z then pq_push (heap st) v else heap st in
  edges (gr st) ≡ₚ (u, v) :: edges g /\
  sorting (Sorter g h (remaining st) (cycles st + 1) (out st) (loops st ++ [v :: c]))
    (removed ++ [(u, v)]).
Proof.
  intros S Hempty Hc. cbv zeta. pose proof (so_frontier _ _ S) as F.
  destruct Hc as (_ & Hpath & Hclose). cbn [hd] in Hclose.
  set (u := List.last (v :: c) 0) in *. destruct Hclose as (Hlu & Hlv & Hin).
  destruct (removeEdge_spec (gr st) u v (fr_wf _ _ _ F) (proj1 Hlu) (proj2 Hlu) Hin)
    as (Hwf' & En & Ed & _ & Hedges & Hlive & Hindeg).
  set (g := removeEdge (gr st) u v) in *. split; [done|].
  assert (Hll : forall w, live g w <-> live (gr st) w).
  { intros w. unfold live, size, is_done. by rewrite En, Ed. }
  assert (Hnew : forall w, live g w -> indeg g !!! w = Z.of_nat (live_in g w + cnt w [])).
  { intros w Hw. apply Hll in Hw. rewrite Hindeg by apply Hw. rewrite (fr_indeg _ _ _ F w Hw), Hlive.
    cbn. destruct (v =? w); lia. }
  assert (Hother : forall w, live g w -> indeg g !!! w = 0%Z -> w = v).
  { intros w Hw E0. destruct (decide (w = v)); [done|]. exfalso. apply Hll in Hw.
    assert (w ∈ heap st); [|by rewrite Hempty, elem_of_nil in *].
    apply (fr_heap _ _ _ F). split; [done|]. rewrite Hindeg in E0 by apply Hw.
    destruct (Nat.eqb_spec v w); [congruence|lia]. }
  assert (Hsub : forall a b, live_edge (gr st) a b -> (a, b) ∈ edges g0).
  { intros a b ([Ha _] & _ & Hab). rewrite (so_edges _ _ S), elem_of_app. right.
    apply edges_elem. split; [by rewrite wf_succ by apply F|done]. }
  destruct S as [S1 S2 S3 S4 S5 S6 S7 S8 S9 S10 S11]. split; cbn; try done.
  - destruct (Z.eqb_spec (indeg g !!! v) 0) as [E0|E0].
    + destruct (pq_push_spec (heap st) v (fr_ok _ _ _ F)) as [Hok Hp].
      rewrite Hempty in Hp at 2.
      split; [done..|by rewrite Hp; apply NoDup_singleton| |constructor].
      intros w. rewrite Hp, list_elem_of_singleton. split; [|by intros [? ?]; apply Hother].
      intros ->. by rewrite Hll.
    + split; [done..|apply F|apply F| |constructor]. rewrite Hempty. intros w.
      rewrite elem_of_nil. split; [done|]. intros [Hw Hz]. rewrite <- (Hother w Hw Hz) in E0. done.
  - by rewrite En.
  - intros w. unfold is_done. rewrite Ed. apply S5.
  - intros l1 w l2 E x Hx. apply (S6 l1 w l2 E x).
    destruct (decide (x < length (succ g))) as [Hxl|Hxl].
    + assert (He : (x, w) ∈ edges (gr st)); [|by apply edges_elem in He as [_ ?]].
      rewrite Hedges. right. by apply edges_elem.
    + rewrite list_lookup_total_alt, (lookup_ge_None_2 (succ g)) in Hx by lia.
      by apply elem_of_nil in Hx.
  - rewrite S8, Hedges. by rewrite <- app_assoc.
  - rewrite length_app. cbn. lia.
  - apply Forall_app. split; [done|]. constructor; [|done]. split_and!; [done| |].
    + by eapply path_impl.
    + apply Hsub. done.
  - apply Forall2_app; [done|]. by constructor.
Qed.

Lemma sort_loop_spec fuel st removed :
  sorting st removed -> (remaining st + Z.of_nat (length (edges (gr st))) <= Z.of_nat fuel)%Z ->
  exists st' removed', sort_loop (names g0) fuel st = Ret st' /\ sorting st' removed' /\
    remaining st' = 0%Z.
Proof.
  revert st removed; induction fuel as [|f IH]; intros st removed S Hf; cbn [sort_loop].
  all: destruct (Z.leb_spec (remaining st) 0) as [Hr|Hr].
  all: try (exists st, removed; split_and!; [done..|];
    assert (length (out st) <= size g0); [|rewrite (so_remaining _ _ S) in *; lia];
    rewrite <- (length_seq (size g0) 0); apply submseteq_length, NoDup_submseteq;
      [apply S|]; intros u Hu%(so_out _ _ S); apply elem_of_seq; lia).
  { lia. }
  destruct (pq_pop (heap st)) as [[id h]|] eqn:Epop.
  - destruct (relax _ _ _ _) as [g' h'] eqn:Erel.
    pose proof (sorting_pop _ _ _ _ _ _ S Epop Erel) as S'. apply (IH _ _ S').
    cbn. assert (edges g' = edges (gr st)) as ->; [|lia].
    unfold edges. f_equal. replace g' with (fst (g', h')) by done. rewrite <- Erel.
    by rewrite relax_succ.
  - destruct (sorting_stalled _ _ S Hr Epop) as (Hempty & c & -> & Hc). cbn [bind].
    destruct c as [|v c]; [by destruct Hc|].
    destruct (sorting_break _ _ _ _ S Hempty Hc) as [Hperm S'].
    apply (IH _ _ S'). cbn [remaining gr]. rewrite Hperm in Hf. cbn [length] in Hf. lia.
Qed.

(** What the graph is before the sort. *)
Definition fresh : Prop :=
  (forall u, u < size g0 -> is_done g0 u = false) /\
  (forall v, v < size g0 -> indeg g0 !!! v = Z.of_nat (live_in g0 v)).

Lemma topoSort_spec :
  fresh -> exists st removed, topoSort (names g0) g0 = Ret st /\ sorting st removed /\
    remaining st = 0%Z.
Proof.
  intros [Hd Hi]. unfold topoSort.
  set (ready := filter _ _). destruct (pq_init_spec ready) as [Hok Hp].
  apply (sort_loop_spec _ _ []).
  - split; cbn; try done.
    + split; [done| |done| | |constructor].
      * intros v [Hv _]. cbn. rewrite Hi by done. by rewrite Nat.add_0_r.
      * rewrite Hp. apply NoDup_filter, NoDup_seq.
      * intros v. rewrite Hp. unfold ready. rewrite list_elem_of_filter, elem_of_seq.
        unfold live, size. split; [|naive_solver lia]. intros [? ?].
        split; [split; [lia|apply Hd; unfold size; lia]|done].
    + unfold len, size. lia.
    + constructor.
    + intros u. rewrite elem_of_nil. split; [done|]. intros [Hu E]. by rewrite Hd in E.
    + intros [] ???; done.
    + intros [] ????; done.
  - cbn. unfold len, size. rewrite edge_count_edges. lia.
Qed.

(** All nodes are written. *)
Lemma sorting_complete st removed :
  sorting st removed -> remaining st = 0%Z -> out st ≡ₚ seq 0 (size g0).
Proof.
  intros S Hr. apply submseteq_length_Permutation.
  - apply NoDup_submseteq; [apply S|]. intros u Hu%(so_out _ _ S). apply elem_of_seq. lia.
  - rewrite length_seq. rewrite (so_remaining _ _ S) in Hr. lia.
Qed.

End Main.

(** ** Building the graph *)

Record built (g : graph) : Prop := Built {
  bu_wf : wf g;
  bu_names : NoDup (names g);
  bu_ids : forall s i, ids g !! s = Some i <-> names g !! i = Some s;
  bu_fresh : fresh g
}.

Lemma edges_from_snoc_nil k s : edges_from k (s ++ [[]]) = edges_from k s.
Proof. revert k; induction s as [|l s IH]; intros k; cbn; [done|]. by rewrite IH. Qed.

Lemma live_in_out_of_range g v : wf g -> size g <= v -> live_in g v = 0.
Proof.
  intros Hwf Hv. destruct (decide (live_in g v = 0)) as [|(u & _ & _ & Hin)%live_in_pos]; [done|].
  apply (wf_range g Hwf) in Hin. lia.
Qed.

Lemma addNode_spec g a :
  built g ->
  let '(g', id) := addNode g a in
  built g' /\ names g' !! id = Some a /\ edges g' = edges g /\
  exists k, names g' = names g ++ k /\ (forall x, x ∈ k -> x = a).
Proof.
  intros B. unfold addNode. destruct (ids g !! a) as [id|] eqn:E.
  { split_and!; [done|by apply B|done|]. exists []. split; [by rewrite app_nil_r|].
    by intros x ?%elem_of_nil. }
  destruct B as [W Hn Hids [Hd Hi]]. destruct W as [W1 W2 W3 W4]. unfold size in *.
  assert (Hfresh : a ∉ names g).
  { intros [i Hx]%list_elem_of_lookup. apply Hids in Hx. congruence. }
  set (g' := Graph _ _ _ _ _).
  assert (Hlive : forall v, live_in g' v = live_in g v).
  { intros v. unfold live_in, size. cbn [names g']. rewrite length_app. cbn [length].
    rewrite Nat.add_1_r, sum_to_S. unfold is_done. cbn [done succ g'].
    rewrite (lookup_total_app_r (succ g)), W1, Nat.sub_diag by lia. cbn.
    rewrite Nat.add_comm. cbn. destruct (_ !!! _ : bool).
    all: rewrite Nat.add_0_l; apply sum_to_ext; intros u Hu.
    all: by rewrite !lookup_total_app_l by lia. }
  assert (Hwf : wf g).
  { by split. }
  split_and!.
  - split.
    + split; unfold size; cbn [names succ indeg done g']; rewrite ?length_app; cbn; try lia.
      intros u v. destruct (decide (u < length (succ g))).
      * rewrite lookup_total_app_l by done. intros ?%W4. lia.
      * rewrite lookup_total_app_r by lia. destruct (u - length (succ g)) as [|[|?]]; cbn;
          by intros ?%elem_of_nil.
    + cbn. apply NoDup_app. split_and!; [done| |apply NoDup_singleton].
      by intros x ? ->%list_elem_of_singleton.
    + intros s i. cbn [ids names g']. destruct (decide (s = a)) as [->|Hs].
      * rewrite lookup_insert_eq. split.
        { intros [= <-]. by rewrite lookup_app_r, Nat.sub_diag by lia. }
        intros [Hx|[? Hx]]%lookup_app_Some; [by apply Hids in Hx; congruence|].
        apply list_lookup_singleton_Some in Hx as [? _]. f_equal. lia.
      * rewrite lookup_insert_ne by done. rewrite Hids. split.
        { intros Hx. by apply lookup_app_l_Some. }
        intros [Hx|[? Hx]]%lookup_app_Some; [done|].
        apply list_lookup_singleton_Some in Hx as [_ ?]. congruence.
    + split; unfold size; cbn [names g']; rewrite length_app; cbn [length]; intros u Hu.
      * unfold is_done. cbn [done g']. destruct (decide (u < length (names g))).
        { rewrite lookup_total_app_l by lia. by apply Hd. }
        rewrite lookup_total_app_r by lia. by replace (u - _) with 0 by lia.
      * rewrite Hlive. cbn [indeg g']. destruct (decide (u < length (names g))).
        { rewrite lookup_total_app_l by lia. by apply Hi. }
        rewrite lookup_total_app_r by lia. replace (u - _) with 0 by lia.
        rewrite live_in_out_of_range; [done..|unfold size; lia].
  - cbn. by rewrite lookup_app_r, Nat.sub_diag by lia.
  - apply edges_from_snoc_nil.
  - exists [a]. split; [done|]. by intros x ->%list_elem_of_singleton.
Qed.

Definition add_arc (g : graph) (u v : nat) : graph :=
  Graph (ids g) (names g) (<[u := (succ g !!! u) ++ [v]]> (succ g))
    (<[v := (indeg g !!! v + 1)%Z]> (indeg g)) (done g).

Lemma add_arc_spec g u v :
  built g -> u < size g -> v < size g ->
  built (add_arc g u v) /\ edges (add_arc g u v) ≡ₚ (u, v) :: edges g.
Proof.
  intros [W Hn Hids [Hd Hi]] Hu Hv. destruct W as [W1 W2 W3 W4]. unfold size in *.
  assert (Hlu : succ g !! u = Some (succ g !!! u)) by (apply list_lookup_lookup_total_lt; lia).
  assert (Hsu : forall w, <[u := (succ g !!! u) ++ [v]]> (succ g) !!! w =
    if decide (w = u) then (succ g !!! u) ++ [v] else succ g !!! w).
  { intros w. destruct (decide (w = u)) as [->|]; [by apply list_lookup_total_insert_eq; lia|].
    by apply list_lookup_total_insert_ne. }
  assert (Hlive : forall w, live_in (add_arc g u v) w = live_in g w + if v =? w then 1 else 0).
  { intros w. unfold live_in. unfold size. cbn [names succ add_arc].
    pose proof (sum_to_update (length (names g))
      (fun u0 => if is_done g u0 then 0 else cnt w (succ g !!! u0))
      (fun u0 => if is_done g u0 then 0 else
         cnt w (<[u := (succ g !!! u) ++ [v]]> (succ g) !!! u0)) u Hu) as HS.
    cbv beta in HS. rewrite (Hd u Hu), Hsu, decide_True, cnt_app in HS by done. cbn [cnt] in HS.
    unfold is_done in *. cbn [done add_arc].
    enough (forall z, z < length (names g) -> z <> u ->
      (if (done g !!! z : bool) then 0 else cnt w (<[u := (succ g !!! u) ++ [v]]> (succ g) !!! z)) =
      (if (done g !!! z : bool) then 0 else cnt w (succ g !!! z))) as Hz by (specialize (HS Hz); lia).
    intros z _ Hz. by rewrite Hsu, decide_False. }
  split.
  - split; [|done..|].
    + split; unfold size; cbn [names succ indeg done add_arc]; rewrite ?length_insert; try done.
      intros a b. rewrite Hsu. destruct (decide (a = u)) as [->|]; [|apply W4].
      intros [Hb|Hb%list_elem_of_singleton]%elem_of_app; [by eapply W4|by subst].
    + split; [done|]. intros w Hw. rewrite Hlive. cbn [indeg add_arc].
      destruct (Nat.eqb_spec v w) as [->|].
      * rewrite list_lookup_total_insert_eq by lia. rewrite Hi by done. lia.
      * rewrite list_lookup_total_insert_ne by done. rewrite Hi by done. lia.
  - unfold edges. cbn [succ add_arc].
    rewrite (edges_from_insert 0 _ u ((succ g !!! u) ++ [v]) (succ g !!! u) v).
    + by rewrite list_insert_insert, decide_True, list_insert_id.
    + by apply list_lookup_insert_eq; lia.
    + by rewrite Permutation_app_comm.
Qed.

(** The pairs of the input that are edges. *)
Fixpoint pairs (toks : list (list Z)) : list (list Z * list Z) :=
  match toks with
  | a :: b :: rest => (if str_eqb a b then [] else [(a, b)]) ++ pairs rest
  | _ => []
  end.

Definition named (nms : list (list Z)) (e : nat * nat) : list Z * list Z :=
  (nms !!! fst e, nms !!! snd e).

Definition named_edges (g : graph) : list (list Z * list Z) := named (names g) <$> edges g.

Lemma named_edges_app g nms k (es : list (nat * nat)) :
  wf g -> names g = nms -> (forall e, e ∈ es -> e ∈ edges g) ->
  named (nms ++ k) <$> es = named nms <$> es.
Proof.
  intros Hwf <- Hsub. apply list_fmap_ext. intros i [u v] He%list_elem_of_lookup_2.
  apply Hsub, edges_elem in He as [Hu Hv]. unfold named. cbn.
  rewrite !lookup_total_app_l; [done|by apply (wf_range g Hwf) in Hv|].
  by rewrite wf_succ in Hu.
Qed.

Lemma addNode_named g a :
  built g ->
  let '(g', id) := addNode g a in
  built g' /\ names g' !! id = Some a /\ edges g' = edges g /\
  named_edges g' = named_edges g /\
  (exists k, names g' = names g ++ k) /\ (forall x, x ∈ names g' <-> x ∈ names g \/ x = a).
Proof.
  intros B. pose proof (addNode_spec g a B) as H. destruct (addNode g a) as [g' id].
  destruct H as (B' & Hid & Ee & k & En & Hk). split_and!; [done..| | |].
  - unfold named_edges. rewrite Ee, En. by apply (named_edges_app g); [apply B|..].
  - by exists k.
  - intros x. split.
    + rewrite En, elem_of_app. intros [?|?]; [by left|right; by apply Hk].
    + rewrite En, elem_of_app. intros [?| ->]; [by left|].
      apply elem_of_app. rewrite <- En. by eapply list_elem_of_lookup_2.
Qed.

Lemma addEdge_spec g a b :
  built g ->
  built (addEdge g a b) /\ named_edges (addEdge g a b) ≡ₚ (a, b) :: named_edges g /\
  (forall x, x ∈ names (addEdge g a b) <-> x ∈ names g \/ x = a \/ x = b).
Proof.
  intros B. unfold addEdge. pose proof (addNode_named g a B) as H1.
  destruct (addNode g a) as [g1 u]. destruct H1 as (B1 & Hu & Ee1 & En1 & _ & Hx1).
  pose proof (addNode_named g1 b B1) as H2. destruct (addNode g1 b) as [g2 v].
  destruct H2 as (B2 & Hv & Ee2 & En2 & [k Ek] & Hx2).
  assert (Hu2 : names g2 !! u = Some a) by (rewrite Ek; by apply lookup_app_l_Some).
  destruct (add_arc_spec g2 u v B2) as [B3 E3];
    [by eapply lookup_lt_Some..|].
  split_and!; [done| |].
  - unfold named_edges at 1. change (names _) with (names g2).
    change (edges _) with (edges (add_arc g2 u v)). rewrite E3. cbn.
    unfold named at 1. cbn. rewrite (list_lookup_total_correct _ _ _ Hu2).
    rewrite (list_lookup_total_correct _ _ _ Hv). constructor.
    by rewrite <- En1, <- En2.
  - intros x. cbn [names]. rewrite Hx2, Hx1. tauto.
Qed.

Lemma add_pairs_spec toks g :
  built g ->
  let '(g', odd) := add_pairs g toks in
  built g' /\ odd = Nat.odd (length toks) /\ named_edges g' ≡ₚ named_edges g ++ pairs toks /\
  (forall x, x ∈ names g' <-> x ∈ names g \/ x ∈ toks).
Proof.
  remember (length toks) as n eqn:En. assert (length toks <= n) as Hn by lia.
  rewrite En. clear En. revert toks g Hn; induction n as [|n IH]; intros toks g Hn B.
  all: destruct toks as [|a [|b rest]]; cbn [length] in Hn; try lia; cbn [add_pairs]; cbv beta iota.
  1,2: split_and!; [done..|by rewrite app_nil_r|intros x; rewrite elem_of_nil; tauto].
  { pose proof (addNode_named g a B) as H. destruct (addNode g a) as [g' id].
    cbn [fst]. destruct H as (? & ? & ? & En & ? & Hx). split_and!; [done..|by rewrite En, app_nil_r|].
    intros x. by rewrite list_elem_of_singleton, Hx. }
  destruct (str_eqb_spec a b) as [<-|Hab].
  - pose proof (addNode_named g a B) as H. destruct (addNode g a) as [g1 id].
    destruct H as (B1 & _ & _ & En & _ & Hx). specialize (IH rest g1 ltac:(lia) B1).
    cbn [fst]. destruct (add_pairs g1 rest) as [g' odd]. destruct IH as (? & -> & Hp & Hx').
    split_and!; [done..| |].
    + rewrite Hp, En. cbn [pairs]. by rewrite str_eqb_refl.
    + intros x. rewrite Hx', Hx, !elem_of_cons. tauto.
  - destruct (addEdge_spec g a b B) as (B1 & En & Hx). specialize (IH rest _ ltac:(lia) B1).
    destruct (add_pairs _ rest) as [g' odd]. destruct IH as (? & -> & Hp & Hx').
    split_and!; [done..| |].
    + rewrite Hp, En. cbn [pairs]. apply str_eqb_neq in Hab. rewrite Hab. cbn.
      by rewrite Permutation_middle.
    + intros x. rewrite Hx', Hx, !elem_of_cons. tauto.
Qed.

Lemma built_new : built newGraph.
Proof.
  split.
  - split; try done. by intros u v ?%elem_of_nil.
  - constructor.
  - intros s i. cbn. by rewrite lookup_empty.
  - split; unfold size; cbn; lia.
Qed.

(** ** The utility *)

Definition before {A} (l : list A) (a b : A) : Prop :=
  exists i j, i < j /\ l !! i = Some a /\ l !! j = Some b.

(** A loop of the relation [E], by its items in edge direction. *)
Definition is_loop {A} (E : A -> A -> Prop) (c : list A) : Prop :=
  path E c /\ exists a b, last c = Some a /\ head c = Some b /\ E a b.

Definition related (ps : list (list Z * list Z)) (a b : list Z) : Prop := (a, b) ∈ ps.

(** [order] lists the items of [toks] once each and respects all pairs but
    the removed ones, which close the loops reported, one each. *)
Definition sorts (toks order : list (list Z)) (loops : list (list (list Z))) : Prop :=
  NoDup order /\ (forall x, x ∈ order <-> x ∈ toks) /\
  exists removed kept, pairs toks ≡ₚ removed ++ kept /\
    (forall a b, (a, b) ∈ kept -> before order a b) /\
    Forall2 (fun e c => is_loop (related (pairs toks)) c /\
               last c = Some (fst e) /\ head c = Some (snd e)) removed loops.

(** Each item is the first by name among those whose predecessors all come
    before it. *)
Definition greedy_items (toks order : list (list Z)) : Prop :=
  forall l1 x l2 y, order = l1 ++ x :: l2 -> y ∈ toks -> y ∉ l1 ->
    (forall u, (u, y) ∈ pairs toks -> u ∈ l1) -> str_ltb y x = false.

Definition lines (order : list (list Z)) : list Z := concat ((.++ [10%Z]) <$> order).

Definition loop_text (c : list (list Z)) : list Z :=
  str! "tsort: -: input contains a loop:" ++ 10%Z ::
  concat ((fun s => str! "tsort: " ++ s ++ [10%Z]) <$> c).

Definition exit_status (warn : bool) (k : nat) : Z :=
  if k =? 0 then 0 else if warn then Z.min (Z.of_nat k) 124 else 1.

Lemma last_List_last {A} (c : list A) d : c <> [] -> last c = Some (List.last c d).
Proof.
  destruct c as [|x c _] using rev_ind; [done|]. intros _. by rewrite last_snoc, last_last.
Qed.

Lemma path_fmap {A B} (E : A -> A -> Prop) (F : B -> B -> Prop) (f : A -> B) c :
  (forall a b, E a b -> F (f a) (f b)) -> path E c -> path F (f <$> c).
Proof.
  intros HEF. induction c as [|a c IH]; [done|]. destruct c as [|b c]; [done|].
  intros [? H]. split; [by apply HEF|by apply IH].
Qed.

Lemma is_cycle_loop (E : nat -> nat -> Prop) {B} (F : B -> B -> Prop) (f : nat -> B) c :
  (forall a b, E a b -> F (f a) (f b)) -> is_cycle E c ->
  is_loop F (f <$> c) /\ last (f <$> c) = Some (f (List.last c 0)) /\
  head (f <$> c) = Some (f (hd 0 c)).
Proof.
  intros HEF (Hne & Hp & Hc).
  assert (Hl : last (f <$> c) = Some (f (List.last c 0)))
    by (by rewrite fmap_last, (last_List_last c 0)).
  assert (Hh : head (f <$> c) = Some (f (hd 0 c))) by (by destruct c).
  split_and!; [split|done..]; [by eapply path_fmap|]. eauto 10.
Qed.

Lemma before_split {A} (l1 : list A) v l2 u :
  u ∈ l1 -> before (l1 ++ v :: l2) u v.
Proof.
  intros [i Hi]%list_elem_of_lookup. exists i, (length l1). split_and!.
  - by eapply lookup_lt_Some.
  - by apply lookup_app_l_Some.
  - by rewrite list_lookup_middle.
Qed.

Lemma before_fmap {A B} (f : A -> B) l a b : before l a b -> before (f <$> l) (f a) (f b).
Proof.
  intros (i & j & ? & Hi & Hj). exists i, j. by rewrite !list_lookup_fmap, Hi, Hj.
Qed.

Lemma fmap_lookup_seq (l : list (list Z)) : (l !!!.) <$> seq 0 (length l) = l.
Proof.
  apply list_eq. intros i. rewrite list_lookup_fmap.
  destruct (decide (i < length l)) as [Hi|Hi].
  - rewrite lookup_seq_lt by done. cbn. by rewrite list_lookup_lookup_total_lt.
  - rewrite lookup_seq_ge by lia. cbn. by rewrite lookup_ge_None_2 by lia.
Qed.

Section Items.
Context (toks : list (list Z)) (g : graph) (B : built g).
Context (Hpairs : named_edges g ≡ₚ pairs toks).
Context (Hitems : forall x, x ∈ names g <-> x ∈ toks).
Context (st : sorter) (removed : list (nat * nat)).
Context (S : sorting g st removed) (Hdone : remaining st = 0%Z).

Abbreviation item := (names g !!!.).

Lemma item_order : item <$> out st ≡ₚ names g.
Proof. rewrite (sorting_complete g st removed S Hdone). by rewrite fmap_lookup_seq. Qed.

Lemma item_elem u : u < size g -> item u ∈ toks.
Proof.
  intros Hu. apply Hitems. eapply list_elem_of_lookup_2. by apply list_lookup_lookup_total_lt.
Qed.

Lemma item_inj u v : u < size g -> v < size g -> item u = item v -> u = v.
Proof.
  intros Hu Hv E. eapply NoDup_lookup; [apply B|..]; [by apply list_lookup_lookup_total_lt|].
  rewrite E. by apply list_lookup_lookup_total_lt.
Qed.

Lemma item_pair a b : (a, b) ∈ edges g -> related (pairs toks) (item a) (item b).
Proof.
  intros He. unfold related. rewrite <- Hpairs. by apply (list_elem_of_fmap_2' (named (names g)) _ (a, b)).
Qed.

Lemma items_loops es cs :
  Forall2 (fun e c => e = (List.last c 0, hd 0 c)) es cs ->
  Forall (is_cycle (fun u v => (u, v) ∈ edges g)) cs ->
  Forall2 (fun e c => is_loop (related (pairs toks)) c /\
             last c = Some (fst e) /\ head c = Some (snd e))
    (named (names g) <$> es) ((fun c : list nat => item <$> c) <$> cs).
Proof.
  induction 1 as [|e c es cs -> Hc IH]; cbn; constructor.
  - apply Forall_cons in H as [Hl _].
    exact (is_cycle_loop (fun u v => (u, v) ∈ edges g) _ item c item_pair Hl).
  - apply Forall_cons in H as [_ Hl]. by apply IH.
Qed.

Lemma items_sorted : sorts toks (item <$> out st) ((fun c : list nat => item <$> c) <$> loops st).
Proof.
  split_and!.
  - rewrite item_order. apply B.
  - intros x. by rewrite item_order, Hitems.
  - exists (named (names g) <$> removed), (named (names g) <$> edges (gr st)). split_and!.
    + rewrite <- Hpairs, <- fmap_app. unfold named_edges. by rewrite (so_edges _ _ _ S).
    + intros a b ([u v] & [= -> ->] & He)%list_elem_of_fmap.
      apply (before_fmap item).
      apply edges_elem in He as [Hu Hv].
      assert (v ∈ out st) as (l1 & l2 & E)%list_elem_of_split.
      { rewrite (sorting_complete g st removed S Hdone), elem_of_seq.
        apply (wf_range (gr st)) in Hv; [|apply S]. unfold size in *.
        rewrite (so_names _ _ _ S) in Hv. lia. }
      rewrite E. apply before_split. by eapply (so_order _ _ _ S).
    + apply items_loops; apply S.
Qed.

Lemma items_greedy : greedy_items toks (item <$> out st).
Proof.
  intros l1 x l2 y E Hy Hn Hpre.
  apply fmap_app_inv in E as (l1' & l2' & -> & Ex & Eo).
  symmetry in Ex. apply fmap_cons_inv in Ex as (x' & l2'' & -> & -> & ->).
  apply Hitems, list_elem_of_lookup in Hy as [y' Hy'].
  rewrite <- (list_lookup_total_correct _ _ _ Hy') in *.
  apply (so_greedy _ _ _ S l1' x' l2'' y' Eo).
  - by eapply lookup_lt_Some.
  - intros Hin. apply Hn. by apply (list_elem_of_fmap_2 item).
  - intros u Hu. pose proof (Hpre (item u) (item_pair _ _ Hu)) as Hin.
    apply list_elem_of_fmap in Hin as (u' & E' & Hu').
    assert (u = u') as ->; [|done]. apply edges_elem in Hu as [Hlt _].
    apply item_inj; [by rewrite wf_succ in Hlt by apply B| |done].
    assert (Ho : u' ∈ out st) by (rewrite Eo; apply elem_of_app; by left).
    by apply (so_out _ _ _ S) in Ho as [? _].
Qed.

End Items.

Lemma write_names_lines nms l : write_names nms l = lines ((nms !!!.) <$> l).
Proof. unfold write_names, lines. by rewrite <- list_fmap_compose. Qed.

Lemma write_loop_text nms c : write_loop nms c = loop_text ((nms !!!.) <$> c).
Proof. unfold write_loop, loop_text. by rewrite <- list_fmap_compose. Qed.

Lemma run_core warn data :
  Nat.odd (length (tokens data)) = false ->
  exists order loops,
    run warn data = Ret (lines order, concat (loop_text <$> loops), exit_status warn (length loops)) /\
    sorts (tokens data) order loops /\ greedy_items (tokens data) order.
Proof.
  intros Hodd. unfold run.
  pose proof (add_pairs_spec (tokens data) newGraph built_new) as HB.
  destruct (add_pairs newGraph (tokens data)) as [g odd].
  destruct HB as (B & Eodd & Hp & Hx). rewrite Hodd in Eodd. subst odd.
  change (named_edges newGraph) with (@nil (list Z * list Z)) in Hp. cbn [app] in Hp.
  assert (Hitems : forall x, x ∈ names g <-> x ∈ tokens data).
  { intros x. rewrite Hx. cbn [newGraph names]. rewrite elem_of_nil. tauto. }
  destruct (topoSort_spec g (bu_wf _ B) (bu_fresh _ B)) as (st & removed & -> & S & Hr).
  cbn [bind]. exists ((names g !!!.) <$> out st), ((fun c : list nat => (names g !!!.) <$> c) <$> loops st).
  split_and!; [|by eapply items_sorted|by eapply items_greedy].
  rewrite write_names_lines, (so_cycles _ _ _ S), length_fmap. do 2 f_equal.
  - f_equal. f_equal. rewrite <- list_fmap_compose. apply list_fmap_ext. intros ? c _.
    apply write_loop_text.
  - unfold exit_status, maxCycleExit. destruct (Nat.eqb_spec (length (loops st)) 0) as [->|]; [done|].
    destruct (Z.eqb_spec (Z.of_nat (length (loops st))) 0); [lia|].
    destruct warn; [|done]. destruct (Z.ltb_spec 124 (Z.of_nat (length (loops st)))); lia.
Qed.

Lemma before_trans {A} (l : list A) a b c :
  NoDup l -> before l a b -> before l b c -> before l a c.
Proof.
  intros Hn (i & j & ? & Hi & Hj) (j' & k & ? & Hj' & Hk).
  assert (j = j') as <- by (by eapply NoDup_lookup). exists i, k. split_and!; [lia|done..].
Qed.

Lemma before_irrefl {A} (l : list A) a : NoDup l -> ~ before l a a.
Proof.
  intros Hn (i & j & ? & Hi & Hj). assert (i = j) by (by eapply NoDup_lookup). lia.
Qed.

(** A relation that an order respects has no loop. *)
Lemma before_acyclic {A} (E : A -> A -> Prop) (l : list A) :
  NoDup l -> (forall a b, E a b -> before l a b) -> forall c, ~ is_loop E c.
Proof.
  intros Hn HE c (Hp & a & b & Hl & Hh & Hab). apply HE in Hab.
  assert (Hend : a = b \/ before l b a).
  { clear Hab. revert b Hh. induction c as [|x c IH]; intros b Hh; [done|].
    injection Hh as ->. destruct c as [|y c].
    - left. by injection Hl as ->.
    - destruct Hp as [Hxy Hp]. right. apply HE in Hxy.
      destruct (IH Hp Hl y eq_refl) as [->|]; [done|by eapply before_trans]. }
  destruct Hend as [->|Hba]; [by eapply before_irrefl|].
  eapply before_irrefl; [done|]. by eapply before_trans.
Qed.

Lemma sorts_loops toks order loops :
  sorts toks order loops -> Forall (is_loop (related (pairs toks))) loops.
Proof.
  intros (_ & _ & removed & kept & _ & _ & HF). clear -HF.
  induction HF as [|e c es cs [? _] _ IH]; by constructor.
Qed.

Lemma sorts_no_loops toks order :
  sorts toks order [] -> forall a b, (a, b) ∈ pairs toks -> before order a b.
Proof.
  intros (_ & _ & removed & kept & Hp & Hk & HF). apply Forall2_nil_inv_r in HF. subst.
  intros a b Hab. apply Hk. by rewrite Hp in Hab.
Qed.

Lemma sorts_acyclic toks order loops :
  sorts toks order loops -> (loops = [] <-> forall c, ~ is_loop (related (pairs toks)) c).
Proof.
  intros Hs. split.
  - intros ->. apply (before_acyclic _ order); [apply Hs|]. by apply sorts_no_loops.
  - intros Hno. destruct loops as [|c loops]; [done|].
    apply sorts_loops, Forall_cons in Hs as [Hc _]. by destruct (Hno c).
Qed.

(** [C8] tsort returns on every input with an even number of tokens, and what
    it writes is a total order of the items: each token is one line, once,
    and every pair is respected but one per loop it reports on standard
    error; each loop reported is a loop of the pairs, whose closing pair is
    the one dropped, and the exit status counts the loops under -w. *)
Theorem run_sorts (warn : bool) (data : list Z) :
  Nat.odd (length (tokens data)) = false ->
  exists order loops,
    run warn data = Ret (lines order, concat (loop_text <$> loops), exit_status warn (length loops)) /\
    sorts (tokens data) order loops.
Proof. intros (order & loops & ? & ? & _)%(run_core warn). by exists order, loops. Qed.

Lemma run_sorts_witness :
  exists order loops,
    run true (str! "a b b a") = Ret (lines order, concat (loop_text <$> loops), exit_status true (length loops)) /\
    sorts (tokens (str! "a b b a")) order loops.
Proof. apply (run_sorts true (str! "a b b a")). vm_compute. reflexivity. Defined.

(** On an even number of tokens the exit status is 0, and nothing is
    reported, exactly when the pairs have no loop. *)
Theorem run_status (warn : bool) (data : list Z) :
  Nat.odd (length (tokens data)) = false ->
  exists out err code, run warn data = Ret (out, err, code) /\
    (code = 0%Z <-> forall c, ~ is_loop (related (pairs (tokens data))) c) /\
    (code = 0%Z <-> err = []).
Proof.
  intros (order & loops & E & Hs & _)%(run_core warn). do 3 eexists. split; [done|].
  assert (Hz : exit_status warn (length loops) = 0%Z <-> loops = []).
  { unfold exit_status. destruct loops as [|c loops]; [done|]. cbn [length Nat.eqb].
    destruct warn; split; try done. lia. }
  split; [by rewrite Hz, (sorts_acyclic _ _ _ Hs)|]. rewrite Hz.
  split; [by intros ->|]. by destruct loops.
Qed.

Lemma run_status_witness :
  exists out err code, run false (str! "a b b c") = Ret (out, err, code) /\
    (code = 0%Z <-> forall c, ~ is_loop (related (pairs (tokens (str! "a b b c")))) c) /\
    (code = 0%Z <-> err = []).
Proof. apply (run_status false (str! "a b b c")). vm_compute. reflexivity. Defined.

(** Another total order of the items that respects every pair. *)
Definition linear_extension (toks order : list (list Z)) : Prop :=
  NoDup order /\ (forall x, x ∈ order <-> x ∈ toks) /\
  forall a b, (a, b) ∈ pairs toks -> before order a b.

(** The first difference decides. *)
Definition lex_le (l k : list (list Z)) : Prop :=
  l = k \/ exists p x y r s, l = p ++ x :: r /\ k = p ++ y :: s /\ str_ltb x y = true.

Lemma before_prefix {A} (p : list A) y s u :
  NoDup (p ++ y :: s) -> before (p ++ y :: s) u y -> u ∈ p.
Proof.
  intros Hn (i & j & ? & Hi & Hj).
  assert (j = length p) as ->.
  { eapply NoDup_lookup; [done..|]. by rewrite list_lookup_middle. }
  rewrite lookup_app_l in Hi by lia. by eapply list_elem_of_lookup_2.
Qed.

Lemma greedy_least toks p r s :
  greedy_items toks (p ++ r) -> NoDup (p ++ r) -> (forall x, x ∈ p ++ r <-> x ∈ toks) ->
  linear_extension toks (p ++ s) -> lex_le (p ++ r) (p ++ s).
Proof.
  intros Hg Hn Hx (Hn' & Hx' & Hpairs). revert p s Hg Hn Hx Hn' Hx' Hpairs.
  induction r as [|x r IH]; intros p s Hg Hn Hx Hn' Hx' Hpairs.
  - left. f_equal. rewrite app_nil_r in *. destruct s as [|y s]; [done|]. exfalso.
    assert (y ∈ p) by (apply Hx, Hx', elem_of_app; right; by left).
    apply NoDup_app in Hn' as (_ & Hd & _). by apply (Hd y); [|left].
  - destruct s as [|y s].
    { exfalso. rewrite app_nil_r in *.
      assert (x ∈ p) by (apply Hx', Hx, elem_of_app; right; by left).
      apply NoDup_app in Hn as (_ & Hd & _). by apply (Hd x); [|left]. }
    destruct (decide (x = y)) as [<-|Hxy].
    + rewrite (cons_middle x p r), (cons_middle x p s) in *. rewrite !app_assoc in *. by apply IH.
    + right. exists p, x, y, r, s. split_and!; [done..|].
      assert (Hyx : str_ltb y x = false).
      { apply (Hg p x r y); [done| | |].
        - apply Hx', elem_of_app. right. by left.
        - intros Hy. apply NoDup_app in Hn' as (_ & Hd & _). by apply (Hd y); [|left].
        - intros u Hu. apply Hpairs in Hu. by eapply before_prefix. }
      destruct (str_ltb x y) eqn:E; [done|]. by destruct Hxy; apply str_ltb_total.
Qed.

(** [C40] When the pairs have no loop, the order written respects every pair
    and is the first, in the lexicographic order of the items, of all the
    orders that do: ties are broken by name, everywhere. *)
Theorem run_lexicographic (warn : bool) (data : list Z) :
  Nat.odd (length (tokens data)) = false ->
  (forall c, ~ is_loop (related (pairs (tokens data))) c) ->
  exists order, run warn data = Ret (lines order, [], 0%Z) /\
    linear_extension (tokens data) order /\
    forall order', linear_extension (tokens data) order' -> lex_le order order'.
Proof.
  intros (order & loops & E & Hs & Hg)%(run_core warn) Hno.
  apply (sorts_acyclic _ _ _ Hs) in Hno. subst loops.
  exists order. split; [done|]. pose proof (sorts_no_loops _ _ Hs) as Hp.
  destruct Hs as (Hn & Hx & _). split; [done|]. intros order' Ho.
  by apply (greedy_least (tokens data) [] order order').
Qed.

Lemma run_lexicographic_witness :
  exists order, run false (str! "b c a c") = Ret (lines order, [], 0%Z) /\
    linear_extension (tokens (str! "b c a c")) order /\
    forall order', linear_extension (tokens (str! "b c a c")) order' -> lex_le order order'.
Proof.
  apply (run_lexicographic false (str! "b c a c")); [vm_compute; reflexivity|].
  assert (Hc : before [str! "a"; str! "b"; str! "c"] (str! "a") (str! "c")) by (exists 0, 2; repeat split; lia).
  assert (Hb : before [str! "a"; str! "b"; str! "c"] (str! "b") (str! "c")) by (exists 1, 2; repeat split; lia).
  apply (before_acyclic _ [str! "a"; str! "b"; str! "c"]).
  - apply (bool_decide_unpack _). vm_compute. exact I.
  - intros a b Hab.
    change (pairs (tokens (str! "b c a c"))) with [(str! "b", str! "c"); (str! "a", str! "c")] in Hab.
    apply elem_of_cons in Hab as [[= -> ->]|[[= -> ->]|[]%elem_of_nil]%elem_of_cons]; assumption.
Defined.

(** ** Tokens *)

(** The words of a text: the maximal runs without a separator. *)
Fixpoint words_from (cur : list Z) (data : list Z) : list (list Z) :=
  match data with
  | [] => match cur with [] => [] | _ => [cur] end
  | b :: rest =>
      if isSeparator b then match cur with [] => [] | _ => [cur] end ++ words_from [] rest
      else words_from (cur ++ [b]) rest
  end.

Definition words (data : list Z) : list (list Z) := words_from [] data.

Lemma skip_separators_words data : words (skip_separators data) = words data.
Proof.
  induction data as [|b rest IH]; [done|]. cbn [skip_separators].
  destruct (isSeparator b) eqn:E; [|done]. rewrite IH. unfold words. cbn [words_from]. by rewrite E.
Qed.

Lemma words_from_run cur data :
  words_from cur data =
  match separator_at data with
  | Some i => match cur ++ take i data with [] => [] | w => [w] end ++ words (drop (S i) data)
  | None => match cur ++ data with [] => [] | w => [w] end
  end.
Proof.
  revert cur; induction data as [|b rest IH]; intros cur; cbn [words_from separator_at].
  { rewrite app_nil_r. by destruct cur. }
  destruct (isSeparator b); [cbn; rewrite app_nil_r; by destruct cur|].
  rewrite IH. destruct (separator_at rest) as [i|]; cbn; by rewrite <- app_assoc.
Qed.

Lemma skip_separators_length data :
  (length (skip_separators data) <= length data)%nat /\
  skip_separators data = drop (length data - length (skip_separators data)) data.
Proof.
  induction data as [|b rest [IH1 IH2]]; [done|]. cbn [skip_separators].
  destruct (isSeparator b); [|by rewrite Nat.sub_diag].
  split; [cbn; lia|]. cbn [length]. rewrite Nat.sub_succ_l by done. done.
Qed.

Lemma skip_separators_head data b rest : skip_separators data = b :: rest -> isSeparator b = false.
Proof.
  induction data as [|c data IH]; [done|]. cbn. destruct (isSeparator c) eqn:E; [done|].
  by intros [= <- _].
Qed.

Lemma separator_at_lt data i : separator_at data = Some i -> (i < length data)%nat.
Proof.
  revert i; induction data as [|b rest IH]; intros i; [done|]. cbn.
  destruct (isSeparator b); [intros [= <-]; lia|].
  destruct (separator_at rest); [|done]. intros [= <-]. specialize (IH n eq_refl). lia.
Qed.

(** One call of the splitter takes the first word. *)
Lemma splitToken_words data :
  match splitToken data true with
  | (adv, Some tok) => words data = tok :: words (drop adv data) /\ (0 < adv)%nat
  | (_, None) => words data = []
  end.
Proof.
  unfold splitToken. rewrite <- (skip_separators_words data).
  destruct (skip_separators_length data) as [Hle Hdrop].
  set (start := (length data - _)%nat) in *.
  destruct (separator_at (skip_separators data)) as [i|] eqn:Ei.
  - unfold words at 1. rewrite words_from_run, Ei. cbn [app].
    destruct (skip_separators data) as [|b rest] eqn:Es; [done|].
    pose proof (skip_separators_head _ _ _ Es) as Hb. cbn in Ei. rewrite Hb in Ei.
    destruct (separator_at rest); [|done]. injection Ei as <-. cbn [take app].
    split; [|lia]. do 2 f_equal. rewrite Hdrop, drop_drop. f_equal. lia.
  - unfold words. rewrite words_from_run, Ei. cbn [app].
    destruct (Nat.eqb_spec start (length data)) as [E|E].
    + destruct (skip_separators data) eqn:Es; [done|]. cbn in *. lia.
    + destruct (skip_separators data) eqn:Es; [cbn in *; lia|].
      rewrite drop_all. split; [done|]. cbn in *. lia.
Qed.

(** The scanner's tokens are the maximal runs of bytes other than space,
    tab and newline, in order. *)
Theorem tokens_words (data : list Z) : tokens data = words data.
Proof.
  unfold tokens. assert (Hf : (length data < S (length data))%nat) by lia.
  revert Hf. generalize (S (length data)) as f. intros f. revert data.
  induction f as [|f IH]; intros data Hf; [lia|]. cbn [scan].
  pose proof (splitToken_words data) as H. destruct (splitToken data true) as [adv [tok|]]; [|done].
  destruct H as [-> Hadv]. f_equal. destruct data as [|b data].
  { rewrite drop_nil. clear. by destruct f. }
  apply IH. rewrite length_drop. cbn in *. lia.
Qed.

(** Reading the input in pieces changes nothing: a token the splitter
    finds before the end of the data is the token it finds in any longer
    text. *)
Theorem splitToken_incremental (data rest : list Z) (adv : nat) (tok : list Z) (eof : bool) :
  splitToken data false = (adv, Some tok) -> splitToken (data ++ rest) eof = (adv, Some tok).
Proof.
  unfold splitToken. destruct (separator_at (skip_separators data)) as [i|] eqn:Ei; [|done].
  intros [= <- <-]. assert (Hs : skip_separators (data ++ rest) = skip_separators data ++ rest).
  { clear -Ei. induction data as [|b data IH]; [done|]. cbn in *.
    destruct (isSeparator b); [by apply IH|done]. }
  rewrite Hs. assert (Ha : separator_at (skip_separators data ++ rest) = Some i).
  { clear -Ei. revert i Ei. induction (skip_separators data) as [|b l IH]; intros i; [done|]. cbn.
    destruct (isSeparator b); [done|]. destruct (separator_at l); [|done].
    by rewrite (IH n eq_refl). }
  rewrite Ha. apply separator_at_lt in Ei. rewrite !length_app.
  rewrite take_app_le by lia. do 2 f_equal. lia.
Qed.

Lemma splitToken_incremental_witness :
  splitToken (str! " ab " ++ str! "cd") true = (4%nat, Some (str! "ab")).
Proof. apply (splitToken_incremental (str! " ab ") (str! "cd")). reflexivity. Defined.

(** An odd number of tokens is an error: nothing is written and the exit
    status is 1. *)
Theorem run_odd (warn : bool) (data : list Z) :
  Nat.odd (length (tokens data)) = true ->
  run warn data =
  Ret ([], str! "tsort: -: input contains an odd number of tokens" ++ [10%Z], 1%Z).
Proof.
  intros Hodd. unfold run. pose proof (add_pairs_spec (tokens data) newGraph built_new) as HB.
  destruct (add_pairs newGraph (tokens data)) as [g odd]. destruct HB as (_ & -> & _).
  by rewrite Hodd.
Qed.

Lemma run_odd_witness :
  run false (str! "a b c") =
  Ret ([], str! "tsort: -: input contains an odd number of tokens" ++ [10%Z], 1%Z).
Proof. apply (run_odd false (str! "a b c")). vm_compute. reflexivity. Defined.

End TsortCorrect.
