(* ===== verification/PatchParse.v ===== *)
(** * Patches: data and parsing (src/pkg/patch/types.go, parse.go, reject.go)

    A patch is parsed from the lines of its text. Where the source walks a
    slice by an index, the functions below take the lines from that index on
    and return those that are left; a Go error is a value of [parse_error].
    The regular expressions of the source are the functions of the section
    of that name. *)

From Stdlib Require Import ZArith Lia.
From stdpp Require Import base tactics list numbers strings.
From S2P Require Import Prelude.

Module Patch.

(** ** Data *)

Inductive Format := FormatUnified | FormatContext | FormatNormal.

Inductive LineKind := LineContext | LineDelete | LineAdd.

#[global] Instance LineKind_eq_dec : EqDecision LineKind.
Proof. solve_decision. Defined.

Record HunkLine := mkLine { Kind : LineKind; Text : list Z; NoEOL : bool }.

Record Hunk := mkHunk {
  OldStart : Z; OldCount : Z;
  NewStart : Z; NewCount : Z;
  Lines : list HunkLine
}.

Record FilePatch := mkFile {
  OldName : list Z;
  NewName : list Z;
  IndexName : list Z;
  FFormat : Format;
  Hunks : list Hunk;
  RenameFrom : list Z;
  RenameTo : list Z;
  Unsupported : list Z
}.

Definition DevNull : list Z := str! "/dev/null".

Definition IsCreate (fp : FilePatch) : bool :=
  str_eqb (OldName fp) DevNull && negb (str_eqb (NewName fp) DevNull).

Definition IsDelete (fp : FilePatch) : bool :=
  str_eqb (NewName fp) DevNull && negb (str_eqb (OldName fp) DevNull).

(** ** Lines *)

Record rawLine := Raw { text : list Z; noEOL : bool }.

Definition set_noEOL (l : rawLine) : rawLine := Raw (text l) true.

(** Apply [f] to the last element, if there is one. *)
Fixpoint at_last {A} (f : A -> A) (l : list A) : list A :=
  match l with
  | [] => []
  | [x] => [f x]
  | x :: l' => x :: at_last f l'
  end.

Definition splitRawLines (data : list Z) : list rawLine :=
  match data with
  | [] => []
  | _ =>
      let trailingNL := has_suffix_byte 10 data in
      let parts := split_byte 10 data in
      let parts := if trailingNL then removelast parts else parts in
      let out := (fun p => Raw (trim_suffix_byte 13 p) false) <$> parts in
      if trailingNL then out else at_last set_noEOL out
  end.

(** ** Regular expressions *)

(** [\d+]: the longest run of digits, if there is one. *)
Fixpoint digit_run (s : list Z) : list Z * list Z :=
  match s with
  | c :: s' => if is_digit c then let '(d, r) := digit_run s' in (c :: d, r) else ([], s)
  | [] => ([], [])
  end.

Definition re_digits (s : list Z) : option (list Z * list Z) :=
  match digit_run s with
  | ([], _) => None
  | p => Some p
  end.

(** [(\d+)(?:,(\d+))?], with an empty second group when it does not take
    part. *)
Definition re_range (s : list Z) : option (list Z * list Z * list Z) :=
  match re_digits s with
  | None => None
  | Some (d1, r) =>
      match r with
      | c :: r' =>
          if c =? ch! "," then
            match re_digits r' with
            | Some (d2, r2) => Some (d1, d2, r2)
            | None => Some (d1, [], r)
            end
          else Some (d1, [], r)
      | [] => Some (d1, [], [])
      end
  end.

(** A literal. *)
Definition re_lit (p s : list Z) : option (list Z) :=
  if has_prefix s p then Some (drop (length p) s) else None.

(** [\s*$] *)
Definition re_space (c : Z) : bool := (c =? 9) || (c =? 10) || (c =? 12) || (c =? 13) || (c =? ch! " ").

Definition re_blank_end (s : list Z) : bool := forallb re_space s.

(** The submatches of a header with two ranges. *)
Record ranges := Ranges { g1 : list Z; g2 : list Z; g3 : list Z; g4 : list Z }.

Definition unifiedHunkRe (s : list Z) : option ranges :=
  s ← re_lit (str! "@@ -") s;
  '(a, b, s) ← re_range s;
  s ← re_lit (str! " +") s;
  '(c, d, s) ← re_range s;
  _ ← re_lit (str! " @@") s;
  Some (Ranges a b c d).

Fixpoint star_run (s : list Z) : nat * list Z :=
  match s with
  | c :: s' => if c =? ch! "*" then let '(n, r) := star_run s' in (S n, r) else (0%nat, s)
  | [] => (0%nat, [])
  end.

Definition contextSepRe (s : list Z) : bool :=
  let '(n, r) := star_run s in (9 <=? n)%nat && re_blank_end r.

Definition contextOldRe (s : list Z) : option (list Z * list Z) :=
  s ← re_lit (str! "*** ") s;
  '(a, b, s) ← re_range s;
  s ← re_lit (str! " ****") s;
  if re_blank_end s then Some (a, b) else None.

Definition contextNewRe (s : list Z) : option (list Z * list Z) :=
  s ← re_lit (str! "--- ") s;
  '(a, b, s) ← re_range s;
  s ← re_lit (str! " ----") s;
  if re_blank_end s then Some (a, b) else None.

Definition is_some {A} (o : option A) : bool := match o with Some _ => true | None => false end.

(** [^(\d+)(?:,(\d+))?([acd])(\d+)(?:,(\d+))?$], with the operation last. *)
Definition normalHunkRe (s : list Z) : option (ranges * Z) :=
  '(a, b, s) ← re_range s;
  match s with
  | op :: s =>
      if (op =? ch! "a") || (op =? ch! "c") || (op =? ch! "d") then
        '(c, d, s) ← re_range s;
        match s with [] => Some (Ranges a b c d, op) | _ => None end
      else None
  | [] => None
  end.

(** [(.+) b/(.+)$]: the first group is as long as possible. *)
Fixpoint git_names (pre s : list Z) : option (list Z * list Z) :=
  match s with
  | [] => None
  | c :: s' =>
      match git_names (pre ++ [c]) s' with
      | Some p => Some p
      | None =>
          match re_lit (str! " b/") s with
          | Some (x :: r) => match pre with [] => None | _ => Some (pre, x :: r) end
          | _ => None
          end
      end
  end.

Definition gitDiffRe (s : list Z) : option (list Z * list Z) :=
  s ← re_lit (str! "diff --git a/") s; git_names [] s.

(** ** Numbers *)

Definition max_int : Z := 2 ^ 63 - 1.

(** The value of a run of digits. *)
Definition dec (s : list Z) : Z := undigits 10 ((fun c => c - ch! "0") <$> s).

(** [v, _ := strconv.Atoi(s)] on digits: a value out of range is clamped. *)
Definition Atoi (s : list Z) : Z := Z.min (dec s) max_int.

Definition atoiDefault (s : list Z) (def : Z) : Z :=
  match s with
  | [] => def
  | _ => if max_int <? dec s then def else dec s
  end.

(** ** Headers *)

Definition isPatchControlLine (line : list Z) : bool :=
  has_prefix line (str! "Index:") || has_prefix line (str! "diff --git ") ||
  has_prefix line (str! "--- ") || has_prefix line (str! "*** ") || is_some (normalHunkRe line).

(** The lines from [start] on, unindented when the first is an indented
    control line. *)
Definition stripPatchIndentAt (lines : list rawLine) : option (list rawLine) :=
  match lines with
  | [] => None
  | l :: _ =>
      let trimmed := trim_left is_blank (text l) in
      if str_eqb trimmed (text l) || negb (isPatchControlLine trimmed) then None
      else
        let prefix := take (length (text l) - length trimmed) (text l) in
        Some ((fun l => if has_prefix (text l) prefix
                        then Raw (drop (length prefix) (text l)) (noEOL l) else l) <$> lines)
  end.

Definition extractName (rest : list Z) : list Z :=
  match index_byte rest 9 with
  | Some i => take i rest
  | None => trim_right is_blank rest
  end.

Definition unifiedRangeVal (num : Z) (hasCount : bool) (count : Z) : Z * Z :=
  if negb hasCount then (num - 1, 1)
  else if count =? 0 then (num, 0)
  else (num - 1, count).

(** [m[k] != ""] *)
Definition nonempty (s : list Z) : bool := match s with [] => false | _ => true end.

(** ** Errors *)

Inductive parse_error :=
| NoHunksFound
| MalformedUnifiedHeader (line : list Z)
| UnexpectedEndInHunk (name : list Z)
| UnexpectedLine (line : list Z)
| EndAfterSeparator
| ExpectedOldRange (line : list Z)
| ExpectedNewRangeEOF
| ExpectedNewRange (line : list Z)
| ExpectedSeparator (line : list Z)
| RanOut (want : Z) (prefix : list Z)
| ExpectedMarked (prefix line : list Z)
| NoNormalHunks.

(** The result of a parser: an error, or a value and the lines left. *)
Definition parser (A : Type) : Type := outcome (parse_error + A).

Definition fail {A} (e : parse_error) : parser A := Ret (inl e).
Definition ok {A} (a : A) : parser A := Ret (inr a).

Definition pbind {A B} (c : parser A) (k : A -> parser B) : parser B :=
  let! r := c in
  match r with
  | inl e => fail e
  | inr a => k a
  end.

Notation "'try!' x := c 'in' k" := (pbind c (fun x => k))
  (at level 10, x pattern, c at level 100, k at level 200) : go_scope.

(** ** Unified diffs *)

Definition mark_noEOL (hl : list HunkLine) : list HunkLine :=
  at_last (fun l => mkLine (Kind l) (Text l) true) hl.

Definition is_marker (l : rawLine) : bool :=
  match text l with c :: _ => c =? ch! "\" | [] => false end.

Fixpoint unified_body (newName : list Z) (oldCount newCount : Z) (lines : list rawLine)
    (oldSeen newSeen : Z) (hl : list HunkLine) : parser (list HunkLine * list rawLine) :=
  if (oldSeen <? oldCount) || (newSeen <? newCount) then
    match lines with
    | [] => fail (UnexpectedEndInHunk newName)
    | l :: rest =>
        if is_marker l then
          unified_body newName oldCount newCount rest oldSeen newSeen (mark_noEOL hl)
        else
          match text l with
          | [] =>
              unified_body newName oldCount newCount rest (oldSeen + 1) (newSeen + 1)
                (hl ++ [mkLine LineContext [] (noEOL l)])
          | c :: body =>
              if c =? ch! " " then
                unified_body newName oldCount newCount rest (oldSeen + 1) (newSeen + 1)
                  (hl ++ [mkLine LineContext body (noEOL l)])
              else if c =? ch! "-" then
                unified_body newName oldCount newCount rest (oldSeen + 1) newSeen
                  (hl ++ [mkLine LineDelete body (noEOL l)])
              else if c =? ch! "+" then
                unified_body newName oldCount newCount rest oldSeen (newSeen + 1)
                  (hl ++ [mkLine LineAdd body (noEOL l)])
              else fail (UnexpectedLine (text l))
          end
    end
  else ok (hl, lines).

(** The markers after the last line of a hunk. *)
Fixpoint trailing_markers (lines : list rawLine) (hl : list HunkLine) : list HunkLine * list rawLine :=
  match lines with
  | l :: rest => if is_marker l then trailing_markers rest (mark_noEOL hl) else (hl, lines)
  | [] => (hl, [])
  end.

Fixpoint unified_hunks (fuel : nat) (newName : list Z) (lines : list rawLine) (hunks : list Hunk) : parser (list Hunk * list rawLine) :=
  match lines with
  | [] => ok (hunks, [])
  | l :: rest =>
      if negb (has_prefix (text l) (str! "@@ ")) then ok (hunks, lines)
      else
        match fuel with
        | O => OutOfFuel
        | S f =>
            match unifiedHunkRe (text l) with
            | None => fail (MalformedUnifiedHeader (text l))
            | Some m =>
                let '(oldStart0, oldCount) :=
                  unifiedRangeVal (Atoi (g1 m)) (nonempty (g2 m)) (atoiDefault (g2 m) 0) in
                let '(newStart0, newCount) :=
                  unifiedRangeVal (Atoi (g3 m)) (nonempty (g4 m)) (atoiDefault (g4 m) 0) in
                try! (hl, lines) := unified_body newName oldCount newCount rest 0 0 [] in
                let '(hl, lines) := trailing_markers lines hl in
                unified_hunks f newName lines
                  (hunks ++ [mkHunk oldStart0 oldCount newStart0 newCount hl])
            end
        end
  end.

(** [l0] and [l1] are the two header lines. *)
Definition parseUnifiedFile (l0 l1 : rawLine) (rest : list rawLine) : parser (FilePatch * list rawLine) :=
  let oldName := extractName (drop 4 (text l0)) in
  let newName := extractName (drop 4 (text l1)) in
  try! (hunks, rest) := unified_hunks (length rest) newName rest [] in
  ok (mkFile oldName newName [] FormatUnified hunks [] [] [], rest).

(** ** Context diffs *)

Record markedLine := Marked { mark : list Z; mtext : list Z; mnoEOL : bool }.

Definition mark_last (out : list markedLine) : list markedLine :=
  at_last (fun l => Marked (mark l) (mtext l) true) out.

Definition oldBlockMarks : list (list Z) := [str! "  "; str! "- "; str! "! "].
Definition newBlockMarks : list (list Z) := [str! "  "; str! "+ "; str! "! "].

Fixpoint consumeMarkedBlock (lines : list rawLine) (marks : list (list Z)) (out : list markedLine) : list markedLine * list rawLine :=
  match lines with
  | [] => (out, [])
  | l :: rest =>
      if is_marker l then consumeMarkedBlock rest marks (mark_last out)
      else if (length (text l) <? 2)%nat || negb (existsb (str_eqb (take 2 (text l))) marks)
      then (out, lines)
      else consumeMarkedBlock rest marks
             (out ++ [Marked (take 2 (text l)) (drop 2 (text l)) (noEOL l)])
  end.

Definition contextRangeVal (hasSecond : bool) (first second : Z) : bool * Z * Z :=
  if hasSecond then (true, first - 1, int64 (second - first + 1)) else (false, 0, first).

Definition resolveContextStart (hasSecond : bool) (first second actualCount : Z) : Z * Z :=
  let '(explicit, s0, headerCount) := contextRangeVal hasSecond first second in
  if explicit then (s0, headerCount) else (first - actualCount, actualCount).

Definition is_context (l : markedLine) : bool := str_eqb (mark l) (str! "  ").

(** [i < len(block) && block[i].mark == "  "] *)
Definition at_context (block : list markedLine) : bool :=
  match block with l :: _ => is_context l | [] => false end.

(** The lines up to the next context line, as lines of kind [k]. *)
Fixpoint take_changes (k : LineKind) (block : list markedLine) : list HunkLine * list markedLine :=
  match block with
  | l :: rest =>
      if is_context l then ([], block)
      else let '(hl, r) := take_changes k rest in (mkLine k (mtext l) (mnoEOL l) :: hl, r)
  | [] => ([], [])
  end.

Definition context_line (l : markedLine) : HunkLine := mkLine LineContext (mtext l) (mnoEOL l).

(** A round takes at least one line of a block. *)
Fixpoint zip_blocks (fuel : nat) (oldBlock newBlock : list markedLine) (hl : list HunkLine) : outcome (list HunkLine) :=
  match oldBlock, newBlock with
  | [], [] => Ret hl
  | _, _ =>
      match fuel with
      | O => OutOfFuel
      | S f =>
          if at_context oldBlock then
            zip_blocks f (tail oldBlock)
              (if at_context newBlock then tail newBlock else newBlock)
              (hl ++ (context_line <$> take 1 oldBlock))
          else
            let '(dels, os) := take_changes LineDelete oldBlock in
            let '(adds, ns) := take_changes LineAdd newBlock in
            match os with
            | [] =>
                if at_context ns
                then zip_blocks f [] (tail ns) (hl ++ dels ++ adds ++ (context_line <$> take 1 ns))
                else zip_blocks f [] ns (hl ++ dels ++ adds)
            | _ => zip_blocks f os ns (hl ++ dels ++ adds)
            end
      end
  end.

Definition zipContextBlocks (oldBlock newBlock : list markedLine) : outcome (list HunkLine) :=
  zip_blocks (length oldBlock + length newBlock) oldBlock newBlock [].

(** The block after a range header, unless [stop] matches at once. *)
Definition optional_block (stop : list Z -> bool) (lines : list rawLine) (marks : list (list Z)) : list markedLine * list rawLine :=
  match lines with
  | l :: _ => if stop (text l) then ([], lines) else consumeMarkedBlock lines marks []
  | [] => ([], [])
  end.

(** A hunk, after its separator. *)
Definition context_hunk (lines : list rawLine) : parser (Hunk * list rawLine) :=
  match lines with
  | [] => fail EndAfterSeparator
  | l :: rest =>
      match contextOldRe (text l) with
      | None => fail (ExpectedOldRange (text l))
      | Some (om1, om2) =>
          let '(oldBlock, rest) :=
            optional_block (fun t => is_some (contextNewRe t)) rest oldBlockMarks in
          match rest with
          | [] => fail ExpectedNewRangeEOF
          | l :: rest =>
              match contextNewRe (text l) with
              | None => fail (ExpectedNewRange (text l))
              | Some (nm1, nm2) =>
                  let '(newBlock, rest) := optional_block contextSepRe rest newBlockMarks in
                  let '(oldStart0, oldCount) :=
                    resolveContextStart (nonempty om2) (Atoi om1) (atoiDefault om2 0) (len oldBlock) in
                  let '(newStart0, newCount) :=
                    resolveContextStart (nonempty nm2) (Atoi nm1) (atoiDefault nm2 0) (len newBlock) in
                  let! hl := zipContextBlocks oldBlock newBlock in
                  ok (mkHunk oldStart0 oldCount newStart0 newCount hl, rest)
              end
          end
      end
  end.

Fixpoint context_hunks (fuel : nat) (lines : list rawLine) (hunks : list Hunk) : parser (list Hunk * list rawLine) :=
  match lines with
  | [] => ok (hunks, [])
  | l :: rest =>
      if negb (contextSepRe (text l)) then ok (hunks, lines)
      else
        match fuel with
        | O => OutOfFuel
        | S f =>
            try! (h, rest) := context_hunk rest in
            context_hunks f rest (hunks ++ [h])
        end
  end.

Definition parseContextFile (l0 l1 : rawLine) (rest : list rawLine) : parser (FilePatch * list rawLine) :=
  let oldName := extractName (drop 4 (text l0)) in
  let newName := extractName (drop 4 (text l1)) in
  try! (hunks, rest) := context_hunks (length rest) rest [] in
  ok (mkFile oldName newName [] FormatContext hunks [] [] [], rest).

(** ** Normal diffs *)

Fixpoint consumeFixedMarked (lines : list rawLine) (prefix : list Z) (want : Z) (out : list markedLine) : parser (list markedLine * list rawLine) :=
  if len out <? want then
    match lines with
    | [] => fail (RanOut want prefix)
    | l :: rest =>
        if is_marker l then consumeFixedMarked rest prefix want (mark_last out)
        else if negb (has_prefix (text l) prefix) then fail (ExpectedMarked prefix (text l))
        else consumeFixedMarked rest prefix want
               (out ++ [Marked [] (drop (length prefix) (text l)) (noEOL l)])
    end
  else ok (out, lines).

Definition peekText (lines : list rawLine) : list Z :=
  match lines with
  | l :: _ => text l
  | [] => str! "<end of input>"
  end.

Definition as_lines (k : LineKind) (block : list markedLine) : list HunkLine :=
  (fun l => mkLine k (mtext l) (mnoEOL l)) <$> block.

(** A hunk, after its command line. *)
Definition normal_hunk (m : ranges) (op : Z) (lines : list rawLine) : parser (Hunk * list rawLine) :=
  let oldFirst := Atoi (g1 m) in
  let newFirst := Atoi (g3 m) in
  let oldCount :=
    if nonempty (g2 m) then int64 (atoiDefault (g2 m) 0 - oldFirst + 1) else 1 in
  let newCount :=
    if nonempty (g4 m) then int64 (atoiDefault (g4 m) 0 - newFirst + 1) else 1 in
  if op =? ch! "a" then
    try! (adds, lines) := consumeFixedMarked lines (str! "> ") newCount [] in
    ok (mkHunk oldFirst 0 (newFirst - 1) newCount (as_lines LineAdd adds), lines)
  else if op =? ch! "d" then
    try! (dels, lines) := consumeFixedMarked lines (str! "< ") oldCount [] in
    ok (mkHunk (oldFirst - 1) oldCount newFirst 0 (as_lines LineDelete dels), lines)
  else
    try! (dels, lines) := consumeFixedMarked lines (str! "< ") oldCount [] in
    match lines with
    | l :: lines =>
        if str_eqb (text l) (str! "---") then
          try! (adds, lines) := consumeFixedMarked lines (str! "> ") newCount [] in
          ok (mkHunk (oldFirst - 1) oldCount (newFirst - 1) newCount
                (as_lines LineDelete dels ++ as_lines LineAdd adds), lines)
        else fail (ExpectedSeparator (text l))
    | [] => fail (ExpectedSeparator (peekText []))
    end.

Fixpoint normal_hunks (fuel : nat) (lines : list rawLine) (hunks : list Hunk) : parser (list Hunk * list rawLine) :=
  match lines with
  | [] => ok (hunks, [])
  | l :: rest =>
      match normalHunkRe (text l) with
      | None => ok (hunks, lines)
      | Some (m, op) =>
          match fuel with
          | O => OutOfFuel
          | S f =>
              try! (h, rest) := normal_hunk m op rest in
              normal_hunks f rest (hunks ++ [h])
          end
      end
  end.

Definition parseNormalFile (lines : list rawLine) : parser (FilePatch * list rawLine) :=
  try! (hunks, rest) := normal_hunks (length lines) lines [] in
  match hunks with
  | [] => fail NoNormalHunks
  | _ => ok (mkFile [] [] [] FormatNormal hunks [] [] [], rest)
  end.

(** ** Git diffs *)

Record git_headers := Git { renameFrom : list Z; renameTo : list Z; binary : bool }.

(** The extended headers, up to a "--- " or "diff --git " line. *)
Fixpoint skip_git_headers (lines : list rawLine) (h : git_headers) : git_headers * list rawLine :=
  match lines with
  | [] => (h, [])
  | l :: rest =>
      let t := text l in
      if has_prefix t (str! "--- ") || has_prefix t (str! "diff --git ") then (h, lines)
      else if has_prefix t (str! "rename from ") then
        skip_git_headers rest (Git (drop 12 t) (renameTo h) (binary h))
      else if has_prefix t (str! "rename to ") then
        skip_git_headers rest (Git (renameFrom h) (drop 10 t) (binary h))
      else if has_prefix t (str! "GIT binary patch") || has_prefix t (str! "Binary files ") then
        skip_git_headers rest (Git (renameFrom h) (renameTo h) true)
      else skip_git_headers rest h
  end.

Definition git_unsupported (h : git_headers) : list Z :=
  if binary h then str! "binary patch content is not supported by pure-Go coreutils"
  else if nonempty (renameFrom h) || nonempty (renameTo h) then
    str! "a git rename with no content hunk is not supported by pure-Go coreutils"
  else str! "git diff section has no textual hunk to apply (metadata-only or unrecognized)".

Definition parseGitWrappedFile (l : rawLine) (rest : list rawLine) : parser (FilePatch * list rawLine) :=
  let '(gitOld, gitNew) :=
    match gitDiffRe (text l) with
    | Some (a, b) => (str! "a/" ++ a, str! "b/" ++ b)
    | None => ([], [])
    end in
  let '(h, lines) := skip_git_headers rest (Git [] [] false) in
  let unsupported :=
    ok (mkFile gitOld gitNew [] FormatUnified [] (renameFrom h) (renameTo h) (git_unsupported h), lines) in
  match lines with
  | l0 :: l1 :: rest =>
      if has_prefix (text l0) (str! "--- ") && has_prefix (text l1) (str! "+++ ") then
        try! (fp, rest) := parseUnifiedFile l0 l1 rest in
        ok (mkFile (OldName fp) (NewName fp) (IndexName fp) (FFormat fp) (Hunks fp)
              (renameFrom h) (renameTo h) (Unsupported fp), rest)
      else unsupported
  | _ => unsupported
  end.

(** ** The whole input *)

(** [strings.TrimSpace]: the ASCII spaces and the UTF-8 encodings of the
    others [unicode.IsSpace] knows. *)
Definition spaces : list (list Z) :=
  [[9]; [10]; [11]; [12]; [13]; [32]; [194; 133]; [194; 160]; [225; 154; 128];
   [226; 128; 128]; [226; 128; 129]; [226; 128; 130]; [226; 128; 131]; [226; 128; 132];
   [226; 128; 133]; [226; 128; 134]; [226; 128; 135]; [226; 128; 136]; [226; 128; 137];
   [226; 128; 138]; [226; 128; 168]; [226; 128; 169]; [226; 128; 175]; [226; 129; 159];
   [227; 128; 128]].

Fixpoint trim_prefixes (fuel : nat) (ps : list (list Z)) (s : list Z) : list Z :=
  match fuel with
  | O => s
  | S f =>
      match List.find (has_prefix s) ps with
      | Some p => trim_prefixes f ps (drop (length p) s)
      | None => s
      end
  end.

Definition TrimSpace (s : list Z) : list Z :=
  let s := trim_prefixes (length s) spaces s in
  rev (trim_prefixes (length s) ((fun p => rev p) <$> spaces) (rev s)).

Definition with_index (name : list Z) (fp : FilePatch) : FilePatch :=
  mkFile (OldName fp) (NewName fp) name (FFormat fp) (Hunks fp)
    (RenameFrom fp) (RenameTo fp) (Unsupported fp).

(** A round unindents the lines or takes one. *)
Fixpoint parse_files (fuel : nat) (lines : list rawLine) (indexName : list Z) (files : list FilePatch) : parser (list FilePatch) :=
  match lines with
  | [] => ok files
  | l :: rest =>
      match fuel with
      | O => OutOfFuel
      | S f =>
          match stripPatchIndentAt lines with
          | Some lines' => parse_files f lines' indexName files
          | None =>
              let section (p : parser (FilePatch * list rawLine)) : parser (list FilePatch) :=
                try! (fp, rest) := p in
                parse_files f rest [] (files ++ [with_index indexName fp]) in
              let next_has (p : list Z) : bool :=
                match rest with l1 :: _ => has_prefix (text l1) p | [] => false end in
              if has_prefix (text l) (str! "Index:") then
                parse_files f rest (TrimSpace (drop 6 (text l))) files
              else if has_prefix (text l) (str! "diff --git ") then
                section (parseGitWrappedFile l rest)
              else if has_prefix (text l) (str! "--- ") && next_has (str! "+++ ") then
                match rest with
                | l1 :: rest => section (parseUnifiedFile l l1 rest)
                | [] => Panic
                end
              else if has_prefix (text l) (str! "*** ") && next_has (str! "--- ") then
                match rest with
                | l1 :: rest => section (parseContextFile l l1 rest)
                | [] => Panic
                end
              else if is_some (normalHunkRe (text l)) then section (parseNormalFile lines)
              else parse_files f rest indexName files
          end
      end
  end.

Definition Parse (data : list Z) : parser (list FilePatch) :=
  let lines := splitRawLines data in
  try! files := parse_files (2 * length lines) lines [] [] in
  match files with
  | [] => fail NoHunksFound
  | _ => ok files
  end.

(** ** Printing (reject.go) *)

Definition no_newline_text : list Z := str! "\ No newline at end of file" ++ [10].

Definition unifiedRangeText (start0 count : Z) : list Z :=
  if count =? 1 then itoa (start0 + 1)
  else if count =? 0 then itoa start0 ++ str! ",0"
  else itoa (start0 + 1) ++ str! "," ++ itoa count.

Definition hunkHeader (h : Hunk) : list Z :=
  str! "@@ -" ++ unifiedRangeText (OldStart h) (OldCount h) ++
  str! " +" ++ unifiedRangeText (NewStart h) (NewCount h) ++ str! " @@" ++ [10].

Definition unified_mark (k : LineKind) : Z :=
  match k with
  | LineContext => ch! " "
  | LineDelete => ch! "-"
  | LineAdd => ch! "+"
  end.

Definition unified_line (l : HunkLine) : list Z :=
  unified_mark (Kind l) :: Text l ++ [10] ++ (if NoEOL l then no_newline_text else []).

Definition writeUnifiedReject (oldName newName : list Z) (hunks : list Hunk) : list Z :=
  str! "--- " ++ oldName ++ [10] ++ str! "+++ " ++ newName ++ [10] ++
  concat ((fun h => hunkHeader h ++ concat (unified_line <$> Lines h)) <$> hunks).

Definition contextRangeText (start0 count : Z) : list Z :=
  if count <=? 1 then itoa (start0 + count)
  else itoa (start0 + 1) ++ str! "," ++ itoa (start0 + count).

Definition appendContextRejectLine (mark : list Z) (l : HunkLine) : list Z :=
  mark ++ Text l ++ [10] ++ (if NoEOL l then no_newline_text else []).

Definition is_kind (k : LineKind) (l : HunkLine) : bool := bool_decide (Kind l = k).

Definition context_hunk_text (h : Hunk) : list Z :=
  let hasDelete := existsb (is_kind LineDelete) (Lines h) in
  let hasAdd := existsb (is_kind LineAdd) (Lines h) in
  let old_line l :=
    match Kind l with
    | LineAdd => []
    | LineDelete => appendContextRejectLine (if hasAdd then str! "! " else str! "- ") l
    | LineContext => appendContextRejectLine (str! "  ") l
    end in
  let new_line l :=
    match Kind l with
    | LineDelete => []
    | LineAdd => appendContextRejectLine (if hasDelete then str! "! " else str! "+ ") l
    | LineContext => appendContextRejectLine (str! "  ") l
    end in
  str! "***************" ++ [10] ++
  str! "*** " ++ contextRangeText (OldStart h) (OldCount h) ++ str! " ****" ++ [10] ++
  concat (old_line <$> Lines h) ++
  str! "--- " ++ contextRangeText (NewStart h) (NewCount h) ++ str! " ----" ++ [10] ++
  concat (new_line <$> Lines h).

Definition writeContextReject (oldName newName : list Z) (hunks : list Hunk) : list Z :=
  (if nonempty oldName || nonempty newName
   then str! "*** " ++ oldName ++ [10] ++ str! "--- " ++ newName ++ [10] else []) ++
  concat (context_hunk_text <$> hunks).

Definition WriteRejectFormat (oldName newName : list Z) (format : Format) (hunks : list Hunk) : list Z :=
  writeContextReject oldName newName hunks.

Definition WriteReject (oldName newName : list Z) (hunks : list Hunk) : list Z :=
  WriteRejectFormat oldName newName FormatUnified hunks.

End Patch.
