(* ===== verification/PatchApply.v ===== *)
(** * Patches: application (src/pkg/patch/apply.go, ifdef.go)

    [Apply] and [ApplyIfdef] over the hunks of [PatchParse]. A slice
    expression or an index out of range is a [Panic]. *)

From Stdlib Require Import ZArith Lia.
From stdpp Require Import base tactics list numbers strings.
From S2P Require Import Prelude PatchParse.

Module PatchApply.
Import Patch.

Record ApplyOptions := mkOptions {
  Reverse : bool;
  Fuzz : Z;
  IgnoreWhitespace : bool;
  Force : bool
}.

Inductive HunkOutcome := HunkApplied | HunkAppliedFuzzy | HunkAlreadyApplied | HunkFailed.

#[global] Instance HunkOutcome_eq_dec : EqDecision HunkOutcome.
Proof. solve_decision. Defined.

Record HunkReport := mkReport { Index : Z; Outcome : HunkOutcome; FuzzUsed : Z; At : Z }.

Record Result := mkResult {
  RLines : list (list Z);
  NoFinalNewline : bool;
  Reports : list HunkReport;
  Rejects : list Hunk
}.

Definition AllApplied (r : Result) : bool :=
  forallb (fun rep => negb (bool_decide (Outcome rep = HunkFailed))) (Reports r).

(** ** Hunks *)

Definition reverse_kind (k : LineKind) : LineKind :=
  match k with
  | LineDelete => LineAdd
  | LineAdd => LineDelete
  | LineContext => LineContext
  end.

Definition reverse_line (l : HunkLine) : HunkLine := mkLine (reverse_kind (Kind l)) (Text l) (NoEOL l).

Definition reverseHunk (h : Hunk) : Hunk :=
  mkHunk (NewStart h) (NewCount h) (OldStart h) (OldCount h) (reverse_line <$> Lines h).

Definition oldSeq (lines : list HunkLine) : list (list Z) :=
  Text <$> filter (fun l => Kind l <> LineAdd) lines.

Definition newSeq (lines : list HunkLine) : list (list Z) :=
  Text <$> filter (fun l => Kind l <> LineDelete) lines.

Fixpoint count_context (lines : list HunkLine) : Z :=
  match lines with
  | l :: rest => match Kind l with LineContext => 1 + count_context rest | _ => 0 end
  | [] => 0
  end.

Definition edgeContextCounts (lines : list HunkLine) : Z * Z :=
  let lead := count_context lines in
  let trail := count_context (rev lines) in
  (lead, if len lines <? lead + trail then len lines - lead else trail).

(** ** Matching *)

Definition clampInt (v lo hi : Z) : Z := if v <? lo then lo else if hi <? v then hi else v.

Fixpoint normalize_from (s : list Z) (inBlank : bool) : list Z :=
  match s with
  | [] => []
  | c :: s' =>
      if is_blank c then (if inBlank then normalize_from s' true else ch! " " :: normalize_from s' true)
      else c :: normalize_from s' false
  end.

Definition normalizeWS (s : list Z) : list Z := normalize_from s false.

Definition same_line (ignoreWS : bool) (t w : list Z) : bool :=
  if ignoreWS then str_eqb (normalizeWS t) (normalizeWS w) else str_eqb t w.

Fixpoint matchAt (target want : list (list Z)) (pos : Z) (ignoreWS : bool) : outcome bool :=
  match want with
  | [] => Ret true
  | w :: want' =>
      let! t := index target pos in
      if same_line ignoreWS t w then matchAt target want' (pos + 1) ignoreWS else Ret false
  end.

(** The candidates at distance [d] and more; a start is at most
    [maxStart - minStart] away from another. *)
Fixpoint order_from (fuel : nat) (d start minStart maxStart : Z) : list Z :=
  match fuel with
  | O => []
  | S f =>
      if (minStart <=? start - d) || (start + d <=? maxStart) then
        (if minStart <=? start - d then [start - d] else []) ++
        (if start + d <=? maxStart then [start + d] else []) ++
        order_from f (d + 1) start minStart maxStart
      else []
  end.

Definition searchOrderWithin (start minStart maxStart : Z) : list Z :=
  start :: order_from (Z.to_nat (maxStart - minStart)) 1 start minStart maxStart.

Fixpoint first_match (target want : list (list Z)) (cands : list Z) (ignoreWS : bool) : outcome (option Z) :=
  match cands with
  | [] => Ret None
  | cand :: rest =>
      let! b := matchAt target want cand ignoreWS in
      if (b : bool) then Ret (Some cand) else first_match target want rest ignoreWS
  end.

Definition searchWithin (target want : list (list Z)) (hint minStart maxStart : Z) (ignoreWS : bool) : outcome (option Z) :=
  let l := len want in
  let sequenceMax := len target - l in
  let minStart := if minStart <? 0 then 0 else minStart in
  let maxStart := if sequenceMax <? maxStart then sequenceMax else maxStart in
  if maxStart <? minStart then Ret None
  else if l =? 0 then Ret (Some (clampInt hint minStart maxStart))
  else
    let start := clampInt hint minStart maxStart in
    first_match target want (searchOrderWithin start minStart maxStart) ignoreWS.

Definition search (target want : list (list Z)) (hint : Z) (ignoreWS : bool) : outcome (option Z) :=
  searchWithin target want hint 0 (len target - len want) ignoreWS.

(** The rounds of [locateHunk] from fuzz [f] on: after [len(h.Lines)] rounds
    no context is left to peel. *)
Fixpoint fuzz_rounds (fuel : nat) (oldLines : list (list Z)) (h : Hunk) (expected : Z)
    (opts : ApplyOptions) (leadCtx trailCtx maxFuzz f : Z) : outcome (option (Z * Z * HunkOutcome)) :=
  if maxFuzz <? f then Ret None
  else
    match fuel with
    | O => OutOfFuel
    | S fuel' =>
        let peelLead := Z.min f leadCtx in
        let peelTrail := Z.min f trailCtx in
        let! core := slice (Lines h) peelLead (len (Lines h) - peelTrail) in
        let! r := searchWithin oldLines (oldSeq core) (expected + peelLead) peelLead
                    (len oldLines - OldCount h + peelLead) (IgnoreWhitespace opts) in
        match r with
        | Some pos =>
            Ret (Some (pos - peelLead, f, if 0 <? f then HunkAppliedFuzzy else HunkApplied))
        | None =>
            if (peelLead =? leadCtx) && (peelTrail =? trailCtx) && (f <? maxFuzz) then Ret None
            else fuzz_rounds fuel' oldLines h expected opts leadCtx trailCtx maxFuzz (f + 1)
        end
    end.

Definition locateHunk (oldLines : list (list Z)) (h : Hunk) (expected : Z) (opts : ApplyOptions) : outcome (Z * Z * HunkOutcome) :=
  let '(leadCtx, trailCtx) := edgeContextCounts (Lines h) in
  let! r := fuzz_rounds (S (length (Lines h))) oldLines h expected opts leadCtx trailCtx
              (Z.max (Fuzz opts) 0) 0 in
  match r with
  | Some res => Ret res
  | None =>
      let wantNew := newSeq (Lines h) in
      let! found :=
        if negb (Force opts) && (0 <? len wantNew)
        then search oldLines wantNew expected (IgnoreWhitespace opts)
        else Ret None in
      match found with
      | Some pos => Ret (pos, 0, HunkAlreadyApplied)
      | None => Ret (clampInt expected 0 (len oldLines), 0, HunkFailed)
      end
  end.

(** ** Application *)

(** The replacement, whether its last line lacks a newline, and whether it
    has a line. *)
Fixpoint buildReplacement_from (oldLines : list (list Z)) (ti : Z) (lines : list HunkLine)
    (repl : list (list Z)) (lastNoEOL sawAny : bool) : outcome (list (list Z) * bool * bool) :=
  match lines with
  | [] => Ret (repl, lastNoEOL, sawAny)
  | l :: rest =>
      match Kind l with
      | LineContext =>
          let! t := index oldLines ti in
          buildReplacement_from oldLines (ti + 1) rest (repl ++ [t]) (NoEOL l) true
      | LineDelete => buildReplacement_from oldLines (ti + 1) rest repl lastNoEOL sawAny
      | LineAdd => buildReplacement_from oldLines ti rest (repl ++ [Text l]) (NoEOL l) true
      end
  end.

Definition buildReplacement (oldLines : list (list Z)) (matchStart : Z) (lines : list HunkLine) (oldNoFinalNewline : bool) : outcome (list (list Z) * bool * bool) :=
  buildReplacement_from oldLines matchStart lines [] oldNoFinalNewline false.

(** The variables of [Apply]'s loop. *)
Record applying := Applying {
  aout : list (list Z);
  finalNoEOL : bool;
  cur : Z;
  offset : Z;
  reports : list HunkReport;
  rejects : list Hunk
}.

Section Apply.
Context (oldLines : list (list Z)) (oldNoFinalNewline : bool) (opts : ApplyOptions).

Definition appendVerbatim (st : applying) (from to : Z) : outcome applying :=
  if to <=? from then Ret st
  else
    let! s := slice oldLines from to in
    Ret (Applying (aout st ++ s) (oldNoFinalNewline && (to =? len oldLines))
           (cur st) (offset st) (reports st) (rejects st)).

Definition set_cur (st : applying) (c : Z) : applying :=
  Applying (aout st) (finalNoEOL st) c (offset st) (reports st) (rejects st).

Definition set_offset (st : applying) (o : Z) : applying :=
  Applying (aout st) (finalNoEOL st) (cur st) o (reports st) (rejects st).

Definition report (st : applying) (r : HunkReport) : applying :=
  Applying (aout st) (finalNoEOL st) (cur st) (offset st) (reports st ++ [r]) (rejects st).

Definition reject (st : applying) (idx : Z) (h : Hunk) : applying :=
  Applying (aout st) (finalNoEOL st) (cur st) (offset st)
    (reports st ++ [mkReport (idx + 1) HunkFailed 0 0]) (rejects st ++ [h]).

Definition apply_hunk (st : applying) (idx : Z) (h : Hunk) : outcome applying :=
  let! (matchStart, peelUsed, outcome) := locateHunk oldLines h (OldStart h + offset st) opts in
  match outcome with
  | HunkFailed =>
      let '(matchStart, e) :=
        if matchStart <? cur st then (cur st, cur st)
        else (matchStart, Z.min (matchStart + OldCount h) (len oldLines)) in
      let! st := appendVerbatim st (cur st) matchStart in
      let! st := appendVerbatim st matchStart e in
      Ret (reject (set_cur st e) idx h)
  | HunkAlreadyApplied =>
      let e := matchStart + NewCount h in
      if (len oldLines <? e) || (matchStart <? cur st) then Ret (reject st idx h)
      else
        let! st := appendVerbatim st (cur st) matchStart in
        let! st := appendVerbatim st matchStart e in
        Ret (report (set_offset (set_cur st e) (matchStart - OldStart h))
               (mkReport (idx + 1) HunkAlreadyApplied 0 matchStart))
  | _ =>
      if matchStart <? cur st then
        let e := Z.max (Z.min (matchStart + OldCount h) (len oldLines)) (cur st) in
        let! st := appendVerbatim st (cur st) e in
        Ret (reject (set_cur st e) idx h)
      else
        let! st := appendVerbatim st (cur st) matchStart in
        let! (repl, lastNoEOL, ok) := buildReplacement oldLines matchStart (Lines h) oldNoFinalNewline in
        let c := matchStart + OldCount h in
        let fin :=
          if (c =? len oldLines) && ok then lastNoEOL
          else if len oldLines <=? c then false
          else finalNoEOL st in
        Ret (Applying (aout st ++ repl) fin c (matchStart - OldStart h)
               (reports st ++ [mkReport (idx + 1) outcome peelUsed matchStart]) (rejects st))
  end.

Fixpoint apply_hunks (st : applying) (idx : Z) (work : list Hunk) : outcome applying :=
  match work with
  | [] => Ret st
  | h :: rest => let! st := apply_hunk st idx h in apply_hunks st (idx + 1) rest
  end.

Definition oriented (hunks : list Hunk) : list Hunk :=
  if Reverse opts then reverseHunk <$> hunks else hunks.

Definition Apply (hunks : list Hunk) : outcome Result :=
  let! st := apply_hunks (Applying [] oldNoFinalNewline 0 0 [] []) 0 (oriented hunks) in
  let! st := appendVerbatim st (cur st) (len oldLines) in
  Ret (mkResult (aout st) (finalNoEOL st) (reports st) (rejects st)).

(** ** Conditional application *)

Section Ifdef.
Context (define : list Z).

Definition endif : list Z := str! "#endif /* " ++ define ++ str! " */".

(** The conditional around one run of changes. *)
Definition conditional (oldPart newPart : list (list Z)) : list (list Z) :=
  match oldPart, newPart with
  | [], [] => []
  | _, [] => [str! "#ifndef " ++ define] ++ oldPart ++ [endif]
  | [], _ => [str! "#ifdef " ++ define] ++ newPart ++ [endif]
  | _, _ => [str! "#ifndef " ++ define] ++ oldPart ++ [str! "#else"] ++ newPart ++ [endif]
  end.

(** The lines of a hunk from [ti] on; [oldPart] and [newPart] are those of
    the run of changes being collected. *)
Fixpoint ifdef_lines (lines : list HunkLine) (ti : Z) (oldPart newPart out : list (list Z)) : outcome (list (list Z)) :=
  match lines with
  | [] => Ret (out ++ conditional oldPart newPart)
  | l :: rest =>
      match Kind l with
      | LineContext =>
          let! t := index oldLines ti in
          ifdef_lines rest (ti + 1) [] [] (out ++ conditional oldPart newPart ++ [t])
      | LineDelete =>
          let! t := index oldLines ti in
          ifdef_lines rest (ti + 1) (oldPart ++ [t]) newPart out
      | LineAdd => ifdef_lines rest ti oldPart (newPart ++ [Text l]) out
      end
  end.

Definition last_noEOL (lines : list HunkLine) : bool :=
  match last lines with
  | Some l => match Kind l with LineContext => NoEOL l | _ => false end
  | None => false
  end.

Definition ifdef_hunk (st : applying) (idx : Z) (h : Hunk) : outcome applying :=
  let! (at_, fuzz, outcome) := locateHunk oldLines h (OldStart h) opts in
  if bool_decide (outcome = HunkFailed \/ outcome = HunkAlreadyApplied) || (at_ <? cur st)
  then Ret (reject st idx h)
  else
    let! s := slice oldLines (cur st) at_ in
    let! out := ifdef_lines (Lines h) at_ [] [] (aout st ++ s) in
    let c := at_ + OldCount h in
    let fin := if c =? len oldLines then last_noEOL (Lines h) else finalNoEOL st in
    let rep := if 0 <? fuzz then HunkAppliedFuzzy else HunkApplied in
    Ret (Applying out fin c 0 (reports st ++ [mkReport (idx + 1) rep fuzz at_]) (rejects st)).

Fixpoint ifdef_hunks (st : applying) (idx : Z) (work : list Hunk) : outcome applying :=
  match work with
  | [] => Ret st
  | h :: rest => let! st := ifdef_hunk st idx h in ifdef_hunks st (idx + 1) rest
  end.

Definition ApplyIfdef (hunks : list Hunk) : outcome Result :=
  let! st := ifdef_hunks (Applying [] oldNoFinalNewline 0 0 [] []) 0 (oriented hunks) in
  let! s := slice oldLines (cur st) (len oldLines) in
  let fin := if cur st <? len oldLines then oldNoFinalNewline else finalNoEOL st in
  Ret (mkResult (aout st ++ s) fin (reports st) (rejects st)).

End Ifdef.

End Apply.
End PatchApply.
