(* ===== verification/PatchApplyCorrect.v ===== *)
(** * Applying a patch does what the patch says

    The proofs about [PatchApply]: the search finds the nearest match, no
    well-formed hunk makes [Apply] fail, its output is the file with the
    hunks reported as applied spliced in at the reported lines, an exact
    patch is applied exactly and can be reversed, and the conditional form
    holds both versions of the file. *)

From Stdlib Require Import ZArith Lia.
From stdpp Require Import base tactics list numbers strings.
From S2P Require Import Prelude PatchParse PatchApply.

Module PatchApplyCorrect.
Import Patch PatchApply.

(** ** Matching *)

(** The lines [want] are at the head of [l]. *)
Fixpoint matches (ignoreWS : bool) (l want : list (list Z)) {struct want} : bool :=
  match want, l with
  | [], _ => true
  | w :: want', t :: l' => same_line ignoreWS t w && matches ignoreWS l' want'
  | _ :: _, [] => false
  end.

Lemma matchAt_spec target want pos ws :
  0 <= pos -> pos + len want <= len target ->
  matchAt target want pos ws = Ret (matches ws (drop (Z.to_nat pos) target) want).
Proof.
  revert pos; induction want as [|w want IH]; intros pos Hp Hl; cbn [matchAt matches]; [done|].
  rewrite len_cons in Hl. pose proof (len_nonneg want).
  destruct (drop_lt target pos) as (x & r & E); [lia|].
  destruct (index_drop _ _ _ _ Hp E) as [-> Er]. cbn [bind]. rewrite E.
  destruct (same_line ws x w); [|done]. cbn [andb]. rewrite IH by lia. by rewrite Er.
Qed.

Lemma same_line_refl ws t : same_line ws t t = true.
Proof. unfold same_line. destruct ws; apply str_eqb_refl. Qed.

Lemma matches_app ws want l : matches ws (want ++ l) want = true.
Proof. induction want as [|w want IH]; [done|]. cbn. by rewrite same_line_refl. Qed.

(** ** The search *)

Lemma order_from_elem fuel d start lo hi c :
  lo <= start <= hi -> 0 < d ->
  c ∈ order_from fuel d start lo hi -> lo <= c <= hi /\ d <= Z.abs (c - start).
Proof.
  intros Hs. revert d; induction fuel as [|f IH]; intros d Hd; cbn [order_from]; [by intros ?%elem_of_nil|].
  destruct (Z.leb_spec lo (start - d)), (Z.leb_spec (start + d) hi); cbn [orb];
    rewrite ?elem_of_app, ?list_elem_of_singleton, ?elem_of_nil; try done.
  all: intros Hc; destruct_or! Hc; subst; try done; try (split; lia).
  all: apply IH in Hc; lia.
Qed.

Lemma order_from_complete fuel d start lo hi c :
  lo <= start <= hi -> 0 < d -> lo <= c <= hi -> d <= Z.abs (c - start) ->
  hi - lo < Z.of_nat fuel + d ->
  c ∈ order_from fuel d start lo hi.
Proof.
  intros Hs. revert d; induction fuel as [|f IH]; intros d Hd Hc Hdist Hf; [lia|]. cbn [order_from].
  destruct (Z.leb_spec lo (start - d)), (Z.leb_spec (start + d) hi); cbn [orb];
    rewrite ?elem_of_app, ?list_elem_of_singleton, ?elem_of_nil.
  all: try lia.
  all: destruct (decide (d = Z.abs (c - start))); [|do 2 right; apply IH; lia].
  - destruct (decide (c = start - d)); [by left|right; left; lia].
  - left. lia.
  - right. left. lia.
Qed.

(** The candidates come in order of distance. *)
Lemma order_from_sorted fuel d start lo hi l1 c l2 c' :
  lo <= start <= hi -> 0 < d ->
  order_from fuel d start lo hi = l1 ++ c :: l2 -> c' ∈ l2 ->
  Z.abs (c - start) <= Z.abs (c' - start).
Proof.
  intros Hs. revert d l1; induction fuel as [|f IH]; intros d l1 Hd; cbn [order_from]; [by destruct l1|].
  assert (Hmore : forall x, x ∈ order_from f (d + 1) start lo hi -> d + 1 <= Z.abs (x - start)).
  { intros x Hx. by apply order_from_elem in Hx as [_ ?]; [|lia..]. }
  destruct (Z.leb_spec lo (start - d)), (Z.leb_spec (start + d) hi); cbn [orb app]; [| | |by destruct l1].
  - destruct l1 as [|x [|y l1]]; intros E; injection E; clear E; intros; subst.
    + match goal with H : c' ∈ _ |- _ => apply elem_of_cons in H as [->|?%Hmore]; lia end.
    + match goal with H : c' ∈ _ |- _ => apply Hmore in H; lia end.
    + by eapply (IH (d + 1)); [lia|..].
  - destruct l1 as [|x l1]; intros E; injection E; clear E; intros; subst;
      [match goal with H : c' ∈ _ |- _ => apply Hmore in H; lia end|by eapply (IH (d + 1)); [lia|..]].
  - destruct l1 as [|x l1]; intros E; injection E; clear E; intros; subst;
      [match goal with H : c' ∈ _ |- _ => apply Hmore in H; lia end|by eapply (IH (d + 1)); [lia|..]].
Qed.

Lemma first_match_spec target want cands ws :
  Forall (fun c => 0 <= c /\ c + len want <= len target) cands ->
  match first_match target want cands ws with
  | Ret (Some c) => exists l1 l2, cands = l1 ++ c :: l2 /\
      matches ws (drop (Z.to_nat c) target) want = true /\
      Forall (fun c' => matches ws (drop (Z.to_nat c') target) want = false) l1
  | Ret None => Forall (fun c' => matches ws (drop (Z.to_nat c') target) want = false) cands
  | _ => False
  end.
Proof.
  induction 1 as [|c cands [Hc1 Hc2] _ IH]; cbn [first_match]; [done|].
  rewrite matchAt_spec by done. cbn [bind].
  destruct (matches ws _ want) eqn:E; [by exists [], cands|].
  destruct (first_match target want cands ws) as [[c'|]| |]; [|by constructor|done..].
  destruct IH as (l1 & l2 & -> & Hm & Hl). exists (c :: l1), l2. split_and!; [done..|by constructor].
Qed.

Lemma searchOrderWithin_range start lo hi c :
  lo <= start <= hi -> c ∈ searchOrderWithin start lo hi <-> lo <= c <= hi.
Proof.
  intros Hs. unfold searchOrderWithin. rewrite elem_of_cons. split.
  - intros [->|Hc]; [done|]. by apply order_from_elem in Hc as [? _].
  - intros Hc. destruct (decide (c = start)); [by left|right]. apply order_from_complete; lia.
Qed.

(** The nearest match in the range wins. *)
Lemma searchWithin_spec target want hint minStart maxStart ws :
  let lo := Z.max 0 minStart in
  let hi := Z.min maxStart (len target - len want) in
  match searchWithin target want hint minStart maxStart ws with
  | Ret (Some p) => lo <= p <= hi /\ matches ws (drop (Z.to_nat p) target) want = true /\
      forall c, lo <= c <= hi -> matches ws (drop (Z.to_nat c) target) want = true ->
        Z.abs (p - clampInt hint lo hi) <= Z.abs (c - clampInt hint lo hi)
  | Ret None => forall c, lo <= c <= hi -> matches ws (drop (Z.to_nat c) target) want = false
  | _ => False
  end.
Proof.
  intros lo hi. unfold searchWithin.
  replace (if minStart <? 0 then 0 else minStart) with lo
    by (unfold lo; destruct (Z.ltb_spec minStart 0); lia).
  replace (if _ <? maxStart then _ else maxStart) with hi
    by (unfold hi; destruct (Z.ltb_spec (len target - len want) maxStart); lia).
  destruct (Z.ltb_spec hi lo); [intros; lia|].
  assert (Hcl : lo <= clampInt hint lo hi <= hi).
  { unfold clampInt. destruct (Z.ltb_spec hint lo); [lia|]. destruct (Z.ltb_spec hi hint); lia. }
  destruct (Z.eqb_spec (len want) 0) as [E|_].
  { destruct want; [|rewrite len_cons in E; pose proof (len_nonneg want); lia].
    cbn [matches]. split; [done|]. split; [done|]. intros. rewrite Z.sub_diag. lia. }
  assert (Hr : Forall (fun c => 0 <= c /\ c + len want <= len target)
                 (searchOrderWithin (clampInt hint lo hi) lo hi)).
  { apply Forall_forall. intros c Hc%searchOrderWithin_range; [|done]. unfold lo, hi in Hc. lia. }
  pose proof (first_match_spec target want _ ws Hr) as Hf.
  destruct (first_match _ _ _ _) as [[p|]| |]; [| |done..].
  - destruct Hf as (l1 & l2 & E & Hm & Hl1).
    assert (Hp : lo <= p <= hi).
    { apply (searchOrderWithin_range (clampInt hint lo hi)); [done|]. rewrite E.
      apply elem_of_app. right. by left. }
    split; [done|]. split; [done|]. intros c Hc Hmc.
    apply (searchOrderWithin_range (clampInt hint lo hi)) in Hc; [|done].
    rewrite E in Hc. apply elem_of_app in Hc as [Hc|[->|Hc]%elem_of_cons]; [|done|].
    { rewrite Forall_forall in Hl1. rewrite (Hl1 c Hc) in Hmc. done. }
    unfold searchOrderWithin in E. destruct l1 as [|x l1]; injection E; intros; subst.
    { rewrite Z.sub_diag. lia. }
    by eapply (order_from_sorted _ 1); [|lia|..].
  - intros c Hc. rewrite Forall_forall in Hf. apply Hf. by apply searchOrderWithin_range.
Qed.

(** ** Placing a hunk *)

(** The counts of a hunk are those of its lines, as in every hunk of a
    unified or normal diff and of a context diff with its two blocks. *)
Definition wf_hunk (h : Hunk) : Prop :=
  OldCount h = len (oldSeq (Lines h)) /\ NewCount h = len (newSeq (Lines h)).

Lemma oldSeq_app l k : oldSeq (l ++ k) = oldSeq l ++ oldSeq k.
Proof. unfold oldSeq. by rewrite filter_app, fmap_app. Qed.

Lemma newSeq_app l k : newSeq (l ++ k) = newSeq l ++ newSeq k.
Proof. unfold newSeq. by rewrite filter_app, fmap_app. Qed.

Lemma count_context_nonneg lines : 0 <= count_context lines <= len lines.
Proof.
  induction lines as [|l lines IH]; cbn [count_context]; [done|]. rewrite len_cons.
  destruct (Kind l); lia.
Qed.

Lemma count_context_take lines k :
  0 <= k <= count_context lines -> len (oldSeq (take (Z.to_nat k) lines)) = k.
Proof.
  revert k; induction lines as [|l lines IH]; intros k; cbn [count_context].
  { intros. rewrite take_nil. change (len (oldSeq [])) with 0. lia. }
  destruct (decide (k = 0)) as [->|Hk]; [done|].
  destruct (Kind l) eqn:E; [|lia..]. intros H.
  replace (Z.to_nat k) with (S (Z.to_nat (k - 1))) by lia. cbn [take].
  unfold oldSeq. rewrite filter_cons_True by (by rewrite E). cbn [fmap list_fmap].
  rewrite len_cons. fold (oldSeq (take (Z.to_nat (k - 1)) lines)). rewrite IH by lia. lia.
Qed.

Lemma oldSeq_rev lines : oldSeq (rev lines) = rev (oldSeq lines).
Proof.
  induction lines as [|l lines IH]; [done|]. cbn [rev]. rewrite oldSeq_app, IH.
  change (l :: lines) with ([l] ++ lines). rewrite oldSeq_app, rev_app_distr. f_equal.
  unfold oldSeq. rewrite filter_cons, filter_nil. by destruct (decide _).
Qed.

Lemma count_context_drop lines k :
  0 <= k <= count_context (rev lines) ->
  len (oldSeq (drop (length lines - Z.to_nat k) lines)) = k.
Proof.
  intros H. rewrite <- (count_context_take (rev lines) k H) at 2.
  rewrite firstn_rev, oldSeq_rev. unfold len. by rewrite length_rev.
Qed.

Section Locate.
Context (oldLines : list (list Z)) (h : Hunk) (opts : ApplyOptions) (Hwf : wf_hunk h).

Definition peel_lead (f : Z) : Z := Z.min f (fst (edgeContextCounts (Lines h))).
Definition peel_trail (f : Z) : Z := Z.min f (snd (edgeContextCounts (Lines h))).

(** The old side without the edge context that fuzz [f] drops. *)
Definition core_old (f : Z) : list (list Z) :=
  oldSeq (sub (peel_lead f) (len (Lines h) - peel_trail f) (Lines h)).

(** The hunk fits at line [p] with fuzz [f]. *)
Definition fits (f p : Z) : Prop :=
  0 <= p /\ p + OldCount h <= len oldLines /\
  matches (IgnoreWhitespace opts) (drop (Z.to_nat (p + peel_lead f)) oldLines) (core_old f) = true.

Lemma edge_counts_range :
  let '(lead, trail) := edgeContextCounts (Lines h) in
  0 <= lead <= count_context (Lines h) /\ 0 <= trail <= count_context (rev (Lines h)) /\
  lead + trail <= len (Lines h).
Proof.
  unfold edgeContextCounts. pose proof (count_context_nonneg (Lines h)).
  pose proof (count_context_nonneg (rev (Lines h))).
  destruct (Z.ltb_spec (len (Lines h)) (count_context (Lines h) + count_context (rev (Lines h)))); lia.
Qed.

Lemma len_core_old f :
  0 <= f -> len (core_old f) = OldCount h - peel_lead f - peel_trail f.
Proof.
  intros Hf. unfold core_old, peel_lead, peel_trail. pose proof edge_counts_range as HE.
  destruct (edgeContextCounts (Lines h)) as [lead trail]. cbn [fst snd].
  destruct HE as (H1 & H2 & H3).
  set (pl := Z.min f lead). set (pt := Z.min f trail).
  pose proof (count_context_take (Lines h) pl ltac:(lia)) as E1.
  pose proof (count_context_drop (Lines h) pt ltac:(lia)) as E2.
  rewrite (proj1 Hwf).
  assert (Hsplit : Lines h = take (Z.to_nat pl) (Lines h) ++ sub pl (len (Lines h) - pt) (Lines h) ++
    drop (length (Lines h) - Z.to_nat pt) (Lines h)).
  { rewrite <- (take_drop (Z.to_nat pl) (Lines h)) at 1. f_equal. unfold sub, len.
    rewrite <- (take_drop (Z.to_nat (Z.of_nat (length (Lines h)) - pt - pl)) (drop (Z.to_nat pl) (Lines h))) at 1.
    f_equal. rewrite drop_drop. f_equal. unfold len in *. lia. }
  apply (f_equal (fun l => len (oldSeq l))) in Hsplit. rewrite !oldSeq_app, !len_app in Hsplit. lia.
Qed.

Lemma clampInt_shift e k lo hi lo' hi' :
  lo' = lo + k -> hi' = hi + k -> clampInt (e + k) lo' hi' = clampInt e lo hi + k.
Proof.
  intros -> ->. unfold clampInt.
  destruct (Z.ltb_spec (e + k) (lo + k)), (Z.ltb_spec e lo); try lia.
  destruct (Z.ltb_spec (hi + k) (e + k)), (Z.ltb_spec hi e); lia.
Qed.

Lemma search_fits f expected :
  0 <= f ->
  match searchWithin oldLines (core_old f) (expected + peel_lead f) (peel_lead f)
          (len oldLines - OldCount h + peel_lead f) (IgnoreWhitespace opts) with
  | Ret (Some p) => fits f (p - peel_lead f) /\
      forall q, fits f q ->
        Z.abs (p - peel_lead f - clampInt expected 0 (len oldLines - OldCount h)) <=
        Z.abs (q - clampInt expected 0 (len oldLines - OldCount h))
  | Ret None => forall q, ~ fits f q
  | _ => False
  end.
Proof.
  intros Hf. pose proof (len_core_old f Hf) as HL. pose proof edge_counts_range as HE.
  assert (Hpl : 0 <= peel_lead f /\ 0 <= peel_trail f).
  { unfold peel_lead, peel_trail. destruct (edgeContextCounts _). cbn. lia. }
  pose proof (searchWithin_spec oldLines (core_old f) (expected + peel_lead f) (peel_lead f)
          (len oldLines - OldCount h + peel_lead f) (IgnoreWhitespace opts)) as HS.
  cbv zeta in HS. rewrite Z.max_r in HS by lia. rewrite Z.min_l in HS by lia.
  destruct (searchWithin _ _ _ _ _ _) as [[p|]| |]; [| |done..].
  - destruct HS as (Hp & Hm & Hnear). split.
    { split_and!; [lia|lia|]. by replace (p - peel_lead f + peel_lead f) with p by lia. }
    intros q (Hq1 & Hq2 & Hq3). specialize (Hnear (q + peel_lead f) ltac:(lia) Hq3).
    rewrite (clampInt_shift expected (peel_lead f) 0 (len oldLines - OldCount h)) in Hnear by lia. lia.
  - intros q (Hq1 & Hq2 & Hq3). rewrite HS in Hq3 by lia. done.
Qed.

Lemma fits_peel f g p :
  peel_lead f = peel_lead g -> peel_trail f = peel_trail g -> fits f p -> fits g p.
Proof. unfold fits, core_old. by intros -> ->. Qed.

Definition placed_with (expected maxFuzz f0 : Z) (r : option (Z * Z * HunkOutcome)) : Prop :=
  match r with
  | Some (p, f, o) => f0 <= f <= maxFuzz /\
      o = (if 0 <? f then HunkAppliedFuzzy else HunkApplied) /\ fits f p /\
      (forall q, fits f q ->
         Z.abs (p - clampInt expected 0 (len oldLines - OldCount h)) <=
         Z.abs (q - clampInt expected 0 (len oldLines - OldCount h))) /\
      forall g q, f0 <= g < f -> ~ fits g q
  | None => forall g q, f0 <= g <= maxFuzz -> ~ fits g q
  end.

Lemma fuzz_rounds_spec fuel expected maxFuzz f :
  let '(lead, trail) := edgeContextCounts (Lines h) in
  0 <= f -> maxFuzz < f \/ (f <= Z.max lead trail /\ Z.max lead trail < Z.of_nat fuel + f) ->
  exists r, fuzz_rounds fuel oldLines h expected opts lead trail maxFuzz f = Ret r /\
    placed_with expected maxFuzz f r.
Proof.
  destruct (edgeContextCounts (Lines h)) as [lead trail] eqn:EE.
  revert f; induction fuel as [|fuel IH]; intros f Hf Hfuel; cbn [fuzz_rounds].
  all: destruct (Z.ltb_spec maxFuzz f); [exists None; split; [done|]; intros g q; lia|].
  { lia. }
  destruct Hfuel as [|[Hf1 Hf2]]; [lia|].
  pose proof edge_counts_range as HE. rewrite EE in HE. destruct HE as (H1 & H2 & H3).
  assert (Epl : peel_lead f = Z.min f lead) by (unfold peel_lead; by rewrite EE).
  assert (Ept : peel_trail f = Z.min f trail) by (unfold peel_trail; by rewrite EE).
  rewrite slice_Ret by lia. cbn [bind].
  pose proof (search_fits f expected Hf) as HS. unfold core_old in HS. rewrite Epl, Ept in HS.
  destruct (searchWithin _ _ _ _ _ _) as [[p|]| |]; [| |done..]; cbn [bind].
  - destruct HS as [HF HN]. eexists. split; [done|]. split_and!; [lia..|done|done|done|]. intros; lia.
  - destruct (Z.eqb_spec (Z.min f lead) lead), (Z.eqb_spec (Z.min f trail) trail),
      (Z.ltb_spec f maxFuzz); cbn [andb].
    { exists None. split; [done|]. intros g q Hg HF. apply (HS q). eapply fits_peel; [..|done].
      - rewrite Epl. unfold peel_lead. rewrite EE. cbn. lia.
      - rewrite Ept. unfold peel_trail. rewrite EE. cbn. lia. }
    all: destruct (IH (f + 1)) as (r & -> & HP); [lia|lia|].
    all: exists r; split; [done|]; destruct r as [[[p f'] o]|].
    all: try (destruct HP as (Hr & Ho & HF & HN & HM); split_and!; [lia..|done|done|done|];
      intros g q Hg; destruct (decide (g = f)) as [->|]; [apply HS|apply HM; lia]).
    all: intros g q Hg; destruct (decide (g = f)) as [->|]; [apply HS|apply HP; lia].
Qed.

(** Where a hunk goes, in every case. *)
Definition located (expected : Z) (p f : Z) (o : HunkOutcome) : Prop :=
  let maxFuzz := Z.max (Fuzz opts) 0 in
  match o with
  | HunkApplied | HunkAppliedFuzzy => placed_with expected maxFuzz 0 (Some (p, f, o))
  | HunkAlreadyApplied =>
      (forall g q, 0 <= g <= maxFuzz -> ~ fits g q) /\ Force opts = false /\
      newSeq (Lines h) <> [] /\ 0 <= p /\ p + NewCount h <= len oldLines /\
      matches (IgnoreWhitespace opts) (drop (Z.to_nat p) oldLines) (newSeq (Lines h)) = true
  | HunkFailed =>
      (forall g q, 0 <= g <= maxFuzz -> ~ fits g q) /\ p = clampInt expected 0 (len oldLines)
  end.

Lemma locateHunk_spec expected :
  exists p f o, locateHunk oldLines h expected opts = Ret (p, f, o) /\ located expected p f o.
Proof.
  unfold locateHunk.
  pose proof (fuzz_rounds_spec (S (length (Lines h))) expected (Z.max (Fuzz opts) 0) 0) as HR.
  pose proof edge_counts_range as HE.
  destruct (edgeContextCounts (Lines h)) as [lead trail].
  destruct HE as (HE1 & HE2 & HE3). unfold len in HE3.
  destruct HR as (r & -> & HP); [lia|lia|]. cbn [bind].
  destruct r as [[[p f] o]|].
  { exists p, f, o. split; [done|]. destruct HP as (? & -> & ?).
    destruct (0 <? f) eqn:E; cbn; by rewrite E. }
  cbn in HP.
  destruct (negb (Force opts) && (0 <? len (newSeq (Lines h)))) eqn:EF; cbn [bind].
  - to_prop. pose proof (searchWithin_spec oldLines (newSeq (Lines h)) expected 0
      (len oldLines - len (newSeq (Lines h))) (IgnoreWhitespace opts)) as HS. cbv zeta in HS.
    unfold search. destruct (searchWithin _ _ _ _ _ _) as [[p|]| |]; [| |done..]; cbn [bind].
    + exists p, 0, HunkAlreadyApplied. split; [done|]. destruct HS as (Hp & Hm & _).
      destruct Hwf as [_ HN]. split_and!; [done|done| |lia|rewrite HN; lia|done].
      intros E0. rewrite E0 in *. change (len []) with 0 in *. lia.
    + by do 3 eexists.
  - by do 3 eexists.
Qed.

End Locate.

(** ** The replacement *)

(** A hunk over the lines it stands on: context is kept as the file has it,
    deleted lines go, added lines come from the patch. *)
Fixpoint weave (file : list (list Z)) (lines : list HunkLine) : list (list Z) :=
  match lines with
  | [] => []
  | l :: rest =>
      match Kind l with
      | LineContext => take 1 file ++ weave (tail file) rest
      | LineDelete => weave (tail file) rest
      | LineAdd => Text l :: weave file rest
      end
  end.

(** The flag of the last line of the new side. *)
Definition new_flag (dflt : bool) (lines : list HunkLine) : bool :=
  match last (filter (fun l => Kind l <> LineDelete) lines) with
  | Some l => NoEOL l
  | None => dflt
  end.

Definition has_new (lines : list HunkLine) : bool :=
  match filter (fun l => Kind l <> LineDelete) lines with [] => false | _ => true end.

Lemma new_flag_cons dflt l lines :
  Kind l <> LineDelete -> new_flag dflt (l :: lines) = new_flag (NoEOL l) lines.
Proof.
  intros Hk. unfold new_flag. rewrite filter_cons_True by done. rewrite last_cons.
  by destruct (last _).
Qed.

Lemma oldSeq_cons l lines :
  oldSeq (l :: lines) =
  match Kind l with LineAdd => oldSeq lines | _ => Text l :: oldSeq lines end.
Proof.
  unfold oldSeq. rewrite filter_cons. by destruct (Kind l).
Qed.

Lemma newSeq_cons l lines :
  newSeq (l :: lines) =
  match Kind l with LineDelete => newSeq lines | _ => Text l :: newSeq lines end.
Proof.
  unfold newSeq. rewrite filter_cons. by destruct (Kind l).
Qed.

Lemma buildReplacement_from_spec old ti lines repl flag saw :
  0 <= ti -> ti + len (oldSeq lines) <= len old ->
  buildReplacement_from old ti lines repl flag saw =
  Ret (repl ++ weave (drop (Z.to_nat ti) old) lines, new_flag flag lines, saw || has_new lines).
Proof.
  revert ti repl flag saw; induction lines as [|l lines IH]; intros ti repl flag saw Ht Hl.
  { cbn. by rewrite app_nil_r, orb_false_r. }
  rewrite oldSeq_cons in Hl. cbn [buildReplacement_from weave].
  pose proof (len_nonneg (oldSeq lines)).
  destruct (Kind l) eqn:EK; rewrite ?len_cons in Hl.
  - destruct (drop_lt old ti) as (x & r & E); [lia|].
    destruct (index_drop _ _ _ _ Ht E) as [-> Er]. cbn [bind].
    rewrite IH by lia. rewrite E, Er, <- app_assoc, new_flag_cons by (by rewrite EK).
    unfold has_new at 2. rewrite filter_cons_True by (by rewrite EK). by rewrite orb_true_r.
  - destruct (drop_lt old ti) as (x & r & E); [lia|].
    destruct (index_drop _ _ _ _ Ht E) as [_ Er].
    rewrite IH by lia. rewrite E, Er. do 3 f_equal.
    + unfold new_flag. by rewrite filter_cons_False by (rewrite EK; naive_solver).
    + unfold has_new. by rewrite filter_cons_False by (rewrite EK; naive_solver).
  - rewrite IH by lia. rewrite <- app_assoc, new_flag_cons by (by rewrite EK).
    unfold has_new at 2. rewrite filter_cons_True by (by rewrite EK). by rewrite orb_true_r.
Qed.

Lemma buildReplacement_spec old ti lines flag :
  0 <= ti -> ti + len (oldSeq lines) <= len old ->
  buildReplacement old ti lines flag =
  Ret (weave (drop (Z.to_nat ti) old) lines, new_flag flag lines, has_new lines).
Proof. intros. unfold buildReplacement. by rewrite buildReplacement_from_spec. Qed.

(** ** Splicing *)

Section Splice.
Context (old : list (list Z)).

(** The file from line [from] to line [to] with the hunks [ps] in place. *)
Fixpoint spliced (from : Z) (ps : list (Hunk * Z)) (to : Z) : list (list Z) :=
  match ps with
  | [] => sub from to old
  | (h, a) :: ps' =>
      sub from a old ++ weave (drop (Z.to_nat a) old) (Lines h) ++ spliced (a + OldCount h) ps' to
  end.

(** The hunks stand one after the other between [from] and [to]. *)
Fixpoint in_order (from : Z) (ps : list (Hunk * Z)) (to : Z) : Prop :=
  match ps with
  | [] => from <= to
  | (h, a) :: ps' => from <= a /\ 0 <= OldCount h /\ in_order (a + OldCount h) ps' to
  end.

Lemma in_order_weaken from ps to to' : in_order from ps to -> to <= to' -> in_order from ps to'.
Proof.
  revert from; induction ps as [|[h a] ps IH]; intros from; cbn; [lia|].
  intros (? & ? & ?) ?. split_and!; [lia..|]. by apply IH.
Qed.

Lemma in_order_le from ps to : in_order from ps to -> from <= to.
Proof.
  revert from; induction ps as [|[h a] ps IH]; intros from; cbn; [done|].
  intros (? & ? & H%IH). lia.
Qed.

Lemma spliced_extend from ps to to' :
  0 <= from -> in_order from ps to -> to <= to' ->
  spliced from ps to ++ sub to to' old = spliced from ps to'.
Proof.
  revert from; induction ps as [|[h a] ps IH]; intros from Hf Ho Ht; cbn in *.
  { by apply sub_app. }
  destruct Ho as (? & ? & Ho). rewrite <- !app_assoc, IH by (done || lia). done.
Qed.

Lemma spliced_snoc from ps h a :
  0 <= from -> in_order from ps a -> 0 <= OldCount h ->
  spliced from (ps ++ [(h, a)]) (a + OldCount h) =
    spliced from ps a ++ weave (drop (Z.to_nat a) old) (Lines h) /\
  in_order from (ps ++ [(h, a)]) (a + OldCount h).
Proof.
  revert from; induction ps as [|[h' a'] ps IH]; intros from Hf Ho Hc; cbn in *.
  { split; [by rewrite sub_nil, app_nil_r|]. split_and!; lia. }
  destruct Ho as (? & ? & Ho). destruct (IH (a' + OldCount h')) as [-> ?]; [lia|done..|].
  split; [by rewrite <- !app_assoc|]. split_and!; [lia..|done].
Qed.

End Splice.

Definition applied_outcome (o : HunkOutcome) : bool :=
  match o with HunkApplied | HunkAppliedFuzzy => true | _ => false end.

(** The hunks reported as applied, and where. *)
Fixpoint placements (work : list Hunk) (reps : list HunkReport) : list (Hunk * Z) :=
  match work, reps with
  | h :: work', r :: reps' =>
      (if applied_outcome (Outcome r) then [(h, At r)] else []) ++ placements work' reps'
  | _, _ => []
  end.

(** The hunks reported as failed. *)
Fixpoint failed (work : list Hunk) (reps : list HunkReport) : list Hunk :=
  match work, reps with
  | h :: work', r :: reps' =>
      (match Outcome r with HunkFailed => [h] | _ => [] end) ++ failed work' reps'
  | _, _ => []
  end.

Lemma placements_snoc work reps h r :
  length work = length reps ->
  placements (work ++ [h]) (reps ++ [r]) =
  placements work reps ++ (if applied_outcome (Outcome r) then [(h, At r)] else []).
Proof.
  revert reps; induction work as [|h' work IH]; intros [|r' reps] Hl; try done; cbn.
  - by rewrite app_nil_r.
  - injection Hl as Hl. by rewrite IH, app_assoc.
Qed.

Lemma failed_snoc work reps h r :
  length work = length reps ->
  failed (work ++ [h]) (reps ++ [r]) =
  failed work reps ++ (match Outcome r with HunkFailed => [h] | _ => [] end).
Proof.
  revert reps; induction work as [|h' work IH]; intros [|r' reps] Hl; try done; cbn.
  - by rewrite app_nil_r.
  - injection Hl as Hl. by rewrite IH, app_assoc.
Qed.

Section ApplyCorrect.
Context (old : list (list Z)) (flag : bool) (opts : ApplyOptions).

Lemma appendVerbatim_spec st from to :
  0 <= from -> from <= to -> to <= len old ->
  appendVerbatim old flag st from to =
  Ret (Applying (aout st ++ sub from to old)
         (if to <=? from then finalNoEOL st else flag && (to =? len old))
         (cur st) (offset st) (reports st) (rejects st)).
Proof.
  intros. unfold appendVerbatim. destruct (Z.leb_spec to from).
  - assert (from = to) as -> by lia. rewrite sub_nil, app_nil_r. by destruct st.
  - by rewrite slice_Ret by lia.
Qed.

(** What is true of a report of a hunk: a placed hunk fits there. *)
Definition report_ok (h : Hunk) (r : HunkReport) : Prop :=
  applied_outcome (Outcome r) = true -> fits old h opts (FuzzUsed r) (At r).

Record apply_ok (seen : list Hunk) (st : applying) : Prop := ApplyOk {
  ao_cur : 0 <= cur st <= len old;
  ao_length : length (reports st) = length seen;
  ao_out : aout st = spliced old 0 (placements seen (reports st)) (cur st);
  ao_order : in_order 0 (placements seen (reports st)) (cur st);
  ao_rejects : rejects st = failed seen (reports st);
  ao_reports : Forall2 report_ok seen (reports st)
}.

(** Copying more of the file. *)
Lemma apply_ok_copy seen st to fl off :
  apply_ok seen st -> cur st <= to -> to <= len old ->
  apply_ok seen (Applying (aout st ++ sub (cur st) to old) fl to off (reports st) (rejects st)).
Proof.
  intros [A1 A2 A3 A4 A5 A6] H1 H2. split; cbn; try done.
  - lia.
  - rewrite A3. apply spliced_extend; [lia|done..].
  - by eapply in_order_weaken.
Qed.

(** A report without a placement. *)
Lemma apply_ok_note seen st h r rej :
  apply_ok seen st -> applied_outcome (Outcome r) = false ->
  rej = rejects st ++ (match Outcome r with HunkFailed => [h] | _ => [] end) ->
  apply_ok (seen ++ [h])
    (Applying (aout st) (finalNoEOL st) (cur st) (offset st) (reports st ++ [r]) rej).
Proof.
  intros [A1 A2 A3 A4 A5 A6] Ho ->.
  split; cbn [cur reports aout rejects]; rewrite ?placements_snoc, ?Ho, ?app_nil_r by done; try done.
  - rewrite !length_app. cbn. lia.
  - by rewrite failed_snoc, A5.
  - apply Forall2_app; [done|]. constructor; [|done]. unfold report_ok. by rewrite Ho.
Qed.

Lemma clampInt_range v lo hi : lo <= hi -> lo <= clampInt v lo hi <= hi.
Proof.
  intros. unfold clampInt. destruct (Z.ltb_spec v lo); [lia|]. destruct (Z.ltb_spec hi v); lia.
Qed.

Lemma wf_counts h : wf_hunk h -> 0 <= OldCount h /\ 0 <= NewCount h.
Proof.
  intros [-> ->]. pose proof (len_nonneg (oldSeq (Lines h))).
  pose proof (len_nonneg (newSeq (Lines h))). lia.
Qed.

(** A hunk that is placed. *)
Lemma apply_ok_place seen st h p f o fl off :
  wf_hunk h -> apply_ok seen st -> cur st <= p -> fits old h opts f p ->
  applied_outcome o = true ->
  apply_ok (seen ++ [h])
    (Applying (aout st ++ sub (cur st) p old ++ weave (drop (Z.to_nat p) old) (Lines h)) fl
       (p + OldCount h) off (reports st ++ [mkReport (len seen + 1) o f p]) (rejects st)).
Proof.
  intros Hwf A Hp HF Ho. pose proof (wf_counts h Hwf). pose proof HF as (HF1 & HF2 & _).
  destruct (apply_ok_copy seen st p fl off A Hp ltac:(lia)) as [B1 B2 B3 B4 B5 B6].
  cbn [cur reports aout rejects] in *.
  destruct (spliced_snoc old 0 (placements seen (reports st)) h p) as [E1 E2]; [lia|done|lia|].
  split; cbn [cur reports aout rejects]; rewrite ?placements_snoc, ?failed_snoc by done;
    cbn [Outcome At]; rewrite ?Ho.
  - lia.
  - rewrite !length_app. cbn. lia.
  - by rewrite E1, <- B3, app_assoc.
  - done.
  - rewrite B5. destruct o; [by rewrite app_nil_r..|done|done].
  - apply Forall2_app; [done|]. constructor; [|done]. by intros _.
Qed.

Lemma apply_hunk_ok seen st h :
  wf_hunk h -> apply_ok seen st ->
  exists st', apply_hunk old flag opts st (len seen) h = Ret st' /\ apply_ok (seen ++ [h]) st'.
Proof.
  intros Hwf A. pose proof (wf_counts h Hwf) as [HO HN]. pose proof (ao_cur _ _ A) as HC.
  unfold apply_hunk.
  destruct (locateHunk_spec old h opts Hwf (OldStart h + offset st)) as (p & f & o & -> & HL).
  cbn [bind].
  destruct o.
  1, 2: destruct HL as (_ & _ & HF & _); pose proof HF as (HF1 & HF2 & _).
  1, 2: destruct (Z.ltb_spec p (cur st)).
  1, 3: rewrite appendVerbatim_spec by lia; cbn [bind]; eexists; split; [done|];
    unfold reject, set_cur; cbn [aout finalNoEOL cur offset reports rejects];
    by eapply (apply_ok_note seen _ h _ _ (apply_ok_copy seen st
      (Z.max (Z.min (p + OldCount h) (len old)) (cur st)) _ _ A ltac:(lia) ltac:(lia))).
  1, 2: rewrite appendVerbatim_spec by lia; cbn [bind];
    rewrite buildReplacement_spec by (rewrite <- ?(proj1 Hwf); lia); cbn [bind];
    eexists; split; [done|]; cbn [aout finalNoEOL cur offset reports rejects];
    rewrite <- app_assoc; by eapply apply_ok_place.
  - destruct HL as (_ & _ & _ & Hp1 & Hp2 & _).
    destruct (Z.ltb_spec (len old) (p + NewCount h)); [lia|].
    destruct (Z.ltb_spec p (cur st)); cbn [orb].
    { eexists. split; [done|]. by apply apply_ok_note. }
    rewrite appendVerbatim_spec by lia. cbn [bind]. rewrite appendVerbatim_spec by lia. cbn [bind].
    eexists. split; [done|]. unfold report, set_offset, set_cur.
    cbn [aout finalNoEOL cur offset reports rejects].
    rewrite <- app_assoc, sub_app by lia.
    eapply (apply_ok_note seen _ h _ _ (apply_ok_copy seen st (p + NewCount h) _ _ A
      ltac:(lia) ltac:(lia))); [done|]. cbn. by rewrite app_nil_r.
  - destruct HL as [_ ->]. pose proof (clampInt_range (OldStart h + offset st) 0 (len old)
      (len_nonneg old)) as Hcl.
    set (q := clampInt _ _ _) in *.
    destruct (Z.ltb_spec q (cur st));
      rewrite appendVerbatim_spec by lia; cbn [bind]; rewrite appendVerbatim_spec by lia; cbn [bind];
      (eexists; split; [done|]); unfold reject, set_cur; cbn [aout finalNoEOL cur offset reports rejects];
      rewrite <- app_assoc, sub_app by lia.
    + by eapply (apply_ok_note seen _ h _ _
        (apply_ok_copy seen st (cur st) _ _ A ltac:(lia) ltac:(lia))).
    + by eapply (apply_ok_note seen _ h _ _
        (apply_ok_copy seen st (Z.min (q + OldCount h) (len old)) _ _ A ltac:(lia) ltac:(lia))).
Qed.

Lemma apply_hunks_ok seen st work :
  Forall wf_hunk work -> apply_ok seen st ->
  exists st', apply_hunks old flag opts st (len seen) work = Ret st' /\ apply_ok (seen ++ work) st'.
Proof.
  intros HW. revert seen st; induction HW as [|h work Hh _ IH]; intros seen st A; cbn [apply_hunks].
  { exists st. by rewrite app_nil_r. }
  destruct (apply_hunk_ok seen st h Hh A) as (st1 & -> & A1). cbn [bind].
  destruct (IH (seen ++ [h]) st1 A1) as (st2 & E & A2). exists st2.
  rewrite len_app, len_cons in E. rewrite <- app_assoc in A2. split; [|done].
  by replace (len seen + 1) with (len seen + (1 + len (@nil Hunk))) by done.
Qed.

Lemma oldSeq_reverse ls : oldSeq (reverse_line <$> ls) = newSeq ls.
Proof.
  induction ls as [|l ls IH]; [done|]. cbn [fmap list_fmap].
  rewrite oldSeq_cons, newSeq_cons, <- IH. by destruct l as [[] ? ?].
Qed.

Lemma newSeq_reverse ls : newSeq (reverse_line <$> ls) = oldSeq ls.
Proof.
  induction ls as [|l ls IH]; [done|]. cbn [fmap list_fmap].
  rewrite oldSeq_cons, newSeq_cons, <- IH. by destruct l as [[] ? ?].
Qed.

Lemma reverse_wf h : wf_hunk h -> wf_hunk (reverseHunk h).
Proof.
  intros [H1 H2]. split; cbn [reverseHunk OldCount NewCount Lines];
    by rewrite ?oldSeq_reverse, ?newSeq_reverse.
Qed.

Lemma oriented_wf hunks : Forall wf_hunk hunks -> Forall wf_hunk (oriented opts hunks).
Proof.
  unfold oriented. destruct (Reverse opts); [|done]. intros H. apply Forall_fmap.
  eapply Forall_impl; [done|]. intros h Hh. by apply reverse_wf.
Qed.

Lemma Apply_spec hunks :
  Forall wf_hunk hunks ->
  exists r, Apply old flag opts hunks = Ret r /\
    let work := oriented opts hunks in
    let ps := placements work (Reports r) in
    RLines r = spliced old 0 ps (len old) /\ in_order 0 ps (len old) /\
    Rejects r = failed work (Reports r) /\ Forall2 report_ok work (Reports r).
Proof.
  intros HW. unfold Apply.
  destruct (apply_hunks_ok [] (Applying [] flag 0 0 [] []) (oriented opts hunks)) as (st & E & A).
  { by apply oriented_wf. }
  { pose proof (len_nonneg old). split; cbn; try done. }
  change (len (@nil Hunk)) with 0 in E. rewrite E. cbn [bind].
  pose proof (ao_cur _ _ A). rewrite appendVerbatim_spec by lia. cbn [bind].
  eexists. split; [done|]. cbn [aout finalNoEOL cur offset reports rejects RLines Reports Rejects].
  destruct (apply_ok_copy _ _ (len old) flag 0 A ltac:(lia) ltac:(lia)) as [B1 B2 B3 B4 B5 B6]. done.
Qed.

End ApplyCorrect.

(** ** Exact patches *)

(** An edit script: each change after the lines it leaves alone. *)
Abbreviation change := (list (list Z) * list HunkLine)%type.
Abbreviation script := (list change).

Definition old_of (s : script) : list (list Z) := concat ((fun c : change => c.1 ++ oldSeq c.2) <$> s).
Definition new_of (s : script) : list (list Z) := concat ((fun c : change => c.1 ++ newSeq c.2) <$> s).

(** Its hunks, at their exact lines. *)
Fixpoint hunks_of (o n : Z) (s : script) : list Hunk :=
  match s with
  | [] => []
  | (gap, ls) :: s' =>
      mkHunk (o + len gap) (len (oldSeq ls)) (n + len gap) (len (newSeq ls)) ls ::
      hunks_of (o + len gap + len (oldSeq ls)) (n + len gap + len (newSeq ls)) s'
  end.

Fixpoint reports_of (idx o : Z) (s : script) : list HunkReport :=
  match s with
  | [] => []
  | (gap, ls) :: s' =>
      mkReport (idx + 1) HunkApplied 0 (o + len gap) ::
      reports_of (idx + 1) (o + len gap + len (oldSeq ls)) s'
  end.

(** Whether the last line of the result lacks its newline, when the last
    change reaches the end of the file. *)
Fixpoint last_flag (flag fl : bool) (s : script) : bool :=
  match s with
  | [] => fl
  | (_, ls) :: s' => last_flag flag (if has_new ls then new_flag flag ls else false) s'
  end.

Lemma weave_exact ls r : weave (oldSeq ls ++ r) ls = newSeq ls.
Proof.
  induction ls as [|l ls IH]; [done|]. rewrite oldSeq_cons, newSeq_cons. cbn [weave].
  destruct (Kind l); cbn; by rewrite ?IH.
Qed.

Lemma locateHunk_exact pre ls rest opts o n nc :
  locateHunk (pre ++ oldSeq ls ++ rest) (mkHunk o (len (oldSeq ls)) n nc ls) (len pre) opts =
  Ret (len pre, 0, HunkApplied) \/ nc <> len (newSeq ls).
Proof.
  destruct (decide (nc = len (newSeq ls))) as [->|]; [left|by right].
  set (h := mkHunk _ _ _ _ _). set (old := pre ++ oldSeq ls ++ rest).
  assert (Hwf : wf_hunk h) by done.
  assert (HF : fits old h opts 0 (len pre)).
  { pose proof (edge_counts_range h) as HE. unfold fits, core_old, peel_lead, peel_trail.
    destruct (edgeContextCounts (Lines h)) as [lead trail]. cbn [fst snd].
    rewrite !Z.min_l by lia. rewrite Z.add_0_r, Z.sub_0_r, sub_all by lia.
    split_and!; [apply len_nonneg| |].
    - unfold old. rewrite !len_app. cbn. pose proof (len_nonneg rest). lia.
    - unfold old, len. rewrite Nat2Z.id, drop_app_length. apply matches_app. }
  destruct (locateHunk_spec old h opts Hwf (len pre)) as (p & f & oc & -> & HL).
  assert (Happ : placed_with old h opts (len pre) (Z.max (Fuzz opts) 0) 0 (Some (p, f, oc))).
  { destruct oc; try done; destruct HL as [HL _]; by destruct (HL 0 (len pre)); [lia|]. }
  destruct Happ as (Hf & Ho & HP & Hnear & Hmin).
  assert (f = 0) as ->.
  { destruct (decide (f = 0)); [done|]. by destruct (Hmin 0 (len pre)); [lia|]. }
  specialize (Hnear _ HF). destruct HF as (HF1 & HF2 & _).
  assert (Hc : clampInt (len pre) 0 (len old - OldCount h) = len pre).
  { unfold clampInt. destruct (Z.ltb_spec (len pre) 0); [lia|].
    destruct (Z.ltb_spec (len old - OldCount h) (len pre)); lia. }
  rewrite Hc in Hnear. rewrite Ho. cbn. do 3 f_equal. lia.
Qed.

Lemma apply_hunks_exact pre s tl flag opts n st idx :
  cur st = len pre -> offset st = 0 ->
  exists fl, apply_hunks (pre ++ old_of s ++ tl) flag opts st idx (hunks_of (len pre) n s) =
    Ret (Applying (aout st ++ new_of s) fl (len pre + len (old_of s)) 0
           (reports st ++ reports_of idx (len pre) s) (rejects st)) /\
    (tl = [] -> fl = last_flag flag (finalNoEOL st) s).
Proof.
  revert pre n st idx. induction s as [|[gap ls] s IH]; intros pre n st idx Hc Ho.
  { exists (finalNoEOL st). cbn. rewrite !app_nil_r. split; [|done].
    destruct st as [a b c d e f]; cbn in *. subst. by rewrite Z.add_0_r. }
  cbn [hunks_of apply_hunks reports_of].
  assert (Eold : pre ++ old_of ((gap, ls) :: s) ++ tl = (pre ++ gap) ++ oldSeq ls ++ (old_of s ++ tl)).
  { unfold old_of. cbn. by rewrite <- !app_assoc. }
  rewrite Eold. set (old := (pre ++ gap) ++ _) in *.
  unfold apply_hunk. cbn [OldStart]. rewrite Ho, Z.add_0_r, <- len_app.
  destruct (locateHunk_exact (pre ++ gap) ls (old_of s ++ tl) opts (len (pre ++ gap)) (n + len gap)
    (len (newSeq ls))) as [E|]; [|done].
  fold old in E. rewrite E. cbn [bind]. clear E.
  pose proof (len_nonneg gap). pose proof (len_nonneg pre). pose proof (len_nonneg (oldSeq ls)).
  assert (Hlen : len old = len pre + len gap + len (oldSeq ls) + len (old_of s ++ tl)).
  { unfold old. rewrite !len_app. lia. }
  pose proof (len_nonneg (old_of s ++ tl)).
  rewrite Hc. destruct (Z.ltb_spec (len (pre ++ gap)) (len pre)); [rewrite len_app in *; lia|].
  rewrite appendVerbatim_spec by (rewrite ?len_app; lia). cbn [bind OldCount Lines].
  rewrite buildReplacement_spec by (rewrite ?len_app; lia). cbn [bind].
  cbn [aout finalNoEOL cur offset reports rejects OldStart].
  assert (E1 : sub (len pre) (len (pre ++ gap)) old = gap).
  { unfold old. rewrite len_app, <- app_assoc. apply sub_mid. }
  assert (E2 : weave (drop (Z.to_nat (len (pre ++ gap))) old) ls = newSeq ls).
  { unfold old, len. rewrite Nat2Z.id, drop_app_length. apply weave_exact. }
  rewrite E1, E2, Z.sub_diag.
  set (fl1 := if _ && has_new ls then _ else _).
  set (pre' := pre ++ gap ++ oldSeq ls).
  assert (Epre : old = pre' ++ old_of s ++ tl) by (unfold old, pre'; by rewrite <- !app_assoc).
  assert (Lpre : len pre' = len (pre ++ gap) + len (oldSeq ls))
    by (unfold pre'; rewrite !len_app; lia).
  rewrite Epre, <- Lpre.
  destruct (IH pre' (n + len gap + len (newSeq ls))
    (Applying ((aout st ++ gap) ++ newSeq ls) fl1 (len pre') 0
       (reports st ++ [mkReport (idx + 1) HunkApplied 0 (len (pre ++ gap))]) (rejects st)) (idx + 1))
    as (fl & -> & Hfl); [done..|].
  exists fl. cbn [aout reports rejects finalNoEOL] in *. split.
  - do 2 f_equal; [unfold new_of; cbn; by rewrite <- !app_assoc| |by rewrite <- app_assoc].
    unfold old_of. cbn [concat fmap list_fmap]. fold (old_of s). cbn [fst snd].
    rewrite !len_app in *. lia.
  - intros ->. rewrite (Hfl eq_refl). cbn [last_flag]. rewrite app_nil_r in Hlen.
    destruct s as [|c s]; [|by destruct c].
    cbn. unfold fl1. change (len (old_of [])) with 0 in Hlen.
    rewrite (len_app pre gap).
    destruct (Z.eqb_spec (len pre + len gap + len (oldSeq ls)) (len old)); [|lia].
    destruct (has_new ls); [done|]. cbn [andb].
    by destruct (Z.leb_spec (len old) (len pre + len gap + len (oldSeq ls))); [|lia].
Qed.

Definition final_flag (flag : bool) (s : script) (tl : list (list Z)) : bool :=
  match tl with
  | [] => last_flag flag flag s
  | _ => flag
  end.

Lemma Apply_exact_core s tl flag opts n hunks :
  oriented opts hunks = hunks_of 0 n s ->
  Apply (old_of s ++ tl) flag opts hunks =
  Ret (mkResult (new_of s ++ tl) (final_flag flag s tl) (reports_of 0 0 s) []).
Proof.
  intros HR. unfold Apply. rewrite HR.
  destruct (apply_hunks_exact [] s tl flag opts n (Applying [] flag 0 0 [] []) 0)
    as (fl & E & Hfl); [done..|].
  change (len (@nil (list Z))) with 0 in E. cbn [app] in E. rewrite E. cbn [bind cur].
  rewrite Z.add_0_l.
  pose proof (len_nonneg (old_of s)). pose proof (len_nonneg tl).
  rewrite appendVerbatim_spec by (rewrite ?len_app; lia). cbn [bind aout reports rejects finalNoEOL app].
  do 2 f_equal.
  - f_equal. rewrite len_app. pose proof (sub_mid (old_of s) tl []) as Es.
    by rewrite !app_nil_r in Es.
  - rewrite len_app. unfold final_flag. destruct tl as [|t tl].
    + rewrite (Hfl eq_refl). by destruct (Z.leb_spec (len (old_of s) + len (@nil (list Z))) (len (old_of s)));
        [|change (len (@nil (list Z))) with 0 in *; lia].
    + rewrite len_cons in *. pose proof (len_nonneg tl).
      destruct (Z.leb_spec (len (old_of s) + (1 + len tl)) (len (old_of s))); [lia|].
      by rewrite Z.eqb_refl, andb_true_r.
Qed.

Definition reverse_script (s : script) : script := (fun c : change => (c.1, reverse_line <$> c.2)) <$> s.

Lemma old_of_reverse s : old_of (reverse_script s) = new_of s.
Proof.
  induction s as [|[gap ls] s IH]; [done|].
  change ((gap ++ oldSeq (reverse_line <$> ls)) ++ old_of (reverse_script s) =
          (gap ++ newSeq ls) ++ new_of s). by rewrite IH, oldSeq_reverse.
Qed.

Lemma new_of_reverse s : new_of (reverse_script s) = old_of s.
Proof.
  induction s as [|[gap ls] s IH]; [done|].
  change ((gap ++ newSeq (reverse_line <$> ls)) ++ new_of (reverse_script s) =
          (gap ++ oldSeq ls) ++ old_of s). by rewrite IH, newSeq_reverse.
Qed.

Lemma reverse_hunks_of o n s : reverseHunk <$> hunks_of o n s = hunks_of n o (reverse_script s).
Proof.
  revert o n; induction s as [|[gap ls] s IH]; intros o n; [done|].
  cbn [hunks_of]. rewrite fmap_cons, IH. unfold reverseHunk at 1. cbn [NewStart NewCount OldStart OldCount Lines].
  change (reverse_script ((gap, ls) :: s)) with ((gap, reverse_line <$> ls) :: reverse_script s).
  cbn [hunks_of]. by rewrite oldSeq_reverse, newSeq_reverse.
Qed.

(** ** Properties *)

(** [C10] For hunks whose counts are those of their lines, [Apply] returns
    whatever the file and the options (fuzz, -l, -f, -R) are; its result is the
    file with exactly the hunks reported as applied spliced in at the reported
    lines, in order and without overlap, each where its old side matches with
    the reported fuzz; all other lines are the file's own; and the rejects are
    the hunks reported as failed. *)
Theorem Apply_splices (old : list (list Z)) (flag : bool) (opts : ApplyOptions) (hunks : list Hunk) :
  Forall wf_hunk hunks ->
  exists r, Apply old flag opts hunks = Ret r /\
    let work := oriented opts hunks in
    let ps := placements work (Reports r) in
    RLines r = spliced old 0 ps (len old) /\ in_order 0 ps (len old) /\
    Rejects r = failed work (Reports r) /\ Forall2 (report_ok old opts) work (Reports r).
Proof. apply Apply_spec. Qed.

(** [C35] A hunk is placed where it fits with the least fuzz, at the line
    nearest to the expected one; it is reported as failed or already applied
    only when it fits nowhere within the fuzz allowed. *)
Theorem locateHunk_best (old : list (list Z)) (h : Hunk) (expected : Z) (opts : ApplyOptions) :
  wf_hunk h ->
  exists p f o, locateHunk old h expected opts = Ret (p, f, o) /\ located old h opts expected p f o.
Proof. intros. by apply locateHunk_spec. Qed.

(** A patch whose hunks stand exactly on their lines is applied exactly:
    the old text becomes the new text, every hunk is reported as applied
    without fuzz at its own line, and nothing is rejected. *)
Theorem Apply_exact (s : script) (tl : list (list Z)) (flag : bool) (opts : ApplyOptions) :
  Reverse opts = false ->
  Apply (old_of s ++ tl) flag opts (hunks_of 0 0 s) =
  Ret (mkResult (new_of s ++ tl) (final_flag flag s tl) (reports_of 0 0 s) []).
Proof. intros HR. apply (Apply_exact_core _ _ _ _ 0). unfold oriented. by rewrite HR. Qed.

(** Applying an exact patch and then the same patch with -R gives back
    the file. *)
Theorem Apply_reverse (s : script) (tl : list (list Z)) (flag flag' : bool) (opts : ApplyOptions) :
  Reverse opts = true ->
  exists r r',
    Apply (old_of s ++ tl) flag (mkOptions false (Fuzz opts) (IgnoreWhitespace opts) (Force opts))
      (hunks_of 0 0 s) = Ret r /\
    Apply (RLines r) flag' opts (hunks_of 0 0 s) = Ret r' /\
    RLines r' = old_of s ++ tl /\ Rejects r' = [].
Proof.
  intros HR. eexists _, _. split; [by apply (Apply_exact_core _ _ _ _ 0)|]. cbn [RLines].
  rewrite <- (old_of_reverse s). split.
  { apply (Apply_exact_core _ _ _ _ 0). unfold oriented. rewrite HR. apply reverse_hunks_of. }
  cbn. by rewrite new_of_reverse.
Qed.

(** ** Conditional application *)

Section Ifdef.
Context (old : list (list Z)) (flag : bool) (opts : ApplyOptions) (define : list Z).

Definition control (l : list Z) : bool :=
  str_eqb l (str! "#ifdef " ++ define) || str_eqb l (str! "#ifndef " ++ define) ||
  str_eqb l (str! "#else") || str_eqb l (endif define).

(** What a preprocessor keeps of a text with conditionals on [define]. *)
Fixpoint cpp (defined active : bool) (lines : list (list Z)) : list (list Z) :=
  match lines with
  | [] => []
  | l :: rest =>
      if str_eqb l (str! "#ifdef " ++ define) then cpp defined defined rest
      else if str_eqb l (str! "#ifndef " ++ define) then cpp defined (negb defined) rest
      else if str_eqb l (str! "#else") then cpp defined (negb active) rest
      else if str_eqb l (endif define) then cpp defined true rest
      else (if active then [l] else []) ++ cpp defined active rest
  end.

Abbreviation plain := (Forall (fun l => control l = false)).

Lemma cpp_plain d a l r :
  plain l -> cpp d a (l ++ r) = (if a then l else []) ++ cpp d a r.
Proof.
  induction 1 as [|x l Hx _ IH]; [by destruct a|]. unfold control in Hx. to_prop.
  rewrite <- app_comm_cons. cbn [cpp]. repeat match goal with H : str_eqb _ _ = false |- _ => rewrite H; clear H end.
  rewrite IH. by destruct a.
Qed.

Lemma cpp_ifdef d a r : cpp d a ((str! "#ifdef " ++ define) :: r) = cpp d d r.
Proof. cbn [cpp]. by rewrite str_eqb_refl. Qed.

Lemma cpp_ifndef d a r : cpp d a ((str! "#ifndef " ++ define) :: r) = cpp d (negb d) r.
Proof. cbn [cpp]. rewrite str_eqb_refl. by cbn [str_eqb app]. Qed.

Lemma cpp_else d a r : cpp d a ((str! "#else") :: r) = cpp d (negb a) r.
Proof. done. Qed.

Lemma cpp_endif d a r : cpp d a (endif define :: r) = cpp d true r.
Proof.
  cbn [cpp]. rewrite str_eqb_refl.
  assert (str_eqb (endif define) (str! "#ifdef " ++ define) = false) as -> by done.
  assert (str_eqb (endif define) (str! "#ifndef " ++ define) = false) as -> by done.
  by assert (str_eqb (endif define) (str! "#else") = false) as -> by done.
Qed.

(** The text [out] ends outside a conditional and contributes [x]. *)
Definition closed (d : bool) (out x : list (list Z)) : Prop :=
  forall r, cpp d true (out ++ r) = x ++ cpp d true r.

Lemma closed_plain d out x l : plain l -> closed d out x -> closed d (out ++ l) (x ++ l).
Proof. intros Hl Hc r. rewrite <- !app_assoc, Hc, cpp_plain by done. done. Qed.

Lemma closed_conditional d out x o n :
  plain o -> plain n -> closed d out x ->
  closed d (out ++ conditional define o n) (x ++ if d then n else o).
Proof.
  intros Ho Hn Hc r. rewrite <- !app_assoc, Hc. f_equal. unfold conditional.
  destruct o as [|a o], n as [|b n]; [by destruct d|..];
    rewrite <- !app_assoc; cbn [app].
  - rewrite cpp_ifdef. rewrite (app_comm_cons n), cpp_plain by done. rewrite cpp_endif. by destruct d.
  - rewrite cpp_ifndef. rewrite (app_comm_cons o), cpp_plain by done. rewrite cpp_endif. by destruct d.
  - rewrite cpp_ifndef. rewrite (app_comm_cons o), cpp_plain by done.
    rewrite cpp_else. rewrite (app_comm_cons n), cpp_plain by done. rewrite cpp_endif. by destruct d.
Qed.

Definition plain_hunk (h : Hunk) : Prop := plain (newSeq (Lines h)).

Lemma ifdef_lines_spec lines ti o n out :
  0 <= ti -> ti + len (oldSeq lines) <= len old ->
  plain old -> plain (newSeq lines) -> plain o -> plain n ->
  exists out', ifdef_lines old define lines ti o n out = Ret out' /\
    (forall x, closed false out x -> closed false out' (x ++ o ++ sub ti (ti + len (oldSeq lines)) old)) /\
    (forall x, closed true out x -> closed true out' (x ++ n ++ weave (drop (Z.to_nat ti) old) lines)).
Proof.
  intros Ht Hl Hold. revert ti o n out Ht Hl.
  induction lines as [|l lines IH]; intros ti o n out Ht Hl Hnew Ho Hn; cbn [ifdef_lines weave].
  { eexists. split; [done|]. change (len (oldSeq [])) with 0. rewrite Z.add_0_r, sub_nil, !app_nil_r.
    split; intros x Hx; [apply (closed_conditional false)|apply (closed_conditional true)]; done. }
  rewrite oldSeq_cons in Hl. rewrite newSeq_cons in Hnew. rewrite oldSeq_cons.
  pose proof (len_nonneg (oldSeq lines)).
  destruct (Kind l) eqn:EK; rewrite ?len_cons in *.
  1, 2: destruct (drop_lt old ti) as (t & r & E); [lia|];
    destruct (index_drop _ _ _ _ Ht E) as [-> Er]; cbn [bind].
  1, 2: assert (Hpt : control t = false) by (rewrite Forall_forall in Hold; apply Hold;
    apply (list_elem_of_lookup_2 _ (Z.to_nat ti)); rewrite <- (Nat.add_0_r (Z.to_nat ti)), <- lookup_drop, E; done).
  1, 2: assert (Es : sub ti (ti + (1 + len (oldSeq lines))) old = t :: sub (ti + 1) (ti + 1 + len (oldSeq lines)) old)
    by (unfold sub; rewrite Er, E; replace (Z.to_nat (_ - ti)) with (S (Z.to_nat (ti + 1 + len (oldSeq lines) - (ti + 1)))) by lia; done).
  - apply Forall_cons in Hnew as [_ Hnew].
    destruct (IH (ti + 1) [] [] (out ++ conditional define o n ++ [t])) as (out' & -> & H0 & H1); [lia|lia|done..|].
    exists out'. split; [done|]. rewrite Es, E. rewrite Er in H1. cbn [take tail app].
    split; intros x Hx.
    + specialize (H0 ((x ++ o) ++ [t])). rewrite <- !app_assoc in H0. apply H0. rewrite (app_assoc x o), (app_assoc out).
      apply closed_plain; [by constructor|]. by apply (closed_conditional false).
    + specialize (H1 ((x ++ n) ++ [t])). rewrite <- !app_assoc in H1. apply H1. rewrite (app_assoc x n), (app_assoc out).
      apply closed_plain; [by constructor|]. by apply (closed_conditional true).
  - destruct (IH (ti + 1) (o ++ [t]) n out) as (out' & -> & H0 & H1); [lia|lia|done| |done|].
    { apply Forall_app. split; [done|by constructor]. }
    exists out'. split; [done|]. rewrite Es, E. rewrite Er in H1. cbn [tail].
    split; intros x Hx; [|by apply H1]. specialize (H0 x Hx). by rewrite <- app_assoc in H0.
  - apply Forall_cons in Hnew as [Hx Hnew].
    destruct (IH ti o (n ++ [Text l]) out) as (out' & -> & H0 & H1); [lia|lia|done|done| |].
    { apply Forall_app. split; [done|by constructor]. }
    exists out'. split; [done|]. split; intros x Hx'; [by apply H0|].
    specialize (H1 x Hx'). by rewrite <- app_assoc in H1.
Qed.

Record ifdef_ok (seen : list Hunk) (st : applying) : Prop := IfdefOk {
  io_cur : 0 <= cur st <= len old;
  io_length : length (reports st) = length seen;
  io_undef : closed false (aout st) (sub 0 (cur st) old);
  io_def : closed true (aout st) (spliced old 0 (placements seen (reports st)) (cur st));
  io_order : in_order 0 (placements seen (reports st)) (cur st);
  io_rejects : rejects st = failed seen (reports st)
}.

Lemma plain_sub i j : plain old -> plain (sub i j old).
Proof. intros H. unfold sub. by apply Forall_take, Forall_drop. Qed.

Lemma ifdef_hunk_ok seen st h :
  plain old -> wf_hunk h -> plain_hunk h -> ifdef_ok seen st ->
  exists st', ifdef_hunk old opts define st (len seen) h = Ret st' /\ ifdef_ok (seen ++ [h]) st'.
Proof.
  intros Hold Hwf Hpl [I1 I2 I3 I4 I5 I6]. pose proof (wf_counts h Hwf) as [HO _].
  unfold ifdef_hunk.
  destruct (locateHunk_spec old h opts Hwf (OldStart h)) as (p & f & o & -> & HL). cbn [bind].
  destruct (bool_decide _ || (p <? cur st)) eqn:EB.
  { eexists. split; [done|]. split; cbn [reject cur reports aout rejects];
      rewrite ?placements_snoc, ?failed_snoc by done; cbn; rewrite ?app_nil_r; try done.
    - rewrite !length_app. cbn. lia.
    - by rewrite I6. }
  apply orb_false_iff in EB as [EB Hp%Z.ltb_ge]. apply bool_decide_eq_false in EB.
  assert (HF : fits old h opts f p) by (destruct o; [apply HL|apply HL|naive_solver..]).
  destruct HF as (HF1 & HF2 & _).
  rewrite slice_Ret by lia. cbn [bind].
  destruct (ifdef_lines_spec (Lines h) p [] [] (aout st ++ sub (cur st) p old))
    as (out' & -> & H0 & H1); [lia|rewrite <- (proj1 Hwf); lia|done|done|done..|].
  cbn [bind]. eexists. split; [done|].
  set (oc := if 0 <? f then HunkAppliedFuzzy else HunkApplied).
  assert (Hoc : applied_outcome oc = true) by (unfold oc; by destruct (0 <? f)).
  assert (Hfl : match oc with HunkFailed => [h] | _ => [] end = @nil Hunk)
    by (unfold oc; by destruct (0 <? f)).
  destruct (spliced_snoc old 0 (placements seen (reports st)) h p) as [E1 E2];
    [lia|by eapply in_order_weaken|lia|].
  split; cbn [cur reports aout rejects]; rewrite ?placements_snoc, ?failed_snoc by done;
    cbn [Outcome At]; rewrite ?Hoc, ?Hfl, ?app_nil_r; try done.
  - lia.
  - rewrite !length_app. cbn. lia.
  - rewrite <- (sub_app old 0 p (p + OldCount h)), <- (sub_app old 0 (cur st) p) by lia.
    rewrite (proj1 Hwf). apply H0. apply closed_plain; [by apply plain_sub|done].
  - rewrite E1. apply H1. rewrite <- (spliced_extend old 0 _ (cur st) p) by (done || lia).
    apply closed_plain; [by apply plain_sub|done].
Qed.

Lemma ifdef_hunks_ok seen st work :
  plain old -> Forall wf_hunk work -> Forall plain_hunk work -> ifdef_ok seen st ->
  exists st', ifdef_hunks old opts define st (len seen) work = Ret st' /\ ifdef_ok (seen ++ work) st'.
Proof.
  intros Hold HW. revert seen st; induction HW as [|h work Hh _ IH]; intros seen st HP A; cbn [ifdef_hunks].
  { exists st. by rewrite app_nil_r. }
  apply Forall_cons in HP as [HPh HP].
  destruct (ifdef_hunk_ok seen st h Hold Hh HPh A) as (st1 & -> & A1). cbn [bind].
  destruct (IH (seen ++ [h]) st1 HP A1) as (st2 & E & A2). exists st2.
  rewrite len_app, len_cons in E. rewrite <- app_assoc in A2. split; [|done].
  by replace (len seen + 1) with (len seen + (1 + len (@nil Hunk))) by done.
Qed.

(** With -D the result holds both versions: of a file and a patch without
    lines that look like the conditionals, a preprocessor without the name
    keeps exactly the original file, and one with the name keeps the file with
    the hunks reported as applied in place; rejected hunks change neither. *)
Theorem ApplyIfdef_both (hunks : list Hunk) :
  plain old -> Forall wf_hunk hunks -> Forall plain_hunk (oriented opts hunks) ->
  exists r, ApplyIfdef old flag opts define hunks = Ret r /\
    let work := oriented opts hunks in
    let ps := placements work (Reports r) in
    cpp false true (RLines r) = old /\
    cpp true true (RLines r) = spliced old 0 ps (len old) /\ in_order 0 ps (len old) /\
    Rejects r = failed work (Reports r).
Proof.
  intros Hold HW HP. unfold ApplyIfdef.
  destruct (ifdef_hunks_ok [] (Applying [] flag 0 0 [] []) (oriented opts hunks)) as (st & E & A);
    [done|by apply oriented_wf|done| |].
  { pose proof (len_nonneg old). split; cbn; try done. }
  change (len (@nil Hunk)) with 0 in E. rewrite E. cbn [bind]. destruct A as [I1 I2 I3 I4 I5 I6].
  rewrite slice_Ret by lia. cbn [bind]. eexists. split; [done|].
  cbn [RLines Reports Rejects].
  assert (Hpl : plain (sub (cur st) (len old) old)) by (by apply plain_sub).
  split_and!.
  - pose proof (closed_plain _ _ _ _ Hpl I3 []) as H. rewrite !app_nil_r in H. cbn [cpp] in H.
    rewrite ?app_nil_r, sub_app, (sub_all old 0) in H by lia. exact H.
  - pose proof (closed_plain _ _ _ _ Hpl I4 []) as H. rewrite !app_nil_r in H. cbn [cpp] in H.
    rewrite ?app_nil_r, spliced_extend in H by (done || lia). exact H.
  - eapply in_order_weaken; [done|lia].
  - done.
Qed.

End Ifdef.

(** ** Witnesses *)

Definition ex_hunk : Hunk :=
  mkHunk 1 2 1 2 [mkLine LineContext (str! "b") false; mkLine LineDelete (str! "c") false;
                  mkLine LineAdd (str! "d") false].

Definition ex_file : list (list Z) := [str! "a"; str! "b"; str! "c"; str! "e"].

Lemma Apply_splices_witness :
  Forall wf_hunk [ex_hunk] /\
  exists r, Apply ex_file false (mkOptions false 2 false false) [ex_hunk] = Ret r /\
    let work := oriented (mkOptions false 2 false false) [ex_hunk] in
    let ps := placements work (Reports r) in
    RLines r = spliced ex_file 0 ps (len ex_file) /\ in_order 0 ps (len ex_file) /\
    Rejects r = failed work (Reports r) /\
    Forall2 (report_ok ex_file (mkOptions false 2 false false)) work (Reports r).
Proof.
  assert (H : Forall wf_hunk [ex_hunk]) by (repeat constructor).
  split; [exact H|]. exact (Apply_splices ex_file false (mkOptions false 2 false false) [ex_hunk] H).
Defined.

Lemma locateHunk_best_witness :
  exists p f o, locateHunk ex_file ex_hunk 3 (mkOptions false 2 false false) = Ret (p, f, o) /\
    located ex_file ex_hunk (mkOptions false 2 false false) 3 p f o.
Proof. apply (locateHunk_best ex_file ex_hunk 3). split; reflexivity. Defined.

Definition ex_script : script := [([str! "a"], Lines ex_hunk)].

Lemma Apply_exact_witness :
  Apply (old_of ex_script ++ [str! "e"]) false (mkOptions false 2 false false) (hunks_of 0 0 ex_script) =
  Ret (mkResult (new_of ex_script ++ [str! "e"]) (final_flag false ex_script [str! "e"])
         (reports_of 0 0 ex_script) []).
Proof. apply (Apply_exact ex_script [str! "e"]). reflexivity. Defined.

Lemma Apply_reverse_witness :
  exists r r',
    Apply (old_of ex_script ++ [str! "e"]) false (mkOptions false 2 false false)
      (hunks_of 0 0 ex_script) = Ret r /\
    Apply (RLines r) false (mkOptions true 2 false false) (hunks_of 0 0 ex_script) = Ret r' /\
    RLines r' = old_of ex_script ++ [str! "e"] /\ Rejects r' = [].
Proof.
  apply (Apply_reverse ex_script [str! "e"] false false (mkOptions true 2 false false)). reflexivity.
Defined.

Lemma ApplyIfdef_both_witness :
  exists r, ApplyIfdef ex_file false (mkOptions false 2 false false) (str! "X") [ex_hunk] = Ret r /\
    let work := oriented (mkOptions false 2 false false) [ex_hunk] in
    let ps := placements work (Reports r) in
    cpp (str! "X") false true (RLines r) = ex_file /\
    cpp (str! "X") true true (RLines r) = spliced ex_file 0 ps (len ex_file) /\
    in_order 0 ps (len ex_file) /\ Rejects r = failed work (Reports r).
Proof.
  apply (ApplyIfdef_both ex_file false (mkOptions false 2 false false) (str! "X") [ex_hunk]);
    repeat constructor.
Defined.

(** ** Malformed context hunks *)

(** A context hunk whose range says one old line and whose block has two. *)
Definition malformed : list Z :=
  str! "*** a" ++ [10] ++ str! "--- a" ++ [10] ++ str! "***************" ++ [10] ++
  str! "*** 1,1 ****" ++ [10] ++ str! "- a" ++ [10] ++ str! "  b" ++ [10] ++
  str! "--- 1 ----" ++ [10] ++ str! "  b" ++ [10].

(** The counts of a context hunk are read from its header and never
    compared with its block: this patch is parsed, and applying it to the
    one-line file "a" with the default fuzz of 2 reads past the end of the
    file, a run-time panic. *)
Theorem Apply_malformed_panics :
  exists fp, Parse malformed = Ret (inr [fp]) /\
    Apply [str! "a"] false (mkOptions false 2 false false) (Hunks fp) = Panic.
Proof. eexists. split; vm_compute; reflexivity. Qed.

End PatchApplyCorrect.
