(* ===== verification/PatchParseCorrect.v ===== *)
(** * Parsing patches

    The proofs about [PatchParse]: the parser ends on every input, and what
    the two printers of rejected hunks write is parsed back to the same
    hunks. *)

From Stdlib Require Import ZArith Lia.
From stdpp Require Import base tactics list numbers strings.
From S2P Require Import Prelude PatchParse PatchApply PatchApplyCorrect.

Module PatchParseCorrect.
Import Patch PatchApply PatchApplyCorrect.

(** ** Termination *)

(** The parser ends, and what it gives satisfies [P]. *)
Definition post {A} (c : parser A) (P : A -> Prop) : Prop :=
  match c with
  | Ret (inl _) => True
  | Ret (inr a) => P a
  | _ => False
  end.

Lemma post_fail {A} e (P : A -> Prop) : post (fail e) P.
Proof. done. Qed.

Lemma post_bind {A B} (c : parser A) (k : A -> parser B) P Q :
  post c P -> (forall a, P a -> post (k a) Q) -> post (pbind c k) Q.
Proof. destruct c as [[e|a]| |]; cbn; naive_solver. Qed.

Lemma post_weaken {A} (c : parser A) (P Q : A -> Prop) :
  post c P -> (forall a, P a -> Q a) -> post c Q.
Proof. destruct c as [[e|a]| |]; cbn; naive_solver. Qed.

Create HintDb parse.
#[local] Hint Resolve post_fail : parse.

Definition shorter {A} (n : nat) (r : A * list rawLine) : Prop := (length r.2 <= n)%nat.

Lemma unified_body_post nm oc nc lines os ns hl :
  post (unified_body nm oc nc lines os ns hl) (shorter (length lines)).
Proof.
  revert os ns hl; induction lines as [|l lines IH]; intros os ns hl; cbn [unified_body].
  { destruct (_ || _); [done|]. cbn. unfold shorter. cbn. lia. }
  assert (Hw : forall os ns hl, post (unified_body nm oc nc lines os ns hl) (shorter (length (l :: lines)))).
  { intros. eapply post_weaken; [apply IH|]. unfold shorter. cbn. lia. }
  destruct (_ || _); [|cbn; unfold shorter; cbn; lia].
  destruct (is_marker l); [done|]. destruct (text l) as [|c body]; [done|].
  destruct (c =? _); [done|]. destruct (c =? _); [done|]. by destruct (c =? _).
Qed.

Lemma trailing_markers_shorter lines hl : shorter (length lines) (trailing_markers lines hl).
Proof.
  unfold shorter. revert hl; induction lines as [|l lines IH]; intros hl; cbn [trailing_markers]; [done|].
  destruct (is_marker l); [|done]. cbn [length]. specialize (IH (mark_noEOL hl)). lia.
Qed.

Lemma unified_hunks_post fuel nm lines hunks :
  (length lines <= fuel)%nat -> post (unified_hunks fuel nm lines hunks) (shorter (length lines)).
Proof.
  revert lines hunks; induction fuel as [|f IH]; intros [|l rest] hunks Hf; cbn [unified_hunks];
    try (cbn; unfold shorter; cbn; lia).
  { cbn in Hf. lia. }
  destruct (negb _); [cbn; unfold shorter; cbn; lia|].
  destruct (unifiedHunkRe (text l)); [|done].
  destruct (unifiedRangeVal (Atoi (g1 _)) _ _) as [a b], (unifiedRangeVal (Atoi (g3 _)) _ _) as [c d].
  eapply post_bind; [apply unified_body_post|]. intros [hl lines] Hs.
  pose proof (trailing_markers_shorter lines hl) as Ht.
  destruct (trailing_markers lines hl) as [hl' lines']. unfold shorter in *. cbn in *.
  eapply post_weaken; [apply IH; lia|]. cbn. intros [? ?]. cbn. lia.
Qed.

Lemma parseUnifiedFile_post l0 l1 rest :
  post (parseUnifiedFile l0 l1 rest) (shorter (length rest)).
Proof.
  unfold parseUnifiedFile. eapply post_bind; [by apply unified_hunks_post|]. by intros [? ?].
Qed.

Lemma consumeMarkedBlock_shorter lines marks out :
  shorter (length lines) (consumeMarkedBlock lines marks out).
Proof.
  unfold shorter. revert out; induction lines as [|l lines IH]; intros out; cbn [consumeMarkedBlock]; [done|].
  destruct (is_marker l); [etrans; [apply IH|cbn; lia]|].
  destruct (_ || _); [done|]. etrans; [apply IH|cbn; lia].
Qed.

Lemma optional_block_shorter stop lines marks :
  shorter (length lines) (optional_block stop lines marks).
Proof.
  unfold optional_block. destruct lines as [|l lines]; [unfold shorter; cbn; lia|].
  destruct (stop _); [unfold shorter; cbn; lia|]. apply consumeMarkedBlock_shorter.
Qed.

Lemma take_changes_length k block :
  (length (take_changes k block).2 <= length block)%nat /\
  (at_context block = false -> block <> [] -> (length (take_changes k block).2 < length block)%nat) /\
  (at_context (take_changes k block).2 = false -> (take_changes k block).2 = []).
Proof.
  induction block as [|l block (IH1 & IH2 & IH3)]; [done|]. cbn [take_changes at_context].
  destruct (is_context l) eqn:E; [cbn; by rewrite E|].
  destruct (take_changes k block) as [hl r]. cbn in *. split_and!; [lia|lia|done].
Qed.

Lemma zip_blocks_returns fuel os ns hl :
  (length os + length ns <= fuel)%nat -> exists r, zip_blocks fuel os ns hl = Ret r.
Proof.
  revert os ns hl; induction fuel as [|f IH]; intros os ns hl Hf.
  { destruct os, ns; cbn in Hf; try lia. by eexists. }
  cbn [zip_blocks]. assert (E : os ++ ns = [] \/ os ++ ns <> []) by (destruct (os ++ ns); naive_solver).
  destruct (at_context os) eqn:Eo.
  - destruct os as [|o os]; [done|]. cbn [tail]. cbn in Hf.
    destruct ns as [|n ns]; apply IH; cbn; [lia|]. cbn in Hf. destruct (is_context n); cbn; lia.
  - pose proof (take_changes_length LineDelete os) as (H1 & H2 & H3).
    pose proof (take_changes_length LineAdd ns) as (K1 & K2 & K3).
    destruct (take_changes LineDelete os) as [dels os'], (take_changes LineAdd ns) as [adds ns'].
    cbn [snd] in *.
    destruct os as [|o os], ns as [|n ns]; [by eexists|..].
    + destruct os'; [|cbn in H1; lia]. destruct (at_context ns') eqn:En.
      * apply IH. destruct ns'; [done|]. cbn in *. lia.
      * rewrite (K3 eq_refl). apply IH. cbn. lia.
    + specialize (H2 Eo ltac:(done)). destruct os' as [|o' os'].
      * destruct (at_context ns'); apply IH; destruct ns'; cbn in *; lia.
      * apply IH. cbn in *. lia.
    + specialize (H2 Eo ltac:(done)). destruct os' as [|o' os'].
      * destruct (at_context ns'); apply IH; destruct ns'; cbn in *; lia.
      * apply IH. cbn in *. lia.
Qed.

Lemma context_hunk_post lines : post (context_hunk lines) (shorter (length lines)).
Proof.
  unfold context_hunk. destruct lines as [|l rest]; [done|].
  destruct (contextOldRe (text l)) as [[om1 om2]|]; [|done].
  pose proof (optional_block_shorter (fun t => is_some (contextNewRe t)) rest oldBlockMarks) as H1.
  destruct (optional_block _ rest oldBlockMarks) as [ob [|l' rest']]; [done|].
  destruct (contextNewRe (text l')) as [[nm1 nm2]|]; [|done].
  pose proof (optional_block_shorter contextSepRe rest' newBlockMarks) as H2.
  destruct (optional_block _ rest' newBlockMarks) as [nb rest''].
  destruct (resolveContextStart _ _ _ _), (resolveContextStart _ _ _ _).
  unfold zipContextBlocks. destruct (zip_blocks_returns (length ob + length nb) ob nb []) as [r ->]; [done|].
  cbn. unfold shorter in *. cbn in *. lia.
Qed.

Lemma context_hunks_post fuel lines hunks :
  (length lines <= fuel)%nat -> post (context_hunks fuel lines hunks) (shorter (length lines)).
Proof.
  revert lines hunks; induction fuel as [|f IH]; intros [|l rest] hunks Hf; cbn [context_hunks];
    try (cbn; unfold shorter; cbn; lia).
  { cbn in Hf. lia. }
  destruct (negb _); [cbn; unfold shorter; cbn; lia|].
  eapply post_bind; [apply context_hunk_post|]. intros [h rest'] Hs. unfold shorter in *. cbn in *.
  eapply post_weaken; [apply IH; lia|]. cbn. intros [? ?]. cbn. lia.
Qed.

Lemma parseContextFile_post l0 l1 rest :
  post (parseContextFile l0 l1 rest) (shorter (length rest)).
Proof.
  unfold parseContextFile. eapply post_bind; [by apply context_hunks_post|]. by intros [? ?].
Qed.

Lemma consumeFixedMarked_post lines prefix want out :
  post (consumeFixedMarked lines prefix want out) (shorter (length lines)).
Proof.
  revert out; induction lines as [|l lines IH]; intros out; cbn [consumeFixedMarked];
    (destruct (_ <? want); [|cbn; unfold shorter; cbn; lia]); [done|].
  assert (Hw : forall out, post (consumeFixedMarked lines prefix want out) (shorter (length (l :: lines)))).
  { intros. eapply post_weaken; [apply IH|]. unfold shorter. cbn. lia. }
  destruct (is_marker l); [done|]. by destruct (negb _).
Qed.

Lemma normal_hunk_post m op lines : post (normal_hunk m op lines) (shorter (length lines)).
Proof.
  unfold normal_hunk. cbv zeta. destruct (op =? _); [|destruct (op =? _)].
  - eapply post_bind; [apply consumeFixedMarked_post|]. by intros [? ?].
  - eapply post_bind; [apply consumeFixedMarked_post|]. by intros [? ?].
  - eapply post_bind; [apply consumeFixedMarked_post|]. intros [dels [|l rest]] Hs; [done|].
    destruct (str_eqb _ _); [|done].
    eapply post_bind; [apply consumeFixedMarked_post|]. intros [? ?]. unfold shorter in *. cbn in *. lia.
Qed.

Lemma normal_hunks_post fuel lines hunks :
  (length lines <= fuel)%nat ->
  post (normal_hunks fuel lines hunks) (fun r => (length r.2 <= length lines)%nat /\
    ((exists l rest, lines = l :: rest /\ is_some (normalHunkRe (text l)) = true) ->
     (length r.2 < length lines)%nat)).
Proof.
  revert lines hunks; induction fuel as [|f IH]; intros [|l rest] hunks Hf; cbn [normal_hunks].
  1, 3: cbn; split; [lia|]; by intros (? & ? & ? & ?).
  { cbn in Hf. lia. }
  destruct (normalHunkRe (text l)) as [[m op]|] eqn:E.
  - eapply post_bind; [apply normal_hunk_post|]. intros [h rest'] Hs. unfold shorter in *. cbn in *.
    eapply post_weaken; [apply IH; lia|]. cbn. intros [? ?]. cbn. lia.
  - cbn. split; [done|]. intros (l' & rest' & [= <- <-] & E'). by rewrite E in E'.
Qed.

Lemma parseNormalFile_post l rest :
  is_some (normalHunkRe (text l)) = true ->
  post (parseNormalFile (l :: rest)) (shorter (length rest)).
Proof.
  intros E. unfold parseNormalFile. eapply post_bind; [by apply normal_hunks_post|].
  intros [[|h hs] r]; [done|]. intros [_ H]. unfold shorter. cbn in *. enough (length r < S (length rest))%nat by lia.
  apply H. eauto.
Qed.

Lemma skip_git_headers_shorter lines h : shorter (length lines) (skip_git_headers lines h).
Proof.
  unfold shorter. revert h; induction lines as [|l lines IH]; intros h; cbn [skip_git_headers]; [done|].
  repeat case_match; try done; (etrans; [apply IH|cbn; lia]).
Qed.

Lemma parseGitWrappedFile_post l rest :
  post (parseGitWrappedFile l rest) (shorter (length rest)).
Proof.
  unfold parseGitWrappedFile. destruct (match gitDiffRe _ with Some _ => _ | None => _ end) as [a b].
  pose proof (skip_git_headers_shorter rest (Git [] [] false)) as H.
  destruct (skip_git_headers rest _) as [h lines]. unfold shorter in *. cbn [snd] in H.
  destruct lines as [|l0 [|l1 rest']]; [cbn; lia|cbn in *; lia|].
  destruct (_ && _); [|cbn in *; lia].
  eapply post_bind; [apply parseUnifiedFile_post|]. intros [fp r] Hs. unfold shorter in *. cbn in *. lia.
Qed.

Lemma trim_left_idem p s : trim_left p (trim_left p s) = trim_left p s.
Proof. induction s as [|c s IH]; [done|]. cbn. destruct (p c) eqn:E; [done|]. cbn. by rewrite E. Qed.

Lemma trim_left_drop p s :
  (length (trim_left p s) <= length s)%nat /\
  drop (length s - length (trim_left p s)) s = trim_left p s.
Proof.
  induction s as [|c s [IH1 IH2]]; [done|]. cbn [trim_left]. destruct (p c).
  - split; [cbn; lia|]. cbn [length]. by rewrite Nat.sub_succ_l by done.
  - by rewrite Nat.sub_diag.
Qed.

(** Unindenting is done once. *)
Lemma stripPatchIndentAt_twice lines lines' :
  stripPatchIndentAt lines = Some lines' ->
  length lines' = length lines /\ stripPatchIndentAt lines' = None.
Proof.
  destruct lines as [|l rest]; [done|]. cbn [stripPatchIndentAt].
  destruct (str_eqb _ _ || negb _) eqn:E; [done|]. intros [= <-]. cbn [length].
  rewrite length_fmap. split; [done|].
  destruct (trim_left_drop is_blank (text l)) as [Hle Hd].
  set (trimmed := trim_left is_blank (text l)) in *. set (k := (length (text l) - length trimmed)%nat) in *.
  assert (Hpre : has_prefix (text l) (take k (text l)) = true).
  { rewrite <- (take_drop k (text l)) at 1. apply has_prefix_app. }
  rewrite Hpre. cbn [stripPatchIndentAt text].
  rewrite length_take, Nat.min_l by lia. rewrite Hd. unfold trimmed at 1. rewrite trim_left_idem.
  fold trimmed. by rewrite str_eqb_refl.
Qed.

Lemma parse_files_post fuel lines idx files :
  (2 * length lines <= fuel)%nat \/
  (2 * length lines <= S fuel)%nat /\ stripPatchIndentAt lines = None ->
  post (parse_files fuel lines idx files) (fun _ => True).
Proof.
  revert lines idx files; induction fuel as [|f IH]; intros [|l rest] idx files Hf; cbn [parse_files]; try done.
  { exfalso. cbn in Hf. destruct Hf as [?|[? _]]; lia. }
  destruct (stripPatchIndentAt (l :: rest)) as [lines'|] eqn:ES.
  { apply stripPatchIndentAt_twice in ES as [El Es]. apply IH. right. split; [|done].
    rewrite El. destruct Hf as [?|[? ?]]; [cbn in *; lia|done]. }
  assert (Hlt : (2 * length rest <= f)%nat) by (destruct Hf as [?|[? _]]; cbn in *; lia).
  assert (Hsec : forall p, post p (shorter (length rest)) ->
    post (pbind p (fun '(fp, r) => parse_files f r [] (files ++ [with_index idx fp]))) (fun _ => True)).
  { intros p Hp. eapply post_bind; [done|]. intros [fp r] Hs. apply IH. left.
    unfold shorter in Hs. cbn in Hs. lia. }
  destruct (has_prefix (text l) (str! "Index:")); [apply IH; by left|].
  destruct (has_prefix (text l) (str! "diff --git ")); [apply Hsec, parseGitWrappedFile_post|].
  destruct (has_prefix (text l) (str! "--- ") && _) eqn:E1.
  { destruct rest as [|l1 rest]; [by rewrite andb_false_r in E1|]. apply Hsec.
    eapply post_weaken; [apply parseUnifiedFile_post|]. intros [? ?]. unfold shorter. cbn. lia. }
  destruct (has_prefix (text l) (str! "*** ") && _) eqn:E2.
  { destruct rest as [|l1 rest]; [by rewrite andb_false_r in E2|]. apply Hsec.
    eapply post_weaken; [apply parseContextFile_post|]. intros [? ?]. unfold shorter. cbn. lia. }
  destruct (is_some (normalHunkRe (text l))) eqn:E3; [by apply Hsec, parseNormalFile_post|].
  apply IH. by left.
Qed.

(** [C37] The parser returns on every input, with a list of file patches or an
    error: no slice of the input is out of range and every loop ends. *)
Theorem Parse_returns (data : list Z) : exists r, Parse data = Ret r.
Proof.
  unfold Parse. pose proof (parse_files_post (2 * length (splitRawLines data)) (splitRawLines data) [] []
    ltac:(by left)) as H. unfold pbind.
  destruct (parse_files _ _ _ _) as [[e|files]| |]; try done; cbn; [by eexists|].
  destruct files; by eexists.
Qed.

(** ** Text and lines *)

Definition unlines (ls : list (list Z)) : list Z := concat ((fun l => l ++ [10]) <$> ls).

(** A line the splitter gives back as it is. *)
Definition clean (l : list Z) : Prop := 10 ∉ l /\ last l <> Some 13.

Lemma unlines_app ls ks : unlines (ls ++ ks) = unlines ls ++ unlines ks.
Proof. unfold unlines. by rewrite fmap_app, concat_app. Qed.

Lemma unlines_cons l ls : unlines (l :: ls) = l ++ [10] ++ unlines ls.
Proof. unfold unlines. cbn. by rewrite <- app_assoc. Qed.

Lemma split_unlines ls : Forall clean ls -> split_byte 10 (unlines ls) = ls ++ [[]].
Proof.
  induction 1 as [|l ls [Hl _] _ IH]; [done|].
  rewrite unlines_cons. cbn [app]. by rewrite split_byte_app, IH.
Qed.

Lemma has_suffix_unlines l ls : has_suffix_byte 10 (unlines (l :: ls)) = true.
Proof.
  destruct (@exists_last _ (l :: ls)) as (ks & k & ->); [done|].
  rewrite unlines_app. unfold unlines at 2. cbn. rewrite app_nil_r.
  unfold has_suffix_byte. by rewrite !rev_app_distr.
Qed.

Lemma trim_suffix_clean l : last l <> Some 13 -> trim_suffix_byte 13 l = l.
Proof.
  intros Hl. unfold trim_suffix_byte. destruct l as [|x l _] using rev_ind; [done|].
  rewrite last_snoc in Hl. rewrite rev_app_distr. cbn.
  by destruct (Z.eqb_spec x 13); [subst|].
Qed.

Definition raw (l : list Z) : rawLine := Raw l false.

Lemma splitRawLines_unlines ls : Forall clean ls -> splitRawLines (unlines ls) = raw <$> ls.
Proof.
  intros Hc. destruct ls as [|l ls]; [done|]. unfold splitRawLines.
  rewrite has_suffix_unlines, (split_unlines _ Hc), removelast_last.
  destruct (unlines (l :: ls)) eqn:E; [rewrite unlines_cons in E; by destruct l|].
  apply list_fmap_ext. intros i x Hx. rewrite Forall_lookup in Hc.
  destruct (Hc i x Hx) as [_ H]. by rewrite trim_suffix_clean.
Qed.

(** ** Numbers *)

Lemma utoa_spec n :
  0 <= n -> Forall (fun c => is_digit c = true) (utoa n) /\ utoa n <> [] /\ dec (utoa n) = n.
Proof. apply utoa_numeral. Qed.

Lemma itoa_utoa n : 0 <= n -> itoa n = utoa n.
Proof. intros. unfold itoa. by destruct (Z.ltb_spec n 0); [lia|]. Qed.

(** A text that a number cannot run into. *)
Definition ends_number (r : list Z) : Prop :=
  match r with c :: _ => is_digit c = false /\ c <> ch! "," | [] => True end.

Lemma digit_run_app d r :
  Forall (fun c => is_digit c = true) d -> match r with c :: _ => is_digit c = false | [] => True end ->
  digit_run (d ++ r) = (d, r).
Proof.
  intros Hd Hr. induction Hd as [|c d Hc _ IH]; cbn.
  - destruct r as [|c r]; [done|]. cbn. by rewrite Hr.
  - by rewrite Hc, IH.
Qed.

Lemma re_digits_itoa n r :
  0 <= n -> match r with c :: _ => is_digit c = false | [] => True end ->
  re_digits (itoa n ++ r) = Some (itoa n, r).
Proof.
  intros Hn Hr. rewrite itoa_utoa by done. destruct (utoa_spec n Hn) as (Hd & Hne & _).
  unfold re_digits. rewrite digit_run_app by done. by destruct (utoa n).
Qed.

Lemma re_range_one n r : 0 <= n -> ends_number r -> re_range (itoa n ++ r) = Some (itoa n, [], r).
Proof.
  intros Hn Hr. unfold re_range. rewrite re_digits_itoa; [|done|by destruct r; [|apply Hr]].
  destruct r as [|c r]; [done|]. destruct Hr as [_ Hc].
  by destruct (Z.eqb_spec c (ch! ",")).
Qed.

Lemma re_range_two n m r :
  0 <= n -> 0 <= m -> ends_number r ->
  re_range (itoa n ++ str! "," ++ itoa m ++ r) = Some (itoa n, itoa m, r).
Proof.
  intros Hn Hm Hr. unfold re_range. rewrite re_digits_itoa by done. cbn [app].
  rewrite Z.eqb_refl, re_digits_itoa; [done..|by destruct r; [|apply Hr]].
Qed.

Lemma Atoi_itoa n : 0 <= n <= max_int -> Atoi (itoa n) = n.
Proof.
  intros Hn. rewrite itoa_utoa by lia. unfold Atoi. destruct (utoa_spec n) as (_ & _ & ->); lia.
Qed.

Lemma nonempty_itoa n : 0 <= n -> nonempty (itoa n) = true.
Proof.
  intros Hn. rewrite itoa_utoa by lia. destruct (utoa_spec n Hn) as (_ & H & _). by destruct (utoa n).
Qed.

Lemma atoiDefault_itoa n d : 0 <= n <= max_int -> atoiDefault (itoa n) d = n.
Proof.
  intros Hn. pose proof (nonempty_itoa n ltac:(lia)) as He. unfold atoiDefault.
  destruct (itoa n) eqn:E; [done|]. rewrite <- E. rewrite itoa_utoa by lia.
  destruct (utoa_spec n) as (_ & _ & ->); [lia|]. destruct (Z.ltb_spec max_int n); lia.
Qed.

Lemma itoa_clean n : 0 <= n -> Forall (fun c => is_digit c = true) (itoa n).
Proof. intros Hn. rewrite itoa_utoa by done. by apply utoa_spec. Qed.

(** ** Unified hunks *)

Definition in_range (start count : Z) : Prop := 0 <= start /\ 0 <= count /\ start + count < max_int.

(** The two groups of a range. *)
Lemma unified_range_parse start count r :
  in_range start count -> ends_number r ->
  exists a b, re_range (unifiedRangeText start count ++ r) = Some (a, b, r) /\
    unifiedRangeVal (Atoi a) (nonempty b) (atoiDefault b 0) = (start, count).
Proof.
  intros (Hs & Hc & Hb) Hr. unfold unifiedRangeText.
  destruct (Z.eqb_spec count 1) as [->|]; [|destruct (Z.eqb_spec count 0) as [->|]].
  - eexists _, _. split; [apply re_range_one; [lia|done]|]. rewrite Atoi_itoa by lia.
    unfold unifiedRangeVal. cbn. f_equal. lia.
  - eexists _, _. rewrite <- app_assoc. split; [apply (re_range_two start 0); [lia|lia|done]|].
    by rewrite Atoi_itoa by lia.
  - eexists _, _. rewrite <- !app_assoc. split; [apply re_range_two; [lia..|done]|].
    rewrite Atoi_itoa, nonempty_itoa, atoiDefault_itoa by lia. unfold unifiedRangeVal. cbn [negb].
    destruct (Z.eqb_spec count 0); [done|]. f_equal. lia.
Qed.

Lemma re_lit_app p s : re_lit p (p ++ s) = Some s.
Proof. unfold re_lit. by rewrite has_prefix_app, drop_app_length. Qed.

Definition header_line (h : Hunk) : list Z :=
  str! "@@ -" ++ unifiedRangeText (OldStart h) (OldCount h) ++
  str! " +" ++ unifiedRangeText (NewStart h) (NewCount h) ++ str! " @@".

Lemma header_parse h :
  in_range (OldStart h) (OldCount h) -> in_range (NewStart h) (NewCount h) ->
  exists m, unifiedHunkRe (header_line h) = Some m /\
    unifiedRangeVal (Atoi (g1 m)) (nonempty (g2 m)) (atoiDefault (g2 m) 0) = (OldStart h, OldCount h) /\
    unifiedRangeVal (Atoi (g3 m)) (nonempty (g4 m)) (atoiDefault (g4 m) 0) = (NewStart h, NewCount h).
Proof.
  intros Ho Hn. unfold unifiedHunkRe, header_line. rewrite re_lit_app. cbn [mbind option_bind].
  destruct (unified_range_parse (OldStart h) (OldCount h)
    (str! " +" ++ unifiedRangeText (NewStart h) (NewCount h) ++ str! " @@") Ho) as (a & b & -> & Ha); [done|].
  cbn [mbind option_bind]. rewrite re_lit_app. cbn [mbind option_bind].
  destruct (unified_range_parse (NewStart h) (NewCount h) (str! " @@") Hn) as (c & d & -> & Hc); [done|].
  cbn. by exists (Ranges a b c d).
Qed.

Definition no_newline_line : list Z := str! "\ No newline at end of file".

Definition marker_lines (b : bool) : list (list Z) := if b then [no_newline_line] else [].

Definition unified_lines (l : HunkLine) : list (list Z) :=
  (unified_mark (Kind l) :: Text l) :: marker_lines (NoEOL l).

Definition hunk_lines (h : Hunk) : list (list Z) :=
  header_line h :: concat (unified_lines <$> Lines h).

Lemma unlines_concat {A} (f : A -> list (list Z)) (g : A -> list Z) (l : list A) :
  (forall x, g x = unlines (f x)) -> concat (g <$> l) = unlines (concat (f <$> l)).
Proof.
  intros Hfg. induction l as [|x l IH]; [done|]. rewrite !fmap_cons. cbn [concat].
  by rewrite IH, Hfg, unlines_app.
Qed.

Lemma unified_line_lines l : unified_line l = unlines (unified_lines l).
Proof.
  unfold unified_line, unified_lines, marker_lines. rewrite unlines_cons.
  by destruct (NoEOL l).
Qed.

Lemma hunk_text_lines h :
  hunkHeader h ++ concat (unified_line <$> Lines h) = unlines (hunk_lines h).
Proof.
  unfold hunk_lines. rewrite unlines_cons. rewrite (unlines_concat unified_lines) by apply unified_line_lines.
  unfold hunkHeader, header_line. by rewrite <- !app_assoc.
Qed.

(** The hunk lines of a text: the body, then the markers after it. *)
Definition finish (r : parser (list HunkLine * list rawLine)) : parser (list HunkLine * list rawLine) :=
  try! (hl, lines) := r in ok (trailing_markers lines hl).

Lemma unified_body_done nm oc nc lines os ns hl :
  oc <= os -> nc <= ns -> unified_body nm oc nc lines os ns hl = ok (hl, lines).
Proof.
  intros. destruct lines; cbn [unified_body];
    destruct (Z.ltb_spec os oc), (Z.ltb_spec ns nc); (lia || done).
Qed.

Lemma finish_marker nm oc nc lines os ns hl :
  finish (unified_body nm oc nc (raw no_newline_line :: lines) os ns hl) =
  finish (unified_body nm oc nc lines os ns (mark_noEOL hl)).
Proof.
  cbn [unified_body]. destruct ((os <? oc) || (ns <? nc)) eqn:E; [done|].
  to_prop. by rewrite unified_body_done.
Qed.

Lemma at_last_snoc {A} (f : A -> A) l x : at_last f (l ++ [x]) = l ++ [f x].
Proof.
  induction l as [|y l IH]; [done|]. cbn. rewrite IH. by destruct l.
Qed.

Definition not_marker (rest : list rawLine) : Prop :=
  match rest with l :: _ => is_marker l = false | [] => True end.

Lemma unified_body_lines nm oc nc ls rest os ns hl :
  not_marker rest -> os + len (oldSeq ls) = oc -> ns + len (newSeq ls) = nc ->
  finish (unified_body nm oc nc ((raw <$> concat (unified_lines <$> ls)) ++ rest) os ns hl) =
  ok (hl ++ ls, rest).
Proof.
  intros Hrest. revert os ns hl; induction ls as [|l ls IH]; intros os ns hl Ho Hn.
  { change (len (oldSeq [])) with 0 in Ho. change (len (newSeq [])) with 0 in Hn. cbn [fmap list_fmap concat app].
    rewrite unified_body_done by lia. rewrite app_nil_r. unfold finish. cbn.
    destruct rest as [|r rest]; [done|]. cbn in Hrest |- *. by rewrite Hrest. }
  assert (Hstep : forall l' os ns hl, NoEOL l' = false -> Kind l' = Kind l -> Text l' = Text l ->
    os + len (oldSeq ls) = oc -> ns + len (newSeq ls) = nc ->
    finish (unified_body nm oc nc ((raw <$> marker_lines (NoEOL l) ++ concat (unified_lines <$> ls)) ++ rest)
      os ns (hl ++ [l'])) = ok (hl ++ l :: ls, rest)).
  { intros l' os' ns' hl' H1 H2 H3 H4 H5. destruct l as [k t [|]]; cbn [Kind Text NoEOL] in *;
      cbn [marker_lines app]; rewrite ?fmap_cons; cbn [app].
    - rewrite finish_marker. unfold mark_noEOL. rewrite at_last_snoc, H2, H3.
      rewrite IH by done. by rewrite <- app_assoc.
    - rewrite IH by done. rewrite <- app_assoc. destruct l' as [k' t' b']; cbn in *; by subst. }
  rewrite oldSeq_cons in Ho. rewrite newSeq_cons in Hn.
  pose proof (len_nonneg (oldSeq ls)). pose proof (len_nonneg (newSeq ls)).
  cbn [fmap list_fmap concat unified_lines app]. cbn [unified_body].
  destruct (Kind l) eqn:EK; cbn [unified_mark]; rewrite ?len_cons in *;
    (destruct (Z.ltb_spec os oc), (Z.ltb_spec ns nc); cbn [orb]; try lia);
    (apply Hstep; [done|done|done|lia|lia]).
Qed.

(** A hunk that can be printed: its counts are those of its lines, its line
    numbers are in range and its texts are single lines. *)
Record printable (h : Hunk) : Prop := Printable {
  pr_wf : wf_hunk h;
  pr_old : in_range (OldStart h) (OldCount h);
  pr_new : in_range (NewStart h) (NewCount h);
  pr_text : Forall (fun l => clean (Text l)) (Lines h)
}.

Definition good_name (nm : list Z) : Prop :=
  9 ∉ nm /\ 10 ∉ nm /\ match last nm with Some c => is_blank c = false /\ c <> 13 | None => True end.

Lemma extractName_good nm : good_name nm -> extractName nm = nm.
Proof.
  intros (H9 & _ & Hl). unfold extractName. rewrite index_byte_none by done.
  unfold trim_right. destruct nm as [|x nm _] using rev_ind; [done|].
  rewrite last_snoc in Hl. rewrite rev_app_distr. cbn. rewrite (proj1 Hl). cbn. by rewrite rev_involutive.
Qed.

Lemma unified_hunks_lines fuel nm hs acc :
  Forall printable hs -> (length hs <= fuel)%nat ->
  unified_hunks fuel nm (raw <$> concat (hunk_lines <$> hs)) acc = ok (acc ++ hs, []).
Proof.
  intros HP. revert fuel acc; induction HP as [|h hs [Hwf Ho Hn Ht] HP IH]; intros fuel acc Hf.
  { cbn. destruct fuel; cbn; by rewrite app_nil_r. }
  destruct fuel as [|fuel]; [cbn in Hf; lia|].
  rewrite fmap_cons. cbn [concat hunk_lines app]. rewrite fmap_cons. cbn [unified_hunks raw text].
  change (has_prefix (header_line h) (str! "@@ ")) with true. cbn [negb].
  destruct (header_parse h Ho Hn) as (m & -> & -> & ->).
  rewrite fmap_app.
  assert (Hnm : not_marker (raw <$> concat (hunk_lines <$> hs))) by (by destruct hs).
  pose proof (unified_body_lines nm (OldCount h) (NewCount h) (Lines h) _ 0 0 [] Hnm) as HB.
  rewrite <- (proj1 Hwf), <- (proj2 Hwf) in HB. specialize (HB eq_refl eq_refl).
  destruct (unified_body _ _ _ _ _ _ _) as [[e|[hl lines]]| |]; try done. cbn in HB.
  injection HB as HB. cbn [pbind bind]. rewrite HB. rewrite IH by (cbn in Hf; lia).
  rewrite <- app_assoc. by destruct h.
Qed.

Lemma parseUnifiedFile_lines old new hs :
  Forall printable hs ->
  parseUnifiedFile (raw (str! "--- " ++ old)) (raw (str! "+++ " ++ new)) (raw <$> concat (hunk_lines <$> hs)) =
  ok (mkFile (extractName old) (extractName new) [] FormatUnified hs [] [] [], []).
Proof.
  intros HP. unfold parseUnifiedFile. cbn [raw text app drop].
  rewrite unified_hunks_lines; [done|done|].
  rewrite length_fmap. clear. induction hs as [|h hs IH]; [done|].
  rewrite fmap_cons. cbn [concat]. rewrite length_app. cbn. lia.
Qed.

Lemma clean_cons m t : m <> 10 -> m <> 13 -> clean t -> clean (m :: t).
Proof.
  intros H10 H13 [H1 H2]. split; [by apply not_elem_of_cons|]. rewrite last_cons.
  destruct (last t); [done|]. congruence.
Qed.

Lemma clean_app p t : Forall (fun c => c <> 10 /\ c <> 13) p -> clean t -> clean (p ++ t).
Proof. induction 1 as [|c p [??] _ IH]; [done|]. intros Ht. by apply clean_cons, IH. Qed.

Lemma good_name_clean nm : good_name nm -> clean nm.
Proof. intros (_ & H1 & H2). split; [done|]. destruct (last nm); [|done]. intros [= ->]. naive_solver. Qed.

Lemma plain_clean p : Forall (fun c => c <> 10 /\ c <> 13) p -> clean p.
Proof. intros H. rewrite <- (app_nil_r p). apply clean_app; [done|]. split; [apply not_elem_of_nil|done]. Qed.

Lemma itoa_plain n : 0 <= n -> Forall (fun c => c <> 10 /\ c <> 13) (itoa n).
Proof.
  intros Hn. eapply Forall_impl; [by apply itoa_clean|]. intros c Hc. unfold is_digit in Hc. to_prop. lia.
Qed.

Ltac plain_lit := repeat (apply Forall_cons; split; [done|]); try apply Forall_nil; try done.

Lemma unified_range_plain start count :
  in_range start count -> Forall (fun c => c <> 10 /\ c <> 13) (unifiedRangeText start count).
Proof.
  intros (? & ? & ?). unfold unifiedRangeText. destruct (_ =? _); [apply itoa_plain; lia|].
  destruct (_ =? _); rewrite !Forall_app; split_and!; try (apply itoa_plain; lia); plain_lit.
Qed.

Lemma header_line_clean h :
  in_range (OldStart h) (OldCount h) -> in_range (NewStart h) (NewCount h) -> clean (header_line h).
Proof.
  intros Ho Hn. apply plain_clean. unfold header_line. rewrite !Forall_app.
  split_and!; [plain_lit|by apply unified_range_plain|plain_lit|by apply unified_range_plain|plain_lit].
Qed.

Lemma no_newline_clean : clean no_newline_line.
Proof. apply plain_clean. unfold no_newline_line. plain_lit. Qed.

Lemma hunk_lines_clean h : printable h -> Forall clean (hunk_lines h).
Proof.
  intros [_ Ho Hn Ht]. constructor; [by apply header_line_clean|].
  apply Forall_concat, Forall_fmap. eapply Forall_impl; [done|]. intros [k t b] Hc. cbn in *.
  constructor; [apply clean_cons; [by destruct k..|done]|].
  destruct b; constructor; [apply no_newline_clean|constructor].
Qed.

Lemma parse_files_unified f a b rest idx files :
  parse_files (S f) (raw (str! "--- " ++ a) :: raw (str! "+++ " ++ b) :: rest) idx files =
  try! (fp, r) := parseUnifiedFile (raw (str! "--- " ++ a)) (raw (str! "+++ " ++ b)) rest in
  parse_files f r [] (files ++ [with_index idx fp]).
Proof.
  cbn [parse_files]. assert (ES : stripPatchIndentAt (raw (str! "--- " ++ a) ::
    raw (str! "+++ " ++ b) :: rest) = None).
  { cbn [stripPatchIndentAt raw text]. change (trim_left is_blank (str! "--- " ++ a)) with (str! "--- " ++ a).
    by rewrite str_eqb_refl. }
  rewrite ES. cbn [raw text]. by rewrite !has_prefix_app.
Qed.

(** A unified diff of one file: two header lines and the hunks. *)
Lemma Parse_unified_text old new hs :
  clean old -> clean new -> Forall printable hs ->
  Parse (unlines ((str! "--- " ++ old) :: (str! "+++ " ++ new) :: concat (hunk_lines <$> hs))) =
  Ret (inr [mkFile (extractName old) (extractName new) [] FormatUnified hs [] [] []]).
Proof.
  intros Ho Hn HP. unfold Parse. rewrite splitRawLines_unlines.
  - rewrite !fmap_cons. cbn [length]. rewrite Nat.mul_succ_r, Nat.add_succ_r.
    rewrite parse_files_unified. rewrite parseUnifiedFile_lines by done.
    cbn [pbind bind ok]. by destruct (_ + _)%nat.
  - constructor; [|constructor].
    + apply clean_app; [plain_lit|done].
    + apply clean_app; [plain_lit|done].
    + apply Forall_concat, Forall_fmap. eapply Forall_impl; [done|]. apply hunk_lines_clean.
Qed.

(** A unified reject file is a patch: parsed back it gives the same names
    and the same hunks, with their line numbers, counts, lines and
    end-of-file markers. *)
Theorem writeUnifiedReject_Parse (old new : list Z) (hs : list Hunk) :
  good_name old -> good_name new -> Forall printable hs ->
  Parse (writeUnifiedReject old new hs) = Ret (inr [mkFile old new [] FormatUnified hs [] [] []]).
Proof.
  intros Ho Hn HP.
  assert (E : writeUnifiedReject old new hs =
    unlines ((str! "--- " ++ old) :: (str! "+++ " ++ new) :: concat (hunk_lines <$> hs))).
  { unfold writeUnifiedReject. rewrite !unlines_cons, <- !app_assoc. do 6 f_equal.
    apply unlines_concat, hunk_text_lines. }
  rewrite E, Parse_unified_text by auto using good_name_clean. by rewrite !extractName_good.
Qed.

(** ** Context hunks *)

(** The marks of a line in the two blocks. *)
Definition old_mark (hasAdd : bool) (k : LineKind) : list Z :=
  match k with LineDelete => if hasAdd then str! "! " else str! "- " | _ => str! "  " end.
Definition new_mark (hasDelete : bool) (k : LineKind) : list Z :=
  match k with LineAdd => if hasDelete then str! "! " else str! "+ " | _ => str! "  " end.

Definition old_side (ls : list HunkLine) : list HunkLine := filter (fun l => Kind l <> LineAdd) ls.
Definition new_side (ls : list HunkLine) : list HunkLine := filter (fun l => Kind l <> LineDelete) ls.

Definition block_lines (mk : LineKind -> list Z) (l : HunkLine) : list (list Z) :=
  (mk (Kind l) ++ Text l) :: marker_lines (NoEOL l).

Definition marked (mk : LineKind -> list Z) (l : HunkLine) : markedLine :=
  Marked (mk (Kind l)) (Text l) (NoEOL l).

Definition stops (marks : list (list Z)) (rest : list rawLine) : Prop :=
  match rest with
  | l :: _ => is_marker l = false /\ existsb (str_eqb (take 2 (text l))) marks = false
  | [] => True
  end.

(** A mark of two bytes, which the block accepts and no marker starts with. *)
Definition good_marks (mk : LineKind -> list Z) (marks : list (list Z)) : Prop :=
  forall k, existsb (str_eqb (mk k)) marks = true /\
    exists a b, mk k = [a; b] /\ a <> ch! "\" /\ a <> 10 /\ a <> 13 /\ b <> 10 /\ b <> 13.

Lemma old_good a : good_marks (old_mark a) oldBlockMarks.
Proof. intros []; destruct a; (split; [done|]; do 2 eexists; split; [done|]; lia). Qed.

Lemma new_good a : good_marks (new_mark a) newBlockMarks.
Proof. intros []; destruct a; (split; [done|]; do 2 eexists; split; [done|]; lia). Qed.

Lemma consume_lines mk marks ls rest out :
  good_marks mk marks -> stops marks rest ->
  consumeMarkedBlock ((raw <$> concat (block_lines mk <$> ls)) ++ rest) marks out =
  (out ++ (marked mk <$> ls), rest).
Proof.
  intros Hm Hs. revert out; induction ls as [|l ls IH]; intros out.
  { cbn [fmap list_fmap concat app]. rewrite app_nil_r. destruct rest as [|r rest]; [done|].
    destruct Hs as [Hs1 Hs2]. cbn [consumeMarkedBlock]. by rewrite Hs1, Hs2, orb_true_r. }
  rewrite !fmap_cons. cbn [concat block_lines app]. rewrite fmap_cons, fmap_app. cbn [app consumeMarkedBlock].
  destruct (Hm (Kind l)) as (He & a & b & Eab & Ha & _).
  assert (Em : marked mk l = Marked [a; b] (Text l) (NoEOL l)) by (unfold marked; by rewrite Eab).
  rewrite Eab in *. rewrite Em.
  assert (is_marker (raw ([a; b] ++ Text l)) = false) as ->.
  { cbn. by apply Z.eqb_neq. }
  cbn [raw text app length take drop]. rewrite take_0, drop_0, He. cbn [Nat.ltb Nat.leb negb orb noEOL].
  rewrite <- app_assoc.
  destruct (NoEOL l) eqn:EN; cbn [marker_lines].
  - rewrite fmap_cons. cbn [fmap list_fmap app consumeMarkedBlock].
    change (is_marker (raw no_newline_line)) with true. cbn iota.
    unfold mark_last. rewrite at_last_snoc. cbn [mark mtext]. rewrite IH. by rewrite <- app_assoc.
  - cbn [fmap list_fmap app]. rewrite IH. by rewrite <- app_assoc.
Qed.

Definition starts_context (ls : list HunkLine) : Prop :=
  match ls with l :: _ => Kind l = LineContext | [] => True end.

(** The hunks whose two blocks determine the order of their lines for the
    reader: a run of changes has deletions, then additions, and one without
    deletions is the end of the hunk. *)
Inductive aligned : list HunkLine -> Prop :=
| aligned_nil : aligned []
| aligned_context l ls : Kind l = LineContext -> aligned ls -> aligned (l :: ls)
| aligned_changes ds adds ls :
    ds <> [] -> Forall (fun l => Kind l = LineDelete) ds -> Forall (fun l => Kind l = LineAdd) adds ->
    starts_context ls -> aligned ls -> aligned (ds ++ adds ++ ls)
| aligned_adds adds : Forall (fun l => Kind l = LineAdd) adds -> aligned adds.

Definition side_marks (omk nmk : LineKind -> list Z) : Prop :=
  omk LineContext = str! "  " /\ nmk LineContext = str! "  " /\
  omk LineDelete <> str! "  " /\ nmk LineAdd <> str! "  ".

Lemma take_changes_run k mk ls rest :
  mk k <> str! "  " -> Forall (fun l => Kind l = k) ls -> (rest = [] \/ at_context rest = true) ->
  take_changes k ((marked mk <$> ls) ++ rest) = (ls, rest).
Proof.
  intros Hk Hl Hr. induction Hl as [|l ls Hl _ IH].
  { cbn. destruct rest as [|r rest]; [done|]. destruct Hr as [|Hr]; [done|]. cbn in *. by rewrite Hr. }
  rewrite fmap_cons. cbn [app take_changes].
  assert (is_context (marked mk l) = false) as ->.
  { unfold is_context, marked. cbn. rewrite Hl. by apply str_eqb_neq. }
  rewrite IH. cbn. rewrite <- Hl. by destruct l.
Qed.

Lemma side_app_old ls ks : old_side (ls ++ ks) = old_side ls ++ old_side ks.
Proof. apply filter_app. Qed.
Lemma side_app_new ls ks : new_side (ls ++ ks) = new_side ls ++ new_side ks.
Proof. apply filter_app. Qed.

Lemma old_side_cons l ls :
  old_side (l :: ls) = match Kind l with LineAdd => old_side ls | _ => l :: old_side ls end.
Proof. unfold old_side. rewrite filter_cons. by destruct (Kind l). Qed.

Lemma new_side_cons l ls :
  new_side (l :: ls) = match Kind l with LineDelete => new_side ls | _ => l :: new_side ls end.
Proof. unfold new_side. rewrite filter_cons. by destruct (Kind l). Qed.

Lemma old_side_all k ls :
  Forall (fun l => Kind l = k) ls -> old_side ls = match k with LineAdd => [] | _ => ls end.
Proof.
  induction 1 as [|l ls Hl _ IH]; [by destruct k|]. rewrite old_side_cons, Hl, IH. by destruct k.
Qed.

Lemma new_side_all k ls :
  Forall (fun l => Kind l = k) ls -> new_side ls = match k with LineDelete => [] | _ => ls end.
Proof.
  induction 1 as [|l ls Hl _ IH]; [by destruct k|]. rewrite new_side_cons, Hl, IH. by destruct k.
Qed.

Lemma side_at_context mk side ls :
  (side = old_side \/ side = new_side) -> mk LineContext = str! "  " -> starts_context ls ->
  marked mk <$> side ls = [] /\ ls = [] \/ at_context (marked mk <$> side ls) = true.
Proof.
  intros Hside Hm Hs. destruct ls as [|l ls]; [left; by destruct Hside as [->| ->]|right].
  cbn in Hs. destruct Hside as [->| ->]; [rewrite old_side_cons|rewrite new_side_cons];
    rewrite Hs; cbn; unfold is_context, marked; cbn; by rewrite Hs, Hm.
Qed.

Lemma zip_step f os ns hl dels adds os' ns' :
  take_changes LineDelete os = (dels, os') -> take_changes LineAdd ns = (adds, ns') ->
  at_context os = false -> os <> [] \/ ns <> [] ->
  zip_blocks (S f) os ns hl =
  match os' with
  | [] => if at_context ns'
          then zip_blocks f [] (tail ns') (hl ++ dels ++ adds ++ (context_line <$> take 1 ns'))
          else zip_blocks f [] ns' (hl ++ dels ++ adds)
  | _ => zip_blocks f os' ns' (hl ++ dels ++ adds)
  end.
Proof.
  intros Td Ta Hat Hne. cbn [zip_blocks]. rewrite Hat, Td, Ta.
  destruct os, ns; try done. by destruct Hne.
Qed.

Lemma zip_lines omk nmk fuel ls hl :
  side_marks omk nmk -> aligned ls ->
  (length (old_side ls) + length (new_side ls) <= fuel)%nat ->
  zip_blocks fuel (marked omk <$> old_side ls) (marked nmk <$> new_side ls) hl = Ret (hl ++ ls).
Proof.
  intros (Mo & Mn & Md & Ma) Hal. revert fuel hl.
  induction Hal as [|l ls Hk _ IH|ds adds ls Hne Hd Ha Hs _ IH|adds Ha]; intros fuel hl Hf.
  - destruct fuel; cbn; by rewrite app_nil_r.
  - rewrite old_side_cons, new_side_cons, Hk in *. destruct fuel as [|f]; [cbn in Hf; lia|].
    rewrite !fmap_cons. cbn [zip_blocks at_context].
    assert (Eo : is_context (marked omk l) = true) by (unfold is_context, marked; cbn; by rewrite Hk, Mo).
    assert (En : is_context (marked nmk l) = true) by (unfold is_context, marked; cbn; by rewrite Hk, Mn).
    rewrite Eo, En. cbn [tail take fmap list_fmap]. rewrite IH by (cbn in Hf; lia).
    unfold context_line. cbn. rewrite <- app_assoc, <- Hk. by destruct l.
  - rewrite !side_app_old, !side_app_new in *.
    rewrite (old_side_all LineDelete ds), (old_side_all LineAdd adds),
      (new_side_all LineDelete ds), (new_side_all LineAdd adds) in * by done.
    cbn [app] in *. rewrite !fmap_app. rewrite !length_app in Hf.
    destruct fuel as [|f]; [destruct ds; [done|cbn in Hf; lia]|].
    pose proof (take_changes_run LineDelete omk ds (marked omk <$> old_side ls) Md Hd) as To.
    pose proof (take_changes_run LineAdd nmk adds (marked nmk <$> new_side ls) Ma Ha) as Tn.
    assert (Hr : forall mk side, (side = old_side \/ side = new_side) -> mk LineContext = str! "  " ->
      marked mk <$> side ls = [] \/ at_context (marked mk <$> side ls) = true).
    { intros mk side H1 H2. destruct (side_at_context mk side ls H1 H2 Hs) as [[? _]|]; auto. }
    specialize (To (Hr omk old_side (or_introl eq_refl) Mo)).
    specialize (Tn (Hr nmk new_side (or_intror eq_refl) Mn)).
    rewrite (zip_step _ _ _ _ _ _ _ _ To Tn).
    + rewrite !app_assoc. rewrite <- (app_assoc hl).
      destruct ls as [|l ls]; [cbn; destruct f; cbn; by rewrite app_nil_r|].
      cbn in Hs. rewrite old_side_cons, Hs in *. rewrite fmap_cons. rewrite <- fmap_cons.
      rewrite IH; [|destruct ds; [done|]; cbn in *; lia]. by rewrite <- !app_assoc.
    + destruct ds as [|d ds]; [done|]. apply Forall_cons in Hd as [Hd _]. cbn.
      unfold is_context, marked. cbn. rewrite Hd. by apply str_eqb_neq.
    + left. by destruct ds.
  - rewrite (old_side_all LineAdd adds), (new_side_all LineAdd adds) in * by done.
    destruct adds as [|a adds]; [destruct fuel; cbn; by rewrite app_nil_r|].
    destruct fuel as [|f]; [cbn in Hf; lia|].
    pose proof (take_changes_run LineAdd nmk (a :: adds) [] Ma Ha ltac:(by left)) as Tn.
    rewrite app_nil_r in Tn. rewrite (zip_step _ [] _ _ [] _ [] _ eq_refl Tn); [|done|by right].
    cbn [at_context app]. destruct f; done.
Qed.

Lemma context_range_parse start count actual r :
  in_range start count -> ends_number r -> (count <= 1 -> actual = count) ->
  exists a b, re_range (contextRangeText start count ++ r) = Some (a, b, r) /\
    resolveContextStart (nonempty b) (Atoi a) (atoiDefault b 0) actual = (start, count).
Proof.
  intros (Hs & Hc & Hb) Hr Hact. unfold contextRangeText.
  destruct (Z.leb_spec count 1).
  - eexists _, _. split; [apply re_range_one; [lia|done]|]. rewrite Atoi_itoa by lia.
    unfold resolveContextStart, contextRangeVal. cbn. rewrite Hact by done. f_equal. lia.
  - eexists _, _. rewrite <- !app_assoc. split; [apply re_range_two; [lia..|done]|].
    rewrite !Atoi_itoa, nonempty_itoa, atoiDefault_itoa by lia.
    unfold resolveContextStart, contextRangeVal. unfold max_int in Hb.
    rewrite wraps_id; [f_equal; lia|lia|]. unfold in_sint. lia.
Qed.

Definition sep_line : list Z := str! "***************".
Definition old_header (h : Hunk) : list Z :=
  str! "*** " ++ contextRangeText (OldStart h) (OldCount h) ++ str! " ****".
Definition new_header (h : Hunk) : list Z :=
  str! "--- " ++ contextRangeText (NewStart h) (NewCount h) ++ str! " ----".

Definition omark (h : Hunk) : LineKind -> list Z := old_mark (existsb (is_kind LineAdd) (Lines h)).
Definition nmark (h : Hunk) : LineKind -> list Z := new_mark (existsb (is_kind LineDelete) (Lines h)).

Definition context_lines (h : Hunk) : list (list Z) :=
  sep_line :: old_header h :: concat (block_lines (omark h) <$> old_side (Lines h)) ++
  new_header h :: concat (block_lines (nmark h) <$> new_side (Lines h)).

Lemma append_line_lines mk l :
  appendContextRejectLine (mk (Kind l)) l = unlines (block_lines mk l).
Proof.
  unfold appendContextRejectLine, block_lines, marker_lines. rewrite unlines_cons, <- app_assoc.
  by destruct (NoEOL l).
Qed.

Lemma context_text_lines h : context_hunk_text h = unlines (context_lines h).
Proof.
  assert (Ho : forall ls, concat ((fun l => match Kind l with
      | LineAdd => []
      | LineDelete => appendContextRejectLine (if existsb (is_kind LineAdd) (Lines h) then str! "! " else str! "- ") l
      | LineContext => appendContextRejectLine (str! "  ") l end) <$> ls) =
    unlines (concat (block_lines (omark h) <$> old_side ls))).
  { induction ls as [|l ls IH]; [done|]. rewrite fmap_cons, old_side_cons. cbn [concat]. rewrite IH.
    destruct (Kind l) eqn:EK; [| |done]; rewrite fmap_cons; cbn [concat];
      rewrite unlines_app, <- append_line_lines; unfold omark, old_mark; by rewrite EK. }
  assert (Hn : forall ls, concat ((fun l => match Kind l with
      | LineDelete => []
      | LineAdd => appendContextRejectLine (if existsb (is_kind LineDelete) (Lines h) then str! "! " else str! "+ ") l
      | LineContext => appendContextRejectLine (str! "  ") l end) <$> ls) =
    unlines (concat (block_lines (nmark h) <$> new_side ls))).
  { induction ls as [|l ls IH]; [done|]. rewrite fmap_cons, new_side_cons. cbn [concat]. rewrite IH.
    destruct (Kind l) eqn:EK; [|done|]; rewrite fmap_cons; cbn [concat];
      rewrite unlines_app, <- append_line_lines; unfold nmark, new_mark; by rewrite EK. }
  unfold context_hunk_text, context_lines. cbv zeta. rewrite Ho, Hn.
  rewrite !unlines_cons, unlines_app, unlines_cons. unfold old_header, new_header. by rewrite <- !app_assoc.
Qed.

Lemma old_header_parse h :
  in_range (OldStart h) (OldCount h) -> OldCount h = len (old_side (Lines h)) ->
  exists a b, contextOldRe (old_header h) = Some (a, b) /\
    resolveContextStart (nonempty b) (Atoi a) (atoiDefault b 0) (len (old_side (Lines h))) =
    (OldStart h, OldCount h).
Proof.
  intros Hr Hc. unfold contextOldRe, old_header. rewrite re_lit_app. cbn [mbind option_bind].
  destruct (context_range_parse (OldStart h) (OldCount h) (len (old_side (Lines h))) (str! " ****") Hr)
    as (a & b & -> & E); [done|done|]. cbn [mbind option_bind]. by exists a, b.
Qed.

Lemma new_header_parse h :
  in_range (NewStart h) (NewCount h) -> NewCount h = len (new_side (Lines h)) ->
  exists a b, contextNewRe (new_header h) = Some (a, b) /\
    resolveContextStart (nonempty b) (Atoi a) (atoiDefault b 0) (len (new_side (Lines h))) =
    (NewStart h, NewCount h).
Proof.
  intros Hr Hc. unfold contextNewRe, new_header. rewrite re_lit_app. cbn [mbind option_bind].
  destruct (context_range_parse (NewStart h) (NewCount h) (len (new_side (Lines h))) (str! " ----") Hr)
    as (a & b & -> & E); [done|done|]. cbn [mbind option_bind]. by exists a, b.
Qed.

Lemma side_counts h :
  wf_hunk h -> OldCount h = len (old_side (Lines h)) /\ NewCount h = len (new_side (Lines h)).
Proof.
  intros [-> ->]. unfold oldSeq, newSeq, len. by rewrite !length_fmap.
Qed.

(** A block is read whether or not its first line is looked at. *)
Lemma optional_block_lines stop mk marks ls rest :
  good_marks mk marks -> stops marks rest ->
  (forall l r, stop (mk (Kind l) ++ r) = false) ->
  optional_block stop ((raw <$> concat (block_lines mk <$> ls)) ++ rest) marks =
  (marked mk <$> ls, rest).
Proof.
  intros Hg Hs Hst. pose proof (consume_lines mk marks ls rest [] Hg Hs) as HC. cbn [app] in HC.
  destruct ls as [|l ls].
  - cbn [fmap list_fmap concat app] in *. unfold optional_block.
    destruct rest as [|r rest]; [done|]. by destruct (stop (text r)).
  - rewrite fmap_cons in *. cbn [concat block_lines app] in *. rewrite fmap_cons in *. cbn [app] in *.
    cbn [optional_block raw text]. rewrite Hst. exact HC.
Qed.

Lemma context_hunk_lines h rest :
  printable h -> aligned (Lines h) -> stops newBlockMarks rest ->
  context_hunk ((raw <$> tail (context_lines h)) ++ rest) = ok (h, rest).
Proof.
  intros [Hwf Ho Hn _] Hal Hs. destruct (side_counts h Hwf) as [Co Cn].
  unfold context_lines. cbn [tail]. rewrite fmap_cons, fmap_app, fmap_cons. cbn [app].
  unfold context_hunk. cbn [raw text].
  destruct (old_header_parse h Ho Co) as (a & b & -> & Er).
  destruct (new_header_parse h Hn Cn) as (c & d & En & Er').
  rewrite <- app_assoc, <- app_comm_cons.
  rewrite (optional_block_lines _ (omark h) oldBlockMarks).
  - cbn [raw text]. rewrite En.
    rewrite (optional_block_lines _ (nmark h) newBlockMarks); [|apply new_good|done|].
    2: { intros l r. unfold nmark, new_mark. destruct (Kind l); try destruct (existsb _ _); done. }
    unfold len in *. rewrite !length_fmap. rewrite Er, Er'. unfold zipContextBlocks. rewrite !length_fmap.
    rewrite (zip_lines (omark h) (nmark h) _ _ []); [|split_and!|done|done].
    + cbn. by destruct h.
    + done.
    + done.
    + unfold omark, old_mark. by destruct (existsb _ _).
    + unfold nmark, new_mark. by destruct (existsb _ _).
  - apply old_good.
  - done.
  - intros l r. unfold omark, old_mark. destruct (Kind l); try destruct (existsb _ _); done.
Qed.

Lemma context_hunks_lines fuel hs acc :
  Forall printable hs -> Forall (fun h => aligned (Lines h)) hs -> (length hs <= fuel)%nat ->
  context_hunks fuel (raw <$> concat (context_lines <$> hs)) acc = ok (acc ++ hs, []).
Proof.
  intros HP. revert fuel acc; induction HP as [|h hs Hh HP IH]; intros fuel acc HA Hf.
  { destruct fuel; cbn; by rewrite app_nil_r. }
  destruct fuel as [|fuel]; [cbn in Hf; lia|]. apply Forall_cons in HA as [Ha HA].
  rewrite fmap_cons. cbn [concat]. rewrite fmap_app.
  change (raw <$> context_lines h) with (raw sep_line :: (raw <$> tail (context_lines h))).
  rewrite <- app_comm_cons. cbn [context_hunks].
  change (contextSepRe (text (raw sep_line))) with true. cbn [negb].
  rewrite context_hunk_lines; [|done|done|by destruct hs].
  cbn [pbind bind ok]. rewrite IH by (done || (cbn in Hf; lia)). by rewrite <- app_assoc.
Qed.

Lemma parseContextFile_lines old new hs :
  good_name old -> good_name new -> Forall printable hs -> Forall (fun h => aligned (Lines h)) hs ->
  parseContextFile (raw (str! "*** " ++ old)) (raw (str! "--- " ++ new)) (raw <$> concat (context_lines <$> hs)) =
  ok (mkFile old new [] FormatContext hs [] [] [], []).
Proof.
  intros Ho Hn HP HA. unfold parseContextFile. cbn [raw text app drop].
  rewrite !extractName_good by done. rewrite context_hunks_lines; [done..|].
  rewrite length_fmap. clear. induction hs as [|h hs IH]; [done|].
  rewrite fmap_cons. cbn [concat]. rewrite length_app. cbn. lia.
Qed.

Lemma parse_files_context f a b rest idx files :
  parse_files (S f) (raw (str! "*** " ++ a) :: raw (str! "--- " ++ b) :: rest) idx files =
  try! (fp, r) := parseContextFile (raw (str! "*** " ++ a)) (raw (str! "--- " ++ b)) rest in
  parse_files f r [] (files ++ [with_index idx fp]).
Proof.
  cbn [parse_files]. assert (ES : stripPatchIndentAt (raw (str! "*** " ++ a) ::
    raw (str! "--- " ++ b) :: rest) = None).
  { cbn [stripPatchIndentAt raw text]. change (trim_left is_blank (str! "*** " ++ a)) with (str! "*** " ++ a).
    by rewrite str_eqb_refl. }
  rewrite ES. cbn [raw text]. by rewrite !has_prefix_app.
Qed.

Lemma context_range_plain start count :
  in_range start count -> Forall (fun c => c <> 10 /\ c <> 13) (contextRangeText start count).
Proof.
  intros (? & ? & ?). unfold contextRangeText. destruct (_ <=? _); [apply itoa_plain; lia|].
  rewrite !Forall_app; split_and!; try (apply itoa_plain; lia); plain_lit.
Qed.

Lemma block_lines_clean mk marks ls :
  good_marks mk marks -> Forall (fun l => clean (Text l)) ls ->
  Forall clean (concat (block_lines mk <$> ls)).
Proof.
  intros Hg Hc. apply Forall_concat, Forall_fmap. eapply Forall_impl; [done|]. intros l Hl. cbn.
  destruct (Hg (Kind l)) as (_ & a & b & E & _ & Ha & Ha' & Hb & Hb').
  constructor; [rewrite E; by apply clean_cons, clean_cons|].
  destruct (NoEOL l); constructor; [apply no_newline_clean|constructor].
Qed.

Lemma context_lines_clean h : printable h -> Forall clean (context_lines h).
Proof.
  intros [_ Ho Hn Ht].
  assert (Hside : forall P (D : forall l, Decision (P l)), Forall (fun l => clean (Text l)) (filter P (Lines h))).
  { intros P D. apply Forall_forall. intros l [_ Hl]%list_elem_of_filter.
    rewrite Forall_forall in Ht. by apply Ht. }
  apply Forall_cons. split; [apply plain_clean; unfold sep_line; plain_lit|].
  apply Forall_cons. split.
  { apply plain_clean. unfold old_header. rewrite !Forall_app.
    split_and!; [plain_lit|by apply context_range_plain|plain_lit]. }
  apply Forall_app. split; [eapply block_lines_clean; [apply old_good|apply Hside]|].
  apply Forall_cons. split.
  { apply plain_clean. unfold new_header. rewrite !Forall_app.
    split_and!; [plain_lit|by apply context_range_plain|plain_lit]. }
  eapply block_lines_clean; [apply new_good|apply Hside].
Qed.

(** The reject file POSIX asks for, in copied-context form, is a patch
    too: for hunks whose two blocks determine the order of their lines it is
    parsed back to the same names and hunks. *)
Theorem WriteReject_Parse (old new : list Z) (hs : list Hunk) :
  good_name old -> good_name new -> nonempty old || nonempty new = true ->
  Forall printable hs -> Forall (fun h => aligned (Lines h)) hs ->
  Parse (WriteReject old new hs) = Ret (inr [mkFile old new [] FormatContext hs [] [] []]).
Proof.
  intros Ho Hn Hne HP HA.
  assert (E : WriteReject old new hs =
    unlines ((str! "*** " ++ old) :: (str! "--- " ++ new) :: concat (context_lines <$> hs))).
  { unfold WriteReject, WriteRejectFormat, writeContextReject. rewrite Hne.
    rewrite !unlines_cons, <- !app_assoc. do 6 f_equal. apply unlines_concat, context_text_lines. }
  unfold Parse. rewrite E, splitRawLines_unlines.
  - rewrite !fmap_cons. cbn [length]. rewrite Nat.mul_succ_r, Nat.add_succ_r.
    rewrite parse_files_context. rewrite parseContextFile_lines by done.
    cbn [pbind bind ok]. by destruct (_ + _)%nat.
  - constructor; [|constructor].
    + apply clean_app; [plain_lit|by apply good_name_clean].
    + apply clean_app; [plain_lit|by apply good_name_clean].
    + apply Forall_concat, Forall_fmap. eapply Forall_impl; [exact HP|]. apply context_lines_clean.
Qed.

(** ** Witnesses *)

Definition ex_printed : Hunk :=
  mkHunk 1 2 1 2 [mkLine LineContext (str! "b") false; mkLine LineDelete (str! "c") false;
                  mkLine LineAdd (str! "d") true].

Lemma ex_good : good_name (str! "f").
Proof. split_and!; [apply (bool_decide_unpack _); vm_compute; exact I..|cbn; split; [done|lia]]. Qed.

Lemma ex_printable : Forall printable [ex_printed].
Proof.
  constructor; [|constructor]. split; [done|split_and!; done|split_and!; done|].
  repeat constructor; cbn; try lia; try (by intros ?%list_elem_of_singleton); done.
Qed.

Lemma writeUnifiedReject_Parse_witness :
  Parse (writeUnifiedReject (str! "f") (str! "f") [ex_printed]) =
  Ret (inr [mkFile (str! "f") (str! "f") [] FormatUnified [ex_printed] [] [] []]).
Proof.
  apply (writeUnifiedReject_Parse (str! "f") (str! "f") [ex_printed]);
    [exact ex_good|exact ex_good|exact ex_printable].
Defined.

Lemma ex_aligned : aligned (Lines ex_printed).
Proof.
  apply aligned_context; [done|].
  apply (aligned_changes [mkLine LineDelete (str! "c") false] [mkLine LineAdd (str! "d") true] []);
    [done|repeat constructor|repeat constructor|done|constructor].
Qed.

Lemma WriteReject_Parse_witness :
  Parse (WriteReject (str! "f") (str! "f") [ex_printed]) =
  Ret (inr [mkFile (str! "f") (str! "f") [] FormatContext [ex_printed] [] [] []]).
Proof.
  apply (WriteReject_Parse (str! "f") (str! "f") [ex_printed]);
    [exact ex_good|exact ex_good|reflexivity|exact ex_printable|].
  constructor; [exact ex_aligned|constructor].
Defined.

(** ** Insertions away from deletions *)

Definition mixed_hunk : Hunk :=
  mkHunk 0 4 0 4 [mkLine LineContext (str! "a") false; mkLine LineAdd (str! "x") false;
                  mkLine LineContext (str! "b") false; mkLine LineDelete (str! "c") false;
                  mkLine LineContext (str! "d") false].

(** What the reader makes of it. *)
Definition misread_hunk : Hunk :=
  mkHunk 0 4 0 4 [mkLine LineContext (str! "a") false; mkLine LineContext (str! "b") false;
                  mkLine LineDelete (str! "c") false; mkLine LineAdd (str! "x") false;
                  mkLine LineContext (str! "d") false; mkLine LineContext (str! "d") false].

(** A context hunk with an insertion that does not follow a deletion,
    and a deletion elsewhere, is misread: the context line after the insertion
    is taken before it and a context line is taken twice, so that the hunk of
    a correct context diff is rejected on the very file it was made from. *)
Theorem context_insertion_misread :
  Parse (WriteReject (str! "f") (str! "f") [mixed_hunk]) =
    Ret (inr [mkFile (str! "f") (str! "f") [] FormatContext [misread_hunk] [] [] []]) /\
  Apply [str! "a"; str! "b"; str! "c"; str! "d"] false (mkOptions false 0 false false) [mixed_hunk] =
    Ret (mkResult [str! "a"; str! "x"; str! "b"; str! "d"] false [mkReport 1 HunkApplied 0 0] []) /\
  Apply [str! "a"; str! "b"; str! "c"; str! "d"] false (mkOptions false 0 false false) [misread_hunk] =
    Ret (mkResult [str! "a"; str! "b"; str! "c"; str! "d"] false [mkReport 1 HunkFailed 0 0] [misread_hunk]).
Proof. split_and!; vm_compute; reflexivity. Qed.

End PatchParseCorrect.
