(* ===== verification/PatchEd.v ===== *)
(** * Patches: ed scripts (src/pkg/patch/ed.go)

    The scripts [diff -e] writes: their recognition in the input of [patch],
    their application to a file, and the proof that the script of a list of
    changes makes exactly those changes. *)

From Stdlib Require Import ZArith Lia.
From stdpp Require Import base tactics list numbers strings.
From S2P Require Import Prelude PatchParse PatchApplyCorrect PatchParseCorrect.

Module PatchEd.
Import Patch PatchApplyCorrect PatchParseCorrect.

(** ** Recognition *)

Definition is_op (c : Z) : bool :=
  (c =? ch! "a") || (c =? ch! "c") || (c =? ch! "d") || (c =? ch! "i").

(** The operation letter at the end of a command. *)
Definition op_end (s : list Z) : option Z :=
  match s with [c] => if is_op c then Some c else None | _ => None end.

(** [^(?:(\d+)(?:,(\d+))?)?([acdi])$] *)
Definition edCommandRE (s : list Z) : option (list Z * list Z * Z) :=
  match re_range s with
  | Some (a, b, r) => op ← op_end r; Some (a, b, op)
  | None => op ← op_end s; Some ([], [], op)
  end.

(** [^\d+(?:,\d+)?[acdi]$] *)
Definition edScriptStartRE (s : list Z) : bool :=
  match re_range s with
  | Some (_, _, r) => is_some (op_end r)
  | None => false
  end.

(** [^\d+(?:,\d+)?[acd]\d+(?:,\d+)?$] *)
Definition normalDiffCommandRE (s : list Z) : bool := is_some (normalHunkRe s).

Definition looksLikeDiffListing (trimmed : list Z) : bool :=
  existsb (has_prefix trimmed) [str! "--- "; str! "+++ "; str! "*** "; str! "@@ "] ||
  str_eqb trimmed (str! "***************") || normalDiffCommandRE trimmed.

(** The lines of the script from the first command on, and the name of the
    nearest index line. *)
Fixpoint find_script (lines : list (list Z)) (indexName : list Z) : option (list (list Z)) * list Z :=
  match lines with
  | [] => (None, indexName)
  | line :: rest =>
      let l := trim_suffix_byte 13 line in
      let trimmed := trim_left is_blank l in
      if has_prefix trimmed (str! "Index:") then find_script rest (TrimSpace (drop 6 trimmed))
      else if negb (nonempty trimmed) then find_script rest indexName
      else if looksLikeDiffListing trimmed then (None, indexName)
      else if edScriptStartRE trimmed || str_eqb trimmed (str! "s/.//") then
        let prefix := take (length l - length trimmed) l in
        (Some (if nonempty prefix
               then (fun s => if has_prefix s prefix then drop (length prefix) s else s) <$> lines
               else lines), indexName)
      else find_script rest indexName
  end.

Definition ExtractEdScript (data : list Z) : list Z * list Z * bool :=
  match find_script (split_byte 10 data) [] with
  | (Some ls, idx) => (join [10] ls, idx, true)
  | (None, idx) => ([], idx, false)
  end.

Definition LooksLikeEdScript (script : list Z) : bool := snd (ExtractEdScript script).

(** ** Lines *)

Definition bytesToLines (content : list Z) : list (list Z) * bool :=
  match content with
  | [] => ([], false)
  | _ =>
      let noEOL := negb (has_suffix_byte 10 content) in
      let parts := split_byte 10 content in
      (if noEOL then parts else removelast parts, noEOL)
  end.

Definition linesToBytes (lines : list (list Z)) (noEOL : bool) : list Z :=
  match lines with
  | [] => []
  | _ => join [10] lines ++ (if noEOL then [] else [10])
  end.

Definition spliceLines (lines : list (list Z)) (from to : Z) (replacement : list (list Z)) : outcome (list (list Z)) :=
  let! a := slice lines 0 from in
  let! b := slice lines to (len lines) in
  Ret (a ++ replacement ++ b).

Definition if_define (define : list Z) : list Z := str! "#ifdef " ++ define.
Definition ifn_define (define : list Z) : list Z := str! "#ifndef " ++ define.
Definition end_define (define : list Z) : list Z := str! "#endif /* " ++ define ++ str! " */".

Definition conditionalAddition (text : list (list Z)) (define : list Z) : list (list Z) :=
  [if_define define] ++ text ++ [end_define define].

Definition add_lines (text : list (list Z)) : list HunkLine :=
  (fun t => mkLine LineAdd t false) <$> text.

Definition edRejectHunk (first last : Z) (op : Z) (text : list (list Z)) : Hunk :=
  let start := Z.max (first - 1) 0 in
  if op =? ch! "a" then
    mkHunk (Z.max last 0) 0 (Z.max last 0) (len text) (add_lines text)
  else if op =? ch! "i" then mkHunk start 0 start (len text) (add_lines text)
  else if op =? ch! "c" then
    mkHunk start (Z.max (last - first + 1) 0) start (len text) (add_lines text)
  else mkHunk start (Z.max (last - first + 1) 1) start 0 [].

(** ** Application *)

Inductive ed_error :=
| MalformedCommand (command : list Z)
| InvalidAddress (command : list Z)
| Unterminated (command : list Z).

Record editing := Editing {
  elines : list (list Z);
  enoEOL : bool;
  current : Z;
  erejects : list Hunk;
  eapplied : bool
}.

(** The text of a command, up to a line with a period, and the rest of the
    script. *)
Fixpoint ed_text (physical : list (list Z)) : option (list (list Z) * list (list Z)) :=
  match physical with
  | [] => None
  | p :: rest =>
      let line := trim_suffix_byte 13 p in
      if str_eqb line (str! ".") then Some ([], rest)
      else '(t, r) ← ed_text rest; Some (line :: t, r)
  end.

Definition has_text (op : Z) : bool := (op =? ch! "a") || (op =? ch! "c") || (op =? ch! "i").

Definition ed_reject (st : editing) (h : Hunk) : editing :=
  Editing (elines st) (enoEOL st) (current st) (erejects st ++ [h]) (eapplied st).

(** [current] is kept on the last line of the text, not on the #endif. *)
Definition dot_after (define : list Z) (text : list (list Z)) (n : Z) : Z :=
  if nonempty define && negb (len text =? 0) then n - 1 else n.

Definition ed_command (define : list Z) (st : editing) (op first last : Z) (text : list (list Z)) : outcome editing :=
  let lines := elines st in
  let noEOL' := if last =? len lines then false else enoEOL st in
  let inserted := if nonempty define then conditionalAddition text define else text in
  if op =? ch! "a" then
    if len lines <? last then Ret (ed_reject st (edRejectHunk first last op text))
    else
      let! l := spliceLines lines last last inserted in
      Ret (Editing l noEOL' (dot_after define text (last + len inserted)) (erejects st) true)
  else if op =? ch! "d" then
    if (first <? 1) || (len lines <? last) then Ret (ed_reject st (edRejectHunk first last op text))
    else
      let! old := slice lines (first - 1) last in
      let replacement :=
        if nonempty define then [ifn_define define] ++ old ++ [end_define define] else [] in
      let! l := spliceLines lines (first - 1) last replacement in
      Ret (Editing l noEOL' (Z.min first (len l)) (erejects st) true)
  else if op =? ch! "c" then
    let '(first, last) := if first =? 0 then (1, Z.max last 1) else (first, last) in
    if (first <? 1) || (len lines <? last) then Ret (ed_reject st (edRejectHunk first last op text))
    else
      let! old := slice lines (first - 1) last in
      let replacement :=
        if nonempty define
        then [ifn_define define] ++ old ++ [str! "#else"] ++ text ++ [end_define define]
        else text in
      let! l := spliceLines lines (first - 1) last replacement in
      Ret (Editing l (if last =? len lines then false else enoEOL st)
             (dot_after define text (first - 1 + len replacement)) (erejects st) true)
  else
    let first := if first =? 0 then 1 else first in
    if (first <? 1) || (len lines <? first) then Ret (ed_reject st (edRejectHunk first first op text))
    else
      let! l := spliceLines lines (first - 1) (first - 1) inserted in
      Ret (Editing l (enoEOL st) (dot_after define text (first - 1 + len inserted)) (erejects st) true).

(** [s/.//] on the current line. *)
Definition ed_undot (st : editing) : outcome editing :=
  let rej := Ret (ed_reject st (edRejectHunk (current st) (current st) (ch! "s") [])) in
  if (current st <? 1) || (len (elines st) <? current st) then rej
  else
    let! l := index (elines st) (current st - 1) in
    match l with
    | [] => rej
    | _ :: l' =>
        Ret (Editing (<[Z.to_nat (current st - 1) := l']> (elines st)) (enoEOL st)
               (current st) (erejects st) true)
    end.

Fixpoint ed_run (fuel : nat) (define : list Z) (st : editing) (physical : list (list Z)) : outcome (ed_error + editing) :=
  match physical with
  | [] => Ret (inr st)
  | p :: rest =>
      match fuel with
      | O => OutOfFuel
      | S f =>
          let command := trim_suffix_byte 13 p in
          if str_eqb command (str! "s/.//") then
            let! st := ed_undot st in ed_run f define st rest
          else
            match edCommandRE command with
            | None => Ret (inl (MalformedCommand command))
            | Some (m1, m2, op) =>
                let first := if nonempty m1 then Atoi m1 else current st in
                let last := if nonempty m2 then Atoi m2 else first in
                if (first <? 0) || (last <? first) then Ret (inl (InvalidAddress command))
                else
                  match (if has_text op then ed_text rest else Some ([], rest)) with
                  | None => Ret (inl (Unterminated command))
                  | Some (text, rest') =>
                      let! st := ed_command define st op first last text in
                      ed_run f define st rest'
                  end
            end
      end
  end.

(** [EdRejectError]: the commands that could not be placed, and whether
    another was. *)
Record EdRejectError := EdReject { EHunks : list Hunk; Applied : bool }.

(** The bytes of the result, with that error when a command was rejected. *)
Definition applyEd (content script define : list Z) : outcome (ed_error + (list Z * option EdRejectError)) :=
  match script with
  | [] => Ret (inr (content, None))
  | _ =>
      let '(lines, noEOL) := bytesToLines content in
      let physical := split_byte 10 (trim_suffix_byte 10 script) in
      let! r := ed_run (length physical) define (Editing lines noEOL 0 [] false) physical in
      match r with
      | inl e => Ret (inl e)
      | inr st =>
          Ret (inr (linesToBytes (elines st) (enoEOL st),
                    match erejects st with
                    | [] => None
                    | _ => Some (EdReject (erejects st) (eapplied st))
                    end))
      end
  end.

Definition ApplyEd (content script : list Z) : outcome (ed_error + (list Z * option EdRejectError)) :=
  applyEd content script [].

Definition ApplyEdIfdef (content script define : list Z) : outcome (ed_error + (list Z * option EdRejectError)) :=
  applyEd content script define.

(** ** No slice is out of range *)

Lemma spliceLines_Ret lines from to repl :
  0 <= from -> from <= to -> to <= len lines ->
  spliceLines lines from to repl = Ret (sub 0 from lines ++ repl ++ sub to (len lines) lines).
Proof. intros. unfold spliceLines. rewrite !slice_Ret by lia. done. Qed.

Lemma ed_command_returns define st op first last text :
  0 <= first -> first <= last -> exists st', ed_command define st op first last text = Ret st'.
Proof.
  intros Hf Hl. unfold ed_command. pose proof (len_nonneg (elines st)).
  destruct (op =? _); [destruct (Z.ltb_spec (len (elines st)) last); [by eexists|]|
    destruct (op =? _); [|destruct (op =? _)]].
  - rewrite spliceLines_Ret by lia. by eexists.
  - destruct (Z.ltb_spec first 1), (Z.ltb_spec (len (elines st)) last); cbn [orb]; try by eexists.
    rewrite slice_Ret by lia. cbn [bind]. rewrite spliceLines_Ret by lia. by eexists.
  - destruct (if first =? 0 then _ else _) as [f l] eqn:E.
    assert (0 <= f <= l) by (destruct (Z.eqb_spec first 0); injection E as <- <-; lia).
    destruct (Z.ltb_spec f 1), (Z.ltb_spec (len (elines st)) l); cbn [orb]; try by eexists.
    rewrite slice_Ret by lia. cbn [bind]. rewrite spliceLines_Ret by lia. by eexists.
  - generalize (if first =? 0 then 1 else first). intros f.
    destruct (Z.ltb_spec f 1), (Z.ltb_spec (len (elines st)) f); cbn [orb]; try by eexists.
    rewrite spliceLines_Ret by lia. by eexists.
Qed.

Lemma ed_undot_returns st : exists st', ed_undot st = Ret st'.
Proof.
  unfold ed_undot. destruct (Z.ltb_spec (current st) 1), (Z.ltb_spec (len (elines st)) (current st));
    cbn [orb]; try by eexists.
  destruct (drop_lt (elines st) (current st - 1)) as (x & r & E); [lia|].
  destruct (index_drop (elines st) (current st - 1) x r ltac:(lia) E) as [-> _].
  cbn [bind]. destruct x; by eexists.
Qed.

Lemma ed_text_shorter physical t r : ed_text physical = Some (t, r) -> (length r < length physical)%nat.
Proof.
  revert t; induction physical as [|p rest IH]; intros t; [done|]. cbn [ed_text].
  destruct (str_eqb _ _); [intros [= _ <-]; cbn; lia|].
  destruct (ed_text rest) as [[t' r']|]; [|done]. cbn. intros [= _ <-]. specialize (IH t' eq_refl). lia.
Qed.

Lemma ed_run_returns fuel define st physical :
  (length physical <= fuel)%nat -> exists r, ed_run fuel define st physical = Ret r.
Proof.
  revert st physical; induction fuel as [|f IH]; intros st [|p rest] Hf; cbn [ed_run];
    [by eexists|cbn in Hf; lia|by eexists|]. cbn in Hf.
  destruct (str_eqb _ _).
  { destruct (ed_undot_returns st) as [st' ->]. apply IH. lia. }
  destruct (edCommandRE _) as [[[m1 m2] op]|]; [|by eexists].
  set (first := if nonempty m1 then _ else _). set (last := if nonempty m2 then _ else _).
  destruct (Z.ltb_spec first 0), (Z.ltb_spec last first); cbn [orb]; try by eexists.
  destruct (if has_text op then _ else _) as [[text rest']|] eqn:E; [|by eexists].
  destruct (ed_command_returns define st op first last text) as [st' ->]; [done..|]. apply IH.
  destruct (has_text op); [apply ed_text_shorter in E|injection E as _ <-]; lia.
Qed.

(** Applying an ed script returns on every file and script, with the new
    file and the rejected commands or a syntax error: addresses out of the
    file are rejected before any line is touched. *)
Theorem applyEd_returns (content script define : list Z) :
  exists r, applyEd content script define = Ret r.
Proof.
  unfold applyEd. destruct script as [|c script]; [by eexists|].
  destruct (bytesToLines content) as [lines noEOL].
  destruct (ed_run_returns (length (split_byte 10 (trim_suffix_byte 10 (c :: script)))) define
    (Editing lines noEOL 0 [] false) (split_byte 10 (trim_suffix_byte 10 (c :: script)))) as [[e|st] ->];
    [done|by eexists..].
Qed.

(** ** Files and lines *)

(** Splitting a file into lines and joining them again gives the same
    bytes, with or without a final newline. *)
Theorem linesToBytes_bytesToLines (content : list Z) :
  let '(lines, noEOL) := bytesToLines content in linesToBytes lines noEOL = content.
Proof.
  unfold bytesToLines. destruct content as [|c s]; [done|].
  assert (Hne : c :: s <> []) by done. revert Hne. generalize (c :: s). clear c s.
  intros content Hne. destruct (has_suffix_byte 10 content) eqn:E; cbn [negb].
  - destruct (@exists_last _ content Hne) as (t & x & Et).
    rewrite Et in E |- *. unfold has_suffix_byte in E. rewrite rev_app_distr in E. cbn in E.
    apply Z.eqb_eq in E as ->. rewrite split_snoc, removelast_last. unfold linesToBytes.
    rewrite join_split. pose proof (split_nonempty t). by destruct (split_byte 10 t).
  - unfold linesToBytes. rewrite join_split, app_nil_r.
    pose proof (split_nonempty content). by destruct (split_byte 10 content).
Qed.

(** ** The script of a list of changes *)

(** A change: the lines left alone before it, those deleted, those added. *)
Record edit := Edit { gap : list (list Z); dels : list (list Z); adds : list (list Z) }.

Definition ed_range (a b : Z) : list Z :=
  if a =? b then itoa a else itoa a ++ str! "," ++ itoa b.

(** The command [diff -e] writes for a change after [p] lines. *)
Definition ed_of (p : Z) (c : edit) : list (list Z) :=
  match dels c, adds c with
  | [], [] => []
  | [], t => (itoa p ++ str! "a") :: t ++ [str! "."]
  | d, [] => [ed_range (p + 1) (p + len d) ++ str! "d"]
  | d, t => (ed_range (p + 1) (p + len d) ++ str! "c") :: t ++ [str! "."]
  end.

(** The commands, the last change first. *)
Fixpoint ed_script (p : Z) (s : list edit) : list (list Z) :=
  match s with
  | [] => []
  | c :: s' =>
      ed_script (p + len (gap c) + len (dels c)) s' ++ ed_of (p + len (gap c)) c
  end.

Definition before_edits (s : list edit) : list (list Z) := concat ((fun c => gap c ++ dels c) <$> s).
Definition after_edits (s : list edit) : list (list Z) := concat ((fun c => gap c ++ adds c) <$> s).

Definition edit_ok (c : edit) : Prop :=
  Forall (fun l => clean l /\ l <> str! ".") (adds c).

Lemma ed_text_app t rest :
  Forall (fun l => clean l /\ l <> str! ".") t ->
  ed_text (t ++ str! "." :: rest) = Some (t, rest).
Proof.
  induction 1 as [|l t [[_ Hc] Hd] _ IH]; [done|]. cbn [app ed_text].
  rewrite trim_suffix_clean by done. apply str_eqb_neq in Hd. by rewrite Hd, IH.
Qed.

Lemma clean_range_op a b op :
  0 <= a -> 0 <= b -> op <> 13 -> trim_suffix_byte 13 (ed_range a b ++ [op]) = ed_range a b ++ [op].
Proof. intros. apply trim_suffix_clean. rewrite last_snoc. congruence. Qed.

Lemma not_undot a b op : 0 <= a -> str_eqb (ed_range a b ++ [op]) (str! "s/.//") = false.
Proof.
  intros Ha. pose proof (itoa_clean a Ha) as Hd. pose proof (nonempty_itoa a Ha) as Hne.
  apply str_eqb_neq. intros E. unfold ed_range in E.
  destruct (itoa a) as [|c l]; [done|]. apply Forall_cons in Hd as [Hd _].
  assert (c = ch! "s") as -> by (destruct (a =? b); cbn in E; injection E; congruence). done.
Qed.

Lemma edCommand_range a b op :
  0 <= a -> 0 <= b -> is_op op = true ->
  exists m1 m2, edCommandRE (ed_range a b ++ [op]) = Some (m1, m2, op) /\
    nonempty m1 = true /\ m1 = itoa a /\ (if nonempty m2 then m2 = itoa b else a = b).
Proof.
  intros Ha Hb Hop. unfold edCommandRE, ed_range.
  assert (He : ends_number [op]).
  { unfold is_op in Hop. rewrite !orb_true_iff, !Z.eqb_eq in Hop.
    by destruct Hop as [[[->| ->]| ->]| ->]. }
  destruct (Z.eqb_spec a b) as [->|Hab].
  - rewrite re_range_one by done. cbn. rewrite Hop. cbn. do 2 eexists. split; [done|].
    split_and!; [by apply nonempty_itoa|done|done].
  - rewrite <- !app_assoc, re_range_two by done. cbn. rewrite Hop. cbn. do 2 eexists. split; [done|].
    split_and!; [by apply nonempty_itoa|done|]. by rewrite nonempty_itoa.
Qed.

(** One round of the interpreter on an addressed command. *)
Lemma ed_run_round f st a b op text rest rest' :
  0 <= a <= b -> b <= max_int -> is_op op = true ->
  (if has_text op then ed_text rest else Some ([], rest)) = Some (text, rest') ->
  ed_run (S f) [] st ((ed_range a b ++ [op]) :: rest) =
  (let! st := ed_command [] st op a b text in ed_run f [] st rest').
Proof.
  intros Ha Hb Hop Ht. cbn [ed_run].
  assert (op <> 13) by (by intros ->).
  rewrite clean_range_op, not_undot by lia.
  destruct (edCommand_range a b op) as (m1 & m2 & -> & H1 & -> & H2); [lia..|done|].
  rewrite H1, Atoi_itoa by lia.
  assert (E : (if nonempty m2 then Atoi m2 else a) = b).
  { destruct (nonempty m2); subst; [by apply Atoi_itoa; lia|done]. }
  rewrite E. destruct (Z.ltb_spec a 0), (Z.ltb_spec b a); cbn [orb]; try lia. by rewrite Ht.
Qed.

Lemma sub_prefix {A} (a b : list A) : sub 0 (len a) (a ++ b) = a.
Proof. unfold sub, len. rewrite Z.sub_0_r, Nat2Z.id, drop_0. apply take_app_length. Qed.

Lemma sub_suffix {A} (a b : list A) : sub (len a) (len (a ++ b)) (a ++ b) = b.
Proof. rewrite sub_all by apply len_nonneg. unfold len. rewrite Nat2Z.id. apply drop_app_length. Qed.

Lemma splice_mid A d t B :
  spliceLines (A ++ d ++ B) (len A) (len A + len d) t = Ret (A ++ t ++ B).
Proof.
  pose proof (len_nonneg A). pose proof (len_nonneg d). pose proof (len_nonneg B).
  rewrite spliceLines_Ret by (rewrite ?len_app; lia). rewrite sub_prefix.
  rewrite (app_assoc A d B), <- (len_app A d), sub_suffix. done.
Qed.

(** A command does its change. *)
Lemma ed_of_run A c B st fuel n rest :
  edit_ok c -> elines st = A ++ dels c ++ B -> enoEOL st = false ->
  len A + len (dels c) <= max_int -> (length (ed_of (len A) c) + n <= fuel)%nat ->
  exists st' fuel', (n <= fuel')%nat /\
    ed_run fuel [] st (ed_of (len A) c ++ rest) = ed_run fuel' [] st' rest /\
    elines st' = A ++ adds c ++ B /\ enoEOL st' = false /\ erejects st' = erejects st.
Proof.
  intros Hok El Ene Hmax Hf. unfold ed_of in *. pose proof (len_nonneg A). pose proof (len_nonneg B).
  pose proof (splice_mid A (dels c) (adds c) B) as HS. rewrite <- El in HS.
  assert (Hlen : len (elines st) = len A + len (dels c) + len B) by (rewrite El, !len_app; lia).
  pose proof (ed_text_app (adds c) rest Hok) as Ht.
  assert (Hnoeol : forall b : bool, (if b then false else enoEOL st) = false) by (by intros []).
  destruct (dels c) as [|d ds], (adds c) as [|t ts].
  - exists st, fuel. split_and!; [cbn in Hf; lia|done..].
  - destruct fuel as [|f]; [cbn in Hf; lia|]. change (len []) with 0 in *. rewrite Z.add_0_r in *.
    replace (itoa (len A)) with (ed_range (len A) (len A)) by (unfold ed_range; by rewrite Z.eqb_refl).
    rewrite <- app_comm_cons, <- app_assoc.
    rewrite (ed_run_round f st (len A) (len A) (ch! "a") (t :: ts) _ rest) by (done || lia).
    unfold ed_command. cbn [nonempty]. destruct (Z.ltb_spec (len (elines st)) (len A)); [lia|].
    rewrite HS. cbn [bind Z.eqb Pos.eqb]. eexists _, f. split; [cbn in Hf; rewrite length_app in Hf; cbn in Hf; lia|].
    split; [done|]. cbn. by rewrite Hnoeol.
  - destruct fuel as [|f]; [cbn in Hf; lia|]. rewrite len_cons in *. pose proof (len_nonneg ds).
    cbn [app]. rewrite (ed_run_round f st _ _ (ch! "d") [] rest rest) by (done || lia).
    unfold ed_command. cbn [nonempty Z.eqb Pos.eqb].
    destruct (Z.ltb_spec (len A + 1) 1), (Z.ltb_spec (len (elines st)) (len A + (1 + len ds))); try lia.
    cbn [orb]. rewrite slice_Ret by lia. cbn [bind]. replace (len A + 1 - 1) with (len A) by lia.
    rewrite HS. cbn [bind]. eexists _, f. split; [cbn in Hf; lia|]. split; [done|]. cbn. by rewrite Hnoeol.
  - destruct fuel as [|f]; [cbn in Hf; lia|]. rewrite len_cons in *. pose proof (len_nonneg ds).
    rewrite <- app_comm_cons, <- app_assoc.
    rewrite (ed_run_round f st _ _ (ch! "c") (t :: ts) _ rest) by (done || lia).
    unfold ed_command. cbn [nonempty Z.eqb Pos.eqb].
    destruct (Z.eqb_spec (len A + 1) 0); [lia|].
    destruct (Z.ltb_spec (len A + 1) 1), (Z.ltb_spec (len (elines st)) (len A + (1 + len ds))); try lia.
    cbn [orb]. rewrite slice_Ret by lia. cbn [bind]. replace (len A + 1 - 1) with (len A) by lia.
    rewrite HS. cbn [bind]. eexists _, f.
    split; [cbn in Hf; rewrite length_app in Hf; cbn in Hf; lia|]. split; [done|]. cbn. by rewrite Hnoeol.
Qed.

Lemma ed_script_snoc p s c :
  ed_script p (s ++ [c]) = ed_of (p + len (before_edits s) + len (gap c)) c ++ ed_script p s.
Proof.
  revert p; induction s as [|c' s IH]; intros p; cbn [app ed_script].
  { change (len (before_edits [])) with 0. rewrite app_nil_r. f_equal. lia. }
  rewrite IH, <- app_assoc. do 2 f_equal.
  change (before_edits (c' :: s)) with ((gap c' ++ dels c') ++ before_edits s). rewrite !len_app. lia.
Qed.

Lemma before_edits_snoc s c : before_edits (s ++ [c]) = before_edits s ++ gap c ++ dels c.
Proof. unfold before_edits. rewrite fmap_app, concat_app. cbn. by rewrite app_nil_r. Qed.

Lemma after_edits_snoc s c : after_edits (s ++ [c]) = after_edits s ++ gap c ++ adds c.
Proof. unfold after_edits. rewrite fmap_app, concat_app. cbn. by rewrite app_nil_r. Qed.

Lemma ed_script_run s : forall B st fuel,
  Forall edit_ok s -> elines st = before_edits s ++ B -> enoEOL st = false ->
  len (before_edits s) <= max_int -> (length (ed_script 0 s) <= fuel)%nat ->
  exists st', ed_run fuel [] st (ed_script 0 s) = Ret (inr st') /\
    elines st' = after_edits s ++ B /\ enoEOL st' = false /\ erejects st' = erejects st.
Proof.
  induction s as [|c s IH] using rev_ind; intros B st fuel Hok El Ene Hm Hf.
  { exists st. by destruct fuel. }
  apply Forall_app in Hok as [Hok [Hc _]%Forall_cons].
  rewrite ed_script_snoc, Z.add_0_l, <- len_app in *. rewrite before_edits_snoc in *.
  rewrite !len_app in Hm. pose proof (len_nonneg (gap c)). pose proof (len_nonneg (dels c)).
  rewrite length_app in Hf.
  destruct (ed_of_run (before_edits s ++ gap c) c B st fuel (length (ed_script 0 s)) (ed_script 0 s))
    as (st1 & fuel1 & Hf1 & -> & El1 & Ene1 & Er1); [done| |done|rewrite len_app; lia|done|].
  { rewrite El. by rewrite <- !app_assoc. }
  destruct (IH (gap c ++ adds c ++ B) st1 fuel1) as (st2 & -> & El2 & Ene2 & Er2);
    [done| |done|lia|done|].
  { rewrite El1. by rewrite <- !app_assoc. }
  exists st2. split_and!; [done| |done|congruence].
  rewrite El2, after_edits_snoc. by rewrite <- !app_assoc.
Qed.

Lemma unlines_split ls :
  Forall (fun l => 10 ∉ l) ls -> split_byte 10 (unlines ls) = ls ++ [[]].
Proof.
  induction 1 as [|l ls Hl _ IH]; [done|]. rewrite unlines_cons. cbn [app]. by rewrite split_byte_app, IH.
Qed.

Lemma unlines_last l ls : exists x, unlines (l :: ls) = x ++ [10].
Proof.
  destruct (@exists_last _ (l :: ls)) as (ks & k & ->); [done|].
  exists (unlines ks ++ k). rewrite unlines_app. unfold unlines at 2. cbn. by rewrite app_nil_r, app_assoc.
Qed.

Lemma script_physical l ls :
  Forall (fun l => 10 ∉ l) (l :: ls) ->
  split_byte 10 (trim_suffix_byte 10 (unlines (l :: ls))) = l :: ls.
Proof.
  intros H. pose proof (unlines_split _ H) as E. destruct (unlines_last l ls) as [x Ex].
  rewrite Ex in *. rewrite split_snoc in E. apply app_inj_tail in E as [E _].
  unfold trim_suffix_byte. rewrite rev_app_distr. cbn. by rewrite rev_involutive.
Qed.

Lemma bytesToLines_unlines ls :
  Forall (fun l => 10 ∉ l) ls -> bytesToLines (unlines ls) = (ls, false).
Proof.
  intros H. destruct ls as [|l ls]; [done|]. pose proof (has_suffix_unlines l ls) as Hs.
  unfold bytesToLines. rewrite Hs, (unlines_split _ H). cbn [negb].
  destruct (unlines (l :: ls)) eqn:E; [by cbn in Hs|]. by rewrite removelast_last.
Qed.

Lemma linesToBytes_unlines ls : linesToBytes ls false = unlines ls.
Proof.
  destruct ls as [|l ls]; [done|]. unfold linesToBytes.
  revert l; induction ls as [|k ls IH]; intros l; [cbn; by rewrite app_nil_r|].
  rewrite unlines_cons, <- IH. cbn [join]. by rewrite <- !app_assoc.
Qed.

Lemma ed_of_lines p c : 0 <= p -> edit_ok c -> Forall (fun l => 10 ∉ l) (ed_of p c).
Proof.
  intros Hp Hok. assert (Ha : Forall (fun l => 10 ∉ l) (adds c)).
  { eapply Forall_impl; [done|]. by intros l [[? _] _]. }
  assert (Hr : forall a b op, 0 <= a -> 0 <= b -> op <> 10 -> 10 ∉ ed_range a b ++ [op]).
  { intros a b op H1 H2 H3. assert (Hd : forall n, 0 <= n -> 10 ∉ itoa n).
    { intros n Hn Hin. pose proof (itoa_plain n Hn) as Hf. rewrite Forall_forall in Hf. by apply Hf in Hin as [? _]. }
    unfold ed_range. destruct (a =? b); rewrite !elem_of_app, !list_elem_of_singleton; naive_solver. }
  assert (Hdot : 10 ∉ str! ".") by (by intros ?%list_elem_of_singleton).
  unfold ed_of. pose proof (len_nonneg (dels c)).
  assert (Hi : itoa p = ed_range p p) by (unfold ed_range; by rewrite Z.eqb_refl).
  destruct (dels c) as [|d ds], (adds c) as [|t ts]; rewrite ?Hi.
  - constructor.
  - constructor; [by apply Hr|]. apply Forall_app. split; [done|]. by constructor.
  - constructor; [apply Hr; lia|constructor].
  - constructor; [apply Hr; lia|]. apply Forall_app. split; [done|]. by constructor.
Qed.

Lemma ed_script_lines p s : 0 <= p -> Forall edit_ok s -> Forall (fun l => 10 ∉ l) (ed_script p s).
Proof.
  intros Hp H. revert p Hp; induction H as [|c s Hc _ IH]; intros p Hp; [constructor|]. cbn [ed_script].
  pose proof (len_nonneg (gap c)). pose proof (len_nonneg (dels c)).
  apply Forall_app. split; [apply IH; lia|apply ed_of_lines; [lia|done]].
Qed.

(** The ed script of a list of changes, one command per change from the
    last to the first as [diff -e] writes it, turns the old file into the new
    one and rejects nothing. *)
Theorem ApplyEd_script (s : list edit) (tl : list (list Z)) :
  Forall edit_ok s -> Forall (fun l => 10 ∉ l) (before_edits s ++ tl) ->
  len (before_edits s) <= max_int ->
  ApplyEd (unlines (before_edits s ++ tl)) (unlines (ed_script 0 s)) =
  Ret (inr (unlines (after_edits s ++ tl), None)).
Proof.
  intros Hok Hl Hm. pose proof (ed_script_lines 0 s ltac:(lia) Hok) as Hs.
  destruct (ed_script_run s tl (Editing (before_edits s ++ tl) false 0 [] false)
    (length (ed_script 0 s))) as (st & Er & El & Ene & Ej); [done..|].
  unfold ApplyEd, applyEd. destruct (ed_script 0 s) as [|l ls] eqn:E.
  { cbn in Er. injection Er as <-. cbn in El |- *. by rewrite El. }
  destruct (unlines (l :: ls)) eqn:Eu; [destruct (unlines_last l ls) as [x Ex]; rewrite Eu in Ex; by destruct x|].
  rewrite <- Eu, (bytesToLines_unlines _ Hl), (script_physical _ _ Hs), Er. cbn [bind].
  rewrite Ene, linesToBytes_unlines, El, Ej. done.
Qed.

Lemma ApplyEd_script_witness :
  let s := [Edit [str! "a"] [str! "b"] [str! "x"; str! "y"]; Edit [str! "c"] [str! "d"] []] in
  ApplyEd (unlines (before_edits s ++ [str! "e"])) (unlines (ed_script 0 s)) =
  Ret (inr (unlines (after_edits s ++ [str! "e"]), None)).
Proof.
  cbv zeta. apply (ApplyEd_script
    [Edit [str! "a"] [str! "b"] [str! "x"; str! "y"]; Edit [str! "c"] [str! "d"] []] [str! "e"]).
  - repeat constructor; cbn; try (by intros ?%list_elem_of_singleton); done.
  - repeat (apply Forall_cons; split; [by intros ?%list_elem_of_singleton|]). apply Forall_nil. exact I.
  - vm_compute. discriminate.
Defined.

End PatchEd.
