(* ===== verification/EdBuffer.v ===== *)
(** * ed: the line buffer and its editing commands
    (src/cmds/internal/editor/buffer.go, operations.go, engine.go)

    The buffer, the marks, the targets of a global command and the undo state,
    and every operation that changes them: append, delete, change, join, copy,
    move, mark and undo. An operation gives the engine it leaves, also when it
    fails, and the error. Lines are numbered from 1, as in the source. *)

From Stdlib Require Import ZArith Lia.
From stdpp Require Import base tactics list numbers gmap strings.
From S2P Require Import Prelude.

Module Editor.

(** ** The buffer *)

Record Buffer := mkBuffer { Lines : list (list Z); Current : Z; Dirty : bool }.

(** The errors of the commands; [SliceBounds] stands for the run-time panic of
    a slice expression out of range. *)
Inductive error :=
| InvalidAddress | InvalidDestination | NothingToUndo | UnexpectedAddress | NoMatch | MatchError
| SliceBounds.

Definition Clone (b : Buffer) : Buffer := b.

Definition Last (b : Buffer) : Z := len (Lines b).

Definition Reset (b : Buffer) (lines : list (list Z)) (dirty : bool) : Buffer :=
  mkBuffer lines (len lines) dirty.

(** [copy(l[off:], src)]: as many elements as fit, read before any is
    written. *)
Definition copy_into {A} (l : list A) (off : nat) (src : list A) : list A :=
  take off l ++ take (length l - off) src ++ drop (off + length src) l.

Definition Append (b : Buffer) (after : Z) (lines : list (list Z)) : Buffer * option error :=
  if (after <? 0) || (Last b <? after) then (b, Some InvalidAddress)
  else
    match lines with
    | [] => (mkBuffer (Lines b) after (Dirty b), None)
    | _ =>
        let k := length lines in
        let a := Z.to_nat after in
        let l1 := Lines b ++ replicate k [] in
        let l2 := copy_into l1 (a + k) (drop a (take (length l1 - k) l1)) in
        let l3 := copy_into l2 a lines in
        (mkBuffer l3 (after + len lines) true, None)
    end.

Definition Delete (b : Buffer) (first last : Z) : Buffer * option error :=
  if (first <? 1) || (last <? first) || (Last b <? last) then (b, Some InvalidAddress)
  else
    let l1 := copy_into (Lines b) (Z.to_nat (first - 1)) (drop (Z.to_nat last) (Lines b)) in
    let l2 := take (length l1 - Z.to_nat (last - first + 1)) l1 in
    let current :=
      if len l2 =? 0 then 0 else if first <=? len l2 then first else len l2 in
    (mkBuffer l2 current true, None).

Definition Change (b : Buffer) (first last : Z) (lines : list (list Z)) : Buffer * option error :=
  if (Last b =? 0) && ((first =? 0) || (first =? 1)) && ((last =? 0) || (last =? 1))
  then Append b 0 lines
  else
    let first := if first =? 0 then 1 else first in
    let last := if last =? 0 then 1 else last in
    match Delete b first last with
    | (b', Some e) => (b', Some e)
    | (b', None) => Append b' (first - 1) lines
    end.

(** ** Text *)

(** The lines of a text whose final newline is cut off. *)
Definition splitText (data : list Z) : list (list Z) :=
  match data with
  | [] => []
  | _ =>
      let s := if has_suffix_byte 10 data then removelast data else data in
      match s with
      | [] => [[]]
      | _ => split_byte 10 s
      end
  end.

Definition joinLines (lines : list (list Z)) : list Z :=
  concat ((fun l => l ++ [10]) <$> lines).

(** ** The engine *)

Record Engine := mkEngine {
  Buf : Buffer;
  marks : gmap Z Z;
  undoBuffer : Buffer;
  undoMarks : gmap Z Z;
  undoValid : bool;
  inGlobal : bool;
  globalTargets : list Z;
  changeSeq : Z
}.

Definition set_buf (e : Engine) (b : Buffer) : Engine :=
  mkEngine b (marks e) (undoBuffer e) (undoMarks e) (undoValid e) (inGlobal e)
    (globalTargets e) (changeSeq e).
Definition set_marks (e : Engine) (m : gmap Z Z) : Engine :=
  mkEngine (Buf e) m (undoBuffer e) (undoMarks e) (undoValid e) (inGlobal e)
    (globalTargets e) (changeSeq e).
Definition set_targets (e : Engine) (t : list Z) : Engine :=
  mkEngine (Buf e) (marks e) (undoBuffer e) (undoMarks e) (undoValid e) (inGlobal e)
    t (changeSeq e).
(** [e.changeSeq++] *)
Definition bump (e : Engine) : Engine :=
  mkEngine (Buf e) (marks e) (undoBuffer e) (undoMarks e) (undoValid e) (inGlobal e)
    (globalTargets e) (uint64 (changeSeq e + 1)).

Definition saveUndo (e : Engine) : Engine :=
  if inGlobal e then e
  else mkEngine (Buf e) (marks e) (Clone (Buf e)) (marks e) true (inGlobal e)
         (globalTargets e) (changeSeq e).

(** The line a mark or a target on line [n] is on after an insertion. *)
Definition shift_insert (after count n : Z) : Z := if after <? n then n + count else n.

Definition adjustGlobalInsert (e : Engine) (after count : Z) : Engine :=
  if count =? 0 then e else set_targets e (shift_insert after count <$> globalTargets e).

Definition shift_delete (first last n : Z) : Z :=
  if (first <=? n) && (n <=? last) then 0
  else if last <? n then n - (last - first + 1) else n.

Definition adjustGlobalDelete (e : Engine) (first last : Z) : Engine :=
  set_targets e (shift_delete first last <$> globalTargets e).

Definition marks_insert (after count : Z) (m : gmap Z Z) : gmap Z Z := shift_insert after count <$> m.

(** Marks on deleted lines are deleted. *)
Definition marks_delete (first last : Z) (m : gmap Z Z) : gmap Z Z :=
  omap (fun n => if (first <=? n) && (n <=? last) then None
                 else Some (shift_delete first last n)) m.

Definition appendLines (e : Engine) (after : Z) (lines : list (list Z)) : Engine * option error :=
  if (after <? 0) || (Last (Buf e) <? after) then (e, Some InvalidAddress)
  else
    let e := if 0 <? len lines then saveUndo e else e in
    match Append (Buf e) after lines with
    | (b, Some err) => (set_buf e b, Some err)
    | (b, None) =>
        let e := set_buf e b in
        let e := if 0 <? len lines then adjustGlobalInsert (bump e) after (len lines) else e in
        (set_marks e (marks_insert after (len lines) (marks e)), None)
    end.

Definition deleteLines (e : Engine) (first last : Z) : Engine * option error :=
  let e := saveUndo e in
  match Delete (Buf e) first last with
  | (b, Some err) => (set_buf e b, Some err)
  | (b, None) =>
      let e := adjustGlobalDelete (bump (set_buf e b)) first last in
      (set_marks e (marks_delete first last (marks e)), None)
  end.

Definition appendLinesNoUndo (e : Engine) (after : Z) (lines : list (list Z)) : Engine * option error :=
  match Append (Buf e) after lines with
  | (b, Some err) => (set_buf e b, Some err)
  | (b, None) =>
      let e := set_buf e b in
      let e := set_marks e (marks_insert after (len lines) (marks e)) in
      (adjustGlobalInsert e after (len lines), None)
  end.

Definition deleteLinesNoUndo (e : Engine) (first last : Z) : Engine * option error :=
  match Delete (Buf e) first last with
  | (b, Some err) => (set_buf e b, Some err)
  | (b, None) =>
      let e := adjustGlobalDelete (set_buf e b) first last in
      (set_marks e (marks_delete first last (marks e)), None)
  end.

Definition changeLines (e : Engine) (first last : Z) (lines : list (list Z)) : Engine * option error :=
  let e := saveUndo e in
  if (Last (Buf e) =? 0) && ((first =? 0) || (first =? 1)) && ((last =? 0) || (last =? 1)) then
    match appendLinesNoUndo e 0 lines with
    | (e, None) => (if 0 <? len lines then bump e else e, None)
    | r => r
    end
  else
    match deleteLinesNoUndo e first last with
    | (e, Some err) => (e, Some err)
    | (e, None) =>
        match lines with
        | [] => (bump e, None)
        | _ =>
            match appendLinesNoUndo e (first - 1) lines with
            | (e, None) => (bump e, None)
            | r => r
            end
        end
    end.

Definition on_range (first last n : Z) : bool := (first <=? n) && (n <=? last).

(** [e.Buffer.Lines[first-1:last]] *)
Definition range_lines (b : Buffer) (first last : Z) : option (list (list Z)) :=
  match slice (Lines b) (first - 1) last with
  | Ret l => Some l
  | _ => None
  end.

Definition join (e : Engine) (first last : Z) : Engine * option error :=
  if (first <? 1) || (last <? first) || (Last (Buf e) <? last) then (e, Some InvalidAddress)
  else if first =? last then (e, None)
  else
    let e := saveUndo e in
    match range_lines (Buf e) first last with
    | None => (e, Some SliceBounds)
    | Some lines =>
        let joined := concat lines in
        let joinedMarks := filter (fun kn => on_range first last kn.2 = true) (marks e) in
        match deleteLinesNoUndo e first last with
        | (e, Some err) => (e, Some err)
        | (e, None) =>
            match appendLinesNoUndo e (first - 1) [joined] with
            | (e, Some err) => (e, Some err)
            | (e, None) => (bump (set_marks e (((fun _ => first) <$> joinedMarks) ∪ marks e)), None)
            end
        end
    end.

Definition copy (e : Engine) (first last dest : Z) : Engine * option error :=
  if (dest <? 0) || (Last (Buf e) <? dest) then (e, Some InvalidAddress)
  else
    match range_lines (Buf e) first last with
    | None => (e, Some SliceBounds)
    | Some lines => appendLines e dest lines
    end.

Definition move (e : Engine) (first last dest : Z) : Engine * option error :=
  if (dest <? 0) || (Last (Buf e) <? dest) then (e, Some InvalidAddress)
  else if (dest =? last) || (dest =? first - 1) then
    (set_buf e (mkBuffer (Lines (Buf e)) last (Dirty (Buf e))), None)
  else if (first <=? dest) && (dest <? last) then (e, Some InvalidDestination)
  else
    let e := saveUndo e in
    match range_lines (Buf e) first last with
    | None => (e, Some SliceBounds)
    | Some lines =>
        let movedMarks :=
          (fun n => n - first) <$> filter (fun kn => on_range first last kn.2 = true) (marks e) in
        match deleteLinesNoUndo e first last with
        | (e, Some err) => (e, Some err)
        | (e, None) =>
            let dest := if last <? dest then dest - (last - first + 1) else dest in
            match appendLinesNoUndo e dest lines with
            | (e, Some err) => (e, Some err)
            | (e, None) =>
                (bump (set_marks e (((fun off => dest + 1 + off) <$> movedMarks) ∪ marks e)), None)
            end
        end
    end.

(** The k command. *)
Definition set_mark (e : Engine) (k a : Z) : Engine := set_marks e (<[k := a]> (marks e)).

Fixpoint sameLines (a b : list (list Z)) : bool :=
  match a, b with
  | [], [] => true
  | x :: a', y :: b' => str_eqb x y && sameLines a' b'
  | _, _ => false
  end.

(** The u command. *)
Definition undo (e : Engine) : Engine * option error :=
  if negb (undoValid e) then (e, Some NothingToUndo)
  else
    let restored := Clone (undoBuffer e) in
    let restored :=
      if sameLines (Lines restored) (Lines (Buf e)) then restored
      else mkBuffer (Lines restored) (Current restored) true in
    (mkEngine restored (undoMarks e) (Clone (Buf e)) (marks e) (undoValid e) (inGlobal e)
       (if inGlobal e then (fun _ => 0) <$> globalTargets e else globalTargets e)
       (uint64 (changeSeq e + 1)), None).

(** ** Addresses

    [last] is [e.Buffer.Last()]. *)

Definition oneAddress (last : Z) (addrs : list Z) (explicit : bool) (def : Z) (allowZero : bool) : error + Z :=
  let a := if explicit then List.last addrs 0 else def in
  if (a <? 0) || (last <? a) || (negb allowZero && (a =? 0)) then inl InvalidAddress
  else inr a.

Definition twoAddresses (lastLine : Z) (addrs : list Z) (explicit : bool) (defFirst defLast : Z) (allowZero : bool) : error + (Z * Z) :=
  let '(first, last) :=
    if explicit then
      let last := List.last addrs 0 in
      (if 1 <? len addrs then List.last (removelast addrs) 0 else last, last)
    else (defFirst, defLast) in
  if (last <? first) || (first <? 0) || (lastLine <? last) || (negb allowZero && (first =? 0))
  then inl InvalidAddress else inr (first, last).

(** The search for a matching line: forward from the line after the current
    one, or backward from the line before it, around the buffer. The matcher
    [re] gives whether a line matches, or nothing when it fails. *)
Section Search.
Context (re : list Z -> option bool).

Fixpoint search_steps (fuel : nat) (b : Buffer) (forward : bool) (step : Z) : error + Z :=
  match fuel with
  | O => inl NoMatch
  | S f =>
      let n := Last b in
      let idx :=
        if forward then Z.rem (Current b + step - 1) n
        else Z.rem (Current b - step - 1 + n * 2) n in
      match re (Lines b !!! Z.to_nat idx) with
      | None => inl MatchError
      | Some true => inr (idx + 1)
      | Some false => search_steps f b forward (step + 1)
      end
  end.

Definition search (b : Buffer) (forward : bool) : error + Z :=
  if Last b =? 0 then inl NoMatch else search_steps (Z.to_nat (Last b)) b forward 1.

End Search.

(** ** The editing commands of [execute]

    A command after its addresses, its input text and its destination are
    read, without a print suffix. *)

Inductive command :=
| Ca (text : list (list Z)) | Ci (text : list (list Z)) | Cc (text : list (list Z))
| Cd | Cj | Ck (mark : Z) | Cm (dest : Z) | Ct (dest : Z) | Cu.

Definition execute_case (e : Engine) (addrs : list Z) (explicit : bool) (cmd : command) : Engine * option error :=
  let last := Last (Buf e) in
  let cur := Current (Buf e) in
  match cmd with
  | Ca text =>
      match oneAddress last addrs explicit cur true with
      | inl err => (e, Some err)
      | inr a => ((appendLines e a text).1, None)
      end
  | Ci text =>
      match oneAddress last addrs explicit cur true with
      | inl err => (e, Some err)
      | inr a =>
          let a := if a =? 0 then 1 else a in
          let '(e, err) := appendLines e (a - 1) text in
          match err, text with
          | None, [] =>
              let a := if Last (Buf e) <? a then Last (Buf e) else a in
              (set_buf e (mkBuffer (Lines (Buf e)) a (Dirty (Buf e))), None)
          | _, _ => (e, None)
          end
      end
  | Cc text =>
      match twoAddresses last addrs explicit cur cur true with
      | inl err => (e, Some err)
      | inr (first, last) =>
          let first := if first =? 0 then 1 else first in
          let last := if last =? 0 then 1 else last in
          ((changeLines e first last text).1, None)
      end
  | Cd =>
      match twoAddresses last addrs explicit cur cur false with
      | inl err => (e, Some err)
      | inr (first, last) => deleteLines e first last
      end
  | Cj =>
      match twoAddresses last addrs explicit cur (cur + 1) false with
      | inl err => (e, Some err)
      | inr (first, last) => join e first last
      end
  | Ck k =>
      match oneAddress last addrs explicit cur false with
      | inl err => (e, Some err)
      | inr a => (set_mark e k a, None)
      end
  | Cm dest =>
      match twoAddresses last addrs explicit cur cur false with
      | inl err => (e, Some err)
      | inr (first, last) => move e first last dest
      end
  | Ct dest =>
      match twoAddresses last addrs explicit cur cur false with
      | inl err => (e, Some err)
      | inr (first, last) => copy e first last dest
      end
  | Cu => if explicit then (e, Some UnexpectedAddress) else undo e
  end.

(** The deferred function: a failed command that changed nothing puts the
    current line back to what it was before the addresses were read. *)
Definition execute (e : Engine) (originalCurrent : Z) (addrs : list Z) (explicit : bool) (cmd : command) : Engine * option error :=
  match execute_case e addrs explicit cmd with
  | (e', Some err) =>
      (if changeSeq e' =? changeSeq e
       then set_buf e' (mkBuffer (Lines (Buf e')) originalCurrent (Dirty (Buf e'))) else e',
       Some err)
  | r => r
  end.

(** ** The global command

    A command list is a list of lines, each with the result of reading its
    addresses in the state it is run in (the current line they leave, the
    addresses and whether there are any) and its command. *)

Abbreviation address_reader := (Engine -> error + (Z * list Z * bool)).

Definition set_current (e : Engine) (n : Z) : Engine :=
  set_buf e (mkBuffer (Lines (Buf e)) n (Dirty (Buf e))).

(** [execute] with its addresses read. *)
Definition execute_line (e : Engine) (line : address_reader * command) : Engine * option error :=
  match line.1 e with
  | inl err => (e, Some err)
  | inr (current, addrs, explicit) =>
      execute (set_current e current) (Current (Buf e)) addrs explicit line.2
  end.

Fixpoint executeGlobalList (e : Engine) (commands : list (address_reader * command)) : Engine * option error :=
  match commands with
  | [] => (e, None)
  | line :: commands' =>
      match execute_line e line with
      | (e', Some err) => (e', Some err)
      | (e', None) => executeGlobalList e' commands'
      end
  end.

Definition set_global (e : Engine) (b : bool) (t : list Z) : Engine :=
  mkEngine (Buf e) (marks e) (undoBuffer e) (undoMarks e) (undoValid e) b t (changeSeq e).
Definition set_undo (e : Engine) (b : Buffer) (m : gmap Z Z) (v : bool) : Engine :=
  mkEngine (Buf e) (marks e) b m v (inGlobal e) (globalTargets e) (changeSeq e).

Section Global.
Context (re : list Z -> option bool) (matching : bool) (commands : list (address_reader * command)).

(** The lines from [n] on that are selected; nothing when the matcher fails. *)
Fixpoint select_targets (n : Z) (lines : list (list Z)) : option (list Z) :=
  match lines with
  | [] => Some []
  | l :: lines' =>
      match re l, select_targets (n + 1) lines' with
      | Some ok, Some ts => Some (if Bool.eqb ok matching then n :: ts else ts)
      | _, _ => None
      end
  end.

(** The loop over the targets, from target [i] on, [count] of them. It also
    gives the engine at each visit. *)
Fixpoint global_loop (count i : nat) (e : Engine) : Engine * option error * list Engine :=
  match count with
  | O => (e, None, [])
  | S count' =>
      let n := globalTargets e !!! i in
      if n =? 0 then global_loop count' (S i) e
      else
        let e := set_current (set_targets e (<[i := 0]> (globalTargets e))) n in
        match executeGlobalList e commands with
        | (e', Some err) => (e', Some err, [e])
        | (e', None) =>
            let '(e'', err, visits) := global_loop count' (S i) e' in (e'', err, e :: visits)
        end
  end.

(** The deferred function, with the engine from before the command and the one
    after the loop. *)
Definition global_finish (e e2 : Engine) (err : option error) : Engine :=
  let e3 := set_global e2 false [] in
  if changeSeq e =? changeSeq e3 then
    match err with
    | Some _ => set_undo e3 (Clone (undoBuffer e)) (undoMarks e) (undoValid e)
    | None => bump (set_undo e3 (Clone (Buf e3)) (marks e3) true)
    end
  else e3.

(** The g and v commands with their addresses, expression and command list
    read, and the engine at each visit. *)
Definition global (e : Engine) (addrs : list Z) (explicit : bool) : Engine * option error * list Engine :=
  match twoAddresses (Last (Buf e)) addrs explicit 1 (Last (Buf e)) false with
  | inl err => (e, Some err, [])
  | inr (first, last) =>
      match range_lines (Buf e) first last with
      | None => (e, Some SliceBounds, [])
      | Some lines =>
          match select_targets first lines with
          | None => (e, Some MatchError, [])
          | Some targets =>
              let e1 := set_global (saveUndo e) true targets in
              let '(e2, err, visits) := global_loop (length targets) 0 e1 in
              (global_finish e e2 err, err, visits)
          end
      end
  end.

End Global.

(** A line given to the editor: an editing command or a global one. *)
Inductive input :=
| Edit (line : address_reader * command)
| Global (reader : address_reader) (re : list Z -> option bool) (matching : bool)
    (commands : list (address_reader * command)).

Definition run_input (e : Engine) (i : input) : Engine :=
  match i with
  | Edit line => (execute_line e line).1
  | Global reader re matching commands =>
      match reader e with
      | inl err => e
      | inr (current, addrs, explicit) =>
          let '(e', err, _) := global re matching commands (set_current e current) addrs explicit in
          match err with
          | Some _ => if changeSeq e' =? changeSeq e then set_current e' (Current (Buf e)) else e'
          | None => e'
          end
      end
  end.

(** The engine after a text is read, and after a sequence of inputs. *)
Definition load (lines : list (list Z)) : Engine :=
  mkEngine (Reset (mkBuffer [] 0 false) lines false) ∅ (mkBuffer [] 0 false) ∅ false false [] 0.

Definition session (e : Engine) (inputs : list input) : Engine := foldl run_input e inputs.

End Editor.
