(* ===== verification/EdCorrect.v ===== *)
(** * ed: marks and global targets follow their lines

    An abstract editor in which every line has an identity, a mark and a
    target of a global command name an identity and no line number is ever
    adjusted, and the proof that the commands of [EdBuffer] refine it; then
    undo, the search and the text of a buffer. *)

From Stdlib Require Import ZArith Lia.
From stdpp Require Import base tactics list numbers gmap strings.
From S2P Require Import Prelude EdBuffer.

Module EdCorrect.
Import Editor.

(** ** The buffer operations *)

Definition ztake {A} (n : Z) (l : list A) : list A := take (Z.to_nat n) l.
Definition zdrop {A} (n : Z) (l : list A) : list A := drop (Z.to_nat n) l.

Lemma len_ztake {A} n (l : list A) : 0 <= n <= len l -> len (ztake n l) = n.
Proof. unfold len, ztake. intros. rewrite length_take. lia. Qed.

Lemma len_zdrop {A} n (l : list A) : 0 <= n <= len l -> len (zdrop n l) = len l - n.
Proof. unfold len, zdrop. intros. rewrite length_drop. lia. Qed.

Lemma fmap_ztake {A B} (f : A -> B) n l : f <$> ztake n l = ztake n (f <$> l).
Proof. apply fmap_take. Qed.

Lemma fmap_zdrop {A B} (f : A -> B) n l : f <$> zdrop n l = zdrop n (f <$> l).
Proof. apply fmap_drop. Qed.

Lemma len_fmap {A B} (f : A -> B) l : len (f <$> l) = len l.
Proof. unfold len. by rewrite length_fmap. Qed.

Lemma copy_into_app {A} (l1 mid l2 src : list A) off :
  off = length l1 -> length src = length mid ->
  copy_into (l1 ++ mid ++ l2) off src = l1 ++ src ++ l2.
Proof.
  intros -> E. unfold copy_into. rewrite take_app_length, !length_app.
  rewrite (take_ge src) by lia. rewrite drop_app, E.
  rewrite drop_ge by lia. replace (length l1 + length mid - length l1)%nat with (length mid) by lia.
  by rewrite drop_app_length.
Qed.

Lemma Append_spec b after lines :
  0 <= after <= Last b ->
  Append b after lines =
    (mkBuffer (ztake after (Lines b) ++ lines ++ zdrop after (Lines b)) (after + len lines)
       (Dirty b || (0 <? len lines)), None).
Proof.
  unfold Append, Last, len, ztake, zdrop. intros H.
  rewrite (proj2 (Z.ltb_ge _ _)) by lia. rewrite (proj2 (Z.ltb_ge _ _)) by lia. cbn [orb].
  destruct lines as [|x lines].
  { cbn. rewrite take_drop, orb_false_r, Z.add_0_r. done. }
  set (ls := x :: lines). set (a := Z.to_nat after). set (L := Lines b) in *.
  replace (0 <? Z.of_nat (length ls)) with true by (symmetry; apply Z.ltb_lt; cbn; lia).
  rewrite orb_true_r. f_equal. f_equal.
  set (X := L ++ replicate (length ls) []).
  assert (HX : length X = (length L + length ls)%nat) by (subst X; by rewrite length_app, length_replicate).
  replace (take (length X - length ls) X) with L.
  2: { subst X. rewrite take_app_length'; [done|]. rewrite length_app, length_replicate. lia. }
  rewrite <- (take_drop (a + length ls) X) at 1. rewrite <- (app_nil_r (drop (a + length ls) X)).
  rewrite copy_into_app by (rewrite ?length_take, ?length_drop; lia). rewrite app_nil_r.
  rewrite <- (take_drop a (take (a + length ls) X)), <- app_assoc.
  rewrite copy_into_app by (rewrite ?length_drop, ?length_take, ?length_take; lia).
  rewrite take_take, Nat.min_l by lia. subst X. by rewrite take_app_le by lia.
Qed.

Lemma Delete_spec b first last :
  1 <= first -> first <= last -> last <= Last b ->
  Delete b first last =
    (mkBuffer (ztake (first - 1) (Lines b) ++ zdrop last (Lines b))
       (Z.min first (Last b - (last - first + 1))) true, None).
Proof.
  unfold Delete, Last, len, ztake, zdrop. intros H1 H2 H3.
  rewrite !(proj2 (Z.ltb_ge _ _)) by lia. cbn [orb].
  set (L := Lines b) in *. set (f := Z.to_nat (first - 1)).
  assert (E : take (length (copy_into L f (drop (Z.to_nat last) L)) - Z.to_nat (last - first + 1))
                (copy_into L f (drop (Z.to_nat last) L)) =
              take f L ++ drop (Z.to_nat last) L).
  { rewrite <- (take_drop f L) at 1 3. rewrite <- (take_drop (length L - Z.to_nat last) (drop f L)) at 1 2.
    rewrite copy_into_app by (rewrite ?length_take, ?length_drop; lia). rewrite app_assoc.
    apply take_app_length'. rewrite !length_app, !length_drop, length_take. lia. }
  rewrite E. set (N := length (take _ _ ++ _)).
  assert (HN : Z.of_nat N = Z.of_nat (length L) - (last - first + 1))
    by (subst N; rewrite length_app, length_take, length_drop; lia).
  f_equal. f_equal. rewrite HN. destruct (Z.eqb_spec (Z.of_nat (length L) - (last - first + 1)) 0); [lia|].
  destruct (Z.leb_spec first (Z.of_nat (length L) - (last - first + 1))); lia.
Qed.

(** ** Identities *)

(** The number, from 1, of the line with identity [i]. *)
Fixpoint pos (l : list (Z * list Z)) (i : Z) : option Z :=
  match l with
  | [] => None
  | (j, _) :: l' => if j =? i then Some 1 else Z.succ <$> pos l' i
  end.

Definition ids (l : list (Z * list Z)) : list Z := fst <$> l.

Lemma pos_app l1 l2 i :
  pos (l1 ++ l2) i = match pos l1 i with Some n => Some n | None => Z.add (len l1) <$> pos l2 i end.
Proof.
  induction l1 as [|[j t] l1 IH]; cbn [pos app].
  - destruct (pos l2 i); done.
  - destruct (j =? i); [done|]. rewrite IH. destruct (pos l1 i); [done|]. rewrite len_cons.
    destruct (pos l2 i); [|done]. cbn. f_equal. lia.
Qed.

Lemma pos_range l i n : pos l i = Some n -> 1 <= n <= len l.
Proof.
  revert n. induction l as [|[j t] l IH]; [done|]; intros n. cbn [pos]. rewrite len_cons.
  pose proof (len_nonneg l).
  destruct (j =? i); [intros [= <-]; lia|]. destruct (pos l i) as [m|]; [|done].
  intros [= <-]. pose proof (IH m eq_refl). lia.
Qed.

Lemma pos_None l i : pos l i = None <-> i ∉ ids l.
Proof.
  unfold ids. induction l as [|[j t] l IH]; cbn [pos fmap list_fmap fst]; [set_solver|].
  rewrite not_elem_of_cons. destruct (Z.eqb_spec j i) as [->|]; [naive_solver|].
  destruct (pos l i); cbn; naive_solver.
Qed.

Lemma pos_lookup l i n : NoDup (ids l) -> 1 <= n -> ids l !! Z.to_nat (n - 1) = Some i -> pos l i = Some n.
Proof.
  unfold ids. revert n. induction l as [|[j t] l IH]; intros n Hnd Hn; [done|].
  apply NoDup_cons in Hnd as [Hj Hnd]. cbn [pos]. destruct (decide (n = 1)) as [->|].
  - cbn. intros [= ->]. by rewrite Z.eqb_refl.
  - replace (Z.to_nat (n - 1)) with (S (Z.to_nat (n - 1 - 1))) by lia. cbn. intros E.
    destruct (Z.eqb_spec j i) as [->|].
    { destruct Hj. by eapply list_elem_of_lookup_2. }
    rewrite (IH (n - 1)); [|done|lia|done]. cbn. f_equal. lia.
Qed.

(** An insertion moves the lines behind it down. *)
Lemma pos_insert l1 new l2 i :
  i ∉ ids new ->
  pos (l1 ++ new ++ l2) i = shift_insert (len l1) (len new) <$> pos (l1 ++ l2) i.
Proof.
  intros Hi. rewrite !pos_app, (proj2 (pos_None new i) Hi). unfold shift_insert.
  destruct (pos l1 i) as [n|] eqn:E1; cbn.
  - apply pos_range in E1. rewrite (proj2 (Z.ltb_ge _ _)) by lia. done.
  - destruct (pos l2 i) as [n|] eqn:E2; cbn; [|done]. apply pos_range in E2.
    rewrite (proj2 (Z.ltb_lt _ _)) by lia. f_equal. lia.
Qed.

(** The line a line number denotes once the lines [first] to [last] are
    deleted. *)
Definition delete_pos (first last n : Z) : option Z :=
  if (first <=? n) && (n <=? last) then None else Some (shift_delete first last n).

Lemma pos_delete l1 d l2 i :
  NoDup (ids (l1 ++ d ++ l2)) ->
  pos (l1 ++ l2) i = pos (l1 ++ d ++ l2) i ≫= delete_pos (len l1 + 1) (len l1 + len d).
Proof.
  unfold ids. rewrite !fmap_app. intros Hnd. rewrite !pos_app. unfold delete_pos, shift_delete.
  destruct (pos l1 i) as [n|] eqn:E1; cbn.
  - apply pos_range in E1. rewrite !(proj2 (Z.leb_gt (len l1 + 1) n)) by lia. cbn.
    pose proof (len_nonneg d). by rewrite (proj2 (Z.ltb_ge _ _)) by lia.
  - destruct (pos d i) as [n|] eqn:E2; cbn.
    + rewrite (proj2 (pos_None l2 i)).
      { apply pos_range in E2. rewrite (proj2 (Z.leb_le _ _)) by lia. by rewrite (proj2 (Z.leb_le _ _)) by lia. }
      apply NoDup_app in Hnd as (_ & _ & Hnd). apply NoDup_app in Hnd as (_ & Hd & _).
      apply Hd. destruct (decide (i ∈ ids d)) as [|Hn]; [done|]. apply pos_None in Hn. congruence.
    + destruct (pos l2 i) as [n|] eqn:E3; cbn; [|done]. apply pos_range in E3.
      pose proof (len_nonneg d).
      rewrite (proj2 (Z.leb_gt (len l1 + (len d + n)) _)) by lia. rewrite andb_false_r.
      rewrite (proj2 (Z.ltb_lt _ _)) by lia. f_equal. lia.
Qed.

(** ** The abstract editor *)

(** A text with the identities of its lines, the current line and the line
    each mark names, alive or not. *)
Record view := mkView { vlines : list (Z * list Z); vcur : Z; vmarks : gmap Z Z }.

(** The text, the text undo goes back to, the lines a global command has yet
    to visit, whether one is running, and an identity not used so far. *)
Record editor := mkEditor {
  now : view; before : option view; targets : list (option Z); global : bool; next : Z
}.

Definition with_now (a : editor) (v : view) : editor :=
  mkEditor v (before a) (targets a) (global a) (next a).
Definition with_cur (a : editor) (n : Z) : editor :=
  with_now a (mkView (vlines (now a)) n (vmarks (now a))).

(** New lines get new identities. *)
Definition fresh (n : Z) (texts : list (list Z)) : list (Z * list Z) := zip (seqZ n (len texts)) texts.

Definition remember (a : editor) : editor :=
  if global a then a else mkEditor (now a) (Some (now a)) (targets a) (global a) (next a).

(** Lines [first] to [last] are replaced by [new]. *)
Definition splice (l : list (Z * list Z)) (first last : Z) (new : list (Z * list Z)) : list (Z * list Z) :=
  ztake (first - 1) l ++ new ++ zdrop last l.

Definition replace_lines (a : editor) (first last : Z) (texts : list (list Z)) (cur : Z) : editor :=
  let v := now a in
  mkEditor (mkView (splice (vlines v) first last (fresh (next a) texts)) cur (vmarks v))
    (before a) (targets a) (global a) (next a + len texts).

Definition append_spec (a : editor) (after : Z) (texts : list (list Z)) : editor :=
  match texts with
  | [] => with_cur a after
  | _ => replace_lines (remember a) (after + 1) after texts (after + len texts)
  end.

Definition change_spec (a : editor) (first last : Z) (texts : list (list Z)) : editor :=
  replace_lines (remember a) first last texts
    match texts with
    | [] => Z.min first (len (splice (vlines (now a)) first last []))
    | _ => first - 1 + len texts
    end.

(** The lines become one new line, which their marks now name. *)
Definition join_spec (a : editor) (first last : Z) : editor :=
  if first =? last then a
  else
    let v := now a in
    let joined := sub (first - 1) last (vlines v) in
    let a' := replace_lines (remember a) first last [concat (snd <$> joined)] first in
    with_now a' (mkView (vlines (now a')) first
      ((fun i => if bool_decide (i ∈ ids joined) then next a else i) <$> vmarks v)).

(** The lines keep their identities and their marks; a running global command
    does not visit them any more. *)
Definition move_spec (a : editor) (first last dest : Z) : editor * option error :=
  let v := now a in
  if (dest <? 0) || (len (vlines v) <? dest) then (a, Some InvalidAddress)
  else if (dest =? last) || (dest =? first - 1) then (with_cur a last, None)
  else if (first <=? dest) && (dest <? last) then (a, Some InvalidDestination)
  else
    let moved := sub (first - 1) last (vlines v) in
    let dest := if last <? dest then dest - (last - first + 1) else dest in
    let a := remember a in
    (mkEditor (mkView (splice (splice (vlines v) first last []) (dest + 1) dest moved)
                 (dest + (last - first + 1)) (vmarks v))
       (before a)
       ((fun t => t ≫= fun i => if bool_decide (i ∈ ids moved) then None else Some i) <$> targets a)
       (global a) (next a), None).

Definition copy_spec (a : editor) (first last dest : Z) : editor * option error :=
  if (dest <? 0) || (len (vlines (now a)) <? dest) then (a, Some InvalidAddress)
  else (append_spec a dest (snd <$> sub (first - 1) last (vlines (now a))), None).

Definition mark_spec (a : editor) (k n : Z) : editor :=
  let v := now a in
  with_now a (mkView (vlines v) (vcur v) (<[k := default 0 (ids (vlines v) !! Z.to_nat (n - 1))]> (vmarks v))).

Definition undo_spec (a : editor) : editor * option error :=
  match before a with
  | None => (a, Some NothingToUndo)
  | Some v =>
      (mkEditor v (Some (now a)) (if global a then (fun _ => None) <$> targets a else targets a)
         (global a) (next a), None)
  end.

Definition case_spec (a : editor) (addrs : list Z) (explicit : bool) (cmd : command) : editor * option error :=
  let last := len (vlines (now a)) in
  let cur := vcur (now a) in
  let one zero (k : Z -> editor * option error) :=
    match oneAddress last addrs explicit cur zero with inl err => (a, Some err) | inr n => k n end in
  let two def zero (k : Z -> Z -> editor * option error) :=
    match twoAddresses last addrs explicit cur def zero with inl err => (a, Some err) | inr (f, l) => k f l end in
  match cmd with
  | Ca text => one true (fun n => (append_spec a n text, None))
  | Ci text => one true (fun n =>
      let n := Z.max 1 n in
      (match text with [] => with_cur a (Z.min n last) | _ => append_spec a (n - 1) text end, None))
  | Cc text => two cur true (fun f l => (change_spec a (Z.max 1 f) (Z.max 1 l) text, None))
  | Cd => two cur false (fun f l => (change_spec a f l [], None))
  | Cj => two (cur + 1) false (fun f l => (join_spec a f l, None))
  | Ck k => one false (fun n => (mark_spec a k n, None))
  | Cm dest => two cur false (fun f l => move_spec a f l dest)
  | Ct dest => two cur false (fun f l => copy_spec a f l dest)
  | Cu => if explicit then (a, Some UnexpectedAddress) else undo_spec a
  end.

Definition execute_spec (a : editor) (originalCurrent : Z) (addrs : list Z) (explicit : bool) (cmd : command) : editor * option error :=
  match case_spec a addrs explicit cmd with
  | (a', Some err) => (with_cur a' originalCurrent, Some err)
  | r => r
  end.

(** ** The refinement relation *)

Definition view_rel (v : view) (b : Buffer) (m : gmap Z Z) : Prop :=
  Lines b = snd <$> vlines v /\ Current b = vcur v /\
  forall k, m !! k = vmarks v !! k ≫= pos (vlines v).

(** Identities are distinct and below [n], the current line is a line or 0. *)
Definition view_ok (n : Z) (v : view) : Prop :=
  NoDup (ids (vlines v)) /\ Forall (fun i => i < n) (ids (vlines v)) /\
  (forall k i, vmarks v !! k = Some i -> i < n) /\ 0 <= vcur v <= len (vlines v).

Definition target_rel (l : list (Z * list Z)) (t : option Z) : Z := default 0 (t ≫= pos l).

Record refines (a : editor) (e : Engine) : Prop := mkRefines {
  ref_now : view_rel (now a) (Buf e) (marks e);
  ref_ok : view_ok (next a) (now a);
  ref_before :
    match before a with
    | None => undoValid e = false
    | Some v => undoValid e = true /\ view_rel v (undoBuffer e) (undoMarks e) /\ view_ok (next a) v
    end;
  ref_targets : globalTargets e = target_rel (vlines (now a)) <$> targets a;
  ref_next : Forall (fun t => forall i, t = Some i -> i < next a) (targets a);
  ref_global : inGlobal e = global a;
  ref_local : global a = false -> targets a = []
}.

(** An engine operation run from [e] and what the specification says of it:
    the same error and refining states, and a failure leaves the engine as it
    was. *)
Definition agrees (e : Engine) (r : Engine * option error) (sp : editor * option error) : Prop :=
  r.2 = sp.2 /\ refines sp.1 r.1 /\ (r.2 <> None -> r.1 = e).

(** ** Splicing *)

Lemma split3 {A} (l : list A) first last :
  1 <= first -> first - 1 <= last -> last <= len l ->
  l = ztake (first - 1) l ++ sub (first - 1) last l ++ zdrop last l.
Proof.
  intros H1 H2 H3. unfold ztake, zdrop. rewrite <- (sub_all l last) by lia. rewrite sub_app by lia.
  rewrite sub_all by lia. by rewrite take_drop.
Qed.

Lemma len_splice l first last new :
  1 <= first -> first - 1 <= last -> last <= len l ->
  len (splice l first last new) = len l - (last - first + 1) + len new.
Proof.
  intros. unfold splice. rewrite !len_app, len_ztake, len_zdrop by lia. lia.
Qed.

Lemma splice_splice l first last new :
  1 <= first -> first - 1 <= last -> last <= len l ->
  splice (splice l first last []) first (first - 1) new = splice l first last new.
Proof.
  intros. unfold splice. cbn [app].
  assert (E : Z.to_nat (first - 1) = length (ztake (first - 1) l)).
  { rewrite <- (Nat2Z.id (length _)). f_equal. symmetry. apply len_ztake. lia. }
  unfold ztake at 1, zdrop at 2. rewrite E, take_app_length, drop_app_length. done.
Qed.

Lemma fmap_splice l first last new :
  snd <$> splice l first last new =
  ztake (first - 1) (snd <$> l) ++ (snd <$> new) ++ zdrop last (snd <$> l).
Proof. unfold splice. by rewrite !fmap_app, fmap_ztake, fmap_zdrop. Qed.

Lemma fresh_texts n texts : snd <$> fresh n texts = texts.
Proof. unfold fresh, len. rewrite snd_zip; [done|]. rewrite length_seqZ. lia. Qed.

Lemma fresh_ids n texts : ids (fresh n texts) = seqZ n (len texts).
Proof. unfold ids, fresh, len. rewrite fst_zip; [done|]. rewrite length_seqZ. lia. Qed.

Lemma len_fresh n texts : len (fresh n texts) = len texts.
Proof. rewrite <- (len_fmap snd), fresh_texts. done. Qed.

Lemma shift_insert_0 after n : shift_insert after 0 n = n.
Proof. unfold shift_insert. case_match; lia. Qed.

Lemma pos_splice l first last new i :
  NoDup (ids l) -> 1 <= first -> first - 1 <= last -> last <= len l -> i ∉ ids new ->
  pos (splice l first last new) i =
    shift_insert (first - 1) (len new) <$> (pos l i ≫= delete_pos first last).
Proof.
  intros Hnd H1 H2 H3 Hi. unfold splice. rewrite pos_insert by done. rewrite len_ztake by lia.
  f_equal. rewrite (split3 l first last) in Hnd by lia.
  rewrite (pos_delete _ _ _ _ Hnd), <- split3 by lia.
  rewrite len_ztake, len_sub by lia.
  replace (first - 1 + 1) with first by lia. by replace (first - 1 + (last - (first - 1))) with last by lia.
Qed.

Lemma pos_mem l first last i :
  NoDup (ids l) -> 1 <= first -> first - 1 <= last -> last <= len l ->
  pos (sub (first - 1) last l) i =
    pos l i ≫= fun n => if on_range first last n then Some (n - (first - 1)) else None.
Proof.
  intros Hnd H1 H2 H3. pose proof Hnd as Hnd'. rewrite (split3 l first last) in Hnd' by lia.
  rewrite (split3 l first last) at 2 by lia. rewrite !pos_app, len_ztake, len_sub by lia.
  unfold ids in Hnd'. rewrite !fmap_app in Hnd'.
  apply NoDup_app in Hnd' as (_ & Hd1 & Hnd'). unfold on_range.
  destruct (pos (ztake _ _) i) as [n|] eqn:E1; cbn.
  - pose proof (pos_range _ _ _ E1) as Hn. rewrite len_ztake in Hn by lia.
    rewrite (proj2 (Z.leb_gt first n)) by lia. cbn. apply pos_None.
    assert (Hin : i ∈ ids (ztake (first - 1) l)).
    { destruct (decide (i ∈ ids (ztake (first - 1) l))) as [|Hc]; [done|]. apply pos_None in Hc. congruence. }
    specialize (Hd1 i Hin). unfold ids. set_solver.
  - destruct (pos (sub _ _ _) i) as [n|] eqn:E2; cbn.
    + pose proof (pos_range _ _ _ E2) as Hn. rewrite len_sub in Hn by lia.
      rewrite (proj2 (Z.leb_le _ _)) by lia. rewrite (proj2 (Z.leb_le _ _)) by lia. cbn. f_equal. lia.
    + destruct (pos (zdrop _ _) i) as [n|] eqn:E3; cbn; [|done].
      pose proof (pos_range _ _ _ E3) as Hn.
      rewrite (proj2 (Z.leb_gt _ last)) by lia. by rewrite andb_false_r.
Qed.

(** Marks and targets after a splice. *)
Lemma marks_splice l first last new (m vm : gmap Z Z) :
  NoDup (ids l) -> 1 <= first -> first - 1 <= last -> last <= len l ->
  (forall k i, vm !! k = Some i -> i ∉ ids new) ->
  (forall k, m !! k = vm !! k ≫= pos l) ->
  forall k : Z, marks_insert (first - 1) (len new) (marks_delete first last m) !! k =
    vm !! k ≫= pos (splice l first last new).
Proof.
  intros Hnd H1 H2 H3 Hvm Hm k. unfold marks_insert, marks_delete. rewrite lookup_fmap, lookup_omap, Hm.
  destruct (vm !! k) as [i|] eqn:E; [cbn|done]. rewrite pos_splice by eauto. done.
Qed.

Lemma shift_delete_pos first last n :
  1 <= first -> shift_delete first last n = default 0 (delete_pos first last n).
Proof. intros. unfold delete_pos, shift_delete. by destruct (_ && _). Qed.

Lemma target_splice l first last new t :
  NoDup (ids l) -> 1 <= first -> first - 1 <= last -> last <= len l ->
  (forall i, t = Some i -> i ∉ ids new) ->
  shift_insert (first - 1) (len new) (shift_delete first last (target_rel l t)) =
    target_rel (splice l first last new) t.
Proof.
  intros Hnd H1 H2 H3 Ht. unfold target_rel.
  assert (H0 : shift_insert (first - 1) (len new) 0 = 0).
  { unfold shift_insert. by rewrite (proj2 (Z.ltb_ge _ _)) by lia. }
  assert (H0' : shift_delete first last 0 = 0).
  { unfold shift_delete. rewrite (proj2 (Z.leb_gt first 0)) by lia. cbn.
    by rewrite (proj2 (Z.ltb_ge _ _)) by lia. }
  destruct t as [i|]; cbn; [|by rewrite H0'].
  rewrite pos_splice by eauto. destruct (pos l i) as [n|]; cbn; [|by rewrite H0'].
  rewrite shift_delete_pos by done. by destruct (delete_pos first last n).
Qed.

(** ** The engine operations refine the abstract ones *)

Lemma view_ok_mono n n' v : n <= n' -> view_ok n v -> view_ok n' v.
Proof.
  intros Hn (H1 & H2 & H3 & H4). split_and!; [done| |intros; eapply Z.lt_le_trans; eauto|lia|lia].
  eapply Forall_impl; [done|]. cbn. lia.
Qed.

Lemma not_fresh n texts i : i < n -> i ∉ ids (fresh n texts).
Proof. intros Hi. rewrite fresh_ids, elem_of_seqZ. lia. Qed.

Lemma ids_splice l first last new :
  ids (splice l first last new) = ztake (first - 1) (ids l) ++ ids new ++ zdrop last (ids l).
Proof. unfold ids, splice. by rewrite !fmap_app, fmap_ztake, fmap_zdrop. Qed.

Lemma elem_of_zdrop {A} (x : A) n l : x ∈ zdrop n l -> x ∈ l.
Proof. intros H. rewrite <- (take_drop (Z.to_nat n) l). set_solver. Qed.

Lemma elem_of_ztake {A} (x : A) n l : x ∈ ztake n l -> x ∈ l.
Proof. intros H. rewrite <- (take_drop (Z.to_nat n) l). set_solver. Qed.

Lemma NoDup_ends {A} (l : list A) n m : n <= m -> NoDup l -> NoDup (ztake n l ++ zdrop m l).
Proof.
  intros Hnm Hnd. rewrite <- (take_drop (Z.to_nat n) l) in Hnd.
  apply NoDup_app in Hnd as (H1 & H2 & H3). unfold ztake, zdrop.
  replace (drop (Z.to_nat m) l) with (drop (Z.to_nat m - Z.to_nat n) (drop (Z.to_nat n) l))
    by (rewrite drop_drop; f_equal; lia).
  set (r := drop (Z.to_nat n) l) in *. rewrite <- (take_drop (Z.to_nat m - Z.to_nat n) r) in H2, H3.
  apply NoDup_app in H3 as (_ & _ & H3). apply NoDup_app. split_and!; [done| |done].
  intros x Hx. specialize (H2 x Hx). set_solver.
Qed.

Lemma view_ok_splice n v first last texts cur :
  view_ok n v -> 1 <= first -> first - 1 <= last -> last <= len (vlines v) ->
  0 <= cur <= len (vlines v) - (last - first + 1) + len texts ->
  view_ok (n + len texts) (mkView (splice (vlines v) first last (fresh n texts)) cur (vmarks v)).
Proof.
  intros (H1 & H2 & H3 & H4) Hf Hl Hl' Hc. pose proof (len_nonneg texts).
  unfold view_ok; cbn [vlines vcur vmarks].
  rewrite len_splice, len_fresh, ids_splice, fresh_ids by lia. rewrite Forall_forall in H2.
  split_and!; [| |intros k i Hi; specialize (H3 _ _ Hi); lia|lia|lia].
  - rewrite Permutation_app_swap_app. apply NoDup_app. split_and!; [apply NoDup_seqZ| |].
    + intros i Hi%elem_of_seqZ [Hj%elem_of_ztake|Hj%elem_of_zdrop]%elem_of_app; specialize (H2 _ Hj); lia.
    + apply NoDup_ends; [lia|done].
  - apply Forall_forall. intros i. rewrite !elem_of_app, elem_of_seqZ.
    intros [Hj%elem_of_ztake|[Hj|Hj%elem_of_zdrop]]; [specialize (H2 _ Hj)| |specialize (H2 _ Hj)]; lia.
Qed.

Lemma refine_splice a e b first last texts cur seq :
  refines a e -> 1 <= first -> first - 1 <= last -> last <= len (vlines (now a)) ->
  Lines b = ztake (first - 1) (Lines (Buf e)) ++ texts ++ zdrop last (Lines (Buf e)) ->
  Current b = cur -> 0 <= cur <= len (vlines (now a)) - (last - first + 1) + len texts ->
  refines (replace_lines a first last texts cur)
    (mkEngine b (marks_insert (first - 1) (len texts) (marks_delete first last (marks e)))
       (undoBuffer e) (undoMarks e) (undoValid e) (inGlobal e)
       (shift_insert (first - 1) (len texts) <$> (shift_delete first last <$> globalTargets e)) seq).
Proof.
  intros [(RL & RC & RM) Rok Rb Rt Rn Rg Rl] Hf Hl Hl' HL HC Hc. pose proof (len_nonneg texts).
  pose proof Rok as (Hnd & _ & Hm & _).
  constructor; cbn [now before targets global next replace_lines Buf marks undoBuffer undoMarks
    undoValid inGlobal globalTargets vlines]; try done.
  - split_and!; cbn [vlines vcur vmarks]; [|done|].
    + rewrite fmap_splice, fresh_texts. by rewrite HL, RL.
    + rewrite <- (len_fresh (next a) texts). apply marks_splice; [done..| |done].
      intros k i Hi. apply not_fresh. eauto.
  - by apply view_ok_splice.
  - destruct (before a) as [v|]; [|done]. destruct Rb as (? & ? & ?). split_and!; try done.
    eapply view_ok_mono; [|done]. lia.
  - rewrite Rt, <- !list_fmap_compose. apply list_fmap_ext. intros i t Ht. cbn.
    rewrite <- (len_fresh (next a) texts) at 1. apply target_splice; [done..|].
    intros j ->. apply not_fresh. eapply (Forall_lookup_1 _ _ _ _ Rn Ht). done.
  - eapply Forall_impl; [done|]. cbn. intros t Ht i Hi. specialize (Ht i Hi). lia.
Qed.

Lemma refine_remember a e : refines a e -> refines (remember a) (saveUndo e).
Proof.
  intros [Rv Rok Rb Rt Rn Rg Rl]. unfold remember, saveUndo. rewrite Rg.
  destruct (global a) eqn:Eg; constructor; cbn; try done; by rewrite ?Rg, ?Eg.
Qed.

Lemma remember_same a :
  now (remember a) = now a /\ next (remember a) = next a /\ targets (remember a) = targets a /\
  global (remember a) = global a.
Proof. unfold remember. destruct (global a) eqn:E; cbn; by rewrite ?E. Qed.

Lemma saveUndo_same e :
  Buf (saveUndo e) = Buf e /\ marks (saveUndo e) = marks e /\
  globalTargets (saveUndo e) = globalTargets e /\ changeSeq (saveUndo e) = changeSeq e.
Proof. unfold saveUndo. destruct (inGlobal e) eqn:E; cbn; by rewrite ?E. Qed.

Lemma refine_seq a e seq :
  refines a e ->
  refines a (mkEngine (Buf e) (marks e) (undoBuffer e) (undoMarks e) (undoValid e) (inGlobal e)
    (globalTargets e) seq).
Proof. by intros []. Qed.

Lemma Last_refines a e : refines a e -> Last (Buf e) = len (vlines (now a)).
Proof. intros [(E & _) _]. unfold Last. by rewrite E, len_fmap. Qed.

Lemma delete_pos_none after n : delete_pos (after + 1) after n = Some n.
Proof.
  unfold delete_pos, shift_delete.
  destruct (Z.leb_spec (after + 1) n), (Z.leb_spec n after), (Z.ltb_spec after n); cbn;
    try (exfalso; lia); f_equal; lia.
Qed.

Lemma delete_pos_in first last n : first <= n <= last -> delete_pos first last n = None.
Proof.
  intros. unfold delete_pos. by rewrite (proj2 (Z.leb_le first n)), (proj2 (Z.leb_le n last)) by lia.
Qed.

Lemma marks_delete_none after m : marks_delete (after + 1) after m = m.
Proof.
  apply map_eq. intros k. unfold marks_delete. rewrite lookup_omap.
  destruct (m !! k) as [n|]; [cbn|done]. apply delete_pos_none.
Qed.

Lemma targets_delete_none after (t : list Z) : 0 <= after -> shift_delete (after + 1) after <$> t = t.
Proof.
  intros. transitivity (id <$> t); [|apply list_fmap_id]. apply list_fmap_ext. intros _ n _.
  rewrite shift_delete_pos, delete_pos_none by lia. done.
Qed.

Lemma marks_insert_0 after m : marks_insert after 0 m = m.
Proof.
  unfold marks_insert. transitivity (id <$> m); [|apply map_fmap_id]. apply map_fmap_ext. intros. apply shift_insert_0.
Qed.

Lemma targets_insert_0 after (t : list Z) : shift_insert after 0 <$> t = t.
Proof.
  transitivity (id <$> t); [|apply list_fmap_id]. apply list_fmap_ext. intros. apply shift_insert_0.
Qed.

(** What the two unprotected operations do to an engine that refines [a]. *)

Lemma appendLinesNoUndo_refines a e after texts :
  refines a e -> 0 <= after <= len (vlines (now a)) ->
  exists e', appendLinesNoUndo e after texts = (e', None) /\
    refines (replace_lines a (after + 1) after texts (after + len texts)) e' /\
    marks e' = marks_insert after (len texts) (marks e).
Proof.
  intros R Ha. pose proof (Last_refines _ _ R) as HL. pose proof (len_nonneg texts).
  unfold appendLinesNoUndo. rewrite Append_spec by lia.
  set (b := mkBuffer _ _ _).
  pose proof (refine_splice a e b (after + 1) after texts (after + len texts) (changeSeq e) R) as R'.
  replace (after + 1 - 1) with after in R' by lia.
  rewrite marks_delete_none, targets_delete_none in R' by lia.
  eexists. split; [reflexivity|].
  assert (E : adjustGlobalInsert (set_marks (set_buf e b) (marks_insert after (len texts) (marks (set_buf e b))))
                after (len texts) =
              mkEngine b (marks_insert after (len texts) (marks e)) (undoBuffer e) (undoMarks e) (undoValid e)
                (inGlobal e) (shift_insert after (len texts) <$> globalTargets e) (changeSeq e)).
  { unfold adjustGlobalInsert. destruct (Z.eqb_spec (len texts) 0) as [E|]; [|done].
    unfold set_marks, set_buf; cbn [Buf marks undoBuffer undoMarks undoValid inGlobal globalTargets changeSeq].
    rewrite E, targets_insert_0. done. }
  rewrite E. split; [|done]. apply R'; try lia; done.
Qed.

Lemma deleteLinesNoUndo_refines a e first last :
  refines a e -> 1 <= first -> first <= last -> last <= len (vlines (now a)) ->
  exists e', deleteLinesNoUndo e first last = (e', None) /\
    refines (replace_lines a first last [] (Z.min first (len (vlines (now a)) - (last - first + 1)))) e' /\
    marks e' = marks_delete first last (marks e).
Proof.
  intros R H1 H2 H3. pose proof (Last_refines _ _ R) as HL.
  unfold deleteLinesNoUndo. rewrite Delete_spec by lia.
  set (b := mkBuffer _ _ _).
  pose proof (refine_splice a e b first last [] (Z.min first (len (vlines (now a)) - (last - first + 1)))
                (changeSeq e) R) as R'.
  change (len ([] : list (list Z))) with 0 in R'. rewrite marks_insert_0, targets_insert_0 in R'.
  eexists. split; [reflexivity|]. split; [|done].
  unfold adjustGlobalDelete, set_targets, set_marks, set_buf; cbn [Buf marks undoBuffer undoMarks undoValid
    inGlobal globalTargets changeSeq].
  apply R'; try lia; [done|]. subst b. cbn [Current]. by rewrite HL.
Qed.

Lemma replace_replace a first last texts c c' :
  1 <= first -> first - 1 <= last -> last <= len (vlines (now a)) ->
  replace_lines (replace_lines a first last [] c) (first - 1 + 1) (first - 1) texts c' =
    replace_lines a first last texts c'.
Proof.
  intros. unfold replace_lines; cbn [now before targets global next vlines vmarks].
  change (len ([] : list (list Z))) with 0. rewrite !Z.add_0_r.
  replace (first - 1 + 1) with first by lia.
  change (fresh (next a) []) with ([] : list (Z * list Z)). by rewrite splice_splice by lia.
Qed.

(** A deletion followed by an insertion in its place. *)
Lemma replace_refines a e first last texts :
  refines a e -> 1 <= first -> first <= last -> last <= len (vlines (now a)) ->
  exists e' e'', deleteLinesNoUndo e first last = (e', None) /\
    appendLinesNoUndo e' (first - 1) texts = (e'', None) /\
    refines (replace_lines a first last texts (first - 1 + len texts)) e'' /\
    marks e'' = marks_insert (first - 1) (len texts) (marks_delete first last (marks e)).
Proof.
  intros R H1 H2 H3.
  destruct (deleteLinesNoUndo_refines a e first last R H1 H2 H3) as (e' & E & R' & M).
  destruct (appendLinesNoUndo_refines _ _ (first - 1) texts R') as (e'' & E' & R'' & M').
  { cbn [now replace_lines vlines]. rewrite len_splice, len_fresh by lia. change (len ([] : list (list Z))) with 0. lia. }
  exists e', e''. split_and!; [done|done| |by rewrite M', M].
  rewrite replace_replace in R'' by lia. done.
Qed.

Lemma in_range_cond n x : 0 <= x <= n -> (x <? 0) || (n <? x) = false.
Proof. intros. destruct (Z.ltb_spec x 0), (Z.ltb_spec n x); cbn; (done || lia). Qed.

Lemma refine_bump a e : refines a e -> refines a (bump e).
Proof. apply refine_seq. Qed.

Lemma appendLines_eq e after x texts :
  0 <= after <= Last (Buf e) ->
  appendLines e after (x :: texts) = (bump (appendLinesNoUndo (saveUndo e) after (x :: texts)).1, None).
Proof.
  intros H. unfold appendLines, appendLinesNoUndo. destruct (saveUndo_same e) as (EB & _).
  rewrite in_range_cond by lia.
  assert (Hl : 0 < len (x :: texts)) by (rewrite len_cons; pose proof (len_nonneg texts); lia).
  rewrite (proj2 (Z.ltb_lt _ _)) by done. rewrite EB, Append_spec by lia. cbn [fst].
  unfold adjustGlobalInsert. destruct (Z.eqb_spec (len (x :: texts)) 0); [lia|]. done.
Qed.

Lemma append_refines a e after texts :
  refines a e -> 0 <= after <= len (vlines (now a)) ->
  exists e', appendLines e after texts = (e', None) /\ refines (append_spec a after texts) e'.
Proof.
  intros R H. pose proof (Last_refines _ _ R) as HL. destruct texts as [|x texts].
  - unfold appendLines. rewrite in_range_cond by lia.
    change (0 <? len []) with false. cbn match. rewrite Append_spec by lia. eexists. split; [reflexivity|].
    destruct R as [(RL & RC & RM) (O1 & O2 & O3 & O4) Rb Rt Rn Rg Rl]. cbn.
    constructor; cbn; try done. change (len []) with 0.
    change (view_rel (mkView (vlines (now a)) after (vmarks (now a)))
      (mkBuffer (ztake after (Lines (Buf e)) ++ zdrop after (Lines (Buf e))) (after + 0) (Dirty (Buf e) || false))
      (marks_insert after 0 (marks e))). rewrite marks_insert_0.
    split_and!; cbn; [|lia|done]. unfold ztake, zdrop. by rewrite take_drop.
  - rewrite appendLines_eq by lia. eexists. split; [done|].
    destruct (appendLinesNoUndo_refines _ _ after (x :: texts) (refine_remember _ _ R)) as (e' & -> & R' & _).
    { destruct (remember_same a) as (-> & _). done. }
    by apply refine_bump.
Qed.

Lemma change_refines a e first last texts :
  refines a e -> 1 <= first -> first <= last -> last <= Z.max 1 (len (vlines (now a))) ->
  exists e', changeLines e first last texts = (e', None) /\ refines (change_spec a first last texts) e'.
Proof.
  intros R H1 H2 H3. pose proof (refine_remember _ _ R) as R'. pose proof (Last_refines _ _ R') as HL.
  destruct (remember_same a) as (EN & _). unfold changeLines, change_spec. rewrite HL, EN.
  destruct (Z.eqb_spec (len (vlines (now a))) 0) as [E0|E0].
  - assert (first = 1) as -> by lia. assert (last = 1) as -> by lia. cbn [andb orb Z.eqb Pos.eqb].
    destruct (appendLinesNoUndo_refines _ _ 0 texts R') as (e' & -> & R'' & _).
    { rewrite EN. lia. }
    eexists. split; [done|].
    assert (EE : replace_lines (remember a) (0 + 1) 0 texts (0 + len texts) =
              replace_lines (remember a) 1 1 texts
                match texts with [] => Z.min 1 (len (splice (vlines (now a)) 1 1 [])) | _ => 1 - 1 + len texts end).
    { unfold replace_lines. rewrite EN. destruct (vlines (now a)); [|done].
      by destruct texts. }
    rewrite <- EE. destruct (0 <? len texts); [by apply refine_bump|done].
  - pose proof (len_nonneg (vlines (now a))). cbn [andb].
    assert (H3' : last <= len (vlines (now (remember a)))) by (rewrite EN; lia).
    destruct texts as [|x texts].
    + destruct (deleteLinesNoUndo_refines _ _ first last R' H1 H2 H3') as (e' & -> & R'' & _).
      eexists. split; [done|]. rewrite len_splice by lia. change (len []) with 0. rewrite Z.add_0_r.
      rewrite EN in R''. by apply refine_bump.
    + destruct (replace_refines _ _ first last (x :: texts) R' H1 H2 H3') as (e' & e'' & -> & -> & R'' & _).
      eexists. split; [done|]. by apply refine_bump.
Qed.

Lemma delete_refines a e first last :
  refines a e -> 1 <= first -> first <= last -> last <= len (vlines (now a)) ->
  exists e', deleteLines e first last = (e', None) /\ refines (change_spec a first last []) e'.
Proof.
  intros R H1 H2 H3. pose proof (refine_remember _ _ R) as R'. destruct (remember_same a) as (EN & _).
  destruct (deleteLinesNoUndo_refines _ _ first last R' H1 H2) as (e' & E & R'' & _); [by rewrite EN|].
  exists (bump e'). split.
  2: { unfold change_spec. rewrite len_splice by lia. change (len []) with 0. rewrite Z.add_0_r.
       rewrite EN in R''. by apply refine_bump. }
  unfold deleteLines. unfold deleteLinesNoUndo in E.
  destruct (Delete _ _ _) as [b [err|]]; [done|]. injection E as <-. done.
Qed.

Lemma mark_refines a e k n :
  refines a e -> 1 <= n <= len (vlines (now a)) -> refines (mark_spec a k n) (set_mark e k n).
Proof.
  intros [(RL & RC & RM) (O1 & O2 & O3 & O4) Rb Rt Rn Rg Rl] Hn.
  destruct (lookup_lt_is_Some_2 (ids (vlines (now a))) (Z.to_nat (n - 1))) as [i Hi].
  { unfold ids. rewrite length_fmap. unfold len in Hn. lia. }
  constructor; cbn; try done.
  - split_and!; cbn; [done..|]. intros k'. rewrite Hi. cbn. destruct (decide (k = k')) as [->|].
    + rewrite !lookup_insert_eq. cbn. symmetry. apply pos_lookup; [done|lia|done].
    + rewrite !lookup_insert_ne by done. apply RM.
  - split_and!; cbn; [done..| |lia|lia]. intros k' j. rewrite Hi. cbn.
    destruct (decide (k = k')) as [->|]; [|rewrite lookup_insert_ne by done; eauto].
    rewrite lookup_insert_eq. intros [= <-]. rewrite Forall_forall in O2. apply O2.
    by eapply list_elem_of_lookup_2.
Qed.

Lemma agrees_ok e e' a' : refines a' e' -> agrees e (e', None) (a', None).
Proof. intros. unfold agrees. by split_and!. Qed.

Lemma agrees_fail e a err : refines a e -> agrees e (e, Some err) (a, Some err).
Proof. intros. unfold agrees. by split_and!. Qed.

Lemma undo_refines a e :
  refines a e ->
  agrees e (undo e) (undo_spec a).
Proof.
  intros [Rv Rok Rb Rt Rn Rg Rl]. unfold undo, undo_spec. destruct (before a) as [v|] eqn:Eb.
  - destruct Rb as (Hv & (BL & BC & BM) & Bok). rewrite Hv. apply agrees_ok.
    constructor; cbn [now before targets global next Buf marks undoBuffer undoMarks undoValid inGlobal
      globalTargets]; try done.
    + destruct (sameLines _ _); done.
    + rewrite Rg. destruct (global a) eqn:Eg; [|by rewrite Rt, Rl].
      rewrite Rt, <- !list_fmap_compose. done.
    + destruct (global a); [|done]. by apply Forall_fmap, Forall_true.
    + intros Hg. rewrite Hg. auto.
  - rewrite Rb. apply agrees_fail. constructor; try done. by rewrite Eb.
Qed.

(** ** Join, copy and move *)

Lemma range_lines_refines a e first last :
  refines a e -> 1 <= first -> first - 1 <= last -> last <= len (vlines (now a)) ->
  range_lines (Buf e) first last = Some (snd <$> sub (first - 1) last (vlines (now a))).
Proof.
  intros R H1 H2 H3. pose proof (Last_refines _ _ R) as HL. unfold range_lines.
  rewrite slice_Ret; [|lia..|unfold Last in HL; lia]. destruct R as [(-> & _) _].
  unfold sub. by rewrite fmap_take, fmap_drop.
Qed.

Lemma on_range_iff first last n : on_range first last n = true <-> first <= n <= last.
Proof. unfold on_range. rewrite andb_true_iff, !Z.leb_le. done. Qed.

(** The marks on the lines [first] to [last], remapped by [f], over the rest. *)
Lemma lookup_remapped (f : Z -> Z) first last (m m' : gmap Z Z) k :
  ((f <$> filter (fun kn => on_range first last kn.2 = true) m) ∪ m') !! k =
  match m !! k with
  | Some n => if on_range first last n then Some (f n) else m' !! k
  | None => m' !! k
  end.
Proof.
  rewrite lookup_union, lookup_fmap, map_lookup_filter. destruct (m !! k) as [n|] eqn:E; cbn.
  - destruct (on_range first last n) eqn:O; cbn.
    + by destruct (m' !! k).
    + by destruct (m' !! k).
  - by destruct (m' !! k).
Qed.

Lemma mem_sub l first last i :
  NoDup (ids l) -> 1 <= first -> first - 1 <= last -> last <= len l ->
  i ∈ ids (sub (first - 1) last l) <-> exists n, pos l i = Some n /\ first <= n <= last.
Proof.
  intros Hnd H1 H2 H3. destruct (decide (i ∈ ids (sub (first - 1) last l))) as [Hi|Hi].
  - split; [|done]. intros _. destruct (pos (sub (first - 1) last l) i) as [m|] eqn:E.
    + rewrite pos_mem in E by done. destruct (pos l i) as [n|]; [cbn in E|done].
      destruct (on_range first last n) eqn:O; [|done]. exists n. by apply on_range_iff in O.
    + by apply pos_None in E.
  - split; [done|]. intros (n & En & Hn). apply pos_None in Hi. rewrite pos_mem in Hi by done.
    rewrite En in Hi. cbn in Hi. by rewrite (proj2 (on_range_iff _ _ _) Hn) in Hi.
Qed.

Lemma join_refines a e first last :
  refines a e -> 1 <= first -> first <= last -> last <= len (vlines (now a)) ->
  exists e', join e first last = (e', None) /\ refines (join_spec a first last) e'.
Proof.
  intros R H1 H2 H3. pose proof (Last_refines _ _ R) as HL. unfold join, join_spec.
  rewrite HL, (proj2 (Z.ltb_ge first 1)), (proj2 (Z.ltb_ge last first)), (proj2 (Z.ltb_ge _ last)) by lia. cbn [orb].
  destruct (Z.eqb_spec first last); [by exists e|].
  pose proof (refine_remember _ _ R) as R'. destruct (remember_same a) as (EN & EX & _).
  destruct (saveUndo_same e) as (_ & EM & _).
  rewrite (range_lines_refines _ _ first last R') by (rewrite ?EN; lia). rewrite EN.
  set (joined := sub (first - 1) last (vlines (now a))). set (txt := concat (snd <$> joined)).
  destruct (replace_refines _ _ first last [txt] R' H1 H2) as (e' & e'' & -> & -> & R'' & M'); [by rewrite EN|].
  eexists. split; [done|]. apply refine_bump. rewrite EM in M' |- *.
  replace (first - 1 + len [txt]) with first in R'' by (unfold len; cbn; lia).
  pose proof R as [(_ & _ & RM) (Hnd & Hlt & Hmk & _) _ _ _ _ _].
  destruct R'' as [(RL & RC & RM'') (O1 & O2 & O3 & O4) Rb Rt Rn Rg Rl].
  constructor; cbn [now with_now before targets global next set_marks Buf marks undoBuffer undoMarks undoValid
    inGlobal globalTargets vlines replace_lines] in *; try done; rewrite ?EN, ?EX in *.
  - split_and!; [done|done|]. cbn [vlines vmarks] in *. intros k. rewrite lookup_remapped, lookup_fmap, RM, RM''.
    destruct (vmarks (now a) !! k) as [i|] eqn:Ek; [cbn|done].
    pose proof (mem_sub (vlines (now a)) first last i Hnd H1 ltac:(lia) H3) as Hmem.
    fold joined in Hmem. destruct (bool_decide_reflect (i ∈ ids joined)) as [Hi|Hi].
    + apply Hmem in Hi as (n' & -> & Hn'). rewrite (proj2 (on_range_iff _ _ _) Hn').
      symmetry. apply pos_lookup; [done|lia|]. rewrite ids_splice.
      rewrite lookup_app_r; unfold ztake; rewrite length_take; unfold ids; rewrite length_fmap; unfold len in *; [|lia].
      by replace (_ - _)%nat with 0%nat by lia.
    + destruct (pos (vlines (now a)) i) as [n'|] eqn:En; [|done].
      destruct (on_range first last n') eqn:O; [|done]. apply on_range_iff in O. destruct Hi. apply Hmem. eauto.
  - split_and!; cbn [vlines vmarks vcur] in *; [done..| |lia|lia]. intros k i. rewrite lookup_fmap.
    change (len [txt]) with 1.
    destruct (vmarks (now a) !! k) as [j|] eqn:Ej; [cbn|done]. intros [= <-].
    specialize (Hmk _ _ Ej). case_bool_decide; lia.
Qed.

Lemma copy_refines a e first last dest :
  refines a e -> 1 <= first -> first <= last -> last <= len (vlines (now a)) ->
  agrees e (copy e first last dest) (copy_spec a first last dest).
Proof.
  intros R H1 H2 H3. pose proof (Last_refines _ _ R) as HL. unfold copy, copy_spec. rewrite HL.
  destruct ((dest <? 0) || (len (vlines (now a)) <? dest)) eqn:E; [by apply agrees_fail|].
  rewrite (range_lines_refines _ _ first last R) by lia.
  apply orb_false_iff in E as [E1%Z.ltb_ge E2%Z.ltb_ge].
  destruct (append_refines a e dest (snd <$> sub (first - 1) last (vlines (now a))) R) as (e' & -> & R'); [lia|].
  by apply agrees_ok.
Qed.

(** The lines after a move. *)
Definition moved_lines (l : list (Z * list Z)) (first last dest : Z) : list (Z * list Z) :=
  splice (splice l first last []) (dest + 1) dest (sub (first - 1) last l).

Section Move.
Context (l : list (Z * list Z)) (first last dest : Z).
Hypothesis Hnd : NoDup (ids l).
Hypothesis Hf : 1 <= first.
Hypothesis Hl : first <= last.
Hypothesis Hlast : last <= len l.
Hypothesis Hdest : 0 <= dest <= len l - (last - first + 1).

Local Abbreviation moved := (sub (first - 1) last l).
Local Abbreviation rest := (splice l first last []).

Lemma moved_perm : moved_lines l first last dest ≡ₚ l.
Proof using Hf Hl Hlast.
  unfold moved_lines, splice at 1. replace (dest + 1 - 1) with dest by lia.
  rewrite Permutation_app_swap_app. unfold ztake at 1, zdrop at 1. rewrite take_drop.
  rewrite (split3 l first last) at 3 by lia. rewrite Permutation_app_swap_app. done.
Qed.

Lemma rest_moved i : i ∈ ids rest -> i ∉ ids moved.
Proof using Hnd Hf Hl Hlast.
  intros Hr. pose proof Hnd as Hnd'. rewrite (split3 l first last) in Hnd' by lia.
  unfold ids in Hnd'. rewrite Permutation_app_swap_app, fmap_app in Hnd'.
  apply NoDup_app in Hnd' as (_ & Hd & _). intros Hm. apply (Hd i Hm). exact Hr.
Qed.

Lemma NoDup_rest : NoDup (ids rest).
Proof using Hnd Hf Hl Hlast.
  rewrite ids_splice. cbn. apply NoDup_ends; [lia|done].
Qed.

(** A moved line keeps its place among the moved lines, the others are
    renumbered as by a deletion and an insertion. *)
Lemma pos_moved i :
  pos (moved_lines l first last dest) i =
    pos l i ≫= fun n =>
      if on_range first last n then Some (dest + 1 + (n - first))
      else shift_insert dest (len moved) <$> delete_pos first last n.
Proof using All.
  assert (Hlen : len rest = len l - (last - first + 1)).
  { rewrite len_splice by lia. change (len []) with 0. lia. }
  pose proof (pos_mem l first last i Hnd Hf ltac:(lia) Hlast) as Hmem.
  destruct (decide (i ∈ ids moved)) as [Hi|Hi].
  - destruct (proj1 (mem_sub l first last i Hnd Hf ltac:(lia) Hlast) Hi) as (n & En & Hn).
    rewrite En in Hmem |- *. cbn in Hmem |- *. rewrite (proj2 (on_range_iff _ _ _) Hn) in Hmem |- *.
    unfold moved_lines, splice at 1. rewrite pos_app. rewrite (proj2 (pos_None _ _)).
    2: { intros Hc. apply (rest_moved i); [|done]. unfold ids in Hc. rewrite fmap_ztake in Hc.
         by apply elem_of_ztake in Hc. }
    rewrite pos_app, Hmem. cbn. rewrite len_ztake by lia. f_equal. lia.
  - unfold moved_lines. rewrite pos_splice; [|apply NoDup_rest|lia|lia|lia|done].
    rewrite pos_splice by (done || lia || (cbn; set_solver)). change (len []) with 0.
    replace (dest + 1 - 1) with dest by lia. destruct (pos l i) as [n|] eqn:En; [cbn|done].
    destruct (on_range first last n) eqn:O.
    { destruct Hi. apply mem_sub; [done|lia..|]. exists n. by apply on_range_iff in O. }
    destruct (delete_pos first last n) as [m|]; cbn; [|done]. by rewrite shift_insert_0, delete_pos_none.
Qed.

End Move.

Lemma move_targets a first last dest n texts :
  view_ok n (now a) -> 1 <= first -> first <= last -> last <= len (vlines (now a)) ->
  0 <= dest <= len (vlines (now a)) - (last - first + 1) ->
  len texts = len (sub (first - 1) last (vlines (now a))) ->
  Forall (fun t => forall i, t = Some i -> i < n) (targets a) ->
  target_rel (splice (splice (vlines (now a)) first last []) (dest + 1) dest (fresh n texts)) <$> targets a =
  target_rel (moved_lines (vlines (now a)) first last dest) <$>
    ((fun t => t ≫= fun i =>
       if bool_decide (i ∈ ids (sub (first - 1) last (vlines (now a)))) then None else Some i) <$> targets a).
Proof.
  intros (Hnd & _) H1 H2 H3 Hd Hlen Ht. rewrite <- list_fmap_compose. apply list_fmap_ext. intros j t Hj. cbn.
  destruct t as [i|]; [|done]. unfold target_rel; cbn.
  pose proof (mem_sub (vlines (now a)) first last i Hnd H1 ltac:(lia) H3) as Hmem.
  assert (Hr : len (splice (vlines (now a)) first last []) = len (vlines (now a)) - (last - first + 1)).
  { rewrite len_splice by lia. change (len []) with 0. lia. }
  rewrite pos_splice; [|apply NoDup_rest; done || lia|lia..|].
  2: { apply not_fresh. by eapply (Forall_lookup_1 _ _ _ _ Ht Hj). }
  rewrite pos_splice by (done || lia || (cbn; set_solver)). change (len []) with 0.
  replace (dest + 1 - 1) with dest by lia. rewrite len_fresh, Hlen.
  destruct (bool_decide_reflect (i ∈ ids (sub (first - 1) last (vlines (now a))))) as [Hi|Hi]; cbn.
  - apply Hmem in Hi as (m & -> & Hm). cbn. by rewrite delete_pos_in.
  - rewrite pos_moved by (done || lia). destruct (pos (vlines (now a)) i) as [m|] eqn:Em; [cbn|done].
    destruct (on_range first last m) eqn:O; [destruct Hi; apply Hmem; exists m; by apply on_range_iff in O|].
    destruct (delete_pos first last m); cbn; [|done]. by rewrite shift_insert_0, delete_pos_none.
Qed.

Lemma move_marks l first last d (m m' vm : gmap Z Z) k :
  NoDup (ids l) -> 1 <= first -> first <= last -> last <= len l -> 0 <= d <= len l - (last - first + 1) ->
  (forall k, m !! k = vm !! k ≫= pos l) ->
  m' = marks_insert d (len (sub (first - 1) last l)) (marks_delete first last m) ->
  (((fun off => d + 1 + off) <$> ((fun n => n - first) <$>
     filter (fun kn => on_range first last kn.2 = true) m)) ∪ m') !! k =
  vm !! k ≫= pos (moved_lines l first last d).
Proof.
  intros Hnd H1 H2 H3 Hd RM ->. rewrite <- map_fmap_compose, lookup_remapped, RM.
  unfold marks_insert, marks_delete. rewrite lookup_fmap, lookup_omap, RM.
  destruct (vm !! k) as [i|]; cbn; [|done]. rewrite pos_moved by (done || lia).
  destruct (pos l i) as [n|]; [|done]. cbn.
  destruct (on_range first last n); [done|]. done.
Qed.

(** The editor after a move that really moves. *)
Definition moved_editor (a : editor) (first last dest : Z) : editor :=
  let v := now a in
  mkEditor (mkView (moved_lines (vlines v) first last dest) (dest + (last - first + 1)) (vmarks v))
    (before a)
    ((fun t => t ≫= fun i =>
        if bool_decide (i ∈ ids (sub (first - 1) last (vlines v))) then None else Some i) <$> targets a)
    (global a) (next a).

Lemma move_steps a e first last d :
  refines a e -> 1 <= first -> first <= last -> last <= len (vlines (now a)) ->
  0 <= d <= len (vlines (now a)) - (last - first + 1) ->
  exists e1 e2, deleteLinesNoUndo e first last = (e1, None) /\
    appendLinesNoUndo e1 d (snd <$> sub (first - 1) last (vlines (now a))) = (e2, None) /\
    refines (moved_editor a first last d)
      (set_marks e2 (((fun off => d + 1 + off) <$> ((fun n => n - first) <$>
         filter (fun kn => on_range first last kn.2 = true) (marks e))) ∪ marks e2)).
Proof.
  intros R H1 H2 H3 Hd. pose proof R as [(_ & _ & RM) ROK RB _ RN _ RL0].
  pose proof ROK as (Hnd & Hids & Hmk & _).
  destruct (deleteLinesNoUndo_refines _ _ first last R H1 H2 H3) as (e1 & E1 & R1 & M1).
  set (texts := snd <$> sub (first - 1) last (vlines (now a))).
  assert (Hlt : len texts = len (sub (first - 1) last (vlines (now a)))) by apply len_fmap.
  assert (Hls : len (sub (first - 1) last (vlines (now a))) = last - first + 1) by (rewrite len_sub; lia).
  destruct (appendLinesNoUndo_refines _ _ d texts R1) as (e2 & E2 & R2 & M2).
  { cbn [now replace_lines vlines]. rewrite len_splice, len_fresh by lia. change (len ([] : list (list Z))) with 0. lia. }
  exists e1, e2. split_and!; [done..|]. rewrite M1 in M2.
  destruct R2 as [(RL & RC & RM2) _ Rb Rt Rn Rg Rl].
  unfold replace_lines in *. cbn [now before targets global next vlines vcur vmarks] in *.
  change (fresh (next a) []) with ([] : list (Z * list Z)) in *.
  change (len ([] : list (list Z))) with 0 in *. rewrite ?Z.add_0_r in *.
  pose proof (moved_perm (vlines (now a)) first last d H1 H2 H3) as HP.
  constructor; cbn [moved_editor now before targets global next set_marks Buf marks undoBuffer undoMarks undoValid
    inGlobal globalTargets vlines vcur vmarks]; try done.
  - split_and!; cbn [vlines vcur vmarks]; [|by rewrite RC, Hlt, Hls|].
    + rewrite RL, fmap_splice, fresh_texts. unfold moved_lines. by rewrite (fmap_splice _ _ _ (sub _ _ _)).
    + intros k. apply move_marks; try done. by rewrite M2, Hlt.
  - split_and!; cbn [vlines vcur vmarks]; [| |done|lia|].
    + unfold ids. by rewrite HP.
    + unfold ids. by rewrite HP.
    + unfold len. rewrite HP. unfold len in *. lia.
  - destruct (before a); [|done]. destruct Rb as (? & ? & _), RB as (_ & _ & ?). done.
  - rewrite Rt. by apply move_targets.
  - apply Forall_fmap. eapply Forall_impl; [exact RN|]. intros [j|] Ht i; cbn; [|done].
    case_bool_decide; [done|]. apply Ht.
  - intros Hg. by rewrite RL0.
Qed.

Lemma move_refines a e first last dest :
  refines a e -> 1 <= first -> first <= last -> last <= len (vlines (now a)) ->
  agrees e (move e first last dest) (move_spec a first last dest).
Proof.
  intros R H1 H2 H3. pose proof (Last_refines _ _ R) as HL. unfold move, move_spec. rewrite HL.
  destruct ((dest <? 0) || (len (vlines (now a)) <? dest)) eqn:E; [by apply agrees_fail|].
  apply orb_false_iff in E as [E1%Z.ltb_ge E2%Z.ltb_ge].
  destruct ((dest =? last) || (dest =? first - 1)) eqn:E3.
  { apply agrees_ok. destruct R as [(RL & RC & RM) (O1 & O2 & O3 & O4) Rb Rt Rn Rg Rl].
    constructor; cbn; try done. split_and!; cbn; (done || lia). }
  destruct ((first <=? dest) && (dest <? last)) eqn:E4; [by apply agrees_fail|].
  pose proof (refine_remember _ _ R) as R'. destruct (remember_same a) as (EN & EX & ET & EG).
  rewrite (range_lines_refines _ _ first last R') by (rewrite ?EN; lia).
  destruct (move_steps _ _ first last (if last <? dest then dest - (last - first + 1) else dest) R' H1 H2)
    as (e1 & e2 & -> & -> & R2).
  { rewrite EN. lia. }
  { rewrite EN. apply orb_false_iff in E3 as [E3%Z.eqb_neq E3'%Z.eqb_neq].
    apply andb_false_iff in E4 as [E4%Z.leb_gt|E4%Z.ltb_ge]; destruct (Z.ltb_spec last dest); lia. }
  apply agrees_ok, refine_bump. unfold moved_editor in R2. by rewrite EN in R2.
Qed.

(** ** The commands *)

Lemma oneAddress_range last addrs explicit def zero n :
  oneAddress last addrs explicit def zero = inr n -> 0 <= n <= last /\ (zero = false -> 1 <= n).
Proof.
  unfold oneAddress. set (a := if explicit then _ else _).
  destruct ((a <? 0) || (last <? a) || (negb zero && (a =? 0))) eqn:E; [done|]. intros [= <-].
  apply orb_false_iff in E as [[E1%Z.ltb_ge E2%Z.ltb_ge]%orb_false_iff E3]. split; [lia|].
  intros ->. cbn in E3. apply Z.eqb_neq in E3. lia.
Qed.

Lemma twoAddresses_range lastLine addrs explicit d1 d2 zero f l :
  twoAddresses lastLine addrs explicit d1 d2 zero = inr (f, l) ->
  0 <= f <= l /\ l <= lastLine /\ (zero = false -> 1 <= f).
Proof.
  unfold twoAddresses. destruct (if explicit then _ else _) as [f' l'].
  destruct ((l' <? f') || (f' <? 0) || (lastLine <? l') || (negb zero && (f' =? 0))) eqn:E; [done|]. intros [= <- <-].
  apply orb_false_iff in E as [[[E1%Z.ltb_ge E2%Z.ltb_ge]%orb_false_iff E3%Z.ltb_ge]%orb_false_iff E4].
  split_and!; [lia..|]. intros ->. cbn in E4. apply Z.eqb_neq in E4. lia.
Qed.

Lemma refine_cur a e n :
  refines a e -> 0 <= n <= len (vlines (now a)) ->
  refines (with_cur a n) (set_buf e (mkBuffer (Lines (Buf e)) n (Dirty (Buf e)))).
Proof.
  intros [(RL & RC & RM) (O1 & O2 & O3 & O4) Rb Rt Rn Rg Rl] Hn.
  constructor; cbn; try done; by split_and!.
Qed.

Lemma insert_refines a e n text :
  refines a e -> 0 <= n <= len (vlines (now a)) ->
  agrees e
    (let m := if n =? 0 then 1 else n in
     let '(e, err) := appendLines e (m - 1) text in
     match err, text with
     | None, [] =>
         let m := if Last (Buf e) <? m then Last (Buf e) else m in
         (set_buf e (mkBuffer (Lines (Buf e)) m (Dirty (Buf e))), None)
     | _, _ => (e, None)
     end)
    (match text with
     | [] => with_cur a (Z.min (Z.max 1 n) (len (vlines (now a))))
     | _ => append_spec a (Z.max 1 n - 1) text
     end, None).
Proof.
  intros R Hn. cbv zeta. replace (if n =? 0 then 1 else n) with (Z.max 1 n) by (destruct (Z.eqb_spec n 0); lia).
  pose proof (len_nonneg (vlines (now a))).
  destruct (append_refines a e (Z.max 1 n - 1) text R) as (e' & -> & R'); [lia|].
  destruct text as [|x text]; [|by apply agrees_ok]. apply agrees_ok. pose proof (Last_refines _ _ R') as HL.
  rewrite HL. cbn [append_spec with_cur with_now now vlines] in *.
  replace (if _ <? _ then _ else _) with (Z.min (Z.max 1 n) (len (vlines (now a))))
    by (destruct (Z.ltb_spec (len (vlines (now a))) (Z.max 1 n)); lia).
  apply (refine_cur _ _ _ R'). cbn. lia.
Qed.

Lemma case_refines a e addrs explicit cmd :
  refines a e -> agrees e (execute_case e addrs explicit cmd) (case_spec a addrs explicit cmd).
Proof.
  intros R. pose proof (Last_refines _ _ R) as HL. pose proof R as [(_ & HC & _) _ _ _ _ _ _].
  unfold execute_case, case_spec. rewrite HL, HC.
  destruct cmd as [text|text|text| | |k|dest|dest|].
  9: { destruct explicit; [by apply agrees_fail|by apply undo_refines]. }
  all: match goal with
       | |- context [oneAddress ?l ?a ?x ?d ?z] =>
           destruct (oneAddress l a x d z) as [err|n] eqn:E; [by apply agrees_fail|];
           apply oneAddress_range in E as [Hn Hz]
       | |- context [twoAddresses ?l ?a ?x ?d ?d' ?z] =>
           destruct (twoAddresses l a x d d' z) as [err|[f l']] eqn:E; [by apply agrees_fail|];
           apply twoAddresses_range in E as (Hf & Hl & Hz)
       end; try specialize (Hz eq_refl).
  - destruct (append_refines a e n text R Hn) as (e' & -> & R'). by apply agrees_ok.
  - by apply insert_refines.
  - replace (if f =? 0 then 1 else f) with (Z.max 1 f) by (destruct (Z.eqb_spec f 0); lia).
    replace (if l' =? 0 then 1 else l') with (Z.max 1 l') by (destruct (Z.eqb_spec l' 0); lia).
    destruct (change_refines a e (Z.max 1 f) (Z.max 1 l') text R) as (e' & -> & R'); [lia..|]. by apply agrees_ok.
  - destruct (delete_refines a e f l' R) as (e' & -> & R'); [lia..|]. by apply agrees_ok.
  - destruct (join_refines a e f l' R) as (e' & -> & R'); [lia..|]. by apply agrees_ok.
  - apply agrees_ok, mark_refines; [done|lia].
  - apply move_refines; (done || lia).
  - apply copy_refines; (done || lia).
Qed.

(** [C5] The editing commands refine the abstract editor. In the abstract
    editor every line has an identity, marks and global targets name
    identities, and nothing is renumbered: an insertion adds new identities, a
    deletion removes some, a move permutes them, a join makes one new line
    that inherits the marks, undo swaps two texts. Whatever the addresses, the
    engine fails exactly when the specification does, with the same error, and
    otherwise its lines, its current line, every mark, every target of a
    running global command and its undo state are those of the specification. *)
Theorem execute_refines a e orig addrs explicit cmd :
  refines a e -> 0 <= orig <= Last (Buf e) ->
  (execute e orig addrs explicit cmd).2 = (execute_spec a orig addrs explicit cmd).2 /\
  refines (execute_spec a orig addrs explicit cmd).1 (execute e orig addrs explicit cmd).1.
Proof.
  intros R Ho. destruct (case_refines a e addrs explicit cmd R) as (H1 & H2 & H3).
  unfold execute, execute_spec. destruct (execute_case _ _ _ _) as [e' [err|]], (case_spec _ _ _ _) as [a' [err'|]];
    cbn in *; try congruence; [|done].
  split; [done|]. rewrite H3 in * by done. rewrite Z.eqb_refl. apply refine_cur; [done|].
  by rewrite <- (Last_refines _ _ H2).
Qed.

(** A global command about to visit line 3 and then line 1 of three lines,
    with line 2 marked [a]. *)
Definition ex_lines : list (Z * list Z) := [(10, [97]); (11, [98]); (12, [99])].
Definition ex_engine : Engine :=
  mkEngine (mkBuffer [[97]; [98]; [99]] 2 false) {[97 := 2]} (mkBuffer [] 0 false) ∅ false true [3; 1] 0.
Definition ex_editor : editor :=
  mkEditor (mkView ex_lines 2 {[97 := 11]}) None [Some 12; Some 10] true 13.

Lemma ex_refines : refines ex_editor ex_engine.
Proof.
  constructor; try done.
  - split_and!; try done. intros k. cbn. destruct (decide (k = 97)) as [->|]; [done|].
    by rewrite !lookup_singleton_ne.
  - split_and!; cbn; [| |intros k i [_ <-]%lookup_singleton_Some; lia|done|done].
    + by apply (bool_decide_unpack _); vm_compute.
    + repeat constructor; lia.
  - repeat constructor; intros i [= <-]; cbn; lia.
Qed.

(** Moving line 2 to the top, line 3 is still to be visited, line 1 is now
    line 2, and the mark is on line 1. *)
Lemma execute_refines_witness :
  refines (execute_spec ex_editor 2 [2] true (Cm 0)).1 (execute ex_engine 2 [2] true (Cm 0)).1 /\
  globalTargets (execute ex_engine 2 [2] true (Cm 0)).1 = [3; 2] /\
  marks (execute ex_engine 2 [2] true (Cm 0)).1 !! 97 = Some 1.
Proof.
  split; [apply (execute_refines ex_editor ex_engine 2 [2] true (Cm 0) ex_refines);
    vm_compute; split; discriminate|].
  split; vm_compute; reflexivity.
Defined.

(** ** Undo *)

Lemma case_before a addrs explicit cmd a' :
  global a = false -> cmd <> Cu -> case_spec a addrs explicit cmd = (a', None) ->
  before a' = Some (now a) \/ vlines (now a') = vlines (now a).
Proof.
  intros Hg Hc. assert (Hr : before (remember a) = Some (now a)) by (unfold remember; by rewrite Hg).
  unfold case_spec. destruct cmd as [text|text|text| | |k|dest|dest|]; try done.
  all: match goal with
       | |- context [oneAddress ?l ?a ?x ?d ?z] => destruct (oneAddress l a x d z) as [err|n]; [done|]
       | |- context [twoAddresses ?l ?a ?x ?d ?d' ?z] => destruct (twoAddresses l a x d d' z) as [err|[f l']]; [done|]
       end.
  1-4: intros [= <-]; unfold append_spec; first [by left|destruct text; first [by right|by left]].
  - intros [= <-]. unfold join_spec. destruct (f =? l'); [by right|by left].
  - intros [= <-]. by right.
  - unfold move_spec. do 3 (case_match; [first [done|intros [= <-]; by right]|]). intros [= <-]. by left.
  - unfold copy_spec. case_match; [done|]. intros [= <-]. unfold append_spec.
    destruct (snd <$> _); [by right|by left].
Qed.

(** [C33] Undo takes back the last command: after a command that changed the
    text, outside a global command, [u] brings back the lines, the current
    line and every mark from before it, and a second [u] brings back those
    from after it. *)
Theorem undo_restores a e addrs explicit cmd :
  refines a e -> inGlobal e = false -> cmd <> Cu ->
  let e1 := (execute e (Current (Buf e)) addrs explicit cmd).1 in
  (execute e (Current (Buf e)) addrs explicit cmd).2 = None ->
  Lines (Buf e1) <> Lines (Buf e) ->
  let e2 := (execute e1 (Current (Buf e1)) [] false Cu).1 in
  let e3 := (execute e2 (Current (Buf e2)) [] false Cu).1 in
  (Lines (Buf e2) = Lines (Buf e) /\ Current (Buf e2) = Current (Buf e) /\ marks e2 = marks e) /\
  (Lines (Buf e3) = Lines (Buf e1) /\ Current (Buf e3) = Current (Buf e1) /\ marks e3 = marks e1).
Proof.
  intros R Hg Hc. cbv zeta. destruct (case_refines a e addrs explicit cmd R) as (H1 & H2 & _).
  destruct (execute e (Current (Buf e)) addrs explicit cmd) as [e1 o] eqn:EX. cbn [fst snd]. intros -> Hne.
  unfold execute in EX. destruct (execute_case e addrs explicit cmd) as [e1' [err|]] eqn:E; [done|].
  injection EX as ->. cbn [fst snd] in *.
  destruct (case_spec a addrs explicit cmd) as [a1 [err|]] eqn:E1; [done|]. cbn [fst snd] in *.
  assert (Hb : before a1 = Some (now a)).
  { destruct (case_before a addrs explicit cmd a1) as [|Hv]; [by destruct R as [_ _ _ _ _ <- _]|done|done|done|].
    destruct Hne. destruct H2 as [(-> & _) _ _ _ _ _ _], R as [(-> & _) _ _ _ _ _ _]. by rewrite Hv. }
  destruct H2 as [_ _ Rb _ _ _ _]. rewrite Hb in Rb. destruct Rb as (Hv & (BL & BC & BM) & _).
  destruct R as [(RL & RC & RM) _ _ _ _ _ _].
  unfold execute, execute_case, undo, Clone. rewrite Hv. cbn.
  split_and!.
  - destruct (sameLines _ _); cbn; congruence.
  - destruct (sameLines _ _); cbn; congruence.
  - apply map_eq. intros k. by rewrite BM, RM.
  - by destruct (sameLines (Lines (Buf e1)) _).
  - by destruct (sameLines (Lines (Buf e1)) _).
  - done.
Qed.

Lemma undo_restores_witness :
  let e := mkEngine (mkBuffer [[97]; [98]] 2 false) {[97 := 2]} (mkBuffer [] 0 false) ∅ false false [] 0 in
  let e1 := (execute e 2 [1] true Cd).1 in
  Lines (Buf e1) = [[98]] /\
  marks (execute e1 (Current (Buf e1)) [] false Cu).1 = {[97 := 2]}.
Proof.
  cbv zeta. split; [vm_compute; reflexivity|].
  refine (proj2 (proj2 (proj1 (undo_restores
    (mkEditor (mkView [(10, [97]); (11, [98])] 2 {[97 := 11]}) None [] false 12)
    (mkEngine (mkBuffer [[97]; [98]] 2 false) {[97 := 2]} (mkBuffer [] 0 false) ∅ false false [] 0)
    [1] true Cd _ eq_refl _ _ _)))); [|done|vm_compute; reflexivity|vm_compute; discriminate].
  constructor; try done.
  - split_and!; try done. intros k. cbn. destruct (decide (k = 97)) as [->|]; [done|].
    by rewrite !lookup_singleton_ne.
  - split_and!; cbn; [| |intros k i [_ <-]%lookup_singleton_Some; lia|done|done].
    + by apply (bool_decide_unpack _); vm_compute.
    + repeat constructor; lia.
Defined.

(** ** Searching *)

Section SearchCorrect.
Context (re : list Z -> option bool) (b : Buffer).

(** The lines in the order of a search: forward from the line after the
    current one to the current one, backward from the line before it. Line 0
    counts as the last line in a backward search. *)
Definition search_order (forward : bool) : list Z :=
  if Last b =? 0 then []
  else if forward then seqZ (Current b + 1) (Last b - Current b) ++ seqZ 1 (Current b)
  else
    let from := if Current b =? 0 then Last b else Current b in
    reverse (seqZ 1 (from - 1)) ++ reverse (seqZ from (Last b - from + 1)).

Fixpoint first_match (order : list Z) : error + Z :=
  match order with
  | [] => inl NoMatch
  | n :: order' =>
      match re (Lines b !!! Z.to_nat (n - 1)) with
      | None => inl MatchError
      | Some true => inr n
      | Some false => first_match order'
      end
  end.

(** The line looked at in a step. *)
Definition visited (forward : bool) (step : Z) : Z :=
  (if forward then Z.rem (Current b + step - 1) (Last b)
   else Z.rem (Current b - step - 1 + Last b * 2) (Last b)) + 1.

Lemma search_steps_visits forward fuel step :
  search_steps re fuel b forward step = first_match (visited forward <$> seqZ step (Z.of_nat fuel)).
Proof.
  revert step. induction fuel as [|fuel IH]; intros step; [done|].
  rewrite seqZ_cons by lia. cbn [search_steps fmap list_fmap first_match].
  replace (Z.to_nat (visited forward step - 1)) with
    (Z.to_nat (if forward then Z.rem (Current b + step - 1) (Last b)
               else Z.rem (Current b - step - 1 + Last b * 2) (Last b))) by (f_equal; unfold visited; lia).
  destruct (re _) as [[]|]; [done| |done]. rewrite IH. do 3 f_equal; lia.
Qed.

Lemma rem_add_small x k n : 0 <= x < n -> 0 <= k -> Z.rem (x + k * n) n = x.
Proof. intros. rewrite Z.rem_mod_nonneg by nia. rewrite Z.mod_add by lia. apply Z.mod_small. lia. Qed.

Lemma lookup_rev_seqZ m n i :
  0 <= i < n -> reverse (seqZ m n) !! Z.to_nat i = Some (m + n - 1 - i).
Proof.
  intros Hi. rewrite reverse_lookup by (rewrite length_seqZ; lia).
  rewrite length_seqZ. apply lookup_seqZ. lia.
Qed.

Lemma visited_order forward :
  0 <= Current b <= Last b -> 0 < Last b ->
  visited forward <$> seqZ 1 (Last b) = search_order forward.
Proof.
  intros Hc Hl. apply list_eq. intros i. rewrite list_lookup_fmap.
  destruct (decide (Z.of_nat i < Last b)) as [Hi|Hi].
  2: { rewrite (lookup_ge_None_2 (seqZ _ _)) by (rewrite length_seqZ; lia). symmetry. apply lookup_ge_None_2.
       unfold search_order. rewrite (proj2 (Z.eqb_neq (Last b) 0)) by lia.
       destruct forward; [rewrite length_app, !length_seqZ; lia|].
       destruct (Z.eqb_spec (Current b) 0); rewrite length_app, !length_reverse, !length_seqZ; lia. }
  rewrite (proj2 (lookup_seqZ 1 (Last b) i (1 + Z.of_nat i))) by lia. cbn. symmetry.
  unfold search_order, visited. rewrite (proj2 (Z.eqb_neq (Last b) 0)) by lia. destruct forward.
  - destruct (decide (Z.of_nat i < Last b - Current b)).
    + rewrite lookup_app_l by (rewrite length_seqZ; lia). rewrite Z.rem_small by lia. apply lookup_seqZ. lia.
    + rewrite lookup_app_r by (rewrite length_seqZ; lia). rewrite length_seqZ.
      replace (Current b + (1 + Z.of_nat i) - 1) with (Current b + Z.of_nat i - Last b + 1 * Last b) by lia.
      rewrite rem_add_small by lia. apply lookup_seqZ. lia.
  - set (from := if Current b =? 0 then Last b else Current b).
    assert (Hfrom : 1 <= from <= Last b /\
      exists k, 0 <= k /\ Current b - (1 + Z.of_nat i) - 1 + Last b * 2 = from - 2 - Z.of_nat i + Last b + k * Last b).
    { subst from. destruct (Z.eqb_spec (Current b) 0); (split; [lia|]); [exists 0|exists 1]; lia. }
    destruct Hfrom as (Hfrom & k & Hk & ->).
    destruct (decide (Z.of_nat i < from - 1)).
    + rewrite lookup_app_l by (rewrite length_reverse, length_seqZ; lia).
      rewrite <- (Nat2Z.id i) at 1. rewrite lookup_rev_seqZ by lia.
      replace (from - 2 - Z.of_nat i + Last b + k * Last b) with (from - 2 - Z.of_nat i + (k + 1) * Last b) by lia.
      rewrite rem_add_small by lia. f_equal. lia.
    + rewrite lookup_app_r by (rewrite length_reverse, length_seqZ; lia). rewrite length_reverse, length_seqZ.
      replace (i - Z.to_nat (from - 1))%nat with (Z.to_nat (Z.of_nat i - (from - 1))) by lia.
      rewrite lookup_rev_seqZ by lia. rewrite rem_add_small by lia. f_equal. lia.
Qed.

(** A search gives the first matching line in the direction of the
    search, from the line next to the current one around the buffer back to
    the current one, which is tried last; it fails when no line matches, and
    with the matcher's error when the matcher fails before a match. From line
    0 a backward search starts at the line before the last one. *)
Theorem search_first_match forward :
  0 <= Current b <= Last b -> search re b forward = first_match (search_order forward).
Proof.
  intros Hc. unfold search. destruct (Z.eqb_spec (Last b) 0) as [E|E].
  - unfold search_order. by rewrite (proj2 (Z.eqb_eq _ _) E).
  - rewrite search_steps_visits, Z2Nat.id by lia. by rewrite visited_order by lia.
Qed.

End SearchCorrect.

Lemma search_first_match_witness :
  search (fun l => Some (bool_decide (l = [120]))) (mkBuffer [[120]; [97]; [120]; [98]] 2 false) false = inr 1 /\
  search (fun l => Some (bool_decide (l = [98]))) (mkBuffer [[120]; [97]; [120]; [98]] 2 false) false = inr 4.
Proof.
  split; rewrite (search_first_match _ (mkBuffer [[120]; [97]; [120]; [98]] 2 false) false)
    by (vm_compute; split; discriminate); vm_compute; reflexivity.
Defined.

(** From line 0 the search backward finds line 1 although line 2, the last one
    and the next in that direction around the buffer, matches too. *)
Lemma search_backward_from_zero :
  search (fun _ => Some true) (mkBuffer [[97]; [98]] 0 false) false = inr 1.
Proof. reflexivity. Qed.

(** ** The text of a buffer *)

Lemma joinLines_app l k : joinLines (l ++ k) = joinLines l ++ joinLines k.
Proof. unfold joinLines. by rewrite fmap_app, concat_app. Qed.

Lemma split_joinLines ls x :
  Forall (fun l => 10 ∉ l) ls -> 10 ∉ x -> split_byte 10 (joinLines ls ++ x) = ls ++ [x].
Proof.
  intros Hls Hx. induction Hls as [|l ls Hl Hls IH]; [by apply split_byte_none|].
  change (joinLines (l :: ls)) with ((l ++ [10]) ++ joinLines ls). rewrite <- !app_assoc. cbn [app].
  rewrite split_byte_app by done. by rewrite IH.
Qed.

Lemma joinLines_split s : joinLines (split_byte 10 s) = s ++ [10].
Proof.
  induction s as [|c s IH]; [done|]. pose proof (split_nonempty s) as Hne. cbn [split_byte].
  destruct (Z.eqb_spec c 10) as [->|].
  - change (joinLines ([] :: split_byte 10 s)) with (10 :: joinLines (split_byte 10 s)). by rewrite IH.
  - destruct (split_byte 10 s) as [|p ps]; [done|].
    change (joinLines ((c :: p) :: ps)) with (c :: joinLines (p :: ps)). by rewrite IH.
Qed.

Lemma has_suffix_snoc c s : has_suffix_byte c s = true -> exists t, s = t ++ [c].
Proof.
  destruct s as [|x s _] using rev_ind; [done|]. unfold has_suffix_byte. rewrite rev_app_distr. cbn.
  intros ->%Z.eqb_eq. eauto.
Qed.

Lemma splitText_newline s :
  splitText (s ++ [10]) = match s with [] => [[]] | _ => split_byte 10 s end.
Proof.
  unfold splitText, has_suffix_byte. rewrite rev_app_distr, removelast_last. cbn [rev app Z.eqb].
  by destruct s.
Qed.

(** Writing a buffer and reading it back gives the same lines, and
    reading a text and writing it gives the text, with a newline added when
    its last line has none. *)
Theorem text_round_trip :
  (forall ls, Forall (fun l => 10 ∉ l) ls -> splitText (joinLines ls) = ls) /\
  (forall data, joinLines (splitText data) =
     if bool_decide (data = []) || has_suffix_byte 10 data then data else data ++ [10]).
Proof.
  split.
  - intros ls Hls. destruct ls as [|l ls _] using rev_ind; [done|].
    apply Forall_app in Hls as [Hls Hl]. apply Forall_cons in Hl as [Hl _].
    rewrite joinLines_app. unfold joinLines at 2. cbn [fmap list_fmap concat]. rewrite app_nil_r, app_assoc.
    rewrite splitText_newline. destruct (joinLines ls ++ l) as [|c s] eqn:E.
    + apply app_eq_nil in E as [E ->]. destruct ls as [|l' ls]; [done|].
      unfold joinLines in E. cbn in E. by destruct l'.
    + rewrite <- E. by apply split_joinLines.
  - intros data. destruct data as [|c data]; [done|]. cbn [orb bool_decide].
    destruct (has_suffix_byte 10 (c :: data)) eqn:E.
    + destruct (has_suffix_snoc _ _ E) as [s ->]. rewrite splitText_newline.
      rewrite orb_true_r. destruct s; [done|]. apply joinLines_split.
    + rewrite orb_false_r. rewrite bool_decide_eq_false_2 by done.
      unfold splitText. rewrite E. apply joinLines_split.
Qed.

End EdCorrect.
