(* ===== verification/EdGlobal.v ===== *)
(** * ed: global commands and whole sessions

    A global command visits the lines it selected, each at most once and with
    the text it had, however its command list edits the buffer; one undo takes
    it back; and the invariant of every session. *)

From Stdlib Require Import ZArith Lia.
From stdpp Require Import base tactics list numbers gmap strings.
From S2P Require Import Prelude EdBuffer EdCorrect.

Module EdGlobal.
Import Editor EdCorrect.

(** ** What a command does to identities *)

(** The lines of the text and of the text undo goes back to. *)
Definition entries (a : editor) (x : Z * list Z) : Prop :=
  x ∈ vlines (now a) \/ exists v, before a = Some v /\ x ∈ vlines v.

(** Lines of [a'] are lines of [a] or have identities new in [a]; a target is
    kept or given up. *)
Record evolves (a a' : editor) : Prop := mkEvolves {
  ev_next : next a <= next a';
  ev_lines : forall x, entries a' x -> entries a x \/ next a <= x.1;
  ev_targets : Forall2 (fun t t' => t' = t \/ t' = None) (targets a) (targets a');
  ev_global : global a' = global a
}.

Lemma targets_refl (l : list (option Z)) : Forall2 (fun t t' => t' = t \/ t' = None) l l.
Proof. apply Forall_Forall2_diag, Forall_true. by left. Qed.

Lemma evolves_refl a : evolves a a.
Proof. constructor; [lia|by left|apply targets_refl|done]. Qed.

Lemma evolves_trans a b c : evolves a b -> evolves b c -> evolves a c.
Proof.
  intros [H1 H2 H3 H4] [K1 K2 K3 K4]. constructor; [lia| | |congruence].
  - intros x Hx. destruct (K2 x Hx) as [Hx'|]; [|right; lia]. destruct (H2 x Hx'); [by left|right; lia].
  - clear - H3 K3. revert H3 K3. generalize (targets a) (targets b) (targets c).
    intros la lb lc H. revert lc. induction H as [|x y la lb Hxy _ IH]; intros lc Hc; inversion_clear Hc; constructor; [naive_solver|auto].
Qed.

Lemma elem_of_splice x l first last new : x ∈ splice l first last new -> x ∈ l \/ x ∈ new.
Proof.
  unfold splice. rewrite !elem_of_app. intros [H%elem_of_ztake|[H|H%elem_of_zdrop]]; auto.
Qed.

Lemma elem_of_fresh x n texts : x ∈ fresh n texts -> n <= x.1.
Proof.
  intros H. assert (x.1 ∈ ids (fresh n texts)) as Hi by (apply list_elem_of_fmap; eauto).
  rewrite fresh_ids, elem_of_seqZ in Hi. lia.
Qed.

Lemma evolves_remember a : evolves a (remember a).
Proof.
  unfold remember. destruct (global a) eqn:E; [apply evolves_refl|].
  constructor; cbn; [lia| |apply targets_refl|done]. unfold entries; cbn. intros x [Hx|(v & [= <-] & Hx)]; by left; left.
Qed.

Lemma evolves_replace a first last texts cur : evolves a (replace_lines a first last texts cur).
Proof.
  pose proof (len_nonneg texts). constructor; cbn; [lia| |apply targets_refl|done].
  unfold entries; cbn. intros x [[Hx|Hx%elem_of_fresh]%elem_of_splice|Hx]; [by left; left|by right|by left; right].
Qed.

Lemma evolves_view a v : vlines v = vlines (now a) -> evolves a (with_now a v).
Proof.
  intros E. constructor; cbn; [lia| |apply targets_refl|done]. unfold entries; cbn. rewrite E. by left.
Qed.

Lemma evolves_append a after texts : evolves a (append_spec a after texts).
Proof.
  destruct texts; [by apply evolves_view|].
  eapply evolves_trans; [apply evolves_remember|apply evolves_replace].
Qed.

Lemma evolves_move a first last d : evolves a (moved_editor (remember a) first last d).
Proof.
  eapply evolves_trans; [apply evolves_remember|]. constructor; cbn; [lia| | |done].
  - unfold entries; cbn. intros x [Hx|Hx]; left; [left|by right].
    unfold moved_lines in Hx. apply elem_of_splice in Hx as [[Hx|Hx]%elem_of_splice|Hx]; [done|by apply elem_of_nil in Hx|].
    unfold sub in Hx. rewrite <- (take_drop (Z.to_nat (first - 1)) (vlines _)). apply elem_of_app. right.
    rewrite <- (take_drop (Z.to_nat (last - (first - 1))) (drop _ _)). apply elem_of_app. by left.
  - apply Forall2_fmap_r, Forall_Forall2_diag, Forall_true. intros [i|]; cbn; [|by left].
    case_bool_decide; auto.
Qed.

Lemma case_evolves a addrs explicit cmd : evolves a (case_spec a addrs explicit cmd).1.
Proof.
  unfold case_spec. destruct cmd as [text|text|text| | |k|dest|dest|].
  9: { destruct explicit; [apply evolves_refl|]. unfold undo_spec. destruct (before a) as [v|] eqn:E; [|apply evolves_refl].
       constructor; cbn; [lia| | |done].
       - unfold entries; cbn. intros x [Hx|(w & [= <-] & Hx)]; left; [right; eauto|by left].
       - destruct (global a); [|apply targets_refl]. apply Forall2_fmap_r, Forall_Forall2_diag, Forall_true. by right. }
  all: match goal with
       | |- context [oneAddress ?l ?a ?x ?d ?z] => destruct (oneAddress l a x d z) as [err|n]; [apply evolves_refl|]
       | |- context [twoAddresses ?l ?a ?x ?d ?d' ?z] =>
           destruct (twoAddresses l a x d d' z) as [err|[f l']]; [apply evolves_refl|]
       end; cbn [fst].
  - apply evolves_append.
  - destruct text; [by apply evolves_view|apply evolves_append].
  - eapply evolves_trans; [apply evolves_remember|apply evolves_replace].
  - eapply evolves_trans; [apply evolves_remember|apply evolves_replace].
  - unfold join_spec. destruct (f =? l'); [apply evolves_refl|].
    eapply evolves_trans; [apply evolves_remember|]. eapply evolves_trans; [apply evolves_replace|by apply evolves_view].
  - by apply evolves_view.
  - unfold move_spec. case_match; [apply evolves_refl|]. case_match; [by apply evolves_view|].
    case_match; [apply evolves_refl|]. pose proof (evolves_move a f l' (if l' <? dest then dest - (l' - f + 1) else dest)) as Hev.
    unfold moved_editor in Hev. destruct (remember_same a) as (EN & _). by rewrite EN in Hev.
  - unfold copy_spec. case_match; [apply evolves_refl|apply evolves_append].
Qed.

(** Commands that neither remove nor move a line. *)
Definition additive (cmd : command) : bool :=
  match cmd with Ca _ | Ci _ | Ck _ | Ct _ => true | _ => false end.

Definition keeps (a a' : editor) : Prop :=
  targets a' = targets a /\ forall x, x ∈ vlines (now a) -> x ∈ vlines (now a').

Lemma splice_insert_keeps l after new x : 0 <= after -> x ∈ l -> x ∈ splice l (after + 1) after new.
Proof.
  intros Ha. unfold splice, ztake, zdrop. replace (after + 1 - 1) with after by lia.
  rewrite <- (take_drop (Z.to_nat after) l) at 1. rewrite !elem_of_app. intuition.
Qed.

Lemma append_keeps a after texts : 0 <= after -> keeps a (append_spec a after texts).
Proof.
  intros Ha. destruct texts as [|t texts]; [done|]. destruct (remember_same a) as (EN & _ & ET & _).
  split; cbn; [done|]. rewrite EN. intros x. by apply splice_insert_keeps.
Qed.

Lemma case_keeps a addrs explicit cmd : additive cmd = true -> keeps a (case_spec a addrs explicit cmd).1.
Proof.
  intros Ha. unfold case_spec. destruct cmd as [text|text|text| | |k|dest|dest|]; try done.
  all: match goal with
       | |- context [oneAddress ?l ?a ?x ?d ?z] => destruct (oneAddress l a x d z) as [err|n] eqn:E; [done|]
       | |- context [twoAddresses ?l ?a ?x ?d ?d' ?z] => destruct (twoAddresses l a x d d' z) as [err|[f l']]; [done|]
       end; cbn [fst].
  - apply oneAddress_range in E as [Hn _]. apply append_keeps. lia.
  - apply oneAddress_range in E as [Hn _]. destruct text; [done|]. apply append_keeps. lia.
  - done.
  - unfold copy_spec. case_match eqn:E; [done|]. apply orb_false_iff in E as [E%Z.ltb_ge _]. by apply append_keeps.
Qed.

(** In a global command only [u] touches the undo state. *)
Lemma case_global_before a addrs explicit cmd :
  global a = true -> cmd <> Cu -> before (case_spec a addrs explicit cmd).1 = before a.
Proof.
  intros Hg Hc. assert (Hr : remember a = a) by (unfold remember; by rewrite Hg).
  unfold case_spec. destruct cmd as [text|text|text| | |k|dest|dest|]; try done.
  all: match goal with
       | |- context [oneAddress ?l ?a ?x ?d ?z] => destruct (oneAddress l a x d z) as [err|n]; [done|]
       | |- context [twoAddresses ?l ?a ?x ?d ?d' ?z] => destruct (twoAddresses l a x d d' z) as [err|[f l']]; [done|]
       end; cbn [fst]; unfold append_spec, change_spec, join_spec, move_spec, copy_spec; rewrite ?Hr.
  1-2: by destruct text.
  1-2: done.
  - by destruct (f =? l').
  - done.
  - by repeat case_match.
  - case_match; [done|]. unfold append_spec. rewrite Hr. by destruct (snd <$> _).
Qed.

(** ** Command lists *)

(** An address reader leaves the current line on a line of the buffer. *)
Definition reader_ok (r : address_reader) : Prop :=
  forall e current addrs explicit, 0 <= Current (Buf e) <= Last (Buf e) ->
    r e = inr (current, addrs, explicit) -> 0 <= current <= Last (Buf e).

(** What a command list may do to the abstract editor. *)
Definition effect (cmds : list command) (a a' : editor) : Prop :=
  evolves a a' /\
  (global a = true -> Forall (fun c => c <> Cu) cmds -> before a' = before a) /\
  (Forall (fun c => additive c = true) cmds -> keeps a a').

Lemma effect_refl cmds a : effect cmds a a.
Proof. split_and!; [apply evolves_refl|done|done]. Qed.

Lemma effect_trans c1 c2 a b c :
  effect c1 a b -> effect c2 b c -> effect (c1 ++ c2) a c.
Proof.
  intros (E1 & B1 & K1) (E2 & B2 & K2). split_and!.
  - by eapply evolves_trans.
  - intros Hg [Hc1 Hc2]%Forall_app. rewrite B2, B1; [done|done|done| |done]. by rewrite (ev_global _ _ E1).
  - intros [Hc1 Hc2]%Forall_app. destruct (K1 Hc1) as [T1 L1], (K2 Hc2) as [T2 L2]. split; [congruence|auto].
Qed.

Lemma effect_cur cmds a b n : effect cmds a b -> effect cmds a (with_cur b n).
Proof.
  intros (E & B & K). split_and!; [|done|done].
  eapply evolves_trans; [done|]. by apply evolves_view.
Qed.

Lemma current_range a e : refines a e -> 0 <= Current (Buf e) <= Last (Buf e).
Proof.
  intros R. rewrite (Last_refines _ _ R). destruct R as [(_ & -> & _) (_ & _ & _ & O) _ _ _ _ _]. done.
Qed.

Lemma line_effect a e line :
  refines a e -> reader_ok line.1 ->
  exists a', refines a' (execute_line e line).1 /\ effect [line.2] a a'.
Proof.
  intros R Hr. unfold execute_line. destruct (line.1 e) as [err|[[c addrs] x]] eqn:E.
  { exists a. split; [done|apply effect_refl]. }
  pose proof (current_range _ _ R) as Hcur. pose proof (Hr _ _ _ _ Hcur E) as Hc.
  pose proof (refine_cur _ _ c R) as R1. rewrite <- (Last_refines _ _ R) in R1. specialize (R1 Hc).
  fold (set_current e c) in R1.
  destruct (case_refines _ _ addrs x line.2 R1) as (_ & R2 & H3).
  assert (Hef : effect [line.2] a (case_spec (with_cur a c) addrs x line.2).1).
  { apply (effect_trans [] [line.2] a (with_cur a c)); [by apply effect_cur, effect_refl|].
    split_and!; [apply case_evolves| |].
    - intros Hg [Hall _]%Forall_cons. apply case_global_before; [done|exact Hall].
    - intros [Hall _]%Forall_cons. apply case_keeps. exact Hall. }
  unfold execute. destruct (execute_case _ _ _ _) as [e' [err|]] eqn:E'; cbn [fst snd] in *.
  - rewrite H3, Z.eqb_refl by done. eexists. split.
    + cbn. apply (refine_cur a e (Current (Buf e)) R). rewrite <- (Last_refines _ _ R). done.
    + by apply effect_cur, effect_refl.
  - by eexists.
Qed.

Lemma list_effect a e commands :
  refines a e -> Forall (fun l => reader_ok l.1) commands ->
  exists a', refines a' (executeGlobalList e commands).1 /\ effect (snd <$> commands) a a'.
Proof.
  revert a e. induction commands as [|l commands IH]; intros a e R Hok.
  { exists a. split; [done|apply effect_refl]. }
  apply Forall_cons in Hok as [Hl Hok]. destruct (line_effect a e l R Hl) as (a1 & R1 & E1).
  cbn [executeGlobalList]. destruct (execute_line e l) as [e1 [err|]]; cbn [fst] in *.
  - exists a1. split; [done|]. destruct E1 as (H1 & H2 & H3). split_and!; [done| |].
    + intros Hg Hall. apply H2; [done|]. apply Forall_cons in Hall as [? _]. by apply Forall_singleton.
    + intros Hall. apply H3. apply Forall_cons in Hall as [? _]. by apply Forall_singleton.
  - destruct (IH a1 e1 R1 Hok) as (a2 & R2 & E2). exists a2. split; [done|].
    change (snd <$> l :: commands) with ([l.2] ++ (snd <$> commands)). by eapply effect_trans.
Qed.

(** ** The loop *)

Lemma pos_entry l i n : pos l i = Some n -> exists t, l !! Z.to_nat (n - 1) = Some (i, t).
Proof.
  revert n. induction l as [|[j t] l IH]; [done|]; intros n. cbn [pos].
  destruct (Z.eqb_spec j i) as [->|]; [intros [= <-]; by exists t|].
  destruct (pos l i) as [m|] eqn:E; [|done]. intros [= <-]. destruct (IH m eq_refl) as [t' Ht].
  apply pos_range in E. exists t'. by replace (Z.to_nat (Z.succ m - 1)) with (S (Z.to_nat (m - 1))) by lia.
Qed.

(** The text of the line an engine is on. *)
Definition visit_text (e : Engine) : list Z := Lines (Buf e) !!! Z.to_nat (Current (Buf e) - 1).

Section Loop.
Context (commands : list (address_reader * command)).
Hypothesis Hok : Forall (fun l => reader_ok l.1) commands.
(** The identities below [N] have the texts [T]. *)
Context (N : Z) (T : Z -> list Z).

Definition stable (a : editor) : Prop :=
  N <= next a /\ forall x, entries a x -> x.1 < N -> x.2 = T x.1.

Lemma evolves_stable a a' : evolves a a' -> stable a -> stable a'.
Proof.
  intros [H1 H2 _ _] [K1 K2]. split; [lia|]. intros x Hx Hlt. destruct (H2 x Hx); [by apply K2|lia].
Qed.

Lemma weaken_sublist (l l' : list (option Z)) :
  Forall2 (fun t t' => t' = t \/ t' = None) l l' -> omap id l' `sublist_of` omap id l.
Proof.
  induction 1 as [|t t' l l' Ht _ IH]; [done|]. destruct Ht as [-> | ->]; destruct t; cbn; try done; by constructor.
Qed.

Definition no_undo : Prop := Forall (fun l => l.2 <> Cu) commands.
Definition all_additive : Prop := Forall (fun l => additive l.2 = true) commands.

(** The target the loop is at becomes the current line and is given up. *)
Definition visit_editor (a : editor) (i : nat) (n : Z) : editor :=
  let v := now a in
  mkEditor (mkView (vlines v) n (vmarks v)) (before a) (<[i := None]> (targets a)) (global a) (next a).

Lemma visit_refines a e i j n :
  refines a e -> targets a !! i = Some (Some j) -> pos (vlines (now a)) j = Some n -> global a = true ->
  refines (visit_editor a i n) (set_current (set_targets e (<[i := 0]> (globalTargets e))) n).
Proof.
  intros R Hi Hn Hg. pose proof (pos_range _ _ _ Hn).
  destruct R as [(RL & RC & RM) (O1 & O2 & O3 & O4) Rb Rt Rn Rg Rl].
  constructor; cbn; try done.
  - split_and!; cbn; (done || lia).
  - rewrite Rt, list_fmap_insert. done.
  - by apply Forall_insert.
  - congruence.
Qed.

Lemma visit_evolves a i n : evolves a (visit_editor a i n).
Proof.
  constructor; cbn; [lia|by left| |done]. apply Forall2_same_length_lookup_2; [by rewrite length_insert|].
  intros k x y Hx. destruct (decide (k = i)) as [->|].
  - rewrite list_lookup_insert_eq by (by eapply lookup_lt_Some). intros [= <-]. by right.
  - rewrite list_lookup_insert_ne by done. intros. left. congruence.
Qed.

Lemma visit_text_stable a e j n :
  refines a e -> stable a -> j < N -> pos (vlines (now a)) j = Some n ->
  Lines (Buf e) !!! Z.to_nat (n - 1) = T j.
Proof.
  intros [(RL & _ & _) _ _ _ _ _ _] [_ S] Hj Hn. destruct (pos_entry _ _ _ Hn) as [t Ht].
  rewrite RL. apply list_lookup_total_correct. rewrite list_lookup_fmap, Ht. cbn. f_equal.
  apply (S (j, t)); [|done]. left. by eapply list_elem_of_lookup_2.
Qed.

(** Where the loop stands: the targets left are old lines. *)
Definition targets_old (a : editor) : Prop := forall k j, targets a !! k = Some (Some j) -> j < N.

Lemma evolves_old a a' : evolves a a' -> targets_old a -> targets_old a'.
Proof.
  intros [_ _ Ht _] Ho k j Hk. destruct (Forall2_lookup_r _ _ _ _ _ Ht Hk) as (t & Hk' & [E|E]); [|done].
  apply (Ho k). congruence.
Qed.

(** The targets from [i] on still are lines of the text. *)
Definition alive (i : nat) (a : editor) : Prop :=
  forall k j, (i <= k)%nat -> targets a !! k = Some (Some j) -> j ∈ ids (vlines (now a)).

Definition left_texts (i : nat) (a : editor) : list (list Z) := T <$> omap id (drop i (targets a)).

Lemma left_texts_S i a t :
  targets a !! i = Some t ->
  left_texts i a = (match t with Some j => [T j] | None => [] end) ++ left_texts (S i) a.
Proof.
  intros Hi. unfold left_texts. rewrite (drop_S _ _ _ Hi). cbn. by destruct t.
Qed.

Lemma evolves_left i a a' : evolves a a' -> left_texts i a' `sublist_of` left_texts i a.
Proof.
  intros [_ _ Ht _]. apply fmap_sublist, weaken_sublist. by apply Forall2_drop.
Qed.

Lemma visit_left i a n : left_texts (S i) (visit_editor a i n) = left_texts (S i) a.
Proof.
  unfold left_texts. cbn. do 2 f_equal. apply list_eq. intros k.
  by rewrite !lookup_drop, list_lookup_insert_ne by lia.
Qed.

(** The loop from target [i] on: the engine it ends in refines an evolved
    editor, the lines it visits are lines left to visit, and all of them when
    no command removes or moves a line. *)
Lemma loop_visits count i a e :
  refines a e -> global a = true -> stable a -> targets_old a -> length (targets a) = (i + count)%nat ->
  exists a', refines a' (global_loop commands count i e).1.1 /\ evolves a a' /\
    (no_undo -> before a' = before a) /\
    (visit_text <$> (global_loop commands count i e).2) `sublist_of` left_texts i a /\
    (all_additive -> alive i a -> (global_loop commands count i e).1.2 = None ->
     visit_text <$> (global_loop commands count i e).2 = left_texts i a).
Proof using Hok.
  revert i a e. induction count as [|count IH]; intros i a e R Hg HS HO Hlen.
  { exists a. cbn. unfold left_texts. rewrite drop_ge by lia. split_and!; try done. apply evolves_refl. }
  destruct (lookup_lt_is_Some_2 (targets a) i) as [t Ht]; [lia|].
  assert (Hti : globalTargets e !!! i = target_rel (vlines (now a)) t).
  { rewrite (ref_targets _ _ R). apply list_lookup_total_correct. by rewrite list_lookup_fmap, Ht. }
  cbn [global_loop]. rewrite Hti, (left_texts_S _ _ _ Ht). unfold target_rel.
  destruct (t ≫= pos (vlines (now a))) as [n|] eqn:En.
  2: { cbn. destruct (IH (S i) a e R Hg HS HO) as (a' & R' & E' & B' & V' & A'); [lia|]. exists a'. split_and!; try done.
       - by apply sublist_inserts_l.
       - intros Hadd Hal Herr. rewrite A'; [| |intros k j Hk; apply Hal; lia|done]; [|done].
         destruct t as [j|]; [|done]. cbn in En. apply pos_None in En. destruct En. by apply (Hal i j). }
  destruct t as [j|]; [cbn in En|done]. pose proof (pos_range _ _ _ En) as Hn.
  change (default 0 (Some n)) with n. rewrite (proj2 (Z.eqb_neq n 0)) by lia.
  set (e1 := set_current _ n). pose proof (visit_refines a e i j n R Ht En Hg) as R1. fold e1 in R1.
  pose proof (visit_evolves a i n) as E1.
  assert (HT : visit_text e1 = T j) by (apply (visit_text_stable a e j n); [done|done|by apply (HO i)|done]).
  destruct (list_effect _ _ commands R1 Hok) as (a2 & R2 & E2 & B2 & K2).
  pose proof (evolves_trans _ _ _ E1 E2) as E12.
  assert (HB : no_undo -> before a2 = before a) by (intros Hu; rewrite B2; [done|done|by apply Forall_fmap]).
  destruct (executeGlobalList e1 commands) as [e2 [err|]]; cbn [fst snd] in *.
  { exists a2. split_and!; try done. cbn. rewrite HT. by apply sublist_skip, sublist_nil_l. }
  destruct (IH (S i) a2 e2) as (a3 & R3 & E3 & B3 & V3 & A3);
    [done|by rewrite (ev_global _ _ E12)|by eapply evolves_stable|by eapply evolves_old| |].
  { rewrite <- (Forall2_length _ _ _ (ev_targets _ _ E12)). lia. }
  destruct (global_loop commands count (S i) e2) as [[e3 err] visits]; cbn [fst snd] in *.
  exists a3. split_and!; [done|by eapply evolves_trans|intros Hu; rewrite B3; auto| |].
  - cbn. rewrite HT. apply sublist_skip. etrans; [exact V3|]. by apply evolves_left.
  - intros Hadd Hal Herr. cbn. rewrite HT. f_equal. destruct (K2 ltac:(by apply Forall_fmap)) as [KT KL].
    rewrite A3; [|done| |done].
    + unfold left_texts. rewrite KT. fold (left_texts (S i) (visit_editor a i n)). apply visit_left.
    + intros k j' Hk. rewrite KT. cbn. rewrite list_lookup_insert_ne by lia. intros Hj.
      assert (Hin : j' ∈ ids (vlines (now a))) by (apply (Hal k); [lia|done]).
      unfold ids in Hin |- *. apply list_elem_of_fmap in Hin as (x & -> & Hx). apply list_elem_of_fmap. exists x. split; [done|].
      by apply KL.
Qed.

End Loop.

(** ** The change counter *)

(** A command counts at most one change, and counts it when it changes the
    text. *)
Definition counted (e e' : Engine) : Prop :=
  (changeSeq e' = changeSeq e /\ Lines (Buf e') = Lines (Buf e)) \/ changeSeq e' = uint64 (changeSeq e + 1).

Lemma seq_appendNoUndo e after texts : changeSeq (appendLinesNoUndo e after texts).1 = changeSeq e.
Proof.
  unfold appendLinesNoUndo. destruct (Append _ _ _) as [b [err|]]; [done|]. unfold adjustGlobalInsert.
  by case_match.
Qed.

Lemma seq_deleteNoUndo e f l : changeSeq (deleteLinesNoUndo e f l).1 = changeSeq e.
Proof. unfold deleteLinesNoUndo. by destruct (Delete _ _ _) as [b [err|]]. Qed.

Lemma seq_saveUndo e : changeSeq (saveUndo e) = changeSeq e.
Proof. apply saveUndo_same. Qed.

Lemma counted_bump e e' : changeSeq e' = changeSeq e -> counted e (bump e').
Proof. intros H. right. cbn. by rewrite H. Qed.

Lemma counted_append e after texts : 0 <= after <= Last (Buf e) -> counted e (appendLines e after texts).1.
Proof.
  intros Ha. destruct texts as [|t texts].
  - left. unfold appendLines. rewrite in_range_cond by done. change (0 <? len []) with false. cbn match.
    rewrite Append_spec by done. cbn. unfold ztake, zdrop. by rewrite take_drop.
  - rewrite appendLines_eq by done. apply counted_bump. by rewrite seq_appendNoUndo, seq_saveUndo.
Qed.

Lemma counted_change e f l texts :
  (changeLines e f l texts).2 = None -> counted e (changeLines e f l texts).1.
Proof.
  unfold changeLines. destruct (_ && _ && _) eqn:E.
  - pose proof (seq_appendNoUndo (saveUndo e) 0 texts) as Hs. rewrite seq_saveUndo in Hs.
    destruct texts as [|t texts].
    + intros _. left. unfold appendLinesNoUndo in *. rewrite Append_spec in * by (unfold Last, len; lia).
      cbn. rewrite ?seq_saveUndo. split; [done|]. unfold ztake, zdrop. rewrite take_drop.
      destruct (saveUndo_same e) as (-> & _). done.
    + destruct (appendLinesNoUndo _ _ _) as [e' [err|]]; [done|]. intros _. cbn [fst] in *.
      rewrite (proj2 (Z.ltb_lt 0 _)) by (rewrite len_cons; pose proof (len_nonneg texts); lia). by apply counted_bump.
  - pose proof (seq_deleteNoUndo (saveUndo e) f l) as Hs. rewrite seq_saveUndo in Hs.
    destruct (deleteLinesNoUndo _ _ _) as [e' [err|]]; [done|]. destruct texts as [|t texts]; [by intros; apply counted_bump|].
    pose proof (seq_appendNoUndo e' (f - 1) (t :: texts)) as Hs'.
    destruct (appendLinesNoUndo _ _ _) as [e'' [err|]]; [done|]. intros _. apply counted_bump. cbn in *. congruence.
Qed.

Lemma counted_case a e addrs explicit cmd :
  refines a e -> (execute_case e addrs explicit cmd).2 = None -> counted e (execute_case e addrs explicit cmd).1.
Proof.
  intros R. pose proof (len_nonneg (Lines (Buf e))) as HL0. fold (Last (Buf e)) in HL0.
  unfold execute_case. destruct cmd as [text|text|text| | |k|dest|dest|].
  9: { destruct explicit; [done|]. unfold undo. destruct (negb _); [done|]. intros _. by right. }
  all: match goal with
       | |- context [oneAddress ?l ?a ?x ?d ?z] =>
           destruct (oneAddress l a x d z) as [err|n] eqn:E; [done|]; apply oneAddress_range in E as [Hn Hz]
       | |- context [twoAddresses ?l ?a ?x ?d ?d' ?z] =>
           destruct (twoAddresses l a x d d' z) as [err|[f l']] eqn:E; [done|];
           apply twoAddresses_range in E as (Hf & Hl & Hz)
       end; cbn [fst snd]; try specialize (Hz eq_refl).
  - intros _. by apply counted_append.
  - intros _. set (m := if n =? 0 then 1 else n).
    assert (Hm : 0 <= m - 1 <= Last (Buf e)) by (subst m; destruct (Z.eqb_spec n 0); lia).
    pose proof (counted_append e (m - 1) text Hm) as C.
    destruct (appendLines e (m - 1) text) as [e' [err|]]; [done|]. by destruct text.
  - intros _. set (f1 := if f =? 0 then 1 else f). set (l1 := if l' =? 0 then 1 else l').
    apply counted_change. destruct (change_refines a e f1 l1 text R) as (e' & -> & _); [..|done];
      rewrite <- ?(Last_refines _ _ R); subst f1 l1; destruct (Z.eqb_spec f 0), (Z.eqb_spec l' 0); lia.
  - unfold deleteLines. destruct (Delete _ _ _) as [b [err|]]; [done|]. intros _. right. cbn. by rewrite seq_saveUndo.
  - unfold join. case_match; [done|]. case_match; [by left|]. destruct (range_lines _ _ _); [|done].
    pose proof (seq_deleteNoUndo (saveUndo e) f l') as Hs. rewrite seq_saveUndo in Hs.
    destruct (deleteLinesNoUndo _ _ _) as [e' [err|]]; [done|]. cbn zeta.
    pose proof (seq_appendNoUndo e' (f - 1) [concat l]) as Hs'.
    destruct (appendLinesNoUndo _ _ _) as [e'' [err|]]; [done|]. intros _. apply counted_bump. cbn in *. congruence.
  - intros _. by left.
  - unfold move. case_match; [done|]. case_match; [by left|]. case_match; [done|]. destruct (range_lines _ _ _); [|done].
    pose proof (seq_deleteNoUndo (saveUndo e) f l') as Hs. rewrite seq_saveUndo in Hs.
    destruct (deleteLinesNoUndo _ _ _) as [e' [err|]]; [done|]. set (d := if _ <? _ then _ else _).
    pose proof (seq_appendNoUndo e' d l) as Hs'.
    destruct (appendLinesNoUndo _ _ _) as [e'' [err|]]; [done|]. intros _. apply counted_bump. cbn in *. congruence.
  - unfold copy. destruct (_ || _) eqn:E; [done|]. destruct (range_lines _ _ _); [|done]. intros _.
    apply counted_append. apply orb_false_iff in E as [E1%Z.ltb_ge E2%Z.ltb_ge]. lia.
Qed.

(** At most [n] changes counted between two engines, none only when the text
    is the same. *)
Definition counts (n : Z) (e e' : Engine) : Prop :=
  exists k, 0 <= k <= n /\ changeSeq e' mod 2 ^ 64 = (changeSeq e + k) mod 2 ^ 64 /\
    (k = 0 -> Lines (Buf e') = Lines (Buf e)).

Lemma counts_refl n e e' :
  0 <= n -> changeSeq e' = changeSeq e -> Lines (Buf e') = Lines (Buf e) -> counts n e e'.
Proof. intros Hn E1 E2. exists 0. rewrite E1, Z.add_0_r. split_and!; (done || lia). Qed.

Lemma counts_trans n m e1 e2 e3 : counts n e1 e2 -> counts m e2 e3 -> counts (n + m) e1 e3.
Proof.
  intros (k & Hk & S1 & L1) (j & Hj & S2 & L2). exists (k + j). split_and!; [lia|lia| |].
  - rewrite S2, Z.add_assoc, <- (Zplus_mod_idemp_l (changeSeq e1 + k)), <- S1, Zplus_mod_idemp_l. done.
  - intros ?. assert (k = 0) by lia. assert (j = 0) by lia. rewrite L2, L1 by done. done.
Qed.

Lemma counted_counts e e' : counted e e' -> counts 1 e e'.
Proof.
  intros [[E1 E2]|E]; [by apply counts_refl|]. exists 1. rewrite E. unfold wrapu.
  rewrite Zmod_mod. split_and!; (done || lia).
Qed.

Lemma line_counts a e line : refines a e -> reader_ok line.1 -> counts 1 e (execute_line e line).1.
Proof.
  intros R Hr. unfold execute_line. destruct (line.1 e) as [err|[[c addrs] x]] eqn:E; [by apply counts_refl|].
  pose proof (Hr _ _ _ _ (current_range _ _ R) E) as Hc. rewrite (Last_refines _ _ R) in Hc.
  pose proof (refine_cur _ _ c R Hc) as R1. fold (set_current e c) in R1.
  pose proof (counted_case _ _ addrs x line.2 R1) as C.
  destruct (case_refines _ _ addrs x line.2 R1) as (_ & _ & H3).
  unfold execute. destruct (execute_case _ _ _ _) as [e' [err|]] eqn:E'; cbn [fst snd] in *.
  - rewrite H3, Z.eqb_refl by done. by apply counts_refl.
  - by apply counted_counts, C.
Qed.

Lemma list_counts a e commands :
  refines a e -> Forall (fun l => reader_ok l.1) commands ->
  counts (len commands) e (executeGlobalList e commands).1.
Proof.
  revert a e. induction commands as [|l commands IH]; intros a e R Hok; [by apply counts_refl|].
  apply Forall_cons in Hok as [Hl Hok]. destruct (line_effect a e l R Hl) as (a1 & R1 & _).
  pose proof (line_counts a e l R Hl) as C. rewrite len_cons. pose proof (len_nonneg commands).
  cbn [executeGlobalList]. destruct (execute_line e l) as [e1 [err|]]; cbn [fst] in *.
  - replace (1 + len commands) with (1 + len commands) by done. eapply counts_trans; [done|]. by apply counts_refl.
  - eapply counts_trans; [done|]. by apply (IH a1).
Qed.

Lemma loop_counts commands count i a e :
  refines a e -> inGlobal e = true -> Forall (fun l => reader_ok l.1) commands ->
  length (targets a) = (i + count)%nat ->
  counts (Z.of_nat count * len commands) e (global_loop commands count i e).1.1.
Proof.
  intros R Hg Hok. rewrite (ref_global _ _ R) in Hg. revert i a e R Hg.
  pose proof (len_nonneg commands). induction count as [|count IH]; intros i a e R Hg Hlen; [by apply counts_refl|].
  replace (Z.of_nat (S count) * len commands) with (len commands + Z.of_nat count * len commands) by lia.
  destruct (lookup_lt_is_Some_2 (targets a) i) as [t Ht]; [lia|].
  assert (Hti : globalTargets e !!! i = target_rel (vlines (now a)) t).
  { rewrite (ref_targets _ _ R). apply list_lookup_total_correct. by rewrite list_lookup_fmap, Ht. }
  cbn [global_loop]. rewrite Hti. unfold target_rel.
  assert (Hskip : counts (len commands + Z.of_nat count * len commands) e (global_loop commands count (S i) e).1.1).
  { eapply counts_trans; [by apply counts_refl|]. apply (IH (S i) a); [done|done|lia]. }
  destruct t as [j|]; [|done]. cbn [mbind option_bind].
  destruct (pos (vlines (now a)) j) as [n|] eqn:En; [|done].
  change (default 0 (Some n)) with n. destruct (n =? 0); [done|].
  set (e1 := set_current _ n). pose proof (visit_refines a e i j n R Ht En Hg) as R1. fold e1 in R1.
  pose proof (list_counts _ _ commands R1 Hok) as C.
  destruct (list_effect _ _ commands R1 Hok) as (a2 & R2 & E2 & _).
  assert (C' : counts (len commands) e (executeGlobalList e1 commands).1) by exact C.
  destruct (executeGlobalList e1 commands) as [e2 [err|]]; cbn [fst] in *.
  - eapply counts_trans; [exact C'|]. apply counts_refl; [lia|done|done].
  - specialize (IH (S i) a2 e2 R2).
    destruct (global_loop commands count (S i) e2) as [[e3 err] visits]; cbn [fst] in *.
    eapply counts_trans; [exact C'|]. apply IH; [by rewrite (ev_global _ _ E2)|].
    rewrite <- (Forall2_length _ _ _ (ev_targets _ _ E2)). cbn. rewrite length_insert. lia.
Qed.

(** ** Global commands *)

Section GlobalCorrect.
Context (re : list Z -> option bool) (matching : bool) (commands : list (address_reader * command)).
Hypothesis Hok : Forall (fun l => reader_ok l.1) commands.

(** The lines the expression selects. *)
Definition selected (l : list (list Z)) : list (list Z) := filter (fun t => re t = Some matching) l.

Definition selected_entries (l : list (Z * list Z)) : list (Z * list Z) :=
  filter (fun x => re x.2 = Some matching) l.

Lemma selected_texts l : snd <$> selected_entries l = selected (snd <$> l).
Proof.
  unfold selected_entries, selected. induction l as [|x l IH]; [done|].
  cbn [fmap list_fmap]. rewrite !filter_cons. case_decide; [|done]. cbn. by rewrite IH.
Qed.

Lemma select_targets_spec D l1 l2 ts :
  NoDup (ids (l1 ++ D ++ l2)) ->
  select_targets re matching (len l1 + 1) (snd <$> D) = Some ts ->
  ts = target_rel (l1 ++ D ++ l2) <$> (Some <$> ids (selected_entries D)).
Proof.
  revert l1 ts. induction D as [|[i t] D IH]; intros l1 ts Hnd; [by intros [= <-]|].
  cbn [select_targets fmap list_fmap snd]. destruct (re t) as [ok|] eqn:Er; [|done].
  assert (E : l1 ++ (i, t) :: D ++ l2 = (l1 ++ [(i, t)]) ++ D ++ l2) by (by rewrite <- app_assoc).
  specialize (IH (l1 ++ [(i, t)])). rewrite len_app in IH. change (len [(i, t)]) with 1 in IH.
  cbn [app] in *. rewrite E in *. destruct (select_targets re matching (len l1 + 1 + 1) (snd <$> D)) as [ts'|]; [|done].
  specialize (IH ts' Hnd eq_refl). unfold selected_entries in *. rewrite filter_cons. cbn [snd]. rewrite Er.
  intros [= <-]. destruct (Bool.eqb_spec ok matching) as [->|Hne].
  - rewrite decide_True by done. unfold ids at 1. rewrite !fmap_cons. fold (ids (filter (fun x => re x.2 = Some matching) D)).
    rewrite <- IH. f_equal. unfold target_rel. cbn [fst mbind option_bind]. rewrite (pos_lookup _ _ (len l1 + 1)); [done|done|pose proof (len_nonneg l1); lia|].
    rewrite <- E. unfold ids, len. rewrite fmap_app, lookup_app_r; rewrite length_fmap; [|lia].
    by replace (Z.to_nat _ - _)%nat with 0%nat by lia.
  - rewrite decide_False by congruence. done.
Qed.

(** The editor a global command starts its loop in. *)
Definition global_start (a : editor) (first last : Z) : editor :=
  mkEditor (now a) (Some (now a))
    (Some <$> ids (selected_entries (sub (first - 1) last (vlines (now a))))) true (next a).

Lemma global_start_refines a e first last ts :
  refines a e -> global a = false -> 1 <= first -> first <= last -> last <= len (vlines (now a)) ->
  select_targets re matching first (snd <$> sub (first - 1) last (vlines (now a))) = Some ts ->
  refines (global_start a first last) (set_global (saveUndo e) true ts) /\
  length ts = length (targets (global_start a first last)).
Proof using Type.
  intros R Hg H1 H2 H3 Hs. set (l := vlines (now a)) in *.
  assert (Hsp : l = ztake (first - 1) l ++ sub (first - 1) last l ++ zdrop last l) by (apply split3; lia).
  pose proof (ref_ok _ _ R) as (Hnd & Hids & _). fold l in Hnd, Hids.
  assert (Hts : ts = target_rel l <$> (Some <$> ids (selected_entries (sub (first - 1) last l)))).
  { rewrite Hsp at 1. apply select_targets_spec; [by rewrite <- Hsp|]. rewrite len_ztake by lia.
    by replace (first - 1 + 1) with first by lia. }
  split; [|cbn; rewrite Hts, !length_fmap; done].
  destruct R as [Rv Rok Rb Rt Rn Rg Rl]. unfold saveUndo. rewrite Rg, Hg. constructor; cbn; try done.
  apply Forall_fmap, Forall_forall. intros i Hi j [= <-]. rewrite Forall_forall in Hids. apply Hids.
  unfold ids in *. apply list_elem_of_fmap in Hi as (x & -> & Hx). apply list_elem_of_fmap. exists x. split; [done|].
  unfold selected_entries in Hx. apply list_elem_of_filter in Hx as [_ Hx]. rewrite Hsp.
  apply elem_of_app. right. apply elem_of_app. by left.
Qed.

Lemma selected_elem a first last x :
  1 <= first -> first <= last -> last <= len (vlines (now a)) ->
  x ∈ selected_entries (sub (first - 1) last (vlines (now a))) -> x ∈ vlines (now a).
Proof using Type.
  intros H1 H2 H3 Hx. apply list_elem_of_filter in Hx as [_ Hx]. rewrite (split3 (vlines (now a)) first last) by lia.
  apply elem_of_app. right. apply elem_of_app. by left.
Qed.

Lemma selected_length a first last :
  1 <= first -> first <= last -> last <= len (vlines (now a)) ->
  Z.of_nat (length (targets (global_start a first last))) <= len (vlines (now a)).
Proof using Type.
  intros H1 H2 H3. cbn. unfold ids. rewrite !length_fmap.
  pose proof (length_filter (fun x : Z * list Z => re x.2 = Some matching) (sub (first - 1) last (vlines (now a)))) as Hf.
  pose proof (len_sub (vlines (now a)) (first - 1) last) as Hs. unfold len in *. unfold selected_entries. lia.
Qed.

(** The texts of the lines of a view, by identity. *)
Definition text_of (v : view) (i : Z) : list Z := default [] ((list_to_map (vlines v) : gmap Z (list Z)) !! i).

Lemma text_of_entry n v x : view_ok n v -> x ∈ vlines v -> text_of v x.1 = x.2.
Proof.
  intros (Hnd & _) Hx. unfold text_of. destruct x as [i t]. rewrite (elem_of_list_to_map_1 _ i t); done.
Qed.

Lemma start_stable a first last :
  view_ok (next a) (now a) -> stable (next a) (text_of (now a)) (global_start a first last).
Proof.
  intros Hv. split; [done|]. intros x [Hx|(v & [= <-] & Hx)] _; symmetry; by eapply text_of_entry.
Qed.

Lemma omap_Some {A} (l : list A) : omap id (Some <$> l) = l.
Proof. induction l as [|x l IH]; [done|]. cbn. f_equal. exact IH. Qed.

Lemma start_texts a first last :
  view_ok (next a) (now a) -> 1 <= first -> first <= last -> last <= len (vlines (now a)) ->
  left_texts (text_of (now a)) 0 (global_start a first last) =
    selected (snd <$> sub (first - 1) last (vlines (now a))).
Proof using Type.
  intros Hv H1 H2 H3. unfold left_texts. cbn. rewrite drop_0, <- selected_texts.
  rewrite omap_Some. unfold ids. rewrite <- list_fmap_compose. apply list_fmap_ext. intros k x Hx. cbn.
  eapply text_of_entry; [done|]. eapply selected_elem; [done..|]. by eapply list_elem_of_lookup_2.
Qed.

Lemma finish_refines a e a2 e2 err :
  refines a e -> refines a2 e2 -> next a <= next a2 ->
  exists a', refines a' (global_finish e e2 err) /\ global a' = false /\
    (before a2 = Some (now a) -> err = None -> (changeSeq e = changeSeq e2 -> Lines (Buf e2) = Lines (Buf e)) ->
     undoValid (global_finish e e2 err) = true /\ Lines (undoBuffer (global_finish e e2 err)) = Lines (Buf e)).
Proof using Type.
  intros R [Rv Rok Rb Rt Rn Rg Rl] Hn. unfold global_finish. cbn [changeSeq set_global].
  destruct (Z.eqb_spec (changeSeq e) (changeSeq e2)) as [E|E].
  - destruct err as [err|].
    + exists (mkEditor (now a2) (before a) [] false (next a2)). split_and!; [|done|done].
      constructor; cbn; try done. destruct R as [_ _ Rb0 _ _ _ _]. destruct (before a); [|done].
      destruct Rb0 as (? & ? & ?). split_and!; try done. by eapply view_ok_mono.
    + exists (mkEditor (now a2) (Some (now a2)) [] false (next a2)). split_and!; [by constructor|done|].
      intros _ _ HL. cbn. auto.
  - exists (mkEditor (now a2) (before a2) [] false (next a2)). split_and!; [by constructor|done|].
    intros Hb _ _. cbn. rewrite Hb in Rb. destruct Rb as (Hv & (BL & _) & _). split; [done|].
    destruct R as [(RL & _) _ _ _ _ _ _]. congruence.
Qed.

(** The whole command: the engine it leaves refines an editor outside a global
    command, it visits lines it selected, and its undo state is the text from
    before it. *)
Lemma global_spec a e addrs explicit :
  refines a e -> global a = false ->
  let r := Editor.global re matching commands e addrs explicit in
  exists a', refines a' r.1.1 /\ global a' = false /\
    (forall first last, twoAddresses (Last (Buf e)) addrs explicit 1 (Last (Buf e)) false = inr (first, last) ->
      (visit_text <$> r.2) `sublist_of` selected (sub (first - 1) last (Lines (Buf e))) /\
      (all_additive commands -> r.1.2 = None ->
       visit_text <$> r.2 = selected (sub (first - 1) last (Lines (Buf e))))) /\
    (no_undo commands -> Last (Buf e) * len commands < 2 ^ 64 -> r.1.2 = None ->
     undoValid r.1.1 = true /\ Lines (undoBuffer r.1.1) = Lines (Buf e)) /\
    (Last (Buf e) * len commands < 2 ^ 64 -> r.1.2 <> None -> changeSeq r.1.1 = changeSeq e ->
     Lines (Buf r.1.1) = Lines (Buf e)).
Proof using Hok.
  intros R Hg. cbv zeta. unfold Editor.global. pose proof (Last_refines _ _ R) as HL.
  destruct (twoAddresses _ _ _ _ _ _) as [err|[f l]] eqn:ET; [exists a; by split_and!|].
  apply twoAddresses_range in ET as (Hf & Hl & Hz). specialize (Hz eq_refl).
  rewrite (range_lines_refines _ _ f l R) by lia.
  assert (Hlines : snd <$> sub (f - 1) l (vlines (now a)) = sub (f - 1) l (Lines (Buf e))).
  { destruct (ref_now _ _ R) as (-> & _). unfold sub. by rewrite fmap_take, fmap_drop. }
  destruct (select_targets re matching f _) as [ts|] eqn:ES.
  2: { exists a. split_and!; try done. intros ? ? [= <- <-]. split; [apply sublist_nil_l|done]. }
  destruct (global_start_refines a e f l ts R Hg) as [R1 Hlen]; [lia..|done|].
  pose proof (ref_ok _ _ R) as Hv. pose proof (start_stable a f l Hv) as HS.
  assert (HO : targets_old (next a) (global_start a f l)).
  { intros k j Hk. pose proof (ref_next _ _ R1) as Hnx. by apply (Forall_lookup_1 _ _ _ _ Hnx Hk). }
  destruct (loop_visits commands Hok (next a) (text_of (now a)) (length ts) 0 _ _ R1 eq_refl HS HO)
    as (a2 & R2 & E2 & B2 & V2 & A2); [by rewrite Hlen|].
  pose proof (loop_counts commands (length ts) 0 _ _ R1 eq_refl Hok) as C. specialize (C ltac:(by rewrite Hlen)).
  rewrite start_texts, Hlines in V2, A2 by (done || lia).
  destruct (global_loop commands (length ts) 0 _) as [[e2 err] visits]; cbn [fst snd] in *.
  destruct (finish_refines a e a2 e2 err R R2) as (a' & R' & Hg' & HU); [apply (ev_next _ _ E2)|].
  assert (HSL : Last (Buf e) * len commands < 2 ^ 64 -> changeSeq e = changeSeq e2 -> Lines (Buf e2) = Lines (Buf e)).
  { intros Hbound Hseq. destruct C as (k & Hk & HC & HL').
    cbn in HC, HL'. rewrite seq_saveUndo in HC. destruct (saveUndo_same e) as (EB & _). rewrite EB in HL'.
    apply HL'. rewrite <- Hseq in HC.
    assert (Hts : Z.of_nat (length ts) <= Last (Buf e)) by (rewrite HL, Hlen; by apply selected_length; lia).
    assert (Hk' : k < 2 ^ 64) by (pose proof (len_nonneg commands); nia).
    replace k with ((changeSeq e + k - changeSeq e) mod 2 ^ 64) by (rewrite Z.mod_small; lia).
    rewrite Zminus_mod, <- HC, Z.sub_diag. done. }
  exists a'. split_and!; [done|done| | |].
  - intros ? ? [= <- <-]. split; [done|]. intros Hadd Herr. apply A2; [done| |done].
    intros k j _ Hk. cbn in Hk. apply list_lookup_fmap_Some in Hk as (j' & [= <-] & Hj).
    apply list_elem_of_lookup_2 in Hj. unfold ids in *. apply list_elem_of_fmap in Hj as (x & -> & Hx).
    apply list_elem_of_fmap. exists x. split; [done|]. by apply (selected_elem a f l); [lia..|].
  - intros Hnu Hbound Herr. apply HU; [by rewrite B2|done|auto].
  - intros Hbound Herr. unfold global_finish. cbn [changeSeq set_global].
    destruct (Z.eqb_spec (changeSeq e) (changeSeq e2)); [|by intros ?]. by destruct err; [intros _; apply HSL|].
Qed.

End GlobalCorrect.

Definition load_spec (lines : list (list Z)) : editor :=
  mkEditor (mkView (fresh 0 lines) (len lines) ∅) None [] false (len lines).

Lemma load_refines lines : refines (load_spec lines) (load lines).
Proof.
  constructor; cbn; try done.
  - split_and!; cbn; [by rewrite fresh_texts|done|]. intros k. by rewrite !lookup_empty.
  - split_and!; cbn; rewrite ?fresh_ids, ?len_fresh; [apply NoDup_seqZ| |done|apply len_nonneg|lia].
    apply Forall_forall. intros i Hi%elem_of_seqZ. lia.
Qed.

(** [C21] A global command visits only lines it selected, each at most once, in
    order, and with the text it had when it was selected, whatever its command
    list inserts, deletes, moves, joins or undoes before the visit. When the
    list only appends, inserts, copies or marks and no command fails, every
    selected line is visited. *)
Theorem global_visits re matching commands a e addrs explicit first last :
  Forall (fun l => reader_ok l.1) commands -> refines a e -> inGlobal e = false ->
  twoAddresses (Last (Buf e)) addrs explicit 1 (Last (Buf e)) false = inr (first, last) ->
  let '(e', err, visits) := Editor.global re matching commands e addrs explicit in
  (visit_text <$> visits) `sublist_of` selected re matching (sub (first - 1) last (Lines (Buf e))) /\
  (all_additive commands -> err = None ->
   visit_text <$> visits = selected re matching (sub (first - 1) last (Lines (Buf e)))).
Proof.
  intros Hok R Hg HT. rewrite (ref_global _ _ R) in Hg.
  destruct (global_spec re matching commands Hok a e addrs explicit R Hg) as (a' & _ & _ & HV & _).
  specialize (HV first last HT). by destruct (Editor.global _ _ _ _ _ _) as [[e' err] visits].
Qed.

(** One undo takes back a whole global command: when it succeeds and its
    list has no [u], [u] brings back the text from before it, however many
    commands were run on however many lines. *)
Theorem global_undo re matching commands a e addrs explicit :
  Forall (fun l => reader_ok l.1) commands -> refines a e -> inGlobal e = false ->
  no_undo commands -> Last (Buf e) * len commands < 2 ^ 64 ->
  let '(e', err, _) := Editor.global re matching commands e addrs explicit in
  err = None ->
  (undo e').2 = None /\ Lines (Buf (undo e').1) = Lines (Buf e).
Proof.
  intros Hok R Hg Hu Hb. rewrite (ref_global _ _ R) in Hg.
  destruct (global_spec re matching commands Hok a e addrs explicit R Hg) as (a' & _ & _ & _ & HU & _).
  specialize (HU Hu Hb). destruct (Editor.global _ _ _ _ _ _) as [[e' err] visits]. cbn in HU. intros ->.
  destruct (HU eq_refl) as [Hv HL]. unfold undo. rewrite Hv. cbn. split; [done|].
  by destruct (sameLines _ _).
Qed.

(** The reader of an empty address: the current line stays. *)
Definition no_address : address_reader := fun e => inr (Current (Buf e), [], false).

Lemma no_address_ok : reader_ok no_address.
Proof. intros e c addrs x H [= <- <- <-]. exact H. Qed.

Lemma no_address_list (c : command) : Forall (fun l : address_reader * command => reader_ok l.1) [(no_address, c)].
Proof. apply Forall_singleton, no_address_ok. Qed.

(** Three lines, two of them an [x]. *)
Definition ex_text : list (list Z) := [[120]; [97]; [120]].
Definition is_x (l : list Z) : option bool := Some (bool_decide (l = [120])).

(** Each [x] is copied to the end of the buffer: the copies are not visited. *)
Lemma global_visits_witness :
  exists e' visits,
    Editor.global is_x true [(no_address, Ct 3)] (load ex_text) [] false = (e', None, visits) /\
    Lines (Buf e') = [[120]; [97]; [120]; [120]; [120]] /\
    visit_text <$> visits = [[120]; [120]].
Proof.
  pose proof (global_visits is_x true [(no_address, Ct 3)] (load_spec ex_text) (load ex_text) [] false 1 3
    (no_address_list _) (load_refines ex_text) eq_refl eq_refl) as H.
  destruct (Editor.global _ _ _ _ _ _) as [[e' err] visits] eqn:E. vm_compute in E. injection E as <- <- <-.
  eexists _, _. split; [reflexivity|]. split; [reflexivity|].
  apply (proj2 H); [apply Forall_singleton; reflexivity|reflexivity].
Defined.

(** Deleting the [x] lines and taking it back. *)
Lemma global_undo_witness :
  exists e' visits,
    Editor.global is_x true [(no_address, Cd)] (load ex_text) [] false = (e', None, visits) /\
    Lines (Buf e') = [[97]] /\ Lines (Buf (undo e').1) = ex_text.
Proof.
  pose proof (global_undo is_x true [(no_address, Cd)] (load_spec ex_text) (load ex_text) [] false
    (no_address_list _) (load_refines ex_text) eq_refl
    ltac:(apply Forall_singleton; discriminate) eq_refl) as H.
  destruct (Editor.global _ _ _ _ _ _) as [[e' err] visits] eqn:E. vm_compute in E. injection E as <- <- <-.
  eexists _, _. split; [reflexivity|]. split; [reflexivity|]. apply (proj2 (H eq_refl)).
Defined.

(** ** Sessions *)

(** The address readers are right, and a global command runs fewer than 2^64
    commands. *)
Definition input_ok (e : Engine) (i : input) : Prop :=
  match i with
  | Edit line => reader_ok line.1
  | Global reader _ _ commands =>
      reader_ok reader /\ Forall (fun l => reader_ok l.1) commands /\ Last (Buf e) * len commands < 2 ^ 64
  end.

Fixpoint session_ok (e : Engine) (inputs : list input) : Prop :=
  match inputs with
  | [] => True
  | i :: inputs' => input_ok e i /\ session_ok (run_input e i) inputs'
  end.

Lemma input_refines a e i :
  refines a e -> global a = false -> input_ok e i -> exists a', refines a' (run_input e i) /\ global a' = false.
Proof.
  intros R Hg. destruct i as [line|reader re m commands]; cbn [input_ok run_input].
  - intros Hr. destruct (line_effect a e line R Hr) as (a' & R' & E' & _). exists a'. split; [done|].
    by rewrite (ev_global _ _ E').
  - intros (Hr & Hok & Hb). destruct (reader e) as [err|[[c addrs] x]] eqn:E; [by exists a|].
    pose proof (Hr _ _ _ _ (current_range _ _ R) E) as Hc. rewrite (Last_refines _ _ R) in Hc.
    pose proof (refine_cur _ _ c R Hc) as R1. fold (set_current e c) in R1.
    destruct (global_spec re m commands Hok _ _ addrs x R1 Hg) as (a' & R' & Hg' & _ & _ & HL). specialize (HL Hb).
    destruct (Editor.global _ _ _ _ _ _) as [[e' [err|]] visits]; cbn [fst snd] in *; [|by exists a'].
    destruct (Z.eqb_spec (changeSeq e') (changeSeq e)) as [Es|]; [|by exists a'].
    eexists. split; [apply (refine_cur _ _ (Current (Buf e)) R')|done].
    rewrite <- (Last_refines _ _ R'). unfold Last. rewrite HL by done. apply (current_range _ _ R).
Qed.

Lemma session_refines a e inputs :
  refines a e -> global a = false -> session_ok e inputs -> exists a', refines a' (session e inputs).
Proof.
  revert a e. induction inputs as [|i inputs IH]; intros a e R Hg Hs; [by exists a|].
  destruct Hs as [Hi Hs]. destruct (input_refines a e i R Hg Hi) as (a' & R' & Hg'). by apply (IH a').
Qed.

Definition marks_ok (b : Buffer) (m : gmap Z Z) : Prop :=
  0 <= Current b <= Last b /\ forall k n, m !! k = Some n -> 1 <= n <= Last b.

Lemma view_marks_ok n v b m : view_rel v b m -> view_ok n v -> marks_ok b m.
Proof.
  intros (HL & HC & HM) (_ & _ & _ & O). unfold marks_ok, Last. rewrite HL, HC, len_fmap. split; [done|].
  intros k p. rewrite HM. destruct (vmarks v !! k); [cbn|done]. apply pos_range.
Qed.

(** [C34] In every session, whatever its commands, global commands and addresses
    and whether they fail or not, the current line is a line of the buffer or
    0 and every mark is on a line of the buffer; the same holds of the state
    undo would bring back. *)
Theorem session_invariant lines inputs :
  session_ok (load lines) inputs ->
  marks_ok (Buf (session (load lines) inputs)) (marks (session (load lines) inputs)) /\
  (undoValid (session (load lines) inputs) = true ->
   marks_ok (undoBuffer (session (load lines) inputs)) (undoMarks (session (load lines) inputs))).
Proof.
  intros Hs. destruct (session_refines _ _ inputs (load_refines lines) eq_refl Hs) as [a [Rv Rok Rb _ _ _ _]].
  split; [by eapply view_marks_ok|]. destruct (before a); [|congruence]. intros _.
  destruct Rb as (_ & ? & ?). by eapply view_marks_ok.
Qed.

Lemma session_invariant_witness :
  let inputs := [Edit (no_address, Ck 97); Global no_address is_x true [(no_address, Cm 0)]; Edit (no_address, Cd)] in
  marks_ok (Buf (session (load ex_text) inputs)) (marks (session (load ex_text) inputs)) /\
  Lines (Buf (session (load ex_text) inputs)) = [[120]; [97]] /\
  marks (session (load ex_text) inputs) !! 97 = None.
Proof.
  cbv zeta. split; [|split; vm_compute; reflexivity].
  apply (session_invariant ex_text [Edit (no_address, Ck 97); Global no_address is_x true [(no_address, Cm 0)];
    Edit (no_address, Cd)]).
  cbn [session_ok input_ok fst]. split_and!; try apply no_address_ok; try apply no_address_list; done.
Defined.

End EdGlobal.
