(* ===== verification/BreMatch.v ===== *)
(** * Regular expressions with back-references: the bounded matcher
    (src/pkg/bre/regexp.go)

    The nodes of a compiled pattern, the matcher, which gives every state a
    node can leave in the order of preference and counts its steps, and the
    search of a subject. *)

From Stdlib Require Import ZArith Lia.
From stdpp Require Import base tactics list numbers strings.
From S2P Require Import Prelude.

Module Bre.

Definition maxBacktrackSteps : Z := 200000.

(** The position in the subject and the captures, two for each group. *)
Record btState := mkState { pos : Z; caps : list Z }.

#[export] Instance btState_eq_dec : EqDecision btState.
Proof. solve_decision. Defined.

Definition set_pos (st : btState) (n : Z) : btState := mkState n (caps st).

(** A class holds the predicate its compiled bracket expression decides. *)
Inductive btNode :=
| seqNode (nodes : list btNode)
| altNode (nodes : list btNode)
| literalNode (lit : list Z) (ignoreCase : bool)
| dotNode (dotAll cutf8 : bool)
| anchorNode (b : Z)
| wordEdgeNode (b : Z)
| wordBoundaryNode (b : Z)
| builtinClassNode (b : Z)
| classNode (maxElementBytes : Z) (re : list Z -> bool) (cutf8 : bool)
| groupNode (num : Z) (child : btNode)
| backrefNode (num : Z) (ignoreCase : bool)
| repeatNode (child : btNode) (min max : Z).

Definition isWordByte (b : Z) : bool :=
  (b =? ch! "_") || ((ch! "0" <=? b) && (b <=? ch! "9")) || ((ch! "A" <=? b) && (b <=? ch! "Z")) ||
  ((ch! "a" <=? b) && (b <=? ch! "z")).

(** The size [utf8.DecodeRuneInString] gives: that of a well-formed encoding
    at the head of the string, 1 when there is none, 0 for no bytes. *)
Definition within (lo hi c : Z) : bool := (lo <=? c) && (c <=? hi).
Definition rune_size (s : list Z) : Z :=
  match s with
  | [] => 0
  | c0 :: s1 =>
      let cont c := within 128 191 c in
      match s1 with
      | c1 :: s2 =>
          if within 194 223 c0 && cont c1 then 2
          else
            match s2 with
            | c2 :: s3 =>
                if (within 225 236 c0 || within 238 239 c0) && cont c1 && cont c2 then 3
                else if (c0 =? 224) && within 160 191 c1 && cont c2 then 3
                else if (c0 =? 237) && within 128 159 c1 && cont c2 then 3
                else
                  match s3 with
                  | c3 :: _ =>
                      if (within 241 243 c0 && cont c1 || (c0 =? 240) && within 144 191 c1 ||
                          (c0 =? 244) && within 128 143 c1) && cont c2 && cont c3
                      then 4 else 1
                  | [] => 1
                  end
            | [] => 1
            end
      | [] => 1
      end
  end.

Section Match.
(** [strings.EqualFold]. *)
Context (EqualFold : list Z -> list Z -> bool).
(** The subject and the limit of the steps. *)
Context (s : list Z) (limit : Z).

Definition at_ (i : Z) : Z := s !!! Z.to_nat i.

Definition literal_match (lit : list Z) (ignoreCase : bool) (st : btState) : list btState :=
  if len s <? pos st + len lit then []
  else
    let got := sub (pos st) (pos st + len lit) s in
    if (ignoreCase && EqualFold got lit) || (negb ignoreCase && str_eqb got lit)
    then [set_pos st (pos st + len lit)] else [].

Definition dot_match (dotAll cutf8 : bool) (st : btState) : list btState :=
  if (len s <=? pos st) || (negb dotAll && (at_ (pos st) =? 10)) then []
  else [set_pos st (pos st + if cutf8 then rune_size (drop (Z.to_nat (pos st)) s) else 1)].

Definition anchor_match (b : Z) (st : btState) : list btState :=
  if b =? ch! "^" then (if pos st =? 0 then [st] else [])
  else if b =? ch! "$" then (if pos st =? len s then [st] else [])
  else [].

Definition wordEdge_match (b : Z) (st : btState) : list btState :=
  if b =? ch! "<" then
    if (pos st <? len s) && isWordByte (at_ (pos st)) &&
       ((pos st =? 0) || negb (isWordByte (at_ (pos st - 1))))
    then [st] else []
  else if b =? ch! ">" then
    if (0 <? pos st) && isWordByte (at_ (pos st - 1)) &&
       ((pos st =? len s) || negb (isWordByte (at_ (pos st))))
    then [st] else []
  else [].

Definition wordBoundary_match (b : Z) (st : btState) : list btState :=
  let left := (0 <? pos st) && isWordByte (at_ (pos st - 1)) in
  let right := (pos st <? len s) && isWordByte (at_ (pos st)) in
  if Bool.eqb (b =? ch! "b") (negb (Bool.eqb left right)) then [st] else [].

Definition builtinClass_match (b : Z) (st : btState) : list btState :=
  if len s <=? pos st then []
  else
    let c := at_ (pos st) in
    let ok :=
      if (b =? ch! "w") || (b =? ch! "W") then isWordByte c
      else if (b =? ch! "s") || (b =? ch! "S")
      then (c =? 32) || (c =? 9) || (c =? 10) || (c =? 13) || (c =? 12)
      else false in
    let ok := if (b =? ch! "W") || (b =? ch! "S") then negb ok else ok in
    if ok then [set_pos st (pos st + 1)] else [].

(** The loop over the ends of an element of at most [n] bytes: the states,
    longest first, or nothing when the limit is passed. *)
Fixpoint class_ends (fuel : nat) (n : Z) (re : list Z -> bool) (steps : Z) (st : btState) (end_ : Z)
    (states : list btState) : Z * list btState :=
  match fuel with
  | O => (steps, states)
  | S fuel' =>
      if (end_ <? len s) && (end_ - pos st <? n) then
        let end_ := end_ + rune_size (drop (Z.to_nat end_) s) in
        let steps := steps + 1 in
        if limit <? steps then (steps, [])
        else
          class_ends fuel' n re steps st end_
            (if re (sub (pos st) end_ s) then set_pos st end_ :: states else states)
      else (steps, states)
  end.

Definition class_match (n : Z) (re : list Z -> bool) (cutf8 : bool) (steps : Z) (st : btState) : Z * list btState :=
  let steps := steps + 1 in
  if len s <=? pos st then (steps, [])
  else if 0 <? n then class_ends (length s) n re steps st (pos st) []
  else
    let size := if cutf8 then rune_size (drop (Z.to_nat (pos st)) s) else 1 in
    (steps, if re (sub (pos st) (pos st + size) s) then [set_pos st (pos st + size)] else []).

Definition cap (st : btState) (i : Z) : Z := caps st !!! Z.to_nat i.

Definition backref_match (num : Z) (ignoreCase : bool) (st : btState) : list btState :=
  let b := cap st (2 * num) in
  let e := cap st (2 * num + 1) in
  if (b <? 0) || (e <? 0) then []
  else if e =? b then [st]
  else literal_match (sub b e s) ignoreCase st.

Definition set_caps (num from : Z) (st : btState) : btState :=
  mkState (pos st) (<[Z.to_nat (2 * num + 1) := pos st]> (<[Z.to_nat (2 * num) := from]> (caps st))).

(** [child.match] on every state of a list; nothing when the limit is passed
    after one of them. *)
Fixpoint match_each (f : Z -> btState -> Z * list btState) (steps : Z) (states : list btState) : Z * option (list btState) :=
  match states with
  | [] => (steps, Some [])
  | st :: states' =>
      let '(steps, outs) := f steps st in
      if limit <? steps then (steps, None)
      else
        match match_each f steps states' with
        | (steps, Some next) => (steps, Some (outs ++ next))
        | (steps, None) => (steps, None)
        end
  end.

(** The loops of a sequence and of an alternation over their children. *)
Fixpoint match_seq (fs : list (Z -> btState -> Z * list btState)) (steps : Z) (states : list btState) : Z * list btState :=
  match fs with
  | [] => (steps, states)
  | f :: fs' =>
      match match_each f steps states with
      | (steps, None) => (steps, [])
      | (steps, Some next) => if len next =? 0 then (steps, []) else match_seq fs' steps next
      end
  end.

Fixpoint match_alt (fs : list (Z -> btState -> Z * list btState)) (steps : Z) (st : btState) (out : list btState) : Z * list btState :=
  match fs with
  | [] => (steps, out)
  | f :: fs' =>
      let '(steps, outs) := f steps st in
      if limit <? steps then (steps, []) else match_alt fs' steps st (out ++ outs)
  end.

(** The states one more iteration leaves, without those it does not change. *)
Fixpoint next_level (f : Z -> btState -> Z * list btState) (steps : Z) (states : list btState) : Z * list btState :=
  match states with
  | [] => (steps, [])
  | st :: states' =>
      let '(steps, outs) := f steps st in
      let '(steps, next) := next_level f steps states' in
      (steps, filter (fun out => out <> st) outs ++ next)
  end.

(** The levels of a repeat, the last one first. *)
Fixpoint repeat_levels (f : Z -> btState -> Z * list btState) (max : nat) (steps : Z)
    (level : list btState) (levels : list (list btState)) : Z * list (list btState) :=
  match max with
  | O => (steps, levels)
  | S max' =>
      let '(steps, next) := next_level f steps level in
      if (len next =? 0) || (limit <? steps) then (steps, levels)
      else repeat_levels f max' steps next (next :: levels)
  end.

Fixpoint bt_match (n : btNode) (steps : Z) (st : btState) {struct n} : Z * list btState :=
  match n with
  | seqNode nodes => match_seq (map bt_match nodes) steps [st]
  | altNode nodes => match_alt (map bt_match nodes) steps st []
  | literalNode lit ic => (steps + 1, literal_match lit ic st)
  | dotNode dotAll cutf8 => (steps + 1, dot_match dotAll cutf8 st)
  | anchorNode b => (steps + 1, anchor_match b st)
  | wordEdgeNode b => (steps + 1, wordEdge_match b st)
  | wordBoundaryNode b => (steps + 1, wordBoundary_match b st)
  | builtinClassNode b => (steps + 1, builtinClass_match b st)
  | classNode n re cutf8 => class_match n re cutf8 steps st
  | groupNode num child =>
      let '(steps, outs) := bt_match child steps st in (steps, set_caps num (pos st) <$> outs)
  | backrefNode num ic => (steps + 1, backref_match num ic st)
  | repeatNode child min max =>
      let max := if max <? 0 then len s - pos st + 1 else max in
      let '(steps, levels) := repeat_levels (bt_match child) (Z.to_nat max) steps [st] [[st]] in
      (steps, if len levels - 1 <? min then [] else concat (take (Z.to_nat (len levels - min)) levels))
  end.

End Match.

(** ** Searching *)

Record btProg := mkProg { root : btNode; groups : Z; anchored : bool; longest : bool; cutf8 : bool }.

Section Find.
Context (EqualFold : list Z -> list Z -> bool).

(** The first state, or the first of those that reach furthest. *)
Definition pick (p : btProg) (sts : list btState) : option btState :=
  match sts with
  | [] => None
  | st :: sts' =>
      Some (if longest p
            then foldl (fun best st => if pos best <? pos st then st else best) st sts' else st)
  end.

Definition matchAt (p : btProg) (s : list Z) (limit steps start : Z) : Z * list btState :=
  let '(steps, outs) := bt_match EqualFold s limit (root p) steps (mkState start (replicate 20 (-1))) in
  (steps, if limit <? steps then [] else outs).

(** The offsets of a match and of its groups. *)
Definition offsets (p : btProg) (start : Z) (st : btState) : list Z :=
  start :: pos st :: take (Z.to_nat (2 * groups p)) (drop 2 (caps st)).

(** The matches from [start] on, at most [n] of them when [n] is positive;
    [None] is the error of the step limit. [fuel] bounds the iterations. *)
Fixpoint find_loop (fuel : nat) (p : btProg) (s : list Z) (limit n steps start : Z) (out : list (list Z)) : outcome (option (list (list Z))) :=
  match fuel with
  | O => OutOfFuel
  | S fuel' =>
      if len s <? start then Ret (Some out)
      else
        let '(steps, sts) := matchAt p s limit steps start in
        let found := pick p sts in
        if limit <? steps then Ret None
        else
          let advance out :=
            if anchored p then Ret (Some out)
            else if start =? len s then Ret (Some out)
            else
              let size := if cutf8 p then rune_size (drop (Z.to_nat start) s) else 1 in
              find_loop fuel' p s limit n steps (start + size) out in
          match found with
          | Some st =>
              let out := out ++ [offsets p start st] in
              if (0 <? n) && (n <=? len out) then Ret (Some out)
              else if start <? pos st then find_loop fuel' p s limit n steps (pos st) out
              else advance out
          | None => advance out
          end
  end.

Definition find (p : btProg) (s : list Z) (n : Z) : outcome (option (list (list Z))) :=
  find_loop (length s + 2) p s maxBacktrackSteps n 0 0 [].

End Find.

End Bre.
