(* ===== verification/BreCorrect.v ===== *)
(** * The matcher finds what POSIX says it should

    A declarative meaning of the nodes; below its step limit the matcher gives
    exactly the states of that meaning when no repeated subexpression can match
    the empty string; every match keeps its captures in range; and the search
    gives the leftmost match, the longest one when asked to. *)

From Stdlib Require Import ZArith Lia Sorted.
From stdpp Require Import base tactics list numbers strings.
From S2P Require Import Prelude BreMatch.

Module BreCorrect.
Import Bre.

(** Induction on nodes with the lists of children. *)
Section Induction.
Context (P : btNode -> Prop).
Hypothesis Hseq : forall l, Forall P l -> P (seqNode l).
Hypothesis Halt : forall l, Forall P l -> P (altNode l).
Hypothesis Hlit : forall l ic, P (literalNode l ic).
Hypothesis Hdot : forall d c, P (dotNode d c).
Hypothesis Hanc : forall b, P (anchorNode b).
Hypothesis Hedge : forall b, P (wordEdgeNode b).
Hypothesis Hbound : forall b, P (wordBoundaryNode b).
Hypothesis Hbuiltin : forall b, P (builtinClassNode b).
Hypothesis Hclass : forall n re c, P (classNode n re c).
Hypothesis Hgroup : forall num c, P c -> P (groupNode num c).
Hypothesis Hback : forall num ic, P (backrefNode num ic).
Hypothesis Hrep : forall c min max, P c -> P (repeatNode c min max).

Fixpoint btNode_ind' (n : btNode) : P n :=
  match n with
  | seqNode l => Hseq l ((fix go l : Forall P l := match l with [] => Forall_nil_2 _ | c :: l => Forall_cons_2 _ _ _ (btNode_ind' c) (go l) end) l)
  | altNode l => Halt l ((fix go l : Forall P l := match l with [] => Forall_nil_2 _ | c :: l => Forall_cons_2 _ _ _ (btNode_ind' c) (go l) end) l)
  | literalNode l ic => Hlit l ic
  | dotNode d c => Hdot d c
  | anchorNode b => Hanc b
  | wordEdgeNode b => Hedge b
  | wordBoundaryNode b => Hbound b
  | builtinClassNode b => Hbuiltin b
  | classNode n re c => Hclass n re c
  | groupNode num c => Hgroup num c (btNode_ind' c)
  | backrefNode num ic => Hback num ic
  | repeatNode c min max => Hrep c min max (btNode_ind' c)
  end.
End Induction.

(** ** The meaning of a node *)

Section Meaning.
Context (EqualFold : list Z -> list Z -> bool) (s : list Z).

Abbreviation byte_at := (at_ s).

Definition same_text (ignoreCase : bool) (a b : list Z) : Prop :=
  if ignoreCase then EqualFold a b = true else a = b.

(** The text [t] is next. *)
Definition literal_spec (t : list Z) (ic : bool) (st st' : btState) : Prop :=
  pos st + len t <= len s /\ same_text ic (sub (pos st) (pos st + len t) s) t /\
  st' = set_pos st (pos st + len t).

(** The position [k] characters further on. *)
Fixpoint runes (k : nat) (p : Z) : Z :=
  match k with
  | O => p
  | S k' => runes k' p + rune_size (drop (Z.to_nat (runes k' p)) s)
  end.

Definition char_size (utf8 : bool) (p : Z) : Z := if utf8 then rune_size (drop (Z.to_nat p) s) else 1.

Definition word_before (p : Z) : bool := (0 <? p) && isWordByte (byte_at (p - 1)).
Definition word_after (p : Z) : bool := (p <? len s) && isWordByte (byte_at p).

Definition class_spec (n : Z) (re : list Z -> bool) (utf8 : bool) (st st' : btState) : Prop :=
  pos st < len s /\
  if 0 <? n then
    exists k, (forall j, (j < S k)%nat -> runes j (pos st) < len s /\ runes j (pos st) - pos st < n) /\
      re (sub (pos st) (runes (S k) (pos st)) s) = true /\ st' = set_pos st (runes (S k) (pos st))
  else
    re (sub (pos st) (pos st + char_size utf8 (pos st)) s) = true /\
    st' = set_pos st (pos st + char_size utf8 (pos st)).

(** A group that took part matches its text again. *)
Definition backref_spec (num : Z) (ic : bool) (st st' : btState) : Prop :=
  let b := cap st (2 * num) in
  let e := cap st (2 * num + 1) in
  0 <= b /\ 0 <= e /\ if e =? b then st' = st else literal_spec (sub b e s) ic st st'.

Definition builtin_spec (b c : Z) : bool :=
  if b =? ch! "w" then isWordByte c
  else if b =? ch! "W" then negb (isWordByte c)
  else if b =? ch! "s" then (c =? 32) || (c =? 9) || (c =? 10) || (c =? 13) || (c =? 12)
  else if b =? ch! "S" then negb ((c =? 32) || (c =? 9) || (c =? 10) || (c =? 13) || (c =? 12))
  else false.

(** [k] steps of a relation. *)
Fixpoint iter (R : btState -> btState -> Prop) (k : nat) (st st' : btState) : Prop :=
  match k with
  | O => st' = st
  | S k' => exists st1, iter R k' st st1 /\ R st1 st'
  end.

(** One relation after the other, and one of several. *)
Fixpoint chain (Rs : list (btState -> btState -> Prop)) (st st' : btState) : Prop :=
  match Rs with
  | [] => st' = st
  | R :: Rs' => exists st1, R st st1 /\ chain Rs' st1 st'
  end.

Fixpoint choice (Rs : list (btState -> btState -> Prop)) (st st' : btState) : Prop :=
  match Rs with
  | [] => False
  | R :: Rs' => R st st' \/ choice Rs' st st'
  end.

(** A node takes a state to another, given what a repeat means. *)
Fixpoint means (rep : (btState -> btState -> Prop) -> Z -> Z -> btState -> btState -> Prop)
    (n : btNode) (st st' : btState) {struct n} : Prop :=
  match n with
  | seqNode nodes => chain (map (means rep) nodes) st st'
  | altNode nodes => choice (map (means rep) nodes) st st'
  | literalNode t ic => literal_spec t ic st st'
  | dotNode dotAll utf8 =>
      pos st < len s /\ (dotAll = true \/ byte_at (pos st) <> 10) /\
      st' = set_pos st (pos st + char_size utf8 (pos st))
  | anchorNode b =>
      st' = st /\ ((b = ch! "^" /\ pos st = 0) \/ (b = ch! "$" /\ pos st = len s))
  | wordEdgeNode b =>
      st' = st /\
      ((b = ch! "<" /\ word_after (pos st) = true /\ word_before (pos st) = false) \/
       (b = ch! ">" /\ word_before (pos st) = true /\ word_after (pos st) = false))
  | wordBoundaryNode b => st' = st /\ (b = ch! "b" <-> word_before (pos st) <> word_after (pos st))
  | builtinClassNode b =>
      pos st < len s /\ builtin_spec b (byte_at (pos st)) = true /\ st' = set_pos st (pos st + 1)
  | classNode n re utf8 => class_spec n re utf8 st st'
  | groupNode num c => exists st1, means rep c st st1 /\ st' = set_caps num (pos st) st1
  | backrefNode num ic => backref_spec num ic st st'
  | repeatNode c min max => rep (means rep c) min max st st'
  end.

(** POSIX: between [min] and [max] repetitions, any number when [max] is
    negative. *)
Definition rep_posix (R : btState -> btState -> Prop) (min max : Z) (st st' : btState) : Prop :=
  exists k, min <= Z.of_nat k /\ (max < 0 \/ Z.of_nat k <= max) /\ iter R k st st'.

(** The matcher: every repetition changes the state, and an unbounded repeat
    makes at most one more than there are bytes left. *)
Definition rep_matcher (R : btState -> btState -> Prop) (min max : Z) (st st' : btState) : Prop :=
  exists k, min <= Z.of_nat k /\ Z.of_nat k <= (if max <? 0 then len s - pos st + 1 else max) /\
    iter (fun a b => R a b /\ b <> a) k st st'.

Abbreviation posix := (means rep_posix).
Abbreviation matches := (means rep_matcher).

(** ** States stay in range *)

(** The position and the captures are offsets of the subject. *)
Definition cap_ok (st : btState) (num : Z) : Prop :=
  (cap st (2 * num) = -1 /\ cap st (2 * num + 1) = -1) \/
  0 <= cap st (2 * num) <= cap st (2 * num + 1) /\ cap st (2 * num + 1) <= len s.

Definition state_ok (st : btState) : Prop :=
  0 <= pos st <= len s /\ length (caps st) = 20%nat /\ forall num, 1 <= num <= 9 -> cap_ok st num.

(** The groups of a node have numbers from 1 to 9. *)
Fixpoint wf (n : btNode) : bool :=
  match n with
  | seqNode nodes | altNode nodes => forallb wf nodes
  | groupNode num c => (1 <=? num) && (num <=? 9) && wf c
  | backrefNode num _ => (1 <=? num) && (num <=? 9)
  | repeatNode c min _ => (0 <=? min) && wf c
  | _ => true
  end.

Lemma rune_size_range t : t <> [] -> 1 <= rune_size t <= len t.
Proof.
  destruct t as [|c0 [|c1 [|c2 [|c3 t]]]]; intros H; [done|..]; unfold rune_size, len; cbn [length];
    repeat case_match; lia.
Qed.

Lemma char_size_range utf8 p : 0 <= p < len s -> 1 <= char_size utf8 p <= len s - p.
Proof.
  intros Hp. unfold char_size. destruct utf8; [|lia].
  assert (Hl : len (drop (Z.to_nat p) s) = len s - p) by (unfold len in *; rewrite length_drop; lia).
  rewrite <- Hl. apply rune_size_range. intros E. rewrite E in Hl. change (len []) with 0 in Hl. lia.
Qed.

Lemma runes_range k p :
  0 <= p -> (forall j, (j < k)%nat -> runes j p < len s) -> p + Z.of_nat k <= runes k p /\ ((0 < k)%nat -> runes k p <= len s).
Proof.
  intros Hp. induction k as [|k IH]; intros Hj; [cbn; split; lia|].
  destruct IH as [H1 H2]; [intros; apply Hj; lia|]. specialize (Hj k ltac:(lia)).
  cbn [runes]. pose proof (char_size_range true (runes k p) ltac:(lia)) as Hc. unfold char_size in Hc. split; lia.
Qed.

Lemma set_pos_ok st n : state_ok st -> 0 <= n <= len s -> state_ok (set_pos st n).
Proof. intros (H1 & H2 & H3) Hn. split; [done|]. split; [done|]. exact H3. Qed.

Lemma cap_set_caps num k from st :
  length (caps st) = 20%nat -> 1 <= num <= 9 -> 1 <= k <= 9 ->
  cap (set_caps num from st) (2 * k) = (if k =? num then from else cap st (2 * k)) /\
  cap (set_caps num from st) (2 * k + 1) = (if k =? num then pos st else cap st (2 * k + 1)).
Proof.
  intros Hl Hn Hk. unfold cap, set_caps; cbn [caps]. destruct (Z.eqb_spec k num) as [->|Hne].
  - rewrite list_lookup_total_insert_ne by lia. rewrite !list_lookup_total_insert_eq by (rewrite ?length_insert; lia). done.
  - by rewrite !list_lookup_total_insert_ne by lia.
Qed.

Lemma literal_ok t ic st st' :
  state_ok st -> literal_spec t ic st st' -> state_ok st' /\ pos st <= pos st'.
Proof.
  intros Hok (H1 & _ & ->). pose proof (len_nonneg t). destruct Hok as (? & ? & ?).
  split; [apply set_pos_ok; [done|lia]|cbn; lia].
Qed.

Lemma iter_ok (R : btState -> btState -> Prop) k st st' :
  (forall a b, state_ok a -> R a b -> state_ok b /\ pos a <= pos b) ->
  state_ok st -> iter R k st st' -> state_ok st' /\ pos st <= pos st'.
Proof.
  intros HR Hok. revert st'. induction k as [|k IH]; intros st'; cbn; [by intros ->|].
  intros (st1 & H1 & H2). destruct (IH _ H1) as [K1 K2]. destruct (HR _ _ K1 H2). split; [done|lia].
Qed.

Lemma means_ok rep n :
  (forall R min max st st', rep R min max st st' -> exists k, iter R k st st') ->
  wf n = true -> forall st st', state_ok st -> means rep n st st' -> state_ok st' /\ pos st <= pos st'.
Proof.
  intros Hrep. induction n as [l IH|l IH|t ic|d u|b|b|b|b|m re u|num c IH|num ic|c min max IH] using btNode_ind';
    cbn [wf means]; intros Hwf st st' Hok.
  - revert st Hok. cbn [forallb map chain choice] in *. induction IH as [|c l Hc _ IHl]; intros st Hok; [by intros ->|].
    cbn in Hwf. apply andb_true_iff in Hwf as [Hwc Hwl]. intros (st1 & H1 & H2).
    destruct (Hc Hwc _ _ Hok H1) as [K1 K2]. destruct (IHl Hwl _ K1 H2). split; [done|lia].
  - induction IH as [|c l Hc _ IHl]; [done|]. cbn in Hwf. apply andb_true_iff in Hwf as [Hwc Hwl].
    intros [H|H]; [by apply (Hc Hwc)|by apply IHl].
  - by apply literal_ok.
  - intros (H1 & _ & ->). pose proof Hok as (? & _). pose proof (char_size_range u (pos st) ltac:(lia)).
    split; [apply set_pos_ok; [done|lia]|cbn; lia].
  - by intros [-> _].
  - by intros [-> _].
  - by intros [-> _].
  - intros (H1 & _ & ->). pose proof Hok as (? & _). split; [apply set_pos_ok; [done|lia]|cbn; lia].
  - intros [H1 H2]. pose proof Hok as (? & _). destruct (0 <? m).
    + destruct H2 as (k & Hk & _ & ->). destruct (runes_range (S k) (pos st)) as [K1 K2]; [lia|intros; by apply Hk|].
      split; [apply set_pos_ok; [done|lia]|cbn [pos set_pos]; lia].
    + destruct H2 as [_ ->]. pose proof (char_size_range u (pos st) ltac:(lia)).
      split; [apply set_pos_ok; [done|lia]|cbn; lia].
  - apply andb_true_iff in Hwf as [[Hn1%Z.leb_le Hn2%Z.leb_le]%andb_true_iff Hwc]. intros (st1 & H1 & ->).
    destruct (IH Hwc _ _ Hok H1) as [K1 K2]. split; [|done]. pose proof K1 as (P1 & P2 & P3). split; [done|]. split.
    + cbn. by rewrite !length_insert.
    + intros k Hk. destruct (cap_set_caps num k (pos st) st1 P2 ltac:(lia) Hk) as [C1 C2]. unfold cap_ok. rewrite C1, C2.
      destruct (k =? num); [|by apply P3]. destruct Hok as (? & _). lia.
  - intros (_ & _ & H). destruct (_ =? _); [by subst|]. by eapply literal_ok.
  - intros H. apply andb_true_iff in Hwf as [_ Hwc]. destruct (Hrep _ _ _ _ _ H) as [k Hk].
    by eapply iter_ok; [apply (IH Hwc)| |].
Qed.

Lemma posix_iter R min max st st' : rep_posix R min max st st' -> exists k, iter R k st st'.
Proof. intros (k & _ & _ & H). eauto. Qed.

Lemma iter_mono (R R' : btState -> btState -> Prop) k st st' :
  (forall a b, R a b -> R' a b) -> iter R k st st' -> iter R' k st st'.
Proof.
  intros HR. revert st'. induction k as [|k IH]; intros st'; cbn; [done|]. intros (st1 & H1 & H2). eauto.
Qed.

Lemma matcher_iter R min max st st' : rep_matcher R min max st st' -> exists k, iter R k st st'.
Proof. intros (k & _ & _ & H). exists k. eapply iter_mono; [|done]. by intros a b [? _]. Qed.

(** ** The leaves *)

Lemma sing_iff (c : bool) (P : Prop) (x y : btState) :
  (c = true <-> P) -> (y ∈ (if c then [x] else []) <-> P /\ y = x).
Proof. intros H. destruct c; rewrite ?list_elem_of_singleton, ?elem_of_nil; naive_solver. Qed.

Lemma literal_exact t ic st st' :
  st' ∈ literal_match EqualFold s t ic st <-> literal_spec t ic st st'.
Proof.
  unfold literal_match, literal_spec, same_text. destruct (Z.ltb_spec (len s) (pos st + len t)).
  { rewrite elem_of_nil. split; [done|]. intros [? _]. lia. }
  rewrite sing_iff; [|reflexivity]. destruct ic; cbn; rewrite ?orb_false_r, ?str_eqb_eq; naive_solver.
Qed.

Lemma dot_exact d u st st' :
  st' ∈ dot_match s d u st <->
  pos st < len s /\ (d = true \/ byte_at (pos st) <> 10) /\ st' = set_pos st (pos st + char_size u (pos st)).
Proof.
  unfold dot_match. destruct (Z.leb_spec (len s) (pos st)); cbn [orb].
  { rewrite elem_of_nil. split; [done|]. intros [? _]. lia. }
  fold (char_size u (pos st)). destruct d; cbn [negb andb].
  - rewrite list_elem_of_singleton. naive_solver.
  - destruct (Z.eqb_spec (byte_at (pos st)) 10) as [E|E].
    + rewrite elem_of_nil. naive_solver.
    + rewrite list_elem_of_singleton. naive_solver.
Qed.

Lemma anchor_exact b st st' :
  st' ∈ anchor_match s b st <->
  st' = st /\ ((b = ch! "^" /\ pos st = 0) \/ (b = ch! "$" /\ pos st = len s)).
Proof.
  unfold anchor_match. destruct (Z.eqb_spec b 94) as [->|]; [|destruct (Z.eqb_spec b 36) as [->|]].
  - rewrite sing_iff by apply Z.eqb_eq. naive_solver.
  - rewrite sing_iff by apply Z.eqb_eq. naive_solver.
  - rewrite elem_of_nil. naive_solver.
Qed.

Lemma word_edges p :
  0 <= p <= len s ->
  (p <? len s) && isWordByte (byte_at p) && ((p =? 0) || negb (isWordByte (byte_at (p - 1)))) =
    word_after p && negb (word_before p) /\
  (0 <? p) && isWordByte (byte_at (p - 1)) && ((p =? len s) || negb (isWordByte (byte_at p))) =
    word_before p && negb (word_after p).
Proof.
  intros Hp. unfold word_after, word_before.
  destruct (Z.ltb_spec p (len s)), (Z.ltb_spec 0 p), (Z.eqb_spec p 0), (Z.eqb_spec p (len s)); try lia; cbn [andb orb negb];
    destruct (isWordByte (byte_at p)), (isWordByte (byte_at (p - 1))); done.
Qed.

Lemma wordEdge_exact b st st' :
  0 <= pos st <= len s ->
  st' ∈ wordEdge_match s b st <->
  st' = st /\
      ((b = ch! "<" /\ word_after (pos st) = true /\ word_before (pos st) = false) \/
       (b = ch! ">" /\ word_before (pos st) = true /\ word_after (pos st) = false)).
Proof.
  intros Hp. destruct (word_edges _ Hp) as [E1 E2]. unfold wordEdge_match. rewrite E1, E2.
  destruct (Z.eqb_spec b 60) as [->|]; [|destruct (Z.eqb_spec b 62) as [->|]].
  - rewrite sing_iff by reflexivity. rewrite andb_true_iff, negb_true_iff. naive_solver.
  - rewrite sing_iff by reflexivity. rewrite andb_true_iff, negb_true_iff. naive_solver.
  - rewrite elem_of_nil. naive_solver.
Qed.

Lemma wordBoundary_exact b st st' :
  st' ∈ wordBoundary_match s b st <->
  st' = st /\ (b = ch! "b" <-> word_before (pos st) <> word_after (pos st)).
Proof.
  unfold wordBoundary_match. fold (word_before (pos st)) (word_after (pos st)). rewrite sing_iff by reflexivity.
  destruct (Z.eqb_spec b 98) as [->|Hb], (word_before (pos st)), (word_after (pos st)); cbn; naive_solver.
Qed.

Lemma builtin_exact b st st' :
  st' ∈ builtinClass_match s b st <->
  pos st < len s /\ builtin_spec b (byte_at (pos st)) = true /\ st' = set_pos st (pos st + 1).
Proof.
  unfold builtinClass_match. destruct (Z.leb_spec (len s) (pos st)).
  { rewrite elem_of_nil. split; [done|]. intros [? _]. lia. }
  rewrite (sing_iff _ (builtin_spec b (byte_at (pos st)) = true)); [naive_solver|].
  unfold builtin_spec. destruct (Z.eqb_spec b 119) as [->|]; [done|]. destruct (Z.eqb_spec b 87) as [->|]; [done|].
  destruct (Z.eqb_spec b 115) as [->|]; [done|]. destruct (Z.eqb_spec b 83) as [->|]; done.
Qed.

Lemma backref_exact num ic st st' :
  st' ∈ backref_match EqualFold s num ic st <-> backref_spec num ic st st'.
Proof.
  unfold backref_match, backref_spec. destruct (Z.ltb_spec (cap st (2 * num)) 0); cbn [orb].
  { rewrite elem_of_nil. split; [done|]. intros (? & _). lia. }
  destruct (Z.ltb_spec (cap st (2 * num + 1)) 0).
  { rewrite elem_of_nil. split; [done|]. intros (_ & ? & _). lia. }
  destruct (_ =? _).
  - rewrite list_elem_of_singleton. naive_solver.
  - rewrite literal_exact. naive_solver.
Qed.

(** ** Counting steps *)

Section Limit.
Context (limit : Z).

(** Below the limit, [f] gives the states related to its argument. *)
Definition exact (f : Z -> btState -> Z * list btState) (R : btState -> btState -> Prop) : Prop :=
  forall steps st, state_ok st ->
    steps <= (f steps st).1 /\
    ((f steps st).1 <= limit -> forall st', st' ∈ (f steps st).2 <-> R st st').

Definition in_element (n : Z) (st : btState) (j : nat) : Prop :=
  runes j (pos st) < len s /\ runes j (pos st) - pos st < n.

Lemma class_ends_exact n re st fuel steps j states :
  state_ok st -> (forall i, (i < j)%nat -> in_element n st i) ->
  len s - runes j (pos st) <= Z.of_nat fuel ->
  let r := class_ends s limit fuel n re steps st (runes j (pos st)) states in
  steps <= r.1 /\
  (r.1 <= limit -> forall st', st' ∈ r.2 <->
     st' ∈ states \/
     exists k, (j <= k)%nat /\ (forall i, (i < S k)%nat -> in_element n st i) /\
       re (sub (pos st) (runes (S k) (pos st)) s) = true /\ st' = set_pos st (runes (S k) (pos st))).
Proof.
  intros Hok. revert steps j states. induction fuel as [|fuel IH]; intros steps j states Hj Hfuel; cbv zeta.
  - cbn. split; [lia|]. intros _ st'. split; [by left|]. intros [|(k & Hk & Hin & _)]; [done|].
    destruct (Hin j ltac:(lia)). lia.
  - cbn [class_ends]. destruct ((runes j (pos st) <? len s) && (runes j (pos st) - pos st <? n)) eqn:E.
    + apply andb_true_iff in E as [E1%Z.ltb_lt E2%Z.ltb_lt]. fold (runes (S j) (pos st)).
      assert (Hj' : forall i, (i < S j)%nat -> in_element n st i).
      { intros i Hi. destruct (decide (i = j)) as [->|]; [done|apply Hj; lia]. }
      destruct (Z.ltb_spec limit (steps + 1)); [cbn; split; lia|].
      destruct Hok as (Hp & ?). destruct (runes_range j (pos st)) as [K1 _]; [lia|intros; by apply Hj|].
      pose proof (char_size_range true (runes j (pos st)) ltac:(lia)) as Hc. unfold char_size in Hc.
      change (runes j (pos st) + rune_size (drop (Z.to_nat (runes j (pos st))) s)) with (runes (S j) (pos st)) in *.
      match goal with |- context [class_ends _ _ _ _ _ _ _ _ ?x] =>
        destruct (IH (steps + 1) (S j) x Hj') as [I1 I2]; [cbn [runes]; lia|] end.
      split; [lia|]. intros Hle st'. rewrite (I2 Hle). split.
      * intros [Hin|(k & Hk & H')]; [|right; exists k; split; [lia|done]].
        destruct (re _) eqn:Er; [|by left]. apply elem_of_cons in Hin as [->|]; [|by left].
        right. exists j. by split_and!.
      * intros [Hin|(k & Hk & H1 & H2 & ->)]; [left; destruct (re _); [by right|done]|].
        destruct (decide (k = j)) as [->|]; [left; rewrite H2; by left|right; exists k; split; [lia|done]].
    + cbn. split; [lia|]. intros _ st'. split; [by left|]. intros [|(k & Hk & Hin & _)]; [done|].
      destruct (Hin j ltac:(lia)) as [? ?]. apply andb_false_iff in E as [E%Z.ltb_ge|E%Z.ltb_ge]; lia.
Qed.

Lemma class_exact n re u : exact (class_match s limit n re u) (class_spec n re u).
Proof.
  intros steps st Hok. unfold class_match, class_spec. pose proof Hok as (Hp & _).
  destruct (Z.leb_spec (len s) (pos st)).
  { cbn. split; [lia|]. intros _ st'. rewrite elem_of_nil. split; [done|]. intros [? _]. lia. }
  destruct (0 <? n).
  - destruct (class_ends_exact n re st (length s) (steps + 1) 0 [] Hok) as [I1 I2]; [lia|cbn; unfold len; lia|].
    cbn [runes] in I1, I2. split; [lia|]. intros Hle st'. rewrite (I2 Hle), elem_of_nil. split.
    + intros [[]|(k & _ & H1 & H2 & ->)]. split; [done|]. exists k. by split_and!.
    + intros (_ & k & H1 & H2 & ->). right. exists k. split_and!; (done || lia).
  - cbn [fst snd]. split; [lia|]. intros _ st'. fold (char_size u (pos st)). rewrite sing_iff by reflexivity. naive_solver.
Qed.

Lemma match_each_exact f R steps states :
  exact f R -> Forall state_ok states ->
  steps <= (match_each limit f steps states).1 /\
  ((match_each limit f steps states).1 <= limit ->
   exists next, (match_each limit f steps states).2 = Some next /\
     forall st', st' ∈ next <-> exists st, st ∈ states /\ R st st').
Proof.
  intros Hf Hok. revert steps. induction Hok as [|st states Hst _ IH]; intros steps; cbn [match_each].
  - cbn. split; [lia|]. intros _. exists []. split; [done|]. intros st'. split; [by intros ?%elem_of_nil|].
    by intros (? & ?%elem_of_nil & _).
  - destruct (Hf steps st Hst) as [H1 H2]. destruct (f steps st) as [steps1 outs]; cbn [fst snd] in *.
    destruct (Z.ltb_spec limit steps1); [cbn; split; lia|]. specialize (H2 ltac:(lia)).
    destruct (IH steps1) as [K1 K2]. destruct (match_each limit f steps1 states) as [steps2 [next|]]; cbn [fst snd] in *.
    + split; [lia|]. intros Hle. destruct (K2 Hle) as (next' & [= <-] & Hn). eexists. split; [done|].
      intros st'. rewrite elem_of_app, H2, Hn. setoid_rewrite elem_of_cons. naive_solver.
    + split; [lia|]. intros Hle. destruct (K2 Hle) as (? & ? & _). done.
Qed.

Lemma next_level_exact f R steps states :
  exact f R -> Forall state_ok states ->
  steps <= (next_level f steps states).1 /\
  ((next_level f steps states).1 <= limit ->
   forall st', st' ∈ (next_level f steps states).2 <-> exists st, st ∈ states /\ R st st' /\ st' <> st).
Proof.
  intros Hf Hok. revert steps. induction Hok as [|st states Hst _ IH]; intros steps; cbn [next_level].
  - cbn. split; [lia|]. intros _ st'. split; [by intros ?%elem_of_nil|]. by intros (? & ?%elem_of_nil & _).
  - destruct (Hf steps st Hst) as [H1 H2]. destruct (f steps st) as [steps1 outs]; cbn [fst snd] in *.
    destruct (IH steps1) as [K1 K2]. destruct (next_level f steps1 states) as [steps2 next]; cbn [fst snd] in *.
    split; [lia|]. intros Hle st'. rewrite elem_of_app, list_elem_of_filter, H2, K2 by lia.
    setoid_rewrite elem_of_cons. naive_solver.
Qed.

Section Repeat.
Context (f : Z -> btState -> Z * list btState) (R : btState -> btState -> Prop) (st : btState).
Hypothesis Hf : exact f R.
Hypothesis HR : forall a b, state_ok a -> R a b -> state_ok b /\ pos a <= pos b.
Hypothesis Hst : state_ok st.

Local Abbreviation step := (fun a b => R a b /\ b <> a).

(** The levels, last first, hold the states after [m], [m - 1], ... 0 steps. *)
Definition levels_ok (m : nat) (levels : list (list btState)) : Prop :=
  length levels = S m /\
  forall i L, (i <= m)%nat -> levels !! (m - i)%nat = Some L -> forall st', st' ∈ L <-> iter step i st st'.

Lemma step_ok a b : state_ok a -> step a b -> state_ok b /\ pos a <= pos b.
Proof using HR. intros Ha [Hab _]. by apply HR. Qed.

Lemma repeat_levels_exact max steps m level rest :
  levels_ok m (level :: rest) ->
  let r := repeat_levels limit f max steps level (level :: rest) in
  steps <= r.1 /\
  (r.1 <= limit -> exists m', (m <= m' <= m + max)%nat /\ levels_ok m' r.2 /\
     (m' = (m + max)%nat \/ forall st', ~ iter step (S m') st st')).
Proof using EqualFold Hf HR Hst.
  revert steps m level rest. induction max as [|max IH]; intros steps m level rest HL; cbv zeta.
  { cbn. split; [lia|]. intros _. exists m. split_and!; (done || lia). }
  destruct HL as [Hlen HL]. assert (Hlev : forall st', st' ∈ level <-> iter step m st st').
  { apply (HL m level); [lia|]. by rewrite Nat.sub_diag. }
  assert (Hok : Forall state_ok level).
  { apply Forall_forall. intros x Hx. eapply (iter_ok step m st x step_ok Hst). by apply Hlev. }
  cbn [repeat_levels]. destruct (next_level_exact f R steps level Hf Hok) as [N1 N2].
  destruct (next_level f steps level) as [steps1 next]; cbn [fst snd] in *.
  assert (Hnext : steps1 <= limit -> forall st', st' ∈ next <-> iter step (S m) st st').
  { intros Hle st'. rewrite (N2 Hle). cbn. setoid_rewrite Hlev. done. }
  destruct ((len next =? 0) || (limit <? steps1)) eqn:E.
  - split; [done|]. cbn [fst snd]. intros Hle. exists m. split_and!; [lia|lia|by split|].
    right. intros st' Hit. apply (Hnext Hle) in Hit. apply orb_true_iff in E as [E%Z.eqb_eq|E%Z.ltb_lt]; [|lia].
    destruct next; [by apply elem_of_nil in Hit|]. rewrite len_cons in E. pose proof (len_nonneg next). lia.
  - apply orb_false_iff in E as [_ E%Z.ltb_ge]. specialize (Hnext E).
    destruct (IH steps1 (S m) next (level :: rest)) as [I1 I2].
    { split; [cbn; by rewrite <- Hlen|]. intros i L Hi. destruct (decide (i = S m)) as [->|].
      - rewrite Nat.sub_diag. intros [= <-]. done.
      - replace (S m - i)%nat with (S (m - i)) by lia. apply HL. lia. }
    split; [lia|]. intros Hle. destruct (I2 Hle) as (m' & Hm & H'). exists m'. split; [lia|].
    replace (m + S max)%nat with (S m + max)%nat by lia. done.
Qed.

Lemma iter_beyond m k : (forall st', ~ iter step (S m) st st') -> (m < k)%nat -> forall st', ~ iter step k st st'.
Proof using Type.
  intros Hm Hk. induction Hk as [|k Hk IH]; [done|]. intros st' (st1 & H1 & _). by apply (IH st1).
Qed.

Lemma levels_elem m levels min st' :
  levels_ok m levels -> 0 <= min <= Z.of_nat m ->
  st' ∈ concat (take (Z.to_nat (len levels - min)) levels) <->
  exists k, min <= Z.of_nat k <= Z.of_nat m /\ iter step k st st'.
Proof using Type.
  intros [Hlen HL] Hmin. unfold len. rewrite Hlen.
  rewrite elem_of_concat. split.
  - intros (L & HL' & Hin). apply list_elem_of_lookup in HL' as [j Hj].
    apply lookup_take_Some in Hj as [Hj Hlt]. exists (m - j)%nat. split; [lia|].
    apply (HL (m - j)%nat L); [lia| |done]. by replace (m - (m - j))%nat with j by lia.
  - intros (k & Hk & Hit). destruct (lookup_lt_is_Some_2 levels (m - k)) as [L HLk]; [lia|].
    exists L. split; [|by apply (HL k L); [lia|..]]. apply list_elem_of_lookup. exists (m - k)%nat.
    apply lookup_take_Some. split; [done|lia].
Qed.

Lemma repeat_exact max steps min :
  0 <= min ->
  let r := repeat_levels limit f (Z.to_nat max) steps [st] [[st]] in
  steps <= r.1 /\
  (r.1 <= limit ->
   forall st', st' ∈ (if len r.2 - 1 <? min then [] else concat (take (Z.to_nat (len r.2 - min)) r.2)) <->
     exists k, min <= Z.of_nat k /\ (k <= Z.to_nat max)%nat /\ iter step k st st').
Proof using EqualFold Hf HR Hst.
  intros Hmin. cbv zeta. destruct (repeat_levels_exact (Z.to_nat max) steps 0 [st] []) as [I1 I2].
  { split; [done|]. intros i L Hi. replace i with 0%nat by lia. cbn. intros [= <-] st'. apply list_elem_of_singleton. }
  split; [done|]. intros Hle. destruct (I2 Hle) as (m & Hm & HL & Hend). pose proof HL as [Hlen _].
  set (levels := (repeat_levels _ _ _ _ _ _).2) in *. intros st'.
  assert (Hmax : forall k, (k <= Z.to_nat max)%nat -> iter step k st st' -> (k <= m)%nat).
  { intros k Hk Hit. destruct (decide (k <= m)%nat) as [|Hn]; [done|]. destruct Hend as [->|Hend]; [lia|].
    exfalso. eapply (iter_beyond m k Hend); [lia|done]. }
  destruct (Z.ltb_spec (len levels - 1) min) as [Hlt|Hge]; unfold len in *; rewrite Hlen in *.
  - rewrite elem_of_nil. split; [done|]. intros (k & Hk & Hk' & Hit). specialize (Hmax k Hk' Hit). lia.
  - fold (len levels) in *. rewrite <- Hlen. fold (len levels). rewrite (levels_elem m levels min st' HL) by lia.
    split.
    + intros (k & Hk & Hit). exists k. split_and!; (done || lia).
    + intros (k & Hk & Hk' & Hit). exists k. split; [|done]. specialize (Hmax k Hk' Hit). lia.
Qed.

End Repeat.

Lemma leaf_exact (g : btState -> list btState) (R : btState -> btState -> Prop) :
  (forall st st', state_ok st -> st' ∈ g st <-> R st st') -> exact (fun steps st => (steps + 1, g st)) R.
Proof. intros H steps st Hok. cbn. split; [lia|]. intros _ st'. by apply H. Qed.

Lemma matches_ok n st st' :
  wf n = true -> state_ok st -> matches n st st' -> state_ok st' /\ pos st <= pos st'.
Proof. intros Hwf. apply means_ok; [apply matcher_iter|done]. Qed.

(** The count of steps never decreases. *)
Definition mono (f : Z -> btState -> Z * list btState) : Prop := forall steps st, steps <= (f steps st).1.

Lemma class_ends_mono fuel n re steps st e states :
  steps <= (class_ends s limit fuel n re steps st e states).1.
Proof.
  revert steps e states. induction fuel as [|fuel IH]; intros steps e states; cbn; [lia|].
  destruct (_ && _); cbn; [|lia]. destruct (limit <? steps + 1); cbn; [lia|].
  etransitivity; [|apply IH]. lia.
Qed.

Lemma match_each_mono f steps states : mono f -> steps <= (match_each limit f steps states).1.
Proof.
  intros Hf. revert steps. induction states as [|st states IH]; intros steps; cbn; [lia|].
  specialize (Hf steps st). destruct (f steps st) as [steps1 outs]. cbn in Hf.
  destruct (limit <? steps1); cbn; [lia|]. specialize (IH steps1).
  destruct (match_each limit f steps1 states) as [? [?|]]; cbn in *; lia.
Qed.

Lemma next_level_mono f steps states : mono f -> steps <= (next_level f steps states).1.
Proof.
  intros Hf. revert steps. induction states as [|st states IH]; intros steps; cbn; [lia|].
  specialize (Hf steps st). destruct (f steps st) as [steps1 outs]. cbn in Hf. specialize (IH steps1).
  destruct (next_level f steps1 states). cbn in *. lia.
Qed.

Lemma repeat_levels_mono f max steps level levels :
  mono f -> steps <= (repeat_levels limit f max steps level levels).1.
Proof.
  intros Hf. revert steps level levels. induction max as [|max IH]; intros steps level levels; cbn; [lia|].
  pose proof (next_level_mono f steps level Hf). destruct (next_level f steps level) as [steps1 next]. cbn in *.
  destruct (_ || _); cbn; [lia|]. etransitivity; [|apply IH]. lia.
Qed.

Lemma match_mono n : mono (bt_match EqualFold s limit n).
Proof.
  induction n as [l IH|l IH|t ic|d u|b|b|b|b|m re u|num c IH|num ic|c min max IH] using btNode_ind';
    intros steps st; cbn [bt_match]; try (cbn; lia).
  - generalize [st]. revert steps. induction IH as [|c l Hc _ IHl]; intros steps states; [cbn; lia|].
    cbn [map match_seq]. pose proof (match_each_mono _ steps states Hc).
    destruct (match_each limit _ steps states) as [steps1 [next|]]; [|cbn in *; lia].
    destruct (len next =? 0); [cbn in *; lia|]. etransitivity; [|apply IHl]. done.
  - generalize (@nil btState). revert steps. induction IH as [|c l Hc _ IHl]; intros steps out; [cbn; lia|].
    cbn [map match_alt]. specialize (Hc steps st). destruct (bt_match EqualFold s limit c steps st) as [steps1 outs].
    destruct (limit <? steps1); [done|]. etransitivity; [|apply IHl]. done.
  - unfold class_match. destruct (_ <=? _); [cbn; lia|]. destruct (0 <? m); [|cbn; lia].
    etransitivity; [|apply class_ends_mono]. lia.
  - specialize (IH steps st). by destruct (bt_match EqualFold s limit c steps st).
  - pose proof (repeat_levels_mono _ (Z.to_nat (if max <? 0 then len s - pos st + 1 else max)) steps [st] [[st]] IH) as H.
    by destruct (repeat_levels _ _ _ _ _ _).
Qed.

Lemma seq_mono fs steps states : Forall mono fs -> steps <= (match_seq limit fs steps states).1.
Proof.
  intros Hfs. revert steps states. induction Hfs as [|f fs Hf _ IH]; intros steps states; [cbn; lia|].
  cbn [match_seq]. pose proof (match_each_mono _ steps states Hf).
  destruct (match_each limit f steps states) as [steps1 [next|]]; [|done].
  destruct (len next =? 0); [done|]. etransitivity; [|apply IH]. done.
Qed.

(** A child with the relation it implements. *)
Definition implements (f : Z -> btState -> Z * list btState) (R : btState -> btState -> Prop) : Prop :=
  exact f R /\ mono f /\ forall a b, state_ok a -> R a b -> state_ok b /\ pos a <= pos b.

Lemma seq_exact fs Rs steps states :
  Forall2 implements fs Rs -> Forall state_ok states -> (match_seq limit fs steps states).1 <= limit ->
  forall st', st' ∈ (match_seq limit fs steps states).2 <-> exists st, st ∈ states /\ chain Rs st st'.
Proof.
  intros HF. revert steps states. induction HF as [|f R fs Rs (Hf & Hm & HR) HF IH]; intros steps states Hok.
  { cbn. intros _ st'. naive_solver. }
  cbn [match_seq chain]. destruct (match_each_exact _ _ steps states Hf Hok) as [_ K2].
  destruct (match_each limit f steps states) as [steps1 [next|]]; cbn [fst snd] in *.
  2: { intros Hle. destruct (K2 Hle) as (? & ? & _). done. }
  destruct (Z.eqb_spec (len next) 0) as [E|E].
  - cbn [fst snd]. intros Hle st'. destruct (K2 Hle) as (? & [= <-] & Hn).
    destruct next; [|rewrite len_cons in E; pose proof (len_nonneg next); lia].
    rewrite elem_of_nil. split; [done|]. intros (st & Hin & st1 & H1 & _). eapply (elem_of_nil st1), Hn. eauto.
  - intros Hle st'. assert (Hle1 : steps1 <= limit).
    { etransitivity; [|exact Hle]. apply seq_mono. clear -HF. induction HF as [|? ? ? ? (_ & ? & _)]; by constructor. }
    destruct (K2 Hle1) as (? & [= <-] & Hn).
    assert (Hok' : Forall state_ok next).
    { apply Forall_forall. intros x (st & Hin & Hx)%Hn. rewrite Forall_forall in Hok. by apply (HR st x); [apply Hok|]. }
    rewrite (IH steps1 next Hok' Hle). setoid_rewrite Hn. naive_solver.
Qed.

Lemma alt_mono fs steps st out : Forall mono fs -> steps <= (match_alt limit fs steps st out).1.
Proof.
  intros Hfs. revert steps out. induction Hfs as [|f fs Hf _ IH]; intros steps out; [cbn; lia|].
  cbn [match_alt]. specialize (Hf steps st). destruct (f steps st) as [steps1 outs]. destruct (limit <? steps1); [done|].
  etransitivity; [|apply IH]. done.
Qed.

Lemma alt_exact fs Rs steps st out :
  Forall2 implements fs Rs -> state_ok st -> (match_alt limit fs steps st out).1 <= limit ->
  forall st', st' ∈ (match_alt limit fs steps st out).2 <-> st' ∈ out \/ choice Rs st st'.
Proof.
  intros HF Hok. revert steps out. induction HF as [|f R fs Rs (Hf & Hm & HR) HF IH]; intros steps out.
  { cbn. intros _ st'. naive_solver. }
  cbn [match_alt choice]. destruct (Hf steps st Hok) as [_ H2]. destruct (f steps st) as [steps1 outs]. cbn [fst snd] in *.
  destruct (Z.ltb_spec limit steps1); [cbn; lia|]. intros Hle st'.
  rewrite (IH steps1 (out ++ outs) Hle), elem_of_app, H2 by lia. naive_solver.
Qed.

Lemma children_implement l :
  Forall (fun c => wf c = true -> exact (bt_match EqualFold s limit c) (matches c)) l -> forallb wf l = true ->
  Forall2 implements (map (bt_match EqualFold s limit) l) (map (means rep_matcher) l).
Proof.
  intros IH. induction IH as [|c l Hc _ IHl]; cbn; [constructor|]. intros [Hwc Hwl]%andb_true_iff.
  constructor; [|by apply IHl]. split_and!; [by apply Hc|apply match_mono|]. intros a b. by apply matches_ok.
Qed.

(** Below the limit the matcher gives exactly the states of its meaning. *)
Lemma match_exact n : wf n = true -> exact (bt_match EqualFold s limit n) (matches n).
Proof.
  induction n as [l IH|l IH|t ic|d u|b|b|b|b|m re u|num c IH|num ic|c min max IH] using btNode_ind'; intros Hwf.
  - intros steps st Hok. split; [apply match_mono|]. cbn [bt_match means]. intros Hle st'.
    rewrite (seq_exact _ _ _ _ (children_implement l IH Hwf)); [|by apply Forall_singleton|done].
    setoid_rewrite list_elem_of_singleton. naive_solver.
  - intros steps st Hok. split; [apply match_mono|]. cbn [bt_match means]. intros Hle st'.
    rewrite (alt_exact _ _ _ _ _ (children_implement l IH Hwf)) by done. rewrite elem_of_nil. naive_solver.
  - apply leaf_exact. intros. apply literal_exact.
  - apply leaf_exact. intros. apply dot_exact.
  - apply leaf_exact. intros. apply anchor_exact.
  - apply leaf_exact. intros st st' (? & _). by apply wordEdge_exact.
  - apply leaf_exact. intros. apply wordBoundary_exact.
  - apply leaf_exact. intros. apply builtin_exact.
  - apply class_exact.
  - cbn in Hwf. apply andb_true_iff in Hwf as [_ Hwc]. intros steps st Hok. split; [apply match_mono|].
    cbn [bt_match means]. destruct (IH Hwc steps st Hok) as [_ H2].
    destruct (bt_match EqualFold s limit c steps st) as [steps1 outs]. cbn [fst snd] in *. intros Hle st'.
    rewrite list_elem_of_fmap. setoid_rewrite (H2 Hle). naive_solver.
  - apply leaf_exact. intros. apply backref_exact.
  - cbn in Hwf. apply andb_true_iff in Hwf as [Hmin%Z.leb_le Hwc]. intros steps st Hok. split; [apply match_mono|].
    cbn [bt_match means]. set (mx := if max <? 0 then len s - pos st + 1 else max).
    assert (Hmx : 0 <= mx) by (destruct Hok as (? & _); subst mx; destruct (Z.ltb_spec max 0); lia).
    destruct (repeat_exact _ _ st (IH Hwc) (fun a b => matches_ok c a b Hwc) Hok mx steps min Hmin) as [_ H2].
    destruct (repeat_levels _ _ _ _ _ _) as [steps1 levels]. cbn [fst snd] in *. intros Hle st'. rewrite (H2 Hle).
    unfold rep_matcher. fold mx. split; intros (k & Hk & Hk' & Hit); exists k; split_and!; (done || lia).
Qed.

End Limit.

(** ** The matcher and POSIX *)

Lemma matches_posix n st st' : matches n st st' -> posix n st st'.
Proof.
  revert st st'.
  induction n as [l IH|l IH|t ic|d u|b|b|b|b|m re u|num c IH|num ic|c min max IH] using btNode_ind';
    cbn [means]; intros st st'; try done.
  - revert st. induction IH as [|c l Hc _ IHl]; intros st; [done|]. cbn. intros (st1 & H1 & H2). eauto.
  - induction IH as [|c l Hc _ IHl]; [done|]. cbn. intros [H|H]; auto.
  - intros (st1 & H1 & ->). eauto.
  - intros (k & H1 & H2 & H3). exists k. split_and!; [done|destruct (Z.ltb_spec max 0); lia|].
    eapply iter_mono; [|done]. intros a b [H _]. by apply IH.
Qed.

(** A node that cannot match the empty string, as its form shows. *)
Fixpoint consumes (n : btNode) : bool :=
  match n with
  | seqNode nodes => existsb consumes nodes
  | altNode nodes => forallb consumes nodes
  | literalNode t _ => 0 <? len t
  | dotNode _ _ | builtinClassNode _ | classNode _ _ _ => true
  | groupNode _ c => consumes c
  | repeatNode c min _ => (1 <=? min) && consumes c
  | _ => false
  end.

(** No repeated node can match the empty string. *)
Fixpoint proper (n : btNode) : bool :=
  match n with
  | seqNode nodes | altNode nodes => forallb proper nodes
  | groupNode _ c => proper c
  | repeatNode c _ _ => consumes c && proper c
  | _ => true
  end.

Lemma posix_ok n st st' : wf n = true -> state_ok st -> posix n st st' -> state_ok st' /\ pos st <= pos st'.
Proof. intros Hwf. apply means_ok; [apply posix_iter|done]. Qed.

Lemma iter_consumes (R : btState -> btState -> Prop) k st st' :
  (forall a b, state_ok a -> R a b -> state_ok b /\ pos a < pos b) ->
  state_ok st -> iter R k st st' ->
  state_ok st' /\ pos st + Z.of_nat k <= pos st' /\ iter (fun a b => R a b /\ b <> a) k st st'.
Proof.
  intros HR Hok. revert st'. induction k as [|k IH]; intros st'; cbn [iter]; [intros ->; split_and!; (done || lia)|].
  intros (st1 & H1 & H2). destruct (IH _ H1) as (K1 & K2 & K3). destruct (HR _ _ K1 H2) as [K4 K5].
  split_and!; [done|lia|]. exists st1. split_and!; [done..|]. intros ->. lia.
Qed.

Lemma consumes_pos n st st' :
  wf n = true -> consumes n = true -> state_ok st -> posix n st st' -> pos st < pos st'.
Proof.
  revert st st'.
  induction n as [l IH|l IH|t ic|d u|b|b|b|b|m re u|num c IH|num ic|c min max IH] using btNode_ind';
    cbn [wf consumes means]; intros st st' Hwf Hc Hok; try done.
  - revert st Hok. induction IH as [|c l IHc _ IHl]; intros st Hok; [done|]. cbn in *.
    apply andb_true_iff in Hwf as [Hwc Hwl]. intros (st1 & H1 & H2).
    destruct (posix_ok c _ _ Hwc Hok H1) as [K1 K2].
    destruct (posix_ok (seqNode l) st1 st' Hwl K1 H2) as [_ K4].
    apply orb_true_iff in Hc as [Hc|Hc]; [specialize (IHc _ _ Hwc Hc Hok H1); lia|].
    specialize (IHl Hwl Hc st1 K1 H2). lia.
  - induction IH as [|c l IHc _ IHl]; [done|]. cbn in *.
    apply andb_true_iff in Hwf as [Hwc Hwl]. apply andb_true_iff in Hc as [Hcc Hcl]. intros [H|H]; auto.
  - intros (_ & _ & ->). apply Z.ltb_lt in Hc. cbn. lia.
  - intros (H1 & _ & ->). destruct Hok as (? & _). pose proof (char_size_range u (pos st) ltac:(lia)). cbn. lia.
  - intros (H1 & _ & ->). cbn. lia.
  - intros [H1 H2]. destruct Hok as (? & _). destruct (0 <? m).
    + destruct H2 as (k & Hk & _ & ->). destruct (runes_range (S k) (pos st)) as [K1 _]; [lia|intros; by apply Hk|].
      cbn [pos set_pos]. lia.
    + destruct H2 as [_ ->]. pose proof (char_size_range u (pos st) ltac:(lia)). cbn. lia.
  - apply andb_true_iff in Hwf as [_ Hwc]. intros (st1 & H1 & ->). cbn [pos set_caps]. by apply (IH st st1).
  - apply andb_true_iff in Hwf as [_ Hwc]. apply andb_true_iff in Hc as [Hm%Z.leb_le Hcc]. intros (k & Hk & _ & Hit).
    assert (HR : forall a b, state_ok a -> posix c a b -> state_ok b /\ pos a < pos b).
    { intros a b Ha Hab. split; [by apply (posix_ok c a b)|by apply IH]. }
    destruct (iter_consumes _ k st st' HR Hok Hit) as (_ & K & _). lia.
Qed.

Lemma posix_matches n st st' :
  wf n = true -> proper n = true -> state_ok st -> posix n st st' -> matches n st st'.
Proof.
  revert st st'.
  induction n as [l IH|l IH|t ic|d u|b|b|b|b|m re u|num c IH|num ic|c min max IH] using btNode_ind';
    cbn [wf proper means]; intros st st' Hwf Hp Hok; try done.
  - revert st Hok. induction IH as [|c l IHc _ IHl]; intros st Hok; [done|]. cbn in *.
    apply andb_true_iff in Hwf as [Hwc Hwl]. apply andb_true_iff in Hp as [Hpc Hpl]. intros (st1 & H1 & H2).
    destruct (posix_ok c _ _ Hwc Hok H1) as [K1 K2]. exists st1. auto.
  - induction IH as [|c l IHc _ IHl]; [done|]. cbn in *.
    apply andb_true_iff in Hwf as [Hwc Hwl]. apply andb_true_iff in Hp as [Hpc Hpl]. intros [H|H]; auto.
  - apply andb_true_iff in Hwf as [_ Hwc]. intros (st1 & H1 & ->). eauto.
  - apply andb_true_iff in Hwf as [_ Hwc]. apply andb_true_iff in Hp as [Hcc Hpc]. intros (k & Hk & Hmax & Hit).
    assert (HR : forall a b, state_ok a -> posix c a b -> state_ok b /\ pos a < pos b).
    { intros a b Ha Hab. split; [by apply (posix_ok c a b)|by apply (consumes_pos c)]. }
    destruct (iter_consumes _ k st st' HR Hok Hit) as (K0 & K1 & K2).
    exists k. split_and!; [done| |].
    + destruct K0 as (? & _). destruct (Z.ltb_spec max 0); lia.
    + clear Hit Hk Hmax K0 K1. revert st' K2. induction k as [|k IHk]; intros st'; cbn; [done|].
      intros (st1 & H1 & H2 & H3). exists st1. split_and!; [by apply IHk| |done].
      apply IH; [done..| |done]. eapply (iter_ok _ k st st1); [|done|exact H1].
      intros a b Ha [Hab _]. by apply (posix_ok c a b).
Qed.

End Meaning.

(** [C6] The matcher and POSIX: below its step limit, every state the matcher
    gives is one the pattern can leave by the POSIX meaning of its nodes, and
    when no repeated subexpression can match the empty string it gives all of
    them, back-references included. *)
Theorem match_posix EqualFold s limit n steps st :
  wf n = true -> state_ok s st ->
  let '(steps', outs) := bt_match EqualFold s limit n steps st in
  steps' <= limit ->
  (forall st', st' ∈ outs -> means EqualFold s rep_posix n st st') /\
  (proper n = true -> forall st', means EqualFold s rep_posix n st st' -> st' ∈ outs).
Proof.
  intros Hwf Hok. destruct (match_exact EqualFold s limit n Hwf steps st Hok) as [_ H].
  destruct (bt_match EqualFold s limit n steps st) as [steps' outs]. cbn in H. intros Hle. specialize (H Hle). split.
  - intros st' Hin. by apply matches_posix, H.
  - intros Hp st' Hst. apply H. by apply posix_matches.
Qed.

(** [(a|b)*\1] on [abb]. *)
Definition ex_node : btNode :=
  seqNode [repeatNode (groupNode 1 (altNode [literalNode [97] false; literalNode [98] false])) 0 (-1); backrefNode 1 false].
Definition ex_subject : list Z := [97; 98; 98].
Definition init (start : Z) : btState := mkState start (replicate 20 (-1)).

Lemma init_ok s start : 0 <= start <= len s -> state_ok s (init start).
Proof.
  intros H. split; [done|]. split; [done|]. intros num Hn. left.
  unfold cap, init; cbn [caps]. rewrite !lookup_total_replicate_2 by lia. done.
Qed.

Lemma match_posix_witness :
  (forall st', st' ∈ (bt_match (fun _ _ => false) ex_subject 100 ex_node 0 (init 0)).2 <->
     means (fun _ _ => false) ex_subject rep_posix ex_node (init 0) st') /\
  pos <$> (bt_match (fun _ _ => false) ex_subject 100 ex_node 0 (init 0)).2 = [3].
Proof.
  split; [|vm_compute; reflexivity]. intros st'.
  pose proof (match_posix (fun _ _ => false) ex_subject 100 ex_node 0 (init 0) eq_refl
    (init_ok ex_subject 0 ltac:(unfold len; cbn; lia))) as H.
  destruct (bt_match _ _ _ _ _ _) as [steps outs] eqn:E.
  assert (Hs : steps <= 100) by (apply (f_equal fst) in E; vm_compute in E; subst steps; lia).
  destruct (H Hs) as [H1 H2]. split; [apply H1|by apply H2].
Defined.

(** ** Searching *)

Section FindCorrect.
Context (EqualFold : list Z -> list Z -> bool) (s : list Z) (p : btProg).

(** What the compiler says of the program it makes: well-formed groups, and
    anchored only when it starts with [^]. *)
Record prog_ok : Prop := mkProgOk {
  prog_wf : wf (root p) = true;
  prog_groups : 0 <= groups p <= 9;
  prog_anchored : anchored p = true -> exists r, root p = seqNode (anchorNode 94 :: r)
}.
Hypothesis Hprog : prog_ok.

Local Abbreviation matching := (means EqualFold s (rep_matcher s) (root p)).

Lemma matchAt_exact limit steps start :
  0 <= start <= len s ->
  let '(steps', sts) := matchAt EqualFold p s limit steps start in
  steps' <= limit -> forall st, st ∈ sts <-> matching (init start) st.
Proof using Hprog.
  intros Hs. unfold matchAt. destruct Hprog as [Hwf _ _].
  destruct (match_exact EqualFold s limit (root p) Hwf steps (init start) (init_ok s start Hs)) as [_ H].
  unfold init in H. destruct (bt_match _ _ _ _ _ _) as [steps' outs]. cbn in H. intros Hle.
  rewrite (proj2 (Z.ltb_ge limit steps')) by lia. by apply H.
Qed.

Lemma pick_longest (st : btState) sts :
  let best := foldl (fun best st => if pos best <? pos st then st else best) st sts in
  best ∈ st :: sts /\ forall st', st' ∈ st :: sts -> pos st' <= pos best.
Proof using Type.
  cbv zeta. revert st. induction sts as [|x sts IH]; intros st; cbn [foldl].
  - split; [by left|]. intros st' [-> |[]%elem_of_nil]%elem_of_cons. lia.
  - destruct (Z.ltb_spec (pos st) (pos x)).
    + destruct (IH x) as [H1 H2]. split; [by right|].
      intros st' [-> |Hin]%elem_of_cons; [|by apply H2]. specialize (H2 x ltac:(by left)). lia.
    + destruct (IH st) as [H1 H2]. split.
      * apply elem_of_cons in H1 as [H1|H1]; [rewrite H1; by left|by do 2 right].
      * intros st' [-> |[-> |Hin]%elem_of_cons]%elem_of_cons; [apply H2; by left| |apply H2; by right].
        specialize (H2 st ltac:(by left)). lia.
Qed.

Lemma pick_spec sts :
  match pick p sts with
  | None => sts = []
  | Some st => st ∈ sts /\ (longest p = true -> forall st', st' ∈ sts -> pos st' <= pos st)
  end.
Proof using Type.
  unfold pick. destruct sts as [|st sts]; [done|]. destruct (longest p) eqn:E.
  - destruct (pick_longest st sts). auto.
  - split; [by left|done].
Qed.

Lemma anchored_start start st : anchored p = true -> matching (init start) st -> start = 0.
Proof using Hprog.
  intros Ha. destruct (prog_anchored Hprog Ha) as [r ->]. cbn [means map chain].
  intros (st1 & (_ & [[_ H]|[H _]]) & _); [exact H|done].
Qed.

(** The position behind the character at [i]: the next byte, or, for a program
    of C.UTF-8, behind the encoding at [i] (of a byte that begins none, behind
    that byte). *)
Definition past (i : Z) : Z := i + if cutf8 p then Z.max 1 (rune_size (drop (Z.to_nat i) s)) else 1.

(** The positions where a match may begin: [i] and those that the characters
    from [i] on lead to, up to the end of the subject. *)
Inductive begins (i : Z) : Z -> Prop :=
| begins_here : i <= len s -> begins i i
| begins_later j : begins (past i) j -> begins i j.

Lemma begins_range i j : begins i j -> i <= j <= len s.
Proof using Type. induction 1 as [|i j _ IH]; [lia|]. unfold past in IH. destruct (cutf8 p); lia. Qed.

(** In a program of bytes a match may begin anywhere. *)
Lemma begins_bytes i j : cutf8 p = false -> begins i j <-> i <= j <= len s.
Proof using Type.
  intros Hu. split; [apply begins_range|]. intros Hj. remember (Z.to_nat (j - i)) as d eqn:Hd. revert i Hd Hj.
  induction d as [|d IH]; intros i Hd Hj; [replace j with i by lia; constructor; lia|].
  apply begins_later. unfold past. rewrite Hu. apply IH; lia.
Qed.

(** The match at [b] is leftmost, and longest when asked for, from [start]. *)
Definition leftmost (R : btState -> btState -> Prop) (start b : Z) (st : btState) : Prop :=
  begins start b /\ R (init b) st /\
  forall b' st', begins start b' -> R (init b') st' ->
    b <= b' /\ (longest p = true -> b' = b -> pos st' <= pos st).

(** Matches in order that do not overlap. *)
Definition after (m m' : list Z) : Prop := m !!! 1%nat <= m' !!! 0%nat /\ m !!! 0%nat < m' !!! 0%nat.

Definition reported (R : btState -> btState -> Prop) (m : list Z) : Prop :=
  exists b st, m = offsets p b st /\ 0 <= b <= len s /\ R (init b) st /\ state_ok s st /\ b <= pos st.

(** [start] is behind the last match. *)
Definition behind (out : list (list Z)) (start : Z) : Prop :=
  forall m, List.last out [] = m -> out <> [] -> m !!! 1%nat <= start /\ m !!! 0%nat < start.

Lemma sorted_snoc out m start :
  Sorted after out -> behind out start -> m !!! 0%nat = start -> Sorted after (out ++ [m]).
Proof using Type.
  intros Hs. revert start. induction Hs as [|x out Hs IH Hd]; intros start Hb Hm; cbn; [by repeat constructor|].
  destruct out as [|y out]; cbn.
  - constructor; [by repeat constructor|]. constructor. destruct (Hb x eq_refl ltac:(done)). unfold after. lia.
  - constructor; [apply (IH start); [|done]|by inversion Hd; constructor].
    intros m' Hm' Hne. apply Hb; [exact Hm'|done].
Qed.

Lemma find_all limit fuel n steps start out :
  0 <= start -> (start <= len s -> len s - start + 1 < Z.of_nat fuel) -> (0 < fuel)%nat ->
  Sorted after out -> Forall (reported matching) out -> behind out start ->
  exists r, find_loop EqualFold fuel p s limit n steps start out = Ret r /\
    forall out', r = Some out' -> Sorted after out' /\ Forall (reported matching) out'.
Proof using Hprog.
  revert steps start out. induction fuel as [|fuel IH]; intros steps start out H0 Hfuel Hf Hs Hr Hb; [lia|].
  cbn [find_loop]. destruct (Z.ltb_spec (len s) start); [eexists; split; [done|]; intros ? [= <-]; done|].
  specialize (Hfuel ltac:(lia)). pose proof (matchAt_exact limit steps start ltac:(lia)) as HM.
  destruct (matchAt EqualFold p s limit steps start) as [steps' sts].
  destruct (Z.ltb_spec limit steps'); [by eexists|]. specialize (HM ltac:(lia)).
  assert (Hadv : forall out, Sorted after out -> Forall (reported matching) out ->
    (forall m, List.last out [] = m -> out <> [] -> m !!! 1%nat <= start /\ m !!! 0%nat <= start) ->
    exists r, (if anchored p then Ret (Some out) else if start =? len s then Ret (Some out)
      else find_loop EqualFold fuel p s limit n steps'
             (start + (if cutf8 p then rune_size (drop (Z.to_nat start) s) else 1)) out) = Ret r /\
      forall out', r = Some out' -> Sorted after out' /\ Forall (reported matching) out').
  { clear out Hs Hr Hb. intros out Hs Hr Hb. destruct (anchored p); [eexists; split; [done|]; intros ? [= <-]; done|].
    destruct (Z.eqb_spec start (len s)); [eexists; split; [done|]; intros ? [= <-]; done|].
    pose proof (char_size_range s (cutf8 p) start ltac:(lia)) as Hc. unfold char_size in Hc.
    apply IH; [lia|lia|lia|done|done|]. intros m Hm Hne. destruct (Hb m Hm Hne). lia. }
  pose proof (pick_spec sts) as HP. destruct (pick p sts) as [st|].
  2: { apply Hadv; [done|done|]. intros m Hm Hne. destruct (Hb m Hm Hne). lia. }
  destruct HP as [Hin _]. apply HM in Hin. destruct Hprog as [Hwf _ _].
  destruct (means_ok EqualFold s _ (root p) (matcher_iter s) Hwf (init start) st (init_ok s start ltac:(lia)) Hin) as [Hok Hpos].
  cbn in Hpos. set (out1 := out ++ [offsets p start st]).
  assert (Hs1 : Sorted after out1) by (by apply (sorted_snoc _ _ start)).
  assert (Hr1 : Forall (reported matching) out1).
  { apply Forall_app. split; [done|]. apply Forall_singleton. exists start, st. split_and!; (done || lia). }
  destruct ((0 <? n) && (n <=? len out1)); [eexists; split; [done|]; intros ? [= <-]; done|].
  assert (Hlast : List.last out1 [] = offsets p start st) by (subst out1; by rewrite last_last).
  destruct (Z.ltb_spec start (pos st)).
  - destruct Hok as (? & _). apply IH; [lia|lia|lia|done|done|].
    intros m. rewrite Hlast. intros <- _. cbn. lia.
  - apply Hadv; [done|done|]. intros m. rewrite Hlast. intros <- _. cbn. lia.
Qed.

(** All matches from [start] on, after [k] others: each one is the leftmost
    from where the one before it ends, or one character further after an empty
    match; the scan ends after [n] of them, when [n] is positive, or when
    nothing matches any more. *)
Inductive scan (R : btState -> btState -> Prop) (n : Z) : Z -> Z -> list (list Z) -> Prop :=
| scan_none k start : (forall b st, begins start b -> ~ R (init b) st) -> scan R n k start []
| scan_full k start b st : leftmost R start b st -> 0 < n <= k + 1 -> scan R n k start [offsets p b st]
| scan_more k start b st rest :
    leftmost R start b st -> ~ (0 < n <= k + 1) ->
    scan R n (k + 1) (if b <? pos st then pos st else past b) rest ->
    scan R n k start (offsets p b st :: rest).

Lemma leftmost_earlier (R : btState -> btState -> Prop) start b st :
  (forall st, ~ R (init start) st) -> leftmost R (past start) b st -> leftmost R start b st.
Proof using Type.
  intros Hno (Hb & Hst & Hmin). split; [by apply begins_later|]. split; [done|]. intros b' st' Hb' Hst'.
  destruct Hb'; [by apply Hno in Hst'|]. by apply Hmin.
Qed.

Lemma scan_earlier R n k start out :
  (forall st, ~ R (init start) st) -> scan R n k (past start) out -> scan R n k start out.
Proof using Type.
  intros Hno H. inversion H as [k' ? Hn|k' ? b st Hl|k' ? b st rest Hl ? Hr]; subst.
  - apply scan_none. intros b st Hb. destruct Hb; [apply Hno|by apply Hn].
  - apply scan_full; [by apply leftmost_earlier|done].
  - apply scan_more; [by apply leftmost_earlier|done|done].
Qed.

Lemma anchored_scan n k start : anchored p = true -> 0 < start -> scan matching n k start [].
Proof using Hprog. intros Ha Hs. apply scan_none. intros b st Hb%begins_range Hst. pose proof (anchored_start b st Ha Hst). lia. Qed.

Lemma end_scan n k start : len s < start -> scan matching n k start [].
Proof using Type. intros. apply scan_none. intros b st ?%begins_range. lia. Qed.

Lemma scan_iff R R' n k start out :
  0 <= start -> (forall b st, 0 <= b <= len s -> R (init b) st <-> R' (init b) st) ->
  scan R n k start out -> scan R' n k start out.
Proof using Type.
  intros H0 HR H.
  assert (Hl : forall start b st, 0 <= start -> leftmost R start b st -> leftmost R' start b st).
  { intros start' b st ? (Hb & Hst & Hm). pose proof (begins_range _ _ Hb). split; [done|]. split; [by apply HR; [lia|]|].
    intros b' st' Hb' H'. pose proof (begins_range _ _ Hb'). apply Hm; [done|]. by apply HR; [lia|]. }
  induction H as [k start Hn|k start b st Hb|k start b st rest Hb Hn _ IH].
  - apply scan_none. intros b st Hb Hst. pose proof (begins_range _ _ Hb). apply (Hn b st Hb). by apply HR; [lia|].
  - apply scan_full; [by apply Hl|done].
  - apply scan_more; [by apply Hl|done|]. apply IH. destruct Hb as [Hb%begins_range _]. unfold past.
    destruct (Z.ltb_spec b (pos st)), (cutf8 p); lia.
Qed.

Lemma find_scan limit fuel n steps start out :
  0 <= start -> (start <= len s -> len s - start + 1 < Z.of_nat fuel) -> (0 < fuel)%nat ->
  match find_loop EqualFold fuel p s limit n steps start out with
  | Ret (Some out') => exists tl, out' = out ++ tl /\ scan matching n (len out) start tl
  | Ret None => True
  | _ => False
  end.
Proof using Hprog.
  revert steps start out. induction fuel as [|fuel IH]; intros steps start out H0 Hfuel Hf; [lia|].
  cbn [find_loop]. destruct (Z.ltb_spec (len s) start); [exists []; rewrite app_nil_r; by split; [|apply end_scan]|].
  specialize (Hfuel ltac:(lia)). pose proof (matchAt_exact limit steps start ltac:(lia)) as HM.
  destruct (matchAt EqualFold p s limit steps start) as [steps' sts].
  destruct (Z.ltb_spec limit steps'); [done|]. specialize (HM ltac:(lia)).
  assert (Hadv : forall out,
    match (if anchored p then Ret (Some out) else if start =? len s then Ret (Some out)
      else find_loop EqualFold fuel p s limit n steps'
             (start + (if cutf8 p then rune_size (drop (Z.to_nat start) s) else 1)) out) with
    | Ret (Some out') => exists tl, out' = out ++ tl /\ scan matching n (len out) (past start) tl
    | Ret None => True
    | _ => False
    end).
  { clear out. intros out. assert (start < past start) by (unfold past; destruct (cutf8 p); lia). destruct (anchored p) eqn:Ea.
    { exists []. rewrite app_nil_r. split; [done|]. apply anchored_scan; [done|lia]. }
    destruct (Z.eqb_spec start (len s)); [exists []; rewrite app_nil_r; split; [done|apply end_scan; lia]|].
    pose proof (char_size_range s (cutf8 p) start ltac:(lia)) as Hc. unfold char_size in Hc.
    replace (start + _) with (past start) by (unfold past; destruct (cutf8 p); lia). apply IH; unfold past; destruct (cutf8 p); lia. }
  pose proof (pick_spec sts) as HP. destruct (pick p sts) as [st|].
  2: { specialize (Hadv out). destruct (if anchored p then _ else _) as [[out'|]| |]; try done.
       destruct Hadv as (tl & -> & Hsc). exists tl. split; [done|]. apply scan_earlier; [|done].
       intros st Hst. apply HM in Hst. subst sts. by apply elem_of_nil in Hst. }
  destruct HP as [Hin Hlong]. set (out1 := out ++ [offsets p start st]).
  assert (Hlm : leftmost matching start start st).
  { split; [constructor; lia|]. split; [by apply HM|]. intros b' st' Hb'%begins_range Hst'. split; [lia|]. intros Hl ->. apply Hlong; [done|by apply HM]. }
  assert (Hlen : len out1 = len out + 1) by (subst out1; rewrite len_app; done).
  destruct ((0 <? n) && (n <=? len out1)) eqn:En.
  { apply andb_true_iff in En as [En1%Z.ltb_lt En2%Z.leb_le]. exists [offsets p start st]. split; [done|]. apply scan_full; [done|lia]. }
  apply andb_false_iff in En. rewrite Z.ltb_ge, Z.leb_gt in En.
  assert (Hmore : forall r, match r with
      | Ret (Some out') => exists tl, out' = out1 ++ tl /\ scan matching n (len out1) (if start <? pos st then pos st else past start) tl
      | Ret None => True | _ => False end ->
    match r with
      | Ret (Some out') => exists tl, out' = out ++ tl /\ scan matching n (len out) start tl
      | Ret None => True | _ => False end).
  { intros [[out'|]| |]; try done. intros (tl & -> & Hsc). exists (offsets p start st :: tl). subst out1. rewrite <- app_assoc.
    split; [done|]. apply scan_more; [done|lia|]. by rewrite <- Hlen. }
  apply Hmore. destruct (Z.ltb_spec start (pos st)); [|apply Hadv]. apply IH; lia.
Qed.

End FindCorrect.

(** [C15] A search returns the POSIX matches: for a program whose repeated
    subexpressions cannot match the empty string, the matches reported are,
    one after the other, the leftmost match by the meaning of the pattern from
    the end of the one before (the longest of the leftmost ones when that is
    asked for) among those that begin at a character, which is a byte, or in
    C.UTF-8 the encoding of one character, and the search stops only after the number of matches asked
    for or when none is left; the only other result is the error of the step
    limit. *)
Theorem find_leftmost EqualFold s p n :
  prog_ok p -> proper (root p) = true ->
  match find EqualFold p s n with
  | Ret (Some out) => scan s p (means EqualFold s rep_posix (root p)) n 0 0 out
  | Ret None => True
  | _ => False
  end.
Proof.
  intros Hp Hpr. unfold find. pose proof (prog_wf _ Hp) as Hwf.
  pose proof (find_scan EqualFold s p Hp maxBacktrackSteps (length s + 2) n 0 0 []) as H.
  specialize (H ltac:(lia) ltac:(unfold len; lia) ltac:(lia)).
  destruct (find_loop _ _ _ _ _ _ _ _ _) as [[out|]| |]; try done.
  destruct H as (tl & -> & H). eapply scan_iff; [lia| |exact H].
  intros b st Hb. split; [apply matches_posix|]. apply posix_matches; [done|done|by apply init_ok].
Qed.

(** The search of all matches terminates, and each match it reports is a
    match by the POSIX meaning of the pattern whose groups are in the subject;
    the matches are reported in order and do not overlap. *)
Theorem find_reports EqualFold s p n :
  prog_ok p ->
  exists r, find EqualFold p s n = Ret r /\
    forall out, r = Some out ->
      Sorted after out /\ Forall (reported s p (means EqualFold s rep_posix (root p))) out.
Proof.
  intros Hp. unfold find.
  destruct (find_all EqualFold s p Hp maxBacktrackSteps (length s + 2) n 0 0 []) as (r & -> & H);
    [lia|unfold len; lia|lia|constructor|constructor|done|].
  exists r. split; [done|]. intros out Hout. destruct (H out Hout) as [H1 H2]. split; [done|].
  eapply Forall_impl; [done|]. intros m (b & st & -> & Hb & Hst & Hok & Hle). exists b, st.
  split; [done|]. split; [done|]. split; [by apply matches_posix|done].
Qed.

End BreCorrect.
