(* ===== verification/BreParse.v ===== *)
(** * Regular expressions with back-references: the compiler
    (src/pkg/bre/regexp.go, intervals of src/pkg/bre/bre.go)

    The recursive descent parser of basic and extended regular expressions
    that makes the nodes of [BreMatch]. The parser's index into the pattern is
    the list of the bytes left. *)

From Stdlib Require Import ZArith Lia.
From stdpp Require Import base tactics list numbers strings.
From S2P Require Import Prelude BreMatch.

Module BreParse.
Import Bre.

Inductive berror :=
| TrailingBackslash | TooManyGroups | UnmatchedOpen | InvalidBackref | NothingToRepeat
| UnmatchedClose | BracketError | UnmatchedInterval | InvalidInterval | Unsupported.

Inductive position := posStart | posAtom | posAnchor.

(** ** Intervals *)

Definition all_digits (x : list Z) : bool :=
  match x with [] => false | _ => forallb is_digit x end.

Definition atoi (s : list Z) : Z := foldl (fun n c => n * 10 + (c - ch! "0")) 0 s.

Definition REDupMax : Z := 255.

Definition trim_zeros (x : list Z) : list Z := trim_left (fun c => c =? ch! "0") x.

Definition withinDupMax (x : list Z) : bool :=
  if 3 <? len (trim_zeros x) then false else atoi x <=? REDupMax.

Definition stripZeros (x : list Z) : list Z :=
  match trim_zeros x with [] => [ch! "0"] | y => y end.

(** The canonical form of an interval, when it is valid. *)
Definition normalizeInterval (s : list Z) : option (list Z) :=
  match index_byte s (ch! ",") with
  | None => if all_digits s && withinDupMax s then Some (stripZeros s) else None
  | Some comma =>
      let lo := take comma s in
      let hi := drop (S comma) s in
      if bool_decide (ch! "," ∈ hi) || (bool_decide (lo = []) && bool_decide (hi = [])) then None
      else
        let lo := if bool_decide (lo = []) then [ch! "0"] else lo in
        if negb (all_digits lo) || (bool_decide (hi <> []) && negb (all_digits hi)) then None
        else if negb (withinDupMax lo) || (bool_decide (hi <> []) && negb (withinDupMax hi)) then None
        else if bool_decide (hi <> []) && (atoi hi <? atoi lo) then None
        else
          let hiN := if bool_decide (hi <> []) then stripZeros hi else hi in
          Some (stripZeros lo ++ [ch! ","] ++ hiN)
  end.

(** [strconv.Atoi] on digits of a number in range. *)
Definition parseInterval (s : list Z) : Z * Z :=
  match index_byte s (ch! ",") with
  | Some comma =>
      let min := atoi (take comma s) in
      if Z.of_nat comma =? len s - 1 then (min, -1) else (min, atoi (drop (S comma) s))
  | None => (atoi s, atoi s)
  end.

(** ** The parser *)

Record flags := mkFlags { ignoreCase : bool; dotAll : bool; extended : bool; utf8 : bool }.

Record pstate := mkP { rest : list Z; pgroups : Z; closed : list Z }.

Definition skip (n : nat) (ps : pstate) : pstate := mkP (drop n (rest ps)) (pgroups ps) (closed ps).

(** [strings.Index] with a separator of two bytes. *)
Fixpoint index_pair (s : list Z) (a b : Z) : option nat :=
  match s with
  | x :: (y :: _) as s' => if (x =? a) && (y =? b) then Some 0%nat else S <$> index_pair s' a b
  | _ => None
  end.

Section Parser.
(** A bracket expression at the head of a pattern: the bytes of its longest
    element when elements have several, the predicate it compiles to, and the
    number of bytes it takes; nothing when it is invalid. *)
Context (bracket : list Z -> option (Z * (list Z -> bool) * nat)).
Context (fl : flags).

Definition isAlt (r : list Z) : bool :=
  if extended fl then match r with c :: _ => c =? ch! "|" | [] => false end
  else match r with c :: d :: _ => (c =? 92) && (d =? ch! "|") | _ => false end.

Definition endsSeq (r : list Z) : bool :=
  if extended fl then match r with c :: _ => (c =? ch! ")") || (c =? ch! "|") | [] => false end
  else match r with c :: d :: _ => (c =? 92) && ((d =? ch! ")") || (d =? ch! "|")) | _ => false end.

Definition dollarAnchors (r : list Z) : bool :=
  match r with
  | [] => true
  | c :: r' =>
      if extended fl then (c =? ch! ")") || (c =? ch! "|")
      else match r' with d :: _ => (c =? 92) && ((d =? ch! ")") || (d =? ch! "|")) | [] => false end
  end.

Definition interval (atom : btNode) (inner : list Z) (ps : pstate) (n : nat) : berror + (btNode * pstate) :=
  match normalizeInterval inner with
  | None => inl InvalidInterval
  | Some norm =>
      let '(min, max) := parseInterval norm in inr (repeatNode atom min max, skip n ps)
  end.

Definition parseQuant (atom : btNode) (ps : pstate) : berror + (btNode * pstate) :=
  match rest ps with
  | [] => inr (atom, ps)
  | c :: r =>
      if c =? ch! "*" then inr (repeatNode atom 0 (-1), skip 1 ps)
      else if extended fl then
        if c =? ch! "+" then inr (repeatNode atom 1 (-1), skip 1 ps)
        else if c =? ch! "?" then inr (repeatNode atom 0 1, skip 1 ps)
        else if c =? ch! "{" then
          match index_byte r (ch! "}") with
          | None => inl UnmatchedInterval
          | Some e => interval atom (take e r) ps (1 + e + 1)
          end
        else inr (atom, ps)
      else
        match r with
        | d :: r' =>
            if negb (c =? 92) then inr (atom, ps)
            else if d =? ch! "+" then inr (repeatNode atom 1 (-1), skip 2 ps)
            else if d =? ch! "?" then inr (repeatNode atom 0 1, skip 2 ps)
            else if d =? ch! "{" then
              match index_pair r' 92 (ch! "}") with
              | None => inl UnmatchedInterval
              | Some e => interval atom (take e r') ps (2 + e + 2)
              end
            else inr (atom, ps)
        | [] => inr (atom, ps)
        end
  end.

Definition lit (t : list Z) : btNode := literalNode t (ignoreCase fl).

(** An atom: its node, the position after it, whether it can be repeated. *)
Abbreviation atom_result := (berror + (btNode * position * bool * pstate))%type.

(** What an escape other than a group stands for. *)
Definition parse_escape (n : Z) (ps : pstate) : atom_result :=
  let ok node st q := inr (node, st, q, skip 2 ps) in
  if (n =? ch! ")") && negb (extended fl) then ok (lit [ch! ")"]) posAtom true
  else if (ch! "1" <=? n) && (n <=? ch! "9") then
    let num := n - ch! "0" in
    if (pgroups ps <? num) || negb (bool_decide (num ∈ closed ps)) then inl InvalidBackref
    else ok (backrefNode num (ignoreCase fl)) posAtom true
  else if (n =? ch! "<") || (n =? ch! ">") then ok (wordEdgeNode n) posAnchor false
  else if (n =? ch! "b") || (n =? ch! "B") then ok (wordBoundaryNode n) posAnchor false
  else if (n =? ch! "w") || (n =? ch! "W") || (n =? ch! "s") || (n =? ch! "S") then ok (builtinClassNode n) posAtom true
  else if n =? ch! "{" then (if extended fl then ok (lit [ch! "{"]) posAtom true else inl NothingToRepeat)
  else if n =? ch! "}" then (if extended fl then ok (lit [ch! "}"]) posAtom true else inl UnmatchedClose)
  else ok (lit (string_of_byte n)) posAtom true.

(** An atom other than an escape or a group. *)
Definition parse_plain (c : Z) (state : position) (ps : pstate) : atom_result :=
  let ok node st q n := inr (node, st, q, skip n ps) in
  if (c =? ch! "(") || (c =? ch! ")") then ok (lit [c]) posAtom true 1%nat
  else if c =? ch! "." then ok (dotNode (dotAll fl) (utf8 fl)) posAtom true 1%nat
  else if c =? ch! "^" then
    match state with
    | posStart => ok (anchorNode (ch! "^")) posAnchor false 1%nat
    | _ => ok (lit [ch! "^"]) posAtom true 1%nat
    end
  else if c =? ch! "$" then
    if dollarAnchors (drop 1 (rest ps)) then ok (anchorNode (ch! "$")) posAnchor false 1%nat
    else ok (lit [ch! "$"]) posAtom true 1%nat
  else if c =? ch! "[" then
    match bracket (rest ps) with
    | None => inl BracketError
    | Some (maxBytes, re, n) => ok (classNode maxBytes re (utf8 fl)) posAtom true n
    end
  else if (c =? ch! "*") || (c =? ch! "+") || (c =? ch! "?") || (c =? ch! "{") || (c =? ch! "}") || (c =? ch! "|")
  then ok (lit [c]) posAtom true 1%nat
  else
    let size := Z.to_nat (rune_size (rest ps)) in
    ok (lit (take size (rest ps))) posAtom true size.

(** [fuel] bounds the depth of the calls; see [compile_returns_ok]. *)
Fixpoint parseExpr (fuel : nat) (ps : pstate) (alts : list btNode) : outcome (berror + (btNode * pstate)) :=
  match fuel with
  | O => OutOfFuel
  | S fuel' =>
      match parseSeq fuel' ps posStart [] with
      | Ret (inr (seq, ps)) =>
          let alts := alts ++ [seq] in
          if isAlt (rest ps) then parseExpr fuel' (skip (if extended fl then 1 else 2) ps) alts
          else Ret (inr (match alts with [a] => a | _ => altNode alts end, ps))
      | Ret (inl err) => Ret (inl err)
      | Panic => Panic
      | OutOfFuel => OutOfFuel
      end
  end
with parseSeq (fuel : nat) (ps : pstate) (state : position) (nodes : list btNode) : outcome (berror + (btNode * pstate)) :=
  match fuel with
  | O => OutOfFuel
  | S fuel' =>
      match rest ps with
      | [] => Ret (inr (seqNode nodes, ps))
      | _ =>
          if endsSeq (rest ps) then Ret (inr (seqNode nodes, ps))
          else
            match parseAtom fuel' ps state with
            | Ret (inr (atom, nextState, quantifiable, ps)) =>
                match (if quantifiable : bool then parseQuant atom ps else inr (atom, ps)) with
                | inl err => Ret (inl err)
                | inr (atom, ps) => parseSeq fuel' ps nextState (nodes ++ [atom])
                end
            | Ret (inl err) => Ret (inl err)
            | Panic => Panic
            | OutOfFuel => OutOfFuel
            end
      end
  end
with parseAtom (fuel : nat) (ps : pstate) (state : position) : outcome atom_result :=
  match fuel with
  | O => OutOfFuel
  | S fuel' =>
      let group (open : nat) (capture : bool) (close : list Z) :=
        let ps := skip open ps in
        let num := pgroups ps + 1 in
        if capture && (9 <? num) then Ret (inl TooManyGroups)
        else
          let ps := if capture then mkP (rest ps) num (closed ps) else ps in
          match parseExpr fuel' ps [] with
          | Ret (inr (child, ps)) =>
              if has_prefix (rest ps) close then
                let ps := skip (length close) ps in
                let ps := if capture then mkP (rest ps) (pgroups ps) (num :: closed ps) else ps in
                Ret (inr (if capture then groupNode num child else child, posAtom, true, ps))
              else Ret (inl UnmatchedOpen)
          | Ret (inl err) => Ret (inl err)
          | Panic => Panic
          | OutOfFuel => OutOfFuel
          end in
      match rest ps with
      | [] => Panic
      | c :: r =>
          if c =? 92 then
            match r with
            | [] => Ret (inl TrailingBackslash)
            | n :: _ =>
                if (n =? ch! "(") && negb (extended fl) then group 2%nat true [92; ch! ")"]
                else Ret (parse_escape n ps)
            end
          else if (c =? ch! "(") && extended fl then
            if has_prefix r [ch! "?"; ch! ":"] then group 3%nat false [ch! ")"]
            else group 1%nat true [ch! ")"]
          else Ret (parse_plain c state ps)
      end
  end.

Definition is_anchored (root : btNode) : bool :=
  match root with
  | seqNode (anchorNode b :: _) => b =? ch! "^"
  | _ => false
  end.

Definition compileBackrefMode (pattern : list Z) : outcome (berror + btProg) :=
  match parseExpr (3 * length pattern + 3) (mkP pattern 0 []) [] with
  | Ret (inr (root, ps)) =>
      match rest ps with
      | [] => Ret (inr (mkProg root (pgroups ps) (is_anchored root) false (utf8 fl)))
      | _ => Ret (inl Unsupported)
      end
  | Ret (inl err) => Ret (inl err)
  | Panic => Panic
  | OutOfFuel => OutOfFuel
  end.

End Parser.

End BreParse.
