(* ===== verification/BreParseCorrect.v ===== *)
(** * The compiler of regular expressions makes well-formed programs

    Compilation terminates on every pattern; what it accepts has groups and
    back-references numbered from 1 to 9 and bounded repeats, so that the
    matcher stays in range; and two patterns on which the engine departs from
    POSIX. *)

From Stdlib Require Import ZArith Lia Sorted.
From stdpp Require Import base tactics list numbers strings.
From S2P Require Import Prelude BreMatch BreParse BreCorrect.

Module BreParseCorrect.
Import Bre BreParse BreCorrect.

(** ** Intervals *)

Lemma atoi_nonneg_from n x : 0 <= n -> forallb is_digit x = true -> 0 <= foldl (fun n c => n * 10 + (c - 48)) n x.
Proof.
  revert n. induction x as [|c x IH]; intros n Hn; cbn; [done|]. intros [Hc Hx]%andb_true_iff.
  apply IH; [|done]. unfold is_digit in Hc. apply andb_true_iff in Hc as [Hc%Z.leb_le _]. lia.
Qed.

Lemma atoi_nonneg x : forallb is_digit x = true -> 0 <= atoi x.
Proof. by apply atoi_nonneg_from. Qed.

Lemma atoi_trim x : atoi (trim_zeros x) = atoi x.
Proof.
  unfold atoi, trim_zeros. induction x as [|c x IH]; [done|]. cbn. destruct (Z.eqb_spec c 48) as [->|]; [done|done].
Qed.

Lemma atoi_strip x : atoi (stripZeros x) = atoi x.
Proof. rewrite <- (atoi_trim x). unfold stripZeros. by destruct (trim_zeros x). Qed.

Lemma trim_digits x : forallb is_digit x = true -> forallb is_digit (trim_zeros x) = true.
Proof.
  unfold trim_zeros. induction x as [|c x IH]; [done|]. cbn. intros [Hc Hx]%andb_true_iff.
  destruct (c =? 48); [auto|]. cbn. by rewrite Hc, Hx.
Qed.

Lemma strip_digits x : forallb is_digit x = true -> forallb is_digit (stripZeros x) = true.
Proof. intros H%trim_digits. unfold stripZeros. by destruct (trim_zeros x). Qed.

Lemma strip_nonempty x : stripZeros x <> [].
Proof. unfold stripZeros. by destruct (trim_zeros x). Qed.

Lemma all_digits_forallb x : all_digits x = true -> forallb is_digit x = true.
Proof. by destruct x. Qed.

Lemma index_byte_app x c r : forallb is_digit x = true -> is_digit c = false -> index_byte (x ++ c :: r) c = Some (length x).
Proof.
  intros Hx Hc. induction x as [|d x IH]; cbn in *; [by rewrite Z.eqb_refl|].
  apply andb_true_iff in Hx as [Hd Hx]. destruct (Z.eqb_spec d c) as [->|]; [congruence|]. by rewrite IH.
Qed.

Lemma index_digit_none x c : forallb is_digit x = true -> is_digit c = false -> index_byte x c = None.
Proof.
  intros Hx Hc. induction x as [|d x IH]; cbn in *; [done|].
  apply andb_true_iff in Hx as [Hd Hx]. destruct (Z.eqb_spec d c) as [->|]; [congruence|]. by rewrite IH.
Qed.

Definition interval_ok (min max : Z) : Prop := 0 <= min <= REDupMax /\ (max = -1 \/ min <= max <= REDupMax).

Lemma within_max x : withinDupMax x = true -> atoi x <= REDupMax.
Proof. unfold withinDupMax. case_match; [done|]. apply Z.leb_le. Qed.

(** A valid interval has bounds from 0 to 255, in order. *)
Lemma normalizeInterval_ok s norm :
  normalizeInterval s = Some norm -> interval_ok (parseInterval norm).1 (parseInterval norm).2.
Proof.
  unfold normalizeInterval, interval_ok. destruct (index_byte s 44) as [comma|].
  - set (lo0 := take comma s). set (hi := drop (S comma) s).
    destruct (_ || _); [done|]. set (lo := if bool_decide (lo0 = []) then _ else lo0).
    destruct (negb (all_digits lo) || _) eqn:E1; [done|]. destruct (negb (withinDupMax lo) || _) eqn:E2; [done|].
    destruct (bool_decide (hi <> []) && (atoi hi <? atoi lo)) eqn:E3; [discriminate|]. intros [= <-].
    apply orb_false_iff in E1 as [Hlo%negb_false_iff E1]. apply orb_false_iff in E2 as [Hlm%negb_false_iff%within_max E2].
    apply all_digits_forallb in Hlo. pose proof (strip_digits _ Hlo) as Hsl. pose proof (atoi_nonneg lo Hlo) as Hn.
    unfold parseInterval. cbn [app]. rewrite (index_byte_app (stripZeros lo) 44 _ Hsl eq_refl). rewrite take_app_length.
    rewrite atoi_strip. case_bool_decide as Hhi; cbn [andb] in *.
    + apply negb_false_iff in E1, E2. apply within_max in E2. apply all_digits_forallb in E1. apply Z.ltb_ge in E3.
      pose proof (strip_nonempty hi) as Hne.
      replace (Z.of_nat (length (stripZeros lo)) =? _) with false.
      2: { symmetry. apply Z.eqb_neq. unfold len. rewrite length_app. cbn [length]. destruct (stripZeros hi); [done|]. cbn. lia. }
      cbn [fst snd]. replace (drop (S _) _) with (stripZeros hi).
      2: { rewrite drop_app_ge by lia. replace (S _ - _)%nat with 1%nat by lia. done. }
      rewrite atoi_strip. lia.
    + rewrite Hhi.
      replace (Z.of_nat (length (stripZeros lo)) =? _) with true.
      2: { symmetry. apply Z.eqb_eq. unfold len. rewrite length_app. cbn [length]. lia. }
      cbn. lia.
  - destruct (all_digits s && withinDupMax s) eqn:E; [|done]. intros [= <-].
    apply andb_true_iff in E as [Hd%all_digits_forallb Hm%within_max]. pose proof (atoi_nonneg s Hd).
    unfold parseInterval. rewrite index_digit_none by (done || by apply strip_digits). cbn. rewrite atoi_strip. lia.
Qed.

(** ** The parser *)

(** Every repeat has bounds from 0 to 255, or none above. *)
Fixpoint bounded (n : btNode) : bool :=
  match n with
  | seqNode nodes | altNode nodes => forallb bounded nodes
  | groupNode _ c => bounded c
  | repeatNode c min max =>
      (0 <=? min) && (min <=? REDupMax) && ((max =? -1) || (min <=? max) && (max <=? REDupMax)) && bounded c
  | _ => true
  end.

Definition good (n : btNode) : Prop := wf n = true /\ bounded n = true.

Definition parser_ok (ps : pstate) : Prop :=
  0 <= pgroups ps <= 9 /\ Forall (fun n => 1 <= n <= 9) (closed ps).

Section ParserCorrect.
Context (bracket : list Z -> option (Z * (list Z -> bool) * nat)) (fl : flags).
(** A bracket expression takes some of the bytes it is given. *)
Hypothesis bracket_takes : forall s m re n, bracket s = Some (m, re, n) -> (1 <= n <= length s)%nat.

Lemma good_forallb nodes : Forall good nodes -> forallb wf nodes = true /\ forallb bounded nodes = true.
Proof using Type. induction 1 as [|n nodes [H1 H2] _ [IH1 IH2]]; [done|]. cbn. by rewrite H1, H2, IH1, IH2. Qed.

Lemma skip_ok n ps : parser_ok ps -> parser_ok (skip n ps).
Proof using Type. by intros []. Qed.

(** A result of a parser function: nodes are good, the state stays in range and
    at most [n] bytes are left. *)
Definition result_ok (n : nat) (r : berror + (btNode * pstate)) : Prop :=
  match r with
  | inl _ => True
  | inr (node, ps') => good node /\ parser_ok ps' /\ (length (rest ps') <= n)%nat
  end.

Definition atom_ok (n : nat) (r : berror + (btNode * position * bool * pstate)) : Prop :=
  match r with
  | inl _ => True
  | inr (node, _, _, ps') => good node /\ parser_ok ps' /\ (length (rest ps') < n)%nat
  end.

Lemma good_repeat atom min max : good atom -> interval_ok min max -> good (repeatNode atom min max).
Proof using Type.
  intros [H1 H2] [H3 H4]. unfold good; cbn. rewrite H1, H2.
  rewrite (proj2 (Z.leb_le 0 min)), (proj2 (Z.leb_le min REDupMax)) by lia. split; [done|].
  destruct H4 as [->|H4]; [done|]. rewrite (proj2 (Z.leb_le min max)), (proj2 (Z.leb_le max REDupMax)) by lia.
  by rewrite orb_true_r.
Qed.

Lemma skip_result n node ps : good node -> parser_ok ps -> result_ok (length (rest ps)) (inr (node, skip n ps)).
Proof using Type. intros Hn Hp. split_and!; [done|by apply skip_ok|]. cbn. rewrite length_drop. lia. Qed.

Lemma interval_result atom inner ps n :
  good atom -> parser_ok ps -> result_ok (length (rest ps)) (interval atom inner ps n).
Proof using Type.
  intros Ha Hp. unfold interval. destruct (normalizeInterval inner) as [norm|] eqn:E; [|done].
  apply normalizeInterval_ok in E. destruct (parseInterval norm) as [min max]. cbn [fst snd] in E.
  apply skip_result; [by apply good_repeat|done].
Qed.

Lemma quant_result atom ps :
  good atom -> parser_ok ps -> result_ok (length (rest ps)) (parseQuant fl atom ps).
Proof using Type.
  intros Ha Hp. assert (Hsame : result_ok (length (rest ps)) (inr (atom, ps))) by (split_and!; (done || lia)).
  assert (Hrep : forall min max n, interval_ok min max -> result_ok (length (rest ps)) (inr (repeatNode atom min max, skip n ps))).
  { intros. apply skip_result; [by apply good_repeat|done]. }
  unfold parseQuant. unfold interval_ok, REDupMax in Hrep. destruct (rest ps) as [|c r] eqn:Er; [done|].
  rewrite <- Er in *.
  repeat first [done | apply interval_result; done | apply Hrep; lia | case_match].
Qed.

Lemma escape_result n ps :
  parser_ok ps -> (2 <= length (rest ps))%nat -> atom_ok (length (rest ps)) (parse_escape fl n ps).
Proof using Type.
  intros Hp Hl.
  assert (Hok : forall node st q, good node -> atom_ok (length (rest ps)) (inr (node, st, q, skip 2 ps))).
  { intros. split_and!; [done|by apply skip_ok|]. cbn. rewrite length_drop. lia. }
  unfold parse_escape. destruct (_ && negb _); [by apply Hok|].
  destruct ((49 <=? n) && (n <=? 57)) eqn:E.
  { destruct (_ || _); [done|]. apply Hok. split; [|done]. cbn.
    apply andb_true_iff in E as [E1%Z.leb_le E2%Z.leb_le]. apply andb_true_iff. split; apply Z.leb_le; lia. }
  repeat first [done | by apply Hok | case_match].
Qed.

Lemma plain_result c state ps :
  parser_ok ps -> (1 <= length (rest ps))%nat -> atom_ok (length (rest ps)) (parse_plain bracket fl c state ps).
Proof using bracket_takes.
  intros Hp Hl.
  assert (Hok : forall node st q n, good node -> (1 <= n)%nat -> atom_ok (length (rest ps)) (inr (node, st, q, skip n ps))).
  { intros. split_and!; [done|by apply skip_ok|]. cbn. rewrite length_drop. lia. }
  unfold parse_plain. destruct (_ || _); [apply Hok; [done|lia]|]. destruct (_ =? _); [apply Hok; [done|lia]|].
  destruct (_ =? _); [destruct state; apply Hok; (done || lia)|]. destruct (_ =? _); [destruct (dollarAnchors _ _); apply Hok; (done || lia)|].
  destruct (_ =? _).
  { destruct (bracket (rest ps)) as [[[m re] n]|] eqn:E; [|done]. apply bracket_takes in E. apply Hok; [done|lia]. }
  destruct (_ || _); [apply Hok; [done|lia]|]. apply Hok; [done|].
  assert (Hne : rest ps <> []) by (intros E; rewrite E in Hl; cbn in Hl; lia). pose proof (rune_size_range _ Hne). lia.
Qed.

Lemma isAlt_nonempty r : isAlt fl r = true -> ((if extended fl then 1 else 2) <= length r)%nat.
Proof using Type.
  unfold isAlt. destruct (extended fl).
  - destruct r; [done|]. cbn. lia.
  - destruct r as [|? [|]]; [done..|]. cbn. lia.
Qed.

Lemma has_prefix_length s p : has_prefix s p = true -> (length p <= length s)%nat.
Proof using Type.
  revert s. induction p as [|y p IH]; intros [|x s]; cbn; try (done || lia).
  intros [_ H]%andb_true_iff. apply IH in H. lia.
Qed.

Ltac fold_parser :=
  fold (parseExpr bracket fl); fold (parseSeq bracket fl); fold (parseAtom bracket fl).

(** The three functions together, by induction on the fuel. *)
Lemma parser_spec fuel :
  (forall ps alts, parser_ok ps -> Forall good alts -> (3 * length (rest ps) + 3 <= fuel)%nat ->
     exists r, parseExpr bracket fl fuel ps alts = Ret r /\ result_ok (length (rest ps)) r) /\
  (forall ps state nodes, parser_ok ps -> Forall good nodes -> (3 * length (rest ps) + 2 <= fuel)%nat ->
     exists r, parseSeq bracket fl fuel ps state nodes = Ret r /\ result_ok (length (rest ps)) r) /\
  (forall ps state, parser_ok ps -> (1 <= length (rest ps))%nat -> (3 * length (rest ps) + 1 <= fuel)%nat ->
     exists r, parseAtom bracket fl fuel ps state = Ret r /\ atom_ok (length (rest ps)) r).
Proof using bracket_takes.
  induction fuel as [|fuel (IHe & IHs & IHa)]; [split_and!; intros; lia|]. split_and!.
  - intros ps alts Hp Ha Hf. simpl parseExpr. fold_parser.
    destruct (IHs ps posStart [] Hp ltac:(constructor) ltac:(lia)) as (r & -> & Hr).
    destruct r as [err|[seq ps']]; [by eexists|]. destruct Hr as (Hg & Hp' & Hl).
    assert (Ha' : Forall good (alts ++ [seq])) by (apply Forall_app; split; [done|by apply Forall_singleton]).
    destruct (isAlt fl (rest ps')) eqn:E.
    + apply isAlt_nonempty in E. set (k := if extended fl then 1%nat else 2%nat) in *.
      assert (Hlk : (length (rest (skip k ps')) <= length (rest ps') - 1)%nat).
      { cbn. rewrite length_drop. subst k. destruct (extended fl); lia. }
      destruct (IHe (skip k ps') (alts ++ [seq])) as (r & -> & Hr); [by apply skip_ok|done|subst k; destruct (extended fl); lia|].
      eexists. split; [done|]. destruct r as [err|[node ps'']]; [done|]. destruct Hr as (? & ? & ?). split_and!; (done || lia).
    + eexists. split; [done|]. split_and!; [|done|lia]. destruct (good_forallb _ Ha') as [W B].
      destruct alts as [|a alts]; [done|]. by destruct alts.
  - intros ps state nodes Hp Hn Hf. simpl parseSeq. fold_parser.
    assert (Hend : exists r, Ret (inr (seqNode nodes, ps)) = Ret r /\ result_ok (length (rest ps)) r).
    { eexists. split; [done|]. split_and!; [by apply good_forallb|done|lia]. }
    destruct (rest ps) as [|c t] eqn:Er; [done|]. rewrite <- Er in *.
    destruct (endsSeq fl (rest ps)); [done|].
    destruct (IHa ps state Hp) as (r & -> & Hr); [rewrite Er; cbn; lia|lia|].
    destruct r as [err|[[[atom st] q] ps']]; [by eexists|]. destruct Hr as (Hg & Hp' & Hl).
    assert (Hq : result_ok (length (rest ps')) (if q : bool then parseQuant fl atom ps' else inr (atom, ps'))).
    { destruct q; [by apply quant_result|]. split_and!; (done || lia). }
    destruct (if q : bool then _ else _) as [err|[atom' ps'']]; [by eexists|]. destruct Hq as (Hg' & Hp'' & Hl').
    destruct (IHs ps'' st (nodes ++ [atom'])) as (r & -> & Hr);
      [done|apply Forall_app; split; [done|by apply Forall_singleton]|lia|].
    eexists. split; [done|]. destruct r as [err|[node ps3]]; [done|]. destruct Hr as (? & ? & ?). split_and!; (done || lia).
  - intros ps state Hp Hl Hf. simpl parseAtom. fold_parser. cbv zeta.
    assert (Hgroup : forall k close, (1 <= k <= length (rest ps))%nat ->
      exists r, (if 9 <? pgroups ps + 1 then Ret (inl TooManyGroups)
        else match parseExpr bracket fl fuel (mkP (drop k (rest ps)) (pgroups ps + 1) (closed ps)) [] with
             | Ret (inl err) => Ret (inl err)
             | Ret (inr (child, ps0)) =>
                 if has_prefix (rest ps0) close
                 then Ret (inr (groupNode (pgroups ps + 1) child, posAtom, true,
                        mkP (drop (length close) (rest ps0)) (pgroups ps0) (pgroups ps + 1 :: closed ps0)))
                 else Ret (inl UnmatchedOpen)
             | Panic => Panic
             | OutOfFuel => OutOfFuel
             end) = Ret r /\ atom_ok (length (rest ps)) r).
    { intros k close Hk. destruct (Z.ltb_spec 9 (pgroups ps + 1)); [by eexists|]. destruct Hp as [Hg Hc].
      destruct (IHe (mkP (drop k (rest ps)) (pgroups ps + 1) (closed ps)) []) as (r & -> & Hr);
        [by split; [cbn; lia|]|constructor|cbn; rewrite length_drop; lia|].
      cbn [rest] in Hr. rewrite length_drop in Hr.
      destruct r as [err|[child ps0]]; [by eexists|]. destruct Hr as ([W B] & [Hg' Hc'] & Hl').
      destruct (has_prefix (rest ps0) close); [|by eexists]. eexists. split; [done|].
      split_and!; [| |cbn; rewrite length_drop; lia].
      - split; [|done]. cbn. rewrite W, andb_true_r. apply andb_true_iff. split; apply Z.leb_le; lia.
      - split; [done|]. cbn. constructor; [lia|done]. }
    destruct (rest ps) as [|c t] eqn:Er; [cbn in Hl; lia|]. rewrite <- Er in *. assert (Ht : length (rest ps) = S (length t)) by (by rewrite Er).
    destruct (c =? 92).
    + destruct t as [|n t']; [by eexists|]. cbn in Ht. destruct (_ && _).
      * apply (Hgroup 2%nat [92; 41]). lia.
      * eexists. split; [done|]. apply escape_result; [done|lia].
    + destruct (_ && _); [|eexists; split; [done|]; by apply plain_result].
      destruct (has_prefix t [63; 58]) eqn:Epre; [|apply (Hgroup 1%nat [41]); lia].
      apply has_prefix_length in Epre. cbn in Epre.
      destruct (IHe (skip 3 ps) []) as (r & -> & Hr); [by apply skip_ok|constructor|cbn; rewrite length_drop; lia|].
      cbn [rest skip] in Hr. rewrite length_drop in Hr.
      destruct r as [err|[child ps0]]; [by eexists|]. destruct Hr as (Hg & Hp' & Hl').
      destruct (has_prefix (rest ps0) [41]); [|by eexists]. eexists. split; [done|].
      split_and!; [done|by apply skip_ok|cbn; rewrite length_drop; lia].
Qed.

(** [C38] Compilation terminates on every pattern, and a program it makes is
    well-formed: its groups and back-references are numbered from 1 to 9, as
    many as the captures of a state hold, its repeats have bounds from 0 to
    255, and it is marked anchored only when every match starts at the
    beginning of the subject. Hence the search of any subject with it
    terminates and stays in range, by [find_reports]. *)
Theorem compile_returns_ok pattern :
  exists r, compileBackrefMode bracket fl pattern = Ret r /\
    forall prog, r = inr prog -> prog_ok prog /\ bounded (root prog) = true.
Proof using bracket_takes.
  unfold compileBackrefMode.
  destruct (parser_spec (3 * length pattern + 3)) as (He & _ & _).
  destruct (He (mkP pattern 0 []) []) as (r & -> & Hr); [split; [cbn; lia|constructor]|constructor|cbn; lia|].
  destruct r as [err|[node ps]]; [by eexists|]. destruct Hr as ([W B] & [Hg _] & _).
  destruct (rest ps); [|by eexists]. eexists. split; [done|]. intros prog [= <-]. split; [|done].
  constructor; cbn; [done|done|]. unfold is_anchored. destruct node as [[|[] l]|l'| | | | | | | | | |]; try done.
  intros ->%Z.eqb_eq. eauto.
Qed.

End ParserCorrect.

(** A bracket expression of one character. *)
Definition one_bracket (s : list Z) : option (Z * (list Z -> bool) * nat) :=
  match s with
  | 91 :: c :: 93 :: _ => Some (0, fun t => str_eqb t [c], 3%nat)
  | _ => None
  end.

Lemma one_bracket_takes s m re n : one_bracket s = Some (m, re, n) -> (1 <= n <= length s)%nat.
Proof.
  unfold one_bracket. repeat case_match; try done. intros [= <- <- <-]. cbn. lia.
Qed.

Definition bre_flags : flags := mkFlags false false false false.

(** [\([x]\)*\{2,3\}] is not a valid pattern, [\([x]\)\{2,3\}\1] is. *)
Lemma compile_returns_ok_witness :
  (exists r, compileBackrefMode one_bracket bre_flags (str! "\([x]\)*\{2,3\}") = Ret r /\
    forall prog, r = inr prog -> prog_ok prog /\ bounded (root prog) = true) /\
  match compileBackrefMode one_bracket bre_flags (str! "\([x]\)\{2,3\}\1") with
  | Ret (inr prog) => find (fun _ _ => false) prog (str! "axxx") 1 = Ret (Some [[1; 4; 2; 3]])
  | _ => False
  end.
Proof.
  split; [|vm_compute; reflexivity].
  apply (compile_returns_ok one_bracket bre_flags one_bracket_takes (str! "\([x]\)*\{2,3\}")).
Defined.

(** [\(a\|ab\)c*\1], asked for the longest match. *)
Definition ex_prog : btProg :=
  mkProg (seqNode [groupNode 1 (altNode [seqNode [literalNode [97] false]; seqNode [literalNode [97] false; literalNode [98] false]]);
                   repeatNode (literalNode [99] false) 0 (-1); backrefNode 1 false]) 1 false true false.

Lemma ex_prog_ok : prog_ok ex_prog.
Proof. constructor; [reflexivity|cbn; lia|done]. Qed.

(** Two equal characters in C.UTF-8. *)
Definition utf8_prog : btProg := mkProg (seqNode [groupNode 1 (dotNode false true); backrefNode 1 false]) 1 false true true.

Lemma utf8_prog_ok : prog_ok utf8_prog.
Proof. constructor; [reflexivity|cbn; lia|done]. Qed.

Lemma find_leftmost_witness :
  compileBackrefMode one_bracket bre_flags (str! "\(a\|ab\)c*\1") =
    Ret (inr (mkProg (root ex_prog) 1 false false false)) /\
  find (fun _ _ => false) ex_prog (str! "xabccabaa") (-1) = Ret (Some [[1; 7; 1; 3]; [7; 9; 7; 8]]) /\
  scan (str! "xabccabaa") ex_prog (means (fun _ _ => false) (str! "xabccabaa") rep_posix (root ex_prog)) (-1) 0 0
    [[1; 7; 1; 3]; [7; 9; 7; 8]] /\
  find (fun _ _ => false) utf8_prog [120; 195; 169; 169; 195; 169; 195; 169] (-1) = Ret (Some [[4; 8; 4; 6]]) /\
  scan [120; 195; 169; 169; 195; 169; 195; 169] utf8_prog
    (means (fun _ _ => false) [120; 195; 169; 169; 195; 169; 195; 169] rep_posix (root utf8_prog)) (-1) 0 0 [[4; 8; 4; 6]].
Proof.
  split; [vm_compute; reflexivity|].
  pose proof (find_leftmost (fun _ _ => false) (str! "xabccabaa") ex_prog (-1) ex_prog_ok eq_refl) as H.
  pose proof (find_leftmost (fun _ _ => false) [120; 195; 169; 169; 195; 169; 195; 169] utf8_prog (-1) utf8_prog_ok eq_refl) as H'.
  assert (E : find (fun _ _ => false) ex_prog (str! "xabccabaa") (-1) = Ret (Some [[1; 7; 1; 3]; [7; 9; 7; 8]])) by (vm_compute; reflexivity).
  assert (E' : find (fun _ _ => false) utf8_prog [120; 195; 169; 169; 195; 169; 195; 169] (-1) = Ret (Some [[4; 8; 4; 6]])) by (vm_compute; reflexivity).
  rewrite E in H. rewrite E' in H'. split; [exact E|]. split; [exact H|]. split; [exact E'|exact H'].
Defined.

Lemma find_reports_witness :
  exists out, find (fun _ _ => false) ex_prog (str! "aababaa") (-1) = Ret (Some out) /\
    Sorted after out /\ length out = 2%nat.
Proof.
  destruct (find_reports (fun _ _ => false) (str! "aababaa") ex_prog (-1) ex_prog_ok) as (r & E & H).
  vm_compute in E. injection E as <-. eexists. split; [vm_compute; reflexivity|].
  split; [apply (H _ eq_refl)|reflexivity].
Defined.

(** ** Where the engine departs from POSIX *)

(** The pattern [\(a*\)\{2\}\1] matches the empty string at the start of [b]: the group
    matches the empty string twice. The engine drops the second repetition,
    since it does not change the state, finds one repetition too few and
    reports that there is no match. *)
Theorem interval_of_empty_missed :
  exists prog,
    compileBackrefMode one_bracket bre_flags (str! "\(a*\)\{2\}\1") = Ret (inr prog) /\
    find (fun _ _ => false) prog (str! "b") 1 = Ret (Some []) /\
    means (fun _ _ => false) (str! "b") rep_posix (root prog) (init 0) (set_caps 1 0 (init 0)).
Proof.
  eexists. split; [vm_compute; reflexivity|]. split; [vm_compute; reflexivity|]. cbn [root means map chain].
  assert (Hg : forall st, pos st = 0 -> exists st1,
    (exists st2, rep_posix (means (fun _ _ => false) (str! "b") rep_posix (literalNode [97] false)) 0 (-1) st st2 /\ st1 = st2) /\
    set_caps 1 0 st = set_caps 1 (pos st) st1).
  { intros st Hst. exists st. rewrite Hst. split; [|done]. exists st. split; [|done]. exists 0%nat. cbn. split_and!; (done || lia). }
  exists (set_caps 1 0 (init 0)). split.
  - exists 2%nat. split_and!; [lia|lia|]. cbn [iter]. exists (set_caps 1 0 (init 0)).
    split; [exists (init 0); split; [done|]; by apply Hg|].
    destruct (Hg (set_caps 1 0 (init 0)) eq_refl) as (st1 & H1 & H2). exists st1. split; [done|]. rewrite <- H2. reflexivity.
  - exists (set_caps 1 0 (init 0)). split; [|done]. split_and!; [vm_compute; discriminate..|reflexivity].
Qed.

(** An escaped character beyond ASCII is cut after its first byte, which is
    taken for a character of its own: [\(a\)\1\é], with é encoded as the
    bytes 195 and 169, compiles to a search of the bytes 195, 131 and 169 and
    does not match [aaé]. *)
Theorem escaped_character_cut :
  exists prog,
    compileBackrefMode one_bracket bre_flags (str! "\(a\)\1" ++ [92; 195; 169]) = Ret (inr prog) /\
    find (fun _ _ => false) prog [97; 97; 195; 169] 1 = Ret (Some []) /\
    find (fun _ _ => false) prog [97; 97; 195; 131; 169] 1 = Ret (Some [[0; 5; 0; 1]]).
Proof. eexists. split; [vm_compute; reflexivity|]. split; vm_compute; reflexivity. Qed.

End BreParseCorrect.
