(* ===== verification/DiffMyers.v ===== *)
(** * diff: the edit-script engine (src/cmds/diff/myers.go)

    The linear-space Myers algorithm: [myersRec] strips the common ends of
    two slices and splits the rest at a point found by [bisect], which runs a
    forward and a reverse search over the diagonals of the edit graph until
    they overlap. Lines are the interned keys of [Diff]; an index or a slice
    out of range is a [Panic]. The loops carry fuel: [DiffMyersCorrect] shows
    that it is never used up. *)

From Stdlib Require Import ZArith Lia.
From stdpp Require Import base tactics list numbers.
From S2P Require Import Prelude.

Module Myers.

Inductive opKind := opEq | opDel | opIns.

#[global] Instance opKind_eq_dec : EqDecision opKind.
Proof. solve_decision. Defined.

(** ** The search of the middle *)

(** [v[i] = x]. *)
Definition store (v : list Z) (i x : Z) : outcome (list Z) :=
  if (0 <=? i) && (i <? len v) then Ret (<[Z.to_nat i := x]> v) else Panic.

(** The inner loop [for x < n && y < m && same(x, y)]: a run of equal lines
    on a diagonal. *)
Fixpoint snake (fuel : nat) (same : Z -> Z -> outcome bool) (n m x y : Z) : outcome (Z * Z) :=
  if (x <? n) && (y <? m) then
    let! eq := same x y in
    if (eq : bool) then
      match fuel with
      | O => OutOfFuel
      | S f => snake f same n m (x + 1) (y + 1)
      end
    else Ret (x, y)
  else Ret (x, y).

(** The comparisons of the two searches: [a[x] == b[y]], and
    [a[n-x-1] == b[m-y-1]] where positions count from the far corner. *)
Definition same_forward (a b : list Z) (x y : Z) : outcome bool :=
  let! u := index a x in
  let! w := index b y in
  Ret (u =? w).

Definition same_reverse (a b : list Z) (x y : Z) : outcome bool :=
  let! u := index a (len a - x - 1) in
  let! w := index b (len b - y - 1) in
  Ret (u =? w).

(** One diagonal of one search: the furthest point on diagonal [k] with [d]
    edits, and the array with it. *)
Definition furthest (same : Z -> Z -> outcome bool) (n m vOff d k : Z) (v : list Z) : outcome (Z * Z * list Z) :=
  let ko := vOff + k in
  let! down :=
    if k =? - d then Ret true
    else if k =? d then Ret false
    else
      let! l := index v (ko - 1) in
      let! r := index v (ko + 1) in
      Ret (l <? r) in
  let! x :=
    if (down : bool) then index v (ko + 1)
    else let! l := index v (ko - 1) in Ret (l + 1) in
  let! (x, y) := snake (Z.to_nat n) same n m x (x - k) in
  let! v := store v ko x in
  Ret (x, y, v).

(** The variables of one search: the array indexed by diagonal and the
    diagonals cut off at both ends. *)
Record frontier := Frontier { v : list Z; kstart : Z; kend : Z }.

(** [switch]: past the right edge, past the bottom edge. *)
Definition cut_right (f : frontier) (v' : list Z) : frontier := Frontier v' (kstart f) (kend f + 2).
Definition cut_bottom (f : frontier) (v' : list Z) : frontier := Frontier v' (kstart f + 2) (kend f).
Definition keep (f : frontier) (v' : list Z) : frontier := Frontier v' (kstart f) (kend f).

(** The overlap test against the array of the other search, where the
    diagonal is in its range and reached. *)
Definition other_at (vOther : list Z) (ko : Z) : outcome (option Z) :=
  if (0 <=? ko) && (ko <? len vOther) then
    let! w := index vOther ko in
    Ret (if w =? -1 then None else Some w)
  else Ret None.

(** The forward loop of round [d] from diagonal [k1] down: a point of the
    middle, or the new frontier. *)
Fixpoint forward (fuel : nat) (a b : list Z) (vOff d : Z) (front : bool) (v2 : list Z) (k1 : Z) (f1 : frontier) :
    outcome (Z * Z + frontier) :=
  let n := len a in
  let m := len b in
  let delta := n - m in
  if k1 <? - d + kstart f1 then Ret (inr f1)
  else
    match fuel with
    | O => OutOfFuel
    | S fuel' =>
        let! (x, y, v1) := furthest (same_forward a b) n m vOff d k1 (v f1) in
        if n <? x then forward fuel' a b vOff d front v2 (k1 - 2) (cut_right f1 v1)
        else if m <? y then forward fuel' a b vOff d front v2 (k1 - 2) (cut_bottom f1 v1)
        else if front then
          let! o := other_at v2 (vOff + delta - k1) in
          match o with
          | Some w =>
              if n - w <=? x then Ret (inl (x, y))
              else forward fuel' a b vOff d front v2 (k1 - 2) (keep f1 v1)
          | None => forward fuel' a b vOff d front v2 (k1 - 2) (keep f1 v1)
          end
        else forward fuel' a b vOff d front v2 (k1 - 2) (keep f1 v1)
    end.

(** The reverse loop of round [d] from diagonal [k2] up. *)
Fixpoint reverse (fuel : nat) (a b : list Z) (vOff d : Z) (front : bool) (v1 : list Z) (k2 : Z) (f2 : frontier) :
    outcome (Z * Z + frontier) :=
  let n := len a in
  let m := len b in
  let delta := n - m in
  if d - kend f2 <? k2 then Ret (inr f2)
  else
    match fuel with
    | O => OutOfFuel
    | S fuel' =>
        let! (x, y, v2) := furthest (same_reverse a b) n m vOff d k2 (v f2) in
        if n <? x then reverse fuel' a b vOff d front v1 (k2 + 2) (cut_right f2 v2)
        else if m <? y then reverse fuel' a b vOff d front v1 (k2 + 2) (cut_bottom f2 v2)
        else if front then reverse fuel' a b vOff d front v1 (k2 + 2) (keep f2 v2)
        else
          let! o := other_at v1 (vOff + delta - k2) in
          match o with
          | Some x1 =>
              if n - x <=? x1 then Ret (inl (x1, x1 - (delta - k2)))
              else reverse fuel' a b vOff d front v1 (k2 + 2) (keep f2 v2)
          | None => reverse fuel' a b vOff d front v1 (k2 + 2) (keep f2 v2)
          end
    end.

(** The rounds [d, d+1, ..., maxD]; [None] is the return [0, 0, false]. *)
Fixpoint rounds (fuel : nat) (a b : list Z) (maxD : Z) (front : bool) (d : Z) (f1 f2 : frontier) : outcome (option (Z * Z)) :=
  if maxD <? d then Ret None
  else
    match fuel with
    | O => OutOfFuel
    | S fuel' =>
        let! r1 := forward (S (Z.to_nat d)) a b maxD d front (v f2) (d - kend f1) f1 in
        match r1 with
        | inl p => Ret (Some p)
        | inr f1 =>
            let! r2 := reverse (S (Z.to_nat d)) a b maxD d front (v f1) (- d + kstart f2) f2 in
            match r2 with
            | inl p => Ret (Some p)
            | inr f2 => rounds fuel' a b maxD front (d + 1) f1 f2
            end
        end
    end.

Definition bisect (a b : list Z) : outcome (option (Z * Z)) :=
  let n := len a in
  let m := len b in
  let maxD := Z.quot (n + m + 1) 2 in
  let vOff := maxD in
  let vLen := 2 * maxD + 4 in
  let! v1 := store (replicate (Z.to_nat vLen) (-1)) (vOff + 1) 0 in
  let! v2 := store (replicate (Z.to_nat vLen) (-1)) (vOff + 1) 0 in
  let delta := n - m in
  let front := negb (Z.rem delta 2 =? 0) in
  rounds (S (Z.to_nat maxD)) a b maxD front 0 (Frontier v1 0 0) (Frontier v2 0 0).

(** ** The edit script *)

(** The common prefix; the common suffix is that of the reversed rests. *)
Fixpoint common (a b : list Z) : Z :=
  match a, b with
  | x :: a', y :: b' => if x =? y then 1 + common a' b' else 0
  | _, _ => 0
  end.

(** The [switch] on the parts between the common ends, with the recursive
    calls of [myersRec]. *)
Definition split_middle (rec : list Z -> list Z -> list opKind -> outcome (list opKind))
    (ma mb : list Z) (out : list opKind) : outcome (list opKind) :=
  match ma, mb with
  | [], _ => Ret (out ++ replicate (length mb) opIns)
  | _, [] => Ret (out ++ replicate (length ma) opDel)
  | _, _ =>
      let! r := bisect ma mb in
      let degenerate := out ++ replicate (length ma) opDel ++ replicate (length mb) opIns in
      match r with
      | None => Ret degenerate
      | Some (x, y) =>
          if ((x =? 0) && (y =? 0)) || ((x =? len ma) && (y =? len mb)) then Ret degenerate
          else
            let! a1 := slice ma 0 x in
            let! b1 := slice mb 0 y in
            let! out := rec a1 b1 out in
            let! a2 := slice ma x (len ma) in
            let! b2 := slice mb y (len mb) in
            rec a2 b2 out
      end
  end.

Fixpoint myersRec (fuel : nat) (a b : list Z) (out : list opKind) : outcome (list opKind) :=
  match fuel with
  | O => OutOfFuel
  | S f =>
      let p := common a b in
      let s := common (rev (drop (Z.to_nat p) a)) (rev (drop (Z.to_nat p) b)) in
      let out := out ++ replicate (Z.to_nat p) opEq in
      let! ma := slice a p (len a - s) in
      let! mb := slice b p (len b - s) in
      let! out := split_middle (myersRec f) ma mb out in
      Ret (out ++ replicate (Z.to_nat s) opEq)
  end.

Definition myersOps (a b : list Z) : outcome (list opKind) :=
  myersRec (S (length a + length b)) a b [].

End Myers.
