(* ===== verification/DiffMyersCorrect.v ===== *)
(** * diff: the edit script is valid and minimal (src/cmds/diff/myers.go)

    The reference is the textbook recursion [lev] for the number of
    insertions and deletions between two lists. [bisect] is shown to return a
    point that splits an optimal path in two halves, although it drops
    diagonals that ran off the grid and keeps their stale entries; so
    [myersOps] returns a script that transforms one list into the other with
    [lev] edits, and the branch of [myersRec] for a degenerate split is
    dead. *)

From Stdlib Require Import ZArith Lia.
From stdpp Require Import base tactics list numbers.
From S2P Require Import Prelude DiffMyers.

Module MyersCorrect.
Import Myers.

(** ** Scripts and distance *)

(** [ops] consumes [a] and [b] in order. *)
Fixpoint transforms (a b : list Z) (ops : list opKind) : bool :=
  match ops, a, b with
  | [], [], [] => true
  | opEq :: ops', x :: a', y :: b' => (x =? y) && transforms a' b' ops'
  | opDel :: ops', _ :: a', _ => transforms a' b ops'
  | opIns :: ops', _, _ :: b' => transforms a b' ops'
  | _, _, _ => false
  end.

Fixpoint edits (ops : list opKind) : Z :=
  match ops with
  | [] => 0
  | opEq :: ops' => edits ops'
  | _ :: ops' => 1 + edits ops'
  end.

Fixpoint lev (a : list Z) : list Z -> Z :=
  match a with
  | [] => fun b => len b
  | x :: a' =>
      fix lev_a (b : list Z) : Z :=
        match b with
        | [] => len a
        | y :: b' => if x =? y then lev a' b' else 1 + Z.min (lev a' b) (lev_a b')
        end
  end.

(** [d] edits lead from [a] to [b]. *)
Inductive edit : list Z -> list Z -> Z -> Prop :=
| edit_nil : edit [] [] 0
| edit_eq x a b d : edit a b d -> edit (x :: a) (x :: b) d
| edit_del x a b d : edit a b d -> edit (x :: a) b (1 + d)
| edit_ins y a b d : edit a b d -> edit a (y :: b) (1 + d).

Hint Constructors edit : core.

Lemma transforms_edit a b ops : transforms a b ops = true -> edit a b (edits ops).
Proof.
  revert a b. induction ops as [|o ops IH]; intros a b H.
  - by destruct a, b.
  - destruct o, a as [|x a], b as [|y b]; cbn in *; try done; to_prop; subst; auto.
Qed.

Lemma edit_transforms a b d : edit a b d -> exists ops, transforms a b ops = true /\ edits ops = d.
Proof.
  induction 1 as [|x a b d _ (o & ? & <-)|x a b d _ (o & ? & <-)|y a b d _ (o & ? & <-)].
  - by exists [].
  - exists (opEq :: o). cbn. by rewrite Z.eqb_refl.
  - by exists (opDel :: o).
  - exists (opIns :: o). by destruct a.
Qed.

(** The number of edits is that of [j] insertions and the deletions they
    force. *)
Lemma edit_len a b d :
  edit a b d -> exists j, d = len a - len b + 2 * j /\ 0 <= j <= len b /\ 0 <= len a - len b + j <= len a.
Proof.
  induction 1 as [|x a b d _ (j & ?)|x a b d _ (j & ?)|y a b d _ (j & ?)]; rewrite ?len_cons.
  - exists 0. unfold len. cbn. lia.
  - exists j. lia.
  - exists j. lia.
  - exists (j + 1). lia.
Qed.

Lemma edit_0 a b : edit a b 0 -> a = b.
Proof.
  remember 0 as d eqn:E. induction 1 as [|x a b d H IH|x a b d H IH|y a b d H IH]; [done| | |].
  - by rewrite IH.
  - apply edit_len in H as (? & ?). lia.
  - apply edit_len in H as (? & ?). lia.
Qed.

Lemma edit_refl s : edit s s 0.
Proof. induction s; auto. Qed.

Lemma edit_app a b d a' b' d' : edit a b d -> edit a' b' d' -> edit (a ++ a') (b ++ b') (d + d').
Proof. intros H1 H2. induction H1; cbn; rewrite <- ?Z.add_assoc; auto. Qed.

Lemma edit_dels a b d s : edit a b d -> edit (s ++ a) b (len s + d).
Proof. intros. induction s; cbn [app]; [done|]. rewrite len_cons, <- Z.add_assoc. auto. Qed.

Lemma edit_inss a b d s : edit a b d -> edit a (s ++ b) (len s + d).
Proof. intros. induction s; cbn [app]; [done|]. rewrite len_cons, <- Z.add_assoc. auto. Qed.

Lemma edit_rev a b d : edit a b d -> edit (rev a) (rev b) d.
Proof.
  induction 1 as [|x a b d _ IH|x a b d _ IH|y a b d _ IH]; cbn; [done| | |].
  - rewrite <- (Z.add_0_r d). auto using edit_app.
  - rewrite <- (app_nil_r (rev b)). rewrite Z.add_comm. apply edit_app; [done|]. by apply (edit_del x [] [] 0).
  - rewrite <- (app_nil_r (rev a)). rewrite Z.add_comm. apply edit_app; [done|]. by apply (edit_ins y [] [] 0).
Qed.

(** A path can be cut after any number of its edits. *)
Lemma edit_split a b d p :
  edit a b d -> 0 <= p <= d ->
  exists a1 a2 b1 b2, a = a1 ++ a2 /\ b = b1 ++ b2 /\ edit a1 b1 p /\ edit a2 b2 (d - p).
Proof.
  intros H. revert p. induction H as [|x a b d H IH|x a b d H IH|y a b d H IH]; intros p Hp.
  - exists [], [], [], []. replace p with 0 by lia. auto.
  - destruct (IH p Hp) as (a1 & a2 & b1 & b2 & -> & -> & ? & ?). exists (x :: a1), a2, (x :: b1), b2. auto.
  - destruct (decide (p = 0)) as [->|].
    { exists [], (x :: a), [], b. rewrite Z.sub_0_r. auto. }
    destruct (IH (p - 1)) as (a1 & a2 & b1 & b2 & -> & -> & H1 & H2); [lia|].
    exists (x :: a1), a2, b1, b2. split_and!; [done..| |].
    + replace p with (1 + (p - 1)) by lia. auto.
    + by replace (1 + d - p) with (d - (p - 1)) by lia.
  - destruct (decide (p = 0)) as [->|].
    { exists [], a, [], (y :: b). rewrite Z.sub_0_r. auto. }
    destruct (IH (p - 1)) as (a1 & a2 & b1 & b2 & -> & -> & H1 & H2); [lia|].
    exists a1, a2, (y :: b1), b2. split_and!; [done..| |].
    + replace p with (1 + (p - 1)) by lia. auto.
    + by replace (1 + d - p) with (d - (p - 1)) by lia.
Qed.

(** The last edit of a path, and the equal lines after it. *)
Lemma edit_last a b d :
  edit a b (1 + d) -> 0 <= d ->
  exists a1 b1 z s, edit a1 b1 d /\
    ((a = a1 ++ z :: s /\ b = b1 ++ s) \/ (a = a1 ++ s /\ b = b1 ++ z :: s)).
Proof.
  intros H Hd. destruct (edit_split _ _ _ d H) as (a1 & a2 & b1 & b2 & -> & -> & H1 & H2); [lia|].
  replace (1 + d - d) with 1 in H2 by lia.
  remember 1 as o eqn:Eo. revert a1 b1 H1 H. induction H2 as [|x a b e H2 IH|x a b e H2 IH|y a b e H2 IH]; intros a1 b1 H1 H.
  - done.
  - specialize (IH Eo (a1 ++ [x]) (b1 ++ [x])). rewrite <- !app_assoc in IH. apply IH; [|done].
    replace d with (d + 0) by lia. auto using edit_app.
  - assert (e = 0) as -> by lia. apply edit_0 in H2 as ->. exists a1, b1, x, b. auto.
  - assert (e = 0) as -> by lia. apply edit_0 in H2 as ->. exists a1, b1, y, b. auto.
Qed.

(** Dropping one line changes the distance by at most one, and the distance
    does not grow along a diagonal. *)
Lemma edit_tail_r a y b d : edit a (y :: b) d -> exists d', d' <= d + 1 /\ edit a b d'.
Proof.
  remember (y :: b) as w eqn:E. intros H. revert E.
  induction H as [|x a w d H IH|x a w d H IH|z a w d H IH]; intros E; [done| | |].
  - injection E as -> ->. exists (1 + d). split; [lia|auto].
  - destruct (IH E) as (d' & ? & ?). exists (1 + d'). split; [lia|auto].
  - injection E as -> ->. exists d. split; [lia|done].
Qed.

Lemma edit_tail_l x a b d : edit (x :: a) b d -> exists d', d' <= d + 1 /\ edit a b d'.
Proof.
  remember (x :: a) as w eqn:E. intros H. revert E.
  induction H as [|z w b d H IH|z w b d H IH|y w b d H IH]; intros E; [done| | |].
  - injection E as -> ->. exists (1 + d). split; [lia|auto].
  - injection E as -> ->. exists d. split; [lia|done].
  - destruct (IH E) as (d' & ? & ?). exists (1 + d'). split; [lia|auto].
Qed.

Lemma edit_diagonal u w a b d :
  length u = length w -> edit (u ++ a) (w ++ b) d -> exists d', d' <= d /\ edit a b d'.
Proof.
  revert w d. induction u as [|x u IH]; intros [|y w] d Hl H; try done; [by exists d|]. cbn in *.
  assert (exists d1, d1 <= d /\ edit (u ++ a) (w ++ b) d1) as (d1 & ? & H1).
  { inversion H as [|? ? ? ? H0|? ? ? e H0|? ? ? e H0]; subst.
    - by exists d.
    - destruct (edit_tail_r _ _ _ _ H0) as (d' & ? & ?). exists d'. split; [lia|done].
    - destruct (edit_tail_l _ _ _ _ H0) as (d' & ? & ?). exists d'. split; [lia|done]. }
  destruct (IH w d1) as (d' & ? & ?); [lia|done|]. exists d'. split; [lia|done].
Qed.

Lemma lev_cons x a y b :
  lev (x :: a) (y :: b) = if x =? y then lev a b else 1 + Z.min (lev a (y :: b)) (lev (x :: a) b).
Proof. done. Qed.

Lemma lev_edit a b : edit a b (lev a b).
Proof.
  revert b. induction a as [|x a IHa]; intros b.
  - change (lev [] b) with (len b). rewrite <- (app_nil_r b) at 1. rewrite <- (Z.add_0_r (len b)). by apply edit_inss.
  - induction b as [|y b IHb].
    + change (lev (x :: a) []) with (len (x :: a)). rewrite <- (app_nil_r (x :: a)) at 1.
      rewrite <- (Z.add_0_r (len _)). by apply edit_dels.
    + rewrite lev_cons. destruct (Z.eqb_spec x y) as [->|]; [auto|].
      destruct (Z.min_spec (lev a (y :: b)) (lev (x :: a) b)) as [[_ ->]|[_ ->]]; auto.
Qed.

Lemma lev_least a b d : edit a b d -> lev a b <= d.
Proof.
  revert b d. induction a as [|x a IHa]; intros b d H.
  { apply edit_len in H as (j & Hj). change (lev [] b) with (len b). cbn in Hj. change (len []) with 0 in Hj. lia. }
  revert d H. induction b as [|y b IHb]; intros d H.
  { apply edit_len in H as (j & Hj). change (lev (x :: a) []) with (len (x :: a)). change (len []) with 0 in Hj. lia. }
  rewrite lev_cons. destruct (Z.eqb_spec x y) as [->|].
  - apply (edit_diagonal [y] [y]) in H as (d' & ? & H'); [|done]. apply IHa in H'. lia.
  - inversion H as [|? ? ? ? H0|? ? ? e H0|? ? ? e H0]; subst; [done| |].
    + apply IHa in H0. lia.
    + apply IHb in H0. lia.
Qed.

(** ** Positions *)

Definition pre (x : Z) (l : list Z) : list Z := take (Z.to_nat x) l.
Definition post (x : Z) (l : list Z) : list Z := drop (Z.to_nat x) l.

Lemma pre_post x l : pre x l ++ post x l = l.
Proof. apply take_drop. Qed.

Lemma len_pre x l : 0 <= x <= len l -> len (pre x l) = x.
Proof. unfold pre, len. intros. rewrite length_take. lia. Qed.

Lemma len_post x l : 0 <= x <= len l -> len (post x l) = len l - x.
Proof. unfold post, len. intros. rewrite length_drop. lia. Qed.

Lemma pre_app a1 s : pre (len a1) (a1 ++ s) = a1.
Proof. unfold pre, len. by rewrite Nat2Z.id, take_app_length. Qed.

Lemma post_app a1 s : post (len a1) (a1 ++ s) = s.
Proof. unfold post, len. by rewrite Nat2Z.id, drop_app_length. Qed.

Lemma pre_succ x l u : 0 <= x -> l !! Z.to_nat x = Some u -> pre (x + 1) l = pre x l ++ [u].
Proof. intros ? H. unfold pre. rewrite Z2Nat.inj_add, Nat.add_1_r by lia. by apply take_S_r. Qed.

(** A prefix in two parts: the positions of the second part. *)
Lemma pre_split x l l1 s :
  0 <= x <= len l -> pre x l = l1 ++ s ->
  x = len l1 + len s /\ pre (len l1) l = l1 /\ post (len l1) l = s ++ post x l /\
  forall i, len l1 <= i < x -> l !! Z.to_nat i = s !! Z.to_nat (i - len l1).
Proof.
  intros Hx E. assert (l = l1 ++ s ++ post x l) as El.
  { rewrite <- (pre_post x l) at 1. rewrite E. by rewrite <- app_assoc. }
  apply (f_equal len) in E. rewrite len_pre, len_app in E by done.
  split; [done|]. rewrite El at 1 2. rewrite pre_app, post_app. split_and!; [done..|].
  intros i Hi. rewrite El. unfold len in *. rewrite lookup_app_r by lia. rewrite lookup_app_l by lia. f_equal. lia.
Qed.

Lemma pre_rev x l : 0 <= x <= len l -> pre x (rev l) = rev (post (len l - x) l).
Proof.
  intros Hx. rewrite <- (pre_post (len l - x) l) at 1. rewrite rev_app_distr.
  replace x with (len (rev (post (len l - x) l))) at 1; [apply pre_app|].
  unfold len at 1. rewrite length_rev. fold (len (post (len l - x) l)). rewrite len_post; lia.
Qed.

Lemma post_rev x l : 0 <= x <= len l -> post x (rev l) = rev (pre (len l - x) l).
Proof.
  intros Hx. rewrite <- (pre_post (len l - x) l) at 1. rewrite rev_app_distr.
  replace x with (len (rev (post (len l - x) l))) at 1; [apply post_app|].
  unfold len at 1. rewrite length_rev. fold (len (post (len l - x) l)). rewrite len_post; lia.
Qed.

Lemma lookup_in x (l : list Z) : 0 <= x < len l -> exists u, l !! Z.to_nat x = Some u.
Proof. unfold len. intros. apply lookup_lt_is_Some. lia. Qed.

(** ** The array of a search *)

Definition get (vOff : Z) (v : list Z) (k : Z) : Z :=
  if 0 <=? vOff + k then default (-1) (v !! Z.to_nat (vOff + k)) else -1.

Lemma index_get vOff v i k : i = vOff + k -> 0 <= i < len v -> index v i = Ret (get vOff v k).
Proof.
  intros -> Hi. apply index_Ret. split; [lia|]. unfold get. rewrite (proj2 (Z.leb_le _ _)) by lia.
  by destruct (lookup_in (vOff + k) v Hi) as [u ->].
Qed.

Lemma store_get vOff v k x :
  0 <= vOff + k < len v ->
  exists v', store v (vOff + k) x = Ret v' /\ len v' = len v /\ get vOff v' k = x /\
    forall k', k' <> k -> get vOff v' k' = get vOff v k'.
Proof.
  intros Hk. unfold store. rewrite (proj2 (Z.leb_le _ _)), (proj2 (Z.ltb_lt _ _)) by lia.
  eexists. split; [done|]. unfold len in *. split; [by rewrite length_insert|]. split.
  - unfold get. rewrite (proj2 (Z.leb_le _ _)) by lia. by rewrite list_lookup_insert_eq by lia.
  - intros k' Hk'. unfold get. destruct (Z.leb_spec 0 (vOff + k')); [|done].
    by rewrite list_lookup_insert_ne by lia.
Qed.

Lemma other_at_get vOff v i k :
  i = vOff + k ->
  other_at v i = Ret (if (0 <=? i) && (i <? len v) && negb (get vOff v k =? -1) then Some (get vOff v k) else None).
Proof.
  intros ->. unfold other_at. destruct ((0 <=? vOff + k) && (vOff + k <? len v)) eqn:E; [|done]. to_prop.
  rewrite (index_get vOff v (vOff + k) k) by (lia || done). cbn. by destruct (get vOff v k =? -1).
Qed.

(** ** One search

    The search runs from the first corner of the grid of [a] and [b], whose
    distance is [D]. *)

Section Search.
Context (a b : list Z) (D : Z).
Hypothesis HD : edit a b D.
Hypothesis Dmin : forall d, edit a b d -> D <= d.
Context (same : Z -> Z -> outcome bool).
Hypothesis Hsame : forall x y u w,
  0 <= x -> 0 <= y -> a !! Z.to_nat x = Some u -> b !! Z.to_nat y = Some w -> same x y = Ret (u =? w).
Context (vOff : Z).

Abbreviation n := (len a).
Abbreviation m := (len b).
Abbreviation delta := (len a - len b).
Abbreviation get := (get vOff).

Lemma snake_spec fuel x y :
  0 <= x -> 0 <= y -> n - x <= Z.of_nat fuel ->
  exists s, 0 <= s /\ snake fuel same n m x y = Ret (x + s, y + s) /\
    (0 < s -> x + s <= n /\ y + s <= m) /\
    (forall d, edit (pre x a) (pre y b) d -> edit (pre (x + s) a) (pre (y + s) b) d) /\
    (x + s < n -> y + s < m -> a !! Z.to_nat (x + s) <> b !! Z.to_nat (y + s)).
Proof using Hsame.
  revert x y. induction fuel as [|fuel IH]; intros x y Hx Hy Hf; cbn [snake];
    destruct ((x <? n) && (y <? m)) eqn:E; to_prop.
  1: lia.
  1, 3: exists 0; rewrite !Z.add_0_r; split_and!; [lia|done|lia|done|];
    intros ??; apply andb_false_iff in E as [E|E]; to_prop; lia.
  destruct (lookup_in x a) as [u Hu]; [lia|]. destruct (lookup_in y b) as [w Hw]; [lia|].
  rewrite (Hsame x y u w) by done. cbn [bind]. destruct (Z.eqb_spec u w) as [->|].
  - destruct (IH (x + 1) (y + 1)) as (s & ? & -> & Hin & Hd & Hmax); [lia..|].
    exists (s + 1). replace (x + 1 + s) with (x + (s + 1)) in * by lia.
    replace (y + 1 + s) with (y + (s + 1)) in * by lia. split_and!; [lia|done| | |done].
    + intros _. destruct (decide (s = 0)) as [->|]; [lia|]. apply Hin. lia.
    + intros d Hp. apply Hd. rewrite (pre_succ x a w), (pre_succ y b w) by done.
      rewrite <- (Z.add_0_r d). auto using edit_app, edit_refl.
  - exists 0. rewrite !Z.add_0_r. split_and!; [lia|done|lia|done|]. intros _ _. rewrite Hu, Hw. congruence.
Qed.

(** The points of a shortest path after [d] edits. *)
Definition on_path (d x y : Z) : Prop :=
  0 <= x <= n /\ 0 <= y <= m /\ edit (pre x a) (pre y b) d /\ edit (post x a) (post y b) (D - d).

Lemma on_path_exists d : 0 <= d <= D -> exists x y, on_path d x y.
Proof using HD.
  intros Hd. destruct (edit_split a b D d HD Hd) as (a1 & a2 & b1 & b2 & Ea & Eb & H1 & H2).
  exists (len a1), (len b1). unfold on_path. rewrite Ea, Eb, !pre_app, !post_app, !len_app.
  pose proof (len_nonneg a1). pose proof (len_nonneg a2). pose proof (len_nonneg b1). pose proof (len_nonneg b2).
  split_and!; try lia; done.
Qed.

Lemma on_path_range d x y :
  on_path d x y ->
  - d <= x - y <= d /\ d + (x - y - delta) <= D /\ d - (x - y - delta) <= D /\ exists j, d = x - y + 2 * j.
Proof.
  intros (Hx & Hy & H1 & H2). apply edit_len in H1 as (j & H1), H2 as (j' & H2).
  rewrite !len_pre, !len_post in * by lia. split_and!; [lia..|]. exists j. lia.
Qed.

(** The step of a shortest path to its last edit. *)
Lemma on_path_prev d x y :
  on_path (1 + d) x y -> 0 <= d ->
  exists x' y', on_path d x' y' /\
    ((x' + 1 <= x /\ x' - y' = x - y - 1 /\
        forall i, x' + 1 <= i < x -> a !! Z.to_nat i = b !! Z.to_nat (i - (x - y))) \/
     (x' <= x /\ x' - y' = x - y + 1 /\
        forall i, x' <= i < x -> a !! Z.to_nat i = b !! Z.to_nat (i - (x - y)))).
Proof.
  intros (Hx & Hy & H1 & H2) Hd. destruct (edit_last _ _ _ H1 Hd) as (a1 & b1 & z & s & H0 & E).
  assert (forall e, 1 + (0 + (D - (1 + d))) = e -> edit ((z :: s) ++ post x a) (s ++ post y b) e /\
    edit (s ++ post x a) ((z :: s) ++ post y b) e) as H3.
  { intros e <-. split; [apply edit_del|apply edit_ins]; apply edit_app; auto using edit_refl. }
  destruct (H3 (D - d)) as [H3d H3i]; [lia|]. clear H3.
  pose proof (len_nonneg a1). pose proof (len_nonneg b1). pose proof (len_nonneg s).
  exists (len a1), (len b1). unfold on_path.
  destruct E as [[Ea Eb]|[Ea Eb]];
    destruct (pre_split x a _ _ Hx Ea) as (Lx & -> & -> & La); destruct (pre_split y b _ _ Hy Eb) as (Ly & -> & -> & Lb);
    rewrite ?len_cons in *.
  - split; [split_and!; try lia; done|]. left. split_and!; [lia..|]. intros i Hi.
    rewrite La, Lb by lia. replace (Z.to_nat (i - len a1)) with (S (Z.to_nat (i - (x - y) - len b1))) by lia. done.
  - split; [split_and!; try lia; done|]. right. split_and!; [lia..|]. intros i Hi.
    rewrite La, Lb by lia. replace (Z.to_nat (i - (x - y) - len b1)) with (S (Z.to_nat (i - len a1))) by lia. done.
Qed.

(** What the array holds for diagonal [k] after round [p]: a point reached
    with at most [p] edits, or a point past an edge, which has made the search
    on its diagonal pointless. *)
Definition good (p k x : Z) : Prop :=
  0 <= x /\ 0 <= x - k /\ - p <= k <= p /\
  (x <= n -> x - k <= m -> exists d, d <= p /\ edit (pre x a) (pre (x - k) b) d) /\
  (n < x \/ m < x - k -> D <= p + (n - x) + (m - (x - k))).

Lemma good_mono p q k x : p <= q -> good p k x -> good q k x.
Proof.
  intros Hpq (? & ? & ? & Hin & Hoff). split_and!; [lia..| |].
  - intros. destruct Hin as (d & ? & ?); [done..|]. exists d. split; [lia|done].
  - intros. specialize (Hoff ltac:(done)). lia.
Qed.

(** A path to the right or the bottom edge continues along the edge. *)
Lemma good_edge p k x : good p k x -> n <= x \/ m <= x - k -> D <= p + (n - x) + (m - (x - k)).
Proof using Dmin.
  intros (Hx & Hy & Hk & Hin & Hoff) He. destruct (decide (n < x \/ m < x - k)) as [|Hn]; [auto|].
  destruct Hin as (d & Hd & H); [lia..|].
  assert (edit (post x a) (post (x - k) b) ((n - x) + (m - (x - k)))) as H'.
  { rewrite <- (len_post x a), <- (len_post (x - k) b) by lia.
    rewrite <- (app_nil_r (post x a)) at 1. rewrite <- (app_nil_r (post (x - k) b)) at 1.
    apply edit_dels. rewrite <- (Z.add_0_r (len (post (x - k) b))). by apply edit_inss. }
  pose proof (edit_app _ _ _ _ _ _ H H') as H2. rewrite !pre_post in H2. apply Dmin in H2. lia.
Qed.

Lemma good_down d k w : good (d - 1) (k + 1) w -> - d <= k -> good d k w.
Proof using Dmin.
  intros G Hk. pose proof (good_edge _ _ _ G) as He. destruct G as (Hx & Hy & Hr & Hin & Hoff).
  split_and!; [lia..| |].
  - intros ??. destruct Hin as (e & ? & He0); [lia..|]. exists (e + 1). split; [lia|].
    destruct (lookup_in (w - (k + 1)) b) as [u Hu]; [lia|].
    replace (w - k) with (w - (k + 1) + 1) by lia. rewrite (pre_succ _ b u) by (lia || done).
    rewrite <- (app_nil_r (pre w a)). apply edit_app; [done|]. by apply (edit_ins u [] [] 0).
  - intros Ho. specialize (He ltac:(lia)). lia.
Qed.

Lemma good_right d k w : good (d - 1) (k - 1) w -> k <= d -> good d k (w + 1).
Proof using Dmin.
  intros G Hk. pose proof (good_edge _ _ _ G) as He. destruct G as (Hx & Hy & Hr & Hin & Hoff).
  split_and!; [lia..| |].
  - intros ??. destruct Hin as (e & ? & He0); [lia..|]. exists (e + 1). split; [lia|].
    destruct (lookup_in w a) as [u Hu]; [lia|].
    replace (w + 1 - k) with (w - (k - 1)) by lia. rewrite (pre_succ _ a u) by (lia || done).
    rewrite <- (app_nil_r (pre (w - (k - 1)) b)). apply edit_app; [done|]. by apply (edit_del u [] [] 0).
  - intros Ho. specialize (He ltac:(lia)). lia.
Qed.

(** A point past the right or the bottom edge is on no shortest path, and
    nor is any diagonal further out. *)
Lemma good_past_right p k x : good p k x -> n < x -> D + 2 <= p + k - delta.
Proof. intros (? & ? & ? & _ & Hoff) ?. specialize (Hoff ltac:(lia)). lia. Qed.

Lemma good_past_bottom p k x : good p k x -> m < x - k -> D + 2 <= p - k + delta.
Proof. intros (? & ? & ? & _ & Hoff) ?. specialize (Hoff ltac:(lia)). lia. Qed.

Definition par (d k : Z) : Prop := exists j, d = k + 2 * j.

Definition entry (p k x : Z) : Prop := x = -1 \/ good p k x \/ (k = 1 /\ x = 0).

(** The diagonals of round [d - 1] next to those round [d] visits are
    reached. *)
Definition reached (d : Z) (f : frontier) : Prop :=
  (d = 0 /\ get (v f) 1 = 0) \/
  (1 <= d /\ exists lo hi, lo <= hi /\ - (d - 1) <= lo /\ hi <= d - 1 /\ par (d - 1) lo /\ par (d - 1) hi /\
     lo <= - (d - 1) + kstart f /\ d - 1 - kend f <= hi /\
     forall k, lo <= k <= hi -> par (d - 1) k -> good (d - 1) k (get (v f) k)).

(** The state during round [d], the diagonals of [done] being visited. *)
Record pass (d : Z) (f : frontier) (done : Z -> Prop) : Prop := Pass {
  pass_len : len (v f) = 2 * vOff + 4;
  pass_old : forall k, par (d - 1) k -> entry (d - 1) k (get (v f) k);
  pass_entry : forall k, entry d k (get (v f) k);
  pass_even : par (kstart f) 0 /\ par (kend f) 0 /\ 0 <= kstart f /\ 0 <= kend f;
  pass_right : kend f = 0 \/ delta + D <= 2 * d - kend f;
  pass_bottom : kstart f = 0 \/ D - delta <= 2 * d - kstart f;
  pass_reached : reached d f;
  pass_prev : 1 <= d -> forall x y, on_path (d - 1) x y -> x <= get (v f) (x - y);
  pass_done : forall k, done k ->
    good d k (get (v f) k) /\ forall x, on_path d x (x - k) -> x <= get (v f) k
}.

(** The start of the run of equal lines on diagonal [k]. *)
Definition start_ok (d k x0 : Z) : Prop :=
  good d k x0 /\
  forall x, on_path d x (x - k) ->
    x <= x0 \/ forall i, x0 <= i < x -> a !! Z.to_nat i = b !! Z.to_nat (i - k).

Lemma snake_good d k x0 :
  start_ok d k x0 ->
  exists x, snake (Z.to_nat n) same n m x0 (x0 - k) = Ret (x, x - k) /\ good d k x /\
    forall x', on_path d x' (x' - k) -> x' <= x.
Proof using Hsame.
  intros [(Hx & Hy & Hk & Hin & Hoff) Hc].
  destruct (snake_spec (Z.to_nat n) x0 (x0 - k)) as (s & Hs & E & Hle & Hd & Hmax); [lia..|].
  exists (x0 + s). rewrite E. replace (x0 - k + s) with (x0 + s - k) in * by lia. split; [done|]. split.
  - split_and!; [lia..| |].
    + intros ??. destruct Hin as (e & ? & ?); [lia..|]. exists e. auto.
    + intros Ho. destruct (decide (s = 0)) as [->|]; [|lia]. rewrite Z.add_0_r in *. auto.
  - intros x' Hp. destruct (Hc x' Hp) as [|Heq]; [lia|]. destruct Hp as (? & ? & _).
    destruct (decide (x' <= x0 + s)) as [|Hn]; [done|]. destruct Hmax; [lia..|]. apply Heq. lia.
Qed.

Lemma start_complete d k f done x0 :
  pass d f done -> 1 <= d ->
  (k <> - d -> get (v f) (k - 1) + 1 <= x0) -> (k <> d -> get (v f) (k + 1) <= x0) ->
  good d k x0 -> start_ok d k x0.
Proof.
  intros P Hd Hl Hr Hg. split; [done|]. intros x Hp.
  replace d with (1 + (d - 1)) in Hp by lia.
  destruct (on_path_prev _ _ _ Hp) as (x' & y' & Hp' & Hc); [lia|].
  pose proof (pass_prev _ _ _ P Hd _ _ Hp') as Hx'. pose proof (on_path_range _ _ _ Hp') as Hrg.
  right. intros i Hi. destruct Hc as [(? & E & Hc)|(? & E & Hc)]; rewrite E in *;
    replace (x - (x - k)) with k in * by lia; apply Hc.
  - specialize (Hl ltac:(lia)). lia.
  - specialize (Hr ltac:(lia)). lia.
Qed.

Lemma reached_neighbours d f k :
  reached d f -> 1 <= d -> - d + kstart f <= k <= d - kend f -> 0 <= kstart f -> 0 <= kend f -> par d k ->
  (good (d - 1) (k + 1) (get (v f) (k + 1)) \/ good (d - 1) (k - 1) (get (v f) (k - 1))) /\
  (k = - d -> good (d - 1) (k + 1) (get (v f) (k + 1))) /\ (k = d -> good (d - 1) (k - 1) (get (v f) (k - 1))).
Proof.
  intros [?|(_ & lo & hi & ? & ? & ? & [j1 ?] & [j2 ?] & ? & ? & Hg)] Hd Hk ?? [j ?]; [lia|].
  split_and!.
  - destruct (decide (k + 1 <= hi)); [left|right]; apply Hg; try lia.
    + exists (j - 1). lia.
    + exists j. lia.
  - intros ->. apply Hg; [lia|]. exists (j - 1). lia.
  - intros ->. apply Hg; [lia|]. exists j. lia.
Qed.

Ltac reads P :=
  match goal with
  | |- context [index (v ?f) (vOff + ?k + ?i)] =>
      rewrite (index_get vOff (v f) (vOff + k + i) (k + i)) by (lia || (rewrite (pass_len _ _ _ P); lia))
  | |- context [index (v ?f) (vOff + ?k - ?i)] =>
      rewrite (index_get vOff (v f) (vOff + k - i) (k - i)) by (lia || (rewrite (pass_len _ _ _ P); lia))
  end.

Lemma furthest_start d k f done :
  pass d f done -> 0 <= d <= vOff -> - d + kstart f <= k <= d - kend f -> par d k ->
  exists x0, start_ok d k x0 /\
    furthest same n m vOff d k (v f) =
      let! (x, y) := snake (Z.to_nat n) same n m x0 (x0 - k) in
      let! v' := store (v f) (vOff + k) x in
      Ret (x, y, v').
Proof using Dmin.
  intros P Hd Hk Hpar. pose proof (pass_even _ _ _ P) as (_ & _ & Hs & He).
  unfold furthest. destruct (decide (d = 0)) as [->|Hd0].
  { assert (k = 0) as -> by lia. destruct (pass_reached _ _ _ P) as [[_ E]|[? _]]; [|lia].
    cbn [Z.eqb Z.opp bind]. reads P. cbn [bind]. change (0 + 1) with 1. rewrite E. exists 0. split; [|done]. split.
    - split_and!; [lia..| |].
      + intros. exists 0. split; [lia|]. apply edit_refl.
      + pose proof (len_nonneg a). pose proof (len_nonneg b). lia.
    - intros x (Hx & Hy & H & _). right. intros i Hi. apply edit_0 in H.
      destruct (pre_split x a [] (pre x a)) as (_ & _ & _ & Ea); [done..|].
      destruct (pre_split (x - 0) b [] (pre (x - 0) b)) as (_ & _ & _ & Eb); [done..|].
      rewrite Ea, Eb by (unfold len; cbn; lia). rewrite H. do 2 f_equal. lia. }
  destruct (reached_neighbours d f k (pass_reached _ _ _ P)) as (Hor & Hlow & Hhigh); [lia..|done|].
  assert (par (d - 1) (k + 1) /\ par (d - 1) (k - 1)) as [P1 P2].
  { destruct Hpar as [j ?]. split; [exists (j - 1)|exists j]; lia. }
  pose proof (pass_old _ _ _ P _ P1) as E1. pose proof (pass_old _ _ _ P _ P2) as E2.
  destruct (Z.eqb_spec k (- d)) as [Ek|Ek]; [|destruct (Z.eqb_spec k d) as [Ek'|Ek']]; cbn [bind]; repeat reads P; cbn [bind].
  - exists (get (v f) (k + 1)). split; [|done].
    apply (start_complete d k f done); [done|lia..|]. apply good_down; [auto|lia].
  - exists (get (v f) (k - 1) + 1). split; [|done].
    apply (start_complete d k f done); [done|lia..|]. apply good_right; [auto|lia].
  - destruct (Z.ltb_spec (get (v f) (k - 1)) (get (v f) (k + 1))) as [Hlt|Hge]; cbn [bind]; repeat reads P; cbn [bind].
    + exists (get (v f) (k + 1)). split; [|done].
      apply (start_complete d k f done); [done|lia..|]. apply good_down; [|lia].
      destruct Hor as [|G2]; [done|]. destruct G2 as (? & ? & _).
      destruct E1 as [?|[?|[??]]]; [lia|done|lia].
    + exists (get (v f) (k - 1) + 1). split; [|done].
      apply (start_complete d k f done); [done|lia..|]. apply good_right; [|lia].
      destruct Hor as [G1|]; [|done]. destruct G1 as (? & ? & _).
      destruct E2 as [?|[?|[??]]]; [lia|done|lia].
Qed.

(** One diagonal of a round. *)
Lemma furthest_spec d k f done :
  pass d f done -> 0 <= d <= vOff -> - d + kstart f <= k <= d - kend f -> par d k ->
  exists x v', furthest same n m vOff d k (v f) = Ret (x, x - k, v') /\
    len v' = len (v f) /\ get v' k = x /\ (forall k', k' <> k -> get v' k' = get (v f) k') /\
    good d k x /\ forall x', on_path d x' (x' - k) -> x' <= x.
Proof using Dmin Hsame.
  intros P Hd Hk Hpar. destruct (furthest_start d k f done P Hd Hk Hpar) as (x0 & Hs & ->).
  destruct (snake_good d k x0 Hs) as (x & -> & Hg & Hc). cbn [bind].
  pose proof (pass_even _ _ _ P) as (_ & _ & ? & ?).
  destruct (store_get vOff (v f) k x) as (v' & -> & Hl & Hx & Ho); [rewrite (pass_len _ _ _ P); lia|].
  exists x, v'. done.
Qed.

(** Diagonals that a shortest path uses are neither cut nor past an edge. *)
Lemma pass_useful d f done x y :
  pass d f done -> on_path d x y -> - d + kstart f <= x - y <= d - kend f.
Proof.
  intros P Hp. destruct (on_path_range _ _ _ Hp) as (? & ? & ? & _).
  pose proof (pass_right _ _ _ P). pose proof (pass_bottom _ _ _ P). lia.
Qed.

Lemma good_useful d k x X : good d k X -> on_path d x (x - k) -> X <= n /\ X - k <= m.
Proof.
  intros Hg Hp. destruct (on_path_range _ _ _ Hp) as (? & ? & ? & _).
  destruct (decide (n < X)) as [Hn|]; [apply (good_past_right _ _ _ Hg) in Hn; lia|].
  destruct (decide (m < X - k)) as [Hm|]; [apply (good_past_bottom _ _ _ Hg) in Hm; lia|]. lia.
Qed.

Lemma pass_write d f done k x v' s' e' :
  pass d f done -> par d k ->
  len v' = len (v f) -> get v' k = x -> (forall k', k' <> k -> get v' k' = get (v f) k') ->
  good d k x -> (forall x', on_path d x' (x' - k) -> x' <= x) ->
  kstart f <= s' -> kend f <= e' -> par s' 0 -> par e' 0 ->
  (e' = 0 \/ delta + D <= 2 * d - e') -> (s' = 0 \/ D - delta <= 2 * d - s') ->
  pass d (Frontier v' s' e') (fun k' => done k' \/ k' = k).
Proof.
  intros P [j Hj] Hl Hx Ho Hg Hc Hs He Es Ee Hr Hb. pose proof (pass_even _ _ _ P) as (_ & _ & ? & ?).
  assert (forall k', par (d - 1) k' -> get v' k' = get (v f) k') as Hold.
  { intros k' [j' ?]. apply Ho. lia. }
  split; cbn.
  - by rewrite Hl, (pass_len _ _ _ P).
  - intros k' Hk'. rewrite (Hold _ Hk'). by apply (pass_old _ _ _ P).
  - intros k'. destruct (decide (k' = k)) as [->|Hne]; [rewrite Hx; right; by left|].
    rewrite Ho by done. apply (pass_entry _ _ _ P).
  - split_and!; [done..|lia|lia].
  - done.
  - done.
  - destruct (pass_reached _ _ _ P) as [[-> E]|(Hd & lo & hi & ? & ? & ? & ? & ? & ? & ? & Hlh)].
    + left. split; [done|]. rewrite Ho by lia. done.
    + right. split; [done|]. exists lo, hi. split_and!; [done..|cbn; lia|cbn; lia|].
      intros k' ??. cbn. rewrite Hold by done. auto.
  - intros Hd x' y' Hp. rewrite Hold; [by apply (pass_prev _ _ _ P)|].
    destruct (on_path_range _ _ _ Hp) as (_ & _ & _ & j' & ?). by exists j'.
  - intros k' [Hk'| ->]; [|by rewrite Hx].
    destruct (decide (k' = k)) as [->|]; [by rewrite Hx|]. rewrite Ho by done. by apply (pass_done _ _ _ P).
Qed.

(** The three ways a round goes on after a diagonal. *)
Lemma pass_step d f done k x v' :
  pass d f done -> par d k -> - d + kstart f <= k <= d - kend f ->
  len v' = len (v f) -> get v' k = x -> (forall k', k' <> k -> get v' k' = get (v f) k') ->
  good d k x -> (forall x', on_path d x' (x' - k) -> x' <= x) ->
  (n < x -> pass d (cut_right f v') (fun k' => done k' \/ k' = k)) /\
  (m < x - k -> pass d (cut_bottom f v') (fun k' => done k' \/ k' = k)) /\
  pass d (keep f v') (fun k' => done k' \/ k' = k).
Proof.
  intros P Hpar Hk Hl Hx Ho Hg Hc. pose proof (pass_even _ _ _ P) as ([i ?] & [j ?] & ? & ?).
  pose proof (pass_right _ _ _ P). pose proof (pass_bottom _ _ _ P).
  assert (par (kstart f) 0 /\ par (kend f) 0 /\ par (kstart f + 2) 0 /\ par (kend f + 2) 0) as (? & ? & ? & ?).
  { split_and!; [by exists i|by exists j|exists (i + 1); lia|exists (j + 1); lia]. }
  split_and!; intros; eapply pass_write; eauto; try lia.
  - right. pose proof (good_past_right d k x Hg). lia.
  - right. pose proof (good_past_bottom d k x Hg). lia.
Qed.

(** From one round to the next. *)
Lemma pass_next d f done lo hi :
  pass d f done -> 0 <= d -> - d <= lo -> hi <= d -> par d lo -> par d hi -> lo <= hi ->
  lo <= - d + kstart f -> d - kend f <= hi ->
  (forall k, lo <= k <= hi -> par d k -> done k) ->
  pass (d + 1) f (fun _ => False).
Proof.
  intros P Hd Hlo Hhi Pl Ph Hle Hs He Hdone.
  assert (d + 1 - 1 = d) as Ed by lia.
  split; rewrite ?Ed.
  - apply (pass_len _ _ _ P).
  - intros k _. apply (pass_entry _ _ _ P).
  - intros k. destruct (pass_entry _ _ _ P k) as [?|[?|?]]; [by left| |by do 2 right].
    right; left. apply (good_mono d); [lia|done].
  - apply (pass_even _ _ _ P).
  - pose proof (pass_right _ _ _ P). lia.
  - pose proof (pass_bottom _ _ _ P). lia.
  - right. split; [lia|]. exists lo, hi. rewrite Ed. split_and!; [done..|].
    intros k ? ?. apply (pass_done _ _ _ P). auto.
  - intros _ x y Hp. pose proof (pass_useful _ _ _ _ _ P Hp) as Hu.
    destruct (on_path_range _ _ _ Hp) as (_ & _ & _ & Hj).
    apply (pass_done _ _ _ P); [|by replace (x - (x - y)) with y by lia].
    apply Hdone; [lia|done].
  - done.
Qed.

Lemma pass_init len_v v' :
  0 <= vOff -> len_v = 2 * vOff + 4 -> store (replicate (Z.to_nat len_v) (-1)) (vOff + 1) 0 = Ret v' ->
  pass 0 (Frontier v' 0 0) (fun _ => False).
Proof.
  intros Hv -> E. set (r := replicate _ _) in E.
  assert (len r = 2 * vOff + 4) as Hl by (unfold len, r; rewrite length_replicate; lia).
  assert (forall k, get r k = -1) as Hr.
  { intros k. unfold get, MyersCorrect.get, r. destruct (0 <=? vOff + k); [|done].
    destruct (replicate _ _ !! _) as [x|] eqn:Ex; [|done]. apply lookup_replicate in Ex as [-> _]. done. }
  destruct (store_get vOff r 1 0) as (v'' & E' & Hl' & H1 & Ho); [lia|]. rewrite E in E'. injection E' as ->.
  assert (forall p k, entry p k (get v'' k)) as He.
  { intros p k. destruct (decide (k = 1)) as [->|]; [rewrite H1; do 2 right; lia|]. rewrite Ho, Hr by done. by left. }
  split; cbn; try done.
  - by rewrite Hl'.
  - split_and!; [by exists 0..|lia|lia].
  - by left.
  - by left.
  - by left.
Qed.

Lemma pass_weaken d f (done done' : Z -> Prop) :
  pass d f done -> (forall k, done' k -> done k) -> pass d f done'.
Proof. intros [] H. split; auto. Qed.

(** What the other search may rely on after round [p]. *)
Definition known (p : Z) (w : list Z) : Prop :=
  len w = 2 * vOff + 4 /\ (forall k, par p k -> entry p k (get w k)) /\
  forall x y, on_path p x y -> x <= get w (x - y).

Lemma pass_known d f done : pass d f done -> known (d - 1) (v f).
Proof.
  intros P. split_and!; [apply (pass_len _ _ _ P)|apply (pass_old _ _ _ P)|].
  intros x y Hp. destruct (decide (1 <= d)); [by apply (pass_prev _ _ _ P)|].
  destruct (on_path_range _ _ _ Hp). lia.
Qed.

(** An entry that overlaps with a point of the other search is a point of
    the grid, as long as the rounds do not exceed the distance. *)
Lemma entry_overlap p k w q k' x :
  entry p k w -> w <> -1 -> k + k' = delta -> 0 <= x -> x <= n -> x - k' <= m -> n <= x + w ->
  - q <= k' <= q -> p + q <= D -> good p k w /\ w <= n /\ w - k <= m.
Proof.
  intros [?|[G|[-> ->]]] ????????; [done| |lia]. split; [done|].
  destruct (decide (n < w)) as [Hn|]; [apply (good_past_right _ _ _ G) in Hn; lia|].
  destruct (decide (m < w - k)) as [Hm|]; [apply (good_past_bottom _ _ _ G) in Hm; lia|]. lia.
Qed.

End Search.

(** ** The two searches *)

Lemma len_rev (l : list Z) : len (rev l) = len l.
Proof. unfold len. by rewrite length_rev. Qed.

Lemma same_forward_spec a b x y u w :
  0 <= x -> 0 <= y -> a !! Z.to_nat x = Some u -> b !! Z.to_nat y = Some w -> same_forward a b x y = Ret (u =? w).
Proof.
  intros. unfold same_forward. by rewrite (proj2 (index_Ret a x u)), (proj2 (index_Ret b y w)) by done.
Qed.

Lemma lookup_rev_Some (l : list Z) x u :
  0 <= x -> rev l !! Z.to_nat x = Some u -> index l (len l - x - 1) = Ret u.
Proof.
  intros Hx H. pose proof (lookup_lt_Some _ _ _ H) as Hl. rewrite length_rev in Hl.
  apply index_Ret. unfold len. split; [lia|].
  rewrite rev_alt in H. apply (reverse_lookup_Some l) in H as [H _]. rewrite <- H. f_equal. lia.
Qed.

Lemma same_reverse_spec a b x y u w :
  0 <= x -> 0 <= y -> rev a !! Z.to_nat x = Some u -> rev b !! Z.to_nat y = Some w ->
  same_reverse a b x y = Ret (u =? w).
Proof.
  intros. unfold same_reverse. by rewrite (lookup_rev_Some a x u), (lookup_rev_Some b y w) by done.
Qed.

Section Middle.
Context (a b : list Z) (D : Z).
Hypothesis HD : edit a b D.
Hypothesis Dmin : forall d, edit a b d -> D <= d.
Context (vOff : Z).

Abbreviation n := (len a).
Abbreviation m := (len b).
Abbreviation delta := (len a - len b).
Abbreviation get := (get vOff).

(** The middle of a shortest path. *)
Definition middle (x y : Z) : Prop :=
  0 <= x <= n /\ 0 <= y <= m /\
  exists d1 d2, edit (pre x a) (pre y b) d1 /\ edit (post x a) (post y b) d2 /\
    d1 + d2 = D /\ (d1 = d2 \/ d1 = d2 + 1).

Lemma rev_HD : edit (rev a) (rev b) D.
Proof using HD. by apply edit_rev. Qed.

Lemma rev_Dmin d : edit (rev a) (rev b) d -> D <= d.
Proof using Dmin. intros H%edit_rev. rewrite !rev_involutive in H. auto. Qed.

Lemma on_path_rev d x y : on_path a b D d x y -> on_path (rev a) (rev b) D (D - d) (n - x) (m - y).
Proof.
  intros (Hx & Hy & H1 & H2). unfold on_path. rewrite !len_rev, !pre_rev, !post_rev by lia.
  replace (n - (n - x)) with x by lia. replace (m - (m - y)) with y by lia.
  replace (D - (D - d)) with d by lia. split_and!; [lia..| |]; by apply edit_rev.
Qed.

Lemma overlap_middle p1 k1 x1 p2 k2 w :
  good a b D p1 k1 x1 -> x1 <= n -> x1 - k1 <= m ->
  good (rev a) (rev b) D p2 k2 w -> w <= n -> w - k2 <= m ->
  k1 + k2 = delta -> n <= x1 + w -> p1 + p2 <= D -> (p1 = p2 \/ p1 = p2 + 1) ->
  middle x1 (x1 - k1).
Proof using Dmin.
  intros (? & ? & _ & H1 & _) ?? (? & ? & _ & H2 & _) ??????. rewrite !len_rev in H2.
  destruct H1 as (d1 & ? & H1); [done..|]. destruct H2 as (d2 & ? & H2); [done..|].
  apply edit_rev in H2. rewrite !pre_rev, !rev_involutive in H2 by lia.
  set (u := n - w) in *. set (u' := m - (w - k2)) in *.
  assert (forall l z z', 0 <= z -> z <= z' -> z' <= len l -> post z l = sub z z' l ++ post z' l) as Hseg.
  { intros l z z' ???. unfold post. rewrite <- (sub_all l z), <- (sub_all l z') by lia. symmetry. by apply sub_app. }
  rewrite (Hseg a u x1), (Hseg b u' (x1 - k1)) in H2 by lia.
  apply edit_diagonal in H2 as (d2' & ? & H2).
  - pose proof (edit_app _ _ _ _ _ _ H1 H2) as Hsum. rewrite !pre_post in Hsum. apply Dmin in Hsum. unfold middle.
    split_and!; [lia..|]. exists d1, d2'. split_and!; [done..|lia|lia].
  - apply Nat2Z.inj. change (len (sub u x1 a) = len (sub u' (x1 - k1) b)). rewrite !len_sub by lia. lia.
Qed.

(** The overlap test of either search: where the other search holds a value
    that overlaps, the forward point is in the middle. *)
Lemma overlap_found p1 k1 x1 p2 w :
  p1 + p2 <= D -> (p1 = p2 \/ p1 = p2 + 1) -> x1 <> -1 -> w <> -1 -> n <= x1 + w ->
  entry a b D p1 k1 x1 -> entry (rev a) (rev b) D p2 (delta - k1) w ->
  (good a b D p1 k1 x1 /\ x1 <= n /\ x1 - k1 <= m) \/
  (good (rev a) (rev b) D p2 (delta - k1) w /\ w <= n /\ w - (delta - k1) <= m) ->
  middle x1 (x1 - k1).
Proof using Dmin.
  intros ? Hp ??? E1 E2 [(G1 & ? & ?)|(G2 & ? & ?)].
  - pose proof G1 as (? & ? & ? & _).
    destruct (entry_overlap (rev a) (rev b) D p2 (delta - k1) w p1 k1 x1 E2) as (G2 & ? & ?);
      rewrite ?len_rev in *; [lia..|]. eapply (overlap_middle p1 k1 x1 p2 (delta - k1) w); (done || lia).
  - pose proof G2 as (? & ? & ? & _).
    destruct (entry_overlap a b D p1 k1 x1 p2 (delta - k1) w E1) as (G1 & ? & ?);
      [lia..|]. eapply (overlap_middle p1 k1 x1 p2 (delta - k1) w); (done || lia).
Qed.

Context (d : Z) (front : bool).
Hypothesis Hd : 0 <= d <= vOff.
Hypothesis HdD : 2 * d - 1 <= D.
Hypothesis Hfront : if front then par (delta + 1) 0 else par delta 0.

Lemma D_parity : exists j, D = delta + 2 * j.
Proof using HD. destruct (edit_len _ _ _ HD) as (j & ? & _). by exists j. Qed.

Lemma D_nonneg : 0 <= D.
Proof using HD. destruct (edit_len _ _ _ HD) as (j & ?). lia. Qed.

Lemma path_in_round a' b' f done :
  edit a' b' D -> pass a' b' D vOff d f done ->
  exists k, - d + kstart f <= k <= d - kend f.
Proof using HD Hd HdD.
  intros H P. pose proof D_nonneg. destruct (on_path_exists a' b' D H d) as (x & y & Hp); [lia|].
  exists (x - y). by apply (pass_useful a' b' D vOff d f done).
Qed.

(** The end of a round: the visited diagonals [lo..hi] include every
    diagonal a shortest path can use. *)
Lemma round_end a' b' f lo hi (done : Z -> Prop) :
  edit a' b' D -> pass a' b' D vOff d f done -> (forall k, lo <= k <= hi -> par d k -> done k) ->
  - d <= lo -> hi <= d -> par d lo -> par d hi -> lo <= - d + kstart f -> d - kend f <= hi ->
  pass a' b' D vOff (d + 1) f (fun _ => False) /\
  exists k x, lo <= k <= hi /\ par d k /\ on_path a' b' D d x (x - k).
Proof using HD Hd HdD.
  intros HD' P Hdone ??????. pose proof D_nonneg.
  destruct (on_path_exists a' b' D HD' d) as (x & y & Hp); [lia|].
  pose proof (pass_useful a' b' D vOff d f done x y P Hp).
  split; [apply (pass_next a' b' D vOff d f done lo hi); auto; lia|].
  exists (x - y), x. split_and!; [lia..|by apply (on_path_range a' b' D)|by replace (x - (x - y)) with y by lia].
Qed.

(** A diagonal of a shortest path is known to the other search. *)
Lemma known_path a' b' p w x k :
  known a' b' D vOff p w -> on_path a' b' D p x (x - k) -> x <= get w k /\ - p <= k <= p /\ 0 <= x.
Proof.
  intros (_ & _ & Hk) Hp. specialize (Hk _ _ Hp). destruct (on_path_range _ _ _ _ _ _ Hp) as (? & _).
  destruct Hp as (? & _). replace (x - (x - k)) with k in * by lia. lia.
Qed.

(** The diagonals [done] of a round are visited and none of them has shown an
    overlap, where [hit] says that this round ends at the middle. *)
Record visited (a' b' : list Z) (hit : Prop) (f : frontier) (done : Z -> Prop) : Prop := Visited {
  vis_pass : pass a' b' D vOff d f done;
  vis_none : hit -> forall k x, done k -> ~ on_path a' b' D d x (x - k)
}.

Lemma visited_next a' b' hit f f' done (done' : Z -> Prop) k :
  visited a' b' hit f done -> pass a' b' D vOff d f' (fun k' => done k' \/ k' = k) ->
  (hit -> forall x, ~ on_path a' b' D d x (x - k)) -> (forall k', done' k' -> done k' \/ k' = k) ->
  visited a' b' hit f' done'.
Proof.
  intros [_ Hno] P Hn Hd'. split; [by eapply pass_weaken|].
  intros Hh k' x [| ->]%Hd'; [by apply Hno|by apply Hn].
Qed.

Lemma visited_end a' b' hit f lo hi (done : Z -> Prop) :
  edit a' b' D -> visited a' b' hit f done -> (forall k, lo <= k <= hi -> par d k -> done k) ->
  - d <= lo -> hi <= d -> par d lo -> par d hi -> lo <= - d + kstart f -> d - kend f <= hi ->
  pass a' b' D vOff (d + 1) f (fun _ => False) /\ ~ hit.
Proof using HD Hd HdD.
  intros HD' [P Hno] Hdone ??????.
  destruct (round_end a' b' f lo hi done HD' P) as [P' (k & x & ? & ? & Hp)]; [done..|].
  split; [done|]. intros Hh. apply (Hno Hh k x); auto.
Qed.

(** The forward loop. *)

Definition down_from (k1 hi k : Z) : Prop := k1 < k <= hi /\ par d k.

Lemma down_from_next k1 hi k : par d k1 -> down_from (k1 - 2) hi k -> down_from k1 hi k \/ k = k1.
Proof. intros [j ?] [? [j' ?]]. destruct (decide (k = k1)); [by right|]. left. split; [lia|by exists j']. Qed.

(** No overlap on a diagonal of a shortest path is missed. *)
Lemma forward_hit v2 k1 x x' :
  known (rev a) (rev b) D vOff (d - 1) v2 -> on_path a b D d x' (x' - k1) -> x' <= x -> D = 2 * d - 1 ->
  0 <= vOff + delta - k1 < len v2 /\ get v2 (delta - k1) <> -1 /\ n - get v2 (delta - k1) <= x.
Proof using Hd HdD.
  intros K Hp Hle ED. apply on_path_rev in Hp. replace (D - d) with (d - 1) in Hp by lia.
  replace (m - (x' - k1)) with (n - x' - (delta - k1)) in Hp by lia.
  destruct (known_path _ _ _ _ _ _ K Hp). destruct K as (-> & _). lia.
Qed.

Lemma forward_spec fuel v2 k1 hi f1 :
  visited a b (front = true /\ D = 2 * d - 1) f1 (down_from k1 hi) ->
  known (rev a) (rev b) D vOff (d - 1) v2 ->
  k1 + d < 2 * Z.of_nat fuel -> - d - 2 <= k1 -> k1 <= d - kend f1 -> d - kend f1 <= hi -> hi <= d ->
  par d k1 -> par d hi ->
  exists r, forward fuel a b vOff d front v2 k1 f1 = Ret r /\
    match r with
    | inl (x, y) => middle x y
    | inr f1' => pass a b D vOff (d + 1) f1' (fun _ => False) /\ ~ (front = true /\ D = 2 * d - 1)
    end.
Proof using HD Dmin Hd HdD Hfront.
  intros V K. revert k1 f1 V. induction fuel as [|fuel IH]; intros k1 f1 V Hf Hlo Hk Hh Hh' [j Hj] Ph; cbn [forward];
    pose proof (vis_pass _ _ _ _ _ V) as P; pose proof (pass_even _ _ _ _ _ _ _ P) as ([j0 ?] & _ & ? & ?);
    (destruct (Z.ltb_spec k1 (- d + kstart f1)) as [Hlt|Hge];
     [eexists; split; [done|]; apply (visited_end a b _ f1 (k1 + 2) hi _ HD V); try lia;
      [by intros; split; [lia|]|exists (j - 1); lia|done]|]); [lia|].
  assert (par d k1) as Pk by (by exists j).
  destruct (furthest_spec a b D Dmin (same_forward a b) (same_forward_spec a b) vOff d k1 f1 _ P)
    as (x & v1 & -> & Hl & Hx & Ho & Hg & Hc); [lia..|done|].
  cbn [bind]. destruct (pass_step a b D vOff d f1 _ k1 x v1 P) as (Sr & Sb & Sk); [lia || done..|].
  assert (par d (k1 - 2)) by (exists (j + 1); lia).
  destruct (Z.ltb_spec n x) as [Hn|Hn]; [|destruct (Z.ltb_spec m (x - k1)) as [Hm|Hm]].
  1, 2: apply IH; cbn; try lia; try done; eapply visited_next; eauto using down_from_next;
    intros _ x' Hp; destruct (good_useful a b D d k1 x' x Hg Hp); lia.
  destruct front; [|apply IH; cbn; try lia; try done; eapply visited_next; eauto using down_from_next; by intros [? _]].
  rewrite (other_at_get vOff v2 _ (delta - k1)) by lia. cbn [bind].
  destruct (_ && negb (get v2 _ =? -1)) eqn:E; [destruct (Z.leb_spec (n - get v2 (delta - k1)) x)|]; to_prop.
  - eexists. split; [done|]. apply (overlap_found d k1 x (d - 1) (get v2 (delta - k1))); try lia.
    + destruct Hg as (? & _). lia.
    + right. by left.
    + destruct K as (_ & K & _). apply K. destruct Hfront as [i ?]. exists (j - i + k1). lia.
    + by left.
  - apply IH; cbn; try lia; try done. eapply visited_next; eauto using down_from_next.
    intros [_ ED] x' Hp. destruct (forward_hit v2 k1 x x' K Hp (Hc x' Hp) ED). lia.
  - apply IH; cbn; try lia; try done. eapply visited_next; eauto using down_from_next.
    intros [_ ED] x' Hp. destruct (forward_hit v2 k1 x x' K Hp (Hc x' Hp) ED) as (? & ? & _).
    rewrite (proj2 (Z.leb_le _ _)), (proj2 (Z.ltb_lt _ _)), (proj2 (Z.eqb_neq _ _)) in E by lia. done.
Qed.

(** The reverse loop. *)

Definition up_from (lo k2 k : Z) : Prop := lo <= k < k2 /\ par d k.

Lemma up_from_next lo k2 k : par d k2 -> up_from lo (k2 + 2) k -> up_from lo k2 k \/ k = k2.
Proof. intros [j ?] [? [j' ?]]. destruct (decide (k = k2)); [by right|]. left. split; [lia|by exists j']. Qed.

Lemma reverse_hit v1 k2 x x' :
  known a b D vOff d v1 -> on_path (rev a) (rev b) D d x' (x' - k2) -> x' <= x -> D = 2 * d ->
  0 <= vOff + delta - k2 < len v1 /\ get v1 (delta - k2) <> -1 /\ n - x <= get v1 (delta - k2).
Proof using Hd.
  intros K (Hx & Hy & H1 & H2) Hle ED. rewrite !len_rev in *.
  rewrite !pre_rev, !post_rev in * by lia. apply edit_rev in H1, H2. rewrite !rev_involutive in *.
  replace (D - d) with d in H2 by lia. replace (m - (x' - k2)) with (n - x' - (delta - k2)) in * by lia.
  assert (on_path a b D d (n - x') (n - x' - (delta - k2))) as Hp.
  { split_and!; [lia..|done|]. by replace (D - d) with d by lia. }
  destruct (known_path _ _ _ _ _ _ K Hp). destruct K as (-> & _). lia.
Qed.

Lemma reverse_spec fuel v1 k2 lo f2 :
  visited (rev a) (rev b) (front = false /\ D = 2 * d) f2 (up_from lo k2) ->
  known a b D vOff d v1 -> (front = false -> 2 * d <= D) ->
  d - k2 < 2 * Z.of_nat fuel -> k2 <= d + 2 -> - d + kstart f2 <= k2 -> lo <= - d + kstart f2 -> - d <= lo ->
  par d k2 -> par d lo ->
  exists r, reverse fuel a b vOff d front v1 k2 f2 = Ret r /\
    match r with
    | inl (x, y) => middle x y
    | inr f2' => pass (rev a) (rev b) D vOff (d + 1) f2' (fun _ => False) /\ ~ (front = false /\ D = 2 * d)
    end.
Proof using HD Dmin Hd HdD Hfront.
  intros V K HDd. revert k2 f2 V. induction fuel as [|fuel IH]; intros k2 f2 V Hf Hlo Hk Hh Hh' [j Hj] Ph; cbn [reverse];
    pose proof (vis_pass _ _ _ _ _ V) as P; pose proof (pass_even _ _ _ _ _ _ _ P) as (_ & [j0 ?] & ? & ?);
    (destruct (Z.ltb_spec (d - kend f2) k2) as [Hlt|Hge];
     [eexists; split; [done|]; apply (visited_end (rev a) (rev b) _ f2 lo (k2 - 2) _ rev_HD V); try lia;
      [by intros; split; [lia|]|done|exists (j + 1); lia]|]); [lia|].
  assert (par d k2) as Pk by (by exists j).
  destruct (furthest_spec (rev a) (rev b) D rev_Dmin (same_reverse a b) (same_reverse_spec a b) vOff d k2 f2 _ P)
    as (x & v2 & E0 & Hl & Hx & Ho & Hg & Hc); [lia..|done|].
  rewrite !len_rev in E0. rewrite E0. cbn [bind].
  destruct (pass_step (rev a) (rev b) D vOff d f2 _ k2 x v2 P) as (Sr & Sb & Sk); [lia || done..|].
  rewrite len_rev in Sr, Sb. assert (par d (k2 + 2)) by (exists (j - 1); lia).
  destruct (Z.ltb_spec n x) as [Hn|Hn]; [|destruct (Z.ltb_spec m (x - k2)) as [Hm|Hm]].
  1, 2: apply IH; cbn; try lia; try done; eapply visited_next; eauto using up_from_next;
    intros _ x' Hp; destruct (good_useful (rev a) (rev b) D d k2 x' x Hg Hp); rewrite !len_rev in *; lia.
  destruct front; [apply IH; cbn; try lia; try done; eapply visited_next; eauto using up_from_next; by intros [? _]|].
  rewrite (other_at_get vOff v1 _ (delta - k2)) by lia. cbn [bind].
  destruct (_ && negb (get v1 _ =? -1)) eqn:E; [destruct (Z.leb_spec (n - x) (get v1 (delta - k2)))|]; to_prop.
  - eexists. split; [done|]. specialize (HDd eq_refl).
    apply (overlap_found d (delta - k2) (get v1 (delta - k2)) d x); try lia.
    + destruct Hg as (? & _). lia.
    + destruct K as (_ & K & _). apply K. destruct Hfront as [i ?]. exists (j - i + k2). lia.
    + replace (delta - (delta - k2)) with k2 by lia. right. by left.
    + replace (delta - (delta - k2)) with k2 by lia. by right.
  - apply IH; cbn; try lia; try done. eapply visited_next; eauto using up_from_next.
    intros [_ ED] x' Hp. destruct (reverse_hit v1 k2 x x' K Hp (Hc x' Hp) ED). lia.
  - apply IH; cbn; try lia; try done. eapply visited_next; eauto using up_from_next.
    intros [_ ED] x' Hp. destruct (reverse_hit v1 k2 x x' K Hp (Hc x' Hp) ED) as (? & ? & _).
    rewrite (proj2 (Z.leb_le _ _)), (proj2 (Z.ltb_lt _ _)), (proj2 (Z.eqb_neq _ _)) in E by lia. done.
Qed.

End Middle.

Lemma rounds_spec a b D maxD front fuel d f1 f2 :
  edit a b D -> (forall e, edit a b e -> D <= e) -> D <= 2 * maxD ->
  (if front : bool then par (len a - len b + 1) 0 else par (len a - len b) 0) ->
  pass a b D maxD d f1 (fun _ => False) -> pass (rev a) (rev b) D maxD d f2 (fun _ => False) ->
  0 <= d -> 2 * d - 1 <= D -> maxD - d < Z.of_nat fuel ->
  exists x y, rounds fuel a b maxD front d f1 f2 = Ret (Some (x, y)) /\ middle a b D x y.
Proof.
  intros HD Dmin HmD Hfr. revert d f1 f2. induction fuel as [|fuel IH]; intros d f1 f2 P1 P2 Hd HdD Hf; cbn [rounds];
    rewrite (proj2 (Z.ltb_ge _ _)) by lia; [lia|].
  pose proof (pass_even _ _ _ _ _ _ _ P1) as ([i1 ?] & [j1 ?] & ? & ?).
  pose proof (pass_even _ _ _ _ _ _ _ P2) as ([i2 ?] & [j2 ?] & ? & ?).
  destruct (path_in_round a b D HD maxD d ltac:(lia) HdD a b f1 _ HD P1) as [k1 ?].
  destruct (path_in_round a b D HD maxD d ltac:(lia) HdD _ _ f2 _ (edit_rev _ _ _ HD) P2) as [k2 ?].
  assert (par d (d - kend f1)) by (exists j1; lia). assert (par d (- d + kstart f2)) by (exists (d - i2); lia).
  destruct (forward_spec a b D HD Dmin maxD d front ltac:(lia) HdD Hfr (S (Z.to_nat d)) (v f2) (d - kend f1) (d - kend f1) f1)
    as (r1 & -> & Hr1); try lia; try done.
  { split; [eapply pass_weaken; [done|]|]; intros; unfold down_from in *; lia. }
  { by apply pass_known in P2. }
  cbn [bind]. destruct r1 as [[x y]|f1']; [by exists x, y|]. destruct Hr1 as [P1' Hn1].
  pose proof (D_parity a b D HD) as [jD ?].
  destruct (reverse_spec a b D HD Dmin maxD d front ltac:(lia) HdD Hfr (S (Z.to_nat d)) (v f1') (- d + kstart f2) (- d + kstart f2) f2)
    as (r2 & -> & Hr2); try lia; try done.
  { split; [eapply pass_weaken; [done|]|]; intros; unfold up_from in *; lia. }
  { apply pass_known in P1'. by replace (d + 1 - 1) with d in P1' by lia. }
  { intros ->. destruct Hfr as [? ?]. lia. }
  cbn [bind]. destruct r2 as [[x y]|f2']; [by exists x, y|]. destruct Hr2 as [P2' Hn2].
  apply IH; try lia; try done. destruct front, Hfr as [? ?].
  - destruct (decide (D = 2 * d - 1)) as [E|]; [by destruct Hn1|lia].
  - destruct (decide (D = 2 * d)) as [E|]; [by destruct Hn2|lia].
Qed.

Lemma bisect_spec a b :
  exists x y, bisect a b = Ret (Some (x, y)) /\ middle a b (lev a b) x y.
Proof.
  unfold bisect. set (maxD := Z.quot _ 2).
  pose proof (len_nonneg a). pose proof (len_nonneg b).
  assert (2 * maxD <= len a + len b + 1 < 2 * maxD + 2) as HmD.
  { unfold maxD. rewrite Z.quot_div_nonneg by lia. pose proof (Z.div_mod (len a + len b + 1) 2).
    pose proof (Z.mod_pos_bound (len a + len b + 1) 2). lia. }
  destruct (store_get maxD (replicate (Z.to_nat (2 * maxD + 4)) (-1)) 1 0) as (v0 & E & _).
  { unfold len. rewrite length_replicate. lia. }
  rewrite E. cbn [bind]. pose proof (lev_edit a b) as HD. destruct (edit_len _ _ _ HD) as (j & ?).
  apply rounds_spec; try lia; try done.
  - apply lev_least.
  - pose proof (Z.quot_rem (len a - len b) 2). set (q := Z.quot (len a - len b) 2) in *.
    destruct (Z.eqb_spec (Z.rem (len a - len b) 2) 0) as [Er|Er]; cbn [negb]; [exists q; lia|].
    pose proof (Z.rem_bound_abs (len a - len b) 2 ltac:(lia)).
    assert (Z.rem (len a - len b) 2 = 1 \/ Z.rem (len a - len b) 2 = -1) as [Er'|Er'] by lia; [exists (q + 1)|exists q]; lia.
  - eapply pass_init; [lia|reflexivity|done].
  - eapply pass_init; [lia|reflexivity|done].
Qed.

(** ** The script *)

Lemma transforms_opIns a y b o : transforms a (y :: b) (opIns :: o) = transforms a b o.
Proof. by destruct a. Qed.

Lemma transforms_opDel x a b o : transforms (x :: a) b (opDel :: o) = transforms a b o.
Proof. done. Qed.

Lemma transforms_app a b o a' b' o' :
  transforms a b o = true -> transforms a' b' o' = true -> transforms (a ++ a') (b ++ b') (o ++ o') = true.
Proof.
  intros H1 H2. revert a b H1. induction o as [|k o IH]; intros a b H1; [by destruct a, b|].
  destruct k.
  - destruct a as [|x a], b as [|y b]; cbn in *; try done. to_prop. subst. rewrite Z.eqb_refl. cbn. auto.
  - destruct a as [|x a]; [by destruct b|]. cbn [app]. rewrite transforms_opDel in *. auto.
  - destruct b as [|y b]; [by destruct a|]. cbn [app]. rewrite transforms_opIns in *. auto.
Qed.

Lemma edits_app o o' : edits (o ++ o') = edits o + edits o'.
Proof. induction o as [|[] o IH]; cbn [edits app]; lia. Qed.

Lemma transforms_same s : transforms s s (replicate (length s) opEq) = true /\ edits (replicate (length s) opEq) = 0.
Proof. induction s as [|x s [IH1 IH2]]; cbn; [done|]. by rewrite Z.eqb_refl. Qed.

Lemma transforms_del s : transforms s [] (replicate (length s) opDel) = true /\ edits (replicate (length s) opDel) = len s.
Proof.
  induction s as [|x s [IH1 IH2]]; [done|]. cbn [length replicate edits transforms]. split; [done|].
  rewrite IH2, len_cons. done.
Qed.

Lemma transforms_ins s : transforms [] s (replicate (length s) opIns) = true /\ edits (replicate (length s) opIns) = len s.
Proof.
  induction s as [|x s [IH1 IH2]]; [done|]. cbn [length replicate edits transforms]. split; [done|].
  rewrite IH2, len_cons. done.
Qed.

Lemma common_spec a b :
  exists s a' b', a = s ++ a' /\ b = s ++ b' /\ common a b = len s /\ (head a' = head b' -> a' = [] \/ b' = []).
Proof.
  revert b. induction a as [|x a IH]; intros b; [exists [], [], b; split_and!; auto|].
  destruct b as [|y b]; [exists [], (x :: a), []; split_and!; auto|]. cbn [common].
  destruct (Z.eqb_spec x y) as [->|Hne]; [|exists [], (x :: a), (y :: b); split_and!; auto; by intros [=]].
  destruct (IH b) as (s & a' & b' & -> & -> & -> & H). exists (y :: s), a', b'. split_and!; auto. by rewrite len_cons.
Qed.

(** What is left between the common ends. *)
Lemma strip_spec a b :
  let p := common a b in
  let s := common (rev (drop (Z.to_nat p) a)) (rev (drop (Z.to_nat p) b)) in
  exists u ma mb w, a = u ++ ma ++ w /\ b = u ++ mb ++ w /\ p = len u /\ s = len w /\
    (ma = [] \/ mb = [] \/ (head ma <> head mb /\ list.last ma <> list.last mb)).
Proof.
  intros p s. destruct (common_spec a b) as (u & a1 & b1 & Ea & Eb & Ep & Hh). fold p in Ep.
  assert (drop (Z.to_nat p) a = a1 /\ drop (Z.to_nat p) b = b1) as [Da Db].
  { rewrite Ep, Ea, Eb. unfold len. rewrite Nat2Z.id. by rewrite !drop_app_length. }
  destruct (common_spec (rev a1) (rev b1)) as (w & a2 & b2 & Ea2 & Eb2 & Es & Hl).
  apply (f_equal (@rev Z)) in Ea2, Eb2. rewrite rev_involutive, rev_app_distr in Ea2, Eb2.
  exists u, (rev a2), (rev b2), (rev w). rewrite Ea, Eb, Ea2, Eb2. unfold s. rewrite Da, Db, len_rev. split_and!; [done..|].
  destruct a2 as [|xa a2]; [by left|]. destruct b2 as [|xb b2]; [right; by left|]. do 2 right. split.
  - intros E. destruct Hh as [->| ->].
    + rewrite Ea2, Eb2. cbn in E |- *. by destruct (rev a2), (rev b2).
    + cbn in Ea2. by destruct (rev a2).
    + cbn in Eb2. by destruct (rev b2).
  - cbn. rewrite !last_snoc. intros [= ->]. by destruct Hl.
Qed.

Lemma lev_strip u ma mb w : lev ma mb <= lev (u ++ ma ++ w) (u ++ mb ++ w).
Proof.
  pose proof (lev_edit (u ++ ma ++ w) (u ++ mb ++ w)) as H.
  apply edit_diagonal in H as (d1 & ? & H); [|done]. apply edit_rev in H. rewrite !rev_app_distr in H.
  apply edit_diagonal in H as (d2 & ? & H); [|done]. apply edit_rev in H. rewrite !rev_involutive in H.
  apply lev_least in H. lia.
Qed.

Lemma lev_ge_2 ma mb :
  ma <> [] -> mb <> [] -> head ma <> head mb -> list.last ma <> list.last mb -> 2 <= lev ma mb.
Proof.
  intros Ha Hb Hh Hl. pose proof (lev_edit ma mb) as H. destruct (edit_len _ _ _ H) as (j & ?).
  destruct (decide (lev ma mb = 0)) as [E|]; [rewrite E in H; apply edit_0 in H as ->; done|].
  destruct (decide (lev ma mb = 1)) as [E|]; [|lia]. rewrite E in H.
  destruct (edit_last ma mb 0 H) as (a1 & b1 & z & s & He & Hc); [lia|]. apply edit_0 in He as <-.
  destruct a1 as [|x a1]; [|by destruct Hc as [[-> ->]|[-> ->]]].
  destruct s as [|y s]; [by destruct Hc as [[-> ->]|[-> ->]]|].
  destruct Hc as [[-> ->]|[-> ->]]; destruct Hl; reflexivity.
Qed.

(** A script for a split at the middle. *)
Lemma middle_scripts ma mb x y o1 o2 :
  middle ma mb (lev ma mb) x y ->
  transforms (pre x ma) (pre y mb) o1 = true -> edits o1 <= lev (pre x ma) (pre y mb) ->
  transforms (post x ma) (post y mb) o2 = true -> edits o2 <= lev (post x ma) (post y mb) ->
  transforms ma mb (o1 ++ o2) = true /\ edits (o1 ++ o2) <= lev ma mb.
Proof.
  intros (_ & _ & d1 & d2 & H1%lev_least & H2%lev_least & E & _) T1 L1 T2 L2. split.
  - pose proof (transforms_app _ _ _ _ _ _ T1 T2) as T. by rewrite !pre_post in T.
  - rewrite edits_app. lia.
Qed.

(** The middle of a path of two edits or more is at neither corner. *)
Lemma middle_inside ma mb x y :
  middle ma mb (lev ma mb) x y -> 2 <= lev ma mb ->
  ((x =? 0) && (y =? 0)) || ((x =? len ma) && (y =? len mb)) = false.
Proof.
  intros (Hx & Hy & d1 & d2 & H1 & H2 & E & Hd) HD.
  apply edit_len in H1 as (j1 & H1), H2 as (j2 & H2). rewrite !len_pre, !len_post in * by lia.
  apply orb_false_iff. split; apply andb_false_iff.
  - destruct (Z.eqb_spec x 0), (Z.eqb_spec y 0); auto. lia.
  - destruct (Z.eqb_spec x (len ma)), (Z.eqb_spec y (len mb)); auto. lia.
Qed.

Lemma slice_pre l x : 0 <= x <= len l -> slice l 0 x = Ret (pre x l).
Proof. intros. rewrite slice_Ret by lia. unfold sub, pre. by rewrite Z.sub_0_r. Qed.

Lemma slice_post l x : 0 <= x <= len l -> slice l x (len l) = Ret (post x l).
Proof. intros. rewrite slice_Ret by lia. by rewrite sub_all by lia. Qed.

Lemma length_parts l x : (length (pre x l) + length (post x l) = length l)%nat.
Proof. rewrite <- length_app. by rewrite pre_post. Qed.

Definition rec_ok (rec : list Z -> list Z -> list opKind -> outcome (list opKind)) (a b : list Z) : Prop :=
  forall out, exists ops, rec a b out = Ret (out ++ ops) /\ transforms a b ops = true /\ edits ops <= lev a b.

Lemma split_middle_spec rec ma mb :
  (ma = [] \/ mb = [] \/ (head ma <> head mb /\ list.last ma <> list.last mb)) ->
  (forall a b, (length a + length b < length ma + length mb)%nat -> rec_ok rec a b) ->
  rec_ok (split_middle rec) ma mb.
Proof.
  intros Hends Hrec out. unfold split_middle. destruct ma as [|xa ma'].
  { destruct (transforms_ins mb) as [T E]. eexists. split; [done|]. split; [done|]. rewrite E. done. }
  destruct mb as [|xb mb'].
  { destruct (transforms_del (xa :: ma')) as [T E]. eexists. split; [done|]. split; [done|]. rewrite E. done. }
  set (ma := xa :: ma') in *. set (mb := xb :: mb') in *.
  destruct Hends as [?|[?|[Hh Hl]]]; [done..|].
  pose proof (lev_ge_2 ma mb ltac:(done) ltac:(done) Hh Hl) as H2.
  destruct (bisect_spec ma mb) as (x & y & -> & M). cbn [bind]. rewrite (middle_inside ma mb x y M H2).
  pose proof M as (Hx & Hy & d1 & d2 & H1 & H3 & Hd & Hor). apply edit_len in H1 as (j1 & H1), H3 as (j2 & H3).
  rewrite !len_pre in H1 by lia. rewrite !len_post in H3 by lia. rewrite !slice_pre, !slice_post by lia. cbn [bind].
  pose proof (length_parts ma x). pose proof (length_parts mb y).
  pose proof (len_pre x ma Hx). pose proof (len_pre y mb Hy). pose proof (len_post x ma Hx). pose proof (len_post y mb Hy).
  unfold len in *.
  destruct (Hrec (pre x ma) (pre y mb) ltac:(lia) out) as (o1 & -> & T1 & L1). cbn [bind].
  destruct (Hrec (post x ma) (post y mb) ltac:(lia) (out ++ o1)) as (o2 & -> & T2 & L2).
  exists (o1 ++ o2). rewrite app_assoc. split; [done|]. by apply (middle_scripts ma mb x y).
Qed.

Lemma myersRec_spec fuel a b : (length a + length b < fuel)%nat -> rec_ok (myersRec fuel) a b.
Proof.
  revert a b. induction fuel as [|fuel IH]; intros a b Hf out; [lia|]. cbn [myersRec].
  destruct (strip_spec a b) as (u & ma & mb & w & Ea & Eb & Ep & Es & Hends). rewrite Ep, Es in *.
  assert (forall l ml, l = u ++ ml ++ w -> slice l (len u) (len l - len w) = Ret ml) as Hsl.
  { intros l ml ->. pose proof (len_nonneg u). pose proof (len_nonneg ml). rewrite !len_app.
    rewrite slice_Ret by (rewrite ?len_app; pose proof (len_nonneg w); lia). f_equal.
    replace (len u + (len ml + len w) - len w) with (len u + len ml) by lia. apply sub_mid. }
  rewrite (Hsl a ma Ea), (Hsl b mb Eb). cbn [bind].
  destruct (split_middle_spec (myersRec fuel) ma mb Hends) with (out := out ++ replicate (Z.to_nat (len u)) opEq) as (o & -> & T & L).
  { intros a' b' Hl. apply IH. rewrite Ea, Eb, !length_app in Hf. lia. }
  cbn [bind]. unfold len. rewrite !Nat2Z.id. eexists. split; [by rewrite <- !app_assoc|].
  destruct (transforms_same u) as [Tu Lu], (transforms_same w) as [Tw Lw].
  rewrite !edits_app, Lu, Lw. rewrite Ea, Eb. split.
  - apply transforms_app; [done|]. by apply transforms_app.
  - pose proof (lev_strip u ma mb w). lia.
Qed.

(** [C1] The script of [myersOps] transforms [a] into [b], and no script does it
    with fewer insertions and deletions: on every input the engine returns,
    without a panic, with the minimal edit script its comment promises, whose
    size is that of the textbook recursion. *)
Theorem myersOps_minimal a b :
  exists ops, myersOps a b = Ret ops /\ transforms a b ops = true /\ edits ops = lev a b /\
    forall ops', transforms a b ops' = true -> edits ops <= edits ops'.
Proof.
  destruct (myersRec_spec (S (length a + length b)) a b ltac:(lia) []) as (ops & E & T & L).
  exists ops. split; [exact E|]. split; [done|]. pose proof (lev_least _ _ _ (transforms_edit _ _ _ T)).
  split; [lia|]. intros ops' T'. pose proof (lev_least _ _ _ (transforms_edit _ _ _ T')). lia.
Qed.

End MyersCorrect.
