(* ===== verification/Diff.v ===== *)
(** * diff: comparison of two files (src/cmds/diff/diff.go)

    From the bytes of two files to the output and the exit status: lines and
    their interned comparison keys, change groups from the edit script of
    [DiffMyers], and the five output formats. The text of a modification time
    is a parameter ([time.Format]). Directory comparison, which only walks
    the file system and calls this, is not here. *)

From Stdlib Require Import ZArith Lia.
From stdpp Require Import base tactics list numbers gmap strings.
From S2P Require Import Prelude DiffMyers.

Module Diff.
Import Myers.

Record options := mkOptions {
  unified : bool;
  contextStyle : bool;
  edStyle : bool;
  forwardEdStyle : bool;
  context : Z;
  brief : bool;
  ignoreCase : bool;
  ignoreAllSpace : bool;
  ignoreSpaceChange : bool;
  optTokens : list (list Z)
}.

Record side := mkSide {
  name : list Z;
  data : list Z;
  lines : list (list Z);
  keys : list Z;
  noEOL : bool;
  mtime : Z
}.

(** ** Comparison keys *)

Definition isSpaceByte (c : Z) : bool :=
  (c =? ch! " ") || (c =? 9) || (c =? 11) || (c =? 12) || (c =? 13).

(** -w *)
Fixpoint remove_space (line : list Z) : list Z :=
  match line with
  | [] => []
  | c :: rest => if isSpaceByte c then remove_space rest else c :: remove_space rest
  end.

(** -b, inside a run of spaces or not *)
Fixpoint collapse_space (line : list Z) (run : bool) : list Z :=
  match line with
  | [] => []
  | c :: rest =>
      if isSpaceByte c then collapse_space rest true
      else (if run then [ch! " "] else []) ++ c :: collapse_space rest false
  end.

Definition lower (c : Z) : Z := if (ch! "A" <=? c) && (c <=? ch! "Z") then c + 32 else c.

Definition canon (line : list Z) (opts : options) : list Z :=
  let line :=
    if ignoreAllSpace opts then remove_space line
    else if ignoreSpaceChange opts then collapse_space line false
    else line in
  if ignoreCase opts then lower <$> line else line.

(** [intern[k]], with a new number for a new key. *)
Definition intern_key (k : list Z) (intern : gmap (list Z) Z) : Z * gmap (list Z) Z :=
  match intern !! k with
  | Some id => (id, intern)
  | None => let id := Z.of_nat (size intern) in (id, <[k := id]> intern)
  end.

(** The key of a line; a missing final newline is part of the last one. *)
Definition line_key (opts : options) (noEOL : bool) (ln : list Z) (is_last : bool) : list Z :=
  canon ln opts ++
  (if noEOL && is_last && negb (ignoreAllSpace opts) && negb (ignoreSpaceChange opts) then [0] else []).

Fixpoint intern_lines (opts : options) (noEOL : bool) (ls : list (list Z)) (intern : gmap (list Z) Z) :
    list Z * gmap (list Z) Z :=
  match ls with
  | [] => ([], intern)
  | ln :: rest =>
      let is_last := match rest with [] => true | _ => false end in
      let '(id, intern) := intern_key (line_key opts noEOL ln is_last) intern in
      let '(ids, intern) := intern_lines opts noEOL rest intern in
      (id :: ids, intern)
  end.

Definition prep (s : side) (opts : options) (intern : gmap (list Z) Z) : side * gmap (list Z) Z :=
  match data s with
  | [] => (s, intern)
  | d =>
      let noEOL' := if has_suffix_byte 10 d then noEOL s else true in
      let ls := split_byte 10 (if has_suffix_byte 10 d then removelast d else d) in
      let '(ks, intern) := intern_lines opts noEOL' ls intern in
      (mkSide (name s) (data s) ls ks noEOL' (mtime s), intern)
  end.

Definition isBinary (data : list Z) : bool := existsb (fun c => c =? 0) data.

(** ** Change groups *)

Record group := Group { a0 : Z; a1 : Z; b0 : Z; b1 : Z }.

(** [changed[i] = b] *)
Definition set_changed (l : list bool) (i : Z) (b : bool) : outcome (list bool) :=
  if (0 <=? i) && (i <? len l) then Ret (<[Z.to_nat i := b]> l) else Panic.

(** The lines the script deletes from the old file and inserts in the new. *)
Fixpoint mark_changes (ops : list opKind) (ca cb : list bool) (ai bi : Z) : outcome (list bool * list bool) :=
  match ops with
  | [] => Ret (ca, cb)
  | opEq :: ops' => mark_changes ops' ca cb (ai + 1) (bi + 1)
  | opDel :: ops' => let! ca := set_changed ca ai true in mark_changes ops' ca cb (ai + 1) bi
  | opIns :: ops' => let! cb := set_changed cb bi true in mark_changes ops' ca cb ai (bi + 1)
  end.

(** [for i < n && changed[i] { i++ }] *)
Fixpoint run_length (l : list bool) : Z :=
  match l with
  | true :: l' => 1 + run_length l'
  | _ => 0
  end.

Definition end_of_run (changed : list bool) (i : Z) : Z := i + run_length (drop (Z.to_nat i) changed).

(** The loop that slides the run [start, i) down. *)
Fixpoint slide_run (fuel : nat) (changed : list bool) (keys : list Z) (start i : Z) : outcome (list bool * Z) :=
  if i <? len keys then
    let! c := index changed i in
    let! ks := index keys start in
    let! ki := index keys i in
    if negb c && (ks =? ki) then
      match fuel with
      | O => OutOfFuel
      | S f =>
          let! changed := set_changed changed start false in
          let! changed := set_changed changed i true in
          slide_run f changed keys (start + 1) (end_of_run changed (i + 1))
      end
    else Ret (changed, i)
  else Ret (changed, i).

Fixpoint slide_from (fuel : nat) (changed : list bool) (keys : list Z) (i : Z) : outcome (list bool) :=
  if i <? len keys then
    match fuel with
    | O => OutOfFuel
    | S f =>
        let! c := index changed i in
        if negb c then slide_from f changed keys (i + 1)
        else
          let! (changed, i) := slide_run (length keys) changed keys i (end_of_run changed i) in
          slide_from f changed keys i
    end
  else Ret changed.

Definition slideDown (changed : list bool) (keys : list Z) : outcome (list bool) :=
  slide_from (length keys) changed keys 0.

(** The groups of the two maps from lines [i] and [j] on; the lists are the
    rests of the maps. *)
Fixpoint pair_groups (fuel : nat) (ca cb : list bool) (i j : Z) : outcome (list group) :=
  match ca, cb with
  | [], [] => Ret []
  | _, _ =>
      match fuel with
      | O => OutOfFuel
      | S f =>
          let da := run_length ca in
          let db := run_length cb in
          if (0 <? da) || (0 <? db) then
            let! gs := pair_groups f (drop (Z.to_nat da) ca) (drop (Z.to_nat db) cb) (i + da) (j + db) in
            Ret (Group i (i + da) j (j + db) :: gs)
          else pair_groups f (tail ca) (tail cb) (i + 1) (j + 1)
      end
  end.

Definition diffGroups (ka kb : list Z) : outcome (list group) :=
  let! ops := myersOps ka kb in
  let! (ca, cb) := mark_changes ops (replicate (length ka) false) (replicate (length kb) false) 0 0 in
  let! ca := slideDown ca ka in
  let! cb := slideDown cb kb in
  pair_groups (length ka + length kb) ca cb 0 0.

(** ** Output formats *)

Definition noNewline : list Z := str! "\ No newline at end of file".

Definition nl : list Z := [10].

Definition normalRange (start0 count : Z) : list Z :=
  if count =? 1 then itoa (start0 + 1)
  else itoa (start0 + 1) ++ str! "," ++ itoa (start0 + count).

Definition forwardEdRange (start0 count : Z) : list Z :=
  if count =? 1 then itoa (start0 + 1)
  else itoa (start0 + 1) ++ str! " " ++ itoa (start0 + count).

Definition unifiedRange (start0 count : Z) : list Z :=
  if count =? 1 then itoa (start0 + 1)
  else if count =? 0 then itoa start0 ++ str! ",0"
  else itoa (start0 + 1) ++ str! "," ++ itoa count.

Definition contextRange (start0 count : Z) : list Z :=
  if count <=? 1 then itoa (start0 + count)
  else itoa (start0 + 1) ++ str! "," ++ itoa (start0 + count).

(** A line of a file with its mark, and the marker of a missing newline. *)
Definition side_line (s : side) (mark : list Z) (i : Z) : outcome (list Z) :=
  let! ln := index (lines s) i in
  Ret (mark ++ ln ++ nl ++ (if noEOL s && (i =? len (lines s) - 1) then noNewline ++ nl else [])).

(** [count] lines from line [i] on. *)
Fixpoint side_lines (count : nat) (s : side) (mark : list Z) (i : Z) : outcome (list Z) :=
  match count with
  | O => Ret []
  | S c =>
      let! l := side_line s mark i in
      let! ls := side_lines c s mark (i + 1) in
      Ret (l ++ ls)
  end.

(** The lines [for ; i < stop; i++]. *)
Definition lines_to (s : side) (mark : list Z) (i stop : Z) : outcome (list Z) :=
  side_lines (Z.to_nat (stop - i)) s mark i.

Fixpoint emitEdBlock (ls : list (list Z)) : list Z :=
  match ls with
  | [] => str! "." ++ nl
  | line :: rest =>
      if negb (str_eqb line (str! ".")) then line ++ nl ++ emitEdBlock rest
      else
        str! ".." ++ nl ++ str! "." ++ nl ++ str! "s/.//" ++ nl ++
        match rest with
        | [] => []
        | _ => str! "a" ++ nl ++ emitEdBlock rest
        end
  end.

Definition emitEdGroup (sb : side) (g : group) : outcome (list Z) :=
  let da := a1 g - a0 g in
  let db := b1 g - b0 g in
  if (0 <? da) && (0 <? db) then
    let! ls := slice (lines sb) (b0 g) (b1 g) in
    Ret (normalRange (a0 g) da ++ str! "c" ++ nl ++ emitEdBlock ls)
  else if 0 <? da then Ret (normalRange (a0 g) da ++ str! "d" ++ nl)
  else
    let! ls := slice (lines sb) (b0 g) (b1 g) in
    Ret (itoa (a0 g) ++ str! "a" ++ nl ++ emitEdBlock ls).

(** The groups from the last to the first. *)
Fixpoint emitEd (sb : side) (gs : list group) : outcome (list Z) :=
  match gs with
  | [] => Ret []
  | g :: gs' =>
      let! later := emitEd sb gs' in
      let! t := emitEdGroup sb g in
      Ret (later ++ t)
  end.

Definition emitForwardEdBlock (ls : list (list Z)) : list Z :=
  concat ((fun l => l ++ nl) <$> ls) ++ str! "." ++ nl.

Definition emitForwardEdGroup (sb : side) (g : group) : outcome (list Z) :=
  let da := a1 g - a0 g in
  let db := b1 g - b0 g in
  if (0 <? da) && (0 <? db) then
    let! ls := slice (lines sb) (b0 g) (b1 g) in
    Ret (str! "c" ++ forwardEdRange (a0 g) da ++ nl ++ emitForwardEdBlock ls)
  else if 0 <? da then Ret (str! "d" ++ forwardEdRange (a0 g) da ++ nl)
  else
    let! ls := slice (lines sb) (b0 g) (b1 g) in
    Ret (str! "a" ++ itoa (a0 g) ++ nl ++ emitForwardEdBlock ls).

Fixpoint emitForwardEd (sb : side) (gs : list group) : outcome (list Z) :=
  match gs with
  | [] => Ret []
  | g :: gs' =>
      let! t := emitForwardEdGroup sb g in
      let! later := emitForwardEd sb gs' in
      Ret (t ++ later)
  end.

Definition emitNormalGroup (sa sb : side) (g : group) : outcome (list Z) :=
  let da := a1 g - a0 g in
  let db := b1 g - b0 g in
  let head :=
    if (0 <? da) && (0 <? db) then normalRange (a0 g) da ++ str! "c" ++ normalRange (b0 g) db
    else if 0 <? da then normalRange (a0 g) da ++ str! "d" ++ itoa (b0 g)
    else itoa (a0 g) ++ str! "a" ++ normalRange (b0 g) db in
  let! old := lines_to sa (str! "< ") (a0 g) (a1 g) in
  let! new := lines_to sb (str! "> ") (b0 g) (b1 g) in
  Ret (head ++ nl ++ old ++ (if (0 <? da) && (0 <? db) then str! "---" ++ nl else []) ++ new).

Fixpoint emitNormal (sa sb : side) (gs : list group) : outcome (list Z) :=
  match gs with
  | [] => Ret []
  | g :: gs' =>
      let! t := emitNormalGroup sa sb g in
      let! later := emitNormal sa sb gs' in
      Ret (t ++ later)
  end.

(** The groups that share a hunk with the group [g] before them, and the
    others. *)
Fixpoint hunk_groups (ctx : Z) (g : group) (gs : list group) : list group * list group :=
  match gs with
  | g' :: gs' =>
      if a0 g' - a1 g <=? 2 * ctx then
        let '(h, rest) := hunk_groups ctx g' gs' in (g' :: h, rest)
      else ([], gs)
  | [] => ([], [])
  end.

(** The range of a hunk with first group [g] and last group [l]: lines
    [hs, he) of the old file, [hbs, hbe) of the new. *)
Definition hunk_range (ctx : Z) (sa : side) (g l : group) : Z * Z * Z * Z :=
  let hs := if a0 g - ctx <? 0 then 0 else a0 g - ctx in
  let he := if len (lines sa) <? a1 l + ctx then len (lines sa) else a1 l + ctx in
  (hs, he, b0 g - (a0 g - hs), b1 l + (he - a1 l)).

(** The lines of a unified hunk from [ai] and [bi] on. *)
Fixpoint unified_groups (sa sb : side) (gs : list group) (ai bi he : Z) : outcome (list Z) :=
  match gs with
  | [] => lines_to sa (str! " ") ai he
  | g :: gs' =>
      let! ctx := lines_to sa (str! " ") ai (a0 g) in
      let bi := bi + Z.max 0 (a0 g - ai) in
      let ai := Z.max ai (a0 g) in
      let! del := lines_to sa (str! "-") ai (a1 g) in
      let ai := Z.max ai (a1 g) in
      let! ins := lines_to sb (str! "+") bi (b1 g) in
      let bi := Z.max bi (b1 g) in
      let! rest := unified_groups sa sb gs' ai bi he in
      Ret (ctx ++ del ++ ins ++ rest)
  end.

Definition unified_hunk (sa sb : side) (ctx : Z) (g : group) (gs : list group) : outcome (list Z) :=
  let '(hs, he, hbs, hbe) := hunk_range ctx sa g (List.last gs g) in
  let! body := unified_groups sa sb (g :: gs) hs hbs he in
  Ret (str! "@@ -" ++ unifiedRange hs (he - hs) ++ str! " +" ++ unifiedRange hbs (hbe - hbs) ++ str! " @@" ++ nl ++ body).

(** A hunk per round; there are at most as many as groups. *)
Fixpoint unified_hunks (fuel : nat) (sa sb : side) (ctx : Z) (gs : list group) : outcome (list Z) :=
  match gs with
  | [] => Ret []
  | g :: gs' =>
      match fuel with
      | O => OutOfFuel
      | S f =>
          let '(h, rest) := hunk_groups ctx g gs' in
          let! t := unified_hunk sa sb ctx g h in
          let! later := unified_hunks f sa sb ctx rest in
          Ret (t ++ later)
      end
  end.

(** The old half of a context hunk from line [ai] on, and the new half. *)
Fixpoint context_old (sa : side) (gs : list group) (ai he : Z) : outcome (list Z) :=
  match gs with
  | [] => lines_to sa (str! "  ") ai he
  | g :: gs' =>
      let! ctx := lines_to sa (str! "  ") ai (a0 g) in
      let ai := Z.max ai (a0 g) in
      let! del := lines_to sa (if b0 g <? b1 g then str! "! " else str! "- ") ai (a1 g) in
      let! rest := context_old sa gs' (Z.max ai (a1 g)) he in
      Ret (ctx ++ del ++ rest)
  end.

Fixpoint context_new (sb : side) (gs : list group) (bi hbe : Z) : outcome (list Z) :=
  match gs with
  | [] => lines_to sb (str! "  ") bi hbe
  | g :: gs' =>
      let! ctx := lines_to sb (str! "  ") bi (b0 g) in
      let bi := Z.max bi (b0 g) in
      let! ins := lines_to sb (if a0 g <? a1 g then str! "! " else str! "+ ") bi (b1 g) in
      let! rest := context_new sb gs' (Z.max bi (b1 g)) hbe in
      Ret (ctx ++ ins ++ rest)
  end.

Definition context_hunk (sa sb : side) (ctx : Z) (g : group) (gs : list group) : outcome (list Z) :=
  let '(hs, he, hbs, hbe) := hunk_range ctx sa g (List.last gs g) in
  let hasDel := existsb (fun g => a0 g <? a1 g) (g :: gs) in
  let hasIns := existsb (fun g => b0 g <? b1 g) (g :: gs) in
  let! old := if hasDel then context_old sa (g :: gs) hs he else Ret [] in
  let! new := if hasIns then context_new sb (g :: gs) hbs hbe else Ret [] in
  Ret (str! "***************" ++ nl ++ str! "*** " ++ contextRange hs (he - hs) ++ str! " ****" ++ nl ++ old ++
       str! "--- " ++ contextRange hbs (hbe - hbs) ++ str! " ----" ++ nl ++ new).

Fixpoint context_hunks (fuel : nat) (sa sb : side) (ctx : Z) (gs : list group) : outcome (list Z) :=
  match gs with
  | [] => Ret []
  | g :: gs' =>
      match fuel with
      | O => OutOfFuel
      | S f =>
          let '(h, rest) := hunk_groups ctx g gs' in
          let! t := context_hunk sa sb ctx g h in
          let! later := context_hunks f sa sb ctx rest in
          Ret (t ++ later)
      end
  end.

Section Output.
(** [mtime.In(loc).Format(layout)] for the two layouts. *)
Context (stamp contextStamp : Z -> list Z).

Definition emitUnified (opts : options) (sa sb : side) (gs : list group) : outcome (list Z) :=
  let! hunks := unified_hunks (length gs) sa sb (context opts) gs in
  Ret (str! "--- " ++ name sa ++ [9] ++ stamp (mtime sa) ++ nl ++
       str! "+++ " ++ name sb ++ [9] ++ stamp (mtime sb) ++ nl ++ hunks).

Definition emitContext (opts : options) (sa sb : side) (gs : list group) : outcome (list Z) :=
  let! hunks := context_hunks (length gs) sa sb (context opts) gs in
  Ret (str! "*** " ++ name sa ++ [9] ++ contextStamp (mtime sa) ++ nl ++
       str! "--- " ++ name sb ++ [9] ++ contextStamp (mtime sb) ++ nl ++ hunks).

Definition printPairHeader (opts : options) (a b : list Z) : list Z :=
  join (str! " ") ((str! "diff") :: optTokens opts ++ [a; b]) ++ nl.

Definition emit (opts : options) (sa sb : side) (gs : list group) : outcome (list Z) :=
  if edStyle opts then emitEd sb gs
  else if forwardEdStyle opts then emitForwardEd sb gs
  else if unified opts then emitUnified opts sa sb gs
  else if contextStyle opts then emitContext opts sa sb gs
  else emitNormal sa sb gs.

Record result := Result { out : list Z; err : list Z; status : Z }.

Definition no_newline_error (a : list Z) : list Z :=
  str! "diff: " ++ a ++ str! ": No newline at end of file" ++ nl ++ nl.

(** [compareFiles] on two loaded sides. *)
Definition compareSides (opts : options) (sa sb : side) (withHeader : bool) : outcome result :=
  let a := name sa in
  let b := name sb in
  let header := if withHeader then printPairHeader opts a b else [] in
  let differ := str! "Files " ++ a ++ str! " and " ++ b ++ str! " differ" ++ nl in
  if str_eqb (data sa) (data sb) then Ret (Result [] [] 0)
  else if isBinary (data sa) || isBinary (data sb) then
    if brief opts then Ret (Result differ [] 1)
    else Ret (Result (header ++ str! "Binary files " ++ a ++ str! " and " ++ b ++ str! " differ" ++ nl) [] 1)
  else
    let '(sa, intern) := prep sa opts ∅ in
    let '(sb, _) := prep sb opts intern in
    let! gs := diffGroups (keys sa) (keys sb) in
    match gs with
    | [] => Ret (Result [] [] 0)
    | _ =>
        if brief opts then Ret (Result differ [] 1)
        else
          let! t := emit opts sa sb gs in
          let trouble := (edStyle opts || forwardEdStyle opts) && (noEOL sa || noEOL sb) in
          let errs :=
            if edStyle opts || forwardEdStyle opts then
              (if noEOL sa then no_newline_error a else []) ++ (if noEOL sb then no_newline_error b else [])
            else [] in
          Ret (Result (header ++ t) errs (if trouble then 2 else 1))
    end.

End Output.

End Diff.
