(* ===== verification/DiffCorrect.v ===== *)
(** * diff: change groups (src/cmds/diff/diff.go)

    The change groups of [diffGroups] describe a minimal edit: outside of them
    the two files agree line by line, they are separated by common lines, and
    their lines are as many as the edits of the Myers script, whatever runs
    [slideDown] has moved. *)

From Stdlib Require Import ZArith Lia.
From stdpp Require Import base tactics list numbers gmap strings.
From S2P Require Import Prelude DiffMyers DiffMyersCorrect Diff.

Module DiffCorrect.
Import Myers MyersCorrect Diff.

(** ** Maps of changed lines *)

(** The lines a map leaves. *)
Fixpoint kept {A} (c : list bool) (l : list A) : list A :=
  match c, l with
  | true :: c', _ :: l' => kept c' l'
  | false :: c', x :: l' => x :: kept c' l'
  | _, _ => []
  end.

Fixpoint changed_lines (c : list bool) : Z :=
  match c with
  | [] => 0
  | b :: c' => b2z b + changed_lines c'
  end.

Lemma kept_app {A} c c' (l l' : list A) :
  length c = length l -> kept (c ++ c') (l ++ l') = kept c l ++ kept c' l'.
Proof.
  revert l. induction c as [|b c IH]; intros [|x l] H; try done. cbn in H. cbn.
  destruct b; cbn; by rewrite IH by lia.
Qed.

Lemma changed_lines_app c c' : changed_lines (c ++ c') = changed_lines c + changed_lines c'.
Proof. induction c as [|b c IH]; cbn [changed_lines app]; lia. Qed.

Lemma changed_lines_run n : changed_lines (replicate n true) = Z.of_nat n.
Proof. induction n as [|n IH]; cbn [changed_lines replicate b2z]; lia. Qed.

Lemma kept_run {A} n (l : list A) : kept (replicate n true) l = [].
Proof. revert l. induction n as [|n IH]; intros [|x l]; cbn; auto. Qed.

Fixpoint del_map (ops : list opKind) : list bool :=
  match ops with
  | [] => []
  | opEq :: ops' => false :: del_map ops'
  | opDel :: ops' => true :: del_map ops'
  | opIns :: ops' => del_map ops'
  end.

Fixpoint ins_map (ops : list opKind) : list bool :=
  match ops with
  | [] => []
  | opEq :: ops' => false :: ins_map ops'
  | opDel :: ops' => ins_map ops'
  | opIns :: ops' => true :: ins_map ops'
  end.

Lemma set_changed_at l b b' r : set_changed (l ++ b :: r) (len l) b' = Ret (l ++ b' :: r).
Proof.
  unfold set_changed. pose proof (len_nonneg l). pose proof (len_nonneg r). rewrite len_app, len_cons.
  rewrite (proj2 (Z.leb_le _ _)), (proj2 (Z.ltb_lt _ _)) by lia. cbn [andb]. f_equal. unfold len.
  rewrite Nat2Z.id. by rewrite insert_app_r_alt, Nat.sub_diag by lia.
Qed.

Lemma mark_changes_spec ops pa pb :
  mark_changes ops (pa ++ replicate (length (del_map ops)) false) (pb ++ replicate (length (ins_map ops)) false)
    (len pa) (len pb) = Ret (pa ++ del_map ops, pb ++ ins_map ops).
Proof.
  revert pa pb. induction ops as [|o ops IH]; intros pa pb; [done|].
  assert (forall (p : list bool) b l, p ++ b :: l = (p ++ [b]) ++ l) as Ec by (intros; by rewrite <- app_assoc).
  assert (forall (p : list bool) b, len p + 1 = len (p ++ [b])) as El by (intros; by rewrite len_app).
  destruct o; cbn [del_map ins_map length replicate mark_changes].
  - rewrite (Ec pa), (Ec pb), (El pa false), (El pb false), IH. by rewrite <- !app_assoc.
  - rewrite set_changed_at. cbn [bind]. rewrite (Ec pa), (El pa true), IH. by rewrite <- app_assoc.
  - rewrite set_changed_at. cbn [bind]. rewrite (Ec pb), (El pb true), IH. by rewrite <- app_assoc.
Qed.

Lemma maps_spec a b ops :
  transforms a b ops = true ->
  length (del_map ops) = length a /\ length (ins_map ops) = length b /\
  kept (del_map ops) a = kept (ins_map ops) b /\
  changed_lines (del_map ops) + changed_lines (ins_map ops) = edits ops.
Proof.
  revert a b. induction ops as [|o ops IH]; intros a b H; [by destruct a, b|].
  destruct o.
  - destruct a as [|x a], b as [|y b]; try done. cbn in H. to_prop. subst.
    destruct (IH a b) as (? & ? & ? & ?); [done|]. cbn. split_and!; [lia|lia|by f_equal|lia].
  - destruct a as [|x a]; [by destruct b|]. rewrite transforms_opDel in H.
    destruct (IH a b H) as (? & ? & ? & ?). cbn [del_map ins_map length kept changed_lines edits b2z].
    split_and!; [lia|lia|done|lia].
  - destruct b as [|y b]; [by destruct a|]. rewrite transforms_opIns in H.
    destruct (IH a b H) as (? & ? & ? & ?). cbn [del_map ins_map length kept changed_lines edits b2z].
    split_and!; [lia|lia|done|lia].
Qed.

(** ** Sliding *)

Lemma run_length_split l : exists r, l = replicate (Z.to_nat (run_length l)) true ++ r /\ 0 <= run_length l /\ head r <> Some true.
Proof.
  induction l as [|[|] l (r & E & Hn & Hh)]; cbn [run_length].
  - by exists [].
  - exists r. rewrite E at 1. replace (Z.to_nat (1 + run_length l)) with (S (Z.to_nat (run_length l))) by lia.
    split_and!; [done|lia|done].
  - by exists (false :: l).
Qed.

Lemma end_of_run_app l r :
  exists n r', r = replicate n true ++ r' /\ end_of_run (l ++ r) (len l) = len l + Z.of_nat n /\ head r' <> Some true.
Proof.
  unfold end_of_run, len. rewrite Nat2Z.id, drop_app_length. destruct (run_length_split r) as (r' & E & ? & ?).
  exists (Z.to_nat (run_length r)), r'. split_and!; [done|lia|done].
Qed.

(** The state of a sliding run: the map before it, the run, the map after. *)
Record sliding (keys : list Z) (c c' : list bool) : Prop := Sliding {
  sl_len : length c' = length c;
  sl_kept : kept c' keys = kept c keys;
  sl_count : changed_lines c' = changed_lines c
}.

Lemma sliding_refl keys c : sliding keys c c.
Proof. done. Qed.

Lemma sliding_trans keys c1 c2 c3 : sliding keys c1 c2 -> sliding keys c2 c3 -> sliding keys c1 c3.
Proof. intros [] []. split; congruence. Qed.

(** One step down: a run whose first line is also the line after it. *)
Lemma sliding_step keys p r q u w kr kq x :
  keys = u ++ x :: kr ++ x :: kq -> length p = length u -> length kr = r -> w = p ++ replicate (S r) true ++ false :: q ->
  sliding keys w (p ++ false :: replicate r true ++ true :: q).
Proof.
  intros -> Hp Hr ->. split.
  - rewrite !length_app. cbn. rewrite !length_app. cbn. by rewrite !length_replicate.
  - rewrite !(kept_app p) by done. f_equal. cbn [replicate app kept].
    rewrite (kept_app (replicate r true) _ kr) by (by rewrite length_replicate).
    rewrite (kept_app (replicate r true) _ kr) by (by rewrite length_replicate).
    by rewrite kept_run.
  - rewrite !changed_lines_app. cbn [changed_lines replicate app b2z]. rewrite !changed_lines_app.
    cbn [changed_lines b2z]. lia.
Qed.

Lemma index_app_r' {A} (l k : list A) x i : i = len l -> index (l ++ x :: k) i = Ret x.
Proof. intros ->. apply index_app_r. Qed.

Lemma set_changed_at' l b b' r i : i = len l -> set_changed (l ++ b :: r) i b' = Ret (l ++ b' :: r).
Proof. intros ->. apply set_changed_at. Qed.

Lemma split_at {A} (l : list A) n : (n <= length l)%nat -> exists u w, l = u ++ w /\ length u = n.
Proof. intros. exists (take n l), (drop n l). by rewrite take_drop, length_take, Nat.min_l. Qed.

Lemma slide_run_end fuel keys p r :
  length (p ++ replicate (S r) true) = length keys ->
  slide_run fuel (p ++ replicate (S r) true) keys (len p) (len p + Z.of_nat (S r)) =
  Ret (p ++ replicate (S r) true, len p + Z.of_nat (S r)).
Proof.
  intros Hl. rewrite length_app, length_replicate in Hl.
  destruct fuel; cbn [slide_run]; by rewrite (proj2 (Z.ltb_ge _ _)) by (unfold len; lia).
Qed.

(** One test of the sliding loop. *)
Lemma slide_run_test fuel p r q u x kr y kq :
  length p = length u -> length kr = r ->
  slide_run fuel (p ++ replicate (S r) true ++ false :: q) (u ++ x :: kr ++ y :: kq) (len p) (len p + Z.of_nat (S r)) =
  if x =? y then
    match fuel with
    | O => OutOfFuel
    | S f =>
        let c := p ++ false :: replicate r true ++ true :: q in
        slide_run f c (u ++ x :: kr ++ y :: kq) (len p + 1) (end_of_run c (len p + Z.of_nat (S r) + 1))
    end
  else Ret (p ++ replicate (S r) true ++ false :: q, len p + Z.of_nat (S r)).
Proof.
  intros Hp Hr.
  assert ((len p + Z.of_nat (S r) <? len (u ++ x :: kr ++ y :: kq)) = true) as Hlt.
  { apply Z.ltb_lt. rewrite len_app, len_cons, len_app, len_cons. pose proof (len_nonneg kq). unfold len in *. lia. }
  assert (index (p ++ replicate (S r) true ++ false :: q) (len p + Z.of_nat (S r)) = Ret false) as Hc.
  { rewrite app_assoc. apply index_app_r'. by rewrite len_app, len_replicate. }
  assert (index (u ++ x :: kr ++ y :: kq) (len p) = Ret x) as Hx by (apply index_app_r'; unfold len; lia).
  assert (index (u ++ x :: kr ++ y :: kq) (len p + Z.of_nat (S r)) = Ret y) as Hy.
  { rewrite app_comm_cons, app_assoc. apply index_app_r'. rewrite len_app, len_cons. unfold len. lia. }
  assert (set_changed (p ++ replicate (S r) true ++ false :: q) (len p) false =
    Ret (p ++ false :: replicate r true ++ false :: q)) as H1 by apply set_changed_at.
  assert (set_changed (p ++ false :: replicate r true ++ false :: q) (len p + Z.of_nat (S r)) true =
    Ret (p ++ false :: replicate r true ++ true :: q)) as H2.
  { rewrite !app_comm_cons, !app_assoc. apply set_changed_at'. rewrite len_app, len_cons, len_replicate. lia. }
  destruct fuel; cbn [slide_run]; rewrite Hlt, Hc, Hx, Hy; cbn [bind negb andb]; [done|].
  rewrite H1. cbn [bind]. rewrite H2. done.
Qed.

(** A run after [p] slides to a place where the line after it, if any, is
    unchanged and differs from its first line; the lines it leaves are
    unchanged. *)
Lemma slide_run_spec fuel keys p r q :
  (length q <= fuel)%nat -> length (p ++ replicate (S r) true ++ q) = length keys -> head q <> Some true ->
  exists t r' q',
    slide_run fuel (p ++ replicate (S r) true ++ q) keys (len p) (len p + Z.of_nat (S r)) =
      Ret ((p ++ replicate t false) ++ replicate (S r') true ++ q', len (p ++ replicate t false) + Z.of_nat (S r')) /\
    sliding keys (p ++ replicate (S r) true ++ q) ((p ++ replicate t false) ++ replicate (S r') true ++ q') /\
    head q' <> Some true /\
    (q' <> [] -> keys !! (length p + t)%nat <> keys !! (length p + t + S r')%nat).
Proof.
  revert p r q. induction fuel as [|fuel IH]; intros p r q Hf Hl Hh;
    (destruct q as [|b q];
     [exists 0%nat, r, []; rewrite !app_nil_r in *; rewrite slide_run_end by done;
      split_and!; [done|apply sliding_refl|done|done]|]); [cbn in Hf; lia|].
  destruct b; [done|]. rewrite !length_app, length_replicate in Hl. cbn in Hl.
  destruct (split_at keys (length p)) as (u & w & -> & Hu); [lia|]. rewrite length_app in Hl.
  destruct (split_at w (S r)) as (kr & w' & -> & Hr); [lia|]. rewrite length_app in Hl.
  destruct kr as [|x kr]; [done|]. destruct w' as [|y kq]; [cbn in *; lia|].
  change (u ++ (x :: kr) ++ y :: kq) with (u ++ x :: kr ++ y :: kq).
  rewrite slide_run_test by (cbn in Hr; lia). destruct (Z.eqb_spec x y) as [<-|Hne].
  - cbv zeta. set (c := p ++ false :: replicate r true ++ true :: q).
    assert (c = (p ++ [false]) ++ replicate (S r) true ++ q) as Ec.
    { unfold c. rewrite <- app_assoc. cbn [app]. by rewrite replicate_S_end, <- app_assoc. }
    assert (sliding (u ++ x :: kr ++ x :: kq) (p ++ replicate (S r) true ++ false :: q) c) as S1.
    { eapply (sliding_step _ p r q u _ kr kq x); [done|lia|cbn in Hr; lia|done]. }
    destruct (end_of_run_app ((p ++ [false]) ++ replicate (S r) true) q) as (n & q1 & Eq & Ee & Hq1).
    rewrite <- !app_assoc in Ee. rewrite app_assoc, <- Ec in Ee.
    replace (len p + Z.of_nat (S r) + 1) with (len (p ++ [false] ++ replicate (S r) true))
      by (rewrite !len_app, len_replicate; unfold len; cbn; lia).
    rewrite Ee.
    assert (c = (p ++ [false]) ++ replicate (S (r + n)) true ++ q1) as Ec'.
    { rewrite Ec, Eq. change (S (r + n)) with (S r + n)%nat. rewrite replicate_add. by rewrite <- (app_assoc (replicate (S r) true)). }
    destruct (IH (p ++ [false]) (r + n)%nat q1) as (t & r' & q' & E & S2 & Hq' & Hk); [|rewrite <- Ec'|done|].
    { apply (f_equal length) in Eq. rewrite length_app, length_replicate in Eq. cbn in Hf. lia. }
    { rewrite (sl_len _ _ _ S1), !length_app, length_replicate. cbn [length] in *. rewrite ?length_app. cbn [length] in *. lia. }
    rewrite <- Ec' in E, S2.
    assert ((p ++ [false]) ++ replicate t false = p ++ replicate (S t) false) as Et by (by rewrite <- app_assoc).
    rewrite Et in *. exists (S t), r', q'. split_and!.
    + rewrite <- E. f_equal; [rewrite len_app; done|]. rewrite !len_app, !len_replicate. unfold len. cbn. lia.
    + by apply (sliding_trans _ _ c).
    + done.
    + intros Hne. specialize (Hk Hne). rewrite length_app in Hk. cbn in Hk.
      replace (length p + S t)%nat with (length p + 1 + t)%nat by lia. done.
  - exists 0%nat, r, (false :: q). rewrite app_nil_r. split_and!; [done|apply sliding_refl|done|].
    intros _. rewrite Nat.add_0_r, <- Hu, list_lookup_middle by done.
    rewrite app_comm_cons, app_assoc, list_lookup_middle by (rewrite length_app; cbn in *; lia). congruence.
Qed.

(** Up to line [i], every run of changed lines that ends before an unchanged
    line is as low as it can be: its first line differs from that line. *)
Definition lowest (keys : list Z) (c : list bool) (i : nat) : Prop :=
  forall s e, (s < e <= i)%nat -> (forall j, (s <= j < e)%nat -> c !! j = Some true) ->
    (s = 0%nat \/ c !! (s - 1)%nat = Some false) -> c !! e = Some false -> keys !! s <> keys !! e.

Lemma lowest_skip keys p q : lowest keys (p ++ false :: q) (length p) -> lowest keys (p ++ false :: q) (S (length p)).
Proof.
  intros H s e He Hr Hs Hc. destruct (decide (e = S (length p))) as [->|]; [|apply H; auto; lia].
  specialize (Hr (length p) ltac:(lia)). by rewrite list_lookup_middle in Hr.
Qed.

Lemma lowest_slide keys p q t r q' :
  lowest keys (p ++ q) (length p) -> (p = [] \/ list.last p = Some false) ->
  (q' <> [] -> keys !! (length p + t)%nat <> keys !! (length p + t + S r)%nat) ->
  lowest keys ((p ++ replicate t false) ++ replicate (S r) true ++ q') (length p + t + S r).
Proof.
  intros H Hp Hq s e He Hr Hs Hc. set (c := (p ++ replicate t false) ++ replicate (S r) true ++ q') in *.
  assert (forall j, (j < length p)%nat -> c !! j = p !! j) as L1.
  { intros j Hj. unfold c. rewrite <- app_assoc. by rewrite lookup_app_l. }
  assert (forall j, (length p <= j < length p + t)%nat -> c !! j = Some false) as L2.
  { intros j Hj. unfold c. rewrite lookup_app_l, lookup_app_r by (rewrite ?length_app, ?length_replicate; lia).
    apply lookup_replicate_2. lia. }
  assert (forall j, (length p + t <= j < length p + t + S r)%nat -> c !! j = Some true) as L3.
  { intros j Hj. unfold c. rewrite lookup_app_r, lookup_app_l by (rewrite ?length_app, ?length_replicate; lia).
    apply lookup_replicate_2. rewrite length_app, length_replicate. lia. }
  assert (p <> [] -> c !! (length p - 1)%nat = Some false) as Lp.
  { intros Hne. destruct Hp as [?|Hp]; [done|]. rewrite last_lookup in Hp. rewrite <- Nat.sub_1_r in Hp.
    rewrite L1 by (destruct p; [done|cbn; lia]). done. }
  destruct (decide (e < length p)%nat).
  { assert (forall j, (j < length p)%nat -> (p ++ q) !! j = c !! j) as Lq by (intros; by rewrite L1, lookup_app_l).
    apply H; [lia|intros; rewrite Lq by lia; auto| |by rewrite Lq by lia].
    destruct Hs; [by left|right]. by rewrite Lq by lia. }
  destruct (decide (e = length p + t + S r)%nat) as [->|].
  - assert (q' <> []) as Hne.
    { intros ->. unfold c in Hc. rewrite app_nil_r in Hc. apply lookup_lt_Some in Hc.
      rewrite !length_app, !length_replicate in Hc. lia. }
    destruct (decide (s = length p + t)%nat) as [->|]; [by apply Hq|].
    destruct (decide (length p + t < s)%nat) as [Hlt|].
    + destruct Hs as [->|Hs]; [lia|]. by rewrite L3 in Hs by lia.
    + destruct (decide (t = 0)%nat) as [->|].
      * rewrite (Hr (length p - 1)%nat) in Lp by lia. destruct p; [cbn in *; lia|by specialize (Lp ltac:(done))].
      * specialize (Hr (length p + t - 1)%nat ltac:(lia)). by rewrite L2 in Hr by lia.
  - destruct (decide (e < length p + t)%nat); [|by rewrite L3 in Hc by lia].
    specialize (Hr (e - 1)%nat ltac:(lia)). destruct (decide (e = length p)) as [->|].
    + rewrite Lp in Hr; [done|]. destruct p; [cbn in *; lia|done].
    + by rewrite L2 in Hr by lia.
Qed.

Lemma slide_from_spec fuel keys p q :
  (length q <= fuel)%nat -> length (p ++ q) = length keys -> lowest keys (p ++ q) (length p) ->
  (head q = Some true -> p = [] \/ list.last p = Some false) ->
  exists c, slide_from fuel (p ++ q) keys (len p) = Ret c /\ sliding keys (p ++ q) c /\ lowest keys c (length c).
Proof.
  revert p q. induction fuel as [|fuel IH]; intros p q Hf Hl Hlow Hh; cbn [slide_from]; rewrite length_app in Hl;
    (destruct q as [|b q];
     [rewrite app_nil_r in *; rewrite (proj2 (Z.ltb_ge _ _)) by (unfold len; cbn in Hl; lia);
      eexists; split_and!; [done|apply sliding_refl|done]|]); [cbn in Hf; lia|].
  cbn in Hl, Hf. rewrite (proj2 (Z.ltb_lt _ _)) by (unfold len; lia). rewrite index_app_r. cbn [bind].
  destruct b; cbn [negb].
  - destruct (end_of_run_app p (true :: q)) as (n & q1 & Eq & -> & Hq1).
    destruct n as [|r]; [cbn in Eq; by subst q1|]. rewrite Eq in *.
    assert (length q = (r + length q1)%nat) as Hlq.
    { apply (f_equal length) in Eq. rewrite length_app, length_replicate in Eq. cbn in Eq. lia. }
    destruct (slide_run_spec (length keys) keys p r q1) as (t & r' & q' & -> & S1 & Hq' & Hk);
      [lia|rewrite !length_app, length_replicate; lia|done|]. cbn [bind].
    pose proof (sl_len _ _ _ S1) as Hlen. rewrite !length_app, !length_replicate in Hlen.
    rewrite (app_assoc (p ++ replicate t false)) in *. set (p' := (p ++ replicate t false) ++ replicate (S r') true) in *.
    assert (len p' = len (p ++ replicate t false) + Z.of_nat (S r')) as <- by (unfold p'; by rewrite len_app, len_replicate).
    assert (length p' = length p + t + S r')%nat as Hlp by (unfold p'; rewrite !length_app, !length_replicate; done).
    destruct (IH p' q') as (c & -> & S2 & Hlow').
    + lia.
    + rewrite length_app. lia.
    + rewrite Hlp. unfold p'. rewrite <- app_assoc. eapply lowest_slide; [exact Hlow| |exact Hk].
      by apply Hh.
    + done.
    + exists c. split_and!; [done| |done]. by eapply sliding_trans.
  - assert (p ++ false :: q = (p ++ [false]) ++ q) as E by (by rewrite <- app_assoc).
    rewrite E. replace (len p + 1) with (len (p ++ [false])) by (by rewrite len_app).
    apply IH; [lia|rewrite length_app; rewrite length_app; cbn; lia| |by rewrite last_snoc; right].
    rewrite <- E, length_app, Nat.add_1_r. by apply lowest_skip.
Qed.

Lemma slideDown_spec c keys :
  length c = length keys ->
  exists c', slideDown c keys = Ret c' /\ sliding keys c c' /\ lowest keys c' (length c').
Proof.
  intros Hl. apply (slide_from_spec (length keys) keys [] c); [lia|done| |by left].
  intros s e He. cbn in He. lia.
Qed.

(** ** Groups *)

(** The groups after lines [i] and [j]: each replaces lines of [la] by lines
    of [lb], one of the two not empty, and between them the files agree. *)
Fixpoint groups {A} (la lb : list A) (i j : Z) (gs : list group) : Prop :=
  match gs with
  | [] => 0 <= i <= len la /\ 0 <= j <= len lb /\ sub i (len la) la = sub j (len lb) lb
  | g :: gs' =>
      0 <= i <= a0 g /\ a0 g <= a1 g <= len la /\ 0 <= j <= b0 g /\ b0 g <= b1 g <= len lb /\
      (a0 g < a1 g \/ b0 g < b1 g) /\ sub i (a0 g) la = sub j (b0 g) lb /\
      groups la lb (a1 g) (b1 g) gs'
  end.

(** A common line is between two groups. *)
Fixpoint separated (gs : list group) : Prop :=
  match gs with
  | g :: gs' => match gs' with g' :: _ => a1 g < a0 g' | [] => True end /\ separated gs'
  | [] => True
  end.

Fixpoint group_lines (gs : list group) : Z :=
  match gs with
  | [] => 0
  | g :: gs' => (a1 g - a0 g) + (b1 g - b0 g) + group_lines gs'
  end.

Lemma sub_succ {A} (la : list A) i0 i x r :
  0 <= i0 <= i -> drop (Z.to_nat i) la = x :: r -> sub i0 (i + 1) la = sub i0 i la ++ [x].
Proof.
  intros Hi E. rewrite <- (sub_app la i0 i (i + 1)) by lia. f_equal. unfold sub. rewrite E.
  by replace (Z.to_nat (i + 1 - i)) with 1%nat by lia.
Qed.

Lemma len_drop {A} (l : list A) i : 0 <= i <= len l -> len (drop (Z.to_nat i) l) = len l - i.
Proof. unfold len. intros. rewrite length_drop. lia. Qed.

(** One side of a group: the run at the head of the map. *)
Lemma run_side {A} (c : list bool) (r : list A) :
  length c = length r ->
  let d := run_length c in
  0 <= d <= len r /\ length (drop (Z.to_nat d) c) = length (drop (Z.to_nat d) r) /\
  kept c r = kept (drop (Z.to_nat d) c) (drop (Z.to_nat d) r) /\
  changed_lines c = d + changed_lines (drop (Z.to_nat d) c) /\ head (drop (Z.to_nat d) c) <> Some true.
Proof.
  revert r. induction c as [|[|] c IH]; intros [|x r] Hl; cbn [run_length]; try done.
  destruct (IH r) as (? & H1 & H2 & H3 & H4); [by cbn in Hl; lia|].
  replace (Z.to_nat (1 + run_length c)) with (S (Z.to_nat (run_length c))) by lia.
  rewrite len_cons. cbn [drop kept changed_lines b2z]. split_and!; [lia..|done|done|lia|done].
Qed.

Lemma kept_nil_run c (r : list Z) : length c = length r -> kept c r = [] -> head c <> Some true -> c = [].
Proof. destruct c as [|[|] c], r as [|x r]; try done. Qed.

Lemma pair_groups_S fuel ca cb i j :
  ~ (ca = [] /\ cb = []) ->
  pair_groups (S fuel) ca cb i j =
  let da := run_length ca in
  let db := run_length cb in
  if (0 <? da) || (0 <? db) then
    let! gs := pair_groups fuel (drop (Z.to_nat da) ca) (drop (Z.to_nat db) cb) (i + da) (j + db) in
    Ret (Group i (i + da) j (j + db) :: gs)
  else pair_groups fuel (tail ca) (tail cb) (i + 1) (j + 1).
Proof. intros H. destruct ca, cb; try done. naive_solver. Qed.

Lemma pair_groups_spec {A} fuel (la lb : list A) ca cb i j i0 j0 :
  (length ca + length cb <= fuel)%nat ->
  0 <= i0 <= i -> i <= len la -> 0 <= j0 <= j -> j <= len lb ->
  length ca = length (drop (Z.to_nat i) la) -> length cb = length (drop (Z.to_nat j) lb) ->
  kept ca (drop (Z.to_nat i) la) = kept cb (drop (Z.to_nat j) lb) -> sub i0 i la = sub j0 j lb ->
  exists gs, pair_groups fuel ca cb i j = Ret gs /\ groups la lb i0 j0 gs /\
    group_lines gs = changed_lines ca + changed_lines cb /\ separated gs /\
    match gs with g :: _ => i <= a0 g /\ (head ca <> Some true -> head cb <> Some true -> i < a0 g) | [] => True end.
Proof.
  revert ca cb i j i0 j0. induction fuel as [|fuel IH]; intros ca cb i j i0 j0 Hf Hi Hi' Hj Hj' Ha Hb Hk Hs.
  all: destruct (decide (ca = [] /\ cb = [])) as [[-> ->]|Hne].
  1, 3: cbn in Ha, Hb; assert (i = len la /\ j = len lb) as [-> ->]
      by (rewrite length_drop in Ha, Hb; unfold len in *; lia);
    exists []; by destruct fuel || idtac; split_and!; (done || lia).
  { destruct ca, cb; cbn in Hf; try lia. naive_solver. }
  rewrite pair_groups_S by done. cbv zeta.
  destruct (run_side ca (drop (Z.to_nat i) la) Ha) as (Hda & Ha2 & Hka & Hca & Hha).
  destruct (run_side cb (drop (Z.to_nat j) lb) Hb) as (Hdb & Hb2 & Hkb & Hcb & Hhb).
  set (da := run_length ca) in *. set (db := run_length cb) in *. rewrite len_drop in Hda, Hdb by lia.
  rewrite !drop_drop, <- !Z2Nat.inj_add in * by lia.
  destruct ((0 <? da) || (0 <? db)) eqn:E.
  - assert (0 < da \/ 0 < db) as Hpos.
    { apply orb_true_iff in E as [E|E]; to_prop; [by left|by right]. }
    destruct (IH (drop (Z.to_nat da) ca) (drop (Z.to_nat db) cb) (i + da) (j + db) (i + da) (j + db))
      as (gs & -> & Hg & Hn & Hsep & Hhd); [|lia..|done|done|congruence|by rewrite !sub_nil|].
    { rewrite !length_drop. pose proof (len_drop la i). pose proof (len_drop lb j). unfold len in *. lia. }
    cbn [bind]. eexists. split; [done|]. cbn [groups group_lines separated a0 a1 b0 b1].
    split_and!; [lia..|done|done|lia|by destruct gs; naive_solver|done|lia|].
    intros H1 H2. unfold da, db in Hpos. destruct ca as [|[|] ca], cb as [|[|] cb]; cbn in *; (done || lia).
  - to_prop. assert (da = 0 /\ db = 0) as [Ea Eb] by lia. rewrite Ea, Eb, drop_0 in *.
    change (drop (Z.to_nat 0) cb) with cb in *. clear Hka Hkb Hca Hcb Ha2 Hb2.
    destruct (drop (Z.to_nat i) la) as [|x ra] eqn:Era, (drop (Z.to_nat j) lb) as [|y rb] eqn:Erb.
    + destruct Hne. by destruct ca, cb.
    + destruct cb as [|[|] cb]; [done|done|]. by destruct ca as [|[|] ca].
    + destruct ca as [|[|] ca]; [done|done|]. by destruct cb as [|[|] cb].
    + destruct ca as [|[|] ca], cb as [|[|] cb]; try done. cbn in Hk. injection Hk as -> Hk. cbn [tail].
      destruct (index_drop la i y ra ltac:(lia) Era) as [_ Era']. destruct (index_drop lb j y rb ltac:(lia) Erb) as [_ Erb'].
      pose proof (len_drop la i ltac:(lia)) as Hla. pose proof (len_drop lb j ltac:(lia)) as Hlb.
      rewrite Era, len_cons in Hla. rewrite Erb, len_cons in Hlb. pose proof (len_nonneg ra). pose proof (len_nonneg rb).
      destruct (IH ca cb (i + 1) (j + 1) i0 j0) as (gs & -> & Hg & Hn & Hsep & Hhd);
        [cbn in Hf; lia|lia..|rewrite Era'; cbn in Ha; lia|rewrite Erb'; cbn in Hb; lia|congruence| |].
      { rewrite (sub_succ la i0 i y ra), (sub_succ lb j0 j y rb) by (done || lia). by rewrite Hs. }
      exists gs. split_and!; [done..|]. destruct gs as [|g gs]; [done|]. lia.
Qed.

Lemma diffGroups_spec ka kb :
  exists gs, diffGroups ka kb = Ret gs /\ groups ka kb 0 0 gs /\ separated gs /\ group_lines gs = lev ka kb.
Proof.
  unfold diffGroups.
  destruct (myersRec_spec (S (length ka + length kb)) ka kb ltac:(lia) []) as (ops & E & T & L).
  unfold myersOps. rewrite E. cbn [app bind].
  destruct (maps_spec ka kb ops T) as (Hla & Hlb & Hk & Hn).
  pose proof (mark_changes_spec ops [] []) as M. cbn [app] in M. rewrite Hla, Hlb in M. change (len []) with 0 in M.
  rewrite M. cbn [bind].
  destruct (slideDown_spec (del_map ops) ka Hla) as (ca & -> & [La Ka Ca] & _). cbn [bind].
  destruct (slideDown_spec (ins_map ops) kb Hlb) as (cb & -> & [Lb Kb Cb] & _). cbn [bind].
  pose proof (len_nonneg ka). pose proof (len_nonneg kb).
  destruct (pair_groups_spec (length ka + length kb) ka kb ca cb 0 0 0 0) as (gs & Eg & Hg & Hgl & Hs & _);
    [lia..|cbn; rewrite drop_0; lia|cbn; rewrite drop_0; lia|cbn; rewrite !drop_0; congruence|by rewrite !sub_nil|].
  exists gs. split_and!; [done..|]. pose proof (lev_least _ _ _ (transforms_edit _ _ _ T)). lia.
Qed.

(** ** Comparison keys *)

(** Groups only depend on which lines are equal. *)
Lemma groups_transfer {A B} (R : A -> B -> Prop) la lb la' lb' i j gs :
  (forall x y z, R x y -> R x z -> y = z) -> Forall2 R la la' -> Forall2 R lb lb' ->
  groups la lb i j gs -> groups la' lb' i j gs.
Proof.
  intros HR Ha Hb. pose proof (Forall2_length _ _ _ Ha) as La. pose proof (Forall2_length _ _ _ Hb) as Lb.
  assert (forall i j i' j', sub i i' la = sub j j' lb -> sub i i' la' = sub j j' lb') as Hsub.
  { intros i1 j1 i2 j2 E. assert (Forall2 R (sub i1 i2 la) (sub i1 i2 la')) as H1 by (by apply Forall2_take, Forall2_drop).
    assert (Forall2 R (sub j1 j2 lb) (sub j1 j2 lb')) as H2 by (by apply Forall2_take, Forall2_drop).
    rewrite E in H1. revert H1 H2. generalize (sub j1 j2 lb), (sub i1 i2 la'), (sub j1 j2 lb'). clear -HR.
    intros l l1 l2 H1. revert l2. induction H1 as [|x y l l1 Hx _ IH]; intros l2 H2; inversion H2; subst; [done|].
    f_equal; [by eapply HR|auto]. }
  assert (len la' = len la /\ len lb' = len lb) as [Ea Eb] by (unfold len; lia).
  revert i j. induction gs as [|g gs IH]; intros i j; cbn [groups]; rewrite Ea, Eb.
  - intros (? & ? & E). split_and!; [lia..|]. auto.
  - intros (? & ? & ? & ? & ? & E & Hg). split_and!; [lia..|done|by apply Hsub|by apply IH].
Qed.

Fixpoint line_keys (opts : options) (noEOL : bool) (ls : list (list Z)) : list (list Z) :=
  match ls with
  | [] => []
  | ln :: rest =>
      line_key opts noEOL ln (match rest with [] => true | _ => false end) :: line_keys opts noEOL rest
  end.

(** Distinct keys have distinct numbers below the size of the table. *)
Definition numbered (m : gmap (list Z) Z) : Prop :=
  (forall k k' x, m !! k = Some x -> m !! k' = Some x -> k = k') /\
  forall k x, m !! k = Some x -> x < Z.of_nat (size m).

Lemma intern_key_spec k m :
  numbered m ->
  let '(id, m') := intern_key k m in numbered m' /\ m ⊆ m' /\ m' !! k = Some id.
Proof.
  intros [Hinj Hlt]. unfold intern_key. destruct (m !! k) as [id|] eqn:E; [done|].
  split_and!; [|by apply insert_subseteq|by rewrite lookup_insert_eq]. split.
  - intros k1 k2 x [[<- <-]|[? H1]]%lookup_insert_Some [[<- E2]|[? H2]]%lookup_insert_Some.
    + done.
    + apply Hlt in H2. lia.
    + apply Hlt in H1. lia.
    + by eapply Hinj.
  - intros k1 x H1. rewrite map_size_insert_None by done. destruct (decide (k1 = k)) as [->|].
    + rewrite lookup_insert_eq in H1. injection H1 as <-. lia.
    + rewrite lookup_insert_ne in H1 by done. apply Hlt in H1. lia.
Qed.

Lemma intern_lines_spec opts ne ls m :
  numbered m ->
  let '(ids, m') := intern_lines opts ne ls m in
  numbered m' /\ m ⊆ m' /\ Forall2 (fun id k => m' !! k = Some id) ids (line_keys opts ne ls).
Proof.
  revert m. induction ls as [|ln ls IH]; intros m Hm; cbn [intern_lines line_keys]; [by split_and!|].
  set (k := line_key _ _ _ _). pose proof (intern_key_spec k m Hm) as H1.
  destruct (intern_key k m) as [id m1]. destruct H1 as (Hm1 & Hs1 & Hk).
  specialize (IH m1 Hm1). destruct (intern_lines opts ne ls m1) as [ids m2]. destruct IH as (Hm2 & Hs2 & Hf).
  split_and!; [done|by etrans|]. constructor; [|done]. by eapply lookup_weaken.
Qed.

(** The lines of a file and whether the last lacks its newline. *)
Definition text_of (d : list Z) : list (list Z) * bool :=
  match d with
  | [] => ([], false)
  | _ => (split_byte 10 (if has_suffix_byte 10 d then removelast d else d), negb (has_suffix_byte 10 d))
  end.

(** A side as [loadSide] makes it. *)
Definition loaded (s : side) : Prop := lines s = [] /\ keys s = [] /\ noEOL s = false.

Definition text_keys (opts : options) (d : list Z) : list (list Z) := line_keys opts (text_of d).2 (text_of d).1.

Lemma prep_spec s opts m :
  loaded s -> numbered m ->
  let '(s', m') := prep s opts m in
  lines s' = (text_of (data s)).1 /\ noEOL s' = (text_of (data s)).2 /\ name s' = name s /\ mtime s' = mtime s /\
  numbered m' /\ m ⊆ m' /\ Forall2 (fun id k => m' !! k = Some id) (keys s') (text_keys opts (data s)).
Proof.
  intros (El & Ek & En) Hm. unfold prep, text_keys, text_of. destruct (data s) as [|c d]; [by rewrite El, Ek, En|].
  rewrite En. set (ls := split_byte _ _). set (ne := if has_suffix_byte 10 (c :: d) then false else true).
  assert (negb (has_suffix_byte 10 (c :: d)) = ne) as -> by (unfold ne; by destruct (has_suffix_byte 10 (c :: d))).
  pose proof (intern_lines_spec opts ne ls m Hm) as H. destruct (intern_lines opts ne ls m) as [ids m'].
  destruct H as (? & ? & ?). done.
Qed.

Lemma groups_nil {A} (la lb : list A) : groups la lb 0 0 [] -> la = lb.
Proof. intros (_ & _ & E). by rewrite !sub_all in E by lia. Qed.

Lemma group_lines_pos {A} (la lb : list A) i j g gs : groups la lb i j (g :: gs) -> 0 < group_lines (g :: gs).
Proof.
  revert i j g. induction gs as [|g' gs IH]; intros i j g H; cbn [groups group_lines] in *.
  - lia.
  - destruct H as (? & ? & ? & ? & ? & ? & H). specialize (IH _ _ _ H). cbn [group_lines] in IH. lia.
Qed.

(** The groups of two prepared sides are groups of their comparison keys,
    and there is none exactly when the keys are the same. *)
Lemma prepared_groups opts sa sb :
  loaded sa -> loaded sb ->
  let '(sa', m) := prep sa opts ∅ in
  let '(sb', _) := prep sb opts m in
  exists gs, diffGroups (keys sa') (keys sb') = Ret gs /\
    groups (text_keys opts (data sa)) (text_keys opts (data sb)) 0 0 gs /\ separated gs /\
    (gs = [] <-> text_keys opts (data sa) = text_keys opts (data sb)) /\
    lines sa' = (text_of (data sa)).1 /\ noEOL sa' = (text_of (data sa)).2 /\ name sa' = name sa /\ mtime sa' = mtime sa /\
    lines sb' = (text_of (data sb)).1 /\ noEOL sb' = (text_of (data sb)).2 /\ name sb' = name sb /\ mtime sb' = mtime sb.
Proof.
  intros La Lb. assert (numbered ∅) as H0 by (split; [intros k k' x H|intros k x H]; by rewrite lookup_empty in H).
  pose proof (prep_spec sa opts ∅ La H0) as Ha. destruct (prep sa opts ∅) as [sa' m].
  destruct Ha as (? & ? & ? & ? & Hm & _ & Fa).
  pose proof (prep_spec sb opts m Lb Hm) as Hb. destruct (prep sb opts m) as [sb' m'].
  destruct Hb as (? & ? & ? & ? & [Hinj _] & Hsub & Fb).
  assert (Forall2 (fun id k => m' !! k = Some id) (keys sa') (text_keys opts (data sa))) as Fa'.
  { eapply Forall2_impl; [exact Fa|]. intros id k Hk. eapply lookup_weaken; [exact Hk|done]. }
  destruct (diffGroups_spec (keys sa') (keys sb')) as (gs & E & Hg & Hs & Hn).
  assert (groups (text_keys opts (data sa)) (text_keys opts (data sb)) 0 0 gs) as Hg'.
  { eapply (groups_transfer (fun id k => m' !! k = Some id)); [|exact Fa'|exact Fb|done]. intros x y z ??. by eapply Hinj. }
  exists gs. split_and!; [done..| |done|done|done|done|done|done|done|done]. split.
  - intros ->. by apply groups_nil.
  - intros Ek. rewrite Ek in Fa'. assert (keys sa' = keys sb') as E'.
    { revert Fa' Fb. clear. generalize (keys sa'), (keys sb'), (text_keys opts (data sb)). intros l l' k H.
      revert l'. induction H as [|x y l k Hx _ IH]; intros l' H'; inversion H'; subst; [done|]. f_equal; [congruence|auto]. }
    rewrite E' in Hn. pose proof (lev_least (keys sb') (keys sb') 0 (edit_refl _)).
    destruct gs as [|g gs]; [done|]. apply group_lines_pos in Hg. lia.
Qed.

(** ** Properties *)

(** [C20] The change groups of two files describe a minimal edit: the groups are in
    order and separated by a common line, the files agree line by line
    outside of them, and the number of lines they delete and insert is the
    least possible, since sliding a run changes neither which lines are
    common nor how many. *)
Theorem diffGroups_minimal (ka kb : list Z) :
  exists gs, diffGroups ka kb = Ret gs /\ groups ka kb 0 0 gs /\ separated gs /\ group_lines gs = lev ka kb.
Proof. apply diffGroups_spec. Qed.

(** [slideDown] keeps the common lines and the number of changed lines, and
    moves every run as low as the content allows: the first line of a run
    differs from the unchanged line after it. *)
Theorem slideDown_lowest (c : list bool) (keys : list Z) :
  length c = length keys ->
  exists c', slideDown c keys = Ret c' /\ length c' = length c /\
    kept c' keys = kept c keys /\ changed_lines c' = changed_lines c /\ lowest keys c' (length c').
Proof. intros H. destruct (slideDown_spec c keys H) as (c' & ? & [] & ?). by exists c'. Qed.

Lemma slideDown_lowest_witness :
  let c := [false; true; false; false; true; false] in
  let k := [1; 2; 2; 1; 3; 4] in
  slideDown c k = Ret [false; false; true; false; true; false] /\
  exists c', slideDown c k = Ret c' /\ length c' = length c /\
    kept c' k = kept c k /\ changed_lines c' = changed_lines c /\ lowest k c' (length c').
Proof. cbv zeta. split; [reflexivity|]. apply slideDown_lowest. reflexivity. Defined.

End DiffCorrect.
