(* ===== verification/DiffOutput.v ===== *)
(** * diff: the output formats and the exit status (src/cmds/diff/diff.go)

    Every format is written without an index out of range, whatever the
    groups' hunks share as context, and the exit status says whether the two
    files have the same lines under the options. *)

From Stdlib Require Import ZArith Lia.
From stdpp Require Import base tactics list numbers gmap strings.
From S2P Require Import Prelude DiffMyers Diff DiffCorrect.

Module DiffOutput.
Import Diff DiffCorrect.

(** ** Lines with the marker of a missing newline *)

Fixpoint flagged (ne : bool) (ls : list (list Z)) : list (list Z * bool) :=
  match ls with
  | [] => []
  | l :: rest => (l, match rest with [] => ne | _ => false end) :: flagged ne rest
  end.

Definition side_flagged (s : side) : list (list Z * bool) := flagged (noEOL s) (lines s).

Definition marked_text (mark : list Z) (x : list Z * bool) : list Z :=
  mark ++ x.1 ++ nl ++ (if x.2 then noNewline ++ nl else []).

Lemma length_flagged ne ls : length (flagged ne ls) = length ls.
Proof. induction ls as [|l ls IH]; cbn; lia. Qed.

Lemma len_flagged s : len (side_flagged s) = len (lines s).
Proof. unfold len, side_flagged. by rewrite length_flagged. Qed.

Lemma flagged_texts ne ls : (flagged ne ls).*1 = ls.
Proof. induction ls as [|l ls IH]; cbn; [done|]. by rewrite IH. Qed.

Lemma flagged_lookup ne ls i l :
  ls !! i = Some l -> flagged ne ls !! i = Some (l, ne && bool_decide (i = length ls - 1)%nat).
Proof.
  revert i. induction ls as [|l' ls IH]; intros i H; [done|]. destruct i as [|i]; cbn [flagged lookup] in *.
  - injection H as ->. cbn. destruct ls as [|l2 ls]; cbn; [by rewrite andb_true_r|by rewrite andb_false_r].
  - cbn in *. rewrite (IH i H). do 2 f_equal. apply lookup_lt_Some in H.
    f_equal. apply bool_decide_ext. lia.
Qed.

Lemma side_line_spec s mark i x :
  0 <= i -> side_flagged s !! Z.to_nat i = Some x -> side_line s mark i = Ret (marked_text mark x).
Proof.
  intros Hi H. unfold side_flagged in H.
  assert (Z.to_nat i < length (lines s))%nat as Hl by (apply lookup_lt_Some in H; by rewrite length_flagged in H).
  destruct (lookup_lt_is_Some_2 _ _ Hl) as [l El]. rewrite (flagged_lookup _ _ _ _ El) in H. injection H as <-.
  unfold side_line. rewrite (proj2 (index_Ret _ _ l)) by done. cbn [bind]. unfold marked_text. cbn [fst snd].
  do 4 f_equal. assert (bool_decide (Z.to_nat i = length (lines s) - 1)%nat = (i =? len (lines s) - 1)) as ->; [|done].
  unfold len. destruct (Z.eqb_spec i (Z.of_nat (length (lines s)) - 1)); [apply bool_decide_true|apply bool_decide_false]; lia.
Qed.

Lemma side_lines_spec count s mark i :
  0 <= i -> i + Z.of_nat count <= len (lines s) ->
  side_lines count s mark i = Ret (concat (marked_text mark <$> take count (drop (Z.to_nat i) (side_flagged s)))).
Proof.
  revert i. induction count as [|count IH]; intros i Hi Hc; cbn [side_lines]; [done|].
  destruct (drop_lt (side_flagged s) i) as (x & r & E); [rewrite len_flagged; lia|].
  destruct (index_drop (side_flagged s) i x r Hi E) as [[_ Hx]%index_Ret Er].
  rewrite (side_line_spec s mark i x Hi Hx). cbn [bind]. rewrite IH by lia. cbn [bind].
  rewrite Er, E. done.
Qed.

Lemma lines_to_spec s mark i j :
  0 <= i -> j <= len (lines s) -> i <= len (lines s) ->
  lines_to s mark i j = Ret (concat (marked_text mark <$> sub i j (side_flagged s))).
Proof. intros. unfold lines_to, sub. apply side_lines_spec; lia. Qed.

(** ** Groups and hunks *)

(** The lists of the two files have as many lines as the groups are about. *)
Definition shape {A} (la lb : list A) (sa sb : side) : Prop :=
  len la = len (lines sa) /\ len lb = len (lines sb).

Lemma gap_lengths {A} (la lb : list A) i j i' j' :
  0 <= i <= i' -> i' <= len la -> 0 <= j <= j' -> j' <= len lb -> sub i i' la = sub j j' lb -> i' - i = j' - j.
Proof. intros ???? E. apply (f_equal len) in E. rewrite !len_sub in E by lia. done. Qed.

Lemma groups_bounds {A} (la lb : list A) i j gs :
  groups la lb i j gs -> 0 <= i <= len la /\ 0 <= j <= len lb /\
    Forall (fun g => 0 <= a0 g <= a1 g /\ a1 g <= len la /\ 0 <= b0 g <= b1 g /\ b1 g <= len lb /\ (a0 g < a1 g \/ b0 g < b1 g)) gs.
Proof.
  revert i j. induction gs as [|g gs IH]; intros i j; cbn [groups].
  - intros (? & ? & _). split_and!; [lia..|constructor].
  - intros (? & ? & ? & ? & ? & _ & H). destruct (IH _ _ H) as (_ & _ & Hf). split_and!; [lia..|]. constructor; [lia|done].
Qed.

(** Groups can be started later in the gap before them. *)
Lemma groups_advance {A} (la lb : list A) i j gs k :
  groups la lb i j gs -> 0 <= k -> i + k <= match gs with g :: _ => a0 g | [] => len la end ->
  groups la lb (i + k) (j + k) gs.
Proof.
  assert (forall i j i' j', 0 <= i <= i' -> i' <= len la -> 0 <= j <= j' -> j' <= len lb -> sub i i' la = sub j j' lb ->
    0 <= k -> i + k <= i' -> j + k <= j' /\ sub (i + k) i' la = sub (j + k) j' lb) as Hsub.
  { intros i1 j1 i2 j2 ???? E ??. pose proof (gap_lengths la lb i1 j1 i2 j2 ltac:(lia) ltac:(lia) ltac:(lia) ltac:(lia) E).
    split; [lia|]. rewrite <- (sub_app la i1 (i1 + k) i2), <- (sub_app lb j1 (j1 + k) j2) in E by lia.
    apply app_inj_1 in E; [by destruct E|].
    apply Nat2Z.inj. change (len (sub i1 (i1 + k) la) = len (sub j1 (j1 + k) lb)). rewrite !len_sub by lia. lia. }
  destruct gs as [|g gs]; cbn [groups].
  - intros (? & ? & E) ??. destruct (Hsub i j (len la) (len lb)); [lia || done..|]. split_and!; (done || lia).
  - intros (? & ? & ? & ? & ? & E & H) ??. destruct (Hsub i j (a0 g) (b0 g)); [lia || done..|]. split_and!; (done || lia).
Qed.

Lemma last_next {A} (g g' : A) h : List.last (g' :: h) g = List.last h g'.
Proof.
  revert g g'. induction h as [|x h IH]; intros g g'; [done|].
  change (List.last (g' :: x :: h) g) with (List.last (x :: h) g). rewrite (IH g x), (IH g' x). done.
Qed.

Lemma hunk_groups_spec ctx g gs h rest :
  hunk_groups ctx g gs = (h, rest) ->
  gs = h ++ rest /\ match rest with g' :: _ => 2 * ctx < a0 g' - a1 (List.last h g) | [] => True end.
Proof.
  revert g h rest. induction gs as [|g' gs IH]; intros g h rest; cbn [hunk_groups]; [by intros [= <- <-]|].
  destruct (Z.leb_spec (a0 g' - a1 g) (2 * ctx)); [|by intros [= <- <-]].
  destruct (hunk_groups ctx g' gs) as [h' rest'] eqn:E. intros [= <- <-]. destruct (IH _ _ _ E) as [-> Hr].
  split; [done|]. destruct rest' as [|g2 r]; [done|]. by rewrite last_next.
Qed.

Lemma groups_split {A} (la lb : list A) i j g h rest :
  groups la lb i j ((g :: h) ++ rest) ->
  groups la lb (a1 (List.last h g)) (b1 (List.last h g)) rest /\
  i <= a0 g /\ a0 g - i = b0 g - j /\ a0 g <= a1 (List.last h g) /\ b0 g <= b1 (List.last h g).
Proof.
  revert i j g. induction h as [|g' h IH]; intros i j g H.
  - cbn in H |- *. destruct H as (? & ? & ? & ? & _ & E & H). pose proof (gap_lengths la lb i j (a0 g) (b0 g) ltac:(lia) ltac:(lia) ltac:(lia) ltac:(lia) E).
    split; [done|]. lia.
  - change ((g :: g' :: h) ++ rest) with (g :: ((g' :: h) ++ rest)) in H. cbn [groups] in H.
    destruct H as (? & ? & ? & ? & _ & E & H). destruct (IH _ _ _ H) as (? & ? & ? & ? & ?).
    rewrite last_next.
    pose proof (gap_lengths la lb i j (a0 g) (b0 g) ltac:(lia) ltac:(lia) ltac:(lia) ltac:(lia) E). split; [done|]. lia.
Qed.

(** The range of a hunk and the rest of the groups after it, [i] and [j] being the end
    of the hunk before it. *)
Lemma hunk_range_spec {A} (la lb : list A) sa sb i j ctx g h rest hs he hbs hbe :
  shape la lb sa sb -> 0 <= ctx -> groups la lb i j ((g :: h) ++ rest) ->
  (i = 0 /\ j = 0 \/ i + ctx < a0 g) ->
  match rest with g' :: _ => 2 * ctx < a0 g' - a1 (List.last h g) | [] => True end ->
  hunk_range ctx sa g (List.last h g) = (hs, he, hbs, hbe) ->
  let l := List.last h g in
  i <= hs <= a0 g /\ a1 l <= he <= len la /\ hbs - j = hs - i /\ hbe - b1 l = he - a1 l /\ hbe <= len lb /\
  j <= hbs /\ (i < hs \/ hs = 0 /\ j = 0) /\ groups la lb he hbe rest /\
  match rest with g' :: _ => he + ctx < a0 g' | [] => True end.
Proof.
  intros [Ha Hb] Hc Hg Hi Hr E l. unfold hunk_range in E. destruct (groups_split _ _ _ _ _ _ _ Hg) as (Hg' & H1 & H2 & H3 & H4).
  fold l in Hg', H3, H4, E, Hr. destruct (groups_bounds _ _ _ _ _ Hg) as (? & ? & _).
  destruct (groups_bounds _ _ _ _ _ Hg') as (? & ? & _).
  assert (match rest with g' :: _ => a0 g' - a1 l = b0 g' - b1 l /\ a0 g' <= len la /\ b0 g' <= len lb | [] => len la - a1 l = len lb - b1 l end) as Hrest.
  { destruct rest as [|g' rest]; cbn [groups] in Hg'.
    - destruct Hg' as (? & ? & E'). pose proof (gap_lengths la lb (a1 l) (b1 l) (len la) (len lb) ltac:(lia) ltac:(lia) ltac:(lia) ltac:(lia) E'). lia.
    - destruct Hg' as (? & ? & ? & ? & _ & E' & _). pose proof (gap_lengths la lb (a1 l) (b1 l) (a0 g') (b0 g') ltac:(lia) ltac:(lia) ltac:(lia) ltac:(lia) E'). lia. }
  injection E as <- <- <- <-. rewrite <- Ha.
  set (hs := if a0 g - ctx <? 0 then 0 else a0 g - ctx) in *. set (he := if len la <? a1 l + ctx then len la else a1 l + ctx) in *.
  assert (i <= hs <= a0 g /\ (i < hs \/ hs = 0 /\ j = 0)) as [? ?].
  { unfold hs. destruct (Z.ltb_spec (a0 g - ctx) 0); lia. }
  assert (a1 l <= he <= len la /\ he <= a1 l + ctx) as [? ?].
  { unfold he. destruct (Z.ltb_spec (len la) (a1 l + ctx)); lia. }
  assert (b1 l + (he - a1 l) <= len lb) by (destruct rest; lia).
  split_and!; try lia.
  - pose proof (groups_advance la lb (a1 l) (b1 l) rest (he - a1 l) Hg') as Hadv.
    replace (a1 l + (he - a1 l)) with he in Hadv by lia. apply Hadv; [lia|]. destruct rest; lia.
  - destruct rest; [done|]. lia.
Qed.

(** ** Hunks *)

(** The lines of a unified hunk with their marks. *)
Fixpoint hunk_body {A} (fa fb : list A) (gs : list group) (ai bi he : Z) : list (Z * A) :=
  match gs with
  | [] => pair (ch! " ") <$> sub ai he fa
  | g :: gs' =>
      (pair (ch! " ") <$> sub ai (a0 g) fa) ++ (pair (ch! "-") <$> sub (a0 g) (a1 g) fa) ++
      (pair (ch! "+") <$> sub (b0 g) (b1 g) fb) ++ hunk_body fa fb gs' (a1 g) (b1 g) he
  end.

Definition body_text (l : list (Z * (list Z * bool))) : list Z := concat ((fun x => marked_text [x.1] x.2) <$> l).

Lemma body_text_app l l' : body_text (l ++ l') = body_text l ++ body_text l'.
Proof. unfold body_text. by rewrite fmap_app, concat_app. Qed.

Lemma body_text_mark c l : body_text (pair c <$> l) = concat (marked_text [c] <$> l).
Proof. unfold body_text. by rewrite <- list_fmap_compose. Qed.

Section Emit.
Context {A : Type} (la lb : list A) (sa sb : side).
Hypothesis Hshape : shape la lb sa sb.

Lemma unified_groups_spec gs rest ai bi he :
  groups la lb ai bi (gs ++ rest) -> he <= len la ->
  unified_groups sa sb gs ai bi he = Ret (body_text (hunk_body (side_flagged sa) (side_flagged sb) gs ai bi he)).
Proof using Hshape.
  destruct Hshape as [Ha Hb]. revert ai bi. induction gs as [|g gs IH]; intros ai bi Hg Hh; cbn [unified_groups hunk_body].
  - destruct (groups_bounds _ _ _ _ _ Hg) as (? & ? & _). rewrite lines_to_spec by lia. by rewrite body_text_mark.
  - cbn [groups app] in Hg. destruct Hg as (? & ? & ? & ? & _ & E & Hg).
    pose proof (gap_lengths la lb ai bi (a0 g) (b0 g) ltac:(lia) ltac:(lia) ltac:(lia) ltac:(lia) E).
    rewrite lines_to_spec by lia. cbn [bind]. rewrite !Z.max_r by lia. replace (bi + (a0 g - ai)) with (b0 g) by lia.
    rewrite lines_to_spec by lia. cbn [bind]. rewrite lines_to_spec by lia. cbn [bind]. rewrite ?Z.max_r by lia.
    rewrite IH by done. cbn [bind]. by rewrite !body_text_app, !body_text_mark.
Qed.

Lemma context_old_returns gs rest ai bi he :
  groups la lb ai bi (gs ++ rest) -> he <= len la -> exists t, context_old sa gs ai he = Ret t.
Proof using Hshape.
  destruct Hshape as [Ha Hb]. revert ai bi. induction gs as [|g gs IH]; intros ai bi Hg Hh; cbn [context_old].
  - destruct (groups_bounds _ _ _ _ _ Hg) as (? & ? & _). rewrite lines_to_spec by lia. eauto.
  - cbn [groups app] in Hg. destruct Hg as (? & ? & ? & ? & _ & E & Hg).
    rewrite lines_to_spec by lia. cbn [bind]. rewrite !Z.max_r by lia. rewrite lines_to_spec by lia. cbn [bind].
    destruct (IH _ _ Hg Hh) as [t ->]. cbn [bind]. eauto.
Qed.

Lemma context_new_returns gs rest ai bi hbe :
  groups la lb ai bi (gs ++ rest) -> hbe <= len lb -> exists t, context_new sb gs bi hbe = Ret t.
Proof using Hshape.
  destruct Hshape as [Ha Hb]. revert ai bi. induction gs as [|g gs IH]; intros ai bi Hg Hh; cbn [context_new].
  - destruct (groups_bounds _ _ _ _ _ Hg) as (? & ? & _). rewrite lines_to_spec by lia. eauto.
  - cbn [groups app] in Hg. destruct Hg as (? & ? & ? & ? & _ & E & Hg).
    rewrite lines_to_spec by lia. cbn [bind]. rewrite !Z.max_r by lia. rewrite lines_to_spec by lia. cbn [bind].
    destruct (IH _ _ Hg Hh) as [t ->]. cbn [bind]. eauto.
Qed.

(** The first hunk of the groups after a hunk that ends at [i] and [j]. *)
Lemma next_hunk ctx i j g gs h rest :
  0 <= ctx -> groups la lb i j (g :: gs) -> (i = 0 /\ j = 0 \/ i + ctx < a0 g) -> hunk_groups ctx g gs = (h, rest) ->
  gs = h ++ rest /\
  exists hs he hbs hbe, hunk_range ctx sa g (List.last h g) = (hs, he, hbs, hbe) /\
    i <= hs <= a0 g /\ a1 (List.last h g) <= he <= len la /\ hbs - j = hs - i /\
    hbe - b1 (List.last h g) = he - a1 (List.last h g) /\ hbe <= len lb /\ j <= hbs /\ (i < hs \/ hs = 0 /\ j = 0) /\
    groups la lb hs hbs ((g :: h) ++ rest) /\ groups la lb he hbe rest /\
    match rest with g' :: _ => he + ctx < a0 g' | [] => True end.
Proof using Hshape.
  intros Hc Hg Hi Eh. destruct (hunk_groups_spec _ _ _ _ _ Eh) as [-> Hr]. split; [done|].
  destruct (hunk_range ctx sa g (List.last h g)) as [[[hs he] hbs] hbe] eqn:E. exists hs, he, hbs, hbe.
  destruct (hunk_range_spec la lb sa sb i j ctx g h rest hs he hbs hbe Hshape Hc Hg Hi Hr E)
    as (? & ? & ? & ? & ? & ? & ? & ? & ?). split_and!; try done; try lia.
  pose proof (groups_advance la lb i j ((g :: h) ++ rest) (hs - i) Hg ltac:(lia) ltac:(cbn; lia)) as Hadv.
  replace (i + (hs - i)) with hs in Hadv by lia. by replace (j + (hs - i)) with hbs in Hadv by lia.
Qed.

Lemma hunks_return ctx fuel i j gs :
  0 <= ctx -> groups la lb i j gs -> match gs with g :: _ => (i = 0 /\ j = 0 \/ i + ctx < a0 g) | [] => True end ->
  (length gs <= fuel)%nat ->
  (exists t, unified_hunks fuel sa sb ctx gs = Ret t) /\ exists t, context_hunks fuel sa sb ctx gs = Ret t.
Proof using Hshape.
  intros Hc. revert i j gs. induction fuel as [|fuel IH]; intros i j gs Hg Hi Hf;
    (destruct gs as [|g gs]; [cbn; eauto|]); [cbn in Hf; lia|].
  cbn [unified_hunks context_hunks]. destruct (hunk_groups ctx g gs) as [h rest] eqn:Eh.
  destruct (next_hunk ctx i j g gs h rest Hc Hg Hi Eh)
    as (-> & hs & he & hbs & hbe & Er & ? & ? & ? & ? & ? & ? & ? & Hg1 & Hg2 & Hi2).
  destruct (IH he hbe rest) as [[t1 ->] [t2 ->]]; [done|destruct rest; auto|cbn in Hf; rewrite length_app in Hf; lia|].
  unfold unified_hunk, context_hunk. rewrite Er. rewrite (unified_groups_spec (g :: h) rest hs hbs he) by (done || lia).
  destruct (context_old_returns (g :: h) rest hs hbs he) as [t3 ->]; [done|lia|].
  destruct (context_new_returns (g :: h) rest hs hbs hbe) as [t4 ->]; [done|lia|]. cbn [bind].
  split; [eauto|]. destruct (existsb _ (g :: h)), (existsb _ (g :: h)); cbn [bind]; eauto.
Qed.

Lemma group_forms_return gs i j :
  groups la lb i j gs ->
  (exists t, emitEd sb gs = Ret t) /\ (exists t, emitForwardEd sb gs = Ret t) /\ exists t, emitNormal sa sb gs = Ret t.
Proof using Hshape.
  destruct Hshape as [Ha Hb]. revert i j. induction gs as [|g gs IH]; intros i j Hg; [cbn; split_and!; eauto|].
  cbn [groups] in Hg. destruct Hg as (? & ? & ? & ? & _ & _ & Hg). cbn [emitEd emitForwardEd emitNormal].
  destruct (IH _ _ Hg) as ([t1 ->] & [t2 ->] & [t3 ->]). cbn [bind].
  unfold emitEdGroup, emitForwardEdGroup, emitNormalGroup.
  rewrite slice_Ret by lia. rewrite !lines_to_spec by lia. cbn [bind].
  destruct (_ && _), (0 <? a1 g - a0 g); cbn [bind]; split_and!; eauto.
Qed.

Lemma emit_returns stamp contextStamp opts gs :
  0 <= context opts -> groups la lb 0 0 gs -> exists t, emit stamp contextStamp opts sa sb gs = Ret t.
Proof using Hshape.
  intros Hc Hg. unfold emit, emitUnified, emitContext.
  destruct (group_forms_return gs 0 0 Hg) as ([t1 ->] & [t2 ->] & [t3 ->]).
  destruct (hunks_return (context opts) (length gs) 0 0 gs) as [[t4 ->] [t5 ->]]; [done..|destruct gs; auto|lia|].
  cbn [bind]. destruct (edStyle opts), (forwardEdStyle opts), (unified opts), (contextStyle opts); eauto.
Qed.

End Emit.

Lemma length_line_keys opts ne ls : length (line_keys opts ne ls) = length ls.
Proof. induction ls as [|l ls IH]; cbn [line_keys length]; lia. Qed.

(** ** Comparison without -i, -w and -b *)

Definition plain (opts : options) : Prop :=
  ignoreCase opts = false /\ ignoreAllSpace opts = false /\ ignoreSpaceChange opts = false.

Definition key_of (x : list Z * bool) : list Z := x.1 ++ (if x.2 then [0] else []).

Lemma line_keys_plain opts ne ls : plain opts -> line_keys opts ne ls = key_of <$> flagged ne ls.
Proof.
  intros (E1 & E2 & E3). induction ls as [|l ls IH]; [done|]. cbn [line_keys flagged]. rewrite fmap_cons, IH. f_equal.
  unfold line_key, canon, key_of. rewrite E1, E2, E3. cbn [fst snd negb]. rewrite !andb_true_r. by destruct ls, ne.
Qed.

Lemma key_of_inj x y : 0 ∉ x.1 -> 0 ∉ y.1 -> key_of x = key_of y -> x = y.
Proof.
  destruct x as [l b], y as [l' b']. unfold key_of. cbn. intros H H' E. destruct b, b'; rewrite ?app_nil_r in E.
  - apply app_inj_tail in E as [-> _]. done.
  - subst. destruct H'. apply elem_of_app. right. by apply list_elem_of_singleton.
  - subst. destruct H. apply elem_of_app. right. by apply list_elem_of_singleton.
  - by subst.
Qed.

Lemma elem_of_split sep x s l : l ∈ split_byte sep s -> x ∈ l -> x ∈ s.
Proof.
  revert l. induction s as [|c s IH]; intros l; cbn [split_byte].
  - intros ->%list_elem_of_singleton ?. done.
  - destruct (c =? sep).
    + intros [->|H]%elem_of_cons Hx; [by apply elem_of_nil in Hx|]. apply elem_of_cons. right. by eapply IH.
    + destruct (split_byte sep s) as [|p ps] eqn:E.
      * intros ->%list_elem_of_singleton ->%list_elem_of_singleton. by left.
      * intros [->|H]%elem_of_cons Hx.
        -- apply elem_of_cons in Hx as [->|Hx]; [by left|]. right. apply (IH p); [by left|done].
        -- right. apply (IH l); [by right|done].
Qed.

Lemma text_lines_elem x d l : l ∈ (text_of d).1 -> x ∈ l -> x ∈ d.
Proof.
  unfold text_of. destruct d as [|c d]; [by intros ?%elem_of_nil|]. cbn [fst]. intros H Hx.
  apply (elem_of_split 10 x _ l H) in Hx. destruct (has_suffix_byte 10 (c :: d)); [|done].
  destruct (@exists_last _ (c :: d)) as (t & y & E); [done|]. rewrite E in *. rewrite removelast_last in Hx.
  apply elem_of_app. by left.
Qed.

Lemma not_binary d : isBinary d = false -> 0 ∉ d.
Proof.
  unfold isBinary. intros H Hin. induction d as [|c d IH]; [by apply elem_of_nil in Hin|]. cbn in H. to_prop.
  apply elem_of_cons in Hin as [?|?]; [done|auto].
Qed.

(** The bytes of a text from its lines. *)
Definition untext (t : list (list Z) * bool) : list Z :=
  match t.1 with
  | [] => []
  | ls => join [10] ls ++ (if t.2 then [] else [10])
  end.

Lemma untext_text d : untext (text_of d) = d.
Proof.
  destruct d as [|c d]; [done|]. unfold text_of, untext. cbn [fst snd]. set (l := c :: d).
  destruct (has_suffix_byte 10 l) eqn:E; cbn [negb].
  - destruct (@exists_last _ l) as (t & x & Et); [done|]. rewrite Et in *. unfold has_suffix_byte in E.
    rewrite rev_app_distr in E. cbn in E. apply Z.eqb_eq in E as ->. rewrite removelast_last.
    pose proof (split_nonempty t). destruct (split_byte 10 t) eqn:Es; [done|]. by rewrite <- Es, join_split.
  - pose proof (split_nonempty l). destruct (split_byte 10 l) eqn:Es; [done|]. by rewrite <- Es, join_split, app_nil_r.
Qed.

Definition text_flagged (d : list Z) : list (list Z * bool) := flagged (text_of d).2 (text_of d).1.

Lemma flagged_no_nul d : isBinary d = false -> Forall (fun x => 0 ∉ x.1) (text_flagged d).
Proof.
  intros H. apply Forall_forall. intros x Hx Hin. apply (not_binary d H). apply (text_lines_elem 0 d x.1); [|done].
  rewrite <- (flagged_texts (text_of d).2 (text_of d).1). by apply list_elem_of_fmap_2.
Qed.

Lemma text_keys_related opts d :
  plain opts -> isBinary d = false ->
  Forall2 (fun k x => k = key_of x /\ 0 ∉ x.1) (text_keys opts d) (text_flagged d).
Proof.
  intros Hp Hb. unfold text_keys. rewrite line_keys_plain by done. pose proof (flagged_no_nul d Hb) as H.
  unfold text_flagged in *. induction H as [|x l Hx _ IH]; [constructor|]. rewrite fmap_cons. by constructor.
Qed.

Lemma groups_flagged opts a b i j gs :
  plain opts -> isBinary a = false -> isBinary b = false ->
  groups (text_keys opts a) (text_keys opts b) i j gs -> groups (text_flagged a) (text_flagged b) i j gs.
Proof.
  intros Hp Ha Hb. eapply groups_transfer; [|by apply text_keys_related|by apply text_keys_related].
  intros k x y [-> ?] [? ?]. by apply key_of_inj.
Qed.

Lemma flagged_text_inj a b : text_flagged a = text_flagged b -> a = b.
Proof.
  intros E. rewrite <- (untext_text a), <- (untext_text b). f_equal. unfold text_flagged in E.
  assert ((text_of a).1 = (text_of b).1) as E1.
  { rewrite <- (flagged_texts (text_of a).2 (text_of a).1), <- (flagged_texts (text_of b).2 (text_of b).1). by rewrite E. }
  destruct (text_of a) as [la na] eqn:Ea, (text_of b) as [lb nb] eqn:Eb. cbn [fst snd] in *. subst lb. f_equal.
  destruct la as [|l la]; [destruct a, b; cbn in Ea, Eb|].
  - congruence.
  - injection Eb as Eb _. by apply split_nonempty in Eb.
  - injection Ea as Ea _. by apply split_nonempty in Ea.
  - injection Ea as Ea _. by apply split_nonempty in Ea.
  - clear Ea Eb. revert l E. induction la as [|l' la IH]; intros l E; cbn in E; [congruence|].
    injection E as E. apply (IH l'). cbn. congruence.
Qed.

Lemma text_keys_plain opts a b :
  plain opts -> isBinary a = false -> isBinary b = false -> text_keys opts a = text_keys opts b -> a = b.
Proof.
  intros Hp Ha Hb E. apply flagged_text_inj. apply groups_nil. apply (groups_flagged opts); try done.
  rewrite E. pose proof (len_nonneg (text_keys opts b)). cbn. split_and!; (lia || done).
Qed.

(** ** Properties *)

(** The lines of two files are the same under the options. *)
Definition same_text (opts : options) (a b : list Z) : Prop :=
  a = b \/ (isBinary a = false /\ isBinary b = false /\ text_keys opts a = text_keys opts b).

Definition verdict (opts : options) (a b : list Z) (r : result) : Prop :=
  (status r = 0 <-> same_text opts a b) /\ (plain opts -> same_text opts a b -> a = b) /\
  (status r = 0 -> out r = [] /\ err r = []) /\
  (status r <> 0 -> status r = 1 \/ (status r = 2 /\ err r <> [] /\ edStyle opts || forwardEdStyle opts = true)).

Lemma same_text_plain opts a b : plain opts -> same_text opts a b -> a = b.
Proof. intros Hp [?|(Ha & Hb & E)]; [done|]. by apply (text_keys_plain opts). Qed.

Lemma verdict_same opts a b r : r = Result [] [] 0 -> same_text opts a b -> verdict opts a b r.
Proof. intros -> H. split_and!; [done|apply same_text_plain|done|done]. Qed.

Lemma verdict_differ opts a b o e : ~ same_text opts a b -> verdict opts a b (Result o e 1).
Proof. intros H. split_and!; cbn; [by split|apply same_text_plain|done|by left]. Qed.

(** The comparison of two files always produces a result. Its status is 0,
    without any output, exactly when the files are equal or are texts whose
    lines are the same under -i, -w and -b, which without these options means
    equal files; otherwise it is 1, or 2 when an ed script cannot express a
    missing final newline. *)
Theorem compareSides_status (stamp contextStamp : Z -> list Z) (opts : options) (sa sb : side) (withHeader : bool) :
  loaded sa -> loaded sb -> 0 <= context opts ->
  exists r, compareSides stamp contextStamp opts sa sb withHeader = Ret r /\ verdict opts (data sa) (data sb) r.
Proof.
  intros La Lb Hc. unfold compareSides.
  destruct (str_eqb_spec (data sa) (data sb)) as [Ed|Ed].
  { eexists. split; [done|]. apply (verdict_same _ _ _ _ eq_refl). by left. }
  destruct (isBinary (data sa) || isBinary (data sb)) eqn:Ebin.
  { assert (~ same_text opts (data sa) (data sb)) as Hns.
    { intros [?|(E1 & E2 & _)]; [done|]. by rewrite E1, E2 in Ebin. }
    destruct (brief opts); (eexists; split; [done|]; by apply verdict_differ). }
  apply orb_false_iff in Ebin as [Eba Ebb].
  pose proof (prepared_groups opts sa sb La Lb) as HP. destruct (prep sa opts ∅) as [sa' m1]. destruct (prep sb opts m1) as [sb' m2].
  destruct HP as (gs & -> & Hg & _ & Hn & El & En & _ & _ & El' & En' & _). cbn [bind].
  assert (shape (text_keys opts (data sa)) (text_keys opts (data sb)) sa' sb') as HS.
  { unfold shape, len, text_keys. by rewrite !length_line_keys, El, El'. }
  destruct (emit_returns _ _ sa' sb' HS stamp contextStamp opts gs Hc Hg) as [t ->]. cbn [bind].
  destruct gs as [|g gs].
  { eexists. split; [done|]. apply (verdict_same _ _ _ _ eq_refl). right. by rewrite (proj1 Hn eq_refl). }
  assert (~ same_text opts (data sa) (data sb)) as Hns.
  { intros [?|(_ & _ & E)]; [done|]. by apply Hn in E. }
  destruct (brief opts); [eexists; split; [done|]; by apply verdict_differ|].
  destruct (edStyle opts || forwardEdStyle opts) eqn:Es; [|eexists; split; [done|]; by apply verdict_differ].
  destruct (noEOL sa'), (noEOL sb'); cbn [andb orb]; eexists; (split; [done|]);
    try (by apply verdict_differ); (split_and!; cbn; [by split|apply same_text_plain|done|intros _; right; by split_and!]).
Qed.

Lemma compareSides_status_witness :
  let o := mkOptions false false false false 3 false false false true [] in
  let side d := mkSide (str! "f") d [] [] false 0 in
  let a := str! "a  b" ++ [10] in
  let b := str! "a b" ++ [10] in
  compareSides (fun _ => []) (fun _ => []) o (side a) (side b) false = Ret (Result [] [] 0) /\
  exists r, compareSides (fun _ => []) (fun _ => []) o (side a) (side b) false = Ret r /\ verdict o a b r.
Proof.
  cbv zeta. split; [vm_compute; reflexivity|].
  apply (compareSides_status (fun _ => []) (fun _ => []) (mkOptions false false false false 3 false false false true [])
    (mkSide (str! "f") (str! "a  b" ++ [10]) [] [] false 0) (mkSide (str! "f") (str! "a b" ++ [10]) [] [] false 0) false).
  - by split_and!.
  - by split_and!.
  - cbn. lia.
Defined.

End DiffOutput.
