(* ===== verification/PatchFile.v ===== *)
(** * patch: the command's own logic (src/cmds/patch/patch.go)

    The parts of the command that do not touch the file system: lines of a
    file and back, the names of targets, and the policy for patches that look
    reversed. The answer to the prompt is an argument. *)

From Stdlib Require Import ZArith Lia.
From stdpp Require Import base tactics list numbers strings.
From S2P Require Import Prelude PatchParse PatchApply.

Module PatchFile.
Import Patch PatchApply.

(** ** Lines *)

Definition splitFileLines (content : list Z) : list (list Z) * bool :=
  match content with
  | [] => ([], false)
  | _ =>
      let trailingNL := has_suffix_byte 10 content in
      let parts := split_byte 10 content in
      (if trailingNL then removelast parts else parts, negb trailingNL)
  end.

Fixpoint joinFileLines (lines : list (list Z)) (noFinalNewline : bool) : list Z :=
  match lines with
  | [] => []
  | l :: rest =>
      let is_last := match rest with [] => true | _ => false end in
      l ++ (if negb is_last || negb noFinalNewline then [10] else []) ++ joinFileLines rest noFinalNewline
  end.

(** ** Names *)

Definition is_slash (c : Z) : bool := c =? ch! "/".

(** The rounds of the loop of [stripComponents]. *)
Fixpoint strip_rounds (n : nat) (rest : list Z) : list Z :=
  match n with
  | O => rest
  | S n' =>
      match index_byte rest (ch! "/") with
      | None => []
      | Some i => strip_rounds n' (trim_left is_slash (drop i rest))
      end
  end.

Definition stripComponents (name : list Z) (n : Z) : list Z :=
  if n <=? 0 then name
  else if has_prefix name (str! "/") then strip_rounds (Z.to_nat (n - 1)) (trim_left is_slash name)
  else strip_rounds (Z.to_nat n) name.

(** [strings.LastIndex] of a slash: what is after it. *)
Fixpoint after_last_slash (s : list Z) : option (list Z) :=
  match s with
  | [] => None
  | c :: s' =>
      match after_last_slash s' with
      | Some r => Some r
      | None => if is_slash c then Some s' else None
      end
  end.

Definition baseComponent (name : list Z) : list Z :=
  let trimmed := trim_right is_slash name in
  match trimmed with
  | [] => []
  | _ => default trimmed (after_last_slash trimmed)
  end.

(** On a system with slashes, [filepath.ToSlash] is the identity. *)
Definition targetName (name : list Z) (strip : Z) : list Z :=
  if strip <? 0 then baseComponent name else stripComponents name strip.

(** ** Policy *)

Record runOptions := mkRun {
  reverse : bool;
  force : bool;
  batch : bool;
  forward : bool;
  define : list Z;
  reverseProbe : option bool;
  applyOpts : ApplyOptions
}.

Fixpoint index_reports (i : Z) (o : HunkOutcome) (hunks : list Hunk) : list HunkReport :=
  match hunks with
  | [] => []
  | _ :: rest => mkReport (i + 1) o 0 0 :: index_reports (i + 1) o rest
  end.

Definition failedResult (oldLines : list (list Z)) (oldNoEOL : bool) (hunks : list Hunk) : Result :=
  mkResult oldLines oldNoEOL (index_reports 0 HunkFailed hunks) hunks.

Definition with_reverse (o : ApplyOptions) : ApplyOptions := mkOptions true (Fuzz o) (IgnoreWhitespace o) (Force o).
Definition with_force (o : ApplyOptions) : ApplyOptions := mkOptions (Reverse o) (Fuzz o) (IgnoreWhitespace o) true.

(** [affirmative] says whether the prompt is answered with yes. *)
Definition applyWithPolicy (affirmative : bool) (oldLines : list (list Z)) (oldNoEOL : bool)
    (hunks : list Hunk) (ro : runOptions) (creationConflict : bool) : outcome (Result * bool) :=
  let apply opts :=
    if nonempty (define ro) then ApplyIfdef oldLines oldNoEOL opts (define ro) hunks
    else Apply oldLines oldNoEOL opts hunks in
  if reverse ro || force ro || batch ro then
    let! r := apply (applyOpts ro) in Ret (r, false)
  else if forward ro then
    if negb creationConflict then let! r := apply (applyOpts ro) in Ret (r, false)
    else
      let! reversed := apply (with_reverse (applyOpts ro)) in
      if AllApplied reversed
      then Ret (mkResult oldLines oldNoEOL (index_reports 0 HunkAlreadyApplied hunks) [], false)
      else Ret (failedResult oldLines oldNoEOL hunks, false)
  else
    let forwardOpts := with_force (applyOpts ro) in
    let! fwd :=
      if negb creationConflict then apply forwardOpts
      else Ret (failedResult oldLines oldNoEOL hunks) in
    let first_failed :=
      match Reports fwd with
      | [] => false
      | rep :: _ => bool_decide (Outcome rep = HunkFailed)
      end in
    if negb first_failed then Ret (fwd, false)
    else if (match reverseProbe ro with Some false => true | _ => false end) then Ret (fwd, false)
    else
      let! reversed := apply (with_reverse forwardOpts) in
      if negb (AllApplied reversed) then Ret (fwd, false)
      else if affirmative then Ret (reversed, true)
      else Ret (fwd, false).

End PatchFile.
