(* ===== verification/DiffPatch.v ===== *)
(** * diff and patch together

    What [diff -u] writes, patch applies: the unified output of two texts is
    parsed to hunks that turn the old file into the new one exactly. The
    context output is not always read back right. *)

From Stdlib Require Import ZArith Lia.
From stdpp Require Import base tactics list numbers gmap strings.
From S2P Require Import Prelude PatchParse PatchApply PatchApplyCorrect PatchParseCorrect PatchFile Diff DiffCorrect DiffOutput.

Module DiffPatch.
Import Patch PatchApply PatchApplyCorrect PatchParseCorrect PatchFile Diff DiffCorrect DiffOutput.

(** ** The lines of a unified hunk *)

Definition kind_of (c : Z) : LineKind :=
  if c =? ch! "-" then LineDelete else if c =? ch! "+" then LineAdd else LineContext.

Definition as_line (x : Z * (list Z * bool)) : HunkLine := mkLine (kind_of x.1) x.2.1 x.2.2.

Definition new_flagged (ls : list HunkLine) : list (list Z * bool) :=
  (fun l => (Text l, NoEOL l)) <$> filter (fun l => Kind l <> LineDelete) ls.

Lemma new_flagged_app l l' : new_flagged (l ++ l') = new_flagged l ++ new_flagged l'.
Proof. unfold new_flagged. by rewrite filter_app, fmap_app. Qed.

Lemma new_flagged_cons l ls :
  new_flagged (l :: ls) = match Kind l with LineDelete => new_flagged ls | _ => (Text l, NoEOL l) :: new_flagged ls end.
Proof. unfold new_flagged. rewrite filter_cons. by destruct (Kind l). Qed.

Lemma new_flagged_texts ls : (new_flagged ls).*1 = newSeq ls.
Proof. unfold new_flagged, newSeq. by rewrite <- list_fmap_compose. Qed.

Lemma as_line_text l :
  Forall (fun x => x.1 = ch! " " \/ x.1 = ch! "-" \/ x.1 = ch! "+") l ->
  body_text l = concat (unified_line <$> (as_line <$> l)).
Proof.
  induction 1 as [|[c [t b]] l Hc _ IH]; [done|]. unfold body_text in *. rewrite !fmap_cons. cbn [concat]. rewrite IH. f_equal.
  unfold unified_line, marked_text, as_line. cbn in Hc |- *. by destruct Hc as [->|[->| ->]].
Qed.

Lemma marks_ok (c : Z) (l : list (list Z * bool)) :
  c = ch! " " \/ c = ch! "-" \/ c = ch! "+" -> Forall (fun x => x.1 = ch! " " \/ x.1 = ch! "-" \/ x.1 = ch! "+") (pair c <$> l).
Proof. intros Hc. induction l; constructor; auto. Qed.

Lemma hunk_body_marks fa fb gs ai bi he :
  Forall (fun x => x.1 = ch! " " \/ x.1 = ch! "-" \/ x.1 = ch! "+") (hunk_body (A := list Z * bool) fa fb gs ai bi he).
Proof.
  revert ai bi. induction gs as [|g gs IH]; intros ai bi; cbn [hunk_body]; [apply marks_ok; auto|].
  rewrite !Forall_app. split_and!; auto using marks_ok.
Qed.

(** The sides of a block of lines of one kind. *)
Lemma block_sides (c : Z) (l : list (list Z * bool)) :
  oldSeq (as_line <$> (pair c <$> l)) = (if c =? ch! "+" then [] else l.*1) /\
  new_flagged (as_line <$> (pair c <$> l)) = (if c =? ch! "-" then [] else l).
Proof.
  induction l as [|[t b] l [IH1 IH2]]; [by split; destruct (_ =? _)|]. rewrite !fmap_cons, oldSeq_cons, new_flagged_cons, IH1, IH2.
  unfold as_line. cbn [Kind Text NoEOL fst snd]. unfold kind_of.
  destruct (Z.eqb_spec c (ch! "-")) as [->|]; [done|]. by destruct (Z.eqb_spec c (ch! "+")) as [->|].
Qed.

(** The end of groups that start at [ai] and [bi]. *)
Fixpoint end_of (gs : list group) (ai bi : Z) : Z * Z :=
  match gs with
  | [] => (ai, bi)
  | g :: gs' => end_of gs' (a1 g) (b1 g)
  end.

Lemma end_of_last g h ai bi : end_of (g :: h) ai bi = (a1 (List.last h g), b1 (List.last h g)).
Proof.
  revert g ai bi. induction h as [|g' h IH]; intros g ai bi; [done|]. rewrite last_next. apply (IH g' (a1 g) (b1 g)).
Qed.

Lemma gap_prefix {A} (la lb : list A) i j gs k :
  groups la lb i j gs -> 0 <= k -> i + k <= match gs with g :: _ => a0 g | [] => len la end ->
  sub i (i + k) la = sub j (j + k) lb.
Proof.
  intros Hg Hk Hle. assert (exists i' j', 0 <= i <= i' /\ i' <= len la /\ 0 <= j <= j' /\ j' <= len lb /\
    sub i i' la = sub j j' lb /\ i + k <= i') as (i' & j' & ? & ? & ? & ? & E & ?).
  { destruct gs as [|g gs]; cbn [groups] in Hg; [exists (len la), (len lb)|exists (a0 g), (b0 g)]; split_and!; (lia || tauto || idtac).
    all: destruct Hg as (? & ? & ? & ? & ? & ? & ?) || destruct Hg as (? & ? & ?); (lia || done). }
  pose proof (gap_lengths la lb i j i' j' ltac:(lia) ltac:(lia) ltac:(lia) ltac:(lia) E).
  rewrite <- (sub_app la i (i + k) i'), <- (sub_app lb j (j + k) j') in E by lia.
  apply app_inj_1 in E; [by destruct E|].
  apply Nat2Z.inj. change (len (sub i (i + k) la) = len (sub j (j + k) lb)). rewrite !len_sub by lia. lia.
Qed.

(** The two sides of the lines of a hunk. *)
Lemma hunk_body_sides fa fb gs rest ai bi he :
  groups (A := list Z * bool) fa fb ai bi (gs ++ rest) ->
  (end_of gs ai bi).1 <= he <= match rest with g :: _ => a0 g | [] => len fa end ->
  let ls := as_line <$> hunk_body fa fb gs ai bi he in
  oldSeq ls = (sub ai he fa).*1 /\
  new_flagged ls = sub bi ((end_of gs ai bi).2 + (he - (end_of gs ai bi).1)) fb.
Proof.
  revert ai bi. induction gs as [|g gs IH]; intros ai bi Hg Hh; cbn [hunk_body end_of app fst snd] in *.
  - destruct (block_sides (ch! " ") (sub ai he fa)) as [-> ->]. cbn. split; [done|].
    replace he with (ai + (he - ai)) at 1 by lia. apply (gap_prefix fa fb ai bi rest); [done|lia|]. destruct rest; lia.
  - cbn [groups] in Hg. destruct Hg as (? & ? & ? & ? & ? & E & Hg).
    destruct (IH _ _ Hg Hh) as [IH1 IH2]. cbv zeta. rewrite !fmap_app, !oldSeq_app, !new_flagged_app, IH1, IH2.
    destruct (block_sides (ch! " ") (sub ai (a0 g) fa)) as [-> ->]. destruct (block_sides (ch! "-") (sub (a0 g) (a1 g) fa)) as [-> ->].
    destruct (block_sides (ch! "+") (sub (b0 g) (b1 g) fb)) as [-> ->]. cbn [Z.eqb Pos.eqb app].
    assert (a1 g <= he /\ b1 g <= (end_of gs (a1 g) (b1 g)).2 + (he - (end_of gs (a1 g) (b1 g)).1)) as [? ?].
    { destruct gs as [|g' gs]; [cbn in *; lia|]. rewrite end_of_last in *. cbn [fst snd] in *.
      destruct (groups_split _ _ _ _ _ _ _ Hg) as (_ & ? & ? & ? & ?). cbn [groups app] in Hg. lia. }
    split.
    + rewrite <- !fmap_app. f_equal. rewrite !sub_app by lia. done.
    + rewrite E. rewrite !sub_app by lia. done.
Qed.

(** ** The hunks of a unified diff *)

Lemma sub_cut {A} (l : list A) i : 0 <= i <= len l -> l = sub 0 i l ++ sub i (len l) l.
Proof. intros. rewrite sub_app by lia. by rewrite sub_all by lia. Qed.

Definition flag_of (f : list (list Z * bool)) : bool :=
  match list.last f with Some x => x.2 | None => false end.

Lemma new_flag_flagged dflt ls :
  has_new ls = true -> new_flag dflt ls = flag_of (new_flagged ls).
Proof.
  unfold has_new, new_flag, flag_of, new_flagged. destruct (filter _ ls) as [|l r] eqn:E; [done|]. intros _.
  rewrite fmap_last. destruct (list.last (l :: r)) as [x|] eqn:El; [done|]. by apply last_None in El.
Qed.

Lemma has_new_flagged ls : has_new ls = negb (bool_decide (new_flagged ls = [])).
Proof. unfold has_new, new_flagged. by destruct (filter _ ls). Qed.

Lemma flag_of_app f g : g <> [] -> flag_of (f ++ g) = flag_of g.
Proof.
  intros Hg. destruct g as [|x g _] using rev_ind; [done|]. unfold flag_of. by rewrite app_assoc, !last_snoc.
Qed.

Lemma flagged_middle ne ls i x :
  flagged ne ls !! i = Some x -> (S i < length ls)%nat -> x.2 = false.
Proof.
  intros H Hi. destruct (lookup_lt_is_Some_2 ls i) as [l El]; [lia|]. rewrite (flagged_lookup _ _ _ _ El) in H.
  injection H as <-. cbn. rewrite bool_decide_false by lia. apply andb_false_r.
Qed.

(** The texts of a script are printable hunks. *)
Lemma hunks_printable o n s :
  0 <= o -> 0 <= n -> o + len (old_of s) < max_int -> n + len (new_of s) < max_int ->
  Forall clean (old_of s) -> Forall clean (new_of s) -> Forall printable (hunks_of o n s).
Proof.
  revert o n. induction s as [|[gap ls] s IH]; intros o n Ho Hn Hlo Hln Hco Hcn; [constructor|].
  change (old_of ((gap, ls) :: s)) with ((gap ++ oldSeq ls) ++ old_of s) in *.
  change (new_of ((gap, ls) :: s)) with ((gap ++ newSeq ls) ++ new_of s) in *.
  rewrite !len_app in Hlo, Hln. rewrite !Forall_app in Hco, Hcn. destruct Hco as [[_ Hco] Hco'], Hcn as [[_ Hcn] Hcn'].
  pose proof (len_nonneg gap). pose proof (len_nonneg (oldSeq ls)). pose proof (len_nonneg (newSeq ls)).
  pose proof (len_nonneg (old_of s)). pose proof (len_nonneg (new_of s)).
  cbn [hunks_of]. constructor; [|apply IH; (done || lia)]. split; cbn [OldStart OldCount NewStart NewCount Lines].
  - done.
  - split_and!; lia.
  - split_and!; lia.
  - clear -Hco Hcn. induction ls as [|l ls IH]; [constructor|]. rewrite oldSeq_cons in Hco. rewrite newSeq_cons in Hcn.
    destruct (Kind l); try apply Forall_cons in Hco as [? Hco]; try apply Forall_cons in Hcn as [? Hcn]; constructor; auto.
Qed.

Section Unified.
Context (sa sb : side).
Abbreviation fa := (side_flagged sa).
Abbreviation fb := (side_flagged sb).

Lemma shape_flagged : shape fa fb sa sb.
Proof. split; apply len_flagged. Qed.

(** The end of the new file, when the last hunk reaches the end of the old
    one. *)
Lemma last_hunk_flag g h hs hbs i j flag :
  groups fa fb hs hbs (g :: h) -> i <= hs -> sub i hs fa = sub j hbs fb -> hbs - j = hs - i -> 0 <= i -> 0 <= j ->
  (i < hs \/ hs = 0 /\ j = 0) -> hs <= a0 g ->
  let ls := as_line <$> hunk_body fa fb (g :: h) hs hbs (len fa) in
  new_flagged ls = sub hbs (len fb) fb ->
  (if has_new ls then new_flag flag ls else false) = flag_of fb.
Proof.
  intros Hg Hi Es El Hi0 Hj0 Hc Hs ls Hnew. destruct (groups_bounds _ _ _ _ _ Hg) as (? & ? & Hf).
  assert (fb = sub 0 hbs fb ++ sub hbs (len fb) fb) as Efb.
  { apply sub_cut. lia. }
  destruct (has_new ls) eqn:Eh.
  - rewrite new_flag_flagged by done. rewrite Hnew. rewrite Efb at 3. rewrite flag_of_app; [done|].
    rewrite has_new_flagged, Hnew in Eh. intros E. by rewrite E in Eh.
  - rewrite has_new_flagged, Hnew in Eh. apply negb_false_iff, bool_decide_eq_true in Eh.
    assert (hbs = len fb) as Hhb.
    { apply (f_equal len) in Eh. rewrite len_sub in Eh by lia. change (len []) with 0 in Eh. lia. }
    apply Forall_cons in Hf as [Hg0 _]. cbn [groups] in Hg. destruct Hg as (_ & _ & ? & ? & ? & _).
    unfold flag_of. rewrite last_lookup. destruct (fb !! pred (length fb)) as [x|] eqn:Ex; [|done].
    destruct Hc as [Hlt|[-> ->]].
    + assert (fa !! Z.to_nat (hs - 1) = Some x) as Ex'.
      { assert (forall (l : list (list Z * bool)) p q, 0 <= p -> p < q -> q <= len l ->
          l !! Z.to_nat (q - 1) = sub p q l !! Z.to_nat (q - 1 - p)) as Hl.
        { intros l p q ???. unfold sub, len in *. rewrite lookup_take_lt by lia. rewrite lookup_drop. f_equal. lia. }
        rewrite (Hl fa i hs), Es by lia. replace (hs - 1 - i) with (hbs - 1 - j) by lia. rewrite <- (Hl fb j hbs) by lia.
        rewrite <- Ex. f_equal. unfold len in *. lia. }
      symmetry. apply (flagged_middle _ _ _ _ Ex'). pose proof (len_flagged sa). unfold len in *. lia.
    + rewrite Hhb in El. assert (len fb = 0) by lia. apply lookup_lt_Some in Ex. unfold len in *. lia.
Qed.

Definition hunk_text (h : Hunk) : list Z := hunkHeader h ++ concat (unified_line <$> Lines h).

(** The unified output as the text of a script. *)
Record unified_ok (i j : Z) (s : script) (tl : list (list Z * bool)) : Prop := UnifiedOk {
  uo_tail_a : exists r, fa = r ++ tl;
  uo_tail_b : exists r, fb = r ++ tl;
  uo_old : (sub i (len fa) fa).*1 = old_of s ++ tl.*1;
  uo_new : (sub j (len fb) fb).*1 = new_of s ++ tl.*1;
  uo_flag : tl = [] -> s <> [] -> forall flag fl, last_flag flag fl s = flag_of fb
}.

(** One hunk before the script of the others. *)
Lemma unified_ok_cons g h rest i j hs he hbs hbe s tl :
  groups fa fb i j ((g :: h) ++ rest) -> groups fa fb hs hbs ((g :: h) ++ rest) -> groups fa fb he hbe rest ->
  i <= hs <= a0 g -> a1 (List.last h g) <= he ->
  he <= match rest with g' :: _ => a0 g' | [] => len fa end -> he <= len fa ->
  hbe = b1 (List.last h g) + (he - a1 (List.last h g)) -> hbs - j = hs - i ->
  (i < hs \/ hs = 0 /\ j = 0) -> (rest <> [] -> s <> []) -> (s = [] -> rest = []) -> unified_ok he hbe s tl ->
  let ls := as_line <$> hunk_body fa fb (g :: h) hs hbs he in
  unified_ok i j (((sub i hs fa).*1, ls) :: s) tl /\ len (oldSeq ls) = he - hs /\ len (newSeq ls) = hbe - hbs.
Proof.
  intros Hg Hg1 Hg2 Hhs Hend Hhe Hlen -> Hij Hc Hne Hnil [Ta Tb Uo Un Uf] ls.
  destruct (hunk_body_sides fa fb (g :: h) rest hs hbs he Hg1) as [So Sn]; [by rewrite end_of_last|].
  rewrite end_of_last in Sn. cbn [fst snd] in Sn. fold ls in So, Sn. set (hbe := b1 (List.last h g) + _) in *.
  destruct (groups_bounds _ _ _ _ _ Hg) as (? & ? & _). destruct (groups_bounds _ _ _ _ _ Hg1) as (? & ? & _).
  destruct (groups_bounds _ _ _ _ _ Hg2) as (? & ? & _).
  destruct (groups_split _ _ _ _ _ _ _ Hg1) as (_ & ? & ? & ? & ?).
  assert (sub i hs fa = sub j hbs fb) as Es.
  { replace hs with (i + (hs - i)) by lia. replace hbs with (j + (hs - i)) by lia.
    apply (gap_prefix fa fb i j ((g :: h) ++ rest)); [done|lia|cbn; lia]. }
  assert (len (oldSeq ls) = he - hs /\ len (newSeq ls) = hbe - hbs) as [Lo Ln].
  { rewrite So, <- new_flagged_texts, Sn. unfold len. rewrite !length_fmap. split.
    - change (len (sub hs he fa) = he - hs). apply len_sub; lia.
    - change (len (sub hbs hbe fb) = hbe - hbs). apply len_sub; lia. }
  split; [|done]. split; [done|done| | |].
  - change (old_of ((?gp, ls) :: s)) with ((gp ++ oldSeq ls) ++ old_of s).
    rewrite <- (sub_app fa i hs), <- (sub_app fa hs he) by lia. rewrite !fmap_app, Uo, So. by rewrite <- !app_assoc.
  - change (new_of ((?gp, ls) :: s)) with ((gp ++ newSeq ls) ++ new_of s).
    rewrite <- (sub_app fb j hbs), <- (sub_app fb hbs hbe) by lia. rewrite !fmap_app, Un, <- new_flagged_texts, Sn, Es.
    by rewrite <- !app_assoc.
  - intros Et _ flag fl. cbn [last_flag]. destruct s as [|c s]; [|by apply Uf].
    rewrite (Hnil eq_refl) in *. cbn [last_flag]. rewrite app_nil_r in *.
    cbn in Uo, Un. rewrite Et in *. cbn in Uo, Un.
    assert (he = len fa) as ->.
    { apply (f_equal len) in Uo. unfold len at 1 in Uo. rewrite length_fmap in Uo. change (len (sub he (len fa) fa) = 0) in Uo.
      rewrite len_sub in Uo by lia. lia. }
    assert (hbe = len fb) as Ehb.
    { apply (f_equal len) in Un. unfold len at 1 in Un. rewrite length_fmap in Un. change (len (sub hbe (len fb) fb) = 0) in Un.
      rewrite len_sub in Un by lia. lia. }
    apply (last_hunk_flag g h hs hbs i j flag); try done; try lia. by rewrite Ehb in Sn.
Qed.

Lemma unified_script ctx fuel i j gs :
  0 <= ctx -> groups fa fb i j gs -> match gs with g :: _ => i = 0 /\ j = 0 \/ i + ctx < a0 g | [] => True end ->
  (length gs <= fuel)%nat ->
  exists s tl, Diff.unified_hunks fuel sa sb ctx gs = Ret (concat (hunk_text <$> hunks_of i j s)) /\
    unified_ok i j s tl /\ (gs = [] <-> s = []).
Proof.
  intros Hctx. revert i j gs. induction fuel as [|fuel IH]; intros i j gs Hg Hi Hf;
    (destruct gs as [|g gs];
     [cbn [groups] in Hg; destruct Hg as (? & ? & E); exists [], (sub i (len fa) fa); split; [done|]; split; [|done];
      split; [exists (sub 0 i fa); by apply sub_cut|exists (sub 0 j fb); rewrite E; by apply sub_cut|done|by rewrite E|done]|]);
    [cbn in Hf; lia|].
  cbn [Diff.unified_hunks]. destruct (hunk_groups ctx g gs) as [h rest] eqn:Eh.
  destruct (next_hunk fa fb sa sb shape_flagged ctx i j g gs h rest Hctx Hg Hi Eh)
    as (-> & hs & he & hbs & hbe & Er & ? & ? & ? & ? & ? & ? & ? & Hg1 & Hg2 & Hi2).
  destruct (IH he hbe rest) as (s & tl & -> & U & Hs); [done|destruct rest; auto|cbn in Hf; rewrite length_app in Hf; lia|].
  unfold unified_hunk. rewrite Er. rewrite (unified_groups_spec fa fb sa sb shape_flagged (g :: h) rest hs hbs he) by (done || lia).
  cbn [bind]. rewrite as_line_text by apply hunk_body_marks.
  assert (he <= match rest with g' :: _ => a0 g' | [] => len fa end) by (destruct rest; lia).
  assert (hbe = b1 (List.last h g) + (he - a1 (List.last h g))) by lia.
  assert ((rest <> [] -> s <> []) /\ (s = [] -> rest = [])) as [? ?] by (split; naive_solver).
  destruct (unified_ok_cons g h rest i j hs he hbs hbe s tl) as (U' & Lo & Ln); [done || lia..|].
  destruct (groups_bounds _ _ _ _ _ Hg) as (? & ? & _). destruct (groups_bounds _ _ _ _ _ Hg1) as (? & ? & _).
  eexists _, tl. split; [|split; [exact U'|done]]. cbn [hunks_of]. rewrite fmap_cons. cbn [concat].
  assert (len (sub i hs fa).*1 = hs - i) as Lg by (unfold len; rewrite length_fmap; apply len_sub; lia).
  rewrite Lo, Ln, Lg. replace (i + (hs - i)) with hs by lia. replace (j + (hs - i)) with hbs by lia.
  replace (hs + (he - hs)) with he by lia. replace (hbs + (hbe - hbs)) with hbe by lia.
  unfold hunk_text at 2, hunkHeader. cbn [OldStart OldCount NewStart NewCount Lines]. by rewrite <- !app_assoc.
Qed.

End Unified.

(** ** Files *)

Lemma splitFileLines_text d : splitFileLines d = text_of d.
Proof.
  unfold splitFileLines, text_of. destruct d as [|c d]; [done|]. set (l := c :: d).
  destruct (has_suffix_byte 10 l) eqn:E; [|done]. f_equal.
  destruct (@exists_last _ l) as (t & x & Et); [done|]. rewrite Et in *. unfold has_suffix_byte in E.
  rewrite rev_app_distr in E. cbn in E. apply Z.eqb_eq in E as ->. by rewrite split_snoc, !removelast_last.
Qed.

Lemma joinFileLines_untext ls ne : joinFileLines ls ne = untext (ls, ne).
Proof.
  destruct ls as [|l ls]; [done|]. unfold untext. cbn [fst snd]. revert l. induction ls as [|l' ls IH]; intros l.
  - cbn. rewrite app_nil_r. by destruct ne.
  - change (joinFileLines (l :: l' :: ls) ne) with (l ++ [10] ++ joinFileLines (l' :: ls) ne). rewrite IH. cbn [join].
    by rewrite <- !app_assoc.
Qed.

Lemma flag_of_text d : flag_of (text_flagged d) = (text_of d).2.
Proof.
  unfold text_flagged. destruct (text_of d) as [ls ne] eqn:E. cbn [fst snd].
  destruct ls as [|l ls].
  - destruct d as [|c d]; cbn in E; [by injection E as <-|]. injection E as E _. by apply split_nonempty in E.
  - clear E. unfold flag_of. revert l. induction ls as [|l' ls IH]; intros l; [done|]. apply (IH l').
Qed.

Lemma extractName_stamp nm st : 9 ∉ nm -> extractName (nm ++ 9 :: st) = nm.
Proof.
  intros H. unfold extractName. assert (index_byte (nm ++ 9 :: st) 9 = Some (length nm)) as ->; [|apply take_app_length].
  induction nm as [|c nm IH]; [done|]. apply not_elem_of_cons in H as [Hc H]. cbn. destruct (Z.eqb_spec c 9); [congruence|].
  by rewrite IH.
Qed.

Lemma clean_header nm st : 10 ∉ nm -> clean st -> clean (nm ++ 9 :: st).
Proof.
  intros H1 [H2 H3]. split.
  - rewrite elem_of_app, elem_of_cons. naive_solver.
  - destruct st as [|c st _] using rev_ind; [by rewrite last_snoc|].
    rewrite app_comm_cons, app_assoc, last_snoc. by rewrite last_snoc in H3.
Qed.

(** ** The exact script *)

(** Two different texts to compare, without options that ignore
    differences; no line ends in a carriage return, which patch strips. *)
Record diffable (opts : options) (sa sb : side) : Prop := Diffable {
  df_loaded_a : loaded sa;
  df_loaded_b : loaded sb;
  df_plain : plain opts;
  df_brief : brief opts = false;
  df_context : 0 <= context opts;
  df_text_a : isBinary (data sa) = false;
  df_text_b : isBinary (data sb) = false;
  df_differ : data sa <> data sb;
  df_name_a : 9 ∉ name sa /\ 10 ∉ name sa;
  df_name_b : 9 ∉ name sb /\ 10 ∉ name sb;
  df_clean_a : Forall clean (text_of (data sa)).1;
  df_clean_b : Forall clean (text_of (data sb)).1;
  df_size : len (text_of (data sa)).1 < max_int /\ len (text_of (data sb)).1 < max_int
}.

(** The comparison up to the output. *)
Lemma compare_output stamp contextStamp opts sa sb :
  diffable opts sa sb ->
  exists sa' sb' gs t, gs <> [] /\ groups (side_flagged sa') (side_flagged sb') 0 0 gs /\ separated gs /\
    emit stamp contextStamp opts sa' sb' gs = Ret t /\
    (exists e st, compareSides stamp contextStamp opts sa sb false = Ret (Result t e st) /\
       (edStyle opts || forwardEdStyle opts = false \/ noEOL sa' || noEOL sb' = false -> e = [] /\ st = 1)) /\
    side_flagged sa' = text_flagged (data sa) /\ side_flagged sb' = text_flagged (data sb) /\
    lines sa' = (text_of (data sa)).1 /\ noEOL sa' = (text_of (data sa)).2 /\ name sa' = name sa /\
    lines sb' = (text_of (data sb)).1 /\ noEOL sb' = (text_of (data sb)).2 /\ name sb' = name sb.
Proof.
  intros []. unfold compareSides. destruct (str_eqb_spec (data sa) (data sb)) as [|_]; [done|].
  rewrite df_text_a0, df_text_b0, df_brief0. cbn [orb].
  pose proof (prepared_groups opts sa sb df_loaded_a0 df_loaded_b0) as HP.
  destruct (prep sa opts ∅) as [sa' m1]. destruct (prep sb opts m1) as [sb' m2].
  destruct HP as (gs & -> & Hg & Hsep & Hn & El & En & Enm & _ & El' & En' & Enm' & _). cbn [bind].
  assert (side_flagged sa' = text_flagged (data sa) /\ side_flagged sb' = text_flagged (data sb)) as [Fa Fb].
  { unfold side_flagged, text_flagged. by rewrite El, En, El', En'. }
  assert (groups (side_flagged sa') (side_flagged sb') 0 0 gs) as Hg'.
  { rewrite Fa, Fb. by apply (groups_flagged opts). }
  destruct (emit_returns _ _ sa' sb' (shape_flagged sa' sb') stamp contextStamp opts gs df_context0 Hg') as [t Et].
  destruct gs as [|g gs].
  { destruct df_differ0. apply (text_keys_plain opts); try done. by apply Hn. }
  rewrite Et. cbn [bind app]. exists sa', sb', (g :: gs), t. split_and!; try done. eexists _, _. split; [done|].
  intros [Hs|Hs]; [by rewrite Hs|]. apply orb_false_iff in Hs as [-> ->]. by destruct (edStyle opts || forwardEdStyle opts).
Qed.

(** A script whose text is what diff writes turns one file into the other. *)
Lemma unified_apply sa' sb' s tl flag opts :
  unified_ok sa' sb' 0 0 s tl -> s <> [] -> Reverse opts = false ->
  flag = flag_of (side_flagged sa') ->
  Apply (lines sa') flag opts (hunks_of 0 0 s) =
  Ret (mkResult (lines sb') (flag_of (side_flagged sb')) (reports_of 0 0 s) []).
Proof.
  intros [[ra Ta] [rb Tb] Uo Un Uf] Hs HR Hfl.
  assert (lines sa' = old_of s ++ tl.*1) as ->.
  { rewrite <- Uo. rewrite sub_all by lia. cbn. unfold side_flagged. rewrite drop_0. by rewrite flagged_texts. }
  assert (lines sb' = new_of s ++ tl.*1) as ->.
  { rewrite <- Un. rewrite sub_all by lia. cbn. unfold side_flagged. rewrite drop_0. by rewrite flagged_texts. }
  rewrite (Apply_exact_core _ _ _ _ 0) by (unfold oriented; by rewrite HR). do 2 f_equal.
  unfold final_flag. destruct tl as [|x tl]; cbn; [by apply Uf|].
  rewrite Hfl, Ta, Tb. by rewrite !flag_of_app.
Qed.

Lemma Ret_inj {A} (x y : A) : Ret x = Ret y -> x = y.
Proof. by intros [= ->]. Qed.

Lemma unified_printable sa' sb' s tl :
  unified_ok sa' sb' 0 0 s tl -> Forall clean (lines sa') -> Forall clean (lines sb') ->
  len (lines sa') < max_int /\ len (lines sb') < max_int -> Forall printable (hunks_of 0 0 s).
Proof.
  intros [_ _ Uo Un _]. rewrite sub_all in Uo, Un by lia. cbn [Z.to_nat] in Uo, Un. rewrite drop_0 in Uo, Un.
  unfold side_flagged in Uo, Un. rewrite flagged_texts in Uo, Un. rewrite Uo, Un, !Forall_app, !len_app.
  intros [? _] [? _] [? ?]. pose proof (len_nonneg tl.*1). apply hunks_printable; (done || lia).
Qed.

(** The text of [emitUnified] for such hunks. *)
Lemma stamped_Parse na nb ta tb hs :
  9 ∉ na /\ 10 ∉ na -> 9 ∉ nb /\ 10 ∉ nb -> clean ta -> clean tb -> Forall printable hs ->
  Parse (str! "--- " ++ na ++ [9] ++ ta ++ nl ++ str! "+++ " ++ nb ++ [9] ++ tb ++ nl ++ concat (hunk_text <$> hs)) =
  Ret (inr [mkFile na nb [] FormatUnified hs [] [] []]).
Proof.
  intros [? ?] [? ?] Ha Hb Hp.
  assert (str! "--- " ++ na ++ [9] ++ ta ++ nl ++ str! "+++ " ++ nb ++ [9] ++ tb ++ nl ++ concat (hunk_text <$> hs) =
    unlines ((str! "--- " ++ (na ++ 9 :: ta)) :: (str! "+++ " ++ (nb ++ 9 :: tb)) :: concat (hunk_lines <$> hs))) as ->.
  { rewrite !unlines_cons, <- !app_assoc. cbn [app]. do 6 f_equal. f_equal. do 3 f_equal. do 6 f_equal. f_equal. do 2 f_equal.
    apply unlines_concat, hunk_text_lines. }
  rewrite Parse_unified_text by (done || by apply clean_header). by rewrite !extractName_stamp.
Qed.

Lemma reports_of_applied s n p q r : AllApplied (mkResult p q (reports_of n r s) []) = true.
Proof.
  unfold AllApplied. cbn [Reports]. revert n r. induction s as [|[gap ls] s IH]; intros n r; [done|]. cbn. apply IH.
Qed.

(** A patch that applies is never taken for a reversed one. *)
Lemma policy_exact res affirmative ls ne hunks ro :
  match Reports res with rep :: _ => Outcome rep <> HunkFailed | [] => True end ->
  (forall o, Reverse o = false -> Apply ls ne o hunks = Ret res) -> Reverse (applyOpts ro) = false -> define ro = [] ->
  applyWithPolicy affirmative ls ne hunks ro false = Ret (res, false).
Proof.
  intros Hrep HA HR Hd. unfold applyWithPolicy. rewrite Hd. cbn [nonempty negb].
  rewrite !HA by done. cbn [bind]. destruct (reverse ro || force ro || batch ro); [done|]. destruct (forward ro); [done|].
  destruct (Reports res) as [|rep reps]; [done|]. by rewrite bool_decide_false.
Qed.

(** ** Properties *)

(** [C2] The round trip through a unified diff: for two different texts whose
    lines do not end in a carriage return (which patch strips, so that the
    round trip fails on others) and whose names have no tab or newline,
    compared without options that ignore differences, the output of [diff -u]
    is a patch for which patch, with any fuzz and context and whatever its
    policy for reversed patches, applies every hunk exactly where it stands and
    turns the old file into the new one, byte for byte, with or without final
    newlines. *)
Theorem diff_u_patch (stamp contextStamp : Z -> list Z) (opts : options) (sa sb : side) (ro : runOptions) (affirmative : bool) :
  diffable opts sa sb -> unified opts = true -> edStyle opts = false -> forwardEdStyle opts = false ->
  (forall time, clean (stamp time)) -> Reverse (applyOpts ro) = false -> define ro = [] ->
  exists txt hunks res,
    compareSides stamp contextStamp opts sa sb false = Ret (Result txt [] 1) /\
    Parse txt = Ret (inr [mkFile (name sa) (name sb) [] FormatUnified hunks [] [] []]) /\
    applyWithPolicy affirmative (splitFileLines (data sa)).1 (splitFileLines (data sa)).2 hunks ro false = Ret (res, false) /\
    AllApplied res = true /\ Rejects res = [] /\
    joinFileLines (RLines res) (NoFinalNewline res) = data sb.
Proof.
  intros Hdf Hu He Hf Hst HR Hdef. pose proof Hdf as [].
  destruct (compare_output stamp contextStamp opts sa sb Hdf)
    as (sa' & sb' & gs & t & Hne & Hg & _ & Et & (e & st & Ec & Hst') & Fa & Fb & La & Na & Ma & Lb & Nb & Mb).
  destruct Hst' as [-> ->]; [left; by rewrite He, Hf|]. rewrite Ec. unfold emit in Et. rewrite He, Hf, Hu in Et.
  unfold emitUnified in Et.
  destruct (unified_script sa' sb' (context opts) (length gs) 0 0 gs) as (s & tl & E & U & Hs);
    [done..|destruct gs; auto|lia|]. rewrite E in Et. cbn [bind] in Et. apply Ret_inj in Et as <-.
  assert (s <> []) as Hsn by (intros Es; by apply Hne, Hs).
  set (res := mkResult (lines sb') (flag_of (side_flagged sb')) (reports_of 0 0 s) []).
  eexists _, (hunks_of 0 0 s), res. split; [done|]. split.
  - rewrite Ma, Mb. apply stamped_Parse; try done.
    pose proof (unified_printable sa' sb' s tl U) as Hp. rewrite La, Lb in Hp. by apply Hp.
  - rewrite splitFileLines_text. split.
    + apply (policy_exact res); [by destruct s as [|[]]| |done|done]. intros o Ho. rewrite <- La.
      apply (unified_apply sa' sb' s tl); try done. by rewrite Fa, flag_of_text.
    + split; [apply reports_of_applied|]. split; [done|]. cbn [RLines NoFinalNewline res].
      rewrite joinFileLines_untext, Lb, Fb, flag_of_text, <- surjective_pairing. apply untext_text.
Qed.

(** Concrete texts. *)

Ltac texts := repeat (apply Forall_cons; split; [split; [by apply (bool_decide_unpack (10 ∉ _))|done]|]); apply Forall_nil; exact I.

Ltac diffable_text :=
  split; try done; try (by split_and!); try (cbn; lia);
  try (split; by apply (bool_decide_unpack (_ ∉ _))); try (vm_compute; texts); try (vm_compute; split; done).

Definition text_side (nm d : list Z) : side := mkSide nm d [] [] false 0.

Definition unified_options (ctx : Z) : options := Diff.mkOptions true false false false ctx false false false false [].

Lemma diff_u_patch_witness :
  let a := text_side (str! "a") (unlines [str! "x"; str! "y"; str! "z"; str! "u"]) in
  let b := text_side (str! "b") (unlines [str! "x"; str! "w"; str! "z"] ++ str! "v") in
  let ro := mkRun false false false false [] None (PatchApply.mkOptions false 2 false false) in
  exists txt hunks res,
    compareSides (fun _ => str! "now") (fun _ => []) (unified_options 1) a b false = Ret (Diff.Result txt [] 1) /\
    Parse txt = Ret (inr [mkFile (str! "a") (str! "b") [] FormatUnified hunks [] [] []]) /\
    applyWithPolicy false (splitFileLines (data a)).1 (splitFileLines (data a)).2 hunks ro false = Ret (res, false) /\
    AllApplied res = true /\ Rejects res = [] /\
    joinFileLines (RLines res) (NoFinalNewline res) = data b.
Proof.
  cbv zeta. apply (diff_u_patch (fun _ => str! "now") (fun _ => []) (unified_options 1)
    (text_side (str! "a") (unlines [str! "x"; str! "y"; str! "z"; str! "u"]))
    (text_side (str! "b") (unlines [str! "x"; str! "w"; str! "z"] ++ str! "v"))); try done.
  - diffable_text.
  - intros _. split; [by apply (bool_decide_unpack (10 ∉ _))|done].
Defined.

(** A round trip that fails: [diff -c] prints the change of one file into
    another correctly, with the default context, but the parser of [patch]
    interleaves the two blocks of the hunk wrongly and takes two context lines
    twice; with the default fuzz [patch] then indexes past the end of the very
    file the output was made from. *)
Theorem diff_c_patch_panics :
  let a := text_side (str! "a") (unlines [str! "1"; str! "2"; str! "3"; str! "4"]) in
  let b := text_side (str! "b") (unlines [str! "x"; str! "1"; str! "2"; str! "4"]) in
  let opts := Diff.mkOptions false true false false 3 false false false false [] in
  let ro := mkRun false false false false [] None (PatchApply.mkOptions false 2 false false) in
  let context := mkLine LineContext in
  let txt := unlines [str! "*** a" ++ 9 :: str! "now"; str! "--- b" ++ 9 :: str! "now"; str! "***************";
    str! "*** 1,4 ****"; str! "  1"; str! "  2"; str! "- 3"; str! "  4";
    str! "--- 1,4 ----"; str! "+ x"; str! "  1"; str! "  2"; str! "  4"] in
  compareSides (fun _ => str! "now") (fun _ => str! "now") opts a b false = Ret (Diff.Result txt [] 1) /\
  let hunk := mkHunk 0 4 0 4
    [context (str! "1") false; context (str! "2") false; mkLine LineDelete (str! "3") false;
     mkLine LineAdd (str! "x") false; context (str! "4") false; context (str! "2") false; context (str! "4") false] in
  Parse txt = Ret (inr [mkFile (str! "a") (str! "b") [] FormatContext [hunk] [] [] []]) /\
  applyWithPolicy false (splitFileLines (data a)).1 (splitFileLines (data a)).2 [hunk] ro false = Panic.
Proof. cbv zeta. split_and!; vm_compute; reflexivity. Qed.

End DiffPatch.
