(* ===== verification/DiffEd.v ===== *)
(** * diff -e and the ed mode of patch

    The script of [emitEd], with its detour around lines that are a single
    period, turns the old file into the new one when [ApplyEd] runs it. *)

From Stdlib Require Import ZArith Lia.
From stdpp Require Import base tactics list numbers gmap strings.
From S2P Require Import Prelude PatchParse PatchApply PatchParseCorrect PatchEd PatchFile Diff DiffCorrect DiffOutput DiffPatch.

Module DiffEd.
Import Patch PatchApply PatchParseCorrect PatchEd PatchFile Diff DiffCorrect DiffOutput DiffPatch.

Definition dot : list Z := str! ".".
Definition undot : list Z := str! "s/.//".

(** The lines [emitEdBlock] writes. *)
Fixpoint block (ls : list (list Z)) : list (list Z) :=
  match ls with
  | [] => [dot]
  | line :: rest =>
      if negb (str_eqb line dot) then line :: block rest
      else (str! "..") :: dot :: undot :: match rest with [] => [] | _ => (str! "a") :: block rest end
  end.

Lemma emitEdBlock_lines ls : emitEdBlock ls = unlines (block ls).
Proof.
  induction ls as [|l ls IH]; [done|]. cbn [emitEdBlock block]. change (str! ".") with dot.
  destruct (str_eqb l dot); cbn [negb].
  - rewrite !unlines_cons. destruct ls as [|l' ls]; [done|]. rewrite unlines_cons, IH. done.
  - by rewrite unlines_cons, IH.
Qed.

(** The first period of a text. *)
Lemma split_dot ls :
  Forall (fun l => l <> dot) ls \/ exists p r, ls = p ++ dot :: r /\ Forall (fun l => l <> dot) p.
Proof.
  induction ls as [|l ls IH]; [by left|]. destruct (decide (l = dot)) as [->|Hl]; [right; by exists [], ls|].
  destruct IH as [IH|(p & r & -> & Hp)]; [left; by constructor|]. right. exists (l :: p), r. split; [done|by constructor].
Qed.

Lemma block_nodot ls : Forall (fun l => l <> dot) ls -> block ls = ls ++ [dot].
Proof. induction 1 as [|l ls Hl _ IH]; [done|]. cbn [block]. apply str_eqb_neq in Hl. rewrite Hl. cbn. by rewrite IH. Qed.

Lemma block_dot p r :
  Forall (fun l => l <> dot) p ->
  block (p ++ dot :: r) = (p ++ [str! ".."]) ++ dot :: undot :: match r with [] => [] | _ => (str! "a") :: block r end.
Proof.
  induction 1 as [|l p Hl _ IH]; [done|]. cbn [block app]. apply str_eqb_neq in Hl. rewrite Hl. cbn [negb]. by rewrite IH.
Qed.

Definition text_ok (ls : list (list Z)) : Prop := Forall clean ls.

Lemma ed_text_lines t rest :
  Forall clean t -> Forall (fun l => l <> dot) t -> ed_text (t ++ dot :: rest) = Some (t, rest).
Proof. intros H1 H2. apply ed_text_app. apply Forall_and. by split. Qed.

Lemma dots_clean : clean (str! "..").
Proof. apply plain_clean. plain_lit. Qed.

(** A command that puts a text between [A] and [B]. *)
Definition puts (cmd : list Z) (st : editing) (A B : list (list Z)) : Prop :=
  forall f phys text rest, text <> [] -> ed_text phys = Some (text, rest) ->
    exists st', ed_run (S f) [] st (cmd :: phys) = ed_run f [] st' rest /\
      elines st' = A ++ text ++ B /\ current st' = len A + len text /\ enoEOL st' = false /\ erejects st' = erejects st.

(** An append without an address puts its text after the current line. *)
Lemma puts_append st A B :
  elines st = A ++ B -> current st = len A -> enoEOL st = false -> puts (str! "a") st A B.
Proof.
  intros El Ec En f phys text rest Hne Ht. cbn [ed_run]. change (trim_suffix_byte 13 (str! "a")) with (str! "a").
  change (str_eqb (str! "a") (str! "s/.//")) with false. change (edCommandRE (str! "a")) with (Some ([] : list Z, [] : list Z, ch! "a")).
  cbn [nonempty]. rewrite Ec. pose proof (len_nonneg A). pose proof (len_nonneg B).
  rewrite (proj2 (Z.ltb_ge (len A) 0)), (proj2 (Z.ltb_ge (len A) (len A))) by lia. cbn [orb].
  change (has_text (ch! "a")) with true. rewrite Ht. unfold ed_command. cbn [nonempty]. change (ch! "a" =? ch! "a") with true.
  rewrite El, En, len_app. rewrite (proj2 (Z.ltb_ge _ _)) by lia.
  pose proof (splice_mid A [] text B) as HS. cbn [app] in HS. change (len []) with 0 in HS. rewrite Z.add_0_r in HS. rewrite HS.
  cbn [bind]. eexists. split; [done|]. cbn. split_and!; [done|done|by destruct (_ =? _)|done].
Qed.

(** The lone period, and what is left of the block. *)
Lemma undot_run f st A p B rest :
  elines st = A ++ (p ++ [str! ".."]) ++ B -> current st = len A + len (p ++ [str! ".."]) -> enoEOL st = false ->
  exists st', ed_run (S f) [] st (undot :: rest) = ed_run f [] st' rest /\
    elines st' = (A ++ p ++ [dot]) ++ B /\ current st' = len (A ++ p ++ [dot]) /\ enoEOL st' = false /\ erejects st' = erejects st.
Proof.
  intros El Ec En. cbn [ed_run]. change (trim_suffix_byte 13 undot) with undot. change (str_eqb undot (str! "s/.//")) with true.
  unfold ed_undot. rewrite El, Ec. pose proof (len_nonneg A). pose proof (len_nonneg p). pose proof (len_nonneg B).
  assert (len (p ++ [str! ".."]) = len p + 1) as Lp by (by rewrite len_app).
  assert (len (A ++ (p ++ [str! ".."]) ++ B) = len A + (len p + 1) + len B) as Lt by (rewrite !len_app in *; lia). rewrite Lt, Lp.
  rewrite (proj2 (Z.ltb_ge _ 1)), (proj2 (Z.ltb_ge _ _)) by lia. cbn [orb].
  assert (A ++ (p ++ [str! ".."]) ++ B = (A ++ p) ++ (str! "..") :: B) as -> by (by rewrite <- !app_assoc).
  replace (len A + (len p + 1) - 1) with (len (A ++ p)) by (rewrite len_app; lia).
  rewrite index_app_r. cbn [bind]. eexists. split; [done|]. cbn [elines current enoEOL erejects].
  split_and!; [|rewrite !len_app; unfold len; cbn; lia|done|done].
  unfold len. rewrite Nat2Z.id, insert_app_r_alt, Nat.sub_diag by lia. by rewrite <- !app_assoc.
Qed.

(** A command with its block puts the whole text. *)
Lemma block_run n : forall cmd st A B ls fuel k rest,
  (length ls <= n)%nat -> ls <> [] -> Forall clean ls -> puts cmd st A B -> (S (length (block ls)) + k <= fuel)%nat ->
  exists st' fuel', (k <= fuel')%nat /\ ed_run fuel [] st (cmd :: block ls ++ rest) = ed_run fuel' [] st' rest /\
    elines st' = A ++ ls ++ B /\ enoEOL st' = false /\ erejects st' = erejects st.
Proof.
  induction n as [|n IH]; intros cmd st A B ls fuel k rest Hn Hne Hc Hp Hf; [by destruct ls; [|cbn in Hn; lia]|].
  destruct fuel as [|f]; [lia|]. destruct (split_dot ls) as [Hd|(p & r & -> & Hd)].
  - rewrite block_nodot in * by done. rewrite <- app_assoc.
    destruct (Hp f (ls ++ dot :: rest) ls rest Hne) as (st' & E & ? & _ & ? & ?); [by apply ed_text_lines|].
    exists st', f. rewrite length_app in Hf. split; [lia|]. done.
  - apply Forall_app in Hc as [Hcp Hcr]. apply Forall_cons in Hcr as [_ Hcr].
    rewrite block_dot in * by done. rewrite length_app in Hf. cbn [length] in Hf.
    set (tail := match r with [] => [] | _ => (str! "a") :: block r end) in *.
    assert ((((p ++ [str! ".."]) ++ dot :: undot :: tail) ++ rest) = (p ++ [str! ".."]) ++ dot :: (undot :: tail ++ rest)) as ->
      by (by rewrite <- !app_assoc).
    destruct (Hp f ((p ++ [str! ".."]) ++ dot :: undot :: tail ++ rest) (p ++ [str! ".."]) (undot :: tail ++ rest))
      as (st1 & -> & El1 & Ec1 & En1 & Er1).
    { by destruct p. }
    { apply ed_text_lines; apply Forall_app; (split; [done|]); constructor; (done || apply dots_clean). }
    destruct f as [|f]; [cbn in Hf; lia|].
    destruct (undot_run f st1 A p B (tail ++ rest) El1 Ec1 En1) as (st2 & -> & El2 & Ec2 & En2 & Er2).
    unfold tail in *. destruct r as [|l r].
    + exists st2, f. split; [cbn in Hf; lia|]. cbn [app]. split; [done|]. rewrite El2. split_and!; [by rewrite <- !app_assoc|done|congruence].
    + cbn [app]. destruct (IH (str! "a") st2 (A ++ p ++ [dot]) B (l :: r) f k rest) as (st3 & f3 & Hk & E3 & El3 & En3 & Er3).
      * rewrite length_app in Hn. cbn in Hn |- *. lia.
      * done.
      * done.
      * by apply puts_append.
      * cbn [length] in Hf. lia.
      * exists st3, f3. split; [done|]. split; [exact E3|]. rewrite El3. split_and!; [by rewrite <- !app_assoc|done|congruence].
Qed.

(** ** Commands with addresses *)

Lemma normalRange_ed start count : 1 <= count -> normalRange start count = ed_range (start + 1) (start + count).
Proof.
  intros. unfold normalRange, ed_range. destruct (Z.eqb_spec count 1), (Z.eqb_spec (start + 1) (start + count)); (done || lia).
Qed.

Lemma itoa_ed start : itoa start = ed_range start start.
Proof. unfold ed_range. by rewrite Z.eqb_refl. Qed.

Lemma puts_after st A B :
  elines st = A ++ B -> enoEOL st = false -> len A <= max_int -> puts (itoa (len A) ++ str! "a") st A B.
Proof.
  intros El En Hm f phys text rest Hne Ht. pose proof (len_nonneg A). pose proof (len_nonneg B). rewrite itoa_ed.
  rewrite (ed_run_round f st (len A) (len A) (ch! "a") text phys rest) by (done || lia).
  unfold ed_command. cbn [nonempty]. change (ch! "a" =? ch! "a") with true.
  rewrite El, En, len_app. rewrite (proj2 (Z.ltb_ge _ _)) by lia.
  pose proof (splice_mid A [] text B) as HS. cbn [app] in HS. change (len []) with 0 in HS. rewrite Z.add_0_r in HS. rewrite HS.
  cbn [bind]. eexists. split; [done|]. cbn. split_and!; [done|done|by destruct (_ =? _)|done].
Qed.

Lemma puts_change st A ds B :
  elines st = A ++ ds ++ B -> enoEOL st = false -> 1 <= len ds -> len A + len ds <= max_int ->
  puts (normalRange (len A) (len ds) ++ str! "c") st A B.
Proof.
  intros El En Hd Hm f phys text rest Hne Ht. pose proof (len_nonneg A). pose proof (len_nonneg B). rewrite normalRange_ed by lia.
  rewrite (ed_run_round f st _ _ (ch! "c") text phys rest) by (done || lia).
  unfold ed_command. cbn [nonempty Z.eqb Pos.eqb].
  destruct (Z.eqb_spec (len A + 1) 0); [lia|]. rewrite El, En, !len_app.
  rewrite (proj2 (Z.ltb_ge (len A + 1) 1)), (proj2 (Z.ltb_ge _ (len A + len ds))) by lia. cbn [orb].
  rewrite slice_Ret by (rewrite ?len_app; lia). cbn [bind]. replace (len A + 1 - 1) with (len A) by lia.
  rewrite splice_mid. cbn [bind]. eexists. split; [done|]. cbn. split_and!; [done|done|by destruct (_ =? _)|done].
Qed.

Lemma delete_run f st A ds B rest :
  elines st = A ++ ds ++ B -> enoEOL st = false -> 1 <= len ds -> len A + len ds <= max_int ->
  exists st', ed_run (S f) [] st ((normalRange (len A) (len ds) ++ str! "d") :: rest) = ed_run f [] st' rest /\
    elines st' = A ++ B /\ enoEOL st' = false /\ erejects st' = erejects st.
Proof.
  intros El En Hd Hm. pose proof (len_nonneg A). pose proof (len_nonneg B). rewrite normalRange_ed by lia.
  rewrite (ed_run_round f st _ _ (ch! "d") [] rest rest) by (done || lia).
  unfold ed_command. cbn [nonempty Z.eqb Pos.eqb]. rewrite El, En, !len_app.
  rewrite (proj2 (Z.ltb_ge (len A + 1) 1)), (proj2 (Z.ltb_ge _ (len A + len ds))) by lia. cbn [orb].
  rewrite slice_Ret by (rewrite ?len_app; lia). cbn [bind]. replace (len A + 1 - 1) with (len A) by lia.
  pose proof (splice_mid A ds [] B) as HS. cbn [app] in HS. rewrite HS. cbn [bind].
  eexists. split; [done|]. cbn. split_and!; [done|by destruct (_ =? _)|done].
Qed.

(** ** The script *)

Definition ed_group (lb : list (list Z)) (g : group) : list (list Z) :=
  let da := a1 g - a0 g in
  let db := b1 g - b0 g in
  if (0 <? da) && (0 <? db) then (normalRange (a0 g) da ++ str! "c") :: block (sub (b0 g) (b1 g) lb)
  else if 0 <? da then [normalRange (a0 g) da ++ str! "d"]
  else (itoa (a0 g) ++ str! "a") :: block (sub (b0 g) (b1 g) lb).

Fixpoint ed_groups (lb : list (list Z)) (gs : list group) : list (list Z) :=
  match gs with
  | [] => []
  | g :: gs' => ed_groups lb gs' ++ ed_group lb g
  end.

Lemma emitEd_lines (la : list (list Z)) sb i j gs :
  groups la (lines sb) i j gs -> emitEd sb gs = Ret (unlines (ed_groups (lines sb) gs)).
Proof.
  revert i j. induction gs as [|g gs IH]; intros i j Hg; [done|]. cbn [groups] in Hg. destruct Hg as (? & ? & ? & ? & _ & _ & Hg).
  cbn [emitEd ed_groups]. rewrite (IH _ _ Hg). cbn [bind]. rewrite unlines_app. unfold emitEdGroup, ed_group.
  rewrite slice_Ret by lia. destruct (_ && _), (0 <? a1 g - a0 g); cbn [bind]; rewrite ?unlines_cons, ?emitEdBlock_lines;
    rewrite <- ?app_assoc; done.
Qed.

Lemma ed_group_run lb g A ds B st fuel k rest :
  elines st = A ++ ds ++ B -> enoEOL st = false -> len A = a0 g -> len ds = a1 g - a0 g ->
  0 <= b0 g <= b1 g -> b1 g <= len lb -> (a0 g < a1 g \/ b0 g < b1 g) -> a1 g <= max_int ->
  Forall clean (sub (b0 g) (b1 g) lb) -> (length (ed_group lb g) + k <= fuel)%nat ->
  exists st' fuel', (k <= fuel')%nat /\ ed_run fuel [] st (ed_group lb g ++ rest) = ed_run fuel' [] st' rest /\
    elines st' = A ++ sub (b0 g) (b1 g) lb ++ B /\ enoEOL st' = false /\ erejects st' = erejects st.
Proof.
  intros El En HA Hd Hb Hb' Hne Hm Hc Hf. unfold ed_group in *. rewrite <- Hd, <- HA in *. pose proof (len_nonneg ds).
  assert (len (sub (b0 g) (b1 g) lb) = b1 g - b0 g) as Ls by (apply len_sub; lia).
  assert (0 < b1 g - b0 g -> sub (b0 g) (b1 g) lb <> []) as Hsn.
  { intros ? E. rewrite E in Ls. change (len []) with 0 in Ls. lia. }
  destruct (Z.ltb_spec 0 (len ds)) as [Hds|Hds]; [destruct (Z.ltb_spec 0 (b1 g - b0 g)) as [Hdb|Hdb]|]; cbn [andb app] in *.
  - apply (block_run (length (sub (b0 g) (b1 g) lb))); [done|auto|done|apply (puts_change st A ds B); (done || lia)|cbn in Hf; lia].
  - destruct fuel as [|f]; [cbn in Hf; lia|].
    destruct (delete_run f st A ds B rest) as (st' & E & El' & En' & Er'); [done|done|lia|lia|].
    exists st', f. split; [cbn in Hf; lia|]. split; [exact E|]. rewrite El'. replace (b1 g) with (b0 g) by lia. by rewrite sub_nil.
  - assert (ds = []) as -> by (destruct ds; [done|rewrite len_cons in Hds; pose proof (len_nonneg ds); lia]).
    apply (block_run (length (sub (b0 g) (b1 g) lb))); [done|apply Hsn; change (len []) with 0 in *; lia|done|
      apply (puts_after st A B); (done || lia)|cbn in Hf; lia].
Qed.

Lemma ed_groups_run la lb gs : forall i j st fuel k rest,
  groups la lb i j gs -> len la <= max_int -> Forall clean lb -> elines st = la -> enoEOL st = false ->
  (length (ed_groups lb gs) + k <= fuel)%nat ->
  exists st' fuel', (k <= fuel')%nat /\ ed_run fuel [] st (ed_groups lb gs ++ rest) = ed_run fuel' [] st' rest /\
    elines st' = sub 0 i la ++ sub j (len lb) lb /\ enoEOL st' = false /\ erejects st' = erejects st.
Proof.
  induction gs as [|g gs IH]; intros i j st fuel k rest Hg Hm Hc El En Hf; cbn [ed_groups app] in *.
  - cbn [groups] in Hg. destruct Hg as (? & ? & E). exists st, fuel. cbn in Hf. split; [lia|]. split; [done|].
    rewrite <- E, <- sub_cut by lia. done.
  - cbn [groups] in Hg. destruct Hg as (? & ? & ? & ? & Hne & E & Hg). rewrite length_app in Hf. rewrite <- app_assoc.
    destruct (IH (a1 g) (b1 g) st fuel (length (ed_group lb g) + k)%nat (ed_group lb g ++ rest) Hg)
      as (st1 & f1 & Hf1 & -> & El1 & En1 & Er1); [done..|lia|].
    destruct (ed_group_run lb g (sub 0 (a0 g) la) (sub (a0 g) (a1 g) la) (sub (b1 g) (len lb) lb) st1 f1 k rest)
      as (st2 & f2 & Hf2 & -> & El2 & En2 & Er2); try done; try lia.
    + rewrite El1, app_assoc. by rewrite sub_app by lia.
    + rewrite len_sub by lia. lia.
    + rewrite len_sub by lia. lia.
    + by apply Forall_take, Forall_drop.
    + exists st2, f2. split; [done|]. split; [done|]. rewrite El2. split_and!; [|done|congruence].
      rewrite (sub_app lb (b0 g) (b1 g)) by lia. rewrite <- (sub_app la 0 i (a0 g)) by lia. rewrite E, <- app_assoc.
      by rewrite sub_app by lia.
Qed.

Lemma block_no_newline ls : Forall clean ls -> Forall (fun l => 10 ∉ l) (block ls).
Proof.
  assert (Forall (fun l : list Z => 10 ∉ l) [str! ".."; dot; undot; str! "a"]) as Hfix.
  { repeat (apply Forall_cons; split; [by apply (bool_decide_unpack (10 ∉ _))|]). apply Forall_nil. exact I. }
  rewrite !Forall_cons in Hfix. destruct Hfix as (? & ? & ? & ? & _).
  induction 1 as [|l ls [Hl _] _ IH]; cbn [block]; [by constructor|].
  destruct (str_eqb l dot); cbn [negb]; [|by constructor]. repeat (constructor; [done|]). destruct ls; by constructor.
Qed.

Lemma itoa_no_newline n : 0 <= n -> 10 ∉ itoa n.
Proof. intros Hn Hin. pose proof (itoa_plain n Hn) as Hf. rewrite Forall_forall in Hf. by apply Hf in Hin as [? _]. Qed.

Lemma range_no_newline start count op : 0 <= start -> 0 <= count -> op <> 10 -> 10 ∉ normalRange start count ++ [op].
Proof.
  intros ?? Hop. unfold normalRange. pose proof (itoa_no_newline (start + 1) ltac:(lia)). pose proof (itoa_no_newline (start + count) ltac:(lia)).
  destruct (count =? 1); rewrite !elem_of_app, ?list_elem_of_singleton; naive_solver.
Qed.

Lemma ed_groups_no_newline la lb i j gs :
  groups (A := list Z) la lb i j gs -> Forall clean lb -> Forall (fun l => 10 ∉ l) (ed_groups lb gs).
Proof.
  intros Hg Hc. destruct (groups_bounds _ _ _ _ _ Hg) as (_ & _ & Hf). clear Hg.
  induction Hf as [|g gs Hg _ IH]; [constructor|]. cbn [ed_groups]. apply Forall_app. split; [done|].
  assert (Forall (fun l => 10 ∉ l) (block (sub (b0 g) (b1 g) lb))) by (by apply block_no_newline, Forall_take, Forall_drop).
  unfold ed_group. destruct (_ && _), (0 <? a1 g - a0 g); (constructor; [|done || constructor]);
    try (by apply range_no_newline; lia). all: rewrite elem_of_app, list_elem_of_singleton; pose proof (itoa_no_newline (a0 g)); naive_solver lia.
Qed.

Lemma bytesToLines_text d : bytesToLines d = text_of d.
Proof. rewrite <- splitFileLines_text. unfold bytesToLines, splitFileLines. destruct d; [done|]. by destruct (has_suffix_byte 10 _). Qed.

(** ** Properties *)

(** [C19] The round trip through an ed script: for two different texts whose
    last lines end in a newline and whose lines do not end in a carriage return
    (which patch strips, [crlf_not_patched]), compared without options that
    ignore differences, the output of [diff -e] makes the ed mode of patch turn
    the old file into the new one without a reject, also when lines to insert
    are a single period. *)
Theorem diff_e_patch (stamp contextStamp : Z -> list Z) (opts : options) (sa sb : side) :
  diffable opts sa sb -> edStyle opts = true ->
  (text_of (data sa)).2 = false -> (text_of (data sb)).2 = false ->
  exists txt, compareSides stamp contextStamp opts sa sb false = Ret (Result txt [] 1) /\
    ApplyEd (data sa) txt = Ret (inr (data sb, None)).
Proof.
  intros Hdf He Ha Hb. pose proof Hdf as [].
  destruct (compare_output stamp contextStamp opts sa sb Hdf)
    as (sa' & sb' & gs & t & Hne & Hg & _ & Et & (e & st & Ec & Hst) & _ & _ & La & Na & _ & Lb & Nb & _).
  destruct Hst as [-> ->]; [right; by rewrite Na, Nb, Ha, Hb|]. exists t. split; [done|].
  assert (groups (lines sa') (lines sb') 0 0 gs) as Hgt.
  { assert (forall s, Forall2 (fun (x : list Z * bool) l => l = x.1) (side_flagged s) (lines s)) as Hf.
    { intros s. unfold side_flagged. rewrite <- (flagged_texts (noEOL s) (lines s)) at 2.
      induction (flagged (noEOL s) (lines s)); constructor; auto. }
    eapply groups_transfer; [|apply Hf|apply Hf|done]. cbn. congruence. }
  unfold emit in Et. rewrite He, (emitEd_lines _ _ _ _ _ Hgt) in Et. apply Ret_inj in Et as <-.
  pose proof (ed_groups_no_newline _ _ _ _ _ Hgt) as Hnl. rewrite Lb in Hnl. specialize (Hnl df_clean_b0). rewrite <- Lb in Hnl.
  destruct (ed_groups_run (lines sa') (lines sb') gs 0 0 (Editing (lines sa') false 0 [] false)
    (length (ed_groups (lines sb') gs)) 0 []) as (st' & f' & _ & Er & El & En & Ej); try done; try lia.
  { rewrite La. lia. }
  { by rewrite Lb. }
  rewrite app_nil_r in Er. rewrite sub_nil, sub_all in El by lia. cbn in El. rewrite drop_0 in El.
  unfold ApplyEd, applyEd. destruct (ed_groups (lines sb') gs) as [|l ls] eqn:E.
  { exfalso. destruct gs as [|g gs]; [done|]. cbn in E. apply app_eq_nil in E as [_ E]. unfold ed_group in E.
    by destruct (_ && _), (0 <? a1 g - a0 g). }
  destruct (unlines (l :: ls)) eqn:Eu; [destruct (unlines_last l ls) as [x Ex]; rewrite Eu in Ex; by destruct x|].
  rewrite <- Eu, bytesToLines_text, (script_physical _ _ Hnl). destruct (text_of (data sa)) as [la na] eqn:Eta. cbn [fst snd] in *.
  subst na la. rewrite Er. assert (ed_run f' [] st' [] = Ret (inr st')) as -> by (by destruct f'). cbn [bind].
  rewrite En, El, Ej, Lb. cbn [erejects]. do 4 f_equal. rewrite <- (untext_text (data sb)) at 2. unfold untext, linesToBytes. rewrite Hb. by destruct (text_of (data sb)).1.
Qed.

Lemma diff_e_patch_witness :
  let o := Diff.mkOptions false false true false 3 false false false false [] in
  let a := text_side (str! "a") (unlines [str! "x"; str! "y"; str! "z"]) in
  let b := text_side (str! "b") (unlines [str! "x"; str! "."; str! "w"; str! "z"]) in
  exists txt, compareSides (fun _ => []) (fun _ => []) o a b false = Ret (Result txt [] 1) /\
    ApplyEd (data a) txt = Ret (inr (data b, None)).
Proof.
  cbv zeta. apply (diff_e_patch (fun _ => []) (fun _ => []) (Diff.mkOptions false false true false 3 false false false false [])
    (text_side (str! "a") (unlines [str! "x"; str! "y"; str! "z"]))
    (text_side (str! "b") (unlines [str! "x"; str! "."; str! "w"; str! "z"]))); try done. diffable_text.
Defined.

(** ** Carriage returns

    The parser of patch and its ed interpreter strip a carriage return at the
    end of every line of a patch, also of the lines of the files in it: of two
    texts with lines that end in one, the unified diff is rejected by the file
    it was made from, and the ed script writes the new lines without it. *)
Theorem crlf_not_patched :
  let text l := unlines (map (fun x => x ++ [13]) l) in
  let a := text_side (str! "a") (text [str! "x"; str! "y"]) in
  let b := text_side (str! "b") (text [str! "x"; str! "z"]) in
  let ro := mkRun false false false false [] None (PatchApply.mkOptions false 2 false false) in
  let script := Diff.mkOptions false false true false 3 false false false false [] in
  let cr := [13] in
  let patch := unlines [str! "--- a" ++ 9 :: str! "now"; str! "+++ b" ++ 9 :: str! "now"; str! "@@ -1,2 +1,2 @@";
    str! " x" ++ cr; str! "-y" ++ cr; str! "+z" ++ cr] in
  let hunk := mkHunk 0 2 0 2 [mkLine LineContext (str! "x") false; mkLine LineDelete (str! "y") false; mkLine LineAdd (str! "z") false] in
  let commands := unlines [str! "2c"; str! "z" ++ cr; str! "."] in
  compareSides (fun _ => str! "now") (fun _ => []) (unified_options 3) a b false = Ret (Diff.Result patch [] 1) /\
  Parse patch = Ret (inr [mkFile (str! "a") (str! "b") [] FormatUnified [hunk] [] [] []]) /\
  match applyWithPolicy false (splitFileLines (data a)).1 (splitFileLines (data a)).2 [hunk] ro false with
  | Ret (res, _) => Rejects res = [hunk] /\ joinFileLines (RLines res) (NoFinalNewline res) = data a
  | _ => False
  end /\
  compareSides (fun _ => []) (fun _ => []) script a b false = Ret (Diff.Result commands [] 1) /\
  ApplyEd (data a) commands = Ret (inr (str! "x" ++ [13; 10] ++ str! "z" ++ [10], None)).
Proof. cbv zeta. split_and!; vm_compute; repeat split; reflexivity. Qed.

End DiffEd.
