(* ===== verification/SortOrder.v ===== *)
(** * Comparison functions and stable sorting

    What the commands of the text-sorting family rely on: comparison
    functions in the sense of the Go package slices (negative, zero or
    positive), the strict weak orders that package asks for, the stable sort
    as the reference for every sorting routine, and the fact that a stable
    sort has one result. Nothing here is particular to one command. *)

From Stdlib Require Import ZArith Lia QArith Lqa.
From stdpp Require Import base tactics list numbers sorting.
From S2P Require Import Prelude.

Open Scope Z_scope.

(** ** Comparison functions *)

(** [strings.Compare]: the lexicographic order of bytes. *)
Fixpoint Compare (a b : list Z) : Z :=
  match a, b with
  | [], [] => 0
  | [], _ :: _ => -1
  | _ :: _, [] => 1
  | x :: a', y :: b' => if x <? y then -1 else if y <? x then 1 else Compare a' b'
  end.

(** The number of a [comparison], as [cmp.Compare] returns it. *)
Definition cmp_sign (c : comparison) : Z :=
  match c with Lt => -1 | Eq => 0 | Gt => 1 end.

(** A strict weak order on the elements of [D], which is what
    [slices.SortFunc] and [slices.SortStableFunc] ask of their argument. *)
Class CmpOrder {A} (D : A -> Prop) (cmp : A -> A -> Z) : Prop := {
  cmp_flip a b : D a -> D b -> Z.sgn (cmp b a) = - Z.sgn (cmp a b);
  cmp_trans a b c : D a -> D b -> D c -> cmp a b <= 0 -> cmp b c <= 0 -> cmp a c <= 0;
}.

(** Lists that are in order, and the elements of a list that compare equal
    to [x], in the order of the list. *)
Definition in_order {A} (cmp : A -> A -> Z) : list A -> Prop :=
  StronglySorted (fun a b => cmp a b <= 0).

Definition ties {A} (cmp : A -> A -> Z) (x : A) (l : list A) : list A :=
  List.filter (fun y => cmp x y =? 0) l.

(** [l'] is the stable sort of [l]: it is in order, and elements that compare
    equal are in it as they are in [l]. *)
Definition stable_sort_of {A} (D : A -> Prop) (cmp : A -> A -> Z) (l' l : list A) : Prop :=
  Forall D l' /\ in_order cmp l' /\ (forall x, D x -> ties cmp x l' = ties cmp x l).

(** ** The reference sort

    [slices.SortStableFunc]: "sorts the slice x while keeping the original
    order of equal elements". *)

Fixpoint insert_sorted {A} (cmp : A -> A -> Z) (x : A) (l : list A) : list A :=
  match l with
  | [] => [x]
  | y :: l' => if cmp x y <=? 0 then x :: l else y :: insert_sorted cmp x l'
  end.

Fixpoint SortStableFunc {A} (cmp : A -> A -> Z) (l : list A) : list A :=
  match l with
  | [] => []
  | x :: l' => insert_sorted cmp x (SortStableFunc cmp l')
  end.

(** [slices.SortFunc]: in ascending order as determined by [cmp]; "this sort
    is not guaranteed to be stable". The routine itself is not named by the
    documentation, so it is a parameter with this law. *)
Class SortFunc (sort : forall A, (A -> A -> Z) -> list A -> list A) : Prop := {
  SortFunc_permutes A cmp l : sort A cmp l ≡ₚ l;
  SortFunc_sorts A D cmp l : CmpOrder D cmp -> Forall D l -> in_order cmp (sort A cmp l);
}.

(** ** Orders *)

Section order.
Context {A : Type} (D : A -> Prop) (cmp : A -> A -> Z) `{!CmpOrder D cmp}.

Lemma cmp_refl a : D a -> cmp a a = 0.
Proof using All. intros Ha. pose proof (cmp_flip a a Ha Ha). lia. Qed.

Lemma cmp_total a b : D a -> D b -> cmp a b <= 0 \/ cmp b a <= 0.
Proof using All. intros Ha Hb. pose proof (cmp_flip a b Ha Hb). lia. Qed.

Lemma cmp_antisym a b : D a -> D b -> cmp a b <= 0 -> cmp b a <= 0 -> cmp a b = 0.
Proof using All. intros Ha Hb. pose proof (cmp_flip a b Ha Hb). lia. Qed.

Lemma cmp_zero_sym a b : D a -> D b -> cmp a b = 0 -> cmp b a = 0.
Proof using All. intros Ha Hb. pose proof (cmp_flip a b Ha Hb). lia. Qed.

Lemma cmp_zero_trans a b c : D a -> D b -> D c -> cmp a b = 0 -> cmp b c = 0 -> cmp a c = 0.
Proof using All.
  intros Ha Hb Hc Hab Hbc. pose proof (cmp_zero_sym a b Ha Hb Hab). pose proof (cmp_zero_sym b c Hb Hc Hbc).
  apply cmp_antisym; try done; apply (cmp_trans _ b); done || lia.
Qed.

(** A comparison with [x] is one with anything that ties with [x]. *)
Lemma cmp_zero_ties x y z : D x -> D y -> D z -> cmp x y = 0 -> (cmp x z = 0 <-> cmp y z = 0).
Proof using All.
  intros Hx Hy Hz E. pose proof (cmp_zero_sym x y Hx Hy E).
  split; intros; [apply (cmp_zero_trans y x z)|apply (cmp_zero_trans x y z)]; done.
Qed.

Lemma ties_refl x l : D x -> ties cmp x (x :: l) = x :: ties cmp x l.
Proof using All. intros Hx. unfold ties. cbn. by rewrite cmp_refl. Qed.

Lemma elem_of_ties x y l : y ∈ ties cmp x l <-> y ∈ l /\ cmp x y = 0.
Proof using Type.
  clear. unfold ties. rewrite !list_elem_of_In, List.filter_In. by rewrite Z.eqb_eq.
Qed.

Lemma ties_app x l1 l2 : ties cmp x (l1 ++ l2) = ties cmp x l1 ++ ties cmp x l2.
Proof using Type. clear. apply List.filter_app. Qed.

(** A stable sort has one result. *)
Lemma stable_unique l1 l2 l :
  stable_sort_of D cmp l1 l -> stable_sort_of D cmp l2 l -> l1 = l2.
Proof using All.
  intros (D1 & S1 & E1) (D2 & S2 & E2).
  assert (E : forall x, D x -> ties cmp x l1 = ties cmp x l2) by (intros; by rewrite E1, E2).
  clear E1 E2 l. revert l2 D2 S2 E.
  induction l1 as [|x l1 IH]; intros [|y l2] D2 S2 E; [done|..].
  - apply Forall_cons in D2 as [Hy _]. specialize (E y Hy). by rewrite ties_refl in E by done.
  - apply Forall_cons in D1 as [Hx _]. specialize (E x Hx). by rewrite ties_refl in E by done.
  - apply Forall_cons in D1 as [Hx D1]. apply Forall_cons in D2 as [Hy D2].
    apply StronglySorted_cons in S1 as [F1 S1]. apply StronglySorted_cons in S2 as [F2 S2].
    rewrite Forall_forall in F1, F2.
    assert (Hyx : cmp y x <= 0).
    { assert (Hin : x ∈ ties cmp x (x :: l1)) by (rewrite ties_refl by done; left).
      rewrite E in Hin by done. apply elem_of_ties in Hin as [Hin _].
      apply elem_of_cons in Hin as [->|Hin]; [rewrite cmp_refl by done; lia | by apply F2]. }
    assert (Hxy : cmp x y <= 0).
    { assert (Hin : y ∈ ties cmp y (y :: l2)) by (rewrite ties_refl by done; left).
      rewrite <- E in Hin by done. apply elem_of_ties in Hin as [Hin _].
      apply elem_of_cons in Hin as [->|Hin]; [rewrite cmp_refl by done; lia | by apply F1]. }
    assert (Hz : cmp x y = 0) by (by apply cmp_antisym).
    assert (x = y) as <-.
    { specialize (E x Hx). rewrite ties_refl in E by done. unfold ties in E. cbn in E.
      rewrite Hz in E. cbn in E. congruence. }
    f_equal. apply IH; try done.
    intros z Dz. specialize (E z Dz). unfold ties in E |- *. cbn in E.
    destruct (cmp z x =? 0); congruence.
Qed.

(** ** The reference sort is the stable sort *)

Lemma insert_sorted_perm x l : insert_sorted cmp x l ≡ₚ x :: l.
Proof using Type.
  clear. induction l as [|y l IH]; cbn; [done|]. destruct (_ <=? _); [done|].
  rewrite IH. apply Permutation_swap.
Qed.

Lemma SortStableFunc_perm l : SortStableFunc cmp l ≡ₚ l.
Proof using Type.
  clear. induction l as [|x l IH]; cbn; [done|]. by rewrite insert_sorted_perm, IH.
Qed.

Lemma insert_sorted_order x l :
  D x -> Forall D l -> in_order cmp l -> in_order cmp (insert_sorted cmp x l).
Proof using All.
  intros Hx Hl. unfold in_order. induction l as [|y l IH]; cbn; intros S; [repeat constructor|].
  apply Forall_cons in Hl as [Hy Hl]. apply StronglySorted_cons in S as [F S].
  destruct (cmp x y <=? 0) eqn:E; to_prop.
  - constructor; [by constructor|]. constructor; [done|].
    rewrite Forall_forall in F, Hl |- *. intros z Hz. apply (cmp_trans _ y); auto.
  - apply StronglySorted_cons. split; [|by apply IH].
    assert (cmp y x <= 0) by (destruct (cmp_total x y); lia || done).
    rewrite Forall_forall in F |- *. intros z Hz. rewrite insert_sorted_perm in Hz.
    apply elem_of_cons in Hz as [->|Hz]; auto.
Qed.

Lemma insert_sorted_ties z x l :
  D z -> D x -> Forall D l -> ties cmp z (insert_sorted cmp x l) = ties cmp z (x :: l).
Proof using All.
  intros Hz Hx. induction l as [|y l IH]; intros Hl; cbn [insert_sorted]; [done|].
  apply Forall_cons in Hl as [Hy Hl].
  destruct (cmp x y <=? 0) eqn:E; [done|]. to_prop. unfold ties in *. cbn in *. rewrite IH by done.
  destruct (cmp z y =? 0) eqn:E1, (cmp z x =? 0) eqn:E2; try done. exfalso. to_prop.
  apply cmp_zero_sym in E2; try done. pose proof (cmp_zero_trans x z y Hx Hz Hy E2 E1). lia.
Qed.

Lemma SortStableFunc_stable l : Forall D l -> stable_sort_of D cmp (SortStableFunc cmp l) l.
Proof using All.
  intros Hl. induction l as [|x l IH]; [repeat split; constructor|].
  apply Forall_cons in Hl as [Hx Hl]. destruct (IH Hl) as (Hd & Hs & Ht). cbn.
  split_and!.
  - rewrite insert_sorted_perm. by constructor.
  - by apply insert_sorted_order.
  - intros z Hz. rewrite insert_sorted_ties by done. unfold ties in *. cbn.
    destruct (cmp z x =? 0); by rewrite Ht.
Qed.

Lemma stable_is_SortStableFunc l' l :
  Forall D l -> stable_sort_of D cmp l' l -> l' = SortStableFunc cmp l.
Proof using All. intros Hl H. eapply stable_unique; [done|]. by apply SortStableFunc_stable. Qed.

(** Where ties are identical, any sorted permutation is the stable sort. *)
Lemma sorted_permutation_stable l' l :
  Forall D l -> (forall a b, D a -> D b -> cmp a b = 0 -> a = b) ->
  in_order cmp l' -> l' ≡ₚ l -> l' = SortStableFunc cmp l.
Proof using All.
  intros Hl Htot Hs Hp. destruct (SortStableFunc_stable l Hl) as (Hd & Hs' & _).
  rewrite Forall_forall in Hl, Hd.
  apply (StronglySorted_unique_strong (fun a b => cmp a b <= 0)); [|done..|].
  - intros a b Ha Hb H1 H2. rewrite Hp in Ha.
    apply Htot; auto using cmp_antisym.
  - by rewrite SortStableFunc_perm.
Qed.

(** A list in order is its own stable sort. *)
Lemma in_order_stable l : Forall D l -> in_order cmp l -> SortStableFunc cmp l = l.
Proof using All. intros Hl Hs. symmetry. apply stable_is_SortStableFunc; [done|]. by repeat split. Qed.

Lemma stable_sort_idemp l : Forall D l -> SortStableFunc cmp (SortStableFunc cmp l) = SortStableFunc cmp l.
Proof using All.
  intros Hl. destruct (SortStableFunc_stable l Hl) as (Hd & Hs & _). by apply in_order_stable.
Qed.

(** Only the order matters to the sort, not the numbers. *)
Lemma SortStableFunc_ext (c : A -> A -> Z) l :
  Forall D l -> (forall a b, D a -> D b -> (c a b <= 0 <-> cmp a b <= 0)) ->
  SortStableFunc c l = SortStableFunc cmp l.
Proof using Type.
  clear CmpOrder0. intros Hl E. induction l as [|x l IH]; [done|]. apply Forall_cons in Hl as [Hx Hl].
  cbn. rewrite IH by done. assert (Hs : Forall D (SortStableFunc cmp l)) by (by rewrite SortStableFunc_perm).
  clear IH. induction Hs as [|y k Hy Hk IHk]; [done|]. cbn.
  specialize (E x y Hx Hy). destruct (c x y <=? 0) eqn:E1, (cmp x y <=? 0) eqn:E2; to_prop; try (done || lia).
  by rewrite IHk.
Qed.

Lemma in_order_rev (c : A -> A -> Z) l :
  Forall D l -> (forall a b, D a -> D b -> cmp b a <= 0 -> c a b <= 0) -> in_order cmp l -> in_order c (rev l).
Proof using Type.
  clear CmpOrder0. intros Hl E. unfold in_order. induction l as [|x l IH]; intros S; cbn; [constructor|].
  apply Forall_cons in Hl as [Hx Hl]. apply StronglySorted_cons in S as [F S].
  apply StronglySorted_app. split_and!; [|by apply IH|repeat constructor].
  intros y z Hy Hz. apply list_elem_of_singleton in Hz as ->. rewrite list_elem_of_In, <- in_rev, <- list_elem_of_In in Hy.
  rewrite Forall_forall in F, Hl. apply E; auto.
Qed.

(** Sorting pieces first does not change the sort of the whole. *)
Lemma stable_sort_pieces ls :
  Forall (Forall D) ls ->
  SortStableFunc cmp (mjoin (SortStableFunc cmp <$> ls)) = SortStableFunc cmp (mjoin ls).
Proof using All.
  intros Hls.
  assert (Hd : forall f, (forall l, f l ≡ₚ l) -> Forall D (mjoin (f <$> ls))).
  { intros f Hf. clear -Hls Hf. induction Hls as [|l ls Hl Hls IH]; cbn; [constructor|].
    apply Forall_app. split; [by rewrite Hf|done]. }
  pose proof (Hd _ SortStableFunc_perm) as Hd1.
  pose proof (Hd id (fun _ => reflexivity _)) as Hd2. rewrite list_fmap_id in Hd2.
  apply stable_is_SortStableFunc; [done|].
  destruct (SortStableFunc_stable _ Hd1) as (H1 & H2 & H3). split_and!; [done..|].
  intros x Hx. rewrite H3 by done. clear -Hls Hx CmpOrder0.
  induction Hls as [|l ls Hl Hls IH]; cbn [mjoin list_join fmap list_fmap]; [done|]. rewrite !ties_app. f_equal; [|done].
  by apply SortStableFunc_stable.
Qed.
End order.

(** ** Building orders *)

Lemma CmpOrder_ext {A} (D : A -> Prop) (c c' : A -> A -> Z) :
  (forall a b, D a -> D b -> c' a b = c a b) -> CmpOrder D c -> CmpOrder D c'.
Proof.
  intros E H. split.
  - intros a b Ha Hb. rewrite !E by done. by apply cmp_flip.
  - intros a b x Ha Hb Hx. rewrite !E by done. by apply cmp_trans.
Qed.

Lemma CmpOrder_weaken {A} (D D' : A -> Prop) (c : A -> A -> Z) :
  (forall a, D' a -> D a) -> CmpOrder D c -> CmpOrder D' c.
Proof.
  intros E H. split.
  - intros a b Ha Hb. apply (@cmp_flip _ D c); auto.
  - intros x y z Hx Hy Hz. apply (@cmp_trans _ D c); auto.
Qed.

Lemma CmpOrder_pullback {A B} (D : A -> Prop) (D' : B -> Prop) (f : A -> B) (c : B -> B -> Z) :
  (forall a, D a -> D' (f a)) -> CmpOrder D' c -> CmpOrder D (fun a b => c (f a) (f b)).
Proof.
  intros E H. split.
  - intros a b Ha Hb. apply (@cmp_flip _ D' c); auto.
  - intros x y z Hx Hy Hz. apply (@cmp_trans _ D' c); auto.
Qed.

(** First by one order, then by another. *)
Lemma CmpOrder_lex {A} (D : A -> Prop) (c1 c2 : A -> A -> Z) :
  CmpOrder D c1 -> CmpOrder D c2 ->
  CmpOrder D (fun a b => let d := c1 a b in if d =? 0 then c2 a b else d).
Proof.
  intros H1 H2. split.
  - intros a b Ha Hb. cbn. pose proof (@cmp_flip _ _ c1 _ a b Ha Hb). pose proof (@cmp_flip _ _ c2 _ a b Ha Hb).
    destruct (c1 b a =? 0) eqn:E1, (c1 a b =? 0) eqn:E2; to_prop; lia.
  - intros a b c Ha Hb Hc. cbn.
    pose proof (@cmp_trans _ _ c1 _ a b c Ha Hb Hc). pose proof (@cmp_trans _ _ c2 _ a b c Ha Hb Hc).
    pose proof (@cmp_trans _ _ c1 _ c a b Hc Ha Hb). pose proof (@cmp_trans _ _ c1 _ b c a Hb Hc Ha).
    pose proof (@cmp_flip _ _ c1 _ a b Ha Hb). pose proof (@cmp_flip _ _ c1 _ a c Ha Hc).
    pose proof (@cmp_flip _ _ c1 _ b c Hb Hc).
    destruct (c1 a b =? 0) eqn:E1, (c1 b c =? 0) eqn:E2, (c1 a c =? 0) eqn:E3; to_prop; lia.
Qed.

Lemma CmpOrder_neg {A} (D : A -> Prop) (c : A -> A -> Z) : CmpOrder D c -> CmpOrder D (fun a b => - c a b).
Proof.
  intros H. split.
  - intros a b Ha Hb. pose proof (@cmp_flip _ _ c _ a b Ha Hb). lia.
  - intros x y z Hx Hy Hz. pose proof (@cmp_trans _ _ c _ z y x Hz Hy Hx).
    pose proof (@cmp_flip _ _ c _ x y Hx Hy). pose proof (@cmp_flip _ _ c _ y z Hy Hz).
    pose proof (@cmp_flip _ _ c _ x z Hx Hz). lia.
Qed.

Lemma CmpOrder_zero {A} (D : A -> Prop) : CmpOrder D (fun _ _ => 0).
Proof. split; intros; cbn; lia. Qed.

#[export] Hint Resolve CmpOrder_lex CmpOrder_neg CmpOrder_zero : sort_order.

(** ** Sorting by two keys *)

(** Sorting by the second key and then, stably, by the first sorts by both:
    the principle of radix sorting. *)
Section two_keys.
Context {A : Type} (D : A -> Prop) (c1 c2 : A -> A -> Z) `{!CmpOrder D c1, !CmpOrder D c2}.

Definition lex_cmp (a b : A) : Z := let d := c1 a b in if d =? 0 then c2 a b else d.

Lemma in_order_filter (c : A -> A -> Z) p l : in_order c l -> in_order c (List.filter p l).
Proof using Type.
  clear. unfold in_order. induction l as [|x l IH]; cbn; intros S; [done|].
  apply StronglySorted_cons in S as [F S]. destruct (p x); [|by apply IH].
  apply StronglySorted_cons. split; [|by apply IH]. rewrite Forall_forall in F |- *.
  intros y Hy. rewrite list_elem_of_In, List.filter_In in Hy. apply F, list_elem_of_In, Hy.
Qed.

Lemma in_order_lex l :
  Forall D l -> in_order c1 l -> (forall z, D z -> in_order c2 (ties c1 z l)) -> in_order lex_cmp l.
Proof using All.
  intros Hl. unfold in_order. induction l as [|x l IH]; intros S T; [constructor|].
  apply Forall_cons in Hl as [Hx Hl]. apply StronglySorted_cons in S as [F S]. apply StronglySorted_cons. split.
  - specialize (T x Hx). rewrite (ties_refl D c1 x l Hx) in T. apply StronglySorted_cons in T as [T _].
    rewrite Forall_forall in F, T, Hl |- *. intros y Hy. unfold lex_cmp. cbn.
    destruct (c1 x y =? 0) eqn:E; [|by apply F]. to_prop. apply T, elem_of_ties. done.
  - apply IH; [done..|]. intros z Hz. specialize (T z Hz). unfold ties in T |- *. cbn in T.
    destruct (c1 z x =? 0); [|done]. by apply StronglySorted_cons in T as [_ T].
Qed.

Lemma ties_lex z l : ties lex_cmp z l = ties c2 z (ties c1 z l).
Proof using Type.
  clear. unfold ties, lex_cmp. induction l as [|x l IH]; cbn; [done|].
  destruct (c1 z x =? 0) eqn:E; cbn; [destruct (c2 z x =? 0) eqn:E2; cbn|rewrite E]; by rewrite IH.
Qed.

Lemma ties_swap z l : ties c2 z (ties c1 z l) = ties c1 z (ties c2 z l).
Proof using Type.
  clear. unfold ties. induction l as [|x l IH]; cbn; [done|].
  destruct (c1 z x =? 0) eqn:E1, (c2 z x =? 0) eqn:E2; cbn; rewrite ?E1, ?E2; cbn; by rewrite IH.
Qed.

Lemma sort_two_keys l :
  Forall D l -> SortStableFunc c1 (SortStableFunc c2 l) = SortStableFunc lex_cmp l.
Proof using All.
  intros Hl. destruct (SortStableFunc_stable D c2 l Hl) as (D2 & S2 & T2).
  destruct (SortStableFunc_stable D c1 _ D2) as (D1 & S1 & T1).
  apply (stable_is_SortStableFunc D lex_cmp (CmpOrder0 := CmpOrder_lex D c1 c2 _ _)); [done|].
  split_and!; [done|..].
  - apply in_order_lex; [done..|]. intros z Hz. rewrite T1 by done. by apply in_order_filter.
  - intros z Hz. rewrite !ties_lex, T1, ties_swap, T2, ties_swap by done. done.
Qed.
End two_keys.

(** ** The orders of the Go library *)

Lemma Compare_refl a : Compare a a = 0.
Proof. induction a as [|x a IH]; cbn; [done|]. by rewrite !Z.ltb_irrefl. Qed.

Lemma Compare_flip a b : Compare b a = - Compare a b.
Proof.
  revert b; induction a as [|x a IH]; intros [|y b]; cbn; try done.
  destruct (x <? y) eqn:E1, (y <? x) eqn:E2; to_prop; lia || apply IH.
Qed.

Lemma Compare_eq a b : Compare a b = 0 <-> a = b.
Proof.
  split; [|intros ->; apply Compare_refl].
  revert b; induction a as [|x a IH]; intros [|y b]; cbn; try done.
  destruct (x <? y) eqn:E1; [done|]. destruct (y <? x) eqn:E2; [done|]. to_prop. intros H.
  f_equal; [lia|by apply IH].
Qed.

Lemma Compare_range a b : -1 <= Compare a b <= 1.
Proof.
  revert b; induction a as [|x a IH]; intros [|y b]; cbn; try lia. cases; lia || apply IH.
Qed.

#[export] Instance Compare_order : CmpOrder (fun _ => True) Compare.
Proof.
  split.
  - intros a b _ _. rewrite Compare_flip. lia.
  - intros a b c _ _ _. revert b c; induction a as [|x a IH]; intros [|y b] [|z c]; cbn; try lia.
    destruct (x <? y) eqn:E1, (y <? x) eqn:E2, (y <? z) eqn:E3, (z <? y) eqn:E4, (x <? z) eqn:E5, (z <? x) eqn:E6;
      to_prop; try lia. apply IH.
Qed.

Lemma cmp_sign_flip c : cmp_sign (CompOpp c) = - cmp_sign c.
Proof. by destruct c. Qed.

#[export] Instance Zcompare_order : CmpOrder (fun _ => True) (fun a b => cmp_sign (a ?= b)).
Proof.
  split.
  - intros a b _ _. rewrite Z.compare_antisym, cmp_sign_flip. lia.
  - intros a b c _ _ _. destruct (Z.compare_spec a b), (Z.compare_spec b c), (Z.compare_spec a c); cbn; lia.
Qed.

#[export] Instance Qcompare_order : CmpOrder (fun _ => True) (fun a b => cmp_sign (a ?= b)%Q).
Proof.
  split.
  - intros a b _ _. rewrite <- Qcompare_antisym, cmp_sign_flip. lia.
  - intros a b c _ _ _. destruct (Qcompare_spec a b), (Qcompare_spec b c), (Qcompare_spec a c); cbn; try lia.
    all: exfalso; lra.
Qed.
