(* ===== verification/SortKey.v ===== *)
(** * sort: key specifications

    Model of src/cmds/sort/key.go: the options of a key, the parser of
    [-k POS1[,POS2]], and the extraction of a key from a line. Positions are
    Go [int]s and wrap at 64 bits, since the parser multiplies without a
    bound and the extraction adds without one. A position in the line is the
    rest of the line from it on, as in the loops of the source. *)

From Stdlib Require Import ZArith Lia.
From stdpp Require Import base tactics list numbers strings.
From S2P Require Import Prelude SortOrder.

Open Scope Z_scope.

Module SortKey.

(** ** Data *)

Record keyOpts := KeyOpts {
  k_numeric : bool;
  k_human : bool;
  k_fold : bool;
  k_dict : bool;
  k_generalNum : bool;
  k_ignoreNP : bool;
  k_month : bool;
  k_random : bool;
  k_version : bool;
  k_reverse : bool;
  k_skipSB : bool;
  k_skipEB : bool;
}.

Definition no_opts : keyOpts :=
  KeyOpts false false false false false false false false false false false false.

Definition hasMods (o : keyOpts) : bool :=
  k_numeric o || k_human o || k_fold o || k_dict o || k_generalNum o ||
  k_ignoreNP o || k_month o || k_random o || k_version o || k_skipSB o || k_skipEB o.

Record keySpec := KeySpec {
  sword : Z;
  schar : Z;
  eword : Z;
  echar : Z;
  opts : keyOpts;
}.

(** ** Parsing *)

(** [parseNum]: the number, the rest, and whether there was a digit. *)
Fixpoint parseNum_from (n : Z) (s : list Z) : Z * list Z :=
  match s with
  | c :: s' =>
      if (ch! "0" <=? c) && (c <=? ch! "9")
      then parseNum_from (int64 (n * 10 + (c - ch! "0"))) s'
      else (n, s)
  | [] => (n, [])
  end.

Definition parseNum (s : list Z) : Z * list Z * bool :=
  let '(n, rest) := parseNum_from 0 s in (n, rest, len rest <? len s).

(** The assignment one letter of [parseKeyOpts] makes; [None] is the
    [default] branch. *)
Definition key_letter (c : Z) (start : bool) (o : keyOpts) : option keyOpts :=
  let '(KeyOpts n h f d g i M R V r sb eb) := o in
  if c =? ch! "b" then
    Some (if start then KeyOpts n h f d g i M R V r true eb else KeyOpts n h f d g i M R V r sb true)
  else if c =? ch! "d" then Some (KeyOpts n h f true g i M R V r sb eb)
  else if c =? ch! "f" then Some (KeyOpts n h true d g i M R V r sb eb)
  else if c =? ch! "g" then Some (KeyOpts n h f d true i M R V r sb eb)
  else if c =? ch! "h" then Some (KeyOpts n true f d g i M R V r sb eb)
  else if c =? ch! "i" then Some (KeyOpts n h f d g true M R V r sb eb)
  else if c =? ch! "M" then Some (KeyOpts n h f d g i true R V r sb eb)
  else if c =? ch! "n" then Some (KeyOpts true h f d g i M R V r sb eb)
  else if c =? ch! "r" then Some (KeyOpts n h f d g i M R V true sb eb)
  else if c =? ch! "R" then Some (KeyOpts n h f d g i M true V r sb eb)
  else if c =? ch! "V" then Some (KeyOpts n h f d g i M R true r sb eb)
  else None.

(** The results are [rest], [errMsg] and [badType], and the options written
    through the pointer. *)
Fixpoint parseKeyOpts (s : list Z) (o : keyOpts) (start : bool) : list Z * list Z * Z * keyOpts :=
  match s with
  | [] => (s, [], 0, o)
  | c :: s' =>
      if c =? ch! "," then (s, [], 0, o)
      else match key_letter c start o with
           | Some o' => parseKeyOpts s' o' start
           | None => (s, str! "stray character in field spec", 0, o)
           end
  end.

(** The assignments of [parseKeySpec] to fields of the key. *)
Definition set_start (k : keySpec) (w c : Z) : keySpec :=
  KeySpec w c (eword k) (echar k) (opts k).
Definition set_end (k : keySpec) (w c : Z) : keySpec :=
  KeySpec (sword k) (schar k) w c (opts k).
Definition set_opts (k : keySpec) (o : keyOpts) : keySpec :=
  KeySpec (sword k) (schar k) (eword k) (echar k) o.

(** The second half of [parseKeySpec], from the comma on. *)
Definition parseKeyEnd (k : keySpec) (s : list Z) : keySpec * list Z * Z :=
  match s with
  | [] => (k, [], 0)
  | c :: s1 =>
      if negb (c =? ch! ",") then (k, str! "stray character in field spec", 0)
      else
        let '(n, rest, ok) := parseNum s1 in
        if negb ok then (k, str! "invalid number after ','", 0)
        else if n =? 0 then (k, str! "field number is zero", 0)
        else
          let k := set_end k (int64 (n - 1)) (echar k) in
          let tail (k : keySpec) (s : list Z) :=
            let '(s, errMsg, badType, o) := parseKeyOpts s (opts k) false in
            let k := set_opts k o in
            if negb (str_eqb errMsg []) || negb (badType =? 0) then (k, errMsg, badType)
            else if 0 <? len s then (k, str! "stray character in field spec", 0)
            else (k, [], 0) in
          match rest with
          | d :: s2 =>
              if d =? ch! "." then
                let '(n, rest, ok) := parseNum s2 in
                if negb ok then (k, str! "invalid number after '.'", 0)
                else tail (set_end k (eword k) n) rest
              else tail k rest
          | [] => tail k rest
          end
  end.

Definition parseKeySpec (spec : list Z) : keySpec * list Z * Z :=
  let k := KeySpec 0 0 (-1) 0 no_opts in
  let '(n, rest, ok) := parseNum spec in
  if negb ok then (k, str! "invalid number at field start", 0)
  else if n =? 0 then (k, str! "field number is zero", 0)
  else
    let k := set_start k (int64 (n - 1)) (schar k) in
    let tail (k : keySpec) (s : list Z) :=
      let '(s, errMsg, badType, o) := parseKeyOpts s (opts k) true in
      let k := set_opts k o in
      if negb (str_eqb errMsg []) || negb (badType =? 0) then (k, errMsg, badType)
      else parseKeyEnd k s in
    match rest with
    | d :: s2 =>
        if d =? ch! "." then
          let '(n, rest, ok) := parseNum s2 in
          if negb ok then (k, str! "invalid number after '.'", 0)
          else if n =? 0 then (k, str! "character offset is zero", 0)
          else tail (set_start k (sword k) (int64 (n - 1))) rest
        else tail k rest
    | [] => tail k rest
    end.

(** ** Extraction *)

(** One field and its end: with a separator, up to the separator and past
    it; without, the blanks and then the rest of the field. *)
Definition skip_field (tab : Z) (s : list Z) : list Z :=
  if 0 <=? tab
  then match trim_left (fun c => negb (c =? tab)) s with _ :: s' => s' | [] => [] end
  else trim_left (fun c => negb (is_blank c)) (trim_left is_blank s).

(** The loop over the fields; a round with [ptr < lim] moves [ptr], so the
    length of the rest bounds the rounds. *)
Fixpoint skip_fields_from (fuel : nat) (tab n : Z) (s : list Z) : list Z :=
  match fuel with
  | O => s
  | S fuel =>
      if (0 <? len s) && (0 <? n) then skip_fields_from fuel tab (n - 1) (skip_field tab s) else s
  end.

Definition skip_fields (tab n : Z) (s : list Z) : list Z := skip_fields_from (length s) tab n s.

(** [ptr += n; if ptr > lim { ptr = lim }] *)
Definition advance (line : list Z) (ptr n : Z) : Z :=
  let ptr := int64 (ptr + n) in if len line <? ptr then len line else ptr.

Definition begfield (line : list Z) (k : keySpec) (tab : Z) : Z :=
  let s := skip_fields tab (sword k) line in
  let s := if k_skipSB (opts k) then trim_left is_blank s else s in
  advance line (len line - len s) (schar k).

(** In [-t] mode [limfield] leaves the separator of the last field it skips
    when the key runs to the end of that field. *)
Fixpoint lim_fields_from (fuel : nat) (tab eword echar : Z) (s : list Z) : list Z :=
  match fuel with
  | O => s
  | S fuel =>
      if (0 <? len s) && (0 <? eword) then
        let s' :=
          if 0 <=? tab then
            match trim_left (fun c => negb (c =? tab)) s with
            | c :: s1 => if (1 <? eword) || negb (echar =? 0) then s1 else c :: s1
            | [] => []
            end
          else skip_field tab s in
        lim_fields_from fuel tab (eword - 1) echar s'
      else s
  end.

Definition limfield (line : list Z) (k : keySpec) (tab : Z) : Z :=
  let eword := if echar k =? 0 then int64 (eword k + 1) else eword k in
  let s := lim_fields_from (length line) tab eword (echar k) line in
  if negb (echar k =? 0) then
    let s := if k_skipEB (opts k) then trim_left is_blank s else s in
    advance line (len line - len s) (echar k)
  else len line - len s.

Definition extractKey (line : list Z) (k : keySpec) (tab : Z) : outcome (list Z) :=
  let beg := begfield line k tab in
  let lim := if 0 <=? eword k then limfield line k tab else len line in
  if lim <=? beg then Ret [] else slice line beg lim.

End SortKey.
