(* ===== verification/SortCompare.v ===== *)
(** * sort: comparators

    Model of src/cmds/sort/compare.go and of the tables of ctype.go: numbers
    in text (-n, with the radix and grouping bytes of the locale), general
    numbers (-g), numbers with a unit (-h), months (-M), versions (-V) and text
    under -d, -i and -f. [strings.ToUpper] beyond ASCII follows the Unicode
    tables of Go and is a parameter; [strconv.ParseFloat] is the rounding it
    documents, with a finite [float64] as the number of units of 2^-1074. *)

From Stdlib Require Import ZArith Lia String QArith.
From stdpp Require Import base tactics list numbers strings.
From S2P Require Import Prelude SortOrder SortKey.

Open Scope Z_scope.
Open Scope go_scope.

Module SortCompare.
Export SortKey.SortKey.

(** The longest prefix of bytes with [p]. *)
Fixpoint take_while (p : Z -> bool) (s : list Z) : list Z :=
  match s with
  | c :: s' => if p c then c :: take_while p s' else []
  | [] => []
  end.

Definition is_zero_digit (c : Z) : bool := c =? ch! "0".

Definition cmpInt (a b : Z) : Z := if a <? b then -1 else if b <? a then 1 else 0.

(** ** Numbers: -n *)

(** The bytes at [s[j:]] once the integer part is read: the fraction digits,
    trailing zeros trimmed. *)
Definition fraction_part (decPt : Z) (s : list Z) : list Z :=
  match s with
  | c :: s' => if c =? decPt then trim_right is_zero_digit (take_while is_digit s') else []
  | [] => []
  end.

(** The sign of the parts: zero when both are empty. *)
Definition signed_parts (neg : bool) (ip fp : list Z) : Z * list Z * list Z :=
  match ip, fp with
  | [], [] => (0, [], [])
  | _, _ => (if neg then -1 else 1, ip, fp)
  end.

(** The optional minus sign after the blanks. *)
Definition number_sign (s : list Z) : bool * list Z :=
  match trim_left is_blank s with
  | c :: s' => if c =? ch! "-" then (true, s') else (false, c :: s')
  | [] => (false, [])
  end.

Definition parseNumParts (s : list Z) : Z * list Z * list Z :=
  let '(neg, s) := number_sign s in
  let ip := trim_left is_zero_digit (take_while is_digit s) in
  let fp := fraction_part (ch! ".") (trim_left is_digit s) in
  signed_parts neg ip fp.

(** [compareFraction]: the loop over the common length, then the loops over
    what is left of one of them, which look for a byte other than a zero. *)
Fixpoint compareFraction (a b : list Z) : Z :=
  match a, b with
  | [], _ => if existsb (fun c => negb (c =? ch! "0")) b then -1 else 0
  | _, [] => if existsb (fun c => negb (c =? ch! "0")) a then 1 else 0
  | x :: a', y :: b' =>
      if negb (x =? y) then (if x <? y then -1 else 1) else compareFraction a' b'
  end.

Definition magCompare (ia fa ib fb : list Z) : Z :=
  let d := cmpInt (len ia) (len ib) in
  if negb (d =? 0) then d
  else
    let d := Compare ia ib in
    if negb (d =? 0) then d else compareFraction fa fb.

Definition compare_parts (a b : Z * list Z * list Z) : Z :=
  let '(sa, ia, fa) := a in
  let '(sb, ib, fb) := b in
  if negb (sa =? sb) then cmpInt sa sb
  else
    let m := magCompare ia fa ib fb in
    if sa <? 0 then - m else m.

Definition numCompare (a b : list Z) : Z := compare_parts (parseNumParts a) (parseNumParts b).

(** The digits of the integer part between separators of thousands, and the
    rest. *)
Fixpoint grouped_digits (thousSep : Z) (s : list Z) : list Z * list Z :=
  match s with
  | c :: s' =>
      if is_digit c then let '(ds, r) := grouped_digits thousSep s' in (c :: ds, r)
      else if negb (thousSep =? 0) && (c =? thousSep) then grouped_digits thousSep s'
      else ([], s)
  | [] => ([], [])
  end.

Definition parseNumPartsLocale (decPt thousSep : Z) (s : list Z) : Z * list Z * list Z :=
  let '(neg, s) := number_sign s in
  let '(ipBytes, s) := grouped_digits thousSep s in
  let ip := trim_left is_zero_digit ipBytes in
  let fp := fraction_part decPt s in
  signed_parts neg ip fp.

(** [sorter.numCompare] *)
Definition sorter_numCompare (decPt thousSep : Z) (a b : list Z) : Z :=
  if (decPt =? 0) && (thousSep =? 0) then numCompare a b
  else compare_parts (parseNumPartsLocale decPt thousSep a) (parseNumPartsLocale decPt thousSep b).

(** ** Numbers with a unit: -h *)

Definition siOrder (c : Z) : Z :=
  if (c =? ch! "K") || (c =? ch! "k") then 1
  else if c =? ch! "M" then 2
  else if c =? ch! "G" then 3
  else if c =? ch! "T" then 4
  else if c =? ch! "P" then 5
  else if c =? ch! "E" then 6
  else if c =? ch! "Z" then 7
  else if c =? ch! "Y" then 8
  else if c =? ch! "R" then 9
  else if c =? ch! "Q" then 10
  else 0.

Definition unitOrder (s : list Z) : Z :=
  let '(neg, s) :=
    match s with
    | c :: s' => if c =? ch! "-" then (true, s') else (false, s)
    | [] => (false, s)
    end in
  let s := trim_left is_digit s in
  let s :=
    match s with
    | c :: s' => if c =? ch! "." then trim_left is_digit s' else s
    | [] => s
    end in
  let o := match s with c :: _ => siOrder c | [] => 0 end in
  if (neg : bool) then - o else o.

Definition humanCompare (a b : list Z) : Z :=
  let ta := trim_left is_blank a in
  let tb := trim_left is_blank b in
  let d := cmpInt (unitOrder ta) (unitOrder tb) in
  if negb (d =? 0) then d else numCompare ta tb.

(** ** Text: -d, -i, -f *)

Definition upperByte (c : Z) : Z := if (ch! "a" <=? c) && (c <=? ch! "z") then c - (ch! "a" - ch! "A") else c.

Definition dict_byte (c : Z) : bool :=
  (c =? ch! " ") || (c =? 9) || ((ch! "0" <=? c) && (c <=? ch! "9")) ||
  ((ch! "a" <=? c) && (c <=? ch! "z")) || ((ch! "A" <=? c) && (c <=? ch! "Z")).

Fixpoint normalizeTextKey (s : list Z) (o : keyOpts) : list Z :=
  match s with
  | [] => []
  | c :: s' =>
      if k_dict o && negb (dict_byte c) then normalizeTextKey s' o
      else if k_ignoreNP o && ((c <? 32) || (126 <? c)) then normalizeTextKey s' o
      else (if k_fold o then upperByte c else c) :: normalizeTextKey s' o
  end.

Definition textKeyCompare (a b : list Z) (o : keyOpts) : Z :=
  if negb (k_dict o) && negb (k_ignoreNP o) && negb (k_fold o) then Compare a b
  else Compare (normalizeTextKey a o) (normalizeTextKey b o).

(** [ctypeTables]: the classes of the locale, one entry for each byte. *)
Record ctypeTables := CtypeTables {
  t_fold : list Z;
  t_alnum : list bool;
  t_blank : list bool;
  t_print : list bool;
}.

(** The provider's answers; [None] is an error. *)
Record ctypeProvider := CtypeProvider {
  p_ToUpper : list Z -> option (list Z);
  p_IsAlnum : Z -> option bool;
  p_IsBlank : Z -> option bool;
  p_IsPrint : Z -> option bool;
}.

Definition snapshot_byte (p : ctypeProvider) (t : ctypeTables) (b : Z) : option ctypeTables :=
  match p_ToUpper p [b] with
  | None => None
  | Some up =>
      let f := match up with [c] => c | _ => b end in
      match p_IsAlnum p b, p_IsBlank p b, p_IsPrint p b with
      | Some a, Some bl, Some pr =>
          Some (CtypeTables (t_fold t ++ [f]) (t_alnum t ++ [a]) (t_blank t ++ [bl]) (t_print t ++ [pr]))
      | _, _, _ => None
      end
  end.

Definition snapshotCtypeTables (p : ctypeProvider) : option ctypeTables :=
  foldl (fun t b => match t with Some t => snapshot_byte p t b | None => None end)
    (Some (CtypeTables [] [] [] [])) (seqZ 0 256).

Definition table {A} (d : A) (t : list A) (c : Z) : A := nth (Z.to_nat c) t d.

Fixpoint normalize (t : ctypeTables) (s : list Z) (o : keyOpts) : list Z :=
  match s with
  | [] => []
  | c :: s' =>
      if k_dict o && negb (table false (t_blank t) c || table false (t_alnum t) c) then normalize t s' o
      else if k_ignoreNP o && negb (table false (t_print t) c) then normalize t s' o
      else (if k_fold o then table 0 (t_fold t) c else c) :: normalize t s' o
  end.

(** ** Months: -M *)

Definition months (m : list Z) : Z :=
  if str_eqb m (str! "JAN") then 1 else if str_eqb m (str! "FEB") then 2
  else if str_eqb m (str! "MAR") then 3 else if str_eqb m (str! "APR") then 4
  else if str_eqb m (str! "MAY") then 5 else if str_eqb m (str! "JUN") then 6
  else if str_eqb m (str! "JUL") then 7 else if str_eqb m (str! "AUG") then 8
  else if str_eqb m (str! "SEP") then 9 else if str_eqb m (str! "OCT") then 10
  else if str_eqb m (str! "NOV") then 11 else if str_eqb m (str! "DEC") then 12
  else 0.

Section month.
Variable ToUpper : list Z -> list Z.

Definition month_of (a : list Z) : Z :=
  let ua := ToUpper (trim_left is_blank a) in
  if 3 <=? len ua then months (take 3 ua) else 0.

Definition monthOrder (a b : list Z) : Z := cmpInt (month_of a) (month_of b).

Definition monthCompare (a b : list Z) : Z :=
  let d := monthOrder a b in
  if negb (d =? 0) then d else Compare (trim_left is_blank a) (trim_left is_blank b).
End month.

(** ** Versions: -V *)

(** The loop of [filevercmp]; each round moves both indices. *)
Fixpoint filevercmp_from (fuel : nat) (a b : list Z) : outcome Z :=
  match fuel with
  | O => OutOfFuel
  | S fuel =>
      match a, b with
      | [], [] => Ret 0
      | _ :: _, [] => Ret 1
      | [], _ :: _ => Ret (-1)
      | x :: a', y :: b' =>
          if is_digit x && is_digit y then
            let a := trim_left is_zero_digit a in
            let b := trim_left is_zero_digit b in
            let na := take_while is_digit a in
            let nb := take_while is_digit b in
            if len na <? len nb then Ret (-1)
            else if len nb <? len na then Ret 1
            else
              let d := Compare na nb in
              if negb (d =? 0) then Ret d
              else filevercmp_from fuel (trim_left is_digit a) (trim_left is_digit b)
          else if negb (x =? y) then Ret (if x <? y then -1 else 1)
          else filevercmp_from fuel a' b'
      end
  end.

Definition filevercmp (a b : list Z) : outcome Z := filevercmp_from (S (length a)) a b.

Definition versionCompare (a b : list Z) : outcome Z :=
  filevercmp (trim_left is_blank a) (trim_left is_blank b).

(** ** General numbers: -g *)

(** A [float64]: finite values are multiples of 2^-1074. *)
Inductive float64 :=
| Finite (units : Z)
| Inf (neg : bool)
| NaN.

(** [p / q] rounded to a multiple of [u], ties to the even multiple. *)
Definition round_even (p q u : Z) : Z :=
  let n := p / (q * u) in
  let r := 2 * (p mod (q * u)) in
  u * (if r <? q * u then n else if q * u <? r then n + 1 else if Z.even n then n else n + 1).

(** The nearest [float64] to [p / q], for [p >= 0] and [q > 0], in units; a
    significand has 53 bits. [None]: beyond the largest finite value. *)
Definition float_units (p q : Z) : option Z :=
  let p := p * 2 ^ 1074 in
  let u := 2 ^ Z.max 0 (Z.log2 (p / q) - 52) in
  let v := round_even p q u in
  if v <? 2 ^ (1024 + 1074) then Some v else None.

(** [strconv.ParseFloat(s, 64)] on [[+-]digits[.digits][e[+-]digits]], the
    only texts the command passes; [None] is [ErrRange]. The exponent stops
    growing at 10000, as in the library. *)
Definition exponent (s : list Z) : Z :=
  match s with
  | c :: s1 =>
      if (c =? ch! "e") || (c =? ch! "E") then
        let '(neg, s2) :=
          match s1 with
          | d :: s2 => if d =? ch! "-" then (true, s2) else if d =? ch! "+" then (false, s2) else (false, s1)
          | [] => (false, s1)
          end in
        let e := foldl (fun e c => if e <? 10000 then e * 10 + (c - ch! "0") else e) 0 s2 in
        if (neg : bool) then - e else e
      else 0
  | [] => 0
  end.

Definition ParseFloat (s : list Z) : option float64 :=
  let '(neg, s) :=
    match s with
    | c :: s' => if c =? ch! "-" then (true, s') else if c =? ch! "+" then (false, s') else (false, s)
    | [] => (false, s)
    end in
  let ip := take_while is_digit s in
  let s := trim_left is_digit s in
  let '(fp, s) :=
    match s with
    | c :: s' => if c =? ch! "." then (take_while is_digit s', trim_left is_digit s') else ([], s)
    | [] => ([], s)
    end in
  let m := undigits 10 ((fun c => c - ch! "0") <$> ip ++ fp) in
  let e := exponent s - len fp in
  match (if 0 <=? e then float_units (m * 10 ^ e) 1 else float_units m (10 ^ (- e))) with
  | Some v => Some (Finite (if (neg : bool) then - v else v))
  | None => None
  end.

(** The length of the longest prefix with the shape of a number. *)
Definition generalNumPrefix (s : list Z) : Z * bool :=
  let n := len s in
  let s1 := match s with c :: s' => if (c =? ch! "+") || (c =? ch! "-") then s' else s | [] => s end in
  let digits := len (take_while is_digit s1) in
  let s2 := trim_left is_digit s1 in
  let '(digits, s3) :=
    match s2 with
    | c :: s' =>
        if c =? ch! "." then (digits + len (take_while is_digit s'), trim_left is_digit s') else (digits, s2)
    | [] => (digits, s2)
    end in
  if digits =? 0 then (0, false)
  else
    match s3 with
    | c :: s4 =>
        if (c =? ch! "e") || (c =? ch! "E") then
          let s5 := match s4 with d :: s' => if (d =? ch! "+") || (d =? ch! "-") then s' else s4 | [] => s4 end in
          let s6 := trim_left is_digit s5 in
          if len s6 <? len s5 then (n - len s6, true) else (n - len s3, true)
        else (n - len s3, true)
    | [] => (n - len s3, true)
    end.

Definition one_of (t : list Z) (l : list (list Z)) : bool := existsb (fun w => has_prefix t w) l.

Definition generalNumParse (s : list Z) : option float64 :=
  let t := trim_left is_blank s in
  match t with
  | [] => None
  | _ =>
      if one_of t [str! "nan"; str! "NaN"] then Some NaN
      else if one_of t [str! "inf"; str! "Inf"; str! "INF"] then Some (Inf false)
      else if one_of t [str! "+nan"; str! "+NaN"; str! "-nan"; str! "-NaN"] then Some NaN
      else if one_of t [str! "+inf"; str! "+Inf"; str! "+INF"] then Some (Inf false)
      else if one_of t [str! "-inf"; str! "-Inf"; str! "-INF"] then Some (Inf true)
      else
        let '(end_, ok) := generalNumPrefix t in
        if negb ok then None else ParseFloat (take (Z.to_nat end_) t)
  end.

Definition IsNaN (v : float64) : bool := match v with NaN => true | _ => false end.

(** [<] on [float64]; false when one side is a NaN. *)
Definition float_ltb (a b : float64) : bool :=
  match a, b with
  | Finite x, Finite y => x <? y
  | Inf true, Finite _ => true
  | Inf true, Inf false => true
  | Finite _, Inf false => true
  | _, _ => false
  end.

Definition generalNumCompare (a b : list Z) : Z :=
  match generalNumParse a, generalNumParse b with
  | None, None => 0
  | None, Some _ => -1
  | Some _, None => 1
  | Some va, Some vb =>
      if IsNaN va && IsNaN vb then 0
      else if IsNaN va then 1
      else if IsNaN vb then -1
      else if float_ltb va vb then -1
      else if float_ltb vb va then 1
      else 0
  end.

End SortCompare.
