(* ===== verification/SortFast.v ===== *)
(** * sort: the order of lines and the sorting routines

    Model of the comparisons of src/cmds/sort/sort.go (the [sorter], its
    [compare], numeric keys prepared once per line) and of
    src/cmds/sort/fastsort.go: the parallel merge sort, the radix sort of
    integer keys and the choice between them. An array is a list; the
    goroutines of a round work on disjoint slices, so a round is the sequence
    of their writes. [slices.SortFunc], [strings.ToUpper] and the number of
    processors are parameters. *)

From Stdlib Require Import ZArith Lia String.
From stdpp Require Import base tactics list numbers strings.
From S2P Require Import Prelude SortOrder SortKey SortCompare.

Open Scope Z_scope.
Open Scope go_scope.

Module SortFast.
Export SortCompare.SortCompare.

(** The fields of the [sorter] that are read after the options are parsed.
    The provider of LC_COLLATE is a comparison that does not fail. *)
Record sorter := Sorter {
  keys : list keySpec;
  tab : Z;
  s_reverse : bool;
  s_stable : bool;
  s_unique : bool;
  s_random : bool;
  checkSilent : bool;
  zeroTerm : bool;
  s_merge : bool;
  collator : option (list Z -> list Z -> Z);
  ctype : option ctypeTables;
  decPt : Z;
  thousSep : Z;
}.

(** ** Comparison of lines *)

Section compare.
Variable ToUpper : list Z -> list Z.

Definition textCompare (s : sorter) (a b : list Z) : Z :=
  match collator s with
  | Some c => c a b
  | None => Compare a b
  end.

Definition sorter_normalizeTextKey (s : sorter) (str : list Z) (o : keyOpts) : list Z :=
  match ctype s with
  | Some t => normalize t str o
  | None => normalizeTextKey str o
  end.

Definition sorter_textKeyCompare (s : sorter) (a b : list Z) (o : keyOpts) : Z :=
  if k_dict o || k_ignoreNP o || k_fold o
  then textCompare s (sorter_normalizeTextKey s a o) (sorter_normalizeTextKey s b o)
  else textCompare s a b.

(** The [switch] of [compareKeys]. *)
Definition compare_key (s : sorter) (k : keySpec) (ka kb : list Z) : outcome Z :=
  if k_random (opts k) then Ret 0
  else if k_generalNum (opts k) then Ret (generalNumCompare ka kb)
  else if k_numeric (opts k) then Ret (sorter_numCompare (decPt s) (thousSep s) ka kb)
  else if k_human (opts k) then Ret (humanCompare ka kb)
  else if k_month (opts k) then Ret (monthCompare ToUpper ka kb)
  else if k_version (opts k) then versionCompare ka kb
  else Ret (sorter_textKeyCompare s ka kb (opts k)).

Fixpoint compareKeys_from (s : sorter) (ks : list keySpec) (a b : list Z) : outcome Z :=
  match ks with
  | [] => Ret 0
  | k :: ks' =>
      let! ka := extractKey a k (tab s) in
      let! kb := extractKey b k (tab s) in
      let! d := compare_key s k ka kb in
      if negb (d =? 0) then Ret (if k_reverse (opts k) then - d else d)
      else compareKeys_from s ks' a b
  end.

Definition compareKeys (s : sorter) (a b : list Z) : outcome Z := compareKeys_from s (keys s) a b.

Definition compare (s : sorter) (a b : list Z) : outcome Z :=
  let last := let d := textCompare s a b in Ret (if s_reverse s then - d else d) in
  if 0 <? len (keys s) then
    let! d := compareKeys s a b in
    if negb (d =? 0) || s_stable s || s_unique s then Ret d else last
  else last.

Definition compareEqual (s : sorter) (a b : list Z) : outcome Z :=
  if 0 <? len (keys s) then compareKeys s a b else Ret (textCompare s a b).
End compare.

(** ** Prepared numeric keys *)

Record numericKey := NumericKey {
  sign : Z;
  ipStart : Z;
  ipLen : Z;
  fpStart : Z;
  fpLen : Z;
}.

Record numericLine := NumericLine {
  text : list Z;
  num : numericKey;
  val : Z;
}.

Definition zero_key : numericKey := NumericKey 0 0 0 0 0.

(** Positions are counted from the rest of the line; they are stored in 32
    bits. *)
Definition parseNumericKey (s : list Z) : numericKey :=
  let '(neg, s1) := number_sign s in
  let j := trim_left is_digit s1 in
  let ds := take_while is_digit s1 in
  let ipEnd := len s - len j in
  let ipStart := ipEnd - len (trim_left is_zero_digit ds) in
  let '(fpStart, fpEnd) :=
    match j with
    | c :: s2 =>
        if c =? ch! "." then
          let fpStart := len s - len s2 in
          (fpStart, fpStart + len (trim_right is_zero_digit (take_while is_digit s2)))
        else (0, 0)
    | [] => (0, 0)
    end in
  if (ipStart =? ipEnd) && (fpStart =? fpEnd) then zero_key
  else NumericKey (if (neg : bool) then -1 else 1)
         (int32 ipStart) (int32 (ipEnd - ipStart)) (int32 fpStart) (int32 (fpEnd - fpStart)).

Definition compareNumericKey (as_ : list Z) (a : numericKey) (bs : list Z) (b : numericKey) : outcome Z :=
  if negb (sign a =? sign b) then Ret (cmpInt (sign a) (sign b))
  else
    let m := cmpInt (ipLen a) (ipLen b) in
    let! m :=
      if m =? 0 then
        let! x := slice as_ (ipStart a) (ipStart a + ipLen a) in
        let! y := slice bs (ipStart b) (ipStart b + ipLen b) in
        Ret (Compare x y)
      else Ret m in
    let! m :=
      if m =? 0 then
        let! x := slice as_ (fpStart a) (fpStart a + fpLen a) in
        let! y := slice bs (fpStart b) (fpStart b + fpLen b) in
        Ret (compareFraction x y)
      else Ret m in
    Ret (if sign a <? 0 then - m else m).

Definition compareNumericLines (s : sorter) (a b : numericLine) : outcome Z :=
  let! d := compareNumericKey (text a) (num a) (text b) (num b) in
  if negb (d =? 0) || s_stable s || s_unique s then
    let! k := index (keys s) 0 in
    Ret (if negb (d =? 0) && k_reverse (opts k) then - d else d)
  else
    let d := textCompare s (text a) (text b) in
    Ret (if s_reverse s then - d else d).

Definition intKeyVal (s : list Z) (k : numericKey) : outcome (Z * bool) :=
  if negb (fpLen k =? 0) || (18 <? ipLen k) then Ret (0, false)
  else
    let! ds := slice s (ipStart k) (ipStart k + ipLen k) in
    let v := foldl (fun v c => int64 (v * 10 + (c - ch! "0"))) 0 ds in
    Ret (if sign k <? 0 then int64 (- v) else v, true).

Definition canUsePreparedNumeric (s : sorter) : bool :=
  match collator s, keys s with
  | None, [k] =>
      let o := opts k in
      (decPt s =? 0) && (thousSep s =? 0) &&
      (sword k =? 0) && (schar k =? 0) && (eword k =? -1) && (echar k =? 0) &&
      k_numeric o && negb (k_human o) && negb (k_fold o) && negb (k_dict o) &&
      negb (k_generalNum o) && negb (k_ignoreNP o) && negb (k_month o) &&
      negb (k_random o) && negb (k_version o) && negb (k_skipSB o) && negb (k_skipEB o)
  | _, _ => false
  end.

(** A comparison handed to a sorting routine. One that panics ends the
    program, so the theorems about the routines are about lines whose
    comparisons return. *)
Definition comparator {A} (c : A -> A -> outcome Z) (a b : A) : Z :=
  match c a b with Ret d => d | _ => 0 end.

(** ** Parallel merge sort *)

(** [copy(x[lo:], l)] *)
Definition write_at {A} (lo : Z) (l x : list A) : list A :=
  take (Z.to_nat lo) x ++ l ++ drop (Z.to_nat lo + length l) x.

(** What [mergeRuns] leaves in [dst], whose length is that of both runs. *)
Fixpoint mergeRuns {A} (cmp : A -> A -> Z) (a : list A) : list A -> list A :=
  fix merge_b (b : list A) : list A :=
    match a, b with
    | [], _ => b
    | _, [] => a
    | x :: a', y :: b' => if cmp x y <=? 0 then x :: mergeRuns cmp a' b else y :: merge_b b'
    end.

Definition parallelMinLines : Z := 50000.

Section parallel.
Context {A : Type} (zero : A) (procs : Z) (cmp : A -> A -> Z) (chunkSort : list A -> list A).

Fixpoint sort_chunks (bounds : list Z) (x : list A) : list A :=
  match bounds with
  | lo :: ((hi :: _) as rest) => sort_chunks rest (write_at lo (chunkSort (sub lo hi x)) x)
  | _ => x
  end.

(** One round of merges from [src] into [dst]: the new [dst] and the bounds
    after the first. *)
Fixpoint merge_round (bounds : list Z) (src dst : list A) : list A * list Z :=
  match bounds with
  | lo :: mid :: ((hi :: _) as rest) =>
      let '(dst, next) := merge_round rest src (write_at lo (mergeRuns cmp (sub lo mid src) (sub mid hi src)) dst) in
      (dst, hi :: next)
  | [lo; hi] => (write_at lo (sub lo hi src) dst, [hi])
  | _ => (dst, [])
  end.

Fixpoint merge_rounds (fuel : nat) (bounds : list Z) (src dst : list A) : outcome (list A) :=
  match fuel with
  | O => OutOfFuel
  | S fuel =>
      if 2 <? len bounds then
        let '(dst, next) := merge_round bounds src dst in
        merge_rounds fuel (0 :: next) dst src
      else Ret src
  end.

Definition parallelSort (x : list A) : outcome (list A) :=
  let n := len x in
  if (n <? parallelMinLines) || (procs <? 2) then Ret (chunkSort x)
  else
    let bounds := (fun i => i * n / procs) <$> seqZ 0 (procs + 1) in
    merge_rounds (length bounds) bounds (sort_chunks bounds x) (replicate (length x) zero).
End parallel.

(** ** Radix sort *)

(** [byte(k >> (b*8))] *)
Definition byte_of (k : Z) (b : nat) : nat := Z.to_nat (Z.land (Z.shiftr k (8 * Z.of_nat b)) 255).

Definition radix_key (desc : bool) (v : Z) : Z :=
  let k := Z.lxor (uint64 v) (2 ^ 63) in
  if desc then uint64 (Z.lnot k) else k.

Definition count_key (counts : list (list Z)) (k : Z) : list (list Z) :=
  imap (fun b c => alter Z.succ (byte_of k b) c) counts.

Definition radix_counts (ks : list Z) : list (list Z) :=
  foldl count_key (replicate 8 (replicate 256 0)) ks.

(** [offs]: the running sums of the counts. *)
Fixpoint offsets (sum : Z) (c : list Z) : list Z :=
  match c with
  | [] => []
  | x :: c' => sum :: offsets (sum + x) c'
  end.

(** The distribution loop: [offs], [kdst] and [dst] after the elements of
    [ksrc] and [src]. *)
Fixpoint distribute {A} (b : nat) (offs : list Z) (ksrc : list Z) (src : list A) (kdst : list Z) (dst : list A)
  : list Z * list Z * list A :=
  match ksrc, src with
  | k :: ksrc', x :: src' =>
      let v := byte_of k b in
      let o := Z.to_nat (nth v offs 0) in
      distribute b (alter Z.succ v offs) ksrc' src' (<[o := k]> kdst) (<[o := x]> dst)
  | _, _ => (offs, kdst, dst)
  end.

(** The rounds for the bytes in [bs]: the arrays that are the source at the
    end. *)
Fixpoint radix_rounds {A} (counts : list (list Z)) (bs : list nat)
  (ksrc : list Z) (src : list A) (kdst : list Z) (dst : list A) : list A :=
  match bs with
  | [] => src
  | b :: bs' =>
      let c := nth b counts [] in
      if nth (byte_of (nth 0 ksrc 0) b) c 0 =? len src
      then radix_rounds counts bs' ksrc src kdst dst
      else
        let '(_, kdst, dst) := distribute b (offsets 0 c) ksrc src kdst dst in
        radix_rounds counts bs' kdst dst ksrc src
  end.

Definition zero_line : numericLine := NumericLine [] zero_key 0.

Definition radixSortNumeric (lines : list numericLine) (desc : bool) : list numericLine :=
  if len lines <? 2 then lines
  else
    let ks := (fun l => radix_key desc (val l)) <$> lines in
    radix_rounds (radix_counts ks) (seq 0 8) ks lines
      (replicate (length lines) 0) (replicate (length lines) zero_line).

(** ** The choice *)

Section choice.
Context (ToUpper : list Z -> list Z) (procs : Z).
Context (SortF : forall A, (A -> A -> Z) -> list A -> list A).

Definition same_val (v : Z) (l : numericLine) : bool := val l =? v.

(** The lines from [i] on that have the value of line [i], and the others. *)
Fixpoint val_run (v : Z) (l : list numericLine) : list numericLine * list numericLine :=
  match l with
  | x :: l' => if val x =? v then let '(r, rest) := val_run v l' in (x :: r, rest) else ([], l)
  | [] => ([], [])
  end.

Fixpoint sortIntTieRuns_from (fuel : nat) (lines : list numericLine) : outcome (list numericLine) :=
  match fuel, lines with
  | _, [] => Ret []
  | O, _ => OutOfFuel
  | S fuel, x :: l =>
      let '(r, rest) := val_run (val x) l in
      let run := x :: r in
      let run := if 1 <? len run then SortF _ (fun a b => Compare (text a) (text b)) run else run in
      let! rest := sortIntTieRuns_from fuel rest in
      Ret (run ++ rest)
  end.

Definition sortIntTieRuns (lines : list numericLine) : outcome (list numericLine) :=
  sortIntTieRuns_from (length lines) lines.

Definition sortLines (s : sorter) (lines : list (list Z)) : outcome (list (list Z)) :=
  let cmp := comparator (compare ToUpper s) in
  match collator s with
  | Some _ => parallelSort [] procs cmp (SortStableFunc cmp) lines
  | None =>
      if len (keys s) =? 0 then
        let! lines := parallelSort [] procs Compare (SortF _ Compare) lines in
        Ret (if s_reverse s then rev lines else lines)
      else
        let stable := s_stable s || s_unique s in
        parallelSort [] procs cmp (fun x => if stable then SortStableFunc cmp x else SortF _ cmp x) lines
  end.

Definition sortNumericLines (s : sorter) (lines : list numericLine) (allInt : bool) : outcome (list numericLine) :=
  let stable := s_stable s || s_unique s in
  let cmp := comparator (compareNumericLines s) in
  let! k := index (keys s) 0 in
  let keyRev := k_reverse (opts k) in
  let generic :=
    parallelSort zero_line procs cmp (fun x => if stable then SortStableFunc cmp x else SortF _ cmp x) lines in
  if allInt then
    if stable then Ret (radixSortNumeric lines keyRev)
    else if Bool.eqb keyRev (s_reverse s) then
      let! lines := sortIntTieRuns (radixSortNumeric lines false) in
      Ret (if s_reverse s then rev lines else lines)
    else generic
  else generic.
End choice.

End SortFast.
