(* ===== verification/SortMain.v ===== *)
(** * sort: lines, modes and the command

    Model of the rest of src/cmds/sort/sort.go: how options become a
    [sorter], how operands are opened and read, the modes (-c and -C, -m, -R,
    the prepared numeric path and the general one), -u, and what is written.
    The flags are parsed by the framework and the locale is resolved by
    src/pkg/locale: their results are arguments. A file is what opening and
    reading it gives; writes to the output do not fail once it is created. *)

From Stdlib Require Import ZArith Lia String.
From stdpp Require Import base tactics list numbers strings.
From S2P Require Import Prelude SortOrder SortKey SortCompare SortFast.

Open Scope Z_scope.
Open Scope go_scope.

Module SortMain.
Export SortFast.SortFast.

(** ** Lines *)

Definition delimiter (zeroTerm : bool) : Z := if zeroTerm then 0 else 10.

(** The loop over [bytes.IndexByte]. *)
Fixpoint cut_lines (fuel : nat) (delim : Z) (data : list Z) : list (list Z) :=
  match fuel with
  | O => []
  | S fuel =>
      match index_byte data delim with
      | None => [data]
      | Some i => take i data :: cut_lines fuel delim (drop (S i) data)
      end
  end.

(** The lines [splitLines] appends. *)
Definition splitLines (data : list Z) (zeroTerm : bool) : list (list Z) :=
  let delim := delimiter zeroTerm in
  match data with
  | [] => []
  | _ =>
      let data := if has_suffix_byte delim data then trim_suffix_byte delim data else data in
      match data with
      | [] => [[]]
      | _ => cut_lines (S (length data)) delim data
      end
  end.

(** [appendLine] *)
Definition numeric_line (l : list Z) : outcome (numericLine * bool) :=
  let num := parseNumericKey l in
  let! (val, ok) := intKeyVal l num in
  Ret (NumericLine l num val, ok).

Fixpoint numeric_lines (ls : list (list Z)) : outcome (list numericLine * bool) :=
  match ls with
  | [] => Ret ([], true)
  | l :: ls' =>
      let! (x, ok) := numeric_line l in
      let! (xs, oks) := numeric_lines ls' in
      Ret (x :: xs, ok && oks)
  end.

(** The lines [splitNumericLines] appends, and whether all keys are
    integers. The one empty line of a file that is one delimiter is the zero
    [numericLine]. *)
Definition splitNumericLines (data : list Z) (zeroTerm : bool) : outcome (list numericLine * bool) :=
  let delim := delimiter zeroTerm in
  match data with
  | [] => Ret ([], true)
  | _ =>
      let data := if has_suffix_byte delim data then trim_suffix_byte delim data else data in
      match data with
      | [] => Ret ([zero_line], true)
      | _ => numeric_lines (cut_lines (S (length data)) delim data)
      end
  end.

(** What [writeStringLines] writes. *)
Definition written (zeroTerm : bool) (lines : list (list Z)) : list Z :=
  mjoin ((fun l => l ++ [delimiter zeroTerm]) <$> lines).

(** ** Results and files *)

Record result := Result {
  status : Z;
  stdout : list Z;
  stderr : list Z;
  file : option (list Z * list Z);
}.

(** An open file: its bytes, or the error of reading it. *)
Inductive source :=
| Data (bytes : list Z)
| ReadError (msg : list Z).

Record world := World {
  w_stdin : source;
  w_open : list Z -> list Z + source;
  w_readfile : list Z -> list Z + list Z;
  w_create : list Z -> option (list Z);
}.

(** A diagnostic and status 2; [UsageError] and [NotSupported] of the
    framework add to the text. *)
Definition fail (msg : list Z) : result := Result 2 [] (str! "sort: " ++ msg ++ [10]) None.

Definition help_hint : list Z := 10 :: str! "Try 'sort --help' for more information.".
Definition not_supported : list Z :=
  str! " is not supported by pure-Go coreutils — see 'sort --help' for the supported subset".

(** [os.Create] of the output, or standard output without [-o]. *)
Definition write_lines (w : world) (output : list Z) (zeroTerm : bool) (lines : list (list Z)) : result :=
  match output with
  | [] => Result 0 (written zeroTerm lines) [] None
  | _ =>
      match w_create w output with
      | Some e => fail (str! "open failed: " ++ output ++ str! ": " ++ e)
      | None => Result 0 [] [] (Some (output, written zeroTerm lines))
      end
  end.

(** An operand: standard input is shared by all operands "-". *)
Inductive reader :=
| Stdin
| File (f : source).

Fixpoint openOperands (w : world) (operands : list (list Z)) : (list Z * list Z) + list (list Z * reader) :=
  match operands with
  | [] => inr []
  | operand :: rest =>
      if str_eqb operand (str! "-") then
        match openOperands w rest with
        | inl e => inl e
        | inr inputs => inr ((operand, Stdin) :: inputs)
        end
      else
        match w_open w operand with
        | inl err => inl (operand, err)
        | inr f =>
            match openOperands w rest with
            | inl e => inl e
            | inr inputs => inr ((operand, File f) :: inputs)
            end
        end
  end.

(** [io.ReadAll] of every input in turn: their bytes, or the name and the
    error of the first that cannot be read. What is left of standard input
    after the first "-" is empty. *)
Fixpoint read_inputs (stdin : source) (inputs : list (list Z * reader)) : (list Z * list Z) + list (list Z) :=
  match inputs with
  | [] => inr []
  | (name, r) :: rest =>
      let '(src, stdin) := match r with
                           | Stdin => (stdin, match stdin with Data _ => Data [] | e => e end)
                           | File f => (f, stdin)
                           end in
      match src with
      | ReadError e => inl (name, e)
      | Data d =>
          match read_inputs stdin rest with
          | inl e => inl e
          | inr ds => inr (d :: ds)
          end
      end
  end.

Definition cannot_read (e : list Z * list Z) : result :=
  fail (str! "cannot read: " ++ fst e ++ str! ": " ++ snd e).

(** ** Modes *)

Section modes.
Context (ToUpper : list Z -> list Z) (procs : Z).
Context (SortF : forall A, (A -> A -> Z) -> list A -> list A).
Context (SliceStable : forall A, (nat -> nat -> bool) -> list A -> list A).

(** -u: the loop that keeps a line when it differs from the last one kept. *)
Fixpoint unique_from {A} (eq : A -> A -> outcome Z) (prev : A) (l : list A) : outcome (list A) :=
  match l with
  | [] => Ret []
  | x :: l' =>
      let! d := eq prev x in
      if negb (d =? 0)
      then let! r := unique_from eq x l' in Ret (x :: r)
      else unique_from eq prev l'
  end.

Definition unique_lines {A} (eq : A -> A -> outcome Z) (l : list A) : outcome (list A) :=
  match l with
  | [] => Ret []
  | x :: l' => let! r := unique_from eq x l' in Ret (x :: r)
  end.

Definition keep_unique {A} (s : sorter) (eq : A -> A -> outcome Z) (l : list A) : outcome (list A) :=
  if s_unique s then unique_lines eq l else Ret l.

(** -c and -C: the loop, with [prev] line [i - 1]. *)
Fixpoint check_from (s : sorter) (name : list Z) (i : Z) (prev : list Z) (l : list (list Z)) : outcome result :=
  match l with
  | [] => Ret (Result 0 [] [] None)
  | x :: l' =>
      let! d := compare ToUpper s prev x in
      if (0 <? d) || (s_unique s && (d =? 0)) then
        Ret (Result 1 []
          (if checkSilent s then []
           else str! "sort: " ++ name ++ str! ":" ++ itoa (i + 1) ++ str! ": disorder: " ++ x ++ [10]) None)
      else check_from s name (i + 1) x l'
  end.

Definition check_lines (s : sorter) (name : list Z) (lines : list (list Z)) : outcome result :=
  match lines with
  | [] => Ret (Result 0 [] [] None)
  | x :: l => check_from s name 1 x l
  end.

Definition checkSorted (s : sorter) (w : world) (inputs : list (list Z * reader)) : outcome result :=
  let! (name, r) := index inputs 0 in
  match read_inputs (w_stdin w) [(name, r)] with
  | inl e => Ret (cannot_read e)
  | inr ds => check_lines s name (splitLines (mjoin ds) (zeroTerm s))
  end.

(** -m: one pass over the runs, and passes until one run is left. *)
Fixpoint merge_pass (cmp : list Z -> list Z -> Z) (runs : list (list (list Z))) : list (list (list Z)) :=
  match runs with
  | a :: b :: rest => mergeRuns cmp a b :: merge_pass cmp rest
  | _ => runs
  end.

Fixpoint merge_passes (fuel : nat) (cmp : list Z -> list Z -> Z) (runs : list (list (list Z)))
  : outcome (list (list Z)) :=
  match fuel with
  | O => OutOfFuel
  | S fuel =>
      if 1 <? len runs then merge_passes fuel cmp (merge_pass cmp runs) else index runs 0
  end.

Definition mergeFiles (s : sorter) (w : world) (inputs : list (list Z * reader)) (output : list Z) : outcome result :=
  match read_inputs (w_stdin w) inputs with
  | inl e => Ret (cannot_read e)
  | inr ds =>
      let runs := (fun d => splitLines d (zeroTerm s)) <$> ds in
      let! merged := merge_passes (S (length runs)) (comparator (compare ToUpper s)) runs in
      let! merged := keep_unique s (compareEqual ToUpper s) merged in
      Ret (write_lines w output (zeroTerm s) merged)
  end.

(** -R without a positional key: eight bytes of the random source for each
    line. [crypto] are the numbers of the system's own generator. *)
Definition little_endian (b : list Z) : Z := foldr (fun c v => c + 256 * v) 0 b.

Fixpoint random_numbers (n : nat) (src : list Z) : option (list Z) :=
  match n with
  | O => Some []
  | S n =>
      if len src <? 8 then None
      else match random_numbers n (drop 8 src) with
           | Some r => Some (little_endian (take 8 src) :: r)
           | None => None
           end
  end.

Definition randomShuffle (s : sorter) (w : world) (randSrc : option (list Z)) (crypto : nat -> Z)
  (inputs : list (list Z * reader)) (output : list Z) : outcome result :=
  match read_inputs (w_stdin w) inputs with
  | inl e => Ret (cannot_read e)
  | inr ds =>
      let lines := mjoin ((fun d => splitLines d (zeroTerm s)) <$> ds) in
      match (match randSrc with
             | Some src => random_numbers (length lines) src
             | None => Some (crypto <$> seq 0 (length lines))
             end) with
      | None => Ret (fail (str! "random-source exhausted"))
      | Some rnd =>
          let lines := SliceStable _ (fun i j => nth i rnd 0 <? nth j rnd 0) lines in
          let! lines := keep_unique s (compareEqual ToUpper s) lines in
          Ret (write_lines w output (zeroTerm s) lines)
      end
  end.

Definition hasNonTrivialKeys (s : sorter) : bool :=
  existsb (fun k => negb (sword k =? 0) || negb (schar k =? 0) || negb (eword k =? -1) || negb (echar k =? 0)) (keys s).

(** The lines of all inputs with their prepared keys. *)
Fixpoint read_numeric (zeroTerm : bool) (ds : list (list Z)) : outcome (list numericLine * bool) :=
  match ds with
  | [] => Ret ([], true)
  | d :: ds' =>
      let! (l, ok) := splitNumericLines d zeroTerm in
      let! (ls, oks) := read_numeric zeroTerm ds' in
      Ret (l ++ ls, ok && oks)
  end.

(** The end of [runWithProviders]: sort and write. *)
Definition sort_inputs (s : sorter) (w : world) (inputs : list (list Z * reader)) (output : list Z) : outcome result :=
  match read_inputs (w_stdin w) inputs with
  | inl e => Ret (cannot_read e)
  | inr ds =>
      if canUsePreparedNumeric s then
        let! (lines, allInt) := read_numeric (zeroTerm s) ds in
        let! lines := sortNumericLines procs SortF s lines allInt in
        let! lines := keep_unique s (fun a b => compareNumericKey (text a) (num a) (text b) (num b)) lines in
        Ret (write_lines w output (zeroTerm s) (text <$> lines))
      else
        let lines := mjoin ((fun d => splitLines d (zeroTerm s)) <$> ds) in
        let! lines := sortLines ToUpper procs SortF s lines in
        let! lines := keep_unique s (compareEqual ToUpper s) lines in
        Ret (write_lines w output (zeroTerm s) lines)
  end.

(** ** The command *)

(** The values of the flags. *)
Record flags := Flags {
  f_opts : keyOpts;
  f_check : bool;
  f_checkSilent : bool;
  f_keyDefs : list (list Z);
  f_merge : bool;
  f_output : list Z;
  f_randSource : list Z;
  f_sortMode : list Z;
  f_stable : bool;
  f_sep : option (list Z);
  f_unique : bool;
  f_zeroTerm : bool;
  f_files0 : list Z;
}.

(** [-b] sets both blank options of [f_opts], as in [gOpts]. *)
Definition set_mode (o : keyOpts) (mode : list Z) : option keyOpts :=
  let '(KeyOpts n h f d g i M R V r sb eb) := o in
  let mode_is w := str_eqb mode w in
  if mode_is [] then Some o
  else if mode_is (str! "general-numeric") || mode_is (str! "g") then Some (KeyOpts n h f d true i M R V r sb eb)
  else if mode_is (str! "human-numeric") || mode_is (str! "human") || mode_is (str! "h") then Some (KeyOpts n true f d g i M R V r sb eb)
  else if mode_is (str! "month") || mode_is (str! "M") then Some (KeyOpts n h f d g i true R V r sb eb)
  else if mode_is (str! "numeric") || mode_is (str! "n") then Some (KeyOpts true h f d g i M R V r sb eb)
  else if mode_is (str! "random") || mode_is (str! "R") then Some (KeyOpts n h f d g i M true V r sb eb)
  else if mode_is (str! "version") || mode_is (str! "V") then Some (KeyOpts n h f d g i M R true r sb eb)
  else None.

(** [-t]: the separator, or the message. *)
Definition separator (sep : option (list Z)) : list Z + Z :=
  match sep with
  | None => inr (-1)
  | Some [] => inl (str! "empty tab")
  | Some s =>
      if str_eqb s (str! "\0") then inr 0
      else match s with
           | [c] => inr c
           | _ => inl (str! "multi-character tab '" ++ s ++ str! "'")
           end
  end.

Fixpoint parse_keys (defs : list (list Z)) : list Z + list keySpec :=
  match defs with
  | [] => inr []
  | def :: defs' =>
      let '(k, errMsg, badType) := parseKeySpec def in
      if negb (badType =? 0) then
        inl (str! "key type letter '" ++ string_of_byte badType ++ str! "' (in '-k " ++ def ++ str! "')" ++ not_supported)
      else if negb (str_eqb errMsg []) then inl (errMsg ++ str! ": invalid field specification '" ++ def ++ str! "'")
      else if k_numeric (opts k) && k_human (opts k) then inl (str! "options '-hn' are incompatible")
      else match parse_keys defs' with
           | inl e => inl e
           | inr ks => inr (k :: ks)
           end
  end.

(** The keys after the global options are inherited. *)
Definition effective_keys (g : keyOpts) (ks : list keySpec) : list keySpec :=
  let ks := (fun k => if negb (hasMods (opts k)) && negb (k_reverse (opts k)) then set_opts k g else k) <$> ks in
  match ks with
  | [] => if hasMods g then [KeySpec 0 0 (-1) 0 g] else []
  | _ => ks
  end.

(** The locale: what LC_COLLATE, LC_CTYPE and LC_NUMERIC provide. *)
Record locales := Locales {
  l_collator : option (list Z -> list Z -> Z);
  l_ctype : option ctypeTables;
  l_decPt : Z;
  l_thousSep : Z;
}.

Definition uses_text_class (ks : list keySpec) : bool :=
  existsb (fun k => k_fold (opts k) || k_dict (opts k) || k_ignoreNP (opts k)) ks.

Section command.
Variable Quote : list Z -> list Z.

Definition configure (f : flags) (loc : locales) : list Z + sorter :=
  match set_mode (f_opts f) (f_sortMode f) with
  | None => inl (str! "invalid --sort argument " ++ Quote (f_sortMode f) ++ help_hint)
  | Some g =>
      if k_numeric g && k_human g then inl (str! "options '-hn' are incompatible")
      else if k_numeric g && k_generalNum g then inl (str! "options '-ng' are incompatible")
      else
        match separator (f_sep f) with
        | inl e => inl e
        | inr tab =>
            match parse_keys (f_keyDefs f) with
            | inl e => inl e
            | inr ks =>
                let ks := effective_keys g ks in
                let numeric := existsb (fun k => k_numeric (opts k)) ks in
                inr (Sorter ks tab (k_reverse g) (f_stable f) (f_unique f) (k_random g) (f_checkSilent f)
                       (f_zeroTerm f) (f_merge f) (l_collator loc)
                       (if uses_text_class ks then l_ctype loc else None)
                       (if numeric then l_decPt loc else 0) (if numeric then l_thousSep loc else 0))
            end
        end
  end.

(** [--files0-from]: the names between NULs, the empty ones dropped; "-" is
    read from standard input, which is then at its end. *)
Definition readFiles0From (w : world) (path : list Z) : list Z + (list (list Z) * world) :=
  let names d := List.filter (fun n => negb (str_eqb n [])) (split_byte 0 d) in
  if str_eqb path (str! "-") then
    match w_stdin w with
    | ReadError e => inl e
    | Data d => inr (names d, World (Data []) (w_open w) (w_readfile w) (w_create w))
    end
  else match w_readfile w path with
       | inl e => inl e
       | inr d => inr (names d, w)
       end.

(** [--random-source]: [None] when the file cannot be opened. *)
Definition open_random (w : world) (name : list Z) : option (option (list Z)) :=
  match name with
  | [] => Some None
  | _ => match w_open w name with
         | inl _ => None
         | inr (Data d) => Some (Some d)
         | inr (ReadError _) => Some (Some [])
         end
  end.

(** The modes, once the operands are known. *)
Definition run_operands (f : flags) (s : sorter) (w : world) (randSrc : option (list Z)) (crypto : nat -> Z)
  (operands : list (list Z)) : outcome result :=
  let operands := match operands with [] => [str! "-"] | _ => operands end in
  let checking := f_check f || f_checkSilent f in
  if checking && s_merge s then Ret (fail (str! "options '-cm' are incompatible"))
  else if checking && negb (str_eqb (f_output f) []) then Ret (fail (str! "options '-co' are incompatible"))
  else if checking && (1 <? len operands) then
    Ret (fail (str! "extra operand '" ++ nth 1 operands [] ++ str! "' not allowed with -c"))
  else if s_merge s && s_random s then
    Ret (fail (str! "combining --merge with --random-sort" ++ not_supported))
  else
    match openOperands w operands with
    | inl e => Ret (cannot_read e)
    | inr inputs =>
        if checking then checkSorted s w inputs
        else if s_merge s then mergeFiles s w inputs (f_output f)
        else if s_random s && negb (hasNonTrivialKeys s) then randomShuffle s w randSrc crypto inputs (f_output f)
        else sort_inputs s w inputs (f_output f)
    end.

Definition run (f : flags) (loc : locales) (w : world) (crypto : nat -> Z)
  (operands : list (list Z)) : outcome result :=
  match configure f loc with
  | inl msg => Ret (fail msg)
  | inr s =>
      match open_random w (f_randSource f) with
      | None => Ret (fail (f_randSource f ++ str! ": cannot open"))
      | Some randSrc =>
          match f_files0 f with
          | [] => run_operands f s w randSrc crypto operands
          | _ =>
              match readFiles0From w (f_files0 f) with
              | inl e => Ret (fail (f_files0 f ++ str! ": " ++ e))
              | inr (files, w) => run_operands f s w randSrc crypto (files ++ operands)
              end
          end
      end
  end.
End command.
End modes.

End SortMain.
