(* ===== verification/SortNumber.v ===== *)
(** * sort: numbers are compared by their value

    The comparison of -n is that of the exact decimal values of the texts
    ([numCompare_value]), in the default and in a locale's notation; the keys
    prepared once per line compare in the same way, and the integers computed
    for the radix sort are those values. The comparison of -V is the
    lexicographic order of version keys ([filevercmp_key]). *)

From Stdlib Require Import ZArith Lia String QArith.
From stdpp Require Import base tactics list numbers strings.
From S2P Require Import Prelude SortOrder SortKey SortCompare SortFast.

Open Scope Z_scope.
Open Scope go_scope.

Module SortNumber.
Import SortFast.SortFast.

(** ** Values *)

Definition digit_value (c : Z) : Z := c - ch! "0".
Definition decimal (ds : list Z) : Z := undigits 10 (digit_value <$> ds).

(** The bytes of the integer part: digits, and separators of thousands when
    there is one. *)
Definition integer_byte (thousSep c : Z) : bool := is_digit c || (negb (thousSep =? 0) && (c =? thousSep)).

(** The number a text starts with, after blanks: a sign, the digits of the
    integer part and those after the radix byte. *)
Definition number_text (decPt thousSep : Z) (s : list Z) : bool * list Z * list Z :=
  let '(neg, s) := number_sign s in
  (neg, List.filter is_digit (take_while (integer_byte thousSep) s),
   match trim_left (integer_byte thousSep) s with
   | c :: s' => if c =? decPt then take_while is_digit s' else []
   | [] => []
   end).

Definition num_value (decPt thousSep : Z) (s : list Z) : Q :=
  let '(neg, ip, fp) := number_text decPt thousSep s in
  (if neg then - decimal (ip ++ fp) else decimal (ip ++ fp)) # Pos.of_nat (10 ^ length fp).

(** ** Digit strings *)

Abbreviation all_digits := (Forall (fun c => is_digit c = true)).

Lemma is_digit_range c : is_digit c = true -> 48 <= c <= 57.
Proof. unfold is_digit. intros. to_prop. lia. Qed.

Lemma digit_values ds : all_digits ds -> Forall (fun d => 0 <= d < 10) (digit_value <$> ds).
Proof.
  intros H. apply Forall_fmap. eapply Forall_impl; [done|]. intros c Hc%is_digit_range. unfold compose, digit_value. lia.
Qed.

Lemma take_while_all p s : Forall (fun c => p c = true) (take_while p s).
Proof. induction s as [|c s IH]; cbn; [constructor|]. destruct (p c) eqn:E; by constructor. Qed.

Lemma take_trim p s : take_while p s ++ trim_left p s = s.
Proof. induction s as [|c s IH]; cbn; [done|]. destruct (p c); cbn; by rewrite ?IH. Qed.

Lemma trim_left_app p s : exists z, s = z ++ trim_left p s /\ Forall (fun c => p c = true) z.
Proof. exists (take_while p s). split; [by rewrite take_trim|apply take_while_all]. Qed.

Lemma trim_right_app p s : exists z, s = trim_right p s ++ z /\ Forall (fun c => p c = true) z.
Proof.
  destruct (trim_left_app p (rev s)) as (z & E & Hz). exists (rev z). split.
  - unfold trim_right. rewrite <- rev_app_distr, <- E. by rewrite rev_involutive.
  - rewrite Forall_forall in Hz |- *. intros c Hc. apply Hz. by rewrite list_elem_of_In, in_rev, <- list_elem_of_In.
Qed.

Lemma trim_left_head p s c s' : trim_left p s = c :: s' -> p c = false.
Proof.
  induction s as [|x s IH]; cbn; [done|]. destruct (p x) eqn:E; [done|]. by intros [= -> ->].
Qed.

Lemma zeros_replicate z : Forall (fun c => is_zero_digit c = true) z -> z = replicate (length z) 48.
Proof.
  induction 1 as [|c z Hc _ IH]; [done|]. cbn. f_equal; [|done]. unfold is_zero_digit in Hc. to_prop. done.
Qed.

Lemma all_digits_zeros n : all_digits (replicate n 48).
Proof. apply Forall_replicate. done. Qed.

Lemma decimal_app a b : decimal (a ++ b) = decimal a * 10 ^ len b + decimal b.
Proof. unfold decimal, len. by rewrite fmap_app, undigits_app, length_fmap. Qed.

Lemma decimal_zeros n : decimal (replicate n 48) = 0.
Proof.
  unfold decimal. rewrite fmap_replicate. change (digit_value 48) with 0.
  induction n as [|n IH]; [done|]. cbn [replicate]. by rewrite undigits_cons, IH.
Qed.

Lemma decimal_range ds : all_digits ds -> 0 <= decimal ds < 10 ^ len ds.
Proof.
  intros H%digit_values. unfold decimal, len. rewrite <- (length_fmap digit_value). by apply undigits_range; [lia|].
Qed.

Lemma decimal_pad ds n : decimal (ds ++ replicate n 48) = decimal ds * 10 ^ Z.of_nat n.
Proof. rewrite decimal_app, decimal_zeros, len_replicate. lia. Qed.

Lemma decimal_lower c ds : all_digits (c :: ds) -> c <> 48 -> 10 ^ len ds <= decimal (c :: ds).
Proof.
  intros [Hc Hd]%Forall_cons Hz. unfold decimal, len. rewrite fmap_cons, <- (length_fmap digit_value).
  apply undigits_lower; [lia| |by apply digit_values]. apply is_digit_range in Hc. unfold digit_value. lia.
Qed.

(** Digit strings of one length compare as their numbers. *)
Lemma Compare_decimal a b :
  all_digits a -> all_digits b -> length a = length b -> Compare a b = cmp_sign (decimal a ?= decimal b).
Proof.
  intros Ha. revert b; induction Ha as [|x a Hx Ha IH]; intros [|y b] Hb E; try done.
  apply Forall_cons in Hb as [Hy Hb]. injection E as E. cbn [Compare].
  apply is_digit_range in Hx, Hy. pose proof (decimal_range a Ha). pose proof (decimal_range b Hb).
  change (x :: a) with ([x] ++ a). change (y :: b) with ([y] ++ b). rewrite !decimal_app.
  assert (El : len a = len b) by (unfold len; lia). rewrite El in *.
  assert (D1 : forall c, decimal [c] = c - 48) by (intros; unfold decimal, digit_value; cbn; lia).
  rewrite !D1. destruct (Z.ltb_spec x y); [|destruct (Z.ltb_spec y x)].
  - rewrite (proj2 (Z.compare_lt_iff _ _)); [done|nia].
  - rewrite (proj2 (Z.compare_gt_iff _ _)); [done|nia].
  - assert (x = y) as -> by lia. rewrite IH by done. f_equal.
    destruct (Z.compare_spec (decimal a) (decimal b)), (Z.compare_spec ((y - 48) * 10 ^ len b + decimal a) ((y - 48) * 10 ^ len b + decimal b)); lia || done.
Qed.

Lemma Compare_app a b c d :
  length a = length b -> Compare (a ++ c) (b ++ d) = if Compare a b =? 0 then Compare c d else Compare a b.
Proof.
  revert b; induction a as [|x a IH]; intros [|y b] E; try done. injection E as E. cbn.
  destruct (x <? y); [done|]. destruct (y <? x); [done|]. by apply IH.
Qed.

Definition not_zero (c : Z) : bool := negb (c =? 48).

Lemma existsb_zeros l n : existsb not_zero (l ++ replicate n 48) = existsb not_zero l.
Proof. rewrite existsb_app. induction n as [|n IH]; [apply orb_false_r|done]. Qed.

Lemma Compare_zeros l : all_digits l -> Compare (replicate (length l) 48) l = if existsb not_zero l then -1 else 0.
Proof.
  induction 1 as [|y l Hy Hl IH]; [done|]. cbn. apply is_digit_range in Hy. unfold not_zero at 1.
  destruct (Z.ltb_spec 48 y), (Z.ltb_spec y 48), (Z.eqb_spec y 48); cbn; lia || done.
Qed.

(** Fractions compare as if padded with zeros to one length. *)
Lemma compareFraction_pad a b m n :
  all_digits a -> all_digits b -> (length a + m = length b + n)%nat ->
  compareFraction a b = Compare (a ++ replicate m 48) (b ++ replicate n 48).
Proof.
  intros Ha. revert b; induction Ha as [|x a Hx Ha IH]; intros b Hb E.
  - cbn [app compareFraction]. replace m with (length (b ++ replicate n 48)) by (rewrite length_app, length_replicate; cbn in E; lia).
    rewrite Compare_zeros by (apply Forall_app; split; [done|apply all_digits_zeros]). by rewrite existsb_zeros.
  - destruct Hb as [|y b Hy Hb]; cbn [compareFraction].
    + rewrite Compare_flip. cbn [app]. change (x :: a ++ replicate m 48) with ((x :: a) ++ replicate m 48).
      replace n with (length ((x :: a) ++ replicate m 48)) by (rewrite length_app, length_replicate; cbn in E |- *; lia).
      rewrite Compare_zeros by (apply Forall_app; split; [by constructor|apply all_digits_zeros]).
      rewrite existsb_zeros. change (existsb _ (x :: a)) with (existsb not_zero (x :: a)). by destruct (existsb _ _).
    + cbn in E |- *. rewrite <- (IH b) by (done || lia).
      destruct (Z.eqb_spec x y), (Z.ltb_spec x y), (Z.ltb_spec y x); cbn; lia || done.
Qed.

(** ** Comparison of magnitudes *)

Lemma cmpInt_sign a b : cmpInt a b = cmp_sign (a ?= b).
Proof. unfold cmpInt. destruct (Z.compare_spec a b), (Z.ltb_spec a b), (Z.ltb_spec b a); lia || done. Qed.

Definition no_leading_zero (ds : list Z) : Prop := head ds <> Some 48.

Lemma magnitude_shorter ia ib fa fb :
  all_digits ia -> all_digits ib -> all_digits fa -> all_digits fb -> no_leading_zero ib ->
  len fa = len fb -> len ia < len ib -> decimal (ia ++ fa) < decimal (ib ++ fb).
Proof.
  intros Ha Hb Hfa Hfb Hn E L. destruct ib as [|c ib]; [pose proof (len_nonneg ia); unfold len in *; cbn [length] in L; lia|].
  rewrite len_cons in L. pose proof (decimal_range (ia ++ fa) ltac:(by apply Forall_app)) as [_ H1].
  assert (H2 : 10 ^ len (ib ++ fb) <= decimal (c :: (ib ++ fb))).
  { apply decimal_lower; [|intros ->; by apply Hn].
    apply Forall_cons in Hb as [Hc Hb]. constructor; [done|]. by apply Forall_app. }
  cbn [app]. rewrite len_app in *. eapply Z.lt_le_trans; [done|]. eapply Z.le_trans; [|done].
  apply Z.pow_le_mono_r; lia.
Qed.

Lemma magCompare_decimal ia ib fa fb m n :
  all_digits ia -> all_digits ib -> all_digits fa -> all_digits fb ->
  no_leading_zero ia -> no_leading_zero ib -> (length fa + m = length fb + n)%nat ->
  magCompare ia fa ib fb =
  cmp_sign (decimal (ia ++ fa) * 10 ^ Z.of_nat m ?= decimal (ib ++ fb) * 10 ^ Z.of_nat n).
Proof.
  intros Ha Hb Hfa Hfb Na Nb E. rewrite <- !decimal_pad, <- !app_assoc. unfold magCompare. cbv zeta. rewrite cmpInt_sign.
  assert (Hpa : all_digits (fa ++ replicate m 48)) by (apply Forall_app; split; [done|apply all_digits_zeros]).
  assert (Hpb : all_digits (fb ++ replicate n 48)) by (apply Forall_app; split; [done|apply all_digits_zeros]).
  assert (El : len (fa ++ replicate m 48) = len (fb ++ replicate n 48)) by (rewrite !len_app, !len_replicate; unfold len; lia).
  destruct (Z.compare_spec (len ia) (len ib)) as [L|L|L]; cbn [cmp_sign Z.eqb negb].
  - rewrite <- Compare_decimal.
    + rewrite Compare_app by (unfold len in L; lia). rewrite (compareFraction_pad fa fb m n) by done.
      by destruct (Compare ia ib =? 0).
    + by apply Forall_app.
    + by apply Forall_app.
    + unfold len in *. rewrite !length_app in *. lia.
  - rewrite (proj2 (Z.compare_lt_iff _ _)); [done|]. by apply magnitude_shorter.
  - rewrite (proj2 (Z.compare_gt_iff _ _)); [done|]. by apply magnitude_shorter.
Qed.

(** ** The value of a text *)

Lemma decimal_pos ds c : all_digits ds -> c ∈ ds -> c <> 48 -> 0 < decimal ds.
Proof.
  intros Hd Hc Hz. apply list_elem_of_split in Hc as (a & b & ->). rewrite decimal_app.
  apply Forall_app in Hd as [Ha Hb]. pose proof (decimal_range a Ha). pose proof (decimal_lower c b Hb Hz).
  pose proof (Z.pow_pos_nonneg 10 (len b) ltac:(lia) (len_nonneg _)).
  pose proof (Z.pow_pos_nonneg 10 (len (c :: b)) ltac:(lia) (len_nonneg _)). nia.
Qed.

Lemma trim_left_digits ds : all_digits ds -> all_digits (trim_left is_zero_digit ds) /\ no_leading_zero (trim_left is_zero_digit ds).
Proof.
  intros H. split.
  - destruct (trim_left_app is_zero_digit ds) as (z & E & _). rewrite E in H. by apply Forall_app in H as [_ H].
  - unfold no_leading_zero. destruct (trim_left is_zero_digit ds) as [|c s] eqn:E; [done|].
    apply trim_left_head in E. cbn. intros [= ->]. done.
Qed.

Lemma trim_left_decimal ds x : decimal (trim_left is_zero_digit ds ++ x) = decimal (ds ++ x).
Proof.
  destruct (trim_left_app is_zero_digit ds) as (z & E & Hz). rewrite E at 2.
  rewrite (zeros_replicate z Hz), <- app_assoc, (decimal_app (replicate _ _)), decimal_zeros. lia.
Qed.

Lemma trim_right_digits ds :
  all_digits ds ->
  all_digits (trim_right is_zero_digit ds) /\
  (trim_right is_zero_digit ds = [] \/ exists c, c ∈ trim_right is_zero_digit ds /\ c <> 48) /\
  exists k, ds = trim_right is_zero_digit ds ++ replicate k 48.
Proof.
  intros H. destruct (trim_right_app is_zero_digit ds) as (z & E & Hz). split_and!.
  - rewrite E in H. by apply Forall_app in H as [H _].
  - unfold trim_right. destruct (trim_left is_zero_digit (rev ds)) as [|c s] eqn:Es; [by left|right].
    exists c. split; [apply list_elem_of_In; rewrite <- in_rev; apply in_eq|].
    apply trim_left_head in Es. unfold is_zero_digit in Es. to_prop. done.
  - exists (length z). by rewrite <- (zeros_replicate z Hz).
Qed.

(** A signed magnitude is zero exactly when no part is left. *)
Lemma signed_parts_sign neg ip fp :
  all_digits ip -> no_leading_zero ip -> all_digits fp -> (fp = [] \/ exists c, c ∈ fp /\ c <> 48) ->
  exists sg, signed_parts neg ip fp = (sg, ip, fp) /\
    ((sg = 0 /\ decimal (ip ++ fp) = 0) \/ (sg = (if neg then -1 else 1) /\ 0 < decimal (ip ++ fp))).
Proof.
  intros Hi Hn Hf Hz. destruct ip as [|c ip].
  - destruct Hz as [->|(d & Hd & Hd0)]; [eexists; split; [done|by left]|].
    destruct fp as [|e fp]; [by apply elem_of_nil in Hd|]. eexists. split; [done|right].
    split; [done|]. by apply (decimal_pos _ d).
  - eexists. split; [done|right]. split; [done|]. apply (decimal_pos _ c); [by apply Forall_app|apply list_elem_of_here|].
    intros ->. by apply Hn.
Qed.

Definition signed_value (n : bool * list Z * list Z) : Q :=
  let '(neg, ip, fp) := n in
  (if neg then - decimal (ip ++ fp) else decimal (ip ++ fp)) # Pos.of_nat (10 ^ length fp).

Definition trimmed_parts (n : bool * list Z * list Z) : Z * list Z * list Z :=
  let '(neg, ip, fp) := n in signed_parts neg (trim_left is_zero_digit ip) (trim_right is_zero_digit fp).

Lemma pos_pow10 n : Z.pos (Pos.of_nat (10 ^ n)) = 10 ^ Z.of_nat n.
Proof.
  pose proof (Nat2Z.inj_pow 10 n) as E. change (Z.of_nat 10) with 10 in E. rewrite <- E.
  pose proof (Nat.pow_nonzero 10 n ltac:(lia)). lia.
Qed.

Lemma signed_compare (na nb : bool) x y sa sb :
  (sa = 0 /\ x = 0) \/ (sa = (if na then -1 else 1) /\ 0 < x) ->
  (sb = 0 /\ y = 0) \/ (sb = (if nb then -1 else 1) /\ 0 < y) ->
  (if negb (sa =? sb) then cmpInt sa sb else if sa <? 0 then - cmp_sign (x ?= y) else cmp_sign (x ?= y)) =
  cmp_sign ((if na then - x else x) ?= (if nb then - y else y)).
Proof.
  intros Hx Hy. unfold cmpInt.
  destruct (Z.eqb_spec sa sb), (Z.ltb_spec sa 0), (Z.ltb_spec sa sb), (Z.ltb_spec sb sa); cbn [negb];
    destruct (Z.compare_spec x y), (Z.compare_spec (if na then - x else x) (if nb then - y else y));
    destruct na, nb; cbn [cmp_sign]; lia.
Qed.

Lemma trimmed_compare a b :
  all_digits a.1.2 -> all_digits a.2 -> all_digits b.1.2 -> all_digits b.2 ->
  compare_parts (trimmed_parts a) (trimmed_parts b) = cmp_sign (signed_value a ?= signed_value b)%Q.
Proof.
  destruct a as [[na ia] fa], b as [[nb ib] fb]. cbn [fst snd]. intros Ha Hfa Hb Hfb. unfold trimmed_parts, signed_value.
  destruct (trim_left_digits ia Ha) as [A1 A2]. destruct (trim_right_digits fa Hfa) as (A3 & A4 & ka & Ea).
  destruct (trim_left_digits ib Hb) as [B1 B2]. destruct (trim_right_digits fb Hfb) as (B3 & B4 & kb & Eb).
  rewrite <- (trim_left_decimal ia), <- (trim_left_decimal ib).
  set (ia' := trim_left is_zero_digit ia) in *. set (ib' := trim_left is_zero_digit ib) in *.
  set (fa' := trim_right is_zero_digit fa) in *. set (fb' := trim_right is_zero_digit fb) in *.
  clearbody ia' ib' fa' fb'. subst fa fb.
  destruct (signed_parts_sign na ia' fa') as (sa & -> & Sa); try done.
  destruct (signed_parts_sign nb ib' fb') as (sb & -> & Sb); try done.
  unfold compare_parts, Qcompare. cbn [Qnum Qden]. rewrite !pos_pow10, !length_app, !length_replicate.
  rewrite !app_assoc, !decimal_pad.
  set (m := (ka + (length fb' + kb))%nat). set (n := (kb + (length fa' + ka))%nat).
  rewrite (magCompare_decimal ia' ib' fa' fb' m n) by (done || lia).
  set (x := decimal (ia' ++ fa')) in *. set (y := decimal (ib' ++ fb')) in *.
  rewrite (signed_compare na nb (x * 10 ^ Z.of_nat m) (y * 10 ^ Z.of_nat n)).
  - f_equal. unfold m, n. rewrite !(Nat2Z.inj_add ka), !(Nat2Z.inj_add kb), !Z.pow_add_r by lia.
    f_equal; [destruct na|destruct nb]; ring.
  - pose proof (Z.pow_pos_nonneg 10 (Z.of_nat m) ltac:(lia) ltac:(lia)). destruct Sa as [[-> ->]|[-> ?]]; [by left|right; split; [done|nia]].
  - pose proof (Z.pow_pos_nonneg 10 (Z.of_nat n) ltac:(lia) ltac:(lia)). destruct Sb as [[-> ->]|[-> ?]]; [by left|right; split; [done|nia]].
Qed.

(** What the parsers read, in terms of the text. *)
Lemma grouped_digits_spec ts s :
  grouped_digits ts s = (List.filter is_digit (take_while (integer_byte ts) s), trim_left (integer_byte ts) s).
Proof.
  induction s as [|c s IH]; [done|]. cbn [grouped_digits take_while trim_left]. unfold integer_byte at 1 3.
  destruct (is_digit c) eqn:E; cbn [orb].
  - rewrite IH. cbn [List.filter]. by rewrite E.
  - destruct (negb (ts =? 0) && (c =? ts)); [|done]. rewrite IH. cbn [List.filter]. by rewrite E.
Qed.

Lemma integer_byte_plain s :
  take_while (integer_byte 0) s = take_while is_digit s /\ trim_left (integer_byte 0) s = trim_left is_digit s.
Proof.
  induction s as [|c s [IH1 IH2]]; [done|]. cbn [take_while trim_left]. unfold integer_byte at 1 3. cbn.
  rewrite orb_false_r. destruct (is_digit c); by rewrite ?IH1, ?IH2.
Qed.

Lemma filter_digits s : all_digits (List.filter is_digit s).
Proof. induction s as [|c s IH]; cbn; [constructor|]. destruct (is_digit c) eqn:E; [by constructor|done]. Qed.

Lemma filter_take_digits s : List.filter is_digit (take_while is_digit s) = take_while is_digit s.
Proof. induction s as [|c s IH]; cbn; [done|]. destruct (is_digit c) eqn:E; cbn; rewrite ?E, ?IH; done. Qed.

Lemma fraction_part_trim dp s :
  fraction_part dp s =
  trim_right is_zero_digit (match s with c :: s' => if c =? dp then take_while is_digit s' else [] | [] => [] end).
Proof. destruct s as [|c s]; cbn; [done|]. by destruct (c =? dp). Qed.

Lemma parseNumPartsLocale_trimmed dp ts s : parseNumPartsLocale dp ts s = trimmed_parts (number_text dp ts s).
Proof.
  unfold parseNumPartsLocale, number_text, trimmed_parts. destruct (number_sign s) as [neg s'].
  by rewrite grouped_digits_spec, fraction_part_trim.
Qed.

Lemma parseNumParts_trimmed s : parseNumParts s = trimmed_parts (number_text (ch! ".") 0 s).
Proof.
  unfold parseNumParts, number_text, trimmed_parts. destruct (number_sign s) as [neg s'].
  destruct (integer_byte_plain s') as [-> ->]. by rewrite fraction_part_trim, filter_take_digits.
Qed.

Lemma number_text_digits dp ts s : all_digits (number_text dp ts s).1.2 /\ all_digits (number_text dp ts s).2.
Proof.
  unfold number_text. destruct (number_sign s) as [neg s']. cbn. split; [apply filter_digits|].
  destruct (trim_left _ s') as [|c s1]; [constructor|]. destruct (c =? dp); [apply take_while_all|constructor].
Qed.

(** The radix byte in force: a point unless the locale gives separators. *)
Definition radix_byte (decPt thousSep : Z) : Z := if (decPt =? 0) && (thousSep =? 0) then ch! "." else decPt.

Lemma numCompare_by_value dp ts a b :
  sorter_numCompare dp ts a b =
  cmp_sign (num_value (radix_byte dp ts) ts a ?= num_value (radix_byte dp ts) ts b)%Q.
Proof.
  assert (H : forall dp ts, compare_parts (trimmed_parts (number_text dp ts a)) (trimmed_parts (number_text dp ts b)) =
    cmp_sign (num_value dp ts a ?= num_value dp ts b)%Q).
  { intros. apply trimmed_compare; apply number_text_digits. }
  unfold sorter_numCompare, radix_byte, numCompare. destruct ((dp =? 0) && (ts =? 0)) eqn:E.
  - to_prop. subst. by rewrite !parseNumParts_trimmed.
  - by rewrite !parseNumPartsLocale_trimmed.
Qed.

Lemma sorter_numCompare_order dp ts : CmpOrder (fun _ => True) (sorter_numCompare dp ts).
Proof.
  eapply CmpOrder_ext; [intros a b _ _; apply numCompare_by_value|].
  apply (CmpOrder_pullback _ (fun _ => True) (num_value (radix_byte dp ts) ts) (fun x y => cmp_sign (x ?= y)%Q)); [done|].
  apply Qcompare_order.
Qed.

Lemma numCompare_order : CmpOrder (fun _ => True) numCompare.
Proof. apply (sorter_numCompare_order 0 0). Qed.

(** ** Prepared keys *)

(** The prepared key points at the parts of the line. *)
Definition key_points (s : list Z) (k : numericKey) (sg : Z) (ip fp : list Z) : Prop :=
  sign k = sg /\ ipLen k = len ip /\ fpLen k = len fp /\
  slice s (ipStart k) (ipStart k + ipLen k) = Ret ip /\
  slice s (fpStart k) (fpStart k + fpLen k) = Ret fp.

Lemma slice_mid {A} (a b c : list A) i j : i = len a -> j = len a + len b -> slice (a ++ b ++ c) i j = Ret b.
Proof.
  intros -> ->. rewrite slice_Ret; [by rewrite sub_mid|..]; rewrite ?len_app; pose proof (len_nonneg a); pose proof (len_nonneg b); pose proof (len_nonneg c); lia.
Qed.

Lemma number_sign_suffix s neg s1 : number_sign s = (neg, s1) -> exists p, s = p ++ s1.
Proof.
  unfold number_sign. destruct (trim_left_app is_blank s) as (z & E & _). destruct (trim_left is_blank s) as [|c s'].
  - intros [= <- <-]. by exists s; rewrite app_nil_r.
  - destruct (c =? 45); intros [= <- <-]; [exists (z ++ [c]); by rewrite <- app_assoc|by exists z].
Qed.

Lemma int32_small z n : 0 <= z <= n -> n < 2 ^ 31 -> int32 z = z.
Proof. intros. apply wraps_id; [lia|]. unfold in_sint. cbn. lia. Qed.

(** The fraction in a key: where it is, or nothing at 0. *)
Lemma key_fraction p j :
  let '(fs, fe) :=
    match j with
    | c :: s2 =>
        if c =? ch! "." then
          (len (p ++ j) - len s2, len (p ++ j) - len s2 + len (trim_right is_zero_digit (take_while is_digit s2)))
        else (0, 0)
    | [] => (0, 0)
    end in
  fe - fs = len (fraction_part (ch! ".") j) /\ 0 <= fs <= len (p ++ j) /\ 0 <= fe - fs <= len (p ++ j) /\
  slice (p ++ j) fs fe = Ret (fraction_part (ch! ".") j).
Proof.
  assert (E0 : forall s : list Z, slice s 0 0 = Ret []) by (intros s; rewrite slice_Ret; [done|..]; pose proof (len_nonneg s); lia).
  pose proof (len_nonneg (p ++ j)). destruct j as [|c s2]; [rewrite E0; split_and!; done || lia|].
  unfold fraction_part. destruct (c =? 46); [|rewrite E0; split_and!; done || lia].
  destruct (trim_right_app is_zero_digit (take_while is_digit s2)) as (z & E & _).
  pose proof (take_trim is_digit s2) as T. rewrite E in T.
  set (fp := trim_right is_zero_digit (take_while is_digit s2)) in *. clearbody fp.
  assert (Es : p ++ c :: s2 = (p ++ [c]) ++ fp ++ (z ++ trim_left is_digit s2)) by (rewrite <- T at 1; rewrite <- !app_assoc; done).
  assert (L1 : len (p ++ c :: s2) = len p + 1 + len s2) by (rewrite len_app, len_cons; lia).
  assert (L2 : len s2 = len fp + len z + len (trim_left is_digit s2)) by (rewrite <- T at 1; rewrite !len_app; lia).
  assert (L3 : len (p ++ [c]) = len p + 1) by (rewrite len_app, len_cons; unfold len; cbn [length]; lia).
  pose proof (len_nonneg fp). pose proof (len_nonneg z). pose proof (len_nonneg p). pose proof (len_nonneg (trim_left is_digit s2)).
  split_and!; try lia. rewrite Es at 1. apply slice_mid; lia.
Qed.

Lemma parseNumericKey_points s sg ip fp :
  len s < 2 ^ 31 -> parseNumParts s = (sg, ip, fp) -> key_points s (parseNumericKey s) sg ip fp.
Proof.
  intros L. unfold parseNumParts, parseNumericKey. destruct (number_sign s) as [neg s1] eqn:En.
  apply number_sign_suffix in En as [p ->].
  destruct (trim_left_app is_zero_digit (take_while is_digit s1)) as (z & Ez & _).
  pose proof (take_trim is_digit s1) as T. rewrite Ez in T.
  set (ip' := trim_left is_zero_digit (take_while is_digit s1)) in *. clearbody ip'.
  set (j := trim_left is_digit s1) in *. clearbody j. clear Ez. subst s1.
  pose proof (key_fraction (p ++ z ++ ip') j) as F. rewrite <- !app_assoc in F. rewrite <- !app_assoc in L |- *.
  set (fp' := fraction_part 46 j) in *. clearbody fp'.
  destruct (match j with [] => _ | _ => _ end) as [fs fe]. destruct F as (F1 & F2 & F3 & F4).
  assert (El : len (p ++ z ++ ip' ++ j) = len p + len z + len ip' + len j) by (rewrite !len_app; lia).
  pose proof (len_nonneg p). pose proof (len_nonneg z). pose proof (len_nonneg ip'). pose proof (len_nonneg j).
  replace (len (p ++ z ++ ip' ++ j) - len j - len ip' =? len (p ++ z ++ ip' ++ j) - len j) with (len ip' =? 0)
    by (rewrite El; apply Bool.eq_true_iff_eq; rewrite !Z.eqb_eq; lia).
  replace (fs =? fe) with (len fp' =? 0) by (apply Bool.eq_true_iff_eq; rewrite !Z.eqb_eq; lia).
  intros Hsp. destruct ((len ip' =? 0) && (len fp' =? 0)) eqn:E0.
  - to_prop. destruct ip', fp'; try (unfold len in *; cbn in *; lia). injection Hsp as <- <- <-.
    assert (E00 : forall s : list Z, slice s 0 0 = Ret []) by (intros s; rewrite slice_Ret; [done|..]; pose proof (len_nonneg s); lia).
    unfold key_points, zero_key. cbn [sign ipLen fpLen ipStart fpStart]. cbn [Z.add]. rewrite E00. done.
  - assert (Hs : (if neg then -1 else 1, ip', fp') = (sg, ip, fp)) by (by destruct ip', fp').
    injection Hs as <- <- <-. unfold key_points. cbn [sign ipLen fpLen ipStart fpStart].
    rewrite !(int32_small _ (len (p ++ z ++ ip' ++ j))) by lia. split_and!; [done|lia|lia|..].
    + rewrite app_assoc. apply slice_mid; rewrite !len_app; lia.
    + by replace (fs + (fe - fs)) with fe by lia.
Qed.

Lemma compareNumericKey_points as_ a bs b sa ia fa sb ib fb :
  key_points as_ a sa ia fa -> key_points bs b sb ib fb ->
  compareNumericKey as_ a bs b = Ret (compare_parts (sa, ia, fa) (sb, ib, fb)).
Proof.
  intros (A1 & A2 & A3 & A4 & A5) (B1 & B2 & B3 & B4 & B5). unfold compareNumericKey, compare_parts, magCompare.
  rewrite A4, A5, B4, B5, A1, A2, B1, B2. cbv zeta. destruct (negb (sa =? sb)); [done|].
  destruct (cmpInt (len ia) (len ib) =? 0) eqn:E1; cbn [bind negb]; [|by rewrite E1].
  destruct (Compare ia ib =? 0) eqn:E2; cbn [bind negb]; done.
Qed.

(** A prepared key compares as the text it was prepared from. *)
Lemma compareNumericKey_numCompare a b :
  len a < 2 ^ 31 -> len b < 2 ^ 31 ->
  compareNumericKey a (parseNumericKey a) b (parseNumericKey b) = Ret (numCompare a b).
Proof.
  intros La Lb. unfold numCompare.
  destruct (parseNumParts a) as [[sa ia] fa] eqn:Ea, (parseNumParts b) as [[sb ib] fb] eqn:Eb.
  by apply compareNumericKey_points; apply parseNumericKey_points.
Qed.

(** ** Integer keys *)

Lemma decimal_snoc ds c : decimal (ds ++ [c]) = decimal ds * 10 + (c - 48).
Proof. rewrite decimal_app. unfold decimal at 2, len, digit_value. cbn. lia. Qed.

Lemma decimal_18 ds : all_digits ds -> len ds <= 18 -> 0 <= decimal ds < 10 ^ 18.
Proof.
  intros H L. pose proof (decimal_range ds H). pose proof (Z.pow_le_mono_r 10 (len ds) 18 ltac:(lia) L). lia.
Qed.

Lemma int64_decimal ds :
  all_digits ds -> len ds <= 18 -> foldl (fun v c => int64 (v * 10 + (c - 48))) 0 ds = decimal ds.
Proof.
  induction ds as [|c ds IH] using rev_ind; intros H L; [done|].
  apply Forall_app in H as [H Hc]. rewrite foldl_app. cbn [foldl].
  rewrite IH by (done || (rewrite len_app in L; pose proof (len_nonneg [c]); lia)). rewrite decimal_snoc.
  apply wraps_id; [lia|]. rewrite <- decimal_snoc. pose proof (decimal_18 (ds ++ [c]) ltac:(by apply Forall_app) L).
  unfold in_sint. cbn in *. lia.
Qed.

Lemma parseNumParts_spec s sg ip fp :
  parseNumParts s = (sg, ip, fp) ->
  exists neg : bool, all_digits ip /\ no_leading_zero ip /\ all_digits fp /\
    ((sg = 0 /\ decimal (ip ++ fp) = 0) \/ (sg = (if neg then -1 else 1) /\ 0 < decimal (ip ++ fp))).
Proof.
  rewrite parseNumParts_trimmed. pose proof (number_text_digits 46 0 s) as [Hi Hf].
  destruct (number_text 46 0 s) as [[neg ip0] fp0]. cbn in Hi, Hf. unfold trimmed_parts.
  destruct (trim_left_digits ip0 Hi) as [A1 A2]. destruct (trim_right_digits fp0 Hf) as (A3 & A4 & _).
  destruct (signed_parts_sign neg _ _ A1 A2 A3 A4) as (sg' & -> & S). intros [= <- <- <-]. by exists neg.
Qed.

(** The integer of a key: what [intKeyVal] computes when it succeeds. *)
Lemma intKeyVal_value s sg ip fp :
  len s < 2 ^ 31 -> parseNumParts s = (sg, ip, fp) ->
  intKeyVal s (parseNumericKey s) =
  Ret (if (len fp =? 0) && (len ip <=? 18) then (sg * decimal ip, true) else (0, false)).
Proof.
  intros L Hp. pose proof (parseNumericKey_points s sg ip fp L Hp) as (A1 & A2 & A3 & A4 & A5).
  destruct (parseNumParts_spec s sg ip fp Hp) as (neg & Hi & _ & _ & Sg). unfold intKeyVal. rewrite A1, A3, A4, A2.
  rewrite (Z.ltb_antisym (len ip) 18). destruct (len fp =? 0) eqn:E1, (len ip <=? 18) eqn:E2; cbn [negb orb andb bind]; try done.
  to_prop. rewrite int64_decimal by done. pose proof (decimal_18 ip Hi E2).
  destruct fp; [|unfold len in E1; cbn in E1; lia]. rewrite app_nil_r in Sg. do 2 f_equal.
  destruct (Z.ltb_spec sg 0).
  - assert (sg = -1) as -> by (destruct neg; lia). rewrite wraps_id; [lia..|]. unfold in_sint. cbn in *. lia.
  - destruct neg; lia.
Qed.

(** Integer keys compare as their integers. *)
Lemma integer_keys_compare a b sa ia sb ib :
  parseNumParts a = (sa, ia, []) -> parseNumParts b = (sb, ib, []) ->
  numCompare a b = cmp_sign (sa * decimal ia ?= sb * decimal ib).
Proof.
  intros Ea Eb. unfold numCompare. rewrite Ea, Eb. unfold compare_parts.
  destruct (parseNumParts_spec _ _ _ _ Ea) as (na & A1 & A2 & _ & Sa).
  destruct (parseNumParts_spec _ _ _ _ Eb) as (nb & B1 & B2 & _ & Sb). rewrite app_nil_r in Sa, Sb.
  rewrite (magCompare_decimal ia ib [] [] 0 0) by (done || constructor). rewrite !app_nil_r, !Z.mul_1_r.
  rewrite (signed_compare na nb _ _ sa sb Sa Sb).
  f_equal. f_equal; [destruct na|destruct nb]; lia.
Qed.

(** [C11] Numeric order is the order of values: -n compares two texts as the
    exact decimal numbers they start with, in the point or in the locale's
    notation, and so do the keys prepared once per line. *)
Theorem numCompare_value dp ts a b :
  len a < 2 ^ 31 -> len b < 2 ^ 31 ->
  sorter_numCompare dp ts a b = cmp_sign (num_value (radix_byte dp ts) ts a ?= num_value (radix_byte dp ts) ts b)%Q /\
  compareNumericKey a (parseNumericKey a) b (parseNumericKey b) =
    Ret (cmp_sign (num_value (ch! ".") 0 a ?= num_value (ch! ".") 0 b)%Q).
Proof.
  intros Ha Hb. split; [apply numCompare_by_value|]. rewrite compareNumericKey_numCompare by done. f_equal.
  apply (numCompare_by_value 0 0).
Qed.

(** ** Versions *)

(** A version string is a sequence of numbers and other bytes. *)
Inductive token :=
| Num (ds : list Z)
| Byte (c : Z).

Fixpoint tokens (s : list Z) : list token :=
  match s with
  | [] => []
  | c :: s' =>
      if is_digit c then
        match tokens s' with
        | Num ds :: r => Num (c :: ds) :: r
        | r => Num [c] :: r
        end
      else Byte c :: tokens s'
  end.

(** The sort key of a token: a number stands where digits stand among the
    bytes, then counts by its length without leading zeros and its digits. *)
Definition token_key (t : token) : list Z :=
  match t with
  | Num ds => let ds := trim_left is_zero_digit ds in ch! "0" :: len ds :: ds
  | Byte c => [c]
  end.

Definition version_key (s : list Z) : list Z := mjoin (token_key <$> tokens s).

Lemma tokens_number c s :
  is_digit c = true ->
  tokens (c :: s) = Num (take_while is_digit (c :: s)) :: tokens (trim_left is_digit (c :: s)).
Proof.
  intros Hc. cbn [tokens take_while trim_left]. rewrite Hc.
  assert (H : match tokens s with Num ds :: r => Num (c :: ds) :: r | r => Num [c] :: r end =
    Num (c :: take_while is_digit s) :: tokens (trim_left is_digit s)); [|done].
  clear Hc. revert c; induction s as [|d s IH]; intros c; [done|]. cbn [tokens take_while trim_left].
  destruct (is_digit d) eqn:E; [by rewrite IH|]. cbn [tokens]. by rewrite E.
Qed.

Lemma digit_zero c : is_zero_digit c = true -> is_digit c = true.
Proof. unfold is_zero_digit. intros. to_prop. by subst. Qed.

Lemma trim_zero_take s :
  trim_left is_zero_digit (take_while is_digit s) = take_while is_digit (trim_left is_zero_digit s).
Proof.
  induction s as [|c s IH]; [done|]. cbn [take_while trim_left]. destruct (is_zero_digit c) eqn:E.
  - rewrite (digit_zero c E). cbn [trim_left]. by rewrite E.
  - cbn [take_while]. destruct (is_digit c); [|done]. cbn [trim_left]. by rewrite E.
Qed.

Lemma trim_zero_digit s : trim_left is_digit (trim_left is_zero_digit s) = trim_left is_digit s.
Proof.
  induction s as [|c s IH]; [done|]. cbn [trim_left]. destruct (is_zero_digit c) eqn:E; [|done].
  by rewrite (digit_zero c E).
Qed.

Lemma version_key_number c s :
  is_digit c = true ->
  version_key (c :: s) =
  (let ds := take_while is_digit (trim_left is_zero_digit (c :: s)) in 48 :: len ds :: ds) ++
  version_key (trim_left is_digit (trim_left is_zero_digit (c :: s))).
Proof.
  intros Hc. unfold version_key. rewrite tokens_number, <- trim_zero_take, trim_zero_digit by done. done.
Qed.

Lemma version_key_byte c s : is_digit c = false -> version_key (c :: s) = c :: version_key s.
Proof. intros Hc. unfold version_key. cbn [tokens]. by rewrite Hc. Qed.

(** The number the key of a string starts with, against a byte that is not
    a digit. *)
Lemma version_key_head c s :
  exists h t, version_key (c :: s) = h :: t /\ (is_digit c = false -> h = c) /\ (is_digit c = true -> h = 48).
Proof.
  destruct (is_digit c) eqn:E; [rewrite version_key_number by done|rewrite version_key_byte by done];
    eexists _, _; split; [done..| |done|done]; done.
Qed.

Lemma length_trim_left p s : (length (trim_left p s) <= length s)%nat.
Proof. destruct (trim_left_app p s) as (z & E & _). rewrite E at 2. rewrite length_app. lia. Qed.

Lemma filevercmp_from_key fuel a b :
  (length a < fuel)%nat -> filevercmp_from fuel a b = Ret (Compare (version_key a) (version_key b)).
Proof.
  revert a b; induction fuel as [|fuel IH]; intros a b L; [lia|]. cbn [filevercmp_from].
  destruct a as [|x a], b as [|y b]; [done|..].
  { destruct (version_key_head y b) as (h & t & -> & _). done. }
  { destruct (version_key_head x a) as (h & t & -> & _). done. }
  destruct (is_digit x) eqn:Ex, (is_digit y) eqn:Ey; cbn [andb].
  - rewrite !version_key_number by done. cbv zeta.
    assert (Hl : (length (trim_left is_digit (trim_left is_zero_digit (x :: a))) < fuel)%nat).
    { rewrite trim_zero_digit. cbn [trim_left]. rewrite Ex. pose proof (length_trim_left is_digit a). cbn in L. lia. }
    set (na := take_while _ _). set (nb := take_while is_digit _). cbn [app Compare Z.ltb Z.compare Pos.compare Pos.compare_cont].
    destruct (Z.ltb_spec (len na) (len nb)); [done|]. destruct (Z.ltb_spec (len nb) (len na)); [done|].
    rewrite Compare_app by (unfold len in *; lia). destruct (Compare na nb =? 0) eqn:E; cbn [negb]; [by apply IH|done].
  - destruct (version_key_head x a) as (h & t & -> & _ & Hh). rewrite Hh by done. rewrite version_key_byte by done. cbn [Compare].
    apply is_digit_range in Ex. unfold is_digit in Ey. apply andb_false_iff in Ey.
    destruct (Z.eqb_spec x y), (Z.ltb_spec x y), (Z.ltb_spec 48 y), (Z.ltb_spec y 48); cbn [negb]; try done; destruct Ey; to_prop; lia.
  - destruct (version_key_head y b) as (h & t & -> & _ & Hh). rewrite Hh by done. rewrite version_key_byte by done. cbn [Compare].
    apply is_digit_range in Ey. unfold is_digit in Ex. apply andb_false_iff in Ex.
    destruct (Z.eqb_spec x y), (Z.ltb_spec x y), (Z.ltb_spec x 48), (Z.ltb_spec 48 x); cbn [negb]; try done; destruct Ex; to_prop; lia.
  - rewrite !version_key_byte by done. cbn [Compare]. cbn in L.
    destruct (Z.eqb_spec x y), (Z.ltb_spec x y), (Z.ltb_spec y x); cbn [negb]; try lia; try done. apply IH. lia.
Qed.

Lemma filevercmp_key a b : filevercmp a b = Ret (Compare (version_key a) (version_key b)).
Proof. apply filevercmp_from_key. lia. Qed.
End SortNumber.
