(* ===== verification/SortRadix.v ===== *)
(** * sort: the radix sort

    [radixSortNumeric] is the stable sort of the lines by their integer, up
    or down ([radixSortNumeric_stable]). A round distributes the lines into
    the segments of the destination that the running sums of the counts
    reserve, so it sorts stably by one byte of the key; rounds from the lowest
    byte up sort by the whole key. *)

From Stdlib Require Import ZArith Lia String.
From stdpp Require Import base tactics list numbers strings sorting.
From S2P Require Import Prelude SortOrder SortKey SortCompare SortFast.

Open Scope Z_scope.
Open Scope go_scope.

Module SortRadix.
Import SortFast.SortFast.

(** ** Distribution into segments *)

(** A segment of the destination: what was written and what was there. *)
Section segments.
Context {A : Type}.
Implicit Types (segs : list (list A * list A)).

Definition contents segs : list A := mjoin ((fun sg => sg.1 ++ sg.2) <$> segs).

Lemma contents_cons f g segs : contents ((f, g) :: segs) = (f ++ g) ++ contents segs.
Proof. done. Qed.

(** The next free position of each segment. *)
Fixpoint cursors (base : Z) segs : list Z :=
  match segs with
  | [] => []
  | (f, g) :: segs' => (base + len f) :: cursors (base + len f + len g) segs'
  end.

Lemma length_cursors base segs : length (cursors base segs) = length segs.
Proof. revert base; induction segs as [|[f g] segs IH]; intros base; cbn; by rewrite ?IH. Qed.

(** Writing at the cursor of a segment fills its next place. *)
Lemma write_cursor base segs v f g0 g x d :
  0 <= base -> segs !! v = Some (f, g0 :: g) ->
  let segs' := <[v := (f ++ [x], g)]> segs in
  alter Z.succ v (cursors base segs) = cursors base segs' /\
  <[Z.to_nat (nth v (cursors base segs) d - base) := x]> (contents segs) = contents segs'.
Proof.
  intros Hb. revert base v Hb; induction segs as [|[f1 g1] segs IH]; intros base [|v] Hb E; cbn in E; try done.
  - injection E as -> ->. cbn [nth cursors list_insert insert]. split.
    + change (alter Z.succ 0%nat (?a :: ?l)) with (Z.succ a :: l). change (<[0%nat := ?a]> (?y :: ?l)) with (a :: l).
      cbn [cursors]. rewrite len_app, len_cons. change (len [x]) with 1. f_equal; [lia|]. f_equal. lia.
    + change (<[0%nat := ?a]> ((?y : list A * list A) :: ?l)) with (a :: l). rewrite !contents_cons, <- !app_assoc. cbn [app]. replace (Z.to_nat (base + len f - base)) with (length f + 0)%nat by (unfold len; lia).
      by rewrite insert_app_r.
  - pose proof (len_nonneg f1). pose proof (len_nonneg g1).
    destruct (IH (base + len f1 + len g1) v ltac:(lia) E) as [H1 H2]. cbv zeta in *.
    change (<[S v := ?y]> (?z :: ?l)) with (z :: <[v := y]> l). split.
    + cbn [cursors]. change (alter Z.succ (S v) (?a :: ?l)) with (a :: alter Z.succ v l). by rewrite H1.
    + rewrite !contents_cons. cbn [cursors nth]. rewrite <- H2.
      assert (Hv : (v < length (cursors (base + len f1 + len g1) segs))%nat) by (rewrite length_cursors; by eapply lookup_lt_Some).
      assert (Hge : forall b sg w, (w < length (cursors b sg))%nat -> b <= nth w (cursors b sg) d).
      { clear. intros b sg. revert b; induction sg as [|[f g] sg IH]; intros b [|w] Hw; cbn in *; try lia.
        - pose proof (len_nonneg f). lia.
        - pose proof (len_nonneg f). pose proof (len_nonneg g). specialize (IH (b + len f + len g) w ltac:(lia)). lia. }
      specialize (Hge _ _ _ Hv).
      replace (Z.to_nat (nth v (cursors (base + len f1 + len g1) segs) d - base))
        with (length (f1 ++ g1) + Z.to_nat (nth v (cursors (base + len f1 + len g1) segs) d - (base + len f1 + len g1)))%nat
        by (rewrite length_app; unfold len in *; lia).
      by rewrite insert_app_r.
Qed.

(** The loop over one array, with the byte of each element beside it. *)
Fixpoint scatter (offs : list Z) (ps : list (nat * A)) (dst : list A) : list A :=
  match ps with
  | [] => dst
  | (v, x) :: ps' => scatter (alter Z.succ v offs) ps' (<[Z.to_nat (nth v offs 0) := x]> dst)
  end.

Definition bucket (ps : list (nat * A)) (v : nat) : list A :=
  snd <$> List.filter (fun p => Nat.eqb p.1 v) ps.

#[local] Arguments bucket : simpl never.

Lemma bucket_cons v x ps u : bucket ((v, x) :: ps) u = (if Nat.eqb v u then [x] else []) ++ bucket ps u.
Proof. unfold bucket. cbn. by destruct (Nat.eqb v u). Qed.

Lemma scatter_segments ps segs :
  Forall (fun p => (p.1 < length segs)%nat) ps ->
  (forall v f g, segs !! v = Some (f, g) -> length g = length (bucket ps v)) ->
  scatter (cursors 0 segs) ps (contents segs) = mjoin (imap (fun v sg => sg.1 ++ bucket ps v) segs).
Proof.
  revert segs; induction ps as [|[v x] ps IH]; intros segs Hv Hg.
  - cbn [scatter]. unfold contents. f_equal. apply list_eq. intros i. rewrite list_lookup_imap, list_lookup_fmap.
    destruct (segs !! i) as [[f g]|] eqn:E; [|done]. specialize (Hg i f g E). cbn in *. destruct g; [|done]. by rewrite !app_nil_r.
  - apply Forall_cons in Hv as [Hv Hps]. cbn in Hv. destruct (lookup_lt_is_Some_2 _ _ Hv) as [[f g] E].
    pose proof (Hg v f g E) as Hgl. rewrite bucket_cons, Nat.eqb_refl in Hgl. destruct g as [|g0 g]; [done|].
    destruct (write_cursor 0 segs v f g0 g x 0 ltac:(lia) E) as [H1 H2]. rewrite Z.sub_0_r in H2.
    cbn [scatter]. rewrite H1, H2, IH.
    + f_equal. apply list_eq. intros i. rewrite !list_lookup_imap. destruct (decide (i = v)) as [->|Hne].
      * rewrite list_lookup_insert_eq, E by done. cbn. rewrite bucket_cons, Nat.eqb_refl. by rewrite <- app_assoc.
      * rewrite list_lookup_insert_ne by done. destruct (segs !! i) as [[fi gi]|]; [|done]. cbn. rewrite bucket_cons.
        rewrite (proj2 (Nat.eqb_neq v i)) by done. done.
    + by rewrite length_insert.
    + intros u f' g' Eu. destruct (decide (u = v)) as [->|Hne].
      * rewrite list_lookup_insert_eq in Eu by done. injection Eu as <- <-. cbn in Hgl. lia.
      * rewrite list_lookup_insert_ne in Eu by done. rewrite (Hg u f' g' Eu), bucket_cons.
        by rewrite (proj2 (Nat.eqb_neq v u)).
Qed.

(** Cutting an array of the right length into empty segments. *)
Fixpoint cut (cs : list nat) (dst : list A) : list (list A * list A) :=
  match cs with
  | [] => []
  | c :: cs' => ([], take c dst) :: cut cs' (drop c dst)
  end.

Lemma cut_spec cs dst base :
  length dst = sum_list cs ->
  contents (cut cs dst) = dst /\ cursors base (cut cs dst) = offsets base (Z.of_nat <$> cs) /\
  length (cut cs dst) = length cs /\
  forall v f g, cut cs dst !! v = Some (f, g) -> f = [] /\ cs !! v = Some (length g).
Proof.
  revert dst base; induction cs as [|c cs IH]; intros dst base L.
  - cbn in L. apply length_zero_iff_nil in L as ->. done.
  - cbn in L. destruct (IH (drop c dst) (base + Z.of_nat c)) as (H1 & H2 & H3 & H4); [rewrite length_drop; lia|].
    assert (Ht : length (take c dst) = c) by (rewrite length_take; lia). split_and!.
    + cbn [cut]. rewrite contents_cons, H1. apply take_drop.
    + cbn. unfold len. rewrite Ht. cbn [length]. rewrite !Z.add_0_r. by rewrite <- H2.
    + cbn. by rewrite H3.
    + intros [|v] f g E; cbn in E; [injection E as <- <-; by rewrite Ht|]. by apply H4.
Qed.

Lemma sum_buckets (ps : list (nat * A)) n k :
  Forall (fun p => (k <= p.1 < k + n)%nat) ps ->
  sum_list_with (fun v => length (bucket ps v)) (seq k n) = length ps.
Proof.
  intros H. induction H as [|[v x] ps Hv Hps IH].
  - clear. revert k; induction n as [|n IH]; intros k; [done|]. cbn. by rewrite IH.
  - cbn [length]. rewrite <- IH. clear -Hv. cbn in Hv. revert k Hv; induction n as [|n IHn]; intros k Hv; [lia|].
    cbn [seq sum_list_with]. rewrite bucket_cons. destruct (Nat.eqb_spec v k) as [->|Hne].
    + rewrite length_app. cbn [length plus]. do 2 f_equal. clear.
      assert (Hlt : (k < S k)%nat) by lia. revert Hlt. generalize (S k) as j.
      induction n as [|n IH]; intros j Hlt; [done|]. cbn [seq sum_list_with]. rewrite bucket_cons.
      rewrite (proj2 (Nat.eqb_neq k j)) by lia. cbn [app]. by rewrite IH by lia.
    + rewrite (IHn (S k)) by lia. cbn [app]. lia.
Qed.

Lemma sum_list_fmap {B} (f : B -> nat) l : sum_list (f <$> l) = sum_list_with f l.
Proof. clear. induction l as [|x l IH]; [done|]. cbn in *. by rewrite IH. Qed.

(** A whole round: the elements of byte 0, then those of byte 1, and so on. *)
Lemma scatter_buckets n ps dst :
  Forall (fun p => (p.1 < n)%nat) ps -> length dst = length ps ->
  scatter (offsets 0 (Z.of_nat <$> ((fun v => length (bucket ps v)) <$> seq 0 n))) ps dst =
  mjoin (bucket ps <$> seq 0 n).
Proof.
  intros Hps Hd. set (cs := (fun v => length (bucket ps v)) <$> seq 0 n).
  destruct (cut_spec cs dst 0) as (H1 & H2 & H3 & H4).
  { unfold cs. rewrite sum_list_fmap, sum_buckets; [done|]. eapply Forall_impl; [done|]. cbn. lia. }
  assert (Hl : length cs = n) by (unfold cs; by rewrite length_fmap, length_seq).
  set (segs := cut cs dst) in *. clearbody segs. subst dst. rewrite <- H2, scatter_segments.
  - f_equal. apply list_eq. intros i. rewrite list_lookup_imap, list_lookup_fmap.
    destruct (decide (i < n)%nat) as [Hi|Hi].
    + rewrite lookup_seq_lt by done. destruct (lookup_lt_is_Some_2 segs i) as [[f g] E]; [lia|].
      rewrite E. cbn. by destruct (H4 _ _ _ E) as [-> _].
    + rewrite !lookup_ge_None_2; [done|rewrite length_seq; lia|lia].
  - by rewrite H3, Hl.
  - intros v f g E. destruct (H4 _ _ _ E) as [_ Ec]. unfold cs in Ec. rewrite list_lookup_fmap in Ec.
    apply fmap_Some in Ec as (u & Eu & ->). by apply lookup_seq in Eu as [-> _].
Qed.
End segments.

(** The two arrays of [distribute] are moved in the same way. *)
Lemma distribute_scatter {A} b offs ks (src : list A) kdst dst :
  length ks = length src ->
  let vs := (fun k => byte_of k b) <$> ks in
  exists offs', distribute b offs ks src kdst dst = (offs', scatter offs (zip vs ks) kdst, scatter offs (zip vs src) dst).
Proof.
  revert offs src kdst dst; induction ks as [|k ks IH]; intros offs [|x src] kdst dst E; try done; [by eexists|].
  injection E as E. cbn. apply IH. done.
Qed.

(** ** Buckets are a stable sort *)

Definition by_rank {A} (f : A -> nat) (x y : A) : Z := cmp_sign (Z.of_nat (f x) ?= Z.of_nat (f y)).

#[export] Instance by_rank_order {A} (f : A -> nat) : CmpOrder (fun _ => True) (by_rank f).
Proof.
  apply (CmpOrder_pullback _ (fun _ => True) (fun x => Z.of_nat (f x)) (fun x y => cmp_sign (x ?= y))); [done|].
  apply Zcompare_order.
Qed.

Lemma by_rank_zero {A} (f : A -> nat) x y : by_rank f x y = 0 <-> f x = f y.
Proof. unfold by_rank. destruct (Z.compare_spec (Z.of_nat (f x)) (Z.of_nat (f y))); cbn; lia. Qed.

Lemma by_rank_le {A} (f : A -> nat) x y : by_rank f x y <= 0 <-> (f x <= f y)%nat.
Proof. unfold by_rank. destruct (Z.compare_spec (Z.of_nat (f x)) (Z.of_nat (f y))); cbn; lia. Qed.

Definition ranked {A} (f : A -> nat) (v : nat) (l : list A) : list A := List.filter (fun x => Nat.eqb (f x) v) l.

Lemma elem_of_ranked {A} (f : A -> nat) v l x : x ∈ ranked f v l <-> x ∈ l /\ f x = v.
Proof. unfold ranked. by rewrite !list_elem_of_In, List.filter_In, Nat.eqb_eq. Qed.

Lemma elem_of_buckets {A} (f : A -> nat) l k n x :
  x ∈ mjoin ((fun v => ranked f v l) <$> seq k n) -> x ∈ l /\ (k <= f x < k + n)%nat.
Proof.
  intros (r & Hx & Hr)%list_elem_of_join. apply list_elem_of_fmap in Hr as (v & -> & Hv).
  apply elem_of_ranked in Hx as [? <-]. apply elem_of_seq in Hv. done.
Qed.

Lemma ranked_ranked {A} (f : A -> nat) v u l : ranked f v (ranked f u l) = if Nat.eqb v u then ranked f u l else [].
Proof.
  unfold ranked. induction l as [|x l IH]; cbn; [by destruct (Nat.eqb v u)|].
  destruct (Nat.eqb_spec (f x) u) as [<-|Hu]; cbn; rewrite IH; [|done].
  rewrite (Nat.eqb_sym (f x) v). by destruct (Nat.eqb v (f x)).
Qed.

Lemma ranked_buckets {A} (f : A -> nat) v l k n :
  ranked f v (mjoin ((fun u => ranked f u l) <$> seq k n)) = if decide (k <= v < k + n)%nat then ranked f v l else [].
Proof.
  revert k; induction n as [|n IH]; intros k; [cbn; by rewrite decide_False by lia|].
  cbn [seq fmap list_fmap mjoin list_join]. unfold ranked at 1. rewrite List.filter_app. fold (ranked f v (ranked f k l)).
  change (List.filter _ ?x) with (ranked f v x). rewrite IH, ranked_ranked.
  destruct (Nat.eqb_spec v k) as [->|Hne].
  - rewrite (decide_False (P := (S k <= k < S k + n)%nat)), decide_True by lia. apply app_nil_r.
  - destruct (decide (k <= v < k + S n)%nat); [rewrite decide_True by lia|rewrite decide_False by lia]; done.
Qed.

Lemma ties_rank {A} (f : A -> nat) x l : ties (by_rank f) x l = ranked f (f x) l.
Proof.
  unfold ties, ranked. apply List.filter_ext. intros y. apply Bool.eq_true_iff_eq.
  rewrite Z.eqb_eq, by_rank_zero, Nat.eqb_eq. split; congruence.
Qed.

Lemma buckets_stable {A} (f : A -> nat) l n :
  (forall x, x ∈ l -> (f x < n)%nat) ->
  mjoin ((fun v => ranked f v l) <$> seq 0 n) = SortStableFunc (by_rank f) l.
Proof.
  intros Hn. apply (stable_is_SortStableFunc (fun x => f x < n)%nat).
  - by eapply CmpOrder_weaken, by_rank_order.
  - by apply Forall_forall.
  - split_and!.
    + apply Forall_forall. intros x Hx. apply elem_of_buckets in Hx. lia.
    + unfold in_order. clear Hn. generalize 0%nat as k. induction n as [|n IH]; intros k; [constructor|].
      cbn [seq fmap list_fmap mjoin list_join]. apply StronglySorted_app. split_and!; [|clear|apply IH].
      * intros x y Hx Hy. apply elem_of_ranked in Hx as [_ <-]. apply elem_of_buckets in Hy. apply by_rank_le. lia.
      * unfold ranked. induction l as [|x l IH]; cbn; [constructor|]. destruct (Nat.eqb_spec (f x) k) as [<-|]; [|done].
        apply StronglySorted_cons. split; [|done]. apply Forall_forall. intros y Hy.
        apply (elem_of_ranked f (f x)) in Hy as [_ E]. apply by_rank_le. lia.
    + intros x Hx. rewrite !ties_rank, ranked_buckets. by rewrite decide_True by lia.
Qed.

(** ** Bytes and counts *)

Lemma byte_of_lt k b : (byte_of k b < 256)%nat.
Proof.
  unfold byte_of. change 255 with (Z.ones 8). rewrite Z.land_ones by lia.
  pose proof (Z.mod_pos_bound (Z.shiftr k (8 * Z.of_nat b)) (2 ^ 8) ltac:(lia)). cbn in *. lia.
Qed.

Lemma byte_of_split k b :
  k mod 256 ^ Z.of_nat (S b) = Z.of_nat (byte_of k b) * 256 ^ Z.of_nat b + k mod 256 ^ Z.of_nat b.
Proof.
  unfold byte_of. change 255 with (Z.ones 8). rewrite Z.land_ones by lia.
  rewrite Z.shiftr_div_pow2 by lia. pose proof (Z.mod_pos_bound (k / 2 ^ (8 * Z.of_nat b)) (2 ^ 8) ltac:(lia)).
  rewrite Z2Nat.id by lia. rewrite Z.pow_mul_r by lia. change (2 ^ 8) with 256. rewrite Nat2Z.inj_succ, Z.pow_succ_r by lia.
  assert (0 < 256 ^ Z.of_nat b) by (apply Z.pow_pos_nonneg; lia).
  rewrite (Z.mul_comm 256), Z.rem_mul_r by lia. lia.
Qed.

Definition counts_of (b : nat) (ks : list Z) : list Z :=
  (fun v => Z.of_nat (length (ranked (fun k => byte_of k b) v ks))) <$> seq 0 256.

Lemma ranked_snoc {A} (f : A -> nat) v l x : ranked f v (l ++ [x]) = ranked f v l ++ (if Nat.eqb (f x) v then [x] else []).
Proof. unfold ranked. rewrite List.filter_app. cbn. by destruct (Nat.eqb (f x) v). Qed.

Lemma counts_of_snoc b ks k : alter Z.succ (byte_of k b) (counts_of b ks) = counts_of b (ks ++ [k]).
Proof.
  apply list_eq. intros i. unfold counts_of. destruct (decide (i < 256)%nat) as [Hi|Hi].
  - destruct (decide (i = byte_of k b)) as [->|Hne].
    + rewrite list_lookup_alter_eq, !list_lookup_fmap, lookup_seq_lt by apply byte_of_lt. cbn [fmap option_fmap option_map plus].
      rewrite ranked_snoc, Nat.eqb_refl, length_app. cbn [length]. f_equal. lia.
    + rewrite list_lookup_alter_ne by done. rewrite !list_lookup_fmap, lookup_seq_lt by done. cbn [fmap option_fmap option_map plus].
      rewrite ranked_snoc, (proj2 (Nat.eqb_neq _ _)) by done. by rewrite app_nil_r.
  - rewrite !lookup_ge_None_2; [done|rewrite length_fmap, length_seq; lia|rewrite length_alter, length_fmap, length_seq; lia].
Qed.

Lemma radix_counts_spec ks : radix_counts ks = (fun b => counts_of b ks) <$> seq 0 8.
Proof.
  induction ks as [|k ks IH] using rev_ind; [done|]. unfold radix_counts in *. rewrite foldl_app, IH. cbn [foldl].
  apply list_eq. intros b. unfold count_key. rewrite list_lookup_imap, !list_lookup_fmap.
  destruct (seq 0 8 !! b) as [b'|] eqn:E; [|done]. apply lookup_seq in E as [-> _].
  cbn [fmap option_fmap option_map plus]. by rewrite counts_of_snoc.
Qed.

Lemma ranked_perm {A} (f : A -> nat) v l l' : l ≡ₚ l' -> ranked f v l ≡ₚ ranked f v l'.
Proof.
  unfold ranked. induction 1 as [|x l l' _ IH|x y l|l l' l'' _ IH1 _ IH2]; cbn; [done|..].
  - destruct (Nat.eqb _ _); by rewrite ?IH.
  - destruct (Nat.eqb (f x) v), (Nat.eqb (f y) v); try done. constructor.
  - by rewrite IH1.
Qed.

Lemma counts_of_perm b ks ks' : ks ≡ₚ ks' -> counts_of b ks = counts_of b ks'.
Proof. intros H. unfold counts_of. apply list_fmap_ext. intros i v _. by rewrite (ranked_perm _ v ks ks' H). Qed.

(** ** Rounds *)

Section rounds.
Context {A : Type} (key : A -> Z).
Implicit Types (src lines : list A).

Definition key_byte (b : nat) (x : A) : nat := byte_of (key x) b.

(** The order by the lowest [b] bytes of the key. *)
Definition by_low (b : nat) (x y : A) : Z :=
  cmp_sign (key x mod 256 ^ Z.of_nat b ?= key y mod 256 ^ Z.of_nat b).

Lemma by_low_order b : CmpOrder (fun _ => True) (by_low b).
Proof.
  apply (CmpOrder_pullback _ (fun _ => True) (fun x => key x mod 256 ^ Z.of_nat b) (fun x y => cmp_sign (x ?= y))); [done|].
  apply Zcompare_order.
Qed.

Lemma bucket_zip b v src : bucket (zip ((fun k => byte_of k b) <$> (key <$> src)) src) v = ranked (key_byte b) v src.
Proof.
  unfold bucket, ranked, key_byte. induction src as [|x src IH]; [done|]. cbn.
  destruct (Nat.eqb (byte_of (key x) b) v); cbn; by rewrite IH.
Qed.

Lemma bucket_zip_keys b v src :
  bucket (zip ((fun k => byte_of k b) <$> (key <$> src)) (key <$> src)) v = key <$> ranked (key_byte b) v src.
Proof.
  unfold bucket, ranked, key_byte. induction src as [|x src IH]; [done|]. cbn.
  destruct (Nat.eqb (byte_of (key x) b) v); cbn; by rewrite IH.
Qed.

Lemma length_ranked_keys b v src :
  length (ranked (fun k => byte_of k b) v (key <$> src)) = length (ranked (key_byte b) v src).
Proof.
  unfold ranked, key_byte. induction src as [|x src IH]; [done|]. cbn.
  destruct (Nat.eqb (byte_of (key x) b) v); cbn; by rewrite IH.
Qed.

Lemma zip_bytes {B} b (l : list B) src :
  length l = length src -> Forall (fun p : nat * B => (p.1 < 256)%nat) (zip ((fun k => byte_of k b) <$> (key <$> src)) l).
Proof.
  revert l; induction src as [|x src IH]; intros [|y l] E; cbn; try done.
  constructor; [apply byte_of_lt|]. apply IH. by injection E.
Qed.

Lemma fmap_join {B C} (f : B -> C) (ls : list (list B)) : f <$> mjoin ls = mjoin (fmap f <$> ls).
Proof. clear. induction ls as [|l ls IH]; [done|].
  change (mjoin (l :: ls)) with (l ++ mjoin ls). by rewrite fmap_app, IH. Qed.

(** One round sorts stably by one byte, keys and lines alike. *)
Lemma distribute_sorts b src kdst dst :
  length kdst = length src -> length dst = length src ->
  let sorted := SortStableFunc (by_rank (key_byte b)) src in
  exists offs, distribute b (offsets 0 (counts_of b (key <$> src))) (key <$> src) src kdst dst = (offs, key <$> sorted, sorted).
Proof.
  intros Hk Hd. cbv zeta. destruct (distribute_scatter b (offsets 0 (counts_of b (key <$> src))) (key <$> src) src kdst dst) as [o ->].
  { by rewrite length_fmap. }
  exists o. rewrite <- (buckets_stable _ src 256) by (intros; apply byte_of_lt).
  assert (Ec : forall B (ps : list (nat * B)), (forall v, length (bucket ps v) = length (ranked (key_byte b) v src)) ->
    counts_of b (key <$> src) = Z.of_nat <$> ((fun v => length (bucket ps v)) <$> seq 0 256)).
  { intros B ps H. unfold counts_of. rewrite <- list_fmap_compose. apply list_fmap_ext. intros i v _. cbn.
    by rewrite H, length_ranked_keys. }
  f_equal; [f_equal|].
  - rewrite (Ec _ (zip ((fun k => byte_of k b) <$> (key <$> src)) (key <$> src))) by (intros v; by rewrite bucket_zip_keys, length_fmap).
    rewrite scatter_buckets; [|apply zip_bytes; by rewrite length_fmap|rewrite length_zip, !length_fmap; lia].
    rewrite fmap_join, <- (list_fmap_compose (fun v => ranked (key_byte b) v src) (fmap key)). apply (f_equal mjoin). apply list_fmap_ext. intros i v _. apply bucket_zip_keys.
  - rewrite (Ec _ (zip ((fun k => byte_of k b) <$> (key <$> src)) src)) by (intros v; by rewrite bucket_zip).
    rewrite scatter_buckets; [|by apply zip_bytes|rewrite length_zip, !length_fmap; lia].
    apply (f_equal mjoin). apply list_fmap_ext. intros i v _. apply bucket_zip.
Qed.

Lemma ranked_all {B} (f : B -> nat) v l : length (ranked f v l) = length l -> Forall (fun x => f x = v) l.
Proof.
  unfold ranked. induction l as [|x l IH]; cbn; [constructor|]. intros E.
  pose proof (List.filter_length_le (fun x => Nat.eqb (f x) v) l).
  destruct (Nat.eqb_spec (f x) v); cbn in E; [|lia]. constructor; [done|]. apply IH. lia.
Qed.

Lemma one_rank_sorted {B} (f : B -> nat) v l : Forall (fun x => f x = v) l -> SortStableFunc (by_rank f) l = l.
Proof.
  intros H. apply (in_order_stable (fun _ => True) (by_rank f)); [by apply Forall_true|]. unfold in_order.
  induction H as [|x l Hx Hl IH]; [constructor|]. apply StronglySorted_cons. split; [|done].
  eapply Forall_impl; [exact Hl|]. intros y Hy. cbv beta in Hy. apply by_rank_le. lia.
Qed.

(** Sorting by a byte what is sorted by the bytes below it. *)
Lemma sort_next_byte b lines :
  SortStableFunc (by_rank (key_byte b)) (SortStableFunc (by_low b) lines) = SortStableFunc (by_low (S b)) lines.
Proof.
  pose proof (by_low_order b). rewrite (sort_two_keys (fun _ => True) (by_rank (key_byte b)) (by_low b)) by (by apply Forall_true).
  apply (SortStableFunc_ext (fun _ => True)); [by apply Forall_true|]. intros x y _ _. unfold lex_cmp, by_low, by_rank, key_byte.
  rewrite !byte_of_split. assert (0 < 256 ^ Z.of_nat b) by (apply Z.pow_pos_nonneg; lia).
  pose proof (Z.mod_pos_bound (key x) (256 ^ Z.of_nat b) ltac:(lia)). pose proof (Z.mod_pos_bound (key y) (256 ^ Z.of_nat b) ltac:(lia)).
  set (p := 256 ^ Z.of_nat b) in *. set (u := key x mod p) in *. set (w := key y mod p) in *.
  generalize dependent (byte_of (key x) b). generalize dependent (byte_of (key y) b). intros c d.
  destruct (Z.compare_spec (Z.of_nat d) (Z.of_nat c)) as [E|E|E]; cbn [cmp_sign Z.eqb].
  - rewrite E. destruct (Z.compare_spec u w), (Z.compare_spec (Z.of_nat c * p + u) (Z.of_nat c * p + w)); cbn; lia.
  - assert (Z.of_nat d * p + u < Z.of_nat c * p + w) by nia. rewrite (proj2 (Z.compare_lt_iff _ _)) by done. done.
  - assert (Z.of_nat c * p + w < Z.of_nat d * p + u) by nia. rewrite (proj2 (Z.compare_gt_iff _ _)) by done. done.
Qed.

Lemma radix_rounds_sort lines n b kdst dst :
  (b + n = 8)%nat -> length kdst = length lines -> length dst = length lines ->
  let src := SortStableFunc (by_low b) lines in
  radix_rounds (radix_counts (key <$> lines)) (seq b n) (key <$> src) src kdst dst = SortStableFunc (by_low 8) lines.
Proof.
  revert b kdst dst; induction n as [|n IH]; intros b kdst dst Hb Hk Hd; cbv zeta; [by replace b with 8%nat by lia|].
  set (src := SortStableFunc (by_low b) lines). cbn [seq radix_rounds].
  assert (Hp : src ≡ₚ lines) by apply SortStableFunc_perm.
  assert (Hl : length src = length lines) by (by rewrite Hp).
  assert (Ec : nth b (radix_counts (key <$> lines)) [] = counts_of b (key <$> src)).
  { rewrite radix_counts_spec, (counts_of_perm b (key <$> src) (key <$> lines)) by (by rewrite Hp).
    apply nth_lookup_Some with (d := []). rewrite list_lookup_fmap, lookup_seq_lt by lia. done. }
  rewrite Ec. destruct (_ =? len src) eqn:E.
  - to_prop. set (v := byte_of _ b) in E.
    assert (Ev : nth v (counts_of b (key <$> src)) 0 = Z.of_nat (length (ranked (key_byte b) v src))).
    { apply nth_lookup_Some. unfold counts_of. rewrite list_lookup_fmap, lookup_seq_lt by apply byte_of_lt. cbn [fmap option_fmap option_map plus].
      by rewrite length_ranked_keys. }
    rewrite Ev in E. unfold len in E. apply Nat2Z.inj, ranked_all in E.
    assert (Es : src = SortStableFunc (by_low (S b)) lines) by (rewrite <- sort_next_byte; by erewrite one_rank_sorted).
    rewrite Es. apply IH; [lia|done..].
  - destruct (distribute_sorts b src kdst dst) as [o Eo]; [lia..|]. rewrite Eo. unfold src at 1 2. rewrite sort_next_byte.
    apply IH; [lia|by rewrite length_fmap, Hl|done].
Qed.
End rounds.

(** ** The whole sort *)

Definition by_val (desc : bool) (a b : numericLine) : Z :=
  let c := cmp_sign (val a ?= val b) in if desc then - c else c.

Lemma by_val_order desc : CmpOrder (fun _ => True) (by_val desc).
Proof.
  assert (H : CmpOrder (fun _ => True) (fun a b => cmp_sign (val a ?= val b))).
  { apply (CmpOrder_pullback _ (fun _ => True) val (fun x y => cmp_sign (x ?= y))); [done|]. apply Zcompare_order. }
  destruct desc; [by apply CmpOrder_neg|done].
Qed.

Lemma lxor_top w : 0 <= w < 2 ^ 63 -> Z.lxor w (2 ^ 63) = w + 2 ^ 63.
Proof.
  intros Hw. rewrite <- Z.add_nocarry_lxor; [done|]. apply Z.bits_inj'. intros n Hn.
  rewrite Z.land_spec, Z.bits_0, Z.pow2_bits_eqb by lia. destruct (Z.eqb_spec 63 n) as [<-|]; [|by rewrite andb_false_r].
  rewrite andb_true_r. destruct (decide (w = 0)) as [->|]; [done|]. apply Z.bits_above_log2; [lia|]. apply Z.log2_lt_pow2; lia.
Qed.

(** The key of a value grows with it, or falls for [desc]. *)
Lemma radix_key_value desc v :
  in_sint 64 v -> radix_key desc v = if desc then 2 ^ 63 - 1 - v else v + 2 ^ 63.
Proof.
  intros Hv. unfold in_sint in Hv. change (64 - 1) with 63 in Hv.
  assert (Hx : Z.lxor (uint64 v) (2 ^ 63) = v + 2 ^ 63).
  { unfold wrapu. destruct (Z.ltb_spec v 0).
    - rewrite <- (Z_mod_plus_full v 1), Z.mod_small by lia.
      replace (v + 1 * 2 ^ 64) with ((v + 2 ^ 63) + 2 ^ 63) by lia.
      by rewrite <- (lxor_top (v + 2 ^ 63)), Z.lxor_assoc, Z.lxor_nilpotent, Z.lxor_0_r by lia.
    - rewrite Z.mod_small by lia. apply lxor_top. lia. }
  unfold radix_key. rewrite Hx. destruct desc; [|done]. unfold Z.lnot, wrapu.
  rewrite <- (Z_mod_plus_full _ 1), Z.mod_small by lia. lia.
Qed.

Lemma by_low_all (desc : bool) x y :
  in_sint 64 (val x) -> in_sint 64 (val y) ->
  by_low (fun l => radix_key desc (val l)) 8 x y = by_val desc x y.
Proof.
  intros Hx Hy. unfold by_low, by_val. rewrite !radix_key_value by done. unfold in_sint in *. change (64 - 1) with 63 in *.
  change (256 ^ Z.of_nat 8) with (2 ^ 64). destruct desc; rewrite !Z.mod_small by lia.
  - rewrite <- cmp_sign_flip, <- Z.compare_antisym. f_equal.
    destruct (Z.compare_spec (2 ^ 63 - 1 - val x) (2 ^ 63 - 1 - val y)), (Z.compare_spec (val y) (val x)); lia || done.
  - f_equal. destruct (Z.compare_spec (val x + 2 ^ 63) (val y + 2 ^ 63)), (Z.compare_spec (val x) (val y)); lia || done.
Qed.

Lemma radixSortNumeric_stable lines desc :
  Forall (fun l => in_sint 64 (val l)) lines ->
  radixSortNumeric lines desc = SortStableFunc (by_val desc) lines.
Proof.
  intros Hl. unfold radixSortNumeric. set (key := fun l => radix_key desc (val l)). cbv zeta.
  destruct (Z.ltb_spec (len lines) 2) as [L|L].
  { destruct lines as [|x [|y lines]]; [done..|]. unfold len in L. cbn in L. lia. }
  assert (E0 : SortStableFunc (by_low key 0) lines = lines).
  { pose proof (by_low_order key 0). apply (in_order_stable (fun _ => True) (by_low key 0)); [by apply Forall_true|].
    unfold in_order. clear. induction lines as [|x lines IH]; [constructor|]. apply StronglySorted_cons. split; [|done].
    apply Forall_true. intros y. unfold by_low. cbn. by rewrite !Z.mod_1_r. }
  pose proof (radix_rounds_sort key lines 8 0 (replicate (length lines) 0) (replicate (length lines) zero_line) ltac:(done)
    (length_replicate _ _) (length_replicate _ _)) as H. cbv zeta in H. rewrite E0 in H. rewrite H.
  apply (SortStableFunc_ext (fun l => in_sint 64 (val l))); [done|]. intros x y Hx Hy. unfold key. by rewrite by_low_all.
Qed.
End SortRadix.
