(* ===== verification/SortParallel.v ===== *)
(** * sort: merging and the parallel sort

    Merging two runs that are in order, with ties taken from the first, is
    the stable sort of both; so the parallel sort, which sorts contiguous
    chunks and merges them pairwise between two buffers, is the stable sort
    of the whole, whatever the number of processors
    ([parallelSort_stable]), and so is the merge of files of -m. *)

From Stdlib Require Import ZArith Lia String.
From stdpp Require Import base tactics list numbers strings sorting.
From S2P Require Import Prelude SortOrder SortKey SortCompare SortFast.

Open Scope Z_scope.
Open Scope go_scope.

Module SortParallel.
Import SortFast.SortFast.

Section merge.
Context {A : Type} (D : A -> Prop) (cmp : A -> A -> Z) `{!CmpOrder D cmp}.

Lemma mergeRuns_nil_l (b : list A) : mergeRuns cmp [] b = b.
Proof using Type. clear. by destruct b. Qed.

Lemma mergeRuns_nil_r (a : list A) : mergeRuns cmp a [] = a.
Proof using Type. clear. by destruct a. Qed.

Lemma mergeRuns_cons x a y b :
  mergeRuns cmp (x :: a) (y :: b) =
  if cmp x y <=? 0 then x :: mergeRuns cmp a (y :: b) else y :: mergeRuns cmp (x :: a) b.
Proof using Type. clear. done. Qed.

Lemma mergeRuns_perm a b : mergeRuns cmp a b ≡ₚ a ++ b.
Proof using Type.
  clear. revert b; induction a as [|x a IHa]; intros b; [by rewrite mergeRuns_nil_l|].
  induction b as [|y b IHb]; [by rewrite mergeRuns_nil_r, app_nil_r|]. rewrite mergeRuns_cons.
  destruct (_ <=? _); [cbn; by rewrite IHa|]. rewrite IHb. apply Permutation_middle.
Qed.

(** Everything in [l] is past [y]. *)
Lemma ties_past y z l :
  D y -> D z -> Forall D l -> cmp z y = 0 -> Forall (fun x => 0 < cmp x y) l -> ties cmp z l = [].
Proof using All.
  intros Hy Hz Hl Hzy. induction 1 as [|x l Hx _ IH]; [done|]. apply Forall_cons in Hl as [Dx Hl].
  unfold ties in *. cbn. destruct (Z.eqb_spec (cmp z x) 0) as [E|]; [|by apply IH].
  pose proof (cmp_zero_sym D cmp z x Hz Dx E) as E'. pose proof (cmp_zero_trans D cmp x z y Dx Hz Hy E' Hzy). lia.
Qed.

Lemma mergeRuns_order a b :
  Forall D a -> Forall D b -> in_order cmp a -> in_order cmp b -> in_order cmp (mergeRuns cmp a b).
Proof using All.
  unfold in_order. intros Da Db Sa. revert b Db; induction a as [|x a IHa]; intros b Db Sb; [by rewrite mergeRuns_nil_l|].
  induction b as [|y b IHb]; [by rewrite mergeRuns_nil_r|]. rewrite mergeRuns_cons.
  pose proof Da as [Dx Da']%Forall_cons. pose proof Db as [Dy Db']%Forall_cons.
  pose proof Sa as [Fa Sa']%StronglySorted_cons. pose proof Sb as [Fb Sb']%StronglySorted_cons.
  assert (through : forall u v l, D u -> D v -> Forall D l -> cmp u v <= 0 ->
    Forall (fun w => cmp v w <= 0) l -> Forall (fun w => cmp u w <= 0) l).
  { intros u v l Du Dv Dl Huv. rewrite !Forall_forall in *. intros H w Hw. apply (cmp_trans u v w); auto. }
  destruct (Z.leb_spec (cmp x y) 0); apply StronglySorted_cons.
  - split; [|by apply IHa]. rewrite mergeRuns_perm. apply Forall_app. split; [done|].
    constructor; [done|]. by apply (through x y).
  - assert (cmp y x <= 0) by (destruct (cmp_total D cmp x y); lia || done).
    split; [|by apply IHb]. rewrite mergeRuns_perm. apply Forall_app. split; [|done].
    constructor; [done|]. by apply (through y x).
Qed.

Lemma mergeRuns_stable a b :
  Forall D a -> Forall D b -> in_order cmp a -> in_order cmp b -> stable_sort_of D cmp (mergeRuns cmp a b) (a ++ b).
Proof using All.
  intros Da Db Sa Sb. split_and!.
  - rewrite mergeRuns_perm. by apply Forall_app.
  - by apply mergeRuns_order.
  - intros z Hz. rewrite ties_app. revert b Db Sb; induction a as [|x a IHa]; intros b Db Sb; [by rewrite mergeRuns_nil_l|].
    induction b as [|y b IHb]; [by rewrite mergeRuns_nil_r, app_nil_r|]. rewrite mergeRuns_cons.
    pose proof Da as [Dx Da']%Forall_cons. pose proof Db as [Dy Db']%Forall_cons.
    pose proof Sa as [Fa Sa']%StronglySorted_cons. pose proof Sb as [Fb Sb']%StronglySorted_cons.
    destruct (Z.leb_spec (cmp x y) 0).
    + change (x :: mergeRuns cmp a (y :: b)) with ([x] ++ mergeRuns cmp a (y :: b)). change (x :: a) with ([x] ++ a).
      rewrite !ties_app, IHa by done. by rewrite app_assoc.
    + change (y :: mergeRuns cmp (x :: a) b) with ([y] ++ mergeRuns cmp (x :: a) b). change (y :: b) with ([y] ++ b).
      rewrite !ties_app, IHb by done. rewrite !app_assoc. f_equal. unfold ties at 1 4. cbn [List.filter].
      destruct (Z.eqb_spec (cmp z y) 0) as [E|]; [|by rewrite app_nil_r]. rewrite (ties_past y); try done.
      constructor; [done|]. rewrite Forall_forall in Fa, Da' |- *. intros w Hw. specialize (Fa w Hw). cbv beta in Fa.
      destruct (Z.leb_spec (cmp w y) 0); [|done]. pose proof (cmp_trans x w y Dx (Da' w Hw) Dy Fa ltac:(done)). lia.
Qed.

(** Merging sorted runs is sorting what they came from. *)
Lemma mergeRuns_sorts l1 l2 :
  Forall D l1 -> Forall D l2 ->
  mergeRuns cmp (SortStableFunc cmp l1) (SortStableFunc cmp l2) = SortStableFunc cmp (l1 ++ l2).
Proof using All.
  intros D1 D2. destruct (SortStableFunc_stable D cmp l1 D1) as (A1 & S1 & T1).
  destruct (SortStableFunc_stable D cmp l2 D2) as (A2 & S2 & T2).
  apply (stable_is_SortStableFunc D cmp); [by apply Forall_app|].
  destruct (mergeRuns_stable _ _ A1 A2 S1 S2) as (B1 & B2 & B3). split_and!; [done..|].
  intros x Hx. rewrite B3, !ties_app, T1, T2 by done. done.
Qed.
End merge.

(** ** Runs between bounds *)

(** The bounds of consecutive runs. *)
Fixpoint marks {A} (base : Z) (runs : list (list A)) : list Z :=
  base :: match runs with
          | [] => []
          | r :: runs' => marks (base + len r) runs'
          end.

Lemma marks_head {A} base (runs : list (list A)) : exists t, marks base runs = base :: t.
Proof. destruct runs; by eexists. Qed.

Lemma length_marks {A} base (runs : list (list A)) : length (marks base runs) = S (length runs).
Proof. revert base; induction runs as [|r runs IH]; intros base; cbn; by rewrite ?IH. Qed.

Lemma join_cons {A} (r : list A) rs : mjoin (r :: rs) = r ++ mjoin rs.
Proof. done. Qed.

Lemma write_at_mid {A} lo (l p q r : list A) :
  lo = len p -> length l = length q -> write_at lo l (p ++ q ++ r) = p ++ l ++ r.
Proof.
  intros -> E. unfold write_at, len. rewrite Nat2Z.id. rewrite take_app_length. f_equal. f_equal.
  rewrite E, drop_app_ge by lia. replace (length p + length q - length p)%nat with (length q) by lia.
  by rewrite drop_app_length.
Qed.

Lemma sub_at {A} lo hi (p q r : list A) : lo = len p -> hi = len p + len q -> sub lo hi (p ++ q ++ r) = q.
Proof. intros -> ->. apply sub_mid. Qed.

Section parallel.
Context {A : Type} (D : A -> Prop) (cmp : A -> A -> Z) `{!CmpOrder D cmp}.
Context (zero : A) (procs : Z) (chunkSort : list A -> list A).
Hypothesis chunkSort_stable : forall l, Forall D l -> chunkSort l = SortStableFunc cmp l.

Abbreviation sorted := (SortStableFunc cmp).

Lemma length_sorted l : length (sorted l) = length l.
Proof using Type. clear. by rewrite SortStableFunc_perm. Qed.

Lemma len_sorted l : len (sorted l) = len l.
Proof using Type. clear. unfold len. by rewrite length_sorted. Qed.

Lemma marks_sorted base ls : marks base (sorted <$> ls) = marks base ls.
Proof using Type.
  clear. revert base; induction ls as [|l ls IH]; intros base; [done|]. cbn [marks fmap list_fmap]. by rewrite len_sorted, <- IH.
Qed.

Lemma sort_chunks_cons lo hi t x :
  sort_chunks chunkSort (lo :: hi :: t) x = sort_chunks chunkSort (hi :: t) (write_at lo (chunkSort (sub lo hi x)) x).
Proof using Type. clear. done. Qed.

Lemma merge_round_cons lo mid hi t src dst :
  merge_round cmp (lo :: mid :: hi :: t) src dst =
  let '(dst, next) := merge_round cmp (hi :: t) src (write_at lo (mergeRuns cmp (sub lo mid src) (sub mid hi src)) dst) in
  (dst, hi :: next).
Proof using Type. clear. done. Qed.

Lemma sort_chunks_marks pre pieces :
  Forall (Forall D) pieces ->
  sort_chunks chunkSort (marks (len pre) pieces) (pre ++ mjoin pieces) = pre ++ mjoin (sorted <$> pieces).
Proof using All.
  intros H. revert pre; induction H as [|q pieces Hq Hps IH]; intros pre; [done|].
  cbn [marks fmap list_fmap]. rewrite !join_cons. destruct (marks_head (len pre + len q) pieces) as [t Et].
  rewrite Et, sort_chunks_cons, <- Et.
  rewrite (sub_at _ _ pre q), chunkSort_stable, (write_at_mid _ _ pre q) by (done || by rewrite length_sorted).
  replace (len pre + len q) with (len (pre ++ sorted q)) by (by rewrite len_app, len_sorted).
  rewrite (app_assoc pre). rewrite IH. by rewrite <- app_assoc.
Qed.

(** One pass over a list of lists, two at a time. *)
Fixpoint pairs {B} (f : B -> B -> B) (l : list B) : list B :=
  match l with
  | x :: y :: l' => f x y :: pairs f l'
  | _ => l
  end.

Lemma pairs_ind {B} (P : list B -> Prop) :
  P [] -> (forall x, P [x]) -> (forall x y l, P l -> P (x :: y :: l)) -> forall l, P l.
Proof using Type.
  clear. intros H0 H1 H2 l. assert (H : P l /\ forall x, P (x :: l)); [|by destruct H].
  induction l as [|x l [IH1 IH2]]; auto.
Qed.

Lemma pairs_sorted pieces :
  Forall (Forall D) pieces ->
  pairs (mergeRuns cmp) (sorted <$> pieces) = sorted <$> pairs app pieces /\
  Forall (Forall D) (pairs app pieces) /\ mjoin (pairs app pieces) = mjoin pieces.
Proof using CmpOrder0.
  clear chunkSort_stable. induction pieces as [| |x y ps IH] using pairs_ind; [done..|].
  intros [Hx [Hy Hps]%Forall_cons]%Forall_cons. destruct (IH Hps) as (E1 & E2 & E3). rewrite !fmap_cons. cbn [pairs].
  rewrite fmap_cons, E1, (mergeRuns_sorts D) by done. split_and!; [done| |].
  - constructor; [by apply Forall_app|done].
  - rewrite !join_cons, E3. by rewrite app_assoc.
Qed.

Lemma length_pairs {B} (f : B -> B -> B) l : (length (pairs f l) <= length l)%nat /\ ((2 <= length l)%nat -> (length (pairs f l) < length l)%nat).
Proof using Type. clear. induction l as [| |x y l [IH1 IH2]] using pairs_ind; cbn; lia. Qed.

Lemma merge_round_pairs runs pre dpre dsuf :
  len dpre = len pre -> length dsuf = length (mjoin runs) ->
  merge_round cmp (marks (len pre) runs) (pre ++ mjoin runs) (dpre ++ dsuf) =
  (dpre ++ mjoin (pairs (mergeRuns cmp) runs), tail (marks (len pre) (pairs (mergeRuns cmp) runs))).
Proof using Type.
  clear CmpOrder0 chunkSort_stable. revert pre dpre dsuf; induction runs as [|a|a b runs IH] using pairs_ind; intros pre dpre dsuf Hd Hs.
  - apply length_zero_iff_nil in Hs as ->. done.
  - cbn [marks merge_round pairs tail]. change (mjoin [a]) with (a ++ []) in *. rewrite app_nil_r in Hs.
    rewrite (sub_at _ _ pre a []) by done. f_equal. rewrite <- (app_nil_r dsuf). apply write_at_mid; done.
  - cbn [marks]. destruct (marks_head (len pre + len a + len b) runs) as [t Et]. rewrite Et, merge_round_cons, <- Et. cbn [pairs].
    rewrite !join_cons in *. rewrite (sub_at _ _ pre a) by done.
    assert (Eb : sub (len pre + len a) (len pre + len a + len b) (pre ++ a ++ b ++ mjoin runs) = b).
    { rewrite (app_assoc pre a). apply sub_at; rewrite len_app; lia. }
    rewrite Eb. clear Eb. rewrite !length_app in Hs. set (m := mergeRuns cmp a b).
    assert (Hm : length m = (length a + length b)%nat) by (unfold m; by rewrite mergeRuns_perm, length_app).
    rewrite <- (take_drop (length m) dsuf), (write_at_mid _ _ dpre) by (rewrite ?length_take; done || lia).
    specialize (IH (pre ++ a ++ b) (dpre ++ m) (drop (length m) dsuf)).
    assert (El : len (pre ++ a ++ b) = len pre + len a + len b) by (rewrite !len_app; lia).
    rewrite El, <- !app_assoc in IH. rewrite IH.
    + cbn [marks tail]. replace (len pre + len m) with (len pre + len a + len b) by (unfold len; lia).
      f_equal. destruct (pairs (mergeRuns cmp) runs); done.
    + rewrite !len_app in *. unfold len in *. lia.
    + rewrite length_drop. lia.
Qed.

Lemma merge_rounds_sort fuel pieces dst :
  Forall (Forall D) pieces -> (length pieces < fuel)%nat -> length dst = length (mjoin pieces) ->
  merge_rounds cmp fuel (marks 0 pieces) (mjoin (sorted <$> pieces)) dst = Ret (sorted (mjoin pieces)).
Proof using CmpOrder0.
  clear chunkSort_stable. revert pieces dst; induction fuel as [|fuel IH]; intros pieces dst Hp Hf Hd; [lia|].
  cbn [merge_rounds]. unfold len at 1. rewrite length_marks.
  destruct (pairs_sorted pieces Hp) as (E1 & E2 & E3).
  destruct (length_pairs app pieces) as [Hl1 Hl2].
  assert (Hlen : forall ls, length (mjoin (sorted <$> ls)) = length (mjoin ls)).
  { clear. induction ls as [|l ls IH]; [done|]. cbn [fmap list_fmap]. rewrite !join_cons, !length_app, length_sorted. by rewrite <- IH. }
  destruct (Z.ltb_spec 2 (Z.of_nat (S (length pieces)))) as [L|L].
  - rewrite <- (marks_sorted 0 pieces). pose proof (merge_round_pairs (sorted <$> pieces) [] [] dst eq_refl) as R.
    cbn [app] in R. change (len []) with 0 in R. rewrite R by (by rewrite Hlen). rewrite E1.
    replace (0 :: tail (marks 0 (sorted <$> pairs app pieces))) with (marks 0 (pairs app pieces))
      by (rewrite marks_sorted; by destruct (marks_head 0 (pairs app pieces)) as [t ->]).
    rewrite IH; [by rewrite E3|done|lia|]. by rewrite E3, Hlen.
  - destruct pieces as [|l [|l' ps]]; [done| |cbn [length] in L; lia]. change (mjoin [?x]) with (x ++ []).
    cbn [fmap list_fmap]. rewrite join_cons. cbn. by rewrite !app_nil_r.
Qed.

(** Bounds that grow from [g k] to [g (k + m)] cut the array between them. *)
Lemma bounds_pieces (g : Z -> Z) (x : list A) m k :
  (forall i, 0 <= i -> g i <= g (i + 1)) -> 0 <= k -> 0 <= g k -> g (k + Z.of_nat m) <= len x ->
  exists pieces, g <$> seqZ k (Z.of_nat (S m)) = marks (g k) pieces /\ mjoin pieces = sub (g k) (g (k + Z.of_nat m)) x /\ length pieces = m.
Proof using Type.
  clear. intros Hg. revert k; induction m as [|m IH]; intros k Hk H0 Hn.
  - exists []. rewrite Z.add_0_r. split_and!; [done|by rewrite sub_nil|done].
  - destruct (IH (k + 1)) as (ps & E1 & E2 & E3).
    { lia. } { specialize (Hg k Hk). lia. } { by replace (k + 1 + Z.of_nat m) with (k + Z.of_nat (S m)) by lia. }
    assert (Hup : g (k + 1) <= g (k + 1 + Z.of_nat m)).
    { clear -Hg Hk. induction m as [|m IH]; [by rewrite Z.add_0_r|]. specialize (Hg (k + 1 + Z.of_nat m) ltac:(lia)).
      replace (k + 1 + Z.of_nat (S m)) with (k + 1 + Z.of_nat m + 1) by lia. lia. }
    replace (k + Z.of_nat (S m)) with (k + 1 + Z.of_nat m) in * by lia. specialize (Hg k Hk).
    exists (sub (g k) (g (k + 1)) x :: ps). split_and!.
    + rewrite seqZ_cons by lia. replace (Z.pred (Z.of_nat (S (S m)))) with (Z.of_nat (S m)) by lia.
      change (Z.succ k) with (k + 1). rewrite fmap_cons, E1. cbn [marks].
      rewrite len_sub by lia. by replace (g k + (g (k + 1) - g k)) with (g (k + 1)) by lia.
    + rewrite join_cons, E2, sub_app by lia. done.
    + cbn. by rewrite E3.
Qed.

Lemma parallelSort_stable x :
  Forall D x -> parallelSort zero procs cmp chunkSort x = Ret (sorted x).
Proof using All.
  intros Hx. unfold parallelSort. destruct ((len x <? parallelMinLines) || (procs <? 2)) eqn:E; [by rewrite chunkSort_stable|].
  apply orb_false_iff in E as [_ E]. to_prop.
  destruct (bounds_pieces (fun i => i * len x / procs) x (Z.to_nat procs) 0) as (ps & E1 & E2 & E3).
  { intros i Hi. apply Z.div_le_mono; [lia|]. pose proof (len_nonneg x). nia. } { lia. }
  { rewrite Z.mul_0_l, Z.div_0_l by lia. lia. }
  { rewrite Z.add_0_l, Z2Nat.id, Z.mul_comm, Z.div_mul by lia. lia. }
  rewrite Z.add_0_l, Z2Nat.id, (Z.mul_comm procs), Z.div_mul, Z.mul_0_l, Z.div_0_l, sub_all in E2 by lia.
  change (drop (Z.to_nat 0) x) with x in E2.
  replace (procs + 1) with (Z.of_nat (S (Z.to_nat procs))) by lia. rewrite E1, Z.mul_0_l, Z.div_0_l by lia.
  assert (Hps : Forall (Forall D) ps).
  { apply Forall_forall. intros p Hp. rewrite <- E2 in Hx. rewrite Forall_forall in Hx |- *. intros y Hy. apply Hx.
    apply list_elem_of_join. eauto. }
  rewrite <- E2. pose proof (sort_chunks_marks [] ps Hps) as S. cbn [app] in S. change (len []) with 0 in S. rewrite S.
  rewrite merge_rounds_sort; [done|done|rewrite length_marks; lia|by rewrite length_replicate].
Qed.
End parallel.
End SortParallel.
