(* ===== verification/SortCommand.v ===== *)
(** * sort: the command

    What the command writes, as one statement over all its paths: the stable
    sort of the lines it reads, without the later lines of each class under
    -u ([sort_inputs_stable]); that -c accepts what it writes
    ([sort_then_check]); and that -m of files in order writes the same
    ([merge_is_sort]). *)

From Stdlib Require Import ZArith Lia String.
From stdpp Require Import base tactics list numbers strings sorting.
From S2P Require Import Prelude SortOrder SortKey SortCompare SortFast SortMain SortNumber SortRadix SortParallel SortCorrect SortOutput.

Open Scope Z_scope.
Open Scope go_scope.

Module SortCommand.
Import SortMain.SortMain SortNumber.SortNumber SortRadix.SortRadix SortParallel.SortParallel SortCorrect.SortCorrect SortOutput.SortOutput.

(** ** The first line of each class *)

Fixpoint firsts {A} (cmp : A -> A -> Z) (l : list A) : list A :=
  match l with
  | [] => []
  | x :: l' => x :: List.filter (fun y => negb (cmp x y =? 0)) (firsts cmp l')
  end.

(** The lines that are left of a sequence when a line equal to the last one
    kept is dropped. *)
Fixpoint uniq_from {A} (cmp : A -> A -> Z) (prev : A) (l : list A) : list A :=
  match l with
  | [] => []
  | x :: l' => if negb (cmp prev x =? 0) then x :: uniq_from cmp x l' else uniq_from cmp prev l'
  end.

Definition uniq {A} (cmp : A -> A -> Z) (l : list A) : list A :=
  match l with [] => [] | x :: l' => x :: uniq_from cmp x l' end.

Section classes.
Context {A : Type} (D : A -> Prop) (cmp : A -> A -> Z) `{!CmpOrder D cmp}.

Lemma firsts_elem x l : x ∈ firsts cmp l -> x ∈ l.
Proof using Type.
  clear. revert x; induction l as [|y l IH]; intros x; [done|]. cbn. rewrite !elem_of_cons.
  intros [->|H]; [by left|right]. rewrite list_elem_of_In, List.filter_In, <- list_elem_of_In in H. apply IH, H.
Qed.

Lemma firsts_D l : Forall D l -> Forall D (firsts cmp l).
Proof using Type. clear. rewrite !Forall_forall. intros H x Hx. by apply H, firsts_elem. Qed.

Lemma ties_filter_same z x l :
  D z -> D x -> Forall D l -> cmp z x = 0 -> ties cmp z (List.filter (fun y => negb (cmp x y =? 0)) l) = [].
Proof using All.
  intros Hz Hx Hl E. induction Hl as [|y l Hy _ IH]; [done|]. cbn. destruct (Z.eqb_spec (cmp x y) 0) as [|Hne]; cbn; [done|].
  unfold ties in *. cbn. rewrite IH. rewrite (proj2 (Z.eqb_neq (cmp z y) 0)); [done|].
  intros Ey. apply Hne. by apply (cmp_zero_ties D cmp z x y).
Qed.

Lemma ties_filter_other z x l :
  D z -> D x -> Forall D l -> cmp z x <> 0 ->
  ties cmp z (List.filter (fun y => negb (cmp x y =? 0)) l) = ties cmp z l.
Proof using All.
  intros Hz Hx Hl E. induction Hl as [|y l Hy _ IH]; [done|]. unfold ties in *. cbn.
  destruct (Z.eqb_spec (cmp x y) 0) as [E1|]; cbn; [|by rewrite IH]. rewrite IH, (proj2 (Z.eqb_neq (cmp z y) 0)); [done|].
  intros Ey. apply E. apply (cmp_zero_trans D cmp z y x); try done. by apply (cmp_zero_sym D cmp).
Qed.

(** A class keeps its first element. *)
Lemma ties_firsts z l : D z -> Forall D l -> ties cmp z (firsts cmp l) = take 1 (ties cmp z l).
Proof using All.
  intros Hz Hl. induction Hl as [|x l Hx Hl IH]; [done|]. cbn [firsts]. unfold ties. cbn [List.filter].
  destruct (Z.eqb_spec (cmp z x) 0) as [E|E]; fold (ties cmp z).
  - change (List.filter (fun y => cmp z y =? 0) ?r) with (ties cmp z r). rewrite ties_filter_same by (try done; by apply firsts_D). done.
  - change (List.filter (fun y => cmp z y =? 0) ?r) with (ties cmp z r). rewrite ties_filter_other by (try done; by apply firsts_D). done.
Qed.

Lemma ties_uniq_from z prev l :
  D z -> D prev -> Forall D l -> in_order cmp (prev :: l) ->
  ties cmp z (uniq_from cmp prev l) = if cmp z prev =? 0 then [] else take 1 (ties cmp z l).
Proof using All.
  intros Hz. revert prev; induction l as [|x l IH]; intros prev Hp Hl S; [cbn; by destruct (_ =? 0)|].
  apply Forall_cons in Hl as [Hx Hl]. apply StronglySorted_cons in S as [F S]. pose proof S as [Fx Sx]%StronglySorted_cons.
  apply Forall_cons in F as [Hpx F]. cbn [uniq_from]. destruct (Z.eqb_spec (cmp prev x) 0) as [E|E]; cbn [negb].
  - rewrite IH by (try done; apply StronglySorted_cons; done). destruct (Z.eqb_spec (cmp z prev) 0) as [|Hn]; [done|].
    unfold ties at 2. cbn [List.filter]. rewrite (proj2 (Z.eqb_neq (cmp z x) 0)); [done|]. intros Ezx. apply Hn.
    apply (cmp_zero_trans D cmp z x prev); try done. by apply (cmp_zero_sym D cmp).
  - change (x :: uniq_from cmp x l) with ([x] ++ uniq_from cmp x l). rewrite ties_app, IH by done. unfold ties at 1 3. cbn [List.filter].
    change (List.filter (fun y => cmp z y =? 0) l) with (ties cmp z l).
    destruct (Z.eqb_spec (cmp z prev) 0) as [E1|E1], (Z.eqb_spec (cmp z x) 0) as [E2|E2]; cbn [app take].
    + exfalso. apply E. apply (cmp_zero_ties D cmp z prev x); done.
    + rewrite (ties_past D cmp prev z l); try done. rewrite Forall_forall in Fx, Hl |- *. intros w Hw.
      specialize (Fx w Hw). cbv beta in Fx. destruct (Z.leb_spec (cmp w prev) 0) as [Hwp|]; [|done]. exfalso. apply E.
      pose proof (cmp_trans x w prev Hx (Hl w Hw) Hp Fx Hwp). by apply (cmp_antisym D cmp).
    + done.
    + done.
Qed.

Lemma ties_uniq z l : D z -> Forall D l -> in_order cmp l -> ties cmp z (uniq cmp l) = take 1 (ties cmp z l).
Proof using All.
  intros Hz Hl S. destruct l as [|x l]; [done|]. apply Forall_cons in Hl as [Hx Hl]. cbn [uniq].
  change (x :: uniq_from cmp x l) with ([x] ++ uniq_from cmp x l). rewrite ties_app, ties_uniq_from by done.
  unfold ties. cbn [List.filter]. by destruct (cmp z x =? 0).
Qed.

Lemma uniq_from_elem prev l x : x ∈ uniq_from cmp prev l -> x ∈ l.
Proof using Type.
  clear. revert prev; induction l as [|y l IH]; intros prev; [done|]. cbn. destruct (negb _); rewrite ?elem_of_cons; naive_solver.
Qed.

Lemma uniq_elem l x : x ∈ uniq cmp l -> x ∈ l.
Proof using Type. clear. destruct l as [|y l]; [done|]. cbn. rewrite !elem_of_cons. intros [->|?]; [by left|right]. by eapply uniq_from_elem. Qed.

(** What is kept is in order, and no two lines of it are equal. *)
Lemma uniq_from_order prev l :
  D prev -> Forall D l -> in_order cmp (prev :: l) -> StronglySorted (fun a b => cmp a b < 0) (prev :: uniq_from cmp prev l).
Proof using All.
  revert prev; induction l as [|x l IH]; intros prev Hp Hl S; [repeat constructor|].
  apply Forall_cons in Hl as [Hx Hl]. apply StronglySorted_cons in S as [F S]. pose proof S as [Fx Sx]%StronglySorted_cons.
  apply Forall_cons in F as [Hpx F]. cbn [uniq_from]. destruct (Z.eqb_spec (cmp prev x) 0) as [E|E]; cbn [negb].
  - apply IH; try done. by apply StronglySorted_cons.
  - apply StronglySorted_cons. split; [|by apply IH]. constructor; [lia|]. rewrite Forall_forall in Fx, Hl |- *. intros w Hw.
    apply uniq_from_elem in Hw. specialize (Fx w Hw). cbv beta in Fx. pose proof (cmp_trans prev x w Hp Hx (Hl w Hw) Hpx Fx) as Hle.
    destruct (decide (cmp prev w = 0)) as [E0|]; [|lia]. exfalso. apply E.
    pose proof (cmp_zero_sym D cmp prev w Hp (Hl w Hw) E0).
    apply (cmp_antisym D cmp); try done. apply (cmp_trans x w prev); try done; [by apply Hl|lia].
Qed.

Lemma uniq_order l : Forall D l -> in_order cmp l -> StronglySorted (fun a b => cmp a b < 0) (uniq cmp l).
Proof using All. intros Hl S. destruct l as [|x l]; [constructor|]. apply Forall_cons in Hl as [Hx Hl]. by apply uniq_from_order. Qed.

Lemma strict_in_order l : StronglySorted (fun a b => cmp a b < 0) l -> in_order cmp l.
Proof using Type.
  clear. unfold in_order. induction 1 as [|x l S IH F]; constructor; [done|]. eapply Forall_impl; [done|]. cbn. lia.
Qed.

(** Dropping repeated lines from the sorted list is sorting the first lines
    of the classes. *)
Lemma uniq_stable l' l :
  stable_sort_of D cmp l' l -> Forall D l -> stable_sort_of D cmp (uniq cmp l') (firsts cmp l).
Proof using All.
  intros (H1 & H2 & H3) Hl. split_and!.
  - rewrite Forall_forall in H1 |- *. intros x Hx. by apply H1, uniq_elem.
  - by apply strict_in_order, uniq_order.
  - intros z Hz. by rewrite ties_uniq, ties_firsts, H3.
Qed.
End classes.

(** The loop of the command, on lines or on prepared lines. *)
Lemma unique_lines_uniq {A} (f : list Z -> A) (eq : A -> A -> outcome Z) (cmp : list Z -> list Z -> Z) l :
  (forall a b, short a -> short b -> exists d, eq (f a) (f b) = Ret d /\ (d = 0 <-> cmp a b = 0)) ->
  Forall short l -> unique_lines eq (f <$> l) = Ret (f <$> uniq cmp l).
Proof.
  intros He Hl. destruct l as [|x l]; [done|]. apply Forall_cons in Hl as [Hx Hl]. rewrite fmap_cons. cbn [unique_lines uniq].
  assert (H : unique_from eq (f x) (f <$> l) = Ret (f <$> uniq_from cmp x l)); [|by rewrite H].
  revert x Hx; induction Hl as [|y l Hy _ IH]; intros x Hx; [done|]. rewrite fmap_cons. cbn [unique_from uniq_from].
  destruct (He x y Hx Hy) as (d & -> & Hd). cbn [bind].
  destruct (Z.eqb_spec d 0), (Z.eqb_spec (cmp x y) 0); cbn [negb]; try (exfalso; tauto); [by apply IH|]. by rewrite IH.
Qed.

(** ** Sorting *)

(** The lines of the inputs, and those that are to be written. *)
Definition input_lines (s : sorter) (ds : list (list Z)) : list (list Z) :=
  mjoin ((fun d => splitLines d (zeroTerm s)) <$> ds).

Definition kept (s : sorter) (cmp : list Z -> list Z -> Z) (lines : list (list Z)) : list (list Z) :=
  if s_unique s then firsts cmp lines else lines.

Section command.
Context (ToUpper : list Z -> list Z) (procs : Z) (SortF : forall A, (A -> A -> Z) -> list A -> list A) `{!SortFunc SortF}.
Context (s : sorter) (Hs : sorter_ok s).

Abbreviation cmp := (comparator (compare ToUpper s)).

(** Under -u the comparison for equality agrees with the order. *)
Lemma compareEqual_zero a b :
  s_unique s = true -> short a -> short b -> exists d, compareEqual ToUpper s a b = Ret d /\ (d = 0 <-> cmp a b = 0).
Proof using Hs.
  intros Hu Ha Hb. unfold compareEqual, comparator. rewrite compare_eq by done. rewrite Hu, orb_true_r.
  destruct (0 <? len (keys s)).
  - rewrite (proj1 (compareKeys_order ToUpper s Hs)) by done. eexists. split; [done|]. cbv zeta.
    destruct (Z.eqb_spec (comparator (compareKeys ToUpper s) a b) 0); lia.
  - eexists. split; [done|]. unfold last_resort. cbv zeta. destruct (s_reverse s); lia.
Qed.

Lemma keep_unique_lines l :
  Forall short l -> keep_unique s (compareEqual ToUpper s) l = Ret (if s_unique s then uniq cmp l else l).
Proof using Hs.
  intros Hl. unfold keep_unique. destruct (s_unique s) eqn:Hu; [|done].
  pose proof (unique_lines_uniq id (compareEqual ToUpper s) cmp l) as H. rewrite !list_fmap_id in H.
  apply H; [|done]. intros a b Ha Hb. by apply compareEqual_zero.
Qed.

Lemma keep_unique_numeric l :
  canUsePreparedNumeric s = true -> Forall short l ->
  keep_unique s (fun a b => compareNumericKey (text a) (num a) (text b) (num b)) (prepared <$> l) =
  Ret (prepared <$> (if s_unique s then uniq cmp l else l)).
Proof using Hs.
  intros Hp Hl. unfold keep_unique. destruct (s_unique s) eqn:Hu; [|done]. apply unique_lines_uniq; [|done].
  intros a b Ha Hb. exists (numCompare a b). split; [by apply compareNumericKey_numCompare|].
  destruct (prepared_sorter s Hp) as (k & Ek & _). destruct (compareEqual_zero a b Hu Ha Hb) as (d & Ed & <-).
  unfold compareEqual in Ed. rewrite Ek in Ed. change (0 <? len [k]) with true in Ed.
  rewrite (compareKeys_prepared ToUpper s Hp k) in Ed by done. injection Ed as <-. destruct (k_reverse (opts k)); lia.
Qed.

Lemma sorted_kept_stable lines :
  Forall short lines ->
  stable_sort_of short cmp (if s_unique s then uniq cmp (SortStableFunc cmp lines) else SortStableFunc cmp lines) (kept s cmp lines).
Proof using Hs.
  intros Hl. pose proof (compare_order ToUpper s Hs). pose proof (SortStableFunc_stable short cmp lines Hl).
  unfold kept. destruct (s_unique s); [by apply uniq_stable|done].
Qed.

(** *** Reading with prepared keys *)

Lemma numeric_lines_prepared ls :
  Forall short ls -> numeric_lines ls = Ret (prepared <$> ls, forallb is_int ls).
Proof using Type.
  clear. induction 1 as [|l ls Hl Hls IH]; [done|]. cbn [numeric_lines]. unfold numeric_line. rewrite intKeyVal_returns by done.
  destruct (key_int l) as [v ok] eqn:E. cbn [bind]. rewrite IH. cbn [bind forallb]. rewrite fmap_cons. unfold prepared, is_int. by rewrite E.
Qed.

Lemma splitNumericLines_prepared d z :
  Forall short (splitLines d z) ->
  splitNumericLines d z = Ret (prepared <$> splitLines d z, forallb is_int (splitLines d z)).
Proof using Type.
  clear. unfold splitNumericLines, splitLines. destruct d as [|c d]; [done|]. cbv zeta.
  set (body := if has_suffix_byte _ _ then _ else _). destruct body as [|c' d'] eqn:E; [done|]. apply numeric_lines_prepared.
Qed.

Lemma read_numeric_prepared ds :
  Forall short (input_lines s ds) ->
  read_numeric (zeroTerm s) ds = Ret (prepared <$> input_lines s ds, forallb is_int (input_lines s ds)).
Proof using Type.
  clear Hs. unfold input_lines. induction ds as [|d ds IH]; [done|]. rewrite fmap_cons, join_cons.
  intros [H1 H2]%Forall_app. cbn [read_numeric]. rewrite splitNumericLines_prepared by done. cbn [bind].
  rewrite IH by done. cbn [bind]. by rewrite fmap_app, forallb_app.
Qed.

(** All the ways to sort give one result. *)
Lemma sort_inputs_eq w inputs output ds :
  read_inputs (w_stdin w) inputs = inr ds -> Forall short (input_lines s ds) ->
  sort_inputs ToUpper procs SortF s w inputs output =
  Ret (write_lines w output (zeroTerm s)
    (let l := SortStableFunc cmp (input_lines s ds) in if s_unique s then uniq cmp l else l)).
Proof using All.
  intros Hr Hl. unfold sort_inputs. rewrite Hr. cbv zeta.
  assert (Hss : Forall short (SortStableFunc cmp (input_lines s ds))) by (by rewrite SortStableFunc_perm).
  destruct (canUsePreparedNumeric s) eqn:Hp.
  - rewrite read_numeric_prepared by done. cbn [bind].
    rewrite (sortNumericLines_stable ToUpper procs SortF s Hs Hp) by done. cbn [bind].
    rewrite keep_unique_numeric by done. cbn [bind]. do 2 f_equal. rewrite <- list_fmap_compose. apply list_fmap_id.
  - fold (input_lines s ds). rewrite sortLines_stable by done. cbn [bind]. rewrite keep_unique_lines by done. done.
Qed.

Lemma kept_short lines : Forall short lines -> Forall short (kept s cmp lines).
Proof using Type. clear. intros Hl. unfold kept. destruct (s_unique s); [by apply firsts_D|done]. Qed.

(** *** Lines and text *)

Lemma index_byte_first c a b : c ∉ a -> index_byte (a ++ c :: b) c = Some (length a).
Proof using Type.
  clear. induction a as [|x a IH]; cbn; [by rewrite Z.eqb_refl|]. rewrite not_elem_of_cons. intros [H1 H2].
  rewrite (proj2 (Z.eqb_neq x c)) by done. by rewrite IH.
Qed.

Lemma cut_lines_join fuel c l ls :
  Forall (fun l => c ∉ l) (l :: ls) -> (length ls < fuel)%nat -> cut_lines fuel c (join [c] (l :: ls)) = l :: ls.
Proof using Type.
  clear. revert fuel l; induction ls as [|l' ls IH]; intros [|fuel] l [Hl Hls]%Forall_cons Hf; cbn in Hf; try lia; cbn [cut_lines].
  - cbn [join]. by rewrite index_byte_none.
  - change (join [c] (l :: l' :: ls)) with (l ++ c :: join [c] (l' :: ls)). rewrite index_byte_first by done.
    rewrite take_app_length. rewrite (drop_app_ge l) by lia. replace (S (length l) - length l)%nat with 1%nat by lia.
    change (drop 1 (c :: ?x)) with x. by rewrite IH by (done || lia).
Qed.

Lemma written_join z l ls : written z (l :: ls) = join [delimiter z] (l :: ls) ++ [delimiter z].
Proof using Type.
  clear. unfold written. revert l; induction ls as [|l' ls IH]; intros l; [cbn; by rewrite app_nil_r|].
  rewrite fmap_cons, join_cons, IH. cbn [join]. by rewrite <- !app_assoc.
Qed.

Lemma length_join_ge c l ls : (length ls <= length (join [c] (l :: ls)))%nat.
Proof using Type.
  clear. revert l; induction ls as [|l' ls IH]; intros l; [cbn; lia|]. change (join [c] (l :: l' :: ls)) with (l ++ [c] ++ join [c] (l' :: ls)).
  rewrite !length_app. specialize (IH l'). cbn [length]. lia.
Qed.

(** What is written is read back as the same lines. *)
Lemma splitLines_written z ls : Forall (fun l => delimiter z ∉ l) ls -> splitLines (written z ls) z = ls.
Proof using Type.
  clear. destruct ls as [|l ls]; [done|]. intros Hl. rewrite written_join. set (body := join _ _).
  assert (Hb : splitLines (body ++ [delimiter z]) z =
    match body with [] => [[]] | _ => cut_lines (S (length body)) (delimiter z) body end).
  { unfold splitLines, has_suffix_byte, trim_suffix_byte. rewrite rev_unit, rev_involutive, Z.eqb_refl. cbv zeta.
    by destruct body. }
  rewrite Hb. destruct body as [|c b] eqn:E.
  - pose proof (length_join_ge (delimiter z) l ls) as L. fold body in L. rewrite E in L. destruct ls; [|cbn in L; lia].
    unfold body in E. cbn in E. by rewrite E.
  - rewrite <- E. apply cut_lines_join; [done|]. pose proof (length_join_ge (delimiter z) l ls). fold body in H. lia.
Qed.

(** The lines of a file hold no delimiter. *)
Lemma cut_lines_clean fuel c d : Forall (fun l => c ∉ l) (cut_lines fuel c d).
Proof using Type.
  clear. revert d; induction fuel as [|fuel IH]; intros d; [constructor|]. cbn [cut_lines].
  assert (H : match index_byte d c with None => c ∉ d | Some i => c ∉ take i d end).
  { clear. induction d as [|x d IH]; cbn; [apply not_elem_of_nil|]. destruct (Z.eqb_spec x c) as [->|Hne]; [apply not_elem_of_nil|].
    destruct (index_byte d c); cbn; rewrite not_elem_of_cons; (split; [congruence|done]). }
  destruct (index_byte d c); [by constructor|repeat constructor; done].
Qed.

Lemma splitLines_clean d z : Forall (fun l => delimiter z ∉ l) (splitLines d z).
Proof using Type.
  clear. unfold splitLines. destruct d; [constructor|]. cbv zeta. destruct (if has_suffix_byte _ _ then _ else _).
  - repeat constructor. apply not_elem_of_nil.
  - apply cut_lines_clean.
Qed.

Lemma input_lines_clean ds : Forall (fun l => delimiter (zeroTerm s) ∉ l) (input_lines s ds).
Proof using Type.
  clear. unfold input_lines. induction ds as [|d ds IH]; [constructor|]. rewrite fmap_cons, join_cons.
  apply Forall_app. split; [apply splitLines_clean|done].
Qed.

(** *** Checking *)

Lemma check_from_accepts name i prev l :
  short prev -> Forall short l ->
  StronglySorted (fun a b => cmp a b <= 0 /\ (s_unique s = true -> cmp a b <> 0)) (prev :: l) ->
  check_from ToUpper s name i prev l = Ret (Result 0 [] [] None).
Proof using Hs.
  revert i prev; induction l as [|x l IH]; intros i prev Hp Hl S; [done|]. apply Forall_cons in Hl as [Hx Hl].
  apply StronglySorted_cons in S as [[[H1 H2] _]%Forall_cons S]. cbn [check_from]. rewrite compare_returns by done. cbn [bind].
  destruct (Z.ltb_spec 0 (cmp prev x)); [lia|]. cbn [orb].
  destruct (s_unique s) eqn:Hu; cbn [andb]; [rewrite (proj2 (Z.eqb_neq _ _)) by auto|]; by apply IH.
Qed.

Lemma check_lines_accepts name l :
  Forall short l -> StronglySorted (fun a b => cmp a b <= 0 /\ (s_unique s = true -> cmp a b <> 0)) l ->
  check_lines ToUpper s name l = Ret (Result 0 [] [] None).
Proof using Hs. destruct l as [|x l]; [done|]. intros [Hx Hl]%Forall_cons. by apply check_from_accepts. Qed.

Lemma sorted_accepted lines :
  Forall short lines ->
  let out := let l := SortStableFunc cmp lines in if s_unique s then uniq cmp l else l in
  StronglySorted (fun a b => cmp a b <= 0 /\ (s_unique s = true -> cmp a b <> 0)) out.
Proof using Hs.
  intros Hl. cbv zeta. pose proof (compare_order ToUpper s Hs) as Ho. destruct (SortStableFunc_stable short cmp lines Hl) as (H1 & H2 & _).
  destruct (s_unique s).
  - pose proof (uniq_order short cmp _ H1 H2) as S. induction S as [|x l S IH F]; constructor; [done|].
    eapply Forall_impl; [done|]. cbn. lia.
  - unfold in_order in H2. clear -H2. induction H2 as [|x l S IH F]; constructor; [done|]. eapply Forall_impl; [done|]. by cbn.
Qed.

(** The loop passes over lines in order to the first that is not. *)
Lemma check_from_reports name i prev l1 b l2 :
  let a := List.last l1 prev in
  let out_of_order := (0 <? cmp a b) || (s_unique s && (cmp a b =? 0)) in
  short prev -> Forall short (l1 ++ b :: l2) ->
  StronglySorted (fun a b => cmp a b <= 0 /\ (s_unique s = true -> cmp a b <> 0)) (prev :: l1) ->
  out_of_order = true ->
  check_from ToUpper s name i prev (l1 ++ b :: l2) =
  Ret (Result 1 [] (if checkSilent s then []
    else str! "sort: " ++ name ++ str! ":" ++ itoa (i + len l1 + 1) ++ str! ": disorder: " ++ b ++ [10]) None).
Proof using Hs.
  revert i prev; induction l1 as [|x l1 IH]; intros i prev; cbv zeta; intros Hp Hl S Hbad.
  - apply Forall_cons in Hl as [Hb _]. cbn [app check_from]. rewrite compare_returns by done. cbn [bind].
    cbn [List.last] in Hbad. rewrite Hbad. change (len (@nil (list Z))) with 0. by rewrite Z.add_0_r.
  - cbn [app] in *. apply Forall_cons in Hl as [Hx Hl]. apply StronglySorted_cons in S as [[[H1 H2] _]%Forall_cons S].
    cbn [check_from]. rewrite compare_returns by done. cbn [bind]. destruct (Z.ltb_spec 0 (cmp prev x)); [lia|]. cbn [orb].
    replace (s_unique s && (cmp prev x =? 0)) with false
      by (destruct (s_unique s); cbn [andb]; [rewrite (proj2 (Z.eqb_neq _ _)) by auto|]; done).
    rewrite IH; [|done|done|done|].
    + by replace (i + 1 + len l1 + 1) with (i + len (x :: l1) + 1) by (rewrite len_cons; lia).
    + cbv zeta. replace (List.last l1 x) with (List.last (x :: l1) prev); [done|]. clear. destruct l1 as [|y l1]; [done|].
      cbn [List.last]. revert y. induction l1; intros y; [done|]. cbn [List.last] in *. done.
Qed.

(** *** Merging *)

Lemma merge_pass_pairs runs : merge_pass cmp runs = pairs (mergeRuns cmp) runs.
Proof using Type. clear. induction runs as [| |x y l IH] using pairs_ind; [done..|]. cbn. by rewrite IH. Qed.

Lemma merge_passes_sort fuel pieces :
  Forall (Forall short) pieces -> pieces <> [] -> (length pieces < fuel)%nat ->
  merge_passes fuel cmp (SortStableFunc cmp <$> pieces) = Ret (SortStableFunc cmp (mjoin pieces)).
Proof using Hs.
  pose proof (compare_order ToUpper s Hs) as Ho. revert pieces; induction fuel as [|fuel IH]; intros pieces Hp Hne Hf; [lia|].
  cbn [merge_passes]. unfold len. rewrite length_fmap. destruct (Z.ltb_spec 1 (Z.of_nat (length pieces))) as [L|L].
  - destruct (pairs_sorted short cmp pieces Hp) as (E1 & E2 & E3). destruct (length_pairs app pieces) as [_ Hl].
    rewrite merge_pass_pairs, E1, IH; [by rewrite E3|done| |lia]. by destruct pieces as [|a [|b pieces]].
  - destruct pieces as [|l [|l' ps]]; [done| |cbn [length] in L; lia]. cbn. by rewrite app_nil_r.
Qed.
End command.

(** ** The theorems *)

(** [C3] What sort writes: the stable sort, by the comparison of the keys, of
    the lines of its inputs, of each class only the first line with -u. It is
    the same for the pdqsort, parallel, radix and prepared paths, any number
    of processors and any unstable library sort. *)
Theorem sort_inputs_stable ToUpper procs SortF `{!SortFunc SortF} s w inputs output ds :
  let cmp := comparator (compare ToUpper s) in
  let lines := input_lines s ds in
  sorter_ok s -> read_inputs (w_stdin w) inputs = inr ds -> Forall short lines ->
  exists out,
    sort_inputs ToUpper procs SortF s w inputs output = Ret (write_lines w output (zeroTerm s) out) /\
    out ≡ₚ kept s cmp lines /\ in_order cmp out /\
    (forall x, short x -> ties cmp x out = ties cmp x (kept s cmp lines)).
Proof.
  cbv zeta. intros Hs Hr Hl. eexists. split; [by apply sort_inputs_eq|]. cbv zeta.
  pose proof (sorted_kept_stable ToUpper s Hs _ Hl) as Hst. pose proof Hst as (_ & H2 & H3). split_and!; [|done..].
  pose proof (compare_order ToUpper s Hs).
  rewrite (stable_is_SortStableFunc short (comparator (compare ToUpper s)) _ _ (kept_short ToUpper s _ Hl) Hst).
  by rewrite SortStableFunc_perm.
Qed.

(** [C29] Sorting and checking: what sort writes to its output, read by
    sort -c with the same options, is accepted. *)
Theorem sort_then_check ToUpper procs SortF `{!SortFunc SortF} s w inputs ds w' :
  sorter_ok s -> read_inputs (w_stdin w) inputs = inr ds -> Forall short (input_lines s ds) ->
  exists r, sort_inputs ToUpper procs SortF s w inputs [] = Ret r /\ status r = 0 /\
    (w_stdin w' = Data (stdout r) -> checkSorted ToUpper s w' [(str! "-", Stdin)] = Ret (Result 0 [] [] None)).
Proof.
  intros Hs Hr Hl. eexists. split; [by apply sort_inputs_eq|]. split; [done|]. cbn [write_lines stdout]. intros Hw.
  unfold checkSorted. cbn [index bind read_inputs]. change (index [(?a, ?b)] 0) with (Ret (a, b)). cbn [bind]. rewrite Hw.
  change (mjoin [?x]) with (x ++ []). rewrite app_nil_r. cbv zeta.
  set (l := SortStableFunc _ (input_lines s ds)). set (out := if s_unique s then _ else _).
  assert (Hsub : forall x, x ∈ out -> x ∈ input_lines s ds).
  { intros x Hx. rewrite <- (SortStableFunc_perm (comparator (compare ToUpper s))). unfold out in Hx.
    destruct (s_unique s); [by apply uniq_elem in Hx|done]. }
  rewrite splitLines_written.
  - apply check_lines_accepts; [done| |by apply sorted_accepted]. rewrite Forall_forall in Hl |- *. auto.
  - pose proof (input_lines_clean s ds) as Hc. rewrite Forall_forall in Hc |- *. auto.
Qed.

(** A disorder is reported: where the lines up to [a] are in order (and
    differ, with -u) and [b] after it is not past [a], -c exits with status 1
    and names the file, the number of that line and the line; -C only exits. *)
Theorem check_reports ToUpper s name l1 a b l2 :
  let cmp := comparator (compare ToUpper s) in
  let ordered x y := cmp x y <= 0 /\ (s_unique s = true -> cmp x y <> 0) in
  sorter_ok s -> Forall short (l1 ++ a :: b :: l2) -> StronglySorted ordered (l1 ++ [a]) ->
  0 < cmp a b \/ (s_unique s = true /\ cmp a b = 0) ->
  check_lines ToUpper s name (l1 ++ a :: b :: l2) =
  Ret (Result 1 [] (if checkSilent s then []
    else str! "sort: " ++ name ++ str! ":" ++ itoa (len l1 + 2) ++ str! ": disorder: " ++ b ++ [10]) None).
Proof.
  cbv zeta. intros Hs Hl S Hbad.
  assert (Hb : (0 <? comparator (compare ToUpper s) a b) || (s_unique s && (comparator (compare ToUpper s) a b =? 0)) = true).
  { apply orb_true_iff. destruct Hbad as [H|[Hu H]]; [left; by apply Z.ltb_lt|right]. by rewrite Hu, H. }
  destruct l1 as [|x l1].
  - cbn [app check_lines] in *. apply Forall_cons in Hl as [Ha Hl].
    by apply (check_from_reports ToUpper s Hs name 1 a [] b l2).
  - cbn [app check_lines] in *. apply Forall_cons in Hl as [Hx Hl].
    change (l1 ++ a :: b :: l2) with (l1 ++ [a] ++ b :: l2). change (l1 ++ a :: b :: l2) with (l1 ++ [a] ++ b :: l2) in Hl. rewrite app_assoc in Hl |- *.
    rewrite (check_from_reports ToUpper s Hs name 1 x (l1 ++ [a]) b l2); [|done|done|done|by rewrite List.last_last].
    replace (1 + len (l1 ++ [a]) + 1) with (len (x :: l1) + 2); [done|]. rewrite len_app, !len_cons. change (len (@nil (list Z))) with 0. lia.
Qed.

(** [C12] Merging: -m of files whose lines are in order writes what sorting
    the same files writes. *)
Theorem merge_is_sort ToUpper procs SortF `{!SortFunc SortF} s w inputs output ds :
  let cmp := comparator (compare ToUpper s) in
  sorter_ok s -> inputs <> [] -> read_inputs (w_stdin w) inputs = inr ds -> Forall short (input_lines s ds) ->
  Forall (fun d => in_order cmp (splitLines d (zeroTerm s))) ds ->
  mergeFiles ToUpper s w inputs output = sort_inputs ToUpper procs SortF s w inputs output.
Proof.
  cbv zeta. intros Hs Hne Hr Hl Ho. rewrite (sort_inputs_eq ToUpper procs SortF s Hs w inputs output ds) by done.
  unfold mergeFiles. rewrite Hr. set (runs := (fun d => splitLines d (zeroTerm s)) <$> ds).
  pose proof (compare_order ToUpper s Hs) as Hc.
  assert (Hrs : Forall (Forall short) runs).
  { unfold input_lines in Hl. fold runs in Hl. apply Forall_forall. intros r Hr'. rewrite Forall_forall in Hl |- *.
    intros x Hx. apply Hl, list_elem_of_join. eauto. }
  assert (Hsr : SortStableFunc (comparator (compare ToUpper s)) <$> runs = runs).
  { unfold runs in *. clear Hl Hr. induction Ho as [|d ds Hd Hds IH]; [done|]. rewrite !fmap_cons in *. apply Forall_cons in Hrs as [H1 H2].
    rewrite (in_order_stable short) by done. by rewrite IH. }
  assert (Hrn : runs <> []).
  { destruct inputs as [|[n r] inputs]; [done|]. cbn in Hr. destruct r; [destruct (w_stdin w)|destruct f]; try done;
      destruct (read_inputs _ inputs); try done; injection Hr as <-; done. }
  rewrite <- Hsr at 2. rewrite merge_passes_sort by (done || lia). cbn [bind]. fold (input_lines s ds).
  rewrite keep_unique_lines; [done|done|]. by rewrite SortStableFunc_perm.
Qed.
End SortCommand.
