(* ===== verification/SortKeyCorrect.v ===== *)
(** * sort: keys are fields

    A key [-k i,j] is the text of the fields from [i] to [j]
    ([extractKey_fields]), with a separator or with the boundaries between
    non-blanks and blanks; and the specification of a key is parsed back from
    its text ([parseKeySpec_print]). *)

From Stdlib Require Import ZArith Lia String.
From stdpp Require Import base tactics list numbers strings.
From S2P Require Import Prelude SortOrder SortKey SortCompare SortFast SortNumber SortParallel.

Open Scope Z_scope.
Open Scope go_scope.

Module SortKeyCorrect.
Import SortFast.SortFast SortNumber.SortNumber.

(** ** Fields *)

(** The fields of a line without a separator: a field ends between a
    non-blank and a blank. *)
Fixpoint blank_fields (s : list Z) : list (list Z) :=
  match s with
  | [] => []
  | c :: s' =>
      match blank_fields s' with
      | (d :: f) :: fs => if negb (is_blank c) && is_blank d then [c] :: (d :: f) :: fs else (c :: d :: f) :: fs
      | _ => [[c]]
      end
  end.

Definition fields (tab : Z) (line : list Z) : list (list Z) :=
  if 0 <=? tab then split_byte tab line else blank_fields line.

Definition glue (tab : Z) (fs : list (list Z)) : list Z := if 0 <=? tab then join [tab] fs else mjoin fs.

(** *** With a separator *)

Lemma split_step tab s :
  exists f rest, split_byte tab s = f :: rest /\
    match rest with
    | [] => s = f /\ trim_left (fun c => negb (c =? tab)) s = []
    | _ => exists s1, trim_left (fun c => negb (c =? tab)) s = tab :: s1 /\ s = f ++ tab :: s1 /\ split_byte tab s1 = rest
    end.
Proof.
  induction s as [|c s (f & rest & E & IH)]; [by exists [], []|]. cbn. destruct (Z.eqb_spec c tab) as [->|Hne]; cbn.
  - exists [], (split_byte tab s). split; [done|]. rewrite E. exists s. done.
  - rewrite E. exists (c :: f), rest. split; [done|]. destruct rest as [|g rest].
    + destruct IH as [-> IH]. done.
    + destruct IH as (s1 & H1 & -> & H2). exists s1. done.
Qed.

Lemma join_app_cons (c : Z) f g fs : join [c] (f :: g :: fs) = f ++ c :: join [c] (g :: fs).
Proof. done. Qed.

Lemma skip_fields_sep tab fuel n s :
  0 <= tab -> 0 <= n -> (length s <= fuel)%nat ->
  skip_fields_from fuel tab n s = join [tab] (drop (Z.to_nat n) (split_byte tab s)).
Proof.
  intros Ht. revert n s; induction fuel as [|fuel IH]; intros n s Hn Hf.
  - destruct s; [|cbn in Hf; lia]. cbn. destruct (Z.to_nat n) as [|[|]]; done.
  - cbn [skip_fields_from]. destruct s as [|c s]; [cbn; destruct (Z.to_nat n) as [|[|]]; done|].
    rewrite (proj2 (Z.ltb_lt 0 (len (c :: s)))) by (rewrite len_cons; pose proof (len_nonneg s); lia).
    destruct (Z.ltb_spec 0 n) as [L|L]; cbn [andb]; [|replace n with 0 by lia; by rewrite Z2Nat.inj_0, drop_0, join_split_sep].
    unfold skip_field. rewrite (proj2 (Z.leb_le 0 tab)) by done.
    destruct (split_step tab (c :: s)) as (f & rest & E & H). rewrite E. replace (Z.to_nat n) with (S (Z.to_nat (n - 1))) by lia. cbn [drop].
    destruct rest as [|g rest].
    + destruct H as [_ ->]. rewrite IH by (cbn; lia). cbn [split_byte]. destruct (Z.to_nat (n - 1)) as [|[|]]; done.
    + destruct H as (s1 & -> & Es & H2). rewrite IH, H2; [done|lia|]. apply (f_equal length) in Es. rewrite length_app in Es. cbn in Es, Hf. lia.
Qed.

(** The text before the limit is that of the fields up to the last. *)
Lemma lim_fields_sep tab fuel n s :
  0 <= tab -> 0 <= n -> (length s <= fuel)%nat ->
  s = join [tab] (take (Z.to_nat n) (split_byte tab s)) ++ lim_fields_from fuel tab n 0 s.
Proof.
  intros Ht. revert n s; induction fuel as [|fuel IH]; intros n s Hn Hf.
  - destruct s; [|cbn in Hf; lia]. cbn. destruct (Z.to_nat n) as [|[|]]; done.
  - cbn [lim_fields_from]. destruct s as [|c s]; [cbn; destruct (Z.to_nat n) as [|[|]]; done|].
    rewrite (proj2 (Z.ltb_lt 0 (len (c :: s)))) by (rewrite len_cons; pose proof (len_nonneg s); lia).
    destruct (Z.ltb_spec 0 n) as [L|L]; cbn [andb]; [|by replace n with 0 by lia].
    rewrite (proj2 (Z.leb_le 0 tab)) by done.
    destruct (split_step tab (c :: s)) as (f & rest & E & H). rewrite E. replace (Z.to_nat n) with (S (Z.to_nat (n - 1))) by lia. cbn [take].
    destruct rest as [|g rest].
    + destruct H as [-> ->]. rewrite take_nil. cbn [join]. clear. replace (lim_fields_from fuel tab (n - 1) 0 []) with (@nil Z) by (by destruct fuel).
      by rewrite app_nil_r.
    + destruct H as (s1 & -> & Es & H2). cbn [Z.eqb negb]. rewrite orb_false_r.
      assert (Hs1 : (length s1 <= fuel)%nat) by (apply (f_equal length) in Es; rewrite length_app in Es; cbn in Es, Hf; lia).
      destruct (Z.ltb_spec 1 n) as [L1|L1].
      * rewrite Es. rewrite (IH (n - 1) s1) at 1 by (done || lia). rewrite H2.
        replace (Z.to_nat (n - 1)) with (S (Z.to_nat (n - 2))) by lia. cbn [take]. rewrite join_app_cons. by rewrite <- app_assoc.
      * replace (n - 1) with 0 by lia. cbn [Z.to_nat take join]. rewrite Es. f_equal. destruct fuel; cbn [lim_fields_from]; by rewrite ?andb_false_r.
Qed.

Lemma join_take_drop tab i fs :
  (0 < i < length fs)%nat -> join [tab] fs = join [tab] (take i fs) ++ tab :: join [tab] (drop i fs).
Proof.
  revert i; induction fs as [|f fs IH]; intros [|i] H; cbn [length] in H; try lia.
  destruct fs as [|g fs]; [cbn in H; lia|]. cbn [take drop]. rewrite join_app_cons. destruct i as [|i]; [done|].
  rewrite (IH (S i)) by (cbn [length] in *; lia). cbn [take]. rewrite join_app_cons. by rewrite <- app_assoc.
Qed.

(** *** Without a separator *)

Lemma blank_fields_head s :
  match s with
  | [] => blank_fields s = []
  | c :: _ => exists f fs, blank_fields s = (c :: f) :: fs
  end.
Proof.
  induction s as [|c s IH]; [done|]. cbn [blank_fields]. destruct s as [|d s]; [by exists [], []|].
  destruct IH as (f & fs & ->). destruct (_ && _); by eexists _, _.
Qed.

Lemma blank_fields_join s : mjoin (blank_fields s) = s.
Proof.
  induction s as [|c s IH]; [done|]. pose proof (blank_fields_head s) as H. cbn [blank_fields]. destruct s as [|d s]; [done|].
  destruct H as (f & fs & E). rewrite E in *. destruct (_ && _); rewrite <- IH at 1; done.
Qed.

Lemma skip_nonblanks s :
  match s with c :: _ => is_blank c = false | [] => True end ->
  blank_fields (trim_left (fun c => negb (is_blank c)) s) = tail (blank_fields s).
Proof.
  induction s as [|c s IH]; [done|]. intros Hc. cbn [trim_left]. rewrite Hc. cbn [negb].
  pose proof (blank_fields_head s) as H. cbn [blank_fields]. rewrite Hc. destruct s as [|d s]; [done|]. destruct H as (f & fs & E). rewrite E.
  destruct (is_blank d) eqn:Hd; cbn [negb andb tail].
  - cbn [trim_left]. rewrite Hd. cbn [negb]. done.
  - rewrite IH by done. by rewrite E.
Qed.

Lemma skip_field_blank s : blank_fields (skip_field (-1) s) = tail (blank_fields s).
Proof.
  change (skip_field (-1) s) with (trim_left (fun c => negb (is_blank c)) (trim_left is_blank s)).
  induction s as [|c s IH]; [done|]. cbn [trim_left]. destruct (is_blank c) eqn:Hc; [|by apply skip_nonblanks].
  rewrite IH. pose proof (blank_fields_head s) as H. cbn [blank_fields]. rewrite Hc. destruct s as [|d s]; [done|].
  destruct H as (f & fs & ->). done.
Qed.

Lemma drop_tail {A} n (l : list A) : drop n (tail l) = drop (S n) l.
Proof. destruct l; [apply drop_nil|done]. Qed.

Lemma skip_fields_blank fuel n s :
  0 <= n -> (length s <= fuel)%nat -> skip_fields_from fuel (-1) n s = mjoin (drop (Z.to_nat n) (blank_fields s)).
Proof.
  revert n s; induction fuel as [|fuel IH]; intros n s Hn Hf.
  - destruct s; [|cbn in Hf; lia]. cbn. by rewrite drop_nil.
  - cbn [skip_fields_from]. destruct s as [|c s]; [cbn; by rewrite drop_nil|].
    rewrite (proj2 (Z.ltb_lt 0 (len (c :: s)))) by (rewrite len_cons; pose proof (len_nonneg s); lia).
    destruct (Z.ltb_spec 0 n) as [L|L]; cbn [andb]; [|replace n with 0 by lia; by rewrite Z2Nat.inj_0, drop_0, blank_fields_join].
    rewrite IH; [|lia|].
    + rewrite skip_field_blank. replace (Z.to_nat n) with (S (Z.to_nat (n - 1))) by lia. by rewrite drop_tail.
    + change (skip_field (-1) (c :: s)) with (trim_left (fun c => negb (is_blank c)) (trim_left is_blank (c :: s))).
      cbn [trim_left]. cbn in Hf. destruct (is_blank c) eqn:Hc.
      * pose proof (length_trim_left is_blank s). pose proof (length_trim_left (fun c => negb (is_blank c)) (trim_left is_blank s)). lia.
      * cbn [trim_left]. rewrite Hc. cbn [negb]. pose proof (length_trim_left (fun c => negb (is_blank c)) s). lia.
Qed.

Lemma lim_fields_blank fuel n s : lim_fields_from fuel (-1) n 0 s = skip_fields_from fuel (-1) n s.
Proof. revert n s; induction fuel as [|fuel IH]; intros n s; [done|]. cbn [lim_fields_from skip_fields_from]. by rewrite IH. Qed.

(** *** The key of a range of fields *)

Definition field_key (i j : Z) (o : keyOpts) : keySpec := KeySpec i 0 j 0 o.

Lemma advance_zero line p : 0 <= p <= len line -> len line < 2 ^ 62 -> advance line p 0 = p.
Proof.
  intros Hp Hl. unfold advance. rewrite Z.add_0_r, wraps_id; [|lia|unfold in_sint; cbn in *; lia].
  cbv zeta. destruct (Z.ltb_spec (len line) p); lia.
Qed.

(** A range given by the text before it and the text up to its end. *)
Lemma extractKey_between line tab i j o pre mid post :
  k_skipSB o = false -> 0 <= i <= j -> j < 2 ^ 62 -> len line < 2 ^ 62 ->
  line = pre ++ skip_fields tab i line -> line = pre ++ mid ++ post ->
  lim_fields_from (length line) tab (j + 1) 0 line = post ->
  extractKey line (field_key i j o) tab = Ret mid.
Proof.
  intros Hb Hij Hj Hl E1 E2 E3. unfold extractKey, begfield, limfield, field_key. cbn [sword schar eword echar opts].
  rewrite Hb, (proj2 (Z.leb_le 0 j)) by lia. cbn [Z.eqb negb].
  rewrite (wraps_id 64 (j + 1)) by (lia || (unfold in_sint; cbn in *; lia)). rewrite E3.
  assert (L1 : len line - len (skip_fields tab i line) = len pre) by (rewrite E1 at 1; rewrite len_app; lia).
  assert (L2 : len line - len post = len pre + len mid) by (rewrite E2 at 1; rewrite !len_app; lia).
  pose proof (len_nonneg pre). pose proof (len_nonneg mid). pose proof (len_nonneg post).
  rewrite L1, L2, advance_zero by (try done; rewrite E2, !len_app in *; lia). destruct (Z.leb_spec (len pre + len mid) (len pre)).
  - destruct mid; [done|]. rewrite len_cons in *. pose proof (len_nonneg mid). lia.
  - rewrite E2. by apply slice_mid.
Qed.

Lemma extractKey_past line tab i j o :
  k_skipSB o = false -> 0 <= i <= j -> j < 2 ^ 62 -> len line < 2 ^ 62 -> skip_fields tab i line = [] ->
  extractKey line (field_key i j o) tab = Ret [].
Proof.
  intros Hb Hij Hj Hl E. unfold extractKey, begfield, limfield, field_key. cbn [sword schar eword echar opts].
  rewrite Hb, E, (proj2 (Z.leb_le 0 j)) by lia. cbn [Z.eqb negb]. change (len (@nil Z)) with 0. rewrite Z.sub_0_r.
  pose proof (len_nonneg line). rewrite advance_zero by lia.
  match goal with |- context [len line - len ?r] => pose proof (len_nonneg r) end.
  by rewrite (proj2 (Z.leb_le _ _)) by lia.
Qed.

Lemma take_drop_sub {A} i j (l : list A) : (i <= j)%nat -> drop i (take j l) = take (j - i) (drop i l).
Proof. intros. rewrite skipn_firstn_comm. done. Qed.

Lemma extractKey_sep line tab i j o :
  0 <= tab -> k_skipSB o = false -> 0 <= i <= j -> j < 2 ^ 62 -> len line < 2 ^ 62 ->
  extractKey line (field_key i j o) tab =
  Ret (join [tab] (take (Z.to_nat (j + 1 - i)) (drop (Z.to_nat i) (split_byte tab line)))).
Proof.
  intros Ht Hb Hij Hj Hl. set (fs := split_byte tab line).
  assert (Es : skip_fields tab i line = join [tab] (drop (Z.to_nat i) fs)) by (unfold skip_fields; apply skip_fields_sep; lia).
  pose proof (join_split_sep tab line) as Ej. fold fs in Ej.
  pose proof (lim_fields_sep tab (length line) (j + 1) line Ht ltac:(lia) ltac:(lia)) as El. fold fs in El.
  destruct (decide (Z.to_nat i < length fs)%nat) as [Hi|Hi].
  - set (n := Z.to_nat (j + 1)) in *. set (pre := match Z.to_nat i with O => [] | S _ => join [tab] (take (Z.to_nat i) fs) ++ [tab] end).
    assert (Hcut : forall gs, (Z.to_nat i < length gs)%nat -> take (Z.to_nat i) gs = take (Z.to_nat i) fs ->
      join [tab] gs = pre ++ join [tab] (drop (Z.to_nat i) gs)).
    { intros gs Hg Eg. unfold pre. destruct (Z.to_nat i) as [|m] eqn:Em; [done|]. rewrite (join_take_drop tab (S m)) by lia.
      rewrite Eg, <- app_assoc. done. }
    apply (extractKey_between line tab i j o pre _ (lim_fields_from (length line) tab (j + 1) 0 line)); try done.
    + rewrite Es. rewrite <- Ej at 1. by apply Hcut.
    + rewrite El at 1. rewrite (Hcut (take n fs)).
      * rewrite take_drop_sub by lia. rewrite <- app_assoc. do 4 f_equal. lia.
      * rewrite length_take. lia.
      * rewrite take_take. f_equal. lia.
  - rewrite (drop_ge fs) by lia. rewrite take_nil. apply extractKey_past; try done. by rewrite Es, drop_ge by lia.
Qed.

Lemma extractKey_blank line i j o :
  k_skipSB o = false -> 0 <= i <= j -> j < 2 ^ 62 -> len line < 2 ^ 62 ->
  extractKey line (field_key i j o) (-1) =
  Ret (mjoin (take (Z.to_nat (j + 1 - i)) (drop (Z.to_nat i) (blank_fields line)))).
Proof.
  intros Hb Hij Hj Hl. set (fs := blank_fields line). pose proof (blank_fields_join line) as Ej. fold fs in Ej.
  assert (Hjoin : forall a b : list (list Z), mjoin (a ++ b) = mjoin a ++ mjoin b).
  { intros a b. induction a as [|x a IH]; [done|]. change ((x :: a) ++ b) with (x :: (a ++ b)).
    rewrite !SortParallel.SortParallel.join_cons, IH. by rewrite app_assoc. }
  apply (extractKey_between line (-1) i j o (mjoin (take (Z.to_nat i) fs)) _ (mjoin (drop (Z.to_nat (j + 1)) fs))); try done.
  - unfold skip_fields. rewrite skip_fields_blank by lia. fold fs. rewrite <- Hjoin, take_drop. done.
  - rewrite <- !Hjoin. rewrite app_assoc. rewrite <- Ej at 1. f_equal.
    replace (take (Z.to_nat i) fs ++ take (Z.to_nat (j + 1 - i)) (drop (Z.to_nat i) fs)) with (take (Z.to_nat (j + 1)) fs); [by rewrite take_drop|].
    rewrite <- (take_drop (Z.to_nat i) (take (Z.to_nat (j + 1)) fs)). rewrite take_take, take_drop_sub by lia.
    f_equal; f_equal; lia.
  - rewrite lim_fields_blank, skip_fields_blank by lia. done.
Qed.

(** [C30] The key of the fields from [i] to [j] is the text of those fields:
    with -t, the fields between separators joined by the separator; without,
    the fields that end between a non-blank and a blank, each with its leading
    blanks. A field that is not there adds nothing. *)
Theorem extractKey_fields line tab i j o :
  -1 <= tab -> k_skipSB o = false -> 0 <= i <= j -> j < 2 ^ 62 -> len line < 2 ^ 62 ->
  extractKey line (field_key i j o) tab =
  Ret (glue tab (take (Z.to_nat (j + 1 - i)) (drop (Z.to_nat i) (fields tab line)))).
Proof.
  intros Ht Hb Hij Hj Hl. unfold glue, fields. destruct (Z.leb_spec 0 tab); [by apply extractKey_sep|].
  replace tab with (-1) by lia. by apply extractKey_blank.
Qed.

(** ** The text of a key *)

Definition flag (c : Z) (b : bool) : list Z := if b then [c] else [].

Definition print_opts (o : keyOpts) : list Z :=
  flag (ch! "n") (k_numeric o) ++ flag (ch! "h") (k_human o) ++ flag (ch! "f") (k_fold o) ++
  flag (ch! "d") (k_dict o) ++ flag (ch! "g") (k_generalNum o) ++ flag (ch! "i") (k_ignoreNP o) ++
  flag (ch! "M") (k_month o) ++ flag (ch! "R") (k_random o) ++ flag (ch! "V") (k_version o) ++
  flag (ch! "r") (k_reverse o) ++ flag (ch! "b") (k_skipSB o).

Definition print_char (n : Z) : list Z := if n =? 0 then [] else ch! "." :: utoa n.

(** [F[.C][OPTS][,F[.C][OPTS]]] *)
Definition print_key (k : keySpec) : list Z :=
  utoa (sword k + 1) ++
  (if schar k =? 0 then [] else print_char (schar k + 1)) ++ print_opts (opts k) ++
  (if eword k =? -1 then []
   else ch! "," :: utoa (eword k + 1) ++ print_char (echar k) ++ flag (ch! "b") (k_skipEB (opts k))).

(** Keys that have a text. *)
Definition printable (k : keySpec) : Prop :=
  0 <= sword k < 2 ^ 63 - 1 /\ 0 <= schar k < 2 ^ 63 - 1 /\ -1 <= eword k < 2 ^ 63 - 1 /\ 0 <= echar k < 2 ^ 63 /\
  (eword k = -1 -> echar k = 0 /\ k_skipEB (opts k) = false).

Definition not_digit_head (s : list Z) : Prop := match s with c :: _ => is_digit c = false | [] => True end.

Lemma parseNum_from_digits ds rest v :
  all_digits ds -> 0 <= v -> v * 10 ^ len ds + decimal ds < 2 ^ 63 -> not_digit_head rest ->
  parseNum_from v (ds ++ rest) = (v * 10 ^ len ds + decimal ds, rest).
Proof.
  intros Hd. revert v; induction Hd as [|c ds Hc Hd IH]; intros v Hv Hb Hr.
  - change (len (@nil Z)) with 0. change (decimal []) with 0. rewrite Z.pow_0_r, Z.mul_1_r, Z.add_0_r. destruct rest as [|c rest]; [done|].
    cbn [app parseNum_from]. cbn in Hr. unfold is_digit in Hr. by rewrite Hr.
  - cbn [app parseNum_from]. pose proof Hc as Hc'. unfold is_digit in Hc'. rewrite Hc'. apply is_digit_range in Hc.
    pose proof (decimal_range ds Hd). pose proof (Z.pow_pos_nonneg 10 (len ds) ltac:(lia) (len_nonneg _)).
    rewrite len_cons, Z.pow_add_r in * by (lia || apply len_nonneg). change (10 ^ 1) with 10 in *.
    change (c :: ds) with ([c] ++ ds) in *. rewrite decimal_app in *.
    replace (decimal [c]) with (c - 48) in * by (unfold decimal, digit_value; cbn; lia).
    rewrite wraps_id by (lia || (unfold in_sint; cbn in *; nia)). rewrite IH; [f_equal; ring|lia|nia|done].
Qed.

Lemma parseNum_utoa n rest : 0 <= n < 2 ^ 63 -> not_digit_head rest -> parseNum (utoa n ++ rest) = (n, rest, true).
Proof.
  intros Hn Hr. destruct (utoa_numeral n) as (Hd & Hne & Hv); [lia|].
  assert (E : decimal (utoa n) = n) by done. unfold parseNum.
  rewrite (parseNum_from_digits (utoa n) rest 0) by (try done; lia). rewrite Z.mul_0_l, Z.add_0_l, E.
  destruct (utoa n) as [|c u]; [done|]. rewrite len_app, len_cons. pose proof (len_nonneg u).
  by rewrite (proj2 (Z.ltb_lt _ _)) by lia.
Qed.

(** The letters set exactly the options printed. *)
Lemma parse_print_opts o rest :
  match rest with c :: _ => c = ch! "," | [] => True end ->
  parseKeyOpts (print_opts o ++ rest) no_opts true = (rest, [], 0, KeyOpts (k_numeric o) (k_human o) (k_fold o) (k_dict o)
    (k_generalNum o) (k_ignoreNP o) (k_month o) (k_random o) (k_version o) (k_reverse o) (k_skipSB o) false).
Proof.
  intros Hr. assert (Hend : forall o', parseKeyOpts rest o' true = (rest, [], 0, o')) by (intros; destruct rest; [done|]; by subst).
  destruct o as [n h f d g i M R V r sb eb]. unfold print_opts, no_opts. cbn [k_numeric k_human k_fold k_dict k_generalNum k_ignoreNP k_month k_random k_version k_reverse k_skipSB].
  rewrite <- !app_assoc.
  assert (step : forall c b s o o', (b = true -> key_letter c true o = Some o') -> (b = false -> o' = o) -> c <> 44 ->
    parseKeyOpts (flag c b ++ s) o true = parseKeyOpts s o' true).
  { intros c [] s o o' H1 H2 Hc; [|by rewrite H2]. cbn [flag app parseKeyOpts]. rewrite (proj2 (Z.eqb_neq c 44)) by done. by rewrite H1. }
  rewrite (step _ n _ _ (KeyOpts n false false false false false false false false false false false)) by (try done; by intros ->).
  rewrite (step _ h _ _ (KeyOpts n h false false false false false false false false false false)) by (try done; by intros ->).
  rewrite (step _ f _ _ (KeyOpts n h f false false false false false false false false false)) by (try done; by intros ->).
  rewrite (step _ d _ _ (KeyOpts n h f d false false false false false false false false)) by (try done; by intros ->).
  rewrite (step _ g _ _ (KeyOpts n h f d g false false false false false false false)) by (try done; by intros ->).
  rewrite (step _ i _ _ (KeyOpts n h f d g i false false false false false false)) by (try done; by intros ->).
  rewrite (step _ M _ _ (KeyOpts n h f d g i M false false false false false)) by (try done; by intros ->).
  rewrite (step _ R _ _ (KeyOpts n h f d g i M R false false false false)) by (try done; by intros ->).
  rewrite (step _ V _ _ (KeyOpts n h f d g i M R V false false false)) by (try done; by intros ->).
  rewrite (step _ r _ _ (KeyOpts n h f d g i M R V r false false)) by (try done; by intros ->).
  rewrite (step _ sb _ _ (KeyOpts n h f d g i M R V r sb false)) by (try done; by intros ->).
  apply Hend.
Qed.

Lemma flag_head c b s : is_digit c = false -> not_digit_head s -> not_digit_head (flag c b ++ s).
Proof. by destruct b. Qed.

Lemma flag_no_dot c b s : c <> 46 -> match s with d :: _ => d <> 46 | [] => True end -> match flag c b ++ s with d :: _ => d <> 46 | [] => True end.
Proof. by destruct b. Qed.

Lemma print_opts_head o rest :
  not_digit_head rest -> match rest with d :: _ => d <> 46 | [] => True end ->
  not_digit_head (print_opts o ++ rest) /\ match print_opts o ++ rest with d :: _ => d <> 46 | [] => True end.
Proof.
  intros H1 H2. unfold print_opts. rewrite <- !app_assoc. split; [repeat (apply flag_head; [done|]); done|].
  repeat (apply flag_no_dot; [done|]). done.
Qed.

Lemma parseKeyEnd_print k :
  printable k ->
  parseKeyEnd (KeySpec (sword k) (schar k) (-1) 0
    (let '(KeyOpts n h f d g i M R V r sb eb) := opts k in KeyOpts n h f d g i M R V r sb false))
    (if eword k =? -1 then [] else ch! "," :: utoa (eword k + 1) ++ print_char (echar k) ++ flag (ch! "b") (k_skipEB (opts k))) = (k, [], 0).
Proof.
  intros (_ & _ & He & Hc & Hx). destruct k as [sw sc ew ec o]. cbn [sword schar eword echar opts] in *.
  destruct (Z.eqb_spec ew (-1)) as [->|Hne].
  - destruct (Hx eq_refl) as [-> Hb]. destruct o as [n h f d g i M R V r sb eb]. cbn in Hb. by subst eb.
  - cbn [parseKeyEnd Z.eqb Pos.eqb negb].
    assert (Hd : not_digit_head (print_char ec ++ flag 98 (k_skipEB o))) by (unfold print_char; destruct (ec =? 0), (k_skipEB o); done).
    rewrite parseNum_utoa by (done || lia). cbn [negb]. rewrite (proj2 (Z.eqb_neq (ew + 1) 0)) by lia.
    rewrite wraps_id by (lia || (unfold in_sint; cbn in *; lia)). replace (ew + 1 - 1) with ew by lia. cbv zeta. cbn [set_end sword schar eword echar opts].
    unfold print_char. destruct (Z.eqb_spec ec 0) as [->|He0].
    + destruct o as [n h f d g i M R V r sb []]; done.
    + cbn [app Z.eqb Pos.eqb]. rewrite parseNum_utoa; [|lia|by destruct (k_skipEB o)]. cbn [negb].
      destruct o as [n h f d g i M R V r sb []]; done.
Qed.

(** The text of a key specification is parsed to that specification:
    fields, characters and every option, for all numbers that fit an int. *)
Theorem parseKeySpec_print k : printable k -> parseKeySpec (print_key k) = (k, [], 0).
Proof.
  intros Hp. pose proof Hp as (Hs & Hc & _). pose proof (parseKeyEnd_print k Hp) as HE.
  unfold print_key, parseKeySpec. set (tail_text := if eword k =? -1 then [] else _) in *.
  assert (Ht : match tail_text with c :: _ => c = 44 | [] => True end) by (unfold tail_text; by destruct (eword k =? -1)).
  destruct (print_opts_head (opts k) tail_text) as [Hd1 Hd2]; [by destruct tail_text; subst..|].
  assert (Hd : not_digit_head ((if schar k =? 0 then [] else print_char (schar k + 1)) ++ print_opts (opts k) ++ tail_text)).
  { destruct (Z.eqb_spec (schar k) 0); [done|]. unfold print_char. by rewrite (proj2 (Z.eqb_neq (schar k + 1) 0)) by lia. }
  rewrite parseNum_utoa by (done || lia). cbn [negb]. rewrite (proj2 (Z.eqb_neq (sword k + 1) 0)) by lia.
  rewrite wraps_id by (lia || (unfold in_sint; cbn in *; lia)). replace (sword k + 1 - 1) with (sword k) by lia. cbv zeta.
  assert (Htail : forall k', set_opts k' no_opts = KeySpec (sword k) (schar k) (-1) 0 no_opts ->  opts k' = no_opts ->
    (let '(s, errMsg, badType, o) := parseKeyOpts (print_opts (opts k) ++ tail_text) (opts k') true in
     if negb (str_eqb errMsg []) || negb (badType =? 0) then (set_opts k' o, errMsg, badType) else parseKeyEnd (set_opts k' o) s) = (k, [], 0)).
  { intros k' E1 E2. rewrite E2, parse_print_opts by done. cbn [str_eqb negb orb Z.eqb].
    etransitivity; [|exact HE]. destruct k' as [a b c d o']. unfold set_opts in *. cbn [sword schar eword echar opts] in *.
    injection E1 as -> -> -> ->. by destruct (opts k). }
  destruct (Z.eqb_spec (schar k) 0) as [E0|E0].
  - rewrite E0 in Htail. cbn [app]. specialize (Htail (KeySpec (sword k) 0 (-1) 0 no_opts) eq_refl eq_refl).
    destruct (print_opts (opts k) ++ tail_text) as [|d r]; [exact Htail|]. rewrite (proj2 (Z.eqb_neq d 46)) by done. exact Htail.
  - unfold print_char. rewrite (proj2 (Z.eqb_neq (schar k + 1) 0)) by lia. cbn [app Z.eqb Pos.eqb].
    rewrite parseNum_utoa by (done || lia). cbn [negb]. rewrite (proj2 (Z.eqb_neq (schar k + 1) 0)) by lia.
    rewrite wraps_id by (lia || (unfold in_sint; cbn in *; lia)). replace (schar k + 1 - 1) with (schar k) by lia.
    exact (Htail (KeySpec (sword k) (schar k) (-1) 0 no_opts) eq_refl eq_refl).
Qed.
End SortKeyCorrect.
