(* ===== verification/SortWitness.v ===== *)
(** * sort: concrete runs, and where the command departs from its documents

    Witnesses of the theorems about sort, on small inputs, with an unstable
    library sort ([rev_sort]) that reverses ties; and the cases in which the
    command does not do what its options say. *)

From Stdlib Require Import ZArith Lia String QArith.
From stdpp Require Import base tactics list numbers strings sorting.
From S2P Require Import Prelude SortOrder SortKey SortCompare SortFast SortMain SortNumber SortParallel SortCorrect SortOutput SortCommand SortKeyCorrect.

Open Scope Z_scope.
Open Scope go_scope.

Module SortWitness.
Import SortMain.SortMain SortNumber.SortNumber SortCorrect.SortCorrect SortCommand.SortCommand SortKeyCorrect.SortKeyCorrect.

(** A sort that is not stable: ties come out in reverse order. *)
Definition rev_sort (A : Type) (cmp : A -> A -> Z) (l : list A) : list A := SortStableFunc cmp (rev l).

Lemma rev_sort_law : SortFunc rev_sort.
Proof.
  split.
  - intros A cmp l. unfold rev_sort. rewrite SortStableFunc_perm. symmetry. apply Permutation_rev.
  - intros A D cmp l H Hl. apply (SortStableFunc_stable D cmp). rewrite Forall_forall in Hl |- *.
    intros x. rewrite list_elem_of_In, <- in_rev, <- list_elem_of_In. apply Hl.
Qed.

(** -k2,2n -s over "b 10", "a 9", "c 9". *)
Definition numeric_opts : keyOpts := KeyOpts true false false false false false false false false false false false.
Definition second_field : sorter :=
  Sorter [KeySpec 1 0 1 0 numeric_opts] (-1) false true false false false false false None None 0 0.
Definition text_input : list Z := str! "b 10" ++ [10] ++ str! "a 9" ++ [10] ++ str! "c 9" ++ [10].
Definition sorted_input : list Z := str! "a 9" ++ [10] ++ str! "c 9" ++ [10] ++ str! "b 10" ++ [10].

Definition world_of (d : list Z) : world := World (Data d) (fun _ => inl []) (fun _ => inl []) (fun _ => None).
Definition stdin_only : list (list Z * reader) := [(str! "-", Stdin)].

Lemma second_field_ok : sorter_ok second_field.
Proof. split; [done|]. repeat constructor; cbn; lia. Qed.

Lemma short_by_test ls : forallb (fun l => len l <? 2 ^ 31) ls = true -> Forall short ls.
Proof. rewrite forallb_forall, Forall_forall. intros H l Hl%list_elem_of_In. apply Z.ltb_lt, H, Hl. Qed.

(** In order, by comparing each element with all that follow. *)
Fixpoint ordered {A} (cmp : A -> A -> Z) (l : list A) : bool :=
  match l with [] => true | x :: l' => forallb (fun y => cmp x y <=? 0) l' && ordered cmp l' end.

Lemma in_order_by_test {A} (cmp : A -> A -> Z) l : ordered cmp l = true -> in_order cmp l.
Proof.
  unfold in_order. induction l as [|x l IH]; [constructor|]. cbn. intros [H1 H2]%andb_true_iff. apply StronglySorted_cons.
  split; [|by apply IH]. rewrite forallb_forall in H1. apply Forall_forall. intros y Hy%list_elem_of_In. apply Z.leb_le, H1, Hy.
Qed.

Lemma text_short : Forall short (input_lines second_field [text_input]).
Proof. apply short_by_test. vm_compute. reflexivity. Qed.

Lemma sort_inputs_stable_witness :
  exists out,
    sort_inputs (fun x => x) 4 rev_sort second_field (world_of text_input) stdin_only [] =
      Ret (write_lines (world_of text_input) [] false out) /\
    in_order (comparator (compare (fun x => x) second_field)) out /\ written false out = sorted_input.
Proof.
  destruct (sort_inputs_stable (fun x => x) 4 rev_sort (SortFunc0 := rev_sort_law) second_field (world_of text_input) stdin_only [] [text_input]
    second_field_ok eq_refl text_short) as (out & E & _ & O & _).
  exists out. split; [exact E|]. split; [exact O|].
  pose proof E as E'. assert (C : sort_inputs (fun x => x) 4 rev_sort second_field (world_of text_input) stdin_only [] =
    Ret (Result 0 sorted_input [] None)) by (vm_compute; reflexivity).
  rewrite C in E'. injection E' as E'. exact (eq_sym E').
Defined.

Lemma sort_then_check_witness :
  exists r, sort_inputs (fun x => x) 4 rev_sort second_field (world_of text_input) stdin_only [] = Ret r /\ status r = 0 /\
    (w_stdin (world_of sorted_input) = Data (stdout r) ->
     checkSorted (fun x => x) second_field (world_of sorted_input) [(str! "-", Stdin)] = Ret (Result 0 [] [] None)).
Proof.
  exact (sort_then_check (fun x => x) 4 rev_sort (SortFunc0 := rev_sort_law) second_field (world_of text_input) stdin_only [text_input]
    (world_of sorted_input) second_field_ok eq_refl text_short).
Defined.

(** Two files that are in order. *)
Definition two_files : world :=
  World (Data (str! "a 9" ++ [10] ++ str! "b 10" ++ [10])) (fun _ => inr (Data (str! "c 9" ++ [10]))) (fun _ => inl []) (fun _ => None).
Definition both : list (list Z * reader) := [(str! "-", Stdin); (str! "f", File (Data (str! "c 9" ++ [10])))].

Lemma merge_is_sort_witness :
  mergeFiles (fun x => x) second_field two_files both [] = sort_inputs (fun x => x) 4 rev_sort second_field two_files both [] /\
  mergeFiles (fun x => x) second_field two_files both [] = Ret (Result 0 sorted_input [] None).
Proof.
  split; [|vm_compute; reflexivity].
  apply (merge_is_sort (fun x => x) 4 rev_sort (SortFunc0 := rev_sort_law) second_field two_files both []
    [str! "a 9" ++ [10] ++ str! "b 10" ++ [10]; str! "c 9" ++ [10]]).
  - exact second_field_ok.
  - discriminate.
  - reflexivity.
  - apply short_by_test. vm_compute. reflexivity.
  - apply Forall_cons. split; [|apply Forall_singleton]; apply in_order_by_test; vm_compute; reflexivity.
Defined.

Lemma check_reports_witness :
  check_lines (fun x => x) second_field (str! "in") [str! "a 1"; str! "b 3"; str! "c 2"; str! "d 1"] =
  Ret (Result 1 [] (str! "sort: in:3: disorder: c 2" ++ [10]) None).
Proof.
  apply (check_reports (fun x => x) second_field (str! "in") [str! "a 1"] (str! "b 3") (str! "c 2") [str! "d 1"]).
  - exact second_field_ok.
  - apply short_by_test. vm_compute. reflexivity.
  - constructor; [repeat constructor|]. apply Forall_singleton. split; [vm_compute; discriminate|discriminate].
  - left. vm_compute. reflexivity.
Defined.

Lemma numCompare_value_witness :
  sorter_numCompare (ch! ",") (ch! ".") (str! "1.234,5 euro") (str! "999,9") = 1 /\
  compareNumericKey (str! "-0.50") (parseNumericKey (str! "-0.50")) (str! "-.5x") (parseNumericKey (str! "-.5x")) = Ret 0.
Proof.
  split.
  - rewrite (proj1 (numCompare_value (ch! ",") (ch! ".") (str! "1.234,5 euro") (str! "999,9") ltac:(vm_compute; reflexivity) ltac:(vm_compute; reflexivity))).
    vm_compute. reflexivity.
  - rewrite (proj2 (numCompare_value 0 0 (str! "-0.50") (str! "-.5x") ltac:(vm_compute; reflexivity) ltac:(vm_compute; reflexivity))).
    vm_compute. reflexivity.
Defined.

Lemma extractKey_fields_witness :
  extractKey (str! "one:two:three:four") (field_key 1 2 no_opts) (ch! ":") = Ret (str! "two:three") /\
  extractKey (str! "one  two three") (field_key 1 1 no_opts) (-1) = Ret (str! "  two").
Proof.
  split.
  - rewrite (extractKey_fields (str! "one:two:three:four") (ch! ":") 1 2 no_opts) by (vm_compute; split_and?; (reflexivity || discriminate)).
    vm_compute. reflexivity.
  - rewrite (extractKey_fields (str! "one  two three") (-1) 1 1 no_opts) by (vm_compute; split_and?; (reflexivity || discriminate)).
    vm_compute. reflexivity.
Defined.

Definition sample_key : keySpec := KeySpec 1 2 4 7 (KeyOpts true false false false false false false false false true true true).

Lemma parseKeySpec_print_witness :
  print_key sample_key = str! "2.3nrb,5.7b" /\ parseKeySpec (str! "2.3nrb,5.7b") = (sample_key, [], 0).
Proof.
  split; [vm_compute; reflexivity|]. change (str! "2.3nrb,5.7b") with (print_key sample_key).
  apply (parseKeySpec_print sample_key). unfold printable. cbn. split_and!; lia || done.
Defined.

(** ** Departures *)

(** The parser multiplies without a bound, so a large number wraps around,
    and an offset that comes out negative, or that overflows when it is added,
    makes the extraction slice out of range. *)
Theorem key_offset_panics :
  (let '(k, errMsg, badType) := parseKeySpec (str! "1.18446744073709551611") in
   errMsg = [] /\ extractKey (str! "abc") k (-1) = Panic) /\
  (let '(k, errMsg, badType) := parseKeySpec (str! "2.9223372036854775807") in
   errMsg = [] /\ extractKey (str! "ab cd") k (-1) = Panic).
Proof. vm_compute. done. Qed.

(** With -R -u and no positional key the whole-line key compares all lines
    equal, so one line is written however many different ones are read. *)
Theorem random_unique_one_line ToUpper SliceStable s w randSrc crypto inputs output ds o rnd :
  (forall A less (l : list A), SliceStable A less l ≡ₚ l) ->
  keys s = [KeySpec 0 0 (-1) 0 o] -> k_random o = true -> s_unique s = true ->
  read_inputs (w_stdin w) inputs = inr ds -> Forall short (input_lines s ds) -> input_lines s ds <> [] ->
  match randSrc with
  | Some src => random_numbers (length (input_lines s ds)) src
  | None => Some (crypto <$> seq 0 (length (input_lines s ds)))
  end = Some rnd ->
  exists x, randomShuffle ToUpper SliceStable s w randSrc crypto inputs output = Ret (write_lines w output (zeroTerm s) [x]).
Proof.
  intros Hp Hk Hr Hu Hin Hl Hne Hrnd. unfold randomShuffle. rewrite Hin. fold (input_lines s ds). rewrite Hrnd.
  assert (Hz : forall a b, short a -> short b -> compareEqual ToUpper s a b = Ret 0).
  { intros a b Ha Hb. unfold compareEqual, compareKeys. rewrite Hk. change (0 <? len [_]) with true. cbn [compareKeys_from].
    destruct (extractKey_returns a (KeySpec 0 0 (-1) 0 o) (tab s) Ha) as (ka & -> & _); [cbn; lia..|].
    destruct (extractKey_returns b (KeySpec 0 0 (-1) 0 o) (tab s) Hb) as (kb & -> & _); [cbn; lia..|].
    cbn [bind]. unfold compare_key. cbn [opts]. by rewrite Hr. }
  set (l := SliceStable _ _ (input_lines s ds)). assert (Pl : l ≡ₚ input_lines s ds) by apply Hp. clearbody l.
  rewrite <- Pl in Hl. destruct l as [|x l]; [by apply Permutation_nil_l in Pl|].
  exists x. unfold keep_unique. rewrite Hu. cbn [unique_lines]. apply Forall_cons in Hl as [Hx Hl].
  assert (E : unique_from (compareEqual ToUpper s) x l = Ret []); [|by rewrite E].
  clear -Hz Hx Hl. induction Hl as [|y l Hy Hl IH]; [done|]. cbn [unique_from]. by rewrite Hz.
Qed.

(** A number too large for a float64 is no number to -g, so it sorts before
    every number, and before smaller ones in particular. *)
Theorem general_overflow_first :
  generalNumCompare (str! "1e400") (str! "1") = -1 /\ generalNumCompare (str! "1e300") (str! "1") = 1.
Proof. vm_compute. done. Qed.

(** The parser of keys never reports a letter it does not support. *)
Theorem parseKeySpec_no_badType spec : (parseKeySpec spec).2 = 0.
Proof.
  assert (Ho : forall s o st, (parseKeyOpts s o st).1.2 = 0).
  { intros s. induction s as [|c s IH]; intros o st; [done|]. cbn [parseKeyOpts]. destruct (c =? 44); [done|].
    destruct (key_letter c st o); [apply IH|done]. }
  assert (He : forall k s, (parseKeyEnd k s).2 = 0).
  { intros k s. unfold parseKeyEnd. destruct s as [|c s]; [done|]. destruct (negb (c =? 44)); [done|].
    destruct (parseNum s) as [[n rest] ok]. destruct (negb ok); [done|]. destruct (n =? 0); [done|]. cbv zeta.
    assert (Ht : forall k s, (let '(s, e, t, o) := parseKeyOpts s (opts k) false in
      if negb (str_eqb e []) || negb (t =? 0) then (set_opts k o, e, t)
      else if 0 <? len s then (set_opts k o, str! "stray character in field spec", 0) else (set_opts k o, [], 0)).2 = 0).
    { clear -Ho. intros k s. pose proof (Ho s (opts k) false) as H. destruct (parseKeyOpts s (opts k) false) as [[[r e] t] o]. cbn in H. subst t.
      destruct (_ || _); [done|]. by destruct (0 <? len r). }
    destruct rest as [|d s2]; [apply Ht|]. destruct (d =? 46); [|apply Ht]. destruct (parseNum s2) as [[n' rest'] ok'].
    destruct (negb ok'); [done|apply Ht]. }
  unfold parseKeySpec. destruct (parseNum spec) as [[n rest] ok]. destruct (negb ok); [done|]. destruct (n =? 0); [done|]. cbv zeta.
  assert (Ht : forall k s, (let '(s, e, t, o) := parseKeyOpts s (opts k) true in
    if negb (str_eqb e []) || negb (t =? 0) then (set_opts k o, e, t) else parseKeyEnd (set_opts k o) s).2 = 0).
  { intros k s. pose proof (Ho s (opts k) true) as H. destruct (parseKeyOpts s (opts k) true) as [[[r e] t] o]. cbn in H. subst t.
    destruct (_ || _); [done|apply He]. }
  destruct rest as [|d s2]; [apply Ht|]. destruct (d =? 46); [|apply Ht]. destruct (parseNum s2) as [[n' rest'] ok'].
  destruct (negb ok'); [done|]. destruct (n' =? 0); [done|apply Ht].
Qed.
End SortWitness.
