(* ===== verification/Comm.v ===== *)
(** * comm: comparing two sorted files

    Model of src/cmds/comm/comm.go: the options -1 -2 -3 that are taken out
    of the arguments before the flags are parsed, the reader of records, the
    loop over both files with its checks of the order, and the buffered
    output, of which an early return leaves the last bytes unwritten. The
    parser of the flags and the collation of the locale are parameters; a
    file is its bytes and how reading it ends. Writes to the output do not
    fail. *)

From Stdlib Require Import ZArith Lia String.
From stdpp Require Import base tactics list numbers strings.
From S2P Require Import Prelude SortOrder.

Open Scope Z_scope.
Open Scope go_scope.

Module Comm.

(** ** Buffered output

    [bufio.Writer]: what has reached the output, and the buffer. *)

Record writer := Writer { flushed : list Z; buffer : list Z }.

Definition buffer_size : Z := 4096.

Definition Flush (w : writer) : writer := Writer (flushed w ++ buffer w) [].

Definition WriteByte (w : writer) (c : Z) : writer :=
  let w := if buffer_size - len (buffer w) <=? 0 then Flush w else w in
  Writer (flushed w) (buffer w ++ [c]).

(** [direct]: with an empty buffer a text that does not fit is handed to the
    output as it is, which [WriteString] does when the output has a
    [WriteString] of its own, and [Write] always. *)
Fixpoint write_text (fuel : nat) (direct : bool) (w : writer) (s : list Z) : writer :=
  match fuel with
  | O => w
  | S fuel =>
      let avail := buffer_size - len (buffer w) in
      if len s <=? avail then Writer (flushed w) (buffer w ++ s)
      else if (len (buffer w) =? 0) && direct then Writer (flushed w ++ s) []
      else
        let n := Z.to_nat avail in
        write_text fuel direct (Flush (Writer (flushed w) (buffer w ++ take n s))) (drop n s)
  end.

Definition WriteString (direct : bool) (w : writer) (s : list Z) : writer := write_text (S (S (length s))) direct w s.

(** ** Records *)

(** The bytes that are left and the error at their end, if it is not EOF. *)
Record reader := Reader { data : list Z; end_error : option (list Z) }.

(** [recordReader.next]: the record, whether there is one, and the error. *)
Definition next (delim : Z) (r : reader) : list Z * bool * option (list Z) * reader :=
  match index_byte (data r) delim with
  | Some i => (take i (data r), true, None, Reader (drop (S i) (data r)) (end_error r))
  | None =>
      match data r with
      | [] => ([], false, end_error r, r)
      | d => (d, true, end_error r, Reader [] (end_error r))
      end
  end.

(** ** Options *)

Record columns := Columns { c1 : bool; c2 : bool; c3 : bool }.

Definition column (c : columns) (col : Z) : bool :=
  if col =? 1 then c1 c else if col =? 2 then c2 c else if col =? 3 then c3 c else false.

Definition column_digit (c : Z) : bool := (ch! "1" <=? c) && (c <=? ch! "3").

Definition set_column (s : columns) (c : Z) : columns :=
  if c =? ch! "1" then Columns true (c2 s) (c3 s)
  else if c =? ch! "2" then Columns (c1 s) true (c3 s)
  else Columns (c1 s) (c2 s) true.

(** [strings.Cut] at "=": the name, and whether there is a value. *)
Definition cut_name (a : list Z) : list Z * bool :=
  match index_byte a (ch! "=") with
  | Some i => (take i a, true)
  | None => (a, false)
  end.

(** The loop that takes the digits out of the options. *)
Fixpoint take_columns (suppress : columns) (valuePending : bool) (args : list (list Z)) : columns * list (list Z) :=
  match args with
  | [] => (suppress, [])
  | a :: args' =>
      if valuePending then
        let '(s, rest) := take_columns suppress false args' in (s, a :: rest)
      else if str_eqb a (str! "--") then (suppress, args)
      else if str_eqb a (str! "-") || negb (has_prefix a (str! "-")) then (suppress, args)
      else if has_prefix a (str! "--") then
        let '(name, hasValue) := cut_name (drop 2 a) in
        let pending := negb hasValue && has_prefix (str! "output-delimiter") name in
        let '(s, rest) := take_columns suppress pending args' in (s, a :: rest)
      else if existsb column_digit (drop 1 a) then
        let suppress := fold_left set_column (List.filter column_digit (drop 1 a)) suppress in
        let rebuilt := ch! "-" :: List.filter (fun c => negb (column_digit c)) (drop 1 a) in
        let '(s, rest) := take_columns suppress false args' in
        (s, if 1 <? len rebuilt then rebuilt :: rest else rest)
      else
        let '(s, rest) := take_columns suppress false args' in (s, a :: rest)
  end.

Record flags := Flags {
  checkOrder : bool;
  nocheckOrder : bool;
  outputDelimiter : option (list Z);
  total : bool;
  zeroTerminated : bool;
}.

Definition line_end (f : flags) : Z := if zeroTerminated f then 0 else 10.
Definition delimiter (f : flags) : list Z := match outputDelimiter f with Some d => d | None => [9] end.

(** ** The loop *)

Record result := Result { status : Z; stdout : list Z; stderr : list Z }.

(** What the command keeps of one file, and its name. *)
Record side := Side {
  name : list Z;
  input : reader;
  current : list Z;
  have : bool;
  warned : bool;
}.

Record state := State {
  first : side;
  second : side;
  seenUnpairable : bool;
  count1 : Z; count2 : Z; count3 : Z;
  bw : writer;
  errs : list Z;
}.

Definition get (file : Z) (st : state) : side := if file =? 1 then first st else second st.

Definition set_side (file : Z) (st : state) (s : side) (e : list Z) : state :=
  State (if file =? 1 then s else first st) (if file =? 1 then second st else s) (seenUnpairable st)
    (count1 st) (count2 st) (count3 st) (bw st) (errs st ++ e).

Definition set_unpairable (st : state) : state :=
  State (first st) (second st) true (count1 st) (count2 st) (count3 st) (bw st) (errs st).

Section command.
(** The comparison: an error, or the order. *)
Context (compare : list Z -> list Z -> list Z + Z).
Context (direct : bool) (suppress : columns) (f : flags).

Definition emit (col : Z) (line : list Z) (st : state) : state :=
  let count k := if col =? k then 1 else 0 in
  let w :=
    if column suppress col then bw st
    else
      let tabs := (if (1 <? col) && negb (c1 suppress) then 1 else 0) + (if (2 <? col) && negb (c2 suppress) then 1 else 0) in
      let w := WriteString direct (bw st) (mjoin (replicate (Z.to_nat tabs) (delimiter f))) in
      let w := WriteString direct w line in
      WriteByte w (line_end f) in
  State (first st) (second st) (seenUnpairable st)
    (count1 st + count 1) (count2 st + count 2) (count3 st + count 3) w (errs st).

Definition not_sorted (file : Z) : list Z :=
  str! "comm: file " ++ itoa file ++ str! " is not in sorted order" ++ [10].

Definition comparison_failed (e : list Z) : list Z := str! "comm: comparison failed: " ++ e ++ [10].

(** [advance]: whether to go on. *)
Definition advance (file : Z) (st : state) : bool * state :=
  let s := get file st in
  let '(record, ok, err, r) := next (line_end f) (input s) in
  match err with
  | Some e =>
      (false, set_side file st (Side (name s) r (current s) (have s) (warned s))
                (str! "comm: " ++ name s ++ str! ": " ++ e ++ [10]))
  | None =>
      let s' := Side (name s) r record ok (warned s) in
      if have s && ok then
        match compare (current s) record with
        | inl e => (false, set_side file st s' (comparison_failed e))
        | inr order =>
            if (0 <? order) && negb (nocheckOrder f) then
              if checkOrder f then (false, set_side file st s' (not_sorted file))
              else if seenUnpairable st && negb (warned s)
              then (true, set_side file st (Side (name s) r record ok true) (not_sorted file))
              else (true, set_side file st s' [])
            else (true, set_side file st s' [])
        end
      else (true, set_side file st s' [])
  end.

Definition advance_both (st : state) : bool * state :=
  let '(ok, st) := advance 1 st in
  if ok then advance 2 st else (false, st).

Definition total_line (st : state) : list Z :=
  let shown k c := if column suppress k then 0 else c in
  let a := shown 1 (count1 st) in
  let b := shown 2 (count2 st) in
  let c := shown 3 (count3 st) in
  let d := delimiter f in
  itoa a ++ d ++ itoa b ++ d ++ itoa c ++ d ++ itoa (a + b + c) ++ str! " total".

(** After the loop. *)
Definition finish (st : state) : result :=
  let w :=
    if total f then WriteByte (WriteString true (bw st) (total_line st)) (line_end f)
    else bw st in
  let out := flushed (Flush w) in
  if warned (first st) || warned (second st)
  then Result 1 out (errs st ++ str! "comm: input is not in sorted order" ++ [10])
  else Result 0 out (errs st).

(** An early return leaves the buffer unwritten. *)
Definition stop (st : state) : result := Result 1 (flushed (bw st)) (errs st).

Fixpoint loop (fuel : nat) (st : state) : outcome result :=
  match fuel with
  | O => OutOfFuel
  | S fuel =>
      let go (r : bool * state) := if r.1 then loop fuel r.2 else Ret (stop r.2) in
      if have (first st) || have (second st) then
        match (if negb (have (first st)) then inr 1
               else if negb (have (second st)) then inr (-1)
               else compare (current (first st)) (current (second st))) with
        | inl e =>
            Ret (stop (State (first st) (second st) (seenUnpairable st) (count1 st) (count2 st) (count3 st) (bw st)
                         (errs st ++ comparison_failed e)))
        | inr d =>
            if d <? 0 then go (advance 1 (emit 1 (current (first st)) (set_unpairable st)))
            else if 0 <? d then go (advance 2 (emit 2 (current (second st)) (set_unpairable st)))
            else go (advance_both (emit 3 (current (first st)) st))
        end
      else Ret (finish st)
  end.

Definition start (name1 name2 : list Z) (r1 r2 : reader) : state :=
  State (Side name1 r1 [] false false) (Side name2 r2 [] false false) false 0 0 0 (Writer [] []) [].

Definition loop_fuel (r1 r2 : reader) : nat := length (data r1) + length (data r2) + 3.

Definition compare_files (name1 name2 : list Z) (r1 r2 : reader) : outcome result :=
  let '(ok, st) := advance_both (start name1 name2 r1 r2) in
  if ok then loop (loop_fuel r1 r2) st else Ret (stop st).
End command.

(** ** The command *)

Record collator := Collator { Compare_ : list Z -> list Z -> list Z + Z; Close : option (list Z) }.

Record world := World {
  w_stdin : reader;
  w_open : list Z -> list Z + reader;
  (** LC_COLLATE when it is not C or POSIX, and what opening it gives. *)
  w_collate : option (list Z * (list Z + collator));
}.

Definition UsageError (msg : list Z) : result :=
  Result 2 [] (str! "comm: " ++ msg ++ [10] ++ str! "Try 'comm --help' for more information." ++ [10]).

Definition openRecordReader (w : world) (operand : list Z) : list Z + reader :=
  if str_eqb operand (str! "-") then inr (w_stdin w) else w_open w operand.

Definition open_failed (op e : list Z) : result := Result 1 [] (str! "comm: " ++ op ++ str! ": " ++ e ++ [10]).

Definition compare_operands (w : world) (direct : bool) (suppress : columns) (f : flags)
  (compare : list Z -> list Z -> list Z + Z) (op1 op2 : list Z) : outcome result :=
  match openRecordReader w op1 with
  | inl e => Ret (open_failed op1 e)
  | inr r1 =>
      match openRecordReader w op2 with
      | inl e => Ret (open_failed op2 e)
      | inr r2 => compare_files compare direct suppress f op1 op2 r1 r2
      end
  end.

Definition collate_failed (name e : list Z) : list Z := str! "comm: LC_COLLATE=" ++ name ++ str! ": " ++ e ++ [10].

(** The deferred [Close] of the collation. *)
Definition close_collator (name : list Z) (c : collator) (r : result) : result :=
  match Close c with
  | None => r
  | Some e => Result (if status r =? 0 then 1 else status r) (stdout r) (stderr r ++ collate_failed name e)
  end.

(** [parse] is [ParseRequireOrder]: a result of its own, or the flags and
    the operands. *)
Definition runWithCollator (parse : list (list Z) -> result + flags * list (list Z)) (direct : bool) (w : world)
  (args : list (list Z)) : outcome result :=
  let '(suppress, rest) := take_columns (Columns false false false) false args in
  match parse rest with
  | inl r => Ret r
  | inr (f, operands) =>
      match operands with
      | [] => Ret (UsageError (str! "missing operand"))
      | [op] => Ret (UsageError (str! "missing operand after '" ++ op ++ str! "'"))
      | _ :: _ :: op :: _ => Ret (UsageError (str! "extra operand '" ++ op ++ str! "'"))
      | [op1; op2] =>
          if str_eqb op1 (str! "-") && str_eqb op2 (str! "-")
          then Ret (UsageError (str! "both files cannot be standard input"))
          else
            match w_collate w with
            | None => compare_operands w direct suppress f (fun a b => inr (Compare a b)) op1 op2
            | Some (name, inl e) => Ret (Result 2 [] (collate_failed name e))
            | Some (name, inr c) =>
                let! r := compare_operands w direct suppress f (Compare_ c) op1 op2 in
                Ret (close_collator name c r)
            end
      end
  end.
End Comm.
