(* ===== verification/CommCorrect.v ===== *)
(** * comm: what is written

    The records of a file are its lines; the loop ends; what it writes are
    the events of a merge of the two lists of lines, whatever their order
    ([comm_checks_order]); for files in order these are the lines only the
    first has, only the second has, and both have, as multisets
    ([comm_partitions]). *)

From Stdlib Require Import ZArith Lia String.
From stdpp Require Import base tactics list numbers strings sorting.
From S2P Require Import Prelude SortOrder SortKey SortCompare SortFast SortMain SortParallel SortCommand Comm.

Open Scope Z_scope.
Open Scope go_scope.

Module CommCorrect.
Import Comm.Comm.

(** ** Output *)

Definition content (w : writer) : list Z := flushed w ++ buffer w.

Definition writer_ok (w : writer) : Prop := len (buffer w) <= buffer_size.

Lemma content_Flush w : content (Flush w) = content w.
Proof. unfold content, Flush. cbn. by rewrite app_nil_r. Qed.

Lemma WriteByte_ok w c : writer_ok w -> writer_ok (WriteByte w c) /\ content (WriteByte w c) = content w ++ [c].
Proof.
  unfold writer_ok, WriteByte, content. intros H. cbv zeta.
  destruct (Z.leb_spec (buffer_size - len (buffer w)) 0); cbn [flushed buffer Flush].
  - split; [by vm_compute|done].
  - rewrite len_app. change (len [c]) with 1. split; [lia|]. by rewrite app_assoc.
Qed.

(** A text is written in full: the fuel covers the rounds. *)
Lemma write_text_ok fuel direct w s :
  writer_ok w -> len s + (if len (buffer w) <? buffer_size then 0 else 1) < Z.of_nat fuel ->
  writer_ok (write_text fuel direct w s) /\ content (write_text fuel direct w s) = content w ++ s.
Proof.
  unfold writer_ok. revert w s; induction fuel as [|fuel IH]; intros w s Hw Hf.
  - pose proof (len_nonneg s). destruct (_ <? _); lia.
  - cbn [write_text]. cbv zeta. pose proof (len_nonneg (buffer w)).
    destruct (Z.leb_spec (len s) (buffer_size - len (buffer w))) as [L|L].
    + unfold content. cbn [flushed buffer]. rewrite len_app. split; [lia|by rewrite app_assoc].
    + destruct ((len (buffer w) =? 0) && direct) eqn:E.
      * to_prop. unfold content. cbn [flushed buffer].
        assert (E0 : buffer w = []) by (destruct (buffer w); [done|rewrite len_cons in *; pose proof (len_nonneg l); lia]).
        rewrite E0, !app_nil_r. split; [by vm_compute|done].
      * set (n := Z.to_nat _). assert (Hn : Z.of_nat n = buffer_size - len (buffer w)) by lia.
        destruct (IH (Flush (Writer (flushed w) (buffer w ++ take n s))) (drop n s)) as [H1 H2].
        -- by vm_compute.
        -- cbn [Flush buffer]. change (len (@nil Z)) with 0. assert (Hd : len (drop n s) = len s - Z.of_nat n) by (unfold len in *; rewrite length_drop; lia).
           change (0 <? buffer_size) with true. rewrite Hd. destruct (Z.ltb_spec (len (buffer w)) buffer_size); lia.
        -- split; [done|]. rewrite H2, content_Flush. unfold content. cbn [flushed buffer].
           rewrite <- !app_assoc. by rewrite take_drop.
Qed.

Lemma WriteString_ok direct w s :
  writer_ok w -> writer_ok (WriteString direct w s) /\ content (WriteString direct w s) = content w ++ s.
Proof. intros H. apply write_text_ok; [done|]. unfold len. destruct (_ <? _); lia. Qed.

(** ** Records *)

Abbreviation lines z d := (SortMain.SortMain.splitLines d z).

Lemma cut_lines_fuel c f1 f2 d :
  (length d < f1)%nat -> (length d < f2)%nat -> SortMain.SortMain.cut_lines f1 c d = SortMain.SortMain.cut_lines f2 c d.
Proof.
  revert f2 d; induction f1 as [|f1 IH]; intros [|f2] d H1 H2; try lia. cbn [SortMain.SortMain.cut_lines].
  destruct (index_byte d c) as [i|] eqn:E; [|done]. f_equal.
  assert (d <> []) by (by intros ->). apply IH; rewrite length_drop; destruct d; cbn in *; done || lia.
Qed.

(** Where the first delimiter is. *)
Lemma index_byte_cut d c :
  match index_byte d c with
  | Some i => exists a b, d = a ++ c :: b /\ length a = i /\ c ∉ a
  | None => c ∉ d
  end.
Proof.
  induction d as [|x d IH]; cbn; [apply not_elem_of_nil|]. destruct (Z.eqb_spec x c) as [->|Hne].
  - exists [], d. split_and!; [done..|apply not_elem_of_nil].
  - destruct (index_byte d c) as [i|]; cbn.
    + destruct IH as (a & b & -> & <- & Ha). exists (x :: a), b. split_and!; [done..|]. rewrite not_elem_of_cons. split; congruence.
    + rewrite not_elem_of_cons. split; congruence.
Qed.

Lemma suffix_app a x b c :
  has_suffix_byte c (a ++ x :: b) = has_suffix_byte c (x :: b) /\
  (has_suffix_byte c (x :: b) = true -> trim_suffix_byte c (a ++ x :: b) = a ++ trim_suffix_byte c (x :: b)).
Proof.
  unfold has_suffix_byte, trim_suffix_byte. destruct (exists_last (l := x :: b)) as (l & y & ->); [done|].
  rewrite app_assoc, !rev_unit. split; [done|]. intros ->. by rewrite !rev_involutive.
Qed.

Lemma no_suffix c d : c ∉ d -> has_suffix_byte c d = false.
Proof.
  intros H. unfold has_suffix_byte. destruct (rev d) as [|x r] eqn:E; [done|]. apply Z.eqb_neq. intros ->. apply H.
  rewrite list_elem_of_In, in_rev, E. by left.
Qed.

Lemma splitLines_next z d :
  lines z d = match index_byte d (SortMain.SortMain.delimiter z) with
              | Some i => take i d :: lines z (drop (S i) d)
              | None => match d with [] => [] | _ => [d] end
              end.
Proof.
  set (c := SortMain.SortMain.delimiter z). pose proof (index_byte_cut d c) as Hd. destruct (index_byte d c) as [i|] eqn:Ei.
  - destruct Hd as (a & b & -> & <- & Ha). rewrite take_app_length. rewrite drop_app_ge by lia.
    replace (S (length a) - length a)%nat with 1%nat by lia. change (drop 1 (c :: b)) with b.
    destruct b as [|y b].
    + unfold SortMain.SortMain.splitLines. fold c. unfold has_suffix_byte, trim_suffix_byte. rewrite rev_unit, rev_involutive, Z.eqb_refl. cbv zeta.
      destruct a as [|x a]; [done|]. cbn [app]. cbn [SortMain.SortMain.cut_lines]. by rewrite index_byte_none.
    + assert (Hs : lines z (a ++ c :: y :: b) =
        let d' := if has_suffix_byte c (y :: b) then trim_suffix_byte c (y :: b) else y :: b in
        SortMain.SortMain.cut_lines (S (length (a ++ c :: d'))) c (a ++ c :: d')).
      { unfold SortMain.SortMain.splitLines. fold c. destruct (suffix_app (a ++ [c]) y b c) as [E1 E2]. rewrite <- !app_assoc in E1, E2. cbn [app] in E1, E2.
        rewrite E1. destruct (has_suffix_byte c (y :: b)); cbv zeta.
        - rewrite E2, <- (app_assoc a) by done. by destruct a.
        - by destruct a. }
      rewrite Hs. unfold SortMain.SortMain.splitLines. fold c. set (d' := if has_suffix_byte c (y :: b) then _ else _). cbv zeta.
      cbn [SortMain.SortMain.cut_lines]. rewrite SortCommand.SortCommand.index_byte_first by done. rewrite take_app_length, drop_app_ge by lia.
      replace (S (length a) - length a)%nat with 1%nat by lia. change (drop 1 (c :: d')) with d'. f_equal.
      rewrite (cut_lines_fuel c _ (S (length d'))) by (rewrite ?length_app; cbn; lia). by destruct d'.
  - destruct d as [|x d]; [done|]. unfold SortMain.SortMain.splitLines. fold c. rewrite no_suffix by done. cbv zeta.
    cbn [SortMain.SortMain.cut_lines]. by rewrite Ei.
Qed.

(** ** The merge of two lists

    What goes to the columns, in the order it is written. *)

Fixpoint events {A} (cmp : A -> A -> Z) (l1 : list A) : list A -> list (Z * A) :=
  fix go l2 :=
    match l1, l2 with
    | [], [] => []
    | [], y :: l2' => (2, y) :: go l2'
    | x :: l1', [] => (1, x) :: events cmp l1' []
    | x :: l1', y :: l2' =>
        if cmp x y <? 0 then (1, x) :: events cmp l1' l2
        else if 0 <? cmp x y then (2, y) :: go l2'
        else (3, x) :: events cmp l1' l2'
    end.

Lemma events_eq {A} (cmp : A -> A -> Z) l1 l2 :
  events cmp l1 l2 =
  match l1, l2 with
  | [], [] => []
  | [], y :: l2' => (2, y) :: events cmp [] l2'
  | x :: l1', [] => (1, x) :: events cmp l1' []
  | x :: l1', y :: l2' =>
      if cmp x y <? 0 then (1, x) :: events cmp l1' l2
      else if 0 <? cmp x y then (2, y) :: events cmp l1 l2'
      else (3, x) :: events cmp l1' l2'
  end.
Proof. by destruct l1, l2. Qed.

Definition in_column {A} (col : Z) (ev : list (Z * A)) : list A := snd <$> List.filter (fun e => e.1 =? col) ev.

(** The lists after the pairs they start with. *)
Fixpoint unpaired {A} (cmp : A -> A -> Z) (l1 l2 : list A) : list A * list A :=
  match l1, l2 with
  | x :: l1', y :: l2' => if cmp x y =? 0 then unpaired cmp l1' l2' else (l1, l2)
  | _, _ => (l1, l2)
  end.

(** No line is past the one after it. *)
Fixpoint ascending {A} (cmp : A -> A -> Z) (l : list A) : bool :=
  match l with
  | x :: (y :: _) as l' => (cmp x y <=? 0) && ascending cmp l'
  | _ => true
  end.

Section loop.
Context (cmp : list Z -> list Z -> Z) (direct : bool) (suppress : columns) (f : flags).

Abbreviation z := (zeroTerminated f).
Abbreviation compare := (fun a b => @inr (list Z) Z (cmp a b)).

(** The text of an event. *)
Definition rendered (e : Z * list Z) : list Z :=
  if column suppress e.1 then []
  else
    (if (1 <? e.1) && negb (c1 suppress) then delimiter f else []) ++
    (if (2 <? e.1) && negb (c2 suppress) then delimiter f else []) ++ e.2 ++ [line_end f].

Definition text (ev : list (Z * list Z)) : list Z := mjoin (rendered <$> ev).

Lemma emit_ok col x st :
  writer_ok (bw st) ->
  writer_ok (bw (emit direct suppress f col x st)) /\
  content (bw (emit direct suppress f col x st)) = content (bw st) ++ rendered (col, x).
Proof using Type.
  intros H. unfold emit, rendered. cbn [bw fst snd]. destruct (column suppress col); [by rewrite app_nil_r|].
  set (n := Z.to_nat _). destruct (WriteString_ok direct (bw st) (mjoin (replicate n (delimiter f))) H) as [H1 E1].
  destruct (WriteString_ok direct _ x H1) as [H2 E2]. destruct (WriteByte_ok _ (line_end f) H2) as [H3 E3]. split; [done|].
  rewrite E3, E2, E1. rewrite <- !app_assoc. f_equal. rewrite !app_assoc. do 2 f_equal. unfold n.
  destruct ((1 <? col) && _), ((2 <? col) && _).
  all: change (Z.to_nat (1 + 1)) with 2%nat; change (Z.to_nat (1 + 0)) with 1%nat; change (Z.to_nat (0 + 1)) with 1%nat.
  all: cbn; by rewrite ?app_nil_r.
Qed.

(** ** Lines that are left *)

Definition view (s : side) : list (list Z) := if have s then current s :: lines z (data (input s)) else [].

Definition side_ok (s : side) : Prop := end_error (input s) = None /\ (have s = false -> data (input s) = []).

Lemma line_end_delimiter : SortMain.SortMain.delimiter z = line_end f.
Proof using Type. done. Qed.

(** The next line is past the current one's successor. *)
Definition descends (s : side) : bool :=
  match lines z (data (input s)) with
  | y :: _ => have s && (0 <? cmp (current s) y)
  | [] => false
  end.

Lemma next_spec r :
  end_error r = None ->
  match lines z (data r) with
  | [] => next (line_end f) r = ([], false, None, r) /\ data r = []
  | y :: ls => exists d, next (line_end f) r = (y, true, None, Reader d None) /\ lines z d = ls
  end.
Proof using Type.
  intros He. rewrite splitLines_next, line_end_delimiter. unfold next. rewrite He.
  destruct (index_byte (data r) (line_end f)) as [i|]; [by eexists|]. destruct (data r) as [|c d]; [done|]. by exists [].
Qed.

Lemma advance_spec file st :
  end_error (input (get file st)) = None ->
  let s := get file st in
  let bad := descends s && negb (nocheckOrder f) in
  exists s', side_ok s' /\ view s' = lines z (data (input s)) /\
    warned s' = warned s || (bad && negb (checkOrder f) && seenUnpairable st) /\
    advance compare f file st =
      (negb (bad && checkOrder f),
       set_side file st s' (if bad && (checkOrder f || (seenUnpairable st && negb (warned s))) then not_sorted file else [])).
Proof using Type.
  intros He. cbv zeta. unfold advance, descends. set (s := get file st) in *. pose proof (next_spec _ He) as Hn.
  destruct (lines z (data (input s))) as [|y ls].
  - destruct Hn as [-> Hd]. rewrite andb_false_r. eexists (Side _ (input s) [] false (warned s)). by rewrite orb_false_r.
  - destruct Hn as (d & -> & <-). rewrite andb_true_r.
    destruct (have s); cbn [andb];
      [|eexists (Side _ (Reader d None) y true (warned s)); by rewrite orb_false_r].
    destruct ((0 <? cmp (current s) y) && negb (nocheckOrder f)); cbn [andb];
      [|eexists (Side _ (Reader d None) y true (warned s)); by rewrite orb_false_r].
    destruct (checkOrder f), (seenUnpairable st), (warned s) eqn:W; cbn [andb orb negb]; rewrite <- ?W at 1.
    all: first [eexists (Side (name s) (Reader d None) y true (warned s)); by rewrite W
               |eexists (Side (name s) (Reader d None) y true true); done].
Qed.

Definition viewed (st : state) (l1 l2 : list (list Z)) : Prop :=
  side_ok (first st) /\ side_ok (second st) /\ view (first st) = l1 /\ view (second st) = l2 /\ writer_ok (bw st).

Definition head_ok (x : list Z) (l : list (list Z)) : bool := match l with y :: _ => cmp x y <=? 0 | [] => true end.

(** What one step over a line does to the rest of the state. *)
Definition same_output (st st' : state) : Prop :=
  bw st' = bw st /\ seenUnpairable st' = seenUnpairable st /\
  count1 st' = count1 st /\ count2 st' = count2 st /\ count3 st' = count3 st.

Definition bad (x : list Z) (l : list (list Z)) : bool := negb (head_ok x l) && negb (nocheckOrder f).

Definition warning (file : Z) (b : bool) : list Z := if b then not_sorted file else [].

Lemma ascending_cons x l : ascending cmp (x :: l) = head_ok x l && ascending cmp l.
Proof using Type. by destruct l. Qed.

Lemma view_cons s x l : view s = x :: l -> have s = true /\ current s = x /\ lines z (data (input s)) = l.
Proof using Type. unfold view. destruct (have s); [|done]. by intros [= -> ->]. Qed.

Lemma view_nil s : view s = [] -> have s = false.
Proof using Type. unfold view. by destruct (have s). Qed.

Lemma descends_bad s x l : view s = x :: l -> descends s && negb (nocheckOrder f) = bad x l.
Proof using Type.
  intros (Hh & Hc & Hl)%view_cons. unfold descends, bad, head_ok. rewrite Hl, Hh, Hc. destruct l as [|y l]; [done|].
  by rewrite Z.leb_antisym, negb_involutive.
Qed.

Lemma advance_first st x l1 l2 :
  viewed st (x :: l1) l2 ->
  exists st', advance compare f 1 st = (negb (bad x l1 && checkOrder f), st') /\ viewed st' l1 l2 /\ same_output st st' /\
    warned (first st') = warned (first st) || (bad x l1 && negb (checkOrder f) && seenUnpairable st) /\
    warned (second st') = warned (second st) /\
    errs st' = errs st ++ warning 1 (bad x l1 && (checkOrder f || (seenUnpairable st && negb (warned (first st))))).
Proof using Type.
  intros (O1 & O2 & V1 & V2 & W). destruct (advance_spec 1 st (proj1 O1)) as (s' & Os & Vs & Ws & ->).
  change (get 1 st) with (first st) in *. rewrite (descends_bad _ x l1 V1) in *. destruct (view_cons _ _ _ V1) as (_ & _ & Hl).
  eexists. split; [done|]. split_and!; try done. split_and!; try done. by etrans.
Qed.

Lemma advance_second st y l1 l2 :
  viewed st l1 (y :: l2) ->
  exists st', advance compare f 2 st = (negb (bad y l2 && checkOrder f), st') /\ viewed st' l1 l2 /\ same_output st st' /\
    warned (second st') = warned (second st) || (bad y l2 && negb (checkOrder f) && seenUnpairable st) /\
    warned (first st') = warned (first st) /\
    errs st' = errs st ++ warning 2 (bad y l2 && (checkOrder f || (seenUnpairable st && negb (warned (second st))))).
Proof using Type.
  intros (O1 & O2 & V1 & V2 & W). destruct (advance_spec 2 st (proj1 O2)) as (s' & Os & Vs & Ws & ->).
  change (get 2 st) with (second st) in *. rewrite (descends_bad _ y l2 V2) in *. destruct (view_cons _ _ _ V2) as (_ & _ & Hl).
  eexists. split; [done|]. split_and!; try done. split_and!; try done. by etrans.
Qed.

Lemma emit_viewed col x st l1 l2 : viewed st l1 l2 -> viewed (emit direct suppress f col x st) l1 l2.
Proof using Type. intros (O1 & O2 & V1 & V2 & W). split_and!; try done. by apply emit_ok. Qed.

(** ** The loop

    From [st] to [st'] the events [ev] are written, and the files for which
    [b1] and [b2] hold are reported if they were not before. *)
Definition reported (st : state) (b1 b2 : bool) : list Z :=
  (if b1 && negb (warned (first st)) then [1] else []) ++ (if b2 && negb (warned (second st)) then [2] else []).

Definition progress (st st' : state) (ev : list (Z * list Z)) (b1 b2 : bool) : Prop :=
  content (bw st') = content (bw st) ++ text ev /\
  count1 st' = count1 st + len (in_column 1 ev) /\ count2 st' = count2 st + len (in_column 2 ev) /\
  count3 st' = count3 st + len (in_column 3 ev) /\
  warned (first st') = warned (first st) || b1 /\ warned (second st') = warned (second st) || b2 /\
  exists fs, errs st' = errs st ++ mjoin (not_sorted <$> fs) /\ fs ≡ₚ reported st b1 b2.

Lemma in_column_app {A} col (e1 e2 : list (Z * A)) : in_column col (e1 ++ e2) = in_column col e1 ++ in_column col e2.
Proof using Type. unfold in_column. by rewrite List.filter_app, fmap_app. Qed.

Lemma text_app e1 e2 : text (e1 ++ e2) = text e1 ++ text e2.
Proof using Type. unfold text. by rewrite fmap_app, join_app. Qed.

Lemma progress_refl st : progress st st [] false false.
Proof using Type.
  unfold progress, text, in_column. cbn. rewrite !app_nil_r, !orb_false_r. change (len (@nil (list Z))) with 0. split_and!; try lia; try done.
  exists []. by rewrite app_nil_r.
Qed.

Lemma progress_trans st st1 st2 e1 e2 a1 a2 b1 b2 :
  progress st st1 e1 a1 a2 -> progress st1 st2 e2 b1 b2 -> progress st st2 (e1 ++ e2) (a1 || b1) (a2 || b2).
Proof using Type.
  intros (C & N1 & N2 & N3 & W1 & W2 & fs & E & P) (C' & N1' & N2' & N3' & W1' & W2' & fs' & E' & P').
  unfold progress. rewrite !in_column_app, text_app, !len_app. split_and!; try lia.
  - by rewrite C', C, app_assoc.
  - by rewrite W1', W1, orb_assoc.
  - by rewrite W2', W2, orb_assoc.
  - exists (fs ++ fs'). split; [by rewrite E', E, fmap_app, join_app, app_assoc|].
    rewrite P, P'. unfold reported. rewrite W1, W2.
    destruct (warned (first st)), (warned (second st)), a1, a2, b1, b2; cbn; done || apply Permutation_swap.
Qed.

(** An event is written and the file it came from is read on. *)
Lemma emit_progress col x st :
  writer_ok (bw st) -> 1 <= col <= 3 -> progress st (emit direct suppress f col x st) [(col, x)] false false.
Proof using Type.
  intros H Hc. unfold progress. rewrite (proj2 (emit_ok col x st H)). unfold text, in_column. cbn. rewrite app_nil_r, !orb_false_r.
  assert (col = 1 \/ col = 2 \/ col = 3) as [-> | [-> | ->]] by lia; cbn; split_and!; try done; try (unfold len; cbn; lia); by exists []; rewrite app_nil_r.
Qed.

Lemma side_progress st st' b1 b2 :
  same_output st st' -> warned (first st') = warned (first st) || b1 -> warned (second st') = warned (second st) || b2 ->
  errs st' = errs st ++ warning 1 (b1 && negb (warned (first st))) ++ warning 2 (b2 && negb (warned (second st))) ->
  progress st st' [] b1 b2.
Proof using Type.
  unfold progress, text, in_column. intros (-> & _ & -> & -> & ->) W1 W2 E. cbn. rewrite app_nil_r.
  change (len (@nil (list Z))) with 0. split_and!; try done; try lia.
  exists (reported st b1 b2). split; [|done]. rewrite E. unfold reported, warning. f_equal.
  destruct (b1 && _), (b2 && _); cbn; by rewrite ?app_nil_r.
Qed.

(** The lists that are checked. *)
Definition checked (seen : bool) (l1 l2 : list (list Z)) : list (list Z) * list (list Z) :=
  if seen then (l1, l2) else unpaired cmp l1 l2.

Definition disorder (l : list (list Z)) : bool := negb (nocheckOrder f) && negb (ascending cmp l).

Definition strict : bool := checkOrder f && negb (nocheckOrder f).

Lemma disorder_cons x l : disorder (x :: l) = bad x l || disorder l.
Proof using Type. unfold disorder, bad. rewrite ascending_cons. by destruct (nocheckOrder f), (head_ok x l), (ascending cmp l). Qed.

(** A disorder under --check-order ends the command. *)
Definition stopped (st st' : state) (e : Z * list Z) (b1 b2 : bool) : Prop :=
  content (bw st') = content (bw st) ++ rendered e /\
  exists file, (file = 1 /\ b1 = true \/ file = 2 /\ b2 = true) /\ errs st' = errs st ++ not_sorted file.

Lemma set_unpairable_viewed st l1 l2 : viewed st l1 l2 -> viewed (set_unpairable st) l1 l2.
Proof using Type. done. Qed.

Lemma step_first st x l1 l2 :
  viewed st (x :: l1) l2 ->
  exists st', advance compare f 1 (emit direct suppress f 1 x (set_unpairable st)) = (negb (bad x l1 && checkOrder f), st') /\
    viewed st' l1 l2 /\ seenUnpairable st' = true /\
    if bad x l1 && checkOrder f then stopped st st' (1, x) (bad x l1) false else progress st st' [(1, x)] (bad x l1) false.
Proof using Type.
  intros V. pose proof V as (_ & _ & _ & _ & W). set (st0 := emit _ _ _ _ _ _).
  destruct (advance_first st0 x l1 l2) as (st' & -> & V' & S & W1 & W2 & E); [by apply emit_viewed|].
  pose proof S as (Sb & Ss & _). exists st'. split_and!; [done..|]. change (seenUnpairable st0) with true in *.
  destruct (bad x l1 && checkOrder f) eqn:B.
  - split; [rewrite Sb; exact (proj2 (emit_ok 1 x (set_unpairable st) W))|]. exists 1. to_prop. rewrite E, H, H0. split; [by left|done].
  - apply (progress_trans st st0 st' [(1, x)] [] false false (bad x l1) false); [by apply (emit_progress 1 x (set_unpairable st))|].
    apply side_progress; [done|..].
    + rewrite W1. by destruct (bad x l1), (checkOrder f).
    + by rewrite W2, orb_false_r.
    + rewrite E. cbn [warning andb]. rewrite app_nil_r. by destruct (bad x l1), (checkOrder f).
Qed.

Lemma step_second st y l1 l2 :
  viewed st l1 (y :: l2) ->
  exists st', advance compare f 2 (emit direct suppress f 2 y (set_unpairable st)) = (negb (bad y l2 && checkOrder f), st') /\
    viewed st' l1 l2 /\ seenUnpairable st' = true /\
    if bad y l2 && checkOrder f then stopped st st' (2, y) false (bad y l2) else progress st st' [(2, y)] false (bad y l2).
Proof using Type.
  intros V. pose proof V as (_ & _ & _ & _ & W). set (st0 := emit _ _ _ _ _ _).
  destruct (advance_second st0 y l1 l2) as (st' & -> & V' & S & W2 & W1 & E); [by apply emit_viewed|].
  pose proof S as (Sb & Ss & _). exists st'. split_and!; [done..|]. change (seenUnpairable st0) with true in *.
  destruct (bad y l2 && checkOrder f) eqn:B.
  - split; [rewrite Sb; exact (proj2 (emit_ok 2 y (set_unpairable st) W))|]. exists 2. to_prop. rewrite E, H, H0. split; [by right|done].
  - apply (progress_trans st st0 st' [(2, y)] [] false false false (bad y l2)); [by apply (emit_progress 2 y (set_unpairable st))|].
    apply side_progress; [done|..].
    + by rewrite W1, orb_false_r.
    + rewrite W2. by destruct (bad y l2), (checkOrder f).
    + rewrite E. cbn [warning andb app]. by destruct (bad y l2), (checkOrder f).
Qed.

Lemma step_both st x y l1 l2 :
  viewed st (x :: l1) (y :: l2) ->
  exists st', advance_both compare f (emit direct suppress f 3 x st) = (negb ((bad x l1 || bad y l2) && checkOrder f), st') /\
    if (bad x l1 || bad y l2) && checkOrder f then stopped st st' (3, x) (bad x l1) (bad y l2)
    else viewed st' l1 l2 /\ seenUnpairable st' = seenUnpairable st /\
      progress st st' [(3, x)] (bad x l1 && seenUnpairable st) (bad y l2 && seenUnpairable st).
Proof using Type.
  intros V. pose proof V as (_ & _ & _ & _ & W). set (st0 := emit _ _ _ _ _ _). unfold advance_both.
  destruct (advance_first st0 x l1 (y :: l2)) as (s1 & -> & V1 & S1 & W1 & W2 & E1); [by apply emit_viewed|].
  change (seenUnpairable st0) with (seenUnpairable st) in *. change (warned (first st0)) with (warned (first st)) in *.
  change (warned (second st0)) with (warned (second st)) in *. change (errs st0) with (errs st) in *.
  pose proof S1 as (Sb1 & Ss1 & _). destruct (bad x l1 && checkOrder f) eqn:B1; cbn [negb].
  - to_prop. rewrite H, H0. exists s1. split; [done|]. cbn [orb andb]. split; [rewrite Sb1; exact (proj2 (emit_ok 3 x st W))|].
    exists 1. split; [by left|]. rewrite E1, H, H0. done.
  - destruct (advance_second s1 y l1 l2 V1) as (s2 & -> & V2 & S2 & W3 & W4 & E2). exists s2.
    pose proof S2 as (Sb2 & Ss2 & _).
    assert (Eb : (bad x l1 || bad y l2) && checkOrder f = bad y l2 && checkOrder f)
      by (destruct (bad x l1), (bad y l2), (checkOrder f); done).
    rewrite Eb. split; [done|]. destruct (bad y l2 && checkOrder f) eqn:B2.
    + split; [rewrite Sb2, Sb1; exact (proj2 (emit_ok 3 x st W))|]. exists 2. split; [to_prop; by right|]. rewrite E2, E1.
      destruct (bad x l1), (bad y l2), (checkOrder f); try done. cbn. by rewrite app_nil_r.
    + split_and!; [done|by rewrite Ss2, Ss1|].
      apply (progress_trans st st0 s2 [(3, x)] [] false false); [by apply emit_progress|].
      apply side_progress; [destruct S1 as (? & ? & ? & ? & ?), S2 as (? & ? & ? & ? & ?); repeat split; congruence|..].
      * rewrite W4, W1. by destruct (bad x l1), (checkOrder f).
      * rewrite W3, W2, Ss1. by destruct (bad y l2), (checkOrder f).
      * rewrite E2, E1, Ss1, W2, <- app_assoc. change (errs st0) with (errs st). do 2 f_equal.
        -- f_equal. by destruct (bad x l1), (checkOrder f).
        -- f_equal. by destruct (bad y l2), (checkOrder f).
Qed.

Lemma loop_step fuel st l1 l2 :
  viewed st l1 l2 ->
  let go (r : bool * state) := if r.1 then loop compare direct suppress f fuel r.2 else Ret (stop r.2) in
  loop compare direct suppress f (S fuel) st =
  match l1, l2 with
  | [], [] => Ret (finish suppress f st)
  | [], y :: _ => go (advance compare f 2 (emit direct suppress f 2 y (set_unpairable st)))
  | x :: _, [] => go (advance compare f 1 (emit direct suppress f 1 x (set_unpairable st)))
  | x :: _, y :: _ =>
      if cmp x y <? 0 then go (advance compare f 1 (emit direct suppress f 1 x (set_unpairable st)))
      else if 0 <? cmp x y then go (advance compare f 2 (emit direct suppress f 2 y (set_unpairable st)))
      else go (advance_both compare f (emit direct suppress f 3 x st))
  end.
Proof using Type.
  intros (_ & _ & V1 & V2 & _). cbn [loop]. cbv zeta.
  destruct l1 as [|x l1]; [apply view_nil in V1 as ->|apply view_cons in V1 as (-> & -> & _)];
    (destruct l2 as [|y l2]; [apply view_nil in V2 as ->|apply view_cons in V2 as (-> & -> & _)]); done.
Qed.

(** The lists that are checked shrink with the lists. *)
Lemma checked_differ seen x l1 y l2 : cmp x y <> 0 -> checked seen (x :: l1) (y :: l2) = (x :: l1, y :: l2).
Proof using Type. intros H. unfold checked. cbn. rewrite (proj2 (Z.eqb_neq _ _)) by done. by destruct seen. Qed.

Lemma checked_empty seen l : checked seen l [] = (l, []) /\ checked seen [] l = ([], l).
Proof using Type. unfold checked. by destruct seen, l. Qed.

(** The loop ends normally, having written [ev]. *)
Definition ends (o : outcome result) (st : state) (ev : list (Z * list Z)) (b1 b2 : bool) : Prop :=
  exists st', o = Ret (finish suppress f st') /\ viewed st' [] [] /\ progress st st' ev b1 b2.

Definition go (fuel : nat) (r : bool * state) : outcome result :=
  if r.1 then loop compare direct suppress f fuel r.2 else Ret (stop r.2).

Definition accepted (l1 l2 : list (list Z)) : Prop := checkOrder f = true -> disorder l1 || disorder l2 = false.

Lemma accepted_first x l1 l2 : accepted (x :: l1) l2 -> bad x l1 && checkOrder f = false /\ accepted l1 l2.
Proof using Type.
  unfold accepted. rewrite disorder_cons. destruct (checkOrder f), (bad x l1), (disorder l1); naive_solver.
Qed.

Lemma accepted_second y l1 l2 : accepted l1 (y :: l2) -> bad y l2 && checkOrder f = false /\ accepted l1 l2.
Proof using Type.
  unfold accepted. rewrite disorder_cons. destruct (checkOrder f), (bad y l2), (disorder l1); naive_solver.
Qed.

Lemma runs_first fuel st x l1 l2 :
  viewed st (x :: l1) l2 -> accepted (x :: l1) l2 ->
  (forall s, viewed s l1 l2 -> seenUnpairable s = true ->
    ends (loop compare direct suppress f fuel s) s (events cmp l1 l2) (disorder l1) (disorder l2)) ->
  ends (go fuel (advance compare f 1 (emit direct suppress f 1 x (set_unpairable st)))) st
    ((1, x) :: events cmp l1 l2) (disorder (x :: l1)) (disorder l2).
Proof using Type.
  intros V [B _]%accepted_first IH. destruct (step_first st x l1 l2 V) as (s & -> & V' & S & P). rewrite B in *.
  destruct (IH s V' S) as (s' & E & V'' & P'). exists s'. split_and!; [done..|]. rewrite disorder_cons.
  exact (progress_trans _ _ _ _ _ _ _ _ _ P P').
Qed.

Lemma runs_second fuel st y l1 l2 :
  viewed st l1 (y :: l2) -> accepted l1 (y :: l2) ->
  (forall s, viewed s l1 l2 -> seenUnpairable s = true ->
    ends (loop compare direct suppress f fuel s) s (events cmp l1 l2) (disorder l1) (disorder l2)) ->
  ends (go fuel (advance compare f 2 (emit direct suppress f 2 y (set_unpairable st)))) st
    ((2, y) :: events cmp l1 l2) (disorder l1) (disorder (y :: l2)).
Proof using Type.
  intros V [B _]%accepted_second IH. destruct (step_second st y l1 l2 V) as (s & -> & V' & S & P). rewrite B in *.
  destruct (IH s V' S) as (s' & E & V'' & P'). exists s'. split_and!; [done..|]. rewrite disorder_cons.
  exact (progress_trans _ _ _ _ _ _ _ _ _ P P').
Qed.

Lemma runs_both fuel st x y l1 l2 :
  viewed st (x :: l1) (y :: l2) -> accepted (x :: l1) (y :: l2) -> cmp x y = 0 ->
  (forall s, viewed s l1 l2 -> seenUnpairable s = seenUnpairable st ->
    let r := checked (seenUnpairable st) l1 l2 in
    ends (loop compare direct suppress f fuel s) s (events cmp l1 l2) (disorder r.1) (disorder r.2)) ->
  let r := checked (seenUnpairable st) (x :: l1) (y :: l2) in
  ends (go fuel (advance_both compare f (emit direct suppress f 3 x st))) st
    ((3, x) :: events cmp l1 l2) (disorder r.1) (disorder r.2).
Proof using Type.
  intros V A Z IH. destruct (step_both st x y l1 l2 V) as (s & -> & P).
  apply accepted_first in A as [B1 A]. apply accepted_second in A as [B2 _].
  assert (B : (bad x l1 || bad y l2) && checkOrder f = false) by (destruct (bad x l1), (bad y l2); done).
  rewrite B in *. destruct P as (V' & S & P). destruct (IH s V' S) as (s' & E & V'' & P'). exists s'. split_and!; [done..|].
  pose proof (progress_trans _ _ _ _ _ _ _ _ _ P P') as Q. cbn [app] in Q. unfold checked in *. destruct (seenUnpairable st).
  - cbn [fst snd] in *. by rewrite !andb_true_r, <- !disorder_cons in Q.
  - rewrite !andb_false_r in Q. cbn. by rewrite Z.
Qed.

Lemma loop_runs fuel st l1 l2 :
  viewed st l1 l2 -> (length l1 + length l2 < fuel)%nat -> accepted l1 l2 ->
  let r := checked (seenUnpairable st) l1 l2 in
  ends (loop compare direct suppress f fuel st) st (events cmp l1 l2) (disorder r.1) (disorder r.2).
Proof using Type.
  cbv zeta. revert st l1 l2; induction fuel as [|fuel IH]; intros st l1 l2 V Hf A; [lia|].
  assert (IH' : forall s k1 k2, (length k1 + length k2 < length l1 + length l2)%nat -> accepted k1 k2 -> viewed s k1 k2 ->
    let r := checked (seenUnpairable s) k1 k2 in
    ends (loop compare direct suppress f fuel s) s (events cmp k1 k2) (disorder r.1) (disorder r.2)) by (intros; apply IH; done || lia).
  clear IH Hf. rewrite (loop_step fuel st l1 l2 V), events_eq. cbv zeta. fold (go fuel).
  destruct l1 as [|x l1], l2 as [|y l2].
  - rewrite (proj1 (checked_empty _ [])). exists st. split_and!; [done..|]. unfold disorder. cbn. rewrite andb_false_r. apply progress_refl.
  - rewrite (proj2 (checked_empty _ _)). apply runs_second; [done..|]. intros s Vs Ss.
    specialize (IH' s [] l2). rewrite (proj2 (checked_empty _ _)) in IH'. apply IH'; [cbn; lia|by apply accepted_second in A as [_ A]|done].
  - rewrite (proj1 (checked_empty _ _)). apply runs_first; [done..|]. intros s Vs Ss.
    specialize (IH' s l1 []). rewrite (proj1 (checked_empty _ _)) in IH'. apply IH'; [cbn; lia|by apply accepted_first in A as [_ A]|done].
  - destruct (Z.ltb_spec (cmp x y) 0) as [L|L]; [|destruct (Z.ltb_spec 0 (cmp x y)) as [G|G]].
    + rewrite checked_differ by lia. apply runs_first; [done..|]. intros s Vs Ss.
      specialize (IH' s l1 (y :: l2)). rewrite Ss in IH'. apply IH'; [cbn; lia|by apply accepted_first in A as [_ A]|done].
    + rewrite checked_differ by lia. apply runs_second; [done..|]. intros s Vs Ss.
      specialize (IH' s (x :: l1) l2). rewrite Ss in IH'. apply IH'; [cbn; lia|by apply accepted_second in A as [_ A]|done].
    + apply runs_both; [done..|lia|]. intros s Vs Ss. specialize (IH' s l1 l2). rewrite Ss in IH'. apply IH'; [cbn; lia| |done].
      apply accepted_first in A as [_ A]. by apply accepted_second in A as [_ A].
Qed.

(** The loop ends at a disorder: of the events [ev] the first are written,
    and one file is reported. *)
Definition stops (o : outcome result) (st : state) (ev : list (Z * list Z)) (b1 b2 : bool) : Prop :=
  exists st' ev1 ev2 file, o = Ret (stop st') /\ ev = ev1 ++ ev2 /\ content (bw st') = content (bw st) ++ text ev1 /\
    (file = 1 /\ b1 = true \/ file = 2 /\ b2 = true) /\ errs st' = errs st ++ not_sorted file.

(** A step that goes on and one that does not. *)
Lemma stops_step (ok : bool) fuel s st e ev a1 a2 b1 b2 :
  (if ok then progress st s [e] false false /\ stops (loop compare direct suppress f fuel s) s ev b1 b2 else stopped st s e a1 a2) ->
  stops (go fuel (ok, s)) st (e :: ev) (a1 || b1) (a2 || b2).
Proof using Type.
  destruct ok; unfold go; cbn [fst snd].
  - intros [(C & _ & _ & _ & _ & _ & fs & E & P) (s' & ev1 & ev2 & file & -> & -> & C' & Hf & E')].
    cbn in P. apply Permutation_nil_r in P as ->. cbn in E. rewrite app_nil_r in E.
    exists s', (e :: ev1), ev2, file. split_and!; [done..| |destruct a1, a2; naive_solver|by rewrite E', E].
    rewrite C', C. change (e :: ev1) with ([e] ++ ev1). by rewrite text_app, app_assoc.
  - intros (C & file & Hf & E). exists s, [e], ev, file. split_and!; [done..| |naive_solver|done]. rewrite C. unfold text. cbn. by rewrite app_nil_r.
Qed.

Lemma loop_stops fuel st l1 l2 :
  viewed st l1 l2 -> (length l1 + length l2 < fuel)%nat -> checkOrder f = true -> disorder l1 || disorder l2 = true ->
  stops (loop compare direct suppress f fuel st) st (events cmp l1 l2) (disorder l1) (disorder l2).
Proof using Type.
  intros V Hf Hc. revert st l1 l2 V Hf; induction fuel as [|fuel IH]; intros st l1 l2 V Hf D; [lia|].
  assert (First : forall x k, l1 = x :: k ->
    stops (go fuel (advance compare f 1 (emit direct suppress f 1 x (set_unpairable st)))) st ((1, x) :: events cmp k l2) (disorder l1) (disorder l2)).
  { intros x k ->. destruct (step_first st x k l2 V) as (s & -> & V' & _ & P). rewrite Hc, andb_true_r in *. rewrite disorder_cons in *.
    apply (stops_step _ _ _ _ _ _ (bad x k) false). destruct (bad x k); [done|]. split; [done|]. apply IH; [done|cbn in Hf; lia|done]. }
  assert (Second : forall y k, l2 = y :: k ->
    stops (go fuel (advance compare f 2 (emit direct suppress f 2 y (set_unpairable st)))) st ((2, y) :: events cmp l1 k) (disorder l1) (disorder l2)).
  { intros y k ->. destruct (step_second st y l1 k V) as (s & -> & V' & _ & P). rewrite Hc, andb_true_r in *. rewrite disorder_cons in *.
    apply (stops_step _ _ _ _ _ _ false (bad y k)). destruct (bad y k); [done|]. split; [done|]. apply IH; [done|cbn in Hf; lia|done]. }
  rewrite (loop_step fuel st l1 l2 V), events_eq. cbv zeta. fold (go fuel).
  destruct l1 as [|x l1], l2 as [|y l2]; [|by apply Second|by apply First|].
  - unfold disorder in D. cbn in D. by rewrite andb_false_r in D.
  - destruct (cmp x y <? 0); [by apply First|]. destruct (0 <? cmp x y); [by apply Second|].
    destruct (step_both st x y l1 l2 V) as (s & -> & P). rewrite Hc, andb_true_r in *. rewrite !disorder_cons in *. apply stops_step.
    destruct (bad x l1), (bad y l2); try done. cbn [orb] in *. destruct P as (V' & _ & P). split; [done|]. apply IH; [done|cbn in Hf; lia|done].
Qed.

(** ** The command *)

Lemma length_lines d : (length (lines z d) <= length d)%nat.
Proof using Type.
  induction d as [d IH] using (induction_ltof1 _ (@length Z)). unfold ltof in IH. rewrite splitLines_next.
  destruct (index_byte d _) as [i|] eqn:E; [|destruct d; cbn; lia]. assert (d <> []) by (by intros ->).
  assert (length (drop (S i) d) < length d)%nat by (rewrite length_drop; destruct d; cbn; done || lia).
  specialize (IH (drop (S i) d) ltac:(done)). cbn. lia.
Qed.

Lemma start_viewed n1 n2 d1 d2 :
  exists st, advance_both compare f (start n1 n2 (Reader d1 None) (Reader d2 None)) = (true, st) /\
    viewed st (lines z d1) (lines z d2) /\ seenUnpairable st = false /\ warned (first st) = false /\ warned (second st) = false /\
    count1 st = 0 /\ count2 st = 0 /\ count3 st = 0 /\ content (bw st) = [] /\ errs st = [].
Proof using Type.
  unfold advance_both. set (s0 := start _ _ _ _).
  assert (B0 : forall file, descends (get file s0) = false).
  { intros file. unfold descends, get. destruct (file =? 1); cbn; by destruct (lines z _). }
  destruct (advance_spec 1 s0 eq_refl) as (s1 & O1 & V1 & W1 & ->). rewrite B0 in *. cbn [andb negb] in *.
  set (st1 := set_side 1 s0 s1 []). destruct (advance_spec 2 st1 eq_refl) as (s2 & O2 & V2 & W2 & ->).
  change (get 2 st1) with (get 2 s0) in *. rewrite B0 in *. cbn [andb negb] in *.
  eexists. split; [done|]. split_and!; done.
Qed.

Lemma finish_output st :
  writer_ok (bw st) ->
  finish suppress f st =
  let out := content (bw st) ++ (if total f then total_line suppress f st ++ [line_end f] else []) in
  if warned (first st) || warned (second st)
  then Result 1 out (errs st ++ str! "comm: input is not in sorted order" ++ [10])
  else Result 0 out (errs st).
Proof using Type.
  intros W. unfold finish. cbv zeta. set (w := if total f then _ else _).
  assert (E : flushed (Flush w) = content (bw st) ++ (if total f then total_line suppress f st ++ [line_end f] else [])).
  { change (flushed (Flush w)) with (content w). unfold w. destruct (total f); [|by rewrite app_nil_r].
    destruct (WriteString_ok true (bw st) (total_line suppress f st) W) as [W1 E1].
    destruct (WriteByte_ok _ (line_end f) W1) as [_ E2]. by rewrite E2, E1, app_assoc. }
  by rewrite E.
Qed.

(** The line of --total. *)
Definition summary (ev : list (Z * list Z)) : list Z :=
  let shown k := if column suppress k then 0 else len (in_column k ev) in
  let d := delimiter f in
  itoa (shown 1) ++ d ++ itoa (shown 2) ++ d ++ itoa (shown 3) ++ d ++ itoa (shown 1 + shown 2 + shown 3) ++ str! " total".

(** What is written when the command runs to its end. *)
Definition output (ev : list (Z * list Z)) : list Z :=
  text ev ++ (if total f then summary ev ++ [line_end f] else []).

(** The files that are reported. *)
Definition unsorted (l1 l2 : list (list Z)) : list Z :=
  (if ascending cmp l1 then [] else [1]) ++ (if ascending cmp l2 then [] else [2]).

Lemma unpaired_ascending l1 l2 :
  (ascending cmp l1 = true -> ascending cmp (unpaired cmp l1 l2).1 = true) /\
  (ascending cmp l2 = true -> ascending cmp (unpaired cmp l1 l2).2 = true).
Proof using Type.
  revert l2; induction l1 as [|x l1 IH]; intros [|y l2]; try done. cbn [unpaired]. destruct (cmp x y =? 0); [|done].
  rewrite !ascending_cons. destruct (IH l2) as [H1 H2]. split; intros ?; to_prop; auto.
Qed.

(** From the start of the loop to the result. *)
Lemma finish_progress st st' ev b1 b2 :
  viewed st' [] [] -> progress st st' ev b1 b2 -> content (bw st) = [] -> errs st = [] ->
  count1 st = 0 -> count2 st = 0 -> count3 st = 0 -> warned (first st) = false -> warned (second st) = false ->
  if b1 || b2 then
    exists files, files ≡ₚ (if b1 then [1] else []) ++ (if b2 then [2] else []) /\
      finish suppress f st' =
        Result 1 (output ev) (mjoin (not_sorted <$> files) ++ str! "comm: input is not in sorted order" ++ [10])
  else finish suppress f st' = Result 0 (output ev) [].
Proof using Type.
  intros (_ & _ & _ & _ & W) (C & N1 & N2 & N3 & F1 & F2 & fs & E & P) C0 E0 Z1 Z2 Z3 W1 W2.
  rewrite (finish_output st' W). cbv zeta.
  assert (O : content (bw st') ++ (if total f then total_line suppress f st' ++ [line_end f] else []) = output ev).
  { unfold output, total_line, summary. by rewrite C, C0, N1, N2, N3, Z1, Z2, Z3. }
  rewrite O, F1, F2, W1, W2, E, E0. unfold reported in P. rewrite W1, W2 in P. cbn [orb negb] in *. rewrite !andb_true_r in P.
  destruct (b1 || b2) eqn:B; [by exists fs|]. apply orb_false_iff in B as [-> ->]. apply Permutation_nil_r in P as ->. done.
Qed.
End loop.

(** ** Lines in order *)

Section partition.
Context {A : Type} (D : A -> Prop) (cmp : A -> A -> Z) `{!CmpOrder D cmp}.

Lemma ties_cons x y l : ties cmp x (y :: l) = if cmp x y =? 0 then y :: ties cmp x l else ties cmp x l.
Proof using Type. done. Qed.

Lemma ties_column_cons z col k x (ev : list (Z * A)) :
  ties cmp z (in_column col ((k, x) :: ev)) =
  if (k =? col) && (cmp z x =? 0) then x :: ties cmp z (in_column col ev) else ties cmp z (in_column col ev).
Proof using Type. unfold in_column. cbn. by destruct (k =? col). Qed.

Lemma in_order_ascending l : in_order cmp l -> ascending cmp l = true.
Proof using Type.
  clear. induction l as [|x [|y l] IH]; try done. intros [F S]%StronglySorted_cons. apply Forall_cons in F as [H _].
  change (ascending cmp (x :: y :: l)) with ((cmp x y <=? 0) && ascending cmp (y :: l)). rewrite IH by done. by apply andb_true_iff; split; [apply Z.leb_le|].
Qed.

(** A line before all of [l] ties with none of it. *)
Lemma ties_before z x y l :
  D z -> D x -> Forall D (y :: l) -> in_order cmp (y :: l) -> cmp x y < 0 -> cmp z x = 0 -> ties cmp z (y :: l) = [].
Proof using All.
  intros Hz Hx Hl S L E. apply (SortParallel.SortParallel.ties_past D cmp x); try done.
  apply StronglySorted_cons in S as [F _]. apply Forall_cons in Hl as [Hy Hl].
  assert (P : 0 < cmp y x) by (pose proof (cmp_flip x y Hx Hy); lia). constructor; [done|].
  rewrite Forall_forall in F, Hl |- *. intros w Hw. specialize (F w Hw). cbv beta in F.
  destruct (Z.leb_spec (cmp w x) 0) as [G|]; [|done]. pose proof (cmp_trans y w x Hy (Hl w Hw) Hx F G). lia.
Qed.

(** Of each class the lines of the first file that are met by as many of the
    second are common, and the others are unique to their file. *)
Lemma events_ties z l1 l2 :
  D z -> Forall D l1 -> Forall D l2 -> in_order cmp l1 -> in_order cmp l2 ->
  let ev := events cmp l1 l2 in
  ties cmp z (in_column 1 ev) = drop (length (ties cmp z l2)) (ties cmp z l1) /\
  ties cmp z (in_column 2 ev) = drop (length (ties cmp z l1)) (ties cmp z l2) /\
  ties cmp z (in_column 3 ev) = take (length (ties cmp z l2)) (ties cmp z l1).
Proof using All.
  intros Hz. cbv zeta. revert l2; induction l1 as [|x l1 IH1]; intros l2 D1 D2 S1 S2; induction l2 as [|y l2 IH2]; [done|..];
    rewrite events_eq.
  - apply Forall_cons in D2 as [_ D2]. apply StronglySorted_cons in S2 as [_ S2].
    destruct IH2 as (I1 & I2 & I3); [done..|]. rewrite !ties_column_cons, ties_cons, I1, I2, I3.
    cbn. rewrite !drop_nil, !take_nil. by destruct (cmp z y =? 0).
  - apply Forall_cons in D1 as [_ D1]. apply StronglySorted_cons in S1 as [_ S1].
    destruct (IH1 []) as (I1 & I2 & I3); [done..|]. rewrite !ties_column_cons, ties_cons, I1, I2, I3.
    cbn. rewrite !drop_nil. by destruct (cmp z x =? 0).
  - pose proof D1 as [Dx D1']%Forall_cons. pose proof D2 as [Dy D2']%Forall_cons.
    pose proof S1 as [_ S1']%StronglySorted_cons. pose proof S2 as [_ S2']%StronglySorted_cons. pose proof (cmp_flip x y Dx Dy) as Fl.
    destruct (Z.ltb_spec (cmp x y) 0) as [L|L]; [|destruct (Z.ltb_spec 0 (cmp x y)) as [G|G]].
    + destruct (IH1 (y :: l2)) as (I1 & I2 & I3); [done..|]. rewrite !ties_column_cons, I1, I2, I3, (ties_cons z x). cbn [Z.eqb Pos.eqb andb].
      destruct (Z.eqb_spec (cmp z x) 0) as [E|E]; [|done]. rewrite (ties_before z x y l2) by done. cbn. by rewrite !drop_nil.
    + destruct IH2 as (I1 & I2 & I3); [done..|]. rewrite !ties_column_cons, I1, I2, I3, (ties_cons z y). cbn [Z.eqb Pos.eqb andb].
      destruct (Z.eqb_spec (cmp z y) 0) as [E|E]; [|done]. rewrite (ties_before z y x l1) by (done || lia). cbn. by rewrite !drop_nil, !take_nil.
    + destruct (IH1 l2) as (I1 & I2 & I3); [done..|]. rewrite !ties_column_cons, I1, I2, I3, !ties_cons. cbn [Z.eqb Pos.eqb andb].
      assert (Exy : cmp x y = 0) by lia. pose proof (cmp_zero_sym D cmp x y Dx Dy Exy) as Eyx.
      pose proof (cmp_zero_trans D cmp z x y Hz Dx Dy). pose proof (cmp_zero_trans D cmp z y x Hz Dy Dx).
      destruct (Z.eqb_spec (cmp z x) 0), (Z.eqb_spec (cmp z y) 0); try tauto.
Qed.

Lemma events_lines l1 l2 e : e ∈ events cmp l1 l2 -> e.2 ∈ l1 ++ l2.
Proof using Type.
  clear. rewrite elem_of_app. revert l2; induction l1 as [|x l1 IH1]; intros l2; induction l2 as [|y l2 IH2]; rewrite events_eq; [by intros ?%elem_of_nil|..].
  - intros [->|H]%elem_of_cons; [right; left|]. destruct (IH2 H) as [?|?]; [by left|right; by right].
  - intros [->|H]%elem_of_cons; [left; left|]. destruct (IH1 [] H) as [?|?]; [left; by right|by right].
  - destruct (cmp x y <? 0); [|destruct (0 <? cmp x y)]; intros [->|H]%elem_of_cons; try (left; left); try (right; left).
    + destruct (IH1 _ H) as [?|?]; [left; by right|by right].
    + destruct (IH2 H) as [?|?]; [by left|right; by right].
    + destruct (IH1 _ H) as [?|?]; [left; by right|right; by right].
Qed.

(** What is written is in order, across the columns. *)
Lemma events_order l1 l2 :
  Forall D l1 -> Forall D l2 -> in_order cmp l1 -> in_order cmp l2 -> in_order cmp (snd <$> events cmp l1 l2).
Proof using All.
  assert (Low : forall x k1 k2, Forall (fun w => cmp x w <= 0) k1 -> Forall (fun w => cmp x w <= 0) k2 ->
    Forall (fun w => cmp x w <= 0) (snd <$> events cmp k1 k2)).
  { intros x k1 k2 H1 H2. apply Forall_fmap, Forall_forall. intros e He%events_lines. rewrite Forall_forall in H1, H2.
    rewrite elem_of_app in He. destruct He; cbn; auto. }
  assert (Up : forall x y k, D x -> D y -> Forall D k -> cmp x y <= 0 -> Forall (fun w => cmp y w <= 0) k -> Forall (fun w => cmp x w <= 0) k).
  { intros x y k Hx Hy Hk L F. rewrite Forall_forall in F, Hk |- *. intros w Hw. apply (cmp_trans x y w); auto. }
  revert l2; induction l1 as [|x l1 IH1]; intros l2 D1 D2 S1 S2; induction l2 as [|y l2 IH2]; rewrite events_eq; [constructor|..].
  - apply Forall_cons in D2 as [_ D2]. apply StronglySorted_cons in S2 as [F2 S2]. rewrite fmap_cons. apply StronglySorted_cons. split; [by apply Low|by apply IH2].
  - apply Forall_cons in D1 as [_ D1]. apply StronglySorted_cons in S1 as [F1 S1]. rewrite fmap_cons. apply StronglySorted_cons. split; [by apply Low|by apply IH1].
  - pose proof D1 as [Dx D1']%Forall_cons. pose proof D2 as [Dy D2']%Forall_cons.
    pose proof S1 as [F1 S1']%StronglySorted_cons. pose proof S2 as [F2 S2']%StronglySorted_cons. pose proof (cmp_flip x y Dx Dy) as Fl.
    destruct (Z.ltb_spec (cmp x y) 0) as [L|L]; [|destruct (Z.ltb_spec 0 (cmp x y)) as [G|G]]; rewrite fmap_cons; apply StronglySorted_cons.
    + split; [|by apply IH1]. apply Low; [done|]. constructor; [cbn; lia|]. apply (Up x y); done || lia.
    + split; [|by apply IH2]. apply Low; [|done]. constructor; [cbn; lia|]. apply (Up y x); done || lia.
    + split; [|by apply IH1]. apply Low; [done|]. apply (Up x y); done || lia.
Qed.
End partition.

(** ** Running and stopping *)

Section command.
Context (cmp : list Z -> list Z -> Z) (direct : bool) (suppress : columns) (f : flags) (name1 name2 d1 d2 : list Z).

Abbreviation l1 := (lines (zeroTerminated f) d1).
Abbreviation l2 := (lines (zeroTerminated f) d2).
Abbreviation command := (compare_files (fun a b => inr (cmp a b)) direct suppress f name1 name2 (Reader d1 None) (Reader d2 None)).

Lemma enough_fuel : (length l1 + length l2 < loop_fuel (Reader d1 None) (Reader d2 None))%nat.
Proof using Type. unfold loop_fuel. cbn [data]. pose proof (length_lines f d1). pose proof (length_lines f d2). lia. Qed.

(** The command runs to its end. *)
Lemma compare_runs :
  accepted cmp f l1 l2 ->
  let ev := events cmp l1 l2 in
  let u := unpaired cmp l1 l2 in
  let b1 := disorder cmp f u.1 in
  let b2 := disorder cmp f u.2 in
  exists r, command = Ret r /\
    if b1 || b2 then
      status r = 1 /\ stdout r = output suppress f ev /\
      exists files, files ≡ₚ (if b1 then [1] else []) ++ (if b2 then [2] else []) /\
        stderr r = mjoin (not_sorted <$> files) ++ str! "comm: input is not in sorted order" ++ [10]
    else r = Result 0 (output suppress f ev) [].
Proof using Type.
  intros A. cbv zeta. unfold compare_files.
  destruct (start_viewed cmp f name1 name2 d1 d2) as (st & -> & V & S & W1 & W2 & N1 & N2 & N3 & C & E).
  destruct (loop_runs cmp direct suppress f _ st l1 l2 V enough_fuel A) as (st' & -> & V' & P). rewrite S in P.
  pose proof (finish_progress suppress f st st' _ _ _ V' P C E N1 N2 N3 W1 W2) as F. unfold checked in F.
  eexists. split; [done|]. destruct (_ || _); [|done]. destruct F as (files & Hp & ->). by eauto.
Qed.

(** The command stops at a disorder. *)
Lemma compare_stops :
  checkOrder f = true -> disorder cmp f l1 || disorder cmp f l2 = true ->
  exists r, command = Ret r /\ status r = 1 /\ stdout r `prefix_of` text suppress f (events cmp l1 l2) /\
    exists file, file ∈ unsorted cmp l1 l2 /\ stderr r = not_sorted file.
Proof using Type.
  intros Hc D. unfold compare_files.
  destruct (start_viewed cmp f name1 name2 d1 d2) as (st & -> & V & S & W1 & W2 & N1 & N2 & N3 & C & E).
  destruct (loop_stops cmp direct suppress f _ st l1 l2 V enough_fuel Hc D) as (st' & ev1 & ev2 & file & -> & Hev & C' & Hfile & E').
  eexists. split; [done|]. split; [done|]. split.
  - exists (buffer (bw st') ++ text suppress f ev2). cbn [stop stdout]. rewrite app_assoc. change (flushed ?w ++ buffer ?w) with (content w).
    by rewrite C', C, Hev, text_app.
  - exists file. rewrite E in E'. split; [|done]. unfold unsorted, disorder in *. rewrite elem_of_app.
    destruct Hfile as [[-> B]|[-> B]]; to_prop; [left|right]; rewrite H0; by left.
Qed.

Lemma compare_sorted :
  ascending cmp l1 = true -> ascending cmp l2 = true -> command = Ret (Result 0 (output suppress f (events cmp l1 l2)) []).
Proof using Type.
  intros H1 H2. destruct compare_runs as (r & -> & Hr).
  - intros _. unfold disorder. by rewrite H1, H2, andb_false_r.
  - destruct (unpaired_ascending cmp l1 l2) as [A1 A2]. unfold disorder in Hr. rewrite A1, A2, andb_false_r in Hr by done. by rewrite Hr.
Qed.
End command.

(** [C27] The order of the files and the status: with --nocheck-order, with
    --check-order for files whose lines ascend, and otherwise when the lines
    after the pairs that the files start with ascend, comm writes the merge of
    the lines and exits with 0. In the other cases it exits with 1: with
    --check-order it names one file that does not ascend, having written no
    more than the start of the merge; without, it writes all of the merge and
    names each file whose lines after the first pairs do not ascend. *)
Theorem comm_checks_order cmp direct suppress f name1 name2 d1 d2 :
  let l1 := lines (zeroTerminated f) d1 in
  let l2 := lines (zeroTerminated f) d2 in
  let ev := events cmp l1 l2 in
  let '(r1, r2) := if checkOrder f then (l1, l2) else unpaired cmp l1 l2 in
  exists r,
    compare_files (fun a b => inr (cmp a b)) direct suppress f name1 name2 (Reader d1 None) (Reader d2 None) = Ret r /\
    if nocheckOrder f || (ascending cmp r1 && ascending cmp r2) then r = Result 0 (output suppress f ev) []
    else
      status r = 1 /\
      if checkOrder f then
        stdout r `prefix_of` text suppress f ev /\ exists file, file ∈ unsorted cmp r1 r2 /\ stderr r = not_sorted file
      else
        stdout r = output suppress f ev /\
        exists files, files ≡ₚ unsorted cmp r1 r2 /\
          stderr r = mjoin (not_sorted <$> files) ++ str! "comm: input is not in sorted order" ++ [10].
Proof.
  cbv zeta. set (l1 := lines _ d1). set (l2 := lines _ d2). destruct (unpaired_ascending cmp l1 l2) as [A1 A2].
  destruct (checkOrder f && (disorder cmp f l1 || disorder cmp f l2)) eqn:D.
  - apply andb_true_iff in D as [Hc D]. rewrite Hc.
    destruct (compare_stops cmp direct suppress f name1 name2 d1 d2 Hc D) as (r & E & Hr). exists r. split; [done|].
    unfold disorder in D. fold l1 l2 in Hr.
    by replace (nocheckOrder f || _) with false by (destruct (nocheckOrder f), (ascending cmp l1), (ascending cmp l2); done).
  - pose proof (compare_runs cmp direct suppress f name1 name2 d1 d2) as R. cbv zeta in R. fold l1 l2 in R.
    destruct R as (r & E & Hr); [by intros Hc; rewrite Hc in D|]. unfold disorder, unsorted in *.
    destruct (unpaired cmp l1 l2) as [u1 u2]. cbn [fst snd] in *.
    destruct (checkOrder f); cbn [andb] in D; exists r; (split; [done|]); destruct (nocheckOrder f); cbn [negb andb orb] in *; try done.
    + assert (ascending cmp l1 = true /\ ascending cmp l2 = true) as [H1 H2] by (destruct (ascending cmp l1), (ascending cmp l2); done).
      rewrite H1, H2 in *. by rewrite A1, A2 in Hr by done.
    + by destruct (ascending cmp u1), (ascending cmp u2).
Qed.

(** [C14] The columns: for two files in order comm writes, in order, an event
    for every class of lines that compare equal: the first ones of the first
    file go to the third column, as many as the second file has of the class;
    the others of the first file go to the first column, and the others of
    the second to the second. *)
Theorem comm_partitions (D : list Z -> Prop) cmp `{!CmpOrder D cmp} direct suppress f name1 name2 d1 d2 :
  let l1 := lines (zeroTerminated f) d1 in
  let l2 := lines (zeroTerminated f) d2 in
  Forall D l1 -> Forall D l2 -> in_order cmp l1 -> in_order cmp l2 ->
  exists ev,
    compare_files (fun a b => inr (cmp a b)) direct suppress f name1 name2 (Reader d1 None) (Reader d2 None) =
      Ret (Result 0 (output suppress f ev) []) /\
    in_order cmp (snd <$> ev) /\
    forall x, D x ->
      ties cmp x (in_column 1 ev) = drop (length (ties cmp x l2)) (ties cmp x l1) /\
      ties cmp x (in_column 2 ev) = drop (length (ties cmp x l1)) (ties cmp x l2) /\
      ties cmp x (in_column 3 ev) = take (length (ties cmp x l2)) (ties cmp x l1).
Proof.
  cbv zeta. intros D1 D2 S1 S2. exists (events cmp (lines (zeroTerminated f) d1) (lines (zeroTerminated f) d2)). split_and!.
  - by apply compare_sorted; apply in_order_ascending.
  - by apply (events_order D cmp).
  - intros x Hx. by apply (events_ties D cmp).
Qed.
End CommCorrect.
