(* ===== verification/Uniq.v ===== *)
(** * uniq: adjacent lines that match

    Model of src/cmds/uniq/uniq.go: the spelling of the arguments, the checks
    of the options, the key of a line with the characters and blanks of
    LC_CTYPE, and the loop over the lines with what is written for each
    group. The parser of the flags, [strings.ToUpper], [strconv.Quote] and the
    provider of LC_CTYPE are parameters; a file is its bytes or an error.
    Writes to the output do not fail once it is created. *)

From Stdlib Require Import ZArith Lia String.
From stdpp Require Import base tactics list numbers strings.
From S2P Require Import Prelude BreMatch.

Open Scope Z_scope.
Open Scope go_scope.

Module Uniq.

(** ** Arguments *)

Definition optionNeedsValue (arg : list Z) : bool :=
  existsb (str_eqb arg)
    [str! "-f"; str! "--skip-fields"; str! "-s"; str! "--skip-chars"; str! "-w"; str! "--check-chars"].

Definition legacySkipNumber (arg : list Z) : bool :=
  match arg with
  | c :: (_ :: _) as digits => ((c =? ch! "-") || (c =? ch! "+")) && forallb is_digit digits
  | _ => false
  end.

Definition isDelimiterMethod (s : list Z) : bool :=
  existsb (str_eqb s) [str! "none"; str! "prepend"; str! "separate"].

(** -D with its method attached. *)
Definition attached_method (arg : list Z) : option (list Z) :=
  match arg with
  | c0 :: c1 :: c2 :: m => if (c0 =? ch! "-") && (c1 =? ch! "D") && negb (c2 =? ch! "=") then Some (c2 :: m) else None
  | _ => None
  end.

Fixpoint normalizeArgs (posix rest needsValue : bool) (args : list (list Z)) : list (list Z) :=
  match args with
  | [] => []
  | arg :: args' =>
      if str_eqb arg (str! "--") then arg :: normalizeArgs posix true false args'
      else if rest then arg :: normalizeArgs posix rest needsValue args'
      else if needsValue then arg :: normalizeArgs posix rest false args'
      else if posix && (str_eqb arg (str! "-") || (negb (has_prefix arg (str! "-")) && negb (has_prefix arg (str! "+"))))
      then arg :: normalizeArgs posix true needsValue args'
      else
        match attached_method arg with
        | Some m => (str! "-D=" ++ m) :: normalizeArgs posix rest needsValue args'
        | None =>
            let other :=
              if legacySkipNumber arg then
                (if has_prefix arg (str! "-") then str! "-f" else str! "-s") :: drop 1 arg :: normalizeArgs posix rest needsValue args'
              else arg :: normalizeArgs posix rest (optionNeedsValue arg) args' in
            match args' with
            | m :: args'' =>
                if str_eqb arg (str! "-D") && isDelimiterMethod m
                then (str! "-D=" ++ m) :: normalizeArgs posix rest needsValue args''
                else other
            | [] => other
            end
        end
  end.

Inductive delimiterMode := delimNone | delimPrepend | delimSeparate | delimAppend | delimBoth.

#[export] Instance delimiterMode_eq_dec : EqDecision delimiterMode.
Proof. solve_decision. Defined.

Definition mode_is (a b : delimiterMode) : bool := bool_decide (a = b).

Definition parseDelimMode (s : list Z) (group : bool) : delimiterMode * bool :=
  if str_eqb s [] || str_eqb s (str! "none") then (delimNone, negb group)
  else if str_eqb s (str! "prepend") then (delimPrepend, true)
  else if str_eqb s (str! "separate") then (delimSeparate, true)
  else if str_eqb s (str! "append") then (delimAppend, group)
  else if str_eqb s (str! "both") then (delimBoth, group)
  else (delimNone, false).

(** ** The environment and LC_CTYPE *)

Fixpoint envPresent (env : list (list Z)) (key : list Z) : bool :=
  match env with
  | [] => false
  | entry :: env' => str_eqb entry key || has_prefix entry (key ++ [ch! "="]) || envPresent env' key
  end.

(** [locale.getEnv]: the last entry counts. *)
Fixpoint getEnv (env : list (list Z)) (key : list Z) : option (list Z) :=
  match env with
  | [] => None
  | entry :: env' =>
      match getEnv env' key with
      | Some v => Some v
      | None => if has_prefix entry (key ++ [ch! "="]) then Some (drop (S (length key)) entry) else None
      end
  end.

(** [locale.Resolve] *)
Fixpoint resolve_keys (env : list (list Z)) (keys : list (list Z)) : list Z :=
  match keys with
  | [] => str! "POSIX"
  | key :: keys' =>
      match getEnv env key with
      | Some (c :: v) => c :: v
      | _ => resolve_keys env keys'
      end
  end.

Definition Resolve (env : list (list Z)) (cat : list Z) : list Z := resolve_keys env [str! "LC_ALL"; cat; str! "LANG"].

Record keyModel := KeyModel { utf8 : bool; blank : Z -> bool }.

Definition cKeyModel : keyModel := KeyModel false is_blank.

(** The provider of a single-byte locale: [IsBlank] of a byte, and [Close]. *)
Record provider := Provider { IsBlank : Z -> list Z + bool; Close : option (list Z) }.

Fixpoint last_index (c : Z) (s : list Z) : option nat :=
  match s with
  | [] => None
  | x :: s' =>
      match last_index c s' with
      | Some i => Some (S i)
      | None => if x =? c then Some O else None
      end
  end.

Section model.
Context (ToUpper : list Z -> list Z) (Quote : list Z -> list Z) (openCType : list Z -> list Z + provider).

Definition isUTF8Locale (name : list Z) : bool :=
  let name := match index_byte name (ch! "@") with Some i => take i name | None => name end in
  let name := match last_index (ch! ".") name with Some dot => drop (S dot) name | None => name end in
  let name := List.filter (fun c => negb (c =? ch! "_")) (List.filter (fun c => negb (c =? ch! "-")) name) in
  str_eqb (ToUpper name) (str! "UTF8").

(** The first error of the loop over the bytes. *)
Fixpoint classify_error (p : provider) (bytes : list Z) : option (list Z) :=
  match bytes with
  | [] => None
  | b :: bytes' =>
      match IsBlank p b with
      | inl e => Some e
      | inr _ => classify_error p bytes'
      end
  end.

Definition all_bytes : list Z := Z.of_nat <$> seq 0 256.

Definition loadKeyModel (env : list (list Z)) (posix : bool) : list Z + keyModel :=
  if negb posix then inr cKeyModel
  else
    let name := Resolve env (str! "LC_CTYPE") in
    let failed e := inl (str! "LC_CTYPE " ++ Quote name ++ str! ": " ++ e) in
    if str_eqb name (str! "C") || str_eqb name (str! "POSIX") then inr cKeyModel
    else if isUTF8Locale name then inr (KeyModel true (blank cKeyModel))
    else
      match openCType name with
      | inl e => failed e
      | inr p =>
          match classify_error p all_bytes with
          | Some e => failed e
          | None =>
              match Close p with
              | Some e => failed e
              | None => inr (KeyModel false (fun b => match IsBlank p b with inr ok => ok | inl _ => false end))
              end
          end
      end.

(** ** Keys *)

(** The rune that [utf8.DecodeRuneInString] reads, of the size it has. *)
Definition rune (s : list Z) : Z :=
  let low n c := Z.land c (2 ^ n - 1) in
  match Z.to_nat (Bre.rune_size s), s with
  | 2%nat, c0 :: c1 :: _ => low 5 c0 * 64 + low 6 c1
  | 3%nat, c0 :: c1 :: c2 :: _ => low 4 c0 * 4096 + low 6 c1 * 64 + low 6 c2
  | 4%nat, c0 :: c1 :: c2 :: c3 :: _ => low 3 c0 * 262144 + low 6 c1 * 4096 + low 6 c2 * 64 + low 6 c3
  | _, c :: _ => if c <? 128 then c else 65533
  | _, [] => 65533
  end.

(** [unicode.Zs]: the spaces of Unicode. *)
Definition space_separator (r : Z) : bool :=
  (r =? 32) || (r =? 160) || (r =? 5760) || ((8192 <=? r) && (r <=? 8202)) || (r =? 8239) || (r =? 8287) || (r =? 12288).

(** [nextChar] at the head of [s], which is not empty. *)
Definition nextChar (m : keyModel) (s : list Z) : Z * bool :=
  if negb (utf8 m) then (1, blank m (nth 0 s 0))
  else
    let r := rune s in
    let size := Bre.rune_size s in
    if (r =? 65533) && (size <=? 1) then (1, false)
    else (size, (r =? 9) || space_separator r).

(** The loops that pass over characters: those that are blank, or those that
    are not. *)
Fixpoint skip_while (fuel : nat) (m : keyModel) (want : bool) (s : list Z) : list Z :=
  match fuel, s with
  | S fuel, _ :: _ =>
      let '(size, b) := nextChar m s in
      if negb (eqb b want) then s else skip_while fuel m want (drop (Z.to_nat size) s)
  | _, _ => s
  end.

Definition skip_field (m : keyModel) (s : list Z) : list Z :=
  let s := skip_while (length s) m true s in
  skip_while (length s) m false s.

Fixpoint skip_fields (n : nat) (m : keyModel) (s : list Z) : list Z :=
  match n, s with
  | S n, _ :: _ => skip_fields n m (skip_field m s)
  | _, _ => s
  end.

Fixpoint skip_chars (n : nat) (m : keyModel) (s : list Z) : list Z :=
  match n, s with
  | S n, _ :: _ => skip_chars n m (drop (Z.to_nat (nextChar m s).1) s)
  | _, _ => s
  end.

Definition skipKey (line : list Z) (fields chars : Z) (m : keyModel) : list Z :=
  skip_chars (Z.to_nat chars) m (skip_fields (Z.to_nat fields) m line).

Definition upperByte (c : Z) : Z := if (ch! "a" <=? c) && (c <=? ch! "z") then c - (ch! "a" - ch! "A") else c.

Fixpoint asciiEqualFold (a b : list Z) : bool :=
  match a, b with
  | [], [] => true
  | x :: a', y :: b' => (upperByte x =? upperByte y) && asciiEqualFold a' b'
  | _, _ => false
  end.

(** ** Flags *)

Record flags := Flags {
  f_count : bool;
  f_repeated : bool;
  f_unique : bool;
  f_ignoreCase : bool;
  f_allRepeated : option (list Z);
  f_group : option (list Z);
  f_zero : bool;
  f_skipFields : option Z;
  f_skipChars : option Z;
  f_checkChars : option Z;
}.

Definition value (o : option Z) : Z := match o with Some n => n | None => 0 end.
Definition changed {A} (o : option A) : bool := match o with Some _ => true | None => false end.

(** What the loop depends on. *)
Record settings := Settings {
  count : bool;
  repeated : bool;
  unique : bool;
  all_lines : bool;
  delimMode : delimiterMode;
  lineEnd : Z;
}.

Definition keyOf (f : flags) (m : keyModel) (line : list Z) : list Z :=
  let k := skipKey line (value (f_skipFields f)) (value (f_skipChars f)) m in
  match f_checkChars f with
  | Some n => if n <? len k then take (Z.to_nat n) k else k
  | None => k
  end.

Definition equal (f : flags) (a b : list Z) : bool := if f_ignoreCase f then asciiEqualFold a b else str_eqb a b.

(** ** Groups *)

Section groups.
Context (c : settings).

(** [%7d] *)
Definition pad7 (n : Z) : list Z :=
  let s := itoa n in replicate (7 - length s)%nat (ch! " ") ++ s.

Definition writeLine (line : list Z) (n : Z) : list Z :=
  (if count c then pad7 n ++ str! " " ++ line else line) ++ [lineEnd c].

Definition shouldPrint (group : list (list Z)) : bool :=
  negb ((repeated c && (len group =? 1)) || (unique c && (1 <? len group))).

(** [flush]: what is written, if the group is printed. *)
Definition flush (group : list (list Z)) : option (list Z) :=
  let n := len group in
  if negb (shouldPrint group) then None
  else if all_lines c then Some (mjoin ((fun l => writeLine l n) <$> group))
  else match group with
       | g :: _ => Some (writeLine g n)
       | [] => None
       end.

(** What is written, and whether something was printed so far. *)
Definition flushWithDelimiter (group : list (list Z)) (firstPrinted : bool) : list Z * bool :=
  if negb (shouldPrint group) then ([], firstPrinted)
  else
    let mode := delimMode c in
    let before :=
      if mode_is mode delimPrepend || mode_is mode delimBoth || (mode_is mode delimSeparate && firstPrinted) then [lineEnd c] else [] in
    match flush group with
    | Some text =>
        (before ++ text ++ (if mode_is mode delimAppend || mode_is mode delimBoth then [lineEnd c] else []), true)
    | None => (before, firstPrinted)
    end.

(** The loop. *)
Fixpoint group_loop (keyOf : list Z -> list Z) (equal : list Z -> list Z -> bool)
  (groupLines : list (list Z)) (prevKey : list Z) (firstPrinted : bool) (lines : list (list Z)) : list Z :=
  match lines with
  | [] => if 0 <? len groupLines then (flushWithDelimiter groupLines firstPrinted).1 else []
  | line :: lines' =>
      let k := keyOf line in
      if (0 <? len groupLines) && equal prevKey k
      then group_loop keyOf equal (groupLines ++ [line]) prevKey firstPrinted lines'
      else
        let '(text, firstPrinted) :=
          if 0 <? len groupLines then flushWithDelimiter groupLines firstPrinted else ([], firstPrinted) in
        text ++ group_loop keyOf equal [line] k firstPrinted lines'
  end.
End groups.

(** ** The command *)

Record result := Result {
  status : Z;
  stdout : list Z;
  stderr : list Z;
  file : option (list Z * list Z);
}.

Record world := World {
  w_stdin : list Z + list Z;
  w_readfile : list Z -> list Z + list Z;
  w_create : list Z -> option (list Z);
}.

Definition UsageError (msg : list Z) : result :=
  Result 2 [] (str! "uniq: " ++ msg ++ [10] ++ str! "Try 'uniq --help' for more information." ++ [10]) None.

Definition failed (msg : list Z) : result := Result 1 [] (str! "uniq: " ++ msg ++ [10]) None.

Definition line_end (f : flags) : Z := if f_zero f then 0 else 10.

Definition split_lines (lineEnd : Z) (data : list Z) : list (list Z) :=
  match data with
  | [] => []
  | _ => split_byte lineEnd (trim_suffix_byte lineEnd data)
  end.

Definition readLines (w : world) (operand : list Z) (lineEnd : Z) : list Z + list (list Z) :=
  match (if str_eqb operand (str! "-") then w_stdin w else w_readfile w operand) with
  | inl e => inl e
  | inr data => inr (split_lines lineEnd data)
  end.

(** The checks of the flags before the locale is loaded. *)
Definition check_numbers (posix : bool) (f : flags) (operands : list (list Z)) : option (list Z) :=
  let bad o := (value o <? 0) || (posix && changed o && (value o =? 0)) in
  if bad (f_skipFields f) then Some (str! "invalid number of fields to skip: '" ++ itoa (value (f_skipFields f)) ++ str! "'")
  else if bad (f_skipChars f) then Some (str! "invalid number of bytes to skip: '" ++ itoa (value (f_skipChars f)) ++ str! "'")
  else if value (f_checkChars f) <? 0 then Some (str! "invalid number of bytes to compare: '" ++ itoa (value (f_checkChars f)) ++ str! "'")
  else match operands with
       | _ :: _ :: op :: _ => Some (str! "extra operand '" ++ op ++ str! "'")
       | _ => None
       end.

(** The methods of --group and -D. *)
Definition configure (f : flags) : list Z + settings :=
  let settings repeated all mode := inr (Settings (f_count f) repeated (f_unique f) all mode (line_end f)) in
  match f_group f with
  | Some g =>
      if f_count f || f_repeated f || changed (f_allRepeated f) || f_unique f
      then inl (str! "--group is mutually exclusive with -c, -d, -D, and -u")
      else
        let '(mode, ok) := parseDelimMode g true in
        if ok then settings (f_repeated f) true mode else inl (str! "invalid group method " ++ Quote g)
  | None =>
      match f_allRepeated f with
      | Some a =>
          let '(mode, ok) := parseDelimMode a false in
          if negb ok then inl (str! "invalid delimit method " ++ Quote a)
          else if f_count f then inl (str! "printing all duplicated lines and repeat counts is meaningless")
          else settings true true mode
      | None => settings (f_repeated f) false delimNone
      end
  end.

Definition uniq_lines (f : flags) (c : settings) (m : keyModel) (lines : list (list Z)) : list Z :=
  group_loop c (keyOf f m) (equal f) [] [] false lines.

Definition run (env : list (list Z)) (w : world) (f : flags) (operands : list (list Z)) : result :=
  let posix := envPresent env (str! "POSIXLY_CORRECT") in
  match check_numbers posix f operands with
  | Some msg => UsageError msg
  | None =>
      match loadKeyModel env posix with
      | inl e => failed e
      | inr m =>
          match configure f with
          | inl msg => UsageError msg
          | inr c =>
              let input := match operands with op :: _ => op | [] => str! "-" end in
              match readLines w input (line_end f) with
              | inl e => failed (input ++ str! ": " ++ e)
              | inr lines =>
                  let out := uniq_lines f c m lines in
                  match operands with
                  | [_; op] =>
                      if str_eqb op (str! "-") then Result 0 out [] None
                      else match w_create w op with
                           | Some e => failed (op ++ str! ": " ++ e)
                           | None => Result 0 [] [] (Some (op, out))
                           end
                  | _ => Result 0 out [] None
                  end
              end
          end
      end
  end.
End model.
End Uniq.
