(* ===== verification/UniqCorrect.v ===== *)
(** * uniq: what is written

    The command writes what its flags ask for of the runs of lines with one
    key ([uniq_writes]), and the key of a line is what is left of its
    characters after the fields and characters that are skipped
    ([skipKey_chars]). *)

From Stdlib Require Import ZArith Lia String.
From stdpp Require Import base tactics list numbers strings sorting.
From S2P Require Import Prelude BreMatch BreCorrect Uniq.

Open Scope Z_scope.
Open Scope go_scope.

Module UniqCorrect.
Import Uniq.Uniq.

(** ** Keys *)

Lemma asciiEqualFold_map a b : asciiEqualFold a b = str_eqb (upperByte <$> a) (upperByte <$> b).
Proof. revert b; induction a as [|x a IH]; intros [|y b]; try done. cbn. by rewrite IH. Qed.

(** The key as it is compared. *)
Definition folded (f : flags) (k : list Z) : list Z := if f_ignoreCase f then upperByte <$> k else k.

Definition line_key (f : flags) (m : keyModel) (line : list Z) : list Z := folded f (keyOf f m line).

Lemma equal_folded f a b : equal f a b = str_eqb (folded f a) (folded f b).
Proof. unfold equal, folded. destruct (f_ignoreCase f); [apply asciiEqualFold_map|done]. Qed.

(** ** Runs *)

Section runs.
Context (key : list Z -> list Z).

(** The runs of lines with one key. *)
Fixpoint groups (lines : list (list Z)) : list (list (list Z)) :=
  match lines with
  | [] => []
  | x :: l =>
      match groups l with
      | (y :: g) :: gs => if str_eqb (key x) (key y) then (x :: y :: g) :: gs else [x] :: (y :: g) :: gs
      | gs => [x] :: gs
      end
  end.

(** A run of a key, and the runs of a list. *)
Definition one_key (k : list Z) (g : list (list Z)) : Prop := Forall (fun x => key x = k) g.

Definition is_run (g : list (list Z)) : Prop := exists x g', g = x :: g' /\ one_key (key x) g.

Definition apart (g h : list (list Z)) : Prop := forall x y, x ∈ g -> y ∈ h -> key x <> key y.

Definition runs_of (gs : list (list (list Z))) (lines : list (list Z)) : Prop :=
  mjoin gs = lines /\ Forall is_run gs /\ Sorted apart gs.

Lemma groups_head x l : exists g gs, groups (x :: l) = (x :: g) :: gs.
Proof using Type. cbn. destruct (groups l) as [|[|y g] gs]; [by eauto..|]. destruct (str_eqb _ _); eauto. Qed.

(** A run before a line with another key, or at the end. *)
Lemma groups_run k g l :
  g <> [] -> one_key k g -> match l with [] => True | y :: _ => key y <> k end -> groups (g ++ l) = g :: groups l.
Proof using Type.
  intros Hne Hg Hl. induction g as [|x g IH]; [done|]. apply Forall_cons in Hg as [<- Hg]. cbn [app groups]. destruct g as [|x' g].
  - cbn. destruct l as [|y l]; [done|]. destruct (groups_head y l) as (h & gs & ->). by rewrite (proj2 (str_eqb_neq _ _)).
  - rewrite IH by done. apply Forall_cons in Hg as [E _]. by rewrite E, str_eqb_refl.
Qed.

Lemma groups_spec lines : runs_of (groups lines) lines.
Proof using Type.
  induction lines as [|x l (IH1 & IH2 & IH3)]; [repeat split; constructor|]. cbn [groups].
  destruct (groups l) as [|[|y g] gs] eqn:E.
  - subst l. split_and!; [done| |repeat constructor]. repeat constructor. exists x, []. split; [done|]. by repeat constructor.
  - apply Forall_cons in IH2 as [(? & ? & ? & _) _]. done.
  - apply Forall_cons in IH2 as [(y' & g' & [= <- <-] & Hy) IH2]. destruct (str_eqb_spec (key x) (key y)) as [Ek|Ek].
    + split_and!; [cbn; by rewrite <- IH1| |].
      * constructor; [|done]. exists x, (y :: g). split; [done|]. constructor; [done|]. by rewrite Ek.
      * apply Sorted_inv in IH3 as [S H]. constructor; [done|]. inversion H as [|h gs' Hh]; subst; constructor.
        intros a b Ha Hb. apply elem_of_cons in Ha as [->|Ha]; [|by apply Hh]. rewrite Ek. apply Hh; [left|done].
    + split_and!; [cbn; by rewrite <- IH1| |].
      * constructor; [|by constructor; [exists y, g|]]. exists x, []. split; [done|]. by repeat constructor.
      * constructor; [done|]. constructor. intros a b ->%list_elem_of_singleton Hb Hab. apply Ek. rewrite Hab.
        unfold one_key in Hy. rewrite Forall_forall in Hy. by apply Hy.
Qed.

Lemma groups_nonempty lines g : In g (groups lines) -> g <> [].
Proof using Type.
  destruct (groups_spec lines) as (_ & H & _). rewrite Forall_forall in H. intros Hg%list_elem_of_In. by destruct (H g Hg) as (? & ? & -> & _).
Qed.
End runs.

Lemma groups_ext key key' lines : (forall x, key x = key' x) -> groups key lines = groups key' lines.
Proof. intros E. induction lines as [|x l IH]; [done|]. cbn. rewrite IH. destruct (groups key' l) as [|[|y g] gs]; try done. by rewrite !E. Qed.

(** ** The loop *)

Section loop.
Context (f : flags) (c : settings) (m : keyModel).

(** The text of a group that is printed. *)
Definition body (g : list (list Z)) : list Z :=
  if all_lines c then mjoin ((fun l => writeLine c l (len g)) <$> g) else writeLine c (nth 0 g []) (len g).

(** The texts with the delimiters between, before or after them. *)
Definition delimited (firstPrinted : bool) (texts : list (list Z)) : list Z :=
  let e := [lineEnd c] in
  match delimMode c with
  | delimNone => mjoin texts
  | delimPrepend => mjoin ((fun t => e ++ t) <$> texts)
  | delimSeparate => if firstPrinted then mjoin ((fun t => e ++ t) <$> texts) else join e texts
  | delimAppend => mjoin ((fun t => t ++ e) <$> texts)
  | delimBoth => mjoin ((fun t => e ++ t ++ e) <$> texts)
  end.

Lemma cons_nonempty {A} (x : A) l : x :: l <> [].
Proof using Type. done. Qed.

Lemma join_sep_cons e t ts : join e (t :: ts) = t ++ mjoin ((fun t => e ++ t) <$> ts).
Proof using Type.
  revert t; induction ts as [|t' ts IH]; intros t; [cbn; by rewrite app_nil_r|].
  change (join e (t :: t' :: ts)) with (t ++ e ++ join e (t' :: ts)). rewrite IH. cbn. by rewrite <- !app_assoc.
Qed.

Lemma flush_group g gs fp :
  g <> [] ->
  let '(text, fp') := flushWithDelimiter c g fp in
  text ++ delimited fp' (body <$> List.filter (shouldPrint c) gs) = delimited fp (body <$> List.filter (shouldPrint c) (g :: gs)).
Proof using Type.
  intros Hg. unfold flushWithDelimiter, flush. cbn [List.filter]. destruct (shouldPrint c g); cbn [negb]; [|done].
  assert (E : (if all_lines c then Some (mjoin ((fun l => writeLine c l (len g)) <$> g))
               else match g with x :: _ => Some (writeLine c x (len g)) | [] => None end) = Some (body g))
    by (unfold body; destruct (all_lines c), g; done).
  rewrite E, fmap_cons. set (ts := body <$> _). unfold delimited. destruct (delimMode c); cbn; rewrite <- ?app_assoc, ?app_nil_r; try done.
  destruct fp; cbn [andb]; [done|]. exact (eq_sym (join_sep_cons [lineEnd c] (body g) ts)).
Qed.

Lemma group_loop_runs g k fp lines :
  one_key (line_key f m) (folded f k) g ->
  group_loop c (keyOf f m) (equal f) g k fp lines = delimited fp (body <$> List.filter (shouldPrint c) (groups (line_key f m) (g ++ lines))).
Proof using Type.
  revert g k fp; induction lines as [|x l IH]; intros g k fp Hk; cbn [group_loop].
  - rewrite app_nil_r. destruct g as [|y g]; [cbn; unfold delimited; by destruct (delimMode c); try destruct fp|].
    change (0 <? len (y :: g)) with true. cbv iota. pose proof (flush_group (y :: g) [] fp (cons_nonempty _ _)) as F.
    destruct (flushWithDelimiter c (y :: g) fp) as [text fp']. cbn [fst].
    rewrite <- (app_nil_r (y :: g)), (groups_run _ _ _ [] (cons_nonempty _ _) Hk I). cbn [groups]. rewrite <- F. unfold delimited. cbn.
    destruct (delimMode c), fp'; by rewrite app_nil_r.
  - rewrite equal_folded. destruct g as [|y g].
    + change (0 <? len []) with false. cbn [andb]. rewrite IH; [done|]. by repeat constructor.
    + change (0 <? len (y :: g)) with true. cbn [andb]. cbv iota. destruct (str_eqb_spec (folded f k) (folded f (keyOf f m x))) as [E|E].
      * rewrite IH; [by rewrite <- app_assoc|]. apply Forall_app. split; [done|]. by repeat constructor.
      * pose proof (flush_group (y :: g) (groups (line_key f m) (x :: l)) fp (cons_nonempty _ _)) as F.
        destruct (flushWithDelimiter c (y :: g) fp) as [text fp'].
        rewrite (groups_run _ _ _ (x :: l) (cons_nonempty _ _) Hk) by (unfold line_key; congruence).
        rewrite <- F, IH; [done|]. by repeat constructor.
Qed.
End loop.

(** ** Characters *)

Section chars.
Context (m : keyModel).

(** The characters of a line, and whether each is blank. *)
Fixpoint chars_from (fuel : nat) (s : list Z) : list (list Z * bool) :=
  match fuel, s with
  | S fuel, _ :: _ =>
      let '(size, b) := nextChar m s in
      (take (Z.to_nat size) s, b) :: chars_from fuel (drop (Z.to_nat size) s)
  | _, _ => []
  end.

Definition chars (s : list Z) : list (list Z * bool) := chars_from (length s) s.

Definition text_of (cs : list (list Z * bool)) : list Z := mjoin (fst <$> cs).

Fixpoint drop_while {A} (p : A -> bool) (l : list A) : list A :=
  match l with
  | [] => []
  | x :: l' => if p x then drop_while p l' else l
  end.

(** A field: blanks, then what is not blank, as many as there are. *)
Definition without_field (cs : list (list Z * bool)) : list (list Z * bool) :=
  drop_while (fun ch => negb ch.2) (drop_while snd cs).

Lemma nextChar_size s : s <> [] -> 1 <= (nextChar m s).1 <= len s.
Proof using Type.
  intros Hs. assert (1 <= len s) by (destruct s; [done|rewrite len_cons; pose proof (len_nonneg s); lia]).
  pose proof (BreCorrect.BreCorrect.rune_size_range s Hs). unfold nextChar. destruct (negb _); [cbn; lia|]. cbv zeta.
  destruct (_ && _); cbn; lia.
Qed.

Lemma chars_fuel f1 f2 s : (length s <= f1)%nat -> (length s <= f2)%nat -> chars_from f1 s = chars_from f2 s.
Proof using Type.
  revert f2 s; induction f1 as [|f1 IH]; intros [|f2] [|x s] H1 H2; try done; try (cbn in *; lia). cbn [chars_from].
  pose proof (nextChar_size (x :: s) ltac:(done)) as Hn. destruct (nextChar m (x :: s)) as [size b]. cbn [fst] in Hn. f_equal.
  apply IH; rewrite length_drop; cbn [length] in *; lia.
Qed.

Lemma chars_cons s :
  s <> [] -> let '(size, b) := nextChar m s in
  chars s = (take (Z.to_nat size) s, b) :: chars (drop (Z.to_nat size) s) /\ (length (drop (Z.to_nat size) s) < length s)%nat.
Proof using Type.
  intros Hs. pose proof (nextChar_size s Hs) as Hn. destruct s as [|x s]; [done|]. unfold chars. cbn [length chars_from].
  destruct (nextChar m (x :: s)) as [size b]. cbn [fst] in Hn.
  assert (L : (length (drop (Z.to_nat size) (x :: s)) < S (length s))%nat) by (rewrite length_drop; cbn [length]; lia).
  split; [|done]. f_equal. apply chars_fuel; lia.
Qed.

Lemma text_chars s : text_of (chars s) = s.
Proof using Type.
  induction s as [s IH] using (induction_ltof1 _ (@length Z)). unfold ltof in IH. destruct s as [|x s]; [done|].
  pose proof (chars_cons (x :: s) ltac:(done)) as H. destruct (nextChar m (x :: s)) as [size b]. destruct H as [-> L].
  unfold text_of in *. rewrite fmap_cons. cbn [fst]. change (mjoin (?a :: ?l)) with (a ++ mjoin l). rewrite IH by done. apply take_drop.
Qed.

(** The loops act on characters. *)
Lemma skip_while_chars fuel want s :
  (length s <= fuel)%nat -> chars (skip_while fuel m want s) = drop_while (fun ch => eqb ch.2 want) (chars s).
Proof using Type.
  revert s; induction fuel as [|fuel IH]; intros [|x s] Hf; try done; [cbn in Hf; lia|]. cbn [skip_while].
  pose proof (chars_cons (x :: s) ltac:(done)) as H. destruct (nextChar m (x :: s)) as [size b]. destruct H as [E L]. rewrite E.
  cbn [drop_while snd]. destruct (eqb b want); cbn [negb]; [|done]. apply IH. cbn [length] in *. lia.
Qed.

Lemma drop_while_ext {A} (p q : A -> bool) l : (forall x, p x = q x) -> drop_while p l = drop_while q l.
Proof using Type. intros E. induction l as [|x l IH]; [done|]. cbn. rewrite E. by destruct (q x). Qed.

Lemma skip_field_chars s : chars (skip_field m s) = without_field (chars s).
Proof using Type.
  unfold skip_field, without_field. rewrite !skip_while_chars by lia.
  rewrite (drop_while_ext (fun ch => eqb ch.2 false) (fun ch => negb ch.2)) by (by intros [? []]).
  by rewrite (drop_while_ext (fun ch => eqb ch.2 true) snd) by (by intros [? []]).
Qed.

Lemma skip_fields_chars n s : chars (skip_fields n m s) = Nat.iter n without_field (chars s).
Proof using Type.
  revert s; induction n as [|n IH]; intros s; [done|]. rewrite Nat.iter_succ_r. destruct s as [|x s].
  - symmetry. clear. change (without_field (chars [])) with (@nil (list Z * bool)). induction n as [|n IH]; [done|].
    change (without_field (Nat.iter n without_field []) = []). by rewrite IH.
  - cbn [skip_fields]. by rewrite IH, skip_field_chars.
Qed.

Lemma skip_chars_chars n s : chars (skip_chars n m s) = drop n (chars s).
Proof using Type.
  revert s; induction n as [|n IH]; intros s; [done|]. destruct s as [|x s]; [done|]. cbn [skip_chars]. rewrite IH.
  pose proof (chars_cons (x :: s) ltac:(done)) as H. destruct (nextChar m (x :: s)) as [size b]. by destruct H as [-> _].
Qed.
End chars.

(** [C28] The key: of the characters of the line, the fields of -f are dropped,
    each the longest run of blanks followed by the longest run of others, then
    the characters of -s, and the key is the text of what is left; it is empty
    past the end of the line. Characters and blanks are those of the locale. *)
Theorem skipKey_chars line fields chars_skipped m :
  skipKey line fields chars_skipped m =
  text_of (drop (Z.to_nat chars_skipped) (Nat.iter (Z.to_nat fields) without_field (chars m line))).
Proof. unfold skipKey. by rewrite <- skip_fields_chars, <- skip_chars_chars, text_chars. Qed.

(** ** The options

    What is asked for, in terms of the flags as they are given. *)

Section asked.
Context (f : flags) (m : keyModel).

(** -d and -D drop the runs of one line, -u those of more. *)
Definition selected (g : list (list Z)) : bool :=
  implb (f_repeated f || changed (f_allRepeated f)) (2 <=? length g)%nat && implb (f_unique f) (length g =? 1)%nat.

(** -D and --group show all lines of a run, otherwise it is the first. *)
Definition shown (g : list (list Z)) : list (list Z) :=
  if changed (f_group f) || changed (f_allRepeated f) then g else take 1 g.

(** -c puts the number of lines before a line, in seven columns and a blank. *)
Definition numbered (g : list (list Z)) (line : list Z) : list Z :=
  if f_count f then
    let n := itoa (Z.of_nat (length g)) in replicate (7 - length n) 32 ++ n ++ 32 :: line
  else line.

(** -z ends lines with a zero byte. *)
Definition eol : list Z := if f_zero f then [0] else [10].

Definition run_text (g : list (list Z)) : list Z := mjoin ((fun line => numbered g line ++ eol) <$> shown g).

(** The method of --group or -D puts empty lines around the runs. *)
Definition method : list Z :=
  match f_group f, f_allRepeated f with
  | Some w, _ | None, Some w => w
  | None, None => str! "none"
  end.

Definition framed (texts : list (list Z)) : list Z :=
  if str_eqb method (str! "separate") then join eol texts
  else
    let before := if str_eqb method (str! "prepend") || str_eqb method (str! "both") then eol else [] in
    let behind := if str_eqb method (str! "append") || str_eqb method (str! "both") then eol else [] in
    mjoin ((fun t => before ++ t ++ behind) <$> texts).

(** The key: the line without the fields of -f and the characters of -s, of
    the rest at most the bytes of -w; -i takes small letters for capitals. *)
Definition compared (line : list Z) : list Z :=
  let rest := text_of (drop (Z.to_nat (value (f_skipChars f))) (Nat.iter (Z.to_nat (value (f_skipFields f))) without_field (chars m line))) in
  let k := match f_checkChars f with Some n => take (Z.to_nat n) rest | None => rest end in
  if f_ignoreCase f then (fun b => if (97 <=? b) && (b <=? 122) then b - 32 else b) <$> k else k.

Lemma line_key_compared line : line_key f m line = compared line.
Proof using Type.
  unfold line_key, folded, keyOf, compared. rewrite <- skip_fields_chars, <- skip_chars_chars, text_chars. fold (skipKey line (value (f_skipFields f)) (value (f_skipChars f)) m).
  set (k := skipKey _ _ _ _). assert (E : forall n, (if n <? len k then take (Z.to_nat n) k else k) = take (Z.to_nat n) k).
  { intros n. destruct (Z.ltb_spec n (len k)); [done|]. rewrite take_ge; [done|]. unfold len in *. lia. }
  destruct (f_checkChars f) as [n|]; [rewrite (E n)|]; done.
Qed.

Lemma unframed (texts : list (list Z)) : mjoin texts = mjoin ((fun t => t ++ []) <$> texts).
Proof using Type. f_equal. induction texts as [|t l IH]; [done|]. rewrite fmap_cons, app_nil_r. by f_equal. Qed.

Ltac frames := first [done | exact (unframed _) | f_equal; apply list_fmap_ext; intros ? ? _; by rewrite ?app_nil_r].

(** The settings of the loop that the checks of the flags leave. *)
Lemma configure_asked Quote c :
  configure Quote f = inr c ->
  count c = f_count f /\ (forall g, g <> [] -> shouldPrint c g = selected g) /\ all_lines c = changed (f_group f) || changed (f_allRepeated f) /\
  [lineEnd c] = eol /\ forall texts, delimited c false texts = framed texts.
Proof using Type.
  assert (P : forall rep un (g : list (list Z)), g <> [] ->
    negb (rep && (len g =? 1) || un && (1 <? len g)) = implb rep (2 <=? length g)%nat && implb un (length g =? 1)%nat).
  { intros rep un [|x g] Hg; [done|]. unfold len. cbn [length]. destruct g as [|y g]; [by destruct rep, un|].
    cbn [length]. rewrite (proj2 (Z.eqb_neq _ _)), (proj2 (Z.ltb_lt _ _)) by lia. by destruct rep, un. }
  assert (L : [line_end f] = eol) by (unfold line_end, eol; by destruct (f_zero f)).
  unfold configure, selected, framed, method, delimited, shouldPrint. destruct (f_group f) as [w|].
  - destruct (f_count f || f_repeated f || changed (f_allRepeated f) || f_unique f) eqn:X; [done|].
    rewrite !orb_false_iff in X. destruct X as (((-> & ->) & ->) & ->). unfold parseDelimMode.
    repeat match goal with |- context [str_eqb w ?x] => destruct (str_eqb_spec w x) as [->|] end; cbn; try done; intros [= <-];
      cbn; (split_and!; [done|intros g Hg; exact (P false false g Hg)|done|done|intros texts; cbn; rewrite <- ?L; frames]).
  - destruct (f_allRepeated f) as [w|]; [|intros [= <-]].
    + unfold parseDelimMode. repeat match goal with |- context [str_eqb w ?x] => destruct (str_eqb_spec w x) as [->|] end; cbn; try done;
        (destruct (f_count f); [done|]); intros [= <-]; rewrite orb_true_r;
        (split_and!; [done|intros g Hg; exact (P true (f_unique f) g Hg)|done|done|intros texts; cbn; rewrite <- ?L; frames]).
    + split_and!; [done|intros g Hg; rewrite orb_false_r; exact (P (f_repeated f) (f_unique f) g Hg)|done|done|]. intros texts. cbn. frames.
Qed.
End asked.

(** Where the output goes. *)
Definition delivered (operands : list (list Z)) (out : list Z) : result :=
  match operands with
  | [_; op] => if str_eqb op (str! "-") then Result 0 out [] None else Result 0 [] [] (Some (op, out))
  | _ => Result 0 out [] None
  end.

(** [C26] What uniq writes, in terms of its flags: the lines read fall into the
    runs of equal keys, where a key is what is left of the line after -f and
    -s, cut by -w and folded by -i; of the runs that -d, -D and -u select it
    writes the first line, or all lines under -D and --group, with the number
    of lines before each under -c, with the line end of -z, and with the empty
    lines of the method around the runs; it exits with status 0. This is every
    run whose flags are accepted and whose files can be read and created. *)
Theorem uniq_writes ToUpper Quote openCType env w f operands m c lines :
  let posix := envPresent env (str! "POSIXLY_CORRECT") in
  check_numbers posix f operands = None -> loadKeyModel ToUpper Quote openCType env posix = inr m ->
  configure Quote f = inr c ->
  readLines w (match operands with op :: _ => op | [] => str! "-" end) (line_end f) = inr lines ->
  match operands with [_; op] => w_create w op = None | _ => True end ->
  exists gs, runs_of (compared f m) gs lines /\
    run ToUpper Quote openCType env w f operands =
    delivered operands (framed f (run_text f <$> List.filter (selected f) gs)).
Proof.
  intros posix Hn Hm Hc Hr Hw. exists (groups (compared f m) lines). split; [apply groups_spec|].
  assert (E : uniq_lines f c m lines = framed f (run_text f <$> List.filter (selected f) (groups (compared f m) lines))).
  { unfold uniq_lines. rewrite group_loop_runs by constructor. cbn [app].
    destruct (configure_asked f Quote c Hc) as (Cc & Cs & Ca & Ce & ->). f_equal. rewrite (groups_ext _ (compared f m)) by apply line_key_compared.
    pose proof (groups_nonempty (compared f m) lines) as Hne. rewrite (filter_ext_in _ (selected f)) by (intros g Hg; by apply Cs, Hne).
    apply list_fmap_ext. intros i g Hg. unfold body, run_text, shown, numbered, writeLine, pad7. rewrite Ca, Cc, Ce.
    destruct (_ || _); [apply f_equal, list_fmap_ext; intros; by destruct (f_count f); rewrite <- ?app_assoc|].
    apply list_elem_of_lookup_2, list_elem_of_In, filter_In in Hg as [Hg _]. apply Hne in Hg. destruct g as [|x g]; [done|]. cbn. rewrite app_nil_r.
    by destruct (f_count f); rewrite <- ?app_assoc. }
  unfold run. fold posix. rewrite Hn, Hm, Hc, Hr, E. unfold delivered. destruct operands as [|? [|op [|]]]; try done.
  destruct (str_eqb op (str! "-")); [done|]. by rewrite Hw.
Qed.
End UniqCorrect.
