(* ===== verification/Pipes.v ===== *)
(** * sort, comm and uniq together

    What the commands that expect sorted text make of what sort writes: the
    columns of comm are differences and the intersection of multisets of
    lines ([sort_comm]), and uniq counts the occurrences of each line and
    agrees with sort -u ([sort_uniq]). The lines are compared as bytes, as all
    three do in the POSIX locale. *)

From Stdlib Require Import ZArith Lia String.
From stdpp Require Import base tactics gmultiset list numbers strings sorting.
From S2P Require Import Prelude SortOrder SortKey SortCompare SortFast SortMain SortNumber SortRadix SortParallel SortCorrect SortOutput SortCommand Comm CommCorrect Uniq UniqCorrect.

Open Scope Z_scope.
Open Scope go_scope.

Module Pipes.
Import SortMain.SortMain SortCorrect.SortCorrect SortOutput.SortOutput SortCommand.SortCommand CommCorrect.CommCorrect UniqCorrect.UniqCorrect.

(** ** Multisets of lines *)

Definition bag (l : list (list Z)) : gmultiset (list Z) := list_to_set_disj l.

Lemma multiplicity_ties x l : multiplicity x (bag l) = length (ties Compare x l).
Proof.
  unfold bag. induction l as [|y l IH]; [apply multiplicity_empty|]. rewrite list_to_set_disj_cons, multiplicity_disj_union, IH, ties_cons.
  destruct (Z.eqb_spec (Compare x y) 0) as [E|E].
  - apply Compare_eq in E as ->. rewrite multiplicity_singleton. by rewrite decide_True.
  - rewrite multiplicity_singleton, decide_False; [done|]. intros ->. by rewrite Compare_refl in E.
Qed.

Lemma bag_perm l k : l ≡ₚ k -> bag l = bag k.
Proof. intros H. unfold bag. by rewrite H. Qed.

(** ** Sorting by bytes *)

(** sort without keys, -r and -u, in the POSIX locale. *)
Definition plain (s : sorter) : Prop := keys s = [] /\ collator s = None /\ s_reverse s = false.

Definition with_unique (u : bool) (s : sorter) : sorter :=
  Sorter (keys s) (tab s) (s_reverse s) (s_stable s) u (s_random s) (checkSilent s) (zeroTerm s) (s_merge s) (collator s) (ctype s) (decPt s) (thousSep s).

Lemma plain_ok s : plain s -> sorter_ok s.
Proof. intros (Hk & Hc & _). split; [by rewrite Hc|]. by rewrite Hk. Qed.

Lemma plain_sort ToUpper procs SortF `{!SortFunc SortF} s w inputs ds :
  plain s -> read_inputs (w_stdin w) inputs = inr ds -> Forall short (input_lines s ds) ->
  let sorted := SortStableFunc Compare (input_lines s ds) in
  sort_inputs ToUpper procs SortF s w inputs [] =
    Ret (Result 0 (written (zeroTerm s) (if s_unique s then uniq Compare sorted else sorted)) [] None).
Proof.
  intros Hp Hr Hl. pose proof (plain_ok s Hp) as Hok. cbv zeta. rewrite (sort_inputs_eq ToUpper procs SortF s Hok w inputs [] ds Hr Hl).
  assert (E : forall a b, short a -> short b -> comparator (compare ToUpper s) a b = Compare a b).
  { intros a b Ha Hb. destruct Hp as (Hk & Hc & Hv). rewrite (compare_no_keys ToUpper s Hok) by (by rewrite ?Hk).
    by rewrite Hv. }
  cbv zeta. rewrite (SortStableFunc_ext short Compare) by (try done; intros a b Ha Hb; by rewrite E).
  assert (U : forall l, Forall short l -> uniq (comparator (compare ToUpper s)) l = uniq Compare l).
  { intros l Hs. destruct Hs as [|x l Hx Hs]; [done|]. cbn [uniq]. f_equal. revert x Hx; induction Hs as [|y l Hy _ IH]; intros x Hx; [done|].
    cbn [uniq_from]. rewrite E by done. by rewrite !IH. }
  rewrite U by (by rewrite SortStableFunc_perm). done.
Qed.

Lemma Compare_sorted l : in_order Compare (SortStableFunc Compare l).
Proof. apply (SortStableFunc_stable (fun _ => True) Compare). by apply Forall_true. Qed.

Lemma sorted_clean s ds : Forall (fun l => delimiter (zeroTerm s) ∉ l) (SortStableFunc Compare (input_lines s ds)).
Proof. rewrite SortStableFunc_perm. apply input_lines_clean. Qed.

(** The columns of the merge of two sorted lists. *)
Lemma column_bags l k :
  let ev := events Compare (SortStableFunc Compare l) (SortStableFunc Compare k) in
  bag (in_column 1 ev) = bag l ∖ bag k /\ bag (in_column 2 ev) = bag k ∖ bag l /\ bag (in_column 3 ev) = bag l ∩ bag k.
Proof.
  cbv zeta. pose proof (bag_perm _ _ (SortStableFunc_perm Compare l)) as <-. pose proof (bag_perm _ _ (SortStableFunc_perm Compare k)) as <-.
  assert (T : forall l, Forall (fun _ : list Z => True) l) by (intros; by apply Forall_true).
  assert (E : forall x, _) by (intros x; exact (events_ties (fun _ => True) Compare x _ _ I (T _) (T _) (Compare_sorted l) (Compare_sorted k))).
  split_and!; apply gmultiset_eq; intros x; rewrite ?multiplicity_difference, ?multiplicity_intersection, !multiplicity_ties;
    destruct (E x) as (E1 & E2 & E3).
  - rewrite E1. apply length_drop.
  - rewrite E2. apply length_drop.
  - rewrite E3, length_take. lia.
Qed.

(** [C25] comm after sort: of two inputs sorted by sort, comm writes to the
    first column the lines that the first input has more of than the second,
    each as many times as it has more, to the second column the same for the
    second input, and to the third the lines of both, as many times as the
    input with fewer has them; the lines are in order. *)
Theorem sort_comm ToUpper procs SortF `{!SortFunc SortF} s w1 w2 inputs1 inputs2 ds1 ds2 direct suppress f name1 name2 :
  let bag1 := bag (input_lines s ds1) in
  let bag2 := bag (input_lines s ds2) in
  plain s -> s_unique s = false -> Comm.Comm.zeroTerminated f = zeroTerm s ->
  read_inputs (w_stdin w1) inputs1 = inr ds1 -> Forall short (input_lines s ds1) ->
  read_inputs (w_stdin w2) inputs2 = inr ds2 -> Forall short (input_lines s ds2) ->
  exists out1 out2 ev,
    sort_inputs ToUpper procs SortF s w1 inputs1 [] = Ret (Result 0 out1 [] None) /\
    sort_inputs ToUpper procs SortF s w2 inputs2 [] = Ret (Result 0 out2 [] None) /\
    Comm.Comm.compare_files (fun a b => inr (Compare a b)) direct suppress f name1 name2
      (Comm.Comm.Reader out1 None) (Comm.Comm.Reader out2 None) = Ret (Comm.Comm.Result 0 (output suppress f ev) []) /\
    in_order Compare (snd <$> ev) /\
    bag (in_column 1 ev) = bag1 ∖ bag2 /\ bag (in_column 2 ev) = bag2 ∖ bag1 /\ bag (in_column 3 ev) = bag1 ∩ bag2.
Proof.
  cbv zeta. intros Hp Hu Hz R1 L1 R2 L2. pose proof (plain_sort ToUpper procs SortF s) as P. rewrite Hu in P.
  set (k1 := SortStableFunc Compare (input_lines s ds1)). set (k2 := SortStableFunc Compare (input_lines s ds2)).
  exists (written (zeroTerm s) k1), (written (zeroTerm s) k2), (events Compare k1 k2).
  assert (A1 : forall ds, ascending Compare (SortStableFunc Compare (input_lines s ds)) = true)
    by (intros ds; apply in_order_ascending, Compare_sorted).
  split_and!; [by apply P|by apply P| | |apply column_bags..].
  - rewrite compare_sorted; rewrite Hz, ?splitLines_written by apply sorted_clean; try apply A1. done.
  - apply (events_order (fun _ => True) Compare (CmpOrder0 := Compare_order)); (apply Compare_sorted || by apply Forall_true).
Qed.

(** ** Runs of a sorted list *)

Lemma Compare_neg_ne x y : Compare x y < 0 -> x <> y.
Proof. intros H ->. rewrite Compare_refl in H. lia. Qed.

Lemma ties_other x l : Forall (fun y => x <> y) l -> ties Compare x l = [].
Proof.
  induction 1 as [|y l Hy _ IH]; [done|]. rewrite ties_cons, IH. destruct (Z.eqb_spec (Compare x y) 0) as [E|]; [|done].
  by apply Compare_eq in E.
Qed.

Lemma ties_all x l : Forall (fun y => y = x) l -> ties Compare x l = l.
Proof. induction 1 as [|y l -> _ IH]; [done|]. by rewrite ties_cons, Compare_refl, IH. Qed.

(** After the copies of [x] come greater lines. *)
Lemma uniq_copies x g l :
  Forall (fun y => y = x) g -> Forall (fun y => Compare x y < 0) l -> uniq Compare (x :: g ++ l) = x :: uniq Compare l.
Proof.
  intros Hg Hl. cbn [uniq]. f_equal. induction Hg as [|y g -> _ IH]; cbn [app uniq_from].
  - destruct Hl as [|y l Hy _]; [done|]. cbn [uniq_from uniq]. by rewrite (proj2 (Z.eqb_neq _ _)) by lia.
  - by rewrite Compare_refl.
Qed.

Lemma later_runs key x g gs :
  (forall x, key x = x) -> x ∈ g -> Forall (is_run key) gs -> Sorted (apart key) (g :: gs) -> in_order Compare (x :: mjoin gs) ->
  Forall (fun y => Compare x y < 0) (mjoin gs).
Proof.
  intros Hk Hx Hr Ha S. destruct gs as [|h gs]; [constructor|]. apply Sorted_inv in Ha as [_ Hgh%HdRel_inv].
  destruct (Forall_inv Hr) as (y & h' & -> & _). apply StronglySorted_cons in S as [F S].
  change (mjoin ((y :: h') :: gs)) with (y :: (h' ++ mjoin gs)) in *. apply StronglySorted_cons in S as [Fy _].
  assert (Hxy : Compare x y < 0).
  { apply Forall_cons in F as [H _]. destruct (decide (Compare x y = 0)) as [E%Compare_eq|]; [|lia].
    exfalso. apply (Hgh x y Hx); [left|]. by rewrite E. }
  constructor; [done|]. eapply Forall_impl; [exact Fy|]. cbn. intros z Hz.
  pose proof (@cmp_trans _ _ Compare _ x y z I I I ltac:(lia) Hz). destruct (decide (Compare x z = 0)) as [E%Compare_eq|]; [|lia].
  subst z. rewrite Compare_flip in Hz. lia.
Qed.

(** The heads of the runs are the lines that are left when repeated ones are
    dropped, and a run is as long as its line is frequent. *)
Lemma sorted_runs key gs :
  (forall x, key x = x) -> Forall (is_run key) gs -> Sorted (apart key) gs -> in_order Compare (mjoin gs) ->
  uniq Compare (mjoin gs) = (fun g => nth 0 g []) <$> gs /\
  Forall (fun g => length g = multiplicity (nth 0 g []) (bag (mjoin gs))) gs.
Proof.
  intros Hk. induction gs as [|g gs IH]; intros Hr Ha S; [by split; [|constructor]|].
  pose proof Hr as [(x & g' & -> & Hg) Hr']%Forall_cons. pose proof Ha as [Ha' _]%Sorted_inv.
  change (mjoin ((x :: g') :: gs)) with (x :: g' ++ mjoin gs) in *. rewrite fmap_cons. cbn [nth].
  assert (Eg : Forall (fun y => y = x) (x :: g')) by (eapply Forall_impl; [exact Hg|]; cbn; intros y; by rewrite !Hk).
  pose proof Eg as [_ Eg']%Forall_cons. pose proof S as [F S']%StronglySorted_cons.
  assert (Sr : in_order Compare (mjoin gs)) by (clear -S'; induction g' as [|y g' IH]; [done|]; apply StronglySorted_cons in S' as [_ S']; auto).
  assert (Hlt : Forall (fun y => Compare x y < 0) (mjoin gs)).
  { apply (later_runs key x (x :: g') gs Hk); [left|done..|]. apply StronglySorted_cons. split; [|done]. by apply Forall_app in F as [_ F]. }
  destruct (IH Hr' Ha' Sr) as [IH1 IH2]. rewrite uniq_copies by done. split; [by rewrite IH1|].
  change (x :: g' ++ mjoin gs) with ((x :: g') ++ mjoin gs). constructor.
  - cbn [nth]. rewrite multiplicity_ties, ties_app, ties_all, ties_other, app_nil_r; [done| |done].
    eapply Forall_impl; [exact Hlt|]. intros y. apply Compare_neg_ne.
  - rewrite Forall_forall in Hlt. rewrite Forall_forall in IH2, Hr' |- *. intros h Hh. rewrite (IH2 h Hh), !multiplicity_ties, ties_app.
    destruct (Hr' h Hh) as (y & h' & -> & _). cbn [nth]. rewrite (ties_other y (x :: g')); [done|].
    eapply Forall_impl; [exact Eg|]. cbn. intros z -> ->. apply (Compare_neg_ne x x); [|done]. apply Hlt, list_elem_of_join.
    exists (x :: h'). split; [left|done].
Qed.

(** What sort writes is read by uniq as the same lines. *)
Lemma split_lines_written z ls :
  Forall (fun l => delimiter z ∉ l) ls -> Uniq.Uniq.split_lines (delimiter z) (written z ls) = ls.
Proof.
  destruct ls as [|l ls]; [done|]. intros Hl. rewrite written_join. unfold Uniq.Uniq.split_lines, trim_suffix_byte.
  rewrite rev_unit, Z.eqb_refl, rev_involutive. assert (S : split_byte (delimiter z) (join [delimiter z] (l :: ls)) = l :: ls).
  { revert l Hl; induction ls as [|l' ls IH]; intros l [Hl Hls]%Forall_cons; [by apply split_byte_none|].
    change (join ?e (l :: l' :: ls)) with (l ++ delimiter z :: join e (l' :: ls)). by rewrite split_byte_app, IH. }
  rewrite S. by destruct (join [delimiter z] (l :: ls)).
Qed.

Section uniq.
Context (cnt z : bool).

Definition uniq_flags : Uniq.Uniq.flags := Uniq.Uniq.Flags cnt false false false None None z None None None.

(** The text of a line that occurs [n] times. *)
Definition counted (x : list Z) (n : nat) : list Z :=
  (if cnt then Uniq.Uniq.pad7 (Z.of_nat n) ++ str! " " else []) ++ x ++ [delimiter z].

Lemma run_uniq_lines ToUpper Quote openCType env readfile create ls :
  Uniq.Uniq.envPresent env (str! "POSIXLY_CORRECT") = false -> Forall (fun l => delimiter z ∉ l) ls ->
  exists gs, runs_of (line_key uniq_flags Uniq.Uniq.cKeyModel) gs ls /\
    Uniq.Uniq.run ToUpper Quote openCType env (Uniq.Uniq.World (inr (written z ls)) readfile create) uniq_flags [] =
      Uniq.Uniq.Result 0 (mjoin ((fun g => counted (nth 0 g []) (length g)) <$> gs)) [] None.
Proof using Type.
  intros He Hc. exists (groups (line_key uniq_flags Uniq.Uniq.cKeyModel) ls). split; [apply groups_spec|].
  unfold Uniq.Uniq.run. rewrite He. cbn -[Uniq.Uniq.uniq_lines Uniq.Uniq.split_lines].
  change (Uniq.Uniq.line_end uniq_flags) with (delimiter z). rewrite split_lines_written by done.
  f_equal. set (c := Uniq.Uniq.Settings _ _ _ _ _ _). unfold Uniq.Uniq.uniq_lines. rewrite (group_loop_runs uniq_flags c) by constructor.
  assert (Fi : forall gs, List.filter (Uniq.Uniq.shouldPrint c) gs = gs) by (intros gs; induction gs as [|g gs IH]; [done|]; cbn; by rewrite IH).
  rewrite Fi. unfold delimited. cbn [Uniq.Uniq.delimMode c]. f_equal. apply list_fmap_ext. intros _ g _.
  unfold body, counted, Uniq.Uniq.writeLine. cbn [Uniq.Uniq.all_lines Uniq.Uniq.count Uniq.Uniq.lineEnd c]. 
  destruct cnt; cbn [app]; by rewrite <- ?app_assoc.
Qed.
End uniq.

Lemma distinct_elem x l : in_order Compare l -> x ∈ uniq Compare l <-> x ∈ l.
Proof.
  intros S. split; [apply uniq_elem|]. intros Hx. pose proof (ties_uniq (fun _ => True) Compare x l I) as T.
  specialize (T ltac:(by apply Forall_true) S). assert (Hin : x ∈ ties Compare x l) by (apply elem_of_ties; split; [done|apply Compare_refl]).
  destruct (ties Compare x l) as [|y t]; [by apply elem_of_nil in Hin|]. assert (Hy : y ∈ ties Compare x (uniq Compare l)) by (rewrite T; left).
  apply elem_of_ties in Hy as [Hy E%Compare_eq]. by subst y.
Qed.

(** [C24] uniq after sort: uniq -c writes every line of the input once, in
    order, with the number of its occurrences, and without -c it writes what
    sort -u writes. *)
Theorem sort_uniq ToUpper procs SortF `{!SortFunc SortF} s w inputs ds cnt ToUpper' Quote openCType env readfile create :
  let lines := input_lines s ds in
  plain s -> s_unique s = false -> read_inputs (w_stdin w) inputs = inr ds -> Forall short lines ->
  Uniq.Uniq.envPresent env (str! "POSIXLY_CORRECT") = false ->
  exists out distinct,
    sort_inputs ToUpper procs SortF s w inputs [] = Ret (Result 0 out [] None) /\
    sort_inputs ToUpper procs SortF (with_unique true s) w inputs [] = Ret (Result 0 (written (zeroTerm s) distinct) [] None) /\
    Uniq.Uniq.run ToUpper' Quote openCType env (Uniq.Uniq.World (inr out) readfile create) (uniq_flags cnt (zeroTerm s)) [] =
      Uniq.Uniq.Result 0
        (if cnt then mjoin ((fun x => Uniq.Uniq.pad7 (Z.of_nat (multiplicity x (bag lines))) ++ str! " " ++ x ++ [delimiter (zeroTerm s)]) <$> distinct)
         else written (zeroTerm s) distinct) [] None /\
    StronglySorted (fun a b => Compare a b < 0) distinct /\ (forall x, x ∈ distinct <-> x ∈ lines).
Proof.
  cbv zeta. intros Hp Hu Hr Hl He. set (k := SortStableFunc Compare (input_lines s ds)).
  exists (written (zeroTerm s) k), (uniq Compare k).
  destruct (run_uniq_lines cnt (zeroTerm s) ToUpper' Quote openCType env readfile create k He (sorted_clean s ds)) as (gs & (Eg & Hg & Ha) & ->).
  destruct (sorted_runs _ gs ltac:(done) Hg Ha) as [U M]; [rewrite Eg; apply Compare_sorted|]. rewrite Eg in U, M.
  split_and!.
  - rewrite (plain_sort ToUpper procs SortF s w inputs ds) by done. by rewrite Hu.
  - by apply (plain_sort ToUpper procs SortF (with_unique true s) w inputs ds).
  - f_equal. rewrite U. unfold written. rewrite Forall_lookup in M.
    destruct cnt; f_equal; rewrite <- list_fmap_compose; apply list_fmap_ext; intros i g Hi; unfold counted; cbn [compose app]; [|done].
    assert (Ek : bag k = bag (input_lines s ds)) by apply bag_perm, SortStableFunc_perm. rewrite (M i g Hi), Ek. by rewrite <- app_assoc.
  - apply (uniq_order (fun _ => True) Compare); [by apply Forall_true|apply Compare_sorted].
  - intros x. rewrite distinct_elem by apply Compare_sorted. unfold k. by rewrite SortStableFunc_perm.
Qed.
End Pipes.
