(* ===== verification/Join.v ===== *)
(** * join: the relational join of two sorted files

    Model of src/cmds/join/join.go, collate.go and ctype.go: the options that
    are taken out of the arguments, fields and output formats, the walk over
    both files in groups of lines with one key, the checks of their order,
    and the staged output. The parser of the long flags, [strings.TrimSpace],
    [strconv.Quote] and the providers of LC_COLLATE and LC_CTYPE are
    parameters; a file is its bytes or an error; the final write does not
    fail. A slice of fields is nil exactly when it is empty. *)

From Stdlib Require Import ZArith Lia String.
From stdpp Require Import base tactics list numbers strings.
From S2P Require Import Prelude SortOrder BreMatch Uniq.

Open Scope Z_scope.
Open Scope go_scope.

Module Join.

(** ** Options *)

Definition tabDefault : Z := -1.
Definition tabWholeLine : Z := -2.

(** The collation: an error, or the order; and [Close]. *)
Record collator := Collator { Compare_ : list Z -> list Z -> list Z + Z; Close : option (list Z) }.

Record options := Options {
  field1 : Z; field2 : Z;
  tab : Z;
  printU1 : bool; printU2 : bool;
  suppressed1 : bool; suppressed2 : bool;
  ignoreCase : bool;
  zeroTerminated : bool;
  formats : list (list Z);
  empty : list Z;
}.

Definition no_options : options := Options 0 0 tabDefault false false false false false false [] [].

(** The options the parser of the framework reads. *)
Record flags := Flags {
  f_ignoreCase : bool;
  checkOrder : bool;
  nocheckOrder : bool;
  header : bool;
  f_zeroTerminated : bool;
}.

Definition maxInt : Z := 2 ^ 63 - 1.

(** The loop of [parsePositive]. *)
Fixpoint positive_from (n : Z) (overflowed : bool) (s : list Z) : option (Z * bool) :=
  match s with
  | [] => Some (n, overflowed)
  | c :: s' =>
      if negb (is_digit c) then None
      else if overflowed then positive_from n true s'
      else
        let d := c - ch! "0" in
        if (maxInt - d) / 10 <? n then positive_from n true s' else positive_from (n * 10 + d) false s'
  end.

Definition parsePositive (s : list Z) : Z * bool :=
  match s with
  | [] => (0, false)
  | _ =>
      match positive_from 0 false s with
      | None => (0, false)
      | Some (n, overflowed) => if overflowed then (maxInt, true) else (n, 0 <? n)
      end
  end.

(** [apply]: a usage error, or the options. *)
Definition apply (o : options) (c : Z) (val : list Z) : list Z + options :=
  let '(Options f1 f2 t u1 u2 s1 s2 i z fs e) := o in
  let invalid_field := inl (str! "invalid field number: '" ++ val ++ str! "'") in
  let '(n, ok) := parsePositive val in
  if c =? ch! "1" then if ok then inr (Options (n - 1) f2 t u1 u2 s1 s2 i z fs e) else invalid_field
  else if c =? ch! "2" then if ok then inr (Options f1 (n - 1) t u1 u2 s1 s2 i z fs e) else invalid_field
  else if c =? ch! "j" then if ok then inr (Options (n - 1) (n - 1) t u1 u2 s1 s2 i z fs e) else invalid_field
  else if (c =? ch! "a") || (c =? ch! "v") then
    let v := c =? ch! "v" in
    if str_eqb val (str! "1") then inr (Options f1 f2 t true u2 (s1 || v) s2 i z fs e)
    else if str_eqb val (str! "2") then inr (Options f1 f2 t u1 true s1 (s2 || v) i z fs e)
    else inl (str! "invalid file number: '" ++ val ++ str! "'")
  else if c =? ch! "t" then
    match val with
    | [] => inr (Options f1 f2 tabWholeLine u1 u2 s1 s2 i z fs e)
    | _ =>
        if str_eqb val (str! "\0") then inr (Options f1 f2 0 u1 u2 s1 s2 i z fs e)
        else match val with
             | [b] => inr (Options f1 f2 b u1 u2 s1 s2 i z fs e)
             | _ => inl (str! "multi-character tab '" ++ val ++ str! "'")
             end
    end
  else if c =? ch! "o" then inr (Options f1 f2 t u1 u2 s1 s2 i z (fs ++ [val]) e)
  else if c =? ch! "e" then inr (Options f1 f2 t u1 u2 s1 s2 i z fs val)
  else inr o.

(** How a cluster of options ends: by itself, with an option that has a
    value, in the cluster or still to come, or with a letter that is none. *)
Inductive cluster :=
| ClusterDone (o : options) (rest : list (list Z))
| ClusterValue (o : options) (rest : list (list Z)) (c : Z) (val : list Z)
| ClusterPending (o : options) (rest : list (list Z)) (c : Z)
| ClusterUnknown (c : Z).

Definition takes_value (c : Z) : bool := existsb (Z.eqb c) (str! "12javtoe").

Fixpoint read_cluster (o : options) (rest : list (list Z)) (body : list Z) : cluster :=
  match body with
  | [] => ClusterDone o rest
  | c :: body' =>
      if (c =? ch! "h") || (c =? ch! "V") then read_cluster o (rest ++ [[ch! "-"; c]]) body'
      else if c =? ch! "i" then
        read_cluster (Options (field1 o) (field2 o) (tab o) (printU1 o) (printU2 o) (suppressed1 o) (suppressed2 o) true
                        (zeroTerminated o) (formats o) (empty o)) rest body'
      else if c =? ch! "z" then
        read_cluster (Options (field1 o) (field2 o) (tab o) (printU1 o) (printU2 o) (suppressed1 o) (suppressed2 o) (ignoreCase o)
                        true (formats o) (empty o)) rest body'
      else if takes_value c then
        match body' with
        | [] => ClusterPending o rest c
        | _ => ClusterValue o rest c body'
        end
      else ClusterUnknown c
  end.

(** A diagnostic with its status. *)
Record result := Result { status : Z; stdout : list Z; stderr : list Z }.

Definition UsageError (msg : list Z) : result :=
  Result 2 [] (str! "join: " ++ msg ++ [10] ++ str! "Try 'join --help' for more information." ++ [10]).

Definition contractErr (msg : list Z) : result :=
  Result 2 [] (str! "join: " ++ msg ++ [10] ++
    str! "join: not every GNU flag is implemented in pure-Go coreutils — see 'join --help' for the supported subset" ++ [10]).

Section command.
Context (TrimSpace Quote : list Z -> list Z).

Fixpoint preparse (o : options) (rest args : list (list Z)) : result + options * list (list Z) :=
  match args with
  | [] => inr (o, rest)
  | a :: args' =>
      if str_eqb a (str! "--") then inr (o, rest ++ args)
      else if (len a <? 2) || negb (has_prefix a (str! "-")) then inr (o, rest ++ args)
      else if has_prefix a (str! "--") then preparse o (rest ++ [a]) args'
      else
        match read_cluster o rest (drop 1 a) with
        | ClusterDone o rest => preparse o rest args'
        | ClusterValue o rest c val =>
            match apply o c val with
            | inl msg => inl (UsageError msg)
            | inr o => preparse o rest args'
            end
        | ClusterPending o rest c =>
            match args' with
            | [] => inl (UsageError (str! "option requires an argument -- '" ++ [c] ++ str! "'"))
            | val :: args'' =>
                match apply o c val with
                | inl msg => inl (UsageError msg)
                | inr o => preparse o rest args''
                end
            end
        | ClusterUnknown c =>
            inl (contractErr (str! "unknown shorthand flag: " ++ Quote (string_of_byte c) ++ str! " in -" ++ drop 1 a))
        end
  end.

(** ** Formats *)

Record spec := Spec { s_file : Z; s_field : Z }.

Definition parse_spec (p : list Z) : list Z + spec :=
  let invalid := inl (str! "invalid field specification: " ++ Quote p) in
  if str_eqb p (str! "0") then inr (Spec 0 0)
  else
    match index_byte p (ch! ".") with
    | None => invalid
    | Some i =>
        let fileText := take i p in
        let '(field, fieldOK) := parsePositive (drop (S i) p) in
        if negb fieldOK then invalid
        else if str_eqb fileText (str! "1") then inr (Spec 1 (field - 1))
        else if str_eqb fileText (str! "2") then inr (Spec 2 (field - 1))
        else invalid
    end.

Fixpoint parse_specs (parts : list (list Z)) : list Z + list spec :=
  match parts with
  | [] => inr []
  | p :: parts' =>
      let p := TrimSpace p in
      if str_eqb p [] then parse_specs parts'
      else match parse_spec p with
           | inl e => inl e
           | inr s =>
               match parse_specs parts' with
               | inl e => inl e
               | inr ss => inr (s :: ss)
               end
           end
  end.

(** Blanks and tabs separate like commas. *)
Definition format_parts (s : list Z) : list (list Z) :=
  split_byte (ch! ",") ((fun c => if is_blank c then ch! "," else c) <$> s).

Definition parseFormats (formats : list (list Z)) : list Z + list spec := parse_specs (mjoin (format_parts <$> formats)).

(** ** Fields *)

(** The loop of the default mode: runs of what is not blank. [word] is the
    field being read. *)
Fixpoint blank_fields (word : list Z) (s : list Z) : list (list Z) :=
  let close := match word with [] => [] | _ => [word] end in
  match s with
  | [] => close
  | c :: s' => if is_blank c then close ++ blank_fields [] s' else blank_fields (word ++ [c]) s'
  end.

Definition splitFields (tab : Z) (line : list Z) : list (list Z) :=
  if tab =? tabWholeLine then [line]
  else if 0 <=? tab then split_byte tab line
  else blank_fields [] line.

Definition fieldAt (fields : list (list Z)) (idx : Z) : outcome (list Z) :=
  if idx <? len fields then index fields idx else Ret [].

Fixpoint other_from (i : Z) (fields : list (list Z)) (idx : Z) : list (list Z) :=
  match fields with
  | [] => []
  | f :: fields' => if i =? idx then other_from (i + 1) fields' idx else f :: other_from (i + 1) fields' idx
  end.

Definition otherFields (fields : list (list Z)) (idx : Z) : list (list Z) := other_from 0 fields idx.

Definition or_empty (e v : list Z) : list Z := match v with [] => e | _ => v end.

Definition selectedField (fields : list (list Z)) (idx : Z) (e : list Z) : list Z :=
  if (0 <=? idx) && (idx <? len fields) then or_empty e (nth (Z.to_nat idx) fields []) else e.

Definition not_nil {A} (l : list A) : bool := match l with [] => false | _ => true end.

Definition own_fields (flds : list (list Z)) (field : Z) : outcome (list (list Z)) :=
  let! k := fieldAt flds field in Ret (k :: otherFields flds field).

Definition buildOutput (flds1 flds2 : list (list Z)) (field1 field2 : Z) (e : list Z) (specs : list spec) (isPaired : bool)
  : outcome (list (list Z)) :=
  match specs with
  | [] =>
      if isPaired then
        let! r := own_fields flds1 field1 in Ret (r ++ otherFields flds2 field2)
      else if not_nil flds1 then own_fields flds1 field1
      else if not_nil flds2 then own_fields flds2 field2
      else Ret []
  | _ =>
      let! joinVal :=
        if not_nil flds1 then fieldAt flds1 field1
        else if not_nil flds2 then fieldAt flds2 field2
        else Ret [] in
      Ret ((fun sp =>
        if s_file sp =? 0 then or_empty e joinVal
        else if s_file sp =? 1 then if not_nil flds1 then selectedField flds1 (s_field sp) e else e
        else if s_file sp =? 2 then if not_nil flds2 then selectedField flds2 (s_field sp) e else e
        else []) <$> specs)
  end.

(** ** Keys *)

Definition upperByte (c : Z) : Z := if (ch! "a" <=? c) && (c <=? ch! "z") then c - (ch! "a" - ch! "A") else c.

(** How keys are compared: under -i with the table of LC_CTYPE or the letters
    of ASCII, by the collation, or by bytes. *)
Inductive comparison_mode :=
| ByFold (table : option (Z -> Z))
| ByCollator (c : list Z -> list Z -> list Z + Z)
| ByBytes.

Definition foldByte (table : option (Z -> Z)) (c : Z) : Z := match table with Some t => t c | None => upperByte c end.

Fixpoint fold_compare (table : option (Z -> Z)) (a b : list Z) : Z :=
  match a, b with
  | [], [] => 0
  | [], _ => -1
  | _, [] => 1
  | x :: a', y :: b' =>
      let ca := foldByte table x in
      let cb := foldByte table y in
      if ca <? cb then -1 else if cb <? ca then 1 else fold_compare table a' b'
  end.

(** [compareKeys] with the adapter's error: after the first all keys are
    equal. *)
Definition compareKeys (m : comparison_mode) (err : option (list Z)) (a b : list Z) : Z * option (list Z) :=
  match m with
  | ByFold table => (fold_compare table a b, err)
  | ByBytes => (Compare a b, err)
  | ByCollator c =>
      match err with
      | Some e => (0, Some e)
      | None => match c a b with inl e => (0, Some e) | inr d => (d, None) end
      end
  end.

(** ** The walk *)

Record fileState := FileState {
  name : list Z;
  lines : list (list Z);
  field : Z;
  pos : Z;
  checked : Z;
  warned : bool;
}.

Record group := Group { key : list Z; start : Z; g_end : Z }.

Record state := State {
  first : fileState;
  second : fileState;
  seenUnpairable : bool;
  orderError : bool;
  collErr : option (list Z);
  staged : list Z;
  errs : list Z;
}.

Definition get (file : Z) (st : state) : fileState := if file =? 1 then first st else second st.

Definition set_file (file : Z) (st : state) (f : fileState) : state :=
  State (if file =? 1 then f else first st) (if file =? 1 then second st else f) (seenUnpairable st) (orderError st)
    (collErr st) (staged st) (errs st).

Definition set_collErr (st : state) (e : option (list Z)) : state :=
  State (first st) (second st) (seenUnpairable st) (orderError st) e (staged st) (errs st).

Definition set_orderError (st : state) : state :=
  State (first st) (second st) (seenUnpairable st) true (collErr st) (staged st) (errs st).

Definition add_err (st : state) (e : list Z) : state :=
  State (first st) (second st) (seenUnpairable st) (orderError st) (collErr st) (staged st) (errs st ++ e).

Definition set_unpairable (st : state) : state :=
  State (first st) (second st) true (orderError st) (collErr st) (staged st) (errs st).

Context (m : comparison_mode) (f : flags) (o : options) (specs : list spec).

Definition keyOf (fs : fileState) (i : Z) : outcome (list Z) :=
  let! l := index (lines fs) i in fieldAt (splitFields (tab o) l) (field fs).

Definition not_sorted (fs : fileState) (i : Z) : outcome (list Z) :=
  let! l := index (lines fs) i in
  Ret (str! "join: " ++ name fs ++ str! ":" ++ itoa (i + 1) ++ str! ": is not sorted: " ++ l ++ [10]).

(** One step of [touch]: the check of the line [checked], and whether to
    stop. *)
Definition check_line (file : Z) (st : state) : outcome (bool * state) :=
  let fs := get file st in
  if nocheckOrder f then Ret (false, st)
  else
    let! a := keyOf fs (checked fs - 1) in
    let! b := keyOf fs (checked fs) in
    let '(d, e) := compareKeys m (collErr st) a b in
    let st := set_collErr st e in
    if 0 <? d then
      if checkOrder f then
        let! msg := not_sorted fs (checked fs) in Ret (true, set_orderError (add_err st msg))
      else if seenUnpairable st && negb (warned fs) then
        let! msg := not_sorted fs (checked fs) in
        Ret (false, set_file file (add_err st msg) (FileState (name fs) (lines fs) (field fs) (pos fs) (checked fs) true))
      else Ret (false, st)
    else Ret (false, st).

Fixpoint touch (fuel : nat) (file : Z) (i : Z) (st : state) : outcome state :=
  match fuel with
  | O => OutOfFuel
  | S fuel =>
      let fs := get file st in
      if checked fs <? i then
        let st := set_file file st (FileState (name fs) (lines fs) (field fs) (pos fs) (checked fs + 1) (warned fs)) in
        let! (stop, st) := check_line file st in
        if stop then Ret st else touch fuel file i st
      else Ret st
  end.

Definition touch_line (file i : Z) (st : state) : outcome state := touch (S (Z.to_nat (i - checked (get file st)))) file i st.

(** The lines from [i] on with the key of the group; [None] at a disorder
    under --check-order. *)
Fixpoint group_lines (fuel : nat) (file : Z) (k : list Z) (i : Z) (st : state) : outcome (option Z * state) :=
  match fuel with
  | O => OutOfFuel
  | S fuel =>
      if i <? len (lines (get file st)) then
        let! st := touch_line file i st in
        if orderError st then Ret (None, st)
        else
          let! ki := keyOf (get file st) i in
          let '(d, e) := compareKeys m (collErr st) ki k in
          let st := set_collErr st e in
          if negb (d =? 0) then Ret (Some i, st) else group_lines fuel file k (i + 1) st
      else Ret (Some i, st)
  end.

Definition nextGroup (file : Z) (st : state) : outcome (option group * state) :=
  let fs := get file st in
  if len (lines fs) <=? pos fs then Ret (None, st)
  else
    let! k := keyOf fs (pos fs) in
    let! st := touch_line file (pos fs) st in
    if orderError st then Ret (None, st)
    else
      let! (i, st) := group_lines (S (length (lines fs))) file k (pos fs + 1) st in
      match i with
      | None => Ret (None, st)
      | Some i =>
          let fs' := get file st in
          Ret (Some (Group k (pos fs) i), set_file file st (FileState (name fs') (lines fs') (field fs') i (checked fs') (warned fs')))
      end.

(** ** Output *)

Definition osep : list Z := if 0 <=? tab o then [tab o] else str! " ".
Definition lineTerm : list Z := if zeroTerminated o then [0] else [10].

Definition emit (st : state) (parts : list (list Z)) : state :=
  State (first st) (second st) (seenUnpairable st) (orderError st) (collErr st) (staged st ++ join osep parts ++ lineTerm) (errs st).

Definition unpaired_parts (file : Z) (flds : list (list Z)) : outcome (list (list Z)) :=
  if file =? 1 then buildOutput flds [] (field1 o) 0 (empty o) specs false
  else buildOutput [] flds 0 (field2 o) (empty o) specs false.

Definition paired_parts (flds1 flds2 : list (list Z)) : outcome (list (list Z)) :=
  buildOutput flds1 flds2 (field1 o) (field2 o) (empty o) specs true.

Fixpoint emit_all {A} (parts : A -> outcome (list (list Z))) (l : list A) (st : state) : outcome state :=
  match l with
  | [] => Ret st
  | x :: l' => let! p := parts x in emit_all parts l' (emit st p)
  end.

Definition emitUnpaired (file : Z) (g : group) (st : state) : outcome state :=
  let st := set_unpairable st in
  if negb (if file =? 1 then printU1 o else printU2 o) then Ret st
  else
    let! ls := slice (lines (get file st)) (start g) (g_end g) in
    emit_all (fun l => unpaired_parts file (splitFields (tab o) l)) ls st.

(** The lines of the two groups, each with each. *)
Definition emitPairs (g1 g2 : group) (st : state) : outcome state :=
  if suppressed1 o || suppressed2 o then Ret st
  else
    let! ls1 := slice (lines (first st)) (start g1) (g_end g1) in
    let! ls2 := slice (lines (second st)) (start g2) (g_end g2) in
    emit_all (fun p => paired_parts (splitFields (tab o) p.1) (splitFields (tab o) p.2)) (mjoin ((fun l1 => (fun l2 => (l1, l2)) <$> ls2) <$> ls1)) st.

(** ** The loops

    They stop when the order is wrong under --check-order. *)

Inductive step_result :=
| Stopped (st : state)
| Finished (st : state).

Fixpoint rest_groups (fuel : nat) (file : Z) (g : option group) (st : state) : outcome step_result :=
  match fuel with
  | O => OutOfFuel
  | S fuel' =>
      match g with
      | None => Ret (Finished st)
      | Some g =>
          let! st := emitUnpaired file g st in
          let! (g, st) := nextGroup file st in
          if orderError st then Ret (Stopped st) else rest_groups fuel' file g st
      end
  end.

Fixpoint join_loop (fuel : nat) (g1 g2 : option group) (st : state) : outcome step_result :=
  match fuel with
  | O => OutOfFuel
  | S fuel' =>
      match g1, g2 with
      | Some a, Some b =>
          let '(d, e) := compareKeys m (collErr st) (key a) (key b) in
          let st := set_collErr st e in
          if d <? 0 then
            let! st := emitUnpaired 1 a st in
            let! (g1, st) := nextGroup 1 st in
            if orderError st then Ret (Stopped st) else join_loop fuel' g1 g2 st
          else if 0 <? d then
            let! st := emitUnpaired 2 b st in
            let! (g2, st) := nextGroup 2 st in
            if orderError st then Ret (Stopped st) else join_loop fuel' g1 g2 st
          else
            let! st := emitPairs a b st in
            let! (g1, st) := nextGroup 1 st in
            let! (g2, st) := nextGroup 2 st in
            if orderError st then Ret (Stopped st) else join_loop fuel' g1 g2 st
      | _, _ =>
          let! r := rest_groups fuel 1 g1 st in
          match r with
          | Stopped st => Ret (Stopped st)
          | Finished st => rest_groups fuel 2 g2 st
          end
      end
  end.

(** ** The command *)

(** --header: the fields of the first line, which is taken off the file. *)
Definition pop_header (fs : fileState) : list (list Z) * fileState :=
  match lines fs with
  | [] => ([], fs)
  | l :: ls => (splitFields (tab o) l, FileState (name fs) ls (field fs) (pos fs) (checked fs) (warned fs))
  end.

Definition emit_header (st : state) : outcome state :=
  if negb (header f) then Ret st
  else
    let '(h1, fs1) := pop_header (first st) in
    let '(h2, fs2) := pop_header (second st) in
    let st := set_file 2 (set_file 1 st fs1) fs2 in
    if not_nil h1 && not_nil h2 then let! p := paired_parts h1 h2 in Ret (emit st p)
    else if not_nil h1 then
      if printU1 o then let! p := unpaired_parts 1 h1 in Ret (emit st p) else Ret st
    else if not_nil h2 then
      if printU2 o then let! p := unpaired_parts 2 h2 in Ret (emit st p) else Ret st
    else Ret st.

Definition initial (name1 name2 : list Z) (ls1 ls2 : list (list Z)) : state :=
  State (FileState name1 ls1 (field1 o) 0 0 false) (FileState name2 ls2 (field2 o) 0 0 false) false false None [] [].

Definition loop_fuel (st : state) : nat := S (length (lines (first st)) + length (lines (second st))).

(** After the loops; [close] is the error of closing the collation. *)
Definition finish (close : option (list Z)) (st : state) : result :=
  let failed msg e := Result 1 [] (errs st ++ str! "join: LC_COLLATE " ++ msg ++ str! " failed: " ++ e ++ [10]) in
  match collErr st, close with
  | Some e, _ => failed (str! "comparison") e
  | None, Some e => failed (str! "close") e
  | None, None =>
      if warned (first st) || warned (second st)
      then Result 1 (staged st) (errs st ++ str! "join: input is not in sorted order" ++ [10])
      else Result 0 (staged st) (errs st)
  end.

(** The staged output is dropped. *)
Definition order_failed (st : state) : result := Result 1 [] (errs st).

Definition join_files (close : option (list Z)) (name1 name2 : list Z) (ls1 ls2 : list (list Z)) : outcome result :=
  let! st := emit_header (initial name1 name2 ls1 ls2) in
  let! (g1, st) := nextGroup 1 st in
  let! (g2, st) := nextGroup 2 st in
  if orderError st then Ret (order_failed st)
  else
    let! r := join_loop (loop_fuel st) g1 g2 st in
    match r with
    | Stopped st => Ret (order_failed st)
    | Finished st => Ret (finish close st)
    end.
End command.

(** The provider of LC_CTYPE: [ToUpper] of one byte, and [Close]. *)
Record ctypeProvider := CtypeProvider { ToUpper : Z -> list Z + list Z; c_Close : option (list Z) }.

Fixpoint fold_error (p : ctypeProvider) (bytes : list Z) : option (list Z) :=
  match bytes with
  | [] => None
  | c :: bytes' => match ToUpper p c with inl e => Some e | inr _ => fold_error p bytes' end
  end.

Definition snapshotFoldTable (p : ctypeProvider) : list Z + (Z -> Z) :=
  match fold_error p Uniq.Uniq.all_bytes with
  | Some e => inl e
  | None => inr (fun c => match ToUpper p c with inr [u] => u | _ => c end)
  end.

Record world := World {
  w_env : list (list Z);
  w_stdin : list Z + list Z;
  w_readfile : list Z -> list Z + list Z;
  (** LC_COLLATE when it is not C or POSIX, and what opening it gives. *)
  w_collate : option (list Z * (list Z + collator));
  w_ctype : list Z -> list Z + ctypeProvider;
}.

Definition locale_failed (cat name e : list Z) : result := Result 2 [] (str! "join: " ++ cat ++ str! "=" ++ name ++ str! ": " ++ e ++ [10]).

(** The comparison of keys, and the error of closing the collation. *)
Definition open_locale (w : world) (ignoreCase : bool) : result + comparison_mode * option (list Z) :=
  if negb ignoreCase then
    match w_collate w with
    | None => inr (ByBytes, None)
    | Some (name, inl e) => inl (locale_failed (str! "LC_COLLATE") name e)
    | Some (name, inr c) => inr (ByCollator (Compare_ c), Close c)
    end
  else
    let name := Uniq.Uniq.Resolve (w_env w) (str! "LC_CTYPE") in
    if str_eqb name (str! "C") || str_eqb name (str! "POSIX") then inr (ByFold None, None)
    else
      match w_ctype w name with
      | inl e => inl (locale_failed (str! "LC_CTYPE") name e)
      | inr p =>
          match snapshotFoldTable p, c_Close p with
          | inl e, _ => inl (locale_failed (str! "LC_CTYPE") name e)
          | inr _, Some e => inl (locale_failed (str! "LC_CTYPE") name e)
          | inr t, None => inr (ByFold (Some t), None)
          end
      end.

Definition readLines (w : world) (operand : list Z) (zero : bool) : list Z + list (list Z) :=
  match (if str_eqb operand (str! "-") then w_stdin w else w_readfile w operand) with
  | inl e => inl e
  | inr data => inr (Uniq.Uniq.split_lines (if zero then 0 else 10) data)
  end.

Definition read_failed (op e : list Z) : result := Result 1 [] (str! "join: " ++ op ++ str! ": " ++ e ++ [10]).

(** [parse] is [ParseRequireOrder]: a result of its own, or the flags and the
    operands. *)
Definition runWithProviders (TrimSpace Quote : list Z -> list Z) (parse : list (list Z) -> result + flags * list (list Z))
  (w : world) (args : list (list Z)) : outcome result :=
  match preparse Quote no_options [] args with
  | inl r => Ret r
  | inr (o, rest) =>
      match parse rest with
      | inl r => Ret r
      | inr (f, operands) =>
          let o := Options (field1 o) (field2 o) (tab o) (printU1 o) (printU2 o) (suppressed1 o) (suppressed2 o)
                     (ignoreCase o || f_ignoreCase f) (zeroTerminated o || f_zeroTerminated f) (formats o) (empty o) in
          match operands with
          | [] => Ret (UsageError (str! "missing operand"))
          | [op] => Ret (UsageError (str! "missing operand after '" ++ op ++ str! "'"))
          | _ :: _ :: op :: _ => Ret (UsageError (str! "extra operand '" ++ op ++ str! "'"))
          | [op1; op2] =>
              if str_eqb op1 (str! "-") && str_eqb op2 (str! "-")
              then Ret (UsageError (str! "both files cannot be standard input"))
              else
                match parseFormats TrimSpace Quote (formats o) with
                | inl e => Ret (UsageError e)
                | inr specs =>
                    match open_locale w (ignoreCase o) with
                    | inl r => Ret r
                    | inr (m, close) =>
                        match readLines w op1 (zeroTerminated o) with
                        | inl e => Ret (read_failed op1 e)
                        | inr ls1 =>
                            match readLines w op2 (zeroTerminated o) with
                            | inl e => Ret (read_failed op2 e)
                            | inr ls2 => join_files m f o specs close op1 op2 ls1 ls2
                            end
                        end
                    end
                end
          end
      end
  end.
End Join.
