(* ===== verification/JoinCorrect.v ===== *)
(** * join: what is written

    For files in order by their join fields the walk over groups writes the
    relational join of their lines ([join_relational]); the numbers of fields
    that the options accept are never negative, so no line makes it index out
    of range ([preparse_fields]). *)

From Stdlib Require Import ZArith Lia String.
From stdpp Require Import base tactics list numbers strings sorting.
From S2P Require Import Prelude SortOrder SortParallel CommCorrect Uniq Join.

Open Scope Z_scope.
Open Scope go_scope.

Module JoinCorrect.
Import Join.Join.

(** ** Fields *)

Lemma fieldAt_returns fields idx : 0 <= idx -> fieldAt fields idx = Ret (nth (Z.to_nat idx) fields []).
Proof.
  intros Hi. unfold fieldAt, len. destruct (Z.ltb_spec idx (Z.of_nat (length fields))) as [L|L].
  - apply index_Ret. split; [done|]. rewrite nth_lookup.
    destruct (fields !! Z.to_nat idx) eqn:E; [done|]. apply lookup_ge_None in E. lia.
  - by rewrite nth_overflow by lia.
Qed.

Lemma own_fields_returns flds fld : 0 <= fld -> exists r, own_fields flds fld = Ret r.
Proof. intros H. unfold own_fields. rewrite fieldAt_returns by done. by eexists. Qed.

Lemma buildOutput_returns flds1 flds2 field1 field2 e specs isPaired :
  0 <= field1 -> 0 <= field2 -> exists r, buildOutput flds1 flds2 field1 field2 e specs isPaired = Ret r.
Proof.
  intros H1 H2. unfold buildOutput. destruct specs as [|sp specs].
  - destruct isPaired.
    + destruct (own_fields_returns flds1 field1 H1) as [r ->]. by eexists.
    + destruct (not_nil flds1); [by apply own_fields_returns|]. destruct (not_nil flds2); [by apply own_fields_returns|]. by eexists.
  - destruct (not_nil flds1); [|destruct (not_nil flds2)]; rewrite ?fieldAt_returns by done; by eexists.
Qed.

(** ** Lists in order *)

Lemma sorted_lookup {A} (R : A -> A -> Prop) l i j a b :
  StronglySorted R l -> (i < j)%nat -> l !! i = Some a -> l !! j = Some b -> R a b.
Proof.
  intros S. revert i j; induction S as [|x l S IH F]; intros i j Hij Ha Hb; [done|]. destruct j as [|j]; [lia|]. cbn in Hb.
  destruct i as [|i]; cbn in Ha; [|apply (IH i j); done || lia]. injection Ha as <-. rewrite Forall_forall in F.
  apply F, list_elem_of_lookup. eauto.
Qed.

(** The elements before the first that fails a test, and the others. *)
Fixpoint span {A} (p : A -> bool) (l : list A) : list A * list A :=
  match l with
  | [] => ([], [])
  | x :: l' => if p x then let '(a, b) := span p l' in (x :: a, b) else ([], l)
  end.

Lemma span_spec {A} (p : A -> bool) l :
  let '(a, b) := span p l in
  l = a ++ b /\ Forall (fun x => p x = true) a /\ match b with [] => True | x :: _ => p x = false end.
Proof.
  induction l as [|x l IH]; [done|]. cbn. destruct (p x) eqn:E; [|done]. destruct (span p l) as [a b].
  destruct IH as (-> & H1 & H2). split_and!; [done|by constructor|done].
Qed.

(** ** Nested loops *)

Section nested.
Context {A B : Type} (M : A -> B -> bool).

(** Each element of [l1] with the elements of [l2] it matches. *)
Definition nested (l1 : list A) (l2 : list B) : list (A * B) := mjoin ((fun a => (fun b => (a, b)) <$> List.filter (M a) l2) <$> l1).

Definition alone1 (l1 : list A) (l2 : list B) : list A := List.filter (fun a => negb (existsb (M a) l2)) l1.
Definition alone2 (l1 : list A) (l2 : list B) : list B := List.filter (fun b => negb (existsb (fun a => M a b) l1)) l2.

Definition disjoint (l1 : list A) (l2 : list B) : Prop := forall a b, a ∈ l1 -> b ∈ l2 -> M a b = false.

Lemma filter_all {C} (p : C -> bool) l : (forall x, x ∈ l -> p x = true) -> List.filter p l = l.
Proof using Type. induction l as [|x l IH]; intros H; [done|]. cbn. rewrite H by left. f_equal. apply IH. intros y Hy. apply H. by right. Qed.

Lemma filter_none {C} (p : C -> bool) l : (forall x, x ∈ l -> p x = false) -> List.filter p l = [].
Proof using Type. induction l as [|x l IH]; intros H; [done|]. cbn. rewrite H by left. apply IH. intros y Hy. apply H. by right. Qed.

Lemma filter_agree {C} (p q : C -> bool) l : (forall x, x ∈ l -> p x = q x) -> List.filter p l = List.filter q l.
Proof using Type.
  induction l as [|x l IH]; intros H; [done|]. cbn. rewrite H by left. rewrite IH; [done|]. intros y Hy. apply H. by right.
Qed.

Lemma existsb_none {C} (p : C -> bool) l : (forall x, x ∈ l -> p x = false) -> existsb p l = false.
Proof using Type. induction l as [|x l IH]; intros H; [done|]. cbn. rewrite H by left. apply IH. intros y Hy. apply H. by right. Qed.

Lemma existsb_some {C} (p : C -> bool) l x : x ∈ l -> p x = true -> existsb p l = true.
Proof using Type. intros Hx Hp. apply existsb_exists. exists x. split; [by apply list_elem_of_In|done]. Qed.

Lemma nested_app g r l : nested (g ++ r) l = nested g l ++ nested r l.
Proof using Type. unfold nested. by rewrite fmap_app, join_app. Qed.

(** Lists that match nothing drop out on either side. *)
Lemma nested_disjoint g l : disjoint g l -> nested g l = [].
Proof using Type.
  intros H. unfold nested. induction g as [|a g IH]; [done|]. rewrite fmap_cons. change (mjoin (?x :: ?y)) with (x ++ mjoin y).
  rewrite IH by (intros x y Hx; apply H; by right). rewrite filter_none; [done|]. intros b Hb. apply H; [left|done].
Qed.

Lemma nested_skip r g l : disjoint r g -> nested r (g ++ l) = nested r l.
Proof using Type.
  intros H. unfold nested. f_equal. apply list_fmap_ext. intros i a Ha%list_elem_of_lookup_2. f_equal. rewrite List.filter_app, filter_none; [done|].
  intros b Hb. by apply H.
Qed.

Lemma nested_product g h l :
  (forall a b, a ∈ g -> b ∈ h -> M a b = true) -> disjoint g l -> nested g (h ++ l) = mjoin ((fun a => (fun b => (a, b)) <$> h) <$> g).
Proof using Type.
  intros H D. unfold nested. f_equal. apply list_fmap_ext. intros i a Ha%list_elem_of_lookup_2. f_equal.
  rewrite List.filter_app, filter_all, filter_none by auto. apply app_nil_r.
Qed.

Lemma alone1_app g r l : alone1 (g ++ r) l = alone1 g l ++ alone1 r l.
Proof using Type. apply List.filter_app. Qed.

Lemma alone1_disjoint g l : disjoint g l -> alone1 g l = g.
Proof using Type. intros H. apply filter_all. intros a Ha. rewrite existsb_none; [done|]. intros b Hb. by apply H. Qed.

Lemma alone1_matched g h l : (forall a b, a ∈ g -> b ∈ h -> M a b = true) -> h <> [] -> alone1 g (h ++ l) = [].
Proof using Type.
  intros H Hh. destruct h as [|b h]; [done|]. apply filter_none. intros a Ha. rewrite (existsb_some _ _ b); [done|by left|]. apply H; [done|left].
Qed.

Lemma alone1_skip r g l : disjoint r g -> alone1 r (g ++ l) = alone1 r l.
Proof using Type.
  intros H. apply filter_agree. intros a Ha. rewrite existsb_app, existsb_none; [done|]. intros b Hb. by apply H.
Qed.
End nested.

(** The two sides are symmetric. *)
Lemma alone2_alone1 {A B} (M : A -> B -> bool) l1 l2 : alone2 M l1 l2 = alone1 (fun b a => M a b) l2 l1.
Proof. done. Qed.

Lemma disjoint_sym {A B} (M : A -> B -> bool) l1 l2 : disjoint M l1 l2 -> disjoint (fun b a => M a b) l2 l1.
Proof. intros H b a Hb Ha. by apply H. Qed.

Section walk.
Context (m : comparison_mode) (cmp : list Z -> list Z -> Z) (f : flags) (o : options) (specs : list spec).
Context (Hm : forall a b, compareKeys m None a b = (cmp a b, None)).

(** The join field of a line. *)
Definition line_key (fld : Z) (l : list Z) : list Z := nth (Z.to_nat fld) (splitFields (tab o) l) [].

Abbreviation by_key fld := (fun a b => cmp (line_key fld a) (line_key fld b)).

(** A file whose lines are in order and of which [r] is left. *)
Record holds (fs : fileState) (r : list (list Z)) : Prop := {
  h_field : 0 <= field fs;
  h_pos : 0 <= pos fs <= len (lines fs);
  h_rest : drop (Z.to_nat (pos fs)) (lines fs) = r;
  h_checked : checked fs = Z.max 0 (Z.min (pos fs) (len (lines fs) - 1));
  h_warned : warned fs = false;
  h_order : in_order (by_key (field fs)) (lines fs);
}.

Definition calm (st : state) : Prop := orderError st = false /\ collErr st = None /\ errs st = [].

Lemma keyOf_returns fs i l : 0 <= field fs -> index (lines fs) i = Ret l -> keyOf o fs i = Ret (line_key (field fs) l).
Proof using Type. intros Hf Hi. unfold keyOf. rewrite Hi. cbn [bind]. by rewrite fieldAt_returns. Qed.

Lemma index_returns (ls : list (list Z)) i : 0 <= i < len ls -> exists l, index ls i = Ret l /\ ls !! Z.to_nat i = Some l.
Proof using Type.
  intros H. destruct (lookup_lt_is_Some_2 ls (Z.to_nat i)) as [l Hl]; [unfold len in H; lia|]. exists l. split; [|done]. apply index_Ret. split; [lia|done].
Qed.

(** A line that is in order passes the check. *)
Lemma check_line_passes file st :
  calm st -> let fs := get file st in
  0 <= field fs -> 0 < checked fs < len (lines fs) -> in_order (by_key (field fs)) (lines fs) ->
  check_line m f o file st = Ret (false, st).
Proof using Hm.
  intros (_ & Hc & _). cbv zeta. set (fs := get file st). intros Hf Hr Ho. unfold check_line. fold fs.
  destruct (nocheckOrder f); [done|].
  destruct (index_returns (lines fs) (checked fs - 1)) as (a & Ea & La); [lia|].
  destruct (index_returns (lines fs) (checked fs)) as (b & Eb & Lb); [lia|].
  rewrite (keyOf_returns fs _ a Hf Ea), (keyOf_returns fs _ b Hf Eb). cbn [bind]. rewrite Hc, Hm.
  assert (cmp (line_key (field fs) a) (line_key (field fs) b) <= 0).
  { refine (sorted_lookup _ _ _ _ a b Ho _ La Lb). lia. }
  destruct (Z.ltb_spec 0 (cmp (line_key (field fs) a) (line_key (field fs) b))); [lia|].
  destruct st; cbn in *. by rewrite Hc.
Qed.

(** ** Groups *)

Definition at_pos (fs : fileState) (p c : Z) : fileState := FileState (name fs) (lines fs) (field fs) p c (warned fs).

Lemma get_set file st fs : get file (set_file file st fs) = fs.
Proof using Type. unfold get, set_file. by destruct (file =? 1). Qed.

Lemma set_set file st a b : set_file file (set_file file st a) b = set_file file st b.
Proof using Type. unfold set_file. by destruct (file =? 1). Qed.

Lemma set_get file st : set_file file st (get file st) = st.
Proof using Type. unfold set_file, get. by destruct st, (file =? 1). Qed.

Lemma set_calm file st fs : calm st -> calm (set_file file st fs).
Proof using Type. done. Qed.

Lemma touch_past file i st : i <= checked (get file st) -> touch_line m f o file i st = Ret st.
Proof using Type. intros H. unfold touch_line. cbn [touch]. destruct (Z.ltb_spec (checked (get file st)) i); [lia|done]. Qed.

Lemma touch_next file i st :
  let fs := get file st in
  calm st -> 0 <= field fs -> in_order (by_key (field fs)) (lines fs) -> checked fs = i - 1 -> 1 <= i < len (lines fs) ->
  touch_line m f o file i st = Ret (set_file file st (at_pos fs (pos fs) i)).
Proof using Hm.
  cbv zeta. intros Hc Hf Ho Hk Hi. unfold touch_line. rewrite Hk. replace (Z.to_nat (i - (i - 1))) with 1%nat by lia.
  cbn [touch]. rewrite Hk. destruct (Z.ltb_spec (i - 1) i); [|lia]. replace (i - 1 + 1) with i by lia.
  rewrite (check_line_passes file) by (rewrite ?get_set; cbn; done || lia). cbn [bind]. rewrite get_set. cbn [checked].
  destruct (Z.ltb_spec i i); [lia|]. done.
Qed.

Lemma drop_index (ls : list (list Z)) i y ys : 0 <= i -> drop (Z.to_nat i) ls = y :: ys -> index ls i = Ret y /\ drop (Z.to_nat (i + 1)) ls = ys /\ i < len ls.
Proof using Type.
  intros Hi Hd. assert (Hl : ls !! Z.to_nat i = Some y) by (rewrite <- (Nat.add_0_r (Z.to_nat i)), <- lookup_drop, Hd; done).
  split_and!; [by apply index_Ret| |apply lookup_lt_Some in Hl; unfold len; lia].
  replace (Z.to_nat (i + 1)) with (Z.to_nat i + 1)%nat by lia. by rewrite <- drop_drop, Hd.
Qed.

Definition in_group (fld : Z) (k : list Z) (l : list Z) : bool := cmp (line_key fld l) k =? 0.

Lemma group_lines_spec file k fuel st i ys :
  let fs := get file st in
  let a := (span (in_group (field fs) k) ys).1 in
  calm st -> 0 <= field fs -> in_order (by_key (field fs)) (lines fs) -> 1 <= i <= len (lines fs) -> checked fs = i - 1 ->
  drop (Z.to_nat i) (lines fs) = ys -> (length ys < fuel)%nat ->
  group_lines m f o fuel file k i st =
  Ret (Some (i + len a), set_file file st (at_pos fs (pos fs) (Z.min (i + len a) (len (lines fs) - 1)))).
Proof using Hm.
  cbv zeta. revert st i ys; induction fuel as [|fuel IH]; intros st i ys Hc Hf Ho Hi Hk Hd Hl; [lia|]. cbn [group_lines].
  set (fs := get file st) in *. destruct ys as [|y ys].
  - assert (i = len (lines fs)).
    { assert (length (drop (Z.to_nat i) (lines fs)) = 0%nat) as E by (by rewrite Hd). rewrite length_drop in E. unfold len in *. lia. }
    destruct (Z.ltb_spec i (len (lines fs))); [lia|]. cbn [span fst]. change (len (@nil (list Z))) with 0. rewrite Z.add_0_r.
    replace (at_pos fs (pos fs) _) with fs; [by rewrite set_get|]. unfold at_pos. destruct fs; cbn in *. f_equal. lia.
  - destruct (drop_index (lines fs) i y ys ltac:(lia) Hd) as (Hy & Hd' & Hlt). destruct (Z.ltb_spec i (len (lines fs))); [|lia].
    rewrite (touch_next file i st Hc Hf Ho Hk ltac:(fold fs; lia)). fold fs. cbn [bind]. pose proof Hc as (Hoe & Hce & _).
    change (orderError (set_file file st (at_pos fs (pos fs) i))) with (orderError st). rewrite Hoe, get_set.
    rewrite (keyOf_returns _ i y) by done. cbn [bind]. change (collErr (set_file file st (at_pos fs (pos fs) i))) with (collErr st). rewrite Hce, Hm.
    assert (Es : set_collErr (set_file file st (at_pos fs (pos fs) i)) None = set_file file st (at_pos fs (pos fs) i))
      by (unfold set_collErr, set_file; cbn; by rewrite Hce).
    rewrite Es. cbn [field at_pos span]. fold (in_group (field fs) k y). destruct (in_group (field fs) k y) eqn:Eg; cbn [negb].
    + rewrite (IH _ (i + 1) ys); rewrite ?get_set; cbn [at_pos field lines checked pos]; try done; [|lia..|cbn in Hl; lia].
      rewrite set_set. destruct (span (in_group (field fs) k) ys) as [a b]. cbn [fst]. rewrite len_cons.
      by replace (i + 1 + len a) with (i + (1 + len a)) by lia.
    + cbn [fst]. change (len (@nil (list Z))) with 0. rewrite Z.add_0_r. by rewrite Z.min_l by lia.
Qed.

Lemma nextGroup_end file st : holds (get file st) [] -> nextGroup m f o file st = Ret (None, st).
Proof using Type.
  intros H. unfold nextGroup. pose proof (h_rest _ _ H) as E. pose proof (h_pos _ _ H).
  assert (length (drop (Z.to_nat (pos (get file st))) (lines (get file st))) = 0%nat) as El by (by rewrite E). rewrite length_drop in El.
  destruct (Z.leb_spec (len (lines (get file st))) (pos (get file st))); [done|]. unfold len in *. lia.
Qed.

(** The group is the run of lines with the key of the first. *)
Lemma nextGroup_run file st x l :
  let fs := get file st in
  let '(a, b) := span (in_group (field fs) (line_key (field fs) x)) l in
  calm st -> holds fs (x :: l) ->
  exists g fs', nextGroup m f o file st = Ret (Some g, set_file file st fs') /\ holds fs' b /\
    lines fs' = lines fs /\ field fs' = field fs /\ name fs' = name fs /\
    key g = line_key (field fs) x /\ slice (lines fs) (start g) (g_end g) = Ret (x :: a).
Proof using Hm.
  cbv zeta. set (fs := get file st). destruct (span _ l) as [a b] eqn:Es. intros Hc [Hf Hp Hr Hk Hw Ho].
  pose proof (span_spec (in_group (field fs) (line_key (field fs) x)) l) as Hs. rewrite Es in Hs. destruct Hs as (El & _ & _).
  destruct (drop_index (lines fs) (pos fs) x l ltac:(lia) Hr) as (Hx & Hl & Hlt).
  assert (Hlen : len (lines fs) = pos fs + 1 + len a + len b).
  { rewrite <- (take_drop (Z.to_nat (pos fs)) (lines fs)), Hr, El. rewrite len_app, len_cons, len_app. unfold len. rewrite length_take. unfold len in *. lia. }
  pose proof (len_nonneg a). pose proof (len_nonneg b).
  unfold nextGroup. fold fs. destruct (Z.leb_spec (len (lines fs)) (pos fs)); [lia|].
  rewrite (keyOf_returns fs _ x Hf Hx). cbn [bind]. rewrite touch_past by (fold fs; lia). cbn [bind]. pose proof Hc as (-> & _ & _).
  rewrite (group_lines_spec file _ _ st (pos fs + 1) l Hc Hf Ho); [|fold fs; lia|fold fs; lia|done|].
  2:{ apply (f_equal length) in Hl. rewrite length_drop in Hl. lia. }
  fold fs. rewrite Es. cbn [bind fst]. rewrite get_set, set_set. eexists _, _. split; [done|]. cbn [at_pos lines field name key start g_end].
  split_and!; try done.
  - split; cbn [at_pos field pos lines checked warned]; try done; try lia.
    replace (Z.to_nat (pos fs + 1 + len a)) with (Z.to_nat (pos fs + 1) + length a)%nat by (unfold len; lia).
    by rewrite <- drop_drop, Hl, El, drop_app_length.
  - rewrite slice_Ret by lia. f_equal. unfold sub. rewrite Hr, El.
    replace (Z.to_nat (pos fs + 1 + len a - pos fs)) with (S (length a)) by (unfold len; lia). cbn. by rewrite take_app_length.
Qed.

(** ** Events *)

(** A line without a partner, or a pair. *)
Inductive event :=
| Only (file : Z) (l : list Z)
| Both (a b : list Z).

Definition shown (e : event) : bool :=
  match e with
  | Only file _ => if file =? 1 then printU1 o else printU2 o
  | Both _ _ => negb (suppressed1 o || suppressed2 o)
  end.

Definition parts_of (e : event) : outcome (list (list Z)) :=
  match e with
  | Only file l => unpaired_parts o specs file (splitFields (tab o) l)
  | Both a b => paired_parts o specs (splitFields (tab o) a) (splitFields (tab o) b)
  end.

(** The text of an event, and of those that are shown. *)
Definition text_of (e : event) (t : list Z) : Prop := exists p, parts_of e = Ret p /\ t = join (osep o) p ++ lineTerm o.

Definition written (ev : list event) (out : list Z) : Prop :=
  exists texts, Forall2 text_of (List.filter shown ev) texts /\ out = mjoin texts.

Lemma written_nil : written [] [].
Proof using Type. by exists []. Qed.

Lemma written_app e1 e2 o1 o2 : written e1 o1 -> written e2 o2 -> written (e1 ++ e2) (o1 ++ o2).
Proof using Type.
  intros (t1 & F1 & ->) (t2 & F2 & ->). exists (t1 ++ t2). rewrite List.filter_app, join_app. split; [by apply Forall2_app|done].
Qed.

Lemma written_hidden ev : Forall (fun e => shown e = false) ev -> written ev [].
Proof using Type. intros H. exists []. split; [|done]. induction H as [|e ev He _ IH]; [constructor|]. cbn. by rewrite He. Qed.

Definition with_staged (st : state) (s : list Z) : state :=
  State (first st) (second st) (seenUnpairable st) (orderError st) (collErr st) s (errs st).

Context (Hf1 : 0 <= field1 o) (Hf2 : 0 <= field2 o).

Lemma parts_of_returns e : exists p, parts_of e = Ret p.
Proof using Hf1 Hf2.
  destruct e; cbn; unfold unpaired_parts, paired_parts; [destruct (_ =? 1)|]; apply buildOutput_returns; done || lia.
Qed.

Lemma emit_all_written {A} (E : A -> event) l st :
  (forall x, shown (E x) = true) ->
  exists out, emit_all o (fun x => parts_of (E x)) l st = Ret (with_staged st (staged st ++ out)) /\ written (E <$> l) out.
Proof using Hf1 Hf2.
  intros Hs. revert st; induction l as [|x l IH]; intros st.
  - exists []. rewrite app_nil_r. split; [by destruct st|apply written_nil].
  - destruct (parts_of_returns (E x)) as [p Hp]. cbn [emit_all]. rewrite Hp. cbn [bind]. destruct (IH (emit o st p)) as (out & -> & W).
    exists ((join (osep o) p ++ lineTerm o) ++ out). split.
    + unfold with_staged, emit. cbn. by rewrite <- !app_assoc.
    + rewrite fmap_cons. change (E x :: (E <$> l)) with ([E x] ++ (E <$> l)). apply written_app; [|done].
      exists [join (osep o) p ++ lineTerm o]. cbn. rewrite Hs, app_nil_r. split; [|done]. constructor; [by exists p|constructor].
Qed.

Lemma emitUnpaired_written file g st ls :
  (file = 1 \/ file = 2) -> slice (lines (get file st)) (start g) (g_end g) = Ret ls ->
  exists out, emitUnpaired o specs file g st = Ret (with_staged (set_unpairable st) (staged st ++ out)) /\ written (Only file <$> ls) out.
Proof using Hf1 Hf2.
  intros Hfile Hs. unfold emitUnpaired. destruct (if file =? 1 then printU1 o else printU2 o) eqn:E; cbn [negb].
  - change (get file (set_unpairable st)) with (get file st). rewrite Hs. cbn [bind].
    apply (emit_all_written (Only file) ls (set_unpairable st)). intros x. exact E.
  - exists []. rewrite app_nil_r. split; [by destruct st|]. apply written_hidden, Forall_fmap, Forall_forall. intros x _. exact E.
Qed.

Definition product (ls1 ls2 : list (list Z)) : list (list Z * list Z) := mjoin ((fun a => (fun b => (a, b)) <$> ls2) <$> ls1).

Definition both (p : list Z * list Z) : event := Both p.1 p.2.

Lemma emitPairs_written g1 g2 st ls1 ls2 :
  slice (lines (first st)) (start g1) (g_end g1) = Ret ls1 -> slice (lines (second st)) (start g2) (g_end g2) = Ret ls2 ->
  exists out, emitPairs o specs g1 g2 st = Ret (with_staged st (staged st ++ out)) /\ written (both <$> product ls1 ls2) out.
Proof using Hf1 Hf2.
  intros S1 S2. unfold emitPairs. destruct (suppressed1 o || suppressed2 o) eqn:E.
  - exists []. rewrite app_nil_r. split; [by destruct st|]. apply written_hidden, Forall_fmap, Forall_forall. intros x _. cbn. by rewrite E.
  - rewrite S1, S2. cbn [bind]. apply (emit_all_written both (product ls1 ls2) st). intros x. cbn. by rewrite E.
Qed.

(** ** The loops *)

Definition group_rest (fld : Z) (l : list (list Z)) : list (list Z) :=
  match l with [] => [] | x :: l' => (span (in_group fld (line_key fld x)) l').2 end.

Definition group_of (fld : Z) (l : list (list Z)) : list (list Z) :=
  match l with [] => [] | x :: l' => x :: (span (in_group fld (line_key fld x)) l').1 end.

(** The group [g] is the first of what is left of a file. *)
Definition ready (fs : fileState) (g : option group) (l : list (list Z)) : Prop :=
  holds fs (group_rest (field fs) l) /\
  match l with
  | [] => g = None
  | x :: _ => exists gr, g = Some gr /\ key gr = line_key (field fs) x /\ slice (lines fs) (start gr) (g_end gr) = Ret (group_of (field fs) l)
  end.

Lemma next_ready file st l :
  calm st -> holds (get file st) l ->
  exists g fs', nextGroup m f o file st = Ret (g, set_file file st fs') /\ ready fs' g l /\ field fs' = field (get file st) /\ lines fs' = lines (get file st).
Proof using Hm.
  clear Hf1 Hf2. intros Hc H. destruct l as [|x l].
  - exists None, (get file st). rewrite nextGroup_end, set_get by done. done.
  - pose proof (nextGroup_run file st x l) as N. cbv zeta in N. destruct (span _ l) as [a b] eqn:Es.
    destruct (N Hc H) as (g & fs' & E & Hh & El & Ef & _ & Ek & Esl). exists (Some g), fs'. split_and!; [done| |done..].
    unfold ready, group_rest, group_of. rewrite Ef, Es. split; [done|]. exists g. by rewrite El.
Qed.

Lemma group_split fld l : group_of fld l ++ group_rest fld l = l.
Proof using Type.
  destruct l as [|x l]; [done|]. unfold group_of, group_rest. pose proof (span_spec (in_group fld (line_key fld x)) l) as H.
  destruct (span _ l) as [a b]. destruct H as (-> & _). done.
Qed.

Lemma group_shorter fld x l : (length (group_rest fld (x :: l)) < length (x :: l))%nat.
Proof using Type. rewrite <- (group_split fld (x :: l)) at 2. rewrite length_app. cbn. lia. Qed.

(** From [st] to [st'] the events [ev] are written and nothing is reported. *)
Definition wrote (st st' : state) (ev : list event) : Prop :=
  calm st' /\ exists out, staged st' = staged st ++ out /\ written ev out.

Lemma wrote_refl st : calm st -> wrote st st [].
Proof using Type. intros H. split; [done|]. exists []. rewrite app_nil_r. split; [done|apply written_nil]. Qed.

Lemma wrote_trans s1 s2 s3 e1 e2 : wrote s1 s2 e1 -> wrote s2 s3 e2 -> wrote s1 s3 (e1 ++ e2).
Proof using Type.
  intros (_ & o1 & E1 & W1) (C & o2 & E2 & W2). split; [done|]. exists (o1 ++ o2). rewrite E2, E1, app_assoc. split; [done|by apply written_app].
Qed.

(** The group of a file without partner is written, and its next is read. *)
Lemma step_unpaired file g st x l :
  (file = 1 \/ file = 2) -> calm st -> ready (get file st) (Some g) (x :: l) ->
  let fld := field (get file st) in
  exists st1 g' fs', emitUnpaired o specs file g st = Ret st1 /\ nextGroup m f o file st1 = Ret (g', set_file file st1 fs') /\
    ready fs' g' (group_rest fld (x :: l)) /\ field fs' = fld /\ first st1 = first st /\ second st1 = second st /\
    wrote st (set_file file st1 fs') (Only file <$> group_of fld (x :: l)).
Proof using All.
  intros Hfile Hc [Hh (gr & [= <-] & _ & Hs)]. cbv zeta. destruct (emitUnpaired_written file g st _ Hfile Hs) as (out & -> & W).
  set (st1 := with_staged _ _). assert (Hg : get file st1 = get file st) by done.
  destruct (next_ready file st1 (group_rest (field (get file st)) (x :: l))) as (g' & fs' & E & R & Ef & _); [done..|].
  exists st1, g', fs'. split_and!; try done. split; [done|]. by exists out.
Qed.

Lemma rest_groups_written fuel file g st l :
  (file = 1 \/ file = 2) -> calm st -> ready (get file st) g l -> (length l < fuel)%nat ->
  exists st', rest_groups m f o specs fuel file g st = Ret (Finished st') /\ warned (get file st') = false /\
    (file = 1 -> second st' = second st) /\ (file = 2 -> first st' = first st) /\ wrote st st' (Only file <$> l).
Proof using All.
  intros Hfile. revert g st l; induction fuel as [|fuel IH]; intros g st l Hc R Hl; [lia|]. cbn [rest_groups]. destruct l as [|x l].
  - destruct R as [Hh ->]. exists st. split_and!; try done; [apply Hh|by apply wrote_refl].
  - pose proof R as [_ (gr & -> & _)]. destruct (step_unpaired file gr st x l Hfile Hc R) as (st1 & g' & fs' & -> & N & R' & Ef & F1 & F2 & Wr).
    cbn [bind]. rewrite N. cbn [bind]. pose proof Wr as [(Hoe & _) _]. rewrite Hoe.
    set (fld := field (get file st)) in *. pose proof (group_shorter fld x l).
    destruct (IH g' (set_file file st1 fs') (group_rest fld (x :: l))) as (st' & -> & W & S1 & S2 & Wr'); [by apply Wr|by rewrite get_set|lia|].
    exists st'. split_and!; try done.
    + intros E. by rewrite S1, E.
    + intros E. by rewrite S2, E.
    + rewrite <- (group_split fld (x :: l)), fmap_app. by eapply wrote_trans.
Qed.

(** The merge of two files, group by group. *)
Inductive merged (k1 k2 : Z) : list (list Z) -> list (list Z) -> list event -> Prop :=
| merged_first l1 : merged k1 k2 l1 [] (Only 1 <$> l1)
| merged_second l2 : merged k1 k2 [] l2 (Only 2 <$> l2)
| merged_lt x l1 y l2 ev :
    cmp (line_key k1 x) (line_key k2 y) < 0 -> merged k1 k2 (group_rest k1 (x :: l1)) (y :: l2) ev ->
    merged k1 k2 (x :: l1) (y :: l2) ((Only 1 <$> group_of k1 (x :: l1)) ++ ev)
| merged_gt x l1 y l2 ev :
    0 < cmp (line_key k1 x) (line_key k2 y) -> merged k1 k2 (x :: l1) (group_rest k2 (y :: l2)) ev ->
    merged k1 k2 (x :: l1) (y :: l2) ((Only 2 <$> group_of k2 (y :: l2)) ++ ev)
| merged_eq x l1 y l2 ev :
    cmp (line_key k1 x) (line_key k2 y) = 0 -> merged k1 k2 (group_rest k1 (x :: l1)) (group_rest k2 (y :: l2)) ev ->
    merged k1 k2 (x :: l1) (y :: l2) ((both <$> product (group_of k1 (x :: l1)) (group_of k2 (y :: l2))) ++ ev).

Lemma step_pairs g1 g2 st x l1 y l2 :
  let k1 := field (first st) in
  let k2 := field (second st) in
  calm st -> ready (first st) (Some g1) (x :: l1) -> ready (second st) (Some g2) (y :: l2) ->
  exists st1 g1' fs1 g2' fs2, emitPairs o specs g1 g2 st = Ret st1 /\
    nextGroup m f o 1 st1 = Ret (g1', set_file 1 st1 fs1) /\
    nextGroup m f o 2 (set_file 1 st1 fs1) = Ret (g2', set_file 2 (set_file 1 st1 fs1) fs2) /\
    ready fs1 g1' (group_rest k1 (x :: l1)) /\ ready fs2 g2' (group_rest k2 (y :: l2)) /\ field fs1 = k1 /\ field fs2 = k2 /\
    wrote st (set_file 2 (set_file 1 st1 fs1) fs2) (both <$> product (group_of k1 (x :: l1)) (group_of k2 (y :: l2))).
Proof using All.
  cbv zeta. intros Hc [H1 (gr1 & [= <-] & _ & S1)] [H2 (gr2 & [= <-] & _ & S2)].
  destruct (emitPairs_written g1 g2 st _ _ S1 S2) as (out & -> & W). set (st1 := with_staged _ _).
  destruct (next_ready 1 st1 _ Hc H1) as (g1' & fs1 & E1 & R1 & F1 & _).
  destruct (next_ready 2 (set_file 1 st1 fs1) _ Hc H2) as (g2' & fs2 & E2 & R2 & F2 & _).
  exists st1, g1', fs1, g2', fs2. split_and!; try done. split; [done|]. by exists out.
Qed.

Lemma join_loop_written fuel g1 g2 st l1 l2 :
  let k1 := field (first st) in
  let k2 := field (second st) in
  calm st -> ready (first st) g1 l1 -> ready (second st) g2 l2 -> (length l1 + length l2 < fuel)%nat ->
  exists st' ev, join_loop m f o specs fuel g1 g2 st = Ret (Finished st') /\ merged k1 k2 l1 l2 ev /\ wrote st st' ev /\
    warned (first st') = false /\ warned (second st') = false.
Proof using All.
  cbv zeta. revert g1 g2 st l1 l2; induction fuel as [|fuel IH]; intros g1 g2 st l1 l2 Hc R1 R2 Hl; [lia|].
  set (k1 := field (first st)). set (k2 := field (second st)).
  assert (Rest : (l1 = [] \/ l2 = []) -> exists st', (let! r := rest_groups m f o specs (S fuel) 1 g1 st in
      match r with Stopped st => Ret (Stopped st) | Finished st => rest_groups m f o specs (S fuel) 2 g2 st end) = Ret (Finished st') /\
      wrote st st' ((Only 1 <$> l1) ++ (Only 2 <$> l2)) /\ warned (first st') = false /\ warned (second st') = false).
  { intros _. destruct (rest_groups_written (S fuel) 1 g1 st l1) as (s1 & -> & W1 & S1 & _ & Wr1); [by left|done..|lia|]. cbn [bind].
    destruct (rest_groups_written (S fuel) 2 g2 s1 l2) as (s2 & -> & W2 & _ & S2 & Wr2); [by right|by apply Wr1| |lia|].
    - cbn. by rewrite S1.
    - exists s2. split_and!; [done|by eapply wrote_trans| |done]. rewrite S2 by done. done. }
  cbn [join_loop]. destruct l1 as [|x l1], l2 as [|y l2].
  - destruct Rest as (s & E & Wr & W1 & W2); [by left|]. pose proof R1 as [_ ->]. exists s, []. split_and!; try done. apply merged_first.
  - destruct Rest as (s & E & Wr & W1 & W2); [by left|]. pose proof R1 as [_ ->]. exists s, (Only 2 <$> y :: l2). split_and!; try done. apply merged_second.
  - destruct Rest as (s & E & Wr & W1 & W2); [by right|]. pose proof R1 as [_ (gr1 & -> & _)]. pose proof R2 as [_ ->].
    exists s, (Only 1 <$> x :: l1). rewrite app_nil_r in Wr. split_and!; try done. apply merged_first.
  - clear Rest. pose proof R1 as [_ (a & -> & Ka & _)]. pose proof R2 as [_ (b & -> & Kb & _)].
    pose proof Hc as (_ & Hce & _). rewrite Hce, Hm, Ka, Kb.
    assert (Es : set_collErr st None = st) by (destruct st; cbn in *; by rewrite Hce). rewrite Es. fold k1 k2.
    pose proof (group_shorter k1 x l1). pose proof (group_shorter k2 y l2). cbn [length] in *.
    destruct (Z.ltb_spec (cmp (line_key k1 x) (line_key k2 y)) 0) as [L|L]; [|destruct (Z.ltb_spec 0 (cmp (line_key k1 x) (line_key k2 y))) as [G|G]].
    + destruct (step_unpaired 1 a st x l1) as (st1 & g' & fs' & -> & N & R' & Ef & F1 & F2 & Wr); [by left|done..|].
      cbn [bind]. rewrite N. cbn [bind]. pose proof Wr as [(Hoe & _) _]. rewrite Hoe. change (field (get 1 st)) with k1 in *.
      destruct (IH g' (Some b) (set_file 1 st1 fs') (group_rest k1 (x :: l1)) (y :: l2)) as (s & ev & E & M & Wr' & W1 & W2);
        [apply Wr|done|cbn; by rewrite F2|cbn [length]; lia|].
      exists s, ((Only 1 <$> group_of k1 (x :: l1)) ++ ev). split_and!; try done; [|by eapply wrote_trans].
      apply merged_lt; [done|]. cbn in M. rewrite Ef, F2 in M. done.
    + destruct (step_unpaired 2 b st y l2) as (st1 & g' & fs' & -> & N & R' & Ef & F1 & F2 & Wr); [by right|done..|].
      cbn [bind]. rewrite N. cbn [bind]. pose proof Wr as [(Hoe & _) _]. rewrite Hoe. change (field (get 2 st)) with k2 in *.
      destruct (IH (Some a) g' (set_file 2 st1 fs') (x :: l1) (group_rest k2 (y :: l2))) as (s & ev & E & M & Wr' & W1 & W2);
        [apply Wr|cbn; by rewrite F1|done|cbn [length]; lia|].
      exists s, ((Only 2 <$> group_of k2 (y :: l2)) ++ ev). split_and!; try done; [|by eapply wrote_trans].
      apply merged_gt; [done|]. cbn in M. rewrite Ef, F1 in M. done.
    + destruct (step_pairs a b st x l1 y l2 Hc R1 R2) as (st1 & g1' & fs1 & g2' & fs2 & -> & N1 & N2 & R1' & R2' & E1 & E2 & Wr).
      cbn [bind]. rewrite N1. cbn [bind]. rewrite N2. cbn [bind]. pose proof Wr as [(Hoe & _) _]. rewrite Hoe.
      destruct (IH g1' g2' (set_file 2 (set_file 1 st1 fs1) fs2) (group_rest k1 (x :: l1)) (group_rest k2 (y :: l2)))
        as (s & ev & E & M & Wr' & W1 & W2); [apply Wr|done|done|lia|].
      eexists s, _. split_and!; [done| |by eapply wrote_trans|done..].
      apply merged_eq; [fold k1 k2; lia|]. cbn in M. rewrite E1, E2 in M. done.
Qed.

(** ** The relational join *)

Definition pairs_of (ev : list event) : list (list Z * list Z) := omap (fun e => match e with Both a b => Some (a, b) | Only _ _ => None end) ev.

Definition only_of (file : Z) (ev : list event) : list (list Z) :=
  omap (fun e => match e with Only n l => if n =? file then Some l else None | Both _ _ => None end) ev.

Definition event_key (k1 k2 : Z) (e : event) : list Z :=
  match e with Only n l => line_key (if n =? 1 then k1 else k2) l | Both a _ => line_key k1 a end.

Lemma pairs_both l : pairs_of (both <$> l) = l.
Proof using Type. unfold pairs_of. induction l as [|[a b] l IH]; [done|]. cbn. by rewrite IH. Qed.

Lemma pairs_only n l : pairs_of (Only n <$> l) = [].
Proof using Type. unfold pairs_of. induction l as [|a l IH]; [done|]. cbn. by rewrite IH. Qed.

Lemma only_only n k l : only_of k (Only n <$> l) = if n =? k then l else [].
Proof using Type. unfold only_of. induction l as [|a l IH]; cbn; [by destruct (n =? k)|]. destruct (n =? k); [|done]. by rewrite IH. Qed.

Lemma only_both n l : only_of n (both <$> l) = [].
Proof using Type. unfold only_of. induction l as [|a l IH]; [done|]. cbn. by rewrite IH. Qed.

Lemma pairs_app e1 e2 : pairs_of (e1 ++ e2) = pairs_of e1 ++ pairs_of e2.
Proof using Type. apply omap_app. Qed.

Lemma only_app n e1 e2 : only_of n (e1 ++ e2) = only_of n e1 ++ only_of n e2.
Proof using Type. apply omap_app. Qed.

Context `{!CmpOrder (fun _ => True) cmp}.

Lemma key_zero_sym a b : cmp a b = 0 -> cmp b a = 0.
Proof using CmpOrder0. by apply (cmp_zero_sym (fun _ => True) cmp). Qed.

Lemma key_trans a b c : cmp a b <= 0 -> cmp b c <= 0 -> cmp a c <= 0.
Proof using CmpOrder0. by apply (@cmp_trans _ (fun _ => True) cmp _). Qed.

Lemma key_flip a b : Z.sgn (cmp b a) = - Z.sgn (cmp a b).
Proof using CmpOrder0. by apply (@cmp_flip _ (fun _ => True) cmp _). Qed.

Lemma key_lt_trans a b c : cmp a b < 0 -> cmp b c <= 0 -> cmp a c < 0.
Proof using CmpOrder0.
  intros H1 H2. pose proof (key_trans a b c). pose proof (key_flip a c). pose proof (key_flip a b).
  destruct (decide (cmp a c = 0)) as [E|]; [|lia]. pose proof (key_trans b c a). lia.
Qed.

Lemma key_le_lt_trans a b c : cmp a b <= 0 -> cmp b c < 0 -> cmp a c < 0.
Proof using CmpOrder0.
  intros H1 H2. pose proof (key_trans a b c). pose proof (key_flip a c). pose proof (key_flip b c).
  destruct (decide (cmp a c = 0)) as [E|]; [|lia]. pose proof (key_trans c a b). lia.
Qed.

(** Of lines in order the group has the key of the first, and the lines after
    it have greater ones. *)
Lemma group_facts fld x l :
  in_order (by_key fld) (x :: l) ->
  (forall a, a ∈ group_of fld (x :: l) -> cmp (line_key fld a) (line_key fld x) = 0) /\
  (forall b, b ∈ group_rest fld (x :: l) -> cmp (line_key fld x) (line_key fld b) < 0) /\
  in_order (by_key fld) (group_rest fld (x :: l)).
Proof using CmpOrder0.
  intros S. unfold group_of, group_rest. pose proof (span_spec (in_group fld (line_key fld x)) l) as H.
  destruct (span _ l) as [a b]. destruct H as (-> & Ha & Hb). cbn [fst snd]. apply StronglySorted_cons in S as [F S].
  apply StronglySorted_app in S as (_ & _ & Sb). split_and!; [| |done].
  - intros y [->|Hy]%elem_of_cons; [by apply (cmp_refl (fun _ => True) cmp)|]. rewrite Forall_forall in Ha. by apply Z.eqb_eq, Ha.
  - destruct b as [|y b]; [by intros ? ?%elem_of_nil|]. apply Z.eqb_neq in Hb. rewrite Forall_app, Forall_cons in F. destruct F as (_ & Fy & Fb).
    assert (Hy : cmp (line_key fld x) (line_key fld y) < 0).
    { destruct (decide (cmp (line_key fld x) (line_key fld y) = 0)) as [E%key_zero_sym|]; [done|cbn in Fy; lia]. }
    apply StronglySorted_cons in Sb as [Gy _]. rewrite Forall_forall in Gy.
    intros z [->|Hz]%elem_of_cons; [done|]. eapply key_lt_trans; [exact Hy|]. by apply Gy.
Qed.

Definition matches (k1 k2 : Z) (a b : list Z) : bool := cmp (line_key k1 a) (line_key k2 b) =? 0.

(** Groups whose keys are apart do not match, and the lines after a group are
    past it. *)
Lemma lower_disjoint k1 k2 g l kx ky :
  (forall a, a ∈ g -> cmp (line_key k1 a) kx = 0) -> (forall b, b ∈ l -> cmp ky (line_key k2 b) <= 0) -> cmp kx ky < 0 ->
  disjoint (matches k1 k2) g l.
Proof using CmpOrder0.
  intros Hg Hl Hxy a b Ha Hb. apply Z.eqb_neq. specialize (Hg a Ha). specialize (Hl b Hb).
  pose proof (key_le_lt_trans (line_key k1 a) kx ky ltac:(lia) Hxy). pose proof (key_lt_trans (line_key k1 a) ky (line_key k2 b)). lia.
Qed.

Lemma higher_disjoint k1 k2 g l kx ky :
  (forall b, b ∈ g -> cmp (line_key k2 b) ky = 0) -> (forall a, a ∈ l -> cmp kx (line_key k1 a) <= 0) -> cmp ky kx < 0 ->
  disjoint (matches k1 k2) l g.
Proof using CmpOrder0.
  intros Hg Hl Hxy a b Ha Hb. apply Z.eqb_neq. specialize (Hg b Hb). specialize (Hl a Ha).
  pose proof (key_le_lt_trans (line_key k2 b) ky kx ltac:(lia) Hxy). pose proof (key_lt_trans (line_key k2 b) kx (line_key k1 a)).
  pose proof (key_flip (line_key k1 a) (line_key k2 b)). lia.
Qed.

Lemma in_order_head fld x l a : in_order (by_key fld) (x :: l) -> a ∈ x :: l -> cmp (line_key fld x) (line_key fld a) <= 0.
Proof using CmpOrder0.
  intros [F _]%StronglySorted_cons [->|H]%elem_of_cons; [by rewrite (cmp_refl (fun _ => True) cmp)|]. rewrite Forall_forall in F. by apply F.
Qed.

Lemma merged_relational k1 k2 l1 l2 ev :
  merged k1 k2 l1 l2 ev -> in_order (by_key k1) l1 -> in_order (by_key k2) l2 ->
  pairs_of ev = nested (matches k1 k2) l1 l2 /\ only_of 1 ev = alone1 (matches k1 k2) l1 l2 /\ only_of 2 ev = alone2 (matches k1 k2) l1 l2.
Proof using CmpOrder0.
  induction 1 as [l1|l2|x l1 y l2 ev L _ IH|x l1 y l2 ev G _ IH|x l1 y l2 ev E _ IH]; intros S1 S2.
  - rewrite pairs_only, !only_only, nested_disjoint, alone1_disjoint by (by intros ? ? _ ?%elem_of_nil). done.
  - rewrite pairs_only, !only_only, alone2_alone1, (alone1_disjoint _ l2 []) by (by intros ? ? _ ?%elem_of_nil). done.
  - destruct (group_facts k1 x l1 S1) as (T1 & _ & Sr). destruct (IH Sr S2) as (I1 & I2 & I3).
    assert (D : disjoint (matches k1 k2) (group_of k1 (x :: l1)) (y :: l2)).
    { apply (lower_disjoint k1 k2 _ _ (line_key k1 x) (line_key k2 y)); try done. intros b. by apply in_order_head. }
    rewrite pairs_app, !only_app, pairs_only, !only_only, I1, I2, I3. cbn [Z.eqb Pos.eqb app].
    pose proof (group_split k1 (x :: l1)) as Eg. set (g := group_of _ _) in *. set (r := group_rest _ _) in *. clearbody g r.
    rewrite <- Eg, nested_app, (nested_disjoint _ _ _ D), alone1_app, (alone1_disjoint _ _ _ D).
    by rewrite !alone2_alone1, alone1_skip by (by apply disjoint_sym).
  - destruct (group_facts k2 y l2 S2) as (T2 & _ & Sr). destruct (IH S1 Sr) as (I1 & I2 & I3).
    assert (D : disjoint (matches k1 k2) (x :: l1) (group_of k2 (y :: l2))).
    { apply (higher_disjoint k1 k2 _ _ (line_key k1 x) (line_key k2 y)); try done; [intros a; by apply in_order_head|].
      pose proof (key_flip (line_key k1 x) (line_key k2 y)). lia. }
    rewrite pairs_app, !only_app, pairs_only, !only_only, I1, I2, I3. cbn [Z.eqb Pos.eqb app].
    pose proof (group_split k2 (y :: l2)) as Eg. set (g := group_of _ _) in *. set (r := group_rest _ _) in *. clearbody g r.
    rewrite <- Eg, (nested_skip _ _ _ _ D), (alone1_skip _ _ _ _ D), !alone2_alone1, alone1_app, (alone1_disjoint _ _ _ (disjoint_sym _ _ _ D)). done.
  - destruct (group_facts k1 x l1 S1) as (T1 & U1 & Sr1). destruct (group_facts k2 y l2 S2) as (T2 & U2 & Sr2).
    destruct (IH Sr1 Sr2) as (I1 & I2 & I3). clear IH.
    assert (Mt : forall a b, a ∈ group_of k1 (x :: l1) -> b ∈ group_of k2 (y :: l2) -> matches k1 k2 a b = true).
    { intros a b Ha%T1 Hb%T2%key_zero_sym. apply Z.eqb_eq.
      apply (cmp_zero_trans (fun _ => True) cmp _ (line_key k2 y)); try done. by apply (cmp_zero_trans (fun _ => True) cmp _ (line_key k1 x)). }
    assert (D1 : disjoint (matches k1 k2) (group_of k1 (x :: l1)) (group_rest k2 (y :: l2))).
    { intros a b Ha%T1 Hb%U2. apply Z.eqb_neq. pose proof (key_le_lt_trans (line_key k1 a) (line_key k2 y) (line_key k2 b)) as K.
      pose proof (key_trans (line_key k1 a) (line_key k1 x) (line_key k2 y)). lia. }
    assert (D2 : disjoint (matches k1 k2) (group_rest k1 (x :: l1)) (group_of k2 (y :: l2))).
    { intros a b Ha%U1 Hb%T2. apply Z.eqb_neq. apply key_zero_sym in E. pose proof (key_trans (line_key k2 b) (line_key k2 y) (line_key k1 x)).
      pose proof (key_le_lt_trans (line_key k2 b) (line_key k1 x) (line_key k1 a)). pose proof (key_flip (line_key k1 a) (line_key k2 b)). lia. }
    assert (N1 : group_of k1 (x :: l1) <> []) by done. assert (N2 : group_of k2 (y :: l2) <> []) by done.
    pose proof (group_split k1 (x :: l1)) as Eg1. pose proof (group_split k2 (y :: l2)) as Eg2.
    set (g1 := group_of k1 _) in *. set (r1 := group_rest k1 _) in *. set (g2 := group_of k2 _) in *. set (r2 := group_rest k2 _) in *.
    clearbody g1 r1 g2 r2. rewrite pairs_app, !only_app, pairs_both, !only_both, I1, I2, I3, <- Eg1, <- Eg2. cbn [app].
    rewrite nested_app, (nested_product _ g1 g2 r2 Mt D1), (nested_skip _ r1 g2 r2 D2), alone1_app, (alone1_matched _ g1 g2 r2 Mt N2), (alone1_skip _ r1 g2 r2 D2).
    rewrite !alone2_alone1, alone1_app, (alone1_matched _ g2 g1 r1), (alone1_skip _ r2 g1 r1); [done|by apply disjoint_sym|intros b a Hb Ha; by apply Mt|done].
Qed.

(** *** The order of what is written *)

Lemma merged_keys k1 k2 l1 l2 ev (P : list Z -> Prop) :
  merged k1 k2 l1 l2 ev -> (forall a, a ∈ l1 -> P (line_key k1 a)) -> (forall b, b ∈ l2 -> P (line_key k2 b)) ->
  Forall P (event_key k1 k2 <$> ev).
Proof using Type.
  assert (Sub : forall fld l a, (a ∈ group_of fld l -> a ∈ l) /\ (a ∈ group_rest fld l -> a ∈ l)).
  { intros fld l a. rewrite <- (group_split fld l) at 2 4. rewrite elem_of_app. tauto. }
  assert (O1 : forall l, (forall a, a ∈ l -> P (line_key k1 a)) -> Forall P (event_key k1 k2 <$> (Only 1 <$> l))).
  { intros l H. rewrite !Forall_fmap, Forall_forall. exact H. }
  assert (O2 : forall l, (forall a, a ∈ l -> P (line_key k2 a)) -> Forall P (event_key k1 k2 <$> (Only 2 <$> l))).
  { intros l H. rewrite !Forall_fmap, Forall_forall. exact H. }
  induction 1 as [l1|l2|x l1 y l2 ev L _ IH|x l1 y l2 ev G _ IH|x l1 y l2 ev E _ IH]; intros H1 H2; [by auto..| | |];
    rewrite fmap_app, Forall_app; (split; [|apply IH; intros c Hc; first [apply H1, (Sub k1), Hc|apply H2, (Sub k2), Hc|by apply H1|by apply H2]]).
  - apply O1. intros a Ha. apply H1. exact (proj1 (Sub k1 (x :: l1) a) Ha).
  - apply O2. intros b Hb. apply H2. exact (proj1 (Sub k2 (y :: l2) b) Hb).
  - rewrite !Forall_fmap, Forall_forall. intros [a b] Hp. cbn. apply H1, (proj1 (Sub k1 (x :: l1) a)). unfold product in Hp.
    apply list_elem_of_join in Hp as (row & Hp & Hr). apply list_elem_of_fmap in Hr as (a' & -> & Ha'). by apply list_elem_of_fmap in Hp as (b' & [= -> ->] & _).
Qed.

Lemma tied_order kx ks : Forall (fun k => cmp k kx = 0) ks -> in_order cmp ks.
Proof using CmpOrder0.
  induction 1 as [|k ks Hk F IH]; constructor; [done|]. rewrite Forall_forall in F |- *. intros k' Hk'. specialize (F k' Hk').
  apply key_zero_sym in F. apply (key_trans _ kx); lia.
Qed.

(** Events with the key [kx], then events past it. *)
Lemma order_app k1 k2 kx e1 e2 :
  Forall (fun k => cmp k kx = 0) (event_key k1 k2 <$> e1) -> Forall (fun k => cmp kx k <= 0) (event_key k1 k2 <$> e2) ->
  in_order cmp (event_key k1 k2 <$> e2) -> in_order cmp (event_key k1 k2 <$> e1 ++ e2).
Proof using CmpOrder0.
  intros F1 F2 S. rewrite fmap_app. apply StronglySorted_app. split_and!; [|by apply (tied_order kx)|done].
  intros a b Ha Hb. rewrite Forall_forall in F1, F2. specialize (F1 a Ha). specialize (F2 b Hb). apply (key_trans _ kx); lia.
Qed.

Lemma only_order fld n l k1 k2 :
  fld = (if n =? 1 then k1 else k2) -> in_order (by_key fld) l -> in_order cmp (event_key k1 k2 <$> (Only n <$> l)).
Proof using Type.
  intros -> S. rewrite <- list_fmap_compose. unfold in_order in *. induction S as [|x l S IH F]; cbn; constructor; [done|].
  by apply Forall_fmap.
Qed.

Lemma merged_order k1 k2 l1 l2 ev :
  merged k1 k2 l1 l2 ev -> in_order (by_key k1) l1 -> in_order (by_key k2) l2 -> in_order cmp (event_key k1 k2 <$> ev).
Proof using CmpOrder0.
  induction 1 as [l1|l2|x l1 y l2 ev L Mg IH|x l1 y l2 ev G Mg IH|x l1 y l2 ev E Mg IH]; intros S1 S2; [by eapply only_order..| | |].
  - destruct (group_facts k1 x l1 S1) as (T1 & U1 & Sr). apply (order_app _ _ (line_key k1 x)); [| |by apply IH].
    + rewrite !Forall_fmap, Forall_forall. exact T1.
    + apply (merged_keys _ _ _ _ _ _ Mg); [intros a Ha%U1; lia|]. intros b Hb. pose proof (in_order_head k2 y l2 b S2 Hb).
      pose proof (key_lt_trans (line_key k1 x) (line_key k2 y) (line_key k2 b)). lia.
  - destruct (group_facts k2 y l2 S2) as (T2 & U2 & Sr). apply (order_app _ _ (line_key k2 y)); [| |by apply IH].
    + rewrite !Forall_fmap, Forall_forall. exact T2.
    + apply (merged_keys _ _ _ _ _ _ Mg); [|intros b Hb%U2; lia]. intros a Ha. pose proof (in_order_head k1 x l1 a S1 Ha).
      pose proof (key_flip (line_key k1 x) (line_key k2 y)). pose proof (key_lt_trans (line_key k2 y) (line_key k1 x) (line_key k1 a)). lia.
  - destruct (group_facts k1 x l1 S1) as (T1 & U1 & Sr1). destruct (group_facts k2 y l2 S2) as (T2 & U2 & Sr2).
    apply (order_app _ _ (line_key k1 x)); [| |by apply IH].
    + rewrite !Forall_fmap, Forall_forall. intros [a b] Hp. cbn. apply T1. apply list_elem_of_join in Hp as (row & Hp & Hr).
      apply list_elem_of_fmap in Hr as (a' & -> & Ha'). by apply list_elem_of_fmap in Hp as (b' & [= -> ->] & _).
    + apply (merged_keys _ _ _ _ _ _ Mg); [intros a Ha%U1; lia|]. intros b Hb%U2.
      pose proof (key_trans (line_key k1 x) (line_key k2 y) (line_key k2 b)). lia.
Qed.

(** ** The command *)

(** The lines after the header. *)
Definition body (ls : list (list Z)) : list (list Z) := if header f then drop 1 ls else ls.

Lemma emit_header_staged name1 name2 ls1 ls2 :
  exists h, emit_header f o specs (initial o name1 name2 ls1 ls2) = Ret (with_staged (initial o name1 name2 (body ls1) (body ls2)) h) /\
    (header f = false -> h = []).
Proof using Hf1 Hf2.
  unfold emit_header, body. destruct (header f); cbn [negb]; [|by exists []].
  assert (P : forall file flds, exists p, unpaired_parts o specs file flds = Ret p).
  { intros file flds. unfold unpaired_parts. destruct (file =? 1); apply buildOutput_returns; done || lia. }
  assert (Pop : forall name ls fld, (pop_header o (FileState name ls fld 0 0 false)).2 = FileState name (drop 1 ls) fld 0 0 false) by (by intros ? [] ?).
  destruct (pop_header o (first _)) as [h1 fs1] eqn:E1. destruct (pop_header o (second _)) as [h2 fs2] eqn:E2.
  pose proof (Pop name1 ls1 (field1 o)) as P1. pose proof (Pop name2 ls2 (field2 o)) as P2. cbn [initial first second] in E1, E2.
  rewrite E1 in P1. rewrite E2 in P2. cbn [snd] in P1, P2. subst fs1 fs2.
  destruct (not_nil h1 && not_nil h2).
  - destruct (buildOutput_returns h1 h2 (field1 o) (field2 o) (empty o) specs true Hf1 Hf2) as [p Hp].
    unfold paired_parts. rewrite Hp. cbn [bind]. by eexists.
  - destruct (not_nil h1); [destruct (printU1 o)|destruct (not_nil h2); [destruct (printU2 o)|]].
    all: try (destruct (P 1 h1) as [p ->]); try (destruct (P 2 h2) as [p' ->]); cbn [bind]; by eexists.
Qed.

Lemma initial_holds name1 ls fld : 0 <= fld -> in_order (by_key fld) ls -> holds (FileState name1 ls fld 0 0 false) ls.
Proof using Type. intros H S. split; cbn; try done; pose proof (len_nonneg ls); lia. Qed.

Lemma join_files_merged name1 name2 ls1 ls2 :
  in_order (by_key (field1 o)) (body ls1) -> in_order (by_key (field2 o)) (body ls2) ->
  exists h ev out, join_files m f o specs None name1 name2 ls1 ls2 = Ret (Result 0 (h ++ out) []) /\ (header f = false -> h = []) /\
    merged (field1 o) (field2 o) (body ls1) (body ls2) ev /\ written ev out.
Proof using Hm Hf1 Hf2.
  intros S1 S2. unfold join_files. destruct (emit_header_staged name1 name2 ls1 ls2) as (h & -> & Hh). cbn [bind]. exists h.
  set (st0 := with_staged _ h). assert (C0 : calm st0) by done.
  destruct (next_ready 1 st0 (body ls1) C0) as (g1 & fs1 & -> & R1 & F1 & L1); [by apply initial_holds|]. cbn [bind].
  destruct (next_ready 2 (set_file 1 st0 fs1) (body ls2) C0) as (g2 & fs2 & -> & R2 & F2 & L2); [by apply initial_holds|]. cbn [bind].
  set (st := set_file 2 (set_file 1 st0 fs1) fs2). change (orderError st) with false.
  assert (Hl : (length (body ls1) + length (body ls2) < loop_fuel st)%nat).
  { unfold loop_fuel. change (first st) with fs1. change (second st) with fs2. rewrite L1, L2. cbn. lia. }
  destruct (join_loop_written (loop_fuel st) g1 g2 st (body ls1) (body ls2)) as (st' & ev & -> & Mg & (C & out & Eo & W) & W1 & W2); [done..|].
  cbn [bind]. exists ev, out. change (field (first st)) with (field fs1) in Mg. change (field (second st)) with (field fs2) in Mg.
  rewrite F1, F2 in Mg. split_and!; try done. destruct C as (_ & Hce & He). unfold finish. by rewrite Hce, W1, W2, Eo, He.
Qed.
End walk.

(** ** The comparisons *)

Lemma fold_compare_map table a b : fold_compare table a b = Compare (foldByte table <$> a) (foldByte table <$> b).
Proof. revert b; induction a as [|x a IH]; intros [|y b]; try done. cbn. by rewrite IH. Qed.

Lemma fold_compare_order table : CmpOrder (fun _ => True) (fold_compare table).
Proof.
  apply (CmpOrder_ext _ (fun a b => Compare (foldByte table <$> a) (foldByte table <$> b))).
  - intros a b _ _. apply fold_compare_map.
  - apply (CmpOrder_pullback _ (fun _ => True)); [done|apply Compare_order].
Qed.

(** ** Field numbers *)

Lemma positive_from_range n over s n' over' :
  0 <= n <= maxInt -> positive_from n over s = Some (n', over') -> 0 <= n' <= maxInt.
Proof.
  revert n over; induction s as [|c s IH]; intros n over Hn; cbn; [by intros [= <- <-]|].
  destruct (is_digit c) eqn:Ed; cbn [negb]; [|done]. unfold is_digit in Ed. to_prop. destruct over; [by apply IH|].
  destruct (Z.ltb_spec ((maxInt - (c - 48)) / 10) n) as [L|L]; [by apply IH|]. apply IH.
  assert (n * 10 <= maxInt - (c - 48)) by (pose proof (Z.mul_div_le (maxInt - (c - 48)) 10 ltac:(lia)); lia). lia.
Qed.

Lemma parsePositive_range s n : parsePositive s = (n, true) -> 1 <= n <= maxInt.
Proof.
  unfold parsePositive. destruct s as [|c s]; [done|]. destruct (positive_from 0 false (c :: s)) as [[k over]|] eqn:E; [|done].
  apply positive_from_range in E; [|done]. destruct over; [by intros [= <-]|]. intros [= <- ?]. to_prop. lia.
Qed.

Definition fields_ok (o : options) : Prop := 0 <= field1 o < maxInt /\ 0 <= field2 o < maxInt.

Lemma apply_fields o c val o' : fields_ok o -> apply o c val = inr o' -> fields_ok o'.
Proof.
  destruct o as [f1 f2 t u1 u2 s1 s2 i z fs e]. intros Ho. unfold apply. destruct (parsePositive val) as [n ok] eqn:E.
  assert (Hn : ok = true -> 0 <= n - 1 < maxInt) by (intros ->; apply parsePositive_range in E; lia).
  unfold fields_ok in *. cbn in Ho.
  repeat case_match; intros Hr; simplify_eq; cbn; destruct Ho; split; first [done|by apply Hn].
Qed.

Lemma read_cluster_fields o rest body :
  fields_ok o ->
  match read_cluster o rest body with
  | ClusterDone o' _ | ClusterValue o' _ _ _ | ClusterPending o' _ _ => fields_ok o'
  | ClusterUnknown _ => True
  end.
Proof.
  revert o rest; induction body as [|c body IH]; intros o rest Ho; [done|]. cbn [read_cluster].
  destruct (_ || _); [by apply IH|]. destruct (c =? 105); [by apply IH|]. destruct (c =? 122); [by apply IH|].
  destruct (takes_value c); [by destruct body|done].
Qed.

(** The options never hold a negative field, so that no field is looked up
    out of range. *)
Lemma preparse_fields Quote o rest args o' rest' : fields_ok o -> preparse Quote o rest args = inr (o', rest') -> fields_ok o'.
Proof.
  revert o rest. induction args as [args IH] using (induction_ltof1 _ (@length (list Z))). unfold ltof in IH. intros o rest Ho.
  destruct args as [|a args]; cbn [preparse]; [by intros [= <- <-]|]. destruct (str_eqb a _); [by intros [= <- <-]|].
  destruct (_ || _); [by intros [= <- <-]|]. destruct (has_prefix a (str! "--")); [apply IH; [cbn; lia|done]|].
  pose proof (read_cluster_fields o rest (drop 1 a) Ho) as Hc. destruct (read_cluster o rest (drop 1 a)) as [o1 r1|o1 r1 c val|o1 r1 c|c].
  - apply IH; [cbn; lia|done].
  - destruct (apply o1 c val) eqn:E; [done|]. apply IH; [cbn; lia|by eapply apply_fields].
  - destruct args as [|val args]; [done|]. destruct (apply o1 c val) eqn:E; [done|]. apply IH; [cbn; lia|by eapply apply_fields].
  - done.
Qed.

(** [C13] join is the relational join: for files whose lines (after the header)
    are in order by their join fields, under any order of the keys, it exits
    with 0 and writes after the header the events of the join that the
    options select, in the order of their keys: each line of the first file
    with each line of the second that has the same key, as nested loops give
    them, and the lines of each file that no line of the other matches. *)
Theorem join_relational m cmp `{!CmpOrder (fun _ => True) cmp} f o specs name1 name2 ls1 ls2 :
  let k1 := line_key o (field1 o) in
  let k2 := line_key o (field2 o) in
  let l1 := body f ls1 in
  let l2 := body f ls2 in
  let same a b := cmp (k1 a) (k2 b) =? 0 in
  (forall a b, compareKeys m None a b = (cmp a b, None)) -> fields_ok o ->
  in_order (fun a b => cmp (k1 a) (k1 b)) l1 -> in_order (fun a b => cmp (k2 a) (k2 b)) l2 ->
  exists h ev out,
    join_files m f o specs None name1 name2 ls1 ls2 = Ret (Result 0 (h ++ out) []) /\ (header f = false -> h = []) /\
    written o specs ev out /\ in_order cmp (event_key o (field1 o) (field2 o) <$> ev) /\
    pairs_of ev = mjoin ((fun a => (fun b => (a, b)) <$> List.filter (same a) l2) <$> l1) /\
    only_of 1 ev = List.filter (fun a => negb (existsb (same a) l2)) l1 /\
    only_of 2 ev = List.filter (fun b => negb (existsb (fun a => same a b) l1)) l2.
Proof.
  cbv zeta. intros Hm [Hf1 Hf2] S1 S2.
  destruct (join_files_merged m cmp f o specs Hm (proj1 Hf1) (proj1 Hf2) name1 name2 ls1 ls2 S1 S2) as (h & ev & out & E & Hh & Mg & W).
  exists h, ev, out. destruct (merged_relational cmp o _ _ _ _ _ Mg S1 S2) as (P & O1 & O2).
  split_and!; try done. by eapply merged_order.
Qed.
End JoinCorrect.
