(* ===== verification/JoinTotal.v ===== *)
(** * join: it returns on every input

    Whatever the lines, their order, the options and the collation, the walk
    ends without indexing out of range ([join_returns]). *)

From Stdlib Require Import ZArith Lia String.
From stdpp Require Import base tactics list numbers strings sorting.
From S2P Require Import Prelude SortOrder Uniq Join JoinCorrect.

Open Scope Z_scope.
Open Scope go_scope.

Module JoinTotal.
Import Join.Join JoinCorrect.JoinCorrect.

Section walk.
Context (m : comparison_mode) (f : flags) (o : options) (specs : list spec).

(** A file whose position and checked line are in range, at [p] and [c]. *)
Definition located (fs : fileState) (p c : Z) (ls : list (list Z)) : Prop :=
  0 <= field fs /\ lines fs = ls /\ pos fs = p /\ checked fs = c.

Definition other (file : Z) (st : state) : fileState := if file =? 1 then second st else first st.

(** A step on one file keeps the other, and an order error stays. *)
Definition only_file (file : Z) (st st' : state) : Prop :=
  other file st' = other file st /\ (orderError st = true -> orderError st' = true).

Lemma only_file_trans file s1 s2 s3 : only_file file s1 s2 -> only_file file s2 s3 -> only_file file s1 s3.
Proof using Type. intros [E1 H1] [E2 H2]. split; [by rewrite E2|auto]. Qed.

Lemma only_file_set file st fs : only_file file st (set_file file st fs).
Proof using Type. split; [|done]. unfold other, set_file. by destruct (file =? 1). Qed.

Lemma keyOf_total fs i : 0 <= field fs -> 0 <= i < len (lines fs) -> exists k, keyOf o fs i = Ret k.
Proof using Type.
  intros Hf Hi. destruct (index_returns (lines fs) i Hi) as (l & El & _). eexists. by apply keyOf_returns.
Qed.

Lemma not_sorted_total fs i : 0 <= i < len (lines fs) -> exists t, not_sorted fs i = Ret t.
Proof using Type. intros Hi. unfold not_sorted. destruct (index_returns (lines fs) i Hi) as (l & -> & _). by eexists. Qed.

Lemma check_line_total file st p c ls :
  located (get file st) p c ls -> 0 < c < len ls ->
  exists stop st', check_line m f o file st = Ret (stop, st') /\ located (get file st') p c ls /\ only_file file st st' /\
    (stop = true -> orderError st' = true).
Proof using Type.
  intros (Hf & Hl & Hp & Hk) Hc. unfold check_line. destruct (nocheckOrder f); [by eexists _, _|].
  set (fs := get file st) in *. rewrite Hk.
  destruct (keyOf_total fs (c - 1)) as [a ->]; [done|rewrite Hl; lia|]. destruct (keyOf_total fs c) as [b ->]; [done|rewrite Hl; lia|]. cbn [bind].
  destruct (compareKeys m (collErr st) a b) as [d e].
  assert (Keep : forall s, get file s = fs -> other file s = other file st -> located (get file s) p c ls) by (by intros s -> _).
  destruct (0 <? d); [|eexists _, _; split_and!; [done|by apply Keep|done|done]].
  destruct (not_sorted_total fs c) as [t Ht]; [rewrite Hl; lia|].
  destruct (checkOrder f); [rewrite Ht; cbn [bind]; eexists _, _; split; [done|]; split_and!; [by apply Keep|by split|done]|].
  destruct (_ && _); [|eexists _, _; split_and!; [done|by apply Keep|done|done]].
  rewrite Ht. cbn [bind]. eexists _, _. split; [done|]. split_and!; [by rewrite get_set| |done].
  apply (only_file_trans _ _ (add_err (set_collErr st e) t)); [by split|apply only_file_set].
Qed.

(** Checking on to the next line. *)
Lemma touch_total file st p i ls :
  located (get file st) p (i - 1) ls -> 1 <= i < len ls ->
  exists st', touch_line m f o file i st = Ret st' /\ located (get file st') p i ls /\ only_file file st st'.
Proof using Type.
  intros (Hf & Hl & Hp & Hk) Hi. unfold touch_line. rewrite Hk. replace (Z.to_nat (i - (i - 1))) with 1%nat by lia.
  cbn [touch]. rewrite Hk. destruct (Z.ltb_spec (i - 1) i); [|lia]. replace (i - 1 + 1) with i by lia.
  set (st1 := set_file _ _ _). destruct (check_line_total file st1 p i ls) as (stop & st' & -> & L & O & Hs).
  - unfold st1. by rewrite get_set.
  - lia.
  - cbn [bind]. pose proof (only_file_trans _ _ _ _ (only_file_set _ _ _) O). destruct stop; [by exists st'|].
    pose proof L as (_ & _ & _ & ->). destruct (Z.ltb_spec i i); [lia|]. by exists st'.
Qed.

Lemma group_lines_total file k fuel st p i ls :
  located (get file st) p (i - 1) ls -> 1 <= i <= len ls -> len ls - i < Z.of_nat fuel ->
  exists r st', group_lines m f o fuel file k i st = Ret (r, st') /\ only_file file st st' /\
    match r with
    | None => orderError st' = true
    | Some i' => i <= i' <= len ls /\ located (get file st') p (Z.min i' (len ls - 1)) ls
    end.
Proof using Type.
  revert st i; induction fuel as [|fuel IH]; intros st i L Hi Hf; [lia|]. cbn [group_lines]. pose proof L as (_ & -> & _).
  destruct (Z.ltb_spec i (len ls)).
  - destruct (touch_total file st p i ls L) as (st1 & -> & L1 & O1); [lia|]. cbn [bind].
    destruct (orderError st1) eqn:Eo; [by eexists None, st1|].
    destruct (keyOf_total (get file st1) i) as [ki ->]; [apply L1|pose proof L1 as (_ & -> & _); lia|]. cbn [bind].
    destruct (compareKeys m (collErr st1) ki k) as [d e]. set (st2 := set_collErr st1 e).
    assert (L2 : located (get file st2) p i ls) by done. assert (O2 : only_file file st st2) by (by destruct O1; split).
    destruct (negb (d =? 0)).
    + exists (Some i), st2. split_and!; [done..|lia|lia|]. by rewrite Z.min_l by lia.
    + destruct (IH st2 (i + 1)) as (r & st' & -> & O & R); [by replace (i + 1 - 1) with i by lia|lia|lia|].
      exists r, st'. split_and!; [done|by eapply only_file_trans|]. destruct r; [|done]. destruct R. split; [lia|done].
  - exists (Some i), st. split_and!; [done..|lia|lia|]. by replace (Z.min i (len ls - 1)) with (i - 1) by lia.
Qed.

(** A file between two groups. *)
Definition ranged (fs : fileState) : Prop :=
  0 <= field fs /\ 0 <= pos fs <= len (lines fs) /\ checked fs = Z.max 0 (Z.min (pos fs) (len (lines fs) - 1)).

Definition left (fs : fileState) : Z := len (lines fs) - pos fs.

(** The next group is there, or the lines are at their end, unless the order
    is wrong. *)
Definition grouped (fs fs' : fileState) (g : option group) : Prop :=
  ranged fs' /\ lines fs' = lines fs /\
  match g with
  | None => left fs' = left fs
  | Some g => left fs' < left fs /\ exists ls, slice (lines fs') (start g) (g_end g) = Ret ls
  end.

Lemma nextGroup_total file st :
  ranged (get file st) ->
  exists g st', nextGroup m f o file st = Ret (g, st') /\ only_file file st st' /\
    (orderError st' = true \/ grouped (get file st) (get file st') g).
Proof using Type.
  intros (Hf & Hp & Hk). unfold nextGroup. set (fs := get file st) in *. pose proof (len_nonneg (lines fs)).
  destruct (Z.leb_spec (len (lines fs)) (pos fs)) as [Le|Lt]; [exists None, st; split_and!; [done..|]; by right|].
  destruct (keyOf_total fs (pos fs)) as [k ->]; [done|lia|]. cbn [bind]. rewrite touch_past by (fold fs; lia). cbn [bind].
  destruct (orderError st) eqn:Eo; [exists None, st; split_and!; [done..|]; by left|].
  destruct (group_lines_total file k (S (length (lines fs))) st (pos fs) (pos fs + 1) (lines fs)) as (r & st' & -> & O & R).
  - split_and!; [done..|]. fold fs. lia.
  - lia.
  - unfold len. lia.
  - cbn [bind]. destruct r as [i|]; [|exists None, st'; split_and!; [done..|]; by left].
    destruct R as (Hi & Hf' & El & Ep & Ec). eexists _, _. split; [done|].
    split; [eapply only_file_trans; [exact O|apply only_file_set]|]. right. rewrite get_set. unfold grouped, ranged, left.
    cbn [field lines pos checked start g_end]. rewrite El, Ec. split_and!; try done; try lia. eexists. apply slice_Ret; lia.
Qed.

Context (Hf1 : 0 <= field1 o) (Hf2 : 0 <= field2 o).

Lemma emitUnpaired_total file g st ls :
  (file = 1 \/ file = 2) -> slice (lines (get file st)) (start g) (g_end g) = Ret ls ->
  exists st', emitUnpaired o specs file g st = Ret st' /\ first st' = first st /\ second st' = second st /\ orderError st' = orderError st.
Proof using Hf1 Hf2.
  intros H1 H2. destruct (emitUnpaired_written o specs Hf1 Hf2 file g st ls H1 H2) as (out & -> & _). by eexists.
Qed.

(** The loops have fuel for a group per line. *)
Definition pending (fs : fileState) (g : option group) : Prop :=
  ranged fs /\ match g with None => True | Some g => exists ls, slice (lines fs) (start g) (g_end g) = Ret ls end.

Definition groups_left (fs : fileState) (g : option group) : Z := match g with None => 0 | Some _ => 1 + left fs end.

Lemma left_nonneg fs : ranged fs -> 0 <= left fs.
Proof using Type. intros (_ & H & _). unfold left. lia. Qed.

(** A step over a group of one file. *)
Lemma advance_total file st :
  ranged (get file st) ->
  exists g st', nextGroup m f o file st = Ret (g, st') /\ only_file file st st' /\
    (orderError st' = true \/
     pending (get file st') g /\ groups_left (get file st') g <= left (get file st) /\ lines (get file st') = lines (get file st)).
Proof using Type.
  intros R. pose proof (left_nonneg _ R). destruct (nextGroup_total file st R) as (g & st' & E & O & G). exists g, st'. split_and!; [done..|].
  destruct G as [G|(R' & El & G)]; [by left|right]. unfold pending, groups_left. destruct g as [g|]; [|by split_and!].
  destruct G as [L S]. split_and!; [done..|lia|done].
Qed.

Lemma rest_groups_total fuel file g st :
  (file = 1 \/ file = 2) -> pending (get file st) g -> groups_left (get file st) g < Z.of_nat fuel ->
  exists r, rest_groups m f o specs fuel file g st = Ret r /\
    match r with Stopped _ => True | Finished st' => other file st' = other file st end.
Proof using Hf1 Hf2.
  intros Hfile. revert g st; induction fuel as [|fuel IH]; intros g st [R S] Hl.
  - pose proof (left_nonneg _ R). unfold groups_left in Hl. destruct g; lia.
  - cbn [rest_groups]. destruct g as [g|]; [|by eexists]. destruct S as [ls S].
    destruct (emitUnpaired_total file g st ls Hfile S) as (st1 & -> & E1 & E2 & _). cbn [bind].
    assert (Eg : get file st1 = get file st) by (unfold get; by rewrite E1, E2).
    destruct (advance_total file st1) as (g' & st' & -> & [Ot _] & G); [by rewrite Eg|]. cbn [bind].
    destruct (orderError st') eqn:Eo; [by eexists|]. destruct G as [?|(P & L & _)]; [done|]. rewrite Eg in L.
    destruct (IH g' st' P) as (r & -> & Hr); [unfold groups_left at 1 in Hl; lia|]. exists r. split; [done|].
    destruct r; [done|]. rewrite Hr, Ot. unfold other. by rewrite E1, E2.
Qed.

Lemma join_loop_total fuel g1 g2 st :
  pending (first st) g1 -> pending (second st) g2 -> groups_left (first st) g1 + groups_left (second st) g2 < Z.of_nat fuel ->
  exists r, join_loop m f o specs fuel g1 g2 st = Ret r.
Proof using Hf1 Hf2.
  revert g1 g2 st; induction fuel as [|fuel IH]; intros g1 g2 st P1 P2 Hl.
  - pose proof (left_nonneg _ (proj1 P1)). pose proof (left_nonneg _ (proj1 P2)). unfold groups_left in Hl. destruct g1, g2; lia.
  - pose proof (left_nonneg _ (proj1 P1)) as N1. pose proof (left_nonneg _ (proj1 P2)) as N2.
    assert (Rest : exists r, (let! r := rest_groups m f o specs (S fuel) 1 g1 st in
      match r with Stopped st => Ret (Stopped st) | Finished st => rest_groups m f o specs (S fuel) 2 g2 st end) = Ret r).
    { destruct (rest_groups_total (S fuel) 1 g1 st) as (r & -> & Hr); [by left|done|unfold groups_left in *; cbn; destruct g1, g2; lia|].
      cbn [bind]. destruct r as [s|s]; [by eexists|]. cbn in Hr.
      destruct (rest_groups_total (S fuel) 2 g2 s) as (r & -> & _); [by right|cbn; by rewrite Hr| |by eexists].
      cbn. rewrite Hr. unfold groups_left in *. destruct g1, g2; lia. }
    cbn [join_loop]. destruct g1 as [a|], g2 as [b|]; [|done..]. clear Rest.
    destruct P1 as [R1 [ls1 S1]], P2 as [R2 [ls2 S2]]. destruct (compareKeys m (collErr st) (key a) (key b)) as [d e].
    set (st0 := set_collErr st e). cbn [groups_left] in Hl. destruct (d <? 0); [|destruct (0 <? d)].
    + destruct (emitUnpaired_total 1 a st0 ls1) as (st1 & -> & E1 & E2 & _); [by left|done|]. cbn [bind].
      destruct (advance_total 1 st1) as (g & st' & -> & [Ot _] & G); [cbn; by rewrite E1|]. cbn [bind]. cbn in Ot, G.
      destruct (orderError st'); [by eexists|]. destruct G as [?|(P & L & _)]; [done|]. rewrite E1 in L. rewrite E2 in Ot.
      apply IH; [done|rewrite Ot; split; [done|by eexists]|]. rewrite Ot. change (first st0) with (first st) in L. change (second st0) with (second st).
      cbn [groups_left]. lia.
    + destruct (emitUnpaired_total 2 b st0 ls2) as (st1 & -> & E1 & E2 & _); [by right|done|]. cbn [bind].
      destruct (advance_total 2 st1) as (g & st' & -> & [Ot _] & G); [cbn; by rewrite E2|]. cbn [bind]. cbn in Ot, G.
      destruct (orderError st'); [by eexists|]. destruct G as [?|(P & L & _)]; [done|]. rewrite E2 in L. rewrite E1 in Ot.
      apply IH; [rewrite Ot; split; [done|by eexists]|done|]. rewrite Ot. change (second st0) with (second st) in L. change (first st0) with (first st).
      cbn [groups_left]. lia.
    + destruct (emitPairs_written o specs Hf1 Hf2 a b st0 ls1 ls2 S1 S2) as (out & -> & _). cbn [bind]. set (st1 := with_staged _ _).
      destruct (advance_total 1 st1) as (g & s1 & -> & [O1 Oe] & G1); [done|]. cbn [bind]. cbn in O1, G1.
      destruct (advance_total 2 s1) as (g' & s2 & -> & [O2 Oe2] & G2); [cbn; by rewrite O1|]. cbn [bind]. cbn in O2, G2.
      destruct (orderError s2) eqn:Eo; [by eexists|]. destruct G2 as [?|(P2 & L2 & _)]; [done|]. destruct G1 as [G1|(P1 & L1 & _)]; [by specialize (Oe2 G1)|].
      rewrite O1 in L2. apply IH; [by rewrite O2|done|]. rewrite O2. cbn in L1, L2. lia.
Qed.
End walk.

(** [C36] join returns on every input: for any lines, sorted or not, any
    options that the command line can give, any comparison of keys, also one
    that fails, the command comes to an exit status; no field or line is
    looked up out of range. *)
Theorem join_returns m f o specs close name1 name2 ls1 ls2 :
  fields_ok o -> exists r, join_files m f o specs close name1 name2 ls1 ls2 = Ret r.
Proof.
  intros [[Hf1 _] [Hf2 _]]. unfold join_files. destruct (emit_header_staged f o specs Hf1 Hf2 name1 name2 ls1 ls2) as (h & -> & _). cbn [bind].
  set (st0 := with_staged _ h). assert (Start : forall n ls fld, 0 <= fld -> ranged (FileState n ls fld 0 0 false)).
  { intros n ls fld H. pose proof (len_nonneg ls). unfold ranged. cbn. lia. }
  destruct (advance_total m f o 1 st0) as (g1 & s1 & -> & [O1 Oe1] & G1); [by apply Start|]. cbn [bind]. cbn in O1.
  destruct (advance_total m f o 2 s1) as (g2 & s2 & -> & [O2 Oe2] & G2); [cbn; rewrite O1; by apply Start|]. cbn [bind]. cbn in O2.
  destruct (orderError s2) eqn:Eo; [by eexists|]. destruct G2 as [?|(P2 & L2 & E2)]; [done|]. destruct G1 as [G1|(P1 & L1 & E1)]; [by specialize (Oe2 G1)|].
  cbn in L1, L2, P1, P2, E1, E2. rewrite O1 in L2, E2.
  destruct (join_loop_total m f o specs Hf1 Hf2 (loop_fuel s2) g1 g2 s2) as [r ->]; [by rewrite O2|done| |cbn [bind]; destruct r; by eexists].
  rewrite O2. unfold loop_fuel. rewrite O2, E1, E2. unfold left, len in L1, L2. cbn in L1, L2 |- *. lia.
Qed.
End JoinTotal.
