(* ===== verification/TextWitness.v ===== *)
(** * comm, uniq and join: concrete runs, and where they depart from their documents *)

From Stdlib Require Import ZArith Lia String.
From stdpp Require Import base tactics gmultiset list numbers strings sorting.
From S2P Require Import Prelude SortOrder SortKey SortCompare SortFast SortMain SortCorrect SortCommand SortWitness Comm CommCorrect Uniq UniqCorrect Pipes Join JoinCorrect JoinTotal.

Open Scope Z_scope.
Open Scope go_scope.

Module TextWitness.
Import SortMain.SortMain SortCorrect.SortCorrect SortCommand.SortCommand SortWitness.SortWitness CommCorrect.CommCorrect Pipes.Pipes.

Definition lines_of (l : list (list Z)) : list Z := written false l.

Definition comm_flags (check : bool) : Comm.Comm.flags := Comm.Comm.Flags check false None false false.
Definition all_columns : Comm.Comm.columns := Comm.Comm.Columns false false false.
Definition comm_text (check : bool) (a b : list Z) : outcome Comm.Comm.result :=
  Comm.Comm.compare_files (fun a b => inr (Compare a b)) true all_columns (comm_flags check) (str! "x") (str! "y")
    (Comm.Comm.Reader a None) (Comm.Comm.Reader b None).

(** "a", "b", "b" and "b", "c". *)
Definition file1 : list Z := lines_of [str! "a"; str! "b"; str! "b"].
Definition file2 : list Z := lines_of [str! "b"; str! "c"].

Lemma comm_partitions_witness :
  exists ev, comm_text false file1 file2 = Ret (Comm.Comm.Result 0 (output all_columns (comm_flags false) ev) []) /\
    in_order Compare (snd <$> ev) /\
    forall x, True ->
      ties Compare x (in_column 1 ev) = drop (length (ties Compare x [str! "b"; str! "c"])) (ties Compare x [str! "a"; str! "b"; str! "b"]) /\
      ties Compare x (in_column 2 ev) = drop (length (ties Compare x [str! "a"; str! "b"; str! "b"])) (ties Compare x [str! "b"; str! "c"]) /\
      ties Compare x (in_column 3 ev) = take (length (ties Compare x [str! "b"; str! "c"])) (ties Compare x [str! "a"; str! "b"; str! "b"]).
Proof.
  refine (comm_partitions (fun _ => True) Compare true all_columns (comm_flags false) (str! "x") (str! "y") file1 file2 _ _ _ _).
  - repeat constructor.
  - repeat constructor.
  - apply in_order_by_test. vm_compute. reflexivity.
  - apply in_order_by_test. vm_compute. reflexivity.
Defined.

(** sort without options. *)
Definition plain_sorter : sorter := Sorter [] (-1) false false false false false false false None None 0 0.
Definition unsorted1 : list Z := lines_of [str! "b"; str! "a"; str! "b"].
Definition unsorted2 : list Z := lines_of [str! "c"; str! "b"].

Lemma sort_comm_witness :
  exists out1 out2 ev,
    sort_inputs (fun x => x) 4 rev_sort plain_sorter (world_of unsorted1) stdin_only [] = Ret (Result 0 out1 [] None) /\
    sort_inputs (fun x => x) 4 rev_sort plain_sorter (world_of unsorted2) stdin_only [] = Ret (Result 0 out2 [] None) /\
    comm_text false out1 out2 = Ret (Comm.Comm.Result 0 (output all_columns (comm_flags false) ev) []) /\
    in_order Compare (snd <$> ev) /\
    bag (in_column 1 ev) = bag [str! "b"; str! "a"; str! "b"] ∖ bag [str! "c"; str! "b"] /\
    bag (in_column 2 ev) = bag [str! "c"; str! "b"] ∖ bag [str! "b"; str! "a"; str! "b"] /\
    bag (in_column 3 ev) = bag [str! "b"; str! "a"; str! "b"] ∩ bag [str! "c"; str! "b"].
Proof.
  refine (sort_comm (fun x => x) 4 rev_sort (SortFunc0 := rev_sort_law) plain_sorter (world_of unsorted1) (world_of unsorted2)
    stdin_only stdin_only [unsorted1] [unsorted2] true all_columns (comm_flags false) (str! "x") (str! "y") _ eq_refl eq_refl eq_refl _ eq_refl _).
  - repeat split.
  - apply short_by_test. vm_compute. reflexivity.
  - apply short_by_test. vm_compute. reflexivity.
Defined.

Lemma sort_uniq_witness :
  exists out distinct,
    sort_inputs (fun x => x) 4 rev_sort plain_sorter (world_of unsorted1) stdin_only [] = Ret (Result 0 out [] None) /\
    sort_inputs (fun x => x) 4 rev_sort (with_unique true plain_sorter) (world_of unsorted1) stdin_only [] =
      Ret (Result 0 (written false distinct) [] None) /\
    Uniq.Uniq.run (fun x => x) (fun x => x) (fun _ => inl []) [] (Uniq.Uniq.World (inr out) (fun _ => inl []) (fun _ => None)) (uniq_flags true false) [] =
      Uniq.Uniq.Result 0
        (mjoin ((fun x => Uniq.Uniq.pad7 (Z.of_nat (multiplicity x (bag [str! "b"; str! "a"; str! "b"]))) ++ str! " " ++ x ++ [10]) <$> distinct)) [] None /\
    StronglySorted (fun a b => Compare a b < 0) distinct /\ (forall x, x ∈ distinct <-> x ∈ [str! "b"; str! "a"; str! "b"]).
Proof.
  refine (sort_uniq (fun x => x) 4 rev_sort (SortFunc0 := rev_sort_law) plain_sorter (world_of unsorted1) stdin_only [unsorted1] true
    (fun x => x) (fun x => x) (fun _ => inl []) [] (fun _ => inl []) (fun _ => None) _ eq_refl eq_refl _ eq_refl).
  - repeat split.
  - apply short_by_test. vm_compute. reflexivity.
Defined.

(** join -a 1 -2 2 of "1 a", "2 b", "2 c" and "x 2", "y 2", "z 3". *)
Definition join_options : Join.Join.options := Join.Join.Options 0 1 Join.Join.tabDefault true false false false false false [] [].
Definition join_flags (hdr check : bool) : Join.Join.flags := Join.Join.Flags false check false hdr false.
Definition table1 : list (list Z) := [str! "1 a"; str! "2 b"; str! "2 c"].
Definition table2 : list (list Z) := [str! "x 2"; str! "y 2"; str! "z 3"].

Lemma join_relational_witness :
  exists ev out,
    Join.Join.join_files Join.Join.ByBytes (join_flags false false) join_options [] None (str! "A") (str! "B") table1 table2 =
      Ret (Join.Join.Result 0 out []) /\
    JoinCorrect.JoinCorrect.pairs_of ev =
      [(str! "2 b", str! "x 2"); (str! "2 b", str! "y 2"); (str! "2 c", str! "x 2"); (str! "2 c", str! "y 2")] /\
    JoinCorrect.JoinCorrect.only_of 1 ev = [str! "1 a"] /\ JoinCorrect.JoinCorrect.only_of 2 ev = [str! "z 3"].
Proof.
  destruct (JoinCorrect.JoinCorrect.join_relational Join.Join.ByBytes Compare (join_flags false false) join_options [] (str! "A") (str! "B") table1 table2)
    as (h & ev & out & E & Hh & _ & _ & P & O1 & O2).
  - reflexivity.
  - split; split; vm_compute; congruence.
  - apply in_order_by_test. vm_compute. reflexivity.
  - apply in_order_by_test. vm_compute. reflexivity.
  - exists ev, out. rewrite (Hh eq_refl) in E. split; [exact E|]. rewrite P, O1, O2. split; [|split]; vm_compute; reflexivity.
Defined.

(** Lines out of order, a collation that fails. *)
Lemma join_returns_witness :
  exists r, Join.Join.join_files (Join.Join.ByCollator (fun _ _ => inl (str! "no locale"))) (join_flags true true) join_options
    [Join.Join.Spec 2 7] None (str! "A") (str! "B") table2 table1 = Ret r.
Proof. apply JoinTotal.JoinTotal.join_returns. split; split; vm_compute; congruence. Defined.

(** ** Runs *)

Example join_runs :
  Join.Join.join_files Join.Join.ByBytes (join_flags false false) join_options [] None (str! "A") (str! "B") table1 table2 =
  Ret (Join.Join.Result 0 (lines_of [str! "1 a"; str! "2 b x"; str! "2 b y"; str! "2 c x"; str! "2 c y"]) []).
Proof. vm_compute. reflexivity. Qed.


Example comm_columns :
  let f := Comm.Comm.Flags false false None true false in
  Comm.Comm.compare_files (fun a b => inr (Compare a b)) true (Comm.Comm.Columns false false false) f [] []
    (Comm.Comm.Reader (str! "a" ++ [10] ++ str! "b" ++ [10]) None) (Comm.Comm.Reader (str! "b" ++ [10] ++ str! "c") None) =
  Ret (Comm.Comm.Result 0 (str! "a" ++ [10; 9; 9] ++ str! "b" ++ [10; 9] ++ str! "c" ++ [10] ++
                 str! "1" ++ [9] ++ str! "1" ++ [9] ++ str! "1" ++ [9] ++ str! "3 total" ++ [10]) []).
Proof. vm_compute. reflexivity. Qed.

Example comm_clusters :
  Comm.Comm.take_columns (Comm.Comm.Columns false false false) false [str! "-13z"; str! "--out"; str! "-2"; str! "-2"; str! "f"; str! "-3"] =
  (Comm.Comm.Columns true true true, [str! "-z"; str! "--out"; str! "-2"; str! "f"; str! "-3"]).
Proof. vm_compute. reflexivity. Qed.

Lemma uniq_writes_witness :
  let f := Uniq.Uniq.Flags true true false true None None false (Some 1) None (Some 4) in
  let input := lines_of [str! "1 abc"; str! "2 ABCd"; str! "3 x"; str! "4 x"; str! "5 y"] in
  let w := Uniq.Uniq.World (inl []) (fun _ => inr input) (fun _ => None) in
  let operands := [str! "in"; str! "out"] in
  let runs := [[str! "1 abc"; str! "2 ABCd"]; [str! "3 x"; str! "4 x"]; [str! "5 y"]] in
  Uniq.Uniq.run (fun s => s) (fun s => s) (fun _ => inl []) [] w f operands =
    Uniq.Uniq.Result 0 [] [] (Some (str! "out", lines_of [str! "      2 1 abc"; str! "      2 3 x"])) /\
  map (UniqCorrect.UniqCorrect.selected f) runs = [true; true; false] /\
  exists gs, UniqCorrect.UniqCorrect.runs_of (UniqCorrect.UniqCorrect.compared f Uniq.Uniq.cKeyModel) gs (mjoin runs) /\
    Uniq.Uniq.run (fun s => s) (fun s => s) (fun _ => inl []) [] w f operands =
    UniqCorrect.UniqCorrect.delivered operands
      (UniqCorrect.UniqCorrect.framed f
        (UniqCorrect.UniqCorrect.run_text f <$> List.filter (UniqCorrect.UniqCorrect.selected f) gs)).
Proof.
  intros f input w operands runs. split; [vm_compute; reflexivity|]. split; [vm_compute; reflexivity|].
  apply (UniqCorrect.UniqCorrect.uniq_writes (fun s => s) (fun s => s) (fun _ => inl []) [] w f operands Uniq.Uniq.cKeyModel
    (Uniq.Uniq.Settings true true false false Uniq.Uniq.delimNone 10)); vm_compute; reflexivity.
Defined.

Example uniq_counts :
  Uniq.Uniq.run (fun s => s) (fun s => s) (fun _ => inl []) [] (Uniq.Uniq.World (inr (str! "a" ++ [10] ++ str! "a" ++ [10] ++ str! "b" ++ [10])) (fun _ => inl []) (fun _ => None))
    (Uniq.Uniq.Flags true false false false None None false None None None) [] =
  Uniq.Uniq.Result 0 (str! "      2 a" ++ [10] ++ str! "      1 b" ++ [10]) [] None.
Proof. vm_compute. reflexivity. Qed.

Example uniq_legacy :
  Uniq.Uniq.normalizeArgs false false false [str! "-1"; str! "+2"; str! "-D"; str! "none"; str! "-Dprepend"; str! "-f"; str! "-3"; str! "--"; str! "-4"] =
  [str! "-f"; str! "1"; str! "-s"; str! "2"; str! "-D=none"; str! "-D=prepend"; str! "-f"; str! "-3"; str! "--"; str! "-4"].
Proof. vm_compute. reflexivity. Qed.

(** ** Departures *)

(** With --check-order the command returns at the disorder without flushing
    its output, so the lines it has emitted before are lost; without the
    option the same lines are written. *)
Theorem check_order_loses_output :
  let a := lines_of [str! "a"; str! "c"; str! "b"] in
  comm_text true a [] = Ret (Comm.Comm.Result 1 [] (Comm.Comm.not_sorted 1)) /\
  comm_text false a [] = Ret (Comm.Comm.Result 1 a (Comm.Comm.not_sorted 1 ++ str! "comm: input is not in sorted order" ++ [10])).
Proof. vm_compute. done. Qed.

(** In a UTF-8 locale -s counts characters and -w counts bytes, so -w 1
    compares half of a character and drops a line that differs in it. *)
Theorem check_chars_counts_bytes :
  let env := [str! "POSIXLY_CORRECT=1"; str! "LC_ALL=C.UTF-8"] in
  let uniq w s := Uniq.Uniq.run (map upper) (fun x => x) (fun _ => inl []) env
    (Uniq.Uniq.World (inr (lines_of [[195; 169]; [195; 168]])) (fun _ => inl []) (fun _ => None))
    (Uniq.Uniq.Flags false false false false None None false None s w) [] in
  uniq (Some 1) None = Uniq.Uniq.Result 0 (lines_of [[195; 169]]) [] None /\
  uniq (Some 2) None = Uniq.Uniq.Result 0 (lines_of [[195; 169]; [195; 168]]) [] None /\
  uniq None (Some 1) = Uniq.Uniq.Result 0 (lines_of [[195; 169]]) [] None.
Proof. vm_compute. done. Qed.

(** Under --header a first line of blanks has no fields and is taken for a
    missing line, so that no header is written at all. *)
Theorem blank_header_dropped :
  let o := Join.Join.no_options in
  Join.Join.join_files Join.Join.ByBytes (join_flags true false) o [] None (str! "A") (str! "B") [str! " "; str! "1 a"] [str! "id n"; str! "1 b"] =
    Ret (Join.Join.Result 0 (lines_of [str! "1 a b"]) []) /\
  Join.Join.join_files Join.Join.ByBytes (join_flags true false) o [] None (str! "A") (str! "B") [str! "id"; str! "1 a"] [str! "id n"; str! "1 b"] =
    Ret (Join.Join.Result 0 (lines_of [str! "id n"; str! "1 a b"]) []).
Proof. vm_compute. done. Qed.

(** Under --header the lines are counted from the line after the header, so a
    disorder in the third line is reported as one in the second. *)
Theorem header_line_numbers :
  Join.Join.join_files Join.Join.ByBytes (join_flags true true) Join.Join.no_options [] None (str! "A") (str! "B")
    [str! "id"; str! "2 b"; str! "1 a"] [str! "id"] =
  Ret (Join.Join.Result 1 [] (str! "join: A:2: is not sorted: 1 a" ++ [10])).
Proof. vm_compute. reflexivity. Qed.
End TextWitness.
